(* ===== verification/_CoqProject ===== *)
-Q . S2P
Prelude.v
StdAlgo.v
Varint.v
Types.v
Key.v
Utils.v
PageBuffer.v
Generator.v
RwSync.v
SpinLock.v
Skiplist.v
SkiplistInv.v
SkiplistSteps.v
SkiplistLin.v
RandomHeight.v
Recycler.v
IoContext.v
IoRequests.v
IoExecutor.v
Allocators.v
BufferPool.v
FsFile.v
QuotientFilter.v
QfLayout.v
QfCorrect.v
Block.v
BlockBuffer.v
Wal.v
Merge.v
Sst.v
SstStream.v
SstFile.v
MergeFile.v
SstManager.v
Compactor.v
Lsm.v
LsmFiles.v
Manifest.v
Persist.v
Memtable.v
ConcurrentMemtable.v
MemtableSwitch.v
SwitchInv.v
SwitchCorrect.v
RangeIterator.v
Scan.v
Database.v
Restart.v
