(* ===== verification/Prelude.v ===== *)
(** * HedgeDB: a verification development

    HedgeDB is an embedded key-value store: an LSM tree whose key space is
    cut into 2^e partitions by the first two bytes of the key.

    ** The program and how its parts interact

    A write ([database::put_async], [database::remove_async]) goes to the
    memtable ([memtable::put_async]): the tagged value is copied into an
    arena, an entry (key, sequence number, value) is inserted in a skiplist,
    and the entry is appended to the write-ahead log ([wal::append]). When
    the arenas are exhausted the put freezes the table, waits for one of
    [max_pending_flushes] slots and for the table prepared in advance, and
    puts that in its place; the old one joins the pending flushes. A flush ([index_ops::flush_memtable]) cuts the
    sorted table into one run per partition, keeps the newest version of
    every key, and writes each run as an SST: pages of prefix-compressed
    blocks ([block_encoder] under [block_buffer_writer] and
    [merge_write_buffer]), a meta index with the last key of every page, a
    quotient filter and a footer. The SST manager
    ([sst_manager::push_new_ssts_to_l0]) puts the SSTs in level 0 of their
    partitions, picks buckets of neighbouring SSTs for compaction, merges a
    bucket ([index_ops::k_way_merge_async2]) into one SST of the next level, and
    records the levels in a manifest per partition. A read
    ([database::get_async]) asks the memtable, then the pending tables, then
    the levels of the partition from the newest SST to the oldest. A scan
    ([database::scan]) merges cursors over the memtables with streams over
    the pages of the SSTs ([range_iterator]). On
    restart the manifests are loaded and the log is replayed beyond what the
    SSTs hold ([database::load], [memtable::replay_wal]).

    The tables are skiplists that many threads write and read at once
    ([ConcurrentSkipList]); files are opened through [fs::file], and reads
    and writes go through the I/O context of the thread ([io_ctx]), which
    queues requests for an io_uring and resumes the coroutines that wait.

    ** Files

    - Prelude (this file): error codes and fallible results
      (include/error.hpp), machine integers, little-endian encoding, byte
      memory, the generic lemmas and the tactics.
    - StdAlgo: the parts of the C++ standard library the code relies on,
      byte-string comparison and the binary searches.
    - Varint: src/db/varint.h.
    - Types: include/types.h and the serialised keys at the end of
      include/key.h: value pointers, the value variant and its type tag.
    - Key: the string type [key<31>] of include/key.h with its heap buffers;
      a program over key objects is a list of [kop], run by [kstep].
    - Utils: src/utils.h and src/utils.cc, page rounding, partition routing,
      partition directories.
    - PageBuffer: src/page_aligned_buffer.h, a vector over page-aligned
      storage; a write outside the storage is undefined, and so is assigning
      to raw memory unless the type allows it.
    - Generator: src/async/generator.h, coroutine frames, the objects that
      refer to them and the loop over a generator.
    - RwSync: src/async/rw_sync.h, writers and the flusher as a transition
      system with one step per atomic access.
    - SpinLock: micro_spin_lock.h of the skiplist, the lock and its waiting.
    - Skiplist, SkiplistInv, SkiplistSteps, SkiplistLin: the concurrent
      skiplist, src/db/skiplist/concurrent_skip_list/concurrent_skiplist.h
      and skiplist_details.h. The first has the transition system (a thread
      is a call, a step one access to shared memory), the second the
      invariant, the third one lemma per step, the fourth the theorems.
    - RandomHeight: [SkipListRandomHeight] of skiplist_details.h, the tables
      from which heights and the growth of the head are taken.
    - Recycler: [NodeRecycler] and [Accessor], when nodes are destroyed.
    - IoContext: include/io/io_ctx.h. The class [Uring] has the operations
      of io_uring and [UringLaws] what its manual promises: a submission
      may be partial, and a wait may end without a completion. That
      the calls do not fail and a wait returns with a completion is a
      hypothesis of its own ([patient_ring]) where requests have to be
      answered; an instance shows that all this can hold.
    - IoRequests: src/io/io_requests_impl.h and the awaitable of io_ctx.h.
    - IoExecutor: src/io/io_executor.cc, threads, cores, life cycle.
    - Allocators: src/db/stack_allocator.h with the inline vectors of
      src/db/block.h, and src/single_buffer_arena_allocator.h.
    - BufferPool: src/db/buffer_pool.h, buffers, guards and the heap.
    - FsFile: src/fs/fs.hpp, files and mappings over a small state of the
      operating system; calls may fail, and those of [std::filesystem] may
      throw.
    - QuotientFilter, QfLayout, QfCorrect: src/db/qf.h, qf.cc and the
      wrapper quotient_filter.cc. The first has the operations on the
      bit-packed table, the second the layout of runs in clusters a set of
      fingerprints has, the third the proof that the operations keep to it.
    - Block: src/db/block.h and block.cc, encoder, iterator and decoder of
      a block. The page is a byte list, pointers are offsets in it. The
      512 restart offsets an encoder has room for are kept: beyond them a
      push throws.
    - BlockBuffer: the buffer writer and reader of src/db/block.h and
      src/db/merge/write_buffer.h.
    - Wal: src/db/wal.h, wal.cc and hasher.h, appending, reading back,
      replaying and resetting the log over a directory of files.
    - Merge: src/db/merge/merge_utils.h and the merge loop of
      src/db/merge/merge.cc over lists of entries; the sizing of the filter
      in src/db/index_ops.cc.
    - Sst: src/db/sst.h, sst.cc and the index writer of
      src/db/index_ops.h and index_ops.cc: writing, the meta and super
      index, the point lookup, the page range of a scan, the footer, the
      compaction states.
    - SstStream: src/fs/file_reader2.h, file_reader2.cc and [sst_stream] of
      src/db/merge/sst_stream.h, reading the pages of a file ahead.
    - SstFile: the bytes of an SST file. The filter, meta index and footer
      as [_export_as_sst_async] of index_ops.cc and the end of merge.cc
      write them, and [sst::load] of sst.cc.
    - MergeFile: the whole of [k_way_merge_async2] on SST objects: streams
      over the input files, their refreshing, the heap, the filter, the
      pages written and the new file.
    - SstManager: src/db/sst_manager.h and sst_manager.cc, a partition
      as a record of levels, compaction states and chains of compaction
      tasks, with push, bucket picking, launch, publish, failure, lookup
      and backpressure. The class [SstReader] is what this layer asks of an
      SST: that a lookup in it answers for the run it was written from.
    - Compactor: the worker, the chained tasks with their semaphores, the
      counters and the waiting of sst_manager.cc as a transition system.
    - Lsm: the reachable states of a partition (an inductive relation over
      push, compact, publish and fail) refine the log of flushes; the
      instance [file_reader] discharges [SstReader] with the writer and the
      lookup of Sst and the quotient filter.
    - LsmFiles: the same states with the bytes of every SST file: flushes
      write files, compactions run the merge of MergeFile, lookups read.
    - Manifest: [_serialize_levels] of sst_manager.cc and
      src/db/sst_manager_loader.cc.
    - Persist: [_persist_partition_state] and the commits that call it as a
      transition system: concurrent tasks, two mutexes, the pages written
      and synced, the names created and unlinked in the directory and how
      many of them are synced, and what a crash leaves.
    - Memtable: src/db/memtable.h, memtable.cc, skiplist.h,
      arena_allocator.h and the flush of index_ops.cc. [put_async] is a
      program counter ([put_pc]) and a step function that is undefined while
      the call is suspended; [gate] has the slots, the pipelined table and
      the logs it waits for, and [background_step] what flushes and the
      maker of tables do meanwhile.
    - ConcurrentMemtable: the memtable's entries and comparator on the
      skiplist of Skiplist; it discharges [Comparator], the class of what
      the list asks of its order.
    - MemtableSwitch, SwitchInv, SwitchCorrect: writers, readers, the switch
      of the table, flushes and compactions of memtable.cc and database.cc
      interleaved, one step per access to shared state; the first has the
      transition system, the second its invariant, the third the theorems.
    - RangeIterator: [memtable_cursor] of sst_stream.h, and
      include/db/range_iterator.h and range_iterator.cc over sources given by their
      entries.
    - Scan: [range_iterator::make_new], [memtable::acquire_snapshot] and
      [database::scan]: the sources are the cursors and streams of the
      files above.
    - Database: include/db/database.h and src/db/database.cc.
    - Restart: [database::load] of a database that stopped between two
      operations: the levels, the log and the recovered table.

    ** What the theorems show

    - The whole: in every state reached by the steps of writes (keys of 2 to
      255 bytes, values that fit a page, a budget of at least one extent),
      flushes and compactions of any partition in levels other than the
      last, the database answers every read as the map of the writes
      acknowledged, the one under way being in or not, and every write can
      be completed when there is a flush slot ([Database]). A partition alone refines the log of its
      flushes under every interleaving of compactions, failing ones
      included ([Lsm]), and so does the partition of bytes: what a lookup
      reads from the files is the newest version flushed ([LsmFiles]). A
      restart between such steps keeps the map of the writes, but for the
      very first one when it was in the log alone ([Restart]).
    - Table switches: under every interleaving of writers, readers, switches
      and flushes no acknowledged write is lost, and a read that starts
      after a write was acknowledged sees it or a newer one, if no switch is
      halfway; the two orders of steps for which the code misses a write are
      shown as runs ([SwitchCorrect]).
    - Compaction: the merge of files yields a file that stores exactly the
      merge of what the inputs store ([MergeFile]); the counters of pending
      work are exact, the tasks settle when every merge succeeds, and after
      a failed one a waiter hangs ([Compactor]).
    - Scans: the pairs a scan of a partition returns are the newest
      versions of the keys between the bounds, in order, without deleted
      keys, among all the current table, all pending flushes and the bytes
      of all SST files have, although the code drops some of them ([Scan]); the
      iterator, the cursor and the stream each have the theorem the next
      one needs ([RangeIterator], [SstStream]).
    - Persistence: whatever the interleaving of the persist tasks, a manifest
      a crash can leave names no file that was unlinked, and once a persist
      task returned, only files that the crash leaves; between the syncs of
      the manifest and of the directory it may name a file that is lost; a
      partition at rest whose removals are synced restarts as it was; an SST file that was flushed or merged
      loads and answers for exactly its entries ([Persist], [SstFile],
      [Manifest]).
    - Synchronisation: when the flusher has seen every counter at zero no
      writer is in the table, now or later, and it gets there under every
      fair schedule ([RwSync]).
    - The skiplist: after any interleaving of insertions, lookups, scans
      and replacements of the head it holds the set that the insertions
      give one after the other; every insertion and lookup answers as that
      set did at one moment of the call, a scan sees what was there when it
      began and nothing that was never inserted, calls take effect in their real order, each layer
      is sorted and part of the layer below, and the calls do not deadlock
      ([SkiplistLin]). So a lookup in a table finds the newest version, in
      whatever order the versions came ([ConcurrentMemtable]). No node is destroyed while an accessor can
      reach it, and none is left ([Recycler]). The lock that these models
      take in one step excludes, and a free one is obtained ([SpinLock]);
      the heights drawn and the sizes at which the head grows are those of
      tables that are sorted and saturate ([RandomHeight]).
    - I/O: the context never overruns its queues, resumes every request
      once, with the result of that request, and on a ring that makes
      progress leaves none behind ([IoContext]); entries stand for their requests as long as lengths
      fit 32 bits ([IoRequests]); the hooks of the executor find their
      contexts, and its two kinds have disjoint cores ([IoExecutor]).
    - Resources: descriptors and mappings are those of the live objects and
      of the paths that lose them ([FsFile]); page buffers are in the pool or in one
      guard ([BufferPool]); spans of the arena are disjoint ([Allocators]).
    - The layers: a put is visible and disturbs no other key; the merge
      keeps exactly the newest version of each key; the quotient filter
      answers yes for exactly the fingerprints inserted; an SST answers exactly
      for what was written to it; blocks and buffers read back what was
      pushed and the search in a block is exact; the super index does not
      change the page found; the log replays everything appended, in order;
      recovery restores the log beyond the SSTs; buckets are disjoint,
      contiguous, pickable and sized; a flush keeps the newest versions; the
      key type frees every buffer exactly once; a page-aligned buffer is a
      vector; varints, values and the meta index round-trip; the
      filter is large enough for its keys.
    - Error paths and limits: full blocks and buffers are refused only when
      they are full; the decoder of varints is total; a file without the
      magic or cut short does not load; and a group of
      theorems states precisely where the code falls short: delta keys of
      256 bytes, log values of 64 KiB, a torn log, a manifest of more than
      one page, a crash during a flush or a compaction or between the two
      syncs, a memtable budget below an extent, no flush slots, more restart
      groups than an encoder has room for, writes lost by a second recovery, a compaction inside
      the last level, a failed compaction, a merge or a scan of empty
      inputs, snapshots seen through a cursor, inverted bounds, writers that
      share a slot, appending to a buffer without capacity, growing one of
      items that are not trivial, one-byte keys,
      the order on value pointers, a pool that is never refilled, files of
      unexpected size, appending modes, cores with two processing units,
      machines with one, moved and copied inline vectors.

    ** Integers, fuel and bounds

    Byte and word values are [Z] with the wrap-around of the C++ type
    written out ([u8], [u16], [u32], [u64]); offsets and counts that the
    code bounds by a page or a buffer are [nat]. Loops whose recursion is
    not structural take fuel: the merge loop takes the number of its input
    entries (each round removes one), the log reader the length of the file
    (each entry has at least one byte), the merge of files the number of
    keys its inputs index, the bucket loop the length of the
    level, the loops of the quotient filter the number of its slots (a loop
    that went round once would never stop), the streams and the iterator a
    number of steps that the theorems bound by the entries ahead; and the
    theorems prove that this is enough by concluding with
    the result. The loop of [put_async] is a transition system; its theorem
    bounds the steps of a call, shows which background steps a suspended
    call waits for, and others show that with a small budget or without
    flush slots it never returns. The meta index and the filter of a file
    are written and read with one system call each, which transfers at most
    0x7ffff000 bytes; [MAX_KEYS] is the number of keys up to which both fit
    whatever the keys are, and [MAX_READ_AHEAD] the read-ahead up to which
    the reads and flushes of a merge do.

    ** Code outside the repository

    The XXH64 hash is a parameter, with the hypothesis that it is not
    negative where the filter uses it. The outcome of the
    write system call and the loading of an SST file in the manifest parser are
    parameters too. Bytes that the code writes without having initialised
    them (padding, the rest of a page) are a parameter of the file writers.
    [std::pop_heap] is modelled by its contract. io_uring is a class of
    operations with laws, the topology of the processor a record, and the
    descriptors, addresses and failures that the system chooses are
    arguments. Doubles are those of the library SpecFloat, so that the
    threshold of a refresh and the tables of RandomHeight are computed as the
    program does; [exp] is a parameter there. In Skiplist the outcome of a
    draw and the size limits are parameters, so that its theorems hold for
    any. Memtable
    has the skiplist as the ordered set that ConcurrentMemtable shows it to
    be. In RwSync and Persist the
    atomic accesses are sequentially consistent, which the fences and
    mutexes of the code give, and in Skiplist and Recycler an access
    happens at one moment, so reorderings that acquire and release would
    still allow are not considered; a page write is atomic, fdatasync of a
    file makes durable what was written before it was called, and that of a
    directory the names created and removed before.

    ** Not modelled

    The page cache (a stub in the sources), the thread pool (a library), and
    what the database does not call of the skiplist: removal, the Skipper,
    first and last. Of concurrent operations, those of
    the skiplist are interleaved with each other, writers with the flusher
    (RwSync), persist tasks with changes of the levels (Persist), and flushes
    and compaction tasks with each other and with whole operations (Lsm);
    in Memtable and Database one write is under way at a time, beside flushes
    and compactions, and MemtableSwitch
    interleaves them, with the LSM tree as the runs pushed to it. A merge reads its
    inputs with every error a stream can report, but the writes to its
    output file succeed, as I/O does unless a definition says otherwise.
    Benchmarks, loggers, performance counters (compiled to nothing, and not
    called) and tests are left out.

    What could follow: removal and merging of quotient filters against the
    layout, scans beside concurrent writes, failing writes of a merge, the
    operations of the skiplist that the database does not call. *)

From stdpp Require Import base list numbers strings gmap sorting.
From Stdlib Require Import ZArith Lia.

Declare Scope hedge_scope.
Delimit Scope hedge_scope with hedge.

(** ** Errors and fallible results (include/error.hpp) *)

Inductive errc :=
  | GENERIC_ERROR
  | VALUE_TABLE_NOT_ENOUGH_SPACE
  | KEY_NOT_FOUND
  | DELETED
  | BUSY
  | BUFFER_FULL
  | END_OF_SCAN
  | SKIP.

#[global] Instance errc_eq_dec : EqDecision errc.
Proof. solve_decision. Defined.

(** [hedge::error]: a message and a code, the code defaulting to
    [GENERIC_ERROR]. *)
Record error := mk_error { error_msg : string; error_code : errc }.

Definition generic_error (msg : string) : error := mk_error msg GENERIC_ERROR.

(** [hedge::expected<T>] *)
Inductive expected (A : Type) :=
  | Ok (a : A)
  | Err (e : error).
Arguments Ok {A} a.
Arguments Err {A} e.

(** [hedge::status] holds nothing ([ok()]) or an error. *)
Definition status := expected unit.
Definition ok : status := Ok tt.

Definition is_ok {A} (r : expected A) : bool :=
  match r with Ok _ => true | Err _ => false end.

#[global] Instance expected_ret : MRet expected := @Ok.
#[global] Instance expected_bind : MBind expected :=
  fun _ _ f r => match r with Ok a => f a | Err e => Err e end.
#[global] Instance expected_fmap : FMap expected :=
  fun _ _ f r => match r with Ok a => Ok (f a) | Err e => Err e end.

Lemma is_ok_true {A} (r : expected A) : is_ok r = true <-> exists a, r = Ok a.
Proof. destruct r; simpl; split; [eauto | done | done | by intros [? ?]]. Qed.

Lemma bind_Ok {A B} (r : expected A) (f : A -> expected B) b :
  r ≫= f = Ok b <-> exists a, r = Ok a /\ f a = Ok b.
Proof.
  destruct r; cbn; split; [eauto | | done |]; intros (? & ? & ?); simplify_eq; done.
Qed.

(** ** Automation *)

Create HintDb hedge.
Create Rewrite HintDb hedge.

(** Case analysis on every [match]/[if] of the goal or the context that
    stands on a variable-free discriminee. *)
Ltac split_ifs :=
  repeat match goal with
  | |- context [if ?b then _ else _] => destruct b eqn:?
  | H : context [if ?b then _ else _] |- _ => destruct b eqn:?
  end.

(** Turns the boolean comparisons of the code into the propositions they
    decide. *)
Ltac breflect :=
  repeat match goal with
  | H : (_ <? _)%Z = true |- _ => apply Z.ltb_lt in H
  | H : (_ <? _)%Z = false |- _ => apply Z.ltb_ge in H
  | H : (_ <=? _)%Z = true |- _ => apply Z.leb_le in H
  | H : (_ <=? _)%Z = false |- _ => apply Z.leb_gt in H
  | H : (_ =? _)%Z = true |- _ => apply Z.eqb_eq in H
  | H : (_ =? _)%Z = false |- _ => apply Z.eqb_neq in H
  | H : (_ <? _)%nat = true |- _ => apply Nat.ltb_lt in H
  | H : (_ <? _)%nat = false |- _ => apply Nat.ltb_ge in H
  | H : (_ <=? _)%nat = true |- _ => apply Nat.leb_le in H
  | H : (_ <=? _)%nat = false |- _ => apply Nat.leb_gt in H
  | H : (_ =? _)%nat = true |- _ => apply Nat.eqb_eq in H
  | H : (_ =? _)%nat = false |- _ => apply Nat.eqb_neq in H
  | H : (_ && _)%bool = true |- _ => apply andb_true_iff in H as [? ?]
  | H : (_ || _)%bool = false |- _ => apply orb_false_iff in H as [? ?]
  | H : negb _ = true |- _ => apply negb_true_iff in H
  | H : negb _ = false |- _ => apply negb_false_iff in H
  end.

(** Splits a conjunction of the goal into its parts. *)
Ltac split_ands := repeat match goal with |- _ /\ _ => split end.

(** ** Machine integers *)

(** [wrap w x]: the value of an unsigned [w]-bit integer. *)
Definition wrap (w x : Z) : Z := (x mod 2 ^ w)%Z.
Abbreviation u8 := (wrap 8).
Abbreviation u16 := (wrap 16).
Abbreviation u32 := (wrap 32).
Abbreviation u64 := (wrap 64).

Section wrap.
Local Open Scope Z_scope.

Lemma wrap_small w x : 0 <= x < 2 ^ w -> wrap w x = x.
Proof. apply Z.mod_small. Qed.

Lemma wrap_range w x : 0 <= w -> 0 <= wrap w x < 2 ^ w.
Proof. intros. apply Z.mod_pos_bound. lia. Qed.

Lemma wrap_land w x : 0 <= w -> wrap w x = Z.land x (Z.ones w).
Proof. intros. unfold wrap. by rewrite Z.land_ones. Qed.
End wrap.

(** ** Memory: byte buffers read and written at offsets *)

Abbreviation bytes := (list Z).

Definition byte_ok (b : Z) : Prop := (0 <= b < 256)%Z.

(** [memcpy(buf + off, xs, |xs|)] *)
Definition write_at {A} (buf : list A) (off : nat) (xs : list A) : list A :=
  take off buf ++ xs ++ drop (off + length xs) buf.

(** The [n] elements of [buf] from [off] on, fewer past its end. *)
Definition read_at {A} (buf : list A) (off n : nat) : list A :=
  take n (drop off buf).

Section memory.
Context {A : Type}.
Implicit Types (buf xs ys : list A) (off n : nat).

Lemma length_write_at buf off xs :
  off + length xs <= length buf -> length (write_at buf off xs) = length buf.
Proof. intros. unfold write_at. rewrite !length_app, length_take, length_drop. lia. Qed.

Lemma length_read_at buf off n :
  off + n <= length buf -> length (read_at buf off n) = n.
Proof. intros. unfold read_at. rewrite length_take, length_drop. lia. Qed.

Lemma lookup_write_at buf off xs i :
  off + length xs <= length buf ->
  write_at buf off xs !! i =
    if decide (off <= i < off + length xs) then xs !! (i - off) else buf !! i.
Proof.
  intros Hlen. unfold write_at. case_decide as Hi.
  - rewrite lookup_app_r; rewrite length_take; [|lia].
    rewrite lookup_app_l by lia. f_equal. lia.
  - destruct (decide (i < off)).
    + rewrite lookup_app_l by (rewrite length_take; lia). by rewrite lookup_take_lt.
    + rewrite lookup_app_r; rewrite length_take; [|lia].
      rewrite lookup_app_r by lia. rewrite lookup_drop. f_equal. lia.
Qed.

Lemma lookup_read_at buf off n i :
  read_at buf off n !! i = if decide (i < n) then buf !! (off + i) else None.
Proof.
  unfold read_at. case_decide.
  - rewrite lookup_take_lt by lia. by rewrite lookup_drop.
  - by rewrite lookup_take_ge by lia.
Qed.

(** Reading back what was written. *)
Lemma read_write_at_eq buf off xs :
  off + length xs <= length buf -> read_at (write_at buf off xs) off (length xs) = xs.
Proof.
  intros. apply list_eq. intros i. rewrite lookup_read_at.
  case_decide as Hi.
  - rewrite lookup_write_at by done. rewrite decide_True by lia. f_equal. lia.
  - symmetry. apply lookup_ge_None. lia.
Qed.

(** A write leaves every disjoint region alone. *)
Lemma read_write_at_ne buf off xs off' n :
  off + length xs <= length buf ->
  off' + n <= off \/ off + length xs <= off' ->
  read_at (write_at buf off xs) off' n = read_at buf off' n.
Proof.
  intros Hlen Hd. apply list_eq. intros i. rewrite !lookup_read_at.
  case_decide; [|done]. rewrite lookup_write_at by done. by rewrite decide_False by lia.
Qed.

Lemma read_at_app buf off n m :
  read_at buf off (n + m) = read_at buf off n ++ read_at buf (off + n) m.
Proof.
  unfold read_at. rewrite <- (take_drop n (take (n + m) (drop off buf))).
  f_equal.
  - rewrite take_take. f_equal. lia.
  - rewrite <- drop_drop, skipn_firstn_comm. f_equal. lia.
Qed.

(** A read at a known region of an appended buffer. *)
Lemma read_at_mid (pre xs post : list A) :
  read_at (pre ++ xs ++ post) (length pre) (length xs) = xs.
Proof. unfold read_at. rewrite drop_app_length, take_app_length. done. Qed.

Lemma read_at_sub buf off n off' m xs :
  read_at buf off n = xs -> off' + m <= n ->
  read_at buf (off + off') m = read_at xs off' m.
Proof.
  intros <- Hm. apply list_eq. intros i. rewrite !lookup_read_at.
  case_decide; [|done]. rewrite decide_True by lia. f_equal. lia.
Qed.

Lemma read_at_lookup buf off n xs i :
  read_at buf off n = xs -> i < n -> buf !! (off + i) = xs !! i.
Proof. intros <- Hi. rewrite lookup_read_at. by rewrite decide_True. Qed.

(** Two adjacent writes are one. *)
Lemma write_at_app buf off xs ys :
  off + length xs <= length buf ->
  write_at (write_at buf off xs) (off + length xs) ys = write_at buf off (xs ++ ys).
Proof.
  intros H. unfold write_at.
  assert (length (take off buf ++ xs) = off + length xs) as Hl
    by (rewrite length_app, length_take; lia).
  rewrite !app_assoc, <- Hl, (take_app_length (take off buf ++ xs)).
  f_equal. rewrite <- drop_drop, drop_app_length, drop_drop. f_equal.
  rewrite Hl, length_app. lia.
Qed.

(** [buf] holds [xs] at offset [off]. *)
Definition mem_has buf off xs : Prop := read_at buf off (length xs) = xs.

Lemma mem_has_app buf off xs ys :
  mem_has buf off (xs ++ ys) <-> mem_has buf off xs /\ mem_has buf (off + length xs) ys.
Proof.
  unfold mem_has. rewrite length_app, read_at_app. split.
  - intros H. apply app_inj_1 in H; [done|].
    apply (f_equal length) in H. rewrite !length_app in H.
    unfold read_at in *. rewrite !length_take in *. lia.
  - intros [-> ->]. done.
Qed.

Lemma mem_has_write_eq buf off xs :
  off + length xs <= length buf -> mem_has (write_at buf off xs) off xs.
Proof. apply read_write_at_eq. Qed.

Lemma mem_has_write_ne buf off xs off' ys :
  off + length xs <= length buf ->
  off' + length ys <= off \/ off + length xs <= off' ->
  mem_has buf off' ys -> mem_has (write_at buf off xs) off' ys.
Proof. unfold mem_has. intros. by rewrite read_write_at_ne. Qed.

Lemma mem_has_read buf off xs n : mem_has buf off xs -> n = length xs -> read_at buf off n = xs.
Proof. intros H ->. done. Qed.

Lemma mem_has_lookup buf off x xs : mem_has buf off (x :: xs) -> buf !! off = Some x.
Proof.
  intros H. rewrite <- (Nat.add_0_r off).
  rewrite (read_at_lookup buf off _ _ 0 H) by (simpl; lia). done.
Qed.

Lemma mem_has_bound buf off xs : mem_has buf off xs -> xs <> [] -> off + length xs <= length buf.
Proof.
  intros H Hne. apply (f_equal length) in H. unfold read_at in H.
  rewrite length_take, length_drop in H. destruct xs; [done|]. cbn [length] in *. lia.
Qed.

Lemma read_at_full buf : read_at buf 0 (length buf) = buf.
Proof. unfold read_at. rewrite drop_0. by apply take_ge. Qed.

(** Writing what is there already changes nothing. *)
Lemma write_at_same buf off xs :
  mem_has buf off xs -> off + length xs <= length buf -> write_at buf off xs = buf.
Proof.
  intros H Hl. apply list_eq. intros i. rewrite lookup_write_at by done.
  case_decide as Hi; [|done]. rewrite <- (read_at_lookup buf off (length xs) xs (i - off) H) by lia.
  f_equal. lia.
Qed.

(** A region that agrees holds the same sub-regions. *)
Lemma mem_has_move buf buf' b b' n o xs :
  read_at buf' b' n = read_at buf b n -> o + length xs <= n ->
  mem_has buf (b + o) xs -> mem_has buf' (b' + o) xs.
Proof.
  intros Hr Ho H. unfold mem_has in *. rewrite <- H at 2. apply list_eq. intros i.
  rewrite !lookup_read_at. case_decide as Hi; [|done].
  apply (f_equal (fun l => l !! (o + i))) in Hr. rewrite !lookup_read_at in Hr.
  rewrite !decide_True in Hr by lia. rewrite <- !Nat.add_assoc. exact Hr.
Qed.

Lemma read_at_move buf buf' b b' n o m :
  read_at buf' b' n = read_at buf b n -> o + m <= n -> read_at buf' (b' + o) m = read_at buf (b + o) m.
Proof.
  intros Hr Ho. apply list_eq. intros i. rewrite !lookup_read_at. case_decide as Hi; [|done].
  apply (f_equal (fun l => l !! (o + i))) in Hr. rewrite !lookup_read_at in Hr.
  rewrite !decide_True in Hr by lia. rewrite <- !Nat.add_assoc. exact Hr.
Qed.

(** A longer read at a known region starts with it. *)
Lemma mem_has_read_prefix buf off xs n :
  mem_has buf off xs -> length xs <= n -> exists rest, read_at buf off n = xs ++ rest.
Proof.
  intros H Hn. exists (read_at buf (off + length xs) (n - length xs)).
  rewrite <- H at 1. rewrite <- read_at_app. f_equal. lia.
Qed.
End memory.
#[export] Hint Rewrite @length_write_at using lia : hedge.

Lemma mjoin_cons {A} (x : list A) xs : mjoin (x :: xs) = x ++ mjoin xs.
Proof. done. Qed.

Lemma mjoin_app {A} (xs ys : list (list A)) : mjoin (xs ++ ys) = mjoin xs ++ mjoin ys.
Proof. induction xs as [|x xs IH]; [done|]. simpl. by rewrite <- app_assoc, <- IH. Qed.

(** Replacing an element of a list of lists, up to the order. *)
Lemma mjoin_insert {A B} (f : A -> list B) (l : list A) i x y :
  l !! i = Some x -> f x ++ mjoin (f <$> <[i := y]> l) ≡ₚ f y ++ mjoin (f <$> l).
Proof.
  intros Hi. rewrite insert_take_drop by (by apply lookup_lt_Some in Hi).
  rewrite <- (take_drop_middle l i x Hi) at 3. rewrite !fmap_app, !fmap_cons, !mjoin_app, !mjoin_cons. solve_Permutation.
Qed.

Lemma mjoin_replicate_nil {A} n : mjoin (replicate n ([] : list A)) = [].
Proof. by induction n. Qed.

(** ** Little-endian integers *)

(** The [n] bytes of [v], least significant first. *)
Fixpoint le_encode (n : nat) (v : Z) : bytes :=
  match n with
  | O => []
  | S n => (v mod 256)%Z :: le_encode n (v / 256)%Z
  end.

Fixpoint le_decode (bs : bytes) : Z :=
  match bs with
  | [] => 0%Z
  | b :: bs => (b + 256 * le_decode bs)%Z
  end.

Section le.
Local Open Scope Z_scope.

Lemma length_le_encode n v : length (le_encode n v) = n.
Proof. revert v. induction n; intros; simpl; auto. Qed.

Lemma le_encode_ok n v : Forall byte_ok (le_encode n v).
Proof.
  revert v. induction n; intros; simpl; constructor; auto.
  unfold byte_ok. apply Z.mod_pos_bound. lia.
Qed.

Lemma le_decode_encode n v : 0 <= v < 256 ^ Z.of_nat n -> le_decode (le_encode n v) = v.
Proof.
  revert v. induction n as [|n IH]; intros v Hv.
  - change (256 ^ Z.of_nat 0) with 1 in Hv. simpl. lia.
  - simpl. rewrite IH.
    + pose proof (Z.div_mod v 256 ltac:(lia)). lia.
    + rewrite Nat2Z.inj_succ, Z.pow_succ_r in Hv by lia.
      split; [apply Z.div_pos; lia | apply Z.div_lt_upper_bound; lia].
Qed.

Lemma le_encode_decode bs : Forall byte_ok bs -> le_encode (length bs) (le_decode bs) = bs.
Proof.
  induction 1 as [|b bs Hb _ IH]; simpl; [done|].
  unfold byte_ok in Hb.
  replace (b + 256 * le_decode bs) with (b + le_decode bs * 256) by lia.
  rewrite Z.mod_add, Z.div_add, Z.mod_small, Z.div_small by lia.
  by rewrite Z.add_0_l, IH.
Qed.

Lemma le_decode_nonneg bs : Forall byte_ok bs -> 0 <= le_decode bs.
Proof. induction 1 as [|b bs Hb _ IH]; simpl; unfold byte_ok in *; lia. Qed.
End le.

(** ** Bit operations *)

Section bits.
Local Open Scope Z_scope.

Lemma testbit_small a s i : 0 <= a < 2 ^ s -> 0 <= s <= i -> Z.testbit a i = false.
Proof.
  intros Ha Hi. destruct (decide (a = 0)) as [->|]; [apply Z.bits_0|].
  apply Z.bits_above_log2; [lia|].
  apply Z.lt_le_trans with s; [|lia]. apply Z.log2_lt_pow2; lia.
Qed.

(** Or-ing in bits above those in use is an addition. *)
Lemma lor_shiftl_add a x s :
  0 <= s -> 0 <= a < 2 ^ s -> Z.lor a (Z.shiftl x s) = a + x * 2 ^ s.
Proof.
  intros Hs Ha.
  assert (Z.land a (Z.shiftl x s) = 0) as Hd.
  { apply Z.bits_inj'. intros i Hi. rewrite Z.land_spec, Z.bits_0.
    destruct (decide (i < s)).
    - rewrite Z.shiftl_spec_low by lia. by rewrite andb_false_r.
    - by rewrite (testbit_small a s) by lia. }
  rewrite <- Z.shiftl_mul_pow2 by lia.
  rewrite Z.add_nocarry_lxor by done. symmetry. by apply Z.lxor_lor.
Qed.

Lemma land_pow2_pred x s : 0 <= s -> Z.land x (2 ^ s - 1) = x mod 2 ^ s.
Proof. intros. rewrite <- Z.land_ones by lia. f_equal. rewrite Z.ones_equiv. lia. Qed.
End bits.
