(* ===== verification/StdAlgo.v ===== *)
(** * The parts of the C++ standard library the code relies on

    Byte-string comparison ([std::string_view] and
    [std::ranges::lexicographical_compare] on unsigned bytes), and the
    binary searches [std::lower_bound] and [std::upper_bound] as the
    halving loop they run. *)

From stdpp Require Import base list numbers.
From Stdlib Require Import ZArith Lia.
From S2P Require Import Prelude.

(** ** Comparison of byte strings *)

Module Lex.

Fixpoint compare (a b : bytes) : comparison :=
  match a, b with
  | [], [] => Eq
  | [], _ :: _ => Lt
  | _ :: _, [] => Gt
  | x :: a, y :: b =>
      match (x ?= y)%Z with Eq => compare a b | c => c end
  end.

Definition ltb (a b : bytes) : bool := match compare a b with Lt => true | _ => false end.
Definition leb (a b : bytes) : bool := match compare a b with Gt => false | _ => true end.
Definition eqb (a b : bytes) : bool := match compare a b with Eq => true | _ => false end.

Definition lt (a b : bytes) : Prop := compare a b = Lt.
Definition le (a b : bytes) : Prop := compare a b <> Gt.

Lemma compare_eq a b : compare a b = Eq <-> a = b.
Proof.
  split; [|intros ->; induction b; simpl; rewrite ?Z.compare_refl; auto].
  revert b. induction a as [|x a IH]; intros [|y b]; simpl; try done.
  destruct (Z.compare_spec x y); intros; try done. subst. f_equal. auto.
Qed.

Lemma compare_antisym a b : compare b a = CompOpp (compare a b).
Proof.
  revert b. induction a as [|x a IH]; intros [|y b]; simpl; try done.
  rewrite (Z.compare_antisym x y). destruct (x ?= y)%Z; simpl; auto.
Qed.

Lemma lt_trans a b c : lt a b -> lt b c -> lt a c.
Proof.
  unfold lt. revert b c. induction a as [|x a IH]; intros [|y b] [|z c]; simpl; try done.
  destruct (Z.compare_spec x y), (Z.compare_spec y z); intros; try done; subst.
  - rewrite Z.compare_refl. eauto.
  - by rewrite (proj2 (Z.compare_lt_iff _ _)).
  - by rewrite (proj2 (Z.compare_lt_iff _ _)).
  - by rewrite (proj2 (Z.compare_lt_iff x z)) by lia.
Qed.

Lemma lt_irrefl a : ~ lt a a.
Proof. unfold lt. by rewrite (proj2 (compare_eq a a)). Qed.

Lemma ltb_lt a b : ltb a b = true <-> lt a b.
Proof. unfold ltb, lt. destruct (compare a b); split; done. Qed.
Lemma leb_le a b : leb a b = true <-> le a b.
Proof. unfold leb, le. destruct (compare a b); split; done. Qed.
Lemma eqb_eq a b : eqb a b = true <-> a = b.
Proof. rewrite <- compare_eq. unfold eqb. destruct (compare a b); split; done. Qed.
Lemma eqb_refl a : eqb a a = true.
Proof. by apply eqb_eq. Qed.

Lemma ltb_ge a b : ltb a b = false <-> le b a.
Proof. unfold ltb, le. rewrite (compare_antisym a b). destruct (compare a b); split; done. Qed.

Lemma le_lteq a b : le a b <-> lt a b \/ a = b.
Proof. rewrite <- compare_eq. unfold le, lt. destruct (compare a b); naive_solver. Qed.
Lemma lt_le a b : lt a b -> le a b.
Proof. rewrite le_lteq. auto. Qed.
Lemma le_refl a : le a a.
Proof. rewrite le_lteq. auto. Qed.
Lemma le_trans a b c : le a b -> le b c -> le a c.
Proof. rewrite !le_lteq. intros [?| ->] [?| ->]; eauto using lt_trans. Qed.
Lemma lt_le_trans a b c : lt a b -> le b c -> lt a c.
Proof. rewrite le_lteq. intros ? [?| ->]; eauto using lt_trans. Qed.
Lemma le_lt_trans a b c : le a b -> lt b c -> lt a c.
Proof. rewrite le_lteq. intros [?| ->]; eauto using lt_trans. Qed.
Lemma lt_not_le a b : lt a b -> ~ le b a.
Proof. intros H1 H2. apply (lt_irrefl a). eauto using lt_le_trans. Qed.
Lemma trichotomy a b : lt a b \/ a = b \/ lt b a.
Proof.
  rewrite <- compare_eq. unfold lt. rewrite (compare_antisym a b).
  destruct (compare a b); simpl; auto.
Qed.
Lemma lt_ne a b : lt a b -> a <> b.
Proof. intros H ->. by apply lt_irrefl in H. Qed.

#[global] Instance lt_dec : RelDecision lt.
Proof. intros a b. unfold lt. solve_decision. Defined.
#[global] Instance le_dec : RelDecision le.
Proof. intros a b. unfold le. solve_decision. Defined.
#[global] Instance lt_strict : StrictOrder lt.
Proof. split; [exact lt_irrefl | exact lt_trans]. Qed.
#[global] Instance le_preorder : PreOrder le.
Proof. split; [exact le_refl | exact le_trans]. Qed.

End Lex.

#[export] Hint Resolve Lex.lt_le Lex.le_refl : hedge.
#[export] Hint Resolve Lex.lt_trans Lex.le_trans Lex.lt_le_trans Lex.le_lt_trans : hedge_trans.

(** ** Binary search

    The loop both [std::lower_bound] and [std::upper_bound] run: [p i]
    tells whether the searched position lies after index [i]. *)
Fixpoint partition_point (p : nat -> bool) (fuel first len : nat) : nat :=
  match fuel with
  | O => first
  | S fuel =>
      if (len =? 0)%nat then first
      else
        let half := Nat.div2 len in
        let mid := first + half in
        if p mid then partition_point p fuel (S mid) (len - half - 1)
        else partition_point p fuel first half
  end.

(** [std::lower_bound(first, last, v)] on [l], as an index: [less x] is
    [x < v]. *)
Definition lower_bound {A} (less : A -> bool) (l : list A) : nat :=
  partition_point (fun i => match l !! i with Some x => less x | None => false end)
    (length l) 0 (length l).

(** [std::upper_bound(first, last, v)]: [greater x] is [v < x]. *)
Definition upper_bound {A} (greater : A -> bool) (l : list A) : nat :=
  partition_point (fun i => match l !! i with Some x => negb (greater x) | None => false end)
    (length l) 0 (length l).

(** [p] is a prefix predicate on the first [n] indices. *)
Definition prefix_closed (p : nat -> bool) (lo hi : nat) : Prop :=
  forall i j, lo <= i -> i <= j -> j < hi -> p j = true -> p i = true.

Lemma partition_point_spec p fuel first len :
  len <= fuel -> prefix_closed p first (first + len) ->
  let r := partition_point p fuel first len in
  first <= r <= first + len /\
  (forall i, first <= i < r -> p i = true) /\
  (forall i, r <= i < first + len -> p i = false).
Proof.
  revert first len. induction fuel as [|fuel IH]; intros first len Hf Hp; simpl.
  { split_ands; intros; lia. }
  destruct (Nat.eqb_spec len 0) as [->|Hlen]; [split_ands; intros; lia|].
  pose proof (Nat.lt_div2 len ltac:(lia)) as Hhalf.
  set (half := Nat.div2 len) in *. destruct (p (first + half)) eqn:Hmid.
  - destruct (IH (S (first + half)) (len - half - 1)) as (Hr & Hlo & Hhi); [lia| |].
    { intros i j ????. eapply Hp; [lia|exact H0| lia |done]. }
    set (r := partition_point p fuel (S (first + half)) (len - half - 1)) in *.
    split_ands; [lia|lia| |]; intros i Hi.
    + destruct (decide (i <= first + half)); [|apply Hlo; lia].
      eapply (Hp i (first + half)); [lia|lia|lia|done].
    + apply Hhi. lia.
  - destruct (IH first half) as (Hr & Hlo & Hhi); [lia| |].
    { intros i j ????. eapply Hp; [lia|exact H0| lia |done]. }
    set (r := partition_point p fuel first half) in *.
    split_ands; [lia|lia|auto|]; intros i Hi.
    destruct (decide (i < first + half)); [apply Hhi; lia|].
    destruct (p i) eqn:Hpi; [|done].
    rewrite <- Hmid. symmetry. eapply (Hp (first + half) i); [lia|lia|lia|done].
Qed.

Section search.
Context {A : Type} (l : list A).

Definition prefix_pred (q : A -> bool) : Prop :=
  forall i j x y, i <= j -> l !! i = Some x -> l !! j = Some y -> q y = true -> q x = true.

Lemma prefix_pred_closed q :
  prefix_pred q ->
  prefix_closed (fun i => match l !! i with Some x => q x | None => false end) 0 (0 + length l).
Proof.
  intros Hq i j Hi Hij Hj Hpj.
  destruct (l !! j) as [y|] eqn:Ej; [|done].
  destruct (l !! i) as [x|] eqn:Ei; [exact (Hq i j x y Hij Ei Ej Hpj)|].
  apply lookup_ge_None in Ei. apply lookup_lt_Some in Ej. lia.
Qed.

(** [std::lower_bound] on a range partitioned by [less] returns the
    partition point: everything before it is less, nothing from it on. *)
Lemma lower_bound_spec (less : A -> bool) :
  prefix_pred less ->
  let r := lower_bound less l in
  r <= length l /\
  (forall i x, i < r -> l !! i = Some x -> less x = true) /\
  (forall i x, r <= i -> l !! i = Some x -> less x = false).
Proof.
  intros Hq. destruct (partition_point_spec _ (length l) 0 (length l) ltac:(lia)
    (prefix_pred_closed _ Hq)) as (Hr & Hlo & Hhi).
  unfold lower_bound. split_ands; [lia| |]; intros i x Hi Hx.
  - specialize (Hlo i ltac:(lia)). by rewrite Hx in Hlo.
  - specialize (Hhi i (conj Hi (lookup_lt_Some _ _ _ Hx))). by rewrite Hx in Hhi.
Qed.

(** [std::upper_bound]: the first element greater than the value. *)
Lemma upper_bound_spec (greater : A -> bool) :
  prefix_pred (fun x => negb (greater x)) ->
  let r := upper_bound greater l in
  r <= length l /\
  (forall i x, i < r -> l !! i = Some x -> greater x = false) /\
  (forall i x, r <= i -> l !! i = Some x -> greater x = true).
Proof.
  intros Hq. destruct (lower_bound_spec _ Hq) as (Hr & Hlo & Hhi).
  unfold upper_bound. fold (lower_bound (fun x => negb (greater x)) l).
  split_ands; [done| |]; intros i x Hi Hx.
  - apply negb_true_iff. eauto.
  - apply negb_false_iff. eauto.
Qed.
End search.

(** The partition point is unique. *)
Lemma lower_bound_unique {A} (l : list A) (less : A -> bool) r :
  prefix_pred l less -> r <= length l ->
  (forall i x, i < r -> l !! i = Some x -> less x = true) ->
  (forall i x, r <= i -> l !! i = Some x -> less x = false) ->
  lower_bound less l = r.
Proof.
  intros Hp Hr Hlo Hhi. destruct (lower_bound_spec l less Hp) as (Hr' & Hlo' & Hhi').
  set (r' := lower_bound less l) in *.
  destruct (Nat.lt_trichotomy r r') as [H|[H|H]]; [|done|].
  - destruct (lookup_lt_is_Some_2 l r) as [x Hx]; [lia|].
    specialize (Hhi r x ltac:(lia) Hx). rewrite (Hlo' r x ltac:(lia) Hx) in Hhi. done.
  - destruct (lookup_lt_is_Some_2 l r') as [x Hx]; [lia|].
    specialize (Hlo r' x H Hx). rewrite (Hhi' r' x ltac:(lia) Hx) in Hlo. done.
Qed.
