(* ===== verification/Varint.v ===== *)
(** * Variable-length integers (src/db/varint.h)

    [unsafe_varint] writes an unsigned integer seven bits at a time, low
    bits first, [varint_length] predicts how many bytes that takes, and
    [try_decode_varint] reads one back, by an unrolled fast path when at
    least [MAX_VARINT_LENGTH_64] bytes are available and by a loop
    otherwise. *)

From stdpp Require Import base list numbers strings.
From Stdlib Require Import ZArith Lia.
From S2P Require Import Prelude.

Local Open Scope Z_scope.

Definition MAX_VARINT_LENGTH_32 : nat := 5.
Definition MAX_VARINT_LENGTH_64 : nat := 10.
Definition VALUE_MASK : Z := 127.
Definition CONTINUATION_BIT : Z := 128.

(** The encoding loop; [fuel] bounds the number of bytes written. *)
Fixpoint unsafe_varint_loop (fuel : nat) (value : Z) : bytes :=
  match fuel with
  | O => []
  | S fuel =>
      if CONTINUATION_BIT <=? value
      then u8 (Z.lor value CONTINUATION_BIT) :: unsafe_varint_loop fuel (Z.shiftr value 7)
      else [u8 value]
  end.

(** The bytes [unsafe_varint<uint64_t>] stores at [ptr]; the pointer it
    returns is [ptr] plus their number. *)
Definition unsafe_varint (value : Z) : bytes :=
  unsafe_varint_loop MAX_VARINT_LENGTH_64 value.

(** [std::bit_width] *)
Definition bit_width (v : Z) : Z := if v =? 0 then 0 else Z.log2 v + 1.

Definition varint_length (value : Z) : Z :=
  if value =? 0 then 1 else (bit_width value + 6) / 7.

(** The shift and the value mask of each step of the unrolled path. *)
Definition fast_steps : list (Z * Z) :=
  [(0, VALUE_MASK); (7, VALUE_MASK); (14, VALUE_MASK); (21, VALUE_MASK); (28, VALUE_MASK);
   (35, VALUE_MASK); (42, VALUE_MASK); (49, VALUE_MASK); (56, VALUE_MASK); (63, 1)].

Fixpoint decode_fast (steps : list (Z * Z)) (val : Z) (n : nat) (p : bytes)
    : expected (Z * nat) :=
  match steps, p with
  | (shift, mask) :: steps, b :: p =>
      let val := Z.lor val (Z.shiftl (Z.land b mask) shift) in
      if Z.land b CONTINUATION_BIT =? 0 then Ok (val, S n)
      else decode_fast steps val (S n) p
  | _, _ => Err (generic_error "too many bytes")
  end.

Fixpoint decode_slow (val shift : Z) (n : nat) (p : bytes) : expected (Z * nat) :=
  match p with
  | [] => Err (generic_error "too few bytes")
  | b :: p =>
      if Z.land b CONTINUATION_BIT =? 0
      then Ok (u64 (Z.lor val (Z.shiftl b shift)), S n)
      else decode_slow (u64 (Z.lor val (Z.shiftl (Z.land b VALUE_MASK) shift))) (shift + 7) (S n) p
  end.

(** The decoded value and the number of bytes it took. *)
Definition try_decode_varint (data : bytes) : expected (Z * nat) :=
  if (MAX_VARINT_LENGTH_64 <=? length data)%nat
  then decode_fast fast_steps 0 0 data
  else decode_slow 0 0 0 data.

(** ** The bytes of an encoding *)

Lemma continuation_byte v : 0 <= v -> u8 (Z.lor v CONTINUATION_BIT) = 128 + v mod 128.
Proof.
  intros Hv. unfold CONTINUATION_BIT.
  transitivity (Z.lor (Z.land v 127) (Z.shiftl 1 7)).
  - rewrite wrap_land by lia. apply Z.bits_inj'. intros i Hi.
    rewrite Z.land_spec, !Z.lor_spec, Z.land_spec.
    change 128 with (2 ^ 7). change 127 with (Z.ones 7).
    change (Z.shiftl 1 7) with (2 ^ 7).
    rewrite Z.pow2_bits_eqb by lia. rewrite !Z.testbit_ones_nonneg by lia.
    destruct (Z.eqb_spec 7 i), (Z.ltb_spec i 8), (Z.ltb_spec i 7); try lia;
      destruct (Z.testbit v i); done.
  - change 127 with (2 ^ 7 - 1). rewrite land_pow2_pred by lia.
    rewrite lor_shiftl_add by (try (apply Z.mod_pos_bound); lia).
    change (2 ^ 7) with 128. lia.
Qed.

Lemma continuation_flag b : 0 <= b < 128 -> Z.land (128 + b) CONTINUATION_BIT = 128.
Proof.
  intros Hb. unfold CONTINUATION_BIT. replace (128 + b) with (Z.lor b (Z.shiftl 1 7)).
  - change 128 with (Z.shiftl 1 7). rewrite Z.land_lor_distr_l.
    rewrite (Z.land_comm b). replace (Z.land (Z.shiftl 1 7) b) with 0; [done|].
    symmetry. apply Z.bits_inj'. intros i Hi. rewrite Z.land_spec, Z.bits_0.
    change (Z.shiftl 1 7) with (2 ^ 7). rewrite Z.pow2_bits_eqb by lia.
    destruct (Z.eqb_spec 7 i) as [<-|]; [|done]. by rewrite (testbit_small b 7) by lia.
  - rewrite lor_shiftl_add by lia. lia.
Qed.

Lemma final_flag b : 0 <= b < 128 -> Z.land b CONTINUATION_BIT = 0.
Proof.
  intros Hb. apply Z.bits_inj'. intros i Hi. rewrite Z.land_spec, Z.bits_0.
  change CONTINUATION_BIT with (2 ^ 7). rewrite Z.pow2_bits_eqb by lia.
  destruct (Z.eqb_spec 7 i) as [<-|]; [|by rewrite andb_false_r].
  by rewrite (testbit_small b 7) by lia.
Qed.

Lemma value_bits b : 0 <= b < 128 -> Z.land (128 + b) VALUE_MASK = b.
Proof.
  intros. unfold VALUE_MASK. change 127 with (2 ^ 7 - 1). rewrite land_pow2_pred by lia.
  replace (128 + b) with (b + 1 * 2 ^ 7) by lia. rewrite Z.mod_add by lia. by apply Z.mod_small.
Qed.

(** The encoding as a recursion on the value, independent of the fuel. *)
Lemma unsafe_varint_loop_small fuel v :
  0 <= v < 128 -> unsafe_varint_loop (S fuel) v = [v].
Proof.
  intros. simpl. unfold CONTINUATION_BIT.
  rewrite (proj2 (Z.leb_gt 128 v)) by lia. by rewrite wrap_small by lia.
Qed.

Lemma unsafe_varint_loop_big fuel v :
  128 <= v ->
  unsafe_varint_loop (S fuel) v = (128 + v mod 128) :: unsafe_varint_loop fuel (v / 128).
Proof.
  intros. simpl. rewrite continuation_byte by lia. unfold CONTINUATION_BIT.
  rewrite (proj2 (Z.leb_le 128 v)) by lia. by rewrite Z.shiftr_div_pow2 by lia.
Qed.

(** ** Length *)

Lemma varint_length_small v : 0 <= v < 128 -> varint_length v = 1.
Proof.
  intros Hv. unfold varint_length, bit_width. destruct (Z.eqb_spec v 0); [done|].
  pose proof (Z.log2_nonneg v). pose proof (proj1 (Z.log2_lt_pow2 v 7 ltac:(lia)) ltac:(lia)).
  symmetry. apply Z.div_unique with (Z.log2 v); lia.
Qed.

Lemma varint_length_big v : 128 <= v -> varint_length v = 1 + varint_length (v / 128).
Proof.
  intros Hv. unfold varint_length, bit_width.
  assert (1 <= v / 128) by (apply Z.div_le_lower_bound; lia).
  destruct (Z.eqb_spec v 0), (Z.eqb_spec (v / 128) 0); try lia.
  replace (v / 128) with (Z.shiftr v 7) by (by rewrite Z.shiftr_div_pow2 by lia).
  pose proof (proj1 (Z.log2_le_pow2 v 7 ltac:(lia)) ltac:(lia)).
  rewrite Z.log2_shiftr by lia. rewrite Z.max_r by lia.
  replace (Z.log2 v + 1 + 6) with (Z.log2 v - 7 + 1 + 6 + 1 * 7) by lia.
  rewrite Z.div_add by lia. lia.
Qed.

Lemma unsafe_varint_loop_length fuel v :
  0 <= v < 2 ^ (7 * Z.of_nat fuel) -> (0 < fuel)%nat ->
  Z.of_nat (length (unsafe_varint_loop fuel v)) = varint_length v.
Proof.
  revert v. induction fuel as [|fuel IH]; intros v Hv Hf; [lia|].
  destruct (decide (v < 128)).
  - rewrite unsafe_varint_loop_small by lia. by rewrite varint_length_small by lia.
  - rewrite unsafe_varint_loop_big by lia. rewrite varint_length_big by lia.
    replace (7 * Z.of_nat (S fuel)) with (7 * Z.of_nat fuel + 7) in Hv by lia.
    rewrite Z.pow_add_r in Hv by lia. change (2 ^ 7) with 128 in Hv.
    cbn [length]. rewrite Nat2Z.inj_succ, IH; [lia| |].
    + split; [apply Z.div_pos; lia|]. apply Z.div_lt_upper_bound; lia.
    + destruct fuel; [|lia]. change (7 * Z.of_nat 0) with 0 in Hv. change (2 ^ 0) with 1 in Hv. lia.
Qed.

(** ** Decoding an encoding *)

(** A value split at its low seven bits, scaled. *)
Lemma scaled_split v P : 0 <= v -> 0 < P ->
  0 <= v mod 128 * P /\ v mod 128 * P <= 127 * P /\ 0 <= v / 128 * P /\
  v * P = 128 * (v / 128 * P) + v mod 128 * P /\ v / 128 * (128 * P) = 128 * (v / 128 * P).
Proof.
  intros Hv HP. pose proof (Z.mod_pos_bound v 128 ltac:(lia)).
  assert (0 <= v / 128) by (apply Z.div_pos; lia).
  split_ands; [nia | nia | nia | | lia].
  rewrite (Z.div_mod v 128) at 1 by lia. lia.
Qed.

Lemma decode_slow_encode fuel v val shift n rest :
  0 <= v < 2 ^ (7 * Z.of_nat fuel) -> (0 < fuel)%nat ->
  0 <= shift -> 0 <= val < 2 ^ shift -> val + v * 2 ^ shift < 2 ^ 64 ->
  decode_slow val shift n (unsafe_varint_loop fuel v ++ rest) =
    Ok (val + v * 2 ^ shift, (n + length (unsafe_varint_loop fuel v))%nat).
Proof.
  revert v val shift n. induction fuel as [|fuel IH]; intros v val shift n Hv Hf Hs Hval Htot; [lia|].
  destruct (decide (v < 128)).
  - rewrite unsafe_varint_loop_small by lia. cbn [app decode_slow length].
    rewrite final_flag by lia. rewrite lor_shiftl_add by lia.
    rewrite wrap_small by nia. simpl. do 2 f_equal. lia.
  - rewrite unsafe_varint_loop_big by lia. cbn [app decode_slow length].
    pose proof (Z.mod_pos_bound v 128 ltac:(lia)).
    pose proof (Z.div_mod v 128 ltac:(lia)) as Hdm.
    rewrite continuation_flag by lia. change (128 =? 0) with false. cbv iota.
    rewrite value_bits by lia. rewrite lor_shiftl_add by lia.
    assert (0 < 2 ^ shift) by lia.
    assert (2 ^ (shift + 7) = 128 * 2 ^ shift) as E7
      by (rewrite Z.pow_add_r by lia; change (2 ^ 7) with 128; lia).
    destruct (scaled_split v (2 ^ shift) ltac:(lia) ltac:(lia)) as (? & ? & ? & ? & ?).
    assert (0 <= v / 128) by (apply Z.div_pos; lia).
    rewrite wrap_small by lia.
    replace (7 * Z.of_nat (S fuel)) with (7 * Z.of_nat fuel + 7) in Hv by lia.
    rewrite Z.pow_add_r in Hv by lia. change (2 ^ 7) with 128 in Hv.
    rewrite IH; [| | | lia | rewrite E7; lia | rewrite E7; lia].
    + f_equal. f_equal; [rewrite E7; lia | lia].
    + split; [lia|]. apply Z.div_lt_upper_bound; lia.
    + destruct fuel; [|lia]. change (7 * Z.of_nat 0) with 0 in Hv. change (2 ^ 0) with 1 in Hv. lia.
Qed.

(** The steps from the [k]-th on are those the slow loop would take,
    while seven value bits are kept. *)
Lemma decode_fast_encode fuel v val n rest :
  (fuel + n = 10)%nat -> (0 < fuel)%nat -> 0 <= v -> 0 <= val < 2 ^ (7 * Z.of_nat n) ->
  val + v * 2 ^ (7 * Z.of_nat n) < 2 ^ 64 ->
  decode_fast (drop n fast_steps) val n (unsafe_varint_loop fuel v ++ rest) =
    Ok (val + v * 2 ^ (7 * Z.of_nat n), (n + length (unsafe_varint_loop fuel v))%nat).
Proof.
  revert v val n. induction fuel as [|fuel IH]; intros v val n Hn Hf Hv Hval Htot; [lia|].
  assert (exists mask, drop n fast_steps = (7 * Z.of_nat n, mask) :: drop (S n) fast_steps /\
      (mask = VALUE_MASK \/ (n = 9%nat /\ mask = 1))) as (mask & -> & Hmask).
  { do 10 (destruct n as [|n]; [eexists; split; [reflexivity | auto]|]). lia. }
  assert (0 < 2 ^ (7 * Z.of_nat n)) by (apply Z.pow_pos_nonneg; lia).
  destruct (decide (v < 128)).
  - rewrite unsafe_varint_loop_small by lia. cbn [app decode_fast length].
    rewrite final_flag by lia. cbn [Z.eqb].
    assert (Z.land v mask = v) as ->.
    { destruct Hmask as [->|[-> ->]].
      - change VALUE_MASK with (2 ^ 7 - 1). rewrite land_pow2_pred by lia. apply Z.mod_small. lia.
      - change 1 with (2 ^ 1 - 1) at 1. rewrite land_pow2_pred by lia. apply Z.mod_small.
        change (2 ^ (7 * Z.of_nat 9)) with (2 ^ 63) in *. lia. }
    rewrite lor_shiftl_add by lia. do 2 f_equal. lia.
  - rewrite unsafe_varint_loop_big by lia. cbn [app decode_fast length].
    pose proof (Z.mod_pos_bound v 128 ltac:(lia)).
    pose proof (Z.div_mod v 128 ltac:(lia)) as Hdm.
    destruct Hmask as [->|[-> ->]];
      [|exfalso; change (2 ^ (7 * Z.of_nat 9)) with (2 ^ 63) in *; lia].
    rewrite continuation_flag by lia. change (128 =? 0) with false. cbv iota.
    rewrite value_bits by lia. rewrite lor_shiftl_add by lia.
    assert (2 ^ (7 * Z.of_nat (S n)) = 128 * 2 ^ (7 * Z.of_nat n)) as E7.
    { replace (7 * Z.of_nat (S n)) with (7 * Z.of_nat n + 7) by lia.
      rewrite Z.pow_add_r by lia. change (2 ^ 7) with 128. lia. }
    assert (1 <= v / 128) by (apply Z.div_le_lower_bound; lia).
    destruct (scaled_split v (2 ^ (7 * Z.of_nat n)) ltac:(lia) ltac:(lia)) as (? & ? & ? & ? & ?).
    rewrite IH; [| lia | | lia | rewrite E7; lia | rewrite E7; lia].
    + f_equal. f_equal; [rewrite E7; lia | lia].
    + destruct fuel; [|lia]. assert (n = 9)%nat as -> by lia.
      change (2 ^ (7 * Z.of_nat 9)) with (2 ^ 63) in *. lia.
Qed.

(** A byte carrying the continuation bit is not final. *)
Lemma continuation_byte_flag b : 128 <= b < 256 -> (Z.land b CONTINUATION_BIT =? 0) = false.
Proof.
  intros. replace b with (128 + (b - 128)) by lia. by rewrite continuation_flag by lia.
Qed.

Lemma decode_slow_all_continued val shift n p :
  Forall (fun b => 128 <= b < 256) p ->
  decode_slow val shift n p = Err (generic_error "too few bytes").
Proof.
  intros Hp. revert val shift n. induction Hp as [|b p Hb _ IH]; intros; simpl; [done|].
  by rewrite continuation_byte_flag.
Qed.

Lemma decode_fast_all_continued steps val n p :
  Forall (fun b => 128 <= b < 256) p ->
  decode_fast steps val n p = Err (generic_error "too many bytes").
Proof.
  intros Hp. revert steps val n. induction Hp as [|b p Hb _ IH]; intros [|[s m] steps] ??;
    simpl; try done. by rewrite continuation_byte_flag.
Qed.

Lemma decode_fast_consumed steps val n p v m :
  decode_fast steps val n p = Ok (v, m) ->
  (n < m <= n + length steps /\ m <= n + length p)%nat.
Proof.
  revert val n p. induction steps as [|[s k] steps IH]; intros val n [|b p]; simpl; try done.
  split_ifs; intros H; [injection H as <- <-; lia|]. apply IH in H. lia.
Qed.

Lemma decode_slow_consumed val shift n p v m :
  decode_slow val shift n p = Ok (v, m) -> (n < m <= n + length p)%nat.
Proof.
  revert val shift n. induction p as [|b p IH]; intros val shift n; simpl; [done|].
  split_ifs; intros H; [injection H as <- <-; lia|]. apply IH in H. lia.
Qed.

Lemma unsafe_varint_loop_bound fuel v :
  (length (unsafe_varint_loop fuel v) <= fuel)%nat.
Proof. revert v. induction fuel; intros; simpl; [lia|]. split_ifs; simpl; [|lia]. specialize (IHfuel (Z.shiftr v 7)). lia. Qed.

Lemma unsafe_varint_nonempty v : (0 < length (unsafe_varint v))%nat.
Proof.
  unfold unsafe_varint, MAX_VARINT_LENGTH_64. generalize 9%nat. intros fuel.
  cbn [unsafe_varint_loop]. split_ifs; simpl; lia.
Qed.

Lemma unsafe_varint_length v : 0 <= v < 2 ^ 64 ->
  Z.of_nat (length (unsafe_varint v)) = varint_length v.
Proof. intros. apply unsafe_varint_loop_length; unfold MAX_VARINT_LENGTH_64; lia. Qed.

Lemma decode_slow_varint v rest : 0 <= v < 2 ^ 64 ->
  decode_slow 0 0 0 (unsafe_varint v ++ rest) = Ok (v, length (unsafe_varint v)).
Proof.
  intros. unfold unsafe_varint, MAX_VARINT_LENGTH_64.
  rewrite decode_slow_encode by lia. do 2 f_equal. lia.
Qed.

Lemma decode_fast_varint v rest : 0 <= v < 2 ^ 64 ->
  decode_fast fast_steps 0 0 (unsafe_varint v ++ rest) = Ok (v, length (unsafe_varint v)).
Proof.
  intros. unfold unsafe_varint, MAX_VARINT_LENGTH_64.
  change fast_steps with (drop 0 fast_steps).
  rewrite decode_fast_encode by (simpl; lia). do 2 f_equal. simpl. lia.
Qed.

Lemma unsafe_varint_ok v : 0 <= v -> Forall byte_ok (unsafe_varint v).
Proof.
  unfold unsafe_varint. generalize MAX_VARINT_LENGTH_64 as fuel. intros fuel.
  revert v. induction fuel as [|fuel IH]; intros v Hv; [constructor|].
  simpl. split_ifs; constructor; try (unfold byte_ok; apply (wrap_range 8); lia); [|constructor].
  apply IH. rewrite Z.shiftr_div_pow2 by lia. apply Z.div_pos; lia.
Qed.

(** ** Properties *)

(** Decoding inverts encoding. For every 64-bit unsigned value and
    whatever bytes follow its encoding, [try_decode_varint] returns the
    value and the number of bytes [unsafe_varint] wrote, on the unrolled
    fast path and on the loop alike. *)
Theorem varint_roundtrip (v : Z) (rest : bytes) (Hv : 0 <= v < 2 ^ 64) :
  try_decode_varint (unsafe_varint v ++ rest) = Ok (v, length (unsafe_varint v)).
Proof.
  unfold try_decode_varint. case_match; [by apply decode_fast_varint | by apply decode_slow_varint].
Qed.

Lemma varint_roundtrip_witness :
  try_decode_varint (unsafe_varint (2 ^ 63 + 300) ++ [7]) = Ok (2 ^ 63 + 300, 10%nat).
Proof. exact (varint_roundtrip (2 ^ 63 + 300) [7] ltac:(lia)). Defined.

(** [varint_length] is exactly the number of bytes [unsafe_varint]
    writes, and that number is between 1 and [MAX_VARINT_LENGTH_64]. *)
Theorem varint_length_correct (v : Z) (Hv : 0 <= v < 2 ^ 64) :
  Z.of_nat (length (unsafe_varint v)) = varint_length v /\
  1 <= varint_length v <= Z.of_nat MAX_VARINT_LENGTH_64.
Proof.
  rewrite <- unsafe_varint_length by done.
  pose proof (unsafe_varint_nonempty v).
  pose proof (unsafe_varint_loop_bound MAX_VARINT_LENGTH_64 v). unfold unsafe_varint in *. lia.
Qed.

Lemma varint_length_witness :
  Z.of_nat (length (unsafe_varint 16384)) = varint_length 16384 /\
  1 <= varint_length 16384 <= Z.of_nat MAX_VARINT_LENGTH_64.
Proof. exact (varint_length_correct 16384 ltac:(lia)). Defined.

(** What [try_decode_varint] does on every input of bytes: a result
    never claims more bytes than the span holds nor more than
    [MAX_VARINT_LENGTH_64], and an unterminated sequence is reported as
    "too many bytes" when the span has [MAX_VARINT_LENGTH_64] bytes and as
    "too few bytes" when it is shorter. *)
Theorem try_decode_varint_total (data : bytes) :
  (forall v n, try_decode_varint data = Ok (v, n) ->
     (0 < n <= length data)%nat /\ (n <= MAX_VARINT_LENGTH_64)%nat) /\
  (Forall (fun b => 128 <= b < 256) data ->
     try_decode_varint data =
       Err (generic_error (if (MAX_VARINT_LENGTH_64 <=? length data)%nat
                           then "too many bytes" else "too few bytes"))).
Proof.
  unfold try_decode_varint. split.
  - intros v n. case_match eqn:Hl; intros H.
    + apply decode_fast_consumed in H. simpl in H. unfold MAX_VARINT_LENGTH_64. lia.
    + apply decode_slow_consumed in H. breflect. lia.
  - intros Hd. case_match; [by apply decode_fast_all_continued | by apply decode_slow_all_continued].
Qed.
