(* ===== verification/Types.v ===== *)
(** * Values and serialised keys (include/types.h, end of include/key.h)

    [value_ptr_t], the value variant with its one-byte type tag, and the
    length-prefixed form keys take inside SSTs. *)

From stdpp Require Import base list numbers strings.
From Stdlib Require Import ZArith Lia.
From S2P Require Import Prelude.

Definition KiB : nat := 1024.
Definition PAGE_SIZE_IN_BYTES : nat := 4 * KiB.
Definition MAX_KEY_LEN : nat := 256.
Definition MIN_KEY_LEN : nat := 1.

(** ** [value_ptr_t] *)

Module ValuePtr.
Local Open Scope Z_scope.

Record value_ptr_t := mk { _offset : Z; _size : Z; _table_id : Z }.

(** The C++ fields are unsigned, 64, 32 and 32 bits wide. *)
Definition wf (vp : value_ptr_t) : Prop :=
  0 <= _offset vp < 2 ^ 64 /\ 0 <= _size vp < 2 ^ 32 /\ 0 <= _table_id vp < 2 ^ 32.

Definition deleted_mask : Z := Z.shiftl 1 63.

Definition is_deleted (vp : value_ptr_t) : bool := Z.shiftr (_offset vp) 63 =? 1.

(** [_offset & ~deleted_mask], the complement taken on 64 bits. *)
Definition offset (vp : value_ptr_t) : Z := Z.land (_offset vp) (Z.lxor (Z.ones 64) deleted_mask).

Definition apply_delete (vp : value_ptr_t) : value_ptr_t :=
  mk (Z.lor (_offset vp) deleted_mask) (_size vp) (_table_id vp).

Definition less (a b : value_ptr_t) : bool :=
  if _table_id b <? _table_id a then true
  else if offset b <? offset a then true
  else is_deleted a && negb (is_deleted b).

Definition sizeof_value_ptr_t : nat := 16.

(** The object representation: the three fields in order, little endian. *)
Definition to_span (vp : value_ptr_t) : bytes :=
  le_encode 8 (_offset vp) ++ le_encode 4 (_size vp) ++ le_encode 4 (_table_id vp).

Definition of_bytes (bs : bytes) : value_ptr_t :=
  mk (le_decode (read_at bs 0 8)) (le_decode (read_at bs 8 4)) (le_decode (read_at bs 12 4)).

Definition try_from_span (span : bytes) : option value_ptr_t :=
  if (length span =? sizeof_value_ptr_t)%nat then Some (of_bytes span) else None.

End ValuePtr.
Export ValuePtr(value_ptr_t).

(** ** [value_t] *)

Inductive value_t :=
  | VPtr (vp : value_ptr_t)
  | VBytes (v : bytes)
  | VTombstone.

Inductive value_type := VALUE_PTR | IN_PLACE_VALUE | TOMBSTONE | UNDEFINED.

Definition value_type_code (t : value_type) : Z :=
  match t with VALUE_PTR => 0 | IN_PLACE_VALUE => 1 | TOMBSTONE => 2 | UNDEFINED => 255 end%Z.

(** The code reads the first byte before it looks at the size, so it is
    only called on a span that is not empty; the empty span falls in the
    error branch here. *)
Definition value_from_span (span : bytes) : expected value_t :=
  match span with
  | [] => Err (generic_error "Invalid value type")
  | type :: payload =>
      if (type =? value_type_code VALUE_PTR)%Z then
        if (length span =? 1 + ValuePtr.sizeof_value_ptr_t)%nat
        then Ok (VPtr (ValuePtr.of_bytes payload))
        else Err (generic_error "Invalid span size for value_ptr_t")
      else if (type =? value_type_code IN_PLACE_VALUE)%Z then Ok (VBytes payload)
      else if (type =? value_type_code TOMBSTONE)%Z then
        if (length span =? 1)%nat then Ok VTombstone
        else Err (generic_error "Invalid span size for tombstone_t")
      else Err (generic_error "Invalid value type")
  end.

Definition value_to_span (v : value_t) : bytes :=
  match v with
  | VPtr vp => ValuePtr.to_span vp
  | VBytes vec => vec
  | VTombstone => [value_type_code TOMBSTONE]
  end.

(** What [memtable::put_async] stores: the type tag, then the value. *)
Definition tagged_value (t : value_type) (value : bytes) : bytes := value_type_code t :: value.

(** ** Serialised keys *)

Definition encode_key_size (key_size : Z) : Z := u8 (key_size - 1).
Definition decode_key_size (encoded : Z) : nat := Z.to_nat encoded + 1.

(** The bytes [write_key_unsafe] stores. *)
Definition write_key (k : bytes) : bytes := encode_key_size (Z.of_nat (length k)) :: k.

(** The key at the start of [src]. *)
Definition read_key (src : bytes) : bytes :=
  match src with
  | [] => []
  | n :: rest => take (decode_key_size n) rest
  end.

Definition key_len_bytes : nat := 1.
Definition serialized_key_total_length (k : bytes) : nat := length k + key_len_bytes.
Definition deserialized_key_total_length (l : nat) : nat := l - key_len_bytes.

(** ** Lemmas *)

Lemma decode_encode_key_size n :
  MIN_KEY_LEN <= n <= MAX_KEY_LEN -> decode_key_size (encode_key_size (Z.of_nat n)) = n.
Proof.
  unfold MIN_KEY_LEN, MAX_KEY_LEN, decode_key_size, encode_key_size. intros.
  rewrite wrap_small by lia. lia.
Qed.

Lemma encode_key_size_ok n : byte_ok (encode_key_size n).
Proof. unfold byte_ok, encode_key_size. apply (wrap_range 8). lia. Qed.

Lemma read_write_key k rest :
  MIN_KEY_LEN <= length k <= MAX_KEY_LEN -> read_key (write_key k ++ rest) = k.
Proof.
  intros. simpl. rewrite decode_encode_key_size by done. apply take_app_length.
Qed.

Lemma length_write_key k : length (write_key k) = serialized_key_total_length k.
Proof. unfold serialized_key_total_length, key_len_bytes. simpl. lia. Qed.

Lemma value_from_span_in_place v :
  value_from_span (tagged_value IN_PLACE_VALUE v) = Ok (VBytes v).
Proof. done. Qed.

Lemma value_from_span_tombstone : value_from_span (tagged_value TOMBSTONE []) = Ok VTombstone.
Proof. done. Qed.

Section value_ptr_facts.
Import ValuePtr.
Local Open Scope Z_scope.

Lemma of_bytes_to_span vp : wf vp -> of_bytes (to_span vp) = vp.
Proof.
  intros (Ho & Hs & Ht). destruct vp as [o s t]. unfold of_bytes, to_span.
  cbn [_offset _size _table_id] in *.
  assert (read_at (le_encode 8 o ++ le_encode 4 s ++ le_encode 4 t) 0 8 = le_encode 8 o) as ->
    by (apply (read_at_mid [] (le_encode 8 o))).
  assert (read_at (le_encode 8 o ++ le_encode 4 s ++ le_encode 4 t) 8 4 = le_encode 4 s) as ->
    by (apply (read_at_mid (le_encode 8 o) (le_encode 4 s))).
  assert (read_at (le_encode 8 o ++ le_encode 4 s ++ le_encode 4 t) 12 4 = le_encode 4 t) as ->.
  { pose proof (read_at_mid (le_encode 8 o ++ le_encode 4 s) (le_encode 4 t) []) as H.
    rewrite app_nil_r, <- app_assoc in H. exact H. }
  by rewrite !le_decode_encode by (simpl; lia).
Qed.

Lemma offset_mod vp : wf vp -> offset vp = _offset vp mod 2 ^ 63.
Proof.
  intros _. unfold offset. change (Z.lxor (Z.ones 64) deleted_mask) with (Z.ones 63).
  by rewrite Z.land_ones.
Qed.
End value_ptr_facts.

(** ** Properties *)

(** A stored value reads back. The tagged bytes of an in-place value
    or of a tombstone, and of a well-formed value pointer, parse to that
    value; every other first byte, a tombstone with a payload and a
    pointer of the wrong size are errors. *)
Theorem value_span_roundtrip (v : bytes) (vp : value_ptr_t) (Hvp : ValuePtr.wf vp) :
  value_from_span (tagged_value IN_PLACE_VALUE v) = Ok (VBytes v) /\
  value_from_span (tagged_value TOMBSTONE []) = Ok VTombstone /\
  value_from_span (tagged_value VALUE_PTR (ValuePtr.to_span vp)) = Ok (VPtr vp) /\
  (v <> [] -> is_ok (value_from_span (tagged_value TOMBSTONE v)) = false) /\
  (length v <> ValuePtr.sizeof_value_ptr_t ->
     is_ok (value_from_span (tagged_value VALUE_PTR v)) = false) /\
  (forall t, (2 < t)%Z -> is_ok (value_from_span (t :: v)) = false).
Proof.
  split_ands; try done.
  - transitivity (Ok (VPtr (ValuePtr.of_bytes (ValuePtr.to_span vp)))); [done|].
    by rewrite of_bytes_to_span.
  - destruct v; done.
  - intros Hv. unfold value_from_span, tagged_value. cbn [Z.eqb value_type_code].
    case_match eqn:E; [|done]. apply Nat.eqb_eq in E. cbn [length Nat.add] in E.
    injection E as E. contradiction.
  - intros t Ht. unfold value_from_span. simpl.
    by rewrite !(proj2 (Z.eqb_neq _ _)) by lia.
Qed.

Lemma value_span_roundtrip_witness :
  value_from_span (tagged_value VALUE_PTR (ValuePtr.to_span (ValuePtr.mk (2 ^ 63 + 5) 10 3)))
    = Ok (VPtr (ValuePtr.mk (2 ^ 63 + 5) 10 3)).
Proof.
  refine (proj1 (proj2 (proj2 (value_span_roundtrip [1%Z] (ValuePtr.mk (2 ^ 63 + 5) 10 3) _)))).
  unfold ValuePtr.wf. simpl. lia.
Defined.

(** [apply_delete] sets the deletion flag and nothing else: the
    pointer is deleted, its offset, size and table are those of the
    original, and deleting again changes nothing. *)
Theorem apply_delete_correct (vp : value_ptr_t) (Hvp : ValuePtr.wf vp) :
  let d := ValuePtr.apply_delete vp in
  ValuePtr.wf d /\ ValuePtr.is_deleted d = true /\ ValuePtr.offset d = ValuePtr.offset vp /\
  ValuePtr._size d = ValuePtr._size vp /\ ValuePtr._table_id d = ValuePtr._table_id vp /\
  ValuePtr.apply_delete d = d.
Proof.
  destruct vp as [o s t]. destruct Hvp as (Ho & Hs & Ht). simpl in *.
  unfold ValuePtr.apply_delete. simpl.
  set (lo := (o mod 2 ^ 63)%Z).
  assert (0 <= lo < 2 ^ 63)%Z by (apply Z.mod_pos_bound; lia).
  assert (Z.lor o ValuePtr.deleted_mask = lo + 1 * 2 ^ 63)%Z as Hlor.
  { rewrite <- lor_shiftl_add by lia. change (Z.shiftl 1 63) with ValuePtr.deleted_mask.
    apply Z.bits_inj'. intros i Hi. rewrite !Z.lor_spec. unfold lo.
    change ValuePtr.deleted_mask with (2 ^ 63)%Z. rewrite Z.pow2_bits_eqb by lia.
    destruct (Z.eqb_spec 63 i); [by rewrite !orb_true_r|]. rewrite !orb_false_r.
    destruct (decide (i < 63)%Z); [by rewrite Z.mod_pow2_bits_low by lia|].
    rewrite Z.mod_pow2_bits_high by lia. apply (testbit_small o 64); lia. }
  assert (ValuePtr.wf (ValuePtr.mk (Z.lor o ValuePtr.deleted_mask) s t)) as Hwf
    by (unfold ValuePtr.wf; simpl; rewrite Hlor; lia).
  split_ands; try done.
  - unfold ValuePtr.is_deleted. cbn [ValuePtr._offset]. rewrite Hlor, Z.shiftr_div_pow2 by lia.
    rewrite Z.div_add, Z.div_small by lia. done.
  - rewrite !offset_mod by (try done; unfold ValuePtr.wf; simpl; lia).
    cbn [ValuePtr._offset].
    rewrite Hlor, Z.mod_add by lia. apply Z.mod_small. lia.
  - by rewrite <- Z.lor_assoc, Z.lor_diag.
Qed.

Lemma apply_delete_witness :
  ValuePtr.is_deleted (ValuePtr.apply_delete (ValuePtr.mk 77 10 3)) = true.
Proof.
  refine (proj1 (proj2 (apply_delete_correct (ValuePtr.mk 77 10 3) _))).
  unfold ValuePtr.wf. simpl. lia.
Defined.

(** The priority order on value pointers is not an order. Two
    pointers whose table ids and offsets disagree are each smaller than
    the other, because a smaller table id does not stop the comparison
    of the offsets. *)
Theorem value_ptr_less_not_asymmetric :
  exists a b, ValuePtr.wf a /\ ValuePtr.wf b /\ ValuePtr.less a b = true /\ ValuePtr.less b a = true.
Proof.
  exists (ValuePtr.mk 0 1 2), (ValuePtr.mk 100 1 1). unfold ValuePtr.wf. simpl.
  split_ands; try lia; reflexivity.
Qed.
