(* ===== verification/Key.v ===== *)
(** * The key string type (include/key.h)

    [key<31>] is a string with short-string optimisation: up to 31 bytes
    live in the object, longer strings in a heap buffer the object owns.
    The last byte of the object is the length of a short string or carries
    [LONG_STRING_FLAG]. The model keeps the heap explicit, so that the
    copies, moves and destructions of key objects can be shown to free
    every buffer exactly once. *)

From stdpp Require Import base list numbers gmap.
From Stdlib Require Import ZArith Lia.
From S2P Require Import Prelude StdAlgo.

(** ** The heap *)

Record heap := mk_heap { cells : gmap nat bytes; next : nat }.

(** [new std::byte[n]] followed by the [memcpy] that fills it. *)
Definition new_bytes (h : heap) (content : bytes) : heap * nat :=
  (mk_heap (<[next h := content]> (cells h)) (S (next h)), next h).

(** [delete[] p]; freeing what is not allocated is a memory error. *)
Definition delete_bytes (h : heap) (p : nat) : option heap :=
  match cells h !! p with
  | Some _ => Some (mk_heap (delete p (cells h)) (next h))
  | None => None
  end.

(** ** The object *)

Definition MAX_INLINE_LENGTH : nat := 31.
Definition LONG_STRING_FLAG : Z := 128.

(** [short_key_t] and [long_key_t] side by side; the flag byte is the
    last byte of both. *)
Record key := mk_key {
  fixed_buf : bytes;
  flag : Z;
  variable_buf : option nat;
  long_key_length : nat;
}.

Definition _is_long_str (k : key) : bool := negb (Z.land (flag k) LONG_STRING_FLAG =? 0)%Z.

Definition _set_flag (k : key) (v : Z) : key :=
  mk_key (fixed_buf k) v (variable_buf k) (long_key_length k).

Definition set_variable (k : key) (p : option nat) (len : nat) : key :=
  mk_key (fixed_buf k) (flag k) p len.

(** The bytes of the object, [operator std::span<const std::byte>]: the
    pointer and the size are selected by the long flag. [None] is a read
    through a pointer that is not allocated. *)
Definition as_bytes (h : heap) (k : key) : option bytes :=
  if _is_long_str k then
    match variable_buf k with
    | Some p => take (long_key_length k) <$> cells h !! p
    | None => None
    end
  else Some (take (Z.to_nat (flag k)) (fixed_buf k)).

Definition key_size (k : key) : nat :=
  if _is_long_str k then long_key_length k else Z.to_nat (flag k).

(** [_init]: [dst] is raw storage. *)
Definition _init (h : heap) (dst : key) (bs : bytes) : heap * key :=
  if (length bs <=? MAX_INLINE_LENGTH)%nat then
    (h, mk_key (write_at (fixed_buf dst) 0 bs) (Z.of_nat (length bs))
          (variable_buf dst) (long_key_length dst))
  else
    let '(h, p) := new_bytes h bs in
    (h, set_variable (_set_flag dst LONG_STRING_FLAG) (Some p) (length bs)).

Definition _free_if_long_str (h : heap) (k : key) : option (heap * key) :=
  if _is_long_str k then
    match variable_buf k with
    | Some p =>
        h ← delete_bytes h p;
        Some (h, set_variable (_set_flag k 0) None (long_key_length k))
    | None => Some (h, k)
    end
  else Some (h, k).

Definition _long_str_copy_unsafe (h : heap) (dest src : key) : option (heap * key) :=
  bs ← as_bytes h src;
  let '(h, p) := new_bytes h bs in
  Some (h, set_variable (_set_flag dest LONG_STRING_FLAG) (Some p) (long_key_length src)).

(** [memcpy] of the whole object. *)
Definition _short_str_copy_unsafe (dest src : key) : key := src.

Definition _copy (storage_initialized : bool) (h : heap) (dst src : key) : option (heap * key) :=
  '(h, dst) ← (if storage_initialized then _free_if_long_str h dst else Some (h, dst));
  if _is_long_str src then _long_str_copy_unsafe h dst src
  else Some (h, _short_str_copy_unsafe dst src).

(** The heap, the destination and the source after a move. *)
Definition _move (storage_initialized : bool) (h : heap) (dst src : key)
    : option (heap * key * key) :=
  '(h, dst) ← (if storage_initialized then _free_if_long_str h dst else Some (h, dst));
  if _is_long_str src then
    Some (h, _set_flag (set_variable dst (variable_buf src) (long_key_length src)) LONG_STRING_FLAG,
          _set_flag (set_variable src None 0) 0)
  else Some (h, _short_str_copy_unsafe dst src, src).

(** [key()]: the object zeroed. *)
Definition default_key : key := mk_key (replicate MAX_INLINE_LENGTH 0%Z) 0 None 0.

Definition make_with_length (h : heap) (storage : key) (junk : bytes) (len : nat) : heap * key :=
  if (len <=? MAX_INLINE_LENGTH)%nat then (h, _set_flag storage (Z.of_nat len))
  else
    let '(h, p) := new_bytes h (take len (junk ++ replicate len 0%Z)) in
    (h, set_variable (_set_flag storage LONG_STRING_FLAG) (Some p) len).

(** The comparison operators go through [std::string_view]. *)
Definition key_compare (h : heap) (a b : key) : option comparison :=
  x ← as_bytes h a; y ← as_bytes h b; Some (Lex.compare x y).

(** ** Programs over key objects

    The special member functions as steps on a store of live objects. *)

Inductive kop :=
  | KConstruct (i : nat) (bs : bytes)
  | KCopyConstruct (i src : nat)
  | KMoveConstruct (i src : nat)
  | KCopyAssign (i src : nat)
  | KMoveAssign (i src : nat)
  | KDestroy (i : nat).

Record kstate := mk_kstate { kheap : heap; objs : gmap nat key }.

(** Storage of an object about to be constructed: arbitrary bytes. *)
Definition raw_storage : key := mk_key (replicate MAX_INLINE_LENGTH 170%Z) 170 None 0.

Definition kstep (op : kop) (s : kstate) : option kstate :=
  let h := kheap s in
  match op with
  | KConstruct i bs =>
      let '(h, k) := _init h raw_storage bs in Some (mk_kstate h (<[i := k]> (objs s)))
  | KCopyConstruct i j =>
      src ← objs s !! j;
      '(h, k) ← _copy false h raw_storage src;
      Some (mk_kstate h (<[i := k]> (objs s)))
  | KMoveConstruct i j =>
      src ← objs s !! j;
      '(h, k, src) ← _move false h raw_storage src;
      Some (mk_kstate h (<[i := k]> (<[j := src]> (objs s))))
  | KCopyAssign i j =>
      if (i =? j)%nat then Some s
      else
        dst ← objs s !! i; src ← objs s !! j;
        '(h, k) ← _copy true h dst src;
        Some (mk_kstate h (<[i := k]> (objs s)))
  | KMoveAssign i j =>
      if (i =? j)%nat then
        (* both names are one object: freed first, then copied onto itself *)
        k ← objs s !! i;
        '(h, k) ← _free_if_long_str h k;
        '(h, k, _) ← _move false h k k;
        Some (mk_kstate h (<[i := k]> (objs s)))
      else
        dst ← objs s !! i; src ← objs s !! j;
        '(h, k, src) ← _move true h dst src;
        Some (mk_kstate h (<[i := k]> (<[j := src]> (objs s))))
  | KDestroy i =>
      k ← objs s !! i;
      '(h, _) ← _free_if_long_str h k;
      Some (mk_kstate h (delete i (objs s)))
  end.

(** ** What the steps mean

    The strings alone: a move leaves the source empty when it was long
    and untouched when it was short. *)
Definition moved_from (bs : bytes) : bytes :=
  if (length bs <=? MAX_INLINE_LENGTH)%nat then bs else [].

Definition spec_step (op : kop) (m : gmap nat bytes) : gmap nat bytes :=
  let at_ j := default [] (m !! j) in
  match op with
  | KConstruct i bs => <[i := bs]> m
  | KCopyConstruct i j => <[i := at_ j]> m
  | KMoveConstruct i j => <[i := at_ j]> (<[j := moved_from (at_ j)]> m)
  | KCopyAssign i j => <[i := at_ j]> m
  | KMoveAssign i j =>
      if (i =? j)%nat then <[i := moved_from (at_ i)]> m
      else <[i := at_ j]> (<[j := moved_from (at_ j)]> m)
  | KDestroy i => delete i m
  end.

(** Which steps a C++ program can take: objects are constructed where
    there is none, and used where there is one. *)
Definition kop_ok (op : kop) (m : gmap nat bytes) : Prop :=
  match op with
  | KConstruct i _ => m !! i = None
  | KCopyConstruct i j | KMoveConstruct i j => m !! i = None /\ is_Some (m !! j)
  | KCopyAssign i j | KMoveAssign i j => is_Some (m !! i) /\ is_Some (m !! j)
  | KDestroy i => is_Some (m !! i)
  end.

(** ** The invariant *)

(** [k] represents [bs]: inline, or through a buffer of its own. *)
Inductive represents (h : heap) (k : key) (bs : bytes) : option nat -> Prop :=
  | rep_short :
      flag k = Z.of_nat (length bs) -> length bs <= MAX_INLINE_LENGTH ->
      length (fixed_buf k) = MAX_INLINE_LENGTH -> take (length bs) (fixed_buf k) = bs ->
      represents h k bs None
  | rep_long p :
      flag k = LONG_STRING_FLAG -> MAX_INLINE_LENGTH < length bs ->
      variable_buf k = Some p -> long_key_length k = length bs -> cells h !! p = Some bs ->
      length (fixed_buf k) = MAX_INLINE_LENGTH ->
      represents h k bs (Some p).

Definition owned (k : key) : option nat := if _is_long_str k then variable_buf k else None.

Record kinv (s : kstate) (m : gmap nat bytes) : Prop := {
  inv_dom : forall i, objs s !! i = None <-> m !! i = None;
  inv_rep : forall i k bs, objs s !! i = Some k -> m !! i = Some bs ->
              represents (kheap s) k bs (owned k);
  inv_own : forall i j k k' p, objs s !! i = Some k -> objs s !! j = Some k' ->
              owned k = Some p -> owned k' = Some p -> i = j;
  inv_live : forall p, is_Some (cells (kheap s) !! p) ->
              p < next (kheap s) /\ exists i k, objs s !! i = Some k /\ owned k = Some p;
}.

Lemma rep_is_long h k bs o : represents h k bs o -> _is_long_str k = (MAX_INLINE_LENGTH <? length bs)%nat.
Proof.
  unfold _is_long_str, MAX_INLINE_LENGTH.
  intros [Hf Hl|p Hf Hl]; rewrite Hf.
  - rewrite (proj2 (Nat.ltb_ge _ _)) by done. unfold MAX_INLINE_LENGTH in Hl.
    generalize dependent (length bs). intros n _ Hn.
    do 32 (destruct n as [|n]; [reflexivity|]). lia.
  - symmetry. by apply Nat.ltb_lt.
Qed.

Lemma rep_as_bytes h k bs o : represents h k bs o -> as_bytes h k = Some bs.
Proof.
  intros Hr. unfold as_bytes. rewrite (rep_is_long _ _ _ _ Hr).
  destruct Hr as [Hf Hl _ Ht|p Hf Hl Hp Hn Hc].
  - rewrite (proj2 (Nat.ltb_ge _ _)) by done. by rewrite Hf, Nat2Z.id, Ht.
  - rewrite (proj2 (Nat.ltb_lt _ _)) by done. rewrite Hp, Hc, Hn. simpl. by rewrite firstn_all.
Qed.

(** A representation only depends on the buffer it owns. *)
Lemma rep_heap h h' k bs o :
  represents h k bs o -> (forall p, o = Some p -> cells h' !! p = cells h !! p) ->
  represents h' k bs o.
Proof. intros [] Heq; econstructor; eauto. rewrite Heq; eauto. Qed.

Lemma rep_owned h k bs o : represents h k bs o -> owned k = o.
Proof.
  intros Hr. unfold owned. rewrite (rep_is_long _ _ _ _ Hr).
  destruct Hr; [by rewrite (proj2 (Nat.ltb_ge _ _))|by rewrite (proj2 (Nat.ltb_lt _ _))].
Qed.

Lemma rep_fixed_buf h k bs o : represents h k bs o -> length (fixed_buf k) = MAX_INLINE_LENGTH.
Proof. by intros []. Qed.

(** The heap after an allocation of [bs] for an object that owns [o]. *)
Definition heap_with (o : option nat) (bs : bytes) (h : heap) : heap :=
  match o with Some _ => fst (new_bytes h bs) | None => h end.

(** The heap after the buffer [o] is released. *)
Definition heap_without (o : option nat) (h : heap) : heap :=
  match o with Some p => mk_heap (delete p (cells h)) (next h) | None => h end.

Lemma init_rep h dst bs :
  length (fixed_buf dst) = MAX_INLINE_LENGTH ->
  exists k o, _init h dst bs = (heap_with o bs h, k) /\ represents (heap_with o bs h) k bs o /\
    (o = None \/ o = Some (next h)).
Proof.
  intros Hd. unfold _init. destruct (Nat.leb_spec (length bs) MAX_INLINE_LENGTH) as [Hl|Hl].
  - eexists _, None. split_ands; [done| |by left]. apply rep_short; simpl; [done|done| |].
    + rewrite length_write_at by (simpl; lia). done.
    + unfold write_at. simpl. by rewrite take_app_length.
  - eexists _, (Some (next h)). split_ands; [done| |by right].
    apply rep_long; simpl; try done. apply lookup_insert_eq.
Qed.

Lemma free_rep h k bs o :
  represents h k bs o ->
  exists k', _free_if_long_str h k = Some (heap_without o h, k') /\
    represents (heap_without o h) k' (moved_from bs) None.
Proof.
  intros Hr. unfold _free_if_long_str. rewrite (rep_is_long _ _ _ _ Hr). unfold moved_from.
  destruct Hr as [Hf Hl Hb Ht|p Hf Hl Hp Hn Hc Hb].
  - rewrite (proj2 (Nat.ltb_ge _ _)), (proj2 (Nat.leb_le _ _)) by done.
    exists k. split; [done|]. by apply rep_short.
  - rewrite (proj2 (Nat.ltb_lt _ _)), (proj2 (Nat.leb_gt _ _)) by done.
    rewrite Hp. unfold delete_bytes. rewrite Hc. simpl. eexists. split; [done|].
    by apply rep_short; simpl; [|lia|..].
Qed.

Lemma long_copy_rep h dst src bs p :
  length (fixed_buf dst) = MAX_INLINE_LENGTH -> represents h src bs (Some p) ->
  exists k, _long_str_copy_unsafe h dst src = Some (heap_with (Some (next h)) bs h, k) /\
    represents (heap_with (Some (next h)) bs h) k bs (Some (next h)).
Proof.
  intros Hd Hr. unfold _long_str_copy_unsafe. rewrite (rep_as_bytes _ _ _ _ Hr). simpl.
  eexists. split; [done|]. inversion Hr; subst. apply rep_long; simpl; try done.
  apply lookup_insert_eq.
Qed.

Lemma copy_rep h dst src bs o :
  length (fixed_buf dst) = MAX_INLINE_LENGTH -> represents h src bs o ->
  exists k o', _copy false h dst src = Some (heap_with o' bs h, k) /\
    represents (heap_with o' bs h) k bs o' /\ (o' = None \/ o' = Some (next h)).
Proof.
  intros Hd Hr. unfold _copy. simpl. rewrite (rep_is_long _ _ _ _ Hr).
  destruct o as [p|].
  - destruct (long_copy_rep h dst src bs p Hd Hr) as (k & -> & Hk).
    inversion Hr; subst. rewrite (proj2 (Nat.ltb_lt _ _)) by done. eauto 10.
  - inversion Hr; subst. rewrite (proj2 (Nat.ltb_ge _ _)) by done.
    exists src, None. split_ands; auto.
Qed.

Section invariant.
Context (s : kstate) (m : gmap nat bytes) (Hinv : kinv s m).

Lemma kinv_lookup i bs :
  m !! i = Some bs -> exists k, objs s !! i = Some k /\ represents (kheap s) k bs (owned k).
Proof.
  intros Hi. destruct (objs s !! i) as [k|] eqn:Hk.
  - exists k. split; [done|]. by eapply inv_rep.
  - apply (inv_dom _ _ Hinv) in Hk. congruence.
Qed.

Lemma kinv_owner i k bs p :
  objs s !! i = Some k -> m !! i = Some bs -> owned k = Some p ->
  is_Some (cells (kheap s) !! p).
Proof.
  intros Hk Hi Ho. pose proof (inv_rep _ _ Hinv _ _ _ Hk Hi) as Hr. rewrite Ho in Hr.
  inversion Hr; subst. eauto.
Qed.

Lemma kinv_model i k : objs s !! i = Some k -> is_Some (m !! i).
Proof.
  intros Hk. destruct (m !! i) eqn:Hi; [eauto|]. apply (inv_dom _ _ Hinv) in Hi. congruence.
Qed.

(** Releasing an object. *)
Lemma kinv_remove i k :
  objs s !! i = Some k ->
  kinv (mk_kstate (heap_without (owned k) (kheap s)) (delete i (objs s))) (delete i m).
Proof.
  intros Hk. constructor; simpl.
  - intros j. rewrite !lookup_delete. case_decide; [done|]. apply (inv_dom _ _ Hinv).
  - intros j k' bs. rewrite !lookup_delete. case_decide as Hij; [done|]. intros Hk' Hbs.
    eapply rep_heap; [by eapply inv_rep|]. intros p Hp. destruct (owned k) as [q|] eqn:Hq; [|done].
    simpl. rewrite lookup_delete_ne; [done|]. intros ->. apply Hij. by eapply inv_own.
  - intros j j' k1 k2 p. rewrite !lookup_delete. do 2 case_decide; try done. by eapply inv_own.
  - intros p Hp. assert (is_Some (cells (kheap s) !! p) /\ owned k <> Some p) as [Hp' Hne].
    { destruct (owned k) as [q|] eqn:Hq; [|by split]. simpl in Hp.
      rewrite lookup_delete in Hp. case_decide; [by destruct Hp|]. split; [done|congruence]. }
    destruct (inv_live _ _ Hinv p Hp') as (Hlt & j & k' & Hj & Ho).
    split; [by destruct (owned k)|]. exists j, k'. split; [|done].
    rewrite lookup_delete_ne; [done|]. intros ->. congruence.
Qed.

(** A new object whose string is inline or in a fresh buffer. *)
Lemma kinv_add i k bs o :
  m !! i = None -> represents (heap_with o bs (kheap s)) k bs o ->
  o = None \/ o = Some (next (kheap s)) ->
  kinv (mk_kstate (heap_with o bs (kheap s)) (<[i := k]> (objs s))) (<[i := bs]> m).
Proof.
  intros Hi Hr Ho. pose proof (rep_owned _ _ _ _ Hr) as Hok.
  assert (objs s !! i = None) as Hoi by (by apply (inv_dom _ _ Hinv)).
  assert (forall p, is_Some (cells (kheap s) !! p) -> p < next (kheap s)) as Hlt
    by (intros; by apply (inv_live _ _ Hinv)).
  assert (forall j k' p, objs s !! j = Some k' -> owned k' = Some p -> p < next (kheap s)) as Hown.
  { intros j k' p Hj Hp. destruct (kinv_model _ _ Hj) as [bs' Hbs'].
    apply Hlt. by eapply kinv_owner. }
  constructor; simpl.
  - intros j. rewrite !lookup_insert. case_decide; [done|]. apply (inv_dom _ _ Hinv).
  - intros j k' bs'. rewrite !lookup_insert. case_decide as Hij.
    + intros [= <-] [= <-]. by rewrite Hok.
    + intros Hj Hbs'. eapply rep_heap; [by eapply inv_rep|]. intros p Hp.
      pose proof (Hown _ _ _ Hj Hp). destruct Ho as [->| ->]; simpl; [done|].
      by rewrite lookup_insert_ne by lia.
  - intros j j' k1 k2 p. rewrite !lookup_insert. repeat case_decide; subst; try done.
    + intros [= <-] Hj' Hp1 Hp2. pose proof (Hown _ _ _ Hj' Hp2). destruct Ho; simplify_eq. lia.
    + intros Hj [= <-] Hp1 Hp2. pose proof (Hown _ _ _ Hj Hp1). destruct Ho; simplify_eq. lia.
    + by eapply inv_own.
  - intros p Hp. destruct Ho as [->| ->]; simpl in *.
    + destruct (inv_live _ _ Hinv p Hp) as (? & j & k' & Hj & ?). split; [done|].
      exists j, k'. split; [|done]. rewrite lookup_insert_ne; [done|congruence].
    + rewrite lookup_insert in Hp. case_decide as Hpn.
      * split; [lia|]. exists i, k. rewrite lookup_insert_eq. by subst.
      * destruct (inv_live _ _ Hinv p Hp) as (? & j & k' & Hj & ?). split; [lia|].
        exists j, k'. split; [|done]. rewrite lookup_insert_ne; [done|congruence].
Qed.

(** A buffer handed from object [j] to a new object [i]. *)
Lemma kinv_transfer i j src bs p k src' :
  m !! i = None -> objs s !! j = Some src -> m !! j = Some bs -> owned src = Some p ->
  represents (kheap s) k bs (Some p) -> represents (kheap s) src' [] None ->
  kinv (mk_kstate (kheap s) (<[i := k]> (<[j := src']> (objs s)))) (<[i := bs]> (<[j := []]> m)).
Proof.
  intros Hi Hj Hbs Hp Hk Hs'.
  pose proof (rep_owned _ _ _ _ Hk) as Hok. pose proof (rep_owned _ _ _ _ Hs') as Hos.
  assert (i <> j) as Hij by congruence.
  assert (objs s !! i = None) as Hoi by (by apply (inv_dom _ _ Hinv)).
  constructor; simpl.
  - intros n. rewrite !lookup_insert. repeat case_decide; try done. apply (inv_dom _ _ Hinv).
  - intros n k' bs'. rewrite !lookup_insert. repeat case_decide.
    + intros [= <-] [= <-]. by rewrite Hok.
    + intros [= <-] [= <-]. by rewrite Hos.
    + by apply (inv_rep _ _ Hinv).
  - assert (forall n k', n <> j -> objs s !! n = Some k' -> owned k' <> Some p) as Hu
      by (intros n k' Hn Hk' Hp'; apply Hn; by eapply inv_own).
    intros n n' k1 k2 q. rewrite !lookup_insert. repeat case_decide; intros; simplify_eq; try done.
    + exfalso. by eapply (Hu n').
    + exfalso. by eapply (Hu n).
    + by eapply inv_own.
  - intros q Hq. destruct (inv_live _ _ Hinv q Hq) as (? & n & k' & Hn & Ho). split; [done|].
    destruct (decide (n = j)) as [->|Hnj].
    + exists i, k. rewrite lookup_insert_eq. split; congruence.
    + exists n, k'. split; [|done].
      rewrite lookup_insert_ne by congruence. by rewrite lookup_insert_ne by congruence.
Qed.
End invariant.

Lemma move_kinv s m i j src bs dst :
  kinv s m -> m !! i = None -> objs s !! j = Some src -> m !! j = Some bs ->
  length (fixed_buf dst) = MAX_INLINE_LENGTH ->
  exists k src', _move false (kheap s) dst src = Some (kheap s, k, src') /\
    kinv (mk_kstate (kheap s) (<[i := k]> (<[j := src']> (objs s))))
         (<[i := bs]> (<[j := moved_from bs]> m)).
Proof.
  intros Hinv Hi Hj Hbs Hd. pose proof (inv_rep _ _ Hinv _ _ _ Hj Hbs) as Hr.
  unfold _move. simpl. rewrite (rep_is_long _ _ _ _ Hr). unfold moved_from.
  destruct (owned src) as [p|] eqn:Ho; inversion Hr; subst.
  - rewrite (proj2 (Nat.ltb_lt _ _)), (proj2 (Nat.leb_gt _ _)) by done.
    do 2 eexists. split; [done|]. eapply kinv_transfer; eauto.
    + by apply rep_long.
    + by apply rep_short; simpl; [|lia|..].
  - rewrite (proj2 (Nat.ltb_ge _ _)), (proj2 (Nat.leb_le _ _)) by done.
    do 2 eexists. split; [done|]. rewrite !(insert_id _ j) by done.
    apply (kinv_add s m Hinv i src bs None); auto.
Qed.

(** One step of a program on key objects. *)
Lemma kstep_simulates op s m :
  kinv s m -> kop_ok op m -> exists s', kstep op s = Some s' /\ kinv s' (spec_step op m).
Proof.
  intros Hinv Hok. destruct op as [i bs|i j|i j|i j|i j|i]; simpl in *.
  - destruct (init_rep (kheap s) raw_storage bs eq_refl) as (k & o & -> & Hr & Ho).
    eexists. split; [done|]. by apply kinv_add.
  - destruct Hok as [Hi [bs Hj]]. destruct (kinv_lookup s m Hinv _ _ Hj) as (src & Hs & Hr).
    destruct (copy_rep (kheap s) raw_storage src bs _ eq_refl Hr) as (k & o & Hc & Hk & Ho).
    rewrite Hs, Hj. simpl. rewrite Hc. eexists. split; [done|]. by apply kinv_add.
  - destruct Hok as [Hi [bs Hj]]. destruct (kinv_lookup s m Hinv _ _ Hj) as (src & Hs & Hr).
    destruct (move_kinv s m i j src bs raw_storage Hinv Hi Hs Hj eq_refl) as (k & src' & Hm & Hk).
    rewrite Hs, Hj. simpl. rewrite Hm. eexists. split; [done|]. done.
  - destruct Hok as [[bi Hi] [bs Hj]]. destruct (Nat.eqb_spec i j) as [->|Hij].
    { exists s. split; [done|]. rewrite Hj. simpl. by rewrite insert_id. }
    destruct (kinv_lookup s m Hinv _ _ Hi) as (dst & Hds & Hdr).
    destruct (kinv_lookup s m Hinv _ _ Hj) as (src & Hs & _).
    destruct (free_rep _ _ _ _ Hdr) as (dst' & Hf & Hd').
    pose proof (kinv_remove s m Hinv i dst Hds) as Hinv'.
    assert (represents (heap_without (owned dst) (kheap s)) src bs (owned src)) as Hr.
    { eapply (inv_rep _ _ Hinv' j); simpl; by rewrite lookup_delete_ne. }
    destruct (copy_rep _ dst' src bs _ (rep_fixed_buf _ _ _ _ Hd') Hr) as (k & o & Hc & Hk & Ho).
    rewrite Hds, Hs, Hj. simpl. unfold _copy in *. simpl in Hc. rewrite Hf. simpl. rewrite Hc.
    eexists. split; [done|].
    pose proof (kinv_add _ _ Hinv' i k bs o (lookup_delete_eq _ _) Hk Ho) as Hres.
    simpl in Hres. by rewrite !insert_delete_eq in Hres.
  - destruct Hok as [[bi Hi] [bs Hj]]. destruct (kinv_lookup s m Hinv _ _ Hi) as (dst & Hds & Hdr).
    destruct (free_rep _ _ _ _ Hdr) as (dst' & Hf & Hd').
    pose proof (kinv_remove s m Hinv i dst Hds) as Hinv'.
    destruct (Nat.eqb_spec i j) as [<-|Hij].
    + rewrite Hds, Hi. simpl. rewrite Hf. simpl. unfold _move. simpl.
      assert (_is_long_str dst' = false) as ->.
      { rewrite (rep_is_long _ _ _ _ Hd'). by inversion Hd'; rewrite (proj2 (Nat.ltb_ge _ _)). }
      eexists. split; [done|].
      pose proof (kinv_add _ _ Hinv' i dst' (moved_from bi) None (lookup_delete_eq _ _) Hd'
        (or_introl eq_refl)) as Hres.
      simpl in Hres. by rewrite !insert_delete_eq in Hres.
    + destruct (kinv_lookup s m Hinv _ _ Hj) as (src & Hs & _).
      destruct (move_kinv _ _ i j src bs dst' Hinv' (lookup_delete_eq _ _)) as (k & src' & Hm & Hk);
        [by simpl; rewrite lookup_delete_ne | by rewrite lookup_delete_ne
        | by eapply rep_fixed_buf |].
      rewrite Hds, Hs, Hj. simpl. unfold _move in *. simpl in Hm. rewrite Hf. simpl. rewrite Hm.
      eexists. split; [done|]. simpl in Hk.
      rewrite <- (delete_insert_ne _ i j src'), <- (delete_insert_ne _ i j (moved_from bs)) in Hk by done.
      by rewrite !insert_delete_eq in Hk.
  - destruct Hok as [bi Hi]. destruct (kinv_lookup s m Hinv _ _ Hi) as (k & Hk & Hr).
    destruct (free_rep _ _ _ _ Hr) as (k' & Hf & _). rewrite Hk. simpl. rewrite Hf.
    eexists. split; [done|]. by apply kinv_remove.
Qed.

(** A whole program: the steps in order, each allowed where it runs. *)
Fixpoint krun (ops : list kop) (s : kstate) : option kstate :=
  match ops with
  | [] => Some s
  | op :: ops => s' ← kstep op s; krun ops s'
  end.

Fixpoint spec_run (ops : list kop) (m : gmap nat bytes) : gmap nat bytes :=
  match ops with [] => m | op :: ops => spec_run ops (spec_step op m) end.

Fixpoint kops_ok (ops : list kop) (m : gmap nat bytes) : Prop :=
  match ops with [] => True | op :: ops => kop_ok op m /\ kops_ok ops (spec_step op m) end.

Definition kinit : kstate := mk_kstate (mk_heap ∅ 0) ∅.

Lemma kinit_kinv : kinv kinit ∅.
Proof.
  constructor; simpl; intros *; by rewrite ?lookup_empty.
Qed.

Lemma krun_simulates ops s m :
  kinv s m -> kops_ok ops m -> exists s', krun ops s = Some s' /\ kinv s' (spec_run ops m).
Proof.
  revert s m. induction ops as [|op ops IH]; simpl; [eauto|]. intros s m Hinv [Hok Hoks].
  destruct (kstep_simulates op s m Hinv Hok) as (s' & -> & Hinv'). simpl. eauto.
Qed.

(** ** Properties *)

(** Memory safety and correctness of the key type. Any sequence of
    constructions, copies, moves, assignments (self-assignments included)
    and destructions that a program can run terminates without freeing an
    unallocated buffer or reading through a dangling pointer; every live
    object then reads as the string the operations give it, and when no
    object is left the heap is empty, so nothing leaked. *)
Theorem key_programs_safe (ops : list kop) (Hok : kops_ok ops ∅) :
  exists s, krun ops kinit = Some s /\
    (forall i, (objs s !! i ≫= as_bytes (kheap s)) = spec_run ops ∅ !! i) /\
    (spec_run ops ∅ = ∅ -> cells (kheap s) = ∅).
Proof.
  destruct (krun_simulates ops kinit ∅ kinit_kinv Hok) as (s & Hrun & Hinv).
  exists s. split_ands; [done| |].
  - intros i. destruct (spec_run ops ∅ !! i) as [bs|] eqn:Hi.
    + destruct (kinv_lookup s _ Hinv _ _ Hi) as (k & -> & Hr). simpl. by eapply rep_as_bytes.
    + by rewrite (proj2 (inv_dom _ _ Hinv i)).
  - intros Hempty. apply map_empty. intros p. destruct (cells (kheap s) !! p) eqn:Hp; [|done].
    destruct (inv_live _ _ Hinv p) as (_ & i & k & Hk & _); [by rewrite Hp|].
    destruct (kinv_model s _ Hinv _ _ Hk) as [bs Hbs]. by rewrite Hempty in Hbs.
Qed.

Definition sample_long : bytes := replicate 40 7%Z.

Lemma key_programs_safe_witness :
  exists s, krun [KConstruct 0 sample_long; KCopyConstruct 1 0; KMoveConstruct 2 0;
                  KMoveAssign 1 1; KDestroy 0; KDestroy 1; KDestroy 2] kinit = Some s /\
    cells (kheap s) = ∅.
Proof.
  destruct (key_programs_safe [KConstruct 0 sample_long; KCopyConstruct 1 0; KMoveConstruct 2 0;
    KMoveAssign 1 1; KDestroy 0; KDestroy 1; KDestroy 2]) as (s & Hrun & _ & Hleak).
  - repeat split; vm_compute; eauto.
  - exists s. split; [exact Hrun|]. apply Hleak. reflexivity.
Defined.
