(* ===== verification/Utils.v ===== *)
(** * Arithmetic helpers and partition routing (src/utils.h, src/utils.cc) *)

From stdpp Require Import base list numbers strings.
From Stdlib Require Import ZArith Lia.
From S2P Require Import Prelude StdAlgo Types Key.

Local Open Scope Z_scope.

Definition PAGE_SIZE : Z := Z.of_nat PAGE_SIZE_IN_BYTES.

(** ** Rounding, on [size_t] *)

Definition ceil (value denominator : Z) : Z := u64 (u64 (value + denominator) - 1) / denominator.

Definition round_up (value target : Z) : Z :=
  Z.land (u64 (u64 (value + target) - 1)) (u64 (Z.lnot (target - 1))).

Definition ceil_page_align (value : Z) : Z := round_up value PAGE_SIZE.
Definition floor_page_align (value : Z) : Z := value / PAGE_SIZE * PAGE_SIZE.
Definition is_page_aligned (value : Z) : bool := value mod PAGE_SIZE =? 0.

(** ** Partitions *)

(** Reads the two bytes at [k], whether or not the key is that long. *)
Definition extract_prefix (k : bytes) : Z :=
  let k0 := default 0 (k !! 0%nat) in
  let k1 := default 0 (k !! 1%nat) in
  u16 (Z.lor (Z.lor 0 k1) (Z.shiftl k0 8)).

(** The bytes at [key.data()]: the inline buffer of a short key, spare
    bytes included, or the heap buffer of a long one. *)
Definition key_data (h : heap) (k : key) : bytes :=
  if _is_long_str k then default [] (variable_buf k ≫= fun p => cells h !! p)
  else fixed_buf k.

Definition find_partition_prefix (K P : Z) : Z := u64 (u64 (K + P) / P * P - 1).

Definition find_partition_prefix_for_key (data : bytes) (partition_size : Z) : Z :=
  find_partition_prefix (extract_prefix data) partition_size.

(** [(1 << 16) / (1 << num_partition_exponent)] *)
Definition partition_size (num_partition_exponent : Z) : Z :=
  Z.shiftl 1 16 / Z.shiftl 1 num_partition_exponent.

(** The ids [sst_manager::sst_manager] creates a partition for. *)
Definition partition_ids (num_partition_exponent : Z) : list Z :=
  (fun i => u16 ((Z.of_nat i + 1) * partition_size num_partition_exponent - 1))
    <$> seq 0 (Z.to_nat (Z.shiftl 1 num_partition_exponent)).

Definition hex_digit (d : Z) : string :=
  String.substring (Z.to_nat d) 1 "0123456789abcdef".
(** [std::format("{:02x}", b)] *)
Definition hex_byte (b : Z) : string := hex_digit (b / 16) +:+ hex_digit (b mod 16).

(** The directory and the file name stem of a partition. *)
Definition format_prefix (prefix : Z) : string * string :=
  let hi := u16 prefix / 256 in
  let lo := u16 prefix mod 256 in
  (hex_byte hi, hex_byte hi +:+ hex_byte lo).

(** ** Lemmas *)

Lemma ceil_spec v d : 0 <= v -> 0 < d -> v + d <= 2 ^ 64 ->
  v + d < 2 ^ 64 -> ceil v d * d - d < v <= ceil v d * d.
Proof.
  intros. unfold ceil. rewrite !wrap_small; rewrite ?wrap_small; try lia.
  pose proof (Z.div_mod (v + d - 1) d ltac:(lia)).
  pose proof (Z.mod_pos_bound (v + d - 1) d ltac:(lia)). lia.
Qed.

Lemma land_lnot_ones x k : 0 <= k -> Z.land x (Z.lnot (Z.ones k)) = x - x mod 2 ^ k.
Proof.
  intros. rewrite <- Z.ldiff_land. rewrite Z.ldiff_ones_r by lia.
  rewrite Z.shiftl_mul_pow2, Z.shiftr_div_pow2 by lia.
  pose proof (Z.div_mod x (2 ^ k) ltac:(apply Z.pow_nonzero; lia)). lia.
Qed.

(** [round_up] to a power of two: the least multiple not below. *)
Lemma round_up_spec v k : 0 <= k < 64 -> 0 <= v -> v + 2 ^ k < 2 ^ 64 ->
  round_up v (2 ^ k) mod 2 ^ k = 0 /\ v <= round_up v (2 ^ k) < v + 2 ^ k.
Proof.
  intros Hk Hv Hlt. unfold round_up.
  assert (0 < 2 ^ k) by (apply Z.pow_pos_nonneg; lia).
  rewrite (wrap_small 64 (v + 2 ^ k)) by lia. rewrite (wrap_small 64 (v + 2 ^ k - 1)) by lia.
  rewrite wrap_land by lia. replace (2 ^ k - 1) with (Z.ones k) by (rewrite Z.ones_equiv; lia).
  rewrite (Z.land_comm (Z.lnot _)), Z.land_assoc.
  rewrite (Z.land_ones _ 64) by lia. rewrite (Z.mod_small (v + 2 ^ k - 1)) by lia.
  rewrite land_lnot_ones by lia. set (x := v + 2 ^ k - 1).
  pose proof (Z.mod_pos_bound x (2 ^ k) ltac:(lia)).
  split; [|unfold x in *; lia].
  rewrite Zminus_mod, Z.mod_mod, Z.sub_diag by lia. apply Z.mod_0_l. lia.
Qed.

Lemma extract_prefix_value b0 b1 rest :
  byte_ok b0 -> byte_ok b1 -> extract_prefix (b0 :: b1 :: rest) = b0 * 256 + b1.
Proof.
  unfold byte_ok. intros H0 H1. unfold extract_prefix. simpl default. rewrite Z.lor_0_l.
  rewrite lor_shiftl_add by lia. change (2 ^ 8) with 256. rewrite wrap_small by lia. lia.
Qed.

Lemma extract_prefix_mono a b :
  Forall byte_ok a -> Forall byte_ok b -> (2 <= length a)%nat -> (2 <= length b)%nat ->
  Lex.le a b -> extract_prefix a <= extract_prefix b.
Proof.
  intros Ha Hb. destruct a as [|x0 [|x1 a]], b as [|y0 [|y1 b]]; simpl; try lia.
  intros _ _. inversion_clear Ha as [|? ? Hx0 Ha']. inversion_clear Ha' as [|? ? Hx1 _].
  inversion_clear Hb as [|? ? Hy0 Hb']. inversion_clear Hb' as [|? ? Hy1 _].
  rewrite !extract_prefix_value by done. unfold byte_ok in *. unfold Lex.le. simpl.
  destruct (Z.compare_spec x0 y0), (Z.compare_spec x1 y1); intros; try lia; done.
Qed.

Lemma extract_prefix_range a : 0 <= extract_prefix a < 2 ^ 16.
Proof. apply wrap_range. lia. Qed.

Section partition.
Context (e : Z) (He : 0 <= e <= 16).
Notation P := (partition_size e).

Lemma partition_size_pow : P = 2 ^ (16 - e).
Proof.
  unfold partition_size. rewrite !Z.shiftl_1_l. rewrite <- Z.pow_sub_r by lia. done.
Qed.

Lemma partition_size_pos : 0 < P <= 2 ^ 16.
Proof.
  rewrite partition_size_pow. split; [apply Z.pow_pos_nonneg; lia|].
  apply Z.pow_le_mono_r; lia.
Qed.

Lemma partition_count : P * 2 ^ e = 2 ^ 16.
Proof. rewrite partition_size_pow, <- Z.pow_add_r by lia. f_equal. lia. Qed.

(** The id is the last prefix of the aligned range that holds [K]. *)
Lemma find_partition_prefix_value K : 0 <= K < 2 ^ 16 ->
  find_partition_prefix K P = (K / P + 1) * P - 1 /\
  find_partition_prefix K P - P < K <= find_partition_prefix K P.
Proof.
  intros HK. pose proof partition_size_pos. unfold find_partition_prefix.
  rewrite (wrap_small 64 (K + P)) by lia.
  replace (K + P) with (K + 1 * P) by lia. rewrite Z.div_add by lia.
  pose proof (Z.div_mod K P ltac:(lia)). pose proof (Z.mod_pos_bound K P ltac:(lia)).
  assert (0 <= K / P) by (apply Z.div_pos; lia).
  rewrite wrap_small by nia. lia.
Qed.

Lemma find_partition_prefix_mono K K' : 0 <= K <= K' -> K' < 2 ^ 16 ->
  find_partition_prefix K P <= find_partition_prefix K' P.
Proof.
  intros. pose proof partition_size_pos.
  rewrite (proj1 (find_partition_prefix_value K ltac:(lia))).
  rewrite (proj1 (find_partition_prefix_value K' ltac:(lia))).
  pose proof (Z.div_le_mono K K' P ltac:(lia) ltac:(lia)). nia.
Qed.

Lemma find_partition_prefix_in K : 0 <= K < 2 ^ 16 ->
  find_partition_prefix K P ∈ partition_ids e.
Proof.
  intros HK. pose proof partition_size_pos. pose proof partition_count as Hc.
  destruct (find_partition_prefix_value K HK) as [Hv _]. rewrite Hv.
  assert (0 <= K / P < 2 ^ e).
  { split; [apply Z.div_pos; lia|]. apply Z.div_lt_upper_bound; lia. }
  unfold partition_ids. apply list_elem_of_fmap. exists (Z.to_nat (K / P)). split.
  - rewrite Z2Nat.id by lia. symmetry. apply wrap_small. nia.
  - apply elem_of_seq. rewrite Z.shiftl_1_l. lia.
Qed.
End partition.

(** ** Hexadecimal names *)

Lemma hex_digit_inj a b : 0 <= a < 16 -> 0 <= b < 16 -> hex_digit a = hex_digit b -> a = b.
Proof.
  intros Ha Hb.
  assert (forall x, 0 <= x < 16 -> x ∈ [0;1;2;3;4;5;6;7;8;9;10;11;12;13;14;15]) as Hin
    by (intros x Hx; apply list_elem_of_In; simpl; lia).
  pose proof (Hin a Ha) as Ea. pose proof (Hin b Hb) as Eb. clear Hin Ha Hb.
  repeat (apply elem_of_cons in Ea as [->|Ea];
    [repeat (apply elem_of_cons in Eb as [->|Eb]; [done || (intros; by vm_compute in H)|]);
     by apply elem_of_nil in Eb|]).
  by apply elem_of_nil in Ea.
Qed.

Lemma hex_digit_length a : 0 <= a < 16 -> String.length (hex_digit a) = 1%nat.
Proof.
  intros Ha. assert (a ∈ [0;1;2;3;4;5;6;7;8;9;10;11;12;13;14;15]) as Ea
    by (apply list_elem_of_In; simpl; lia). clear Ha.
  repeat (apply elem_of_cons in Ea as [->|Ea]; [done|]). by apply elem_of_nil in Ea.
Qed.

Lemma string_app_inj (a b c d : string) :
  String.length a = String.length c -> a +:+ b = c +:+ d -> a = c /\ b = d.
Proof.
  revert c. induction a as [|x a IH]; intros [|y c]; simpl; try done.
  intros [= Hl] H. injection H as -> H. destruct (IH c Hl H) as [-> ->]. done.
Qed.

Lemma hex_byte_inj a b : byte_ok a -> byte_ok b -> hex_byte a = hex_byte b -> a = b.
Proof.
  unfold byte_ok. intros Ha Hb H.
  assert (forall x, 0 <= x < 256 -> 0 <= x / 16 < 16 /\ 0 <= x mod 16 < 16) as Hd.
  { intros x Hx. split; [|apply Z.mod_pos_bound; lia].
    split; [apply Z.div_pos; lia | apply Z.div_lt_upper_bound; lia]. }
  destruct (Hd a Ha), (Hd b Hb).
  apply string_app_inj in H as [E1 E2]; [|by rewrite !hex_digit_length].
  apply hex_digit_inj in E1, E2; try done.
  rewrite (Z.div_mod a 16), (Z.div_mod b 16) by lia. congruence.
Qed.

Lemma format_prefix_dir_inj p q :
  0 <= p < 2 ^ 16 -> 0 <= q < 2 ^ 16 ->
  fst (format_prefix p) = fst (format_prefix q) <-> p / 256 = q / 256.
Proof.
  intros Hp Hq. unfold format_prefix. simpl fst. rewrite !wrap_small by lia.
  assert (forall x, 0 <= x < 2 ^ 16 -> byte_ok (x / 256)) as Hb.
  { intros x Hx. split; [apply Z.div_pos; lia | apply Z.div_lt_upper_bound; lia]. }
  split; [|congruence]. intros H. by apply hex_byte_inj; auto.
Qed.

(** ** Properties *)

(** Page alignment away from the end of the address space. *)
Lemma ceil_page_align_spec v : 0 <= v < 2 ^ 63 ->
  ceil_page_align v mod PAGE_SIZE = 0 /\ v <= ceil_page_align v < v + PAGE_SIZE.
Proof. intros Hv. apply (round_up_spec v 12); [lia|lia|]. change (2 ^ 12) with 4096. lia. Qed.

Lemma ceil_page_align_id v : 0 <= v < 2 ^ 63 -> v mod PAGE_SIZE = 0 -> ceil_page_align v = v.
Proof.
  intros Hv Hm. destruct (ceil_page_align_spec v Hv) as [Hc Hb]. change PAGE_SIZE with 4096 in *.
  Z.div_mod_to_equations. lia.
Qed.

(** Page alignment. [ceil_page_align] returns the least multiple of
    the page size that is not below its argument, whenever the sum does
    not overflow [size_t]. *)
Theorem ceil_page_align_correct (v : Z) (Hv : 0 <= v < 2 ^ 64 - PAGE_SIZE) :
  is_page_aligned (ceil_page_align v) = true /\
  v <= ceil_page_align v < v + PAGE_SIZE /\
  (is_page_aligned v = true -> ceil_page_align v = v).
Proof.
  unfold is_page_aligned, ceil_page_align. change PAGE_SIZE with (2 ^ 12) in *.
  destruct (round_up_spec v 12 ltac:(lia) ltac:(lia) ltac:(lia)) as [Hm Hr].
  split_ands; [by apply Z.eqb_eq|lia|lia|].
  intros H. apply Z.eqb_eq in H.
  apply Z.mod_divide in Hm as [a Ha], H as [b Hb]; lia.
Qed.

Lemma ceil_page_align_witness : ceil_page_align 8192 = 8192.
Proof. exact (proj2 (proj2 (ceil_page_align_correct 8192 ltac:(vm_compute; split; [intros H; discriminate H|reflexivity]))) eq_refl). Defined.

(** Partition routing is total and follows the key order. For every
    exponent the configuration allows, a key of at least two bytes is
    routed to one of the partitions [sst_manager] creates, the one whose
    range of prefixes holds the key's, and keys in order are routed to
    partitions in order, so the keys of one partition are contiguous in a
    sorted memtable. *)
Theorem partition_routing (e : Z) (a b : bytes) (He : 0 <= e <= 16)
    (Ha : Forall byte_ok a) (Hb : Forall byte_ok b)
    (Hla : (2 <= length a)%nat) (Hlb : (2 <= length b)%nat) (Hle : Lex.le a b) :
  let P := partition_size e in
  let pa := find_partition_prefix_for_key a P in
  pa ∈ partition_ids e /\ pa - P < extract_prefix a <= pa /\
  pa <= find_partition_prefix_for_key b P.
Proof.
  simpl. unfold find_partition_prefix_for_key. pose proof (extract_prefix_range a).
  pose proof (extract_prefix_range b). pose proof (extract_prefix_mono a b Ha Hb Hla Hlb Hle).
  split_ands.
  - by apply find_partition_prefix_in.
  - by apply find_partition_prefix_value.
  - by apply find_partition_prefix_value.
  - apply find_partition_prefix_mono; [done|lia|lia].
Qed.

Lemma partition_routing_witness :
  find_partition_prefix_for_key [17; 34] (partition_size 4) ∈ partition_ids 4.
Proof.
  refine (proj1 (partition_routing 4 [17; 34] [17; 35; 1] ltac:(lia) _ _ ltac:(simpl; lia) ltac:(simpl; lia) _)).
  - repeat constructor; unfold byte_ok; lia.
  - repeat constructor; unfold byte_ok; lia.
  - vm_compute. discriminate.
Defined.

(** One-byte keys are not routed by their value. Two key objects
    built from the same one-byte string, differing only in what the
    uninitialised storage held, are equal as keys and land in different
    partitions, because [extract_prefix] reads the second byte of a
    one-byte key. *)
Theorem one_byte_key_partition_depends_on_storage :
  exists (h : heap) (raw1 raw2 : key) (bs : bytes),
    (MIN_KEY_LEN <= length bs)%nat /\
    let k1 := snd (_init h raw1 bs) in
    let k2 := snd (_init h raw2 bs) in
    key_compare h k1 k2 = Some Eq /\
    find_partition_prefix_for_key (key_data h k1) (partition_size 16)
      <> find_partition_prefix_for_key (key_data h k2) (partition_size 16).
Proof.
  exists (mk_heap ∅ 0), (mk_key (replicate 31 0) 0 None 0), (mk_key (replicate 31 9) 0 None 0), [5].
  split; [done|]. split; [reflexivity|]. vm_compute. discriminate.
Qed.

(** Partition directories. Up to exponent 8 distinct partitions have
    distinct directories; at exponent 9, which the configuration still
    accepts, two partitions share one directory and with it one manifest
    file. *)
Theorem partition_directories (e : Z) (He : 0 <= e <= 8) :
  (forall p q, p ∈ partition_ids e -> q ∈ partition_ids e ->
     fst (format_prefix p) = fst (format_prefix q) -> p = q) /\
  (exists p q, p ∈ partition_ids 9 /\ q ∈ partition_ids 9 /\ p <> q /\
     fst (format_prefix p) = fst (format_prefix q)).
Proof.
  split.
  - pose proof (partition_size_pos e ltac:(lia)). pose proof (partition_count e ltac:(lia)) as Hc.
    assert (exists c, partition_size e = 256 * c /\ 0 < c) as (c & HP & Hpos).
    { rewrite (partition_size_pow e) by lia. exists (2 ^ (8 - e)).
      split; [|apply Z.pow_pos_nonneg; lia].
      replace (16 - e) with (8 + (8 - e)) by lia. by rewrite Z.pow_add_r by lia. }
    assert (forall p, p ∈ partition_ids e ->
      exists i, p = (i + 1) * partition_size e - 1 /\ 0 <= i < 2 ^ e /\ 0 <= p < 2 ^ 16) as Hid.
    { intros p Hp. apply list_elem_of_fmap in Hp as (i & -> & Hi). apply elem_of_seq in Hi.
      rewrite Z.shiftl_1_l in Hi. exists (Z.of_nat i).
      rewrite wrap_small by nia. split_ands; try lia; nia. }
    intros p q Hp Hq Heq. destruct (Hid p Hp) as (i & -> & Hi & Hri).
    destruct (Hid q Hq) as (j & -> & Hj & Hrj).
    apply format_prefix_dir_inj in Heq; [|done|done]. rewrite HP in *.
    assert (forall i, ((i + 1) * (256 * c) - 1) / 256 = (i + 1) * c - 1) as Hdiv.
    { intros n. symmetry. apply Z.div_unique with 255; lia. }
    rewrite !Hdiv in Heq. assert ((i + 1) * c = (j + 1) * c) as E by lia.
    apply Z.mul_cancel_r in E; lia.
  - exists 127, 255. split_ands; [| |done|done];
      refine (bool_decide_unpack (_ ∈ _) _); vm_compute; exact I.
Qed.

Lemma partition_directories_witness :
  0 <= 4 <= 8 /\
  (forall p q, p ∈ partition_ids 4 -> q ∈ partition_ids 4 ->
    fst (format_prefix p) = fst (format_prefix q) -> p = q).
Proof. split; [lia|]. exact (proj1 (partition_directories 4 ltac:(lia))). Defined.
