(* ===== verification/PageBuffer.v ===== *)
(** * Page-aligned buffers (src/page_aligned_buffer.h)

    The vector the SST code reads and writes files through. Its storage is
    a whole number of pages: a list of cells, each raw memory or holding an
    item, and a write outside the storage is undefined ([None]). The items
    are of an arbitrary type of [sz] bytes with a default value;
    [trivially_assignable] says whether assigning to raw memory is the same
    as constructing there, as for bytes and integers, or is undefined, as
    for a key, whose assignment frees what the target owns. *)

From stdpp Require Import base numbers option list.
From Stdlib Require Import ZArith Lia.
From S2P Require Import Prelude Types Utils.

Section page_aligned_buffer.
Context {T : Type} (sz : Z) (d : T) (trivially_assignable : bool).

Record page_aligned_buffer := mk_pab {
  pb_buf : list (option T);
  pb_size : nat;
  pb_capacity : nat;
}.

Definition empty_buffer : page_aligned_buffer := mk_pab [] 0 0.

(** Writing items from an offset on. *)
Definition put_at (off : nat) (vs buf : list (option T)) : option (list (option T)) :=
  if (off + length vs <=? length buf)%nat
  then Some (take off buf ++ vs ++ drop (off + length vs) buf) else None.

(** Assigning items from an offset on, as [std::fill] does. *)
Definition assign_at (off : nat) (vs buf : list (option T)) : option (list (option T)) :=
  if trivially_assignable || forallb (fun c => bool_decide (is_Some c)) (take (length vs) (drop off buf))
  then put_at off vs buf else None.

Definition _allocate_buffer (s c : nat) : page_aligned_buffer :=
  let buf_size_bytes := ceil_page_align (u64 (Z.of_nat c * sz)) in
  let n := Z.to_nat (buf_size_bytes / sz) in
  mk_pab (replicate n None) s n.

Definition _init_buffer (pab : page_aligned_buffer) : option page_aligned_buffer :=
  buf ← put_at 0 (replicate (pb_size pab) (Some d)) (pb_buf pab);
  Some (mk_pab buf (pb_size pab) (pb_capacity pab)).

(** The constructors; the one with a size only is the case of equal
    arguments. *)
Definition make_buffer (size capacity : nat) : option page_aligned_buffer :=
  _init_buffer (_allocate_buffer size capacity).

(** A move leaves the source empty. *)
Definition move_buffer (other : page_aligned_buffer) : page_aligned_buffer * page_aligned_buffer :=
  (other, empty_buffer).

Definition buffer_at (pab : page_aligned_buffer) (idx : nat) : option T := mjoin (pb_buf pab !! idx).

Definition buffer_back (pab : page_aligned_buffer) : option T := buffer_at pab (pb_size pab - 1).

Definition _grow (pab : page_aligned_buffer) (new_capacity : nat) : option page_aligned_buffer :=
  let new_pab := _allocate_buffer (pb_size pab) new_capacity in
  if (pb_size pab <=? length (pb_buf pab))%nat then
    buf ← put_at 0 (take (pb_size pab) (pb_buf pab)) (pb_buf new_pab);
    Some (mk_pab buf (pb_size new_pab) (pb_capacity new_pab))
  else None.

Definition resize_buffer (pab : page_aligned_buffer) (new_size : nat) : option page_aligned_buffer :=
  if (new_size <? pb_size pab)%nat then
    buf ← put_at new_size (replicate (pb_size pab - new_size) None) (pb_buf pab);
    Some (mk_pab buf new_size (pb_capacity pab))
  else if (pb_size pab <? new_size)%nat then
    pab' ← (if (pb_capacity pab <? new_size)%nat then _grow pab new_size else Some pab);
    buf ← assign_at (pb_size pab) (replicate (new_size - pb_size pab) (Some d)) (pb_buf pab');
    Some (mk_pab buf new_size (pb_capacity pab'))
  else Some (mk_pab (pb_buf pab) new_size (pb_capacity pab)).

Definition free_buffer (pab : page_aligned_buffer) : page_aligned_buffer := empty_buffer.

Definition reserve (pab : page_aligned_buffer) (new_capacity : nat) : option page_aligned_buffer :=
  if (pb_capacity pab <? new_capacity)%nat then _grow pab new_capacity else Some pab.

Definition _append_unsafe (pab : page_aligned_buffer) (v : T) : option page_aligned_buffer :=
  buf ← put_at (pb_size pab) [Some v] (pb_buf pab);
  Some (mk_pab buf (S (pb_size pab)) (pb_capacity pab)).

Definition emplace_back (pab : page_aligned_buffer) (v : T) : option page_aligned_buffer :=
  pab ← (if (pb_size pab =? pb_capacity pab)%nat then _grow pab (pb_size pab * 2) else Some pab);
  _append_unsafe pab v.

Definition shrink_to_fit (pab : page_aligned_buffer) : option page_aligned_buffer :=
  let aligned_size_bytes := ceil_page_align (u64 (Z.of_nat (pb_size pab) * sz)) in
  let aligned_capacity_bytes := u64 (Z.of_nat (pb_capacity pab) * sz) in
  if (aligned_size_bytes <? aligned_capacity_bytes)%Z then _grow pab (pb_size pab) else Some pab.

(** ** Against a list *)

Inductive vop :=
  | VResize (n : nat)
  | VReserve (n : nat)
  | VEmplaceBack (v : T)
  | VShrinkToFit
  | VFree.

Definition buffer_op (pab : page_aligned_buffer) (o : vop) : option page_aligned_buffer :=
  match o with
  | VResize n => resize_buffer pab n
  | VReserve n => reserve pab n
  | VEmplaceBack v => emplace_back pab v
  | VShrinkToFit => shrink_to_fit pab
  | VFree => Some (free_buffer pab)
  end.

Definition vector_op (l : list T) (o : vop) : list T :=
  match o with
  | VResize n => take n l ++ replicate (n - length l) d
  | VReserve _ | VShrinkToFit => l
  | VEmplaceBack v => l ++ [v]
  | VFree => []
  end.

(** The representation: the items are in the first cells, the others are
    raw, the capacity is that of the storage, and the storage is in whole pages up to the
    division by the size of an item. *)
Record represents (pab : page_aligned_buffer) (l : list T) : Prop := {
  rp_items : take (length l) (pb_buf pab) = Some <$> l;
  rp_raw : Forall (fun c => c = None) (drop (length l) (pb_buf pab));
  rp_size : pb_size pab = length l;
  rp_capacity : pb_capacity pab = length (pb_buf pab);
  rp_fits : (length l <= length (pb_buf pab))%nat;
  rp_pages : exists k, (0 <= k /\ Z.of_nat (pb_capacity pab) = k * PAGE_SIZE / sz)%Z;
  rp_bound : (Z.of_nat (pb_capacity pab) * sz < 2 ^ 62)%Z;
}.

(** What the caller owes: sizes that do not overflow, no growing [resize]
    of items that cannot be assigned to raw memory, and capacity to double
    when appending. *)
Definition op_ok (pab : page_aligned_buffer) (o : vop) : Prop :=
  match o with
  | VResize n => (Z.of_nat n * sz < 2 ^ 61)%Z /\ (trivially_assignable = true \/ (n <= pb_size pab)%nat)
  | VReserve n => (Z.of_nat n * sz < 2 ^ 61)%Z
  | VEmplaceBack _ => (0 < pb_capacity pab)%nat /\ (Z.of_nat (pb_size pab) * sz < 2 ^ 60)%Z
  | VShrinkToFit | VFree => True
  end.

(** ** Lemmas *)

Context (Hsz : (0 < sz < PAGE_SIZE)%Z).

Lemma put_at_spec off vs buf : (off + length vs <= length buf)%nat ->
  exists buf', put_at off vs buf = Some buf' /\ length buf' = length buf /\
    take (off + length vs) buf' = take off buf ++ vs /\
    drop (off + length vs) buf' = drop (off + length vs) buf.
Proof.
  intros H. unfold put_at. rewrite (proj2 (Nat.leb_le _ _) H). eexists. split; [done|].
  rewrite !length_app, length_take, length_drop. split; [lia|].
  assert (length (take off buf ++ vs) = off + length vs)%nat as L by (rewrite length_app, length_take; lia).
  rewrite app_assoc, take_app_length' by done. by rewrite drop_app_length' by done.
Qed.

Lemma Forall_drop_le {A} (P : A -> Prop) n m (l : list A) : (n <= m)%nat -> Forall P (drop n l) -> Forall P (drop m l).
Proof. intros H Hf. replace m with (n + (m - n))%nat by lia. rewrite <- drop_drop. by apply Forall_drop. Qed.

(** Assigning to raw memory: as writing, or undefined. *)
Lemma assign_at_trivial off vs buf : trivially_assignable = true -> assign_at off vs buf = put_at off vs buf.
Proof. unfold assign_at. by intros ->. Qed.

Lemma assign_at_raw off vs buf : trivially_assignable = false -> (0 < length vs)%nat -> (off < length buf)%nat ->
  Forall (fun c => c = None) (drop off buf) -> assign_at off vs buf = None.
Proof.
  unfold assign_at. intros -> Hv Hb Hf. destruct (drop off buf) as [|c r] eqn:E.
  { apply (f_equal length) in E. rewrite length_drop in E. cbn in E. lia. }
  apply Forall_cons in Hf as [-> _]. destruct vs; [cbn in Hv; lia|done].
Qed.

(** The bytes of an allocation. *)
Definition alloc_bytes (c : nat) : Z := ceil_page_align (u64 (Z.of_nat c * sz)).

Lemma alloc_bytes_spec c : (Z.of_nat c * sz < 2 ^ 62)%Z ->
  (alloc_bytes c mod PAGE_SIZE = 0 /\ Z.of_nat c * sz <= alloc_bytes c < Z.of_nat c * sz + PAGE_SIZE)%Z.
Proof.
  intros Hc. unfold alloc_bytes. rewrite wrap_small by (change (2 ^ 64)%Z with (2 ^ 62 * 4)%Z; nia).
  apply ceil_page_align_spec. change (2 ^ 63)%Z with (2 ^ 62 * 2)%Z. nia.
Qed.

Lemma alloc_bytes_small c : (Z.of_nat c * sz < 2 ^ 61)%Z -> (Z.of_nat c * sz < 2 ^ 62 /\ alloc_bytes c < 2 ^ 62)%Z.
Proof.
  intros Hc. change (2 ^ 62)%Z with (2 ^ 61 * 2)%Z. assert (Z.of_nat c * sz < 2 ^ 62)%Z as H2 by (change (2 ^ 62)%Z with (2 ^ 61 * 2)%Z; lia).
  destruct (alloc_bytes_spec c H2) as [_ H]. change PAGE_SIZE with 4096%Z in H. lia.
Qed.

Lemma allocate_spec s c : (Z.of_nat c * sz < 2 ^ 62)%Z -> (alloc_bytes c < 2 ^ 62)%Z ->
  let b := _allocate_buffer s c in
  pb_size b = s /\ pb_capacity b = length (pb_buf b) /\ (c <= pb_capacity b)%nat /\
  (exists k, 0 <= k /\ Z.of_nat (pb_capacity b) = k * PAGE_SIZE / sz)%Z /\
  (Z.of_nat (pb_capacity b) * sz < 2 ^ 62)%Z.
Proof.
  intros Hc Ha. cbv zeta. destruct (alloc_bytes_spec c Hc) as [Hm Hr]. unfold _allocate_buffer. cbn.
  rewrite length_replicate. fold (alloc_bytes c). set (a := alloc_bytes c) in *.
  assert (0 <= a / sz)%Z as Hq by (apply Z.div_pos; nia).
  assert (sz * (a / sz) <= a)%Z as Hle by (apply Z.mul_div_le; lia).
  assert (Z.of_nat c <= a / sz)%Z as Hcq by (apply Z.div_le_lower_bound; nia).
  split_and!; [done|done|lia| |].
  - exists (a / PAGE_SIZE)%Z. rewrite Z2Nat.id by done. split; [apply Z.div_pos; [nia|by vm_compute]|].
    rewrite Z.mul_comm, <- Z_div_exact_full_2; [done|by vm_compute|done].
  - rewrite Z2Nat.id by done. lia.
Qed.

Lemma grow_spec pab l n :
  represents pab l -> (length l <= n)%nat -> (Z.of_nat n * sz < 2 ^ 62)%Z /\ (alloc_bytes n < 2 ^ 62)%Z ->
  exists b', _grow pab n = Some b' /\ represents b' l /\ (n <= pb_capacity b')%nat.
Proof.
  intros [H1 H0 H2 H3 H4 H5 H6] Hn [Hb Ha]. destruct (allocate_spec (pb_size pab) n Hb Ha) as (A1 & A2 & A3 & A4 & A5).
  unfold _grow. rewrite H2, H1 in *.
  assert (Forall (fun c => c = None) (pb_buf (_allocate_buffer (length l) n))) as A0 by (by apply Forall_replicate).
  generalize dependent (_allocate_buffer (length l) n). intros b A1 A2 A3 A4 A5 A0.
  rewrite (proj2 (Nat.leb_le _ _) H4). destruct (put_at_spec 0 (Some <$> l) (pb_buf b)) as (buf' & E & L & Tk & Dr);
    [rewrite length_fmap; lia|].
  rewrite E. cbn. eexists. split; [done|]. rewrite length_fmap in Tk, Dr. split; [|done].
  split; cbn; [exact Tk|cbn in Dr; rewrite Dr; by apply Forall_drop|done|lia|lia|done|done].
Qed.

(** Writing items right after those represented. *)
Lemma append_spec pab l vs buf :
  represents pab l -> (length l + length vs <= pb_capacity pab)%nat ->
  put_at (pb_size pab) (Some <$> vs) (pb_buf pab) = Some buf ->
  represents (mk_pab buf (length l + length vs) (pb_capacity pab)) (l ++ vs).
Proof.
  intros [H1 H0 H2 H3 H4 H5 H6] Hc E.
  destruct (put_at_spec (pb_size pab) (Some <$> vs) (pb_buf pab)) as (buf' & E' & L & Tk & Dr); [rewrite length_fmap; lia|].
  rewrite E in E'. injection E' as <-. rewrite length_fmap in Tk, Dr.
  split; cbn; rewrite ?length_app; [| |done|lia|lia|done|done].
  - rewrite fmap_app, <- H1, <- H2. by rewrite <- Tk, H2.
  - rewrite <- H2, Dr. apply (Forall_drop_le _ (length l)); [lia|done].
Qed.

Lemma resize_spec pab l n :
  represents pab l -> (Z.of_nat n * sz < 2 ^ 61)%Z -> trivially_assignable = true \/ (n <= pb_size pab)%nat ->
  exists b', resize_buffer pab n = Some b' /\ represents b' (take n l ++ replicate (n - length l) d).
Proof.
  intros Hr Hn Ht. pose proof Hr as [H1 H0 H2 H3 H4 H5 H6]. unfold resize_buffer. rewrite H2 in *.
  destruct (Nat.ltb_spec n (length l)) as [Hlt|Hge].
  - destruct (put_at_spec n (replicate (length l - n) None) (pb_buf pab)) as (buf' & E & L & Tk & Dr);
      [rewrite length_replicate; lia|].
    rewrite E. cbn. eexists. split; [done|]. replace (n - length l) with 0%nat by lia. rewrite app_nil_r.
    rewrite length_replicate in Tk, Dr. replace (n + (length l - n)) with (length l) in Tk, Dr by lia.
    split; cbn; rewrite ?length_take; [rewrite Nat.min_l by lia..|lia|lia|lia|done|done].
    + apply (f_equal (take n)) in Tk. rewrite take_take, Nat.min_l in Tk by lia. rewrite Tk.
      rewrite take_app_length' by (rewrite length_take; lia).
      apply (f_equal (take n)) in H1. rewrite take_take, Nat.min_l in H1 by lia. by rewrite H1, fmap_take.
    + rewrite <- (take_drop (length l) buf'), Tk, Dr, <- app_assoc, drop_app_length' by (rewrite length_take; lia).
      apply Forall_app. split; [by apply Forall_replicate|done].
  - rewrite take_ge by done. destruct (Nat.ltb_spec (length l) n) as [Hlt|Hle].
    + assert (exists b, (if (pb_capacity pab <? n)%nat then _grow pab n else Some pab) = Some b /\
        represents b l /\ (n <= pb_capacity b)%nat) as (b & -> & Hb & Hcap).
      { destruct (Nat.ltb_spec (pb_capacity pab) n); [apply grow_spec; [done|lia|by apply alloc_bytes_small]|]. exists pab. auto. }
      cbn. pose proof (rp_size _ _ Hb) as Hs. pose proof (rp_capacity _ _ Hb) as Hc.
      rewrite assign_at_trivial by (destruct Ht; [done|lia]).
      destruct (put_at_spec (length l) (replicate (n - length l) (Some d)) (pb_buf b)) as (buf' & E & _);
        [rewrite length_replicate; lia|].
      rewrite E. cbn. eexists. split; [done|].
      pose proof (append_spec b l (replicate (n - length l) d) buf' Hb) as Ha. rewrite length_replicate, fmap_replicate, Hs in Ha.
      replace (length l + (n - length l)) with n in Ha by lia. by apply Ha.
    + assert (n = length l) as -> by lia. rewrite Nat.sub_diag, app_nil_r. eexists. split; [done|]. by split.
Qed.

Lemma emplace_spec pab l v :
  represents pab l -> (0 < pb_capacity pab)%nat -> (Z.of_nat (pb_size pab) * sz < 2 ^ 60)%Z ->
  exists b', emplace_back pab v = Some b' /\ represents b' (l ++ [v]).
Proof.
  intros Hr Hc Hb. pose proof (rp_size _ _ Hr) as Hs. pose proof (rp_capacity _ _ Hr). pose proof (rp_fits _ _ Hr).
  unfold emplace_back.
  assert (exists b, (if (pb_size pab =? pb_capacity pab)%nat then _grow pab (pb_size pab * 2) else Some pab) = Some b /\
    represents b l /\ (length l < pb_capacity b)%nat) as (b & -> & Hrb & Hcap).
  { destruct (Nat.eqb_spec (pb_size pab) (pb_capacity pab)) as [E|Hne]; [|exists pab; split; [done|]; split; [done|lia]].
    destruct (grow_spec pab l (pb_size pab * 2) Hr) as (b & Eb & Hrb & Hle); [lia| |].
    - apply alloc_bytes_small. rewrite Nat2Z.inj_mul. change (2 ^ 61)%Z with (2 ^ 60 * 2)%Z. lia.
    - exists b. split; [done|]. split; [done|lia]. }
  cbn. unfold _append_unsafe. pose proof (rp_size _ _ Hrb) as Hsb. pose proof (rp_capacity _ _ Hrb) as Hcb.
  destruct (put_at_spec (pb_size b) [Some v] (pb_buf b)) as (buf' & E & _); [cbn; lia|].
  rewrite E. cbn. eexists. split; [done|]. rewrite Hsb. replace (S (length l)) with (length l + 1) by lia.
  apply (append_spec b l [v] buf' Hrb); [cbn; lia|done].
Qed.

Lemma shrink_spec pab l :
  represents pab l -> exists b', shrink_to_fit pab = Some b' /\ represents b' l.
Proof.
  intros Hr. pose proof Hr as [H1 H0 H2 H3 H4 H5 H6]. unfold shrink_to_fit. destruct (Z.ltb_spec
    (ceil_page_align (u64 (Z.of_nat (pb_size pab) * sz))) (u64 (Z.of_nat (pb_capacity pab) * sz))) as [Hlt|_]; [|by eauto].
  fold (alloc_bytes (pb_size pab)) in Hlt. rewrite wrap_small in Hlt by (change (2 ^ 64)%Z with (2 ^ 62 * 4)%Z; nia).
  destruct (grow_spec pab l (pb_size pab) Hr) as (b & ? & ? & _); [lia|split; [nia|lia]|by eauto].
Qed.

(** ** Properties *)

(** C30: a page-aligned buffer is a vector. Every operation on a
    well-formed buffer is defined, leaves it well-formed (the items in its
    first cells, raw memory after them, the capacity that of a whole number
    of pages), and changes its items as the operation of a vector does,
    provided the sizes do not overflow, a buffer that is appended to has
    some capacity, and a buffer that a [resize] makes larger holds items
    that can be assigned to raw memory (bytes, which is all the source
    resizes; not keys, see [resize_grow_undefined]). *)
Theorem buffer_is_vector (pab : page_aligned_buffer) (l : list T) (o : vop)
    (Hr : represents pab l) (Ho : op_ok pab o) :
  exists pab', buffer_op pab o = Some pab' /\ represents pab' (vector_op l o).
Proof.
  destruct o as [n|n|v| |]; cbn in *.
  - destruct Ho. by apply resize_spec.
  - unfold reserve. destruct (Nat.ltb_spec (pb_capacity pab) n); [|by eauto].
    pose proof (rp_capacity _ _ Hr). pose proof (rp_fits _ _ Hr).
    destruct (grow_spec pab l n Hr) as (b & ? & ? & _); [lia|by apply alloc_bytes_small|by eauto].
  - destruct Ho. by apply emplace_spec.
  - by apply shrink_spec.
  - eexists. split; [done|]. split; cbn; try done. exists 0%Z. done.
Qed.

(** A [resize] that makes a buffer of non-trivial items larger is undefined,
    whether or not it reallocates: [std::fill] assigns to items that were
    never constructed. *)
Theorem resize_grow_undefined (pab : page_aligned_buffer) (l : list T) (n : nat)
    (Hr : represents pab l) (Ht : trivially_assignable = false) (Hl : (length l < n)%nat)
    (Hn : (Z.of_nat n * sz < 2 ^ 61)%Z) :
  resize_buffer pab n = None.
Proof.
  unfold resize_buffer. pose proof (rp_size _ _ Hr) as ->. rewrite (proj2 (Nat.ltb_ge _ _)), (proj2 (Nat.ltb_lt _ _)) by lia.
  assert (exists b, (if (pb_capacity pab <? n)%nat then _grow pab n else Some pab) = Some b /\
    represents b l /\ (n <= pb_capacity b)%nat) as (b & -> & Hb & Hcap).
  { destruct (Nat.ltb_spec (pb_capacity pab) n); [apply grow_spec; [done|lia|by apply alloc_bytes_small]|]. exists pab. auto. }
  cbn. destruct Hb as [_ H0 _ H3 _ _ _].
  rewrite assign_at_raw; [done|done|rewrite length_replicate; lia|lia|done].
Qed.

(** Appending to a buffer without capacity writes outside its
    storage. The capacity is doubled, so it stays 0: for a buffer that is
    default-constructed, moved from or freed, or that was shrunk to fit
    while it was empty. *)
Theorem emplace_back_without_capacity (pab : page_aligned_buffer) (v : T) :
  emplace_back empty_buffer v = None /\
  emplace_back (snd (move_buffer pab)) v = None /\
  emplace_back (free_buffer pab) v = None /\
  forall pab', represents pab [] -> shrink_to_fit pab = Some pab' -> emplace_back pab' v = None.
Proof.
  assert (forall b, pb_size b = 0 -> pb_capacity b = 0 -> emplace_back b v = None) as H0.
  { intros [buf s c]. cbn. intros -> ->. unfold emplace_back, _grow. cbn. reflexivity. }
  split_and!; [by apply H0..|]. intros pab' [H1 H0' H2 H3 H4 (k & Hk & H5) H6]. cbn in H2. unfold shrink_to_fit. rewrite H2.
  change (ceil_page_align (u64 (Z.of_nat 0 * sz))) with 0%Z. rewrite (wrap_small 64) by (change (2 ^ 64)%Z with (2 ^ 62 * 4)%Z; nia).
  destruct (Z.ltb_spec 0 (Z.of_nat (pb_capacity pab) * sz)) as [Hlt|Hge].
  - unfold _grow. rewrite H2. change (_allocate_buffer 0 0) with empty_buffer. rewrite take_0.
    intros E. change (Some empty_buffer = Some pab') in E. injection E as E. subst pab'. by apply H0.
  - intros E. injection E as E. subst pab'. apply H0; [done|nia].
Qed.
End page_aligned_buffer.

(** A buffer of one page of 24-byte items, full: the capacity doubles and
    is rounded up to whole pages. *)
Lemma buffer_is_vector_witness :
  exists pab b0, make_buffer 24 7%Z 170 170 = Some b0 /\ emplace_back 24 b0 9%Z = Some pab /\
    pb_capacity pab = 341 /\ represents 24 pab (replicate 170 7%Z ++ [9%Z]).
Proof.
  destruct (make_buffer 24 7%Z 170 170) as [b0|] eqn:E; [|vm_compute in E; discriminate E].
  destruct (buffer_is_vector 24 7%Z false ltac:(by vm_compute) b0 (replicate 170 7%Z) (VEmplaceBack 9%Z)) as (pab & H1 & H2).
  - vm_compute in E. injection E as <-. split; [reflexivity|constructor|reflexivity|reflexivity|vm_compute; lia| |reflexivity].
    exists 1%Z. vm_compute. split; [intros H; discriminate H|reflexivity].
  - vm_compute in E. injection E as <-. split; [cbn; lia|reflexivity].
  - exists pab, b0. split; [reflexivity|]. split; [exact H1|]. split; [|exact H2].
    vm_compute in E. injection E as <-. vm_compute in H1. by injection H1 as <-.
Defined.

(** A buffer of one key with room for more: making it larger is
    undefined, while the same buffer of bytes-like items is resized. *)
Lemma resize_grow_witness : exists b0, make_buffer 24 0%Z 1 100 = Some b0 /\
  resize_buffer 24 0%Z false b0 2 = None /\ (exists b, resize_buffer 24 0%Z true b0 2 = Some b).
Proof.
  destruct (make_buffer 24 0%Z 1 100) as [b0|] eqn:E; [|vm_compute in E; discriminate E].
  exists b0. split; [done|]. vm_compute in E. injection E as <-. split; [|by eexists].
  apply (resize_grow_undefined 24 0%Z false ltac:(by vm_compute) _ [0%Z]); [|done|cbn; lia|done].
  split; [reflexivity|by repeat constructor|reflexivity|reflexivity|cbn; lia| |reflexivity].
  exists 1%Z. vm_compute. split; [intros H; discriminate H|reflexivity].
Defined.

Lemma emplace_back_witness : exists b : page_aligned_buffer, emplace_back 24 (T := Z) b 1%Z = None /\
  exists b0, make_buffer 24 0%Z 0 100 = Some b0 /\ shrink_to_fit 24 b0 = Some b.
Proof.
  destruct (make_buffer 24 0%Z 0 100) as [b0|] eqn:E; [|vm_compute in E; discriminate E].
  destruct (shrink_to_fit 24 b0) as [b|] eqn:Es; [|vm_compute in E; injection E as <-; vm_compute in Es; discriminate Es].
  exists b. split; [|by exists b0].
  refine (proj2 (proj2 (proj2 (emplace_back_without_capacity 24 ltac:(by vm_compute) b0 1%Z))) b _ Es).
  vm_compute in E. injection E as <-. split; [reflexivity|by repeat constructor|reflexivity|reflexivity|cbn; lia| |reflexivity].
  exists 1%Z. vm_compute. split; [intros H; discriminate H|reflexivity].
Defined.
