(* ===== verification/Generator.v ===== *)
(** * Generators (src/async/generator.h)

    The coroutine type behind the reader of a log file and the ranges of a
    flush. A coroutine body is a function from the state it is suspended in
    to what it does until it is suspended again; its frames live in a heap,
    a [generator] object and an iterator are handles to a frame. Resuming a
    frame that is done or destroyed, dereferencing without a value and
    destroying a frame twice are undefined, as the result [None]. *)

From stdpp Require Import base numbers option list.
From Stdlib Require Import Lia.
From S2P Require Import Prelude.

Section generator.
Context {S V : Type}.

(** What a body does between two suspensions: [co_yield v], return, or an
    exception that leaves it. *)
Inductive gen_segment :=
  | co_yield (v : V) (s : S)
  | co_return
  | throws.

Context (body : S -> gen_segment).

(** A frame: suspended at its start, at a [co_yield] (with the promise's
    [_value] pointing at the value), at its end, or freed. *)
Inductive coro_frame :=
  | initially (s : S)
  | yielded (v : V) (s : S)
  | finished
  | destroyed.

Definition coro_heap := list coro_frame.

(** Calling the coroutine: the promise suspends it at once
    ([initial_suspend]); the caller gets a generator with its handle. *)
Definition make_generator (s : S) (h : coro_heap) : nat * coro_heap := (length h, h ++ [initially s]).

(** A call that an exception can leave. *)
Inductive outcome (A : Type) := returned (a : A) | thrown.
Arguments returned {A} a.
Arguments thrown {A}.

(** [yield_value], [return_void] with [final_suspend], and
    [unhandled_exception], which rethrows: the frame then is at its end. *)
Definition run_segment (s : S) : coro_frame * outcome unit :=
  match body s with
  | co_yield v s => (yielded v s, returned tt)
  | co_return => (finished, returned tt)
  | throws => (finished, thrown)
  end.

(** [coroutine_handle::resume] *)
Definition coro_resume (i : nat) (h : coro_heap) : option (coro_heap * outcome unit) :=
  match h !! i with
  | Some (initially s) | Some (yielded _ s) => let '(f, r) := run_segment s in Some (<[i := f]> h, r)
  | _ => None
  end.

(** [coroutine_handle::done] *)
Definition done (i : nat) (h : coro_heap) : option bool :=
  match h !! i with
  | Some finished => Some true
  | Some destroyed | None => None
  | Some _ => Some false
  end.

(** [generator::begin] and [generator_iterator::operator++] *)
Definition begin (i : nat) (h : coro_heap) : option (coro_heap * outcome unit) := coro_resume i h.
Definition generator_next (i : nat) (h : coro_heap) : option (coro_heap * outcome unit) := coro_resume i h.

(** [operator!=(default_sentinel_t)] *)
Definition not_at_end (i : nat) (h : coro_heap) : option bool := negb <$> done i h.

(** [operator*] *)
Definition dereference (i : nat) (h : coro_heap) : option V :=
  match h !! i with Some (yielded v _) => Some v | _ => None end.

(** [~generator]: [_coroutine] is never null in a live object. *)
Definition coro_destroy (i : nat) (h : coro_heap) : option coro_heap :=
  match h !! i with
  | Some destroyed | None => None
  | Some _ => Some (<[i := destroyed]> h)
  end.

(** The copy constructor, which the compiler declares: the handle. *)
Definition copy_generator (i : nat) : nat := i.

(** ** The range-based loop *)

(** [for(auto& v : generator)] with a loop body that says whether it goes
    on; [fuel] bounds the rounds. The results are what the body saw and
    whether an exception ended the loop. *)
Fixpoint range_loop (fuel i : nat) (go_on : V -> bool) (h : coro_heap) : option (coro_heap * list V * outcome unit) :=
  match fuel with
  | O => None
  | Datatypes.S fuel =>
      more ← not_at_end i h;
      if negb more then Some (h, [], returned tt)
      else
        v ← dereference i h;
        if negb (go_on v) then Some (h, [v], returned tt)
        else
          '(h, r) ← generator_next i h;
          match r with
          | thrown => Some (h, [v], thrown)
          | returned _ => '(h, vs, r) ← range_loop fuel i go_on h; Some (h, v :: vs, r)
          end
  end.

(** The whole statement over a temporary: the generator is made, iterated
    and destroyed, on an exception too. *)
Definition range_for (fuel : nat) (s : S) (go_on : V -> bool) (h : coro_heap) : option (coro_heap * list V * outcome unit) :=
  let '(i, h) := make_generator s h in
  '(h, r) ← begin i h;
  '(h, vs, r) ← match r with
                | thrown => Some (h, [], thrown)
                | returned _ => range_loop fuel i go_on h
                end;
  h ← coro_destroy i h;
  Some (h, vs, r).

(** ** What a body produces *)

Inductive produces : S -> list V -> outcome unit -> Prop :=
  | produces_return s : body s = co_return -> produces s [] (returned tt)
  | produces_throw s : body s = throws -> produces s [] thrown
  | produces_yield s v s' vs r : body s = co_yield v s' -> produces s' vs r -> produces s (v :: vs) r.

(** The values up to and with the first that stops the loop, and how it
    then ends. *)
Fixpoint visited (go_on : V -> bool) (vs : list V) (r : outcome unit) : list V * outcome unit :=
  match vs with
  | [] => ([], r)
  | v :: vs => if go_on v then let '(l, r) := visited go_on vs r in (v :: l, r) else ([v], returned tt)
  end.

Lemma insert_new_frame (h : coro_heap) (f g : coro_frame) : <[length h := g]> (h ++ [f]) = h ++ [g].
Proof. rewrite insert_app_r_alt by lia. by rewrite Nat.sub_diag. Qed.

Lemma lookup_new_frame (h : coro_heap) (f : coro_frame) : (h ++ [f]) !! length h = Some f.
Proof. rewrite lookup_app_r by lia. by rewrite Nat.sub_diag. Qed.

(** The loop from a suspended frame, after a resume. *)
Lemma range_loop_ok go_on h vs r s fuel : produces s vs r -> length vs < fuel ->
  exists f, (let '(f0, r0) := run_segment s in
     match r0 with
     | thrown => Some (h ++ [f0], [], thrown)
     | returned _ => range_loop fuel (length h) go_on (h ++ [f0])
     end) = Some (h ++ [f], (visited go_on vs r).1, (visited go_on vs r).2) /\ f <> destroyed.
Proof.
  intros Hp. revert fuel. induction Hp as [s E|s E|s v s' vs r E Hp IH]; intros fuel Hf;
    (destruct fuel as [|fuel]; [cbn in Hf; lia|]); unfold run_segment; rewrite E; cbn [range_loop visited].
  - exists finished. unfold not_at_end, done. rewrite lookup_new_frame. done.
  - exists finished. done.
  - unfold not_at_end, done, dereference. rewrite lookup_new_frame. cbn. destruct (go_on v); cbn.
    + unfold generator_next, coro_resume. rewrite lookup_new_frame. destruct (IH fuel) as (f & Hl & Hd); [cbn in Hf; lia|].
      destruct (run_segment s') as [f0 r0]. cbn. rewrite insert_new_frame. exists f. split; [|done].
      destruct (visited go_on vs r) as [l r1]. destruct r0 as [[]|]; [by rewrite Hl|]. injection Hl as -> <- <-. done.
    + by exists (yielded v s').
Qed.

(** A range-based loop over a generator. For a body that yields [vs] and
    then returns or throws, the loop is defined, it sees the values in
    order up to the one it breaks at, an exception of the body comes out
    after the values before it, and the frame is destroyed once while every
    other frame is as it was. *)
Theorem range_for_correct (s : S) (vs : list V) (r : outcome unit) (go_on : V -> bool) (h : coro_heap) (fuel : nat)
    (Hbody : produces s vs r) (Hfuel : length vs < fuel) :
  range_for fuel s go_on h = Some (h ++ [destroyed], (visited go_on vs r).1, (visited go_on vs r).2).
Proof.
  unfold range_for, make_generator, begin, coro_resume. rewrite lookup_new_frame.
  destruct (range_loop_ok go_on h vs r s fuel Hbody Hfuel) as (f & Hl & Hd).
  destruct (run_segment s) as [f0 r0]. cbn. rewrite insert_new_frame.
  destruct r0 as [[]|]; [rewrite Hl|injection Hl as -> <- <-]; cbn; unfold coro_destroy; rewrite lookup_new_frame; destruct f; try done; by rewrite insert_new_frame.
Qed.

(** A loop without a break sees everything. *)
Lemma visited_all vs r : visited (fun _ => true) vs r = (vs, r).
Proof. induction vs as [|v vs IH]; [done|]. cbn. by rewrite IH. Qed.

(** A second loop over one generator, and two objects for one frame. The
    first is undefined as soon as the first loop ran to the end, since
    [begin] resumes; the second because both objects destroy the frame. *)
Theorem generator_single_use (s : S) (h : coro_heap) (i : nat) :
  (h !! i = Some finished -> begin i h = None) /\
  (forall i' h', make_generator s h = (i', h') ->
     exists h1, coro_destroy i' h' = Some h1 /\ coro_destroy (copy_generator i') h1 = None).
Proof.
  split; [intros E; unfold begin, coro_resume; by rewrite E|]. intros i' h' [= <- <-]. unfold coro_destroy, copy_generator.
  rewrite lookup_new_frame, insert_new_frame. eexists. split; [done|]. by rewrite lookup_new_frame.
Qed.
End generator.

Arguments returned {A} a.
Arguments thrown {A}.

(** ** Generators of a list *)

(** The body that yields the elements of a list: what the reader of a log
    and the ranges of a flush are to their loops. *)
Definition list_body {V} (l : list V) : @gen_segment (list V) V :=
  match l with
  | [] => co_return
  | v :: l => co_yield v l
  end.

Lemma list_body_produces {V} (l : list V) : produces list_body l l (returned tt).
Proof. induction l as [|v l IH]; [by apply produces_return|by eapply produces_yield]. Qed.

(** A loop over the generator of a list, in a heap with other frames. *)
Lemma range_for_witness : range_for list_body 4 [1; 2; 3] (fun v => negb (v =? 2)) [finished] = Some ([finished; destroyed], [1; 2], returned tt).
Proof. exact (range_for_correct list_body [1; 2; 3] [1; 2; 3] (returned tt) (fun v => negb (v =? 2)) [finished] 4 (list_body_produces _) ltac:(cbn; lia)). Defined.
