(* ===== verification/RwSync.v ===== *)
(** * Writers and the flusher (src/async/rw_sync.h; the wait of
      src/db/memtable.cc)

    [rw_sync] as a transition system. A writer announces itself in its
    counter, then looks at the gate and either holds the object or backs
    off; the flusher closes the gate and waits, scanning the counters,
    until it finds them all zero. Every atomic access is one step and the
    steps of all threads interleave arbitrarily: the fence between the
    writer's store and load, and the sequentially consistent accesses of
    the flusher, rule out every execution that is not such an
    interleaving. *)

From stdpp Require Import base numbers option list sorting.
From Stdlib Require Import ZArith Lia.
From S2P Require Import Prelude.

(** ** States *)

(** Where a writer is in [acquire_writer] and after it. *)
Inductive writer_pc :=
  | Outside        (* not in the object; its counter is 0 *)
  | Announced      (* counter.store(1) done *)
  | BackingOff     (* saw the gate closed *)
  | Holding.       (* has the acquired_writer *)

#[global] Instance writer_pc_eq_dec : EqDecision writer_pc.
Proof. solve_decision. Defined.

(** A writer thread, the slot it uses, and how many more times it will try
    to acquire the object. *)
Record writer := mk_writer_thread {
  w_slot : nat;
  w_pc : writer_pc;
  w_attempts : nat;
}.

Inductive flusher_pc :=
  | Open               (* freeze_writes not called *)
  | Scanning (k : nat) (* in any_active_writer, about to load counter k *)
  | Drained.           (* any_active_writer returned false *)

Record rw_sync := mk_rw_sync {
  rw_frozen : bool;
  rw_counters : list Z;
  rw_writers : list writer;
  rw_flusher : flusher_pc;
}.

(** ** Steps *)

Definition set_counter (s : rw_sync) (slot : nat) (v : Z) : rw_sync :=
  mk_rw_sync (rw_frozen s) (<[slot := v]> (rw_counters s)) (rw_writers s) (rw_flusher s).

Definition set_writer (s : rw_sync) (i : nat) (w : writer) : rw_sync :=
  mk_rw_sync (rw_frozen s) (rw_counters s) (<[i := w]> (rw_writers s)) (rw_flusher s).

(** The first store of [acquire_writer]. *)
Definition announce (s : rw_sync) (i : nat) (w : writer) : rw_sync :=
  match w_attempts w with
  | O => s
  | S n => set_writer (set_counter s (w_slot w) 1) i (mk_writer_thread (w_slot w) Announced n)
  end.

(** Its load of [_frozen]. *)
Definition check_frozen (s : rw_sync) (i : nat) (w : writer) : rw_sync :=
  set_writer s i (mk_writer_thread (w_slot w) (if rw_frozen s then BackingOff else Holding) (w_attempts w)).

(** The store of zero, on backing off and in [release]. *)
Definition leave (s : rw_sync) (i : nat) (w : writer) : rw_sync :=
  set_writer (set_counter s (w_slot w) 0) i (mk_writer_thread (w_slot w) Outside (w_attempts w)).

Definition writer_step (s : rw_sync) (i : nat) : rw_sync :=
  match rw_writers s !! i with
  | None => s
  | Some w =>
      match w_pc w with
      | Outside => announce s i w
      | Announced => check_frozen s i w
      | BackingOff | Holding => leave s i w
      end
  end.

Definition freeze_writes (s : rw_sync) : rw_sync :=
  mk_rw_sync true (rw_counters s) (rw_writers s) (Scanning 0).

(** One load of [any_active_writer]; a counter above zero ends the scan,
    and the loop of the flusher starts the next one. *)
Definition scan_step (s : rw_sync) (k : nat) : rw_sync :=
  let next := match rw_counters s !! k with
              | None => Drained
              | Some c => if (0 <? c)%Z then Scanning 0 else Scanning (S k)
              end in
  mk_rw_sync (rw_frozen s) (rw_counters s) (rw_writers s) next.

Definition flusher_step (s : rw_sync) : rw_sync :=
  match rw_flusher s with
  | Open => freeze_writes s
  | Scanning k => scan_step s k
  | Drained => s
  end.

(** A thread: the flusher or a writer. *)
Inductive thread := Flusher | Writer (i : nat).

Definition step (s : rw_sync) (t : thread) : rw_sync :=
  match t with Flusher => flusher_step s | Writer i => writer_step s i end.

(** [rw_sync(thread_count)] with the given writers, none inside. *)
Definition make_rw_sync (thread_count : nat) (writers : list (nat * nat)) : rw_sync :=
  mk_rw_sync false (replicate thread_count 0%Z)
    ((fun w => mk_writer_thread w.1 Outside w.2) <$> writers) Open.

Definition run (s : rw_sync) (ts : list thread) : rw_sync := foldl step s ts.

(** ** Safety *)

(** The writers' slots are their own and exist. *)
Definition exclusive (n : nat) (ws : list writer) : Prop :=
  NoDup (w_slot <$> ws) /\ Forall (fun w => w_slot w < n) ws.

Definition scanned (f : flusher_pc) (slot : nat) : Prop :=
  match f with Open => False | Scanning k => slot < k | Drained => True end.

Record inv (n : nat) (s : rw_sync) : Prop := {
  inv_slots : exclusive n (rw_writers s);
  inv_length : length (rw_counters s) = n;
  inv_frozen : rw_frozen s = true <-> rw_flusher s <> Open;
  inv_counter i w : rw_writers s !! i = Some w ->
    rw_counters s !! w_slot w = Some (match w_pc w with Outside => 0 | _ => 1 end)%Z;
  inv_scanned i w : rw_writers s !! i = Some w -> scanned (rw_flusher s) (w_slot w) -> w_pc w <> Holding;
}.

Lemma exclusive_slots n ws i j a b :
  exclusive n ws -> ws !! i = Some a -> ws !! j = Some b -> w_slot a = w_slot b -> i = j.
Proof.
  intros [Hnd _] Ha Hb E. eapply (NoDup_lookup _ _ _ (w_slot a) Hnd); rewrite list_lookup_fmap;
    [by rewrite Ha|by rewrite Hb, E].
Qed.

(** Changing writer [i] and its counter. *)
Lemma inv_writer n s i w pc attempts c :
  inv n s -> rw_writers s !! i = Some w ->
  c = (match pc with Outside => 0 | _ => 1 end)%Z ->
  (pc = Holding -> rw_flusher s = Open) ->
  inv n (mk_rw_sync (rw_frozen s) (<[w_slot w := c]> (rw_counters s))
    (<[i := mk_writer_thread (w_slot w) pc attempts]> (rw_writers s)) (rw_flusher s)).
Proof.
  intros [H1 H2 H3 H4 H5] Hw -> Hp. pose proof (lookup_lt_Some _ _ _ Hw) as Hi.
  assert (w_slot w < length (rw_counters s)) as Hslot.
  { destruct H1 as [_ Hf]. rewrite Forall_lookup in Hf. rewrite H2. by eapply Hf. }
  split; cbn [rw_writers rw_counters rw_frozen rw_flusher].
  - destruct H1 as [Hnd Hf]. split.
    + rewrite list_fmap_insert. cbn [w_slot]. rewrite list_insert_id; [done|]. by rewrite list_lookup_fmap, Hw.
    + apply Forall_insert; [done|]. cbn [w_slot]. by rewrite H2 in Hslot.
  - by rewrite length_insert.
  - done.
  - intros j x Hx. destruct (decide (i = j)) as [<-|Hne].
    + rewrite list_lookup_insert_eq in Hx by done. injection Hx as <-. cbn [w_slot w_pc].
      by rewrite list_lookup_insert_eq.
    + rewrite list_lookup_insert_ne in Hx by done.
      rewrite list_lookup_insert_ne; [by eapply H4|]. intros E. apply Hne. by eapply (exclusive_slots n).
  - intros j x Hx Hs. destruct (decide (i = j)) as [<-|Hne].
    + rewrite list_lookup_insert_eq in Hx by done. injection Hx as <-. cbn [w_pc w_slot] in *.
      intros E. rewrite (Hp E) in Hs. done.
    + rewrite list_lookup_insert_ne in Hx by done. by eapply H5.
Qed.

Lemma insert_counter_id n s i w pc :
  inv n s -> rw_writers s !! i = Some w -> w_pc w <> Outside -> pc <> Outside ->
  <[w_slot w := (match pc with Outside => 0 | _ => 1 end)%Z]> (rw_counters s) = rw_counters s.
Proof.
  intros Hi Hw Hp Hpc. apply list_insert_id. rewrite (inv_counter _ _ Hi _ _ Hw). by destruct (w_pc w), pc.
Qed.

Lemma step_inv n s t : inv n s -> inv n (step s t).
Proof.
  intros Hi. destruct t as [|i]; cbn [step].
  - unfold flusher_step. destruct Hi as [H1 H2 H3 H4 H5]. destruct (rw_flusher s) as [|k|] eqn:Ef.
    + split; cbn [freeze_writes rw_writers rw_counters rw_frozen rw_flusher scanned]; try done. intros; lia.
    + unfold scan_step. destruct (rw_counters s !! k) as [c|] eqn:Ec.
      * destruct (Z.ltb_spec 0 c) as [Hc|Hc]; split; cbn [rw_writers rw_counters rw_frozen rw_flusher scanned]; try done;
          try (rewrite H3; done); try (intros; lia).
        intros j x Hx Hs E. destruct (decide (w_slot x = k)) as [Hk|]; [|by eapply H5; [exact Hx|cbn; lia|]].
        specialize (H4 _ _ Hx). rewrite E, Hk, Ec in H4. injection H4 as ->. lia.
      * split; cbn [rw_writers rw_counters rw_frozen rw_flusher scanned]; try done; [rewrite H3; done|].
        intros j x Hx _. eapply H5; [exact Hx|]. cbn. apply lookup_ge_None in Ec.
        destruct H1 as [_ Hf]. rewrite Forall_lookup in Hf. specialize (Hf _ _ Hx). cbn in Hf. lia.
    + by split; rewrite ?Ef.
  - unfold writer_step. destruct (rw_writers s !! i) as [w|] eqn:Hw; [|done]. destruct (w_pc w) eqn:Ep.
    + unfold announce. destruct (w_attempts w) as [|m]; [done|]. by apply (inv_writer n s i w Announced m 1).
    + unfold check_frozen, set_writer. destruct (rw_frozen s) eqn:Ef.
      * rewrite <- (insert_counter_id n s i w BackingOff Hi Hw) by (rewrite ?Ep; done). rewrite <- Ef.
        eapply inv_writer; try done.
      * rewrite <- (insert_counter_id n s i w Holding Hi Hw) by (rewrite ?Ep; done). rewrite <- Ef.
        eapply inv_writer; try done. intros _. destruct (rw_flusher s) eqn:Efl; [done|..];
          (assert (rw_frozen s = true) by (apply (inv_frozen _ _ Hi); by rewrite Efl)); congruence.
    + by apply (inv_writer n s i w Outside (w_attempts w) 0).
    + by apply (inv_writer n s i w Outside (w_attempts w) 0).
Qed.

Lemma make_inv n writers :
  NoDup writers.*1 -> Forall (fun w => w.1 < n) writers -> inv n (make_rw_sync n writers).
Proof.
  intros Hnd Hf. split; cbn [make_rw_sync rw_writers rw_counters rw_frozen rw_flusher].
  - split; [by rewrite <- list_fmap_compose|]. by apply Forall_fmap.
  - apply length_replicate.
  - done.
  - intros i w Hw. rewrite list_lookup_fmap in Hw. destruct (writers !! i) as [x|] eqn:Ex; [|done].
    injection Hw as <-. cbn [w_slot w_pc]. apply lookup_replicate. rewrite Forall_lookup in Hf. split; [done|by eapply Hf].
  - done.
Qed.

Lemma run_inv n s ts : inv n s -> inv n (run s ts).
Proof. revert s. induction ts as [|t ts IH]; intros s Hi; [done|]. cbn. apply IH. by apply step_inv. Qed.

(** C18: the flusher has the object to itself. With every writer on a slot
    of its own, once the flusher has closed the gate and found all counters
    zero, no writer holds the object, then or after any further steps. *)
Theorem drained_is_exclusive (n : nat) (writers : list (nat * nat)) (ts ts' : list thread)
    (Hslots : NoDup writers.*1) (Hrange : Forall (fun w => w.1 < n) writers)
    (Hdrained : rw_flusher (run (make_rw_sync n writers) ts) = Drained) :
  Forall (fun w => w_pc w <> Holding) (rw_writers (run (make_rw_sync n writers) (ts ++ ts'))).
Proof.
  pose proof (run_inv n _ ts (make_inv n writers Hslots Hrange)) as Hi.
  unfold run in *. rewrite foldl_app. set (s := foldl step (make_rw_sync n writers) ts) in *.
  assert (forall s, rw_flusher s = Drained -> rw_flusher (foldl step s ts') = Drained) as Hstay.
  { clear. induction ts' as [|t ts' IH]; intros s Hs; [done|]. cbn. apply IH. destruct t as [|i]; cbn [step].
    - unfold flusher_step. by rewrite Hs.
    - unfold writer_step, announce, check_frozen, leave. destruct (rw_writers s !! i) as [w|]; [|done].
      destruct (w_pc w), (w_attempts w); done. }
  pose proof (run_inv n s ts' Hi) as Hi'. apply Forall_lookup. intros j w Hw.
  eapply (inv_scanned _ _ Hi' _ _ Hw). unfold run. by rewrite (Hstay s Hdrained).
Qed.

Lemma drained_witness :
  Forall (fun w => w_pc w <> Holding)
    (rw_writers (run (make_rw_sync 2 [(0, 1); (1, 1)])
      ([Writer 0; Writer 0; Writer 1; Flusher; Writer 1; Flusher; Writer 0; Writer 1; Flusher; Flusher; Flusher] ++ [Writer 0]))).
Proof.
  apply (drained_is_exclusive 2 [(0, 1); (1, 1)]
    [Writer 0; Writer 0; Writer 1; Flusher; Writer 1; Flusher; Writer 0; Writer 1; Flusher; Flusher; Flusher]).
  - cbn. apply NoDup_cons. split; [|apply NoDup_singleton]. intros H. apply list_elem_of_singleton in H. discriminate H.
  - repeat constructor.
  - reflexivity.
Defined.

(** A slot cannot be shared. With two writers on one slot, which
    [put_async] makes of any two threads whose numbers agree modulo
    [num_writer_threads], the release of one clears the announcement of the
    other, and the flusher goes ahead while the other still writes. *)
Theorem shared_slot_unsafe :
  exists ts, let s := run (make_rw_sync 1 [(0, 1); (0, 1)]) ts in
    rw_flusher s = Drained /\ exists w, rw_writers s !! 0 = Some w /\ w_pc w = Holding.
Proof.
  exists [Writer 0; Writer 0; Writer 1; Writer 1; Writer 1; Flusher; Flusher; Flusher].
  split; [done|]. by eexists.
Qed.

(** ** Liveness *)

(** A counter above zero belongs to a writer that is inside. *)
Definition owned (s : rw_sync) : Prop :=
  forall k c, rw_counters s !! k = Some c -> (0 < c)%Z ->
    exists i w, rw_writers s !! i = Some w /\ w_slot w = k /\ w_pc w <> Outside.

Lemma owned_writer n s i w pc attempts c :
  inv n s -> owned s -> rw_writers s !! i = Some w -> c = (match pc with Outside => 0 | _ => 1 end)%Z ->
  owned (mk_rw_sync (rw_frozen s) (<[w_slot w := c]> (rw_counters s))
    (<[i := mk_writer_thread (w_slot w) pc attempts]> (rw_writers s)) (rw_flusher s)).
Proof.
  intros Hi Ho Hw -> k v Hk Hv. cbn [rw_counters rw_writers] in *. pose proof (lookup_lt_Some _ _ _ Hw) as Hlt.
  destruct (decide (w_slot w = k)) as [E|Hne].
  - rewrite <- E in Hk. rewrite list_lookup_insert_eq in Hk by (eapply lookup_lt_Some; by eapply (inv_counter _ _ Hi)).
    injection Hk as <-. exists i, (mk_writer_thread (w_slot w) pc attempts). rewrite list_lookup_insert_eq by done.
    split_ands; [done|done|]. cbn [w_pc]. by destruct pc.
  - rewrite list_lookup_insert_ne in Hk by done. destruct (Ho k v Hk Hv) as (j & x & Hx & Hs & Hp).
    exists j, x. rewrite list_lookup_insert_ne; [done|]. intros ->. congruence.
Qed.

Lemma step_owned n s t : inv n s -> owned s -> owned (step s t).
Proof.
  intros Hi Ho. destruct t as [|i]; cbn [step].
  - unfold flusher_step. by destruct (rw_flusher s).
  - unfold writer_step. destruct (rw_writers s !! i) as [w|] eqn:Hw; [|done]. destruct (w_pc w) eqn:Ep.
    + unfold announce. destruct (w_attempts w) as [|m]; [done|]. by apply (owned_writer n s i w Announced m 1).
    + unfold check_frozen, set_writer. set (pc := if rw_frozen s then BackingOff else Holding).
      rewrite <- (insert_counter_id n s i w pc Hi Hw) by (unfold pc; rewrite ?Ep; by destruct (rw_frozen s)).
      by eapply (owned_writer n).
    + by apply (owned_writer n s i w Outside (w_attempts w) 0).
    + by apply (owned_writer n s i w Outside (w_attempts w) 0).
Qed.

Lemma make_owned n writers : owned (make_rw_sync n writers).
Proof. intros k c Hk Hc. apply lookup_replicate in Hk as [-> _]. lia. Qed.

(** How many steps a writer still takes. *)
Definition weight (w : writer) : nat :=
  3 * w_attempts w + match w_pc w with Outside => 0 | Announced => 2 | BackingOff | Holding => 1 end.

Definition work (s : rw_sync) : nat := sum_list (weight <$> rw_writers s).

Lemma sum_list_insert (l : list nat) i x y : l !! i = Some x -> sum_list (<[i := y]> l) + x = sum_list l + y.
Proof.
  revert i. induction l as [|z l IH]; intros [|i]; cbn; try done.
  - intros [= ->]. lia.
  - intros Hx. rewrite <- Nat.add_assoc, <- (Nat.add_assoc z (sum_list l)). f_equal. exact (IH i Hx).
Qed.

Lemma writer_step_work s i w : rw_writers s !! i = Some w -> 0 < weight w -> S (work (writer_step s i)) = work s.
Proof.
  intros Hw Hp. unfold writer_step. rewrite Hw. unfold work.
  assert (forall w', weight w' + 1 = weight w ->
    S (sum_list (weight <$> <[i := w']> (rw_writers s))) = sum_list (weight <$> rw_writers s)) as H.
  { intros w' E. rewrite list_fmap_insert. pose proof (sum_list_insert (weight <$> rw_writers s) i (weight w) (weight w')) as Hs.
    rewrite list_lookup_fmap, Hw in Hs. specialize (Hs eq_refl). lia. }
  unfold announce, check_frozen, leave, weight in *. destruct (w_pc w) eqn:Ep.
  - destruct (w_attempts w) as [|m] eqn:Ea; [lia|]. apply H. cbn [w_attempts w_pc]. rewrite ?Ep, ?Ea. lia.
  - apply H. cbn [w_attempts w_pc]. rewrite ?Ep. destruct (rw_frozen s); lia.
  - apply H. cbn [w_attempts w_pc]. rewrite ?Ep. lia.
  - apply H. cbn [w_attempts w_pc]. rewrite ?Ep. lia.
Qed.

Lemma step_work s t : work (step s t) <= work s.
Proof.
  destruct t as [|i]; cbn [step].
  - unfold flusher_step. by destruct (rw_flusher s).
  - destruct (rw_writers s !! i) as [w|] eqn:Hw; [|by unfold writer_step; rewrite Hw].
    destruct (decide (0 < weight w)) as [Hp|Hp]; [pose proof (writer_step_work s i w Hw Hp); lia|].
    unfold writer_step. rewrite Hw. unfold weight in Hp. unfold announce.
    destruct (w_pc w); [|lia|lia|lia]. by destruct (w_attempts w); [|lia].
Qed.

(** An infinite execution, and fair ones: every thread is scheduled again
    and again. *)
Fixpoint exec (s : rw_sync) (sched : nat -> thread) (n : nat) : rw_sync :=
  match n with O => s | S n => step (exec s sched n) (sched n) end.

Definition fair (writers : nat) (sched : nat -> thread) : Prop :=
  forall t, match t with Flusher => True | Writer i => i < writers end -> forall n, exists m, n <= m /\ sched m = t.

Lemma step_writers s t :
  (rw_writers (step s t) = rw_writers s /\ work (step s t) = work s) \/ work (step s t) < work s.
Proof.
  destruct t as [|i]; cbn [step].
  - left. unfold flusher_step. by destruct (rw_flusher s).
  - destruct (rw_writers s !! i) as [w|] eqn:Hw; [|left; unfold writer_step; by rewrite Hw].
    destruct (decide (0 < weight w)) as [Hp|Hp]; [right; pose proof (writer_step_work s i w Hw Hp); lia|].
    left. unfold writer_step. rewrite Hw. unfold weight in Hp. unfold announce.
    destruct (w_pc w); [|lia|lia|lia]. by destruct (w_attempts w); [|lia].
Qed.

Section liveness.
Context (n : nat) (s0 : rw_sync) (sched : nat -> thread).
Context (Hinv : inv n s0) (Howned : owned s0) (Hfair : fair (length (rw_writers s0)) sched).

Lemma exec_inv m : inv n (exec s0 sched m) /\ owned (exec s0 sched m).
Proof. induction m as [|m [IH1 IH2]]; [done|]. cbn. split; [by apply step_inv|by eapply step_owned]. Qed.

Lemma exec_cases m d :
  (rw_writers (exec s0 sched (m + d)) = rw_writers (exec s0 sched m) /\
   work (exec s0 sched (m + d)) = work (exec s0 sched m)) \/
  work (exec s0 sched (m + d)) < work (exec s0 sched m).
Proof.
  induction d as [|d IH]; [rewrite Nat.add_0_r; by left|]. rewrite Nat.add_succ_r. cbn [exec].
  destruct (step_writers (exec s0 sched (m + d)) (sched (m + d))) as [[E1 E2]|Hlt].
  - rewrite E1, E2. exact IH.
  - right. destruct IH as [[_ E]|IH]; lia.
Qed.

Lemma exec_length m : length (rw_writers (exec s0 sched m)) = length (rw_writers s0).
Proof.
  induction m as [|m IH]; [done|]. cbn [exec]. rewrite <- IH. destruct (sched m) as [|i]; cbn [step].
  - unfold flusher_step. by destruct (rw_flusher _).
  - unfold writer_step, announce, check_frozen, leave. destruct (rw_writers _ !! i) as [w|]; [|done].
    destruct (w_pc w), (w_attempts w); cbn; by rewrite ?length_insert.
Qed.

(** While a writer has work to do, some of it gets done. *)
Lemma work_drops m : 0 < work (exec s0 sched m) -> exists m', m <= m' /\ work (exec s0 sched m') < work (exec s0 sched m).
Proof.
  intros Hw. assert (exists i w, rw_writers (exec s0 sched m) !! i = Some w /\ 0 < weight w) as (i & w & Hi & Hpos).
  { unfold work in Hw. induction (rw_writers (exec s0 sched m)) as [|x l IH]; [cbn in Hw; lia|].
    destruct (decide (0 < weight x)) as [Hx|Hx]; [by exists 0, x|].
    destruct IH as (i & w & Hi & Hpos); [change (0 < weight x + sum_list (weight <$> l)) in Hw; lia|].
    by exists (S i), w. }
  destruct (Hfair (Writer i)) with (n := m) as (m1 & Hm1 & Es).
  { rewrite <- (exec_length m). by eapply lookup_lt_Some. }
  destruct (exec_cases m (m1 - m)) as [[E1 E2]|Hlt]; replace (m + (m1 - m)) with m1 in * by lia; [|by exists m1].
  exists (S m1). split; [lia|]. cbn [exec]. rewrite Es. cbn [step].
  pose proof (writer_step_work (exec s0 sched m1) i w) as Hs. rewrite E1 in Hs. specialize (Hs Hi Hpos). lia.
Qed.

Lemma work_ends : exists m, work (exec s0 sched m) = 0.
Proof.
  assert (forall k m, work (exec s0 sched m) <= k -> exists m', work (exec s0 sched m') = 0) as H;
    [|by apply (H (work (exec s0 sched 0)) 0)].
  induction k as [|k IH]; intros m Hk; [exists m; lia|].
  destruct (decide (work (exec s0 sched m) = 0)) as [E|Hne]; [by exists m|].
  destruct (work_drops m) as (m' & _ & Hlt); [lia|]. apply (IH m'). lia.
Qed.

(** What the flusher has left to do. *)
Definition distance (f : flusher_pc) : nat :=
  match f with Open => n + 2 | Scanning k => n - k + 1 | Drained => 0 end.

Lemma quiet_step s t : inv n s -> owned s -> work s = 0 ->
  work (step s t) = 0 /\ distance (rw_flusher (step s t)) <= distance (rw_flusher s) /\
  (t = Flusher -> rw_flusher s = Drained \/ distance (rw_flusher (step s t)) < distance (rw_flusher s)).
Proof.
  intros Hi Ho Hw. split; [pose proof (step_work s t); lia|]. destruct t as [|i]; cbn [step].
  - unfold flusher_step. destruct (rw_flusher s) as [|k|] eqn:Ef; cbn [freeze_writes rw_flusher distance].
    + split; [lia|]. intros _. right. lia.
    + unfold scan_step. cbn [rw_flusher]. destruct (rw_counters s !! k) as [c|] eqn:Ec.
      * destruct (Z.ltb_spec 0 c) as [Hc|Hc].
        -- exfalso. destruct (Ho k c Ec Hc) as (i & w & Hiw & _ & Hp).
           assert (weight w <= work s) as Hle.
           { unfold work. clear -Hiw. revert i Hiw. induction (rw_writers s) as [|x l IH]; intros [|i]; cbn; try done.
             - intros [= ->]. lia.
             - intros H. specialize (IH i H). change (weight w <= weight x + sum_list (weight <$> l)). lia. }
           unfold weight in Hle. destruct (w_pc w); [done|lia..].
        -- apply lookup_lt_Some in Ec. rewrite (inv_length _ _ Hi) in Ec. cbn [distance]. split; [lia|]. intros _. right. lia.
      * cbn [distance]. split; [lia|]. intros _. right. lia.
    + rewrite Ef. split; [done|by left].
  - assert (rw_flusher (writer_step s i) = rw_flusher s) as ->.
    { unfold writer_step, announce, check_frozen, leave. destruct (rw_writers s !! i) as [w|]; [|done].
      destruct (w_pc w), (w_attempts w); done. }
    split; [done|discriminate].
Qed.

Lemma quiet_distance m d : work (exec s0 sched m) = 0 ->
  work (exec s0 sched (m + d)) = 0 /\ distance (rw_flusher (exec s0 sched (m + d))) <= distance (rw_flusher (exec s0 sched m)).
Proof.
  intros Hw. induction d as [|d [IH1 IH2]]; [by rewrite Nat.add_0_r|]. rewrite Nat.add_succ_r. cbn [exec].
  destruct (exec_inv (m + d)) as [Hi Ho]. destruct (quiet_step _ (sched (m + d)) Hi Ho IH1) as (H1 & H2 & _). lia.
Qed.

Lemma drain_ends : exists m, rw_flusher (exec s0 sched m) = Drained.
Proof.
  destruct work_ends as [m0 Hm0].
  assert (forall k m, work (exec s0 sched m) = 0 -> distance (rw_flusher (exec s0 sched m)) <= k ->
    exists m', rw_flusher (exec s0 sched m') = Drained) as H; [|by eapply (H _ m0 Hm0)].
  induction k as [|k IH]; intros m Hw Hk.
  { exists m. destruct (rw_flusher (exec s0 sched m)); cbn in Hk; [lia|lia|done]. }
  destruct (Hfair Flusher I m) as (m1 & Hm1 & Es). destruct (quiet_distance m (m1 - m) Hw) as [Hw1 Hd1].
  replace (m + (m1 - m)) with m1 in * by lia. destruct (exec_inv m1) as [Hi Ho].
  destruct (quiet_step _ Flusher Hi Ho Hw1) as (H1 & H2 & H3). destruct (H3 eq_refl) as [Hdone|Hlt]; [by exists m1|].
  apply (IH (S m1)); cbn [exec]; rewrite Es; [done|lia].
Qed.
End liveness.

(** C19: the flusher gets the object. When every writer tries to acquire the
    object only finitely often and releases what it acquired, in every fair
    execution the wait of the flusher ends. *)
Theorem drain_terminates (n : nat) (writers : list (nat * nat)) (sched : nat -> thread)
    (Hslots : NoDup writers.*1) (Hrange : Forall (fun w => w.1 < n) writers)
    (Hfair : fair (length writers) sched) :
  exists m, rw_flusher (exec (make_rw_sync n writers) sched m) = Drained.
Proof.
  apply (drain_ends n); [by apply make_inv|apply make_owned|]. cbn [make_rw_sync rw_writers]. by rewrite length_fmap.
Qed.

Lemma drain_witness : exists m, rw_flusher
  (exec (make_rw_sync 1 [(0, 3)]) (fun m => if Nat.even m then Flusher else Writer 0) m) = Drained.
Proof.
  apply (drain_terminates 1 [(0, 3)]).
  - apply NoDup_singleton.
  - repeat constructor.
  - intros [|i] Hi m.
    + exists (2 * m). split; [lia|]. by rewrite Nat.even_mul.
    + exists (S (2 * m)). split; [lia|]. rewrite Nat.even_succ, Nat.odd_mul. cbn in Hi. cbn. do 2 f_equal. lia.
Defined.
