(* ===== verification/SpinLock.v ===== *)
(** * The spin lock of the skiplist
      (src/db/skiplist/concurrent_skip_list/micro_spin_lock.h)

    [MicroSpinLock] and the [Sleeper] of its contended case. The lock is a
    byte that threads exchange; a thread that finds it taken waits, pausing
    twice as often each time and then sleeping, and looks at the byte until
    it is free. Every access to the byte is one step and the steps of all
    threads interleave arbitrarily. The lock is shown to be the one that
    Skiplist and Recycler take in one step: it has at most one holder, its
    byte tells whether there is one, and a thread that runs while it is free
    gets it. *)

From stdpp Require Import base numbers option list.
From Stdlib Require Import ZArith Lia.
From S2P Require Import Prelude.

(** ** Waiting *)

Definition kMaxActiveSpin : Z := 4096.

Record Sleeper := mk_sleeper { spinCount : Z; spinCountTarget : Z }.

Definition make_sleeper : Sleeper := mk_sleeper 0 1.

(** [do asm_volatile_pause(); while(++spinCount < spinCountTarget)]: the
    number of pauses and the count afterwards; [fuel] bounds the rounds. *)
Fixpoint pause_loop (fuel : nat) (pauses spins target : Z) : Z * Z :=
  let pauses := (pauses + 1)%Z in
  let spins := u32 (spins + 1) in
  match fuel with
  | O => (pauses, spins)
  | S fuel => if (spins <? target)%Z then pause_loop fuel pauses spins target else (pauses, spins)
  end.

(** [wait]: the pauses made, or [None] for a sleep. *)
Definition sleeper_wait (s : Sleeper) : option Z * Sleeper :=
  if (spinCountTarget s <=? kMaxActiveSpin)%Z then
    let '(pauses, spins) := pause_loop (Z.to_nat kMaxActiveSpin) 0 (spinCount s) (spinCountTarget s) in
    (Some pauses, mk_sleeper spins (u32 (Z.shiftl (spinCountTarget s) 1)))
  else (None, s).

Fixpoint waits (n : nat) (s : Sleeper) : list (option Z) :=
  match n with
  | O => []
  | S n => let '(r, s) := sleeper_wait s in r :: waits n s
  end.

(** ** The lock *)

Definition FREE : Z := 0.
Definition LOCKED : Z := 1.

(** A thread: outside, about to exchange in [lock] or in [try_lock], about
    to wait, about to load, or holding the lock. *)
Inductive lock_pc :=
  | LockOut
  | LockXchg (s : Sleeper)
  | LockTry
  | LockWait (s : Sleeper)
  | LockLoad (s : Sleeper)
  | LockHeld.

Record spin_state := mk_spin { lock_ : Z; sp_threads : list lock_pc }.

Inductive lock_call := CallLock | CallTryLock | CallUnlock | Continue.

(** [xchg(LOCKED)] *)
Definition xchg (s : spin_state) (new : Z) : Z * spin_state := (lock_ s, mk_spin new (sp_threads s)).

Definition move (s : spin_state) (i : nat) (pc : lock_pc) : spin_state := mk_spin (lock_ s) (<[i := pc]> (sp_threads s)).

(** One step of the thread [i]: the start of a call, or its next access. *)
Definition spin_step (s : spin_state) (i : nat) (c : lock_call) : option spin_state :=
  pc ← sp_threads s !! i;
  match pc, c with
  | LockOut, CallLock => Some (move s i (LockXchg make_sleeper))
  | LockOut, CallTryLock => Some (move s i LockTry)
  | LockXchg sl, Continue =>
      let '(old, s) := xchg s LOCKED in
      Some (move s i (if negb (old =? FREE)%Z then LockWait sl else LockHeld))
  | LockTry, Continue =>
      let '(old, s) := xchg s LOCKED in
      Some (move s i (if (old =? FREE)%Z then LockHeld else LockOut))
  | LockWait sl, Continue => Some (move s i (LockLoad (sleeper_wait sl).2))
  | LockLoad sl, Continue => Some (move s i (if (lock_ s =? LOCKED)%Z then LockWait sl else LockXchg sl))
  | LockHeld, CallUnlock => Some (move (mk_spin FREE (sp_threads s)) i LockOut)
  | _, _ => None
  end.

Definition spin_run (s : spin_state) (steps : list (nat * lock_call)) : option spin_state :=
  foldl (fun s x => s ← s; spin_step s x.1 x.2) (Some s) steps.

Definition make_spin (threads : nat) : spin_state := mk_spin FREE (replicate threads LockOut).

(** ** One holder *)

Definition holds (pc : lock_pc) : bool := match pc with LockHeld => true | _ => false end.

(** The byte is free and nobody holds the lock, or it is taken and exactly
    one thread does. *)
Definition spin_ok (s : spin_state) : Prop :=
  (lock_ s = FREE /\ forall i pc, sp_threads s !! i = Some pc -> holds pc = false) \/
  (lock_ s = LOCKED /\ exists h, forall i pc, sp_threads s !! i = Some pc -> holds pc = bool_decide (i = h)) /\
  exists h, sp_threads s !! h = Some LockHeld.

Lemma lookup_move (l : list lock_pc) i pc j x : <[i := pc]> l !! j = Some x -> (j = i /\ x = pc) \/ (j <> i /\ l !! j = Some x).
Proof. intros H. apply list_lookup_insert_Some in H as [(-> & -> & _)|[? ?]]; [by left|by right]. Qed.

(** A move by which the thread neither takes nor leaves the lock. *)
Lemma move_ok s i pc pc' : spin_ok s -> sp_threads s !! i = Some pc -> holds pc = false -> holds pc' = false -> spin_ok (move s i pc').
Proof.
  intros [[H0 Hn]|[[H1 [h Hh]] [k Hk]]] Hi Hf Hf'; [left|right]; cbn.
  - split; [done|]. intros j x Hj. apply lookup_move in Hj as [[-> ->]|[_ Hj]]; [done|by eapply Hn].
  - pose proof (Hh _ _ Hi) as Ei. rewrite Hf in Ei. pose proof (Hh _ _ Hk) as Ek. symmetry in Ek. apply bool_decide_eq_true in Ek as ->.
    split; [split; [done|]|].
    + exists h. intros j x Hj. apply lookup_move in Hj as [[-> ->]|[_ Hj]]; [congruence|by apply Hh].
    + exists h. rewrite list_lookup_insert_ne; [done|]. intros ->. rewrite Hi in Hk. injection Hk as ->. done.
Qed.

(** An exchange: the thread takes a free lock, or leaves a taken one. *)
Lemma xchg_ok s i pc pc' : spin_ok s -> sp_threads s !! i = Some pc -> holds pc = false -> holds pc' = false ->
  spin_ok (move (mk_spin LOCKED (sp_threads s)) i (if (lock_ s =? FREE)%Z then LockHeld else pc')).
Proof.
  intros Hs Hi Hf Hf'. destruct (Z.eqb_spec (lock_ s) FREE) as [E|E].
  - destruct Hs as [[_ Hn]|[[H1 _] _]]; [|by rewrite H1 in E]. right. cbn. split; [split; [done|]|].
    + exists i. intros j x Hj. apply lookup_move in Hj as [[-> ->]|[Hne Hj]]; [by rewrite bool_decide_eq_true_2|].
      rewrite bool_decide_eq_false_2 by done. by eapply Hn.
    + exists i. apply list_lookup_insert_eq. by eapply lookup_lt_Some.
  - destruct Hs as [[H0 _]|Hs]; [done|].
    replace (mk_spin LOCKED (sp_threads s)) with s; [eapply move_ok; [right; exact Hs|done..]|].
    destruct s. cbn in *. f_equal. apply Hs.
Qed.

Lemma spin_step_ok s i c s' : spin_ok s -> spin_step s i c = Some s' -> spin_ok s'.
Proof.
  intros Hs. unfold spin_step. destruct (sp_threads s !! i) as [pc|] eqn:Hi; [|done]. cbn [mbind option_bind].
  destruct pc, c; try done; cbn [xchg]; intros [= <-].
  - by eapply move_ok.
  - by eapply move_ok.
  - pose proof (xchg_ok s i _ (LockWait s0) Hs Hi) as H. destruct (lock_ s =? FREE)%Z; by apply H.
  - by eapply xchg_ok.
  - by eapply move_ok.
  - eapply move_ok; try done. by case_match.
  - destruct Hs as [[_ Hn]|[[H1 [h Hh]] _]]; [by apply Hn in Hi|]. left. split; [done|]. cbn. intros j x Hj.
    pose proof (Hh _ _ Hi) as Ei. symmetry in Ei. apply bool_decide_eq_true in Ei as ->.
    apply lookup_move in Hj as [[-> ->]|[Hne Hj]]; [done|]. rewrite (Hh _ _ Hj). by apply bool_decide_eq_false_2.
Qed.

Lemma make_spin_ok n : spin_ok (make_spin n).
Proof. left. split; [done|]. intros i pc Hi. apply lookup_replicate in Hi as [-> _]. done. Qed.

Lemma spin_run_cons s x steps : spin_run s (x :: steps) = s ← spin_step s x.1 x.2; spin_run s steps.
Proof.
  unfold spin_run. cbn [foldl mbind option_bind]. destruct (spin_step s x.1 x.2) as [s1|]; [done|]. cbn [mbind option_bind].
  induction steps as [|y steps IH]; [done|]. exact IH.
Qed.

Lemma spin_run_ok s steps s' : spin_ok s -> spin_run s steps = Some s' -> spin_ok s'.
Proof.
  revert s. induction steps as [|x steps IH]; intros s Hs; [by intros [= <-]|]. rewrite spin_run_cons.
  destruct (spin_step s x.1 x.2) as [s1|] eqn:E; [|done]. cbn. apply IH. by eapply spin_step_ok.
Qed.

(** ** Properties *)

(** The spin lock excludes. After any steps of any number of threads, at
    most one holds the lock and the byte is taken exactly when one does, so
    the assertion of [unlock] holds; and a thread in [lock] that runs alone
    while the lock is free gets it within three steps. *)
Theorem spin_lock_correct (threads : nat) (steps : list (nat * lock_call)) (s : spin_state)
    (Hrun : spin_run (make_spin threads) steps = Some s) :
  (forall i j, sp_threads s !! i = Some LockHeld -> sp_threads s !! j = Some LockHeld -> i = j) /\
  (lock_ s = LOCKED <-> exists i, sp_threads s !! i = Some LockHeld) /\ (lock_ s = FREE \/ lock_ s = LOCKED) /\
  (forall i sl, lock_ s = FREE ->
     sp_threads s !! i = Some (LockXchg sl) \/ sp_threads s !! i = Some (LockWait sl) \/ sp_threads s !! i = Some (LockLoad sl) ->
     exists n s', n <= 3 /\ spin_run s (replicate n (i, Continue)) = Some s' /\ sp_threads s' !! i = Some LockHeld).
Proof.
  pose proof (spin_run_ok _ _ _ (make_spin_ok threads) Hrun) as Hs. split; [|split; [|split]].
  - intros i j Hi Hj. destruct Hs as [[_ Hn]|[[_ [h Hh]] _]]; [by apply Hn in Hi|].
    apply Hh in Hi, Hj. cbn in Hi, Hj. symmetry in Hi, Hj. apply bool_decide_eq_true in Hi, Hj. congruence.
  - destruct Hs as [[H0 Hn]|[[H1 _] Hk]]; [|done]. rewrite H0. split; [done|]. intros [i Hi]. by apply Hn in Hi.
  - destruct Hs as [[H0 _]|[[H1 _] _]]; auto.
  - intros i sl H0 Hpc. destruct s as [l ts]. cbn in H0, Hpc. subst l.
    assert (forall ts sl, ts !! i = Some (LockXchg sl) -> exists s', spin_run (mk_spin FREE ts) [(i, Continue)] = Some s' /\
      sp_threads s' !! i = Some LockHeld) as H1.
    { intros ts' sl' Hi. unfold spin_run. cbn. unfold spin_step. cbn. rewrite Hi. cbn. eexists. split; [done|]. cbn.
      apply list_lookup_insert_eq. by eapply lookup_lt_Some. }
    assert (forall ts sl, ts !! i = Some (LockLoad sl) -> exists s', spin_run (mk_spin FREE ts) [(i, Continue); (i, Continue)] = Some s' /\
      sp_threads s' !! i = Some LockHeld) as H2.
    { intros ts' sl' Hi. rewrite spin_run_cons. unfold spin_step at 1. cbn. rewrite Hi. cbn. apply (H1 _ sl').
      apply list_lookup_insert_eq. by eapply lookup_lt_Some. }
    destruct Hpc as [Hi|[Hi|Hi]].
    + destruct (H1 _ _ Hi) as (s' & E & Hh). exists 1, s'. split_ands; [lia|done|done].
    + assert (spin_step (mk_spin FREE ts) i Continue = Some (mk_spin FREE (<[i := LockLoad (sleeper_wait sl).2]> ts))) as E0
        by (unfold spin_step; cbn; by rewrite Hi).
      destruct (H2 (<[i := LockLoad (sleeper_wait sl).2]> ts) (sleeper_wait sl).2) as (s' & E & Hh);
        [apply list_lookup_insert_eq; by eapply lookup_lt_Some|].
      exists 3, s'. split_ands; [lia| |done]. cbn [replicate]. rewrite spin_run_cons. cbn [fst snd]. rewrite E0. done.
    + destruct (H2 _ _ Hi) as (s' & E & Hh). exists 2, s'. split_ands; [lia|done|done].
Qed.

Lemma spin_lock_witness : exists s, spin_run (make_spin 2) [(0, CallLock); (1, CallLock); (0, Continue); (1, Continue)] = Some s /\
  forall i j, sp_threads s !! i = Some LockHeld -> sp_threads s !! j = Some LockHeld -> i = j.
Proof.
  destruct (spin_run (make_spin 2) [(0, CallLock); (1, CallLock); (0, Continue); (1, Continue)]) as [s|] eqn:E; [|by vm_compute in E].
  exists s. destruct (spin_lock_correct 2 _ s E) as [H _]. exact (conj eq_refl H).
Defined.

(** The waits of a contended lock: one pause, then as many as in all waits
    before, until 4096 pauses were made in thirteen waits; from then on the
    thread sleeps. *)
Theorem sleeper_backs_off (n : nat) :
  waits (13 + n) make_sleeper = (Some <$> [1; 1; 2; 4; 8; 16; 32; 64; 128; 256; 512; 1024; 2048]%Z) ++ replicate n None.
Proof.
  assert (forall n, waits n (mk_sleeper 4096 8192) = replicate n None) as Hsleep.
  { clear n. induction n as [|n IH]; [done|]. cbn. by f_equal. }
  cbn [waits Nat.add]. unfold make_sleeper.
  repeat match goal with |- context [sleeper_wait ?s] =>
    let r := eval vm_compute in (sleeper_wait s) in change (sleeper_wait s) with r; cbn [waits] end.
  rewrite Hsleep. done.
Qed.
