(* ===== verification/Skiplist.v ===== *)
(** * The concurrent skiplist
      (src/db/skiplist/concurrent_skip_list/concurrent_skiplist.h and
      skiplist_details.h)

    The ordered set behind a memtable, as a transition system. Nodes live
    in a store and are named by their index; a node has its datum, an array
    of skip pointers, flags and a spin lock. A thread of the model is one
    call of [addOrGetData] or [lower_bound] or a walk with an iterator, and
    a step is one access to shared memory: loads of the head and of skip
    pointers, taking and releasing a lock, stores of pointers and flags, the
    exchange of the head. What a thread reads under a lock from the node it has locked is
    read in one step, as is the copy of an old head into a new one that no
    other thread knows.

    The database only inserts, so removal is not modelled; a node is marked
    when it is a head that has been replaced. The comparator,
    the table of size limits, which is computed with floating point, and
    the outcome of every random draw are parameters. The history variables
    are the creator of a node, the log of the insertions, the heads that
    were replaced, and the position in the log at which a call starts and
    makes its latest step. *)

From stdpp Require Import base numbers option list sorting.
From Stdlib Require Import Lia.
From S2P Require Import Prelude.

(** What the list asks of its comparator. *)
Class Comparator {T} (ltb : T -> T -> bool) : Prop := {
  cmp_irrefl x : ltb x x = false;
  cmp_trans x y z : ltb x y = true -> ltb y z = true -> ltb x z = true;
  cmp_weak x y z : ltb x y = false -> ltb y z = false -> ltb x z = false;
}.

(** ** Nodes *)

Section skiplist.
Context {T : Type} `{!Inhabited T} (ltb : T -> T -> bool) (default_value : T).
Context (getSizeLimit : nat -> nat) (MAX_HEIGHT : nat).

Record node := mk_node {
  n_data : T;
  n_skip : list (option nat);   (* skip_, nullptr is None *)
  n_head : bool;                (* IS_HEAD_NODE *)
  n_marked : bool;              (* MARKED_FOR_REMOVAL *)
  n_linked : bool;              (* FULLY_LINKED *)
  n_lock : option nat;          (* spinLock_, with the thread that holds it *)
  n_by : nat;                   (* history: the thread that created it *)
}.

Abbreviation heap := (list node).

(** [SkipListNode::create]. *)
Definition create (height : nat) (data : T) (isHead : bool) (by_ : nat) : node :=
  mk_node data (replicate height None) isHead false false None by_.

Definition height (n : node) : nat := length (n_skip n).

(** A skip pointer; the outer [None] is a layer the node does not have. *)
Definition skip (h : heap) (a layer : nat) : option (option nat) :=
  n ← h !! a; n_skip n !! layer.

Definition set_skip (k : nat) (next : option nat) (n : node) : node :=
  mk_node (n_data n) (<[k := next]> (n_skip n)) (n_head n) (n_marked n) (n_linked n) (n_lock n) (n_by n).
Definition set_lock (l : option nat) (n : node) : node :=
  mk_node (n_data n) (n_skip n) (n_head n) (n_marked n) (n_linked n) l (n_by n).
Definition set_marked (n : node) : node :=
  mk_node (n_data n) (n_skip n) (n_head n) true (n_linked n) (n_lock n) (n_by n).
Definition set_linked (n : node) : node :=
  mk_node (n_data n) (n_skip n) (n_head n) (n_marked n) true (n_lock n) (n_by n).

(** [copyHead]: the flags and the pointers of the old head. *)
Definition copy_head (old n : node) : node :=
  mk_node (n_data n) (n_skip old ++ drop (height old) (n_skip n)) (n_head old) (n_marked old) (n_linked old)
    (n_lock n) (n_by n).

(** The comparisons of a datum with a node; a null node is greater than
    every datum. *)
Definition greater (h : heap) (d : T) (o : option nat) : bool :=
  match o with
  | Some a => match h !! a with Some n => ltb (n_data n) d | None => false end
  | None => false
  end.

Definition less (h : heap) (d : T) (o : option nat) : bool :=
  match o with
  | Some a => match h !! a with Some n => ltb d (n_data n) | None => false end
  | None => true
  end.

(** [getHeight], with the comparisons of the random number with the table
    as an oracle. *)
Fixpoint getHeight_from (below : nat -> bool) (i fuel : nat) : nat :=
  match fuel with
  | O => i
  | S fuel => if below i then S i else getHeight_from below (S i) fuel
  end.
Definition getHeight (below : nat -> bool) (maxHeight : nat) : nat := getHeight_from below 0 maxHeight.

(** ** Calls *)

(** A scan goes from a lower bound, or from the first element, to the end. *)
Inductive op := Insert (d : T) | LowerBound (d : T) | Scan (lower : option T).

(** The datum of a call; a scan without a bound does not use it. *)
Definition op_data (o : op) : T :=
  match o with Insert d | LowerBound d | Scan (Some d) => d | Scan None => inhabitant end.

Inductive result :=
  | Inserted (node newSize : nat)
  | Existing (node : nat)
  | Position (node : option nat)
  | Visited (nodes : list nat).

(** What a thread does when its guards are released. *)
Inductive after :=
  | Retry
  | Counted (node newSize : nat)
  | Return (r : result).

(** The locals of an insertion from the locks on. *)
Record plan := mk_plan {
  pl_height : nat;                 (* nodeHeight *)
  pl_preds : list nat;
  pl_succs : list (option nat);
  pl_guards : list nat;            (* the nodes locked, the last one first *)
}.

Inductive pc :=
  | Idle
  | Start
  | LoadHead (max_layer : nat)
  (* findInsertionPoint: about to load skip(layer) of pred; the arrays are
     filled from the layers above *)
  | Finding (layer pred : nat) (found : option nat) (preds : list nat) (succs : list (option nat))
  | Found (node : nat)
  | Waiting (node : nat)
  (* lockNodesForChange *)
  | Locking (layer : nat) (p : plan)
  | Checking (layer : nat) (p : plan)
  | Creating (p : plan)
  | LinkNew (k node : nat) (p : plan)
  | LinkPred (k node : nat) (p : plan)
  | SetLinked (node : nat) (guards : list nat)
  | Counting (node : nat) (guards : list nat)
  | Unlocking (guards : list nat) (k : after)
  | CheckSize (node newSize : nat)
  (* growHeight *)
  | GrowLoad (height node newSize : nat)
  | GrowLock (old new_head : nat) (r : result)
  | GrowCopy (old new_head : nat) (r : result)
  | GrowSwap (old new_head : nat) (r : result)
  | GrowMark (old : nat) (r : result)
  (* findNodeDownRight, then the loop of lower_bound *)
  | LoadTop
  | Down (ht pred : nat) (node : option nat)
  | Right (ht pred : nat)
  | SkipMarked (node : option nat)
  (* begin and the increments of an iterator *)
  | First
  | NextOf (pred : nat) (visited : list nat)
  | NextSkip (node : option nat) (visited : list nat)
  | Done (r : result).

Record thread := mk_thread {
  t_op : op;
  t_pc : pc;
  t_start : nat;  (* history: length of the log when the call began *)
  t_last : nat;   (* history: length of the log at its latest step *)
}.

Record state := mk_state {
  s_heap : heap;
  s_head : nat;
  s_size : nat;
  s_threads : list thread;
  s_log : list (nat * T);      (* history: insertions at layer 0, oldest first *)
  s_old : list (nat * nat);    (* history: replaced heads, with the length of the log then *)
}.

(** ** Steps *)

Definition with_heap (s : state) (h : heap) : state :=
  mk_state h (s_head s) (s_size s) (s_threads s) (s_log s) (s_old s).
Definition with_size (s : state) (n : nat) : state :=
  mk_state (s_heap s) (s_head s) n (s_threads s) (s_log s) (s_old s).
Definition with_log (s : state) (l : list (nat * T)) : state :=
  mk_state (s_heap s) (s_head s) (s_size s) (s_threads s) l (s_old s).
Definition with_head (s : state) (a : nat) : state :=
  mk_state (s_heap s) a (s_size s) (s_threads s) (s_log s) ((s_head s, length (s_log s)) :: s_old s).

Definition update (s : state) (a : nat) (f : node -> node) : state := with_heap s (alter f a (s_heap s)).

Definition locked (h : heap) (a : nat) : bool :=
  match h !! a with Some n => bool_decide (n_lock n <> None) | None => true end.
Definition marked (h : heap) (a : nat) : bool :=
  match h !! a with Some n => n_marked n | None => false end.
Definition linked (h : heap) (a : nat) : bool :=
  match h !! a with Some n => n_linked n | None => false end.

(** One layer of [findInsertionPoint] after loading [node]. *)
Definition find_step (h : heap) (d : T) (layer pred : nat) (node found : option nat) (preds : list nat)
    (succs : list (option nat)) (below : nat -> bool) : pc :=
  match (if greater h d node then node else None) with
  | Some a => Finding layer a found preds succs
  | None =>
    let found := match found with
                 | Some b => Some b
                 | None => if less h d node then None else node
                 end in
    let preds := pred :: preds in
    let succs := (match found with Some b => Some b | None => node end) :: succs in
    match layer with
    | S layer => Finding layer pred found preds succs
    | O => match found with
           | Some b => Found b
           | None => Locking 0 (mk_plan (getHeight below (length preds)) preds succs [])
           end
    end
  end.

(** [lockNodesForChange] takes the lock of a predecessor once. *)
Definition need_lock (layer : nat) (p : plan) (pred : nat) : bool :=
  match layer with
  | O => true
  | S l => negb (bool_decide (pl_preds p !! l = Some pred))
  end.

Definition valid (h : heap) (layer pred : nat) (succ : option nat) : bool :=
  negb (marked h pred) && bool_decide (skip h pred layer = Some succ) &&
  match succ with Some b => negb (marked h b) | None => true end.

Definition down_step (h : heap) (d : T) (ht pred : nat) (node : option nat) : pc :=
  if less h d node then Down ht pred node
  else match (if greater h d node then node else None) with
       | Some a => Right ht a
       | None => SkipMarked node
       end.

(** What follows [lower_bound]: the answer, or the walk of a scan. *)
Definition bound_found (o : op) (node : option nat) : pc :=
  match o with
  | Scan _ => match node with Some a => NextOf a [a] | None => Done (Visited []) end
  | _ => Done (Position node)
  end.

(** The steps of [lockNodesForChange]. *)
Definition advance_lock (s : state) (i : nat) (c : pc) : option (state * pc) :=
  let h := s_heap s in
  match c with
  | Locking layer p =>
      if layer <? pl_height p then
        pred ← pl_preds p !! layer;
        if need_lock layer p pred then
          if locked h pred then None
          else Some (update s pred (set_lock (Some i)),
                     Checking layer (mk_plan (pl_height p) (pl_preds p) (pl_succs p) (pred :: pl_guards p)))
        else Some (s, Checking layer p)
      else Some (s, Creating p)
  | Checking layer p =>
      pred ← pl_preds p !! layer; succ ← pl_succs p !! layer;
      Some (s, if valid h layer pred succ then Locking (S layer) p else Unlocking (pl_guards p) Retry)
  | _ => None
  end.

(** The steps of [growHeight]. *)
Definition advance_grow (s : state) (i : nat) (c : pc) : option (state * pc) :=
  let h := s_heap s in
  match c with
  | GrowLoad ht a newSize =>
      n ← h !! s_head s;
      Some (if ht <=? height n then (s, Done (Inserted a newSize))
            else (with_heap s (h ++ [create ht default_value true i]),
                  GrowLock (s_head s) (length h) (Inserted a newSize)))
  | GrowLock old new_head r =>
      if locked h old then None else Some (update s old (set_lock (Some i)), GrowCopy old new_head r)
  | GrowCopy old new_head r =>
      n ← h !! old; Some (update s new_head (copy_head n), GrowSwap old new_head r)
  | GrowSwap old new_head r =>
      if s_head s =? old then Some (with_head s new_head, GrowMark old r)
      else Some (s, Unlocking [old] (Return r))
  | GrowMark old r => Some (update s old set_marked, Unlocking [old] (Return r))
  | _ => None
  end.

(** The steps of [findNodeDownRight] and of [lower_bound]. *)
Definition advance_bound (s : state) (o : op) (c : pc) : option (state * pc) :=
  let h := s_heap s in
  let d := op_data o in
  match c with
  | LoadTop => n ← h !! s_head s; Some (s, Down (height n) (s_head s) None)
  | Down O pred node => Some (s, SkipMarked node)
  | Down (S ht) pred _ => node ← skip h pred ht; Some (s, down_step h d ht pred node)
  | Right ht pred => node ← skip h pred ht; Some (s, down_step h d ht pred node)
  | SkipMarked node =>
      match node with
      | Some a => if marked h a then node ← skip h a 0; Some (s, SkipMarked node) else Some (s, bound_found o node)
      | None => Some (s, bound_found o node)
      end
  | _ => None
  end.

(** The steps of an iterator: [begin], and [next] of its node. *)
Definition advance_iter (s : state) (c : pc) : option (state * pc) :=
  let h := s_heap s in
  match c with
  | First => Some (s, NextOf (s_head s) [])
  | NextOf pred visited => node ← skip h pred 0; Some (s, NextSkip node visited)
  | NextSkip node visited =>
      match node with
      | Some a => if marked h a then node ← skip h a 0; Some (s, NextSkip node visited)
                  else Some (s, NextOf a (visited ++ [a]))
      | None => Some (s, Done (Visited visited))
      end
  | _ => None
  end.

(** The next step of a thread: the new state and program counter, or
    [None] when it waits. *)
Definition advance (s : state) (i : nat) (o : op) (c : pc) (below : nat -> bool) : option (state * pc) :=
  let h := s_heap s in
  let d := op_data o in
  match c with
  | Idle => Some (s, match o with
                     | Insert _ => Start
                     | LowerBound _ | Scan (Some _) => LoadTop
                     | Scan None => First
                     end)
  | Start => n ← h !! s_head s; Some (s, LoadHead (height n - 1))
  | LoadHead ml => Some (s, Finding ml (s_head s) None [] [])
  | Finding layer pred found preds succs =>
      node ← skip h pred layer; Some (s, find_step h d layer pred node found preds succs below)
  | Found b => Some (s, if marked h b then Start else Waiting b)
  | Waiting b => if linked h b then Some (s, Done (Existing b)) else None
  | Locking _ _ | Checking _ _ => advance_lock s i c
  | Creating p =>
      Some (with_heap s (h ++ [create (pl_height p) d false i]), LinkNew 0 (length h) p)
  | LinkNew k a p =>
      succ ← pl_succs p !! k; Some (update s a (set_skip k succ), LinkPred k a p)
  | LinkPred k a p =>
      pred ← pl_preds p !! k;
      let s' := update s pred (set_skip k (Some a)) in
      Some (if k =? 0 then with_log s' (s_log s ++ [(i, d)]) else s',
            if S k <? pl_height p then LinkNew (S k) a p else SetLinked a (pl_guards p))
  | SetLinked a gs => Some (update s a set_linked, Counting a gs)
  | Counting a gs => Some (with_size s (S (s_size s)), Unlocking gs (Counted a (S (s_size s))))
  | Unlocking (g :: gs) k => Some (update s g (set_lock None), Unlocking gs k)
  | Unlocking [] Retry => Some (s, Start)
  | Unlocking [] (Counted a newSize) => Some (s, CheckSize a newSize)
  | Unlocking [] (Return r) => Some (s, Done r)
  | CheckSize a newSize =>
      n ← h !! s_head s;
      Some (s, if (height n <? MAX_HEIGHT) && (getSizeLimit (height n) <? newSize)
               then GrowLoad (S (height n)) a newSize else Done (Inserted a newSize))
  | GrowLoad _ _ _ | GrowLock _ _ _ | GrowCopy _ _ _ | GrowSwap _ _ _ | GrowMark _ _ => advance_grow s i c
  | LoadTop | Down _ _ _ | Right _ _ | SkipMarked _ => advance_bound s o c
  | First | NextOf _ _ | NextSkip _ _ => advance_iter s c
  | Done _ => None
  end.

(** Thread [i], which was [t], goes on at [c] in [s']. *)
Definition resume (s s' : state) (i : nat) (t : thread) (c : pc) : state :=
  let start := match t_pc t with Idle => length (s_log s) | _ => t_start t end in
  mk_state (s_heap s') (s_head s') (s_size s')
    (<[i := mk_thread (t_op t) c start (length (s_log s'))]> (s_threads s')) (s_log s') (s_old s').

Definition step (s : state) (i : nat) (below : nat -> bool) : option state :=
  t ← s_threads s !! i;
  '(s', c) ← advance s i (t_op t) (t_pc t) below;
  Some (resume s s' i t c).

(** A new list with the calls that will be made on it. *)
Definition make (head_height : nat) (ops : list op) : state :=
  mk_state [create head_height default_value true 0] 0 0
    ((fun o => mk_thread o Idle 0 0) <$> ops) [] [].

Inductive reachable (head_height : nat) (ops : list op) : state -> Prop :=
  | reach_make : reachable head_height ops (make head_height ops)
  | reach_step s i below s' :
      reachable head_height ops s -> step s i below = Some s' -> reachable head_height ops s'.

(** ** The set *)

(** The abstract set: a sorted list. *)
Fixpoint set_insert (e : T) (l : list T) : list T :=
  match l with
  | [] => [e]
  | x :: l' => if ltb x e then x :: set_insert e l' else if ltb e x then e :: l else l
  end.

Definition replay (log : list (nat * T)) : list T := foldl (fun l e => set_insert e.2 l) [] log.

(** The first element that is not less than the datum. *)
Fixpoint first_not_less (d : T) (l : list T) : option T :=
  match l with
  | [] => None
  | x :: l => if ltb x d then first_not_less d l else Some x
  end.
End skiplist.
