(* ===== verification/SkiplistInv.v ===== *)
(** * The invariant of the concurrent skiplist

    The chains of the layers, what every thread knows about the nodes it
    has visited, and the proof that each kind of step keeps it. A layer is
    a list of addresses; an insertion adds its node to the layers from the
    bottom up, so every layer is contained in the one below. *)

From stdpp Require Import base numbers option list sorting.
From Stdlib Require Import Lia.
From S2P Require Import Prelude Skiplist.

(** ** The chain of a layer *)

Section chains.
Context {T : Type} (ltb : T -> T -> bool).
Implicit Types (h : list (node (T := T))) (a b k : nat) (d : T).

Fixpoint chain h k a (l : list nat) : Prop :=
  match l with
  | [] => skip h a k = Some None
  | b :: l => skip h a k = Some (Some b) /\ chain h k b l
  end.

Definition dlt h a b : Prop := exists n m, h !! a = Some n /\ h !! b = Some m /\ ltb (n_data n) (n_data m) = true.
Definition below_d h a d : Prop := exists n, h !! a = Some n /\ ltb (n_data n) d = true.
Definition above_d h a d : Prop := exists n, h !! a = Some n /\ ltb d (n_data n) = true.
Definition same_d h a d : Prop := exists n, h !! a = Some n /\ ltb (n_data n) d = false /\ ltb d (n_data n) = false.
Definition tall h a k : Prop := exists n, h !! a = Some n /\ k < height n.

Lemma chain_ext h h' k a l :
  (forall x, x = a \/ x ∈ l -> skip h' x k = skip h x k) -> chain h k a l -> chain h' k a l.
Proof.
  revert a. induction l as [|b l IH]; intros a Hs; cbn; [by rewrite Hs; [|left]|].
  intros [H1 H2]. split; [by rewrite Hs; [|left]|]. apply IH; [|done]. intros x [->|Hx]; apply Hs; right; [by left|by right].
Qed.

(** The pointer of a node of the chain is the next node. *)
Lemma chain_next h k a l1 x l2 :
  chain h k a (l1 ++ x :: l2) -> skip h x k = Some (head l2) /\ chain h k x l2.
Proof.
  revert a. induction l1 as [|b l1 IH]; intros a; cbn.
  - intros [_ H]. split; [|done]. destruct l2; [done|apply H].
  - intros [_ H]. by eapply IH.
Qed.

Lemma chain_head h k a l : chain h k a l -> skip h a k = Some (head l).
Proof. destruct l; [done|]. by intros [? _]. Qed.

Lemma chain_start h k a b l : skip h b k = skip h a k -> chain h k a l -> chain h k b l.
Proof. by destruct l; cbn; intros ->. Qed.

(** A new node behind [p]. *)
Lemma chain_insert_head h h' k a l x :
  chain h k a l -> skip h' a k = Some (Some x) -> skip h' x k = skip h a k ->
  (forall y, y ∈ l -> skip h' y k = skip h y k) -> chain h' k a (x :: l).
Proof.
  intros Hc Ha Hx Hl. split; [done|]. destruct l as [|b l]; cbn in *; [by rewrite Hx|].
  destruct Hc as [H1 H2]. split; [by rewrite Hx|]. apply (chain_ext h); [|done].
  intros y [->|Hy]; apply Hl; [by left|by right].
Qed.

Lemma chain_insert h h' k a l1 p l2 x :
  chain h k a (l1 ++ p :: l2) -> a ∉ l1 ++ p :: l2 -> NoDup (l1 ++ p :: l2) ->
  skip h' p k = Some (Some x) -> skip h' x k = skip h p k ->
  (forall y, y <> p -> y <> x -> skip h' y k = skip h y k) -> x <> a -> x ∉ l1 ++ p :: l2 ->
  chain h' k a (l1 ++ p :: x :: l2).
Proof.
  revert a. induction l1 as [|b l1 IH]; intros a Hc Ha Hn Hp Hx Ho Hxa Hxl; cbn in *.
  - destruct Hc as [H1 H2]. split.
    + rewrite Ho; [done| |done]. intros ->. apply Ha. by left.
    + apply (chain_insert_head h); [done..|]. intros y Hy. apply Ho.
      * intros ->. apply NoDup_cons in Hn as [Hn _]. done.
      * intros ->. apply Hxl. by right.
  - destruct Hc as [H1 H2]. apply NoDup_cons in Hn as [Hb Hn]. rewrite not_elem_of_cons in Ha, Hxl. split.
    + rewrite Ho; [done| |done]. intros ->. apply (proj2 Ha). apply elem_of_app. right. by left.
    + apply IH; [done|done|done|done|done|done| |apply Hxl]. intros ->. by destruct Hxl.
Qed.

Lemma sorted_mono {A} (R R' : A -> A -> Prop) l :
  (forall x y, R x y -> R' x y) -> StronglySorted R l -> StronglySorted R' l.
Proof. intros HR. induction 1 as [|a l _ IH Ha]; constructor; [done|]. eapply Forall_impl; [done|]. auto. Qed.

Context `{!Comparator ltb}.

Lemma dlt_trans h a b c : dlt h a b -> dlt h b c -> dlt h a c.
Proof.
  intros (n & m & H1 & H2 & H3) (m' & o & H4 & H5 & H6). simplify_eq. exists n, o. split; [done|]. split; [done|].
  by eapply cmp_trans.
Qed.

Lemma dlt_irrefl h a : ~ dlt h a a.
Proof. intros (n & m & H1 & H2 & H3). simplify_eq. by rewrite cmp_irrefl in H3. Qed.

Lemma sorted_NoDup h l : StronglySorted (dlt h) l -> NoDup l.
Proof.
  induction 1 as [|a l _ IH Ha]; [constructor|]. constructor; [|done]. intros Hin.
  rewrite Forall_forall in Ha. by eapply dlt_irrefl, Ha.
Qed.

(** Inserting between neighbours. *)
Lemma sorted_insert h l1 l2 x :
  StronglySorted (dlt h) (l1 ++ l2) -> (forall a, last l1 = Some a -> dlt h a x) ->
  (forall b, head l2 = Some b -> dlt h x b) -> StronglySorted (dlt h) (l1 ++ x :: l2).
Proof.
  revert l2. induction l1 as [|a l1 IH]; intros l2 Hs H1 H2; cbn in *.
  - constructor; [done|]. destruct l2 as [|b l2]; [constructor|]. pose proof (H2 b eq_refl) as Hb.
    inversion Hs as [|? ? Hs' Hf]; subst. constructor; [done|]. eapply Forall_impl; [done|]. intros c. by apply dlt_trans.
  - inversion Hs as [|? ? Hs' Hf]; subst. constructor.
    + apply IH; [done| |done]. intros c Hc. apply H1. by destruct l1.
    + apply Forall_app in Hf as [Hf1 Hf2]. apply Forall_app. split; [done|]. constructor; [|done].
      destruct (last l1) as [c|] eqn:El; [|apply last_None in El as ->; by apply H1].
      apply (dlt_trans h a c x); [|apply H1; by destruct l1].
      rewrite Forall_forall in Hf1. apply Hf1. apply last_Some in El as [l' ->]. apply elem_of_app. right. by left.
Qed.
End chains.

(** ** What threads know *)

Section invariant.
Context {T : Type} `{!Inhabited T} (ltb : T -> T -> bool) `{!Comparator ltb}.
Implicit Types (s : state (T := T)) (C : nat -> list nat) (a b j k : nat) (d : T) (n : node (T := T)).

Abbreviation heapT := (list (node (T := T))).

(** The current head, or one that was replaced since position [st]. *)
Definition head_since s (st a : nat) : Prop := a = s_head s \/ exists m, (a, m) ∈ s_old s /\ st <= m.
Definition was_head s a : Prop := head_since s 0 a.
Definition public s C a : Prop := a ∈ C 0 \/ was_head s a.

Definition pred_ok s C (st k a : nat) d : Prop :=
  tall (s_heap s) a k /\ ((a ∈ C k /\ below_d ltb (s_heap s) a d) \/ head_since s st a).

Definition succ_ok s C k (o : option nat) d : Prop :=
  match o with Some b => b ∈ C k /\ above_d ltb (s_heap s) b d | None => True end.

(** [a] comes before [b] in the order in which locks are not taken. *)
Definition before (h : heapT) a b : Prop :=
  exists n m, h !! a = Some n /\ h !! b = Some m /\ n_head m = false /\ (n_head n = true \/ ltb (n_data n) (n_data m) = true).

(** Predecessors by layer: each is the one below or comes before it. *)
Fixpoint descending (h : heapT) (l : list nat) : Prop :=
  match l with
  | a :: ((b :: _) as l') => (b = a \/ before h b a) /\ descending h l'
  | _ => True
  end.

Record plan_ok s C (st : nat) d (p : plan) : Prop := {
  po_succs : length (pl_succs p) = length (pl_preds p);
  po_height : 0 < pl_height p <= length (pl_preds p);
  po_preds : forall l a, pl_preds p !! l = Some a -> pred_ok s C st l a d;
  po_next : forall l o, pl_succs p !! l = Some o -> succ_ok s C l o d;
  po_order : descending (s_heap s) (pl_preds p);
}.

Definition held s j (gs : list nat) : Prop :=
  NoDup gs /\ forall a, a ∈ gs -> exists n, s_heap s !! a = Some n /\ n_lock n = Some j.

Definition guards_ok s j (p : plan) (layer : nat) : Prop :=
  held s j (pl_guards p) /\ forall a, a ∈ pl_guards p <-> exists l, l < layer /\ pl_preds p !! l = Some a.

(** Layer [l] is locked by [j] and was found valid. *)
Definition ready_at s C j (p : plan) (l : nat) : Prop :=
  exists a o n, pl_preds p !! l = Some a /\ pl_succs p !! l = Some o /\ s_heap s !! a = Some n /\
    n_lock n = Some j /\ n_marked n = false /\ n_skip n !! l = Some o /\ (a ∈ C l \/ a = s_head s).

(** A node of [j] that is in the layers below [k]. *)
Definition fresh_node s C j d (ht k a : nat) : Prop :=
  (exists n, s_heap s !! a = Some n /\ n_data n = d /\ n_head n = false /\ n_by n = j /\
     height n = ht /\ n_linked n = false) /\
  (forall l, l < k -> a ∈ C l) /\ (forall l, k <= l -> a ∉ C l).

(** A head that only [j] knows. *)
Definition fresh_head s j (ht a : nat) : Prop :=
  exists n, s_heap s !! a = Some n /\ n_head n = true /\ n_by n = j /\ height n = ht /\
    n_lock n = None /\ ~ was_head s a.

Definition copied (h : heapT) (old new_head : nat) : Prop :=
  exists n m, h !! old = Some n /\ h !! new_head = Some m /\ height n < height m /\
    n_marked m = n_marked n /\ forall k, k < height m -> n_skip m !! k = Some (mjoin (n_skip n !! k)).

Definition in_set s C a d : Prop := a ∈ C 0 /\ exists n, s_heap s !! a = Some n /\ n_data n = d.

(** The answer of a lookup was right at some point of the call. *)
Definition position_ok s C (st now : nat) d (o : option nat) : Prop :=
  (forall a, o = Some a -> a ∈ C 0) /\
  exists m, st <= m <= now /\
    first_not_less ltb d (replay ltb (take m (s_log s))) = n_data <$> (o ≫= (s_heap s !!.)).

Definition is_insert (o : op (T := T)) : Prop := match o with Insert _ => True | _ => False end.
Definition is_lower_bound (o : op (T := T)) : Prop := match o with LowerBound _ => True | _ => False end.
Definition is_lookup (o : op (T := T)) : Prop := match o with LowerBound _ | Scan (Some _) => True | _ => False end.

Definition data_of (h : heapT) (l : list nat) : list T := omap (fun a => n_data <$> h !! a) l.

Lemma data_of_cons (h : heapT) a l :
  data_of h (a :: l) = match h !! a with Some n => n_data n :: data_of h l | None => data_of h l end.
Proof. unfold data_of. cbn. by destruct (h !! a). Qed.

(** A scan that began at position [st] has visited [v] and is at [o]: the
    nodes are in order and not below the bound, and what was in the set at
    [st] and is before [o] has been visited. *)
Definition lower_of (o : op (T := T)) : option T := match o with Scan l => l | _ => None end.
Definition in_bound (lower : option T) (x : T) : Prop := match lower with Some d => ltb x d = false | None => True end.
Definition is_scan (o : op (T := T)) : Prop := match o with Scan _ => True | _ => False end.

Record scanned s C (st : nat) (lower : option T) (v : list nat) (o : option nat) : Prop := {
  sc_in : forall a, a ∈ v \/ o = Some a -> a ∈ C 0;
  sc_sorted : StronglySorted (dlt ltb (s_heap s)) v;
  sc_last : forall a b, a ∈ v -> o = Some b -> dlt ltb (s_heap s) a b;
  sc_bound : forall a n, a ∈ v \/ o = Some a -> s_heap s !! a = Some n -> in_bound lower (n_data n);
  sc_seen : forall x, x ∈ replay ltb (take st (s_log s)) -> in_bound lower x ->
    (forall b n, o = Some b -> s_heap s !! b = Some n -> ltb x (n_data n) = true) -> x ∈ data_of (s_heap s) v;
}.

(** About to leave [a]. *)
Definition scanning s C (st : nat) (lower : option T) (v : list nat) a : Prop :=
  tall (s_heap s) a 0 /\
  ((exists v', v = v' ++ [a] /\ scanned s C st lower v' (Some a)) \/ (v = [] /\ lower = None /\ head_since s st a)).

Definition result_ok s C (t : thread) (r : result) : Prop :=
  match r with
  | Inserted a _ => in_set s C a (op_data (t_op t))
  | Existing b => is_insert (t_op t) /\ same_d ltb (s_heap s) b (op_data (t_op t)) /\ b ∈ C 0 /\
      exists m n, t_start t <= m <= t_last t /\ s_heap s !! b = Some n /\ n_data n ∈ replay ltb (take m (s_log s))
  | Visited v => is_scan (t_op t) /\ scanned s C (t_start t) (lower_of (t_op t)) v None
  | Position o => is_lower_bound (t_op t) /\ position_ok s C (t_start t) (t_last t) (op_data (t_op t)) o
  end.

Definition pc_ok s C j (t : thread) : Prop :=
  let d := op_data (t_op t) in
  let st := t_start t in
  match t_pc t with
  | Idle => True
  | Start => is_insert (t_op t)
  | LoadHead ml => is_insert (t_op t) /\ tall (s_heap s) (s_head s) ml
  | Finding layer pred found preds succs =>
      is_insert (t_op t) /\ pred_ok s C st layer pred d /\ length succs = length preds /\
      (forall l a, preds !! l = Some a -> pred_ok s C st (S layer + l) a d) /\
      descending (s_heap s) (pred :: preds) /\
      match found with
      | Some b => b ∈ C 0 /\ same_d ltb (s_heap s) b d
      | None => forall l o, succs !! l = Some o -> succ_ok s C (S layer + l) o d
      end
  | Found b | Waiting b => is_insert (t_op t) /\ b ∈ C 0 /\ same_d ltb (s_heap s) b d
  | Locking l p =>
      is_insert (t_op t) /\ plan_ok s C st d p /\ guards_ok s j p l /\ l <= pl_height p /\
      forall l', l' < l -> ready_at s C j p l'
  | Checking l p =>
      is_insert (t_op t) /\ plan_ok s C st d p /\ guards_ok s j p (S l) /\ l < pl_height p /\
      forall l', l' < l -> ready_at s C j p l'
  | Creating p =>
      is_insert (t_op t) /\ plan_ok s C st d p /\ guards_ok s j p (pl_height p) /\
      forall l', l' < pl_height p -> ready_at s C j p l'
  | LinkNew k a p =>
      is_insert (t_op t) /\ plan_ok s C st d p /\ guards_ok s j p (pl_height p) /\ k < pl_height p /\
      (forall l', k <= l' < pl_height p -> ready_at s C j p l') /\ fresh_node s C j d (pl_height p) k a
  | LinkPred k a p =>
      is_insert (t_op t) /\ plan_ok s C st d p /\ guards_ok s j p (pl_height p) /\ k < pl_height p /\
      (forall l', k <= l' < pl_height p -> ready_at s C j p l') /\ fresh_node s C j d (pl_height p) k a /\
      skip (s_heap s) a k = pl_succs p !! k
  | SetLinked a gs =>
      is_insert (t_op t) /\ held s j gs /\ in_set s C a d /\
      exists n, s_heap s !! a = Some n /\ n_by n = j /\ n_head n = false /\ n_linked n = false
  | Counting a gs => is_insert (t_op t) /\ held s j gs /\ in_set s C a d
  | Unlocking gs k =>
      is_insert (t_op t) /\ held s j gs /\
      match k with
      | Retry => True
      | Counted a _ => in_set s C a d
      | Return r => exists a m, r = Inserted a m /\ in_set s C a d
      end
  | CheckSize a _ | GrowLoad _ a _ => is_insert (t_op t) /\ in_set s C a d
  | GrowLock old new_head r =>
      is_insert (t_op t) /\ was_head s old /\
      (exists n ht, s_heap s !! old = Some n /\ height n < ht /\ fresh_head s j ht new_head /\
         forall k, k < ht -> skip (s_heap s) new_head k = Some None) /\
      exists a m, r = Inserted a m /\ in_set s C a d
  | GrowCopy old new_head r =>
      is_insert (t_op t) /\ was_head s old /\ held s j [old] /\
      (exists n ht, s_heap s !! old = Some n /\ height n < ht /\ fresh_head s j ht new_head /\
         forall k, k < ht -> skip (s_heap s) new_head k = Some None) /\
      exists a m, r = Inserted a m /\ in_set s C a d
  | GrowSwap old new_head r =>
      is_insert (t_op t) /\ was_head s old /\ held s j [old] /\
      (exists ht, fresh_head s j ht new_head) /\ copied (s_heap s) old new_head /\
      exists a m, r = Inserted a m /\ in_set s C a d
  | GrowMark old r =>
      is_insert (t_op t) /\ held s j [old] /\ old <> s_head s /\ was_head s old /\
      exists a m, r = Inserted a m /\ in_set s C a d
  | LoadTop => is_lookup (t_op t)
  | Down O _ node => is_lookup (t_op t) /\ position_ok s C st (t_last t) d node
  | Down (S k) pred _ => is_lookup (t_op t) /\ pred_ok s C st k pred d
  | Right k pred => is_lookup (t_op t) /\ pred_ok s C st k pred d
  | SkipMarked node => is_lookup (t_op t) /\ position_ok s C st (t_last t) d node
  | First => t_op t = Scan None
  | NextOf a v => is_scan (t_op t) /\ scanning s C st (lower_of (t_op t)) v a
  | NextSkip node v => is_scan (t_op t) /\ scanned s C st (lower_of (t_op t)) v node
  | Done r => result_ok s C t r
  end.

(** Whether the insertion of the thread is in the log. *)
Definition has_logged (c : pc) : bool :=
  match c with
  | LinkNew k _ _ | LinkPred k _ _ => (0 <? k)%nat
  | SetLinked _ _ | Counting _ _ | CheckSize _ _ | GrowLoad _ _ _ | GrowLock _ _ _ | GrowCopy _ _ _
  | GrowSwap _ _ _ | GrowMark _ _ | Done (Inserted _ _) => true
  | Unlocking _ (Counted _ _) | Unlocking _ (Return _) => true
  | _ => false
  end.

Definition log_ok s j (t : thread) : Prop :=
  if has_logged (t_pc t)
  then exists m, t_start t <= m < t_last t /\ s_log s !! m = Some (j, op_data (t_op t))
  else j ∉ (s_log s).*1.

Record thread_ok s C j (t : thread) : Prop := {
  th_times : t_start t <= t_last t <= length (s_log s);
  th_pc : pc_ok s C j t;
  th_log : log_ok s j t;
}.

(** The locks of a thread, and the node it is linking. *)
Definition guards_of (c : pc) : list nat :=
  match c with
  | Locking _ p | Checking _ p | Creating p | LinkNew _ _ p | LinkPred _ _ p => pl_guards p
  | SetLinked _ gs | Counting _ gs | Unlocking gs _ => gs
  | GrowCopy old _ _ | GrowSwap old _ _ | GrowMark old _ => [old]
  | _ => []
  end.

Definition linking (c : pc) a : Prop :=
  match c with LinkNew _ b _ | LinkPred _ b _ | SetLinked b _ => b = a | _ => False end.

(** The store. *)
Record chains_ok (h : heapT) (hd : nat) C : Prop := {
  co_head : exists n, h !! hd = Some n /\ n_head n = true /\ 0 < height n;
  co_chain : forall k, tall h hd k -> chain h k hd (C k);
  co_above : forall k, ~ tall h hd k -> C k = [];
  co_mem : forall k a, a ∈ C k -> exists n, h !! a = Some n /\ n_head n = false /\ k < height n;
  co_sub : forall k a, a ∈ C (S k) -> a ∈ C k;
  co_sorted : forall k, StronglySorted (dlt ltb h) (C k);
  co_ptr : forall a n k b, h !! a = Some n -> n_skip n !! k = Some (Some b) ->
    b ∈ C k /\ (n_head n = false -> dlt ltb h a b);
}.

Record inv s C : Prop := {
  i_chains : chains_ok (s_heap s) (s_head s) C;
  i_unmarked : forall a n, s_heap s !! a = Some n -> a = s_head s \/ n_head n = false -> n_marked n = false;
  i_old : forall a m, (a, m) ∈ s_old s ->
    (exists n, s_heap s !! a = Some n /\ n_head n = true /\ a <> s_head s /\
       (n_marked n = true \/ exists j t r, s_threads s !! j = Some t /\ t_pc t = GrowMark a r) /\
       head (replay ltb (take m (s_log s))) = n_data <$> (mjoin (n_skip n !! 0) ≫= (s_heap s !!.))) /\
    m <= length (s_log s);
  i_log : data_of (s_heap s) (C 0) = replay ltb (s_log s);
  i_new : forall m j e x, s_log s !! m = Some (j, e) -> x ∈ replay ltb (take m (s_log s)) ->
    ltb x e = true \/ ltb e x = true;
  i_once : NoDup (s_log s).*1;
  i_calls : forall j e, (j, e) ∈ s_log s -> exists t, s_threads s !! j = Some t /\ t_op t = Insert e;
  i_locks : forall a n j, s_heap s !! a = Some n -> n_lock n = Some j ->
    exists t, s_threads s !! j = Some t /\ a ∈ guards_of (t_pc t);
  i_linking : forall a n, s_heap s !! a = Some n -> a ∈ C 0 -> n_linked n = false ->
    exists t, s_threads s !! n_by n = Some t /\ linking (t_pc t) a;
  i_threads : forall j t, s_threads s !! j = Some t -> thread_ok s C j t;
}.

(** ** The frame of a step *)

(** What a step of thread [i] may do to a node. *)
Record node_frame (i : nat) s C a n n' : Prop := {
  nf_data : n_data n' = n_data n;
  nf_head : n_head n' = n_head n;
  nf_by : n_by n' = n_by n;
  nf_height : height n' = height n;
  nf_linked : n_linked n' = n_linked n \/ n_by n = i;
  nf_marked : n_marked n' = n_marked n \/ (n_lock n = Some i /\ n_marked n' = true) \/ (n_by n = i /\ n_head n = true /\ ~ was_head s a);
  nf_lock : n_lock n' = n_lock n \/ (n_lock n = None /\ n_lock n' = Some i /\ (n_head n = true -> was_head s a)) \/
    (n_lock n = Some i /\ n_lock n' = None);
  nf_skip : forall k, n_skip n' !! k = n_skip n !! k \/
    (n_lock n = Some i /\ (a ∈ C k \/ a = s_head s)) \/ (n_by n = i /\ a ∉ C k /\ ~ was_head s a);
}.

Record frame (i : nat) s C s' C' : Prop := {
  f_nodes : forall a n, s_heap s !! a = Some n -> exists n', s_heap s' !! a = Some n' /\ node_frame i s C a n n';
  f_mono : forall k a, a ∈ C k -> a ∈ C' k;
  f_new : forall k a, a ∈ C' k -> a ∈ C k \/ exists n, s_heap s !! a = Some n /\ n_by n = i;
  f_head : (s_head s' = s_head s /\ s_old s' = s_old s) \/
    (s_old s' = (s_head s, length (s_log s)) :: s_old s /\ s_heap s' = s_heap s /\ s_log s' = s_log s /\
     (exists n, s_heap s !! s_head s' = Some n /\ n_by n = i /\ n_head n = true /\ ~ was_head s (s_head s')) /\
     (exists n, s_heap s !! s_head s = Some n /\ n_lock n = Some i) /\
     (forall k, tall (s_heap s) (s_head s) k -> tall (s_heap s') (s_head s') k));
  f_log : s_log s `prefix_of` s_log s';
}.

Lemma node_frame_refl i s C a n : node_frame i s C a n n.
Proof. split; auto. Qed.

Section frame.
Context (i : nat) (s s' : state (T := T)) (C C' : nat -> list nat) (Hi : inv s C) (Hf : frame i s C s' C').

Lemma frame_node a n : s_heap s !! a = Some n -> exists n', s_heap s' !! a = Some n' /\ node_frame i s C a n n'.
Proof. apply Hf. Qed.

Lemma tall_frame a k : tall (s_heap s) a k -> tall (s_heap s') a k.
Proof. intros (n & Hn & Hk). destruct (frame_node a n Hn) as (n' & Hn' & F). exists n'. split; [done|]. by rewrite (nf_height _ _ _ _ _ _ F). Qed.

Lemma below_frame a d : below_d ltb (s_heap s) a d -> below_d ltb (s_heap s') a d.
Proof. intros (n & Hn & Hk). destruct (frame_node a n Hn) as (n' & Hn' & F). exists n'. split; [done|]. by rewrite (nf_data _ _ _ _ _ _ F). Qed.

Lemma above_frame a d : above_d ltb (s_heap s) a d -> above_d ltb (s_heap s') a d.
Proof. intros (n & Hn & Hk). destruct (frame_node a n Hn) as (n' & Hn' & F). exists n'. split; [done|]. by rewrite (nf_data _ _ _ _ _ _ F). Qed.

Lemma same_frame a d : same_d ltb (s_heap s) a d -> same_d ltb (s_heap s') a d.
Proof. intros (n & Hn & Hk). destruct (frame_node a n Hn) as (n' & Hn' & F). exists n'. split; [done|]. by rewrite (nf_data _ _ _ _ _ _ F). Qed.

Lemma dlt_frame a b : dlt ltb (s_heap s) a b -> dlt ltb (s_heap s') a b.
Proof.
  intros (n & m & Hn & Hm & Hk). destruct (frame_node a n Hn) as (n' & Hn' & F), (frame_node b m Hm) as (m' & Hm' & F').
  exists n', m'. by rewrite (nf_data _ _ _ _ _ _ F), (nf_data _ _ _ _ _ _ F').
Qed.

Lemma before_frame a b : before (s_heap s) a b -> before (s_heap s') a b.
Proof.
  intros (n & m & Hn & Hm & Hk). destruct (frame_node a n Hn) as (n' & Hn' & F), (frame_node b m Hm) as (m' & Hm' & F').
  exists n', m'. by rewrite (nf_data _ _ _ _ _ _ F), (nf_data _ _ _ _ _ _ F'), (nf_head _ _ _ _ _ _ F), (nf_head _ _ _ _ _ _ F').
Qed.

Lemma descending_frame l : descending (s_heap s) l -> descending (s_heap s') l.
Proof.
  induction l as [|a [|b l] IH]; [done|done|]. intros [H1 H2]. split; [|by apply IH]. destruct H1; [by left|right].
  by apply before_frame.
Qed.

Lemma head_since_frame st a : st <= length (s_log s) -> head_since s st a -> head_since s' st a.
Proof.
  intros Hst [->|(m & Hm & Hle)].
  - destruct (f_head _ _ _ _ _ Hf) as [[E _]|(H & _)]; [by left|]. right. rewrite H. eexists. split; [by left|done].
  - right. exists m. split; [|done]. destruct (f_head _ _ _ _ _ Hf) as [[_ E]|(E & _)]; rewrite E; [done|by right].
Qed.

Lemma was_head_frame a : was_head s a -> was_head s' a.
Proof. apply head_since_frame. lia. Qed.

Lemma not_was_head j a n :
  s_heap s !! a = Some n -> n_by n = j -> j <> i -> ~ was_head s a -> ~ was_head s' a.
Proof.
  intros Hn Hb Hj Hw Hw'. apply Hw. destruct (f_head _ _ _ _ _ Hf) as [[E1 E2]|(E1 & _ & _ & (n' & Hn' & Hb' & _) & _)].
  - destruct Hw' as [->|(m & Hm & ?)]; [by left|]. right. exists m. by rewrite <- E2.
  - destruct Hw' as [->|(m & Hm & ?)]; [simplify_eq|]. rewrite E1 in Hm. apply elem_of_cons in Hm as [[= -> ->]|Hm]; [by left|].
    right. by exists m.
Qed.

Lemma pred_ok_frame st k a d : st <= length (s_log s) -> pred_ok s C st k a d -> pred_ok s' C' st k a d.
Proof.
  intros Hst [H1 H2]. split; [by apply tall_frame|]. destruct H2 as [[H2 H3]|H2].
  - left. split; [by apply Hf|by apply below_frame].
  - right. by apply head_since_frame.
Qed.

Lemma succ_ok_frame k o d : succ_ok s C k o d -> succ_ok s' C' k o d.
Proof. destruct o as [b|]; [|done]. intros [H1 H2]. split; [by apply Hf|by apply above_frame]. Qed.

Lemma plan_ok_frame st d p : st <= length (s_log s) -> plan_ok s C st d p -> plan_ok s' C' st d p.
Proof.
  intros Hst [H1 H2 H3 H4 H5]. split; [done|done| | |by apply descending_frame].
  - intros l a Ha. by apply pred_ok_frame, H3.
  - intros l o Ho. by apply succ_ok_frame, H4.
Qed.

Lemma held_frame j gs : j <> i -> held s j gs -> held s' j gs.
Proof.
  intros Hj [Hnd Hh]. split; [done|]. intros a Ha. destruct (Hh a Ha) as (n & Hn & Hl).
  destruct (frame_node a n Hn) as (n' & Hn' & F). exists n'. split; [done|].
  destruct (nf_lock _ _ _ _ _ _ F) as [E|[(E & _)|[E _]]]; congruence.
Qed.

Lemma guards_ok_frame j p l : j <> i -> guards_ok s j p l -> guards_ok s' j p l.
Proof. intros Hj [H1 H2]. split; [by apply held_frame|done]. Qed.

Lemma ready_at_frame j p l : j <> i -> ready_at s C j p l -> ready_at s' C' j p l.
Proof.
  intros Hj (a & o & n & H1 & H2 & H3 & H4 & H5 & H6 & H7). destruct (frame_node a n H3) as (n' & Hn' & F).
  assert (Hw : (n_head n = true /\ ~ was_head s a) -> False).
  { intros [Hh Hw]. destruct H7 as [H7| ->]; [|by apply Hw; left].
    destruct (co_mem _ _ _ (i_chains _ _ Hi) _ _ H7) as (m & Hm & Hm' & _). congruence. }
  exists a, o, n'. split; [done|]. split; [done|]. split; [done|]. split; [|split; [|split]].
  - destruct (nf_lock _ _ _ _ _ _ F) as [E|[(E & _)|[E _]]]; congruence.
  - destruct (nf_marked _ _ _ _ _ _ F) as [E|[[E _]|(_ & E)]]; [congruence|congruence|]. by destruct Hw.
  - destruct (nf_skip _ _ _ _ _ _ F l) as [E|[[E _]|(_ & E1 & E2)]]; [congruence|congruence|].
    exfalso. destruct H7 as [H7| ->]; [done|]. apply E2. by left.
  - destruct H7 as [H7| ->]; [left; by apply Hf|].
    destruct (f_head _ _ _ _ _ Hf) as [[E _]|(_ & _ & _ & _ & (n0 & Hn0 & Hl0) & _)]; [by right|]. congruence.
Qed.

Lemma fresh_node_frame j d ht k a : j <> i -> fresh_node s C j d ht k a -> fresh_node s' C' j d ht k a.
Proof.
  intros Hj ((n & Hn & H1 & H2 & H3 & H4 & H5) & H6 & H7). destruct (frame_node a n Hn) as (n' & Hn' & F). split; [|split].
  - exists n'. rewrite (nf_data _ _ _ _ _ _ F), (nf_head _ _ _ _ _ _ F), (nf_by _ _ _ _ _ _ F), (nf_height _ _ _ _ _ _ F).
    split_and!; [done|done|done|done|done|]. destruct (nf_linked _ _ _ _ _ _ F); congruence.
  - intros l Hl. by apply Hf, H6.
  - intros l Hl Ha. apply (f_new _ _ _ _ _ Hf) in Ha as [Ha|(m & Hm & Hb)]; [by apply (H7 l)|]. congruence.
Qed.

Lemma fresh_head_frame j ht a : j <> i -> fresh_head s j ht a -> fresh_head s' j ht a.
Proof.
  intros Hj (n & Hn & H1 & H2 & H3 & H4 & H5). destruct (frame_node a n Hn) as (n' & Hn' & F). exists n'.
  rewrite (nf_head _ _ _ _ _ _ F), (nf_by _ _ _ _ _ _ F), (nf_height _ _ _ _ _ _ F).
  split_and!; [done..| |by eapply not_was_head]. destruct (nf_lock _ _ _ _ _ _ F) as [E|[(E & _ & E')|[E _]]]; [congruence| |congruence].
  exfalso. auto.
Qed.

(** A private head keeps its pointers and flags. *)
Lemma fresh_head_skip j ht a n n' k :
  j <> i -> fresh_head s j ht a -> s_heap s !! a = Some n -> node_frame i s C a n n' ->
  n_skip n' !! k = n_skip n !! k /\ n_marked n' = n_marked n.
Proof.
  intros Hj (m & Hm & H1 & H2 & H3 & H4 & H5) Hn F. simplify_eq. split.
  - destruct (nf_skip _ _ _ _ _ _ F k) as [E|[[E _]|[E _]]]; congruence.
  - destruct (nf_marked _ _ _ _ _ _ F) as [E|[[E _]|[E _]]]; congruence.
Qed.

Lemma empty_head_frame j ht a :
  j <> i -> fresh_head s j ht a -> (forall k, k < ht -> skip (s_heap s) a k = Some None) ->
  forall k, k < ht -> skip (s_heap s') a k = Some None.
Proof.
  intros Hj Hh He k Hk. specialize (He k Hk). unfold skip in *. destruct (s_heap s !! a) as [n|] eqn:En; [|done].
  destruct (frame_node a n En) as (n' & Hn' & F). rewrite Hn'. cbn in *.
  by destruct (fresh_head_skip j ht a n n' k Hj Hh En F) as [-> _].
Qed.

(** Nobody writes to a head that [j] has locked. *)
Lemma locked_head_skip j a n n' k :
  j <> i -> was_head s a -> s_heap s !! a = Some n -> n_lock n = Some j -> node_frame i s C a n n' ->
  n_skip n' !! k = n_skip n !! k /\ n_marked n' = n_marked n.
Proof.
  intros Hj Hw Hn Hl F. split.
  - destruct (nf_skip _ _ _ _ _ _ F k) as [E|[[E _]|(_ & _ & E)]]; [done|congruence|done].
  - destruct (nf_marked _ _ _ _ _ _ F) as [E|[[E _]|(_ & _ & E)]]; [done|congruence|done].
Qed.

Lemma copied_frame j ht old a :
  j <> i -> fresh_head s j ht a -> was_head s old -> held s j [old] -> copied (s_heap s) old a -> copied (s_heap s') old a.
Proof.
  intros Hj Hh Hw [_ Hl] (n & m & Hn & Hm & H1 & H2 & H3).
  destruct (Hl old ltac:(by left)) as (n0 & Hn0 & Hlk). simplify_eq.
  destruct (frame_node old n Hn) as (n' & Hn' & F), (frame_node a m Hm) as (m' & Hm' & F').
  pose proof (fun k => fresh_head_skip j ht a m m' k Hj Hh Hm F') as E1.
  pose proof (fun k => locked_head_skip j old n n' k Hj Hw Hn Hlk F) as E2.
  exists n', m'. rewrite (nf_height _ _ _ _ _ _ F), (nf_height _ _ _ _ _ _ F').
  split_and!; [done|done|done| |].
  - destruct (E1 0), (E2 0). congruence.
  - intros k Hk. destruct (E1 k) as [-> _], (E2 k) as [-> _]. by apply H3.
Qed.

Lemma in_set_frame a d : in_set s C a d -> in_set s' C' a d.
Proof.
  intros [H1 (n & Hn & Hd)]. split; [by apply Hf|]. destruct (frame_node a n Hn) as (n' & Hn' & F). exists n'.
  by rewrite (nf_data _ _ _ _ _ _ F).
Qed.

Lemma take_frame m : m <= length (s_log s) -> take m (s_log s') = take m (s_log s).
Proof. intros Hm. destruct (f_log _ _ _ _ _ Hf) as [l ->]. by rewrite take_app_le. Qed.

Lemma data_frame (o : option nat) :
  (forall a, o = Some a -> a ∈ C 0) -> n_data <$> (o ≫= (s_heap s' !!.)) = n_data <$> (o ≫= (s_heap s !!.)).
Proof.
  destruct o as [a|]; [|done]. intros Ha. destruct (co_mem _ _ _ (i_chains _ _ Hi) _ _ (Ha a eq_refl)) as (n & Hn & _).
  cbn. destruct (frame_node a n Hn) as (n' & -> & F). rewrite Hn. cbn. by rewrite (nf_data _ _ _ _ _ _ F).
Qed.

Lemma position_ok_frame st now now' d o :
  now <= length (s_log s) -> now <= now' -> position_ok s C st now d o -> position_ok s' C' st now' d o.
Proof.
  intros Hn Hn' [H1 (m & Hm & H2)]. split.
  - intros a Ha. by apply Hf, H1.
  - exists m. split; [lia|]. rewrite take_frame by lia. by rewrite data_frame.
Qed.

Lemma data_of_frame l : (forall a, a ∈ l -> a ∈ C 0) -> data_of (s_heap s') l = data_of (s_heap s) l.
Proof.
  induction l as [|a l IH]; intros Hl; [done|]. rewrite !data_of_cons, IH by (intros b Hb; apply Hl; by right).
  destruct (co_mem _ _ _ (i_chains _ _ Hi) _ _ (Hl a ltac:(by left))) as (n & Hn & _).
  destruct (f_nodes _ _ _ _ _ Hf a n Hn) as (n' & -> & F). rewrite Hn. by rewrite (nf_data _ _ _ _ _ _ F).
Qed.

Lemma scanned_frame st lower v o : st <= length (s_log s) -> scanned s C st lower v o -> scanned s' C' st lower v o.
Proof.
  intros Hst [H1 H2 H3 H4 H5].
  assert (Hd : forall a n, a ∈ C 0 -> s_heap s' !! a = Some n -> exists m, s_heap s !! a = Some m /\ n_data m = n_data n).
  { intros a n Ha Hn. destruct (co_mem _ _ _ (i_chains _ _ Hi) _ _ Ha) as (m & Hm & _). exists m. split; [done|].
    destruct (frame_node a m Hm) as (m' & Hm' & F). rewrite Hn in Hm'. injection Hm' as <-. symmetry. apply F. }
  split.
  - intros a Ha. by apply Hf, H1.
  - eapply sorted_mono; [|exact H2]. apply dlt_frame.
  - intros a b Ha Hb. by apply dlt_frame, H3.
  - intros a n Ha Hn. destruct (Hd a n (H1 a Ha) Hn) as (m & Hm & <-). by apply (H4 a).
  - intros x Hx Hb Ho. rewrite data_of_frame by auto. apply H5; [by rewrite take_frame in Hx|done|].
    intros b n -> Hn. destruct (frame_node b n Hn) as (n' & Hn' & F). rewrite <- (nf_data _ _ _ _ _ _ F). by apply (Ho b).
Qed.

Lemma scanning_frame st lower v a : st <= length (s_log s) -> scanning s C st lower v a -> scanning s' C' st lower v a.
Proof.
  intros Hst [H0 [(v' & -> & H)|(-> & -> & H)]]; (split; [by apply tall_frame|]); [left|right].
  - exists v'. split; [done|by apply scanned_frame].
  - split_and!; [done|done|by apply head_since_frame].
Qed.

Lemma result_ok_frame t r : t_start t <= t_last t <= length (s_log s) -> result_ok s C t r -> result_ok s' C' t r.
Proof.
  intros Ht. destruct r as [a m|b|o|v]; cbn.
  - apply in_set_frame.
  - intros (Hins & Hsame & Hb & m & n & Hm & Hn & Hx). destruct (frame_node b n Hn) as (n' & Hn' & F).
    split; [done|]. split; [by apply same_frame|]. split; [by apply Hf|]. exists m, n'.
    rewrite (nf_data _ _ _ _ _ _ F). split_and!; [lia|lia|done|]. by rewrite take_frame by lia.
  - intros [H1 H2]. split; [done|]. apply (position_ok_frame _ (t_last t)); [lia|lia|done].
  - intros [H1 H2]. split; [done|]. apply scanned_frame; [lia|done].
Qed.

Lemma head_tall_frame k : tall (s_heap s) (s_head s) k -> tall (s_heap s') (s_head s') k.
Proof. destruct (f_head _ _ _ _ _ Hf) as [[-> _]|(_ & _ & _ & _ & _ & H)]; [apply tall_frame|apply H]. Qed.

Lemma inserted_frame d r :
  (exists a m, r = Inserted a m /\ in_set s C a d) -> exists a m, r = Inserted a m /\ in_set s' C' a d.
Proof. intros (a & m & -> & H). exists a, m. split; [done|by apply in_set_frame]. Qed.

Lemma skip_frame j d ht k a :
  j <> i -> fresh_node s C j d ht k a -> skip (s_heap s') a k = skip (s_heap s) a k.
Proof.
  intros Hj ((n & Hn & H1 & H2 & H3 & H4 & H5) & H6 & H7). destruct (frame_node a n Hn) as (n' & Hn' & F).
  unfold skip. rewrite Hn, Hn'. cbn. destruct (nf_skip _ _ _ _ _ _ F k) as [E|[[E [E1|E1]]|[E _]]]; [done|exfalso..|congruence].
  - by apply (H7 k).
  - destruct (co_head _ _ _ (i_chains _ _ Hi)) as (m & Hm & Hh & _). congruence.
Qed.

Lemma new_head_frame j old new_head :
  j <> i ->
  (exists n ht, s_heap s !! old = Some n /\ height n < ht /\ fresh_head s j ht new_head /\
     forall k, k < ht -> skip (s_heap s) new_head k = Some None) ->
  exists n ht, s_heap s' !! old = Some n /\ height n < ht /\ fresh_head s' j ht new_head /\
     forall k, k < ht -> skip (s_heap s') new_head k = Some None.
Proof.
  intros Hj (n & ht & Hn & H1 & H2 & H3). destruct (frame_node old n Hn) as (n' & Hn' & F). exists n', ht.
  rewrite (nf_height _ _ _ _ _ _ F). split; [done|]. split; [done|]. split; [by apply fresh_head_frame|].
  by eapply empty_head_frame.
Qed.

Lemma growing_frame j old new_head :
  j <> i -> was_head s old -> held s j [old] ->
  (exists ht, fresh_head s j ht new_head) /\ copied (s_heap s) old new_head ->
  (exists ht, fresh_head s' j ht new_head) /\ copied (s_heap s') old new_head.
Proof.
  intros Hj Hw Hh [[ht H1] H2]. split; [exists ht; by apply fresh_head_frame|]. by eapply copied_frame.
Qed.

Lemma not_head_frame j old :
  j <> i -> held s j [old] -> was_head s old -> old <> s_head s -> old <> s_head s'.
Proof.
  intros Hj [_ Hh] Hw Ho. destruct (f_head _ _ _ _ _ Hf) as [[-> _]|(E1 & E2 & _ & (n & Hn & Hb & _ & Hw') & _)]; [done|].
  by intros ->.
Qed.

(** What another thread knows survives the step. *)
Lemma pc_ok_frame j t :
  j <> i -> t_start t <= t_last t <= length (s_log s) -> pc_ok s C j t -> pc_ok s' C' j t.
Proof.
  intros Hj [Ht0 Ht]. pose proof (fun k a d => pred_ok_frame (t_start t) k a d ltac:(lia)) as Hpred.
  pose proof (fun d p => plan_ok_frame (t_start t) d p ltac:(lia)) as Hplan.
  pose proof (fun p l => guards_ok_frame j p l Hj) as Hg. pose proof (fun p l => ready_at_frame j p l Hj) as Hr.
  pose proof (fun gs => held_frame j gs Hj) as Hh. unfold pc_ok.
  destruct (t_pc t) as [| |ml|layer pred found preds succs|b|b|l p|l p|p|k a p|k a p|a gs|a gs|gs k|a z|ht a z|
    old nh r|old nh r|old nh r|old r| |[|k] pred node|k pred|node| |a v|node v|r].
  - done.
  - done.
  - intros [H1 H2]. split; [done|by apply head_tall_frame].
  - intros (H1 & H2 & H3 & H4 & H5 & H6). split_and!; [done|auto|done|intros l a Ha; eauto|by apply descending_frame|].
    destruct found as [b|]; [|intros l o Ho; by apply succ_ok_frame, H6].
    destruct H6 as [H6 H7]. split; [by apply Hf|by apply same_frame].
  - intros (H1 & H2 & H3). split_and!; [done|by apply Hf|by apply same_frame].
  - intros (H1 & H2 & H3). split_and!; [done|by apply Hf|by apply same_frame].
  - intros (H1 & H2 & H3 & H4 & H5). split_and!; auto.
  - intros (H1 & H2 & H3 & H4 & H5). split_and!; auto.
  - intros (H1 & H2 & H3 & H4). split_and!; auto.
  - intros (H1 & H2 & H3 & H4 & H5 & H6). split_and!; auto. by apply fresh_node_frame.
  - intros (H1 & H2 & H3 & H4 & H5 & H6 & H7). split_and!; auto; [by apply fresh_node_frame|].
    rewrite <- H7. by eapply skip_frame.
  - intros (H1 & H2 & H3 & n & Hn & H4 & H5 & H6). split_and!; auto; [by apply in_set_frame|].
    destruct (frame_node a n Hn) as (n' & Hn' & F). exists n'. rewrite (nf_by _ _ _ _ _ _ F), (nf_head _ _ _ _ _ _ F).
    split_and!; [done..|]. destruct (nf_linked _ _ _ _ _ _ F); congruence.
  - intros (H1 & H2 & H3). split_and!; auto. by apply in_set_frame.
  - intros (H1 & H2 & H3). split_and!; auto. destruct k; [done|by apply in_set_frame|by apply inserted_frame].
  - intros (H1 & H2). split; [done|by apply in_set_frame].
  - intros (H1 & H2). split; [done|by apply in_set_frame].
  - intros (H1 & H2 & H3 & H4). split_and!; [done|by apply was_head_frame|by apply new_head_frame|by apply inserted_frame].
  - intros (H1 & H2 & H3 & H4 & H5).
    split_and!; [done|by apply was_head_frame|auto|by apply new_head_frame|by apply inserted_frame].
  - intros (H1 & H2 & H3 & H4 & H5 & H6). destruct (growing_frame j old nh Hj H2 H3 (conj H4 H5)).
    split_and!; [done|by apply was_head_frame|auto|done|done|by apply inserted_frame].
  - intros (H1 & H2 & H3 & H4 & H5).
    split_and!; [done|auto|by eapply not_head_frame|by apply was_head_frame|by apply inserted_frame].
  - done.
  - intros [H1 H2]. split; [done|]. by eapply position_ok_frame.
  - intros [H1 H2]. split; auto.
  - intros [H1 H2]. split; auto.
  - intros [H1 H2]. split; [done|]. by eapply position_ok_frame.
  - done.
  - intros [H1 H2]. split; [done|]. apply scanning_frame; [lia|done].
  - intros [H1 H2]. split; [done|]. apply scanned_frame; [lia|done].
  - by apply result_ok_frame.
Qed.
End frame.

(** What is left to show of a step of [i]. *)
Record transition i s C t s' C' t' : Prop := {
  tr_frame : frame i s C s' C';
  tr_threads : s_threads s' = <[i := t']> (s_threads s);
  tr_op : t_op t' = t_op t;
  tr_start : t_start t' = match t_pc t with Idle => length (s_log s) | _ => t_start t end;
  tr_last : t_last t' = length (s_log s');
  tr_chains : chains_ok (s_heap s') (s_head s') C';
  tr_unmarked : forall a n, s_heap s' !! a = Some n -> a = s_head s' \/ n_head n = false -> n_marked n = false;
  tr_fresh : forall a n, s_heap s' !! a = Some n -> s_heap s !! a = None -> n_lock n = None;
  tr_guards : forall a n, s_heap s' !! a = Some n -> n_lock n = Some i -> a ∈ guards_of (t_pc t');
  tr_linking : forall a n, s_heap s' !! a = Some n -> a ∈ C' 0 -> n_linked n = false -> n_by n = i -> linking (t_pc t') a;
  tr_mark : forall a r, t_pc t = GrowMark a r -> marked (s_heap s') a = true;
  tr_swap : s_old s' = s_old s \/ exists r, t_pc t' = GrowMark (s_head s) r;
  tr_log : (s_log s' = s_log s /\ C' 0 = C 0 /\ has_logged (t_pc t') = has_logged (t_pc t)) \/
    (exists d, t_op t = Insert d /\ s_log s' = s_log s ++ [(i, d)] /\ t_pc t <> Idle /\
       has_logged (t_pc t) = false /\ has_logged (t_pc t') = true /\
       data_of (s_heap s') (C' 0) = set_insert ltb d (data_of (s_heap s) (C 0)) /\
       forall x, x ∈ data_of (s_heap s) (C 0) -> ltb x d = true \/ ltb d x = true);
  tr_pc : pc_ok s' C' i t';
}.

Section transition.
Context (i : nat) (s s' : state (T := T)) (C C' : nat -> list nat) (t t' : thread (T := T)).
Context (Hi : inv s C) (Ht : s_threads s !! i = Some t) (Htr : transition i s C t s' C' t').

Let Hf : frame i s C s' C' := tr_frame _ _ _ _ _ _ _ Htr.

Lemma thread_before j u : s_threads s !! j = Some u -> j <> i -> s_threads s' !! j = Some u.
Proof. intros Hu Hj. rewrite (tr_threads _ _ _ _ _ _ _ Htr). by rewrite list_lookup_insert_ne. Qed.

Lemma thread_self : s_threads s' !! i = Some t'.
Proof. rewrite (tr_threads _ _ _ _ _ _ _ Htr). apply list_lookup_insert_eq. by eapply lookup_lt_Some. Qed.

Lemma next_log :
  data_of (s_heap s') (C' 0) = replay ltb (s_log s') /\
  (forall m j e x, s_log s' !! m = Some (j, e) -> x ∈ replay ltb (take m (s_log s')) -> ltb x e = true \/ ltb e x = true) /\
  NoDup (s_log s').*1 /\
  (forall j e, (j, e) ∈ s_log s' -> exists u, s_threads s' !! j = Some u /\ t_op u = Insert e).
Proof.
  destruct Hi as [H1 H2 H3 H4 H5 H6 H7 H8 H9 H10].
  assert (Hc : forall j e, (j, e) ∈ s_log s -> exists u, s_threads s' !! j = Some u /\ t_op u = Insert e).
  { intros j e Hj. destruct (H7 j e Hj) as (u & Hu & Ho). destruct (decide (j = i)) as [->|Hn].
    - exists t'. rewrite thread_self, (tr_op _ _ _ _ _ _ _ Htr). by simplify_eq.
    - exists u. by rewrite (thread_before j u). }
  destruct (tr_log _ _ _ _ _ _ _ Htr) as [(E1 & E2 & _)|(d & E0 & E1 & _ & E2 & _ & E3 & E4)].
  - rewrite E1, E2. split_and!; [|done|done|done]. rewrite <- H4. by apply (data_of_frame i s s' C C' Hi Hf).
  - rewrite E1. split_and!.
    + rewrite E3, H4. unfold replay. by rewrite foldl_app.
    + intros m j e x Hm Hx. apply lookup_app_Some in Hm as [Hm|[Hm Hm']].
      * rewrite take_app_le in Hx by (apply lookup_lt_Some in Hm; lia). by eapply H5.
      * apply list_lookup_singleton_Some in Hm' as [Hm0 [= <- <-]]. replace m with (length (s_log s)) in Hx by lia.
        rewrite take_app_length, <- H4 in Hx. by apply E4.
    + rewrite fmap_app. apply NoDup_app. split; [done|]. split; [|apply NoDup_singleton]. intros j Hj Hj'.
      apply list_elem_of_singleton in Hj' as ->. pose proof (th_log _ _ _ _ (H10 i t Ht)) as Hl.
      unfold log_ok in Hl. by rewrite E2 in Hl.
    + intros j e [Hj|Hj]%elem_of_app; [by apply Hc|]. apply list_elem_of_singleton in Hj as [= -> ->].
      exists t'. rewrite thread_self, (tr_op _ _ _ _ _ _ _ Htr). done.
Qed.

Lemma next_locks a n j :
  s_heap s' !! a = Some n -> n_lock n = Some j -> exists u, s_threads s' !! j = Some u /\ a ∈ guards_of (t_pc u).
Proof.
  intros Hn Hl. destruct (decide (j = i)) as [->|Hj].
  { exists t'. split; [apply thread_self|]. by eapply (tr_guards _ _ _ _ _ _ _ Htr). }
  destruct (s_heap s !! a) as [m|] eqn:Em; [|rewrite (tr_fresh _ _ _ _ _ _ _ Htr a n Hn Em) in Hl; done].
  destruct (f_nodes _ _ _ _ _ Hf a m Em) as (n' & Hn' & F). simplify_eq.
  assert (Hm : n_lock m = Some j) by (destruct (nf_lock _ _ _ _ _ _ F) as [E|[(_ & E & _)|[_ E]]]; congruence).
  destruct (i_locks _ _ Hi a m j Em Hm) as (u & Hu & Hg). exists u. split; [by apply thread_before|done].
Qed.

Lemma next_linking a n :
  s_heap s' !! a = Some n -> a ∈ C' 0 -> n_linked n = false ->
  exists u, s_threads s' !! n_by n = Some u /\ linking (t_pc u) a.
Proof.
  intros Hn Ha Hl. destruct (decide (n_by n = i)) as [Hb|Hb].
  { exists t'. rewrite Hb. split; [apply thread_self|]. by eapply (tr_linking _ _ _ _ _ _ _ Htr). }
  assert (exists m, s_heap s !! a = Some m /\ a ∈ C 0) as (m & Hm & Ha0).
  { destruct (f_new _ _ _ _ _ Hf 0 a Ha) as [Ha'|(m & Hm & Hb')].
    - destruct (co_mem _ _ _ (i_chains _ _ Hi) _ _ Ha') as (m & Hm & _). eauto.
    - destruct (f_nodes _ _ _ _ _ Hf a m Hm) as (n' & Hn' & F). simplify_eq.
      by rewrite (nf_by _ _ _ _ _ _ F) in Hb. }
  destruct (f_nodes _ _ _ _ _ Hf a m Hm) as (n' & Hn' & F). simplify_eq. rewrite (nf_by _ _ _ _ _ _ F) in *.
  destruct (nf_linked _ _ _ _ _ _ F) as [E|E]; [|done]. rewrite E in Hl.
  destruct (i_linking _ _ Hi a m Hm Ha0 Hl) as (u & Hu & Hk). exists u. split; [by apply thread_before|done].
Qed.

(** The first pointer of a replaced head is frozen. *)
Lemma next_old a m :
  (a, m) ∈ s_old s ->
  (exists n, s_heap s' !! a = Some n /\ n_head n = true /\ a <> s_head s' /\
     (n_marked n = true \/ exists j t r, s_threads s' !! j = Some t /\ t_pc t = GrowMark a r) /\
     head (replay ltb (take m (s_log s'))) = n_data <$> (mjoin (n_skip n !! 0) ≫= (s_heap s' !!.))) /\
  m <= length (s_log s').
Proof.
  intros Ha. destruct (i_old _ _ Hi a m Ha) as [(n & Hn & H1 & H2 & H3 & H4) H5].
  assert (Hw : was_head s a) by (right; exists m; split; [done|lia]).
  destruct (f_nodes _ _ _ _ _ Hf a n Hn) as (n' & Hn' & F). split.
  2: { destruct (f_log _ _ _ _ _ Hf) as [l ->]. rewrite length_app. lia. }
  assert (Hsk : n_skip n' !! 0 = n_skip n !! 0).
  { destruct (nf_skip _ _ _ _ _ _ F 0) as [E|[[_ [E|E]]|(_ & _ & E)]]; [done| |done|done].
    destruct (co_mem _ _ _ (i_chains _ _ Hi) _ _ E) as (n0 & Hn0 & Hh & _). congruence. }
  exists n'. rewrite (nf_head _ _ _ _ _ _ F). split_and!; [done|done| | |].
  - destruct (f_head _ _ _ _ _ Hf) as [[-> _]|(_ & _ & _ & (_ & _ & _ & _ & Hw') & _)]; [done|]. by intros ->.
  - destruct H3 as [H3|(j & u & r & Hu & Hr)].
    + left. destruct (nf_marked _ _ _ _ _ _ F) as [E|[[_ E]|(_ & _ & E)]]; [congruence|done|done].
    + destruct (decide (j = i)) as [->|Hj]; [|right; exists j, u, r; by rewrite (thread_before j u)].
      simplify_eq. left. pose proof (tr_mark _ _ _ _ _ _ _ Htr a r Hr) as Hm. unfold marked in Hm. by rewrite Hn' in Hm.
  - rewrite (take_frame _ _ _ _ _ Hf), H4, Hsk by done. symmetry. apply (data_frame i s s' C C' Hi Hf).
    intros b Hb. destruct (n_skip n !! 0) as [[c|]|] eqn:Es; try done. simplify_eq/=. by apply (co_ptr _ _ _ (i_chains _ _ Hi) a n 0 b Hn).
Qed.

(** What the current head points to is the least element. *)
Lemma head_first n : s_heap s !! s_head s = Some n ->
  head (replay ltb (s_log s)) = n_data <$> (mjoin (n_skip n !! 0) ≫= (s_heap s !!.)).
Proof.
  intros Hn. destruct (co_head _ _ _ (i_chains _ _ Hi)) as (n0 & Hn0 & _ & Hh). simplify_eq.
  pose proof (chain_head _ _ _ _ (co_chain _ _ _ (i_chains _ _ Hi) 0 ltac:(by exists n))) as Hc.
  unfold skip in Hc. rewrite Hn in Hc. cbn in Hc. rewrite Hc, <- (i_log _ _ Hi). cbn.
  destruct (C 0) as [|a l] eqn:El; [done|].
  destruct (co_mem _ _ _ (i_chains _ _ Hi) 0 a) as (m & Hm & _); [rewrite El; by left|].
  rewrite data_of_cons. cbn. by rewrite Hm.
Qed.

Lemma next_threads j u : s_threads s' !! j = Some u -> thread_ok s' C' j u.
Proof.
  intros Hu. destruct (decide (j = i)) as [->|Hj].
  - rewrite thread_self in Hu. injection Hu as <-. pose proof (i_threads _ _ Hi i t Ht) as [G1 G2 G3].
    assert (Hle : length (s_log s) <= length (s_log s')).
    { destruct (f_log _ _ _ _ _ Hf) as [l ->]. rewrite length_app. lia. }
    assert (Hst : t_start t' <= length (s_log s)) by (rewrite (tr_start _ _ _ _ _ _ _ Htr); destruct (t_pc t); lia).
    split; [rewrite (tr_last _ _ _ _ _ _ _ Htr); lia|apply (tr_pc _ _ _ _ _ _ _ Htr)|].
    unfold log_ok in *. rewrite (tr_op _ _ _ _ _ _ _ Htr), (tr_last _ _ _ _ _ _ _ Htr).
    destruct (tr_log _ _ _ _ _ _ _ Htr) as [(E1 & _ & E2)|(d & E0 & E1 & Ei & _ & E2 & _)]; rewrite E1, E2.
    + destruct (has_logged (t_pc t)) eqn:El; [|done]. destruct G3 as (m & Hm & Hlog). exists m.
      rewrite (tr_start _ _ _ _ _ _ _ Htr). split; [|done]. destruct (t_pc t); done || lia.
    + exists (length (s_log s)). rewrite length_app. cbn. split; [lia|]. rewrite lookup_app_r, Nat.sub_diag by lia. by rewrite E0.
  - rewrite (tr_threads _ _ _ _ _ _ _ Htr), list_lookup_insert_ne in Hu by done.
    pose proof (i_threads _ _ Hi j u Hu) as [G1 G2 G3]. split.
    + destruct (f_log _ _ _ _ _ Hf) as [l ->]. rewrite length_app. lia.
    + by apply (pc_ok_frame i s s' C C' Hi Hf).
    + unfold log_ok in *. destruct (has_logged (t_pc u)).
      * destruct G3 as (m & Hm & Hlog). exists m. split; [done|]. destruct (f_log _ _ _ _ _ Hf) as [l ->].
        by apply lookup_app_l_Some.
      * destruct (tr_log _ _ _ _ _ _ _ Htr) as [(E1 & _)|(d & E0 & E1 & _)]; rewrite E1; [done|].
        rewrite fmap_app. intros [Hin|Hin]%elem_of_app; [done|]. by apply list_elem_of_singleton in Hin.
Qed.

Lemma list_inv_next : inv s' C'.
Proof.
  destruct next_log as (L1 & L2 & L3 & L4).
  split; [apply Htr|by apply (tr_unmarked _ _ _ _ _ _ _ Htr)| |done|done|done|done|apply next_locks|apply next_linking|apply next_threads].
  intros a m Ha. destruct (f_head _ _ _ _ _ Hf) as [[_ E]|(E1 & E2 & E3 & E4 & (n & Hn & Hl) & E5)].
  - rewrite E in Ha. by apply next_old.
  - rewrite E1 in Ha. apply elem_of_cons in Ha as [[= -> ->]|Ha]; [|by apply next_old].
    rewrite E3. split; [|done]. exists n. rewrite E2. destruct (co_head _ _ _ (i_chains _ _ Hi)) as (n0 & Hn0 & Hh & _).
    simplify_eq. split_and!; [done|done| | |].
    + destruct E4 as (_ & _ & _ & _ & Hw). intros E. apply Hw. by left.
    + right. destruct (tr_swap _ _ _ _ _ _ _ Htr) as [E|[r Hr]].
      * rewrite E1 in E. apply (f_equal length) in E. cbn in E. lia.
      * exists i, t', r. split; [apply thread_self|done].
    + rewrite firstn_all. by apply head_first.
Qed.
End transition.
End invariant.
