(* ===== verification/SkiplistSteps.v ===== *)
(** * The steps of the concurrent skiplist keep its invariant

    One lemma per kind of step: moves that leave the store alone, a change
    of one node, a new node, the insertion of a node into a layer, and the
    exchange of the head. *)

From stdpp Require Import base numbers option list sorting.
From Stdlib Require Import Lia.
From S2P Require Import Prelude Skiplist SkiplistInv.

(** The knowledge of a thread at its program counter. *)
Ltac show_pc := unfold pc_ok, result_ok; cbn [t_op t_pc t_start t_last].

Section steps.
Context {T : Type} `{!Inhabited T} (ltb : T -> T -> bool) `{!Comparator ltb}.
Context (default_value : T).
Implicit Types (s : state (T := T)) (C : nat -> list nat) (t : thread (T := T)) (c : pc) (a b i j k : nat) (d : T)
  (n : node (T := T)).

(** ** Kinds of steps *)

Lemma frame_same i s s' C :
  s_heap s' = s_heap s -> s_head s' = s_head s -> s_log s' = s_log s -> s_old s' = s_old s -> frame i s C s' C.
Proof.
  intros Eh Ehd El Eo. split; rewrite ?Eh, ?Ehd, ?El, ?Eo; auto. intros a n Hn. exists n. split; [done|apply node_frame_refl].
Qed.

(** The store, the head and the log stay. *)
Lemma inv_pure s C i t c s1 :
  inv ltb s C -> s_threads s !! i = Some t ->
  s_heap s1 = s_heap s -> s_head s1 = s_head s -> s_threads s1 = s_threads s -> s_log s1 = s_log s -> s_old s1 = s_old s ->
  (forall b, b ∈ guards_of (t_pc t) -> b ∈ guards_of c) -> (forall b, linking (t_pc t) b -> linking c b) ->
  (forall b r, t_pc t <> GrowMark b r) -> has_logged c = has_logged (t_pc t) ->
  pc_ok ltb s C i
    (mk_thread (t_op t) c (match t_pc t with Idle => length (s_log s) | _ => t_start t end) (length (s_log s))) ->
  inv ltb (resume s s1 i t c) C.
Proof.
  intros Hi Ht Eh Ehd Et El Eo Hg Hl Hm Hlog Hpc.
  assert (Hf : frame i s C (resume s s1 i t c) C).
  { by apply frame_same. }
  apply (list_inv_next ltb i s _ C C t (mk_thread (t_op t) c
    (match t_pc t with Idle => length (s_log s) | _ => t_start t end) (length (s_log s))) Hi Ht).
  split; [done|cbn; by rewrite Et, El|done|done|cbn; by rewrite El|cbn; rewrite Eh, Ehd; apply Hi| | | | | |by left|left| ].
  - cbn. rewrite Eh, Ehd. apply (i_unmarked _ _ _ Hi).
  - cbn. rewrite Eh. congruence.
  - cbn. rewrite Eh. intros a n Hn Hl'. destruct (i_locks _ _ _ Hi a n i Hn Hl') as (u & Hu & Hu'). simplify_eq. auto.
  - cbn. rewrite Eh. intros a n Hn Ha Hl' Hb. destruct (i_linking _ _ _ Hi a n Hn Ha Hl') as (u & Hu & Hu'). simplify_eq. auto.
  - intros a r Ha. by destruct (Hm a r).
  - cbn. by rewrite El.
  - eapply (pc_ok_frame ltb (S i) s _ C C Hi); [by apply frame_same|lia| |done].
    pose proof (th_times _ _ _ _ _ (i_threads _ _ _ Hi i t Ht)). cbn. destruct (t_pc t); lia.
Qed.

(** One node changes. *)
Lemma inv_update s C C' i t c s1 a n f :
  inv ltb s C -> s_threads s !! i = Some t -> s_heap s !! a = Some n ->
  s_heap s1 = alter f a (s_heap s) -> s_head s1 = s_head s -> s_threads s1 = s_threads s -> s_old s1 = s_old s ->
  s_log s `prefix_of` s_log s1 ->
  node_frame i s C a n (f n) -> (forall k b, b ∈ C k -> b ∈ C' k) ->
  (forall k b, b ∈ C' k -> b ∈ C k \/ (linking c b /\ exists m, s_heap s !! b = Some m /\ n_by m = i)) ->
  (frame i s C (resume s s1 i t c) C' -> chains_ok ltb (alter f a (s_heap s)) (s_head s) C') ->
  n_marked (f n) = n_marked n \/ (a <> s_head s /\ n_head n = true) ->
  (forall b, b ∈ guards_of (t_pc t) -> b ∈ guards_of c \/ (b = a /\ n_lock (f n) = None)) ->
  (n_lock (f n) = Some i -> a ∈ guards_of c) ->
  (forall b, linking (t_pc t) b -> linking c b \/ (b = a /\ n_linked (f n) = true)) ->
  (a ∈ C 0 -> n_linked (f n) = false -> n_linked n = false) ->
  (forall b r, t_pc t = GrowMark b r -> b = a /\ n_marked (f n) = true) ->
  (frame i s C (resume s s1 i t c) C' ->
     (s_log s1 = s_log s /\ C' 0 = C 0 /\ has_logged c = has_logged (t_pc t)) \/
     (exists d, t_op t = Insert d /\ s_log s1 = s_log s ++ [(i, d)] /\ t_pc t <> Idle /\
       has_logged (t_pc t) = false /\ has_logged c = true /\
       data_of (s_heap s1) (C' 0) = set_insert ltb d (data_of (s_heap s) (C 0)) /\
       forall x, x ∈ data_of (s_heap s) (C 0) -> ltb x d = true \/ ltb d x = true)) ->
  (frame i s C (resume s s1 i t c) C' -> pc_ok ltb (resume s s1 i t c) C' i
     (mk_thread (t_op t) c (match t_pc t with Idle => length (s_log s) | _ => t_start t end) (length (s_log s1)))) ->
  inv ltb (resume s s1 i t c) C'.
Proof.
  intros Hi Ht Hn Eh Ehd Et Eo Hpre Hnf Hmono Hnew Hch Hmark Hg Hga Hl Hla Hgm Hlog Hpc.
  assert (Hlk : forall b m, alter f a (s_heap s) !! b = Some m -> (b = a /\ m = f n) \/ (b <> a /\ s_heap s !! b = Some m)).
  { intros b m Hb. destruct (decide (b = a)) as [->|Hba]; [left|right]; (split; [done|]).
    - rewrite list_lookup_alter_eq, Hn in Hb. by injection Hb as <-.
    - by rewrite list_lookup_alter_ne in Hb. }
  assert (Hf : frame i s C (resume s s1 i t c) C').
  { split; cbn; rewrite ?Eh, ?Ehd, ?Eo; auto.
    - intros b m Hb. destruct (decide (b = a)) as [->|Hba].
      + exists (f n). rewrite list_lookup_alter_eq, Hn. simplify_eq. done.
      + exists m. rewrite list_lookup_alter_ne by done. split; [done|apply node_frame_refl].
    - intros k b Hb. destruct (Hnew k b Hb) as [?|[_ ?]]; auto. }
  apply (list_inv_next ltb i s _ C C' t (mk_thread (t_op t) c
    (match t_pc t with Idle => length (s_log s) | _ => t_start t end) (length (s_log s1))) Hi Ht).
  split; [done|cbn; by rewrite Et|done|done|done|cbn; rewrite Eh, Ehd; auto| | | | | |by left|by apply Hlog|by apply Hpc].
  - cbn. rewrite Eh, Ehd. intros b m [[-> ->]|[_ Hb]]%Hlk; [|by apply (i_unmarked _ _ _ Hi)].
    rewrite (nf_head _ _ _ _ _ _ Hnf). intros Hor. destruct Hmark as [->|[H1 H2]]; [by eapply (i_unmarked _ _ _ Hi)|].
    destruct Hor; congruence.
  - cbn. rewrite Eh. intros b m [[-> ->]|[_ Hb]]%Hlk; congruence.
  - cbn. rewrite Eh. intros b m [[-> ->]|[Hba Hb]]%Hlk Hlb; [by apply Hga|].
    destruct (i_locks _ _ _ Hi b m i Hb Hlb) as (u & Hu & Hu'). simplify_eq. destruct (Hg b Hu') as [?|[-> _]]; done.
  - cbn. rewrite Eh. intros b m Hbm Hb Hlb Hby. destruct (Hnew 0 b Hb) as [Hb0|[? _]]; [|done].
    apply Hlk in Hbm as [[-> ->]|[Hba Hbm]].
    + rewrite (nf_by _ _ _ _ _ _ Hnf) in Hby. destruct (i_linking _ _ _ Hi a n Hn Hb0 (Hla Hb0 Hlb)) as (u & Hu & Hu').
      simplify_eq. destruct (Hl a Hu') as [?|[_ E]]; congruence.
    + destruct (i_linking _ _ _ Hi b m Hbm Hb0 Hlb) as (u & Hu & Hu'). simplify_eq. destruct (Hl b Hu') as [?|[-> _]]; done.
  - intros b r Hb. destruct (Hgm b r Hb) as [-> Hm]. cbn. unfold marked. by rewrite Eh, list_lookup_alter_eq, Hn.
Qed.

(** ** The layers *)

Section keep.
Context (h h' : list (node (T := T))) (hd : nat) (C : nat -> list nat) (Hc : chains_ok ltb h hd C).
Context (Hn : forall a n, h !! a = Some n ->
  exists n', h' !! a = Some n' /\ n_data n' = n_data n /\ n_head n' = n_head n /\ height n' = height n).

Lemma dlt_keep a b : dlt ltb h a b -> dlt ltb h' a b.
Proof.
  intros (n & m & H1 & H2 & H3). destruct (Hn a n H1) as (n' & E1 & E2 & _), (Hn b m H2) as (m' & E3 & E4 & _).
  exists n', m'. by rewrite E2, E4.
Qed.

Lemma tall_keep a k : a = hd -> tall h' a k <-> tall h a k.
Proof.
  intros ->. destruct (co_head _ _ _ _ Hc) as (n & H1 & _). destruct (Hn hd n H1) as (n' & E1 & _ & _ & E2).
  split; intros (m & Hm & Hk); simplify_eq; eexists; (split; [done|lia]).
Qed.

(** The pointers of the layers stay and new ones lead into them. *)
Lemma chains_keep :
  (forall k a, a = hd \/ a ∈ C k -> skip h' a k = skip h a k) ->
  (forall a n k b, h' !! a = Some n -> n_skip n !! k = Some (Some b) ->
     skip h a k = Some (Some b) \/ (b ∈ C k /\ (n_head n = false -> dlt ltb h a b))) ->
  chains_ok ltb h' hd C.
Proof.
  intros Hs Hp. destruct Hc as [H1 H2 H3 H4 H5 H6 H7]. split.
  - destruct H1 as (n & E1 & E2 & E3). destruct (Hn hd n E1) as (n' & E4 & _ & E5 & E6). exists n'. by rewrite E5, E6.
  - intros k Hk. apply (chain_ext h); [intros x Hx; by apply Hs|]. apply H2. by apply tall_keep.
  - intros k Hk. apply H3. by rewrite <- tall_keep.
  - intros k a Ha. destruct (H4 k a Ha) as (n & E1 & E2 & E3). destruct (Hn a n E1) as (n' & E4 & _ & E5 & E6).
    exists n'. by rewrite E5, E6.
  - done.
  - intros k. eapply sorted_mono; [|apply H6]. apply dlt_keep.
  - intros a n k b Ha Hb. destruct (Hp a n k b Ha Hb) as [E|[E1 E2]].
    + unfold skip in E. destruct (h !! a) as [m|] eqn:Em; [|done]. cbn in E. destruct (H7 a m k b Em E) as [E1 E2].
      split; [done|]. intros Hf. apply dlt_keep, E2. destruct (Hn a m Em) as (n' & E4 & _ & E5 & _). congruence.
    + split; [done|]. intros Hf. by apply dlt_keep, E2.
Qed.
End keep.

(** A change of flags. *)
Lemma chains_flags h hd C a n f :
  chains_ok ltb h hd C -> h !! a = Some n -> n_data (f n) = n_data n -> n_head (f n) = n_head n -> n_skip (f n) = n_skip n ->
  chains_ok ltb (alter f a h) hd C.
Proof.
  intros Hc Ha E1 E2 E3.
  assert (Hs : forall b k, skip (alter f a h) b k = skip h b k).
  { intros b k. unfold skip. destruct (decide (b = a)) as [->|Hb].
    - rewrite list_lookup_alter_eq, Ha. cbn. by rewrite E3.
    - by rewrite list_lookup_alter_ne. }
  apply (chains_keep h); [done| |done|].
  - intros b m Hb. destruct (decide (b = a)) as [->|Hba].
    + exists (f n). rewrite list_lookup_alter_eq, Ha. simplify_eq. unfold height. by rewrite E3.
    + exists m. by rewrite list_lookup_alter_ne.
  - intros b m k x Hb Hx. left. rewrite <- Hs. unfold skip. by rewrite Hb.
Qed.

(** Linking [a] into layer [k] between [l1], which ends with [pred], and
    [l2]. *)
Section link.
Context (h : list (node (T := T))) (hd : nat) (C : nat -> list nat) (Hc : chains_ok ltb h hd C).
Context (k pred a : nat) (l1 l2 : list nat) (n : node (T := T)).
Context (Hl : C k = l1 ++ l2) (Hpos : (pred = hd /\ l1 = []) \/ exists l0, l1 = l0 ++ [pred]) (Htall : tall h pred k).
Context (Ha : h !! a = Some n) (Hhd : n_head n = false) (Hht : k < height n).
Context (Hpred : skip h pred k = Some (head l2)) (Hnext : skip h a k = Some (head l2)).
Context (Hin : forall l, l < k -> a ∈ C l) (Hout : forall l, k <= l -> a ∉ C l).
Context (Hbef : forall b, last l1 = Some b -> dlt ltb h b a) (Haft : forall b, head l2 = Some b -> dlt ltb h a b).

Definition linked_in (l : nat) : list nat := if decide (l = k) then l1 ++ a :: l2 else C l.
Let h' := alter (set_skip k (Some a)) pred h.

Lemma link_keep b m : h !! b = Some m ->
  exists m', h' !! b = Some m' /\ n_data m' = n_data m /\ n_head m' = n_head m /\ height m' = height m.
Proof.
  intros Hb. unfold h'. destruct (decide (b = pred)) as [->|Hne].
  - exists (set_skip k (Some a) m). rewrite list_lookup_alter_eq, Hb. split_and!; try done. apply length_insert.
  - exists m. by rewrite list_lookup_alter_ne.
Qed.

Lemma link_skip b l : ~ (b = pred /\ l = k) -> skip h' b l = skip h b l.
Proof.
  intros Hne. unfold skip, h'. destruct (decide (b = pred)) as [->|Hb]; [|by rewrite list_lookup_alter_ne].
  rewrite list_lookup_alter_eq. destruct (h !! pred); [|done]. cbn. rewrite list_lookup_insert_ne; [done|]. intros ->. by apply Hne.
Qed.

Lemma link_pred_skip : skip h' pred k = Some (Some a).
Proof.
  destruct Htall as (m & Hm & Hk). unfold skip, h'. rewrite list_lookup_alter_eq, Hm. cbn. by apply list_lookup_insert_eq.
Qed.

Lemma hd_tall l : C l <> [] -> tall h hd l.
Proof.
  intros Hne. destruct (co_head _ _ _ _ Hc) as (m & Hm & _). destruct (decide (l < height m)) as [Hlt|Hge]; [by exists m|].
  exfalso. apply Hne, (co_above _ _ _ _ Hc). intros (m' & Hm' & ?). by simplify_eq.
Qed.

Lemma elem_linked_in l b : b ∈ linked_in l <-> b ∈ C l \/ (l = k /\ b = a).
Proof.
  clear -Hl. unfold linked_in. destruct (decide (l = k)) as [->|]; [|intuition]. rewrite Hl, !elem_of_app, elem_of_cons. intuition.
Qed.

Lemma link_ne : a <> pred /\ a <> hd.
Proof.
  destruct (co_head _ _ _ _ Hc) as (m & Hm & Hh & _). split; [|intros ->; congruence]. intros ->.
  destruct Hpos as [[-> _]|[l0 ->]]; [congruence|]. apply (Hout k); [done|]. rewrite Hl, !elem_of_app. left; right. by left.
Qed.

Lemma link_chain l : tall h hd l -> chain h' l hd (linked_in l).
Proof.
  intros Htl. pose proof (co_chain _ _ _ _ Hc l Htl) as Hch. unfold linked_in. destruct (decide (l = k)) as [->|Hne].
  2: { apply (chain_ext h); [|done]. intros x _. apply link_skip. by intros [_ ?]. }
  destruct link_ne as [Hap Hah]. pose proof (Hout k ltac:(done)) as Hak.
  assert (Hnd : NoDup (C k)) by exact (sorted_NoDup ltb h _ (co_sorted _ _ _ _ Hc k)).
  assert (Hhd' : hd ∉ C k).
  { intros Hx. destruct (co_mem _ _ _ _ Hc _ _ Hx) as (m & Hm & Hm' & _). destruct (co_head _ _ _ _ Hc) as (m' & ? & ? & _). congruence. }
  assert (Hsa : skip h' a k = skip h pred k) by (rewrite link_skip by (intros [? _]; done); congruence).
  rewrite Hl in Hch, Hnd, Hhd', Hak. destruct Hpos as [[E1 E2]|[l0 E2]]; rewrite E2 in Hch, Hnd, Hhd', Hak |- *.
  - cbn in Hch, Hnd, Hhd', Hak |- *. apply (chain_insert_head h); [done|rewrite <- E1; apply link_pred_skip|by rewrite <- E1|].
    intros y Hy. apply link_skip. intros [Ey _]. congruence.
  - rewrite <- app_assoc in Hch, Hnd, Hhd', Hak |- *. cbn in Hch, Hnd, Hhd', Hak |- *.
    apply (chain_insert h); try done; [apply link_pred_skip|]. intros y Hy _. apply link_skip. by intros [? _].
Qed.

Lemma chains_link : chains_ok ltb h' hd linked_in.
Proof.
  assert (Hd : forall x y, dlt ltb h x y -> dlt ltb h' x y) by (intros x y; by apply (dlt_keep h h' link_keep)).
  assert (Hkt : tall h hd k).
  { destruct Hpos as [[E1 _]|[l0 E2]]; [by rewrite <- E1|]. apply hd_tall. rewrite Hl, E2. by destruct l0. }
  split.
  - destruct (co_head _ _ _ _ Hc) as (m & Hm & G1 & G2). destruct (link_keep hd m Hm) as (m' & Hm' & _ & G3 & G4).
    exists m'. by rewrite G3, G4.
  - intros l Htl. apply link_chain. by apply (tall_keep h h' hd C Hc link_keep hd l).
  - intros l Htl. unfold linked_in. rewrite (tall_keep h h' hd C Hc link_keep hd l) in Htl by done.
    destruct (decide (l = k)) as [->|]; [done|]. by apply (co_above _ _ _ _ Hc).
  - intros l b [Hb|[-> ->]]%elem_linked_in.
    + destruct (co_mem _ _ _ _ Hc l b Hb) as (m & Hm & G1 & G2). destruct (link_keep b m Hm) as (m' & Hm' & _ & G3 & G4).
      exists m'. by rewrite G3, G4.
    + destruct (link_keep a n Ha) as (m' & Hm' & _ & G3 & G4). exists m'. by rewrite G3, G4.
  - intros l b [Hb|[E ->]]%elem_linked_in; apply elem_linked_in; left; [by apply (co_sub _ _ _ _ Hc)|]. apply Hin. lia.
  - intros l. eapply sorted_mono; [apply Hd|]. pose proof (co_sorted _ _ _ _ Hc l) as Hso. unfold linked_in.
    destruct (decide (l = k)) as [->|]; [|done]. rewrite Hl in Hso. by apply sorted_insert.
  - intros b m l x Hb Hx. assert (Hsk : skip h' b l = Some (Some x)) by (unfold skip; by rewrite Hb).
    destruct (decide (b = pred /\ l = k)) as [[Eb ->]|Hne].
    + rewrite Eb, link_pred_skip in Hsk. injection Hsk as <-. split; [apply elem_linked_in; auto|]. intros Hm.
      destruct Hpos as [[E1 E2]|[l0 E2]]; [|rewrite Eb; apply Hd, Hbef; by rewrite E2, last_snoc].
      destruct (co_head _ _ _ _ Hc) as (m0 & Hm0 & G1 & _). destruct (link_keep hd m0 Hm0) as (m' & Hm' & _ & G3 & _). congruence.
    + rewrite link_skip in Hsk by done. unfold skip in Hsk. destruct (h !! b) as [m0|] eqn:Em; [|done]. cbn in Hsk.
      destruct (co_ptr _ _ _ _ Hc b m0 l x Em Hsk) as [G1 G2]. split; [apply elem_linked_in; auto|]. intros Hm.
      destruct (link_keep b m0 Em) as (m' & Hm' & _ & G3 & _). apply Hd, G2. congruence.
Qed.
End link.

Lemma create_skip ht x isHead i k o : n_skip (create (T := T) ht x isHead i) !! k = Some o -> k < ht /\ o = None.
Proof. cbn. intros [-> Hk]%lookup_replicate. done. Qed.

Lemma chains_append h hd C ht x isHead i :
  chains_ok ltb h hd C -> chains_ok ltb (h ++ [create ht x isHead i]) hd C.
Proof.
  intros Hc. apply (chains_keep h); [done| | |].
  - intros a n Ha. exists n. split; [by apply lookup_app_l_Some|done].
  - intros k a Ha. assert (exists n, h !! a = Some n) as [n Hn].
    { destruct Ha as [->|Ha]; [destruct (co_head _ _ _ _ Hc) as (n & Hn & _)|destruct (co_mem _ _ _ _ Hc k a Ha) as (n & Hn & _)]; eauto. }
    unfold skip. by rewrite (lookup_app_l_Some _ _ _ _ Hn), Hn.
  - intros a n k b [Ha|[_ Ha]]%lookup_app_Some Hb; [left; unfold skip; by rewrite Ha|].
    apply list_lookup_singleton_Some in Ha as [_ <-]. by apply create_skip in Hb as [_ ?].
Qed.

(** A new node. *)
Lemma inv_append s C i t c ht x isHead s1 :
  inv ltb s C -> s_threads s !! i = Some t -> s_heap s1 = s_heap s ++ [create ht x isHead i] ->
  s_head s1 = s_head s -> s_threads s1 = s_threads s -> s_log s1 = s_log s -> s_old s1 = s_old s ->
  guards_of c = guards_of (t_pc t) -> (forall b, linking (t_pc t) b -> linking c b) ->
  (forall b r, t_pc t <> GrowMark b r) -> has_logged c = has_logged (t_pc t) ->
  (frame i s C (resume s s1 i t c) C -> pc_ok ltb (resume s s1 i t c) C i
     (mk_thread (t_op t) c (match t_pc t with Idle => length (s_log s) | _ => t_start t end) (length (s_log s)))) ->
  inv ltb (resume s s1 i t c) C.
Proof.
  intros Hi Ht Eh Ehd Et El Eo Hg Hl Hm Hlog Hpc.
  assert (Hlk : forall b m, s_heap s1 !! b = Some m -> s_heap s !! b = Some m \/ (s_heap s !! b = None /\ m = create ht x isHead i)).
  { rewrite Eh. intros b m [Hb|[Hle Hb]]%lookup_app_Some; [by left|right].
    apply list_lookup_singleton_Some in Hb as [_ <-]. split; [by apply lookup_ge_None|done]. }
  assert (Hf : frame i s C (resume s s1 i t c) C).
  { split; cbn; rewrite ?Ehd, ?El, ?Eo; auto. intros a n Hn. exists n. rewrite Eh.
    split; [by apply lookup_app_l_Some|apply node_frame_refl]. }
  apply (list_inv_next ltb i s _ C C t (mk_thread (t_op t) c
    (match t_pc t with Idle => length (s_log s) | _ => t_start t end) (length (s_log s))) Hi Ht).
  split; [done|cbn; by rewrite Et, El|done|done|cbn; by rewrite El| | | | | | |by left|left; cbn; by rewrite El|by apply Hpc].
  - cbn. rewrite Eh, Ehd. by apply chains_append, Hi.
  - cbn. rewrite Ehd. intros b m [Hb|[Hb ->]]%Hlk; [by apply (i_unmarked _ _ _ Hi)|done].
  - cbn. intros b m [Hb|[Hb ->]]%Hlk; [congruence|done].
  - cbn. intros b m [Hb|[Hb ->]]%Hlk Hl'; [|done]. destruct (i_locks _ _ _ Hi b m i Hb Hl') as (u & Hu & Hu').
    simplify_eq. by rewrite Hg.
  - cbn. intros b m [Hb|[Hb ->]]%Hlk Ha Hl' Hby.
    + destruct (i_linking _ _ _ Hi b m Hb Ha Hl') as (u & Hu & Hu'). simplify_eq. auto.
    + destruct (co_mem _ _ _ _ (i_chains _ _ _ Hi) 0 b Ha) as (n & Hn & _). congruence.
  - intros a r Ha. by destruct (Hm a r).
Qed.

(** ** Loads *)

Lemma ltb_asym x y : ltb x y = true -> ltb y x = false.
Proof. intros H. destruct (ltb y x) eqn:E; [|done]. pose proof (cmp_trans x y x H E) as E'. by rewrite cmp_irrefl in E'. Qed.

(** ** The abstract set *)

(** Every logged insertion added its datum. *)
Lemma set_insert_elem e l x :
  (forall y, y ∈ l -> ltb y e = true \/ ltb e y = true) -> x ∈ set_insert ltb e l <-> x = e \/ x ∈ l.
Proof.
  induction l as [|y l IH]; intros Hl; cbn; [by rewrite elem_of_cons|]. destruct (ltb y e) eqn:E1.
  - rewrite !elem_of_cons, IH by (intros z Hz; apply Hl; by right). tauto.
  - destruct (Hl y ltac:(by left)) as [?|E2]; [congruence|]. rewrite E2, !elem_of_cons. tauto.
Qed.

Lemma replay_elem s C m x : inv ltb s C -> x ∈ replay ltb (take m (s_log s)) <-> x ∈ (take m (s_log s)).*2.
Proof.
  intros Hi. induction m as [|m IH]; [done|]. destruct (decide (m < length (s_log s))) as [Hm|Hm].
  - destruct (lookup_lt_is_Some_2 (s_log s) m Hm) as [[j e] Hj]. rewrite (take_S_r _ _ _ Hj). unfold replay.
    rewrite foldl_app. cbn. fold (replay ltb (take m (s_log s))).
    rewrite set_insert_elem, IH by (intros y; by eapply (i_new _ _ _ Hi)). rewrite fmap_app, elem_of_app. cbn.
    rewrite list_elem_of_singleton. tauto.
  - rewrite !take_ge in * by lia. done.
Qed.

Lemma set_insert_sorted e l :
  StronglySorted (fun x y => ltb x y = true) l -> StronglySorted (fun x y => ltb x y = true) (set_insert ltb e l).
Proof.
  induction 1 as [|x l Hs IH Hx]; [repeat constructor|]. cbn. destruct (ltb x e) eqn:E1.
  - constructor; [done|]. clear IH. induction l as [|y l IHl]; cbn; [by repeat constructor|].
    inversion Hx as [|? ? Hy Hl]; subst. inversion Hs as [|? ? Hs' _]; subst.
    destruct (ltb y e) eqn:E2; [constructor; [done|by apply IHl]|]. by destruct (ltb e y); repeat constructor.
  - destruct (ltb e x) eqn:E2; [|by constructor]. constructor; [by constructor|]. constructor; [done|].
    eapply Forall_impl; [done|]. intros y Hy. exact (cmp_trans _ _ _ E2 Hy).
Qed.

Lemma replay_strict log : StronglySorted (fun x y => ltb x y = true) (replay ltb log).
Proof.
  unfold replay. induction log as [|x log IH] using rev_ind; [constructor|]. rewrite foldl_app. by apply set_insert_sorted.
Qed.

Lemma first_not_less_spec d l :
  StronglySorted (fun x y => ltb x y = true) l ->
  match first_not_less ltb d l with
  | Some x => x ∈ l /\ ltb x d = false /\ forall y, y ∈ l -> ltb y d = false -> y = x \/ ltb x y = true
  | None => forall y, y ∈ l -> ltb y d = true
  end.
Proof.
  induction 1 as [|x l Hs IH Hx]; cbn; [by intros y Hy%elem_of_nil|]. destruct (ltb x d) eqn:E.
  - destruct (first_not_less ltb d l) as [z|].
    + destruct IH as (H1 & H2 & H3). split; [by right|]. split; [done|]. intros y [->|Hy]%elem_of_cons Hyd; [congruence|auto].
    + intros y [->|Hy]%elem_of_cons; auto.
  - split; [by left|]. split; [done|]. intros y [->|Hy]%elem_of_cons _; [by left|right]. rewrite Forall_forall in Hx. auto.
Qed.

Section read.
Context s C (Hi : inv ltb s C).
Let Hc := i_chains _ _ _ Hi.

Lemma load_ok st k pred d node :
  pred_ok ltb s C st k pred d -> skip (s_heap s) pred k = Some node ->
  forall b, node = Some b -> b ∈ C k /\ tall (s_heap s) b k /\ before ltb (s_heap s) pred b.
Proof.
  intros [_ Hp] Hs b ->. unfold skip in Hs. destruct (s_heap s !! pred) as [n|] eqn:En; [|done]. cbn in Hs.
  destruct (co_ptr _ _ _ _ Hc pred n k b En Hs) as [H1 H2]. destruct (co_mem _ _ _ _ Hc k b H1) as (m & Hm & Hm1 & Hm2).
  split; [done|]. split; [by exists m|]. exists n, m. split_and!; [done..|]. destruct (n_head n); [by left|right].
  destruct (H2 eq_refl) as (n' & m' & E1 & E2 & E3). by simplify_eq.
Qed.

Lemma greater_ok (h : list (node (T := T))) d o : greater ltb h d o = true -> exists b, o = Some b /\ below_d ltb h b d.
Proof. destruct o as [b|]; [|done]. cbn. destruct (h !! b) as [n|] eqn:E; [|done]. intros H. exists b. split; [done|]. by exists n. Qed.

Lemma less_ok (h : list (node (T := T))) d b : less ltb h d (Some b) = true -> above_d ltb h b d.
Proof. cbn. destruct (h !! b) as [n|] eqn:E; [|done]. intros H. by exists n. Qed.

Lemma same_ok k d o :
  (forall b, o = Some b -> b ∈ C k) -> greater ltb (s_heap s) d o = false -> less ltb (s_heap s) d o = false ->
  exists b, o = Some b /\ b ∈ C 0 /\ same_d ltb (s_heap s) b d.
Proof.
  intros Hm. destruct o as [b|]; [|done]. cbn. destruct (co_mem _ _ _ _ Hc k b (Hm b eq_refl)) as (n & Hn & _).
  rewrite Hn. intros H1 H2. exists b. split; [done|]. split; [|by exists n].
  specialize (Hm b eq_refl). clear -Hm Hc. induction k as [|k IH]; [done|]. by apply IH, (co_sub _ _ _ _ Hc).
Qed.

Lemma before_trans (h : list (node (T := T))) a b x : before ltb h a b -> before ltb h b x -> before ltb h a x.
Proof.
  intros (n & m & H1 & H2 & H3 & H4) (m' & o & H5 & H6 & H7 & H8). simplify_eq. exists n, o. split_and!; [done..|].
  destruct H4 as [H4|H4]; [by left|]. destruct H8 as [H8|H8]; [congruence|]. right. exact (cmp_trans _ _ _ H4 H8).
Qed.

Lemma pred_ok_down st k a d : pred_ok ltb s C st (S k) a d -> pred_ok ltb s C st k a d.
Proof.
  intros [(n & Hn & Hk) H]. split; [exists n; split; [done|lia]|]. destruct H as [[H1 H2]|H]; [|by right].
  left. split; [by apply (co_sub _ _ _ _ Hc)|done].
Qed.

(** ** Positions *)

Lemma first_app d l1 l2 :
  Forall (fun x => ltb x d = true) l1 -> first_not_less ltb d (l1 ++ l2) = first_not_less ltb d l2.
Proof. induction 1 as [|x l Hx _ IH]; [done|]. cbn. by rewrite Hx. Qed.

Lemma first_head d l : (forall x, head l = Some x -> ltb x d = false) -> first_not_less ltb d l = head l.
Proof. destruct l as [|x l]; [done|]. intros H. cbn. by rewrite H. Qed.

Lemma data_of_app (h : list (node (T := T))) l1 l2 : data_of h (l1 ++ l2) = data_of h l1 ++ data_of h l2.
Proof. induction l1 as [|a l IH]; [done|]. cbn [app]. rewrite !data_of_cons, IH. by destruct (h !! a). Qed.

Lemma data_of_elem (h : list (node (T := T))) l x : x ∈ data_of h l <-> exists a n, a ∈ l /\ h !! a = Some n /\ n_data n = x.
Proof.
  unfold data_of. rewrite list_elem_of_omap. split.
  - intros (a & Ha & Hx). destruct (h !! a) as [n|] eqn:E; [|done]. injection Hx as <-. by exists a, n.
  - intros (a & n & Ha & Hn & <-). exists a. by rewrite Hn.
Qed.

(** The data before a node of a layer are less than its own. *)
Lemma prefix_below k l1 a l2 n :
  C k = l1 ++ a :: l2 -> s_heap s !! a = Some n -> Forall (fun x => ltb x (n_data n) = true) (data_of (s_heap s) l1).
Proof.
  intros E Hn. pose proof (co_sorted _ _ _ _ Hc k) as Hs. rewrite E in Hs. apply Forall_forall. intros x Hx.
  apply data_of_elem in Hx as (b & m & Hb & Hm & <-).
  destruct (StronglySorted_app_1_elem_of _ _ _ b a Hs Hb ltac:(by left)) as (n' & m' & E1 & E2 & E3). by simplify_eq.
Qed.

Lemma position_now st d o :
  st <= length (s_log s) -> (forall a, o = Some a -> a ∈ C 0) ->
  first_not_less ltb d (data_of (s_heap s) (C 0)) = n_data <$> (o ≫= (s_heap s !!.)) ->
  position_ok ltb s C st (length (s_log s)) d o.
Proof.
  intros Hst Ho Hd. split; [done|]. exists (length (s_log s)). split; [lia|]. by rewrite firstn_all, <- (i_log _ _ _ Hi).
Qed.

Lemma position_same st d b :
  st <= length (s_log s) -> b ∈ C 0 -> same_d ltb (s_heap s) b d -> position_ok ltb s C st (length (s_log s)) d (Some b).
Proof.
  intros Hst Hb (n & Hn & H1 & H2). apply position_now; [done|by intros a [= <-]|].
  apply list_elem_of_split in Hb as (l1 & l2 & E). rewrite E, data_of_app, first_app.
  - rewrite data_of_cons, Hn. cbn. by rewrite H1, Hn.
  - eapply Forall_impl; [by eapply prefix_below|]. intros x Hx. cbn in Hx. destruct (ltb x d) eqn:E1; [done|].
    pose proof (cmp_weak x d (n_data n) E1 H2). congruence.
Qed.

Lemma not_below_head d (o : option nat) l :
  (forall b, o = Some b -> above_d ltb (s_heap s) b d) -> l = n_data <$> (o ≫= (s_heap s !!.)) ->
  forall x, l = Some x -> ltb x d = false.
Proof.
  intros Ha -> x Hx. destruct o as [b|]; [|done]. destruct (Ha b eq_refl) as (n & Hn & Hd). cbn in Hx. rewrite Hn in Hx.
  injection Hx as <-. by apply ltb_asym.
Qed.

(** Layer 0 of a node before the datum leads behind it. *)
Lemma position_next st pred d node :
  st <= length (s_log s) -> pred_ok ltb s C st 0 pred d -> skip (s_heap s) pred 0 = Some node ->
  less ltb (s_heap s) d node = true -> position_ok ltb s C st (length (s_log s)) d node.
Proof.
  intros Hst Hp Hs Hl. pose proof (load_ok st 0 pred d node Hp Hs) as Hb.
  assert (Ha : forall b, node = Some b -> above_d ltb (s_heap s) b d) by (intros b ->; by apply less_ok).
  assert (Hd : forall l, head (data_of (s_heap s) l) = n_data <$> (head l ≫= (s_heap s !!.)) \/ exists a, head l = Some a /\ s_heap s !! a = None).
  { intros [|a l]; [by left|]. rewrite data_of_cons. cbn. destruct (s_heap s !! a) eqn:E; [by left|right; eauto]. }
  destruct Hp as [_ [[Hp1 Hp2]|[->|(m & Hm & Hle)]]].
  - apply position_now; [done|intros a E; by apply Hb|]. apply list_elem_of_split in Hp1 as (l1 & l2 & E).
    assert (Ht : tall (s_heap s) (s_head s) 0) by (destruct (co_head _ _ _ _ Hc) as (n & ? & ? & ?); by exists n).
    pose proof (co_chain _ _ _ _ Hc 0 Ht) as Hch. rewrite E in Hch. apply chain_next in Hch as [Hn _]. rewrite Hs in Hn. injection Hn as ->.
    destruct Hp2 as (n & Hn' & Hnd). rewrite E, (cons_middle pred l1 l2), app_assoc, data_of_app, first_app.
    + destruct (Hd l2) as [E2|(a & E2 & E3)].
      * rewrite first_head; [done|]. by apply (not_below_head d (head l2)).
      * destruct (Hb a E2) as (Hb1 & _). destruct (co_mem _ _ _ _ Hc 0 a Hb1) as (? & ? & _). congruence.
    + rewrite data_of_app, data_of_cons, Hn'. apply Forall_app. split; [|by constructor].
      eapply Forall_impl; [by eapply prefix_below|]. intros x Hx. cbn in Hx. exact (cmp_trans _ _ _ Hx Hnd).
  - apply position_now; [done|intros a E; by apply Hb|]. unfold skip in Hs.
    destruct (s_heap s !! s_head s) as [n|] eqn:En; [|done]. cbn in Hs.
    pose proof (head_first ltb s C Hi n En) as Hh. rewrite Hs in Hh. cbn in Hh. rewrite (i_log _ _ _ Hi), first_head; [done|].
    by apply (not_below_head d node).
  - split; [intros a E; by apply Hb|]. destruct (i_old _ _ _ Hi pred m Hm) as [(n & Hn & _ & _ & _ & Hh) Hml].
    exists m. split; [lia|]. unfold skip in Hs. rewrite Hn in Hs. cbn in Hs. rewrite Hs in Hh. cbn in Hh.
    rewrite first_head; [done|]. by apply (not_below_head d node).
Qed.
End read.

(** ** Searching *)

Lemma getHeight_from_bounds below k fuel : k < k + fuel -> k < getHeight_from below k fuel <= k + fuel.
Proof.
  revert k. induction fuel as [|fuel IH]; intros k Hk; [lia|]. cbn. destruct (below k); [lia|].
  destruct fuel as [|fuel]; [cbn; lia|]. specialize (IH (S k)). lia.
Qed.

Lemma getHeight_bounds below mx : 0 < mx -> 0 < getHeight below mx <= mx.
Proof. intros H. unfold getHeight. pose proof (getHeight_from_bounds below 0 mx). lia. Qed.

Section search.
Context s C (Hi : inv ltb s C) (st : nat) (d : T) (Hst : st <= length (s_log s)).
Implicit Types (preds : list nat) (succs : list (option nat)).

Definition found_ok layer (found : option nat) succs : Prop :=
  match found with
  | Some b => b ∈ C 0 /\ same_d ltb (s_heap s) b d
  | None => forall l o, succs !! l = Some o -> succ_ok ltb s C (layer + l) o d
  end.

(** The next value of foundNode. *)
Lemma found_next layer pred node found succs :
  pred_ok ltb s C st layer pred d -> skip (s_heap s) pred layer = Some node -> greater ltb (s_heap s) d node = false ->
  found_ok (S layer) found succs ->
  let found' := match found with Some b => Some b | None => if less ltb (s_heap s) d node then None else node end in
  found_ok layer found' ((match found' with Some b => Some b | None => node end) :: succs).
Proof.
  intros Hp Hs Hg Hfo. pose proof (load_ok s C Hi st layer pred d node Hp Hs) as Hb. destruct found as [b|]; [done|]. cbn.
  destruct (less ltb (s_heap s) d node) eqn:El.
  - intros l o Ho. destruct l as [|l]; [|rewrite Nat.add_succ_r; by apply (Hfo l)]. injection Ho as <-. rewrite Nat.add_0_r.
    destruct node as [b|]; [|done]. split; [by apply Hb|by apply less_ok].
  - destruct (same_ok s C Hi layer d node) as (b & -> & H1 & H2); [intros b E; by apply Hb|done|done|done].
Qed.

Lemma find_ok i layer pred node found preds succs below now o :
  op_data o = d -> is_insert o -> st <= now <= length (s_log s) ->
  pred_ok ltb s C st layer pred d -> length succs = length preds ->
  (forall l a, preds !! l = Some a -> pred_ok ltb s C st (S layer + l) a d) ->
  descending ltb (s_heap s) (pred :: preds) -> found_ok (S layer) found succs ->
  skip (s_heap s) pred layer = Some node ->
  pc_ok ltb s C i (mk_thread o (find_step ltb (s_heap s) d layer pred node found preds succs below) st now).
Proof.
  intros Eo Ho Hnow Hp Hlen Hps Hds Hfo Hs. pose proof (load_ok s C Hi st layer pred d node Hp Hs) as Hb. unfold find_step.
  destruct (greater ltb (s_heap s) d node) eqn:Eg.
  - apply greater_ok in Eg as (a & -> & Hbel). destruct (Hb a eq_refl) as (H1 & H2 & H3). show_pc.
    rewrite Eo. split_and!; [done| |done|done| |done].
    + split; [done|]. by left.
    + destruct preds as [|q preds]; [done|]. destruct Hds as [Hq Hds]. split; [|done]. right. destruct Hq as [->|Hq]; [done|].
      by eapply before_trans.
  - pose proof (found_next layer pred node found succs Hp Hs Eg Hfo) as Hf. cbn zeta in Hf.
    set (found' := match found with Some b => Some b | None => if less ltb (s_heap s) d node then None else node end) in *.
    set (succs' := (match found' with Some b => Some b | None => node end) :: succs) in *.
    assert (Hps' : forall l a, (pred :: preds) !! l = Some a -> pred_ok ltb s C st (layer + l) a d).
    { intros [|l] a Ha; [injection Ha as <-; by rewrite Nat.add_0_r|]. rewrite Nat.add_succ_r. by apply (Hps l). }
    destruct layer as [|layer].
    + destruct found' as [b|] eqn:Ef; show_pc; rewrite Eo; [done|].
      split_and!; [done| |split; [split; [constructor|intros a Ha; by apply elem_of_nil in Ha]|]|lia|intros; lia].
      * split; [cbn; by rewrite Hlen|by apply getHeight_bounds; cbn; lia|done|done|done].
      * intros a. split; [intros Ha; by apply elem_of_nil in Ha|intros (l & Hl & _); lia].
    + show_pc. rewrite Eo. split_and!; [done| |cbn; lia|done|split; [by left|done]|done].
      by eapply pred_ok_down.
Qed.
End search.

Section lookup.
Context s C (Hi : inv ltb s C) (st : nat) (d : T) (Hst : st <= length (s_log s)).

Lemma down_ok i o ht pred node :
  op_data o = d -> is_lookup o -> pred_ok ltb s C st ht pred d -> skip (s_heap s) pred ht = Some node ->
  pc_ok ltb s C i (mk_thread o (down_step ltb (s_heap s) d ht pred node) st (length (s_log s))).
Proof.
  intros Eo Ho Hp Hs. pose proof (load_ok s C Hi st ht pred d node Hp Hs) as Hb. unfold down_step.
  destruct (less ltb (s_heap s) d node) eqn:El.
  - destruct ht as [|ht]; show_pc; rewrite Eo; (split; [done|]).
    + by eapply position_next.
    + by eapply pred_ok_down.
  - destruct (greater ltb (s_heap s) d node) eqn:Eg.
    + apply greater_ok in Eg as (a & -> & Hbel). destruct (Hb a eq_refl) as (H1 & H2 & H3).
      show_pc. rewrite Eo. split; [done|]. split; [done|]. by left.
    + destruct (same_ok s C Hi ht d node) as (b & -> & H1 & H2); [intros b E; by apply Hb|done|done|].
      show_pc. rewrite Eo. split; [done|]. by apply position_same.
Qed.
End lookup.

(** ** The steps of a thread *)

Section own.
Context s C (Hi : inv ltb s C) i t (Ht : s_threads s !! i = Some t).
Let d := op_data (t_op t).
Let st := t_start t.

Lemma own_pc c : t_pc t = c -> pc_ok ltb s C i (mk_thread (t_op t) c st (t_last t)).
Proof. intros <-. pose proof (th_pc _ _ _ _ _ (i_threads _ _ _ Hi i t Ht)). by destruct t. Qed.

Lemma own_times : st <= t_last t <= length (s_log s).
Proof. apply (th_times _ _ _ _ _ (i_threads _ _ _ Hi i t Ht)). Qed.

(** A move of the program counter. *)
Lemma inv_move c :
  guards_of c = guards_of (t_pc t) -> (forall b, ~ linking (t_pc t) b) -> (forall b r, t_pc t <> GrowMark b r) ->
  has_logged c = has_logged (t_pc t) ->
  pc_ok ltb s C i (mk_thread (t_op t) c (match t_pc t with Idle => length (s_log s) | _ => st end) (length (s_log s))) ->
  inv ltb (resume s s i t c) C.
Proof. intros Hg Hl Hm Hlog Hpc. apply inv_pure; try done; [by rewrite Hg|]. intros b Hb. by destruct (Hl b). Qed.

Lemma head_tall n : s_heap s !! s_head s = Some n -> 0 < height n.
Proof. intros Hn. destruct (co_head _ _ _ _ (i_chains _ _ _ Hi)) as (m & Hm & _ & H). by simplify_eq. Qed.

Lemma step_idle :
  t_pc t = Idle ->
  inv ltb (resume s s i t (match t_op t with
                           | Insert _ => Start
                           | LowerBound _ | Scan (Some _) => LoadTop
                           | Scan None => First
                           end)) C.
Proof.
  intros E. apply inv_move; rewrite E; try done; try (by intros ? []); destruct (t_op t) as [| |[|]] eqn:Eo; try done;
    unfold pc_ok; cbn; auto.
Qed.

Lemma step_start n : t_pc t = Start -> s_heap s !! s_head s = Some n -> inv ltb (resume s s i t (LoadHead (height n - 1))) C.
Proof.
  intros E Hn. apply inv_move; rewrite E; try done; try (by intros ? []). pose proof (own_pc _ E) as Hpc. show_pc. split; [done|].
  exists n. split; [done|]. pose proof (head_tall n Hn). lia.
Qed.

Lemma step_load ml : t_pc t = LoadHead ml -> inv ltb (resume s s i t (Finding ml (s_head s) None [] [])) C.
Proof.
  intros E. apply inv_move; rewrite E; try done; try (by intros ? []). destruct (own_pc _ E) as [H1 H2]. show_pc.
  split_and!; [done| |done|by intros l a Hl|done|by intros l o Hl]. split; [done|right; by left].
Qed.

Lemma step_find layer pred found preds succs node below :
  t_pc t = Finding layer pred found preds succs -> skip (s_heap s) pred layer = Some node ->
  inv ltb (resume s s i t (find_step ltb (s_heap s) d layer pred node found preds succs below)) C.
Proof.
  intros E Hs. pose proof own_times. pose proof (own_pc _ E) as (H1 & H2 & H3 & H4 & H5 & H6).
  apply inv_move; rewrite E; try done; try (by intros ? []).
  1, 2: unfold find_step; destruct (if greater _ _ _ _ then _ else _); [done|]; destruct layer; [|done];
    destruct found; [done|]; by destruct (less _ _ _ _), node.
  by apply find_ok; try lia.
Qed.

Lemma step_found b : t_pc t = Found b -> inv ltb (resume s s i t (if marked (s_heap s) b then Start else Waiting b)) C.
Proof.
  intros E. pose proof (own_pc _ E) as (H1 & H2 & H3). apply inv_move; rewrite E; try done; try (by intros ? []); [by destruct (marked _ _)..|].
  by destruct (marked _ _).
Qed.

Lemma step_wait b : t_pc t = Waiting b -> inv ltb (resume s s i t (Done (Existing b))) C.
Proof.
  intros E. pose proof own_times. pose proof (own_pc _ E) as (H1 & H2 & n & Hn & H3 & H4). apply inv_move; rewrite E; try done; try (by intros ? []).
  show_pc. split; [done|]. split; [by exists n|]. split; [done|]. exists (length (s_log s)), n. split; [lia|]. split; [done|].
  rewrite firstn_all, <- (i_log _ _ _ Hi). apply data_of_elem. by exists b, n.
Qed.

Lemma step_down ht pred node node0 :
  t_pc t = Down (S ht) pred node0 \/ t_pc t = Right ht pred -> skip (s_heap s) pred ht = Some node ->
  inv ltb (resume s s i t (down_step ltb (s_heap s) d ht pred node)) C.
Proof.
  intros E Hs. pose proof own_times.
  assert (is_lookup (t_op t) /\ pred_ok ltb s C st ht pred d) as [H1 H2] by (destruct E as [E|E]; exact (own_pc _ E)).
  assert (Hd : guards_of (down_step ltb (s_heap s) d ht pred node) = [] /\ has_logged (down_step ltb (s_heap s) d ht pred node) = false).
  { unfold down_step. by destruct (less ltb (s_heap s) d node), (if greater ltb (s_heap s) d node then node else None). }
  apply inv_move.
  - destruct E as [-> | ->]; apply Hd.
  - destruct E as [-> | ->]; by intros ? [].
  - by destruct E as [-> | ->].
  - destruct E as [-> | ->]; apply Hd.
  - replace (match t_pc t with Idle => length (s_log s) | _ => st end) with st by (by destruct E as [-> | ->]).
    apply down_ok; try done. lia.
Qed.

Lemma step_top n :
  t_pc t = LoadTop -> s_heap s !! s_head s = Some n -> inv ltb (resume s s i t (Down (height n) (s_head s) None)) C.
Proof.
  intros E Hn. apply inv_move; rewrite E; try done; try (by intros ? []). pose proof (own_pc _ E) as Hpc. pose proof (head_tall n Hn) as Hh.
  destruct (height n) as [|k] eqn:Ek; [lia|]. show_pc. split; [done|]. split; [exists n; split; [done|lia]|]. right. by left.
Qed.

Lemma step_bottom pred node : t_pc t = Down 0 pred node -> inv ltb (resume s s i t (SkipMarked node)) C.
Proof.
  intros E. pose proof own_times. apply inv_move; rewrite E; try done; try (by intros ? []). destruct (own_pc _ E) as [H1 H2]. show_pc. split; [done|].
  apply (position_ok_frame ltb i s s C C Hi (frame_same i s s C eq_refl eq_refl eq_refl eq_refl) st (t_last t)); [lia|lia|done].
Qed.

Lemma unmarked a : a ∈ C 0 -> marked (s_heap s) a = false.
Proof.
  intros Ha. destruct (co_mem _ _ _ _ (i_chains _ _ _ Hi) 0 a Ha) as (n & Hn & Hh & _).
  unfold marked. rewrite Hn. apply (i_unmarked _ _ _ Hi a n Hn). by right.
Qed.

(** The position of the lower bound is where a scan starts. *)
Lemma scan_start e node : position_ok ltb s C st (t_last t) e node -> scanned ltb s C st (Some e) [] node.
Proof.
  intros [H1 (m & Hm & Hf)]. pose proof own_times.
  pose proof (first_not_less_spec e (replay ltb (take m (s_log s))) (replay_strict _)) as Hsp. rewrite Hf in Hsp. split.
  - intros a [Ha%elem_of_nil| ->]; [done|auto].
  - constructor.
  - by intros a b Ha%elem_of_nil.
  - intros a n [Ha%elem_of_nil| ->] Hn; [done|]. cbn in Hsp. rewrite Hn in Hsp. apply Hsp.
  - intros x Hx Hb Ho. exfalso. assert (Hxm : x ∈ replay ltb (take m (s_log s))).
    { rewrite (replay_elem s C) in Hx |- * by done. apply list_elem_of_fmap in Hx as (y & -> & Hy). apply list_elem_of_fmap.
      exists y. split; [done|]. apply elem_of_take in Hy as (k & Hk & Hlt). apply elem_of_take. exists k. split; [done|lia]. }
    cbn in Hb. destruct node as [b|].
    + destruct (co_mem _ _ _ _ (i_chains _ _ _ Hi) _ _ (H1 b eq_refl)) as (n & Hn & _). cbn in Hsp. rewrite Hn in Hsp.
      destruct Hsp as (_ & _ & Hsp). pose proof (Ho b n eq_refl Hn) as Hlt. destruct (Hsp x Hxm Hb) as [->|Hgt].
      * by rewrite cmp_irrefl in Hlt.
      * by rewrite (ltb_asym _ _ Hlt) in Hgt.
    + cbn in Hsp. rewrite (Hsp x Hxm) in Hb. done.
Qed.

Lemma scanning_next v a lower :
  scanned ltb s C st lower v (Some a) -> scanning ltb s C st lower (v ++ [a]) a.
Proof.
  intros H. split; [|left; by exists v]. destruct (co_mem _ _ _ _ (i_chains _ _ _ Hi) 0 a) as (n & Hn & _ & Hk).
  - apply H. by right.
  - by exists n.
Qed.

Lemma step_position node :
  t_pc t = SkipMarked node ->
  (forall a, node = Some a -> marked (s_heap s) a = false) /\ inv ltb (resume s s i t (bound_found (t_op t) node)) C.
Proof.
  intros E. pose proof own_times. destruct (own_pc _ E) as [H1 H2]. split.
  - intros a ->. destruct H2 as [H2 _]. by apply unmarked, H2.
  - apply inv_move; rewrite E; try done; try (by intros ? []); try (by destruct (t_op t), node).
    assert (Hpos : position_ok ltb s C st (length (s_log s)) (op_data (t_op t)) node).
    { apply (position_ok_frame ltb i s s C C Hi (frame_same i s s C eq_refl eq_refl eq_refl eq_refl) st (t_last t)); [lia|lia|done]. }
    pose proof (scan_start (op_data (t_op t)) node H2) as Hsc. destruct (t_op t) as [e|e|[e|]] eqn:Eo; [done| | |].
    + show_pc. done.
    + destruct node as [a|]; show_pc; (split; [done|]); [|done]. by apply (scanning_next []).
    + done.
Qed.

(** *** Scanning *)

Lemma step_first : t_pc t = First -> inv ltb (resume s s i t (NextOf (s_head s) [])) C.
Proof.
  intros E. pose proof (own_pc _ E) as Ho. cbn in Ho. apply inv_move; rewrite E; try done; try (by intros ? []). show_pc.
  rewrite Ho. split; [done|]. destruct (co_head _ _ _ _ (i_chains _ _ _ Hi)) as (n & Hn & _ & Hh).
  split; [by exists n|]. right. split_and!; [done|done|by left].
Qed.

(** An element is before a node, in it, or not before its successor. *)
Lemma next_gap l1 a l2 n x :
  C 0 = l1 ++ a :: l2 -> s_heap s !! a = Some n -> x ∈ data_of (s_heap s) (C 0) ->
  ltb x (n_data n) = true \/ x = n_data n \/
  exists b m, head l2 = Some b /\ s_heap s !! b = Some m /\ ltb x (n_data m) = false.
Proof.
  intros E Hn Hx. pose proof (co_sorted _ _ _ _ (i_chains _ _ _ Hi) 0) as Hs. rewrite E in Hs, Hx.
  rewrite data_of_app, data_of_cons, Hn in Hx. apply elem_of_app in Hx as [Hx|[->|Hx]%elem_of_cons]; [left| |right; right].
  - pose proof (prefix_below s C Hi 0 l1 a l2 n E Hn) as Hf. rewrite Forall_forall in Hf. exact (Hf x Hx).
  - right. by left.
  - apply data_of_elem in Hx as (y & m & Hy & Hm & <-). apply StronglySorted_app_1_r in Hs.
    inversion Hs as [|? ? Hs2 _]; subst. destruct l2 as [|b l2]; [by apply elem_of_nil in Hy|].
    destruct (co_mem _ _ _ _ (i_chains _ _ _ Hi) 0 b) as (mb & Hmb & _); [rewrite E; apply elem_of_app; right; right; by left|].
    exists b, mb. split_and!; [done|done|]. apply elem_of_cons in Hy as [->|Hy]; [rewrite Hm in Hmb; injection Hmb as ->; apply cmp_irrefl|].
    inversion Hs2 as [|? ? _ Hb]; subst. rewrite Forall_forall in Hb. destruct (Hb y Hy) as (m1 & m2 & G1 & G2 & G3).
    rewrite Hmb in G1. rewrite Hm in G2. simplify_eq. by apply ltb_asym.
Qed.

Lemma replay_now x : x ∈ replay ltb (take st (s_log s)) -> x ∈ data_of (s_heap s) (C 0).
Proof.
  rewrite (i_log _ _ _ Hi), (replay_elem s C) by done. intros Hx. rewrite <- (firstn_all (s_log s)), (replay_elem s C) by done.
  rewrite firstn_all. apply list_elem_of_fmap in Hx as (y & -> & Hy). apply list_elem_of_fmap. exists y. split; [done|].
  apply elem_of_take in Hy as (k & Hk & _). by apply list_elem_of_lookup_2 in Hk.
Qed.

Lemma replay_grows m x : st <= m -> x ∈ replay ltb (take st (s_log s)) -> x ∈ replay ltb (take m (s_log s)).
Proof.
  intros Hm. rewrite !(replay_elem s C) by done. intros Hx. apply list_elem_of_fmap in Hx as (y & -> & Hy).
  apply list_elem_of_fmap. exists y. split; [done|]. apply elem_of_take in Hy as (k & Hk & Hlt). apply elem_of_take.
  exists k. split; [done|lia].
Qed.

Lemma head_least (l : list T) x y :
  StronglySorted (fun x y => ltb x y = true) l -> x ∈ l -> head l = Some y -> ltb x y = false.
Proof.
  intros Hs Hx Hy. destruct Hs as [|z l _ Hf]; [done|]. injection Hy as ->. apply elem_of_cons in Hx as [->|Hx]; [apply cmp_irrefl|].
  rewrite Forall_forall in Hf. by apply ltb_asym, Hf.
Qed.

(** The first element seen by a scan from a head. *)
Lemma scan_from_head a node :
  head_since s st a -> skip (s_heap s) a 0 = Some node -> scanned ltb s C st None [] node.
Proof.
  intros Hh Hs. pose proof own_times. assert (Hb : forall b, node = Some b -> b ∈ C 0).
  { intros b ->. unfold skip in Hs. destruct (s_heap s !! a) as [n|] eqn:En; [|done]. cbn in Hs.
    by apply (co_ptr _ _ _ _ (i_chains _ _ _ Hi) a n 0 b). }
  assert (exists m, st <= m /\ head (replay ltb (take m (s_log s))) = n_data <$> (node ≫= (s_heap s !!.))) as (m & Hm & Hfst).
  { unfold skip in Hs. destruct Hh as [->|(m & Hm & Hle)].
    - exists (length (s_log s)). split; [lia|]. destruct (s_heap s !! s_head s) as [n|] eqn:En; [|done]. cbn in Hs.
      by rewrite firstn_all, (head_first ltb s C Hi n En), Hs.
    - exists m. split; [done|]. destruct (i_old _ _ _ Hi a m Hm) as [(n & Hn & _ & _ & _ & Hf) _]. rewrite Hn in Hs. cbn in Hs.
      by rewrite Hf, Hs. }
  split; try done.
  - intros b [Hx%elem_of_nil|Hx]; [done|auto].
  - constructor.
  - by intros x b Hx%elem_of_nil.
  - intros x Hx _ Ho. exfalso. apply (replay_grows m x Hm) in Hx. destruct node as [b|].
    + destruct (co_mem _ _ _ _ (i_chains _ _ _ Hi) 0 b (Hb b eq_refl)) as (n & Hn & _). cbn in Hfst. rewrite Hn in Hfst.
      pose proof (Ho b n eq_refl Hn) as Hlt. by rewrite (head_least _ _ _ (replay_strict _) Hx Hfst) in Hlt.
    + cbn in Hfst. destruct (replay ltb (take m (s_log s))); [by apply elem_of_nil in Hx|done].
Qed.

Lemma scan_next v a lower node :
  scanning ltb s C st lower v a -> skip (s_heap s) a 0 = Some node -> scanned ltb s C st lower v node.
Proof.
  intros [_ [(v' & -> & [H1 H2 H3 H4 H5])|(-> & -> & Hh)]] Hs; [|by eapply scan_from_head].
  pose proof (H1 a ltac:(by right)) as Ha. pose proof Ha as (l1 & l2 & E)%list_elem_of_split.
  destruct (co_mem _ _ _ _ (i_chains _ _ _ Hi) 0 a Ha) as (n & Hn & Hnh & _).
  assert (node = head l2) as ->.
  { pose proof (co_chain _ _ _ _ (i_chains _ _ _ Hi) 0) as Hc. destruct (co_head _ _ _ _ (i_chains _ _ _ Hi)) as (n0 & Hn0 & _ & Hh).
    specialize (Hc ltac:(by exists n0)). rewrite E in Hc. apply chain_next in Hc as [Hc _]. congruence. }
  assert (Hb : forall b, head l2 = Some b -> b ∈ C 0 /\ dlt ltb (s_heap s) a b).
  { intros b Hb. unfold skip in Hs. rewrite Hn, Hb in Hs. cbn in Hs.
    destruct (co_ptr _ _ _ _ (i_chains _ _ _ Hi) a n 0 b Hn Hs). auto. }
  split.
  - intros x [[Hx|Hx]%elem_of_app|Hx]; [auto|apply list_elem_of_singleton in Hx as ->; done|by apply Hb].
  - apply StronglySorted_app_2; [|done|repeat constructor]. intros x y Hx ->%list_elem_of_singleton. by apply H3.
  - intros x b [Hx|Hx]%elem_of_app Hxb; [apply (dlt_trans ltb _ x a b); [by apply H3|by apply Hb]|].
    apply list_elem_of_singleton in Hx as ->. by apply Hb.
  - intros x m [[Hx|Hx]%elem_of_app|Hx] Hm; [eauto|apply list_elem_of_singleton in Hx as ->; eauto|].
    destruct (Hb x Hx) as [_ (n1 & m1 & G1 & G2 & G3)]. rewrite Hn in G1. injection G1 as <-. rewrite Hm in G2. injection G2 as <-.
    pose proof (H4 a n ltac:(by right) Hn) as Hba.
    destruct lower as [e|]; [|done]. cbn in *. destruct (ltb (n_data m) e) eqn:Ee; [|done].
    by rewrite (cmp_trans _ _ _ G3 Ee) in Hba.
  - intros x Hx Hbd Ho. rewrite data_of_app, data_of_cons, Hn, elem_of_app. cbn.
    destruct (next_gap l1 a l2 n x E Hn (replay_now x Hx)) as [Hlt|[->|(b & m & G1 & G2 & G3)]].
    + left. apply H5; [done|done|]. intros b m [= <-] Hm. by simplify_eq.
    + right. by left.
    + by rewrite (Ho b m G1 G2) in G3.
Qed.

Lemma step_next a v node :
  t_pc t = NextOf a v -> skip (s_heap s) a 0 = Some node -> inv ltb (resume s s i t (NextSkip node v)) C.
Proof.
  intros E Hs. destruct (own_pc _ E) as [H1 H2]. apply inv_move; rewrite E; try done; try (by intros ? []). show_pc.
  split; [done|by eapply scan_next].
Qed.

Lemma step_visit node v :
  t_pc t = NextSkip node v ->
  (forall a, node = Some a -> marked (s_heap s) a = false) /\
  inv ltb (resume s s i t (match node with Some a => NextOf a (v ++ [a]) | None => Done (Visited v) end)) C.
Proof.
  intros E. destruct (own_pc _ E) as [H1 H2]. split.
  - intros a ->. apply unmarked. apply H2. by right.
  - apply inv_move; rewrite E; try done; try (by intros ? []); try (by destruct node). destruct node as [a|]; show_pc; [|done].
    split; [done|by apply scanning_next].
Qed.

(** *** Locking *)

Lemma was_head_flag a n : was_head s a -> s_heap s !! a = Some n -> n_head n = true.
Proof.
  intros [->|(m & Hm & _)] Hn.
  - destruct (co_head _ _ _ _ (i_chains _ _ _ Hi)) as (n' & Hn' & H & _). by simplify_eq.
  - destruct (i_old _ _ _ Hi a m Hm) as [(n' & Hn' & H & _) _]. by simplify_eq.
Qed.

Lemma step_nolock layer p pred :
  t_pc t = Locking layer p -> layer < pl_height p -> pl_preds p !! layer = Some pred -> need_lock layer p pred = false ->
  inv ltb (resume s s i t (Checking layer p)) C.
Proof.
  intros E Hl Hp Hn. destruct (own_pc _ E) as (H1 & H2 & [H3 H4] & H5 & H6).
  apply inv_move; rewrite E; try done; try (by intros ? []). show_pc. split_and!; [done|done| |done|done].
  split; [done|]. intros a. rewrite H4. unfold need_lock in Hn. destruct layer as [|l]; [done|].
  apply negb_false_iff, bool_decide_eq_true in Hn. split; intros (l' & Hl' & Ha).
  - exists l'. split; [lia|done].
  - destruct (decide (l' = S l)) as [->|Hne]; [|exists l'; split; [lia|done]]. exists l. split; [lia|congruence].
Qed.

Lemma step_locked layer p :
  t_pc t = Locking layer p -> ~ layer < pl_height p -> inv ltb (resume s s i t (Creating p)) C.
Proof.
  intros E Hl. destruct (own_pc _ E) as (H1 & H2 & H3 & H5 & H6). replace layer with (pl_height p) in * by lia.
  apply inv_move; rewrite E; try done; try (by intros ? []).
Qed.

(** A valid layer is current: a replaced head is marked, or locked by the
    thread that replaced it. *)
Lemma step_check layer p pred succ :
  t_pc t = Checking layer p -> pl_preds p !! layer = Some pred -> pl_succs p !! layer = Some succ ->
  inv ltb (resume s s i t (if valid (s_heap s) layer pred succ then Locking (S layer) p else Unlocking (pl_guards p) Retry)) C.
Proof.
  intros E Hp Hs. destruct (own_pc _ E) as (H1 & H2 & [H3 H4] & H5 & H6).
  destruct (valid (s_heap s) layer pred succ) eqn:Ev; (apply inv_move; rewrite E; try done; try (by intros ? [])).
  show_pc. split_and!; [done|done|done|lia|]. intros l Hl. destruct (decide (l = layer)) as [->|Hne]; [|apply H6; lia].
  unfold valid in Ev. apply andb_true_iff in Ev as [Ev _]. apply andb_true_iff in Ev as [Ev1 Ev2].
  apply bool_decide_eq_true in Ev2. apply negb_true_iff in Ev1. unfold marked in Ev1. unfold skip in Ev2.
  destruct H3 as [_ H3]. destruct (H3 pred) as (n & Hn & Hlk); [apply H4; by exists layer|]. rewrite Hn in Ev1, Ev2.
  exists pred, succ, n. split_and!; [done..|]. destruct (po_preds _ _ _ _ _ _ H2 layer pred Hp) as [_ [[? _]|[?|(m & Hm & _)]]]; [by left|by right|].
  exfalso. destruct (i_old _ _ _ Hi pred m Hm) as [(n' & Hn' & _ & _ & Hmk & _) _]. simplify_eq.
  destruct Hmk as [?|(j & u & r & Hu & Hr)]; [congruence|].
  pose proof (th_pc _ _ _ _ _ (i_threads _ _ _ Hi j u Hu)) as Hj. unfold pc_ok in Hj. rewrite Hr in Hj.
  destruct Hj as (_ & [_ Hj] & _). destruct (Hj pred ltac:(by left)) as (n' & Hn' & Hlk'). simplify_eq. congruence.
Qed.

Lemma locked_false a : locked (s_heap s) a = false -> exists n, s_heap s !! a = Some n /\ n_lock n = None.
Proof.
  unfold locked. destruct (s_heap s !! a) as [n|]; [|done]. intros H%bool_decide_eq_false. exists n. split; [done|].
  destruct (n_lock n); [|done]. exfalso. by apply H.
Qed.

Lemma own_guard a n c : s_heap s !! a = Some n -> t_pc t = c -> n_lock n = Some i -> a ∈ guards_of c.
Proof. intros Hn <- Hl. destruct (i_locks _ _ _ Hi a n i Hn Hl) as (u & Hu & Hg). by simplify_eq. Qed.

(** Thread [i] keeps what it has locked. *)
Lemma ready_keep s' C' p p' l :
  ready_at s C i p l -> pl_preds p' = pl_preds p -> pl_succs p' = pl_succs p -> s_head s' = s_head s ->
  (forall a, a ∈ C l -> a ∈ C' l) ->
  (forall a n, s_heap s !! a = Some n -> n_lock n = Some i -> a ∈ C l \/ a = s_head s -> exists n', s_heap s' !! a = Some n' /\
     n_lock n' = Some i /\ n_marked n' = n_marked n /\ n_skip n' !! l = n_skip n !! l) ->
  ready_at s' C' i p' l.
Proof.
  intros (a & o & n & H1 & H2 & H3 & H4 & H5 & H6 & H7) E1 E2 E3 Hm Hk. destruct (Hk a n H3 H4 H7) as (n' & G1 & G2 & G3 & G4).
  exists a, o, n'. rewrite E1, E2, E3, G3, G4. split_and!; try done. destruct H7; auto.
Qed.

Lemma held_keep s' gs :
  held s i gs ->
  (forall a n, s_heap s !! a = Some n -> n_lock n = Some i -> exists n', s_heap s' !! a = Some n' /\ n_lock n' = Some i) ->
  held s' i gs.
Proof. intros [H1 H2] Hk. split; [done|]. intros a Ha. destruct (H2 a Ha) as (n & Hn & Hl). eauto. Qed.

Lemma plan_guards s' C' e (p : plan) gs :
  plan_ok ltb s' C' st e p -> plan_ok ltb s' C' st e (mk_plan (pl_height p) (pl_preds p) (pl_succs p) gs).
Proof. by intros []. Qed.

Lemma alter_keep (h : list (node (T := T))) f a b m :
  h !! b = Some m -> exists m', alter f a h !! b = Some m' /\ ((b = a /\ m' = f m) \/ (b <> a /\ m' = m)).
Proof.
  intros Hb. destruct (decide (b = a)) as [->|Hne].
  - exists (f m). rewrite list_lookup_alter_eq, Hb. auto.
  - exists m. rewrite list_lookup_alter_ne by done. auto.
Qed.

Lemma step_lock layer p pred :
  t_pc t = Locking layer p -> layer < pl_height p -> pl_preds p !! layer = Some pred ->
  locked (s_heap s) pred = false ->
  inv ltb (resume s (update s pred (set_lock (Some i))) i t
    (Checking layer (mk_plan (pl_height p) (pl_preds p) (pl_succs p) (pred :: pl_guards p)))) C.
Proof.
  intros E Hl Hp Hlk. destruct (own_pc _ E) as (H1 & H2 & [H3 H4] & H5 & H6). pose proof own_times.
  destruct (locked_false pred Hlk) as (n & Hn & Hnl).
  assert (Hk : forall a m, s_heap s !! a = Some m -> n_lock m = Some i -> alter (set_lock (Some i)) pred (s_heap s) !! a = Some m).
  { intros a m Ha Hm. destruct (alter_keep _ (set_lock (Some i)) pred a m Ha) as (m' & G & [[-> _]|[_ ->]]); [congruence|done]. }
  apply (inv_update s C C i t _ _ pred n (set_lock (Some i))); rewrite ?E; try done; auto.
  - split; cbn; auto. right; left. split_and!; [done|done|]. intros Hh.
    destruct (po_preds _ _ _ _ _ _ H2 layer pred Hp) as [_ [[G1 _]|[G1|(m & G1 & _)]]]; [|by left|right; exists m; split; [done|lia]].
    destruct (co_mem _ _ _ _ (i_chains _ _ _ Hi) _ _ G1) as (n' & Hn' & G2 & _). congruence.
  - intros _. by eapply chains_flags; [apply Hi|..].
  - intros b Hb. left. by right.
  - intros _. by left.
  - intros Hf. show_pc. split_and!; [done| | |done|].
    + apply plan_guards. by eapply plan_ok_frame; [done|lia|].
    + split; [split|].
      * cbn. constructor; [|apply H3]. intros Hin. destruct H3 as [_ H3]. destruct (H3 pred Hin) as (n' & Hn' & G). congruence.
      * cbn. intros a [->|Ha]%elem_of_cons; [eexists; rewrite list_lookup_alter_eq, Hn; done|].
        destruct H3 as [_ H3]. destruct (H3 a Ha) as (m & Hm & Hml). exists m. auto.
      * cbn. intros a. rewrite elem_of_cons, H4. split.
        -- intros [->|(l & Hll & Ha)]; [exists layer; split; [lia|done]|exists l; split; [lia|done]].
        -- intros (l & Hll & Ha). destruct (decide (l = layer)) as [->|Hne]; [left; congruence|right; exists l; split; [lia|done]].
    + intros l Hll. eapply ready_keep; [by apply H6|done|done|done|done|]. cbn. intros a m Ha Hm _. exists m. auto.
Qed.

Lemma fresh_address k : length (s_heap s) ∉ C k.
Proof.
  intros Hin. destruct (co_mem _ _ _ _ (i_chains _ _ _ Hi) _ _ Hin) as (n & Hn & _).
  apply lookup_lt_Some in Hn. lia.
Qed.

Lemma step_create p :
  t_pc t = Creating p ->
  inv ltb (resume s (with_heap s (s_heap s ++ [create (pl_height p) d false i])) i t (LinkNew 0 (length (s_heap s)) p)) C.
Proof.
  intros E. destruct (own_pc _ E) as (H1 & H2 & [H3 H4] & H5). pose proof own_times.
  assert (Hk : forall a m, s_heap s !! a = Some m -> (s_heap s ++ [create (pl_height p) d false i]) !! a = Some m).
  { intros a m Ha. by apply lookup_app_l_Some. }
  apply (inv_append s C i t _ (pl_height p) d false _); rewrite ?E; try done; try (by intros ? []).
  intros Hf. show_pc. pose proof (po_height _ _ _ _ _ _ H2). split_and!; [done| | |lia| |].
  - by eapply plan_ok_frame; [done|lia|].
  - split; [|done]. eapply held_keep; [done|]. cbn. eauto.
  - intros l Hl. eapply ready_keep; [apply H5; lia|done|done|done|done|]. cbn. intros a m Ha Hm _. exists m. auto.
  - split; [|split; [intros; lia|intros; apply fresh_address]].
    eexists. cbn. rewrite lookup_app_r, Nat.sub_diag by lia. split_and!; [done..|by apply length_replicate|done].
Qed.

Lemma step_link_new k a p succ :
  t_pc t = LinkNew k a p -> pl_succs p !! k = Some succ ->
  inv ltb (resume s (update s a (set_skip k succ)) i t (LinkPred k a p)) C.
Proof.
  intros E Hs. destruct (own_pc _ E) as (H1 & H2 & [H3 H4] & H5 & H6 & H7). pose proof own_times.
  destruct H7 as ((n & Hn & G1 & G2 & G3 & G4 & G5) & G6 & G7).
  assert (Hw : ~ was_head s a) by (intros Hw; pose proof (was_head_flag a n Hw Hn); congruence).
  assert (Hks : forall l, l <> k -> n_skip (set_skip k succ n) !! l = n_skip n !! l) by (intros l Hl; cbn; by rewrite list_lookup_insert_ne).
  assert (Hht : height (set_skip k succ n) = height n) by apply length_insert.
  apply (inv_update s C C i t _ _ a n (set_skip k succ)); rewrite ?E; try done; auto.
  - split; try done; auto. intros l. destruct (decide (l = k)) as [->|Hne]; [|left; by apply Hks]. right; right. auto.
  - intros _. apply (chains_keep (s_heap s)); [apply Hi| | |].
    + intros b m Hb. destruct (alter_keep _ (set_skip k succ) a b m Hb) as (m' & Hm' & [[-> ->]|[_ ->]]); eexists; (split; [exact Hm'|]).
      * split_and!; try done. apply length_insert.
      * done.
    + intros l b Hb. unfold skip. destruct (decide (b = a)) as [->|Hne]; [|by rewrite list_lookup_alter_ne].
      rewrite list_lookup_alter_eq, Hn. cbn. destruct (decide (l = k)) as [->|Hlk]; [|by apply Hks].
      exfalso. destruct Hb as [->|Hb]; [apply Hw; by left|by apply (G7 k)].
    + intros b m l x Hb Hx. destruct (decide (b = a)) as [->|Hne]; [|left; rewrite list_lookup_alter_ne in Hb by done; unfold skip; by rewrite Hb].
      rewrite list_lookup_alter_eq, Hn in Hb. injection Hb as <-. destruct (decide (l = k)) as [->|Hlk].
      * right. cbn in Hx. rewrite list_lookup_insert_eq in Hx by (unfold height in G4; lia). injection Hx as ->.
        destruct (po_next _ _ _ _ _ _ H2 k (Some x) Hs) as [Hx1 (m & Hm & Hx2)]. split; [done|]. intros _. exists n, m. by rewrite G1.
      * left. unfold skip. rewrite Hn. cbn. by rewrite <- Hks.
  - intros Hlk. cbn in Hlk. exact (own_guard a n _ Hn E Hlk).
  - intros Hf. assert (Hk : forall b m, s_heap s !! b = Some m -> n_lock m = Some i ->
      exists m', alter (set_skip k succ) a (s_heap s) !! b = Some m' /\ n_lock m' = Some i /\ n_marked m' = n_marked m /\
        ((b = a /\ m' = set_skip k succ m) \/ (b <> a /\ m' = m))).
    { intros b m Hb Hm. destruct (alter_keep _ (set_skip k succ) a b m Hb) as (m' & Hm' & Hor). exists m'. split; [done|].
      destruct Hor as [[-> ->]|[? ->]]; auto. }
    show_pc. split_and!; [done| | |done| | |].
    + by eapply plan_ok_frame; [done|lia|].
    + split; [|done]. eapply held_keep; [done|]. cbn. intros b m Hb Hm. destruct (Hk b m Hb Hm) as (m' & ? & ? & _). eauto.
    + intros l Hl. eapply ready_keep; [by apply H6|done|done|done|done|]. intros b m Hb Hm Hor.
      destruct (Hk b m Hb Hm) as (m' & ? & ? & ? & [[-> ->]|[_ ->]]); [|exists m; auto].
      exfalso. destruct Hor as [Hor| ->]; [by apply (G7 l); [lia|]|]. apply Hw. by left.
    + split; [|done]. eexists. cbn. rewrite list_lookup_alter_eq, Hn. split; [done|]. cbn. split_and!; try done. by rewrite <- G4.
    + cbn. unfold skip. rewrite list_lookup_alter_eq, Hn. cbn. rewrite list_lookup_insert_eq by (unfold height in G4; lia). by rewrite Hs.
Qed.

(** *** Linking *)

Lemma set_insert_split e l1 l2 :
  Forall (fun x => ltb x e = true) l1 -> (forall x, head l2 = Some x -> ltb e x = true) ->
  set_insert ltb e (l1 ++ l2) = l1 ++ e :: l2.
Proof.
  intros Hl1 Hl2. induction Hl1 as [|x l1 Hx _ IH]; cbn; [|by rewrite Hx, IH].
  destruct l2 as [|x l2]; [done|]. cbn. specialize (Hl2 x eq_refl). by rewrite (ltb_asym e x Hl2), Hl2.
Qed.

Lemma data_of_alter (h : list (node (T := T))) f a l :
  (forall n, n_data (f n) = n_data n) -> data_of (alter f a h) l = data_of h l.
Proof.
  intros Hd. induction l as [|b l IH]; [done|]. rewrite !data_of_cons, IH. destruct (decide (b = a)) as [->|Hne].
  - rewrite list_lookup_alter_eq. destruct (h !! a); [|done]. cbn. by rewrite Hd.
  - by rewrite list_lookup_alter_ne.
Qed.

(** Where the new node goes in layer [k]. *)
Lemma link_split k p pred :
  ready_at s C i p k -> plan_ok ltb s C st d p -> pl_preds p !! k = Some pred ->
  exists l1 l2, C k = l1 ++ l2 /\ ((pred = s_head s /\ l1 = []) \/ exists l0, l1 = l0 ++ [pred]) /\
    pl_succs p !! k = Some (head l2) /\ skip (s_heap s) pred k = Some (head l2) /\ tall (s_heap s) pred k /\
    (forall b, last l1 = Some b -> below_d ltb (s_heap s) b d) /\ (forall b, head l2 = Some b -> above_d ltb (s_heap s) b d).
Proof.
  intros (a & o & n & H1 & H2 & H3 & H4 & H5 & H6 & H7) Hp Hpred. rewrite Hpred in H1. injection H1 as <-.
  destruct (po_preds _ _ _ _ _ _ Hp k pred Hpred) as [Ht' Hor].
  assert (Hsk : skip (s_heap s) pred k = Some o) by (unfold skip; by rewrite H3).
  assert (Hab : forall b, o = Some b -> above_d ltb (s_heap s) b d) by (intros b ->; by apply (po_next _ _ _ _ _ _ Hp k (Some b) H2)).
  destruct (decide (pred = s_head s)) as [->|Hne].
  - exists [], (C k). pose proof (chain_head _ _ _ _ (co_chain _ _ _ _ (i_chains _ _ _ Hi) k Ht')) as Hh.
    rewrite Hsk in Hh. injection Hh as ->. split_and!; auto. done.
  - destruct H7 as [H7|H7]; [|done]. pose proof H7 as (l0 & l2 & E)%list_elem_of_split. exists (l0 ++ [pred]), l2.
    assert (Hth : tall (s_heap s) (s_head s) k) by (apply (hd_tall _ _ C (i_chains _ _ _ Hi)); rewrite E; by destruct l0).
    pose proof (co_chain _ _ _ _ (i_chains _ _ _ Hi) k Hth) as Hch. rewrite E in Hch. apply chain_next in Hch as [Hn _].
    rewrite Hsk in Hn. injection Hn as ->. rewrite <- app_assoc. split_and!; eauto. intros b Hb. rewrite last_snoc in Hb. injection Hb as <-.
    destruct Hor as [[_ ?]|Hw]; [done|]. exfalso.
    assert (Hw' : was_head s pred) by (destruct Hw as [?|(m & ? & ?)]; [by left|right; exists m; split; [done|lia]]).
    pose proof (was_head_flag pred n Hw' H3). destruct (co_mem _ _ _ _ (i_chains _ _ _ Hi) _ _ H7) as (n' & ? & ? & _). congruence.
Qed.

Lemma link_log a n l1 l2 pred :
  C 0 = l1 ++ l2 -> s_heap s !! a = Some n -> n_data n = d ->
  (forall b, last l1 = Some b -> below_d ltb (s_heap s) b d) -> (forall b, head l2 = Some b -> above_d ltb (s_heap s) b d) ->
  data_of (alter (set_skip 0 (Some a)) pred (s_heap s)) (l1 ++ a :: l2) = set_insert ltb d (data_of (s_heap s) (C 0)) /\
  forall x, x ∈ data_of (s_heap s) (C 0) -> ltb x d = true \/ ltb d x = true.
Proof.
  intros E Ha Hd Hbef Haft. pose proof (co_sorted _ _ _ _ (i_chains _ _ _ Hi) 0) as Hso. rewrite E in Hso.
  assert (F1 : Forall (fun x => ltb x d = true) (data_of (s_heap s) l1)).
  { destruct (last l1) as [b|] eqn:El; [|apply last_None in El as ->; constructor]. apply last_Some in El as [l0 ->].
    destruct (Hbef b eq_refl) as (m & Hm & Hlt). rewrite data_of_app, data_of_cons, Hm. apply Forall_app.
    split; [|by constructor]. eapply Forall_impl; [eapply (prefix_below s C Hi 0 l0 b l2); [by rewrite E, <- app_assoc|done]|].
    intros x Hx. cbn in Hx. exact (cmp_trans _ _ _ Hx Hlt). }
  assert (F2 : Forall (fun x => ltb d x = true) (data_of (s_heap s) l2)).
  { destruct l2 as [|b l2]; [constructor|]. destruct (Haft b eq_refl) as (m & Hm & Hlt). rewrite data_of_cons, Hm. constructor; [done|].
    apply StronglySorted_app_1_r in Hso. inversion Hso as [|? ? _ Hall]; subst. apply Forall_forall. intros x Hx.
    apply data_of_elem in Hx as (y & my & Hy & Hmy & <-). rewrite Forall_forall in Hall.
    destruct (Hall y Hy) as (m1 & m2 & G1 & G2 & G3). simplify_eq. exact (cmp_trans _ _ _ Hlt G3). }
  rewrite data_of_alter by done. rewrite E, !data_of_app, data_of_cons, Ha, Hd. split.
  - symmetry. apply set_insert_split; [done|]. intros x Hx. destruct (data_of (s_heap s) l2); [done|]. injection Hx as ->.
    by inversion F2.
  - intros x [Hx|Hx]%elem_of_app; rewrite Forall_forall in F1, F2; auto.
Qed.

(** What the thread knows after it has linked layer [k]. *)
Lemma link_pc k a p pred n np C' s1 c now :
  t_pc t = LinkPred k a p -> s_heap s !! a = Some n -> s_heap s !! pred = Some np -> n_lock np = Some i -> a <> pred ->
  c = (if S k <? pl_height p then LinkNew (S k) a p else SetLinked a (pl_guards p)) ->
  s_heap s1 = alter (set_skip k (Some a)) pred (s_heap s) -> s_head s1 = s_head s ->
  (forall l b, b ∈ C' l <-> b ∈ C l \/ (l = k /\ b = a)) ->
  frame i s C (resume s s1 i t c) C' -> pc_ok ltb (resume s s1 i t c) C' i (mk_thread (t_op t) c st now).
Proof.
  intros E Hn Hp Hlk Hap Ec S1 S2 Hel Hf. destruct (own_pc _ E) as (H1 & H2 & [H3 H4] & H5 & H6 & H7 & H8). pose proof own_times.
  destruct H7 as ((n' & Hn' & G1 & G2 & G3 & G4 & G5) & G6 & G7). rewrite Hn in Hn'. injection Hn' as <-. subst c.
  assert (Hk : forall b m, s_heap s !! b = Some m -> exists m', s_heap s1 !! b = Some m' /\ n_lock m' = n_lock m /\
    n_marked m' = n_marked m /\ forall l, l <> k -> n_skip m' !! l = n_skip m !! l).
  { intros b m Hb. rewrite S1. destruct (alter_keep _ (set_skip k (Some a)) pred b m Hb) as (m' & Hm' & [[-> ->]|[_ ->]]).
    - eexists. split; [done|]. split_and!; try done. intros l Hl. cbn. by rewrite list_lookup_insert_ne.
    - by exists m. }
  assert (Ha : s_heap s1 !! a = Some n) by (rewrite S1; by rewrite list_lookup_alter_ne).
  assert (Hh : held (resume s s1 i t (if S k <? pl_height p then LinkNew (S k) a p else SetLinked a (pl_guards p))) i (pl_guards p)).
  { eapply held_keep; [done|]. intros b m Hb Hm. destruct (Hk b m Hb) as (m' & ? & ? & _). exists m'. split; [done|congruence]. }
  assert (Hall : forall l, l < S k -> a ∈ C' l).
  { intros l Hl. apply Hel. destruct (decide (l = k)); [by right|left]. apply G6. lia. }
  destruct (Nat.ltb_spec (S k) (pl_height p)) as [Hlt|Hge]; show_pc; fold d in G1.
  - split_and!; [done| |done|lia| |].
    + by eapply plan_ok_frame; [done|lia|].
    + intros l Hl. eapply ready_keep; [apply H6; lia|done|done|done|intros b Hb; apply Hel; by left|].
      intros b m Hb Hm _. destruct (Hk b m Hb) as (m' & ? & ? & ? & Hsk). exists m'. split_and!; [done|congruence|done|apply Hsk; lia].
    + split; [|split; [done|]]; [by exists n|]. intros l Hl Hin. apply Hel in Hin as [Hin|[-> _]]; [|lia].
      apply (G7 l); [lia|done].
  - split_and!; [done|done| |by exists n]. split; [apply Hall; lia|]. by exists n.
Qed.

Lemma step_link_pred k a p pred :
  t_pc t = LinkPred k a p -> pl_preds p !! k = Some pred ->
  let s' := update s pred (set_skip k (Some a)) in
  exists C', inv ltb (resume s (if k =? 0 then with_log s' (s_log s ++ [(i, d)]) else s') i t
    (if S k <? pl_height p then LinkNew (S k) a p else SetLinked a (pl_guards p))) C'.
Proof.
  intros E Hpred s'. destruct (own_pc _ E) as (H1 & H2 & [H3 H4] & H5 & H6 & H7 & H8). pose proof own_times.
  destruct H7 as ((n & Hn & G1 & G2 & G3 & G4 & G5) & G6 & G7).
  destruct (link_split k p pred (H6 k ltac:(lia)) H2 Hpred) as (l1 & l2 & L1 & L2 & L3 & L4 & L5 & L6 & L7).
  destruct (H6 k ltac:(lia)) as (pred' & o & np & R1 & R2 & R3 & R4 & R5 & R6 & R7). rewrite Hpred in R1. injection R1 as <-.
  assert (Hap : a <> pred).
  { intros ->. destruct R7 as [R7|R7]; [by apply (G7 k)|]. destruct (co_head _ _ _ _ (i_chains _ _ _ Hi)) as (m & ? & ? & _). congruence. }
  set (C' := linked_in C k a l1 l2). exists C'.
  assert (Hel : forall l b, b ∈ C' l <-> b ∈ C l \/ (l = k /\ b = a)) by (intros; by apply elem_linked_in).
  set (c := if S k <? pl_height p then LinkNew (S k) a p else SetLinked a (pl_guards p)).
  assert (Hc : linking c a /\ guards_of c = pl_guards p /\ has_logged c = true) by (unfold c; by destruct (S k <? pl_height p)).
  destruct Hc as (Hc1 & Hc2 & Hc3).
  set (s1 := if k =? 0 then with_log s' (s_log s ++ [(i, d)]) else s').
  assert (Es1 : s_heap s1 = alter (set_skip k (Some a)) pred (s_heap s) /\ s_head s1 = s_head s /\ s_threads s1 = s_threads s /\
    s_old s1 = s_old s /\ s_log s1 = s_log s ++ (if k =? 0 then [(i, d)] else [])).
  { unfold s1. destruct (k =? 0); cbn; by rewrite ?app_nil_r. }
  destruct Es1 as (S1 & S2 & S3 & S4 & S5).
  apply (inv_update s C C' i t c s1 pred np (set_skip k (Some a))); rewrite ?E, ?Hc2; try done; auto.
  - rewrite S5. by eexists.
  - split; try done; auto; [apply length_insert|]. intros l. destruct (decide (l = k)) as [->|Hne].
    + right; left. auto.
    + left. cbn. by rewrite list_lookup_insert_ne.
  - intros l b Hb. apply Hel. auto.
  - intros l b [Hb|[_ ->]]%Hel; [by left|right]. eauto.
  - intros _. apply (chains_link _ _ C (i_chains _ _ _ Hi) k pred a l1 l2 n); try done.
    + lia.
    + by rewrite H8.
    + intros b Hb. destruct (L6 b Hb) as (m & Hm & Hlt). exists m, n. by rewrite G1.
    + intros b Hb. destruct (L7 b Hb) as (m & Hm & Hlt). exists n, m. by rewrite G1.
  - intros _. apply H4. eauto.
  - intros b Hb. left. cbn in Hb. by rewrite <- Hb.
  - intros _. rewrite S5. destruct (Nat.eqb_spec k 0) as [Hk|Hk].
    + right. exists d. destruct (link_log a n l1 l2 pred) as [D1 D2]; try done; [by rewrite <- Hk|].
      split_and!; [|done|done|by rewrite Hk|done| |done].
      * unfold d. by destruct (t_op t).
      * rewrite S1, Hk. unfold C', linked_in. rewrite Hk. by rewrite decide_True.
    + left. rewrite app_nil_r. split_and!; [done| |]; [unfold C', linked_in; by rewrite decide_False|].
      rewrite Hc3. by destruct k.
  - intros Hf. apply (link_pc k a p pred n np C' s1); try done.
Qed.

(** *** Finishing an insertion *)

Lemma own_in_set c s1 C' a e : frame i s C (resume s s1 i t c) C' -> in_set s C a e -> in_set (resume s s1 i t c) C' a e.
Proof. intros Hf. by eapply in_set_frame. Qed.

Lemma step_set_linked a gs : t_pc t = SetLinked a gs -> inv ltb (resume s (update s a set_linked) i t (Counting a gs)) C.
Proof.
  intros E. destruct (own_pc _ E) as (H1 & H2 & H3 & n & Hn & G1 & G2 & G3).
  apply (inv_update s C C i t _ _ a n set_linked); rewrite ?E; try done; auto.
  - split; try done; auto.
  - intros _. by eapply chains_flags; [apply Hi|..].
  - intros Hlk. exact (own_guard a n _ Hn E Hlk).
  - intros Hf. show_pc. split_and!; [done| |by eapply own_in_set]. eapply held_keep; [done|]. intros b m Hb Hm.
    cbn. destruct (alter_keep _ set_linked a b m Hb) as (m' & Hm' & [[-> ->]|[_ ->]]); eauto.
Qed.

Lemma step_count a gs z :
  t_pc t = Counting a gs -> inv ltb (resume s (with_size s z) i t (Unlocking gs (Counted a z))) C.
Proof.
  intros E. destruct (own_pc _ E) as (H1 & H2 & H3). apply inv_pure; rewrite ?E; try done; auto.
Qed.

Lemma step_unlock g gs (af : after) :
  t_pc t = Unlocking (g :: gs) af -> inv ltb (resume s (update s g (set_lock None)) i t (Unlocking gs af)) C.
Proof.
  intros E. destruct (own_pc _ E) as (H1 & [H2 H3] & H4). destruct (H3 g ltac:(by left)) as (n & Hn & Hl).
  apply NoDup_cons in H2 as [Hg Hnd].
  apply (inv_update s C C i t _ _ g n (set_lock None)); rewrite ?E; try done; auto.
  - split; cbn; auto.
  - intros _. by eapply chains_flags; [apply Hi|..].
  - intros b [->|Hb]%elem_of_cons; auto.
  - intros Hf. show_pc. split_and!; [done| |].
    + split; [done|]. intros b Hb. destruct (H3 b ltac:(by right)) as (m & Hm & Hml). exists m. cbn.
      rewrite list_lookup_alter_ne; [done|]. by intros ->.
    + destruct af; [done|by eapply own_in_set|by eapply inserted_frame].
Qed.

Lemma step_unlocked (af : after) :
  t_pc t = Unlocking [] af ->
  inv ltb (resume s s i t (match af with Retry => Start | Counted a z => CheckSize a z | Return r => Done r end)) C.
Proof.
  intros E. destruct (own_pc _ E) as (H1 & H2 & H3). apply inv_move; rewrite E; try done; try (by intros ? []).
  - by destruct af.
  - destruct af as [| |r]; [done|done|]. destruct H3 as (a & m & -> & _). done.
  - destruct af as [| |r]; show_pc; [done|done|]. by destruct H3 as (a & m & -> & H3).
Qed.

Lemma step_check_size a z c :
  t_pc t = CheckSize a z -> (exists ht, c = GrowLoad ht a z) \/ c = Done (Inserted a z) -> inv ltb (resume s s i t c) C.
Proof.
  intros E Hc. destruct (own_pc _ E) as (H1 & H2).
  destruct Hc as [[ht ->]| ->]; (apply inv_move; rewrite E; try done; by intros ? []).
Qed.

(** *** Growing *)

Lemma step_grow_not ht a z : t_pc t = GrowLoad ht a z -> inv ltb (resume s s i t (Done (Inserted a z))) C.
Proof. intros E. destruct (own_pc _ E) as (H1 & H2). apply inv_move; rewrite E; try done; by intros ? []. Qed.

Lemma step_grow_load ht a z n :
  t_pc t = GrowLoad ht a z -> s_heap s !! s_head s = Some n -> height n < ht ->
  inv ltb (resume s (with_heap s (s_heap s ++ [create ht default_value true i])) i t
    (GrowLock (s_head s) (length (s_heap s)) (Inserted a z))) C.
Proof.
  intros E Hn Hht. destruct (own_pc _ E) as (H1 & H2).
  apply (inv_append s C i t _ ht default_value true _); rewrite ?E; try done; try (by intros ? []).
  intros Hf. show_pc. split_and!; [done|by left| |exists a, z; split; [done|by eapply own_in_set]].
  exists n, ht. cbn. split; [by apply lookup_app_l_Some|]. split; [done|]. split.
  - eexists. cbn. rewrite lookup_app_r, Nat.sub_diag by lia. split_and!; [done..|apply length_replicate|done|].
    intros [Hw|(m & Hm & _)]; cbn in *.
    + rewrite <- Hw in Hn. apply lookup_lt_Some in Hn. lia.
    + destruct (i_old _ _ _ Hi _ _ Hm) as [(n' & Hn' & _) _]. apply lookup_lt_Some in Hn'. lia.
  - intros k Hk. unfold skip. rewrite lookup_app_r, Nat.sub_diag by lia. cbn. by apply lookup_replicate_2.
Qed.

Lemma step_grow_lock old nh r :
  t_pc t = GrowLock old nh r -> locked (s_heap s) old = false ->
  inv ltb (resume s (update s old (set_lock (Some i))) i t (GrowCopy old nh r)) C.
Proof.
  intros E Hlk. destruct (own_pc _ E) as (H1 & H2 & (n & ht & G1 & G2 & (m & Hm & G3 & G4 & G5 & G6 & G7) & G8) & H4).
  destruct (locked_false old Hlk) as (n' & Hn & Hnl). rewrite G1 in Hn. injection Hn as <-.
  assert (Hne : nh <> old) by (by intros ->).
  apply (inv_update s C C i t _ _ old n (set_lock (Some i))); rewrite ?E; try done; auto.
  - split; cbn; auto.
  - intros _. by eapply chains_flags; [apply Hi|..].
  - intros b Hb. by apply elem_of_nil in Hb.
  - intros _. by left.
  - intros Hf. show_pc. split_and!; [done|by eapply was_head_frame| | |by eapply inserted_frame].
    + split; [apply NoDup_singleton|]. intros b ->%list_elem_of_singleton. eexists. cbn. by rewrite list_lookup_alter_eq, G1.
    + exists (set_lock (Some i) n), ht. cbn. rewrite list_lookup_alter_eq, G1. split_and!; [done|done| |].
      * exists m. cbn. rewrite list_lookup_alter_ne by done. auto 10.
      * intros k Hk. unfold skip. rewrite list_lookup_alter_ne by done. by apply G8.
Qed.

Lemma private_head a n k : s_heap s !! a = Some n -> n_head n = true -> a ∉ C k.
Proof. intros Hn Hh Ha. destruct (co_mem _ _ _ _ (i_chains _ _ _ Hi) _ _ Ha) as (m & Hm & Hf & _). congruence. Qed.

Lemma copy_height (n m : node (T := T)) : height n < height m -> height (copy_head n m) = height m.
Proof. unfold height. cbn. intros H. rewrite length_app, length_drop. unfold height. lia. Qed.

Lemma copy_skip (n m : node (T := T)) k :
  height n < height m -> (forall l, l < height m -> n_skip m !! l = Some None) -> k < height m ->
  n_skip (copy_head n m) !! k = Some (mjoin (n_skip n !! k)).
Proof.
  intros Hlt He Hk. cbn. destruct (decide (k < height n)) as [Hkn|Hkn].
  - rewrite lookup_app_l by done. destruct (lookup_lt_is_Some_2 (n_skip n) k Hkn) as [o ->]. done.
  - rewrite lookup_app_r by (unfold height in Hkn; lia). rewrite lookup_drop. unfold height in *.
    replace (length (n_skip n) + (k - length (n_skip n))) with k by lia. rewrite He by lia.
    by rewrite lookup_ge_None_2 by lia.
Qed.

Lemma step_grow_copy old nh r n :
  t_pc t = GrowCopy old nh r -> s_heap s !! old = Some n ->
  inv ltb (resume s (update s nh (copy_head n)) i t (GrowSwap old nh r)) C.
Proof.
  intros E Hn. destruct (own_pc _ E) as (H1 & H2 & H3 & (n' & ht & G1 & G2 & (m & Hm & G3 & G4 & G5 & G6 & G7) & G8) & H4).
  rewrite Hn in G1. injection G1 as <-. rewrite <- G5 in G2.
  assert (Hne : nh <> old) by (by intros ->). pose proof (was_head_flag old n H2 Hn) as Hnh.
  assert (He : forall l, l < height m -> n_skip m !! l = Some None).
  { intros l Hl. rewrite G5 in Hl. specialize (G8 l Hl). unfold skip in G8. by rewrite Hm in G8. }
  pose proof (fun k => copy_skip n m k G2 He) as Hcs. pose proof (copy_height n m G2) as Hch.
  assert (Hkeep : forall b x, s_heap s !! b = Some x -> b <> nh -> alter (copy_head n) nh (s_heap s) !! b = Some x).
  { intros b x Hb Hbn. by rewrite list_lookup_alter_ne. }
  apply (inv_update s C C i t _ _ nh m (copy_head n)); rewrite ?E; try done; auto.
  - split; try done; auto; [by cbn; rewrite Hnh|]. intros k. right; right. split; [done|]. split; [by eapply private_head|done].
  - intros _. apply (chains_keep (s_heap s)); [apply Hi| | |].
    + intros b x Hb. destruct (decide (b = nh)) as [->|Hbn]; [|exists x; by rewrite (Hkeep b x Hb Hbn)]. rewrite Hm in Hb. injection Hb as <-.
      exists (copy_head n m). rewrite list_lookup_alter_eq, Hm. cbn. by rewrite Hnh.
    + intros k b Hb. unfold skip. rewrite list_lookup_alter_ne; [done|]. intros <-.
      destruct Hb as [Hb|Hb]; [apply G7; by left|exact (private_head nh m k Hm G3 Hb)].
    + intros b x k y Hb Hy. destruct (decide (b = nh)) as [->|Hbn]; [|rewrite list_lookup_alter_ne in Hb by done; left; unfold skip; by rewrite Hb].
      rewrite list_lookup_alter_eq, Hm in Hb. injection Hb as <-. right. split; [|cbn; by rewrite Hnh].
      assert (Hk : k < height m) by (rewrite <- Hch; by apply lookup_lt_Some in Hy).
      rewrite (Hcs k Hk) in Hy. injection Hy as Hy. destruct (n_skip n !! k) as [o|] eqn:Eo; [|done]. cbn in Hy. subst o.
      by apply (co_ptr _ _ _ _ (i_chains _ _ _ Hi) old n k y).
  - right. split; [|done]. intros ->. apply G7. by left.
  - cbn. congruence.
  - intros Hx. by destruct (private_head nh m 0 Hm G3).
  - intros Hf. show_pc. split_and!; [done|by eapply was_head_frame| | | |by eapply inserted_frame].
    + destruct H3 as [H3 H3']. split; [done|]. intros b ->%list_elem_of_singleton. destruct (H3' old ltac:(by left)) as (x & Hx & Hxl).
      exists x. cbn. by rewrite (Hkeep old x).
    + exists (height m), (copy_head n m). cbn -[height]. rewrite list_lookup_alter_eq, Hm. by rewrite Hch.
    + exists n, (copy_head n m). cbn -[height copy_head]. rewrite list_lookup_alter_eq, Hm, (Hkeep old n), Hch by done. auto.
Qed.

Lemma step_swap_not old nh r : t_pc t = GrowSwap old nh r -> inv ltb (resume s s i t (Unlocking [old] (Return r))) C.
Proof.
  intros E. destruct (own_pc _ E) as (H1 & H2 & H3 & H4 & H5 & H6). apply inv_move; rewrite E; try done; by intros ? [].
Qed.

(** The layers seen from a copy of the head. *)
Lemma chains_swap old nh :
  s_head s = old -> copied (s_heap s) old nh -> (exists m, s_heap s !! nh = Some m /\ n_head m = true) ->
  chains_ok ltb (s_heap s) nh C.
Proof.
  intros <- (n & m & Hn & Hm & C1 & C2 & C3) (m' & Hm' & Hh). rewrite Hm in Hm'. injection Hm' as <-.
  destruct (i_chains _ _ _ Hi) as [H1 H2 H3 H4 H5 H6 H7].
  assert (Hnt : forall k, tall (s_heap s) (s_head s) k <-> k < height n).
  { intros k. split; [intros (x & Hx & ?); rewrite Hn in Hx; by injection Hx as <-|]. intros Hk. by exists n. }
  split; [exists m; split_and!; [done|done|lia]| | |done|done|done|done].
  - intros k (x & Hx & Hk). rewrite Hm in Hx. injection Hx as <-. specialize (C3 k Hk).
    destruct (decide (k < height n)) as [Hkn|Hkn].
    + apply (chain_start _ _ (s_head s)); [|apply H2; by apply Hnt]. unfold skip. rewrite Hn, Hm. cbn. rewrite C3.
      by destruct (lookup_lt_is_Some_2 (n_skip n) k Hkn) as [o ->].
    + rewrite H3 by (by rewrite Hnt). cbn. unfold skip. rewrite Hm. cbn. rewrite C3.
      unfold height in Hkn. by rewrite lookup_ge_None_2 by lia.
  - intros k Hk. apply H3. rewrite Hnt. intros Hkn. apply Hk. exists m. split; [done|lia].
Qed.

Lemma step_swap old nh r :
  t_pc t = GrowSwap old nh r -> s_head s = old -> inv ltb (resume s (with_head s nh) i t (GrowMark old r)) C.
Proof.
  intros E Eold. destruct (own_pc _ E) as (H1 & H2 & H3 & (ht & m & Hm & G3 & G4 & G5 & G6 & G7) & H5 & H6).
  pose proof H5 as (n & m' & Hn & Hm' & C1 & C2 & C3). rewrite Hm in Hm'. injection Hm' as <-.
  pose proof H3 as [_ H3']. destruct (H3' old ltac:(by left)) as (n' & Hn' & Hl). rewrite Hn in Hn'. injection Hn' as <-.
  assert (Hf : frame i s C (resume s (with_head s nh) i t (GrowMark old r)) C).
  { split; cbn; auto. { intros a x Hx. exists x. split; [done|apply node_frame_refl]. }
    right. split_and!; try done; [by exists m|rewrite Eold; by exists n|]. intros k (x & Hx & Hk). rewrite Eold, Hn in Hx.
    injection Hx as <-. exists m. split; [done|lia]. }
  apply (list_inv_next ltb i s _ C C t (mk_thread (t_op t) (GrowMark old r) st (length (s_log s))) Hi Ht).
  split; rewrite ?E; try done; cbn.
  - by rewrite E.
  - eapply chains_swap; [exact Eold|done|by exists m].
  - intros a x Hx [->|Hxh]; [|apply (i_unmarked _ _ _ Hi a x Hx); by right]. rewrite Hm in Hx. injection Hx as <-.
    rewrite C2. apply (i_unmarked _ _ _ Hi old n Hn). by left.
  - congruence.
  - intros a x Hx Hxl. exact (own_guard a x _ Hx E Hxl).
  - intros a x Hx Ha Hxl Hby. destruct (i_linking _ _ _ Hi a x Hx Ha Hxl) as (u & Hu & Hk). rewrite Hby, Ht in Hu.
    injection Hu as <-. by rewrite E in Hk.
  - right. exists r. by rewrite Eold.
  - by left.
  - show_pc. split_and!; [done|done| | |by eapply inserted_frame].
    + cbn. intros ->. by apply G7.
    + right. exists (length (s_log s)). cbn. rewrite Eold. split; [by left|lia].
Qed.

Lemma step_mark old r :
  t_pc t = GrowMark old r -> inv ltb (resume s (update s old set_marked) i t (Unlocking [old] (Return r))) C.
Proof.
  intros E. destruct (own_pc _ E) as (H1 & H2 & H3 & H4 & H5). pose proof H2 as [_ H2']. destruct (H2' old ltac:(by left)) as (n & Hn & Hl).
  apply (inv_update s C C i t _ _ old n set_marked); rewrite ?E; try done; auto.
  - split; cbn; auto.
  - intros _. by eapply chains_flags; [apply Hi|..].
  - right. split; [done|]. by eapply was_head_flag.
  - intros _. by left.
  - intros b r' [= -> ->]. auto.
  - intros Hf. show_pc. split_and!; [done| |by eapply inserted_frame]. eapply held_keep; [done|]. intros b m Hb Hm.
    cbn. destruct (alter_keep _ set_marked old b m Hb) as (m' & Hm' & [[-> ->]|[_ ->]]); eauto.
Qed.
End own.

(** ** The invariant holds throughout *)

Context (getSizeLimit : nat -> nat) (MAX_HEIGHT : nat).

Notation advance' := (advance ltb default_value getSizeLimit MAX_HEIGHT).
Notation step' := (step ltb default_value getSizeLimit MAX_HEIGHT).
Notation reachable' := (reachable ltb default_value getSizeLimit MAX_HEIGHT).

(** Hypotheses of the form [x ← o; f x = Some y]. *)
Ltac run H := repeat (rewrite bind_Some in H; destruct H as (? & ? & H)).

Lemma inv_advance s C i t below s1 c :
  inv ltb s C -> s_threads s !! i = Some t -> advance' s i (t_op t) (t_pc t) below = Some (s1, c) ->
  exists C', inv ltb (resume s s1 i t c) C'.
Proof.
  intros Hi Ht Ha. pose proof (fun c' => own_pc s C Hi i t Ht c') as Hpc. unfold advance, advance_lock, advance_grow, advance_bound, advance_iter in Ha.
  destruct (t_pc t) as [| |ml|layer pred found preds succs|b|b|l p|l p|p|k a p|k a p|a gs|a gs|gs af|a z|ht a z|
    old nh r|old nh r|old nh r|old r| |[|ht] pred node|ht pred|node| |a v|node v|r] eqn:E.
  - injection Ha as <- <-. eexists. by eapply step_idle.
  - run Ha. injection Ha as <- <-. eexists. by eapply step_start.
  - injection Ha as <- <-. eexists. by eapply step_load.
  - run Ha. injection Ha as <- <-. eexists. by eapply step_find.
  - injection Ha as <- <-. eexists. by eapply step_found.
  - destruct (linked (s_heap s) b); [|done]. injection Ha as <- <-. eexists. by eapply step_wait.
  - destruct (Nat.ltb_spec l (pl_height p)) as [Hlt|Hge].
    + rewrite bind_Some in Ha. destruct Ha as (pred & Hp & Ha). destruct (need_lock l p pred) eqn:En.
      * destruct (locked (s_heap s) pred) eqn:El; [done|]. injection Ha as <- <-. eexists. by eapply step_lock.
      * injection Ha as <- <-. eexists. by eapply step_nolock.
    + injection Ha as <- <-. eexists. eapply step_locked; [done|done|exact E|lia].
  - run Ha. injection Ha as <- <-. eexists. by eapply step_check.
  - injection Ha as <- <-. eexists. by eapply step_create.
  - run Ha. injection Ha as <- <-. eexists. by eapply step_link_new.
  - run Ha. injection Ha as <- <-. by eapply step_link_pred.
  - injection Ha as <- <-. eexists. by eapply step_set_linked.
  - injection Ha as <- <-. eexists. by eapply step_count.
  - destruct gs as [|g gs].
    + eexists. replace (resume s s1 i t c) with (resume s s i t (match af with Retry => Start | Counted a z => CheckSize a z | Return r => Done r end));
        [by eapply step_unlocked|]. by destruct af; injection Ha as <- <-.
    + injection Ha as <- <-. eexists. by eapply step_unlock.
  - run Ha. injection Ha as <- <-. eexists. eapply step_check_size; [done|done|exact E|].
    destruct (_ && _); eauto.
  - rewrite bind_Some in Ha. destruct Ha as (n & Hn & Ha). destruct (Nat.leb_spec ht (height n)); injection Ha as <- <-; eexists.
    + by eapply step_grow_not.
    + by eapply step_grow_load.
  - destruct (locked (s_heap s) old) eqn:El; [done|]. injection Ha as <- <-. eexists. by eapply step_grow_lock.
  - run Ha. injection Ha as <- <-. eexists. by eapply step_grow_copy.
  - destruct (Nat.eqb_spec (s_head s) old); injection Ha as <- <-; eexists.
    + by eapply step_swap.
    + by eapply step_swap_not.
  - injection Ha as <- <-. eexists. by eapply step_mark.
  - run Ha. injection Ha as <- <-. eexists. by eapply step_top.
  - injection Ha as <- <-. eexists. by eapply step_bottom.
  - run Ha. injection Ha as <- <-. eexists. eapply step_down; [done|done|left; exact E|done].
  - run Ha. injection Ha as <- <-. eexists. eapply (step_down _ _ Hi _ _ Ht _ _ _ None); [right; exact E|done].
  - destruct (step_position s C Hi i t Ht node E) as [Hm Hpos]. exists C. destruct node as [a|]; [rewrite (Hm a eq_refl) in Ha|];
      by injection Ha as <- <-.
  - injection Ha as <- <-. eexists. by eapply step_first.
  - run Ha. injection Ha as <- <-. eexists. by eapply step_next.
  - destruct (step_visit s C Hi i t Ht node v E) as [Hm Hpos]. exists C. destruct node as [a|]; [rewrite (Hm a eq_refl) in Ha|];
      by injection Ha as <- <-.
  - done.
Qed.

Lemma inv_step s C i below s' : inv ltb s C -> step' s i below = Some s' -> exists C', inv ltb s' C'.
Proof.
  intros Hi Hs. unfold step in Hs. rewrite bind_Some in Hs. destruct Hs as (t & Ht & Hs).
  rewrite bind_Some in Hs. destruct Hs as ([s1 c] & Ha & Hs). injection Hs as <-. by eapply inv_advance.
Qed.

Lemma inv_make hh ops : 0 < hh -> inv ltb (make default_value hh ops) (fun _ => []).
Proof.
  intros Hh.
  assert (Hn : forall a n, [create hh default_value true 0] !! a = Some n -> a = 0 /\ n = create hh default_value true 0).
  { intros a n H. by apply list_lookup_singleton_Some in H as [-> <-]. }
  assert (Hsk : forall k, k < hh -> skip [create hh default_value true 0] 0 k = Some None) by (intros k Hk; cbn; by apply lookup_replicate_2).
  assert (Hlen : height (create hh default_value true 0) = hh) by apply length_replicate.
  split; cbn.
  - split.
    + exists (create hh default_value true 0). by rewrite Hlen.
    + intros k (n & Hk & Hlt). apply Hn in Hk as [_ ->]. rewrite Hlen in Hlt. by apply Hsk.
    + done.
    + intros k a Ha. by apply elem_of_nil in Ha.
    + done.
    + constructor.
    + intros a n k b [-> ->]%Hn Hb. by apply create_skip in Hb as [_ ?].
  - by intros a n [-> ->]%Hn _.
  - intros a m Ha. by apply elem_of_nil in Ha.
  - done.
  - intros m j e x Hx. by rewrite lookup_nil in Hx.
  - constructor.
  - intros j e He. by apply elem_of_nil in He.
  - by intros a n j [-> ->]%Hn.
  - intros a n _ Ha. by apply elem_of_nil in Ha.
  - intros j t Ht. apply list_lookup_fmap_Some in Ht as (o & -> & Ho). split; cbn; [lia|done|].
    apply not_elem_of_nil.
Qed.

(** Every reachable state has its layers. *)
Lemma list_reachable_inv hh ops s : 0 < hh -> reachable' hh ops s -> exists C, inv ltb s C.
Proof.
  intros Hh. induction 1 as [|s i below s' _ [C Hi] Hs].
  - eexists. by apply inv_make.
  - by eapply inv_step.
Qed.
End steps.
