(* ===== verification/SkiplistLin.v ===== *)
(** * The concurrent skiplist is a linearizable set

    Insertions and lookups of a memtable take effect at one point between
    their first and last step, whatever the interleaving and while the head
    is replaced by taller ones; the calls never deadlock. *)

From stdpp Require Import base numbers option list sorting.
From Stdlib Require Import Lia.
From S2P Require Import Prelude Skiplist SkiplistInv SkiplistSteps.

(** The cases of a step. *)
Ltac outcomes H :=
  repeat first [progress simplify_eq | rewrite bind_Some in H; destruct H as (? & ? & H) | case_match].

Section linearizable.
Context {T : Type} `{!Inhabited T} (ltb : T -> T -> bool) `{!Comparator ltb}.
Context (default_value : T) (getSizeLimit : nat -> nat) (MAX_HEIGHT : nat).
Implicit Types (s : state (T := T)) (C : nat -> list nat) (t : thread (T := T)) (c : pc) (a b i j k : nat) (d : T).

Notation advance' := (advance ltb default_value getSizeLimit MAX_HEIGHT).

(** ** Layers *)

(** The nodes of a layer, by walking it. *)
Fixpoint path (fuel : nat) (h : list (node (T := T))) (k : nat) (o : option nat) : list nat :=
  match fuel, o with
  | S fuel, Some a => a :: path fuel h k (mjoin (skip h a k))
  | _, _ => []
  end.
Definition layer s k : list nat := path (length (s_heap s)) (s_heap s) k (mjoin (skip (s_heap s) (s_head s) k)).

(** What the list holds: the data along layer 0. *)
Fixpoint walk (fuel : nat) (h : list (node (T := T))) (o : option nat) : list T :=
  match fuel, o with
  | S fuel, Some a => match h !! a with
                      | Some n => n_data n :: walk fuel h (mjoin (n_skip n !! 0))
                      | None => []
                      end
  | _, _ => []
  end.
Definition contents s : list T :=
  walk (length (s_heap s)) (s_heap s) (mjoin (skip (s_heap s) (s_head s) 0)).

Lemma path_chain (h : list (node (T := T))) k a l fuel :
  chain h k a l -> length l <= fuel -> path fuel h k (mjoin (skip h a k)) = l.
Proof.
  revert a fuel. induction l as [|b l IH]; intros a fuel; cbn.
  - intros -> _. by destruct fuel.
  - intros [-> H] Hf. destruct fuel as [|fuel]; [lia|]. cbn. f_equal. apply IH; [done|lia].
Qed.

Lemma chain_length s C k : inv ltb s C -> length (C k) <= length (s_heap s).
Proof.
  intros Hi. pose proof (sorted_NoDup ltb (s_heap s) _ (co_sorted _ _ _ _ (i_chains _ _ _ Hi) k)) as Hnd.
  rewrite <- (length_seq (length (s_heap s)) 0). apply submseteq_length, NoDup_submseteq; [done|]. intros a Ha.
  destruct (co_mem _ _ _ _ (i_chains _ _ _ Hi) k a Ha) as (n & Hn & _). apply lookup_lt_Some in Hn. apply elem_of_seq. lia.
Qed.

Lemma layer_chain s C k : inv ltb s C -> layer s k = C k.
Proof.
  intros Hi. destruct (co_head _ _ _ _ (i_chains _ _ _ Hi)) as (n & Hn & _).
  destruct (decide (k < height n)) as [Hk|Hk].
  - apply path_chain; [|by apply chain_length]. apply (co_chain _ _ _ _ (i_chains _ _ _ Hi)). by exists n.
  - rewrite (co_above _ _ _ _ (i_chains _ _ _ Hi)) by (intros (m & Hm & ?); simplify_eq; done).
    unfold layer, skip. rewrite Hn. cbn. unfold height in Hk. rewrite lookup_ge_None_2 by lia. cbn. by destruct (length (s_heap s)).
Qed.

Lemma walk_path fuel h k o : k = 0 -> walk fuel h o = data_of (T := T) h (path fuel h k o).
Proof.
  intros ->. revert o. induction fuel as [|fuel IH]; intros [a|]; try done. cbn [walk path]. rewrite data_of_cons.
  unfold skip. destruct (h !! a) as [n|] eqn:En; cbn; [by rewrite IH|]. by destruct fuel.
Qed.

Lemma contents_data s C : inv ltb s C -> contents s = data_of (s_heap s) (C 0).
Proof. intros Hi. unfold contents. rewrite (walk_path _ _ 0) by done. by rewrite <- (layer_chain s C 0 Hi). Qed.

(** ** Linearizability *)

(** What a finished call may answer, given the log: an insertion is in the
    log at a position inside the call, where no equal datum was present; it
    finds an equal datum present at such a position; a lookup returns the
    first node that was not less then; a scan visits, in order, everything
    in its range that was there when it began, and only what was inserted. *)
Definition answers s j t (r : result) : Prop :=
  match t_op t, r with
  | Insert d, Inserted a _ => exists m n, t_start t <= m < t_last t /\ s_log s !! m = Some (j, d) /\
      s_heap s !! a = Some n /\ n_data n = d /\
      forall x, x ∈ replay ltb (take m (s_log s)) -> ltb x d = true \/ ltb d x = true
  | Insert d, Existing b => j ∉ (s_log s).*1 /\ exists m n, t_start t <= m <= t_last t /\ s_heap s !! b = Some n /\
      n_data n ∈ replay ltb (take m (s_log s)) /\ ltb (n_data n) d = false /\ ltb d (n_data n) = false
  | LowerBound d, Position o => j ∉ (s_log s).*1 /\ exists m, t_start t <= m <= t_last t /\
      first_not_less ltb d (replay ltb (take m (s_log s))) = n_data <$> (o ≫= (s_heap s !!.))
  | Scan lower, Visited v => j ∉ (s_log s).*1 /\ StronglySorted (dlt ltb (s_heap s)) v /\
      (forall a, a ∈ v -> exists n, s_heap s !! a = Some n /\ in_bound ltb lower (n_data n) /\ n_data n ∈ replay ltb (s_log s)) /\
      forall x, x ∈ replay ltb (take (t_start t) (s_log s)) -> in_bound ltb lower x -> x ∈ data_of (s_heap s) v
  | _, _ => False
  end.

Lemma inv_answers s C j t r : inv ltb s C -> s_threads s !! j = Some t -> t_pc t = Done r -> answers s j t r.
Proof.
  intros Hi Ht Hr. pose proof (i_threads _ _ _ Hi j t Ht) as [_ G2 G3]. unfold pc_ok in G2. unfold log_ok in G3.
  rewrite Hr in G2, G3. unfold answers. destruct r as [a z|b|o|v]; cbn in G2, G3.
  - destruct G3 as (m & Hm & Hlog). destruct (i_calls _ _ _ Hi _ _ (list_elem_of_lookup_2 _ _ _ Hlog)) as (u & Hu & Ho).
    rewrite Ht in Hu. injection Hu as <-. rewrite Ho in *. cbn in *. destruct G2 as [_ (n & Hn & Hd)].
    exists m, n. split_and!; [lia|lia|done|done|done|]. intros x Hx. by eapply (i_new _ _ _ Hi).
  - destruct G2 as (G4 & (n & Hn & G5 & G6) & _ & m & n' & Hm & Hn' & Hin). rewrite Hn in Hn'. injection Hn' as <-.
    destruct (t_op t); [|done|done]. split; [done|]. exists m, n. split_and!; try done; lia.
  - destruct G2 as (G4 & _ & m & Hm & Hd). destruct (t_op t); [done| |done]. split; [done|]. exists m. split; [lia|done].
  - destruct G2 as (G4 & [S1 S2 S3 S4 S5]). destruct (t_op t) as [| |lower]; [done|done|]. split_and!; [done|done| |].
    + intros a Ha. destruct (co_mem _ _ _ _ (i_chains _ _ _ Hi) 0 a (S1 a (or_introl Ha))) as (n & Hn & _).
      exists n. split_and!; [done|by eapply S4; [left|]|]. rewrite <- (i_log _ _ _ Hi). apply data_of_elem.
      exists a, n. split; [by apply S1; left|done].
    + intros x Hx Hb. by apply S5.
Qed.

Lemma reachable_ops hh ops s : reachable ltb default_value getSizeLimit MAX_HEIGHT hh ops s -> t_op <$> s_threads s = ops.
Proof.
  induction 1 as [|s i below s' _ IH Hs].
  - cbn. rewrite <- list_fmap_compose. induction ops as [|o ops IHo]; [done|]. cbn. by f_equal.
  - rewrite <- IH. unfold step in Hs. rewrite bind_Some in Hs. destruct Hs as (t & Ht & Hs). rewrite bind_Some in Hs.
    destruct Hs as ([s1 c] & Ha & Hs). injection Hs as <-. cbn.
    assert (Et : s_threads s1 = s_threads s).
    { unfold advance, advance_lock, advance_grow, advance_bound, advance_iter in Ha. destruct (t_pc t); by outcomes Ha. }
    rewrite Et, list_fmap_insert. cbn. apply list_insert_id. by rewrite list_lookup_fmap, Ht.
Qed.

(** C11: after any interleaving of insertions, lookups and replacements of
    the head, the data along layer 0 are what the logged insertions give one
    after the other, in strict order; every logged insertion is of a call
    that was made, and no call is logged twice. *)
Theorem skiplist_contents hh ops s :
  0 < hh -> reachable ltb default_value getSizeLimit MAX_HEIGHT hh ops s ->
  contents s = replay ltb (s_log s) /\ StronglySorted (fun x y => ltb x y = true) (contents s) /\
  NoDup (s_log s).*1 /\ (forall j e, (j, e) ∈ s_log s -> ops !! j = Some (Insert e)).
Proof.
  intros Hh Hr. destruct (list_reachable_inv ltb default_value getSizeLimit MAX_HEIGHT hh ops s Hh Hr) as [C Hi].
  rewrite (contents_data s C Hi), (i_log _ _ _ Hi). split_and!; [done|by apply replay_strict|apply Hi|].
  intros j e He. destruct (i_calls _ _ _ Hi j e He) as (t & Ht & Ho). rewrite <- (reachable_ops hh ops s Hr).
  by rewrite list_lookup_fmap, Ht, <- Ho.
Qed.

(** C6: insertions and lookups are linearizable, and scans are bounded by
    their call. A finished insertion or lookup answers as the set did at one
    position of the log between its first and its last step: the insertion
    of a new datum is at its own position, one of an existing datum and a
    lookup see the set at some position. A finished scan, which is not
    atomic, visits in order only data of its range that were inserted at some
    time, and among them all that were in the set when it began. *)
Theorem skiplist_linearizable hh ops s j t r :
  0 < hh -> reachable ltb default_value getSizeLimit MAX_HEIGHT hh ops s -> s_threads s !! j = Some t -> t_pc t = Done r ->
  ops !! j = Some (t_op t) /\ answers s j t r.
Proof.
  intros Hh Hr Ht Hd. destruct (list_reachable_inv ltb default_value getSizeLimit MAX_HEIGHT hh ops s Hh Hr) as [C Hi].
  split; [by rewrite <- (reachable_ops hh ops s Hr), list_lookup_fmap, Ht|by eapply inv_answers].
Qed.

(** Two strictly ordered lists with the same elements are equal. *)
Lemma strict_ext l1 l2 :
  StronglySorted (fun x y => ltb x y = true) l1 -> StronglySorted (fun x y => ltb x y = true) l2 ->
  (forall x, x ∈ l1 <-> x ∈ l2) -> l1 = l2.
Proof.
  intros H1. revert l2. induction H1 as [|x l1 Hs IH Hx]; intros l2 H2 Hel.
  - destruct l2 as [|y l2]; [done|]. pose proof (proj2 (Hel y) ltac:(by left)) as Hy. by apply elem_of_nil in Hy.
  - destruct H2 as [|y l2 Hs2 Hy]; [pose proof (proj1 (Hel x) ltac:(by left)) as Hn; by apply elem_of_nil in Hn|].
    rewrite Forall_forall in Hx, Hy.
    assert (x = y) as ->.
    { pose proof (proj1 (Hel x) ltac:(by left)) as [->|Hxl]%elem_of_cons; [done|].
      pose proof (proj2 (Hel y) ltac:(by left)) as [->|Hyl]%elem_of_cons; [done|]. exfalso.
      specialize (Hx y Hyl). specialize (Hy x Hxl). by rewrite (ltb_asym ltb _ _ Hx) in Hy. }
    f_equal. apply IH; [done|]. intros z. specialize (Hel z). rewrite !elem_of_cons in Hel.
    split; intros Hz.
    + destruct Hel as [Hel _]. destruct (Hel (or_intror Hz)) as [->|?]; [|done]. specialize (Hx y Hz). by rewrite cmp_irrefl in Hx.
    + destruct Hel as [_ Hel]. destruct (Hel (or_intror Hz)) as [->|?]; [|done]. specialize (Hy y Hz). by rewrite cmp_irrefl in Hy.
Qed.

Definition in_boundb (lower : option T) (x : T) : bool := match lower with Some d => negb (ltb x d) | None => true end.

Lemma in_boundb_spec lower x : in_boundb lower x = true <-> in_bound ltb lower x.
Proof. destruct lower; cbn; [apply negb_true_iff|done]. Qed.

Lemma data_sorted (h : list (node (T := T))) l : StronglySorted (dlt ltb h) l -> StronglySorted (fun x y => ltb x y = true) (data_of h l).
Proof.
  induction 1 as [|a l _ IH Ha]; [constructor|]. rewrite data_of_cons. destruct (h !! a) as [n|] eqn:En; [|done].
  constructor; [done|]. apply Forall_forall. intros x Hx. apply data_of_elem in Hx as (b & m & Hb & Hm & <-).
  rewrite Forall_forall in Ha. destruct (Ha b Hb) as (n' & m' & H1 & H2 & H3). by simplify_eq.
Qed.

Lemma filter_strict (P : T -> Prop) `{!forall x, Decision (P x)} l :
  StronglySorted (fun x y => ltb x y = true) l -> StronglySorted (fun x y => ltb x y = true) (filter P l).
Proof.
  induction 1 as [|x l _ IH Hx]; [constructor|]. rewrite filter_cons. destruct (decide (P x)); [|done]. constructor; [done|].
  apply Forall_forall. intros y Hy. apply list_elem_of_filter in Hy as [_ Hy]. rewrite Forall_forall in Hx. auto.
Qed.

(** A scan beside which nothing is inserted, as that of the flush of a
    frozen table, visits exactly the elements of its range, in order. *)
Theorem skiplist_scan_exact hh ops s j t lower v :
  0 < hh -> reachable ltb default_value getSizeLimit MAX_HEIGHT hh ops s -> s_threads s !! j = Some t -> t_op t = Scan lower -> t_pc t = Done (Visited v) ->
  t_start t = length (s_log s) ->
  data_of (s_heap s) v = filter (fun x => in_boundb lower x = true) (contents s).
Proof.
  intros Hh Hr Ht Ho Hd Hst. destruct (list_reachable_inv ltb default_value getSizeLimit MAX_HEIGHT hh ops s Hh Hr) as [C Hi].
  pose proof (inv_answers s C j t _ Hi Ht Hd) as Ha. unfold answers in Ha. rewrite Ho in Ha.
  destruct Ha as (_ & H1 & H2 & H3). rewrite (contents_data s C Hi), (i_log _ _ _ Hi). rewrite Hst, firstn_all in H3.
  apply strict_ext; [by apply data_sorted|apply filter_strict, replay_strict; done|].
  intros x. rewrite list_elem_of_filter, in_boundb_spec. split.
  - intros Hx. apply data_of_elem in Hx as (a & n & Ha & Hn & <-). destruct (H2 a Ha) as (n' & Hn' & G1 & G2).
    rewrite Hn in Hn'. injection Hn' as <-. done.
  - intros [G1 G2]. by apply H3.
Qed.

(** In every reachable state each layer is in strict order, holds only
    nodes that are tall enough, are not heads and are not marked, and is
    contained in the layer below. *)
Theorem skiplist_layers hh ops s k :
  0 < hh -> reachable ltb default_value getSizeLimit MAX_HEIGHT hh ops s ->
  StronglySorted (dlt ltb (s_heap s)) (layer s k) /\
  (forall a, a ∈ layer s (S k) -> a ∈ layer s k) /\
  (forall a, a ∈ layer s k -> exists n, s_heap s !! a = Some n /\ n_head n = false /\ n_marked n = false /\ k < height n).
Proof.
  intros Hh Hr. destruct (list_reachable_inv ltb default_value getSizeLimit MAX_HEIGHT hh ops s Hh Hr) as [C Hi].
  rewrite !(layer_chain s C _ Hi). pose proof (i_chains _ _ _ Hi) as Hc. split; [apply Hc|]. split; [apply (co_sub _ _ _ _ Hc)|].
  intros a Ha. destruct (co_mem _ _ _ _ Hc k a Ha) as (n & Hn & H1 & H2). exists n. split_and!; try done.
  apply (i_unmarked _ _ _ Hi a n Hn). by right.
Qed.

(** ** Deadlock freedom *)

(** What a thread that cannot move waits for. *)
Definition waits s t : Prop :=
  match t_pc t with
  | Waiting b => linked (s_heap s) b = false
  | Locking l p => exists pred, l < pl_height p /\ pl_preds p !! l = Some pred /\ need_lock l p pred = true /\ locked (s_heap s) pred = true
  | GrowLock old _ _ => locked (s_heap s) old = true
  | _ => False
  end.

Lemma tall_skip (h : list (node (T := T))) a k : tall h a k -> exists o, skip h a k = Some o.
Proof. intros (n & Hn & Hk). unfold skip. rewrite Hn. cbn. by destruct (lookup_lt_is_Some_2 (n_skip n) k Hk) as [o ->]; eauto. Qed.

Lemma progress s C i t below :
  inv ltb s C -> s_threads s !! i = Some t -> (forall r, t_pc t <> Done r) -> ~ waits s t ->
  exists x, advance' s i (t_op t) (t_pc t) below = Some x.
Proof.
  intros Hi Ht Hd Hw. pose proof (own_pc ltb s C Hi i t Ht) as Hpc. unfold waits in Hw.
  destruct (co_head _ _ _ _ (i_chains _ _ _ Hi)) as (nh & Hnh & _).
  assert (Hlk : forall st' d' p k, plan_ok ltb s C st' d' p -> k < pl_height p ->
    (exists a, pl_preds p !! k = Some a) /\ exists o, pl_succs p !! k = Some o).
  { intros st' d' p k [P1 P2 _ _ _] Hk. split; apply lookup_lt_is_Some_2; lia. }
  destruct (t_pc t) as [| |ml|layer pred found preds succs|b|b|l p|l p|p|k a p|k a p|a gs|a gs|[|g gs] af|a z|ht a z|
    old nh' r|old nh' r|old nh' r|old r| |[|ht] pred node|ht pred|node| |a v|node v|r] eqn:E; unfold advance, advance_lock, advance_grow, advance_bound, advance_iter; rewrite ?Hnh; cbn -[Nat.ltb Nat.eqb]; try (by eauto);
    specialize (Hpc _ eq_refl); unfold pc_ok in Hpc; cbn [t_op t_pc t_start t_last] in Hpc.
  - destruct Hpc as (_ & [Ht' _] & _). destruct (tall_skip _ _ _ Ht') as [o ->]. cbn. eauto.
  - destruct (linked (s_heap s) b); [eauto|done].
  - destruct (Nat.ltb_spec l (pl_height p)) as [Hl|Hl]; [|eauto]. destruct Hpc as (_ & Hp & _).
    destruct (Hlk _ _ _ _ Hp Hl) as [[pred Hpr] _]. rewrite Hpr. cbn -[need_lock]. destruct (need_lock l p pred) eqn:En; [|eauto].
    destruct (locked (s_heap s) pred) eqn:El; [|eauto]. destruct Hw. by exists pred.
  - destruct Hpc as (_ & Hp & _ & Hl & _). destruct (Hlk _ _ _ _ Hp Hl) as [[pred ->] [o ->]]. cbn. eauto.
  - destruct Hpc as (_ & Hp & _ & Hl & _). destruct (Hlk _ _ _ _ Hp Hl) as [_ [o ->]]. cbn. eauto.
  - destruct Hpc as (_ & Hp & _ & Hl & _). destruct (Hlk _ _ _ _ Hp Hl) as [[pred ->] _]. cbn. eauto.
  - destruct af; eauto.
  - destruct (locked (s_heap s) old); [by destruct Hw|eauto].
  - destruct Hpc as (_ & _ & [_ Hh] & _). destruct (Hh old ltac:(by left)) as (n & -> & _). cbn. eauto.
  - destruct (s_head s =? old); eauto.
  - destruct Hpc as [_ [Ht' _]]. destruct (tall_skip _ _ _ Ht') as [o ->]. cbn. eauto.
  - destruct Hpc as [_ [Ht' _]]. destruct (tall_skip _ _ _ Ht') as [o ->]. cbn. eauto.
  - destruct (step_position ltb s C Hi i t Ht node E) as [Hm _]. destruct node as [a|]; [rewrite (Hm a eq_refl)|]; eauto.
  - destruct Hpc as [_ [Ht' _]]. destruct (tall_skip _ _ _ Ht') as [o ->]. cbn. eauto.
  - destruct (step_visit ltb s C Hi i t Ht node v E) as [Hm _]. destruct node as [a|]; [rewrite (Hm a eq_refl)|]; eauto.
  - by destruct (Hd r).
Qed.

(** Locks are waited for in one direction. *)
Definition beforeb (h : list (node (T := T))) a b : bool :=
  match h !! a, h !! b with
  | Some n, Some m => negb (n_head m) && (n_head n || ltb (n_data n) (n_data m))
  | _, _ => false
  end.

Lemma beforeb_before h a b : beforeb h a b = true <-> before ltb h a b.
Proof.
  unfold beforeb, before. destruct (h !! a) as [n|], (h !! b) as [m|]; try (split; [done|by intros (?&?&?&?&_)]).
  rewrite andb_true_iff, negb_true_iff, orb_true_iff. split.
  - intros [H1 H2]. by exists n, m.
  - intros (n' & m' & H1 & H2 & H3 & H4). by simplify_eq.
Qed.

Definition rank (h : list (node (T := T))) a : nat := length (filter (fun x => beforeb h x a = true) (seq 0 (length h))).

Lemma before_irrefl h a : ~ before ltb h a a.
Proof. intros (n & m & H1 & H2 & H3 & H4). simplify_eq. destruct H4 as [H4|H4]; [congruence|]. by rewrite cmp_irrefl in H4. Qed.

Lemma rank_before h a b : before ltb h a b -> rank h a < rank h b.
Proof.
  intros Hab. unfold rank. assert (Ha : a < length h) by (destruct Hab as (n & _ & Hn & _); by apply lookup_lt_Some in Hn).
  apply (Nat.lt_le_trans _ (length (a :: filter (fun x => beforeb h x a = true) (seq 0 (length h))))); [cbn; lia|].
  apply submseteq_length, NoDup_submseteq.
  - constructor; [|apply NoDup_filter, NoDup_seq]. rewrite list_elem_of_filter, beforeb_before. intros [H _]. by apply before_irrefl in H.
  - intros x. rewrite elem_of_cons, !list_elem_of_filter, !beforeb_before. intros [->|[H1 H2]].
    + split; [done|]. apply elem_of_seq. lia.
    + split; [by eapply before_trans|done].
Qed.

Lemma descending_before h l k a b :
  descending ltb h l -> k < length l -> forall k', k' <= k -> l !! k' = Some a -> l !! k = Some b -> b = a \/ before ltb h b a.
Proof.
  revert k a. induction l as [|x l IH]; intros k a Hd Hk k' Hk' Ha Hb; [done|]. destruct k' as [|k'].
  - injection Ha as ->. destruct k as [|k]; [injection Hb as ->; by left|]. destruct l as [|y l]; [done|]. destruct Hd as [H1 H2].
    destruct (IH k y H2 ltac:(cbn in *; lia) 0 ltac:(lia) eq_refl Hb) as [->|H3]; [done|]. right.
    destruct H1 as [->|H1]; [done|by eapply before_trans].
  - destruct k as [|k]; [lia|]. destruct l as [|y l]; [done|]. destruct Hd as [_ H2]. apply (IH k a H2 ltac:(cbn in *; lia) k'); [lia|done|done].
Qed.

Lemma waits_dec s t : waits s t \/ ~ waits s t.
Proof.
  unfold waits. destruct (t_pc t) as [| | | | |b|l p| | | | | | | | | |old ? ?| | | | | | | | | | |]; try (right; by intros []).
  - destruct (linked (s_heap s) b); auto.
  - destruct (decide (l < pl_height p)) as [Hl|Hl]; [|right; by intros (? & ? & _)].
    destruct (pl_preds p !! l) as [pred|]; [|right; by intros (? & _ & ? & _)].
    destruct (need_lock l p pred) eqn:En; [|right; intros (? & _ & [= <-] & ? & _); congruence].
    destruct (locked (s_heap s) pred) eqn:El; [left; eauto|right; intros (? & _ & [= <-] & _ & ?); congruence].
  - destruct (locked (s_heap s) old); auto.
Qed.

Definition movable s : Prop :=
  exists i t, s_threads s !! i = Some t /\ (forall r, t_pc t <> Done r) /\ ~ waits s t.

(** Some thread moves while a lock is held: the holder, or the holder of
    a lock that comes before. *)
Lemma locked_movable s C N a n j :
  inv ltb s C -> rank (s_heap s) a < N -> s_heap s !! a = Some n -> n_lock n = Some j -> movable s.
Proof.
  intros Hi. revert a n j. induction N as [|N IH]; intros a n j HN Hn Hl; [lia|].
  destruct (i_locks _ _ _ Hi a n j Hn Hl) as (t & Ht & Hg). destruct (waits_dec s t) as [Hw|Hw].
  2: { exists j, t. split_and!; [done| |done]. intros r Hr. rewrite Hr in Hg. by apply elem_of_nil in Hg. }
  unfold waits in Hw. destruct (t_pc t) as [| | | | |b|l p| | | | | | | | | |old ? ?| | | | | | | | | | |] eqn:E; try done;
    try (by apply elem_of_nil in Hg).
  destruct Hw as (pred & Hlt & Hp & Hneed & Hlk).
  pose proof (own_pc ltb s C Hi j t Ht _ E) as (_ & Hplan & [_ Hgs] & _). apply Hgs in Hg as (l' & Hl' & Ha).
  destruct Hplan as [P1 P2 P3 P4 P5]. destruct l as [|l]; [lia|].
  destruct (lookup_lt_is_Some_2 (pl_preds p) l ltac:(lia)) as [q Hq].
  assert (Hb : before ltb (s_heap s) pred a).
  { destruct (descending_before _ _ (S l) q pred P5 ltac:(lia) l ltac:(lia) Hq Hp) as [->|H1].
    - unfold need_lock in Hneed. rewrite Hq in Hneed. by rewrite bool_decide_eq_true_2 in Hneed.
    - destruct (descending_before _ _ l a q P5 ltac:(lia) l' ltac:(lia) Ha Hq) as [->|H2]; [done|by eapply before_trans]. }
  pose proof (rank_before _ _ _ Hb). unfold locked in Hlk. destruct Hb as (np & _ & Hnp & _). rewrite Hnp in Hlk.
  apply bool_decide_eq_true in Hlk. destruct (n_lock np) as [j'|] eqn:Ej; [|done]. eapply (IH pred np j'); [lia|done|done].
Qed.

Lemma inv_movable s C i t : inv ltb s C -> s_threads s !! i = Some t -> (forall r, t_pc t <> Done r) -> movable s.
Proof.
  intros Hi Ht Hd. destruct (waits_dec s t) as [Hw|Hw]; [|by exists i, t].
  assert (Hlk : forall a n, s_heap s !! a = Some n -> locked (s_heap s) a = true -> movable s).
  { intros a n Hn Hl. unfold locked in Hl. rewrite Hn in Hl. apply bool_decide_eq_true in Hl.
    destruct (n_lock n) as [j|] eqn:Ej; [|done]. by eapply (locked_movable s C _ a n j Hi (Nat.lt_succ_diag_r _)). }
  unfold waits in Hw. destruct (t_pc t) as [| | | | |b|l p| | | | | | | | | |old ? ?| | | | | | | | | | |] eqn:E; try done;
    pose proof (own_pc ltb s C Hi i t Ht _ E) as Hpc; unfold pc_ok in Hpc; cbn [t_op t_pc t_start t_last] in Hpc.
  - destruct Hpc as (_ & Hb & (n & Hn & _)). unfold linked in Hw. rewrite Hn in Hw.
    destruct (i_linking _ _ _ Hi b n Hn Hb Hw) as (u & Hu & Hk). exists (n_by n), u. unfold waits.
    split; [done|]. destruct (t_pc u); try done; (split; [done|by intros []]).
  - destruct Hw as (pred & _ & Hp & _ & Hl). destruct Hpc as (_ & [_ _ P3 _ _] & _).
    destruct (P3 l pred Hp) as [(n & Hn & _) _]. by eapply Hlk.
  - destruct Hpc as (_ & _ & (n & ht & Hn & _) & _). by eapply Hlk.
Qed.

Definition finished t : bool := match t_pc t with Done _ => true | _ => false end.

(** C23: the calls never deadlock: in every reachable state in which some
    call has not finished, some call can take a step. *)
Theorem skiplist_deadlock_free hh ops s j t :
  0 < hh -> reachable ltb default_value getSizeLimit MAX_HEIGHT hh ops s -> s_threads s !! j = Some t -> finished t = false ->
  exists i, forall below, exists s', step ltb default_value getSizeLimit MAX_HEIGHT s i below = Some s'.
Proof.
  intros Hh Hr Ht Hd. destruct (list_reachable_inv ltb default_value getSizeLimit MAX_HEIGHT hh ops s Hh Hr) as [C Hi].
  assert (Hd' : forall r, t_pc t <> Done r) by (intros r E; unfold finished in Hd; by rewrite E in Hd).
  destruct (inv_movable s C j t Hi Ht Hd') as (i & u & Hu & Hu1 & Hu2). exists i. intros below.
  destruct (progress s C i u below Hi Hu Hu1 Hu2) as [[s1 c] Ha]. unfold step. rewrite Hu. cbn. rewrite Ha. cbn. eauto.
Qed.

(** ** The size *)

(** An insertion that is in the list and not yet counted. *)
Definition uncounted c : nat :=
  match c with
  | LinkNew k _ _ | LinkPred k _ _ => if k =? 0 then 0 else 1
  | SetLinked _ _ | Counting _ _ => 1
  | _ => 0
  end.
Definition in_flight s : nat := sum_list_with (fun t => uncounted (t_pc t)) (s_threads s).

Lemma advance_counts s i o c below s1 c' :
  advance' s i o c below = Some (s1, c') ->
  length (s_log s1) + s_size s + uncounted c = length (s_log s) + s_size s1 + uncounted c' /\ s_threads s1 = s_threads s.
Proof.
  intros Ha. unfold advance, advance_lock, advance_grow, advance_bound, advance_iter in Ha. destruct c as [| |ml|layer pred found preds succs|b|b|l p|l p|p|k a p|k a p|a gs|a gs|[|g gs] [| |]|a z|ht a z|
    old nh' r|old nh' r|old nh' r|old r| |[|ht] pred node|ht pred|node| |a v|node v|r].
  4: { outcomes Ha. unfold find_step. split; [|done].
       destruct (if greater _ _ _ _ then _ else _); [done|]. destruct layer; [|done]. by destruct (match found with Some _ => _ | None => _ end). }
  10: { outcomes Ha; cbn -[Nat.ltb]; rewrite ?length_app; cbn -[Nat.eqb]; split; try done; repeat case_match; simplify_eq; lia. }
  all: outcomes Ha; try (cbn; split; done || lia).
  all: split; [|done]; unfold down_step, bound_found; repeat case_match; done.
Qed.

Lemma sum_insert {A} (f : A -> nat) l i x y :
  l !! i = Some x -> sum_list_with f (<[i := y]> l) + f x = sum_list_with f l + f y.
Proof.
  revert i. induction l as [|z l IH]; intros [|i] Hi; try done; cbn.
  - injection Hi as ->. lia.
  - rewrite <- (Nat.add_assoc (f z)). etrans; [apply (f_equal (Nat.add (f z))), (IH i Hi)|lia].
Qed.

Lemma reachable_count hh ops s : reachable ltb default_value getSizeLimit MAX_HEIGHT hh ops s -> length (s_log s) = s_size s + in_flight s.
Proof.
  induction 1 as [|s i below s' _ IH Hs].
  - cbn. unfold in_flight. cbn. induction ops; [done|cbn; lia].
  - unfold step in Hs. rewrite bind_Some in Hs. destruct Hs as (t & Ht & Hs). rewrite bind_Some in Hs.
    destruct Hs as ([s1 c] & Ha & Hs). injection Hs as <-. destruct (advance_counts _ _ _ _ _ _ _ Ha) as [Hc Et]. cbn.
    unfold in_flight in *. cbn. rewrite Et.
    pose proof (sum_insert (fun t => uncounted (t_pc t)) (s_threads s) i t
      (mk_thread (t_op t) c (match t_pc t with Idle => length (s_log s) | _ => t_start t end) (length (s_log s1))) Ht) as Hsum.
    cbn in Hsum. lia.
Qed.

Lemma set_insert_length e l :
  (forall x, x ∈ l -> ltb x e = true \/ ltb e x = true) -> length (set_insert ltb e l) = S (length l).
Proof.
  induction l as [|x l IH]; intros Hl; [done|]. cbn. destruct (ltb x e) eqn:E1; cbn.
  - rewrite IH; [done|]. intros y Hy. apply Hl. by right.
  - destruct (Hl x ltac:(by left)) as [?|E2]; [congruence|]. by rewrite E2.
Qed.

Lemma replay_length s C m : inv ltb s C -> m <= length (s_log s) -> length (replay ltb (take m (s_log s))) = m.
Proof.
  intros Hi. induction m as [|m IH]; intros Hm; [done|]. destruct (lookup_lt_is_Some_2 (s_log s) m Hm) as [[j e] Hj].
  rewrite (take_S_r _ _ _ Hj). unfold replay. rewrite foldl_app. cbn. fold (replay ltb (take m (s_log s))).
  rewrite set_insert_length by (intros x; by eapply (i_new _ _ _ Hi)). rewrite IH; [done|lia].
Qed.

(** The size is the number of elements, less the insertions that are
    linked and not yet counted; when no call is under way they agree. *)
Theorem skiplist_size hh ops s :
  0 < hh -> reachable ltb default_value getSizeLimit MAX_HEIGHT hh ops s ->
  length (contents s) = s_size s + in_flight s /\
  ((forall j t, s_threads s !! j = Some t -> exists r, t_pc t = Done r) -> length (contents s) = s_size s).
Proof.
  intros Hh Hr. destruct (list_reachable_inv ltb default_value getSizeLimit MAX_HEIGHT hh ops s Hh Hr) as [C Hi].
  assert (E : length (contents s) = s_size s + in_flight s).
  { rewrite (contents_data s C Hi), (i_log _ _ _ Hi), <- (reachable_count hh ops s Hr).
    by rewrite <- (firstn_all (s_log s)), (replay_length s C), firstn_all. }
  split; [done|]. intros Hd. rewrite E. replace (in_flight s) with 0; [lia|]. unfold in_flight. clear -Hd.
  induction (s_threads s) as [|t l IH]; [done|]. cbn. destruct (Hd 0 t eq_refl) as [r ->]. rewrite <- IH; [done|].
  intros j u Hu. exact (Hd (S j) u Hu).
Qed.

(** ** Real time *)

Inductive runs s : state -> Prop :=
  | runs_refl : runs s s
  | runs_step s1 i below s2 : runs s s1 -> step ltb default_value getSizeLimit MAX_HEIGHT s1 i below = Some s2 -> runs s s2.

Lemma step_shape s i below s' :
  step ltb default_value getSizeLimit MAX_HEIGHT s i below = Some s' ->
  exists t c, s_threads s !! i = Some t /\ (forall r, t_pc t <> Done r) /\ length (s_log s) <= length (s_log s') /\
    s_threads s' = <[i := mk_thread (t_op t) c (match t_pc t with Idle => length (s_log s) | _ => t_start t end)
                        (length (s_log s'))]> (s_threads s).
Proof.
  intros Hs. unfold step in Hs. rewrite bind_Some in Hs. destruct Hs as (t & Ht & Hs). rewrite bind_Some in Hs.
  destruct Hs as ([s1 c] & Ha & Hs). injection Hs as <-. exists t, c. destruct (advance_counts _ _ _ _ _ _ _ Ha) as [_ Et].
  split; [done|]. split; [intros r Hr; by rewrite Hr in Ha|]. split; [|cbn; by rewrite Et]. unfold advance, advance_lock, advance_grow, advance_bound, advance_iter in Ha. cbn.
  destruct (t_pc t); outcomes Ha; try done. cbn. rewrite length_app. lia.
Qed.

Lemma runs_from s s' j u :
  runs s s' -> s_threads s !! j = Some u ->
  length (s_log s) <= length (s_log s') /\
  exists u', s_threads s' !! j = Some u' /\ ((exists r, t_pc u = Done r) -> u' = u) /\
    (t_pc u = Idle -> t_pc u' = Idle \/ length (s_log s) <= t_start u').
Proof.
  intros Hr Hu. induction Hr as [|s1 i below s2 Hr [IH0 (u1 & IH1 & IH2 & IH3)] Hs]; [split; [done|]; exists u; auto|].
  destruct (step_shape _ _ _ _ Hs) as (t & c & Ht & Hd & Hl & ->). split; [lia|]. destruct (decide (i = j)) as [->|Hne].
  - rewrite IH1 in Ht. injection Ht as <-. rewrite list_lookup_insert_eq by (by eapply lookup_lt_Some). eexists. split; [done|]. cbn. split.
    + intros Hdone. rewrite (IH2 Hdone) in Hd. destruct Hdone as [r Hr']. by destruct (Hd r).
    + intros Hi. right. destruct (IH3 Hi) as [->|H]; [done|]. destruct (t_pc u1); done.
  - rewrite list_lookup_insert_ne by done. eauto.
Qed.

(** A call that begins after another has returned takes effect after
    it: the positions of the log at which it can take effect are not before
    the position at which the other returned, whose answer stays. *)
Theorem skiplist_real_time hh ops s s' i j t u u' r :
  0 < hh -> reachable ltb default_value getSizeLimit MAX_HEIGHT hh ops s -> s_threads s !! i = Some t -> t_pc t = Done r ->
  s_threads s !! j = Some u -> t_pc u = Idle -> runs s s' -> s_threads s' !! j = Some u' -> t_pc u' <> Idle ->
  s_threads s' !! i = Some t /\ t_last t <= t_start u'.
Proof.
  intros Hh Hr Ht Hd Hu Hidle Hrun Hu' Hne.
  destruct (list_reachable_inv ltb default_value getSizeLimit MAX_HEIGHT hh ops s Hh Hr) as [C Hi].
  destruct (runs_from s s' i t Hrun Ht) as [_ (t' & Ht' & E & _)]. rewrite (E (ex_intro _ r Hd)) in Ht'. split; [done|].
  destruct (runs_from s s' j u Hrun Hu) as [_ (v & Hv & _ & H)]. rewrite Hu' in Hv. injection Hv as <-.
  destruct (H Hidle) as [?|H']; [done|]. pose proof (th_times _ _ _ _ _ (i_threads _ _ _ Hi i t Ht)). lia.
Qed.
End linearizable.

(** ** A run *)

Section exec.
Context {T : Type} `{!Inhabited T} (ltb : T -> T -> bool) (default_value : T) (getSizeLimit : nat -> nat) (MAX_HEIGHT : nat).

(** Threads that wait lose their turn. *)
Definition exec (below : nat -> bool) (sched : list nat) (s : state (T := T)) : state :=
  foldl (fun s i => default s (step ltb default_value getSizeLimit MAX_HEIGHT s i below)) s sched.

Lemma exec_app below l1 l2 s : exec below (l1 ++ l2) s = exec below l2 (exec below l1 s).
Proof. apply foldl_app. Qed.

Lemma exec_reachable below sched hh ops s :
  reachable ltb default_value getSizeLimit MAX_HEIGHT hh ops s ->
  reachable ltb default_value getSizeLimit MAX_HEIGHT hh ops (exec below sched s).
Proof.
  revert s. induction sched as [|i sched IH]; intros s Hr; [done|]. apply IH.
  destruct (step ltb default_value getSizeLimit MAX_HEIGHT s i below) as [s'|] eqn:E; [|done]. by eapply reach_step.
Qed.

Lemma exec_runs below sched s1 s2 :
  runs ltb default_value getSizeLimit MAX_HEIGHT s1 s2 -> runs ltb default_value getSizeLimit MAX_HEIGHT s1 (exec below sched s2).
Proof.
  revert s2. induction sched as [|i sched IH]; intros s2 Hr; [done|]. apply IH.
  destruct (step ltb default_value getSizeLimit MAX_HEIGHT s2 i below) as [s'|] eqn:E; [|done]. by eapply runs_step.
Qed.
End exec.

#[export] Instance nat_comparator : Comparator Nat.ltb.
Proof.
  split.
  - apply Nat.ltb_irrefl.
  - intros x y z. rewrite !Nat.ltb_lt. lia.
  - intros x y z. rewrite !Nat.ltb_ge. lia.
Qed.

(** Two equal insertions, a smaller one and a lookup, in turns; the head
    grows on the way. The second schedule stops in the middle. *)
Definition demo_ops : list (op (T := nat)) := [Insert 5; Insert 3; LowerBound 4; Insert 5].
Definition demo_make : state := make 0 1 demo_ops.
Definition demo_run (sched : list nat) : state := exec Nat.ltb 0 (fun h => h) 3 (fun _ => false) sched demo_make.
Definition demo_inserted : state := demo_run (concat (replicate 40 [0; 1; 3])).
Definition demo_end : state := demo_run (concat (replicate 40 [0; 1; 3]) ++ replicate 20 2).
Definition demo_middle : state := demo_run (concat (replicate 9 [0; 1; 2; 3])).

Lemma demo_reachable sched : reachable Nat.ltb 0 (fun h => h) 3 1 demo_ops (demo_run sched).
Proof. apply exec_reachable, reach_make. Qed.

Lemma skiplist_contents_witness :
  contents demo_end = [3; 5] /\ s_head demo_end = 3 /\ contents demo_end = replay Nat.ltb (s_log demo_end).
Proof.
  split; [vm_compute; reflexivity|]. split; [vm_compute; reflexivity|].
  apply (skiplist_contents Nat.ltb 0 (fun h => h) 3 1 demo_ops); [lia|apply demo_reachable].
Defined.

Lemma skiplist_linearizable_witness :
  exists t, s_threads demo_end !! 2 = Some t /\ answers Nat.ltb demo_end 2 t (Position (Some 1)).
Proof.
  eexists. split; [vm_compute; reflexivity|].
  apply (skiplist_linearizable Nat.ltb 0 (fun h => h) 3 1 demo_ops); [lia|apply demo_reachable|vm_compute; reflexivity|reflexivity].
Defined.

Lemma skiplist_layers_witness : forall a, a ∈ layer demo_end 1 -> a ∈ layer demo_end 0.
Proof.
  destruct (skiplist_layers Nat.ltb 0 (fun h => h) 3 1 demo_ops demo_end 0) as (_ & H & _); [lia|apply demo_reachable|exact H].
Defined.

Lemma skiplist_deadlock_free_witness :
  exists i, forall below, exists s', step Nat.ltb 0 (fun h => h) 3 demo_middle i below = Some s'.
Proof.
  eapply (skiplist_deadlock_free Nat.ltb 0 (fun h => h) 3 1 demo_ops demo_middle 1);
    [lia|apply demo_reachable|vm_compute; reflexivity|reflexivity].
Defined.

Lemma skiplist_size_witness : length (contents demo_end) = s_size demo_end + in_flight demo_end.
Proof.
  destruct (skiplist_size Nat.ltb 0 (fun h => h) 3 1 demo_ops demo_end) as [H _]; [lia|apply demo_reachable|exact H].
Defined.

Lemma skiplist_real_time_witness :
  exists t u, s_threads demo_end !! 0 = Some t /\ s_threads demo_end !! 2 = Some u /\ t_last t <= t_start u.
Proof.
  eexists _, _. split; [vm_compute; reflexivity|]. split; [vm_compute; reflexivity|].
  eapply (skiplist_real_time Nat.ltb 0 (fun h => h) 3 1 demo_ops demo_inserted demo_end 0 2);
    [lia|apply demo_reachable|vm_compute; reflexivity|reflexivity|vm_compute; reflexivity|reflexivity|
     |vm_compute; reflexivity|discriminate].
  unfold demo_end, demo_inserted, demo_run. rewrite exec_app. apply exec_runs. apply runs_refl.
Defined.

(** A scan from a bound, after the insertions. *)
Definition scan_ops : list (op (T := nat)) := [Insert 5; Insert 3; Insert 8; Scan (Some 4)].
Definition scan_end : state :=
  exec Nat.ltb 0 (fun h => h) 3 (fun _ => false) (concat (replicate 40 [0; 1; 2]) ++ replicate 20 3) (make 0 1 scan_ops).

Lemma skiplist_scan_exact_witness :
  exists t, s_threads scan_end !! 3 = Some t /\ t_pc t = Done (Visited [1; 3]) /\ data_of (s_heap scan_end) [1; 3] = [5; 8].
Proof.
  eexists. split; [vm_compute; reflexivity|]. split; [reflexivity|].
  rewrite (skiplist_scan_exact Nat.ltb 0 (fun h => h) 3 1 scan_ops scan_end 3
    (mk_thread (Scan (Some 4)) (Done (Visited [1; 3])) 3 3) (Some 4) [1; 3]);
    [vm_compute; reflexivity|lia|apply exec_reachable, reach_make|vm_compute; reflexivity|reflexivity|reflexivity|vm_compute; reflexivity].
Defined.
