(* ===== verification/RandomHeight.v ===== *)
(** * Heights of the skiplist's nodes
      (src/db/skiplist/concurrent_skip_list/skiplist_details.h)

    [SkipListRandomHeight]: the table of probabilities from which the height
    of a node is drawn, the table of sizes at which the head grows, and
    [constexpr_clamp_cast] from doubles to 64-bit integers. Doubles are
    [spec_float]s of 53 bits; [exp(1)], a library function, is a parameter,
    and the theorems hold for the three doubles nearest to its value. *)

From stdpp Require Import base numbers option list.
From Stdlib Require Import ZArith Lia SpecFloat.
From S2P Require Import Prelude Skiplist.

(** ** Doubles *)

Definition dmul := SFmul 53 1024.
Definition ddiv := SFdiv 53 1024.
Definition dadd := SFadd 53 1024.
Definition dsub := SFsub 53 1024.
Definition double_of_Z (n : Z) : spec_float := binary_normalize 53 1024 n 0 false.

(** [D(src)] for a double in the range of the integer type: truncation. *)
Definition truncate (x : spec_float) : Z :=
  match x with
  | S754_finite s m e =>
      let n := if (0 <=? e)%Z then Z.shiftl (Zpos m) e else Z.shiftr (Zpos m) (- e) in
      if s then (- n)%Z else n
  | _ => 0%Z
  end.

(** [t != t] *)
Definition constexpr_isnan (x : spec_float) : bool := negb (SFeqb x x).

Definition kClampCastUpperBoundDoubleToUInt64F : spec_float := double_of_Z 18446744073709549568.

Definition constexpr_clamp_cast_helper (src sl su : spec_float) (dl du : Z) : Z :=
  if SFltb src sl then dl else if SFltb su src then du else truncate src.

(** [constexpr_clamp_cast<size_t>(double)] *)
Definition constexpr_clamp_cast (src : spec_float) : Z :=
  if constexpr_isnan src then 0%Z
  else constexpr_clamp_cast_helper src (double_of_Z 0) kClampCastUpperBoundDoubleToUInt64F 0 (2 ^ 64 - 1).

(** ** The tables *)

Definition kMaxHeight : nat := 64.

Record height_tables := mk_tables { lookupTable_ : list spec_float; sizeLimitTable_ : list Z }.

(** The loop of [initLookupTable] from [i] on, for [n] rounds: [p] and
    [sizeLimit] are its variables and [last] is [lookupTable_[i - 1]]. *)
Fixpoint init_loop (kProb kProbInv : spec_float) (n : nat) (p sizeLimit last : spec_float) : list spec_float * list Z :=
  match n with
  | O => ([], [])
  | S n =>
      let p := dmul p kProb in
      let sizeLimit := dmul sizeLimit kProbInv in
      let entry := dadd last p in
      let '(probs, limits) := init_loop kProb kProbInv n p sizeLimit entry in
      (entry :: probs, constexpr_clamp_cast sizeLimit :: limits)
  end.

Definition initLookupTable (kProbInv : spec_float) : height_tables :=
  let kProb := ddiv (double_of_Z 1) kProbInv in
  let p := dsub (double_of_Z 1) kProb in
  let '(probs, limits) := init_loop kProb kProbInv (kMaxHeight - 2) p (double_of_Z 1) p in
  mk_tables (p :: probs ++ [double_of_Z 1]) (1%Z :: limits ++ [(2 ^ 64 - 1)%Z]).

Definition getSizeLimit (t : height_tables) (height : nat) : option Z := sizeLimitTable_ t !! height.

(** [getHeight], for the number [p] that [randomProb] draws. *)
Fixpoint getHeight_loop (t : height_tables) (p : spec_float) (i rounds : nat) : option nat :=
  match rounds with
  | O => Some i
  | S rounds => bound ← lookupTable_ t !! i; if SFltb p bound then Some (S i) else getHeight_loop t p (S i) rounds
  end.
Definition getHeight (t : height_tables) (p : spec_float) (maxHeight : nat) : option nat := getHeight_loop t p 0 maxHeight.

(** ** The cast *)

Lemma digits2_pos_lt (m : positive) : (Zpos m < 2 ^ Zpos (digits2_pos m))%Z.
Proof.
  induction m as [m IH|m IH|]; cbn [digits2_pos]; [| |done];
    rewrite Pos2Z.inj_succ, Z.pow_succ_r by lia; lia.
Qed.

Lemma valid_mantissa s m e : valid_binary 53 1024 (S754_finite s m e) = true -> (Zpos m < 2 ^ 53)%Z.
Proof.
  cbn. unfold bounded, canonical_mantissa, fexp. intros [H _]%andb_prop. apply Zeq_bool_eq in H.
  eapply Z.lt_le_trans; [apply digits2_pos_lt|]. apply Z.pow_le_mono_r; lia.
Qed.

(** The cast of a double to [size_t] is always defined: it truncates where
    the integer fits and saturates elsewhere. *)
Theorem clamp_cast_correct (x : spec_float) (Hx : valid_binary 53 1024 x = true) :
  (0 <= constexpr_clamp_cast x < 2 ^ 64)%Z /\
  constexpr_clamp_cast x =
    (if SFltb x (S754_zero false) then 0 else if SFltb kClampCastUpperBoundDoubleToUInt64F x then 2 ^ 64 - 1 else truncate x)%Z.
Proof.
  destruct x as [s|s| |s m e]; [destruct s; by vm_compute|destruct s; by vm_compute|by vm_compute|].
  pose proof (valid_mantissa _ _ _ Hx) as Hm. unfold constexpr_clamp_cast, constexpr_clamp_cast_helper.
  assert (constexpr_isnan (S754_finite s m e) = false) as ->.
  { unfold constexpr_isnan, SFeqb. cbn. rewrite Z.compare_refl, Pos.compare_cont_refl. by destruct s. }
  change (double_of_Z 0) with (S754_zero false). split; [|done].
  change kClampCastUpperBoundDoubleToUInt64F with (S754_finite false 9007199254740991 11).
  unfold SFltb. destruct s; cbn [SFcompare]; [lia|].
  destruct (Z.compare_spec 11 e) as [<-|H|H]; cbn [truncate Z.leb Z.compare].
  - case_match; [lia|]. rewrite Z.shiftl_mul_pow2 by lia. lia.
  - lia.
  - destruct (Z.leb_spec 0 e).
    + rewrite Z.shiftl_mul_pow2 by lia.
      assert (2 ^ e <= 2 ^ 10)%Z by (apply Z.pow_le_mono_r; lia). nia.
    + rewrite Z.shiftr_div_pow2 by lia. split; [apply Z.div_pos; lia|].
      apply Z.le_lt_trans with (Zpos m); [|lia]. apply Z.div_le_upper_bound; [lia|].
      pose proof (Z.pow_pos_nonneg 2 (- e) ltac:(lia) ltac:(lia)). nia.
Qed.

Lemma clamp_cast_witness : exists x, valid_binary 53 1024 x = true /\ constexpr_clamp_cast x = (2 ^ 64 - 1)%Z.
Proof.
  exists (S754_finite false 9007199254740991 12). split; [done|].
  rewrite (proj2 (clamp_cast_correct (S754_finite false 9007199254740991 12) eq_refl)). reflexivity.
Defined.

(** ** The tables *)

(** The double nearest to Euler's number and its neighbours. *)
Definition near_e (x : spec_float) : Prop :=
  exists m, x = S754_finite false m (-51) /\ (6121026514868072 <= Zpos m <= 6121026514868074)%Z.

(** Every two neighbours of a list are related. *)
Fixpoint adjacent {A} (r : A -> A -> bool) (l : list A) : bool :=
  match l with
  | x :: ((y :: _) as l') => r x y && adjacent r l'
  | _ => true
  end.

Lemma adjacent_lookup {A} (r : A -> A -> bool) l i x y : adjacent r l = true -> l !! i = Some x -> l !! S i = Some y -> r x y = true.
Proof.
  revert i. induction l as [|a [|b l] IH]; intros i; [done|by destruct i|]. cbn [adjacent]. intros [H1 H2]%andb_prop.
  destruct i as [|i]; [by intros [= <-] [= <-]|]. apply (IH i H2).
Qed.

Definition tables_ok (t : height_tables) : bool :=
  (length (lookupTable_ t) =? 64) && (length (sizeLimitTable_ t) =? 64) &&
  forallb (valid_binary 53 1024) (lookupTable_ t) && adjacent SFleb (lookupTable_ t) && adjacent Z.ltb (take 46 (sizeLimitTable_ t)) &&
  forallb (Z.eqb (2 ^ 64 - 1)) (drop 45 (sizeLimitTable_ t)).

Lemma init_tables_ok kProbInv : near_e kProbInv -> tables_ok (initLookupTable kProbInv) = true.
Proof.
  intros (m & -> & Hm).
  assert (m = 6121026514868072%positive \/ m = 6121026514868073%positive \/ m = 6121026514868074%positive) as [->|[->| ->]] by lia;
    by vm_compute.
Qed.

(** What is below a bound is below every larger one. *)
Lemma SFltb_SFleb p a b : SFltb p a = true -> SFleb a b = true -> SFltb p b = true.
Proof.
  unfold SFltb, SFleb, SFcompare. destruct p as [[]|[]| |[] m e], a as [[]|[]| |[] ma ea], b as [[]|[]| |[] mb eb]; try done;
    repeat match goal with |- context [Z.compare ?x ?y] => destruct (Z.compare_spec x y) end; try done; try lia; subst;
    rewrite ?Z.compare_refl;
    change (fun a b => Pos.compare_cont Eq a b) with Pos.compare in *;
    repeat match goal with |- context [Pos.compare_cont Eq ?x ?y] => change (Pos.compare_cont Eq x y) with (Pos.compare x y); destruct (Pos.compare_spec x y) end;
    cbn; try done; lia.
Qed.

Lemma getHeight_from_ge below i n : i <= getHeight_from below i n.
Proof. revert i. induction n as [|n IH]; intros i; cbn; [lia|]. destruct (below i); [lia|]. pose proof (IH (S i)). lia. Qed.

Lemma getHeight_from_le below i n : getHeight_from below i n <= i + n.
Proof. revert i. induction n as [|n IH]; intros i; cbn; [lia|]. destruct (below i); [lia|]. pose proof (IH (S i)). lia. Qed.

(** The comparisons that a drawn number answers. *)
Definition drawn_below (t : height_tables) (p : spec_float) (i : nat) : bool :=
  match lookupTable_ t !! i with Some bound => SFltb p bound | None => true end.

Section drawn.
Context (kProbInv : spec_float) (He : near_e kProbInv).
Let t := initLookupTable kProbInv.

Local Ltac use_tables := pose proof (init_tables_ok kProbInv He) as Ht; unfold tables_ok in Ht; fold t in Ht; revert Ht;
  rewrite !andb_true_iff, !Nat.eqb_eq; intros [[[[[Hl Hs] Hv] Hp] Hz] Hm].

Lemma lookup_le i j x y : i <= j -> lookupTable_ t !! i = Some x -> lookupTable_ t !! j = Some y -> forall p, SFltb p x = true -> SFltb p y = true.
Proof using He.
  intros Hij. use_tables. revert y. induction Hij as [|j Hij IH]; intros y Hi Hj p Hp'; [congruence|].
  destruct (lookup_lt_is_Some_2 (lookupTable_ t) j) as [z Hz']; [apply lookup_lt_Some in Hj; lia|].
  eapply SFltb_SFleb; [by apply (IH z)|]. by eapply adjacent_lookup.
Qed.

(** The loop, as an oracle of comparisons. *)
Lemma getHeight_loop_oracle p i rounds : i + rounds <= 64 ->
  getHeight_loop t p i rounds =
    Some (getHeight_from (drawn_below t p) i rounds).
Proof using He.
  use_tables. revert i. induction rounds as [|n IH]; intros i Hi; [done|]. cbn [getHeight_loop getHeight_from].
  destruct (lookup_lt_is_Some_2 (lookupTable_ t) i) as [x Hx]; [lia|]. unfold drawn_below at 1. rewrite Hx. cbn.
  destruct (SFltb p x); [done|]. apply IH. lia.
Qed.

Lemma getHeight_from_above below i n h : (forall k k', k <= k' -> below k = true -> below k' = true) -> i < h < i + n ->
  (h < getHeight_from below i n <-> below (h - 1) = false).
Proof.
  intros Hmono. revert i. induction n as [|n IH]; intros i Hh; [lia|]. cbn. destruct (below i) eqn:E.
  - split; [lia|]. intros Hf. rewrite (Hmono i (h - 1)) in Hf; [done|lia|done].
  - destruct (decide (h = S i)) as [->|].
    + replace (S i - 1) with i by lia. split; [done|]. intros _. destruct n as [|n]; [lia|]. cbn. destruct (below (S i)); [lia|].
      pose proof (getHeight_from_ge below (S (S i)) n). lia.
    + apply IH. lia.
Qed.

Lemma drawn_below_mono p k k' : k <= k' -> drawn_below t p k = true -> drawn_below t p k' = true.
Proof using He.
  intros Hk. unfold drawn_below. destruct (lookupTable_ t !! k') as [y|] eqn:E'; [|done].
  destruct (lookupTable_ t !! k) as [x|] eqn:E; [by eapply lookup_le|].
  apply lookup_ge_None in E. apply lookup_lt_Some in E'. lia.
Qed.

(** The height of a node. For every number drawn and every maximum the table
    allows, the height is the one Skiplist draws with the comparisons as its
    oracle, it lies between 1 and the maximum, and it exceeds [h] exactly
    when the number is not below the bound of [h]: so a larger number never
    gives a smaller node. *)
Theorem node_height_correct (p : spec_float) (maxHeight : nat) (Hmax : 0 < maxHeight <= 64) :
  exists height, getHeight t p maxHeight = Some height /\ height = Skiplist.getHeight (drawn_below t p) maxHeight /\
    1 <= height <= maxHeight /\
    (forall h bound, 0 < h < maxHeight -> lookupTable_ t !! (h - 1) = Some bound -> (h < height <-> SFltb p bound = false)).
Proof using He.
  exists (Skiplist.getHeight (drawn_below t p) maxHeight). unfold getHeight, Skiplist.getHeight.
  split; [by rewrite getHeight_loop_oracle by lia|]. split; [done|]. split.
  - split; [|pose proof (getHeight_from_le (drawn_below t p) 0 maxHeight); lia].
    destruct maxHeight as [|n]; [lia|]. cbn [getHeight_from]. destruct (drawn_below t p 0); [done|]. apply getHeight_from_ge.
  - intros h bound Hh Hb. rewrite getHeight_from_above; [|apply drawn_below_mono|lia]. unfold drawn_below. by rewrite Hb.
Qed.

(** The sizes at which the head grows: every height below 64 has one, they
    fit 64 bits, they grow with the height up to 45, and from there on no
    list is large enough. *)
Theorem size_limits_grow (h : nat) (Hh : h < 64) :
  exists limit, getSizeLimit t h = Some limit /\ (limit <= 2 ^ 64 - 1)%Z /\ (45 <= h -> limit = (2 ^ 64 - 1)%Z) /\
    (forall h' limit', h < h' <= 45 -> getSizeLimit t h' = Some limit' -> (limit < limit')%Z).
Proof using He.
  use_tables. unfold getSizeLimit.
  assert (forall i j x y, i < j <= 45 -> sizeLimitTable_ t !! i = Some x -> sizeLimitTable_ t !! j = Some y -> (x < y)%Z) as Hlt.
  { intros i j x y [Hij Hj] Hx. revert y. induction Hij as [|j Hij IH]; intros y Hy.
    - apply Z.ltb_lt. eapply (adjacent_lookup _ _ i); [exact Hz|by rewrite lookup_take_lt by lia..].
    - destruct (lookup_lt_is_Some_2 (sizeLimitTable_ t) j) as [z Hz']; [lia|]. apply Z.lt_trans with z; [by apply IH; [lia|]|].
      apply Z.ltb_lt. eapply (adjacent_lookup _ _ j); [exact Hz|by rewrite lookup_take_lt by lia..]. }
  assert (forall i x, 45 <= i -> sizeLimitTable_ t !! i = Some x -> x = (2 ^ 64 - 1)%Z) as Hmx.
  { intros i x Hi Hx. rewrite forallb_forall in Hm. symmetry. apply Z.eqb_eq, Hm, list_elem_of_In, list_elem_of_lookup.
    exists (i - 45). rewrite lookup_drop. by replace (45 + (i - 45)) with i by lia. }
  destruct (lookup_lt_is_Some_2 (sizeLimitTable_ t) h) as [x Hx]; [lia|]. exists x. split_ands; [done| | |].
  - destruct (decide (45 <= h)); [rewrite (Hmx h x) by done; lia|].
    destruct (lookup_lt_is_Some_2 (sizeLimitTable_ t) 45) as [y Hy]; [lia|].
    pose proof (Hmx 45 y (le_n _) Hy). pose proof (Hlt h 45 x y ltac:(lia) Hx Hy). lia.
  - intros. by eapply Hmx.
  - intros h' y Hh' Hy. by eapply Hlt.
Qed.
End drawn.

Lemma node_height_witness : exists height, getHeight (initLookupTable (S754_finite false 6121026514868073 (-51))) (double_of_Z 0) 3 = Some height /\
  1 <= height <= 3.
Proof.
  assert (near_e (S754_finite false 6121026514868073 (-51))) as He by (eexists; split; [reflexivity|split; vm_compute; discriminate]).
  destruct (node_height_correct _ He (double_of_Z 0) 3 ltac:(lia)) as (height & E & _ & H & _).
  exists height. exact (conj E H).
Defined.
