(* ===== verification/Recycler.v ===== *)
(** * Reclaiming the nodes of the skiplist
      (NodeRecycler of src/db/skiplist/concurrent_skip_list/skiplist_details.h,
      Accessor of concurrent_skiplist.h)

    Whoever uses the list holds an accessor, which is a reference to the
    recycler. A node that is taken out of the list, as a head that has been
    replaced, goes to the recycler and is destroyed when the last reference
    is released. The model is a transition system with one step per access
    to shared memory; a thread takes accessors, retires nodes and releases
    accessors as often as it likes. The history variables give every
    accessor a number and record, for every retired node, the accessors that
    were held at that moment: only these can still reach the node. *)

From stdpp Require Import base numbers option list.
From Stdlib Require Import Lia.
From S2P Require Import Prelude.

(** ** The recycler *)

Inductive rpc :=
  | Out                                  (* no accessor *)
  | Live (acc : nat)
  (* add *)
  | AddLock (acc node : nat)
  | AddPush (acc node : nat)
  | AddDirty (acc : nat)
  | AddUnlock (acc : nat)
  (* releaseRef *)
  | RelDirty (acc : nat)
  | RelRefs (acc : nat)
  | RelFast (acc : nat)
  | RelLock (acc : nat)
  | RelDec (acc : nat)
  | RelSwap
  | RelClear (newNodes : list nat)
  | RelUnlock (newNodes : list nat)
  | Destroying (newNodes : list nat).

#[export] Instance rpc_eq_dec : EqDecision rpc.
Proof. solve_decision. Defined.

Record recycler := mk_recycler {
  r_nodes : option (list nat);   (* nodes_ *)
  r_refs : nat;                  (* refs_ *)
  r_dirty : bool;                (* dirty_ *)
  r_lock : option nat;           (* lock_, with the thread that holds it *)
  r_threads : list rpc;
  r_accs : nat;                  (* history: accessors taken *)
  r_retired : list (list nat);   (* history: node -> accessors held when it was retired *)
  r_destroyed : list nat;        (* history *)
}.

Definition acc_of (c : rpc) : option nat :=
  match c with
  | Live a | AddLock a _ | AddPush a _ | AddDirty a | AddUnlock a | RelDirty a | RelRefs a | RelFast a | RelLock a
  | RelDec a => Some a
  | _ => None
  end.
Definition held_accs (l : list rpc) : list nat := l ≫= (fun c => option_list (acc_of c)).

Definition set_nodes (s : recycler) (n : option (list nat)) : recycler :=
  mk_recycler n (r_refs s) (r_dirty s) (r_lock s) (r_threads s) (r_accs s) (r_retired s) (r_destroyed s).
Definition set_refs (s : recycler) (n : nat) : recycler :=
  mk_recycler (r_nodes s) n (r_dirty s) (r_lock s) (r_threads s) (r_accs s) (r_retired s) (r_destroyed s).
Definition set_dirty (s : recycler) (b : bool) : recycler :=
  mk_recycler (r_nodes s) (r_refs s) b (r_lock s) (r_threads s) (r_accs s) (r_retired s) (r_destroyed s).
Definition set_rlock (s : recycler) (l : option nat) : recycler :=
  mk_recycler (r_nodes s) (r_refs s) (r_dirty s) l (r_threads s) (r_accs s) (r_retired s) (r_destroyed s).

(** [addRef], by the constructor of an accessor. *)
Definition addRef (s : recycler) : recycler :=
  mk_recycler (r_nodes s) (S (r_refs s)) (r_dirty s) (r_lock s) (r_threads s) (S (r_accs s)) (r_retired s) (r_destroyed s).

(** A node leaves the list; only accessors held now can reach it. *)
Definition retire (s : recycler) : recycler :=
  mk_recycler (r_nodes s) (r_refs s) (r_dirty s) (r_lock s) (r_threads s) (r_accs s)
    (r_retired s ++ [held_accs (r_threads s)]) (r_destroyed s).

Definition destroy (s : recycler) (node : nat) : recycler :=
  mk_recycler (r_nodes s) (r_refs s) (r_dirty s) (r_lock s) (r_threads s) (r_accs s) (r_retired s)
    (r_destroyed s ++ [node]).

(** The next step of thread [i]; a thread with an accessor retires a node
    or releases the accessor. *)
Definition recycler_advance (s : recycler) (i : nat) (c : rpc) (release : bool) : option (recycler * rpc) :=
  match c with
  | Out => Some (addRef s, Live (r_accs s))
  | Live a => Some (if release then (s, RelDirty a) else (retire s, AddLock a (length (r_retired s))))
  | AddLock a n => if r_lock s then None else Some (set_rlock s (Some i), AddPush a n)
  | AddPush a n =>
      Some (set_nodes s (Some (match r_nodes s with None => [n] | Some l => l ++ [n] end)), AddDirty a)
  | AddDirty a => Some (set_dirty s true, AddUnlock a)
  | AddUnlock a => Some (set_rlock s None, Live a)
  | RelDirty a => Some (s, if r_dirty s then RelRefs a else RelFast a)
  | RelRefs a => Some (s, if 1 <? r_refs s then RelFast a else RelLock a)
  | RelFast a => Some (set_refs s (r_refs s - 1), Out)
  | RelLock a => if r_lock s then None else Some (set_rlock s (Some i), RelDec a)
  | RelDec a => Some (set_refs s (r_refs s - 1), if r_refs s =? 1 then RelSwap else RelUnlock [])
  | RelSwap => Some (set_nodes s None, RelClear (default [] (r_nodes s)))
  | RelClear l => Some (set_dirty s false, RelUnlock l)
  | RelUnlock l => Some (set_rlock s None, Destroying l)
  | Destroying (n :: l) => Some (destroy s n, Destroying l)
  | Destroying [] => Some (s, Out)
  end.

Definition recycler_step (s : recycler) (i : nat) (release : bool) : option recycler :=
  c ← r_threads s !! i;
  '(s', c') ← recycler_advance s i c release;
  Some (mk_recycler (r_nodes s') (r_refs s') (r_dirty s') (r_lock s') (<[i := c']> (r_threads s)) (r_accs s')
          (r_retired s') (r_destroyed s')).

Definition make_recycler (threads : nat) : recycler :=
  mk_recycler None 0 false None (replicate threads Out) 0 [] [].

Inductive recycler_reachable (threads : nat) : recycler -> Prop :=
  | rr_make : recycler_reachable threads (make_recycler threads)
  | rr_step s i release s' :
      recycler_reachable threads s -> recycler_step s i release = Some s' -> recycler_reachable threads s'.

(** The destructor. *)
Definition destroy_recycler (s : recycler) : recycler :=
  foldl destroy s (default [] (r_nodes s)).

(** ** The invariant *)

Definition critical (c : rpc) : bool :=
  match c with
  | AddPush _ _ | AddDirty _ | AddUnlock _ | RelDec _ | RelSwap | RelClear _ | RelUnlock _ => true
  | _ => false
  end.

(** The nodes a thread took to destroy, and those it is about to add. *)
Definition taken (c : rpc) : list nat :=
  match c with RelClear l | RelUnlock l | Destroying l => l | _ => [] end.
Definition pending (c : rpc) : list nat :=
  match c with AddLock _ n | AddPush _ n => [n] | _ => taken c end.

(** Nodes that are destroyed, or will be without another look. *)
Definition doomed (s : recycler) (n : nat) : Prop :=
  n ∈ r_destroyed s \/ (exists i c, r_threads s !! i = Some c /\ n ∈ taken c) \/
  ((exists i, r_threads s !! i = Some RelSwap) /\ n ∈ default [] (r_nodes s)).

Record rinv (s : recycler) : Prop := {
  ri_refs : r_refs s = length (held_accs (r_threads s));
  ri_accs : forall a, a ∈ held_accs (r_threads s) -> a < r_accs s;
  ri_lock : forall i c, r_threads s !! i = Some c -> critical c = true -> r_lock s = Some i;
  ri_place : r_destroyed s ++ default [] (r_nodes s) ++ (r_threads s ≫= pending) ≡ₚ seq 0 (length (r_retired s));
  ri_holders : forall n hs a, r_retired s !! n = Some hs -> a ∈ hs -> a < r_accs s;
  ri_doomed : forall n hs a, r_retired s !! n = Some hs -> doomed s n -> a ∈ hs -> a ∉ held_accs (r_threads s);
}.

Lemma bind_insert {A B} (f : A -> list B) l i x y :
  l !! i = Some x -> (<[i := y]> l ≫= f) ++ f x ≡ₚ (l ≫= f) ++ f y.
Proof.
  revert i. induction l as [|z l IH]; intros [|i] Hi; try done; cbn.
  - injection Hi as ->. solve_Permutation.
  - rewrite <- !app_assoc. by rewrite (IH i Hi).
Qed.

Lemma bind_insert_same {A B} (f : A -> list B) l i x y :
  l !! i = Some x -> f y = f x -> <[i := y]> l ≫= f = l ≫= f.
Proof.
  revert i. induction l as [|z l IH]; intros [|i] Hi Hf; try done; cbn.
  - injection Hi as ->. by rewrite Hf.
  - f_equal. by apply IH.
Qed.

Section step.
Context (s : recycler) (i : nat) (c c' : rpc) (Hi : rinv s) (Hc : r_threads s !! i = Some c).

Lemma others j d : <[i := c']> (r_threads s) !! j = Some d -> (j = i /\ d = c') \/ (j <> i /\ r_threads s !! j = Some d).
Proof.
  destruct (decide (j = i)) as [->|Hne]; intros Hd; [left|right]; (split; [done|]).
  - rewrite list_lookup_insert_eq in Hd by (by eapply lookup_lt_Some). by injection Hd as <-.
  - by rewrite list_lookup_insert_ne in Hd.
Qed.

(** References that are held after the step. *)
Lemma held_after a : a ∈ held_accs (<[i := c']> (r_threads s)) -> a ∈ held_accs (r_threads s) \/ acc_of c' = Some a.
Proof.
  intros Ha. pose proof (bind_insert (fun c => option_list (acc_of c)) _ i c c' Hc) as Hp.
  assert (Hin : a ∈ (held_accs (<[i:=c']> (r_threads s))) ++ option_list (acc_of c)) by (apply elem_of_app; by left).
  unfold held_accs in Hin. rewrite Hp in Hin. apply elem_of_app in Hin as [|Hin]; [by left|right].
  destruct (acc_of c'); [|by apply elem_of_nil in Hin]. by apply list_elem_of_singleton in Hin as ->.
Qed.

Lemma held_length :
  length (held_accs (<[i := c']> (r_threads s))) + length (option_list (acc_of c)) =
  length (held_accs (r_threads s)) + length (option_list (acc_of c')).
Proof. rewrite <- !length_app. apply Permutation_length, (bind_insert (fun c => option_list (acc_of c)) _ i c c' Hc). Qed.

(** The state after the step. *)
Definition after_step (s' : recycler) : recycler :=
  mk_recycler (r_nodes s') (r_refs s') (r_dirty s') (r_lock s') (<[i := c']> (r_threads s)) (r_accs s') (r_retired s') (r_destroyed s').

(** Locks after a step that does not take one. *)
Lemma lock_after l :
  (critical c' = true -> l = Some i) -> (l = r_lock s \/ r_lock s = Some i \/ r_lock s = None) ->
  forall j d, <[i := c']> (r_threads s) !! j = Some d -> critical d = true -> l = Some j.
Proof.
  intros Hown Hl j d [[-> ->]|[Hne Hd]]%others Hcr; [auto|]. pose proof (ri_lock _ Hi j d Hd Hcr) as Hj.
  destruct Hl as [->|[Hl|Hl]]; congruence.
Qed.

Lemma doomed_before n (s' : recycler) :
  r_destroyed s' = r_destroyed s -> r_nodes s' = r_nodes s -> taken c' = taken c -> c' <> RelSwap ->
  doomed (after_step s') n -> doomed s n.
Proof.
  intros Ed En Et Hns [Hd|[(j & d & Hd & Hn)|[[j Hj] Hn]]]; cbn in *.
  - left. by rewrite <- Ed.
  - right; left. apply others in Hd as [[-> ->]|[_ Hd]]; [exists i, c; by rewrite <- Et|by exists j, d].
  - right; right. rewrite En in Hn. split; [|done]. apply others in Hj as [[-> Hj]|[_ Hj]]; [by destruct Hns|by exists j].
Qed.

(** Steps that move no node and no reference. *)
Lemma rinv_quiet dirty l :
  acc_of c' = acc_of c -> pending c' = pending c -> taken c' = taken c -> c' <> RelSwap ->
  (critical c' = true -> l = Some i) -> (l = r_lock s \/ r_lock s = Some i \/ r_lock s = None) ->
  rinv (after_step (set_rlock (set_dirty s dirty) l)).
Proof.
  intros Ea Ep Et Hns Hown Hl.
  assert (Eh : held_accs (<[i := c']> (r_threads s)) = held_accs (r_threads s)) by (eapply bind_insert_same; [done|by rewrite Ea]).
  split; cbn -[held_accs]; rewrite ?Eh; [apply Hi|apply Hi|by apply lock_after| |apply Hi|].
  - rewrite (bind_insert_same pending _ i c c') by done. apply Hi.
  - intros n hs a Hr Hd. by apply (ri_doomed _ Hi n hs a Hr), (doomed_before n (set_rlock (set_dirty s dirty) l)).
Qed.

Lemma rinv_addRef : c = Out -> c' = Live (r_accs s) -> rinv (after_step (addRef s)).
Proof.
  intros E1 E2. pose proof held_length as Hlen. rewrite E1, E2 in Hlen. cbn in Hlen. split; cbn -[held_accs].
  - rewrite (ri_refs _ Hi), E2. lia.
  - intros a [Ha|Ha]%held_after; [pose proof (ri_accs _ Hi a Ha); lia|]. rewrite E2 in Ha. injection Ha as <-. lia.
  - apply lock_after; [by rewrite E2|auto].
  - rewrite (bind_insert_same pending _ i c c' Hc) by (by rewrite E1, E2). apply Hi.
  - intros n hs a Hr Ha. pose proof (ri_holders _ Hi n hs a Hr Ha). lia.
  - intros n hs a Hr Hd Ha Hin. apply doomed_before in Hd; [|by rewrite ?E1, ?E2..].
    apply held_after in Hin as [Hin|Hin]; [by eapply (ri_doomed _ Hi)|]. rewrite E2 in Hin. injection Hin as <-.
    pose proof (ri_holders _ Hi n hs (r_accs s) Hr Ha). lia.
Qed.

Lemma rinv_retire a : c = Live a -> c' = AddLock a (length (r_retired s)) -> rinv (after_step (retire s)).
Proof.
  intros E1 E2. pose proof (bind_insert pending _ i c c' Hc) as Hp. rewrite E1, E2 in Hp. cbn in Hp. rewrite app_nil_r in Hp.
  assert (Eh : held_accs (<[i := c']> (r_threads s)) = held_accs (r_threads s)).
  { eapply bind_insert_same; [done|]. by rewrite E1, E2. }
  split; cbn -[held_accs]; rewrite ?Eh; [apply Hi|apply Hi|apply lock_after; [by rewrite E2|auto]| | |].
  - rewrite E2, Hp, length_app, Nat.add_comm. cbn [length Nat.add]. rewrite seq_S, <- (ri_place _ Hi), !app_assoc. done.
  - intros n hs b [Hr|[_ Hr]]%lookup_app_Some Hb; [by eapply (ri_holders _ Hi)|].
    apply list_lookup_singleton_Some in Hr as [_ <-]. by apply (ri_accs _ Hi).
  - intros n hs b Hr Hd Hb. apply doomed_before in Hd; [|by rewrite ?E1, ?E2..].
    apply lookup_app_Some in Hr as [Hr|[Hle Hr]]; [by apply (ri_doomed _ Hi n hs)|].
    exfalso. assert (Hn : n ∈ seq 0 (length (r_retired s))).
    { rewrite <- (ri_place _ Hi), !elem_of_app. destruct Hd as [Hd|[(j & d & Hd & Ht)|[_ Hd]]]; [by left|right; right|right; by left].
      apply list_elem_of_bind. exists d. split; [|by apply list_elem_of_lookup_2 in Hd]. destruct d; cbn in *; try done; by apply elem_of_nil in Ht. }
    apply elem_of_seq in Hn. lia.
Qed.

Lemma rinv_push a n :
  c = AddPush a n -> c' = AddDirty a ->
  rinv (after_step (set_nodes s (Some (match r_nodes s with None => [n] | Some l => l ++ [n] end)))).
Proof.
  intros E1 E2. pose proof (bind_insert pending _ i c c' Hc) as Hp. rewrite E1, E2 in Hp. cbn in Hp. rewrite app_nil_r in Hp.
  assert (Eh : held_accs (<[i := c']> (r_threads s)) = held_accs (r_threads s)).
  { eapply bind_insert_same; [done|]. by rewrite E1, E2. }
  pose proof (ri_lock _ Hi i c Hc ltac:(by rewrite E1)) as Hlk.
  split; cbn -[held_accs]; rewrite ?Eh; [apply Hi|apply Hi|by apply lock_after; auto| |apply Hi|].
  - rewrite E2, <- (ri_place _ Hi), <- Hp. destruct (r_nodes s); cbn; solve_Permutation.
  - intros m hs b Hr Hd. apply (ri_doomed _ Hi m hs b Hr). destruct Hd as [Hd|[(j & d & Hd & Hm)|[[j Hj] _]]]; cbn in *.
    + by left.
    + right; left. apply others in Hd as [[-> ->]|[_ Hd]]; [rewrite E2 in Hm; by apply elem_of_nil in Hm|by exists j, d].
    + exfalso. apply others in Hj as [[_ Hj]|[Hne Hj]]; [congruence|]. pose proof (ri_lock _ Hi j _ Hj eq_refl). congruence.
Qed.

(** The reference goes; at 0 nobody can reach what the recycler has. *)
Lemma rinv_dec a :
  acc_of c = Some a -> pending c = [] -> acc_of c' = None -> pending c' = [] ->
  (c' = RelSwap -> r_refs s = 1) -> (critical c' = true -> critical c = true) ->
  rinv (after_step (set_refs s (r_refs s - 1))).
Proof.
  intros E1 E2 E3 E4 Hsw Hcr. pose proof held_length as Hlen. rewrite E1, E3 in Hlen. cbn in Hlen.
  assert (Hsub : forall b, b ∈ held_accs (<[i := c']> (r_threads s)) -> b ∈ held_accs (r_threads s)).
  { intros b [?|Hb]%held_after; [done|congruence]. }
  split; cbn -[held_accs].
  - rewrite (ri_refs _ Hi). lia.
  - intros b Hb. by apply (ri_accs _ Hi), Hsub.
  - apply lock_after; [|auto]. intros Hc'. by apply (ri_lock _ Hi i c), Hcr.
  - rewrite (bind_insert_same pending _ i c c' Hc) by (by rewrite E2). apply Hi.
  - apply Hi.
  - intros n hs b Hr Hd Hb Hin. destruct (decide (c' = RelSwap)) as [Es|Hns].
    + pose proof (ri_refs _ Hi) as Hrefs. rewrite (Hsw Es) in Hrefs.
      destruct (held_accs (<[i := c']> (r_threads s))) as [|x l]; [by apply elem_of_nil in Hin|]. cbn in Hlen. lia.
    + apply Hsub in Hin. revert Hin. eapply (ri_doomed _ Hi n hs); [done| |done].
      assert (Ht : forall d, pending d = [] -> taken d = []) by (by intros []).
      apply (doomed_before n (set_refs s (r_refs s - 1))); try done. by rewrite !Ht.
Qed.

(** The nodes change hands under the lock. *)
Lemma rinv_swap : c = RelSwap -> c' = RelClear (default [] (r_nodes s)) -> rinv (after_step (set_nodes s None)).
Proof.
  intros E1 E2. pose proof (bind_insert pending _ i c c' Hc) as Hp. rewrite E1, E2 in Hp. cbn in Hp. rewrite app_nil_r in Hp.
  assert (Eh : held_accs (<[i := c']> (r_threads s)) = held_accs (r_threads s)).
  { eapply bind_insert_same; [exact Hc|]. by rewrite E1, E2. }
  pose proof (ri_lock _ Hi i c Hc ltac:(by rewrite E1)) as Hlk.
  split; cbn -[held_accs]; rewrite ?Eh; [apply Hi|apply Hi|by apply lock_after; auto| |apply Hi|].
  - rewrite E2, Hp, <- (ri_place _ Hi). solve_Permutation.
  - intros m hs b Hr Hd. apply (ri_doomed _ Hi m hs b Hr). destruct Hd as [Hd|[(j & d & Hd & Hm)|[_ Hm]]]; cbn in *.
    + by left.
    + apply others in Hd as [[-> ->]|[_ Hd]]; [|right; left; by exists j, d]. rewrite E2 in Hm. right; right.
      split; [exists i; by rewrite Hc, E1|done].
    + by apply elem_of_nil in Hm.
Qed.

Lemma rinv_destroy n l : c = Destroying (n :: l) -> c' = Destroying l -> rinv (after_step (destroy s n)).
Proof.
  intros E1 E2. pose proof (bind_insert pending _ i c c' Hc) as Hp. rewrite E1, E2 in Hp. cbn in Hp.
  assert (Eh : held_accs (<[i := c']> (r_threads s)) = held_accs (r_threads s)).
  { eapply bind_insert_same; [exact Hc|]. by rewrite E1, E2. }
  assert (Ht : forall m, m ∈ n :: l -> doomed s m).
  { intros m Hm. right; left. exists i, c. split; [done|]. by rewrite E1. }
  split; cbn -[held_accs]; rewrite ?Eh; [apply Hi|apply Hi|by apply lock_after; [rewrite E2|auto]| |apply Hi|].
  - rewrite E2, <- (ri_place _ Hi). apply (Permutation_app_inv_r (n :: l)).
    rewrite <- !app_assoc, Hp. solve_Permutation.
  - intros m hs b Hr Hd. apply (ri_doomed _ Hi m hs b Hr). destruct Hd as [Hd|[(j & d & Hd & Hm)|[[j Hj] Hm]]]; cbn in *.
    + apply elem_of_app in Hd as [Hd|Hd]; [by left|]. apply list_elem_of_singleton in Hd as ->. apply Ht. by left.
    + apply others in Hd as [[-> ->]|[_ Hd]]; [|right; left; by exists j, d]. rewrite E2 in Hm. apply Ht. by right.
    + right; right. split; [|done]. apply others in Hj as [[_ Hj]|[_ Hj]]; [congruence|by exists j].
Qed.
End step.

Lemma rinv_advance s i c s1 c' release :
  rinv s -> r_threads s !! i = Some c -> recycler_advance s i c release = Some (s1, c') -> rinv (after_step s i c' s1).
Proof.
  intros Hi Hc Ha.
  assert (Hq : forall dirty l, s1 = set_rlock (set_dirty s dirty) l ->
    acc_of c' = acc_of c -> pending c' = pending c -> taken c' = taken c -> c' <> RelSwap ->
    (critical c' = true -> l = Some i) -> (l = r_lock s \/ r_lock s = Some i \/ r_lock s = None) -> rinv (after_step s i c' s1)).
  { intros dirty l ->. by apply (rinv_quiet s i c c'). }
  pose proof (ri_lock _ Hi i c Hc) as Hlk.
  assert (Es : s = set_rlock (set_dirty s (r_dirty s)) (r_lock s)) by (by destruct s).
  destruct c as [|a|a n|a n|a|a|a|a|a|a|a| |l|l|[|n l]]; cbn -[Nat.ltb Nat.eqb] in Ha.
  - injection Ha as <- <-. by eapply rinv_addRef.
  - destruct release; injection Ha as <- <-; [eapply Hq; [exact Es|try done; auto..]|by eapply rinv_retire].
  - destruct (r_lock s) eqn:El; [done|]. injection Ha as <- <-. apply (Hq (r_dirty s) (Some i)); try done; auto.
  - injection Ha as <- <-. by eapply rinv_push.
  - injection Ha as <- <-. apply (Hq true (r_lock s)); try done; auto.
  - injection Ha as <- <-. apply (Hq (r_dirty s) None); try done; auto.
  - injection Ha as <- <-. apply (Hq (r_dirty s) (r_lock s)); try done; auto; by destruct (r_dirty s).
  - injection Ha as <- <-. apply (Hq (r_dirty s) (r_lock s)); try done; auto; by destruct (1 <? r_refs s).
  - injection Ha as <- <-. by apply (rinv_dec s i (RelFast a) Out Hi Hc a).
  - destruct (r_lock s) eqn:El; [done|]. injection Ha as <- <-. apply (Hq (r_dirty s) (Some i)); try done; auto.
  - injection Ha as <- <-. apply (rinv_dec s i (RelDec a) _ Hi Hc a); try done; try (by destruct (r_refs s =? 1)).
    destruct (Nat.eqb_spec (r_refs s) 1); done.
  - injection Ha as <- <-. by eapply rinv_swap.
  - injection Ha as <- <-. apply (Hq false (r_lock s)); try done; auto.
  - injection Ha as <- <-. apply (Hq (r_dirty s) None); try done; auto.
  - injection Ha as <- <-. apply (Hq (r_dirty s) (r_lock s)); try done; auto.
  - injection Ha as <- <-. by eapply rinv_destroy.
Qed.

Lemma recycler_inv threads s : recycler_reachable threads s -> rinv s.
Proof.
  induction 1 as [|s i release s' _ IH Hs].
  - assert (Hz : forall (f : rpc -> list nat), f Out = [] -> replicate threads Out ≫= f = []).
    { intros f Hf. induction threads as [|n IHn]; [done|]. cbn. by rewrite Hf. }
    split; cbn -[held_accs]; unfold held_accs; rewrite ?Hz by done; try done.
    + by intros a Ha%elem_of_nil.
    + intros i c [-> _]%lookup_replicate. done.
  - unfold recycler_step in Hs. rewrite bind_Some in Hs. destruct Hs as (c & Hc & Hs). rewrite bind_Some in Hs.
    destruct Hs as ([s1 c'] & Ha & Hs). injection Hs as <-. by eapply rinv_advance in Ha.
Qed.

(** ** What the recycler promises *)

(** C24: a node is destroyed only when every accessor that was held when the
    node left the list has been released, whatever the interleaving: no
    accessor ever reads a destroyed node. *)
Theorem recycler_safe threads s n holders a :
  recycler_reachable threads s -> r_retired s !! n = Some holders -> n ∈ r_destroyed s -> a ∈ holders ->
  a ∉ held_accs (r_threads s).
Proof. intros Hr Hn Hd Ha. apply (ri_doomed _ (recycler_inv threads s Hr) n holders a); [done|by left|done]. Qed.

Lemma destroy_all l s : r_destroyed (foldl destroy s l) = r_destroyed s ++ l.
Proof. revert s. induction l as [|n l IH]; intros s; cbn; [by rewrite app_nil_r|]. rewrite IH. cbn. by rewrite <- app_assoc. Qed.

(** No node is destroyed twice, and when every accessor has been
    released the destructor leaves none behind: each node that left the list
    has been destroyed exactly once. *)
Theorem recycler_accounts threads s :
  recycler_reachable threads s ->
  NoDup (r_destroyed s) /\
  ((forall i c, r_threads s !! i = Some c -> c = Out) ->
   r_destroyed (destroy_recycler s) ≡ₚ seq 0 (length (r_retired s))).
Proof.
  intros Hr. pose proof (recycler_inv threads s Hr) as Hi. pose proof (ri_place _ Hi) as Hp. split.
  - apply (NoDup_app (r_destroyed s) (default [] (r_nodes s) ++ (r_threads s ≫= pending))). rewrite Hp. apply NoDup_seq.
  - intros Hout. unfold destroy_recycler. rewrite destroy_all, <- Hp.
    replace (r_threads s ≫= pending) with (@nil nat); [by rewrite app_nil_r|]. clear -Hout.
    induction (r_threads s) as [|c l IH]; [done|]. cbn. rewrite (Hout 0 c eq_refl). cbn. apply IH. intros i d Hd. exact (Hout (S i) d Hd).
Qed.

(** ** A run *)

Definition recycler_exec (sched : list (nat * bool)) (s : recycler) : recycler :=
  foldl (fun s x => default s (recycler_step s x.1 x.2)) s sched.

Lemma recycler_exec_reachable threads sched s : recycler_reachable threads s -> recycler_reachable threads (recycler_exec sched s).
Proof.
  revert s. induction sched as [|[i b] sched IH]; intros s Hr; [done|]. apply IH. cbn.
  destruct (recycler_step s i b) as [s'|] eqn:E; [by eapply rr_step|done].
Qed.

(** Two threads take accessors, the first retires a node and leaves, the
    second leaves last and destroys it. *)
Definition recycler_demo : recycler :=
  recycler_exec ([(0, false); (1, false)] ++ replicate 5 (0, false) ++ replicate 4 (0, true) ++ replicate 9 (1, true)) (make_recycler 2).

Lemma recycler_safe_witness : r_destroyed recycler_demo = [0] /\ 1 ∉ held_accs (r_threads recycler_demo).
Proof.
  split; [vm_compute; reflexivity|].
  apply (recycler_safe 2 recycler_demo 0 [0; 1]);
    [apply recycler_exec_reachable, rr_make|vm_compute; reflexivity| |right; left].
  replace (r_destroyed recycler_demo) with [0] by (vm_compute; reflexivity). left.
Defined.

Lemma recycler_accounts_witness : NoDup (r_destroyed recycler_demo) /\ length (r_retired recycler_demo) = 1.
Proof.
  split; [|vm_compute; reflexivity].
  destruct (recycler_accounts 2 recycler_demo) as [H _]; [apply recycler_exec_reachable, rr_make|exact H].
Defined.
