(* ===== verification/IoContext.v ===== *)
(** * The I/O context of a thread (include/io/io_ctx.h)

    Requests wait in a queue, are moved to the submission queue of an
    io_uring as far as there is room for their completions, and are resumed
    with the result that the kernel posts under their number. io_uring is
    not part of the repository: it is an interface, a class with the
    operations the context calls, and a second class with what their manual
    promises. The ring is set up without IORING_SETUP_SUBMIT_ALL: a call may
    submit only some of the prepared entries, and the context does not look
    at how many. *)

From stdpp Require Import base numbers option list gmap.
From Stdlib Require Import ZArith Lia.
From S2P Require Import Prelude.

Local Open Scope Z_scope.

(** ** io_uring *)

(** A ring [U] carries requests of type [R]. [sq] holds the entries that
    are prepared, [kernel] those submitted and not finished, [cq] the
    completions not consumed, [finished] all completions so far. *)
Class Uring (U R : Type) := {
  sq : U -> list (Z * R);
  sq_entries : U -> nat;
  kernel : U -> list (Z * R);
  cq : U -> list (Z * Z);
  finished : U -> list (Z * R * Z);
  get_sqe : U -> Z -> R -> option U;              (* get_sqe, prepare, set_data64; None is nullptr *)
  uring_submit_and_wait : U -> nat -> option U;   (* None is a negative result *)
  cq_advance : U -> nat -> U;
  kernel_progress : U -> U;                       (* completions posted in the meantime *)
}.

Definition sq_space_left {U R} `{!Uring U R} (u : U) : nat := sq_entries u - length (sq u).
Definition completion {R} (x : Z * R * Z) : Z * Z := (x.1.1, x.2).

(** The kernel finishes some of the requests it has. *)
Definition completes {U R} `{!Uring U R} (u u' : U) (todo : list (Z * R)) : Prop :=
  exists done_, kernel u' ++ done_.*1 ≡ₚ todo /\ cq u' = cq u ++ (completion <$> done_) /\ finished u' = finished u ++ done_ /\
    sq_entries u' = sq_entries u.

Class UringLaws (U R : Type) `{!Uring U R} : Prop := {
  get_sqe_ok u id r : (length (sq u) < sq_entries u)%nat ->
    exists u', get_sqe u id r = Some u' /\ sq u' = sq u ++ [(id, r)] /\ kernel u' = kernel u /\ cq u' = cq u /\
      finished u' = finished u /\ sq_entries u' = sq_entries u;
  submit_ok u n u' : uring_submit_and_wait u n = Some u' ->
    exists taken, sq u = taken ++ sq u' /\ completes u u' (kernel u ++ taken);
  advance_ok u n : (n <= length (cq u))%nat ->
    cq (cq_advance u n) = drop n (cq u) /\ sq (cq_advance u n) = sq u /\ kernel (cq_advance u n) = kernel u /\
    finished (cq_advance u n) = finished u /\ sq_entries (cq_advance u n) = sq_entries u;
  progress_ok u : sq (kernel_progress u) = sq u /\ completes u (kernel_progress u) (kernel u);
}.

(** ** The context *)

Section io_ctx.
Context {U R : Type} `{!Uring U R}.

Record io_ctx := mk_ctx {
  c_uring : U;
  c_waiting_for_io : list R;
  c_in_flight : gmap Z R;
  c_queue_depth : Z;            (* uint32_t *)
  c_req_id : Z;                 (* size_t *)
  c_resumed : list (R * Z);     (* history: results handed to coroutines *)
}.

(** How a call can fail: a null entry is prepared, a completion has no
    request, or the ring reports an error, which is thrown. *)
Inductive io_failure := NullSqe | UnknownRequest | RingError.
Inductive io_result (A : Type) := IoOk (a : A) | IoFail (e : io_failure).
Arguments IoOk {A} a.
Arguments IoFail {A} e.

Definition i32 (x : Z) : Z := let y := wrap 32 x in if y <? 2 ^ 31 then y else y - 2 ^ 32.

(** [cq_size], in the width of [_queue_depth]. *)
Definition cq_size (c : io_ctx) : Z := wrap 32 (c_queue_depth c * 2).

(** The loop of [reap_cq]. *)
Fixpoint reap_loop (cqes : list (Z * Z)) (in_flight : gmap Z R) (resumed : list (R * Z)) : io_result (gmap Z R * list (R * Z)) :=
  match cqes with
  | [] => IoOk (in_flight, resumed)
  | (id, res) :: cqes =>
      match in_flight !! id with
      | Some r => reap_loop cqes (delete id in_flight) (resumed ++ [(r, res)])
      | None => IoFail UnknownRequest
      end
  end.

Definition reap_cq (c : io_ctx) : io_result (io_ctx * nat) :=
  match reap_loop (cq (c_uring c)) (c_in_flight c) (c_resumed c) with
  | IoOk (in_flight, resumed) =>
      let n := length (cq (c_uring c)) in
      IoOk (mk_ctx (cq_advance (c_uring c) n) (c_waiting_for_io c) in_flight (c_queue_depth c) (c_req_id c) resumed, n)
  | IoFail e => IoFail e
  end.

Definition emplace (m : gmap Z R) (k : Z) (v : R) : gmap Z R :=
  match m !! k with Some _ => m | None => <[k := v]> m end.

(** The loop of [submit_and_wait]. *)
Fixpoint fill_sq (pop_count : nat) (c : io_ctx) : io_result io_ctx :=
  match pop_count, c_waiting_for_io c with
  | S n, r :: waiting =>
      match get_sqe (c_uring c) (c_req_id c) r with
      | Some u => fill_sq n (mk_ctx u waiting (emplace (c_in_flight c) (c_req_id c) r) (c_queue_depth c)
                               (wrap 64 (c_req_id c + 1)) (c_resumed c))
      | None => IoFail NullSqe
      end
  | _, _ => IoOk c
  end.

Definition pop_count (c : io_ctx) : nat :=
  let cq_ready := i32 (Z.of_nat (length (cq (c_uring c)))) in
  let in_flight := i32 (Z.of_nat (size (c_in_flight c))) in
  let cqe_space_margin := i32 (cq_size c) - (cq_ready + in_flight) in
  if 0 <? cqe_space_margin then
    let sq_to_submit := Z.min (i32 (Z.of_nat (sq_space_left (c_uring c)))) cqe_space_margin in
    Z.to_nat (Z.min sq_to_submit (Z.of_nat (length (c_waiting_for_io c))))
  else 0%nat.

Definition submit_and_wait (c : io_ctx) : io_result (io_ctx * nat) :=
  match fill_sq (pop_count c) c with
  | IoOk c =>
      let wait_for := if (0 <? size (c_in_flight c))%nat then 1%nat else 0%nat in
      match uring_submit_and_wait (c_uring c) wait_for with
      | Some u => reap_cq (mk_ctx u (c_waiting_for_io c) (c_in_flight c) (c_queue_depth c) (c_req_id c) (c_resumed c))
      | None => IoFail RingError
      end
  | IoFail e => IoFail e
  end.

Definition submit_request (c : io_ctx) (r : R) : io_result io_ctx :=
  let c := mk_ctx (c_uring c) (c_waiting_for_io c ++ [r]) (c_in_flight c) (c_queue_depth c) (c_req_id c) (c_resumed c) in
  if Z.of_nat (length (c_waiting_for_io c)) =? c_queue_depth c
  then match submit_and_wait c with IoOk (c, _) => IoOk c | IoFail e => IoFail e end
  else if (0 <? length (cq (c_uring c)))%nat
  then match reap_cq c with IoOk (c, _) => IoOk c | IoFail e => IoFail e end
  else IoOk c.

(** The constructor leaves [_req_id] as it finds it. *)
Definition make_ctx (u : U) (queue_depth garbage : Z) : io_ctx := mk_ctx u [] ∅ queue_depth garbage [].

(** ** Runs *)

Inductive io_event :=
  | Submit (r : R)      (* a coroutine awaits a request *)
  | PostRun             (* the hook after a task: [submit_and_wait] *)
  | Progress.           (* the kernel posts completions *)

Definition io_step (c : io_ctx) (e : io_event) : io_result io_ctx :=
  match e with
  | Submit r => submit_request c r
  | PostRun => match submit_and_wait c with IoOk (c, _) => IoOk c | IoFail e => IoFail e end
  | Progress => IoOk (mk_ctx (kernel_progress (c_uring c)) (c_waiting_for_io c) (c_in_flight c) (c_queue_depth c)
                        (c_req_id c) (c_resumed c))
  end.

Fixpoint io_run (c : io_ctx) (es : list io_event) : io_result io_ctx :=
  match es with
  | [] => IoOk c
  | e :: es => match io_step c e with IoOk c => io_run c es | IoFail e => IoFail e end
  end.

Definition submitted (es : list io_event) : list R := omap (fun e => match e with Submit r => Some r | _ => None end) es.

(** ** The invariant *)

Context `{!UringLaws U R}.

Definition answer (x : Z * R * Z) : R * Z := (x.1.2, x.2).

(** Requests under way, with their numbers; [D] are the completions that
    wait in the ring. *)
Definition under_way (u : U) (D : list (Z * R * Z)) : list (Z * R) := kernel u ++ sq u ++ D.*1.

Record io_inv (c : io_ctx) (acc : list R) (r0 : Z) (issued : nat) (D : list (Z * R * Z)) : Prop := {
  ii_depth : 0 < c_queue_depth c < 2 ^ 30;
  ii_entries : c_queue_depth c <= Z.of_nat (sq_entries (c_uring c)) < 2 ^ 31;
  ii_map : c_in_flight c = list_to_map (under_way (c_uring c) D);
  ii_nodup : NoDup (under_way (c_uring c) D).*1;
  ii_ids : forall id, id ∈ (under_way (c_uring c) D).*1 -> exists k, 0 <= k < Z.of_nat issued /\ id = wrap 64 (r0 + k);
  ii_req_id : c_req_id c = wrap 64 (r0 + Z.of_nat issued);
  ii_cq : cq (c_uring c) = completion <$> D;
  ii_finished : exists reaped, finished (c_uring c) = reaped ++ D /\ c_resumed c = answer <$> reaped;
  ii_room : Z.of_nat (length (under_way (c_uring c) D)) <= 2 * c_queue_depth c;
  ii_accepted : (c_resumed c).*1 ++ (under_way (c_uring c) D).*2 ++ c_waiting_for_io c ≡ₚ acc;
  ii_issued : (issued + length (c_waiting_for_io c) = length acc)%nat;
}.

Lemma size_list_to_map (l : list (Z * R)) : NoDup l.*1 -> size (list_to_map l : gmap Z R) = length l.
Proof.
  induction l as [|[k v] l IH]; intros Hnd; [by rewrite list_to_map_nil, map_size_empty|].
  apply NoDup_cons in Hnd as [Hk Hnd]. cbn in *. rewrite map_size_insert_None by (by apply not_elem_of_list_to_map_1).
  by rewrite IH.
Qed.

Lemma in_flight_size c acc r0 issued D : io_inv c acc r0 issued D -> size (c_in_flight c) = length (under_way (c_uring c) D).
Proof. intros Hi. rewrite (ii_map _ _ _ _ _ Hi). apply size_list_to_map, Hi. Qed.

Lemma i32_small x : 0 <= x < 2 ^ 31 -> i32 x = x.
Proof. intros Hx. unfold i32. rewrite wrap_small by lia. destruct (Z.ltb_spec x (2 ^ 31)); lia. Qed.

(** Numbers do not repeat in fewer than 2^64 requests. *)
Lemma fresh_id r0 k n : 0 <= k < n -> n < 2 ^ 64 -> wrap 64 (r0 + k) <> wrap 64 (r0 + n).
Proof.
  intros Hk Hn E. unfold wrap in E. assert (Hd : ((r0 + n) - (r0 + k)) mod 2 ^ 64 = 0).
  { rewrite Zminus_mod, E, Z.sub_diag. done. }
  rewrite Z.mod_small in Hd; lia.
Qed.

Lemma fill_sq_ok n c acc r0 issued D :
  io_inv c acc r0 issued D -> (n <= length (c_waiting_for_io c))%nat -> (n <= sq_space_left (c_uring c))%nat ->
  Z.of_nat (length (under_way (c_uring c) D) + n) <= 2 * c_queue_depth c -> Z.of_nat (length acc) < 2 ^ 64 ->
  exists c', fill_sq n c = IoOk c' /\ io_inv c' acc r0 (issued + n) D /\ c_waiting_for_io c' = drop n (c_waiting_for_io c) /\
    (length (under_way (c_uring c') D) = length (under_way (c_uring c) D) + n)%nat.
Proof.
  revert c issued. induction n as [|n IH]; intros c issued Hi Hw Hsp Hroom Hacc.
  { exists c. rewrite !Nat.add_0_r. by destruct (c_waiting_for_io c). }
  destruct (c_waiting_for_io c) as [|r w] eqn:Ew; [cbn in Hw; lia|]. cbn [fill_sq]. rewrite Ew.
  unfold sq_space_left in Hsp.
  destruct (get_sqe_ok (c_uring c) (c_req_id c) r ltac:(lia)) as (u' & -> & G1 & G2 & G3 & G4 & G5).
  assert (Eu : under_way u' D ≡ₚ (c_req_id c, r) :: under_way (c_uring c) D).
  { unfold under_way. rewrite G1, G2. solve_Permutation. }
  pose proof (ii_issued _ _ _ _ _ Hi) as Hiss. rewrite Ew in Hiss. cbn in Hiss.
  assert (Hnew : c_req_id c ∉ (under_way (c_uring c) D).*1).
  { intros Hin. destruct (ii_ids _ _ _ _ _ Hi _ Hin) as (k & Hk & E). rewrite (ii_req_id _ _ _ _ _ Hi) in E.
    symmetry in E. revert E. apply fresh_id; lia. }
  assert (Hnd : NoDup (under_way u' D).*1).
  { rewrite Eu. cbn. constructor; [done|apply Hi]. }
  destruct (IH (mk_ctx u' w (emplace (c_in_flight c) (c_req_id c) r) (c_queue_depth c) (wrap 64 (c_req_id c + 1)) (c_resumed c)) (S issued))
    as (c' & E1 & E2 & E3 & E4).
  - split; cbn.
    + apply Hi.
    + rewrite G5. apply Hi.
    + unfold emplace. rewrite (ii_map _ _ _ _ _ Hi), not_elem_of_list_to_map_1 by done.
      by rewrite (list_to_map_proper _ _ Hnd Eu).
    + done.
    + intros id Hin. rewrite Eu in Hin. cbn in Hin. apply elem_of_cons in Hin as [->|Hin].
      * exists (Z.of_nat issued). split; [lia|apply Hi].
      * destruct (ii_ids _ _ _ _ _ Hi id Hin) as (k & Hk & ->). exists k. split; [lia|done].
    + rewrite (ii_req_id _ _ _ _ _ Hi). unfold wrap. rewrite Zplus_mod_idemp_l. f_equal. lia.
    + rewrite G3. apply Hi.
    + rewrite G4. apply Hi.
    + rewrite Eu. cbn. lia.
    + rewrite Eu, <- (ii_accepted _ _ _ _ _ Hi), Ew. cbn. solve_Permutation.
    + lia.
  - cbn in *. lia.
  - cbn. unfold sq_space_left. rewrite G1, G5, length_app. cbn. lia.
  - cbn. rewrite Eu. cbn. lia.
  - done.
  - exists c'. split; [done|]. split; [by rewrite Nat.add_succ_r|]. split; [done|]. rewrite E4. cbn. rewrite Eu. cbn. lia.
Qed.

Lemma reap_loop_ok (K : list (Z * R)) D resumed :
  NoDup (K ++ D.*1).*1 ->
  reap_loop (completion <$> D) (list_to_map (K ++ D.*1)) resumed = IoOk (list_to_map K, resumed ++ (answer <$> D)).
Proof.
  revert resumed. induction D as [|[[id r] res] D IH]; intros resumed Hnd; cbn.
  { by rewrite !app_nil_r. }
  assert (Hp : K ++ (id, r) :: D.*1 ≡ₚ (id, r) :: (K ++ D.*1)) by solve_Permutation.
  assert (Hnd' : NoDup ((id, r) :: (K ++ D.*1)).*1) by (rewrite <- Hp; exact Hnd).
  apply NoDup_cons in Hnd' as Hn. destruct Hn as [Hid Hn].
  rewrite (list_to_map_proper _ _ Hnd Hp). cbn. rewrite lookup_insert_eq, delete_insert_id by (by apply not_elem_of_list_to_map_1).
  rewrite IH by done. by rewrite <- app_assoc.
Qed.

Lemma reap_cq_ok c acc r0 issued D :
  io_inv c acc r0 issued D ->
  exists c', reap_cq c = IoOk (c', length D) /\ io_inv c' acc r0 issued [] /\
    c_waiting_for_io c' = c_waiting_for_io c /\ under_way (c_uring c') [] = kernel (c_uring c) ++ sq (c_uring c).
Proof.
  intros Hi. destruct (advance_ok (c_uring c) (length (cq (c_uring c))) ltac:(lia)) as (A1 & A2 & A3 & A4 & A5).
  rewrite drop_all in A1. unfold reap_cq.
  set (K := kernel (c_uring c) ++ sq (c_uring c)) in *.
  assert (Ew : under_way (c_uring c) D = K ++ D.*1) by (unfold under_way, K; by rewrite <- app_assoc).
  pose proof (ii_nodup _ _ _ _ _ Hi) as Hnd. rewrite Ew in Hnd.
  set (u' := cq_advance (c_uring c) (length (cq (c_uring c)))) in *.
  assert (Ew' : under_way u' [] = K) by (unfold under_way; rewrite A2, A3; cbn; by rewrite app_nil_r).
  assert (El : reap_loop (cq (c_uring c)) (c_in_flight c) (c_resumed c) =
    IoOk (list_to_map K, c_resumed c ++ (answer <$> D))).
  { rewrite (ii_cq _ _ _ _ _ Hi), (ii_map _ _ _ _ _ Hi), Ew. by apply reap_loop_ok. }
  rewrite El. clear El.
  eexists. split; [rewrite (ii_cq _ _ _ _ _ Hi), length_fmap; done|]. split; [|split; [done|exact Ew']].
  pose proof (ii_accepted _ _ _ _ _ Hi) as Hacc. rewrite Ew in Hacc.
  split; cbn; rewrite ?Ew'; try (apply Hi).
  - rewrite A5. apply Hi.
  - done.
  - rewrite fmap_app in Hnd. by apply NoDup_app in Hnd as [Hnd _].
  - intros id Hin. apply (ii_ids _ _ _ _ _ Hi). rewrite Ew, fmap_app. apply elem_of_app. by left.
  - done.
  - destruct (ii_finished _ _ _ _ _ Hi) as (reaped & F1 & F2). exists (reaped ++ D).
    by rewrite A4, F1, app_nil_r, F2, fmap_app.
  - pose proof (ii_room _ _ _ _ _ Hi) as Hr. rewrite Ew, length_app in Hr. lia.
  - rewrite <- Hacc, !fmap_app, <- !app_assoc, <- !list_fmap_compose.
    replace (@fst R Z ∘ answer <$> D) with (@snd Z R ∘ fst <$> D) by done. solve_Permutation.
Qed.

(** The ring takes some of what was prepared and completes some requests. *)
Lemma ring_keeps c acc r0 issued D u' taken :
  io_inv c acc r0 issued D -> sq (c_uring c) = taken ++ sq u' -> completes (c_uring c) u' (kernel (c_uring c) ++ taken) ->
  exists D', io_inv (mk_ctx u' (c_waiting_for_io c) (c_in_flight c) (c_queue_depth c) (c_req_id c) (c_resumed c)) acc r0 issued D' /\
    length (cq u') = length D' /\ length (under_way u' D') = length (under_way (c_uring c) D).
Proof.
  intros Hi Hsq (done_ & P1 & P2 & P3 & P4). exists (D ++ done_).
  assert (Eu : under_way u' (D ++ done_) ≡ₚ under_way (c_uring c) D).
  { unfold under_way. rewrite Hsq, <- (app_assoc taken), (app_assoc (kernel (c_uring c))), <- P1, (fmap_app fst D done_). solve_Permutation. }
  assert (Hnd : NoDup (under_way u' (D ++ done_)).*1) by (rewrite Eu; apply Hi).
  split; [|split; [by rewrite P2, (ii_cq _ _ _ _ _ Hi), !length_app, !length_fmap|by rewrite Eu]].
  split; cbn; try (apply Hi).
  - rewrite P4. apply Hi.
  - rewrite (list_to_map_proper _ _ Hnd Eu). apply Hi.
  - done.
  - intros id Hin. apply (ii_ids _ _ _ _ _ Hi). by rewrite <- Eu.
  - by rewrite P2, (ii_cq _ _ _ _ _ Hi), fmap_app.
  - destruct (ii_finished _ _ _ _ _ Hi) as (reaped & F1 & F2). exists reaped. by rewrite P3, F1, app_assoc.
  - rewrite Eu. apply Hi.
  - rewrite Eu. apply Hi.
Qed.

Definition outstanding (c : io_ctx) (D : list (Z * R * Z)) : nat :=
  length (under_way (c_uring c) D) + length (c_waiting_for_io c).

(** No more is taken than fits into the submission queue and, together
    with what is under way, into the completion queue. *)
Lemma pop_count_ok c acc r0 issued D :
  io_inv c acc r0 issued D ->
  (pop_count c <= length (c_waiting_for_io c))%nat /\ (pop_count c <= sq_space_left (c_uring c))%nat /\
  Z.of_nat (length (under_way (c_uring c) D) + pop_count c) <= 2 * c_queue_depth c /\
  (under_way (c_uring c) D = [] -> c_waiting_for_io c <> [] -> (0 < pop_count c)%nat).
Proof.
  intros Hi. pose proof (ii_depth _ _ _ _ _ Hi). pose proof (ii_entries _ _ _ _ _ Hi). pose proof (ii_room _ _ _ _ _ Hi).
  assert (Hcq : length (cq (c_uring c)) = length D) by (by rewrite (ii_cq _ _ _ _ _ Hi), length_fmap).
  assert (Hle : (length D <= length (under_way (c_uring c) D))%nat) by (unfold under_way; rewrite !length_app, length_fmap; lia).
  assert (Hsp : (under_way (c_uring c) D = [] -> sq_space_left (c_uring c) = sq_entries (c_uring c))%nat).
  { unfold sq_space_left, under_way. intros [_ [-> _]%app_eq_nil]%app_eq_nil. cbn. lia. }
  assert (Hsp' : (sq_space_left (c_uring c) <= sq_entries (c_uring c))%nat) by (unfold sq_space_left; lia).
  unfold pop_count. rewrite (in_flight_size _ _ _ _ _ Hi), Hcq. unfold cq_size. rewrite (wrap_small 32) by lia.
  rewrite !i32_small by lia. set (m := length (under_way (c_uring c) D)) in *.
  destruct (Z.ltb_spec 0 (c_queue_depth c * 2 - (Z.of_nat (length D) + Z.of_nat m))) as [Hm|Hm].
  - split; [lia|]. split; [lia|]. split; [lia|]. intros Hn Hw. rewrite (Hsp Hn). destruct (c_waiting_for_io c) as [|r w]; [done|].
    unfold m in *. rewrite Hn in *. cbn in *. lia.
  - split; [lia|]. split; [lia|]. split; [lia|]. intros Hn. unfold m in *. rewrite Hn in *. cbn in *. lia.
Qed.

(** A ring that does not fail, and whose wait for a completion returns with
    one, whenever an entry is prepared, in the kernel or completed. *)
Record patient_ring : Prop := {
  pr_submits : forall u w, exists u', uring_submit_and_wait u w = Some u';
  pr_waits : forall u u', uring_submit_and_wait u 1 = Some u' -> sq u ++ kernel u <> [] \/ cq u <> [] -> cq u' <> [];
}.

Lemma submit_and_wait_ok c acc r0 issued D :
  io_inv c acc r0 issued D -> Z.of_nat (length acc) < 2 ^ 64 ->
  submit_and_wait c = IoFail RingError \/
  exists c' n issued', submit_and_wait c = IoOk (c', n) /\ io_inv c' acc r0 issued' [] /\
    (outstanding c' [] + n = outstanding c D)%nat /\ (patient_ring -> 0 < outstanding c D -> 0 < n)%nat.
Proof.
  intros Hi Hacc. destruct (pop_count_ok c acc r0 issued D Hi) as (P1 & P2 & P3 & P4). unfold submit_and_wait.
  destruct (fill_sq_ok (pop_count c) c acc r0 issued D Hi P1 P2 P3 Hacc) as (c1 & -> & I1 & W1 & L1).
  set (w := if (0 <? size (c_in_flight c1))%nat then 1%nat else 0%nat).
  destruct (uring_submit_and_wait (c_uring c1) w) as [u|] eqn:Eu; [right|by left].
  pose proof (in_flight_size _ _ _ _ _ I1) as Hsz.
  destruct (submit_ok _ _ _ Eu) as (taken & S1 & S2).
  destruct (ring_keeps c1 acc r0 _ D u taken I1 S1 S2) as (D' & I2 & L2 & L3).
  destruct (reap_cq_ok _ acc r0 _ D' I2) as (c' & -> & I3 & Q2 & Q3). cbn in Q2, Q3.
  exists c', (length D'), (issued + pop_count c)%nat. split; [done|]. split; [done|].
  assert (Hu : (length (under_way u D') = length (under_way (c_uring c') []) + length D')%nat).
  { rewrite Q3. unfold under_way. rewrite !length_app, length_fmap. lia. }
  unfold outstanding. rewrite Q2, W1, length_drop. split; [lia|]. intros [_ Hwait] Hpos. rewrite <- L2.
  assert (under_way (c_uring c1) D <> []) as Hne.
  { intros E. rewrite E in L1. cbn in L1. destruct (under_way (c_uring c) D) as [|x l] eqn:Ex; [|cbn in L1; lia].
    destruct (c_waiting_for_io c) as [|r wl] eqn:Ewt; [cbn in Hpos; lia|]. specialize (P4 eq_refl ltac:(done)). lia. }
  assert (w = 1%nat) as Ew.
  { unfold w. destruct (Nat.ltb_spec 0 (size (c_in_flight c1))) as [|Hz]; [done|]. rewrite Hsz in Hz.
    destruct (under_way (c_uring c1) D); [done|cbn in Hz; lia]. }
  rewrite Ew in Eu. assert (cq u <> []) as Hcq; [|destruct (cq u); [done|cbn; lia]].
  apply (Hwait _ _ Eu). unfold under_way in Hne. destruct (sq (c_uring c1)) as [|x l]; [|by left].
  destruct (kernel (c_uring c1)) as [|y k]; [|by left]. right. cbn in Hne. rewrite (ii_cq _ _ _ _ _ I1). by destruct D.
Qed.

(** Every event keeps the invariant. *)
Definition io_ok (c : io_ctx) (acc : list R) (r0 : Z) : Prop :=
  exists issued D, io_inv c acc r0 issued D.

Lemma io_step_ok c e acc r0 :
  io_ok c acc r0 -> Z.of_nat (length (acc ++ submitted [e])) < 2 ^ 64 ->
  io_step c e = IoFail RingError \/ exists c', io_step c e = IoOk c' /\ io_ok c' (acc ++ submitted [e]) r0.
Proof.
  intros (issued & D & Hi) Hacc. destruct e as [r| |]; cbn in *.
  - unfold submit_request. set (c1 := mk_ctx _ _ _ _ _ _).
    assert (I1 : io_inv c1 (acc ++ [r]) r0 issued D).
    { destruct Hi as [H1 H2 H3 H4 H5 H6 H7 H8 H9 H10 H11]. split; cbn; try done.
      - rewrite <- H10. solve_Permutation.
      - rewrite !length_app. cbn. lia. }
    destruct (Z.of_nat (length (c_waiting_for_io c1)) =? c_queue_depth c1).
    + destruct (submit_and_wait_ok c1 _ r0 issued D I1 Hacc) as [->|(c' & n & issued' & -> & I2 & _)]; [by left|].
      right. exists c'. split; [done|by exists issued', []].
    + destruct (0 <? length (cq (c_uring c1)))%nat; [|right; exists c1; split; [done|by exists issued, D]].
      destruct (reap_cq_ok c1 _ r0 issued D I1) as (c' & -> & I2 & _). right. exists c'. split; [done|by exists issued, []].
  - rewrite app_nil_r in *. destruct (submit_and_wait_ok c _ r0 issued D Hi Hacc) as [->|(c' & n & issued' & -> & I2 & _)]; [by left|].
    right. exists c'. split; [done|by exists issued', []].
  - rewrite app_nil_r in *. right. destruct (progress_ok (c_uring c)) as [P1 P2]. eexists. split; [done|].
    destruct (ring_keeps c acc r0 issued D (kernel_progress (c_uring c)) [] Hi) as (D' & I & _); [by rewrite P1|by rewrite app_nil_r|].
    by exists issued, D'.
Qed.

Lemma io_run_ok es c acc r0 :
  io_ok c acc r0 -> Z.of_nat (length (acc ++ submitted es)) < 2 ^ 64 ->
  io_run c es = IoFail RingError \/ exists c', io_run c es = IoOk c' /\ io_ok c' (acc ++ submitted es) r0.
Proof.
  revert c acc. induction es as [|e es IH]; intros c acc Hi Hacc.
  { right. exists c. cbn. by rewrite app_nil_r. }
  assert (Es : submitted (e :: es) = submitted [e] ++ submitted es) by (by destruct e). rewrite Es, app_assoc in *.
  cbn [io_run]. destruct (io_step_ok c e acc r0 Hi) as [->|(c' & -> & Hi')]; [rewrite length_app in Hacc; lia|by left|].
  by apply IH.
Qed.

(** ** What the context promises *)

(** A ring after [io_uring_queue_init]. *)
Record fresh_ring (u : U) (queue_depth : Z) : Prop := {
  fr_sq : sq u = [];
  fr_kernel : kernel u = [];
  fr_cq : cq u = [];
  fr_finished : finished u = [];
  fr_entries : queue_depth <= Z.of_nat (sq_entries u) < 2 ^ 31;
}.

Lemma make_ctx_ok u queue_depth garbage :
  fresh_ring u queue_depth -> 0 < queue_depth < 2 ^ 30 -> 0 <= garbage < 2 ^ 64 -> io_ok (make_ctx u queue_depth garbage) [] garbage.
Proof.
  intros [F1 F2 F3 F4 F5] Hd Hg. exists 0%nat, [].
  assert (E : under_way u [] = []) by (unfold under_way; by rewrite F1, F2).
  split; cbn; rewrite ?E; try done.
  - constructor.
  - by intros id Hid%elem_of_nil.
  - rewrite Z.add_0_r. by rewrite wrap_small.
  - by exists [].
  - cbn. lia.
Qed.

(** C25: whatever requests are submitted, and however the ring completes
    them, the context never prepares a null entry and never meets a
    completion without a request, whatever [_req_id] held at the start, and
    the completions to come fit into the completion queue. *)
Theorem io_ctx_safe u queue_depth garbage es :
  fresh_ring u queue_depth -> 0 < queue_depth < 2 ^ 30 -> 0 <= garbage < 2 ^ 64 ->
  Z.of_nat (length (submitted es)) < 2 ^ 64 ->
  match io_run (make_ctx u queue_depth garbage) es with
  | IoOk c => Z.of_nat (length (kernel (c_uring c)) + length (cq (c_uring c))) <= cq_size c
  | IoFail e => e = RingError
  end.
Proof.
  intros Hf Hd Hg Hn. destruct (io_run_ok es _ [] garbage (make_ctx_ok u queue_depth garbage Hf Hd Hg) Hn) as [->|(c & -> & Hok)]; [done|].
  destruct Hok as (issued & D & Hi). pose proof (ii_room _ _ _ _ _ Hi) as Hr. pose proof (ii_depth _ _ _ _ _ Hi).
  unfold under_way in Hr. rewrite !length_app, length_fmap in Hr.
  rewrite (ii_cq _ _ _ _ _ Hi), length_fmap. unfold cq_size. rewrite wrap_small by lia. lia.
Qed.

(** C26: every submitted request is in exactly one place, resumed, under way
    or waiting, and the results handed to coroutines are, in order, those
    that the ring finished for their own requests. *)
Theorem io_ctx_delivers u queue_depth garbage es c :
  fresh_ring u queue_depth -> 0 < queue_depth < 2 ^ 30 -> 0 <= garbage < 2 ^ 64 ->
  Z.of_nat (length (submitted es)) < 2 ^ 64 -> io_run (make_ctx u queue_depth garbage) es = IoOk c ->
  (c_resumed c).*1 ++ (map_to_list (c_in_flight c)).*2 ++ c_waiting_for_io c ≡ₚ submitted es /\
  c_resumed c = answer <$> take (length (c_resumed c)) (finished (c_uring c)).
Proof.
  intros Hf Hd Hg Hn Hrun. destruct (io_run_ok es _ [] garbage (make_ctx_ok u queue_depth garbage Hf Hd Hg) Hn) as [E|(c' & E & Hok)]; [congruence|].
  rewrite Hrun in E. injection E as <-. destruct Hok as (issued & D & Hi). split.
  - rewrite (ii_map _ _ _ _ _ Hi), map_to_list_to_map by apply Hi. apply Hi.
  - destruct (ii_finished _ _ _ _ _ Hi) as (reaped & F1 & F2). rewrite F1, F2, length_fmap. by rewrite take_app_length.
Qed.

Lemma io_drain n c acc r0 :
  patient_ring -> Z.of_nat (length acc) < 2 ^ 64 ->
  (exists issued D, io_inv c acc r0 issued D /\ (outstanding c D <= n)%nat) ->
  exists c', io_run c (replicate n PostRun) = IoOk c' /\ exists issued D, io_inv c' acc r0 issued D /\ outstanding c' D = 0%nat.
Proof.
  intros Hring Hacc. revert c. induction n as [|n IH]; intros c (issued & D & Hi & Ho).
  { exists c. split; [done|]. exists issued, D. split; [done|lia]. }
  cbn. destruct (submit_and_wait_ok c acc r0 issued D Hi Hacc) as [E|(c' & k & issued' & -> & I2 & O1 & O2)].
  - exfalso. unfold submit_and_wait in E. destruct (pop_count_ok c acc r0 issued D Hi) as (P1 & P2 & P3 & P4).
    destruct (fill_sq_ok (pop_count c) c acc r0 issued D Hi P1 P2 P3 Hacc) as (c1 & E1 & I1 & _). rewrite E1 in E.
    set (w := if (0 <? size (c_in_flight c1))%nat then 1%nat else 0%nat) in *.
    destruct (pr_submits Hring (c_uring c1) w) as [u' Hu']. rewrite Hu' in E. unfold reap_cq in E. cbn in E.
    destruct (reap_loop (cq u') (c_in_flight c1) (c_resumed c1)) as [[? ?]|e] eqn:El; [done|].
    clear -E El. revert El E. generalize (c_in_flight c1) (c_resumed c1). generalize (cq u').
    intros l. induction l as [|[id res] l IHl]; intros m r El E; [done|]. cbn in El.
    destruct (m !! id); [by eapply IHl|]. congruence.
  - apply IH. exists issued', []. split; [done|]. specialize (O2 Hring). lia.
Qed.

(** C27: nothing is left behind by a ring that does not fail and whose wait
    for one completion is not cut short. Whatever part of the prepared
    entries each call submits, as many calls of the hook as there were
    requests resume every request, each once: every call waits for at least
    one of those under way. *)
Theorem io_ctx_drains u queue_depth garbage es c :
  patient_ring ->
  fresh_ring u queue_depth -> 0 < queue_depth < 2 ^ 30 -> 0 <= garbage < 2 ^ 64 ->
  Z.of_nat (length (submitted es)) < 2 ^ 64 -> io_run (make_ctx u queue_depth garbage) es = IoOk c ->
  exists c', io_run c (replicate (length (submitted es)) PostRun) = IoOk c' /\ c_in_flight c' = ∅ /\ c_waiting_for_io c' = [] /\
    (c_resumed c').*1 ≡ₚ submitted es.
Proof.
  intros Hring Hf Hd Hg Hn Hrun. destruct (io_run_ok es _ [] garbage (make_ctx_ok u queue_depth garbage Hf Hd Hg) Hn) as [E|(c1 & E & Hok)]; [congruence|].
  rewrite Hrun in E. injection E as <-. destruct Hok as (issued & D & Hi).
  destruct (io_drain (length (submitted es)) c (submitted es) garbage Hring Hn) as (c' & Hrn & issued' & D' & Hi' & Ho).
  { exists issued, D. split; [done|]. pose proof (ii_accepted _ _ _ _ _ Hi) as Hp. apply Permutation_length in Hp.
    cbn in Hp. rewrite !length_app, !length_fmap in Hp. unfold outstanding. lia. }
  exists c'. split; [done|]. unfold outstanding in Ho.
  assert (E : under_way (c_uring c') D' = []) by (apply length_zero_iff_nil; lia).
  assert (Ew : c_waiting_for_io c' = []) by (apply length_zero_iff_nil; lia).
  rewrite (ii_map _ _ _ _ _ Hi'), E. split; [done|]. split; [done|].
  rewrite <- (ii_accepted _ _ _ _ _ Hi'), E, Ew. cbn. by rewrite app_nil_r.
Qed.
End io_ctx.

Arguments io_ctx : clear implicits.
Arguments IoOk {A} a.
Arguments IoFail {A} e.

(** ** A ring *)

(** A call submits only the first of the prepared entries; the entries
    submitted complete at once, in order, with the request as the result. *)
Record toy_ring := mk_toy {
  toy_sq : list (Z * Z);
  toy_kernel : list (Z * Z);
  toy_cq : list (Z * Z);
  toy_finished : list (Z * Z * Z);
}.

Definition toy_done (l : list (Z * Z)) : list (Z * Z * Z) := (fun x => (x, x.2)) <$> l.

#[export] Instance toy_uring : Uring toy_ring Z := {
  sq := toy_sq;
  sq_entries _ := 2%nat;
  kernel := toy_kernel;
  cq := toy_cq;
  finished := toy_finished;
  get_sqe u id r := if (length (toy_sq u) <? 2)%nat
                    then Some (mk_toy (toy_sq u ++ [(id, r)]) (toy_kernel u) (toy_cq u) (toy_finished u)) else None;
  uring_submit_and_wait u _ := let d := toy_done (toy_kernel u ++ take 1 (toy_sq u)) in
    Some (mk_toy (drop 1 (toy_sq u)) [] (toy_cq u ++ (completion <$> d)) (toy_finished u ++ d));
  cq_advance u n := mk_toy (toy_sq u) (toy_kernel u) (drop n (toy_cq u)) (toy_finished u);
  kernel_progress u := u;
}.

#[export] Instance toy_laws : UringLaws toy_ring Z.
Proof.
  assert (Hd : forall l, (toy_done l).*1 = l).
  { intros l. unfold toy_done. rewrite <- list_fmap_compose. induction l as [|x l IH]; [done|]. cbn. by rewrite IH. }
  split.
  - intros u id r Hl. cbn -[Nat.ltb] in *. rewrite (proj2 (Nat.ltb_lt _ _) Hl). eexists. split_and!; reflexivity.
  - intros u n u' Hu. injection Hu as <-. exists (take 1 (toy_sq u)). cbn [sq kernel cq finished toy_uring toy_sq]. split; [by rewrite take_drop|].
    exists (toy_done (toy_kernel u ++ take 1 (toy_sq u))). rewrite Hd. done.
  - intros u n Hn. done.
  - intros u. split; [done|]. exists []. cbn. by rewrite !app_nil_r.
Qed.

(** Five requests on a ring of depth 2, with a garbage number at the end of
    its range. *)
Definition toy_events : list io_event := [Submit 10; Submit 20; Submit 30; Submit 40; Progress; Submit 50; PostRun].
Definition toy_start : toy_ring := mk_toy [] [] [] [].

Lemma toy_fresh : fresh_ring toy_start 2.
Proof. split; cbn; done || lia. Qed.

Lemma io_ctx_safe_witness :
  match io_run (make_ctx toy_start 2 (2 ^ 64 - 2)) toy_events with
  | IoOk c => Z.of_nat (length (kernel (c_uring c)) + length (cq (c_uring c))) <= cq_size c
  | IoFail e => e = RingError
  end.
Proof. apply (io_ctx_safe toy_start 2 (2 ^ 64 - 2) toy_events toy_fresh); [lia|lia|vm_compute; reflexivity]. Defined.

Lemma io_ctx_delivers_witness :
  exists c, io_run (make_ctx toy_start 2 (2 ^ 64 - 2)) toy_events = IoOk c /\
    (c_resumed c).*1 ++ (map_to_list (c_in_flight c)).*2 ++ c_waiting_for_io c ≡ₚ [10; 20; 30; 40; 50].
Proof.
  eexists. split; [vm_compute; reflexivity|].
  eapply (io_ctx_delivers toy_start 2 (2 ^ 64 - 2) toy_events _ toy_fresh); [lia|lia|vm_compute; reflexivity|vm_compute; reflexivity].
Defined.

Lemma toy_patient : patient_ring (U := toy_ring) (R := Z).
Proof.
  split; [intros u w; by eexists|]. intros u u' Hu Hne. injection Hu as <-. cbn in *. intros E. apply app_eq_nil in E as [E1 E2].
  destruct (toy_kernel u) as [|y k]; [|done]. destruct (toy_sq u) as [|x l]; [|done]. by destruct Hne.
Qed.

(** Three requests, of which the ring takes one at a time. *)
Lemma io_ctx_drains_witness :
  exists c c', io_run (make_ctx toy_start 2 (2 ^ 64 - 2)) [Submit 10; Submit 20; Submit 30] = IoOk c /\
    io_run c (replicate 3 PostRun) = IoOk c' /\ (c_resumed c').*1 ≡ₚ [10; 20; 30].
Proof.
  destruct (io_run (make_ctx toy_start 2 (2 ^ 64 - 2)) [Submit 10; Submit 20; Submit 30]) as [c|] eqn:E; [|vm_compute in E; discriminate E].
  destruct (io_ctx_drains toy_start 2 (2 ^ 64 - 2) [Submit 10; Submit 20; Submit 30] c)
    as (c' & H1 & _ & _ & H2); [apply toy_patient|apply toy_fresh|lia|lia|vm_compute; reflexivity|exact E|].
  exists c, c'. split; [reflexivity|]. split; [exact H1|exact H2].
Defined.
