(* ===== verification/IoRequests.v ===== *)
(** * The requests of the I/O layer (src/io/io_requests_impl.h,
      include/io/io_requests.hpp, [aw_io] and [io_callback] of
      include/io/io_ctx.h)

    A request keeps the arguments of a system call in the types of the code
    and writes them into a submission entry. The functions that fill an
    entry belong to liburing: a [prepared] call records which one is called
    and with what arguments, after the conversion to the types of its
    parameters. The theorems say when nothing is lost on the way, and that a
    coroutine that awaits a request gets the kernel's result. *)
From stdpp Require Import base numbers option list strings gmap.
From Stdlib Require Import ZArith Lia.
From S2P Require Import Prelude.

Local Open Scope Z_scope.

(** Pointers are addresses. *)
Inductive io_request :=
  | io_read_request (fd data len off : Z)
  | io_read_fixed_request (fd data size offset buf_index : Z)
  | io_readv_request (fd iovecs iovecs_count offset : Z)
  | io_write_request (fd data size offset : Z)
  | io_writev_request (fd iovecs iovecs_count offset : Z)
  | io_open_request (path : string) (flags mode : Z)
  | io_fallocate_request (fd mode offset length : Z)
  | io_close_request (fd : Z)
  | io_statx_request (path : string) (mask statx_buf : Z)
  | io_fdatasync_request (fd : Z)
  | io_ftruncate_request (fd length : Z)
  | io_unlink_request (path : string) (flags : Z)
  | io_send_msg_request (target_ring_fd data len : Z)
  | io_timeout_request (ts : Z * Z) (count flags : Z).

(** The calls of liburing, in the types of its header. *)
Inductive prepared :=
  | prep_read (fd : Z) (buf : Z) (nbytes : Z) (offset : Z)
  | prep_read_fixed (fd : Z) (buf : Z) (nbytes : Z) (offset : Z) (buf_index : Z)
  | prep_readv (fd : Z) (iovecs : Z) (nr_vecs : Z) (offset : Z)
  | prep_write (fd : Z) (buf : Z) (nbytes : Z) (offset : Z)
  | prep_writev (fd : Z) (iovecs : Z) (nr_vecs : Z) (offset : Z)
  | prep_openat (dfd : Z) (path : string) (flags mode : Z)
  | prep_fallocate (fd mode offset len : Z)
  | prep_close (fd : Z)
  | prep_statx (dfd : Z) (path : string) (flags mask statxbuf : Z)
  | prep_fsync (fd fsync_flags : Z)
  | prep_ftruncate (fd len : Z)
  | prep_unlinkat (dfd : Z) (path : string) (flags : Z)
  | prep_msg_ring (fd len data flags : Z)
  | prep_timeout (ts : Z * Z) (count flags : Z).

Definition unsigned (x : Z) : Z := wrap 32 x.
Definition loff_t (x : Z) : Z := let y := wrap 64 x in if y <? 2 ^ 63 then y else y - 2 ^ 64.

Definition AT_FDCWD : Z := -100.
Definition IORING_FSYNC_DATASYNC : Z := 1.

(** [c_str] ends at the first null character. *)
Fixpoint c_str (s : string) : string :=
  match s with
  | EmptyString => EmptyString
  | String c s => if Ascii.eqb c (Ascii.ascii_of_nat 0) then EmptyString else String c (c_str s)
  end.

(** [prepare_sqe] of each request. *)
Definition prepare_sqe (r : io_request) : prepared :=
  match r with
  | io_read_request fd data len off => prep_read fd data (unsigned len) off
  | io_read_fixed_request fd data size offset buf_index => prep_read_fixed fd data (unsigned size) offset buf_index
  | io_readv_request fd iovecs n offset => prep_readv fd iovecs (unsigned n) offset
  | io_write_request fd data size offset => prep_write fd data (unsigned size) offset
  | io_writev_request fd iovecs n offset => prep_writev fd iovecs (unsigned n) offset
  | io_open_request path flags mode => prep_openat AT_FDCWD (c_str path) flags mode
  | io_fallocate_request fd mode offset length => prep_fallocate fd mode offset length
  | io_close_request fd => prep_close fd
  | io_statx_request path mask statx_buf => prep_statx AT_FDCWD (c_str path) 0 mask statx_buf
  | io_fdatasync_request fd => prep_fsync fd IORING_FSYNC_DATASYNC
  | io_ftruncate_request fd length => prep_ftruncate fd (loff_t length)
  | io_unlink_request path flags => prep_unlinkat AT_FDCWD (c_str path) flags
  | io_send_msg_request target data len => prep_msg_ring target (unsigned len) data 0
  | io_timeout_request ts count flags => prep_timeout ts count flags
  end.

(** The request that a prepared call stands for. *)
Definition meaning (p : prepared) : option io_request :=
  match p with
  | prep_read fd buf n off => Some (io_read_request fd buf n off)
  | prep_read_fixed fd buf n off i => Some (io_read_fixed_request fd buf n off i)
  | prep_readv fd v n off => Some (io_readv_request fd v n off)
  | prep_write fd buf n off => Some (io_write_request fd buf n off)
  | prep_writev fd v n off => Some (io_writev_request fd v n off)
  | prep_openat dfd path flags mode => if dfd =? AT_FDCWD then Some (io_open_request path flags mode) else None
  | prep_fallocate fd mode off len => Some (io_fallocate_request fd mode off len)
  | prep_close fd => Some (io_close_request fd)
  | prep_statx dfd path flags mask buf =>
      if (dfd =? AT_FDCWD) && (flags =? 0) then Some (io_statx_request path mask buf) else None
  | prep_fsync fd flags => if flags =? IORING_FSYNC_DATASYNC then Some (io_fdatasync_request fd) else None
  | prep_ftruncate fd len => Some (io_ftruncate_request fd len)
  | prep_unlinkat dfd path flags => if dfd =? AT_FDCWD then Some (io_unlink_request path flags) else None
  | prep_msg_ring fd len data flags => if flags =? 0 then Some (io_send_msg_request fd data len) else None
  | prep_timeout ts count flags => Some (io_timeout_request ts count flags)
  end.

(** Lengths and counts are [size_t] in a request and 32 bits in an entry. *)
Definition fits (r : io_request) : bool :=
  match r with
  | io_read_request _ _ n _ | io_read_fixed_request _ _ n _ _ | io_readv_request _ _ n _ | io_write_request _ _ n _
  | io_writev_request _ _ n _ | io_send_msg_request _ _ n => (0 <=? n) && (n <? 2 ^ 32)
  | io_ftruncate_request _ n => (- 2 ^ 63 <=? n) && (n <? 2 ^ 63)
  | io_open_request path _ _ | io_statx_request path _ _ | io_unlink_request path _ => bool_decide (c_str path = path)
  | _ => true
  end.

(** A prepared entry stands for its request exactly when the lengths fit
    the fields of the entry and the paths have no null character. *)
Theorem prepare_sqe_exact r : meaning (prepare_sqe r) = Some r <-> fits r = true.
Proof.
  assert (Hu : forall n, unsigned n = n <-> (0 <=? n) && (n <? 2 ^ 32) = true).
  { intros n. unfold unsigned. rewrite andb_true_iff, Z.leb_le, Z.ltb_lt. split; [|intros; by apply wrap_small].
    unfold wrap. intros <-. apply Z.mod_pos_bound. lia. }
  assert (Hl : forall n, loff_t n = n <-> (- 2 ^ 63 <=? n) && (n <? 2 ^ 63) = true).
  { intros n. unfold loff_t, wrap. rewrite andb_true_iff, Z.leb_le, Z.ltb_lt. pose proof (Z.mod_pos_bound n (2 ^ 64)).
    pose proof (Z.div_mod n (2 ^ 64)). destruct (Z.ltb_spec (n mod 2 ^ 64) (2 ^ 63)); lia. }
  destruct r; cbn -[Z.ltb Z.leb Z.pow]; rewrite <- ?Hu, <- ?Hl, ?bool_decide_eq_true; try done;
    (split; [intros [=]; congruence|congruence]).
Qed.

(** ** Awaiting a request *)

(** An [aw_io] lives at an address, which also names the [res] field of its
    request; memory maps these addresses to the fields' contents. *)
Definition cell : Type := nat.
Definition Res (awaitable : nat) : cell := awaitable.

(** The fields of [awaitable_customizer] that the context uses. *)
Record customizer := mk_customizer { result_ptr : option cell; continuation : nat }.
Record io_callback := mk_callback { cb_customizer : customizer; cb_req : nat }.

(** [await_suspend] and what it submits. *)
Definition await_suspend (awaitable outer : nat) : io_callback := mk_callback (mk_customizer (Some (Res awaitable)) outer) awaitable.

(** [io_callback::resume]: both stores, and the coroutine that goes on. A
    null [result_ptr] has no behaviour. *)
Definition resume (cb : io_callback) (result : Z) (mem : gmap cell Z) : option (gmap cell Z * nat) :=
  match result_ptr (cb_customizer cb) with
  | Some p => Some (<[p := result]> (<[Res (cb_req cb) := result]> mem), continuation (cb_customizer cb))
  | None => None
  end.

(** [await_resume] *)
Definition await_resume (awaitable : nat) (mem : gmap cell Z) : option Z := mem !! Res awaitable.

(** The callbacks that a context resumes, one after the other. *)
Definition resume_all (l : list (io_callback * Z)) (mem : gmap cell Z) : option (gmap cell Z * list nat) :=
  foldl (fun st x => '(mem, ks) ← st; '(mem, k) ← resume x.1 x.2 mem; Some (mem, ks ++ [k])) (Some (mem, [])) l.

Lemma resume_all_snoc l x mem :
  resume_all (l ++ [x]) mem = ('(mem, ks) ← resume_all l mem; '(mem, k) ← resume x.1 x.2 mem; Some (mem, ks ++ [k])).
Proof. unfold resume_all. by rewrite foldl_app. Qed.

(** When requests of different awaitables are resumed in any order, each
    coroutine continues once, and [await_resume] of each awaitable returns
    the result that was delivered for it. *)
Theorem await_gets_result (l : list (nat * nat * Z)) mem :
  NoDup (l.*1.*1) ->
  exists mem', resume_all ((fun x => (await_suspend x.1.1 x.1.2, x.2)) <$> l) mem = Some (mem', l.*1.*2) /\
    forall a k v, (a, k, v) ∈ l -> await_resume a mem' = Some v.
Proof.
  induction l as [|[[a k] v] l IH] using rev_ind; intros Hnd.
  { exists mem. split; [done|]. by intros a k v Hin%not_elem_of_nil. }
  rewrite !fmap_app in Hnd. cbn in Hnd. apply NoDup_app in Hnd as (Hnd & Hdis & _).
  destruct (IH Hnd) as (m1 & E1 & H1). rewrite !fmap_app. cbn [fmap list_fmap fst snd]. rewrite resume_all_snoc, E1.
  eexists. split; [reflexivity|]. intros a' k' v' Hin. unfold await_resume. rewrite elem_of_app, list_elem_of_singleton in Hin. cbn.
  destruct Hin as [Hin|[= -> -> ->]]; [|apply lookup_insert_eq].
  assert (Ha : a' <> a).
  { intros ->. apply (Hdis a); [|by left]. apply list_elem_of_fmap. exists (a, k'). split; [done|].
    apply list_elem_of_fmap. by exists (a, k', v'). }
  rewrite !lookup_insert_ne by (unfold Res; congruence). by apply (H1 a' k' v').
Qed.

Lemma await_gets_result_witness :
  exists mem', resume_all [(await_suspend 1 10, 512); (await_suspend 2 20, -5)] ∅ = Some (mem', [10%nat; 20%nat]) /\
    await_resume 1 mem' = Some 512.
Proof.
  destruct (await_gets_result [(1%nat, 10%nat, 512); (2%nat, 20%nat, -5)] ∅) as (mem' & E & H).
  - repeat constructor; set_solver.
  - exists mem'. split; [exact E|]. apply (H 1%nat 10%nat 512). left.
Defined.
