(* ===== verification/IoExecutor.v ===== *)
(** * The executor (src/io/io_executor.cc, include/io/io_executor.h)

    An executor chooses how many threads it runs and on which cores, and
    gives each thread an I/O context. The processor's topology comes from the
    TooManyCooks library, which is not part of the repository: [topology] has
    the quantities that the code asks of it, and what they satisfy is a
    hypothesis where a theorem needs it.

    The theorems give the number of threads and the cores for every
    configuration, and say that the hooks of the threads find their context
    in every run of the life cycle. *)
From stdpp Require Import base numbers option list strings sets gmap.
From Stdlib Require Import ZArith Lia.
From S2P Require Import Prelude.

Local Open Scope Z_scope.

Inductive executor_type := FOREGROUND | BACKGROUND | GENERAL_PURPOSE.

Record executor_config := mk_config {
  cfg_name : string;
  cfg_queue_depth : Z;               (* size_t *)
  cfg_type : executor_type;
  cfg_n_threads : option Z;          (* size_t *)
  cfg_auto_detect : bool
}.

(** ** What the library says of the processor *)

Record core_group := mk_group { g_index : Z; g_cpu_kind : Z; g_core_count : Z; g_smt_level : Z }.
Record topology := mk_topology {
  groups : list core_group;
  pu_count : Z;
  core_count : Z;
  is_hybrid : bool;
  PERFORMANCE : Z;
  EFFICIENCY1 : Z;
  ALL : Z;
  hardware_concurrency : Z           (* of std::thread *)
}.

(** A filter that allows everything, some groups, or some cores. *)
Inductive topology_filter := NoFilter | GroupIndexes (l : list Z) | CoreIndexes (l : list Z).

(** [std::ranges::iota] over [n] elements. *)
Definition iota (start n : Z) : list Z := (fun i => start + Z.of_nat i) <$> seq 0 (Z.to_nat n).

(** The lambda [resolve_kind_to_group]. *)
Definition resolve_kind_to_group (t : topology) (kind : Z) : list Z * Z :=
  foldl (fun acc g => (acc.1 ++ [g_index g], u64 (acc.2 + u64 (g_core_count g * g_smt_level g))))
    ([], 0) (List.filter (fun g => negb (Z.land (g_cpu_kind g) kind =? 0)) (groups t)).

Definition kind_of (t : topology) (ty : executor_type) : Z :=
  match ty with FOREGROUND => PERFORMANCE t | BACKGROUND => EFFICIENCY1 t | GENERAL_PURPOSE => ALL t end.

Definition at_most (n_threads : option Z) (count : Z) : Z :=
  match n_threads with Some n => if n <? count then n else count | None => count end.

(** [_hwloc_partition_filter_hybrid_cpu]: the filter and the number of
    threads, a [uint32_t]; none is an assertion that fails. *)
Definition hwloc_partition_filter_hybrid_cpu (t : topology) (cfg : executor_config) : option (topology_filter * Z) :=
  let '(gs, count) := resolve_kind_to_group t (kind_of t (cfg_type cfg)) in
  let n := wrap 32 (at_most (cfg_n_threads cfg) count) in
  if 0 <? n then Some (GroupIndexes gs, n) else None.

(** [vector::resize] to the number of threads that is asked for. *)
Definition limit (n_threads : option Z) (l : list Z) : list Z :=
  match n_threads with Some n => if n <? Z.of_nat (length l) then take (Z.to_nat n) l else l | None => l end.

(** [_hwloc_partition_filter_normal_cpu] *)
Definition hwloc_partition_filter_normal_cpu (t : topology) (cfg : executor_config) : topology_filter * Z :=
  match cfg_type cfg with
  | FOREGROUND =>
      let core_indexes := limit (cfg_n_threads cfg) (iota 0 (pu_count t / 2)) in
      (CoreIndexes core_indexes, wrap 32 (Z.of_nat (length core_indexes)))
  | BACKGROUND =>
      let core_indexes := limit (cfg_n_threads cfg) (iota (pu_count t / 2) (pu_count t / 2)) in
      (CoreIndexes core_indexes, wrap 32 (Z.of_nat (length core_indexes)))
  | GENERAL_PURPOSE => (NoFilter, wrap 32 (core_count t))
  end.

(** [_hwloc_partition_filter], for a configuration with [auto_detect]. *)
Definition hwloc_partition_filter (t : topology) (cfg : executor_config) : option (topology_filter * Z) :=
  if is_hybrid t then hwloc_partition_filter_hybrid_cpu t cfg else Some (hwloc_partition_filter_normal_cpu t cfg).

(** The number of threads without [auto_detect]. *)
Definition configured_threads (t : topology) (cfg : executor_config) : Z :=
  let dflt := match cfg_type cfg with FOREGROUND | BACKGROUND => hardware_concurrency t / 2 | GENERAL_PURPOSE => hardware_concurrency t end in
  wrap 32 (default dflt (cfg_n_threads cfg)).

(** ** The life of an executor *)

Record io_executor := mk_executor {
  ex_queue_depth : Z;                (* uint32_t *)
  ex_n_threads : Z;                  (* uint32_t *)
  ex_ctxs : list (option Z);         (* the context of a thread, by its queue depth *)
  ex_initialized : bool;
  ex_name_prefix : string;
  ex_filter : topology_filter
}.

(** [io_executor() = default]; the integers have no value yet. *)
Definition make_executor (garbage1 garbage2 : Z) : io_executor := mk_executor garbage1 garbage2 [] false "" NoFilter.

(** [init]: none is a failed assertion. *)
Definition init (t : topology) (cfg : executor_config) (ex : io_executor) : option io_executor :=
  if ex_initialized ex then Some ex
  else
    '(filter, n) ← (if cfg_auto_detect cfg then hwloc_partition_filter t cfg else Some (NoFilter, configured_threads t cfg));
    if 0 <? n
    then Some (mk_executor (wrap 32 (cfg_queue_depth cfg)) n
                 (resize (Z.to_nat n) None (ex_ctxs ex)) true (cfg_name cfg) filter)
    else None.

Definition set_ctxs (ctxs : list (option Z)) (ex : io_executor) : io_executor :=
  mk_executor (ex_queue_depth ex) (ex_n_threads ex) ctxs (ex_initialized ex) (ex_name_prefix ex) (ex_filter ex).

(** The hook that starts thread [id]; an index beyond the vector has no
    behaviour. *)
Definition thread_init (id : nat) (ex : io_executor) : option io_executor :=
  if (id <? length (ex_ctxs ex))%nat then Some (set_ctxs (<[id := Some (ex_queue_depth ex)]> (ex_ctxs ex)) ex) else None.

(** The hook after a task uses the context of thread [tid]. *)
Definition thread_post_run (tid : nat) (ex : io_executor) : option io_executor :=
  match ex_ctxs ex !! tid with Some (Some _) => Some ex | _ => None end.

(** [shutdown] *)
Definition shutdown (ex : io_executor) : io_executor :=
  mk_executor (ex_queue_depth ex) (ex_n_threads ex) [] false (ex_name_prefix ex) (ex_filter ex).

(** The library starts the threads below the count it was given, each once,
    runs the hook of a task on threads that it has started, and has joined
    all of them when [teardown] returns. *)
Inductive lifecycle (t : topology) : io_executor -> gset nat -> Prop :=
  | lc_make g1 g2 : lifecycle t (make_executor g1 g2) ∅
  | lc_init ex started cfg ex' :
      lifecycle t ex started -> init t cfg ex = Some ex' -> lifecycle t ex' started
  | lc_thread ex started id ex' :
      lifecycle t ex started -> ex_initialized ex = true -> Z.of_nat id < ex_n_threads ex -> id ∉ started ->
      thread_init id ex = Some ex' -> lifecycle t ex' ({[id]} ∪ started)
  | lc_shutdown ex started : lifecycle t ex started -> lifecycle t (shutdown ex) ∅.

(** ** The number of threads *)

Lemma wrap32_range x : 0 <= wrap 32 x < 2 ^ 32.
Proof. unfold wrap. apply Z.mod_pos_bound. lia. Qed.

Lemma iota_length start n : 0 <= n -> Z.of_nat (length (iota start n)) = n.
Proof. intros H. unfold iota. rewrite length_fmap, length_seq. lia. Qed.

Lemma elem_of_iota start n x : x ∈ iota start n <-> start <= x < start + Z.max 0 n.
Proof.
  unfold iota. rewrite list_elem_of_fmap. split.
  - intros (i & -> & Hi). apply elem_of_seq in Hi. lia.
  - intros H. exists (Z.to_nat (x - start)). rewrite elem_of_seq. lia.
Qed.

Lemma limit_sub n l x : x ∈ limit n l -> x ∈ l.
Proof. unfold limit. destruct n as [n|]; [|done]. destruct (n <? _); [|done]. apply subseteq_take. Qed.

Lemma limit_length n l : 0 <= default 0 n -> Z.of_nat (length (limit n l)) = at_most n (Z.of_nat (length l)).
Proof.
  intros Hn. unfold limit, at_most. destruct n as [n|]; [|done]. cbn in Hn. destruct (Z.ltb_spec n (Z.of_nat (length l))); [|done].
  rewrite length_take. lia.
Qed.

Lemma limit_nil n : limit n [] = [].
Proof. unfold limit. destruct n as [n|]; [|done]. rewrite take_nil. by destruct (_ <? _). Qed.

Definition cores_of (f : topology_filter) : list Z := match f with CoreIndexes l => l | _ => [] end.
Definition groups_of (f : topology_filter) : list Z := match f with GroupIndexes l => l | _ => [] end.

(** On a processor with one kind of core, the foreground and background
    executors get disjoint sets of indexes below the number of processing
    units, at most half of them and at most the number of threads that was
    asked for, and one thread for each index. *)
Theorem executor_cores_disjoint t fg bg :
  0 <= pu_count t < 2 ^ 32 -> cfg_type fg = FOREGROUND -> cfg_type bg = BACKGROUND ->
  let f := hwloc_partition_filter_normal_cpu t fg in
  let b := hwloc_partition_filter_normal_cpu t bg in
  (forall x, x ∈ cores_of f.1 -> x ∈ cores_of b.1 -> False) /\
  (forall x, x ∈ cores_of f.1 ++ cores_of b.1 -> 0 <= x < pu_count t) /\
  (0 <= default 0 (cfg_n_threads fg) -> f.2 = at_most (cfg_n_threads fg) (pu_count t / 2)) /\
  (0 <= default 0 (cfg_n_threads bg) -> b.2 = at_most (cfg_n_threads bg) (pu_count t / 2)).
Proof.
  intros Hp Hf Hb. unfold hwloc_partition_filter_normal_cpu. rewrite Hf, Hb. cbn -[Z.div Z.pow iota].
  assert (Hh : 0 <= pu_count t / 2 /\ 2 * (pu_count t / 2) <= pu_count t).
  { pose proof (Z.div_mod (pu_count t) 2 ltac:(lia)). pose proof (Z.mod_pos_bound (pu_count t) 2 ltac:(lia)). lia. }
  set (h := pu_count t / 2) in *. split; [|split; [|split]].
  - intros x Hx Hy. apply limit_sub, elem_of_iota in Hx. apply limit_sub, elem_of_iota in Hy. lia.
  - intros x Hx. apply elem_of_app in Hx as [Hx|Hx]; apply limit_sub, elem_of_iota in Hx; lia.
  - intros Hn. rewrite limit_length, iota_length by lia. apply wrap_small. unfold at_most. destruct (cfg_n_threads fg) as [n|]; cbn in Hn; [|lia].
    destruct (Z.ltb_spec n h); lia.
  - intros Hn. rewrite limit_length, iota_length by lia. apply wrap_small. unfold at_most. destruct (cfg_n_threads bg) as [n|]; cbn in Hn; [|lia].
    destruct (Z.ltb_spec n h); lia.
Qed.

(** The indexes count processing units and are used as indexes of cores:
    where every core has two units, the foreground executor gets all
    cores and the background executor none. *)
Theorem executor_smt_split t fg bg :
  0 <= core_count t -> pu_count t = 2 * core_count t ->
  cfg_type fg = FOREGROUND -> cfg_type bg = BACKGROUND -> cfg_n_threads fg = None ->
  forall core, 0 <= core < core_count t ->
    core ∈ cores_of (hwloc_partition_filter_normal_cpu t fg).1 /\ core ∉ cores_of (hwloc_partition_filter_normal_cpu t bg).1.
Proof.
  intros Hc Hp Hf Hb Hn core Hcore. unfold hwloc_partition_filter_normal_cpu. rewrite Hf, Hb, Hn, Hp.
  replace (2 * core_count t / 2) with (core_count t) by (rewrite Z.mul_comm, Z.div_mul; lia). cbn -[iota]. split.
  - apply elem_of_iota. lia.
  - intros Hin. apply limit_sub, elem_of_iota in Hin. lia.
Qed.

Lemma resolve_fold (l : list core_group) gs n :
  (foldl (fun acc g => (acc.1 ++ [g_index g], u64 (acc.2 + u64 (g_core_count g * g_smt_level g)))) (gs, n) l).1 = gs ++ (g_index <$> l).
Proof.
  revert gs n. induction l as [|g l IH]; intros gs n; cbn -[wrap]; [by rewrite app_nil_r|]. rewrite IH. by rewrite <- app_assoc.
Qed.

(** On a hybrid processor the two executors get disjoint groups of
    cores, if no group has both kinds of core and no index occurs twice. *)
Theorem executor_groups_disjoint t fg bg f b nf nb :
  NoDup (g_index <$> groups t) ->
  Forall (fun g => Z.land (g_cpu_kind g) (PERFORMANCE t) = 0 \/ Z.land (g_cpu_kind g) (EFFICIENCY1 t) = 0) (groups t) ->
  cfg_type fg = FOREGROUND -> cfg_type bg = BACKGROUND ->
  hwloc_partition_filter_hybrid_cpu t fg = Some (f, nf) -> hwloc_partition_filter_hybrid_cpu t bg = Some (b, nb) ->
  forall x, x ∈ groups_of f -> x ∈ groups_of b -> False.
Proof.
  intros Hnd Hk Hf Hb Ef Eb x Hx Hy. unfold hwloc_partition_filter_hybrid_cpu, resolve_kind_to_group in *.
  rewrite Hf in Ef. rewrite Hb in Eb. cbn [kind_of] in *.
  assert (Hpick : forall kind y, y ∈ g_index <$> List.filter (fun g => negb (Z.land (g_cpu_kind g) kind =? 0)) (groups t) ->
    exists i g, groups t !! i = Some g /\ y = g_index g /\ Z.land (g_cpu_kind g) kind <> 0).
  { intros kind y Hin. apply list_elem_of_fmap in Hin as (g & -> & Hin). apply list_elem_of_In, filter_In in Hin as [Hin Hg].
    apply list_elem_of_In, list_elem_of_lookup in Hin as [i Hi]. exists i, g. split; [done|]. split; [done|].
    destruct (Z.eqb_spec (Z.land (g_cpu_kind g) kind) 0); [done|done]. }
  destruct (foldl _ _ _) as [gf cf] eqn:E1 in Ef. destruct (foldl _ _ _) as [gb cb] eqn:E2 in Eb.
  destruct (0 <? wrap 32 _) in Ef; [|done]. destruct (0 <? wrap 32 _) in Eb; [|done]. injection Ef as <- <-. injection Eb as <- <-.
  apply (f_equal fst) in E1, E2. rewrite resolve_fold in E1, E2. cbn in *. rewrite <- E1 in Hx. rewrite <- E2 in Hy.
  destruct (Hpick _ _ Hx) as (i & g & Hi & Eg & Hg). destruct (Hpick _ _ Hy) as (j & g' & Hj & Eg' & Hg').
  assert (i = j) as ->.
  { eapply NoDup_lookup; [exact Hnd|rewrite list_lookup_fmap, Hi; reflexivity|rewrite list_lookup_fmap, Hj; cbn; congruence]. }
  rewrite Hi in Hj. injection Hj as <-. rewrite Forall_forall in Hk. destruct (Hk g) as [|]; [|done|done]. by eapply list_elem_of_lookup_2.
Qed.

(** ** The life cycle *)

Lemma init_ok t cfg ex ex' :
  init t cfg ex = Some ex' -> ex_initialized ex = false ->
  0 < ex_n_threads ex' < 2 ^ 32 /\ Z.of_nat (length (ex_ctxs ex')) = ex_n_threads ex' /\ ex_initialized ex' = true.
Proof.
  intros Hi Hn. unfold init in Hi. rewrite Hn in Hi. rewrite bind_Some in Hi. destruct Hi as ([f n] & Hf & Hi).
  assert (Hr : 0 <= n < 2 ^ 32).
  { destruct (cfg_auto_detect cfg); [|injection Hf as _ <-; apply wrap32_range]. unfold hwloc_partition_filter in Hf.
    destruct (is_hybrid t).
    - unfold hwloc_partition_filter_hybrid_cpu in Hf. destruct (resolve_kind_to_group _ _) as [gs c].
      destruct (0 <? wrap 32 _); [|done]. injection Hf as _ <-. apply wrap32_range.
    - unfold hwloc_partition_filter_normal_cpu in Hf. destruct (cfg_type cfg); injection Hf as _ <-; apply wrap32_range. }
  destruct (Z.ltb_spec 0 n); [|done]. injection Hi as <-. cbn. rewrite length_resize. split; [lia|]. split; [lia|done].
Qed.

(** In every life cycle, with any number of initialisations and
    shutdowns, a thread that starts finds its slot, and a thread that has
    started finds its context, with the configured queue depth, when it
    looks for completions. *)
Theorem executor_hooks_safe t ex started :
  lifecycle t ex started ->
  (forall id, ex_initialized ex = true -> Z.of_nat id < ex_n_threads ex -> is_Some (thread_init id ex)) /\
  (forall tid, tid ∈ started -> thread_post_run tid ex = Some ex /\ ex_ctxs ex !! tid = Some (Some (ex_queue_depth ex))).
Proof.
  intros Hl. assert (Hinv : (ex_initialized ex = true -> Z.of_nat (length (ex_ctxs ex)) = ex_n_threads ex) /\
    (ex_initialized ex = false -> started = ∅) /\
    forall tid, tid ∈ started -> ex_ctxs ex !! tid = Some (Some (ex_queue_depth ex))).
  { induction Hl as [g1 g2|ex started cfg ex' _ IH Hi|ex started id ex' _ IH Hinit Hid Hnew Ht|ex started _ IH].
    - split; [done|]. split; [done|]. set_solver.
    - destruct (ex_initialized ex) eqn:E; [unfold init in Hi; rewrite E in Hi; injection Hi as <-; by rewrite E|].
      destruct IH as (_ & IH & _). rewrite (IH eq_refl). destruct (init_ok t cfg ex ex' Hi E) as (H1 & H2 & H3). split; [done|].
      split; [done|]. set_solver.
    - destruct IH as (I1 & I2 & I3). unfold thread_init in Ht. destruct (Nat.ltb_spec id (length (ex_ctxs ex))); [|done].
      injection Ht as <-. cbn. rewrite length_insert, Hinit. split; [by intros _; apply I1|]. split; [done|].
      intros tid Htid. destruct (decide (tid = id)) as [->|Hne]; [by apply list_lookup_insert_eq|].
      rewrite list_lookup_insert_ne by done. apply I3. set_solver.
    - split; [done|]. split; [done|]. set_solver. }
  destruct Hinv as (I1 & _ & I3). split.
  - intros id Hi Hid. unfold thread_init. destruct (Nat.ltb_spec id (length (ex_ctxs ex))); [by eexists|]. specialize (I1 Hi). lia.
  - intros tid Htid. unfold thread_post_run. by rewrite (I3 tid Htid).
Qed.

(** A foreground or background executor does not come up on a machine
    with a single processing unit: it gets no thread, unless the number of
    threads is configured and the topology is not detected. *)
Theorem executor_single_unit t cfg ex :
  ex_initialized ex = false -> is_hybrid t = false -> pu_count t = 1 -> hardware_concurrency t = 1 ->
  cfg_type cfg = FOREGROUND \/ cfg_type cfg = BACKGROUND -> cfg_auto_detect cfg = true \/ cfg_n_threads cfg = None ->
  init t cfg ex = None.
Proof.
  intros Hi Hh Hp Hc Ht Ha. unfold init, hwloc_partition_filter, hwloc_partition_filter_normal_cpu, configured_threads.
  rewrite Hi, Hh, Hp, Hc. destruct (cfg_auto_detect cfg).
  - destruct Ht as [-> | ->]; change (1 / 2) with 0; change (iota 0 0) with (@nil Z); by rewrite limit_nil.
  - destruct Ha as [Ha|Ha]; [done|]. rewrite Ha. by destruct Ht as [-> | ->].
Qed.

(** ** Witnesses *)

Definition desktop : topology := mk_topology [mk_group 0 1 4 2; mk_group 1 2 8 1] 8 4 false 1 2 7 8.
Definition config (ty : executor_type) (n : option Z) (auto_detect : bool) : executor_config := mk_config "io" 32 ty n auto_detect.

Lemma executor_cores_disjoint_witness :
  cores_of (hwloc_partition_filter_normal_cpu desktop (config FOREGROUND (Some 3) true)).1 = [0; 1; 2] /\
  (forall x, x ∈ [0; 1; 2] -> x ∈ [4; 5; 6; 7] -> False).
Proof.
  split; [reflexivity|].
  exact (proj1 (executor_cores_disjoint desktop (config FOREGROUND (Some 3) true) (config BACKGROUND None true) ltac:(cbn; lia) eq_refl eq_refl)).
Defined.

Lemma executor_smt_split_witness :
  3 ∈ cores_of (hwloc_partition_filter_normal_cpu desktop (config FOREGROUND None true)).1.
Proof.
  apply (executor_smt_split desktop (config FOREGROUND None true) (config BACKGROUND None true)); cbn; try reflexivity; lia.
Defined.

Lemma executor_groups_disjoint_witness :
  forall x, x ∈ [0] -> x ∈ [1] -> False.
Proof.
  refine (executor_groups_disjoint desktop (config FOREGROUND None true) (config BACKGROUND None true) (GroupIndexes [0]) (GroupIndexes [1]) 8 8
    _ _ eq_refl eq_refl eq_refl eq_refl).
  - cbn. repeat constructor; set_solver.
  - constructor; [by right|]. constructor; [by left|constructor].
Defined.

Lemma executor_hooks_safe_witness :
  exists ex, lifecycle desktop ex {[0%nat]} /\ thread_post_run 0 ex = Some ex.
Proof.
  pose (ex0 := default (make_executor 0 0) (init desktop (config FOREGROUND None true) (make_executor 0 0))).
  pose (ex1 := default ex0 (thread_init 0 ex0)).
  assert (Hl : lifecycle desktop ex1 ({[0%nat]} ∪ ∅)).
  { apply (lc_thread desktop ex0 ∅ 0 ex1); [|reflexivity|vm_compute; reflexivity|set_solver|vm_compute; reflexivity].
    apply (lc_init desktop (make_executor 0 0) ∅ (config FOREGROUND None true)); [apply lc_make|vm_compute; reflexivity]. }
  rewrite (right_id_L ∅ (∪)) in Hl. exists ex1. split; [exact Hl|].
  apply (executor_hooks_safe desktop ex1 {[0%nat]} Hl). set_solver.
Defined.

Lemma executor_single_unit_witness :
  init (mk_topology [] 1 1 false 1 2 7 1) (config BACKGROUND None true) (make_executor 0 0) = None.
Proof. apply executor_single_unit; [reflexivity..|right; reflexivity|left; reflexivity]. Defined.
