(* ===== verification/Allocators.v ===== *)
(** * Allocators (src/db/stack_allocator.h, inline_vector of src/db/block.h,
      src/single_buffer_arena_allocator.h)

    Vectors that keep their elements in their own allocator, and the
    lock-free arena. *)

From stdpp Require Import base numbers option list.
From Stdlib Require Import ZArith Lia.
From S2P Require Import Prelude.

Local Open Scope Z_scope.

(** ** Vectors in an allocator of their own *)

Module StackAllocator.

(** An allocator with room for [N] elements of [sa_sizeof] bytes; its buffer
    lies inside the object that contains it. *)
Record stack_allocator := mk_sa { sa_sizeof : Z; sa_offset : Z }.

Definition N : Z := 512.   (* MAX_KEY_LEN * 2 *)

(** The element at which the memory starts: the offset counts bytes and is
    added to a pointer to elements. *)
Definition allocate (a : stack_allocator) (n : Z) : option (Z * stack_allocator) :=
  if N * sa_sizeof a <? u64 (sa_offset a + u64 (n * sa_sizeof a)) then None
  else Some (sa_offset a, mk_sa (sa_sizeof a) (u64 (sa_offset a + u64 (n * sa_sizeof a)))).

(** An [inline_vector]; [iv_data] names the object whose buffer holds the
    elements. *)
Record inline_vector := mk_iv {
  iv_self : nat;
  iv_alloc : stack_allocator;
  iv_data : option (nat * Z);
  iv_capacity : Z;
  iv_elems : list Z;
}.

Definition reserve (v : inline_vector) (n : Z) : option inline_vector :=
  if n <=? iv_capacity v then Some v
  else '(p, a) ← allocate (iv_alloc v) n; Some (mk_iv (iv_self v) a (Some (iv_self v, p)) n (iv_elems v)).

Definition make_inline_vector (self : nat) (sizeof : Z) : option inline_vector :=
  reserve (mk_iv self (mk_sa sizeof 0) None 0 []) N.

(** [assign] and [push_back]; growth beyond the capacity allocates. *)
Definition assign (v : inline_vector) (l : list Z) : option inline_vector :=
  v ← reserve v (Z.of_nat (length l));
  Some (mk_iv (iv_self v) (iv_alloc v) (iv_data v) (iv_capacity v) l).
Definition push_back (v : inline_vector) (x : Z) : option inline_vector :=
  v ← (if Z.of_nat (length (iv_elems v)) <? iv_capacity v then Some v else reserve v (Z.max 1 (2 * iv_capacity v)));
  Some (mk_iv (iv_self v) (iv_alloc v) (iv_data v) (iv_capacity v) (iv_elems v ++ [x])).

(** The move constructor of a vector moves the allocator and takes the
    pointer. *)
Definition move_construct (self : nat) (v : inline_vector) : inline_vector * inline_vector :=
  (mk_iv self (iv_alloc v) (iv_data v) (iv_capacity v) (iv_elems v),
   mk_iv (iv_self v) (mk_sa (sa_sizeof (iv_alloc v)) 0) None 0 []).

(** Move assignment does not propagate the allocator; allocators of
    different objects are not equal, so the elements are moved. *)
Definition move_assign (v w : inline_vector) : option (inline_vector * inline_vector) :=
  v' ← assign v (iv_elems w);
  Some (v', mk_iv (iv_self w) (iv_alloc w) (iv_data w) (iv_capacity w) []).

(** The copy constructor copies the allocator and allocates from it. *)
Definition copy_construct (self : nat) (v : inline_vector) : option inline_vector :=
  assign (mk_iv self (iv_alloc v) None 0 []) (iv_elems v).

Definition owns (v : inline_vector) : Prop :=
  iv_data v = Some (iv_self v, 0) /\ iv_capacity v = N /\ Z.of_nat (length (iv_elems v)) <= N /\
  sa_offset (iv_alloc v) = N * sa_sizeof (iv_alloc v) /\ (sa_sizeof (iv_alloc v) = 1 \/ sa_sizeof (iv_alloc v) = 2).

(** The programs of the block code on one vector. *)
Inductive vec_op := Assign (l : list Z) | PushBack (x : Z) | MoveFrom (w : inline_vector).

Definition apply_op (v : inline_vector) (o : vec_op) : option inline_vector :=
  match o with
  | Assign l => assign v l
  | PushBack x => push_back v x
  | MoveFrom w => fst <$> move_assign v w
  end.

(** The elements an operation leaves. *)
Definition contents_after (l : list Z) (o : vec_op) : list Z :=
  match o with Assign l => l | PushBack x => l ++ [x] | MoveFrom w => iv_elems w end.

Lemma make_owns self sizeof :
  sizeof = 1 \/ sizeof = 2 -> exists v, make_inline_vector self sizeof = Some v /\ owns v /\ iv_self v = self /\ iv_elems v = [].
Proof.
  intros Hs. unfold make_inline_vector, reserve, allocate, owns, N. cbn.
  destruct Hs as [-> | ->]; vm_compute; eexists; (split; [reflexivity|]); split_and!; try done; auto.
Qed.

Lemma assign_owns v l :
  owns v -> Z.of_nat (length l) <= N -> exists v', assign v l = Some v' /\ owns v' /\ iv_self v' = iv_self v /\ iv_elems v' = l.
Proof.
  intros (H1 & H2 & H3 & H4) Hl. unfold assign, reserve. rewrite H2. destruct (Z.leb_spec (Z.of_nat (length l)) N); [|lia].
  eexists. split; [reflexivity|]. by split_and!.
Qed.

Lemma push_owns v x :
  owns v -> Z.of_nat (length (iv_elems v)) < N ->
  exists v', push_back v x = Some v' /\ owns v' /\ iv_self v' = iv_self v /\ iv_elems v' = iv_elems v ++ [x].
Proof.
  intros (H1 & H2 & H3 & H4) Hl. unfold push_back. rewrite H2. destruct (Z.ltb_spec (Z.of_nat (length (iv_elems v))) N); [|lia].
  eexists. split; [reflexivity|]. split; [|done]. unfold owns. cbn. split_and!; try done; try apply H4. rewrite length_app. cbn. lia.
Qed.

Lemma op_owns v o :
  owns v -> Z.of_nat (length (contents_after (iv_elems v) o)) <= N ->
  exists v', apply_op v o = Some v' /\ owns v' /\ iv_self v' = iv_self v /\ iv_elems v' = contents_after (iv_elems v) o.
Proof.
  intros O Hl. destruct o as [l|x|w]; cbn in *.
  - by apply assign_owns.
  - apply push_owns; [done|]. rewrite length_app in Hl. cbn in Hl. lia.
  - unfold move_assign. destruct (assign_owns v (iv_elems w) O Hl) as (v' & -> & H). exists v'. done.
Qed.

(** Vectors built in place, as the block code builds its keys and
    offsets, keep their elements in their own buffer through assignments,
    pushes and moves from other vectors, and never run out of memory while
    they hold at most 512 elements. *)
Theorem inline_vector_owns self sizeof ops :
  sizeof = 1 \/ sizeof = 2 ->
  Forall (fun l => Z.of_nat (length l) <= N) ((fun k => foldl contents_after [] (take k ops)) <$> seq 0 (S (length ops))) ->
  exists v, (v0 ← make_inline_vector self sizeof; foldl (fun v o => v ≫= (fun v => apply_op v o)) (Some v0) ops) = Some v /\
    iv_data v = Some (self, 0) /\ iv_elems v = foldl contents_after [] ops.
Proof.
  intros Hs Hlen.
  enough (exists v, (v0 ← make_inline_vector self sizeof; foldl (fun v o => v ≫= (fun v => apply_op v o)) (Some v0) ops) = Some v /\
    owns v /\ iv_self v = self /\ iv_elems v = foldl contents_after [] ops) as (v & H1 & H2 & H3 & H4).
  { exists v. split; [done|]. split; [|done]. destruct H2 as [-> _]. by rewrite H3. }
  destruct (make_owns self sizeof Hs) as (v0 & E0 & O0 & S0 & L0). rewrite E0. cbn [mbind option_bind].
  induction ops as [|o ops IH] using rev_ind; [by exists v0|].
  destruct IH as (v & E & O & S & L).
  { apply Forall_forall. intros l Hl. apply list_elem_of_fmap in Hl as (k & -> & Hk). apply elem_of_seq in Hk.
    rewrite Forall_forall in Hlen. apply Hlen. apply list_elem_of_fmap. exists k. rewrite take_app_le by lia.
    split; [done|]. apply elem_of_seq. rewrite length_app. lia. }
  assert (Hl : Z.of_nat (length (foldl contents_after [] (ops ++ [o]))) <= N).
  { rewrite Forall_forall in Hlen. apply Hlen, list_elem_of_fmap. exists (length (ops ++ [o])). rewrite firstn_all.
    split; [done|]. apply elem_of_seq. lia. }
  rewrite !foldl_app in *. cbn [foldl] in *. rewrite E. cbn. rewrite <- L in *. destruct (op_owns v o O Hl) as (v' & -> & O' & S' & L').
  exists v'. by rewrite S'.
Qed.

(** A vector that is constructed by moving points into the buffer of
    the object it was moved from, and one that is constructed by copying a
    vector with elements runs out of memory. *)
Theorem inline_vector_construct self other v :
  owns v -> self <> iv_self v -> iv_elems v <> [] ->
  (exists p, iv_data (move_construct self v).1 = Some (iv_self v, p)) /\ ~ owns (move_construct self v).1 /\
  copy_construct other v = None.
Proof.
  intros (H1 & H2 & H3 & H4 & H5) Hne Hel. split; [exists 0; exact H1|]. split.
  - intros (G1 & _). cbn in G1. rewrite H1 in G1. by injection G1 as G1.
  - unfold copy_construct, assign, reserve. cbn. destruct (iv_elems v) as [|x l] eqn:El; [done|].
    destruct (Z.leb_spec (Z.of_nat (length (x :: l))) 0); [cbn in *; lia|]. unfold allocate. rewrite H4.
    unfold N in *. set (n := Z.of_nat (length (x :: l))) in *.
    rewrite (wrap_small 64 (n * sa_sizeof (iv_alloc v))) by (destruct H5; lia).
    rewrite wrap_small by (destruct H5; lia). destruct (Z.ltb_spec (512 * sa_sizeof (iv_alloc v)) (512 * sa_sizeof (iv_alloc v) + n * sa_sizeof (iv_alloc v))); [done|].
    destruct H5; lia.
Qed.

Lemma inline_vector_owns_witness :
  exists v, (v0 ← make_inline_vector 7 2; foldl (fun v o => v ≫= (fun v => apply_op v o)) (Some v0) [Assign [1; 2]; PushBack 3]) = Some v /\
    iv_data v = Some (7%nat, 0) /\ iv_elems v = [1; 2; 3].
Proof.
  apply (inline_vector_owns 7 2 [Assign [1; 2]; PushBack 3]); [by right|].
  repeat constructor; vm_compute; discriminate.
Defined.

Lemma inline_vector_construct_witness :
  exists v, make_inline_vector 7 1 ≫= (fun v => push_back v 5) = Some v /\ (exists p, iv_data (move_construct 8 v).1 = Some (7%nat, p)) /\
    copy_construct 9 v = None.
Proof.
  eexists. split; [vm_compute; reflexivity|].
  edestruct (inline_vector_construct 8 9) as (H1 & _ & H2); [|..|split; [exact H1|exact H2]].
  - unfold owns, N. cbn. split_and!; try reflexivity; try lia; by left.
  - discriminate.
  - discriminate.
Defined.
End StackAllocator.

(** ** The lock-free arena *)

Module Arena.

Definition align16 (bytes : Z) : Z := Z.land (u64 (bytes + 16 - 1)) (u64 (Z.lnot (16 - 1))).

(** A call of [allocate]: about to load the offset, about to check and
    exchange, or finished with a span or an empty one. *)
Inductive apc :=
  | Load (bytes : Z)
  | Exchange (bytes current_offset : Z)
  | Allocated (bytes : Z) (span : option Z).

Record arena := mk_arena { a_capacity : Z; a_offset : Z; a_calls : list apc }.

(** One step of a call; a weak exchange may fail for no reason. *)
Definition arena_advance (capacity offset : Z) (c : apc) (spurious : bool) : option (Z * apc) :=
  match c with
  | Load bytes => Some (offset, Exchange bytes offset)
  | Exchange bytes cur =>
      if capacity <? u64 (cur + align16 bytes) then Some (offset, Allocated bytes None)
      else if (offset =? cur) && negb spurious
      then Some (u64 (cur + align16 bytes), Allocated bytes (Some cur))
      else Some (offset, Exchange bytes offset)
  | Allocated _ _ => None
  end.

Definition arena_step (a : arena) (i : nat) (spurious : bool) : option arena :=
  c ← a_calls a !! i;
  '(offset, c') ← arena_advance (a_capacity a) (a_offset a) c spurious;
  Some (mk_arena (a_capacity a) offset (<[i := c']> (a_calls a))).

Definition make_arena (capacity : Z) (requests : list Z) : arena := mk_arena capacity 0 (Load <$> requests).

Inductive arena_reachable (capacity : Z) (requests : list Z) : arena -> Prop :=
  | ar_make : arena_reachable capacity requests (make_arena capacity requests)
  | ar_step a i spurious a' :
      arena_reachable capacity requests a -> arena_step a i spurious = Some a' -> arena_reachable capacity requests a'.

Lemma align16_spec b : 0 <= b < 2 ^ 63 -> b <= align16 b < b + 16 /\ (align16 b) mod 16 = 0.
Proof.
  intros Hb. unfold align16. rewrite (wrap_small 64) by lia. unfold wrap.
  replace (Z.lnot (16 - 1) mod 2 ^ 64) with (Z.ldiff (Z.ones 64) (Z.ones 4)) by (vm_compute; reflexivity).
  assert (E : Z.land (b + 16 - 1) (Z.ldiff (Z.ones 64) (Z.ones 4)) = Z.ldiff (b + 16 - 1) (Z.ones 4)).
  { rewrite Z.ldiff_land, Z.ldiff_land, Z.land_assoc, Z.land_ones by lia. rewrite Z.mod_small by lia. done. }
  rewrite E, Z.ldiff_ones_r, Z.shiftl_mul_pow2, Z.shiftr_div_pow2 by lia. change (2 ^ 4) with 16.
  pose proof (Z.div_mod (b + 16 - 1) 16 ltac:(lia)). pose proof (Z.mod_pos_bound (b + 16 - 1) 16 ltac:(lia)).
  split; [lia|]. by rewrite Z.mod_mul.
Qed.

Definition spans_of (c : apc) : option (Z * Z) := match c with Allocated b (Some p) => Some (p, b) | _ => None end.

Record ainv (a : arena) : Prop := {
  ai_range : 0 <= a_offset a <= a_capacity a;
  ai_small : a_capacity a <= 2 ^ 63;
  ai_bytes : forall i c, a_calls a !! i = Some c -> 0 <= (match c with Load b | Exchange b _ | Allocated b _ => b end) < 2 ^ 62;
  ai_seen : forall i b cur, a_calls a !! i = Some (Exchange b cur) -> 0 <= cur <= a_offset a;
  ai_inside : forall i c p b, a_calls a !! i = Some c -> spans_of c = Some (p, b) -> 0 <= p /\ p + b <= a_offset a;
  ai_disjoint : forall i j c d p b q e, a_calls a !! i = Some c -> a_calls a !! j = Some d -> i <> j ->
    spans_of c = Some (p, b) -> spans_of d = Some (q, e) -> p + b <= q \/ q + e <= p;
}.

Lemma insert_cases {A} (l : list A) i x j y : <[i := x]> l !! j = Some y -> (j = i /\ y = x) \/ (j <> i /\ l !! j = Some y).
Proof.
  destruct (decide (j = i)) as [->|Hne]; intros H; [left|right]; (split; [done|]).
  - by apply list_lookup_insert_Some in H as [(_ & -> & _)|[? _]].
  - by rewrite list_lookup_insert_ne in H.
Qed.

Lemma ainv_step a i spurious a' : ainv a -> arena_step a i spurious = Some a' -> ainv a'.
Proof.
  intros [H1 H2 H3 H4 H5 H6] Hs. unfold arena_step in Hs. rewrite bind_Some in Hs. destruct Hs as (c & Hc & Hs).
  rewrite bind_Some in Hs. destruct Hs as ([off c'] & Ha & Hs). injection Hs as <-. pose proof (H3 i c Hc) as Hb.
  assert (Hq : off = a_offset a -> (match c' with Load b | Exchange b _ | Allocated b _ => b end) = (match c with Load b | Exchange b _ | Allocated b _ => b end) ->
    spans_of c' = None -> (forall b cur, c' = Exchange b cur -> cur = a_offset a) -> ainv (mk_arena (a_capacity a) off (<[i := c']> (a_calls a)))).
  { intros -> Eb Es Ee. split; cbn; try done.
    - intros j d [[-> ->]|[_ Hd]]%insert_cases; [by rewrite Eb|by eapply H3].
    - intros j b cur [[-> Hd]|[_ Hd]]%insert_cases; [|by eapply H4]. rewrite (Ee b cur) by done. lia.
    - intros j d p b [[-> ->]|[_ Hd]]%insert_cases Hsp; [congruence|by eapply H5].
    - intros j k d e p b q f [[-> ->]|[_ Hd]]%insert_cases [[-> ->]|[_ He]]%insert_cases Hjk Hsp Hsq; try congruence. by eapply (H6 j k). }
  destruct c as [bytes|bytes cur|bytes sp]; cbn -[align16 wrap Z.ltb Z.eqb] in Ha, Hb; [|..|done].
  - injection Ha as <- <-. apply Hq; try done. by intros b cur [= _ <-].
  - destruct (align16_spec bytes ltac:(lia)) as [Hal _]. pose proof (H4 i bytes cur Hc) as Hcur.
    rewrite (wrap_small 64) in Ha by lia. destruct (Z.ltb_spec (a_capacity a) (cur + align16 bytes)) as [Hlt|Hge].
    + injection Ha as <- <-. by apply Hq.
    + destruct (Z.eqb_spec (a_offset a) cur) as [E|Hne]; cbn in Ha; [destruct spurious; cbn in Ha|].
      1, 3: injection Ha as <- <-; apply Hq; try done; by intros b cur' [= _ <-].
      injection Ha as <- <-. split; cbn.
      * lia.
      * done.
      * intros j d [[-> ->]|[_ Hd]]%insert_cases; [done|by eapply H3].
      * intros j b cur' [[-> Hd]|[_ Hd]]%insert_cases; [done|]. pose proof (H4 j b cur' Hd). lia.
      * intros j d p b [[-> ->]|[_ Hd]]%insert_cases Hsp; [injection Hsp as <- <-; lia|]. pose proof (H5 j d p b Hd Hsp). lia.
      * intros j k d e p b q f [[-> ->]|[_ Hd]]%insert_cases [[-> ->]|[_ He]]%insert_cases Hjk Hsp Hsq; try done.
        -- injection Hsp as <- <-. pose proof (H5 k e q f He Hsq). right. lia.
        -- injection Hsq as <- <-. pose proof (H5 j d p b Hd Hsp). left. lia.
        -- by eapply (H6 j k).
Qed.

(** Spans that the arena hands out to concurrent callers lie inside its
    buffer and do not overlap, for requests below 2^62 bytes and arenas of
    at most 2^63. *)
Theorem arena_disjoint capacity requests a i j b p e q :
  0 <= capacity <= 2 ^ 63 -> Forall (fun b => 0 <= b < 2 ^ 62) requests -> arena_reachable capacity requests a -> i <> j ->
  a_calls a !! i = Some (Allocated b (Some p)) -> a_calls a !! j = Some (Allocated e (Some q)) ->
  0 <= p /\ p + b <= capacity /\ (p + b <= q \/ q + e <= p).
Proof.
  intros Hcap Hreq Hr Hij Hi Hj. assert (Hinv : ainv a /\ a_capacity a = capacity).
  { clear Hi Hj. induction Hr as [|a k sp a' _ [IH1 IH2] Hs].
    - split; [|done]. split; cbn; try (by intros; lia).
      + intros k c Hk. apply list_lookup_fmap_Some in Hk as (x & -> & Hx). rewrite Forall_forall in Hreq.
        apply Hreq. by apply list_elem_of_lookup_2 in Hx.
      + intros k b' cur Hk. by apply list_lookup_fmap_Some in Hk as (x & ? & _).
      + intros k c p' b' Hk. apply list_lookup_fmap_Some in Hk as (x & -> & _). done.
      + intros k l c d p' b' q' e' Hk. apply list_lookup_fmap_Some in Hk as (x & -> & _). done.
    - split; [by eapply ainv_step|]. unfold arena_step in Hs. rewrite bind_Some in Hs. destruct Hs as (c & _ & Hs).
      rewrite bind_Some in Hs. destruct Hs as ([? ?] & _ & Hs). by injection Hs as <-. }
  destruct Hinv as [[H1 H2 H3 H4 H5 H6] E]. destruct (H5 i _ p b Hi eq_refl). split; [done|]. split; [lia|].
  by eapply (H6 i j).
Qed.

(** A request within 15 bytes of 2^64 is rounded to nothing and is
    granted by every arena, with a span far beyond its end. *)
Theorem arena_overflow capacity bytes :
  0 <= capacity < 2 ^ 63 -> 2 ^ 64 - 15 <= bytes < 2 ^ 64 ->
  exists a, arena_reachable capacity [bytes] a /\ a_calls a = [Allocated bytes (Some 0)] /\ capacity < bytes.
Proof.
  intros Hc Hb. exists (mk_arena capacity 0 [Allocated bytes (Some 0)]). split; [|split; [done|lia]].
  assert (E : align16 bytes = 0).
  { unfold align16. replace (u64 (bytes + 16 - 1)) with (bytes + 16 - 1 - 2 ^ 64).
    - replace (bytes + 16 - 1 - 2 ^ 64) with (Z.land (bytes + 16 - 1 - 2 ^ 64) (Z.ones 4)).
      + rewrite <- Z.land_assoc. replace (Z.land (Z.ones 4) (u64 (Z.lnot (16 - 1)))) with 0 by (vm_compute; reflexivity). apply Z.land_0_r.
      + rewrite Z.land_ones by lia. apply Z.mod_small. change (2 ^ 4) with 16. lia.
    - unfold wrap. symmetry. rewrite <- (Z.mod_small (bytes + 16 - 1 - 2 ^ 64) (2 ^ 64)) by lia.
      rewrite <- (Z_mod_plus_full (bytes + 16 - 1) (-1) (2 ^ 64)). f_equal; lia. }
  eapply (ar_step _ _ (mk_arena capacity 0 [Exchange bytes 0]) 0 false).
  - eapply (ar_step _ _ _ 0 false); [apply ar_make|]. done.
  - unfold arena_step. cbn -[align16 Z.ltb u64 wrap]. rewrite E. cbn -[Z.ltb]. rewrite (wrap_small 64), Z.add_0_l by lia.
    destruct (Z.ltb_spec capacity 0); [lia|]. done.
Qed.

Lemma arena_disjoint_witness :
  exists a, arena_reachable 64 [10; 20] a /\ a_calls a = [Allocated 10 (Some 32); Allocated 20 (Some 0)] /\ (32 + 10 <= 0 \/ 0 + 20 <= 32).
Proof.
  set (run := fun (l : list nat) a => foldl (fun a i => default a (arena_step a i false)) a l).
  assert (Hrun : forall l a, arena_reachable 64 [10; 20] a -> arena_reachable 64 [10; 20] (run l a)).
  { induction l as [|i l IH]; intros a Ha; [exact Ha|]. apply IH. destruct (arena_step a i false) as [a'|] eqn:E; [|exact Ha].
    exact (ar_step _ _ a i false a' Ha E). }
  pose proof (Hrun [0; 1; 1; 0; 0]%nat _ (ar_make 64 [10; 20])) as Hr. exists (mk_arena 64 48 [Allocated 10 (Some 32); Allocated 20 (Some 0)]).
  split; [exact Hr|]. split; [reflexivity|].
  apply (arena_disjoint 64 [10; 20] (mk_arena 64 48 [Allocated 10 (Some 32); Allocated 20 (Some 0)]) 0 1 10 32 20 0);
    [lia|repeat constructor; lia|exact Hr|lia|reflexivity|reflexivity].
Defined.

Lemma arena_overflow_witness :
  exists a, arena_reachable 4096 [2 ^ 64 - 1] a /\ a_calls a = [Allocated (2 ^ 64 - 1) (Some 0)] /\ 4096 < 2 ^ 64 - 1.
Proof. apply arena_overflow; lia. Defined.
End Arena.
