(* ===== verification/BufferPool.v ===== *)
(** * The pool of page buffers for reads
    (src/db/buffer_pool.h, used by [sst::_load_page] of src/db/sst.cc)

    A thread keeps a stack of pages that it registered with its ring.  A
    read takes a buffer of the pool, or a fresh one when the pool is empty,
    and wraps it in a guard, whose destructor gives the buffer back.

    A buffer is named by the number of the call that allocated it; the heap
    is the list of buffers that are allocated and not freed.  Objects that
    were moved from are kept, as in the code, until their destructor runs:
    a moved [buffer_t] is null, while the [std::optional] index of a moved
    [registered_buffer] keeps its value.

    The theorems say who owns a buffer at every point of every run, and what
    becomes of the pool. *)
From stdpp Require Import base list option sorting.
From Stdlib Require Import ZArith Lia.
From S2P Require Import Prelude.
Open Scope Z_scope.

Record registered_buffer := mk_registered_buffer { _buf : option nat; _fixed_buffer_idx : option Z }.

(** What the destructor of a [registered_buffer], and of its [buffer_t], frees. *)
Definition frees (b : registered_buffer) : list nat := option_list (_buf b).

(** A [registered_buffer] after it was moved from. *)
Definition moved_from (b : registered_buffer) : registered_buffer := mk_registered_buffer None (_fixed_buffer_idx b).

Record registered_buffer_guard := mk_guard { buf : registered_buffer; has_pool : bool }.

(** The pool, the guards in the order of their construction (a destroyed one
    leaves its slot empty) and the heap. *)
Record pool_state := mk_pool_state {
  _buffers : list registered_buffer;
  guards : list (option registered_buffer_guard);
  heap : list nat;
  next_buf : nat
}.

(** [static_cast<int32_t>] of an index. *)
Definition int32_of (i : nat) : Z := let x := Z.of_nat i mod 2 ^ 32 in if x <? 2 ^ 31 then x else x - 2 ^ 32.

(** The constructor; the top of the stack is the last element of the vector. *)
Definition read_buffer_pool (num_bufs : nat) : pool_state :=
  mk_pool_state ((fun i => mk_registered_buffer (Some i) (Some (int32_of i))) <$> seq 0 num_bufs) [] (seq 0 num_bufs) num_bufs.

(** [try_get_fixed_buffer], which throws when a new page is needed and
    there is none ([memory] says whether the allocator has one). *)
Definition try_get_fixed_buffer (memory : bool) (s : pool_state) : option (registered_buffer * pool_state) :=
  match last (_buffers s) with
  | None =>
      if memory
      then Some (mk_registered_buffer (Some (next_buf s)) None,
                 mk_pool_state (_buffers s) (guards s) (next_buf s :: heap s) (S (next_buf s)))
      else None
  | Some b =>
      Some (mk_registered_buffer (_buf b) None,
            mk_pool_state (removelast (_buffers s)) (guards s) (heap s) (next_buf s))
  end.

Definition push (b : registered_buffer) (s : pool_state) : pool_state :=
  mk_pool_state (_buffers s ++ [b]) (guards s) (heap s) (next_buf s).

(** The construction of a guard around a buffer. *)
Definition make_guard (b : registered_buffer) (s : pool_state) : pool_state :=
  mk_pool_state (_buffers s) (guards s ++ [Some (mk_guard b true)]) (heap s) (next_buf s).

(** The construction of a guard by moving another. *)
Definition move_guard (i : nat) (s : pool_state) : option pool_state :=
  match guards s !! i with
  | Some (Some other) =>
      Some (mk_pool_state (_buffers s)
        (<[i := Some (mk_guard (moved_from (buf other)) false)]> (guards s) ++ [Some (mk_guard (buf other) (has_pool other))])
        (heap s) (next_buf s))
  | _ => None
  end.

(** The destructor of a guard: its body, then that of its buffer. *)
Definition destroy_guard (i : nat) (s : pool_state) : option pool_state :=
  match guards s !! i with
  | Some (Some g) =>
      let back := has_pool g && bool_decide (is_Some (_fixed_buffer_idx (buf g))) in
      let s1 := if back then push (buf g) s else s in
      let b := if back then moved_from (buf g) else buf g in
      Some (mk_pool_state (_buffers s1) (<[i := None]> (guards s1)) (list_difference (heap s1) (frees b)) (next_buf s1))
  | _ => None
  end.

(** What a reading thread does with its pool: a page read takes a buffer into
    a guard, and guards move and end. *)
Inductive pool_op := Get (memory : bool) | Move (i : nat) | Destroy (i : nat).

Definition pool_step (s : pool_state) (o : pool_op) : option pool_state :=
  match o with
  | Get memory => '(b, s1) ← try_get_fixed_buffer memory s; Some (make_guard b s1)
  | Move i => move_guard i s
  | Destroy i => destroy_guard i s
  end.

Definition pool_run (s : pool_state) (ops : list pool_op) : option pool_state :=
  foldl (fun s o => s ≫= (fun s => pool_step s o)) (Some s) ops.

Definition is_get (o : pool_op) : bool := match o with Get _ => true | _ => false end.

(** How many buffers a run of operations asks for. *)
Definition gets (ops : list pool_op) : nat := length (List.filter is_get ops).

(** The buffers that the guards hold. *)
Definition held (s : pool_state) : list nat := mjoin ((fun g => from_option (fun g => frees (buf g)) [] g) <$> guards s).

Definition pooled (s : pool_state) : list nat := mjoin (frees <$> _buffers s).

(** ** Ownership *)

Definition holds (g : option registered_buffer_guard) : list nat := from_option (fun g => frees (buf g)) [] g.

Lemma held_split (l : list (option registered_buffer_guard)) i g :
  l !! i = Some g -> mjoin (holds <$> l) ≡ₚ holds g ++ mjoin (holds <$> <[i := None]> l).
Proof. intros Hi. by rewrite (mjoin_insert holds l i g None Hi). Qed.

Lemma held_insert (l : list (option registered_buffer_guard)) i g g' :
  l !! i = Some g -> mjoin (holds <$> <[i := g']> l) ≡ₚ holds g' ++ mjoin (holds <$> <[i := None]> l).
Proof.
  intros Hi. rewrite <- (list_insert_insert_eq l i g' None). apply (mjoin_insert holds _ i None g').
  apply list_lookup_insert_eq. by apply lookup_lt_Some in Hi.
Qed.

(** The invariant after [k] calls of [try_get_fixed_buffer] on a pool of
    [n] buffers. *)
Record pinv (n k : nat) (s : pool_state) : Prop := {
  pi_owned : heap s ≡ₚ pooled s ++ held s;
  pi_nodup : NoDup (heap s);
  pi_fresh : Forall (fun b => (b < next_buf s)%nat) (heap s);
  pi_count : length (_buffers s) = (n - k)%nat;
  pi_next : next_buf s = Nat.max n k;
  pi_plain : Forall (fun g => forall h, g = Some h -> _fixed_buffer_idx (buf h) = None) (guards s);
}.

Lemma pinv_make n : pinv n 0 (read_buffer_pool n).
Proof.
  split; cbn.
  - unfold pooled, held. cbn. rewrite app_nil_r. induction (seq 0 n) as [|x l IH]; [done|]. cbn. by rewrite IH at 1.
  - apply NoDup_seq.
  - apply Forall_seq. lia.
  - rewrite length_fmap, length_seq. lia.
  - lia.
  - constructor.
Qed.

Lemma pinv_get n k s memory b s1 :
  pinv n k s -> try_get_fixed_buffer memory s = Some (b, s1) -> pinv n (S k) (make_guard b s1).
Proof.
  intros [H1 H2 H3 H4 H5 H6] Hg. unfold try_get_fixed_buffer in Hg.
  assert (Hpl : forall o, Forall (fun g => forall h, g = Some h -> _fixed_buffer_idx (buf h) = None) (guards s ++ [Some (mk_guard (mk_registered_buffer o None) true)])).
  { intros o. apply Forall_app. split; [done|]. constructor; [|constructor]. by intros h [= <-]. }
  assert (Hh : forall o, mjoin (holds <$> (guards s ++ [Some (mk_guard (mk_registered_buffer o None) true)])) = held s ++ option_list o).
  { intros o. rewrite fmap_app, join_app. cbn. by rewrite app_nil_r. }
  destruct (last (_buffers s)) as [c|] eqn:El.
  - injection Hg as <- <-. apply last_Some in El as [l El]. rewrite El in *. rewrite removelast_last.
    rewrite length_app in H4. cbn in H4. split; cbn; try done; try lia.
    unfold held, pooled in *. cbn. fold holds. rewrite Hh, H1, El. rewrite fmap_app, join_app. cbn. rewrite app_nil_r.
    rewrite <- app_assoc. apply Permutation_app_head, Permutation_app_comm.
  - destruct memory; [|done]. injection Hg as <- <-. apply last_None in El. rewrite El in *. cbn in H4. split; cbn; try done; try lia.
    + unfold held, pooled in *. cbn. fold holds. rewrite Hh, H1, El. cbn. by rewrite Permutation_cons_append.
    + constructor; [|done]. intros Hin. rewrite Forall_forall in H3. specialize (H3 _ Hin). lia.
    + constructor; [lia|]. eapply Forall_impl; [exact H3|]. cbn. lia.
Qed.

Lemma pinv_move n k s i s' : pinv n k s -> move_guard i s = Some s' -> pinv n k s'.
Proof.
  intros [H1 H2 H3 H4 H5 H6] Hm. unfold move_guard in Hm. destruct (guards s !! i) as [[g|]|] eqn:Ei; try done.
  injection Hm as <-. pose proof (Forall_lookup_1 _ _ _ _ H6 Ei g eq_refl) as Hg. split; cbn; try done.
  - rewrite H1. apply Permutation_app_head. unfold held. cbn. fold holds. rewrite fmap_app, join_app.
    rewrite (held_split _ _ _ Ei), (held_insert _ _ _ (Some (mk_guard (moved_from (buf g)) false)) Ei). cbn. rewrite app_nil_r. apply Permutation_app_comm.
  - apply Forall_app. split; [|constructor; [by intros h [= <-]|constructor]].
    apply Forall_insert; [done|]. by intros h [= <-].
Qed.

Lemma pinv_destroy n k s i s' : pinv n k s -> destroy_guard i s = Some s' -> pinv n k s'.
Proof.
  intros [H1 H2 H3 H4 H5 H6] Hd. unfold destroy_guard in Hd. destruct (guards s !! i) as [[g|]|] eqn:Ei; try done.
  pose proof (Forall_lookup_1 _ _ _ _ H6 Ei g eq_refl) as Hg. rewrite Hg in Hd.
  rewrite bool_decide_false in Hd by (by intros [? ?]). rewrite andb_false_r in Hd. injection Hd as <-.
  assert (Hp : heap s ≡ₚ frees (buf g) ++ pooled s ++ mjoin (holds <$> <[i := None]> (guards s))).
  { rewrite H1. unfold held. fold holds. rewrite (held_split _ _ _ Ei). cbn. rewrite !app_assoc. by rewrite (Permutation_app_comm (pooled s)). }
  split; cbn; try done.
  - apply NoDup_Permutation.
    + by apply NoDup_list_difference.
    + rewrite Hp in H2. by apply NoDup_app in H2 as (_ & _ & ?).
    + intros x. unfold held. cbn. fold holds. rewrite list_elem_of_difference, Hp, (elem_of_app (frees _)).
      rewrite Hp in H2. apply NoDup_app in H2 as (_ & Hdis & _). specialize (Hdis x). tauto.
  - by apply NoDup_list_difference.
  - rewrite Forall_forall in *. intros x Hx. apply list_elem_of_difference in Hx as [Hx _]. by apply H3.
  - apply Forall_insert; [done|]. by intros h [=].
Qed.

Lemma pinv_run n ops s : pool_run (read_buffer_pool n) ops = Some s -> pinv n (gets ops) s.
Proof.
  revert s. induction ops as [|o ops IH] using rev_ind; intros s Hr; [injection Hr as <-; apply pinv_make|].
  unfold pool_run in Hr. rewrite foldl_app in Hr. cbn [foldl] in Hr. rewrite bind_Some in Hr. destruct Hr as (s0 & H0 & Ho).
  specialize (IH s0 H0). unfold gets. rewrite List.filter_app, length_app. destruct o as [m|i|i]; cbn in *.
  - rewrite bind_Some in Ho. destruct Ho as ([b s1] & Hg & Hs). injection Hs as <-. rewrite Nat.add_1_r. by eapply pinv_get.
  - rewrite Nat.add_0_r. by eapply pinv_move.
  - rewrite Nat.add_0_r. by eapply pinv_destroy.
Qed.

(** At every point of every run a buffer that is allocated lies either
    in the pool or in one guard, and nowhere else: none leaks, none is freed
    twice or shared by two reads. *)
Theorem buffer_pool_owns n ops s :
  pool_run (read_buffer_pool n) ops = Some s -> heap s ≡ₚ pooled s ++ held s /\ NoDup (pooled s ++ held s).
Proof. intros Hr. destruct (pinv_run n ops s Hr) as [H1 H2]. split; [done|]. by rewrite <- H1. Qed.

(** No buffer ever returns to the pool: it has [n] buffers less one for
    each read that was ever made, whatever guards have ended, and every
    read past the [n]-th allocates. *)
Theorem buffer_pool_never_refills n ops s :
  pool_run (read_buffer_pool n) ops = Some s ->
  length (_buffers s) = (n - gets ops)%nat /\ next_buf s = Nat.max n (gets ops) /\
  ((n <= gets ops)%nat -> forall b s', try_get_fixed_buffer true s = Some (b, s') -> next_buf s' = S (next_buf s)).
Proof.
  intros Hr. destruct (pinv_run n ops s Hr) as [_ _ _ H4 H5 _]. split; [done|]. split; [done|].
  intros Hn b s' Hg. unfold try_get_fixed_buffer in Hg. destruct (_buffers s); [|cbn in H4; lia]. by injection Hg as _ <-.
Qed.

Lemma buffer_pool_owns_witness :
  exists s, pool_run (read_buffer_pool 2) [Get true; Get true; Get true; Destroy 0; Move 1] = Some s /\
    heap s ≡ₚ pooled s ++ held s /\ NoDup (pooled s ++ held s).
Proof.
  eexists. split; [vm_compute; reflexivity|].
  apply (buffer_pool_owns 2 [Get true; Get true; Get true; Destroy 0; Move 1]). vm_compute. reflexivity.
Defined.

Lemma buffer_pool_never_refills_witness :
  exists s, pool_run (read_buffer_pool 1) [Get true; Destroy 0; Get true; Destroy 1] = Some s /\ _buffers s = [] /\ next_buf s = 2%nat.
Proof.
  eexists. split; [vm_compute; reflexivity|].
  edestruct (buffer_pool_never_refills 1 [Get true; Destroy 0; Get true; Destroy 1]) as (H1 & H2 & _); [vm_compute; reflexivity|].
  split; [reflexivity|exact H2].
Defined.
