(* ===== verification/FsFile.v ===== *)
(** * Files and mappings (src/fs/fs.hpp)

    [file] owns a descriptor, [mmap_owning] a descriptor and a mapping,
    [mmap_view] a mapping of a file that somebody else owns.

    What the code sees of the operating system is a small state: the sizes of
    the files, the open descriptors, the live mappings.  The choices that are
    the system's own, which descriptor [open] returns, whether a call fails,
    are arguments ([outcomes]); what a call does when it succeeds is what
    POSIX and the Linux manual say of it.

    The theorems describe [from_path] and [from_path_async] on every branch,
    say for which modes the two agree, and follow the ownership of
    descriptors and mappings through moves and destructors. *)
From stdpp Require Import base numbers option list strings gmap.
From Stdlib Require Import ZArith Lia.
From S2P Require Import Prelude.

Local Open Scope Z_scope.

(** ** The operating system *)

Record os := mk_os {
  os_files : gmap string Z;       (* sizes *)
  os_fds : gmap Z string;         (* open descriptors *)
  os_maps : gmap Z Z;             (* live mappings: address, length *)
  os_counter : Z                  (* [file::global_counter] *)
}.

(** What the system decides during a call; [o_file_size] and [o_remove] say
    whether the calls of [std::filesystem] return or throw. *)
Record outcomes := mk_outcomes {
  o_open : option Z; o_fallocate : bool; o_mmap : option Z; o_file_size : bool; o_remove : bool
}.

Definition O_RDONLY : Z := 0.
Definition O_WRONLY : Z := 1.
Definition O_RDWR : Z := 2.
Definition O_CREAT : Z := 64.
Definition O_TRUNC : Z := 512.
Definition O_APPEND : Z := 1024.
Definition O_DIRECT : Z := 16384.

Definition has_flag (flags f : Z) : bool := negb (Z.land flags f =? 0).

Definition exists_path (s : os) (path : string) : bool := bool_decide (is_Some (os_files s !! path)).
Definition file_size_of (s : os) (path : string) : Z := default 0 (os_files s !! path).

(** [open]: a missing file needs [O_CREAT], [O_TRUNC] empties the file. *)
Definition os_open (s : os) (out : outcomes) (path : string) (flags : Z) : os * option Z :=
  match o_open out with
  | None => (s, None)
  | Some fd =>
      if negb (exists_path s path) && negb (has_flag flags O_CREAT) then (s, None)
      else
        let size := if has_flag flags O_TRUNC then 0 else file_size_of s path in
        (mk_os (<[path := size]> (os_files s)) (<[fd := path]> (os_fds s)) (os_maps s) (os_counter s), Some fd)
  end.

(** [fallocate] from the start of the file; a length that is not positive
    as [off_t] is refused. *)
Definition os_fallocate (s : os) (out : outcomes) (path : string) (len : Z) : os * bool :=
  if (0 <? len) && (len <? 2 ^ 63) && o_fallocate out
  then (mk_os (<[path := Z.max (file_size_of s path) len]> (os_files s)) (os_fds s) (os_maps s) (os_counter s), true)
  else (s, false).

Definition os_close (s : os) (fd : Z) : os := mk_os (os_files s) (delete fd (os_fds s)) (os_maps s) (os_counter s).
Definition os_remove (s : os) (path : string) : os := mk_os (delete path (os_files s)) (os_fds s) (os_maps s) (os_counter s).

(** [mmap] of at least a byte, and [munmap]. *)
Definition os_mmap (s : os) (out : outcomes) (len : Z) : os * option Z :=
  match o_mmap out with
  | Some p => if 0 <? len then (mk_os (os_files s) (os_fds s) (<[p := len]> (os_maps s)) (os_counter s), Some p) else (s, None)
  | None => (s, None)
  end.
Definition os_munmap (s : os) (p : Z) : os := mk_os (os_files s) (os_fds s) (delete p (os_maps s)) (os_counter s).

(** ** The file class *)

Inductive open_mode :=
  | undefined | read_only | write_new | write_append_new | read_write | read_write_new | read_write_append
  | read_write_create_append.

#[global] Instance open_mode_eq_dec : EqDecision open_mode.
Proof. solve_decision. Defined.

Definition mode_flags (m : open_mode) : Z :=
  match m with
  | undefined => -1
  | read_only => O_RDONLY
  | write_new => Z.lor (Z.lor O_WRONLY O_CREAT) O_TRUNC
  | write_append_new => Z.lor (Z.lor (Z.lor O_WRONLY O_CREAT) O_TRUNC) O_APPEND
  | read_write => O_RDWR
  | read_write_new => Z.lor (Z.lor O_RDWR O_CREAT) O_TRUNC
  | read_write_append => Z.lor O_RDWR O_APPEND
  | read_write_create_append => Z.lor (Z.lor O_RDWR O_CREAT) O_APPEND
  end.

Record file := mk_file {
  f_id : Z; f_fd : Z; f_file_size : Z; f_path : string; f_mode : open_mode; f_use_direct : bool
}.

(** A default constructed file, which is also what a move leaves behind. *)
Definition default_file : file := mk_file (2 ^ 64 - 1) (-1) 0 "" undefined false.

(** [FilesystemError] is the exception [std::filesystem::filesystem_error],
    the others are errors that are returned. *)
Inductive file_error :=
  | DoesNotExist | AlreadyExists | OpenFailed | InvalidSize (found expected : Z) | AllocationFailed | FilesystemError.

(** The two refusals before the file is opened. *)
Definition refused (exists_ : bool) (mode : open_mode) : option file_error :=
  if negb exists_ && bool_decide (mode = read_only) then Some DoesNotExist
  else if exists_ && (bool_decide (mode = write_new) || bool_decide (mode = read_write_new) || bool_decide (mode = read_write_append))
  then Some AlreadyExists
  else None.

(** The wrapped descriptor, with the next number of the counter. *)
Definition wrap_fd (s : os) (fd size : Z) (path : string) (mode : open_mode) (use_direct : bool) : os * (file_error + file) :=
  (mk_os (os_files s) (os_fds s) (os_maps s) (u64 (os_counter s + 1)),
   inr (mk_file (os_counter s) fd size path mode use_direct)).

Definition open_flags (mode : open_mode) (use_direct : bool) : Z :=
  if use_direct then Z.lor (mode_flags mode) O_DIRECT else mode_flags mode.

(** [from_path] *)
Definition from_path (s : os) (out : outcomes) (path : string) (mode : open_mode) (use_direct : bool) (expected_size : option Z)
    : os * (file_error + file) :=
  match refused (exists_path s path) mode with
  | Some e => (s, inl e)
  | None =>
      match os_open s out path (open_flags mode use_direct) with
      | (s, None) => (s, inl OpenFailed)
      | (s, Some fd) =>
          if negb (o_file_size out) then (s, inl FilesystemError) else
          let file_size := file_size_of s path in
          match expected_size with
          | None => wrap_fd s fd file_size path mode use_direct
          | Some expected =>
              match mode with
              | read_write | read_only =>
                  if file_size =? expected then wrap_fd s fd file_size path mode use_direct
                  else (s, inl (InvalidSize file_size expected))
              | write_new | read_write_new =>
                  match os_fallocate s out path expected with
                  | (s, false) =>
                      if o_remove out then (os_close (os_remove s path) fd, inl AllocationFailed)
                      else (s, inl FilesystemError)
                  | (s, true) => wrap_fd s fd expected path mode use_direct
                  end
              | undefined | write_append_new | read_write_append | read_write_create_append =>
                  wrap_fd s fd file_size path mode use_direct
              end
          end
      end
  end.

(** [from_path_async] *)
Definition from_path_async (s : os) (out : outcomes) (path : string) (mode : open_mode) (use_direct : bool) (expected_size : option Z)
    : os * (file_error + file) :=
  let exists_ := exists_path s path in
  let stx_size := file_size_of s path in
  match refused exists_ mode with
  | Some e => (s, inl e)
  | None =>
      match os_open s out path (open_flags mode use_direct) with
      | (s, None) => (s, inl OpenFailed)
      | (s, Some fd) =>
          let file_size := if exists_ then stx_size else default 0 expected_size in
          match expected_size with
          | None => wrap_fd s fd file_size path mode use_direct
          | Some expected =>
              match mode with
              | read_write | read_only =>
                  if file_size =? expected then wrap_fd s fd file_size path mode use_direct
                  else (s, inl (InvalidSize file_size expected))
              | write_new | read_write_new =>
                  match os_fallocate s out path expected with
                  | (s, false) =>
                      if o_remove out then (os_close (os_remove s path) fd, inl AllocationFailed)
                      else (s, inl FilesystemError)
                  | (s, true) => wrap_fd s fd file_size path mode use_direct
                  end
              | undefined | write_append_new | read_write_append | read_write_create_append =>
                  wrap_fd s fd file_size path mode use_direct
              end
          end
      end
  end.

(** The move constructor gives the new object and leaves the old one empty. *)
Definition file_move (other : file) : file * file := (other, default_file).

(** [operator=] of different objects: what [this] had is overwritten. *)
Definition file_assign (this other : file) : file * file := (other, default_file).

Definition file_destroy (s : os) (f : file) : os := if f_fd f <? 0 then s else os_close s (f_fd f).

(** ** Mappings *)

Record mmap_owning := mk_owning { mo_fd_wrapper : file; mo_mapped_ptr : option Z; mo_mapped_size : Z }.
Definition default_owning : mmap_owning := mk_owning default_file None 0.

Inductive map_error := InvalidDescriptor | EmptyFile | MapFailed | FileError (e : file_error).

(** [mmap_owning::from_fd_wrapper]; the last component is the argument
    afterwards. Its test for an empty file has no effect. *)
Definition from_fd_wrapper (s : os) (out : outcomes) (fd_w : file) : os * (map_error + mmap_owning) * file :=
  if f_fd fd_w =? -1 then (s, inl InvalidDescriptor, fd_w)
  else match os_mmap s out (f_file_size fd_w) with
       | (s, None) => (s, inl MapFailed, fd_w)
       | (s, Some p) =>
           let '(moved, rest) := file_move fd_w in
           (s, inr (mk_owning moved (Some p) (f_file_size moved)), rest)
       end.

(** [mmap_owning::from_path]; the file that was opened ends with the call. *)
Definition owning_from_path (s : os) (out : outcomes) (path : string) (expected_size : option Z) : os * (map_error + mmap_owning) :=
  match from_path s out path read_only false expected_size with
  | (s, inl e) => (s, inl (FileError e))
  | (s, inr f) => let '(s, r, rest) := from_fd_wrapper s out f in (file_destroy s rest, r)
  end.

Definition unmap (s : os) (p : option Z) : os := from_option (os_munmap s) s p.

(** The destructor's body, then that of the file. *)
Definition owning_destroy (s : os) (m : mmap_owning) : os := file_destroy (unmap s (mo_mapped_ptr m)) (mo_fd_wrapper m).

Definition owning_move (other : mmap_owning) : mmap_owning * mmap_owning :=
  let '(moved, rest) := file_move (mo_fd_wrapper other) in
  (mk_owning moved (mo_mapped_ptr other) (mo_mapped_size other), mk_owning rest None 0).

(** [operator=] of different objects: the old mapping is unmapped, the old
    file is assigned to. *)
Definition owning_assign (s : os) (this other : mmap_owning) : os * mmap_owning * mmap_owning :=
  let '(moved, rest) := file_assign (mo_fd_wrapper this) (mo_fd_wrapper other) in
  (unmap s (mo_mapped_ptr this), mk_owning moved (mo_mapped_ptr other) (mo_mapped_size other), mk_owning rest None 0).

Record range := mk_range { r_start : Z; r_size : Z }.
Record mmap_view := mk_view { mv_fd : Z; mv_mapped_ptr : option Z; mv_mapped_size : Z; mv_range : option range }.
Definition default_view : mmap_view := mk_view (-1) None 0 None.

(** [mmap_view::from_file] *)
Definition from_file (s : os) (out : outcomes) (fd_w : file) (r : option range) : os * (map_error + mmap_view) :=
  if f_fd fd_w =? -1 then (s, inl InvalidDescriptor)
  else if f_file_size fd_w =? 0 then (s, inl EmptyFile)
  else let size := from_option r_size (f_file_size fd_w) r in
       match os_mmap s out size with
       | (s, None) => (s, inl MapFailed)
       | (s, Some p) => (s, inr (mk_view (f_fd fd_w) (Some p) size r))
       end.

Definition view_move (other : mmap_view) : mmap_view * mmap_view := (other, default_view).

(** [operator=] of different objects: what [this] had is overwritten. *)
Definition view_assign (this other : mmap_view) : mmap_view * mmap_view := (other, default_view).
Definition view_destroy (s : os) (v : mmap_view) : os := unmap s (mv_mapped_ptr v).

(** ** Programs that use them *)

Inductive obj := File (f : file) | Owning (m : mmap_owning) | View (v : mmap_view) | Gone.

Inductive fs_op :=
  | Open (async : bool) (out : outcomes) (path : string) (mode : open_mode) (use_direct : bool) (expected : option Z)
  | MapPath (out : outcomes) (path : string) (expected : option Z)
  | MapFile (i : nat) (out : outcomes)
  | MapView (i : nat) (out : outcomes) (r : option range)
  | MoveConstruct (i : nat)
  | MoveAssign (i j : nat)
  | Destroy (i : nat).

Definition obj_destroy (s : os) (o : obj) : os :=
  match o with File f => file_destroy s f | Owning m => owning_destroy s m | View v => view_destroy s v | Gone => s end.

Definition obj_move (o : obj) : option (obj * obj) :=
  match o with
  | File f => let '(a, b) := file_move f in Some (File a, File b)
  | Owning m => let '(a, b) := owning_move m in Some (Owning a, Owning b)
  | View v => let '(a, b) := view_move v in Some (View a, View b)
  | Gone => None
  end.

Definition obj_assign (s : os) (this other : obj) : option (os * obj * obj) :=
  match this, other with
  | File f, File g => let '(a, b) := file_assign f g in Some (s, File a, File b)
  | Owning m, Owning n => let '(s, a, b) := owning_assign s m n in Some (s, Owning a, Owning b)
  | View v, View w => let '(a, b) := view_assign v w in Some (s, View a, View b)
  | _, _ => None
  end.

(** The system returns descriptors and addresses that are not in use. *)
Definition legal (s : os) (out : outcomes) : bool :=
  match o_open out with Some fd => (0 <=? fd) && bool_decide (os_fds s !! fd = None) | None => true end &&
  match o_mmap out with Some p => bool_decide (os_maps s !! p = None) | None => true end.

Definition fs_state : Type := os * list obj.

Definition fs_step (st : fs_state) (op : fs_op) : option fs_state :=
  let '(s, objs) := st in
  match op with
  | Open async out path mode use_direct expected =>
      if legal s out then
        let '(s, r) := (if async then from_path_async else from_path) s out path mode use_direct expected in
        Some (s, match r with inr f => objs ++ [File f] | inl _ => objs end)
      else None
  | MapPath out path expected =>
      if legal s out then
        let '(s, r) := owning_from_path s out path expected in
        Some (s, match r with inr m => objs ++ [Owning m] | inl _ => objs end)
      else None
  | MapFile i out =>
      match objs !! i with
      | Some (File f) =>
          if legal s out then
            let '(s, r, rest) := from_fd_wrapper s out f in
            Some (s, <[i := File rest]> objs ++ match r with inr m => [Owning m] | inl _ => [] end)
          else None
      | _ => None
      end
  | MapView i out r =>
      match objs !! i with
      | Some (File f) =>
          if legal s out then
            let '(s, r) := from_file s out f r in
            Some (s, match r with inr v => objs ++ [View v] | inl _ => objs end)
          else None
      | _ => None
      end
  | MoveConstruct i => '(a, b) ← objs !! i ≫= obj_move; Some (s, <[i := b]> objs ++ [a])
  | MoveAssign i j =>
      if (i =? j)%nat then Some st
      else this ← objs !! i; other ← objs !! j; '(s, a, b) ← obj_assign s this other; Some (s, <[j := b]> (<[i := a]> objs))
  | Destroy i => o ← objs !! i; Some (obj_destroy s o, <[i := Gone]> objs)
  end.

(** The descriptor and the mapping that an object owns. *)
Definition fd_of (f : file) : list Z := if f_fd f <? 0 then [] else [f_fd f].
Definition obj_fds (o : obj) : list Z :=
  match o with File f => fd_of f | Owning m => fd_of (mo_fd_wrapper m) | _ => [] end.
Definition obj_maps (o : obj) : list Z :=
  match o with Owning m => option_list (mo_mapped_ptr m) | View v => option_list (mv_mapped_ptr v) | _ => [] end.

Definition owned_fds (st : fs_state) : list Z := mjoin (obj_fds <$> st.2).
Definition owned_maps (st : fs_state) : list Z := mjoin (obj_maps <$> st.2).
Definition open_fds (st : fs_state) : list Z := (map_to_list (os_fds st.1)).*1.
Definition live_maps (st : fs_state) : list Z := (map_to_list (os_maps st.1)).*1.

(** What an operation abandons: the descriptor of a file with an unexpected
    size or of one that an exception interrupts, the descriptor of an object that is assigned to, the mapping of
    a view that is assigned to. *)
Definition leaked_fds (st : fs_state) (op : fs_op) : list Z :=
  match op with
  | Open async out path mode use_direct expected =>
      match ((if async then from_path_async else from_path) st.1 out path mode use_direct expected).2 with
      | inl (InvalidSize _ _ | FilesystemError) => option_list (o_open out)
      | _ => []
      end
  | MapPath out path expected =>
      match (from_path st.1 out path read_only false expected).2 with
      | inl (InvalidSize _ _ | FilesystemError) => option_list (o_open out)
      | _ => []
      end
  | MoveAssign i j => if (i =? j)%nat then [] else from_option obj_fds [] (st.2 !! i)
  | _ => []
  end.

Definition leaked_maps (st : fs_state) (op : fs_op) : list Z :=
  match op with
  | MoveAssign i j => if (i =? j)%nat then [] else match st.2 !! i with Some (View v) => obj_maps (View v) | _ => [] end
  | _ => []
  end.

Definition fs_init (files : gmap string Z) : fs_state := (mk_os files ∅ ∅ 0, []).

(** A run, with what it leaked. *)
Inductive fs_run (files : gmap string Z) : fs_state -> list Z -> list Z -> Prop :=
  | fs_start : fs_run files (fs_init files) [] []
  | fs_next st lf lm op st' :
      fs_run files st lf lm -> fs_step st op = Some st' -> fs_run files st' (leaked_fds st op ++ lf) (leaked_maps st op ++ lm).

(** ** Opening *)

Lemma legal_open s out fd : legal s out = true -> o_open out = Some fd -> 0 <= fd /\ os_fds s !! fd = None.
Proof.
  unfold legal. intros H E. rewrite E in H. apply andb_true_iff in H as [H _]. apply andb_true_iff in H as [H1 H2].
  apply bool_decide_eq_true in H2. split; [lia|done].
Qed.

Lemma legal_mmap s out p : legal s out = true -> o_mmap out = Some p -> os_maps s !! p = None.
Proof. unfold legal. intros H E. rewrite E in H. apply andb_true_iff in H as [_ H]. by apply bool_decide_eq_true in H. Qed.

(** What opening does to the tables of the system. *)
Definition opens (s : os) (out : outcomes) (path : string) (r : os * (file_error + file)) : Prop :=
  os_maps r.1 = os_maps s /\
  match r.2 with
  | inr f => o_open out = Some (f_fd f) /\ os_fds r.1 = <[f_fd f := path]> (os_fds s)
  | inl (InvalidSize _ _ | FilesystemError) => exists fd, o_open out = Some fd /\ os_fds r.1 = <[fd := path]> (os_fds s)
  | inl _ => os_fds r.1 = os_fds s
  end.

Lemma os_open_Some s out path flags s' fd :
  os_open s out path flags = (s', Some fd) ->
  o_open out = Some fd /\ os_fds s' = <[fd := path]> (os_fds s) /\ os_maps s' = os_maps s /\
  os_files s' = <[path := if has_flag flags O_TRUNC then 0 else file_size_of s path]> (os_files s) /\
  (exists_path s path || has_flag flags O_CREAT = true).
Proof.
  unfold os_open. destruct (o_open out) as [fd'|]; [|done].
  destruct (exists_path s path), (has_flag flags O_CREAT); cbn; intros H; try done; by injection H as <- <-.
Qed.

Lemma os_open_None s out path flags s' : os_open s out path flags = (s', None) -> s' = s.
Proof.
  unfold os_open. destruct (o_open out) as [fd'|]; [|by intros [= <-]].
  destruct (negb (exists_path s path) && negb (has_flag flags O_CREAT)); [by intros [= <-]|done].
Qed.

Lemma os_fallocate_keeps s out path n s' b :
  os_fallocate s out path n = (s', b) -> os_fds s' = os_fds s /\ os_maps s' = os_maps s.
Proof. unfold os_fallocate. destruct (_ && _ && _); by intros [= <- _]. Qed.

(** Both versions end with the same steps on the opened file, for the size
    [found] and the size [given] to a file that was allocated; [sized] says
    whether asking for the size returns. *)
Definition finish_open (s : os) (out : outcomes) (fd : Z) (path : string) (mode : open_mode) (use_direct : bool)
    (expected_size : option Z) (found given : Z) : os * (file_error + file) :=
  match expected_size with
  | None => wrap_fd s fd found path mode use_direct
  | Some expected =>
      match mode with
      | read_write | read_only =>
          if found =? expected then wrap_fd s fd found path mode use_direct else (s, inl (InvalidSize found expected))
      | write_new | read_write_new =>
          match os_fallocate s out path expected with
          | (s, false) =>
              if o_remove out then (os_close (os_remove s path) fd, inl AllocationFailed) else (s, inl FilesystemError)
          | (s, true) => wrap_fd s fd given path mode use_direct
          end
      | _ => wrap_fd s fd found path mode use_direct
      end
  end.

Definition opening (s : os) (out : outcomes) (path : string) (mode : open_mode) (use_direct : bool) (expected_size : option Z)
    (sized : bool) (found given : os -> Z) : os * (file_error + file) :=
  match refused (exists_path s path) mode with
  | Some e => (s, inl e)
  | None =>
      match os_open s out path (open_flags mode use_direct) with
      | (s1, None) => (s1, inl OpenFailed)
      | (s1, Some fd) =>
          if negb sized then (s1, inl FilesystemError)
          else finish_open s1 out fd path mode use_direct expected_size (found s1) (given s1)
      end
  end.

Lemma from_path_opening s out path mode d e :
  from_path s out path mode d e = opening s out path mode d e (o_file_size out) (fun s1 => file_size_of s1 path) (fun _ => default 0 e).
Proof.
  unfold from_path, opening, finish_open. destruct (refused _ _); [done|].
  destruct (os_open _ _ _ _) as [s1 [fd|]]; [|done]. destruct (o_file_size out); [|done]. by destruct e, mode.
Qed.

Lemma from_path_async_opening s out path mode d e :
  from_path_async s out path mode d e =
  opening s out path mode d e true (fun _ => if exists_path s path then file_size_of s path else default 0 e)
    (fun _ => if exists_path s path then file_size_of s path else default 0 e).
Proof.
  unfold from_path_async, opening, finish_open. destruct (refused _ _); [done|].
  destruct (os_open _ _ _ _) as [s1 [fd|]]; [|done]. by destruct e, mode.
Qed.

Lemma opening_opens s out path mode d e sized found given :
  legal s out = true -> opens s out path (opening s out path mode d e sized found given).
Proof.
  intros Hl. unfold opening. destruct (refused _ _) as [[]|] eqn:Er; try done.
  - unfold refused in Er. by repeat case_match.
  - unfold refused in Er. by repeat case_match.
  - destruct (os_open _ _ _ _) as [s1 [fd|]] eqn:Eo; [|apply os_open_None in Eo as ->; done].
    apply os_open_Some in Eo as (O1 & O2 & O3 & _ & _). destruct sized; [|split; [done|]; by exists fd]. cbn [negb]. unfold finish_open.
    assert (Hw : forall s2 n, os_fds s2 = os_fds s1 -> os_maps s2 = os_maps s1 -> opens s out path (wrap_fd s2 fd n path mode d)).
    { intros s2 n H1 H2. unfold opens. cbn. by rewrite H1, H2, O2. }
    destruct e as [n|]; [|by apply Hw]. destruct mode; try (by apply Hw).
    1, 3: destruct (_ =? _); [by apply Hw|]; split; [done|]; by exists fd.
    all: destruct (os_fallocate _ _ _ _) as [s2 []] eqn:Ef; apply os_fallocate_keeps in Ef as [F1 F2]; [by apply Hw|].
    all: destruct (o_remove out); split; cbn; [by rewrite F2| |by rewrite F2|]; rewrite F1, O2; [|by exists fd];
      apply delete_insert_id; by eapply legal_open.
Qed.

Lemma flags_of mode d : mode <> undefined ->
  has_flag (open_flags mode d) O_CREAT =
    match mode with write_new | write_append_new | read_write_new | read_write_create_append => true | _ => false end /\
  has_flag (open_flags mode d) O_TRUNC = match mode with write_new | write_append_new | read_write_new => true | _ => false end.
Proof. by destruct mode, d. Qed.

Lemma size_insert s path n fds maps c : file_size_of (mk_os (<[path := n]> (os_files s)) fds maps c) path = n.
Proof. unfold file_size_of. cbn. by rewrite lookup_insert_eq. Qed.

Lemma exists_spec s path : if exists_path s path then exists n, os_files s !! path = Some n else os_files s !! path = None.
Proof.
  unfold exists_path. destruct (bool_decide_reflect (is_Some (os_files s !! path))) as [[n ->]|H]; [by exists n|].
  by apply eq_None_not_Some.
Qed.

Lemma size_missing s path : exists_path s path = false -> file_size_of s path = 0.
Proof. intros E. pose proof (exists_spec s path) as H. rewrite E in H. unfold file_size_of. by rewrite H. Qed.

Lemma os_files_same s path : exists_path s path = true -> <[path := file_size_of s path]> (os_files s) = os_files s.
Proof.
  intros E. pose proof (exists_spec s path) as H. rewrite E in H. destruct H as [n H]. apply insert_id.
  unfold file_size_of. by rewrite H.
Qed.

Lemma refused_new exists_ mode : refused exists_ mode = None -> mode = write_new \/ mode = read_write_new -> exists_ = false.
Proof. unfold refused. intros H [-> | ->]; by destruct exists_. Qed.

Lemma os_ext s s' : os_files s = os_files s' -> os_fds s = os_fds s' -> os_maps s = os_maps s' -> os_counter s = os_counter s' -> s = s'.
Proof. destruct s, s'; cbn. by intros -> -> -> ->. Qed.

(** A file that [from_path] returns is open under its descriptor, and
    its recorded size is that of the file on disk, which is the expected
    size unless the mode appends. *)
Theorem file_open_correct s out path mode d e s' f :
  legal s out = true -> mode <> undefined -> from_path s out path mode d e = (s', inr f) ->
  f_path f = path /\ f_mode f = mode /\ f_id f = os_counter s /\ os_fds s' !! f_fd f = Some path /\
  os_files s' !! path = Some (f_file_size f) /\
  (forall n, e = Some n -> mode ∈ [read_only; read_write; write_new; read_write_new] -> f_file_size f = n).
Proof.
  intros Hl Hm H. pose proof (opening_opens s out path mode d e (o_file_size out) (fun s1 => file_size_of s1 path) (fun _ => default 0 e) Hl) as Ho.
  rewrite <- from_path_opening, H in Ho. destruct Ho as (_ & _ & Hfd). cbn in Hfd.
  rewrite from_path_opening in H. unfold opening in H. destruct (refused _ _) eqn:Er; [done|].
  destruct (os_open _ _ _ _) as [s1 [fd|]] eqn:Eo; [|done]. unfold os_open in Eo. destruct (o_open out) as [fd0|]; [|done].
  destruct (negb _ && negb _) eqn:Ec; [done|]. injection Eo as <- <-. destruct (o_file_size out); [|done]. cbn [negb] in H.
  rewrite (proj2 (flags_of mode d Hm)), size_insert in H.
  set (s1 := mk_os _ _ _ _) in H. set (n0 := if match mode with write_new | write_append_new | read_write_new => true | _ => false end then 0 else file_size_of s path) in *.
  assert (Hs1 : os_files s1 !! path = Some n0) by apply lookup_insert_eq.
  assert (Hw : forall s2 n, os_fds s2 = os_fds s1 -> os_counter s2 = os_counter s -> os_files s2 !! path = Some n ->
    wrap_fd s2 fd0 n path mode d = (s', inr f) -> f_path f = path /\ f_mode f = mode /\ f_id f = os_counter s /\
    os_files s' !! path = Some (f_file_size f) /\ f_file_size f = n).
  { intros s2 n E1 E2 E3 E4. injection E4 as <- <-. cbn. by rewrite E2. }
  rewrite Hfd, lookup_insert_eq. unfold finish_open in H. destruct e as [n|].
  - assert (Ha : forall s2 m, os_fallocate s1 out path n = (s2, true) -> mode = write_new \/ mode = read_write_new -> m = n ->
      os_fds s2 = os_fds s1 /\ os_counter s2 = os_counter s /\ os_files s2 !! path = Some m).
    { intros s2 m Ef Hmode ->. unfold os_fallocate in Ef. destruct (_ && _ && _) eqn:Eg; [|done]. injection Ef as <-. cbn.
      split; [done|]. split; [done|]. rewrite lookup_insert_eq. f_equal. unfold file_size_of. rewrite Hs1. cbn.
      destruct Hmode as [-> | ->]; cbn in *; lia. }
    destruct mode; try done.
    1, 4: destruct (n0 =? n) eqn:En; [|done]; destruct (Hw s1 n0 eq_refl eq_refl Hs1 H) as (? & ? & ? & ? & ?);
      split_and!; try done; intros m [= <-] _; lia.
    1, 3: destruct (os_fallocate s1 out path n) as [s2 []] eqn:Ef; [|by destruct (o_remove out)]; destruct (Ha s2 n eq_refl ltac:(auto) eq_refl) as (A1 & A2 & A3);
      destruct (Hw s2 n A1 A2 A3 H) as (? & ? & ? & ? & ?); split_and!; try done; intros m [= <-] _; done.
    all: destruct (Hw s1 n0 eq_refl eq_refl Hs1 H) as (? & ? & ? & ? & ?); split_and!; try done;
      intros m _ Hin; exfalso; repeat (apply elem_of_cons in Hin as [Hin|Hin]; [done|]); by apply not_elem_of_nil in Hin.
  - destruct (Hw s1 n0 eq_refl eq_refl Hs1 H) as (? & ? & ? & ? & ?). split_and!; try done.
Qed.

(** What an exception leaves in the directory: the file as it was opened. *)
Definition opened_files (s : os) (path : string) (mode : open_mode) (d : bool) : gmap string Z :=
  <[path := if has_flag (open_flags mode d) O_TRUNC then 0 else file_size_of s path]> (os_files s).

Lemma opening_error s out path mode d e sized found given s' err :
  legal s out = true -> mode <> undefined -> opening s out path mode d e sized found given = (s', inl err) ->
  os_files s' = match err with FilesystemError => opened_files s path mode d | _ => os_files s end /\
  os_counter s' = os_counter s /\ os_maps s' = os_maps s /\
  match err with
  | InvalidSize _ _ | FilesystemError => exists fd, o_open out = Some fd /\ os_fds s' = <[fd := path]> (os_fds s)
  | _ => os_fds s' = os_fds s
  end.
Proof.
  intros Hl Hm H. pose proof (opening_opens s out path mode d e sized found given Hl) as [Hmaps Hfds]. rewrite H in Hmaps, Hfds. cbn in *.
  enough (os_files s' = match err with FilesystemError => opened_files s path mode d | _ => os_files s end /\
    os_counter s' = os_counter s) as [? ?] by done. clear Hmaps Hfds.
  unfold opening in H. destruct (refused _ _) as [e0|] eqn:Er.
  { injection H as <- <-. split; [|done]. unfold refused in Er. by repeat case_match; simplify_eq. }
  destruct (os_open _ _ _ _) as [s1 [fd|]] eqn:Eo; [|apply os_open_None in Eo as ->; injection H as <- <-; done].
  destruct (flags_of mode d Hm) as [Fc Ft]. unfold opened_files. unfold os_open in Eo. rewrite Fc, Ft in *.
  destruct (o_open out) as [fd0|]; [|done]. destruct (negb _ && negb _) eqn:Ec; [done|]. injection Eo as <- <-.
  destruct sized; [|by injection H as <- <-]. cbn [negb] in H. unfold finish_open in H. destruct e as [n|]; [|done]. destruct mode; try done; cbn in Ec.
  1, 3: destruct (_ =? _); [done|]; injection H as <- <-; cbn; split; [|done]; apply os_files_same; by destruct (exists_path s path).
  all: pose proof (exists_spec s path) as Hex; rewrite (refused_new _ _ Er) in Hex by auto;
    unfold os_fallocate in H; destruct (_ && _ && _); [done|]; destruct (o_remove out); injection H as <- <-; cbn; (split; [|done]); [|done];
    by rewrite delete_insert_id.
Qed.

(** An error of [from_path] or [from_path_async] leaves the system as it
    was, except that a file with an unexpected size stays open with nobody
    to close it, and so does one, as it was opened, whose size cannot be
    read or which cannot be removed after its allocation failed. *)
Theorem file_open_error (async : bool) s out path mode d e s' err :
  legal s out = true -> mode <> undefined ->
  (if async then from_path_async else from_path) s out path mode d e = (s', inl err) ->
  match err with
  | InvalidSize _ _ => exists fd, o_open out = Some fd /\ os_fds s !! fd = None /\
      s' = mk_os (os_files s) (<[fd := path]> (os_fds s)) (os_maps s) (os_counter s)
  | FilesystemError => exists fd, o_open out = Some fd /\ os_fds s !! fd = None /\
      s' = mk_os (opened_files s path mode d) (<[fd := path]> (os_fds s)) (os_maps s) (os_counter s)
  | _ => s' = s
  end.
Proof.
  intros Hl Hm H. assert (Ho : exists sized found given, opening s out path mode d e sized found given = (s', inl err)).
  { destruct async; [rewrite from_path_async_opening in H|rewrite from_path_opening in H]; by eexists _, _, _. }
  destruct Ho as (sized & found & given & Ho). destruct (opening_error _ _ _ _ _ _ _ _ _ _ _ Hl Hm Ho) as (H1 & H2 & H3 & H4).
  destruct err; try (by apply os_ext); destruct H4 as (fd & E1 & E2); exists fd; (split; [done|]);
    (split; [by eapply legal_open|]); by apply os_ext.
Qed.

(** [read_write_append] opens no file: an existing one is refused, a
    missing one is not created. *)
Theorem append_mode_never_opens (async : bool) s out path d e :
  exists err, (if async then from_path_async else from_path) s out path read_write_append d e = (s, inl err) /\
    (err = AlreadyExists \/ err = OpenFailed).
Proof.
  assert (Ho : forall sized found given, exists err, opening s out path read_write_append d e sized found given = (s, inl err) /\ (err = AlreadyExists \/ err = OpenFailed)).
  { intros sized found given. unfold opening, refused. destruct (exists_path s path) eqn:Ex; cbn; [exists AlreadyExists; auto|].
    unfold os_open. rewrite Ex, (proj1 (flags_of read_write_append d ltac:(done))). cbn.
    destruct (o_open out); exists OpenFailed; auto. }
  destruct async; [rewrite from_path_async_opening|rewrite from_path_opening]; apply Ho.
Qed.

(** C29: [from_path_async] does what [from_path] does, for the modes that the
    database opens its tables and manifests with, whenever the size that
    [from_path] asks for after opening can be read ([from_path_async] has
    the size from before). *)
Theorem open_async_equivalent s out path mode d e :
  o_file_size out = true ->
  mode ∈ [read_only; read_write; write_new; read_write_new; read_write_append] ->
  from_path_async s out path mode d e = from_path s out path mode d e.
Proof.
  intros Hsz Hin. assert (Hm : mode <> undefined) by (intros ->; repeat (apply elem_of_cons in Hin as [Hin|Hin]; [done|]); by apply not_elem_of_nil in Hin).
  rewrite from_path_async_opening, from_path_opening, Hsz. unfold opening. destruct (refused _ _) eqn:Er; [done|].
  destruct (flags_of mode d Hm) as [Fc Ft]. unfold os_open. rewrite Fc, Ft. destruct (o_open out) as [fd|]; [|done].
  destruct (negb _ && negb _) eqn:Ec; [done|]. rewrite size_insert.
  repeat (apply elem_of_cons in Hin as [->|Hin]); try (by apply not_elem_of_nil in Hin); cbn in Ec.
  1, 2, 5: by destruct (exists_path s path).
  all: rewrite (refused_new _ _ Er) by auto; unfold finish_open; destruct e as [n|]; [|done];
    destruct (os_fallocate _ _ _ _) as [s2 []]; done.
Qed.

(** It does not for the appending modes: a file that is opened with
    [write_append_new] is emptied and keeps its former size in the object,
    and a file that is created by [read_write_create_append] has the
    expected size in the object and no bytes. *)
Theorem open_async_wrong_size s out path d fd n :
  o_open out = Some fd -> 0 < n ->
  (os_files s !! path = Some n -> exists s' f, from_path_async s out path write_append_new d None = (s', inr f) /\
     f_file_size f = n /\ os_files s' !! path = Some 0) /\
  (os_files s !! path = None -> exists s' f, from_path_async s out path read_write_create_append d (Some n) = (s', inr f) /\
     f_file_size f = n /\ os_files s' !! path = Some 0).
Proof.
  intros Ho Hn. split; intros Hf; rewrite from_path_async_opening; unfold opening, os_open; rewrite Ho;
    assert (Ex : exists_path s path = bool_decide (is_Some (os_files s !! path))) by done; rewrite Hf in Ex; cbn in Ex; rewrite Ex.
  - destruct (flags_of write_append_new d) as [Fc Ft]; [done|]. cbn -[open_flags has_flag wrap]. rewrite Ft. eexists _, _. split; [reflexivity|].
    cbn. unfold file_size_of. rewrite Hf. split; [done|]. apply lookup_insert_eq.
  - destruct (flags_of read_write_create_append d) as [Fc Ft]; [done|]. cbn -[open_flags has_flag wrap]. rewrite Fc, Ft. eexists _, _. split; [reflexivity|].
    cbn. split; [done|]. unfold file_size_of. rewrite Hf. apply lookup_insert_eq.
Qed.

(** ** Ownership *)

Definition keys {A} (m : gmap Z A) : list Z := (map_to_list m).*1.

Lemma keys_insert {A} (m : gmap Z A) k x : m !! k = None -> keys (<[k := x]> m) ≡ₚ k :: keys m.
Proof. intros H. unfold keys. by rewrite map_to_list_insert. Qed.

Lemma keys_delete {A} (m : gmap Z A) k X : keys m ≡ₚ k :: X -> keys (delete k m) ≡ₚ X.
Proof.
  intros H. assert (Hin : k ∈ keys m) by (rewrite H; left). apply list_elem_of_fmap in Hin as ([k' x] & -> & Hin). cbn in *.
  apply elem_of_map_to_list in Hin. apply (Permutation_cons_inv (a := k')). rewrite <- H. unfold keys.
  by rewrite <- (map_to_list_delete m k' x Hin).
Qed.

Lemma file_destroy_keys s f X :
  keys (os_fds s) ≡ₚ fd_of f ++ X -> keys (os_fds (file_destroy s f)) ≡ₚ X /\ os_maps (file_destroy s f) = os_maps s.
Proof. unfold file_destroy, fd_of. destruct (f_fd f <? 0); [done|]. intros H. split; [|done]. by apply keys_delete. Qed.

Lemma unmap_keys s p X :
  keys (os_maps s) ≡ₚ option_list p ++ X -> keys (os_maps (unmap s p)) ≡ₚ X /\ os_fds (unmap s p) = os_fds s.
Proof. destruct p as [p|]; cbn; [|done]. intros H. split; [|done]. by apply keys_delete. Qed.

Lemma obj_destroy_keys s o F M :
  keys (os_fds s) ≡ₚ obj_fds o ++ F -> keys (os_maps s) ≡ₚ obj_maps o ++ M ->
  keys (os_fds (obj_destroy s o)) ≡ₚ F /\ keys (os_maps (obj_destroy s o)) ≡ₚ M.
Proof.
  destruct o as [f|m|v|]; cbn; intros HF HM; [| | |done].
  - destruct (file_destroy_keys s f F HF) as [H1 H2]. by rewrite H2.
  - destruct (unmap_keys s (mo_mapped_ptr m) M HM) as [H1 H2]. rewrite <- H2 in HF.
    unfold owning_destroy. destruct (file_destroy_keys _ _ F HF) as [H3 H4]. by rewrite H4.
  - destruct (unmap_keys s (mv_mapped_ptr v) M HM) as [H1 H2]. unfold view_destroy. by rewrite H2.
Qed.

Lemma obj_move_owns o a b : obj_move o = Some (a, b) ->
  obj_fds a = obj_fds o /\ obj_maps a = obj_maps o /\ obj_fds b = [] /\ obj_maps b = [].
Proof. destruct o; cbn; intros H; [..|done]; by injection H as <- <-. Qed.

Lemma obj_assign_owns s this other s' a b M :
  obj_assign s this other = Some (s', a, b) -> keys (os_maps s) ≡ₚ obj_maps this ++ M ->
  obj_fds a = obj_fds other /\ obj_maps a = obj_maps other /\ obj_fds b = [] /\ obj_maps b = [] /\ os_fds s' = os_fds s /\
  keys (os_maps s') ≡ₚ match this with View v => obj_maps (View v) | _ => [] end ++ M.
Proof.
  destruct this as [f|m|v|], other as [f'|m'|v'|]; cbn; intros H HM; try done; injection H as <- <- <-; try done.
  destruct (unmap_keys s (mo_mapped_ptr m) M HM) as [H1 H2]. done.
Qed.

(** The opened descriptor, for the list of keys. *)
Lemma opens_keys s out path r :
  legal s out = true -> opens s out path r ->
  os_maps r.1 = os_maps s /\
  keys (os_fds r.1) ≡ₚ match r.2 with inr f => fd_of f | inl (InvalidSize _ _ | FilesystemError) => option_list (o_open out) | inl _ => [] end ++ keys (os_fds s).
Proof.
  intros Hl [H1 H2]. split; [done|]. destruct r as [s' [[]|f]]; cbn in *; try (by rewrite H2).
  1, 2: destruct H2 as (fd & E & ->); rewrite E; cbn; apply keys_insert; by eapply legal_open.
  - destruct H2 as [E ->]. destruct (legal_open s out (f_fd f) Hl E) as [Hp Hf]. unfold fd_of.
    destruct (Z.ltb_spec (f_fd f) 0); [lia|]. by apply keys_insert.
Qed.

Lemma either_opens (async : bool) s out path mode d e :
  legal s out = true -> opens s out path ((if async then from_path_async else from_path) s out path mode d e).
Proof. intros Hl. destruct async; [rewrite from_path_async_opening|rewrite from_path_opening]; by apply opening_opens. Qed.

Lemma os_mmap_keys s out n s' r :
  (forall p, o_mmap out = Some p -> os_maps s !! p = None) -> os_mmap s out n = (s', r) ->
  os_fds s' = os_fds s /\ keys (os_maps s') ≡ₚ option_list r ++ keys (os_maps s).
Proof.
  unfold os_mmap. intros Hl H. destruct (o_mmap out) as [p|]; [|by injection H as <- <-].
  destruct (0 <? n); [|by injection H as <- <-]. injection H as <- <-. split; [done|]. cbn. apply keys_insert. by apply Hl.
Qed.

Definition result_obj (r : map_error + mmap_owning) : obj := match r with inr m => Owning m | inl _ => Gone end.

Lemma from_fd_wrapper_keys s out f s' r rest :
  (forall p, o_mmap out = Some p -> os_maps s !! p = None) -> from_fd_wrapper s out f = (s', r, rest) ->
  os_fds s' = os_fds s /\ keys (os_maps s') ≡ₚ obj_maps (result_obj r) ++ keys (os_maps s) /\
  fd_of f = fd_of rest ++ obj_fds (result_obj r).
Proof.
  intros Hl H. unfold from_fd_wrapper in H. destruct (f_fd f =? -1); [injection H as <- <- <-; cbn; by rewrite app_nil_r|].
  destruct (os_mmap s out (f_file_size f)) as [s1 p] eqn:Em. destruct (os_mmap_keys _ _ _ _ _ Hl Em) as [H1 H2].
  destruct p as [p|]; cbn in H; injection H as <- <- <-; cbn; [done|]. by rewrite app_nil_r.
Qed.

Lemma owning_from_path_keys s out path e s' r :
  legal s out = true -> owning_from_path s out path e = (s', r) ->
  keys (os_maps s') ≡ₚ obj_maps (result_obj r) ++ keys (os_maps s) /\
  keys (os_fds s') ≡ₚ obj_fds (result_obj r) ++
    match (from_path s out path read_only false e).2 with inl (InvalidSize _ _ | FilesystemError) => option_list (o_open out) | _ => [] end ++ keys (os_fds s).
Proof.
  intros Hl H. unfold owning_from_path in H.
  destruct (opens_keys s out path _ Hl (either_opens false s out path read_only false e Hl)) as [O1 O2].
  destruct (from_path s out path read_only false e) as [s1 [err|f]]; cbn in O1, O2.
  - injection H as <- <-. cbn. by rewrite O1.
  - destruct (from_fd_wrapper s1 out f) as [[s2 r2] rest] eqn:Ew. injection H as <- <-.
    destruct (from_fd_wrapper_keys s1 out f s2 r2 rest) as (W1 & W2 & W3); [intros p Hp; rewrite O1; by eapply legal_mmap|done|].
    rewrite <- W1, W3, <- app_assoc in O2. destruct (file_destroy_keys s2 rest _ O2) as [D1 D2].
    rewrite D2, <- O1. done.
Qed.

(** The tables are what the objects own and what was leaked. *)
Definition accounted (st : fs_state) (lf lm : list Z) : Prop :=
  open_fds st ≡ₚ owned_fds st ++ lf /\ live_maps st ≡ₚ owned_maps st ++ lm.

Lemma mjoin_snoc {A B} (f : A -> list B) l x : mjoin (f <$> (l ++ [x])) ≡ₚ f x ++ mjoin (f <$> l).
Proof. rewrite fmap_app, mjoin_app. cbn. rewrite app_nil_r. apply Permutation_app_comm. Qed.

(** An object is made and something is leaked. *)
Lemma accounted_new s objs lf lm s' o nf :
  accounted (s, objs) lf lm -> keys (os_fds s') ≡ₚ obj_fds o ++ nf ++ keys (os_fds s) ->
  keys (os_maps s') ≡ₚ obj_maps o ++ keys (os_maps s) -> accounted (s', objs ++ [o]) (nf ++ lf) lm.
Proof.
  intros [H1 H2] F M. unfold accounted, open_fds, live_maps, owned_fds, owned_maps in *. cbn [fst snd] in *. fold (@keys string) (@keys Z) in *.
  change ((map_to_list (os_fds ?s)).*1) with (keys (os_fds s)) in *. change ((map_to_list (os_maps ?s)).*1) with (keys (os_maps s)) in *.
  rewrite F, M, H1, H2, !mjoin_snoc. split; solve_Permutation.
Qed.

Lemma accounted_gone s objs lf lm : accounted (s, objs ++ [Gone]) lf lm -> accounted (s, objs) lf lm.
Proof. unfold accounted, owned_fds, owned_maps. cbn [fst snd]. by rewrite !mjoin_snoc. Qed.

(** An object is replaced and another one is made. *)
Lemma accounted_replace s objs lf lm i o o' n s' :
  accounted (s, objs) lf lm -> objs !! i = Some o ->
  obj_fds o ++ keys (os_fds s') ≡ₚ obj_fds o' ++ obj_fds n ++ keys (os_fds s) ->
  obj_maps o ++ keys (os_maps s') ≡ₚ obj_maps o' ++ obj_maps n ++ keys (os_maps s) -> accounted (s', <[i := o']> objs ++ [n]) lf lm.
Proof.
  intros [H1 H2] Hi F M. unfold accounted, open_fds, live_maps, owned_fds, owned_maps in *. cbn [fst snd] in *.
  fold (keys (os_fds s)) in H1. fold (keys (os_maps s)) in H2. fold (keys (os_fds s')) (keys (os_maps s')). rewrite !mjoin_snoc. split.
  - apply (Permutation_app_inv_l (obj_fds o)). rewrite F, H1.
    transitivity (obj_fds n ++ (obj_fds o' ++ mjoin (obj_fds <$> objs)) ++ lf); [solve_Permutation|].
    rewrite <- (mjoin_insert obj_fds objs i o o' Hi). solve_Permutation.
  - apply (Permutation_app_inv_l (obj_maps o)). rewrite M, H2.
    transitivity (obj_maps n ++ (obj_maps o' ++ mjoin (obj_maps <$> objs)) ++ lm); [solve_Permutation|].
    rewrite <- (mjoin_insert obj_maps objs i o o' Hi). solve_Permutation.
Qed.

(** What an object owns is part of the tables. *)
Lemma accounted_split s objs lf lm i o :
  accounted (s, objs) lf lm -> objs !! i = Some o ->
  exists F M, keys (os_fds s) ≡ₚ obj_fds o ++ F /\ keys (os_maps s) ≡ₚ obj_maps o ++ M.
Proof.
  intros [H1 H2] Hi. exists (mjoin (obj_fds <$> <[i := Gone]> objs) ++ lf), (mjoin (obj_maps <$> <[i := Gone]> objs) ++ lm).
  rewrite !app_assoc, (mjoin_insert obj_fds objs i o Gone Hi), (mjoin_insert obj_maps objs i o Gone Hi). done.
Qed.

(** The second object's things become the first one's. *)
Lemma mjoin_assign {A B} (f : A -> list B) l i j x y x' y' :
  i <> j -> l !! i = Some x -> l !! j = Some y -> f x' = f y -> f y' = [] ->
  f x ++ mjoin (f <$> <[j := y']> (<[i := x']> l)) ≡ₚ mjoin (f <$> l).
Proof.
  intros Hij Hi Hj Ex Ey. apply (Permutation_app_inv_l (f y)). rewrite <- Ex at 2.
  rewrite <- (mjoin_insert f l i x x' Hi). rewrite (app_assoc (f y)), (Permutation_app_comm (f y) (f x)), <- app_assoc.
  apply Permutation_app_head. rewrite (mjoin_insert f (<[i := x']> l) j y y'); [by rewrite Ey|].
  by rewrite list_lookup_insert_ne.
Qed.

Lemma accounted_assign s objs lf lm i j this other s' a b :
  accounted (s, objs) lf lm -> i <> j -> objs !! i = Some this -> objs !! j = Some other ->
  obj_assign s this other = Some (s', a, b) ->
  accounted (s', <[j := b]> (<[i := a]> objs)) (obj_fds this ++ lf) (match this with View v => obj_maps (View v) | _ => [] end ++ lm).
Proof.
  intros [H1 H2] Hij Hi Hj Ha. unfold accounted, open_fds, live_maps, owned_fds, owned_maps in *. cbn [fst snd] in *.
  fold (keys (os_fds s)) in H1. fold (keys (os_maps s)) in H2. fold (keys (os_fds s')) (keys (os_maps s')).
  assert (HM : exists M, mjoin (obj_maps <$> objs) ≡ₚ obj_maps this ++ M).
  { exists (mjoin (obj_maps <$> <[i := Gone]> objs)). by rewrite (mjoin_insert obj_maps objs i this Gone Hi). }
  destruct HM as [M HM]. rewrite HM, <- app_assoc in H2.
  destruct (obj_assign_owns s this other s' a b _ Ha H2) as (A1 & A2 & A3 & A4 & A5 & A6). split.
  - rewrite A5, H1. rewrite <- (mjoin_assign obj_fds objs i j this other a b) by done. solve_Permutation.
  - rewrite A6. rewrite <- (mjoin_assign obj_maps objs i j this other a b) in HM by done. apply Permutation_app_inv_l in HM.
    rewrite HM. solve_Permutation.
Qed.

Lemma accounted_open s objs lf lm out s1 r path :
  accounted (s, objs) lf lm -> legal s out = true -> opens s out path (s1, r) ->
  accounted (s1, match r with inr f => objs ++ [File f] | inl _ => objs end)
    (match r with inl (InvalidSize _ _ | FilesystemError) => option_list (o_open out) | _ => [] end ++ lf) lm.
Proof.
  intros Ha Hl Ho. destruct (opens_keys s out path _ Hl Ho) as [O1 O2]. cbn in O1, O2. destruct r as [err|f].
  - apply accounted_gone, (accounted_new s); [done|cbn|cbn; by rewrite O1]. by destruct err.
  - apply (accounted_new s objs lf lm s1 (File f) []); [done|done|cbn; by rewrite O1].
Qed.

Lemma accounted_step st op st' lf lm :
  accounted st lf lm -> fs_step st op = Some st' -> accounted st' (leaked_fds st op ++ lf) (leaked_maps st op ++ lm).
Proof.
  destruct st as [s objs]. intros Ha H.
  destruct op as [async out path mode d e|out path e|i out|i out r|i|i j|i]; cbn -[from_path from_path_async owning_from_path] in *.
  - destruct (legal s out) eqn:Hl; [|done]. pose proof (either_opens async s out path mode d e Hl) as Ho.
    destruct ((if async then from_path_async else from_path) s out path mode d e) as [s1 r]. injection H as <-. by eapply accounted_open.
  - destruct (legal s out) eqn:Hl; [|done]. destruct (owning_from_path s out path e) as [s1 r] eqn:Eo. injection H as <-.
    destruct (owning_from_path_keys _ _ _ _ _ _ Hl Eo) as [M F].
    destruct r as [err|m]; [apply accounted_gone|]; by apply (accounted_new s).
  - destruct (objs !! i) as [[f| | |]|] eqn:Hi; try done. destruct (legal s out) eqn:Hl; [|done].
    destruct (from_fd_wrapper s out f) as [[s1 r] rest] eqn:Ew. injection H as <-.
    destruct (from_fd_wrapper_keys s out f s1 r rest) as (W1 & W2 & W3); [intros p; by apply legal_mmap|done|].
    assert (Hn : accounted (s1, <[i := File rest]> objs ++ [result_obj r]) lf lm).
    { apply (accounted_replace s objs lf lm i (File f)); [done|done|cbn|cbn; by rewrite W2]. by rewrite W1, W3, <- app_assoc. }
    destruct r; [rewrite app_nil_r; by apply accounted_gone|done].
  - destruct (objs !! i) as [[f| | |]|] eqn:Hi; try done. destruct (legal s out) eqn:Hl; [|done].
    unfold from_file in H. destruct (f_fd f =? -1); [by injection H as <-|]. destruct (f_file_size f =? 0); [by injection H as <-|].
    destruct (os_mmap s out _) as [s1 p] eqn:Em. destruct (os_mmap_keys _ _ _ _ _ (fun p => legal_mmap s out p Hl) Em) as [M1 M2].
    destruct p as [p|]; injection H as <-; [|apply accounted_gone]; apply (accounted_new s _ _ _ _ _ []); try done; cbn; by rewrite M1.
  - rewrite !bind_Some in H. destruct H as ([a b] & Hm & H). rewrite bind_Some in Hm. destruct Hm as (o & Hi & Hm).
    injection H as <-. destruct (obj_move_owns o a b Hm) as (A1 & A2 & A3 & A4).
    apply (accounted_replace s objs lf lm i o); [done|done|rewrite A1, A3|rewrite A2, A4]; done.
  - destruct (Nat.eqb_spec i j) as [|Hij]; [by injection H as <-|].
    rewrite bind_Some in H. destruct H as (this & Hi & H). rewrite bind_Some in H. destruct H as (other & Hj & H).
    rewrite bind_Some in H. destruct H as ([[s1 a] b] & He & H). injection H as <-. rewrite Hi. cbn. by eapply accounted_assign.
  - rewrite bind_Some in H. destruct H as (o & Hi & H). injection H as <-.
    destruct (accounted_split s objs lf lm i o Ha Hi) as (F & M & HF & HM). destruct (obj_destroy_keys s o F M HF HM) as [D1 D2].
    apply accounted_gone, (accounted_replace s objs lf lm i o); [done|done|rewrite D1, HF|rewrite D2, HM]; done.
Qed.

(** C28: however files and mappings are opened, moved, assigned and
    destroyed, whether or not the calls of the system fail or throw, the
    open descriptors are those of the objects and the ones lost on the paths
    of [leaked_fds] (a size that is not the expected one, an exception of
    [file_size] or [remove], an assignment), each once; so no destructor
    closes the descriptor of another object. The same holds of mappings and
    [leaked_maps]. *)
Theorem fs_resources_owned files st lf lm :
  fs_run files st lf lm ->
  open_fds st ≡ₚ owned_fds st ++ lf /\ live_maps st ≡ₚ owned_maps st ++ lm /\
  NoDup (owned_fds st ++ lf) /\ NoDup (owned_maps st ++ lm).
Proof.
  intros Hr. assert (Ha : accounted st lf lm).
  { induction Hr as [|st lf lm op st' _ IH Hs]; [done|]. by apply accounted_step with (1 := IH). }
  destruct Ha as [H1 H2]. split; [done|]. split; [done|]. rewrite <- H1, <- H2. split; apply NoDup_fst_map_to_list.
Qed.

Definition demo_files : gmap string Z := {["m" := 100]}.
Definition demo_out (fd p : Z) : outcomes := mk_outcomes (Some fd) true (Some p) true true.

Lemma file_open_correct_witness :
  exists s' f, from_path (fs_init demo_files).1 (demo_out 3 7) "t" read_write_new true (Some 4096) = (s', inr f) /\
    os_files s' !! "t" = Some (f_file_size f) /\ f_file_size f = 4096.
Proof.
  eexists _, _. split; [vm_compute; reflexivity|].
  edestruct (file_open_correct (fs_init demo_files).1 (demo_out 3 7) "t" read_write_new true (Some 4096)) as (_ & _ & _ & _ & H1 & H2);
    [reflexivity|discriminate|vm_compute; reflexivity|].
  split; [exact H1|]. apply H2; [reflexivity|]. do 3 right. left.
Defined.

Lemma file_open_error_witness :
  exists s' fd, from_path (fs_init demo_files).1 (demo_out 3 7) "m" read_write false (Some 4096) = (s', inl (InvalidSize 100 4096)) /\
    s' = mk_os demo_files (<[fd := "m"]> ∅) ∅ 0.
Proof.
  eexists _, 3. split; [vm_compute; reflexivity|].
  destruct (file_open_error false (fs_init demo_files).1 (demo_out 3 7) "m" read_write false (Some 4096) _ (InvalidSize 100 4096)
    eq_refl ltac:(discriminate) ltac:(vm_compute; reflexivity)) as (fd & E & _ & Es).
  injection E as <-. exact Es.
Defined.

Lemma open_async_equivalent_witness :
  from_path_async (fs_init demo_files).1 (demo_out 3 7) "m" read_only false (Some 100) =
  from_path (fs_init demo_files).1 (demo_out 3 7) "m" read_only false (Some 100).
Proof. apply open_async_equivalent; [reflexivity|left]. Defined.

Lemma open_async_wrong_size_witness :
  exists s' f, from_path_async (fs_init demo_files).1 (demo_out 3 7) "m" write_append_new false None = (s', inr f) /\
    f_file_size f = 100 /\ os_files s' !! "m" = Some 0.
Proof. apply (open_async_wrong_size (fs_init demo_files).1 (demo_out 3 7) "m" false 3 100); [reflexivity|lia|reflexivity]. Defined.

(** A descriptor is lost to a file of another size, and one to a size that
    cannot be read. *)
Lemma fs_resources_owned_witness :
  exists st, fs_run demo_files st [5; 3] [] /\ open_fds st ≡ₚ owned_fds st ++ [5; 3].
Proof.
  pose (throwing := mk_outcomes (Some 5) true None false true).
  pose (ops := [Open false (demo_out 3 7) "m" read_write false (Some 4096); MapPath (demo_out 4 9) "m" (Some 100); MoveConstruct 0;
    Open false throwing "t" read_write_new true (Some 4096)]).
  pose (run := foldl (fun st op => default st (fs_step st op)) (fs_init demo_files)).
  assert (Hr : fs_run demo_files (run ops) [5; 3] []).
  { apply (fs_next demo_files (run (take 3 ops)) [3] [] (Open false throwing "t" read_write_new true (Some 4096))); [|vm_compute; reflexivity].
    apply (fs_next demo_files (run (take 2 ops)) [3] [] (MoveConstruct 0)); [|vm_compute; reflexivity].
    apply (fs_next demo_files (run (take 1 ops)) [3] [] (MapPath (demo_out 4 9) "m" (Some 100))); [|vm_compute; reflexivity].
    apply (fs_next demo_files (run (take 0 ops)) [] [] (Open false (demo_out 3 7) "m" read_write false (Some 4096))); [|vm_compute; reflexivity].
    apply fs_start. }
  exists (run ops). split; [exact Hr|]. exact (proj1 (fs_resources_owned demo_files (run ops) [5; 3] [] Hr)).
Defined.
