(* ===== verification/QuotientFilter.v ===== *)
(** * The quotient filter (src/db/qf.h, src/db/qf.cc, src/db/quotient_filter.h,
      src/db/quotient_filter.cc)

    A set of [q+r]-bit fingerprints in a circular table of [2^q] slots of
    [r+3] bits packed in 64-bit words. A fingerprint belongs to the slot of
    its high [q] bits, its quotient; the slot that stores it keeps its low
    [r] bits, the remainder, and the three bits occupied, continuation and
    shifted from which the quotient is recovered.

    A [uint64_t] is a [Z]; the table is the list of its words, and a word
    outside it, which the code never reads, is 0. The loops take fuel and
    give [None] when it runs out; [steps], the number of slots, is enough
    for each of them. *)

From stdpp Require Import base list numbers option strings.
From Stdlib Require Import ZArith Lia.
From S2P Require Import Prelude Types Utils.

Local Open Scope Z_scope.

(** ** The table *)

(** For [n < 64]. *)
Definition LOW_MASK (n : Z) : Z := u64 (Z.shiftl 1 n - 1).

Record quotient_filter := mk_qf {
  qf_qbits : Z;
  qf_rbits : Z;
  qf_elem_bits : Z;
  qf_entries : Z;
  qf_index_mask : Z;
  qf_rmask : Z;
  qf_elem_mask : Z;
  qf_max_size : Z;
  qf_table : list Z;
}.

Definition qf_table_size (q r : Z) : Z :=
  let bits := u64 (u64 (Z.shiftl 1 q) * (r + 3)) in
  let bytes := bits / 8 in
  if bits mod 8 =? 0 then bytes else bytes + 1.

Definition qf_allocated_size (qf : quotient_filter) : Z :=
  ceil_page_align (qf_table_size (qf_qbits qf) (qf_rbits qf)).

(** [None] when the code returns false. *)
Definition qf_init (q r : Z) : option quotient_filter :=
  if (q =? 0) || (r =? 0) || (64 <? u32 (q + r)) then None
  else
    let elem_bits := u8 (u8 r + 3) in
    let table_size_bytes := ceil_page_align (qf_table_size q r) in
    Some (mk_qf (u8 q) (u8 r) elem_bits 0 (LOW_MASK q) (LOW_MASK r) (LOW_MASK elem_bits)
            (u64 (Z.shiftl 1 q)) (replicate (Z.to_nat (table_size_bytes / 8)) 0)).

Definition with_table (qf : quotient_filter) (table : list Z) : quotient_filter :=
  mk_qf (qf_qbits qf) (qf_rbits qf) (qf_elem_bits qf) (qf_entries qf) (qf_index_mask qf)
    (qf_rmask qf) (qf_elem_mask qf) (qf_max_size qf) table.

Definition with_entries (qf : quotient_filter) (entries : Z) : quotient_filter :=
  mk_qf (qf_qbits qf) (qf_rbits qf) (qf_elem_bits qf) entries (qf_index_mask qf)
    (qf_rmask qf) (qf_elem_mask qf) (qf_max_size qf) (qf_table qf).

Definition word (table : list Z) (i : Z) : Z := default 0 (table !! Z.to_nat i).

Definition get_elem (qf : quotient_filter) (idx : Z) : Z :=
  let bitpos := u64 (qf_elem_bits qf * idx) in
  let tabpos := bitpos / 64 in
  let slotpos := bitpos mod 64 in
  let spillbits := slotpos + qf_elem_bits qf - 64 in
  let elt := Z.land (Z.shiftr (word (qf_table qf) tabpos) slotpos) (qf_elem_mask qf) in
  if 0 <? spillbits then
    let x := Z.land (word (qf_table qf) (tabpos + 1)) (LOW_MASK spillbits) in
    Z.lor elt (u64 (Z.shiftl x (qf_elem_bits qf - spillbits)))
  else elt.

(** [table[i] = f(table[i])] *)
Definition update_word (table : list Z) (i : Z) (f : Z -> Z) : list Z :=
  alter f (Z.to_nat i) table.

Definition set_elem (qf : quotient_filter) (idx elt : Z) : quotient_filter :=
  let bitpos := u64 (qf_elem_bits qf * idx) in
  let tabpos := bitpos / 64 in
  let slotpos := bitpos mod 64 in
  let spillbits := slotpos + qf_elem_bits qf - 64 in
  let elt := Z.land elt (qf_elem_mask qf) in
  let table := update_word (qf_table qf) tabpos
    (fun w => Z.land w (Z.lnot (u64 (Z.shiftl (qf_elem_mask qf) slotpos)))) in
  let table := update_word table tabpos (fun w => Z.lor w (u64 (Z.shiftl elt slotpos))) in
  with_table qf
    (if 0 <? spillbits then
       let table := update_word table (tabpos + 1) (fun w => Z.land w (Z.lnot (LOW_MASK spillbits))) in
       update_word table (tabpos + 1) (fun w => Z.lor w (Z.shiftr elt (qf_elem_bits qf - spillbits)))
     else table).

Definition incr (qf : quotient_filter) (idx : Z) : Z := Z.land (u64 (idx + 1)) (qf_index_mask qf).
Definition decr (qf : quotient_filter) (idx : Z) : Z := Z.land (u64 (idx - 1)) (qf_index_mask qf).

(** ** The bits of an element *)

Definition is_occupied (elt : Z) : bool := negb (Z.land elt 1 =? 0).
Definition set_occupied (elt : Z) : Z := Z.lor elt 1.
Definition clr_occupied (elt : Z) : Z := Z.land elt (Z.lnot 1).
Definition is_continuation (elt : Z) : bool := negb (Z.land elt 2 =? 0).
Definition set_continuation (elt : Z) : Z := Z.lor elt 2.
Definition clr_continuation (elt : Z) : Z := Z.land elt (Z.lnot 2).
Definition is_shifted (elt : Z) : bool := negb (Z.land elt 4 =? 0).
Definition set_shifted (elt : Z) : Z := Z.lor elt 4.
Definition clr_shifted (elt : Z) : Z := Z.land elt (Z.lnot 4).
Definition get_remainder (elt : Z) : Z := Z.shiftr elt 3.
Definition is_empty_element (elt : Z) : bool := Z.land elt 7 =? 0.

Definition is_cluster_start (elt : Z) : bool :=
  is_occupied elt && negb (is_continuation elt) && negb (is_shifted elt).

Definition is_run_start (elt : Z) : bool :=
  negb (is_continuation elt) && (is_occupied elt || is_shifted elt).

Definition hash_to_quotient (qf : quotient_filter) (hash : Z) : Z :=
  Z.land (Z.shiftr hash (qf_rbits qf)) (qf_index_mask qf).

Definition hash_to_remainder (qf : quotient_filter) (hash : Z) : Z := Z.land hash (qf_rmask qf).

(** ** Runs *)

Definition steps (qf : quotient_filter) : nat := Z.to_nat (qf_max_size qf).

(** [while(is_shifted(get_elem(qf, b))) b = decr(qf, b);] *)
Fixpoint cluster_start (fuel : nat) (qf : quotient_filter) (b : Z) : option Z :=
  if is_shifted (get_elem qf b) then
    match fuel with
    | O => None
    | S fuel => cluster_start fuel qf (decr qf b)
    end
  else Some b.

(** [do s = incr(qf, s); while(is_continuation(get_elem(qf, s)));] *)
Fixpoint next_run (fuel : nat) (qf : quotient_filter) (s : Z) : option Z :=
  match fuel with
  | O => None
  | S fuel =>
      let s := incr qf s in
      if is_continuation (get_elem qf s) then next_run fuel qf s else Some s
  end.

(** [do b = incr(qf, b); while(!is_occupied(get_elem(qf, b)));] *)
Fixpoint next_occupied (fuel : nat) (qf : quotient_filter) (b : Z) : option Z :=
  match fuel with
  | O => None
  | S fuel =>
      let b := incr qf b in
      if negb (is_occupied (get_elem qf b)) then next_occupied fuel qf b else Some b
  end.

Fixpoint find_run_loop (fuel : nat) (qf : quotient_filter) (fq b s : Z) : option Z :=
  if b =? fq then Some s
  else
    match fuel with
    | O => None
    | S fuel =>
        s ← next_run (steps qf) qf s;
        b ← next_occupied (steps qf) qf b;
        find_run_loop fuel qf fq b s
    end.

Definition find_run_index (qf : quotient_filter) (fq : Z) : option Z :=
  b ← cluster_start (steps qf) qf fq;
  find_run_loop (steps qf) qf fq b b.

(** ** Insertion *)

Fixpoint insert_into (fuel : nat) (qf : quotient_filter) (s curr : Z) : option quotient_filter :=
  match fuel with
  | O => None
  | S fuel =>
      let prev := get_elem qf s in
      let empty := is_empty_element prev in
      let '(prev, curr) :=
        if negb empty then
          let prev := set_shifted prev in
          if is_occupied prev then (clr_occupied prev, set_occupied curr) else (prev, curr)
        else (prev, curr) in
      let qf := set_elem qf s curr in
      if negb empty then insert_into fuel qf (incr qf s) prev else Some qf
  end.

(** The loop that moves the cursor in the run: [inl tt] when the remainder
    is there already, otherwise the insert position. *)
Fixpoint insert_position (fuel : nat) (qf : quotient_filter) (fr s : Z) : option (unit + Z) :=
  match fuel with
  | O => None
  | S fuel =>
      let rem := get_remainder (get_elem qf s) in
      if rem =? fr then Some (inl tt)
      else if fr <? rem then Some (inr s)
      else
        let s := incr qf s in
        if is_continuation (get_elem qf s) then insert_position fuel qf fr s else Some (inr s)
  end.

(** The end of [qf_insert]: the shifted bit, the insertion, the count. *)
Definition insert_entry (qf : quotient_filter) (fq s entry : Z) : option (bool * quotient_filter) :=
  let entry := if negb (s =? fq) then set_shifted entry else entry in
  qf ← insert_into (steps qf) qf s entry;
  Some (true, with_entries qf (u32 (qf_entries qf + 1))).

Definition qf_insert (qf : quotient_filter) (hash : Z) : option (bool * quotient_filter) :=
  if qf_max_size qf <=? qf_entries qf then Some (false, qf)
  else
    let fq := hash_to_quotient qf hash in
    let fr := hash_to_remainder qf hash in
    let T_fq := get_elem qf fq in
    let entry := Z.land (u64 (Z.shiftl fr 3)) (Z.lnot 7) in
    if is_empty_element T_fq then
      Some (true, with_entries (set_elem qf fq (set_occupied entry)) (u32 (qf_entries qf + 1)))
    else
      let qf := if negb (is_occupied T_fq) then set_elem qf fq (set_occupied T_fq) else qf in
      start ← find_run_index qf fq;
      if is_occupied T_fq then
        p ← insert_position (steps qf) qf fr start;
        match p with
        | inl _ => Some (true, qf)
        | inr s =>
            if s =? start then
              let old_head := get_elem qf start in
              insert_entry (set_elem qf start (set_continuation old_head)) fq s entry
            else insert_entry qf fq s (set_continuation entry)
        end
      else insert_entry qf fq start entry.

(** ** Lookup *)

Fixpoint scan_run (fuel : nat) (qf : quotient_filter) (fr s : Z) : option bool :=
  match fuel with
  | O => None
  | S fuel =>
      let rem := get_remainder (get_elem qf s) in
      if rem =? fr then Some true
      else if fr <? rem then Some false
      else
        let s := incr qf s in
        if is_continuation (get_elem qf s) then scan_run fuel qf fr s else Some false
  end.

Definition qf_may_contain (qf : quotient_filter) (hash : Z) : option bool :=
  let fq := hash_to_quotient qf hash in
  let fr := hash_to_remainder qf hash in
  let T_fq := get_elem qf fq in
  if negb (is_occupied T_fq) then Some false
  else
    s ← find_run_index qf fq;
    scan_run (steps qf) qf fr s.

(** ** Removal *)

(** The loop of [delete_entry]; [curr] is the element that was in [s]. *)
Fixpoint delete_loop (fuel : nat) (qf : quotient_filter) (s sp orig quot curr : Z) : option quotient_filter :=
  match fuel with
  | O => None
  | S fuel =>
      let next := get_elem qf sp in
      let curr_occupied := is_occupied curr in
      if is_empty_element next || is_cluster_start next || (sp =? orig) then Some (set_elem qf s 0)
      else
        p ← (if is_run_start next then
               quot ← next_occupied (steps qf) qf quot;
               Some (quot, if curr_occupied && (quot =? s) then clr_shifted next else next)
             else Some (quot, next));
        let '(quot, updated_next) := p in
        let qf := set_elem qf s (if curr_occupied then set_occupied updated_next else clr_occupied updated_next) in
        delete_loop fuel qf sp (incr qf sp) orig quot next
  end.

Definition delete_entry (qf : quotient_filter) (s quot : Z) : option quotient_filter :=
  delete_loop (steps qf) qf s (incr qf s) s quot (get_elem qf s).

(** The loop that finds the entry to remove: [None] inside when the
    remainder is not in the run. *)
Fixpoint find_remainder (fuel : nat) (qf : quotient_filter) (fr s : Z) : option (option Z) :=
  match fuel with
  | O => None
  | S fuel =>
      let rem := get_remainder (get_elem qf s) in
      if rem =? fr then Some (Some s)
      else if fr <? rem then Some None
      else
        let s := incr qf s in
        if is_continuation (get_elem qf s) then find_remainder fuel qf fr s else Some None
  end.

Definition qf_remove (qf : quotient_filter) (hash : Z) : option (bool * quotient_filter) :=
  let highbits := Z.shiftr hash (qf_qbits qf + qf_rbits qf) in
  if negb (highbits =? 0) then Some (false, qf)
  else
    let fq := hash_to_quotient qf hash in
    let fr := hash_to_remainder qf hash in
    let T_fq := get_elem qf fq in
    if negb (is_occupied T_fq) || (qf_entries qf =? 0) then Some (true, qf)
    else
      start ← find_run_index qf fq;
      found ← find_remainder (steps qf) qf fr start;
      match found with
      | None => Some (true, qf)
      | Some s =>
          let kill := if s =? fq then T_fq else get_elem qf s in
          let replace_run_start := is_run_start kill in
          let qf :=
            if replace_run_start && negb (is_continuation (get_elem qf (incr qf s)))
            then set_elem qf fq (clr_occupied T_fq) else qf in
          qf ← delete_entry qf s fq;
          let qf :=
            if replace_run_start then
              let next := get_elem qf s in
              let updated_next := if is_continuation next then clr_continuation next else next in
              let updated_next :=
                if (s =? fq) && is_run_start updated_next then clr_shifted updated_next else updated_next in
              if negb (updated_next =? next) then set_elem qf s updated_next else qf
            else qf in
          Some (true, with_entries qf (u32 (qf_entries qf - 1)))
      end.

(** ** Iteration and merging *)

Record qf_iterator := mk_qfi { qfi_index : Z; qfi_quotient : Z; qfi_visited : Z }.

Fixpoint find_cluster (fuel : nat) (qf : quotient_filter) (start : Z) : Z :=
  match fuel with
  | O => start
  | S fuel => if is_cluster_start (get_elem qf start) then start else find_cluster fuel qf (start + 1)
  end.

(** [i] is the iterator as it was before; the quotient is left alone. *)
Definition qfi_start (qf : quotient_filter) (i : qf_iterator) : qf_iterator :=
  if qf_entries qf =? 0 then mk_qfi (qfi_index i) (qfi_quotient i) (qf_entries qf)
  else mk_qfi (find_cluster (steps qf) qf 0) (qfi_quotient i) 0.

Definition qfi_done (qf : quotient_filter) (i : qf_iterator) : bool := qf_entries qf =? qfi_visited i.

(** [None] also where the code aborts. *)
Fixpoint qfi_next (fuel : nat) (qf : quotient_filter) (i : qf_iterator) : option (Z * qf_iterator) :=
  match fuel with
  | O => None
  | S fuel =>
      if qfi_done qf i then None
      else
        let elt := get_elem qf (qfi_index i) in
        quot ← (if is_cluster_start elt then Some (qfi_index i)
                else if is_run_start elt then next_occupied (steps qf) qf (qfi_quotient i)
                else Some (qfi_quotient i));
        let index := incr qf (qfi_index i) in
        if negb (is_empty_element elt) then
          Some (Z.lor (u64 (Z.shiftl quot (qf_rbits qf))) (get_remainder elt), mk_qfi index quot (u64 (qfi_visited i + 1)))
        else qfi_next fuel qf (mk_qfi index quot (qfi_visited i))
  end.

(** [while(!qfi_done(qf, &qfi)) qf_insert(qfout, qfi_next(qf, &qfi));] *)
Fixpoint copy_into (fuel : nat) (qf qfout : quotient_filter) (i : qf_iterator) : option quotient_filter :=
  if qfi_done qf i then Some qfout
  else
    match fuel with
    | O => None
    | S fuel =>
        p ← qfi_next (S (steps qf)) qf i;
        ins ← qf_insert qfout p.1;
        copy_into fuel qf ins.2 p.2
    end.

(** [None] inside when the code returns false. *)
Definition qf_merge (qf1 qf2 : quotient_filter) (qfi : qf_iterator) : option (option quotient_filter) :=
  let q := 1 + Z.max (qf_qbits qf1) (qf_qbits qf2) in
  let r := Z.max (qf_rbits qf1) (qf_rbits qf2) in
  match qf_init q r with
  | None => Some None
  | Some qfout =>
      qfout ← copy_into (steps qf1) qf1 qfout (qfi_start qf1 qfi);
      qfout ← copy_into (steps qf2) qf2 qfout (qfi_start qf2 qfi);
      Some (Some qfout)
  end.

(** ** Clearing, and the C++ wrapper *)

(** [memset] of the first [n] bytes of the table. *)
Definition clear_bytes (n : Z) (table : list Z) : list Z :=
  imap (fun i w => let k := Z.min 64 (Z.max 0 (8 * (n - 8 * Z.of_nat i))) in Z.land w (Z.lnot (Z.ones k))) table.

Definition qf_clear (qf : quotient_filter) : quotient_filter :=
  with_table (with_entries qf 0) (clear_bytes (qf_table_size (qf_qbits qf) (qf_rbits qf)) (qf_table qf)).

Module qf_wrapper.
(** [quotient_filter::make] *)
Definition make (q r : Z) : expected quotient_filter :=
  match qf_init q r with
  | None => Err (generic_error "Could not initialize the QF. q+r should be <= 64; also, check the memory")
  | Some qf => Ok qf
  end.

Definition data_as_byte_span (qf : quotient_filter) : bytes := mjoin (le_encode 8 <$> qf_table qf).

(** The bytes of the structure; [pad] is the byte of padding after
    [qf_elem_bits] and [ptr] the value of the table pointer. *)
Definition header_as_byte_span (qf : quotient_filter) (pad ptr : Z) : bytes :=
  [qf_qbits qf; qf_rbits qf; qf_elem_bits qf; pad] ++ le_encode 4 (qf_entries qf) ++
  le_encode 8 (qf_index_mask qf) ++ le_encode 8 (qf_rmask qf) ++ le_encode 8 (qf_elem_mask qf) ++
  le_encode 8 (qf_max_size qf) ++ le_encode 8 ptr.

(** The words stored in [n] bytes each 8 long. *)
Fixpoint words_of (n : nat) (bs : bytes) : list Z :=
  match n with
  | O => []
  | S n => le_decode (take 8 bs) :: words_of n (drop 8 bs)
  end.

(** [quotient_filter::load]: [header] and [table] are what the two pointers
    point at. *)
Definition load (header table : bytes) (table_size : Z) : expected quotient_filter :=
  let byte i := default 0 (header !! i) in
  let field off n := le_decode (read_at header off n) in
  let raw_qf := mk_qf (byte 0%nat) (byte 1%nat) (byte 2%nat) (field 4%nat 4%nat) (field 8%nat 8%nat)
    (field 16%nat 8%nat) (field 24%nat 8%nat) (field 32%nat 8%nat) [] in
  let actual_size := qf_allocated_size raw_qf in
  if negb (actual_size =? table_size) then Err (generic_error "quotient_filter::load: table size mismatch")
  else Ok (with_table raw_qf (words_of (Z.to_nat (actual_size / 8)) table)).
End qf_wrapper.

(** ** The packed table is an array *)

Lemma LOW_MASK_ones n : 0 <= n < 64 -> LOW_MASK n = Z.ones n.
Proof.
  intros Hn. unfold LOW_MASK. rewrite Z.shiftl_1_l, Z.ones_equiv.
  assert (0 < 2 ^ n) by (apply Z.pow_pos_nonneg; lia).
  assert (2 ^ n < 2 ^ 64) by (apply Z.pow_lt_mono_r; lia).
  rewrite wrap_small; lia.
Qed.

Lemma testbit_u64 x i : Z.testbit (u64 x) i = (i <? 64) && Z.testbit x i.
Proof.
  unfold wrap. destruct (Z.ltb_spec i 64); [by apply Z.mod_pow2_bits_low|].
  apply Z.mod_pow2_bits_high. lia.
Qed.

Lemma testbit_ones n i : 0 <= n -> Z.testbit (Z.ones n) i = (0 <=? i) && (i <? n).
Proof. intros. by apply Z.testbit_ones. Qed.

Lemma testbit_word w i : 0 <= w < 2 ^ 64 -> 64 <= i -> Z.testbit w i = false.
Proof. intros. apply (testbit_small w 64); lia. Qed.

(** The shape of a filter with [2^q] slots of [r+3] bits. *)
Record qf_wf (q r : Z) (qf : quotient_filter) : Prop := {
  wf_q : 0 < q <= 32;
  wf_r : 0 < r <= 60;
  wf_qbits : qf_qbits qf = q;
  wf_rbits : qf_rbits qf = r;
  wf_elem_bits : qf_elem_bits qf = r + 3;
  wf_index_mask : qf_index_mask qf = Z.ones q;
  wf_rmask : qf_rmask qf = Z.ones r;
  wf_elem_mask : qf_elem_mask qf = Z.ones (r + 3);
  wf_max_size : qf_max_size qf = 2 ^ q;
  wf_length : (r + 3) * 2 ^ q <= 64 * Z.of_nat (length (qf_table qf));
  wf_words : Forall (fun w => 0 <= w < 2 ^ 64) (qf_table qf);
  wf_alloc : qf_allocated_size qf = 8 * Z.of_nat (length (qf_table qf));
}.

(** Bit [k] of the table. *)
Definition tbit (table : list Z) (k : Z) : bool := Z.testbit (word table (k / 64)) (k mod 64).

Lemma word_range table i : Forall (fun w => 0 <= w < 2 ^ 64) table -> 0 <= word table i < 2 ^ 64.
Proof.
  intros H. unfold word. destruct (table !! Z.to_nat i) eqn:E; [|done].
  rewrite Forall_lookup in H. by eapply H.
Qed.

Lemma word_update table i j f :
  0 <= i -> 0 <= j -> i < Z.of_nat (length table) ->
  word (update_word table i f) j = if j =? i then f (word table i) else word table j.
Proof.
  intros Hi Hj Hl. unfold word, update_word. destruct (Z.eqb_spec j i) as [->|Hne].
  - rewrite list_lookup_alter_eq.
    destruct (lookup_lt_is_Some_2 table (Z.to_nat i)) as [w ->]; [lia|done].
  - rewrite list_lookup_alter_ne by lia. done.
Qed.

(** A bit position past a word boundary. *)
Lemma bit_split bp j : 0 <= bp -> 0 <= j < 128 - bp mod 64 ->
  (bp + j) / 64 = (if bp mod 64 + j <? 64 then bp / 64 else bp / 64 + 1) /\
  (bp + j) mod 64 = (if bp mod 64 + j <? 64 then bp mod 64 + j else bp mod 64 + j - 64).
Proof.
  intros Hbp Hj. destruct (Z.ltb_spec (bp mod 64 + j) 64); Z.div_mod_to_equations; lia.
Qed.

Section packed.
Context (q r : Z) (qf : quotient_filter) (Hwf : qf_wf q r qf).
Local Abbreviation eb := (r + 3).

Lemma bitpos_small idx : 0 <= idx < 2 ^ q -> u64 (eb * idx) = eb * idx /\ 0 <= eb * idx /\ eb * idx + eb <= eb * 2 ^ q.
Proof.
  intros Hi. destruct Hwf as [Hq Hr _ _ _ _ _ _ _ _ _].
  assert (2 ^ q <= 2 ^ 32) by (apply Z.pow_le_mono_r; lia).
  assert (0 <= eb * idx) by nia. assert (eb * idx + eb <= eb * 2 ^ q) by nia.
  split; [|done]. apply wrap_small. change (2 ^ 64) with (2 ^ 32 * 2 ^ 32). nia.
Qed.

Lemma get_elem_bits idx j : 0 <= idx < 2 ^ q -> 0 <= j ->
  Z.testbit (get_elem qf idx) j = (j <? eb) && tbit (qf_table qf) (eb * idx + j).
Proof.
  intros Hi Hj. destruct (bitpos_small idx Hi) as (Hu & H0 & _).
  pose proof Hwf as [Hq Hr _ _ He _ _ Hm _ _ Hw]. unfold get_elem. rewrite He, Hm, Hu.
  set (bp := eb * idx) in *. pose proof (Z.mod_pos_bound bp 64 ltac:(lia)).
  pose proof (word_range (qf_table qf) (bp / 64) Hw) as Hw1.
  destruct (Z.ltb_spec j eb) as [Hje|Hje]; cbn [andb].
  - destruct (bit_split bp j) as [Hd Hmod]; [lia|lia|]. unfold tbit. rewrite Hd, Hmod.
    destruct (Z.ltb_spec 0 (bp mod 64 + eb - 64)).
    + rewrite Z.lor_spec, Z.land_spec, testbit_u64, Z.shiftr_spec, Z.shiftl_spec, Z.land_spec, testbit_ones by lia.
      rewrite LOW_MASK_ones, testbit_ones by lia.
      rewrite (proj2 (Z.leb_le 0 j)), (proj2 (Z.ltb_lt j eb)), (proj2 (Z.ltb_lt j 64)) by lia.
      rewrite (Z.add_comm j). cbn [andb]. rewrite andb_true_r.
      destruct (Z.ltb_spec (bp mod 64 + j) 64).
      * rewrite (Z.testbit_neg_r _ (j - (eb - (bp mod 64 + eb - 64)))) by lia. by rewrite andb_false_l, orb_false_r.
      * rewrite testbit_word by done. replace (j - (eb - (bp mod 64 + eb - 64))) with (bp mod 64 + j - 64) by lia.
        rewrite (proj2 (Z.leb_le 0 _)), (proj2 (Z.ltb_lt _ (bp mod 64 + eb - 64))) by lia. by rewrite !andb_true_r.
    + rewrite Z.land_spec, Z.shiftr_spec, testbit_ones by lia.
      rewrite (proj2 (Z.leb_le 0 j)), (proj2 (Z.ltb_lt j eb)), (proj2 (Z.ltb_lt (bp mod 64 + j) 64)) by lia.
      rewrite (Z.add_comm j). cbn [andb]. by rewrite andb_true_r.
  - destruct (Z.ltb_spec 0 (bp mod 64 + eb - 64)).
    + rewrite Z.lor_spec, Z.land_spec, testbit_u64, Z.shiftl_spec, Z.land_spec, testbit_ones by lia.
      rewrite LOW_MASK_ones, testbit_ones by lia.
      rewrite (proj2 (Z.ltb_ge j eb)), (proj2 (Z.ltb_ge _ (bp mod 64 + eb - 64))) by lia. by rewrite !andb_false_r.
    + rewrite Z.land_spec, testbit_ones by lia. rewrite (proj2 (Z.ltb_ge j eb)) by lia. by rewrite !andb_false_r.
Qed.

Lemma word_set_elem idx elt i : 0 <= idx < 2 ^ q -> 0 <= i ->
  let bp := eb * idx in
  let e := Z.land elt (Z.ones eb) in
  word (qf_table (set_elem qf idx elt)) i =
    if i =? bp / 64 then
      Z.lor (Z.land (word (qf_table qf) i) (Z.lnot (u64 (Z.shiftl (Z.ones eb) (bp mod 64)))))
        (u64 (Z.shiftl e (bp mod 64)))
    else if (i =? bp / 64 + 1) && (64 <? bp mod 64 + eb) then
      Z.lor (Z.land (word (qf_table qf) i) (Z.lnot (Z.ones (bp mod 64 + eb - 64))))
        (Z.shiftr e (64 - bp mod 64))
    else word (qf_table qf) i.
Proof.
  intros Hi Hi0. cbv zeta. destruct (bitpos_small idx Hi) as (Hu & H0 & Hb).
  pose proof Hwf as [Hq Hr _ _ He _ _ Hm _ Hl Hw]. unfold set_elem. rewrite He, Hm, Hu.
  set (bp := eb * idx) in *. pose proof (Z.mod_pos_bound bp 64 ltac:(lia)).
  pose proof (Z.div_mod bp 64 ltac:(lia)) as Hdm. cbn [with_table qf_table].
  assert (bp / 64 < Z.of_nat (length (qf_table qf))) by lia. assert (0 <= bp / 64) by (apply Z.div_pos; lia).
  destruct (Z.ltb_spec 0 (bp mod 64 + eb - 64)) as [Hs|Hs].
  - rewrite (proj2 (Z.ltb_lt 64 _)) by lia.
    assert (bp / 64 + 1 < Z.of_nat (length (qf_table qf))) by lia.
    rewrite !word_update by (unfold update_word; rewrite ?length_alter; lia).
    rewrite LOW_MASK_ones by lia. replace (eb - (bp mod 64 + eb - 64)) with (64 - bp mod 64) by lia.
    rewrite ?Z.eqb_refl, ?(proj2 (Z.eqb_neq (bp / 64 + 1) (bp / 64))) by lia.
    destruct (Z.eqb_spec i (bp / 64)) as [E1|E1]; destruct (Z.eqb_spec i (bp / 64 + 1)) as [E2|E2];
      try lia; by rewrite ?E1, ?E2.
  - rewrite (proj2 (Z.ltb_ge 64 _)), andb_false_r by lia.
    rewrite !word_update by (unfold update_word; rewrite ?length_alter; lia).
    destruct (Z.eqb_spec i (bp / 64)) as [->|]; by rewrite ?Z.eqb_refl.
Qed.

Lemma set_elem_bits idx elt k : 0 <= idx < 2 ^ q -> 0 <= k ->
  tbit (qf_table (set_elem qf idx elt)) k =
    if (eb * idx <=? k) && (k <? eb * idx + eb) then Z.testbit elt (k - eb * idx) else tbit (qf_table qf) k.
Proof.
  intros Hi Hk. unfold tbit. assert (0 <= k / 64) by (apply Z.div_pos; lia).
  rewrite word_set_elem by done. destruct (bitpos_small idx Hi) as (_ & H0 & _).
  pose proof (wf_r _ _ _ Hwf) as Hr. set (bp := eb * idx) in *.
  pose proof (Z.mod_pos_bound bp 64 ltac:(lia)). pose proof (Z.mod_pos_bound k 64 ltac:(lia)).
  pose proof (Z.div_mod bp 64 ltac:(lia)). pose proof (Z.div_mod k 64 ltac:(lia)) as Hkd.
  destruct (Z.eqb_spec (k / 64) (bp / 64)) as [E|E].
  - rewrite Z.lor_spec, Z.land_spec, Z.lnot_spec, !testbit_u64, !Z.shiftl_spec, Z.land_spec, testbit_ones by lia.
    rewrite (proj2 (Z.ltb_lt (k mod 64) 64)) by lia. cbn [andb].
    replace (k - bp) with (k mod 64 - bp mod 64) by lia.
    destruct (Z.leb_spec bp k) as [Hle|Hle].
    + rewrite (proj2 (Z.leb_le 0 (k mod 64 - bp mod 64))) by lia. cbn [andb].
      destruct (Z.ltb_spec k (bp + eb)).
      * rewrite (proj2 (Z.ltb_lt _ eb)) by lia. cbn [negb]. by rewrite andb_false_r, andb_true_r.
      * rewrite (proj2 (Z.ltb_ge _ eb)) by lia. cbn [negb]. by rewrite andb_true_r, andb_false_r, orb_false_r.
    + rewrite (proj2 (Z.leb_gt 0 (k mod 64 - bp mod 64))) by lia. cbn [andb negb].
      by rewrite andb_true_r, andb_false_r, orb_false_r.
  - destruct ((k / 64 =? bp / 64 + 1) && (64 <? bp mod 64 + eb)) eqn:E2.
    + apply andb_true_iff in E2 as [E2%Z.eqb_eq Hs%Z.ltb_lt].
      rewrite Z.lor_spec, Z.land_spec, Z.lnot_spec, Z.shiftr_spec, Z.land_spec, !testbit_ones by lia.
      rewrite (proj2 (Z.leb_le bp k)), (proj2 (Z.leb_le 0 (k mod 64))) by lia. cbn [andb].
      replace (k - bp) with (k mod 64 + (64 - bp mod 64)) by lia.
      destruct (Z.ltb_spec k (bp + eb)).
      * rewrite (proj2 (Z.ltb_lt (k mod 64) _)), (proj2 (Z.leb_le 0 _)), (proj2 (Z.ltb_lt _ eb)) by lia.
        cbn [negb andb]. by rewrite andb_false_r, andb_true_r.
      * rewrite (proj2 (Z.ltb_ge (k mod 64) _)), (proj2 (Z.ltb_ge _ eb)) by lia. cbn [negb].
        by rewrite andb_true_r, !andb_false_r, orb_false_r.
    + destruct ((bp <=? k) && (k <? bp + eb)) eqn:E3; [|done]. exfalso.
      apply andb_true_iff in E3 as [E3%Z.leb_le E4%Z.ltb_lt].
      apply andb_false_iff in E2 as [E2%Z.eqb_neq|E2%Z.ltb_ge]; nia.
Qed.

Lemma update_word_range table i f :
  Forall (fun w => 0 <= w < 2 ^ 64) table -> (forall w, 0 <= w < 2 ^ 64 -> 0 <= f w < 2 ^ 64) ->
  Forall (fun w => 0 <= w < 2 ^ 64) (update_word table i f).
Proof. intros H Hf. unfold update_word. apply Forall_alter; [done|]. intros w _ Hw. by apply Hf. Qed.

Lemma land_range x y n : 0 <= n -> 0 <= x < 2 ^ n -> 0 <= Z.land x y < 2 ^ n.
Proof.
  intros Hn Hx. rewrite <- (Z.mod_small x (2 ^ n)) by done. rewrite <- Z.land_ones by done.
  rewrite <- Z.land_assoc, (Z.land_comm (Z.ones n)), Z.land_assoc, Z.land_ones by done.
  apply Z.mod_pos_bound. lia.
Qed.

Lemma lor_range x y n : 0 <= n -> 0 <= x < 2 ^ n -> 0 <= y < 2 ^ n -> 0 <= Z.lor x y < 2 ^ n.
Proof.
  intros Hn Hx Hy. rewrite <- (Z.mod_small x (2 ^ n)), <- (Z.mod_small y (2 ^ n)) by done.
  rewrite <- !Z.land_ones, <- Z.land_lor_distr_l, Z.land_ones by done. apply Z.mod_pos_bound. lia.
Qed.

Lemma set_elem_wf idx elt : qf_wf q r (set_elem qf idx elt).
Proof.
  pose proof Hwf as [Hq Hr H1 H2 He H4 H5 Hm H7 Hl Hw Ha].
  split; cbn [set_elem with_table qf_qbits qf_rbits qf_elem_bits qf_index_mask qf_rmask qf_elem_mask qf_max_size qf_table];
    try done.
  - unfold update_word. destruct (0 <? _); rewrite !length_alter; done.
  - rewrite He, Hm. set (bp := u64 (eb * idx)). pose proof (Z.mod_pos_bound bp 64 ltac:(lia)).
    assert (0 <= Z.land elt (Z.ones eb) < 2 ^ eb) as Hel
      by (rewrite Z.land_ones by lia; apply Z.mod_pos_bound; apply Z.pow_pos_nonneg; lia).
    assert (2 ^ eb <= 2 ^ 64) by (apply Z.pow_le_mono_r; lia).
    assert (0 <= Z.shiftr (Z.land elt (Z.ones eb)) (eb - (bp mod 64 + eb - 64)) < 2 ^ 64) as Hsh.
    { rewrite Z.shiftr_div_pow2 by lia. split; [apply Z.div_pos; [lia|apply Z.pow_pos_nonneg; lia]|].
      apply Z.div_lt_upper_bound; [apply Z.pow_pos_nonneg; lia|].
      assert (0 < 2 ^ (eb - (bp mod 64 + eb - 64))) by (apply Z.pow_pos_nonneg; lia). nia. }
    destruct (0 <? _); repeat apply update_word_range; try done; intros w Hw2;
      first [by apply land_range | apply lor_range; try done; by apply wrap_range].
  - transitivity (qf_allocated_size qf); [reflexivity|]. rewrite Ha.
    unfold update_word. destruct (0 <? _); rewrite !length_alter; done.
Qed.

Lemma get_elem_range idx : 0 <= idx < 2 ^ q -> 0 <= get_elem qf idx < 2 ^ eb.
Proof.
  intros Hi. pose proof (wf_r _ _ _ Hwf) as Hr.
  replace (get_elem qf idx) with (Z.land (get_elem qf idx) (Z.ones eb)).
  - rewrite Z.land_ones by lia. apply Z.mod_pos_bound. apply Z.pow_pos_nonneg; lia.
  - apply Z.bits_inj'. intros j Hj. rewrite Z.land_spec, get_elem_bits, testbit_ones by lia.
    rewrite (proj2 (Z.leb_le 0 j)) by done. cbn [andb]. destruct (j <? eb); [by rewrite andb_true_r|done].
Qed.
End packed.

(** Reading a slot after writing one. *)
Lemma get_set_elem q r qf i j elt :
  qf_wf q r qf -> 0 <= i < 2 ^ q -> 0 <= j < 2 ^ q -> 0 <= elt < 2 ^ (r + 3) ->
  get_elem (set_elem qf i elt) j = if j =? i then elt else get_elem qf j.
Proof.
  intros Hwf Hi Hj Helt. pose proof (wf_r _ _ _ Hwf) as Hr. apply Z.bits_inj'. intros k Hk.
  rewrite (get_elem_bits q r) by (done || by apply set_elem_wf).
  destruct (Z.ltb_spec k (r + 3)) as [Hlt|Hge]; cbn [andb].
  - rewrite (set_elem_bits q r) by (done || nia).
    destruct (Z.eqb_spec j i) as [->|Hne].
    + rewrite (proj2 (Z.leb_le _ _)), (proj2 (Z.ltb_lt _ _)) by lia. cbn [andb]. f_equal. lia.
    + rewrite (get_elem_bits q r) by done. rewrite (proj2 (Z.ltb_lt k (r + 3))) by lia. cbn [andb].
      destruct (Z.leb_spec ((r + 3) * i) ((r + 3) * j + k)); cbn [andb]; [|done].
      rewrite (proj2 (Z.ltb_ge _ _)); [done|nia].
  - destruct (Z.eqb_spec j i) as [->|Hne].
    + symmetry. apply (testbit_small _ (r + 3)); lia.
    + rewrite (get_elem_bits q r) by done. by rewrite (proj2 (Z.ltb_ge k (r + 3))) by lia.
Qed.

(** ** The bits of an element, observed *)

Create Rewrite HintDb qf.

Lemma land_pow2_test x k : 0 <= k -> negb (Z.land x (2 ^ k) =? 0) = Z.testbit x k.
Proof.
  intros Hk. destruct (Z.testbit x k) eqn:E.
  - rewrite (proj2 (Z.eqb_neq _ _)); [done|]. intros H. apply (f_equal (fun y => Z.testbit y k)) in H.
    rewrite Z.land_spec, Z.pow2_bits_true, E, Z.bits_0 in H by done. done.
  - rewrite (proj2 (Z.eqb_eq _ _)); [done|]. apply Z.bits_inj'. intros j Hj.
    rewrite Z.land_spec, Z.bits_0. destruct (Z.eq_dec j k) as [->|]; [by rewrite E|].
    rewrite Z.pow2_bits_false by lia. apply andb_false_r.
Qed.

Lemma is_occupied_bit x : is_occupied x = Z.testbit x 0.
Proof. by apply (land_pow2_test x 0). Qed.
Lemma is_continuation_bit x : is_continuation x = Z.testbit x 1.
Proof. by apply (land_pow2_test x 1). Qed.
Lemma is_shifted_bit x : is_shifted x = Z.testbit x 2.
Proof. by apply (land_pow2_test x 2). Qed.

Lemma is_empty_bits x : is_empty_element x = negb (is_occupied x || is_continuation x || is_shifted x).
Proof.
  rewrite is_occupied_bit, is_continuation_bit, is_shifted_bit. unfold is_empty_element.
  destruct (Z.testbit x 0 || Z.testbit x 1 || Z.testbit x 2) eqn:E; cbn [negb].
  - apply Z.eqb_neq. intros H.
    assert (forall k, Z.testbit 7 k = true -> Z.testbit x k = false) as Hk.
    { intros k H7. apply (f_equal (fun y => Z.testbit y k)) in H. rewrite Z.land_spec, H7, Z.bits_0, andb_true_r in H. done. }
    by rewrite !Hk in E by done.
  - apply orb_false_iff in E as [[E0 E1]%orb_false_iff E2]. apply Z.eqb_eq. apply Z.bits_inj'. intros j Hj.
    rewrite Z.land_spec, Z.bits_0. destruct (decide (j < 3)).
    + assert (j = 0 \/ j = 1 \/ j = 2) as [->|[->| ->]] by lia; by rewrite ?E0, ?E1, ?E2.
    + rewrite (testbit_small 7 3) by lia. apply andb_false_r.
Qed.

(** Evaluates the bits of the masks. *)
Ltac qf_elem_solve :=
  intros; rewrite ?is_occupied_bit, ?is_continuation_bit, ?is_shifted_bit;
  unfold set_occupied, clr_occupied, set_continuation, clr_continuation, set_shifted, clr_shifted, get_remainder;
  rewrite ?Z.lor_spec, ?Z.land_spec, ?Z.shiftr_lor, ?Z.shiftr_land;
  repeat match goal with
  | |- context [Z.testbit ?c ?k] =>
      let v := eval vm_compute in (Z.testbit c k) in
      first [constr_eq v true | constr_eq v false]; change (Z.testbit c k) with v
  | |- context [Z.shiftr ?c 3] =>
      let v := eval vm_compute in (Z.shiftr c 3) in
      first [constr_eq v 0 | constr_eq v (-1)]; change (Z.shiftr c 3) with v
  end;
  rewrite ?orb_false_r, ?orb_true_r, ?andb_true_r, ?andb_false_r, ?Z.lor_0_r, ?Z.land_m1_r; reflexivity.

Lemma occupied_set_occupied x : is_occupied (set_occupied x) = true. Proof. qf_elem_solve. Qed.
Lemma occupied_clr_occupied x : is_occupied (clr_occupied x) = false. Proof. qf_elem_solve. Qed.
Lemma occupied_set_continuation x : is_occupied (set_continuation x) = is_occupied x. Proof. qf_elem_solve. Qed.
Lemma occupied_clr_continuation x : is_occupied (clr_continuation x) = is_occupied x. Proof. qf_elem_solve. Qed.
Lemma occupied_set_shifted x : is_occupied (set_shifted x) = is_occupied x. Proof. qf_elem_solve. Qed.
Lemma occupied_clr_shifted x : is_occupied (clr_shifted x) = is_occupied x. Proof. qf_elem_solve. Qed.
Lemma continuation_set_occupied x : is_continuation (set_occupied x) = is_continuation x. Proof. qf_elem_solve. Qed.
Lemma continuation_clr_occupied x : is_continuation (clr_occupied x) = is_continuation x. Proof. qf_elem_solve. Qed.
Lemma continuation_set_continuation x : is_continuation (set_continuation x) = true. Proof. qf_elem_solve. Qed.
Lemma continuation_clr_continuation x : is_continuation (clr_continuation x) = false. Proof. qf_elem_solve. Qed.
Lemma continuation_set_shifted x : is_continuation (set_shifted x) = is_continuation x. Proof. qf_elem_solve. Qed.
Lemma continuation_clr_shifted x : is_continuation (clr_shifted x) = is_continuation x. Proof. qf_elem_solve. Qed.
Lemma shifted_set_occupied x : is_shifted (set_occupied x) = is_shifted x. Proof. qf_elem_solve. Qed.
Lemma shifted_clr_occupied x : is_shifted (clr_occupied x) = is_shifted x. Proof. qf_elem_solve. Qed.
Lemma shifted_set_continuation x : is_shifted (set_continuation x) = is_shifted x. Proof. qf_elem_solve. Qed.
Lemma shifted_clr_continuation x : is_shifted (clr_continuation x) = is_shifted x. Proof. qf_elem_solve. Qed.
Lemma shifted_set_shifted x : is_shifted (set_shifted x) = true. Proof. qf_elem_solve. Qed.
Lemma shifted_clr_shifted x : is_shifted (clr_shifted x) = false. Proof. qf_elem_solve. Qed.
Lemma remainder_set_occupied x : get_remainder (set_occupied x) = get_remainder x. Proof. qf_elem_solve. Qed.
Lemma remainder_clr_occupied x : get_remainder (clr_occupied x) = get_remainder x. Proof. qf_elem_solve. Qed.
Lemma remainder_set_continuation x : get_remainder (set_continuation x) = get_remainder x. Proof. qf_elem_solve. Qed.
Lemma remainder_clr_continuation x : get_remainder (clr_continuation x) = get_remainder x. Proof. qf_elem_solve. Qed.
Lemma remainder_set_shifted x : get_remainder (set_shifted x) = get_remainder x. Proof. qf_elem_solve. Qed.
Lemma remainder_clr_shifted x : get_remainder (clr_shifted x) = get_remainder x. Proof. qf_elem_solve. Qed.

#[export] Hint Rewrite occupied_set_occupied occupied_clr_occupied occupied_set_continuation
  occupied_clr_continuation occupied_set_shifted occupied_clr_shifted continuation_set_occupied
  continuation_clr_occupied continuation_set_continuation continuation_clr_continuation
  continuation_set_shifted continuation_clr_shifted shifted_set_occupied shifted_clr_occupied
  shifted_set_continuation shifted_clr_continuation shifted_set_shifted shifted_clr_shifted
  remainder_set_occupied remainder_clr_occupied remainder_set_continuation remainder_clr_continuation
  remainder_set_shifted remainder_clr_shifted : qf.

Section element_ranges.
Context (r : Z) (Hr : 0 < r).
Local Abbreviation in_range x := (0 <= x < 2 ^ (r + 3)).

Lemma set_mask_range x m : in_range x -> 0 <= m < 8 -> in_range (Z.lor x m).
Proof.
  intros Hx Hm. apply lor_range; [lia|done|]. assert (2 ^ 3 <= 2 ^ (r + 3)) by (apply Z.pow_le_mono_r; lia). lia.
Qed.

Lemma set_occupied_range x : in_range x -> in_range (set_occupied x).
Proof. intros. by apply set_mask_range. Qed.
Lemma set_continuation_range x : in_range x -> in_range (set_continuation x).
Proof. intros. by apply set_mask_range. Qed.
Lemma set_shifted_range x : in_range x -> in_range (set_shifted x).
Proof. intros. by apply set_mask_range. Qed.
Lemma clr_occupied_range x : in_range x -> in_range (clr_occupied x).
Proof. intros. apply land_range; [lia|done]. Qed.
Lemma clr_continuation_range x : in_range x -> in_range (clr_continuation x).
Proof. intros. apply land_range; [lia|done]. Qed.
Lemma clr_shifted_range x : in_range x -> in_range (clr_shifted x).
Proof. intros. apply land_range; [lia|done]. Qed.

(** The entry of a new fingerprint. *)
Lemma new_entry fr : 0 <= fr < 2 ^ r -> r <= 60 ->
  let e := Z.land (u64 (Z.shiftl fr 3)) (Z.lnot 7) in
  in_range e /\ is_occupied e = false /\ is_continuation e = false /\ is_shifted e = false /\ get_remainder e = fr.
Proof.
  intros Hfr Hr60. cbv zeta.
  assert (Z.land (u64 (Z.shiftl fr 3)) (Z.lnot 7) = fr * 8) as ->.
  { assert (2 ^ r <= 2 ^ 60) by (apply Z.pow_le_mono_r; lia).
    rewrite wrap_small by (rewrite Z.shiftl_mul_pow2 by lia; change (2 ^ 64) with (2 ^ 60 * 16); lia).
    apply Z.bits_inj'. intros j Hj. rewrite Z.land_spec, Z.lnot_spec, Z.shiftl_spec by lia.
    change (fr * 8) with (fr * 2 ^ 3). rewrite <- Z.shiftl_mul_pow2, Z.shiftl_spec by lia.
    destruct (decide (j < 3)); [by rewrite Z.testbit_neg_r by lia|].
    rewrite (testbit_small 7 3) by lia. apply andb_true_r. }
  rewrite is_occupied_bit, is_continuation_bit, is_shifted_bit. unfold get_remainder.
  change (fr * 8) with (fr * 2 ^ 3). rewrite <- (Z.shiftl_mul_pow2 fr 3) by lia.
  rewrite !Z.shiftl_spec, !(Z.testbit_neg_r fr) by lia. rewrite Z.shiftr_shiftl_l, Z.shiftl_0_r by lia.
  split; [|done]. rewrite Z.shiftl_mul_pow2, Z.pow_add_r by lia. lia.
Qed.
End element_ranges.
