(* ===== verification/QfLayout.v ===== *)
(** * Layouts of a quotient filter

    The abstract state behind the table of QuotientFilter: which slot
    stores which fingerprint. Slots are numbered by all integers, with the
    period of the table, so that the circular table has no seam. A slot is
    free or stores the distance [d] from the slot its fingerprint belongs
    to and the remainder. One local condition relates neighbouring slots;
    that runs are contiguous, sorted and in the order of their quotients
    follows from it. *)

From stdpp Require Import base list numbers option.
From Stdlib Require Import ZArith Lia.
From S2P Require Import Prelude.

Local Open Scope Z_scope.

Abbreviation slots_t := (Z -> option (Z * Z)).

Section layout.
Context (N : Z).

(** [d] is 0, or the slot before is in use and its fingerprint is smaller:
    its quotient is smaller, or equal with a smaller remainder. *)
Definition step_ok (slot : slots_t) (p d r : Z) : Prop :=
  0 <= d /\
  (d = 0 \/ exists d' r', slot (p - 1) = Some (d', r') /\ d <= d' + 1 /\ (d = d' + 1 -> r' < r)).

Record layout (slot : slots_t) : Prop := {
  lay_period : forall p, slot (p + N) = slot p;
  lay_step : forall p d r, slot p = Some (d, r) -> step_ok slot p d r;
  lay_free : exists e, slot e = None;
}.

(** The fingerprint with quotient [fq] and remainder [fr] is stored. *)
Definition holds (slot : slots_t) (fq fr : Z) : Prop := exists p, slot p = Some (p - fq, fr).

Definition occupied (slot : slots_t) (i : Z) : Prop := exists r, holds slot i r.

Definition continuation (slot : slots_t) (i : Z) : bool :=
  match slot i, slot (i - 1) with
  | Some (d, _), Some (d', _) => d =? d' + 1
  | _, _ => false
  end.

Definition shifted (slot : slots_t) (i : Z) : bool :=
  match slot i with Some (d, _) => 0 <? d | None => false end.

Definition filled (slot : slots_t) (a b : Z) : Prop := forall i, a <= i < b -> slot i <> None.

Section facts.
Context (HN : 2 <= N) (slot : slots_t) (Hlay : layout slot).

Lemma slot_period k p : slot (p + k * N) = slot p.
Proof.
  assert (forall n : nat, slot (p + Z.of_nat n * N) = slot p) as Hn.
  { intros n. induction n as [|n IH]; [f_equal; cbn; lia|].
    replace (p + Z.of_nat (S n) * N) with (p + Z.of_nat n * N + N) by lia. by rewrite (lay_period _ Hlay). }
  assert (forall (n : nat) p, slot (p - Z.of_nat n * N) = slot p) as Hn2.
  { intros n. induction n as [|n IH]; intros p'; [f_equal; cbn; lia|].
    rewrite <- (IH p'), <- (lay_period _ Hlay). f_equal. lia. }
  destruct (Z_le_gt_dec 0 k).
  - rewrite <- (Hn (Z.to_nat k)). f_equal. lia.
  - rewrite <- (Hn2 (Z.to_nat (- k)) p). f_equal. lia.
Qed.

Lemma slot_mod p : slot (p mod N) = slot p.
Proof. rewrite <- (slot_period (p / N)). f_equal. pose proof (Z.div_mod p N). lia. Qed.

Lemma slot_cong p p' : p mod N = p' mod N -> slot p = slot p'.
Proof. intros H. by rewrite <- (slot_mod p), H, slot_mod. Qed.

(** Every window of [N] slots has a free one. *)
Lemma free_in_window p : exists e, p <= e < p + N /\ slot e = None.
Proof.
  destruct (lay_free _ Hlay) as [e He]. exists (p + (e - p) mod N).
  pose proof (Z.mod_pos_bound (e - p) N). split; [lia|]. rewrite <- He. apply slot_cong.
  rewrite Zplus_mod_idemp_r. f_equal. lia.
Qed.

(** The first free slot from [p] on. *)
Lemma first_free p : exists f, p <= f < p + N /\ slot f = None /\ filled slot p f.
Proof.
  destruct (free_in_window p) as (e & He & Hs).
  assert (forall (n : nat) p, p <= e -> Z.of_nat n = e - p -> exists f, p <= f <= e /\ slot f = None /\ filled slot p f) as Hn.
  { intros n. induction n as [|n IH]; intros p' Hp Hpn.
    - exists p'. replace p' with e by lia. split_ands; [lia|lia|done|]. intros i Hi. lia.
    - destruct (slot p') eqn:E.
      + destruct (IH (p' + 1)) as (f & Hf & Hf2 & Hf3); [lia|lia|]. exists f. split_ands; [lia|lia|done|].
        intros i Hi. destruct (decide (i = p')) as [->|]; [by rewrite E|apply Hf3; lia].
      + exists p'. split_ands; [lia|lia|done|]. intros i Hi. lia. }
  destruct (Hn (Z.to_nat (e - p)) p) as (f & Hf & Hf2 & Hf3); [lia|lia|]. exists f. split_ands; try done; lia.
Qed.

Lemma step_at p d r : slot p = Some (d, r) -> step_ok slot p d r.
Proof. apply (lay_step _ Hlay). Qed.

Lemma filled_Some a b i : filled slot a b -> a <= i < b -> exists d r, slot i = Some (d, r).
Proof. intros H Hi. specialize (H i Hi). destruct (slot i) as [[d r]|]; [eauto|done]. Qed.

(** From the slot a fingerprint belongs to up to its place nothing is free. *)
Lemma chain_filled_part (m : nat) d r k :
  slot k = Some (d, r) -> Z.of_nat m <= d -> filled slot (k - Z.of_nat m) (k + 1).
Proof.
  revert d r k. induction m as [|m IH]; intros d r k Hk Hm i Hi.
  - replace i with k by lia. by rewrite Hk.
  - destruct (decide (i = k)) as [->|]; [by rewrite Hk|].
    destruct (step_at _ _ _ Hk) as [_ [?|(d' & r' & H' & Hle & _)]]; [lia|].
    apply (IH d' r' (k - 1)); [done|lia|lia].
Qed.

Lemma chain_filled p d r : slot p = Some (d, r) -> filled slot (p - d) (p + 1).
Proof.
  intros H. assert (0 <= d) as Hd by (by destruct (step_at _ _ _ H)).
  pose proof (chain_filled_part (Z.to_nat d) d r p H) as Hf. rewrite Z2Nat.id in Hf by done. by apply Hf.
Qed.

(** Along filled slots the fingerprints increase. *)
Lemma filled_mono a b da ra db rb :
  a <= b -> filled slot a b -> slot a = Some (da, ra) -> slot b = Some (db, rb) ->
  a - da <= b - db /\ (a < b -> a - da = b - db -> ra < rb).
Proof.
  intros Hab. assert (exists n : nat, b = a + Z.of_nat n) as [n ->] by (exists (Z.to_nat (b - a)); lia).
  revert db rb. clear Hab. induction n as [|n IH]; intros db rb Hf Ha Hb.
  { replace (a + Z.of_nat 0) with a in Hb by lia. simplify_eq. split; lia. }
  replace (a + Z.of_nat (S n)) with (a + Z.of_nat n + 1) in * by lia.
  destruct (filled_Some _ _ (a + Z.of_nat n) Hf ltac:(lia)) as (dn & rn & Hn).
  destruct (IH dn rn) as [IH1 IH2]; [|done|done|].
  { intros i Hi. apply Hf. lia. }
  destruct (step_at _ _ _ Hn) as [Hdn _].
  destruct (step_at _ _ _ Hb) as [Hdb [->|(d' & r' & H' & Hle & Hlt)]].
  { split; lia. }
  replace (a + Z.of_nat n + 1 - 1) with (a + Z.of_nat n) in H' by lia. simplify_eq. split; [lia|].
  intros _ Heq. assert (rn < rb) by (apply Hlt; lia).
  destruct n as [|n]; [|assert (ra < rn) by (apply IH2; lia); lia].
  replace (a + Z.of_nat 0) with a in Hn by lia. simplify_eq. lia.
Qed.

Lemma free_not_occupied i : slot i = None -> ~ occupied slot i.
Proof.
  intros Hi (r & p & Hp). destruct (step_at _ _ _ Hp) as [Hd _].
  apply (chain_filled p (p - i) r Hp i); [lia|done].
Qed.

Lemma holds_period k fq fr : holds slot (fq + k * N) fr <-> holds slot fq fr.
Proof.
  assert (forall k fq, holds slot fq fr -> holds slot (fq + k * N) fr) as H.
  { intros k' fq' [p Hp]. exists (p + k' * N). rewrite slot_period, Hp. do 2 f_equal. lia. }
  split; [|apply H]. intros Hh. apply (H (- k)) in Hh.
  replace (fq + k * N + - k * N) with fq in Hh by lia. done.
Qed.

Lemma not_shifted_occupied i d r : slot i = Some (d, r) -> shifted slot i = false -> occupied slot i.
Proof.
  unfold shifted. intros H. rewrite H. intros Hs%Z.ltb_ge. destruct (step_at _ _ _ H) as [Hd _].
  exists r, i. rewrite H. do 2 f_equal. lia.
Qed.

(** ** Inserting a fingerprint

    The fingerprint goes to slot [s]; what is in [s] up to the next free
    slot [f] moves up by one. *)
Section insert.
Context (s f fq fr : Z).

Definition move_up (x : option (Z * Z)) : option (Z * Z) :=
  match x with Some (d, r) => Some (d + 1, r) | None => None end.

Definition insert_slot : slots_t := fun p =>
  let o := (p - s) mod N in
  if o =? 0 then Some (s - fq, fr)
  else if o <=? f - s then move_up (slot (p - 1))
  else slot p.

(** [s] is the place of the fingerprint in the order of its cluster. *)
Record insert_place : Prop := {
  ip_order : fq <= s <= f;
  ip_free : slot f = None;
  ip_filled : filled slot s f;
  ip_other : exists e, f < e < s + N /\ slot e = None;
  ip_before : fq < s -> exists d r, slot (s - 1) = Some (d, r) /\ (s - 1 - d < fq \/ s - 1 - d = fq /\ r < fr);
  ip_after : forall d r, slot s = Some (d, r) -> fq < s - d \/ fq = s - d /\ fr < r;
}.

Context (Hip : insert_place).

Lemma insert_slot_period p : insert_slot (p + N) = insert_slot p.
Proof.
  unfold insert_slot. replace (p + N - s) with (p - s + 1 * N) by lia. rewrite Z.mod_add by lia.
  replace (p + N - 1) with (p - 1 + N) by lia. by rewrite !(lay_period _ Hlay).
Qed.

Lemma insert_slot_window p :
  exists k o, p = s + o + k * N /\ 0 <= o < N /\
    insert_slot p = (if o =? 0 then Some (s - fq, fr) else if o <=? f - s then move_up (slot (s + o - 1)) else slot (s + o)).
Proof.
  exists ((p - s) / N), ((p - s) mod N). pose proof (Z.mod_pos_bound (p - s) N). pose proof (Z.div_mod (p - s) N).
  split; [lia|]. split; [lia|]. unfold insert_slot.
  rewrite <- (slot_period ((p - s) / N) (s + (p - s) mod N - 1)), <- (slot_period ((p - s) / N) (s + (p - s) mod N)).
  replace (s + (p - s) mod N - 1 + (p - s) / N * N) with (p - 1) by lia.
  replace (s + (p - s) mod N + (p - s) / N * N) with p by lia. done.
Qed.

(** [insert_slot] at the [o]-th slot from [s]. *)
Lemma insert_slot_at o k : 0 <= o < N ->
  insert_slot (s + o + k * N) =
    (if o =? 0 then Some (s - fq, fr) else if o <=? f - s then move_up (slot (s + o - 1)) else slot (s + o)).
Proof.
  intros Ho. destruct (insert_slot_window (s + o + k * N)) as (k' & o' & Hp & Ho' & ->).
  assert (k' = k) as -> by (destruct (Z.lt_trichotomy k k') as [|[|]]; nia).
  by replace o' with o by lia.
Qed.

Lemma room_after : f - s < N - 1.
Proof. destruct (ip_other Hip) as (e & He & _). lia. Qed.

(** The new fingerprint has its place in the order. *)
Lemma insert_step_new k : step_ok insert_slot (s + k * N) (s - fq) fr.
Proof.
  pose proof room_after. destruct (ip_order Hip) as [Hqs Hsf]. split; [lia|].
  destruct (decide (fq = s)) as [->|]; [left; lia|]. right.
  destruct (ip_before Hip) as (d & r & Hs & Hlt); [lia|]. exists d, r.
  replace (s + k * N - 1) with (s + (N - 1) + (k - 1) * N) by lia. rewrite insert_slot_at by lia.
  rewrite (proj2 (Z.eqb_neq _ _)), (proj2 (Z.leb_gt _ _)) by lia.
  replace (s + (N - 1)) with (s - 1 + N) by lia. rewrite (lay_period _ Hlay), Hs. split; [done|]. lia.
Qed.

(** A fingerprint that moved up. *)
Lemma insert_step_moved k o d r : 0 < o <= f - s -> slot (s + o - 1) = Some (d, r) ->
  step_ok insert_slot (s + o + k * N) (d + 1) r.
Proof.
  intros Ho Hd. pose proof room_after. destruct (step_at _ _ _ Hd) as [Hd0 Hstep].
  split; [lia|]. right. replace (s + o + k * N - 1) with (s + (o - 1) + k * N) by lia. rewrite insert_slot_at by lia.
  destruct (Z.eqb_spec (o - 1) 0) as [Ho0|Ho0].
  - replace (s + o - 1) with s in Hd by lia. exists (s - fq), fr. split; [done|].
    destruct (ip_after Hip d r Hd); split; lia.
  - rewrite (proj2 (Z.leb_le _ _)) by lia.
    destruct (filled_Some _ _ (s + (o - 1) - 1) (ip_filled Hip) ltac:(lia)) as (d' & r' & Hd').
    rewrite Hd'. exists (d' + 1), r'. split; [done|]. destruct (step_at _ _ _ Hd') as [Hd'0 _].
    destruct Hstep as [->|(d2 & r2 & H2 & Hle & Hlt)]; [split; lia|].
    replace (s + o - 1 - 1) with (s + (o - 1) - 1) in H2 by lia. simplify_eq. split; [lia|]. intros. apply Hlt. lia.
Qed.

(** A fingerprint out of the way. *)
Lemma insert_step_kept k o d r : f - s < o < N -> slot (s + o) = Some (d, r) ->
  step_ok insert_slot (s + o + k * N) d r.
Proof.
  intros Ho Hd. destruct (step_at _ _ _ Hd) as [Hd0 Hstep]. destruct (ip_order Hip) as [Hqs Hsf]. split; [done|].
  destruct Hstep as [->|(d' & r' & Hd' & Hle & Hlt)]; [by left|right].
  exists d', r'. split; [|done]. replace (s + o + k * N - 1) with (s + (o - 1) + k * N) by lia.
  rewrite insert_slot_at by lia.
  assert (o - 1 <> f - s) as Hne.
  { intros E. replace (s + o - 1) with f in Hd' by lia. rewrite (ip_free Hip) in Hd'. done. }
  rewrite (proj2 (Z.eqb_neq _ _)), (proj2 (Z.leb_gt _ _)) by lia. rewrite <- Hd'. f_equal. lia.
Qed.

Lemma insert_layout : layout insert_slot.
Proof.
  split; [apply insert_slot_period| |].
  - intros p d r. destruct (insert_slot_window p) as (k & o & -> & Ho & ->).
    destruct (Z.eqb_spec o 0) as [->|]; [|destruct (Z.leb_spec o (f - s))].
    + intros [= <- <-]. rewrite Z.add_0_r. apply insert_step_new.
    + destruct (slot (s + o - 1)) as [[d' r']|] eqn:E; [|done]. intros [= <- <-]. apply insert_step_moved; [lia|done].
    + intros E. apply insert_step_kept; [lia|done].
  - destruct (ip_other Hip) as (e & He & Hfree). exists e. replace e with (s + (e - s) + 0 * N) by lia.
    rewrite insert_slot_at by (destruct (ip_order Hip); lia).
    rewrite (proj2 (Z.eqb_neq _ _)), (proj2 (Z.leb_gt _ _)) by (destruct (ip_order Hip); lia).
    rewrite <- Hfree. f_equal. lia.
Qed.

Lemma insert_holds q' r' :
  holds insert_slot q' r' <-> holds slot q' r' \/ (q' mod N = fq mod N /\ r' = fr).
Proof.
  split.
  - intros [p Hp]. destruct (insert_slot_window p) as (k & o & -> & Ho & E). rewrite E in Hp. clear E.
    destruct (Z.eqb_spec o 0) as [Ho0|]; [|destruct (Z.leb_spec o (f - s))].
    + injection Hp as Hq <-. right. split; [|done]. replace q' with (fq + k * N) by lia. by rewrite Z.mod_add by lia.
    + left. destruct (slot (s + o - 1)) as [[d r]|] eqn:E; [|done]. injection Hp as Hq <-.
      exists (s + o + k * N - 1). replace (s + o + k * N - 1) with (s + o - 1 + k * N) by lia.
      rewrite slot_period, E. do 2 f_equal. lia.
    + left. exists (s + o + k * N). by rewrite slot_period.
  - pose proof room_after. destruct (ip_order Hip) as [Hqs Hsf]. intros [[p Hp]|[Hq ->]].
    + pose proof (Z.mod_pos_bound (p - s) N ltac:(lia)) as Ho. pose proof (Z.div_mod (p - s) N ltac:(lia)) as Hd.
      generalize dependent ((p - s) mod N). generalize ((p - s) / N). intros k o Ho Hd.
      assert (p = s + o + k * N) as -> by lia. clear Hd. rewrite slot_period in Hp.
      destruct (decide (o < f - s)).
      * exists (s + o + k * N + 1). replace (s + o + k * N + 1) with (s + (o + 1) + k * N) by lia.
        rewrite insert_slot_at by lia. rewrite (proj2 (Z.eqb_neq _ _)), (proj2 (Z.leb_le _ _)) by lia.
        replace (s + (o + 1) - 1) with (s + o) by lia. rewrite Hp. cbn [move_up]. do 2 f_equal. lia.
      * exists (s + o + k * N). rewrite insert_slot_at by lia.
        assert (o <> f - s).
        { intros E. replace (s + o) with f in Hp by lia. by rewrite (ip_free Hip) in Hp. }
        by rewrite (proj2 (Z.eqb_neq _ _)), (proj2 (Z.leb_gt _ _)) by lia.
    + pose proof (Z.div_mod q' N ltac:(lia)). pose proof (Z.div_mod fq N ltac:(lia)).
      exists (s + 0 + (q' / N - fq / N) * N). rewrite insert_slot_at by lia. cbn. do 2 f_equal. lia.
Qed.

(** One more slot is in use. *)
Lemma insert_free p : insert_slot p = None <-> slot p = None /\ p mod N <> f mod N.
Proof.
  destruct (insert_slot_window p) as (k & o & -> & Ho & ->). rewrite slot_period.
  pose proof room_after. destruct (ip_order Hip) as [Hqs Hsf].
  assert ((s + o + k * N) mod N = f mod N <-> o = f - s) as Hf.
  { rewrite Z.mod_add by lia. split; [|intros ->; f_equal; lia]. intros Hm.
    assert ((s + o - f) mod N = 0) as H0 by (rewrite Zminus_mod, Hm, Z.sub_diag; apply Z.mod_0_l; lia).
    apply Z.mod_divide in H0 as [c Hc]; [|lia]. assert (c = 0) by nia. lia. }
  rewrite Hf. destruct (Z.eqb_spec o 0) as [->|]; [|destruct (Z.leb_spec o (f - s))].
  - split; [done|]. intros [Hn Hne]. rewrite Z.add_0_r in Hn. exfalso. apply (ip_filled Hip s); [lia|done].
  - destruct (filled_Some _ _ (s + o - 1) (ip_filled Hip) ltac:(lia)) as (d & r & ->). split; [done|].
    intros [Hn Hne]. exfalso. apply (ip_filled Hip (s + o)); [lia|done].
  - split; [|by intros []]. intros ->. split; [done|lia].
Qed.
End insert.
End facts.
End layout.
