(* ===== verification/QfCorrect.v ===== *)
(** * Correctness of the quotient filter

    The table of QuotientFilter represents a layout of QfLayout; insertion
    and lookup are proved against layouts, and the filter answers exactly
    for the fingerprints inserted into it. *)

From stdpp Require Import base numbers option list sorting.
From Stdlib Require Import ZArith Lia.
From S2P Require Import Prelude Types Utils QuotientFilter QfLayout.

Local Open Scope Z_scope.

Lemma filter_all_pass {A} (P : A -> Prop) `{forall x, Decision (P x)} (l : list A) :
  (forall x, x ∈ l -> P x) -> filter P l = l.
Proof.
  induction l as [|x l IH]; intros HP; [done|]. rewrite filter_cons_True by (apply HP; by left).
  f_equal. apply IH. intros y Hy. apply HP. by right.
Qed.

(** Dropping one value loses at most one element of a list without
    duplicates. *)
Lemma length_without (x : Z) (l : list Z) : NoDup l -> (length l <= S (length (filter (fun e => e <> x) l)))%nat.
Proof.
  intros Hnd. destruct (decide (x ∈ l)) as [(l1 & l2 & ->)%list_elem_of_split|Hx].
  - apply NoDup_app in Hnd as (_ & Hd & Hnd). apply NoDup_cons in Hnd as [Hx2 _].
    rewrite filter_app, filter_cons_False by naive_solver. rewrite !length_app. cbn [length].
    rewrite !filter_all_pass; [lia| |]; intros e He ->; [done|]. by eapply Hd; [exact He|left].
  - rewrite filter_all_pass; [lia|]. by intros e He ->.
Qed.

Section correct.
Context (q r : Z).
Local Abbreviation N := (2 ^ q).

(** The element in slot [i] of the circle. *)
Definition elem_at (qf : quotient_filter) (i : Z) : Z := get_elem qf (i mod N).

(** The table stores [slot]; [occ] says which occupied bits are set. *)
Record table_of (qf : quotient_filter) (slot : slots_t) (occ : Z -> Prop) : Prop := {
  to_wf : qf_wf q r qf;
  to_occ : forall i, is_occupied (elem_at qf i) = true <-> occ i;
  to_cont : forall i, is_continuation (elem_at qf i) = continuation slot i;
  to_shifted : forall i, is_shifted (elem_at qf i) = shifted slot i;
  to_rem : forall i d rem, slot i = Some (d, rem) -> get_remainder (elem_at qf i) = rem;
}.

Section fixed.
Context (qf : quotient_filter) (Hwf : qf_wf q r qf).

Lemma slots_pos : 2 <= N.
Proof.
  destruct (wf_q _ _ _ Hwf). change 2 with (2 ^ 1) at 1. apply Z.pow_le_mono_r; lia.
Qed.

Lemma slots_word : N <= 2 ^ 32.
Proof. destruct (wf_q _ _ _ Hwf). apply Z.pow_le_mono_r; lia. Qed.

Lemma index_range i : 0 <= i mod N < N.
Proof. apply Z.mod_pos_bound. pose proof slots_pos. lia. Qed.

Lemma land_index x : Z.land (u64 x) (qf_index_mask qf) = x mod N.
Proof.
  destruct (wf_q _ _ _ Hwf). rewrite (wf_index_mask _ _ _ Hwf), Z.land_ones by lia. unfold wrap.
  replace 64 with (q + (64 - q)) by lia. rewrite Z.pow_add_r by lia.
  assert (0 < 2 ^ (64 - q)) by (apply Z.pow_pos_nonneg; lia). pose proof slots_pos.
  rewrite Z.rem_mul_r by lia. rewrite Z.mul_comm, Z.mod_add by lia. apply Z.mod_mod. lia.
Qed.

Lemma incr_mod i : incr qf (i mod N) = (i + 1) mod N.
Proof. unfold incr. rewrite land_index. apply Zplus_mod_idemp_l. Qed.

Lemma decr_mod i : decr qf (i mod N) = (i - 1) mod N.
Proof. unfold decr. rewrite land_index. apply Zminus_mod_idemp_l. Qed.

Lemma steps_slots : Z.of_nat (steps qf) = N.
Proof. unfold steps. rewrite (wf_max_size _ _ _ Hwf). pose proof slots_pos. lia. Qed.

Lemma elem_range i : 0 <= elem_at qf i < 2 ^ (r + 3).
Proof. apply (get_elem_range q r); [done|apply index_range]. Qed.
End fixed.

(** Writing one slot. *)
Lemma elem_set qf i j elt : qf_wf q r qf -> 0 <= elt < 2 ^ (r + 3) ->
  elem_at (set_elem qf (i mod N) elt) j = if j mod N =? i mod N then elt else elem_at qf j.
Proof.
  intros Hwf He. unfold elem_at. apply (get_set_elem q r); try done; by eapply index_range.
Qed.

(** ** Runs *)

Section runs.
Context (qf : quotient_filter) (slot : slots_t) (occ : Z -> Prop).
Context (Hto : table_of qf slot occ) (Hlay : layout N slot).
Let Hwf : qf_wf q r qf := to_wf _ _ _ Hto.
Let HN : 2 <= N := slots_pos qf Hwf.

Lemma free_not_shifted e : slot e = None -> shifted slot e = false.
Proof. unfold shifted. by intros ->. Qed.

Lemma free_not_continuation e : slot e = None -> continuation slot e = false.
Proof. unfold continuation. by intros ->. Qed.

(** Back to the start of the cluster. *)
Lemma cluster_start_spec (fuel : nat) b e :
  slot e = None -> e <= b <= e + Z.of_nat fuel ->
  exists c, cluster_start fuel qf (b mod N) = Some (c mod N) /\ e <= c <= b /\
    shifted slot c = false /\ (forall i, c < i <= b -> shifted slot i = true).
Proof.
  intros He. revert b. induction fuel as [|fuel IH]; intros b Hb; cbn [cluster_start];
    fold (elem_at qf b); rewrite (to_shifted _ _ _ Hto); destruct (shifted slot b) eqn:Es.
  - replace b with e in Es by lia. by rewrite free_not_shifted in Es.
  - exists b. split_ands; try done; lia.
  - rewrite decr_mod by done.
    destruct (decide (b = e)) as [->|]; [by rewrite free_not_shifted in Es|].
    destruct (IH (b - 1)) as (c & Hc & Hr & Hs & Hi); [lia|]. exists c. split_ands; try done; [lia|lia|].
    intros i Hi2. destruct (decide (i = b)) as [->|]; [done|apply Hi; lia].
  - exists b. split_ands; try done; lia.
Qed.

Lemma next_run_spec (fuel : nat) s e :
  slot e = None -> s < e <= s + Z.of_nat fuel ->
  exists s', next_run fuel qf (s mod N) = Some (s' mod N) /\ s < s' <= e /\
    continuation slot s' = false /\ (forall i, s < i < s' -> continuation slot i = true).
Proof.
  intros He. revert s. induction fuel as [|fuel IH]; intros s Hs; [lia|]. cbn [next_run].
  rewrite incr_mod by done. fold (elem_at qf (s + 1)). rewrite (to_cont _ _ _ Hto).
  destruct (continuation slot (s + 1)) eqn:Ec.
  - destruct (decide (s + 1 = e)) as [<-|]; [by rewrite free_not_continuation in Ec|].
    destruct (IH (s + 1)) as (s' & Hr & Hs' & Hn & Hi); [lia|]. exists s'. split_ands; try done; [lia|lia|].
    intros i Hi2. destruct (decide (i = s + 1)) as [->|]; [done|apply Hi; lia].
  - exists (s + 1). split_ands; try done; [lia|lia|]. intros i Hi. lia.
Qed.

Lemma next_occupied_spec (fuel : nat) b t :
  occ t -> b < t <= b + Z.of_nat fuel ->
  exists b', next_occupied fuel qf (b mod N) = Some (b' mod N) /\ b < b' <= t /\
    occ b' /\ (forall i, b < i < b' -> ~ occ i).
Proof.
  intros Ht. revert b. induction fuel as [|fuel IH]; intros b Hb; [lia|]. cbn [next_occupied].
  rewrite incr_mod by done. fold (elem_at qf (b + 1)).
  pose proof (to_occ _ _ _ Hto (b + 1)) as Ho. destruct (is_occupied (elem_at qf (b + 1))); cbn [negb].
  - exists (b + 1). split_ands; [done|lia|lia|by apply Ho|]. intros i Hi. lia.
  - assert (~ occ (b + 1)) as Hno by (intros ?%Ho; done).
    destruct (decide (b + 1 = t)) as [<-|]; [done|].
    destruct (IH (b + 1)) as (b' & Hr & Hb' & Hn & Hi); [lia|]. exists b'. split_ands; try done; [lia|lia|].
    intros i Hi2. destruct (decide (i = b + 1)) as [->|]; [done|apply Hi; lia].
Qed.

(** A step within a run keeps the quotient, a step to the next run
    increases it. *)
Lemma continuation_quot i d rem d' rem' :
  slot (i - 1) = Some (d, rem) -> slot i = Some (d', rem') ->
  if continuation slot i then i - d' = i - 1 - d /\ rem < rem' else i - 1 - d < i - d'.
Proof.
  intros H H'. unfold continuation. rewrite H, H'. destruct (step_at N slot Hlay _ _ _ H) as [Hd _].
  destruct (step_at N slot Hlay _ _ _ H') as [Hd' [->|(d2 & r2 & H2 & Hle & Hlt)]].
  - rewrite (proj2 (Z.eqb_neq _ _)); lia.
  - rewrite H in H2. simplify_eq. destruct (Z.eqb_spec d' (d2 + 1)); [split; [lia|auto]|lia].
Qed.

Lemma continuation_Some i : continuation slot i = true -> slot i <> None /\ slot (i - 1) <> None.
Proof. unfold continuation. by destruct (slot i) as [[? ?]|], (slot (i - 1)) as [[? ?]|]. Qed.

(** The slots from [s] on before [s'] continue the run at [s]. *)
Lemma run_members s s' d rem :
  slot s = Some (d, rem) -> (forall i, s < i < s' -> continuation slot i = true) ->
  forall i, s <= i < s' -> exists rem', slot i = Some (i - (s - d), rem') /\ (s < i -> rem < rem').
Proof.
  intros Hs Hc i Hi. assert (exists n : nat, i = s + Z.of_nat n) as [n ->] by (exists (Z.to_nat (i - s)); lia).
  induction n as [|n IH].
  - exists rem. split; [|lia]. replace (s + Z.of_nat 0) with s by lia. rewrite Hs. do 2 f_equal. lia.
  - replace (s + Z.of_nat (S n)) with (s + Z.of_nat n + 1) in * by lia.
    destruct IH as (rn & Hn & Hlt); [lia|]. pose proof (Hc (s + Z.of_nat n + 1) ltac:(lia)) as Hci.
    destruct (continuation_Some _ Hci) as [Hne _]. destruct (slot (s + Z.of_nat n + 1)) as [[d' r']|] eqn:E; [|done].
    pose proof (continuation_quot (s + Z.of_nat n + 1) (s + Z.of_nat n - (s - d)) rn d' r') as Hq.
    rewrite Hci in Hq. replace (s + Z.of_nat n + 1 - 1) with (s + Z.of_nat n) in Hq by lia.
    destruct (Hq Hn E) as [Hq1 Hq2]. exists r'. split; [do 2 f_equal; lia|]. intros _.
    destruct n as [|n]; [|assert (rem < rn) by (apply Hlt; lia); lia].
    replace (s + Z.of_nat 0) with s in Hn by lia. rewrite Hs in Hn. simplify_eq. done.
Qed.

(** ** Finding a run *)

(** [s] is where the run of [fq] starts or would start. *)
Record run_place (fq s : Z) : Prop := {
  rp_le : fq <= s;
  rp_filled : filled slot fq s;
  rp_before : forall p d rem, fq <= p < s -> slot p = Some (d, rem) -> p - d < fq;
  rp_after : forall d rem, slot s = Some (d, rem) -> fq <= s - d;
}.

Section find.
Context (fq : Z) (Hocc : forall i, occ i <-> occupied slot i \/ i mod N = fq mod N).
Context (c e : Z) (Hc : c <= fq) (Hcf : filled slot c (fq + 1)) (He : c < e < c + N) (Hfree : slot e = None).

(** The loop invariant: the fingerprints from [c] up to [s] are those with
    quotients below [b]. *)
Record loop_inv (b s : Z) : Prop := {
  li_b : c <= b <= fq;
  li_occ : occ b;
  li_s : c <= s;
  li_filled : filled slot c s;
  li_before : forall p d rem, c <= p < s -> slot p = Some (d, rem) -> p - d < b;
  li_after : forall d rem, slot s = Some (d, rem) -> b <= s - d;
}.

Lemma loop_bound : fq < e.
Proof. destruct (decide (fq < e)); [done|]. exfalso. apply (Hcf e); [lia|done]. Qed.

Lemma inv_bound b s : loop_inv b s -> s <= e.
Proof. intros [_ _ Hs Hf _ _]. destruct (decide (s <= e)); [done|]. exfalso. apply (Hf e); [lia|done]. Qed.

(** When [b] is not the target its run starts at [s]. *)
Lemma inv_run b s : loop_inv b s -> b <> fq -> exists rem, slot s = Some (s - b, rem).
Proof.
  intros [Hb Hob Hs Hf Hbe Haf] Hne. pose proof loop_bound.
  apply Hocc in Hob as [(rem & p & Hp)|Hm].
  - destruct (step_at N slot Hlay _ _ _ Hp) as [Hd _].
    assert (filled slot c (p + 1)) as Hcp.
    { intros i Hi. destruct (decide (i <= fq)); [apply Hcf; lia|].
      apply (chain_filled N slot Hlay _ _ _ Hp). lia. }
    assert (s <= p).
    { destruct (decide (s <= p)); [done|]. specialize (Hbe p (p - b) rem ltac:(lia) Hp). lia. }
    destruct (filled_Some slot _ _ s Hcp ltac:(lia)) as (d & rem' & Hsd). exists rem'.
    destruct (filled_mono N slot Hlay s p d rem' (p - b) rem) as [Hm _]; try done.
    { intros i Hi. apply Hcp. lia. }
    specialize (Haf d rem' Hsd). rewrite Hsd. do 2 f_equal. lia.
  - exfalso. assert ((fq - b) mod N = 0) as Hz by (rewrite Zminus_mod, Hm, Z.sub_diag; apply Z.mod_0_l; lia).
    rewrite Z.mod_small in Hz by lia. lia.
Qed.

Lemma inv_next b s s' b' :
  loop_inv b s -> b <> fq -> s < s' <= e -> continuation slot s' = false ->
  (forall i, s < i < s' -> continuation slot i = true) ->
  b < b' <= fq -> occ b' -> (forall i, b < i < b' -> ~ occ i) -> loop_inv b' s'.
Proof.
  intros Hi Hne Hs' Hns' Hcs Hb' Hob' Hno. destruct (inv_run b s Hi Hne) as [rem Hsl].
  pose proof (run_members s s' (s - b) rem Hsl Hcs) as Hrun. destruct Hi as [Hb Hob Hs Hf Hbe Haf].
  split; [lia|done|lia| | |].
  - intros i Hi. destruct (decide (i < s)); [apply Hf; lia|]. destruct (Hrun i ltac:(lia)) as (? & -> & _). done.
  - intros p d rem' Hp Hpd. destruct (decide (p < s)); [specialize (Hbe p d rem' ltac:(lia) Hpd); lia|].
    destruct (Hrun p ltac:(lia)) as (? & E & _). rewrite Hpd in E. simplify_eq. lia.
  - intros d rem' Hd. destruct (Hrun (s' - 1) ltac:(lia)) as (rl & Hl & _).
    pose proof (continuation_quot s' _ _ _ _ Hl Hd) as Hq. rewrite Hns' in Hq.
    destruct (decide (b' <= s' - d)); [done|]. exfalso. apply (Hno (s' - d)); [lia|].
    apply Hocc. left. exists rem', s'. rewrite Hd. do 2 f_equal. lia.
Qed.

Lemma find_run_loop_spec (fuel : nat) b s :
  loop_inv b s -> fq - b <= Z.of_nat fuel ->
  exists s', find_run_loop fuel qf (fq mod N) (b mod N) (s mod N) = Some (s' mod N) /\ loop_inv fq s'.
Proof.
  pose proof loop_bound as Hlb. pose proof (steps_slots qf Hwf) as Hst.
  revert b s. induction fuel as [|fuel IH]; intros b s Hi Hf; cbn [find_run_loop].
  { destruct (li_b _ _ Hi). replace b with fq in * by lia. rewrite Z.eqb_refl. eauto. }
  destruct (Z.eqb_spec (b mod N) (fq mod N)) as [E|E].
  { exists s. split; [done|]. destruct (li_b _ _ Hi). replace fq with b; [done|].
    assert ((fq - b) mod N = 0) as Hz by (rewrite Zminus_mod, E, Z.sub_diag; apply Z.mod_0_l; lia).
    rewrite Z.mod_small in Hz by lia. lia. }
  assert (b <> fq) as Hne by (intros ->; done). destruct (inv_run b s Hi Hne) as [rem Hsl].
  pose proof (inv_bound b s Hi) as Hse. destruct (li_b _ _ Hi) as [Hb1 Hb2]. pose proof (li_s _ _ Hi).
  assert (s <> e) by (intros ->; congruence).
  destruct (next_run_spec (steps qf) s e Hfree) as (s' & -> & Hs' & Hn & Hcs); [lia|].
  assert (occ fq) as Hofq by (apply Hocc; by right).
  destruct (next_occupied_spec (steps qf) b fq Hofq) as (b' & -> & Hb' & Hob & Hno); [lia|].
  cbn [mbind option_bind]. apply IH; [|lia]. by eapply inv_next.
Qed.
End find.

Lemma find_run_index_spec fq :
  (forall i, occ i <-> occupied slot i \/ i mod N = fq mod N) -> slot fq <> None ->
  exists s, find_run_index qf (fq mod N) = Some (s mod N) /\ run_place fq s.
Proof.
  intros Hocc Hne. pose proof (steps_slots qf Hwf) as Hst. unfold find_run_index.
  destruct (free_in_window N HN slot Hlay (fq - N + 1)) as (e0 & He0 & Hf0).
  assert (e0 <> fq) by (intros ->; done).
  destruct (cluster_start_spec (steps qf) fq e0 Hf0) as (c & -> & Hc & Hsc & Hsh); [lia|].
  cbn [mbind option_bind].
  assert (filled slot c (fq + 1)) as Hcf.
  { intros i Hi. destruct (decide (i = fq)) as [->|]; [done|].
    specialize (Hsh (i + 1) ltac:(lia)). unfold shifted in Hsh.
    destruct (slot (i + 1)) as [[d rem]|] eqn:E; [|done]. apply Z.ltb_lt in Hsh.
    destruct (step_at N slot Hlay _ _ _ E) as [_ [?|(d' & r' & H' & _)]]; [lia|].
    replace (i + 1 - 1) with i in H' by lia. by rewrite H'. }
  destruct (first_free N HN slot Hlay c) as (e & He & Hfree & Hfe).
  assert (c <> e).
  { intros E. rewrite <- E in Hfree. apply (Hcf c); [lia|done]. }
  destruct (filled_Some slot _ _ c Hcf ltac:(lia)) as (d & rem & Hd).
  assert (d = 0) as ->.
  { unfold shifted in Hsc. rewrite Hd in Hsc. apply Z.ltb_ge in Hsc. destruct (step_at N slot Hlay _ _ _ Hd). lia. }
  destruct (find_run_loop_spec fq Hocc c e Hcf ltac:(lia) Hfree (steps qf) c c) as (s & Hs & Hi).
  - split; try lia.
    + apply Hocc. left. exists rem, c. rewrite Hd. do 2 f_equal. lia.
    + intros i Hi. lia.
    + intros d2 r2 Hd2. rewrite Hd in Hd2. simplify_eq. lia.
  - pose proof (loop_bound fq c e Hcf ltac:(lia) Hfree). lia.
  - exists s. split; [done|]. destruct Hi as [Hb Hob Hs2 Hf Hbe Haf].
    assert (fq <= s).
    { destruct (decide (fq <= s)); [done|]. exfalso. destruct (filled_Some slot _ _ s Hcf ltac:(lia)) as (d2 & r2 & Hd2).
      specialize (Haf _ _ Hd2). destruct (step_at N slot Hlay _ _ _ Hd2). lia. }
    split; [done| |intros; eapply Hbe; [|done]; lia|done]. intros i Hi. apply Hf. lia.
Qed.

(** ** Searching a run *)

(** [t] is the place of the fingerprint among those of its cluster. *)
Record scan_place (fq fr t : Z) : Prop := {
  sp_le : fq <= t;
  sp_filled : filled slot fq t;
  sp_before : forall p d rem, fq <= p < t -> slot p = Some (d, rem) -> p - d < fq \/ p - d = fq /\ rem < fr;
  sp_after : forall d rem, slot t = Some (d, rem) -> fq < t - d \/ fq = t - d /\ fr < rem;
}.

Lemma scan_place_fresh fq fr t : scan_place fq fr t -> ~ holds slot fq fr.
Proof.
  intros [Hle Hf Hb Ha] [p Hp]. destruct (step_at N slot Hlay _ _ _ Hp) as [Hd _].
  assert (filled slot fq (p + 1)) as Hfp.
  { intros i Hi. apply (chain_filled N slot Hlay _ _ _ Hp). lia. }
  destruct (decide (p < t)); [destruct (Hb p _ _ ltac:(lia) Hp); lia|].
  destruct (filled_Some slot _ _ t Hfp ltac:(lia)) as (d & rem & Ht).
  destruct (decide (p = t)) as [->|]; [destruct (Ha _ _ Hp); lia|].
  destruct (filled_mono N slot Hlay t p d rem (p - fq) fr) as [H1 H2]; try done; [lia| |].
  { intros i Hi. apply Hfp. lia. }
  destruct (Ha _ _ Ht); lia.
Qed.

Lemma scan_run_position fuel fr s :
  scan_run fuel qf fr s = (match insert_position fuel qf fr s with
                           | None => None | Some (inl _) => Some true | Some (inr _) => Some false end).
Proof.
  revert s. induction fuel as [|fuel IH]; intros s; cbn [scan_run insert_position]; [done|].
  destruct (_ =? fr); [done|]. destruct (fr <? _); [done|]. destruct (is_continuation _); [apply IH|done].
Qed.

Lemma insert_position_spec (fuel : nat) fq fr t e rem :
  slot e = None -> t < e <= t + Z.of_nat fuel -> slot t = Some (t - fq, rem) ->
  fq <= t -> filled slot fq t ->
  (forall p d rem, fq <= p < t -> slot p = Some (d, rem) -> p - d < fq \/ p - d = fq /\ rem < fr) ->
  exists x, insert_position fuel qf fr (t mod N) = Some x /\
    match x with
    | inl _ => holds slot fq fr
    | inr y => exists t', y = t' mod N /\ t <= t' <= e /\ scan_place fq fr t' /\
        (t < t' -> exists rem', slot (t' - 1) = Some (t' - 1 - fq, rem'))
    end.
Proof.
  intros He. revert t rem. induction fuel as [|fuel IH]; intros t rem Ht Hs Hle Hf Hb; [lia|].
  cbn [insert_position]. fold (elem_at qf t). rewrite (to_rem _ _ _ Hto _ _ _ Hs).
  destruct (Z.eqb_spec rem fr) as [->|Hne]; [exists (inl tt); split; [done|by exists t]|].
  destruct (Z.ltb_spec fr rem) as [Hlt|Hge].
  { exists (inr (t mod N)). split; [done|]. exists t. split_ands; [done|lia|lia| |lia].
    split; try done. intros d rem' Hd. rewrite Hs in Hd. simplify_eq. lia. }
  rewrite incr_mod by done. fold (elem_at qf (t + 1)). rewrite (to_cont _ _ _ Hto).
  assert (filled slot fq (t + 1)) as Hf1.
  { intros i Hi. destruct (decide (i = t)) as [->|]; [by rewrite Hs|apply Hf; lia]. }
  assert (forall p d rem, fq <= p < t + 1 -> slot p = Some (d, rem) -> p - d < fq \/ p - d = fq /\ rem < fr) as Hb1.
  { intros p d rem' Hp Hd. destruct (decide (p = t)) as [->|]; [|apply Hb; [lia|done]].
    rewrite Hs in Hd. simplify_eq. lia. }
  destruct (continuation slot (t + 1)) eqn:Ec.
  - destruct (continuation_Some _ Ec) as [Hn _]. destruct (slot (t + 1)) as [[d' rem']|] eqn:E; [|done].
    pose proof (continuation_quot (t + 1) (t - fq) rem d' rem') as Hq. rewrite Ec in Hq.
    replace (t + 1 - 1) with t in Hq by lia. destruct (Hq Hs E) as [Hq1 _].
    destruct (IH (t + 1) rem') as (x & Hx & Hpost); try done; [..|].
    + assert (t + 1 <> e) by (intros Ee; rewrite Ee, He in E; done). lia.
    + rewrite E. do 2 f_equal. lia.
    + lia.
    + exists x. split; [done|]. destruct x as [|y]; [done|].
      destruct Hpost as (t' & Hy & Ht' & Hsp & Hl). exists t'. split_ands; [done|lia|lia|done|].
      intros _. destruct (decide (t + 1 < t')); [by apply Hl|]. replace t' with (t + 1) by lia.
      replace (t + 1 - 1) with t by lia. eauto.
  - exists (inr ((t + 1) mod N)). split; [done|]. exists (t + 1). split_ands; [done|lia|lia| |].
    + split; [lia|done|done|]. intros d rem' Hd. pose proof (continuation_quot (t + 1) (t - fq) rem d rem') as Hq.
      rewrite Ec in Hq. replace (t + 1 - 1) with t in Hq by lia. specialize (Hq Hs Hd). lia.
    + intros _. exists rem. by replace (t + 1 - 1) with t by lia.
Qed.

(** The free slot that ends the search. *)
Lemma run_end fq s : run_place fq s -> slot fq <> None -> exists e, s <= e < fq + N /\ slot e = None /\ filled slot fq e.
Proof.
  intros [Hle Hf _ _] Hne. destruct (first_free N HN slot Hlay fq) as (e & He & Hfe & Hff).
  exists e. split_ands; [|lia|done|done]. destruct (decide (s <= e)); [done|]. exfalso. apply (Hf e); [lia|done].
Qed.

(** A run that is not empty starts at its place. *)
Lemma run_head fq s : run_place fq s -> occupied slot fq -> exists rem, slot s = Some (s - fq, rem).
Proof.
  intros [Hle Hf Hb Ha] (rem & p & Hp). destruct (step_at N slot Hlay _ _ _ Hp) as [Hd _].
  assert (filled slot fq (p + 1)) as Hfp.
  { intros i Hi. apply (chain_filled N slot Hlay _ _ _ Hp). lia. }
  assert (s <= p). { destruct (decide (s <= p)); [done|]. specialize (Hb p _ _ ltac:(lia) Hp). lia. }
  destruct (filled_Some slot _ _ s Hfp ltac:(lia)) as (d & rem' & Hs). exists rem'.
  destruct (filled_mono N slot Hlay s p d rem' (p - fq) rem) as [Hm _]; try done.
  { intros i Hi. apply Hfp. lia. }
  specialize (Ha _ _ Hs). rewrite Hs. do 2 f_equal. lia.
Qed.

Lemma run_position fq fr s :
  run_place fq s -> occupied slot fq -> slot fq <> None ->
  exists x, insert_position (steps qf) qf fr (s mod N) = Some x /\
    match x with
    | inl _ => holds slot fq fr
    | inr y => exists t, y = t mod N /\ s <= t < fq + N /\ scan_place fq fr t /\
        (s < t -> exists rem', slot (t - 1) = Some (t - 1 - fq, rem'))
    end.
Proof.
  intros Hrp Ho Hne. destruct (run_head fq s Hrp Ho) as [rem Hs]. destruct (run_end fq s Hrp Hne) as (e & He & Hfree & _).
  pose proof (steps_slots qf Hwf). destruct Hrp as [Hle Hf Hb Ha].
  assert (s <> e) by (intros E; rewrite E, Hfree in Hs; done).
  destruct (insert_position_spec (steps qf) fq fr s e rem) as (x & Hx & Hp); try done; [lia| |].
  { intros p d rem' Hp Hd. left. by eapply Hb. }
  exists x. split; [done|]. destruct x as [|y]; [done|]. destruct Hp as (t & ? & Ht & ? & ?).
  exists t. split_ands; [done|lia|lia|done|done].
Qed.
End runs.

(** ** Moving elements up *)

(** What [insert_into] leaves in the slots from [s] on. *)
Record shifted_table (qf qf' : quotient_filter) (s f curr : Z) : Prop := {
  st_wf : qf_wf q r qf';
  st_entries : qf_entries qf' = qf_entries qf;
  st_occ : forall o, 0 <= o < N -> is_occupied (elem_at qf' (s + o)) = is_occupied (elem_at qf (s + o));
  st_cont : forall o, 0 <= o < N -> is_continuation (elem_at qf' (s + o)) =
    if o =? 0 then is_continuation curr
    else if o <=? f - s then is_continuation (elem_at qf (s + o - 1)) else is_continuation (elem_at qf (s + o));
  st_shifted : forall o, 0 <= o < N -> is_shifted (elem_at qf' (s + o)) =
    if o =? 0 then is_shifted curr
    else if o <=? f - s then true else is_shifted (elem_at qf (s + o));
  st_rem : forall o, 0 <= o < N -> get_remainder (elem_at qf' (s + o)) =
    if o =? 0 then get_remainder curr
    else if o <=? f - s then get_remainder (elem_at qf (s + o - 1)) else get_remainder (elem_at qf (s + o));
}.

Lemma window_neq o s : 0 < o < N -> (s + o) mod N <> s mod N.
Proof.
  intros Ho E. assert ((s + o - s) mod N = 0) as Hz by (rewrite Zminus_mod, E, Z.sub_diag; apply Z.mod_0_l; lia).
  replace (s + o - s) with o in Hz by lia. rewrite Z.mod_small in Hz; lia.
Qed.

(** One round: the element of [s] is replaced. *)
Lemma shifted_table_stop qf s curr x :
  qf_wf q r qf -> 0 <= x < 2 ^ (r + 3) -> is_occupied x = is_occupied (elem_at qf s) ->
  is_continuation x = is_continuation curr -> is_shifted x = is_shifted curr -> get_remainder x = get_remainder curr ->
  shifted_table qf (set_elem qf (s mod N) x) s s curr.
Proof.
  intros Hwf Hx H1 H2 H3 H4.
  assert (forall o, 0 <= o < N -> elem_at (set_elem qf (s mod N) x) (s + o) = if o =? 0 then x else elem_at qf (s + o)) as He.
  { intros o Ho. rewrite elem_set by done. destruct (Z.eqb_spec o 0) as [->|]; [by rewrite Z.add_0_r, Z.eqb_refl|].
    rewrite (proj2 (Z.eqb_neq _ _)); [done|]. apply window_neq. lia. }
  split; [by apply set_elem_wf|done|..]; intros o Ho; rewrite He by done; destruct (Z.eqb_spec o 0) as [->|];
    rewrite ?Z.add_0_r; try done; rewrite (proj2 (Z.leb_gt _ _)) by lia; done.
Qed.

Lemma shifted_table_more qf qf1 qf' s f curr prev :
  2 <= N -> s < f < s + N ->
  (forall o, 0 < o < N -> elem_at qf1 (s + o) = elem_at qf (s + o)) -> qf_entries qf1 = qf_entries qf ->
  is_occupied (elem_at qf1 s) = is_occupied (elem_at qf s) -> is_continuation (elem_at qf1 s) = is_continuation curr ->
  is_shifted (elem_at qf1 s) = is_shifted curr -> get_remainder (elem_at qf1 s) = get_remainder curr ->
  is_continuation prev = is_continuation (elem_at qf s) -> is_shifted prev = true ->
  get_remainder prev = get_remainder (elem_at qf s) ->
  shifted_table qf1 qf' (s + 1) f prev -> shifted_table qf qf' s f curr.
Proof.
  intros HN Hf He Hent Ho1 Hc1 Hs1 Hr1 Hcp Hsp Hrp [Hwf' Hent' Ho Hc Hs Hr].
  assert (elem_at qf' (s + 1 + (N - 1)) = elem_at qf' s) as Ew.
  { unfold elem_at. f_equal. replace (s + 1 + (N - 1)) with (s + 1 * N) by lia. apply Z.mod_add. lia. }
  assert (elem_at qf1 (s + 1 + (N - 1)) = elem_at qf1 s) as Ew1.
  { unfold elem_at. f_equal. replace (s + 1 + (N - 1)) with (s + 1 * N) by lia. apply Z.mod_add. lia. }
  split; [done|congruence|..]; intros o Hb; (destruct (Z.eqb_spec o 0) as [->|Hne];
    [rewrite Z.add_0_r; rewrite <- ?Ew|
     replace (s + o) with (s + 1 + (o - 1)) at 1 by lia]).
  - rewrite Ho by lia. by rewrite Ew1.
  - rewrite Ho by lia. replace (s + 1 + (o - 1)) with (s + o) by lia. by rewrite He by lia.
  - rewrite Hc by lia. rewrite (proj2 (Z.eqb_neq _ _)), (proj2 (Z.leb_gt _ _)) by lia. by rewrite Ew1.
  - rewrite Hc by lia. destruct (Z.eqb_spec (o - 1) 0).
    + rewrite (proj2 (Z.leb_le _ _)) by lia. rewrite Hcp. do 2 f_equal. lia.
    + replace (s + 1 + (o - 1) - 1) with (s + (o - 1)) by lia. replace (s + 1 + (o - 1)) with (s + o) by lia.
      rewrite !He by lia. replace (s + o - 1) with (s + (o - 1)) by lia.
      destruct (Z.leb_spec (o - 1) (f - (s + 1))), (Z.leb_spec o (f - s)); done || lia.
  - rewrite Hs by lia. rewrite (proj2 (Z.eqb_neq _ _)), (proj2 (Z.leb_gt _ _)) by lia. by rewrite Ew1.
  - rewrite Hs by lia. destruct (Z.eqb_spec (o - 1) 0).
    + rewrite (proj2 (Z.leb_le _ _)) by lia. done.
    + replace (s + 1 + (o - 1)) with (s + o) by lia. rewrite !He by lia.
      destruct (Z.leb_spec (o - 1) (f - (s + 1))), (Z.leb_spec o (f - s)); done || lia.
  - rewrite Hr by lia. rewrite (proj2 (Z.eqb_neq _ _)), (proj2 (Z.leb_gt _ _)) by lia. by rewrite Ew1.
  - rewrite Hr by lia. destruct (Z.eqb_spec (o - 1) 0).
    + rewrite (proj2 (Z.leb_le _ _)) by lia. rewrite Hrp. do 2 f_equal. lia.
    + replace (s + 1 + (o - 1) - 1) with (s + (o - 1)) by lia. replace (s + 1 + (o - 1)) with (s + o) by lia.
      rewrite !He by lia. replace (s + o - 1) with (s + (o - 1)) by lia.
      destruct (Z.leb_spec (o - 1) (f - (s + 1))), (Z.leb_spec o (f - s)); done || lia.
Qed.

Lemma insert_into_spec (fuel : nat) qf s f curr :
  qf_wf q r qf -> 0 <= curr < 2 ^ (r + 3) -> is_occupied curr = false ->
  (forall i, s <= i < f -> is_empty_element (elem_at qf i) = false) -> is_empty_element (elem_at qf f) = true ->
  s <= f < s + N -> f - s < Z.of_nat fuel ->
  exists qf', insert_into fuel qf (s mod N) curr = Some qf' /\ shifted_table qf qf' s f curr.
Proof.
  revert qf s curr. induction fuel as [|fuel IH]; intros qf s curr Hwf Hcurr Hocc Hne Hem Hsf Hfuel; [lia|].
  cbn [insert_into]. fold (elem_at qf s). pose proof (wf_r _ _ _ Hwf) as Hr. pose proof (slots_pos qf Hwf) as HN.
  pose proof (elem_range qf Hwf s) as Her.
  destruct (decide (s = f)) as [->|Hlt].
  - rewrite Hem. cbn [negb]. eexists. split; [done|].
    apply shifted_table_stop; try done. rewrite Hocc. rewrite is_empty_bits in Hem.
    by destruct (is_occupied (elem_at qf f)).
  - rewrite Hne by lia. cbn [negb]. rewrite occupied_set_shifted.
    set (prev := if is_occupied (elem_at qf s) then clr_occupied (set_shifted (elem_at qf s)) else set_shifted (elem_at qf s)).
    set (curr1 := if is_occupied (elem_at qf s) then set_occupied curr else curr).
    assert (0 <= prev < 2 ^ (r + 3)) as Hprev.
    { unfold prev. destruct (is_occupied (elem_at qf s)); [apply clr_occupied_range; [lia|]|]; apply set_shifted_range; done || lia. }
    assert (0 <= curr1 < 2 ^ (r + 3)) as Hcurr1.
    { unfold curr1. destruct (is_occupied (elem_at qf s)); [apply set_occupied_range; [lia|]|]; done. }
    assert (is_occupied prev = false) as Hpo.
    { unfold prev. destruct (is_occupied (elem_at qf s)) eqn:Eo; autorewrite with qf; done. }
    set (qf1 := set_elem qf (s mod N) curr1).
    assert (qf_wf q r qf1) as Hwf1 by (by apply set_elem_wf).
    assert (forall o, 0 < o < N -> elem_at qf1 (s + o) = elem_at qf (s + o)) as He1.
    { intros o Ho. unfold qf1. rewrite elem_set by done. rewrite (proj2 (Z.eqb_neq _ _)); [done|]. by apply window_neq. }
    assert (elem_at qf1 s = curr1) as Hs1.
    { unfold qf1. rewrite elem_set by done. by rewrite Z.eqb_refl. }
    destruct (IH qf1 (s + 1) prev) as (qf' & Hrun & Hst); try done; try lia.
    { intros i Hi. replace i with (s + (i - s)) by lia. rewrite He1 by lia. apply Hne. lia. }
    { replace f with (s + (f - s)) by lia. rewrite He1 by lia. rewrite <- Hem. do 2 f_equal. lia. }
    exists qf'. split.
    + rewrite <- Hrun. rewrite <- incr_mod with (qf := qf1) by done. unfold qf1, prev, curr1.
      by destruct (is_occupied (elem_at qf s)).
    + apply (shifted_table_more qf qf1 qf' s f curr prev); try done; try lia; rewrite ?Hs1; unfold curr1, prev;
        destruct (is_occupied (elem_at qf s)) eqn:Eo; autorewrite with qf; done.
Qed.

(** ** Insertion on tables and layouts *)

Definition joins_run (slot : slots_t) (p fq : Z) : bool :=
  match slot p with Some (d, _) => p - d =? fq | None => false end.

Section represent_insert.
Context (slot : slots_t) (s f fq fr : Z) (HN : 2 <= N).
Context (Hlay : layout N slot) (Hip : insert_place N slot s f fq fr).
Local Abbreviation slot' := (insert_slot N slot s f fq fr).

Lemma window_index i : exists k o, i = s + o + k * N /\ 0 <= o < N.
Proof.
  exists ((i - s) / N), ((i - s) mod N). pose proof (Z.div_mod (i - s) N). pose proof (Z.mod_pos_bound (i - s) N).
  split; lia.
Qed.

Lemma elem_window qf o k : elem_at qf (s + o + k * N) = elem_at qf (s + o).
Proof. unfold elem_at. by rewrite Z.mod_add by lia. Qed.

Lemma insert_at o k : 0 <= o < N -> slot' (s + o + k * N) =
  (if o =? 0 then Some (s - fq, fr) else if o <=? f - s then move_up (slot (s + o - 1)) else slot (s + o)).
Proof. by apply insert_slot_at. Qed.

Lemma insert_continuation o k : 0 <= o < N ->
  continuation slot' (s + o + k * N) =
    if o =? 0 then joins_run slot (s - 1) fq
    else if o <=? f - s then (if o =? 1 then joins_run slot s fq else continuation slot (s + o - 1))
    else continuation slot (s + o).
Proof.
  intros Ho. pose proof (room_after N slot s f fq fr Hip) as Hroom. destruct (ip_order _ _ _ _ _ _ Hip) as [Hqs Hsf].
  unfold continuation at 1. rewrite insert_at by done. destruct (Z.eqb_spec o 0) as [->|Hne].
  - replace (s + 0 + k * N - 1) with (s + (N - 1) + (k - 1) * N) by lia. rewrite insert_at by lia.
    rewrite (proj2 (Z.eqb_neq _ _)), (proj2 (Z.leb_gt _ _)) by lia.
    replace (s + (N - 1)) with (s - 1 + N) by lia. rewrite (lay_period _ _ Hlay). unfold joins_run.
    destruct (slot (s - 1)) as [[d' r']|]; [|done]. destruct (Z.eqb_spec (s - fq) (d' + 1)), (Z.eqb_spec (s - 1 - d') fq); done || lia.
  - destruct (Z.leb_spec o (f - s)) as [Hof|Hof].
    + replace (s + o + k * N - 1) with (s + (o - 1) + k * N) by lia. rewrite insert_at by lia.
      destruct (filled_Some slot _ _ (s + o - 1) (ip_filled _ _ _ _ _ _ Hip) ltac:(lia)) as (d & rem & Hd).
      rewrite Hd. cbn [move_up]. destruct (Z.eqb_spec o 1) as [->|Ho1].
      * replace (s + 1 - 1) with s in Hd by lia. unfold joins_run. rewrite Hd. change (1 - 1 =? 0) with true. cbv iota.
        destruct (Z.eqb_spec (d + 1) (s - fq + 1)), (Z.eqb_spec (s - d) fq); done || lia.
      * rewrite (proj2 (Z.eqb_neq _ _)), (proj2 (Z.leb_le _ _)) by lia.
        unfold continuation. rewrite Hd. replace (s + (o - 1) - 1) with (s + o - 1 - 1) by lia.
        destruct (slot (s + o - 1 - 1)) as [[d' r']|]; [|done]. cbn [move_up].
        destruct (Z.eqb_spec (d + 1) (d' + 1 + 1)), (Z.eqb_spec d (d' + 1)); done || lia.
    + destruct (slot (s + o)) as [[d rem]|] eqn:Ed; unfold continuation; rewrite Ed; [|done].
      destruct (decide (o - 1 = f - s)) as [E|E].
      * assert (slot (s + o - 1) = None) as Hf by (rewrite <- (ip_free _ _ _ _ _ _ Hip); f_equal; lia).
        rewrite Hf. destruct (step_at N slot Hlay _ _ _ Ed) as [_ [->|(d' & r' & Hd' & _)]]; [|congruence].
        destruct (slot' (s + o + k * N - 1)) as [[d' r']|] eqn:E'; [|done].
        pose proof (insert_layout N HN slot Hlay s f fq fr Hip) as Hlay'.
        destruct (step_at N _ Hlay' _ _ _ E') as [? _]. apply Z.eqb_neq. lia.
      * replace (s + o + k * N - 1) with (s + (o - 1) + k * N) by lia. rewrite insert_at by lia.
        rewrite (proj2 (Z.eqb_neq _ _)), (proj2 (Z.leb_gt _ _)) by lia. by replace (s + (o - 1)) with (s + o - 1) by lia.
Qed.

(** A table with the bits an insertion leaves stores the new layout. *)
Lemma insert_table_of qf' :
  qf_wf q r qf' ->
  (forall i, is_occupied (elem_at qf' i) = true <-> occupied slot i \/ i mod N = fq mod N) ->
  (forall o, 0 <= o < N -> is_continuation (elem_at qf' (s + o)) =
    if o =? 0 then joins_run slot (s - 1) fq
    else if o <=? f - s then (if o =? 1 then joins_run slot s fq else continuation slot (s + o - 1))
    else continuation slot (s + o)) ->
  (forall o, 0 <= o < N -> is_shifted (elem_at qf' (s + o)) =
    if o =? 0 then negb (s =? fq) else if o <=? f - s then true else shifted slot (s + o)) ->
  (forall o d rem, 0 <= o < N -> slot' (s + o) = Some (d, rem) -> get_remainder (elem_at qf' (s + o)) = rem) ->
  table_of qf' slot' (occupied slot').
Proof.
  intros Hwf Hocc Hcont Hsh Hrem.
  pose proof (insert_layout N HN slot Hlay s f fq fr Hip) as Hlay'. destruct (ip_order _ _ _ _ _ _ Hip) as [Hqs Hsf].
  split; [done|..].
  - intros i. rewrite Hocc. unfold occupied. setoid_rewrite (insert_holds N HN slot Hlay s f fq fr Hip).
    split; [intros [[rem ?]|?]; eauto|intros [rem [?|[? _]]]; eauto].
  - intros i. destruct (window_index i) as (k & o & -> & Ho). rewrite elem_window, Hcont by done.
    by rewrite insert_continuation.
  - intros i. destruct (window_index i) as (k & o & -> & Ho). rewrite elem_window, Hsh by done.
    unfold shifted. rewrite insert_at by done. destruct (Z.eqb_spec o 0) as [->|].
    + destruct (Z.eqb_spec s fq), (Z.ltb_spec 0 (s - fq)); done || lia.
    + destruct (Z.leb_spec o (f - s)); [|done].
      destruct (filled_Some slot _ _ (s + o - 1) (ip_filled _ _ _ _ _ _ Hip) ltac:(lia)) as (d & rem & Hd).
      rewrite Hd. cbn [move_up]. destruct (step_at N slot Hlay _ _ _ Hd). symmetry. apply Z.ltb_lt. lia.
  - intros i d rem. destruct (window_index i) as (k & o & -> & Ho). rewrite elem_window. intros H.
    apply (Hrem o d rem Ho). rewrite <- H. rewrite insert_at by done.
    replace (s + o) with (s + o + 0 * N) at 1 by lia. by rewrite insert_at.
Qed.

(** The bits [insert_into] leaves are those of the new layout. *)
Lemma insert_into_table qf qf' entry :
  qf_wf q r qf ->
  (forall i, is_occupied (elem_at qf i) = true <-> occupied slot i \/ i mod N = fq mod N) ->
  (forall o, 0 <= o < N -> is_continuation (elem_at qf (s + o)) =
    if o =? 0 then joins_run slot s fq else continuation slot (s + o)) ->
  (forall i, is_shifted (elem_at qf i) = shifted slot i) ->
  (forall i d rem, slot i = Some (d, rem) -> get_remainder (elem_at qf i) = rem) ->
  is_continuation entry = joins_run slot (s - 1) fq -> is_shifted entry = negb (s =? fq) -> get_remainder entry = fr ->
  shifted_table qf qf' s f entry -> table_of qf' slot' (occupied slot').
Proof.
  intros Hwf Hocc Hcont Hsh Hrem Hec Hes Her [Hwf' _ Ho' Hc' Hs' Hr']. apply insert_table_of; [done|..].
  - intros i. destruct (window_index i) as (k & o & -> & Ho). rewrite elem_window, Ho' by done.
    rewrite <- Hocc. by rewrite elem_window.
  - intros o Ho. rewrite Hc' by done. destruct (Z.eqb_spec o 0); [done|]. destruct (Z.leb_spec o (f - s)).
    + replace (s + o - 1) with (s + (o - 1)) by lia. rewrite Hcont by lia.
      destruct (Z.eqb_spec (o - 1) 0), (Z.eqb_spec o 1); done || lia.
    + rewrite Hcont by lia. by rewrite (proj2 (Z.eqb_neq o 0)).
  - intros o Ho. rewrite Hs', Hes, Hsh by done. done.
  - intros o d rem Ho. replace (s + o) with (s + o + 0 * N) at 1 by lia. rewrite insert_at, Hr' by done.
    destruct (Z.eqb_spec o 0); [by intros [= _ <-]|]. destruct (Z.leb_spec o (f - s)); [|apply Hrem].
    destruct (slot (s + o - 1)) as [[d' r']|] eqn:E; [|done]. intros [= _ <-]. by eapply Hrem.
Qed.
End represent_insert.

(** ** Insertion *)

(** The filter stores exactly the fingerprints of [slot]. *)
Record represents (qf : quotient_filter) (slot : slots_t) : Prop := {
  rep_table : table_of qf slot (occupied slot);
  rep_layout : layout N slot;
}.

(** At least [n] slots are free. *)
Definition free_slots (slot : slots_t) (n : nat) : Prop :=
  exists fl, NoDup fl /\ Forall (fun e => 0 <= e < N /\ slot e = None) fl /\ (n <= length fl)%nat.

Lemma wf_with_entries qf n : qf_wf q r qf -> qf_wf q r (with_entries qf n).
Proof. by intros []. Qed.

Lemma table_with_entries qf slot occ n : table_of qf slot occ -> table_of (with_entries qf n) slot occ.
Proof. intros [H1 H2 H3 H4 H5]. split; [by apply wf_with_entries|done..]. Qed.

Lemma free_slots_other slot n f : free_slots slot n -> (2 <= n)%nat -> 2 <= N -> layout N slot ->
  exists e, slot e = None /\ e mod N <> f mod N.
Proof.
  intros (fl & Hnd & Hfl & Hlen) Hn HN Hlay. destruct fl as [|a [|b fl]]; [cbn in Hlen; lia|cbn in Hlen; lia|].
  apply NoDup_cons in Hnd as [Hab _]. apply Forall_cons in Hfl as [[Ha Ha2] Hfl]. apply Forall_cons in Hfl as [[Hb Hb2] _].
  destruct (decide (a mod N = f mod N)) as [E|]; [|by exists a]. exists b. split; [done|]. rewrite <- E.
  rewrite !Z.mod_small by done. intros ->. apply Hab. by apply list_elem_of_here.
Qed.

Lemma free_slots_insert slot n s f fq fr : 2 <= N -> layout N slot -> insert_place N slot s f fq fr ->
  free_slots slot n -> free_slots (insert_slot N slot s f fq fr) (n - 1).
Proof.
  intros HN Hlay Hip (fl & Hnd & Hfl & Hlen). exists (filter (fun e => e <> f mod N) fl). split_ands.
  - by apply NoDup_filter.
  - apply Forall_forall. intros e [Hne He]%list_elem_of_filter. rewrite Forall_forall in Hfl.
    destruct (Hfl e He) as [Hr Hf]. split; [done|]. apply insert_free; try done. split; [done|]. by rewrite Z.mod_small.
  - pose proof (length_without (f mod N) fl Hnd). lia.
Qed.

(** The place [scan_place] finds is a place to insert. *)
Lemma scan_insert_place slot fq fr t n : 2 <= N -> layout N slot -> free_slots slot n -> (2 <= n)%nat ->
  scan_place slot fq fr t -> exists f, insert_place N slot t f fq fr.
Proof.
  intros HN Hlay Hfree Hn [Hle Hf Hb Ha]. destruct (first_free N HN slot Hlay t) as (f & Htf & Hff & Hfill).
  exists f. split; [lia|done|done| | |done].
  - destruct (free_slots_other slot n f Hfree Hn HN Hlay) as (e & He & Hne).
    exists (t + (e - t) mod N). pose proof (Z.mod_pos_bound (e - t) N ltac:(lia)) as Hb2.
    assert ((t + (e - t) mod N) mod N = e mod N) as Hm by (rewrite Zplus_mod_idemp_r; f_equal; lia).
    assert (slot (t + (e - t) mod N) = None) as Hs by (rewrite <- He; by apply (slot_cong N HN slot Hlay)).
    split; [|done]. split; [|lia].
    destruct (Z.lt_trichotomy f (t + (e - t) mod N)) as [?|[Ee|?]]; [done| |].
    + by rewrite <- Ee in Hm.
    + exfalso. apply (Hfill (t + (e - t) mod N)); [lia|done].
  - intros Hlt. destruct (filled_Some slot _ _ (t - 1) Hf ltac:(lia)) as (d & rem & Hd). exists d, rem.
    split; [done|]. apply (Hb (t - 1) d rem); [lia|done].
Qed.

(** The end of [qf_insert], on a table prepared for the insertion at [s]. *)
Lemma insert_entry_spec qf slot s f fq fr entry :
  2 <= N -> layout N slot -> insert_place N slot s f fq fr -> s < fq + N ->
  slot fq <> None -> qf_wf q r qf ->
  (forall i, is_occupied (elem_at qf i) = true <-> occupied slot i \/ i mod N = fq mod N) ->
  (forall o, 0 <= o < N -> is_continuation (elem_at qf (s + o)) =
    if o =? 0 then joins_run slot s fq else continuation slot (s + o)) ->
  (forall i, is_shifted (elem_at qf i) = shifted slot i) ->
  (forall i d rem, slot i = Some (d, rem) -> get_remainder (elem_at qf i) = rem) ->
  0 <= entry < 2 ^ (r + 3) -> is_occupied entry = false -> is_shifted entry = false ->
  is_continuation entry = joins_run slot (s - 1) fq -> get_remainder entry = fr ->
  exists qf', insert_entry qf (fq mod N) (s mod N) entry = Some (true, qf') /\
    table_of qf' (insert_slot N slot s f fq fr) (occupied (insert_slot N slot s f fq fr)) /\
    qf_entries qf' = u32 (qf_entries qf + 1).
Proof.
  intros HN Hlay Hip Hsn Hfq Hwf Hocc Hcont Hsh Hrem Her Heo Hes Hec Hemr. unfold insert_entry.
  pose proof (wf_r _ _ _ Hwf) as Hr. pose proof (room_after N slot s f fq fr Hip) as Hroom.
  destruct (ip_order _ _ _ _ _ _ Hip) as [Hqs Hsf].
  assert ((s mod N =? fq mod N) = (s =? fq)) as ->.
  { destruct (Z.eqb_spec s fq) as [->|Hne]; [apply Z.eqb_refl|]. apply Z.eqb_neq.
    replace s with (fq + (s - fq)) by lia. apply window_neq. lia. }
  set (e := if negb (s =? fq) then set_shifted entry else entry).
  assert (0 <= e < 2 ^ (r + 3) /\ is_occupied e = false /\ is_shifted e = negb (s =? fq) /\
          is_continuation e = joins_run slot (s - 1) fq /\ get_remainder e = fr) as (E1 & E2 & E3 & E4 & E5).
  { unfold e. destruct (s =? fq); cbn [negb]; autorewrite with qf; (split; [|done]); [done|].
    apply set_shifted_range; [lia|done]. }
  destruct (insert_into_spec (steps qf) qf s f e) as (qf' & -> & Hst); try done; [..|lia| |].
  - intros i Hi. rewrite is_empty_bits. destruct (filled_Some slot _ _ i (ip_filled _ _ _ _ _ _ Hip) ltac:(lia)) as (d & rem & Hd).
    rewrite Hsh. destruct (shifted slot i) eqn:Es; [by rewrite orb_true_r|].
    rewrite (proj2 (Hocc i)); [done|]. left. by eapply (not_shifted_occupied N).
  - pose proof (ip_free _ _ _ _ _ _ Hip) as Hf.
    assert (f mod N <> fq mod N) as Hfm by (intros E; rewrite (slot_cong N HN slot Hlay f fq E) in Hf; done).
    rewrite is_empty_bits, Hsh, free_not_shifted by done.
    assert (is_occupied (elem_at qf f) = false) as ->.
    { destruct (is_occupied (elem_at qf f)) eqn:E; [|done]. apply Hocc in E as [Ho|?]; [|done].
      by apply (free_not_occupied N slot Hlay f Hf) in Ho. }
    replace f with (s + (f - s)) by lia. rewrite Hcont by lia. replace (s + (f - s)) with f by lia.
    rewrite free_not_continuation by done. unfold joins_run. destruct (Z.eqb_spec (f - s) 0); [|done].
    replace s with f by lia. by rewrite Hf.
  - rewrite steps_slots by done. lia.
  - cbn [mbind option_bind]. eexists. split; [done|]. split; [|cbn; by rewrite (st_entries _ _ _ _ _ Hst)].
    apply table_with_entries. eapply (insert_into_table slot s f fq fr); eassumption.
Qed.

Section operations.
Context (qf : quotient_filter) (slot : slots_t) (Hrep : represents qf slot).
Let Hto : table_of qf slot (occupied slot) := rep_table _ _ Hrep.
Let Hlay : layout N slot := rep_layout _ _ Hrep.
Let Hwf : qf_wf q r qf := to_wf _ _ _ Hto.
Let HN : 2 <= N := slots_pos qf Hwf.

Lemma quotient_mod hash : 0 <= hash -> hash_to_quotient qf hash = (hash / 2 ^ r) mod N.
Proof.
  intros Hh. unfold hash_to_quotient. rewrite (wf_rbits _ _ _ Hwf), (wf_index_mask _ _ _ Hwf).
  pose proof (wf_q _ _ _ Hwf). pose proof (wf_r _ _ _ Hwf). rewrite Z.land_ones, Z.shiftr_div_pow2 by lia. done.
Qed.

Lemma remainder_mod hash : hash_to_remainder qf hash = hash mod 2 ^ r.
Proof.
  unfold hash_to_remainder. rewrite (wf_rmask _ _ _ Hwf). pose proof (wf_r _ _ _ Hwf). by rewrite Z.land_ones by lia.
Qed.

Lemma occupied_cong i j : i mod N = j mod N -> occupied slot i -> occupied slot j.
Proof.
  intros E [rem H]. exists rem. pose proof (Z.div_mod i N ltac:(lia)). pose proof (Z.div_mod j N ltac:(lia)).
  replace j with (i + (j / N - i / N) * N) by lia. by apply (holds_period N HN slot Hlay).
Qed.

Lemma empty_free i : is_empty_element (elem_at qf i) = true <-> slot i = None.
Proof.
  rewrite is_empty_bits, (to_cont _ _ _ Hto), (to_shifted _ _ _ Hto). pose proof (to_occ _ _ _ Hto i) as Ho.
  destruct (slot i) as [[d rem]|] eqn:E.
  - split; [|done]. destruct (shifted slot i) eqn:Es; [by rewrite orb_true_r|].
    rewrite (proj2 Ho); [done|]. by eapply (not_shifted_occupied N).
  - split; [done|]. intros _. rewrite free_not_shifted, free_not_continuation by done.
    destruct (is_occupied (elem_at qf i)); [|done]. exfalso. by apply (free_not_occupied N slot Hlay i E), Ho.
Qed.

Lemma occupied_used i : occupied slot i -> slot i <> None.
Proof. intros Ho E. by apply (free_not_occupied N slot Hlay i E). Qed.

(** Lookup answers exactly for the fingerprints stored. *)
Lemma qf_may_contain_spec hash : 0 <= hash ->
  exists b, qf_may_contain qf hash = Some b /\ (b = true <-> holds slot ((hash / 2 ^ r) mod N) (hash mod 2 ^ r)).
Proof.
  intros Hh. unfold qf_may_contain. rewrite quotient_mod, remainder_mod by done.
  set (fq := (hash / 2 ^ r) mod N). set (fr := hash mod 2 ^ r).
  assert (fq mod N = fq) as Hfq by (apply Z.mod_small; eapply index_range; eassumption).
  assert (elem_at qf fq = get_elem qf fq) as <- by (unfold elem_at; by rewrite Hfq).
  pose proof (to_occ _ _ _ Hto fq) as Ho. destruct (is_occupied (elem_at qf fq)) eqn:Eo; cbn [negb].
  - assert (occupied slot fq) as Hoc by (by apply Ho). pose proof (occupied_used fq Hoc) as Hne.
    destruct (find_run_index_spec qf slot (occupied slot) Hto Hlay fq) as (s & Hs & Hrp); [|done|].
    { intros i. split; [by left|]. intros [?|E]; [done|]. by eapply occupied_cong. }
    rewrite <- Hfq, Hs. cbn [mbind option_bind]. rewrite scan_run_position.
    destruct (run_position qf slot (occupied slot) Hto Hlay fq fr s Hrp Hoc Hne) as (x & -> & Hx).
    destruct x as [u|y]; eexists; (split; [done|]); rewrite Hfq; split; try done.
    intros Hh2. destruct Hx as (t & _ & _ & Hsp & _). by apply (scan_place_fresh slot Hlay) in Hsp.
  - exists false. split; [done|]. split; [done|]. intros Hh2. apply Ho. by exists fr.
Qed.

(** *** The three ways of an insertion *)

Section insertion.
Context (fq fr entry : Z) (n : nat).
Context (Hentry : 0 <= entry < 2 ^ (r + 3)) (Heo : is_occupied entry = false) (Hec : is_continuation entry = false).
Context (Hes : is_shifted entry = false) (Her : get_remainder entry = fr).
Context (Hfree : free_slots slot n) (Hn : (2 <= n)%nat).

(** What insertion at [s] has to give. *)
Definition inserted (qf' : quotient_filter) : Prop :=
  exists s f, insert_place N slot s f fq fr /\ qf_entries qf' = u32 (qf_entries qf + 1) /\
    table_of qf' (insert_slot N slot s f fq fr) (occupied (insert_slot N slot s f fq fr)).

(** The canonical slot is free. *)
Lemma insert_canonical :
  slot fq = None -> inserted (with_entries (set_elem qf (fq mod N) (set_occupied entry)) (u32 (qf_entries qf + 1))).
Proof.
  intros Hf. pose proof (wf_r _ _ _ Hwf) as Hr.
  assert (scan_place slot fq fr fq) as Hsp.
  { split; [lia|intros i Hi; lia|intros; lia|]. intros d rem Hd. congruence. }
  destruct (scan_insert_place slot fq fr fq n HN Hlay Hfree Hn Hsp) as [f Hip].
  assert (f = fq) as ->.
  { destruct (ip_order _ _ _ _ _ _ Hip). destruct (decide (f = fq)); [done|]. exfalso.
    apply (ip_filled _ _ _ _ _ _ Hip fq); [lia|done]. }
  exists fq, fq. split; [done|]. split; [done|]. apply table_with_entries.
  assert (forall i, elem_at (set_elem qf (fq mod N) (set_occupied entry)) i =
    if i mod N =? fq mod N then set_occupied entry else elem_at qf i) as He.
  { intros i. apply elem_set; [done|]. apply set_occupied_range; [lia|done]. }
  assert (forall o, 0 <= o < N -> elem_at (set_elem qf (fq mod N) (set_occupied entry)) (fq + o) =
    if o =? 0 then set_occupied entry else elem_at qf (fq + o)) as Ho.
  { intros o Ho. rewrite He. destruct (Z.eqb_spec o 0) as [->|]; [by rewrite Z.add_0_r, Z.eqb_refl|].
    rewrite (proj2 (Z.eqb_neq _ _)); [done|]. apply window_neq. lia. }
  apply insert_table_of; try done.
  - by apply set_elem_wf.
  - intros i. rewrite He. destruct (Z.eqb_spec (i mod N) (fq mod N)).
    + autorewrite with qf. split; [by right|done].
    + rewrite (to_occ _ _ _ Hto). split; [by left|by intros [?|?]].
  - intros o Hb. rewrite Ho by done. destruct (Z.eqb_spec o 0) as [->|].
    + autorewrite with qf. rewrite Hec. unfold joins_run. destruct (slot (fq - 1)) as [[d rem]|] eqn:E; [|done].
      destruct (step_at N slot Hlay _ _ _ E). symmetry. apply Z.eqb_neq. lia.
    + rewrite (proj2 (Z.leb_gt _ _)) by lia. apply (to_cont _ _ _ Hto).
  - intros o Hb. rewrite Ho by done. destruct (Z.eqb_spec o 0) as [->|].
    + autorewrite with qf. by rewrite Hes, Z.eqb_refl.
    + rewrite (proj2 (Z.leb_gt _ _)) by lia. apply (to_shifted _ _ _ Hto).
  - intros o d rem Hb. replace (fq + o) with (fq + o + 0 * N) at 1 by lia. rewrite insert_at by done.
    rewrite Ho by done. destruct (Z.eqb_spec o 0) as [->|].
    + intros [= _ <-]. by autorewrite with qf.
    + rewrite (proj2 (Z.leb_gt _ _)) by lia. apply (to_rem _ _ _ Hto).
Qed.

(** The slots before the place of a run have smaller quotients. *)
Lemma run_place_before s : run_place slot fq s -> joins_run slot (s - 1) fq = false.
Proof.
  intros [Hle Hf Hb _]. unfold joins_run. destruct (slot (s - 1)) as [[d rem]|] eqn:E; [|done].
  apply Z.eqb_neq. destruct (decide (fq <= s - 1)) as [|Hlt]; [specialize (Hb (s - 1) d rem ltac:(lia) E); lia|].
  destruct (step_at N slot Hlay _ _ _ E). lia.
Qed.

Lemma scan_place_window s t : run_place slot fq s -> slot fq <> None -> scan_place slot fq fr t -> t < fq + N.
Proof.
  intros Hrp Hne [Hle Hf _ _]. destruct (run_end qf slot (occupied slot) Hto Hlay fq s Hrp Hne) as (e & He & Hfe & _).
  pose proof (rp_le _ _ _ Hrp). destruct (decide (t <= e)); [lia|]. exfalso. apply (Hf e); [lia|done].
Qed.

(** The run of [fq] is new. *)
Lemma insert_new_run :
  slot fq <> None -> ~ occupied slot fq ->
  exists s qf', find_run_index (set_elem qf (fq mod N) (set_occupied (elem_at qf fq))) (fq mod N) = Some s /\
    insert_entry (set_elem qf (fq mod N) (set_occupied (elem_at qf fq))) (fq mod N) s entry = Some (true, qf') /\
    inserted qf'.
Proof.
  intros Hne Hno. set (qf1 := set_elem qf (fq mod N) (set_occupied (elem_at qf fq))).
  pose proof (wf_r _ _ _ Hwf) as Hr.
  assert (forall i, elem_at qf1 i = if i mod N =? fq mod N then set_occupied (elem_at qf i) else elem_at qf i) as He.
  { intros i. unfold qf1. rewrite elem_set; [|done|].
    - destruct (Z.eqb_spec (i mod N) (fq mod N)) as [E|]; [|done]. unfold elem_at. by rewrite E.
    - apply set_occupied_range; [lia|]. by apply elem_range. }
  assert (table_of qf1 slot (fun i => occupied slot i \/ i mod N = fq mod N)) as Hto1.
  { split; [by apply set_elem_wf|..].
    - intros i. rewrite He. destruct (Z.eqb_spec (i mod N) (fq mod N)).
      + autorewrite with qf. split; [by right|done].
      + rewrite (to_occ _ _ _ Hto). split; [by left|by intros [?|?]].
    - intros i. rewrite He. destruct (_ =? _); autorewrite with qf; apply (to_cont _ _ _ Hto).
    - intros i. rewrite He. destruct (_ =? _); autorewrite with qf; apply (to_shifted _ _ _ Hto).
    - intros i d rem Hd. rewrite He. destruct (_ =? _); autorewrite with qf; by eapply (to_rem _ _ _ Hto). }
  destruct (find_run_index_spec qf1 slot _ Hto1 Hlay fq ltac:(done) Hne) as (s & Hs & Hrp).
  assert (scan_place slot fq fr s) as Hsp.
  { destruct Hrp as [Hle Hf Hb Ha]. split; [done|done|intros; left; by eapply Hb|].
    intros d rem Hd. left. specialize (Ha _ _ Hd). destruct (decide (fq = s - d)) as [E|]; [|lia].
    exfalso. apply Hno. exists rem, s. rewrite Hd. do 2 f_equal. lia. }
  destruct (scan_insert_place slot fq fr s n HN Hlay Hfree Hn Hsp) as [f Hip].
  assert (joins_run slot s fq = false) as Hjs.
  { unfold joins_run. destruct (slot s) as [[d rem]|] eqn:E; [|done]. apply Z.eqb_neq. intros Ee.
    apply Hno. exists rem, s. rewrite E. do 2 f_equal. lia. }
  assert (continuation slot s = false) as Hcs.
  { unfold continuation. destruct (slot s) as [[d rem]|] eqn:E; [|done].
    destruct (slot (s - 1)) as [[d' r']|] eqn:E'; [|done]. apply Z.eqb_neq. intros Ee.
    destruct (sp_after _ _ _ _ Hsp _ _ E) as [Hlt|[Heq _]].
    - destruct (decide (fq <= s - 1)); [pose proof (rp_before _ _ _ Hrp (s - 1) d' r' ltac:(lia) E'); lia|].
      destruct (step_at N slot Hlay _ _ _ E). pose proof (rp_le _ _ _ Hrp). lia.
    - unfold joins_run in Hjs. rewrite E in Hjs. apply Z.eqb_neq in Hjs. lia. }
  destruct (insert_entry_spec qf1 slot s f fq fr entry) as (qf' & Hr1 & Hr2 & Hr3); try done.
  - by eapply scan_place_window.
  - apply (to_wf _ _ _ Hto1).
  - apply (to_occ _ _ _ Hto1).
  - intros o Ho. rewrite (to_cont _ _ _ Hto1). destruct (Z.eqb_spec o 0) as [->|]; [|done]. rewrite Z.add_0_r. congruence.
  - apply (to_shifted _ _ _ Hto1).
  - apply (to_rem _ _ _ Hto1).
  - by rewrite Hec, run_place_before.
  - exists (s mod N), qf'. split_ands; [done|done|]. exists s, f. by split_ands.
Qed.

(** The place in a run of [fq] found by the scan. *)
Lemma insert_in_run s t :
  slot fq <> None -> occupied slot fq -> run_place slot fq s -> scan_place slot fq fr t -> s <= t ->
  (s < t -> exists rem', slot (t - 1) = Some (t - 1 - fq, rem')) ->
  exists qf',
    (if t mod N =? s mod N
     then insert_entry (set_elem qf (s mod N) (set_continuation (get_elem qf (s mod N)))) (fq mod N) (t mod N) entry
     else insert_entry qf (fq mod N) (t mod N) (set_continuation entry)) = Some (true, qf') /\ inserted qf'.
Proof.
  intros Hne Hocc Hrp Hsp Hst Hlast. pose proof (wf_r _ _ _ Hwf) as Hr. pose proof (rp_le _ _ _ Hrp) as Hqs.
  pose proof (scan_place_window s t Hrp Hne Hsp) as Htw.
  destruct (scan_insert_place slot fq fr t n HN Hlay Hfree Hn Hsp) as [f Hip].
  assert (forall i, occupied slot i <-> occupied slot i \/ i mod N = fq mod N) as Ho2.
  { intros i. split; [by left|]. intros [?|E]; [done|]. by eapply occupied_cong. }
  destruct (decide (t = s)) as [->|Hts].
  - rewrite Z.eqb_refl. fold (elem_at qf s). set (qf1 := set_elem qf (s mod N) (set_continuation (elem_at qf s))).
    assert (forall i, elem_at qf1 i = if i mod N =? s mod N then set_continuation (elem_at qf i) else elem_at qf i) as He.
    { intros i. unfold qf1. rewrite elem_set; [|done|].
      - destruct (Z.eqb_spec (i mod N) (s mod N)) as [E|]; [|done]. unfold elem_at. by rewrite E.
      - apply set_continuation_range; [lia|]. by apply elem_range. }
    destruct (run_head slot Hlay fq s Hrp Hocc) as [rem Hs].
    destruct (insert_entry_spec qf1 slot s f fq fr entry) as (qf' & Hr1 & Hr2 & Hr3); try done.
    + by apply set_elem_wf.
    + intros i. rewrite <- Ho2, He. destruct (_ =? _); autorewrite with qf; apply (to_occ _ _ _ Hto).
    + intros o Ho. rewrite He. destruct (Z.eqb_spec o 0) as [->|].
      * rewrite Z.add_0_r, Z.eqb_refl. autorewrite with qf. unfold joins_run. rewrite Hs. symmetry. apply Z.eqb_eq. lia.
      * rewrite (proj2 (Z.eqb_neq _ _)) by (apply window_neq; lia). apply (to_cont _ _ _ Hto).
    + intros i. rewrite He. destruct (_ =? _); autorewrite with qf; apply (to_shifted _ _ _ Hto).
    + intros i d rem' Hd. rewrite He. destruct (_ =? _); autorewrite with qf; by eapply (to_rem _ _ _ Hto).
    + by rewrite Hec, run_place_before.
    + exists qf'. split; [done|]. exists s, f. by split_ands.
  - destruct (Hlast ltac:(lia)) as [rl Hl].
    rewrite (proj2 (Z.eqb_neq _ _)) by (replace t with (s + (t - s)) by lia; apply window_neq; lia).
    destruct (insert_entry_spec qf slot t f fq fr (set_continuation entry)) as (qf' & Hr1 & Hr2 & Hr3);
      autorewrite with qf; try done.
    + intros i. rewrite <- Ho2. apply (to_occ _ _ _ Hto).
    + intros o Ho. rewrite (to_cont _ _ _ Hto). destruct (Z.eqb_spec o 0) as [->|]; [|done]. rewrite Z.add_0_r.
      unfold continuation, joins_run. rewrite Hl. destruct (slot t) as [[d rem]|]; [|done].
      destruct (Z.eqb_spec d (t - 1 - fq + 1)), (Z.eqb_spec (t - d) fq); done || lia.
    + apply (to_shifted _ _ _ Hto).
    + apply (to_rem _ _ _ Hto).
    + apply set_continuation_range; [lia|done].
    + unfold joins_run. rewrite Hl. symmetry. apply Z.eqb_eq. lia.
    + exists qf'. split; [done|]. exists t, f. by split_ands.
Qed.
End insertion.

(** Insertion adds the fingerprint. *)
Lemma qf_insert_spec hash n : 0 <= hash -> free_slots slot n -> (2 <= n)%nat -> 0 <= qf_entries qf < N - 1 ->
  exists qf' slot', qf_insert qf hash = Some (true, qf') /\ represents qf' slot' /\
    (forall q' r', holds slot' q' r' <-> holds slot q' r' \/ (q' mod N = (hash / 2 ^ r) mod N /\ r' = hash mod 2 ^ r)) /\
    free_slots slot' (n - 1) /\ qf_entries qf <= qf_entries qf' <= qf_entries qf + 1.
Proof.
  intros Hh Hfree Hn Hent. unfold qf_insert. rewrite (wf_max_size _ _ _ Hwf), (proj2 (Z.leb_gt _ _)) by lia.
  rewrite quotient_mod, remainder_mod by done. set (fq := (hash / 2 ^ r) mod N). set (fr := hash mod 2 ^ r).
  assert (fq mod N = fq) as Hfq by (apply Z.mod_small; eapply index_range; eassumption).
  assert (elem_at qf fq = get_elem qf fq) as Helt by (unfold elem_at; by rewrite Hfq).
  pose proof (wf_r _ _ _ Hwf) as Hr. pose proof (slots_word qf Hwf) as H32.
  assert (0 <= fr < 2 ^ r) as Hfr by (apply Z.mod_pos_bound, Z.pow_pos_nonneg; lia).
  assert (u32 (qf_entries qf + 1) = qf_entries qf + 1) as Hu by (apply wrap_small; lia).
  destruct (new_entry r ltac:(lia) fr Hfr ltac:(lia)) as (N1 & N2 & N3 & N4 & N5).
  set (entry := Z.land (u64 (Z.shiftl fr 3)) (Z.lnot 7)) in *.
  (* an insertion done as [inserted] says is what is claimed *)
  assert (forall res qf', res = Some (true, qf') -> inserted fq fr qf' ->
    exists qf' slot', res = Some (true, qf') /\ represents qf' slot' /\
      (forall q' r', holds slot' q' r' <-> holds slot q' r' \/ (q' mod N = fq /\ r' = fr)) /\
      free_slots slot' (n - 1) /\ qf_entries qf <= qf_entries qf' <= qf_entries qf + 1) as Hdone.
  { intros res qf' -> (s & f & Hip & He & Ht). exists qf', (insert_slot N slot s f fq fr).
    split; [done|]. split; [split; [done|by apply insert_layout]|]. split; [|split; [by apply free_slots_insert|lia]].
    intros q' r'. rewrite (insert_holds N HN slot Hlay s f fq fr Hip). by rewrite Hfq. }
  rewrite <- Helt. destruct (is_empty_element (elem_at qf fq)) eqn:Eem.
  { apply empty_free in Eem. pose proof (insert_canonical fq fr entry n N1 N3 N4 N5 Hfree Hn Eem) as Hi.
    rewrite Hfq in Hi. by eapply Hdone. }
  assert (slot fq <> None) as Hne by (intros E%empty_free; congruence).
  pose proof (to_occ _ _ _ Hto fq) as Ho. destruct (is_occupied (elem_at qf fq)) eqn:Eo; cbn [negb].
  - assert (occupied slot fq) as Hoc by (by apply Ho).
    destruct (find_run_index_spec qf slot (occupied slot) Hto Hlay fq) as (s & Hs & Hrp); [|done|].
    { intros i. split; [by left|]. intros [?|E]; [done|]. by eapply occupied_cong. }
    rewrite Hfq in Hs. rewrite Hs. cbn [mbind option_bind].
    destruct (run_position qf slot (occupied slot) Hto Hlay fq fr s Hrp Hoc Hne) as (x & -> & Hx). cbn [mbind option_bind].
    destruct x as [u|y].
    + exists qf, slot. split; [done|]. split; [done|]. split; [|split; [|lia]].
      * intros q' r'. split; [by left|]. intros [?|[E ->]]; [done|].
        pose proof (Z.div_mod q' N ltac:(lia)). replace q' with (fq + q' / N * N) by lia.
        by apply (holds_period N HN slot Hlay).
      * destruct Hfree as (fl & ? & ? & ?). exists fl. split_ands; [done|done|lia].
    + destruct Hx as (t & -> & Hst & Hsp & Hlast).
      destruct (insert_in_run fq fr entry n N1 N2 N3 N4 N5 Hfree Hn s t) as (qf' & Hr1 & Hr2); try done; [lia|].
      rewrite Hfq in Hr1. by eapply Hdone.
  - destruct (insert_new_run fq fr entry n N1 N2 N3 N4 N5 Hfree Hn Hne) as (s & qf' & Hr1 & Hr2 & Hr3);
      [by intros ?%Ho|]. rewrite Hfq in Hr1, Hr2. rewrite Hr1. cbn [mbind option_bind]. by eapply Hdone.
Qed.
End operations.

(** ** A new filter *)

Lemma table_size_spec : 0 < q <= 32 -> 0 < r <= 60 ->
  0 < qf_table_size q r < 2 ^ 40 /\ (r + 3) * N <= 8 * qf_table_size q r.
Proof.
  intros Hq Hr. assert (2 ^ q <= 2 ^ 32) by (apply Z.pow_le_mono_r; lia).
  assert (0 < 2 ^ q) by (apply Z.pow_pos_nonneg; lia).
  unfold qf_table_size. rewrite Z.shiftl_1_l, (wrap_small 64 (2 ^ q)) by lia.
  change (2 ^ 64) with (2 ^ 32 * 2 ^ 32). rewrite wrap_small by (change (2 ^ 64) with (2 ^ 32 * 2 ^ 32); nia).
  assert (2 ^ 40 = 2 ^ 32 * 256) as -> by done.
  destruct (Z.eqb_spec ((2 ^ q * (r + 3)) mod 8) 0); Z.div_mod_to_equations; nia.
Qed.

Lemma aligned_size_spec : 0 < q <= 32 -> 0 < r <= 60 ->
  let n := ceil_page_align (qf_table_size q r) in
  n mod 8 = 0 /\ 0 <= n < 2 ^ 41 /\ (r + 3) * N <= 64 * (n / 8).
Proof.
  intros Hq Hr. destruct (table_size_spec Hq Hr) as [Ht Hb]. cbv zeta.
  unfold ceil_page_align. change PAGE_SIZE with (2 ^ 12).
  destruct (round_up_spec (qf_table_size q r) 12) as [Hm Hb2]; [lia|lia|lia|].
  set (n := round_up (qf_table_size q r) (2 ^ 12)) in *. change (2 ^ 12) with (512 * 8) in Hm.
  apply Z.mod_divide in Hm as [k Hk]; [|lia]. rewrite Hk. replace (k * (512 * 8)) with (k * 512 * 8) by lia.
  rewrite Z.mod_mul, Z.div_mul by lia. change (2 ^ 12) with 4096 in *. lia.
Qed.

Lemma empty_layout : layout N (fun _ => None).
Proof. split; [done|done|by exists 0]. Qed.

Lemma get_elem_zero qf i : (forall j, word (qf_table qf) j = 0) -> get_elem qf i = 0.
Proof.
  intros Hz. unfold get_elem. rewrite !Hz, Z.shiftr_0_l, !Z.land_0_l, Z.shiftl_0_l. by destruct (0 <? _).
Qed.

Lemma represents_empty qf : qf_wf q r qf -> (forall j, word (qf_table qf) j = 0) -> represents qf (fun _ => None).
Proof.
  intros Hwf Hz. split; [|apply empty_layout].
  split; [done|..]; intros i; unfold elem_at; rewrite ?get_elem_zero by done; try done.
  split; [done|]. by intros (rem & p & ?).
Qed.

Lemma qf_init_wf : 0 < q <= 32 -> 0 < r <= 60 -> q + r <= 64 -> exists qf, qf_init q r = Some qf /\ qf_wf q r qf /\
  qf_entries qf = 0 /\ qf_table qf = replicate (Z.to_nat (ceil_page_align (qf_table_size q r) / 8)) 0.
Proof.
  intros Hq Hr Hqr. unfold qf_init. rewrite !(proj2 (Z.eqb_neq _ 0)) by lia. cbn [orb].
  rewrite (wrap_small 32) by lia. rewrite (proj2 (Z.ltb_ge _ _)) by lia.
  assert (2 ^ q <= 2 ^ 32) by (apply Z.pow_le_mono_r; lia). assert (0 < 2 ^ q) by (apply Z.pow_pos_nonneg; lia).
  destruct (aligned_size_spec Hq Hr) as (Hm8 & Hn & Hb).
  eexists. split; [done|]. split; [|done]. rewrite !(wrap_small 8) by (rewrite ?wrap_small; lia).
  rewrite !LOW_MASK_ones by lia. rewrite Z.shiftl_1_l, wrap_small by lia.
  split; cbn [qf_qbits qf_rbits qf_elem_bits qf_index_mask qf_rmask qf_elem_mask qf_max_size qf_table]; try done.
  - rewrite length_replicate. assert (0 <= ceil_page_align (qf_table_size q r) / 8) by (apply Z.div_pos; lia). lia.
  - by apply Forall_replicate.
  - unfold qf_allocated_size. cbn [qf_qbits qf_rbits]. rewrite length_replicate.
    set (m := ceil_page_align (qf_table_size q r)) in *. Z.div_mod_to_equations; lia.
Qed.

Lemma free_slots_empty : 2 <= N -> free_slots (fun _ => None) (Z.to_nat N).
Proof.
  intros HN. exists (Z.of_nat <$> seq 0 (Z.to_nat N)). split_ands.
  - apply NoDup_fmap_2; [apply _|apply NoDup_seq].
  - apply Forall_fmap, Forall_forall. intros i Hi%elem_of_seq. cbn. split; [lia|done].
  - rewrite length_fmap, length_seq. lia.
Qed.
End correct.

(** ** Inserting a list of hashes *)

Fixpoint insert_all (qf : quotient_filter) (hs : list Z) : option quotient_filter :=
  match hs with
  | [] => Some qf
  | h :: hs => x ← qf_insert qf h; insert_all x.2 hs
  end.

Lemma insert_all_spec q r qf slot hs n :
  represents q r qf slot -> Forall (fun h => 0 <= h) hs -> free_slots q slot (n + length hs) -> (1 <= n)%nat ->
  0 <= qf_entries qf -> qf_entries qf + Z.of_nat (length hs) < 2 ^ q ->
  exists qf' slot', insert_all qf hs = Some qf' /\ represents q r qf' slot' /\
    qf_entries qf <= qf_entries qf' <= qf_entries qf + Z.of_nat (length hs) /\
    forall q' r', holds slot' q' r' <-> holds slot q' r' \/
      exists h, h ∈ hs /\ q' mod 2 ^ q = (h / 2 ^ r) mod 2 ^ q /\ r' = h mod 2 ^ r.
Proof.
  revert qf slot. induction hs as [|h hs IH]; intros qf slot Hrep Hhs Hfree Hn H0 Hlen.
  { exists qf, slot. split_ands; [done|done|lia|cbn; lia|]. intros. split; [by left|].
    intros [?|(h & Hh & _)]; [done|]. by apply not_elem_of_nil in Hh. }
  apply Forall_cons in Hhs as [Hh Hhs]. cbn [length] in *.
  destruct (qf_insert_spec q r qf slot Hrep h (n + S (length hs)) Hh Hfree) as (qf1 & slot1 & E1 & Hrep1 & Hh1 & Hf1 & Hen);
    [lia|lia|].
  cbn [insert_all]. rewrite E1. cbn [mbind option_bind snd].
  destruct (IH qf1 slot1) as (qf' & slot' & E & Hrep' & Hen' & Hholds); try done; [|lia|lia|].
  { replace (n + length hs)%nat with (n + S (length hs) - 1)%nat by lia. done. }
  exists qf', slot'. split_ands; [done|done|lia|lia|]. intros q' r'. rewrite Hholds, Hh1.
  setoid_rewrite elem_of_cons. split.
  - intros [[?|[? ?]]|(h' & ? & ?)]; [by left|right; exists h; auto|right; exists h'; auto].
  - intros [?|(h' & [->|?] & ?)]; [by left; left|by left; right|right; eauto].
Qed.

Lemma fingerprint_eq q r h h' : 0 <= q -> 0 <= r ->
  (h / 2 ^ r) mod 2 ^ q = (h' / 2 ^ r) mod 2 ^ q /\ h mod 2 ^ r = h' mod 2 ^ r <-> h mod 2 ^ (q + r) = h' mod 2 ^ (q + r).
Proof.
  intros Hq Hr. assert (0 < 2 ^ q) by (apply Z.pow_pos_nonneg; lia). assert (0 < 2 ^ r) by (apply Z.pow_pos_nonneg; lia).
  rewrite (Z.add_comm q r), Z.pow_add_r, !Z.rem_mul_r by lia.
  pose proof (Z.mod_pos_bound h (2 ^ r)). pose proof (Z.mod_pos_bound h' (2 ^ r)).
  split; [intros [-> ->]; done|]. intros E.
  assert (h mod 2 ^ r = h' mod 2 ^ r) as E2.
  { apply (f_equal (fun x => x mod 2 ^ r)) in E. rewrite !(Z.mul_comm (2 ^ r)), !Z.mod_add, !Z.mod_mod in E by lia. done. }
  split; [|done]. nia.
Qed.

(** The filter built from a list of hashes. *)
Lemma filter_of_hashes q r hs :
  0 < q <= 32 -> 0 < r <= 60 -> q + r <= 64 -> Forall (fun h => 0 <= h) hs -> Z.of_nat (length hs) < 2 ^ q ->
  exists qf0 qf, qf_init q r = Some qf0 /\ insert_all qf0 hs = Some qf /\ qf_wf q r qf /\ 0 <= qf_entries qf < 2 ^ q /\
    forall h, 0 <= h -> exists b, qf_may_contain qf h = Some b /\
      (b = true <-> exists h', h' ∈ hs /\ h' mod 2 ^ (q + r) = h mod 2 ^ (q + r)).
Proof.
  intros Hq Hr Hqr Hhs Hlen. destruct (qf_init_wf q r Hq Hr Hqr) as (qf0 & E0 & Hwf & He & Ht).
  assert (represents q r qf0 (fun _ => None)) as Hrep.
  { apply represents_empty; [done|]. intros j. unfold word. rewrite Ht.
    destruct (replicate _ 0 !! Z.to_nat j) eqn:E; [|done]. apply lookup_replicate in E as [-> _]. done. }
  pose proof (slots_pos q r qf0 Hwf) as HN. pose proof (free_slots_empty q HN) as Hf.
  destruct (insert_all_spec q r qf0 (fun _ => None) hs (Z.to_nat (2 ^ q) - length hs)) as (qf & slot & E1 & Hrep' & Hent & Hh);
    try done; [|lia|lia|lia|].
  { replace (Z.to_nat (2 ^ q) - length hs + length hs)%nat with (Z.to_nat (2 ^ q)) by lia. done. }
  exists qf0, qf. split_ands; try done; [apply (to_wf _ _ _ _ _ (rep_table _ _ _ _ Hrep'))|lia|lia|]. intros h Hh0.
  destruct (qf_may_contain_spec q r qf slot Hrep' h Hh0) as (b & Eb & Hb). exists b. split; [done|].
  rewrite Hb, Hh, Z.mod_mod by lia. split.
  - intros [[p ?]|(h' & Hin & E2 & E3)]; [done|]. exists h'. split; [done|]. apply fingerprint_eq; [lia|lia|by split].
  - intros (h' & Hin & E). right. exists h'. split; [done|]. apply fingerprint_eq in E as [? ?]; [|lia|lia]. by split.
Qed.

(** ** Properties *)

(** C13: the filter answers exactly for the fingerprints inserted. In a new
    filter with [2^q] slots and [r]-bit remainders, fewer than [2^q]
    insertions all succeed, and a lookup afterwards returns, with the
    answer true exactly when some inserted hash has the same low [q+r]
    bits: there are no false negatives, and a false positive only for two
    hashes with the same fingerprint. *)
Theorem filter_exact (q r : Z) (hs : list Z) (h : Z)
    (Hq : 0 < q <= 32) (Hr : 0 < r <= 60) (Hqr : q + r <= 64) (Hhs : Forall (fun h => 0 <= h) hs)
    (Hlen : Z.of_nat (length hs) < 2 ^ q) (Hh : 0 <= h) :
  exists qf0 qf b, qf_init q r = Some qf0 /\ insert_all qf0 hs = Some qf /\ qf_may_contain qf h = Some b /\
    (b = true <-> exists h', h' ∈ hs /\ h' mod 2 ^ (q + r) = h mod 2 ^ (q + r)).
Proof.
  destruct (filter_of_hashes q r hs Hq Hr Hqr Hhs Hlen) as (qf0 & qf & E0 & E1 & _ & _ & Hc).
  destruct (Hc h Hh) as (b & Eb & Hb). by exists qf0, qf, b.
Qed.

Lemma filter_exact_witness :
  exists qf0 qf b, qf_init 2 3 = Some qf0 /\ insert_all qf0 [31; 30; 24] = Some qf /\ qf_may_contain qf 62 = Some b /\
    (b = true <-> exists h', h' ∈ [31; 30; 24] /\ h' mod 2 ^ (2 + 3) = 62 mod 2 ^ (2 + 3)).
Proof. apply (filter_exact 2 3 [31; 30; 24] 62); [lia|lia|lia|repeat constructor; lia|cbn; lia|lia]. Defined.

Lemma words_of_data t rest : Forall (fun w => 0 <= w < 2 ^ 64) t ->
  qf_wrapper.words_of (length t) (mjoin (le_encode 8 <$> t) ++ rest) = t.
Proof.
  induction 1 as [|w t Hw _ IH]; [done|]. cbn [length qf_wrapper.words_of]. rewrite fmap_cons, mjoin_cons, <- app_assoc.
  rewrite take_app_length', drop_app_length' by (by rewrite length_le_encode).
  rewrite le_decode_encode by (change (256 ^ Z.of_nat 8) with (2 ^ 64); done). by f_equal.
Qed.

Lemma read_field pre n v post : 0 <= v < 256 ^ Z.of_nat n ->
  le_decode (read_at (pre ++ le_encode n v ++ post) (length pre) n) = v.
Proof.
  intros Hv. pose proof (read_at_mid pre (le_encode n v) post) as H. rewrite length_le_encode in H.
  rewrite H. by apply le_decode_encode.
Qed.

Section header.
Context (q r : Z) (qf : quotient_filter) (pad ptr : Z) (rest : bytes) (Hwf : qf_wf q r qf).
Context (Hent : 0 <= qf_entries qf < 2 ^ 32).
Local Abbreviation header := (qf_wrapper.header_as_byte_span qf pad ptr ++ rest).

Lemma header_fields :
  le_decode (read_at header 4 4) = qf_entries qf /\ le_decode (read_at header 8 8) = qf_index_mask qf /\
  le_decode (read_at header 16 8) = qf_rmask qf /\ le_decode (read_at header 24 8) = qf_elem_mask qf /\
  le_decode (read_at header 32 8) = qf_max_size qf.
Proof.
  pose proof (slots_word q r qf Hwf). pose proof (slots_pos q r qf Hwf). destruct Hwf as [Hq Hr _ _ _ Hi Hm He Hs _ _].
  assert (forall n, 0 <= n < 64 -> 0 <= Z.ones n < 256 ^ Z.of_nat 8) as Hones.
  { intros n Hn. rewrite Z.ones_equiv. assert (0 < 2 ^ n) by (apply Z.pow_pos_nonneg; lia).
    assert (2 ^ n < 2 ^ 64) by (apply Z.pow_lt_mono_r; lia). change (256 ^ Z.of_nat 8) with (2 ^ 64). lia. }
  unfold qf_wrapper.header_as_byte_span.
  set (h0 := [qf_qbits qf; qf_rbits qf; qf_elem_bits qf; pad]).
  set (e := le_encode 4 (qf_entries qf)). set (f1 := le_encode 8 (qf_index_mask qf)).
  set (f2 := le_encode 8 (qf_rmask qf)). set (f3 := le_encode 8 (qf_elem_mask qf)).
  set (f4 := le_encode 8 (qf_max_size qf)).
  assert (length (h0 ++ e) = 8%nat) as L1 by done. assert (length ((h0 ++ e) ++ f1) = 16%nat) as L2 by done.
  assert (length (((h0 ++ e) ++ f1) ++ f2) = 24%nat) as L3 by done.
  assert (length ((((h0 ++ e) ++ f1) ++ f2) ++ f3) = 32%nat) as L4 by done.
  split_ands; rewrite <- ?app_assoc.
  - apply (read_field h0 4). done.
  - rewrite (app_assoc h0). rewrite <- L1. apply (read_field (h0 ++ e) 8). rewrite Hi. apply Hones. lia.
  - rewrite (app_assoc h0), (app_assoc _ f1), <- L2. apply (read_field ((h0 ++ e) ++ f1) 8). rewrite Hm. apply Hones. lia.
  - rewrite (app_assoc h0), (app_assoc _ f1), (app_assoc _ f2), <- L3. apply (read_field (((h0 ++ e) ++ f1) ++ f2) 8).
    rewrite He. apply Hones. lia.
  - rewrite (app_assoc h0), (app_assoc _ f1), (app_assoc _ f2), (app_assoc _ f3), <- L4.
    apply (read_field ((((h0 ++ e) ++ f1) ++ f2) ++ f3) 8). rewrite Hs. change (256 ^ Z.of_nat 8) with (2 ^ 64). lia.
Qed.

Lemma load_filter data_rest :
  qf_wrapper.load header (qf_wrapper.data_as_byte_span qf ++ data_rest) (qf_allocated_size qf) = Ok qf.
Proof.
  pose proof (wf_alloc _ _ _ Hwf) as Hlen. unfold qf_wrapper.load. destruct header_fields as (-> & -> & -> & -> & ->).
  assert (forall i x, [qf_qbits qf; qf_rbits qf; qf_elem_bits qf; pad] !! i = Some x -> header !! i = Some x) as Hb.
  { intros i x Hx. unfold qf_wrapper.header_as_byte_span. rewrite <- app_assoc. by apply lookup_app_l_Some. }
  rewrite (Hb 0%nat (qf_qbits qf)), (Hb 1%nat (qf_rbits qf)), (Hb 2%nat (qf_elem_bits qf)) by done. cbn [default from_option id].
  unfold qf_allocated_size at 1 3. cbn [qf_qbits qf_rbits]. fold (qf_allocated_size qf).
  rewrite Z.eqb_refl. cbn [negb]. rewrite Hlen. rewrite Z.mul_comm, Z.div_mul, Nat2Z.id by lia.
  unfold qf_wrapper.data_as_byte_span. rewrite words_of_data by apply (wf_words _ _ _ Hwf).
  by destruct qf.
Qed.
End header.
