(* ===== verification/Block.v ===== *)
(** * Blocks with prefix compression (src/db/block.h, src/db/block.cc)

    The page-sized block of an SST: [block_encoder] writes entries from
    the front of the page and, on commit, the restart offsets, the
    restart count and the footer at its end; [block_iterator] walks the
    entries and [block_decoder] searches them by restart group.

    Memory is one byte list [mem]; every [std::byte*] of the code is an
    offset into it, and every function that writes through such a pointer
    returns the new memory. The 64-bit xxh64 hash is third-party code and
    a parameter. *)

From stdpp Require Import base list numbers strings sorting.
From Stdlib Require Import ZArith Lia.
From S2P Require Import Prelude StdAlgo Varint Types.

Record block_config := mk_block_config {
  block_size_in_bytes : nat;
  restart_group_size : nat;
}.

Definition default_block_config : block_config := mk_block_config PAGE_SIZE_IN_BYTES 4.

Record block_footer := mk_block_footer { kv_count : Z; block_type : Z; checksum : Z }.

Definition empty_footer : block_footer := mk_block_footer 0 0 0.

Definition sizeof_block_footer : nat := 8.
Definition sizeof_checksum : nat := 4.
Definition sizeof_u16 : nat := 2.

Definition BLOCK_CHECKSUM_SEED : Z := 0x9E3779B97F4A7C15.

(** [_write_unsafe]: copies [bs] to [*ptr] and advances the pointer. *)
Definition _write_unsafe (bs : bytes) (mp : bytes * nat) : bytes * nat :=
  let '(mem, ptr) := mp in (write_at mem ptr bs, ptr + length bs).

Definition _write_as_varint_unsafe (v : Z) (mp : bytes * nat) : bytes * nat :=
  _write_unsafe (unsafe_varint v) mp.

Fixpoint _compute_shared_prefix_length (prev curr : bytes) : nat :=
  match prev, curr with
  | p :: prev, c :: curr => if (c =? p)%Z then S (_compute_shared_prefix_length prev curr) else 0
  | _, _ => 0
  end.

Section xxh64.
(** [xxh64::hash(data, n, seed)] *)
Context (xxh64_hash : bytes -> Z -> Z).

Definition _checksum (bs : bytes) : Z :=
  Z.land (xxh64_hash bs BLOCK_CHECKSUM_SEED) (2 ^ 32 - 1).

(** ** The encoder

    The offsets are kept in an [inline_vector<uint16_t>], whose allocator
    has room for [MAX_KEY_LEN * 2] items; growing beyond them throws
    [std::bad_alloc], here [None]. *)

Definition MAX_OFFSETS : nat := MAX_KEY_LEN * 2.

Record block_encoder := mk_block_encoder {
  enc_cfg : block_config;
  enc_base : nat;
  enc_head : nat;
  enc_last_key : bytes;
  enc_offsets : list Z;
  enc_bytes_written : nat;
  enc_kvs_count : nat;
  enc_restart_keys_written : nat;
  enc_committed : bool;
  enc_footer : block_footer;
}.

Definition make_block_encoder (cfg : block_config) (base : nat) : block_encoder :=
  mk_block_encoder cfg base base [] [] (sizeof_block_footer + sizeof_u16) 0 0 false empty_footer.

Definition encoder_reset (e : block_encoder) (new_base : nat) : block_encoder :=
  mk_block_encoder (enc_cfg e) new_base new_base [] [] (8 + sizeof_u16) 0 0 false empty_footer.

(** The offsets as they lie in memory. *)
Definition offsets_bytes (offsets : list Z) : bytes := concat (le_encode 2 <$> offsets).

Definition _commit (mem : bytes) (e : block_encoder) : bytes * block_encoder :=
  let size := block_size_in_bytes (enc_cfg e) in
  let end_ := enc_base e + size in
  let head := end_ - length (enc_offsets e) * sizeof_u16 - sizeof_u16 - sizeof_block_footer in
  let st := _write_unsafe (offsets_bytes (enc_offsets e)) (mem, head) in
  let st := _write_unsafe (le_encode 2 (u16 (Z.of_nat (length (enc_offsets e))))) st in
  let footer := mk_block_footer (u16 (Z.of_nat (enc_kvs_count e)))
                  (block_type (enc_footer e)) (checksum (enc_footer e)) in
  let st := _write_unsafe (le_encode 2 (kv_count footer) ++ le_encode 2 (block_type footer)) st in
  let sum := _checksum (read_at st.1 (enc_base e) (size - sizeof_checksum)) in
  let '(mem, head) := _write_unsafe (le_encode 4 sum) st in
  (mem, mk_block_encoder (enc_cfg e) (enc_base e) head (enc_last_key e) (enc_offsets e)
          (enc_bytes_written e) (enc_kvs_count e) (enc_restart_keys_written e) true footer).

Definition _push_as_restart_key (mem : bytes) (e : block_encoder) (key value : bytes)
    : option (status * (bytes * block_encoder)) :=
  let space_needed :=
    1 + length key + Z.to_nat (varint_length (Z.of_nat (length value))) + length value in
  if block_size_in_bytes (enc_cfg e) <? enc_bytes_written e + space_needed + sizeof_u16
  then Some (Err (mk_error "" BUFFER_FULL), _commit mem e)
  else if MAX_OFFSETS <=? length (enc_offsets e) then None
  else
    let st := _write_unsafe [encode_key_size (Z.of_nat (length key))] (mem, enc_head e) in
    let st := _write_unsafe key st in
    let st := _write_as_varint_unsafe (Z.of_nat (length value)) st in
    let '(mem, head) := _write_unsafe value st in
    Some (ok, (mem, mk_block_encoder (enc_cfg e) (enc_base e) head key
            (enc_offsets e ++ [u16 (Z.of_nat (enc_head e - enc_base e))])
            (enc_bytes_written e + (space_needed + sizeof_u16))
            (enc_kvs_count e + 1) (enc_restart_keys_written e + 1)
            (enc_committed e) (enc_footer e))).

Definition _push_as_delta_key (mem : bytes) (e : block_encoder) (key value : bytes)
    : status * (bytes * block_encoder) :=
  let shared_prefix_length := _compute_shared_prefix_length (enc_last_key e) key in
  let space_needed :=
    1 + 1 + (length key - shared_prefix_length)
    + Z.to_nat (varint_length (Z.of_nat (length value))) + length value in
  if block_size_in_bytes (enc_cfg e) <? enc_bytes_written e + space_needed
  then (Err (mk_error "" BUFFER_FULL), _commit mem e)
  else
    let st := _write_unsafe [u8 (Z.of_nat shared_prefix_length)] (mem, enc_head e) in
    let st := _write_unsafe [u8 (Z.of_nat (length key - shared_prefix_length))] st in
    let st := _write_unsafe (drop shared_prefix_length key) st in
    let st := _write_as_varint_unsafe (Z.of_nat (length value)) st in
    let '(mem, head) := _write_unsafe value st in
    (ok, (mem, mk_block_encoder (enc_cfg e) (enc_base e) head key (enc_offsets e)
            (enc_bytes_written e + space_needed)
            (enc_kvs_count e + 1) (enc_restart_keys_written e)
            (enc_committed e) (enc_footer e))).

Definition block_encoder_push (mem : bytes) (e : block_encoder) (key value : bytes)
    : option (status * (bytes * block_encoder)) :=
  if (MAX_KEY_LEN <? length key) || (length key =? 0)
  then Some (Err (generic_error "invalid key size"), (mem, e))
  else if negb (Nat.land (enc_kvs_count e) (restart_group_size (enc_cfg e) - 1) =? 0)
  then Some (_push_as_delta_key mem e key value)
  else _push_as_restart_key mem e key value.

(** ** The iterator

    [None] is the exception [std::expected::value] throws when the value
    size does not decode. *)

Record block_iterator := mk_block_iterator {
  it_head : nat;
  it_kv_idx : nat;
  it_starting_kv_idx : nat;
  it_kvs_in_block_count : nat;
  it_restart_group_size : nat;
  it_key : bytes;
  it_value_ref : nat * nat;   (* a span: start and size *)
}.

(** [std::vector::resize] *)
Definition resize (v : bytes) (n : nat) : bytes := take n v ++ replicate (n - length v) 0%Z.

Definition byte_at (mem : bytes) (i : nat) : Z := default 0%Z (mem !! i).

(** The tail the two readers share: the value size and the value. *)
Definition _read_value (mem : bytes) (it : block_iterator) (head : nat) (key : bytes)
    : option block_iterator :=
  match try_decode_varint (read_at mem head MAX_VARINT_LENGTH_32) with
  | Err _ => None
  | Ok (value_size, n) =>
      let head := head + n in
      Some (mk_block_iterator (head + Z.to_nat value_size) (it_kv_idx it) (it_starting_kv_idx it)
              (it_kvs_in_block_count it) (it_restart_group_size it) key (head, Z.to_nat value_size))
  end.

Definition _read_restart_key (mem : bytes) (it : block_iterator) : option block_iterator :=
  let key_size := decode_key_size (byte_at mem (it_head it)) in
  let head := it_head it + 1 in
  let key := read_at mem head key_size in
  _read_value mem it (head + key_size) key.

Definition _read_delta_key (mem : bytes) (it : block_iterator) : option block_iterator :=
  let shared_prefix_length := Z.to_nat (byte_at mem (it_head it)) in
  let delta_key_length := Z.to_nat (byte_at mem (it_head it + 1)) in
  let head := it_head it + 2 in
  let key := resize (it_key it) shared_prefix_length ++ read_at mem head delta_key_length in
  _read_value mem it (head + delta_key_length) key.

Definition _read_next (mem : bytes) (it : block_iterator) : option block_iterator :=
  let curr_idx := it_kv_idx it in
  let it := mk_block_iterator (it_head it) (S curr_idx) (it_starting_kv_idx it)
              (it_kvs_in_block_count it) (it_restart_group_size it) (it_key it) (it_value_ref it) in
  if it_kvs_in_block_count it <=? curr_idx then Some it
  else if Nat.land curr_idx (it_restart_group_size it - 1) =? 0
  then _read_restart_key mem it
  else _read_delta_key mem it.

Definition make_block_iterator (mem : bytes) (base starting_kv_idx kvs_in_block rgs : nat)
    : option block_iterator :=
  _read_next mem (mk_block_iterator base starting_kv_idx starting_kv_idx kvs_in_block rgs [] (0, 0)).

Definition iterator_next (mem : bytes) (it : block_iterator) : option block_iterator :=
  _read_next mem it.

Definition iterator_value (mem : bytes) (it : block_iterator) : bytes :=
  read_at mem (it_value_ref it).1 (it_value_ref it).2.

(** [it == block_iterator_sentinel] *)
Definition at_end (it : block_iterator) : bool := it_kvs_in_block_count it <? it_kv_idx it.

(** [it == block_iterator_restart_group_sentinel] *)
Definition at_group_end (it : block_iterator) : bool :=
  (it_starting_kv_idx it + it_restart_group_size it <? it_kv_idx it)
  || (it_kvs_in_block_count it <? it_kv_idx it).

(** ** The decoder *)

Record block_decoder := mk_block_decoder {
  dec_cfg : block_config;
  dec_base : option nat;
  dec_footer : block_footer;
}.

Definition _read_footer (mem : bytes) (d : block_decoder) : block_decoder :=
  match dec_base d with
  | None => mk_block_decoder (dec_cfg d) None empty_footer
  | Some base =>
      let f := base + block_size_in_bytes (dec_cfg d) - sizeof_block_footer in
      mk_block_decoder (dec_cfg d) (Some base)
        (mk_block_footer (le_decode (read_at mem f 2)) (le_decode (read_at mem (f + 2) 2))
           (le_decode (read_at mem (f + 4) 4)))
  end.

Definition make_block_decoder (mem : bytes) (cfg : block_config) (base : nat) : block_decoder :=
  _read_footer mem (mk_block_decoder cfg (Some base) empty_footer).

Definition decoder_reset (mem : bytes) (d : block_decoder) (new_base : nat) : block_decoder :=
  _read_footer mem (mk_block_decoder (dec_cfg d) (Some new_base) (dec_footer d)).

Definition sanity_check (mem : bytes) (d : block_decoder) : status :=
  let sum := _checksum (read_at mem (default 0 (dec_base d))
                          (block_size_in_bytes (dec_cfg d) - sizeof_checksum)) in
  if (sum =? checksum (dec_footer d))%Z then ok else Err (generic_error "checksum mismatch").

Definition decoder_begin (mem : bytes) (d : block_decoder) : option block_iterator :=
  make_block_iterator mem (default 0 (dec_base d)) 0 (Z.to_nat (kv_count (dec_footer d)))
    (restart_group_size (dec_cfg d)).

(** The key a restart offset points at. *)
Definition restart_key_at (mem : bytes) (base : nat) (offset : Z) : bytes :=
  let pos := base + Z.to_nat offset in
  read_at mem (pos + 1) (decode_key_size (byte_at mem pos)).

(** The scan of one restart group; a group has at most
    [restart_group_size] entries, which bounds the loop. *)
Fixpoint find_in_group (fuel : nat) (mem : bytes) (it : block_iterator) (key : bytes)
    : option (option (nat * nat)) :=
  if at_group_end it then Some None
  else if Lex.eqb (it_key it) key then Some (Some (it_value_ref it))
  else
    match fuel with
    | O => None
    | S fuel =>
        match iterator_next mem it with
        | None => None
        | Some it => find_in_group fuel mem it key
        end
    end.

(** [block_decoder::find]: the span of the value, or [Some None] for the
    empty span [{}] the code returns when the key is absent. The offsets
    are copied to an [inline_vector], with the exception of the encoder. *)
Definition block_find (mem : bytes) (d : block_decoder) (key : bytes)
    : option (option (nat * nat)) :=
  let base := default 0 (dec_base d) in
  let end_ := base + block_size_in_bytes (dec_cfg d) in
  let restart_count_ptr := end_ - sizeof_block_footer - sizeof_u16 in
  let restart_count := Z.to_nat (le_decode (read_at mem restart_count_ptr 2)) in
  let offsets_base := restart_count_ptr - restart_count * sizeof_u16 in
  if MAX_OFFSETS <? restart_count then None else
  let offsets := (fun i => le_decode (read_at mem (offsets_base + i * sizeof_u16) 2))
                   <$> seq 0 restart_count in
  let offset_it := upper_bound (fun offset => Lex.ltb key (restart_key_at mem base offset)) offsets in
  if offset_it =? 0 then Some None
  else
    let g := offset_it - 1 in
    let offset := Z.to_nat (default 0%Z (offsets !! g)) in
    match make_block_iterator mem (base + offset) (g * restart_group_size (dec_cfg d))
            (Z.to_nat (kv_count (dec_footer d))) (restart_group_size (dec_cfg d)) with
    | None => None
    | Some it => find_in_group (S (restart_group_size (dec_cfg d))) mem it key
    end.

(** The loop [for(it = begin(); it != end(); ++it)] over a block; [None]
    when an iterator step throws or the fuel runs out. *)
Fixpoint iterate (fuel : nat) (mem : bytes) (it : block_iterator) : option (list (bytes * bytes)) :=
  if at_end it then Some []
  else
    match fuel with
    | O => None
    | S fuel =>
        it' ← iterator_next mem it;
        rest ← iterate fuel mem it';
        Some ((it_key it, iterator_value mem it) :: rest)
    end.

Definition block_contents (mem : bytes) (d : block_decoder) : option (list (bytes * bytes)) :=
  it ← decoder_begin mem d; iterate (Z.to_nat (kv_count (dec_footer d))) mem it.
End xxh64.

(** ** The page layout *)

Abbreviation kv := (bytes * bytes)%type.

Definition value_bytes (v : bytes) : bytes := unsafe_varint (Z.of_nat (length v)) ++ v.

Definition restart_entry (k v : bytes) : bytes := write_key k ++ value_bytes v.

Definition delta_entry (prev k v : bytes) : bytes :=
  let p := _compute_shared_prefix_length prev k in
  [u8 (Z.of_nat p); u8 (Z.of_nat (length k - p))] ++ drop p k ++ value_bytes v.

(** The key the next entry is compressed against. *)
Definition last_key (prev : bytes) (kvs : list kv) : bytes := from_option fst prev (last kvs).

Section layout.
Context (rgs : nat).

Definition is_restart (i : nat) : bool := Nat.land i (rgs - 1) =? 0.

Definition entry_bytes (i : nat) (prev : bytes) (x : kv) : bytes :=
  if is_restart i then restart_entry x.1 x.2 else delta_entry prev x.1 x.2.

(** The entries of [kvs], numbered from [i] on. *)
Fixpoint entries_bytes (i : nat) (prev : bytes) (kvs : list kv) : bytes :=
  match kvs with
  | [] => []
  | x :: kvs => entry_bytes i prev x ++ entries_bytes (S i) x.1 kvs
  end.

Definition ngroups (n : nat) : nat := (n + rgs - 1) / rgs.

Definition restart_offset (kvs : list kv) (j : nat) : nat :=
  length (entries_bytes 0 [] (take (j * rgs) kvs)).

Definition restart_offsets (kvs : list kv) : list Z :=
  (fun j => Z.of_nat (restart_offset kvs j)) <$> seq 0 (ngroups (length kvs)).

Lemma last_key_snoc prev kvs x : last_key prev (kvs ++ [x]) = x.1.
Proof. unfold last_key. by rewrite last_snoc. Qed.

Lemma last_key_app prev a b : last_key prev (a ++ b) = last_key (last_key prev a) b.
Proof.
  unfold last_key. rewrite last_app. destruct (last b); done.
Qed.

Lemma entries_bytes_app i prev a b :
  entries_bytes i prev (a ++ b) =
    entries_bytes i prev a ++ entries_bytes (i + length a) (last_key prev a) b.
Proof.
  revert i prev. induction a as [|x a IH]; intros i prev; simpl.
  { by rewrite Nat.add_0_r. }
  rewrite IH, <- app_assoc. f_equal.
  change (x :: a) with ([x] ++ a). rewrite last_key_app. f_equal. by rewrite Nat.add_succ_r.
Qed.

Lemma entries_bytes_snoc prev kvs x :
  entries_bytes 0 prev (kvs ++ [x]) =
    entries_bytes 0 prev kvs ++ entry_bytes (length kvs) (last_key prev kvs) x.
Proof. rewrite entries_bytes_app. simpl. by rewrite app_nil_r. Qed.

Section pow2.
Context (Hrgs : exists j, rgs = 2 ^ j).

Lemma rgs_pos : 0 < rgs.
Proof. destruct Hrgs as [j ->]. apply Nat.neq_0_lt_0, Nat.pow_nonzero. done. Qed.

Lemma is_restart_mod i : is_restart i = (i mod rgs =? 0).
Proof.
  unfold is_restart. destruct Hrgs as [j ->].
  rewrite <- Nat.land_ones, Nat.ones_equiv. by rewrite <- Nat.sub_1_r.
Qed.

Lemma ngroups_S n : ngroups (S n) = ngroups n + (if is_restart n then 1 else 0).
Proof.
  rewrite is_restart_mod. unfold ngroups. pose proof rgs_pos as Hpos.
  pose proof (Nat.div_mod n rgs ltac:(lia)) as Hd.
  pose proof (Nat.mod_upper_bound n rgs ltac:(lia)) as Hm.
  set (q := n / rgs) in *. set (r := n mod rgs) in *.
  destruct (Nat.eqb_spec r 0) as [Hr|Hr].
  - rewrite <- (Nat.div_unique (S n + rgs - 1) rgs (q + 1) 0) by lia.
    rewrite <- (Nat.div_unique (n + rgs - 1) rgs q (rgs - 1)) by lia. done.
  - rewrite <- (Nat.div_unique (S n + rgs - 1) rgs (q + 1) r) by lia.
    rewrite <- (Nat.div_unique (n + rgs - 1) rgs (q + 1) (r - 1)) by lia. lia.
Qed.

Lemma ngroups_lt n j : j < ngroups n <-> j * rgs < n.
Proof.
  unfold ngroups. pose proof rgs_pos. split; intros H1.
  - assert (rgs * ((n + rgs - 1) / rgs) <= n + rgs - 1) by (apply Nat.Div0.mul_div_le). nia.
  - apply Nat.div_le_lower_bound; [lia|]. lia.
Qed.

Lemma is_restart_group j : is_restart (j * rgs) = true.
Proof. rewrite is_restart_mod, Nat.Div0.mod_mul. done. Qed.

Lemma restart_offset_snoc kvs x j :
  j * rgs <= length kvs -> restart_offset (kvs ++ [x]) j = restart_offset kvs j.
Proof. intros. unfold restart_offset. by rewrite take_app_le. Qed.

Lemma restart_offsets_snoc kvs x :
  restart_offsets (kvs ++ [x]) =
    restart_offsets kvs ++
    (if is_restart (length kvs) then [Z.of_nat (length (entries_bytes 0 [] kvs))] else []).
Proof.
  unfold restart_offsets. rewrite length_app, Nat.add_1_r, ngroups_S, seq_app, fmap_app.
  assert (forall j, j < ngroups (length kvs) ->
    Z.of_nat (restart_offset (kvs ++ [x]) j) = Z.of_nat (restart_offset kvs j)) as Hj.
  { intros j Hj. apply ngroups_lt in Hj. by rewrite restart_offset_snoc by lia. }
  f_equal.
  - apply list_fmap_ext. intros i j Hi. apply lookup_seq in Hi as [-> Hi]. by apply Hj.
  - destruct (is_restart (length kvs)) eqn:Hr; [|done]. simpl. do 2 f_equal.
    rewrite is_restart_mod in Hr. apply Nat.eqb_eq in Hr. pose proof rgs_pos.
    assert (ngroups (length kvs) * rgs = length kvs) as Hg.
    { unfold ngroups. pose proof (Nat.div_mod (length kvs) rgs ltac:(lia)).
      rewrite <- (Nat.div_unique (length kvs + rgs - 1) rgs (length kvs / rgs) (rgs - 1)) by lia.
      lia. }
    rewrite restart_offset_snoc by lia. unfold restart_offset. by rewrite Hg, take_ge by lia.
Qed.

Lemma length_restart_offsets kvs : length (restart_offsets kvs) = ngroups (length kvs).
Proof. unfold restart_offsets. by rewrite length_fmap, length_seq. Qed.

Lemma lookup_restart_offsets kvs j :
  j * rgs < length kvs -> restart_offsets kvs !! j = Some (Z.of_nat (restart_offset kvs j)).
Proof.
  intros Hj. unfold restart_offsets. rewrite list_lookup_fmap, lookup_seq_lt; [done|].
  by apply ngroups_lt.
Qed.
End pow2.
End layout.

(** ** What the encoder keeps *)

Definition cfg_ok (cfg : block_config) : Prop :=
  (exists j, restart_group_size cfg = 2 ^ j) /\ 10 <= block_size_in_bytes cfg /\
  (Z.of_nat (block_size_in_bytes cfg) <= 2 ^ 16)%Z.

Definition key_ok (k : bytes) : Prop := MIN_KEY_LEN <= length k <= MAX_KEY_LEN.

(** [mem'] differs from [mem] at most in the [size] bytes from [base]. *)
Definition frame (mem mem' : bytes) (base size : nat) : Prop :=
  length mem' = length mem /\ forall i, i < base \/ base + size <= i -> mem' !! i = mem !! i.

(** The encoder [e] writing to [mem] has taken the entries [kvs]. *)
Record encoder_rep (mem : bytes) (e : block_encoder) (kvs : list kv) : Prop := {
  er_cfg : cfg_ok (enc_cfg e);
  er_mem : enc_base e + block_size_in_bytes (enc_cfg e) <= length mem;
  er_keys : Forall (fun x => key_ok x.1) kvs;
  er_entries : mem_has mem (enc_base e) (entries_bytes (restart_group_size (enc_cfg e)) 0 [] kvs);
  er_head : enc_head e = enc_base e + length (entries_bytes (restart_group_size (enc_cfg e)) 0 [] kvs);
  er_last : enc_last_key e = last_key [] kvs;
  er_offsets : enc_offsets e = restart_offsets (restart_group_size (enc_cfg e)) kvs;
  er_written : enc_bytes_written e =
    10 + length (entries_bytes (restart_group_size (enc_cfg e)) 0 [] kvs) + 2 * length (enc_offsets e);
  er_fits : enc_bytes_written e <= block_size_in_bytes (enc_cfg e);
  er_count : enc_kvs_count e = length kvs;
  er_footer : enc_footer e = empty_footer;
}.

Section committed.
Context (xxh64_hash : bytes -> Z -> Z).

(** The trailer a commit writes after the entries and the free space. *)
Definition trailer_bytes (rgs : nat) (kvs : list kv) (sum : Z) : bytes :=
  offsets_bytes (restart_offsets rgs kvs) ++
  le_encode 2 (Z.of_nat (ngroups rgs (length kvs))) ++
  (le_encode 2 (Z.of_nat (length kvs)) ++ le_encode 2 0) ++ le_encode 4 sum.

(** The page at [base] holds exactly [kvs]. *)
Record page_holds (mem : bytes) (cfg : block_config) (base : nat) (kvs : list kv) : Prop := {
  ph_cfg : cfg_ok cfg;
  ph_mem : base + block_size_in_bytes cfg <= length mem;
  ph_keys : Forall (fun x => key_ok x.1) kvs;
  ph_entries : mem_has mem base (entries_bytes (restart_group_size cfg) 0 [] kvs);
  ph_fits : length (entries_bytes (restart_group_size cfg) 0 [] kvs)
              + 2 * ngroups (restart_group_size cfg) (length kvs) + 10 <= block_size_in_bytes cfg;
  ph_trailer : mem_has mem
    (base + block_size_in_bytes cfg - 10 - 2 * ngroups (restart_group_size cfg) (length kvs))
    (trailer_bytes (restart_group_size cfg) kvs
       (_checksum xxh64_hash (read_at mem base (block_size_in_bytes cfg - 4))));
}.
End committed.

(** ** Encoder lemmas *)

Lemma shared_prefix_le prev k :
  _compute_shared_prefix_length prev k <= length k /\ _compute_shared_prefix_length prev k <= length prev.
Proof.
  revert k. induction prev as [|p prev IH]; intros [|c k]; simpl; try lia.
  split_ifs; [|lia]. specialize (IH k). lia.
Qed.

Lemma shared_prefix_take prev k :
  take (_compute_shared_prefix_length prev k) prev = take (_compute_shared_prefix_length prev k) k.
Proof.
  revert k. induction prev as [|p prev IH]; intros [|c k]; simpl; try done.
  split_ifs; [|done]. apply Z.eqb_eq in Heqb as ->. simpl. by rewrite IH.
Qed.

Lemma write_unsafe_app xs ys mem p :
  p + length xs <= length mem ->
  _write_unsafe ys (_write_unsafe xs (mem, p)) = _write_unsafe (xs ++ ys) (mem, p).
Proof. intros. simpl. rewrite write_at_app by done. by rewrite length_app, Nat.add_assoc. Qed.

Lemma length_value_bytes v :
  (Z.of_nat (length v) < 2 ^ 16)%Z ->
  length (value_bytes v) = Z.to_nat (varint_length (Z.of_nat (length v))) + length v.
Proof.
  intros. unfold value_bytes. rewrite length_app.
  rewrite <- (unsafe_varint_length (Z.of_nat (length v))) by lia. by rewrite Nat2Z.id.
Qed.

Lemma length_restart_entry k v :
  (Z.of_nat (length v) < 2 ^ 16)%Z -> length (restart_entry k v) =
    1 + length k + Z.to_nat (varint_length (Z.of_nat (length v))) + length v.
Proof.
  intros. unfold restart_entry. rewrite length_app, length_write_key, length_value_bytes by done.
  unfold serialized_key_total_length, key_len_bytes. lia.
Qed.

Lemma length_delta_entry prev k v :
  (Z.of_nat (length v) < 2 ^ 16)%Z -> length (delta_entry prev k v) =
    1 + 1 + (length k - _compute_shared_prefix_length prev k)
    + Z.to_nat (varint_length (Z.of_nat (length v))) + length v.
Proof.
  intros. unfold delta_entry. rewrite !length_app, length_drop, length_value_bytes by done.
  cbn [length]. lia.
Qed.

Lemma length_offsets_bytes offsets : length (offsets_bytes offsets) = 2 * length offsets.
Proof.
  unfold offsets_bytes. induction offsets; [done|]. rewrite fmap_cons. cbn [concat length].
  rewrite length_app, length_le_encode. lia.
Qed.

Lemma frame_write mem base size off xs :
  base <= off -> off + length xs <= base + size -> base + size <= length mem ->
  frame mem (write_at mem off xs) base size.
Proof.
  intros. split; [apply length_write_at; lia|]. intros i Hi.
  rewrite lookup_write_at by lia. by rewrite decide_False by lia.
Qed.

Lemma frame_refl mem base size : frame mem mem base size.
Proof. done. Qed.

(** Every page outside the frame keeps its content. *)
Lemma frame_mem_has mem mem' base size off xs :
  frame mem mem' base size -> off + length xs <= base \/ base + size <= off ->
  mem_has mem off xs -> mem_has mem' off xs.
Proof.
  intros [_ Hf] Hd H. unfold mem_has in *. rewrite <- H at 2. apply list_eq. intros i.
  rewrite !lookup_read_at. case_decide; [|done]. apply Hf. lia.
Qed.

Lemma frame_read mem mem' base size off n :
  frame mem mem' base size -> off + n <= base \/ base + size <= off ->
  read_at mem' off n = read_at mem off n.
Proof.
  intros [_ Hf] Hd. apply list_eq. intros i. rewrite !lookup_read_at.
  case_decide; [|done]. apply Hf. lia.
Qed.

Lemma make_encoder_rep mem cfg base :
  cfg_ok cfg -> base + block_size_in_bytes cfg <= length mem ->
  encoder_rep mem (make_block_encoder cfg base) [].
Proof.
  intros Hc Hm. destruct Hc as [Hj Hs].
  assert (ngroups (restart_group_size cfg) 0 = 0) as Hg.
  { unfold ngroups. apply Nat.div_small. pose proof (rgs_pos _ Hj). lia. }
  assert (restart_offsets (restart_group_size cfg) [] = []) as Ho
    by (unfold restart_offsets; cbn [length]; by rewrite Hg).
  split; simpl; try done; unfold sizeof_block_footer, sizeof_u16; lia.
Qed.

Lemma encoder_reset_make e base :
  encoder_reset e base = make_block_encoder (enc_cfg e) base.
Proof. done. Qed.

(** The bytes a page with the entries [kvs] takes. *)
Definition page_used (rgs : nat) (kvs : list kv) : nat :=
  10 + length (entries_bytes rgs 0 [] kvs) + 2 * ngroups rgs (length kvs).

Lemma entry_length_ge r i prev x : 2 <= length (entry_bytes r i prev x).
Proof.
  assert (1 <= length (value_bytes x.2)).
  { unfold value_bytes, unsafe_varint, MAX_VARINT_LENGTH_64. cbn [unsafe_varint_loop].
    split_ifs; rewrite length_app; cbn [length]; lia. }
  unfold entry_bytes, restart_entry, delta_entry, write_key. split_ifs; rewrite !length_app; cbn [length]; lia.
Qed.

Lemma entries_length_ge2 r i prev l : 2 * length l <= length (entries_bytes r i prev l).
Proof.
  revert i prev. induction l as [|x l IH]; intros; simpl; [lia|].
  rewrite length_app. pose proof (entry_length_ge r i prev x). specialize (IH (S i) x.1). lia.
Qed.

Lemma entries_length_ge r i prev l : length l <= length (entries_bytes r i prev l).
Proof. pose proof (entries_length_ge2 r i prev l). lia. Qed.

Lemma ngroups_mono r n m : n <= m -> ngroups r n <= ngroups r m.
Proof. intros. unfold ngroups. apply Nat.Div0.div_le_mono. lia. Qed.

(** In the default configuration the page is full before the offsets are. *)
Lemma default_groups kvs :
  page_used (restart_group_size default_block_config) kvs <= block_size_in_bytes default_block_config ->
  ngroups (restart_group_size default_block_config) (length kvs) <= MAX_OFFSETS.
Proof.
  unfold page_used. pose proof (entries_length_ge2 (restart_group_size default_block_config) 0 [] kvs) as H.
  cbn [restart_group_size block_size_in_bytes default_block_config] in *. unfold PAGE_SIZE_IN_BYTES, KiB, MAX_OFFSETS, MAX_KEY_LEN.
  pose proof (Nat.div_mod_eq (length kvs + 4 - 1) 4) as E. pose proof (Nat.mod_upper_bound (length kvs + 4 - 1) 4 ltac:(done)).
  unfold ngroups in *. lia.
Qed.

Section encoder_facts.
Context (xxh64_hash : bytes -> Z -> Z).
Context (mem : bytes) (e : block_encoder) (kvs : list kv) (Hrep : encoder_rep mem e kvs).

Local Abbreviation rgs := (restart_group_size (enc_cfg e)).
Local Abbreviation size := (block_size_in_bytes (enc_cfg e)).
Local Abbreviation ents := (entries_bytes rgs 0 [] kvs).

Lemma rep_pow2 : exists j, rgs = 2 ^ j.
Proof. apply Hrep. Qed.

Lemma rep_ngroups : length (enc_offsets e) = ngroups rgs (length kvs).
Proof. rewrite (er_offsets _ _ _ Hrep). apply length_restart_offsets. Qed.

Lemma rep_bound : length ents + 2 * ngroups rgs (length kvs) + 10 <= size.
Proof.
  pose proof (er_fits _ _ _ Hrep). pose proof (er_written _ _ _ Hrep). rewrite rep_ngroups in *. lia.
Qed.

Lemma rep_count_small : (Z.of_nat (length kvs) < 2 ^ 16)%Z.
Proof.
  pose proof rep_bound. pose proof (entries_length_ge rgs 0 [] kvs).
  destruct (er_cfg _ _ _ Hrep) as (_ & _ & ?). lia.
Qed.

(** A commit turns the encoder's entries into a readable page. *)
Lemma commit_page :
  let '(mem', e') := _commit xxh64_hash mem e in
  page_holds xxh64_hash mem' (enc_cfg e) (enc_base e) kvs /\
  frame mem mem' (enc_base e) size /\
  enc_committed e' = true /\ enc_base e' = enc_base e /\ enc_cfg e' = enc_cfg e /\
  enc_last_key e' = enc_last_key e /\ enc_kvs_count e' = enc_kvs_count e.
Proof.
  pose proof rep_bound as Hb. pose proof rep_count_small as Hc. pose proof rep_ngroups as Hng.
  destruct (er_cfg _ _ _ Hrep) as (Hp & _ & Hs). pose proof (er_mem _ _ _ Hrep) as Hmem.
  pose proof (er_entries _ _ _ Hrep) as Hents.
  unfold _commit. rewrite (er_footer _ _ _ Hrep), (er_count _ _ _ Hrep).
  cbn [kv_count block_type checksum empty_footer]. rewrite Hng, (er_offsets _ _ _ Hrep).
  rewrite !wrap_small by lia. unfold sizeof_u16, sizeof_block_footer, sizeof_checksum.
  set (A := offsets_bytes _). set (B := le_encode 2 (Z.of_nat (ngroups _ _))).
  set (C := le_encode 2 (Z.of_nat (length kvs)) ++ le_encode 2 0).
  set (head := enc_base e + size - ngroups rgs (length kvs) * 2 - 2 - 8).
  assert (length A = 2 * ngroups rgs (length kvs)) as HA.
  { unfold A. rewrite length_offsets_bytes. f_equal. apply length_restart_offsets. }
  assert (length B = 2) as HB by apply length_le_encode.
  assert (length C = 4) as HC by (unfold C; rewrite length_app, !length_le_encode; done).
  rewrite write_unsafe_app by (unfold head; lia).
  rewrite write_unsafe_app by (rewrite length_app; unfold head; lia).
  set (sum := _checksum _ _). assert (length (le_encode 4 sum) = 4) as HD by apply length_le_encode.
  assert (length (A ++ B ++ C ++ le_encode 4 sum) = 2 * ngroups rgs (length kvs) + 10) as Hall
    by (rewrite !length_app; lia).
  rewrite write_unsafe_app by (rewrite !length_app; unfold head; lia).
  rewrite <- !app_assoc. unfold _write_unsafe.
  assert (sum = _checksum xxh64_hash
    (read_at (write_at mem head (A ++ B ++ C ++ le_encode 4 sum)) (enc_base e) (size - 4))) as Hsum.
  { unfold sum at 1. unfold _write_unsafe. cbn [fst]. f_equal.
    replace (A ++ B ++ C ++ le_encode 4 sum) with ((A ++ B ++ C) ++ le_encode 4 sum)
      by (by rewrite <- !app_assoc).
    rewrite <- (write_at_app mem head (A ++ B ++ C)) by (rewrite !length_app; unfold head; lia).
    rewrite (read_write_at_ne (write_at mem head (A ++ B ++ C))); [by rewrite <- app_assoc| |].
    - rewrite length_write_at; rewrite ?HD, ?length_app; unfold head; lia.
    - rewrite !length_app. unfold head. lia. }
  split_ands; try done.
  - split; [apply Hrep|rewrite length_write_at by (unfold head; lia); lia|apply Hrep| |done|].
    + apply mem_has_write_ne; [unfold head; lia|unfold head; lia|done].
    + rewrite <- Hsum. unfold trailer_bytes. fold A B C.
      replace (enc_base e + size - 10 - 2 * ngroups rgs (length kvs)) with head by (unfold head; lia).
      apply mem_has_write_eq. unfold head. lia.
  - apply frame_write; unfold head; lia.
Qed.

Lemma write_unsafe_same bs (m : bytes) p :
  mem_has m p bs -> p + length bs <= length m -> _write_unsafe bs (m, p) = (m, p + length bs).
Proof. intros. unfold _write_unsafe. by rewrite write_at_same. Qed.

(** Committing twice is committing once. *)
Lemma commit_again mem1 e1 :
  _commit xxh64_hash mem e = (mem1, e1) -> (_commit xxh64_hash mem1 e1).1 = mem1.
Proof.
  intros E. pose proof commit_page as Hp. rewrite E in Hp. destruct Hp as (Hpg & _).
  pose proof (ph_trailer _ _ _ _ _ Hpg) as Ht. pose proof (ph_fits _ _ _ _ _ Hpg) as Hf.
  pose proof (ph_mem _ _ _ _ _ Hpg) as Hm. pose proof rep_count_small as Hc.
  pose proof rep_ngroups as Hng. destruct (er_cfg _ _ _ Hrep) as (Hp2 & _ & Hs).
  assert (length (offsets_bytes (restart_offsets rgs kvs)) = 2 * ngroups rgs (length kvs)) as HA.
  { rewrite length_offsets_bytes. f_equal. apply length_restart_offsets. }
  unfold trailer_bytes in Ht. rewrite !mem_has_app in Ht. rewrite HA, !length_app, !length_le_encode in Ht.
  destruct Ht as (H1 & H2 & (H3 & H4) & H5).
  unfold _commit in E. destruct (_write_unsafe (le_encode 4 _) _) as [m2 h2]. injection E as -> <-.
  unfold _commit. cbn [enc_cfg enc_base enc_offsets enc_kvs_count enc_footer kv_count block_type checksum].
  rewrite (er_footer _ _ _ Hrep), (er_count _ _ _ Hrep), Hng, (er_offsets _ _ _ Hrep).
  cbn [block_type checksum empty_footer]. rewrite !wrap_small by lia.
  unfold sizeof_u16, sizeof_block_footer, sizeof_checksum.
  replace (enc_base e + size - ngroups rgs (length kvs) * 2 - 2 - 8)
    with (enc_base e + size - 10 - 2 * ngroups rgs (length kvs)) by lia.
  rewrite (write_unsafe_same _ _ _ H1) by lia. rewrite HA.
  rewrite (write_unsafe_same _ _ _ H2) by (rewrite length_le_encode; lia). rewrite length_le_encode.
  rewrite write_unsafe_same; [|apply mem_has_app; rewrite length_le_encode; by split|
    rewrite length_app, !length_le_encode; lia].
  rewrite length_app, !length_le_encode. cbn [fst].
  by rewrite (write_unsafe_same _ _ _ H5) by (rewrite length_le_encode; lia).
Qed.

Section push.
Context (k v : bytes) (Hk : key_ok k).

Local Abbreviation x := ((k, v) : kv).
Local Abbreviation entry := (entry_bytes rgs (length kvs) (last_key [] kvs) x).

Lemma page_used_snoc :
  page_used rgs (kvs ++ [x]) =
    enc_bytes_written e + length entry + (if is_restart rgs (length kvs) then 2 else 0).
Proof.
  unfold page_used. rewrite entries_bytes_snoc, !length_app, Nat.add_1_r, ngroups_S by apply rep_pow2.
  pose proof (er_written _ _ _ Hrep) as Hw. rewrite rep_ngroups in Hw.
  cbn [length]. destruct (is_restart _ _); lia.
Qed.

(** Writing one entry at the head keeps the representation. *)
Lemma write_entry_rep e' :
  page_used rgs (kvs ++ [x]) <= size ->
  enc_cfg e' = enc_cfg e -> enc_base e' = enc_base e ->
  enc_head e' = enc_head e + length entry -> enc_last_key e' = k ->
  enc_offsets e' = enc_offsets e ++
    (if is_restart rgs (length kvs) then [Z.of_nat (length ents)] else []) ->
  enc_bytes_written e' = page_used rgs (kvs ++ [x]) ->
  enc_kvs_count e' = enc_kvs_count e + 1 -> enc_footer e' = enc_footer e ->
  encoder_rep (write_at mem (enc_head e) entry) e' (kvs ++ [x]) /\
  frame mem (write_at mem (enc_head e) entry) (enc_base e) size.
Proof.
  intros Hfit Hcfg Hbase Hhead Hlast Hoff Hw Hcnt Hfoot.
  pose proof page_used_snoc as Hu. pose proof (er_head _ _ _ Hrep) as Hh.
  pose proof (er_mem _ _ _ Hrep) as Hm. pose proof (er_written _ _ _ Hrep) as Hw0.
  assert (enc_head e + length entry <= enc_base e + size) as Hin by lia.
  split; [|apply frame_write; lia].
  split; rewrite ?Hcfg, ?Hbase; try apply Hrep.
  - rewrite length_write_at by lia. lia.
  - apply Forall_app. split; [apply Hrep|]. by apply Forall_singleton.
  - rewrite entries_bytes_snoc. apply mem_has_app. split.
    + apply mem_has_write_ne; [lia|lia|apply Hrep].
    + rewrite <- Hh. apply mem_has_write_eq. lia.
  - rewrite entries_bytes_snoc, length_app. lia.
  - by rewrite last_key_snoc.
  - rewrite restart_offsets_snoc by apply rep_pow2. by rewrite Hoff, (er_offsets _ _ _ Hrep).
  - rewrite Hw, Hoff, length_app, rep_ngroups. unfold page_used.
    rewrite length_app, Nat.add_1_r, ngroups_S by apply rep_pow2.
    destruct (is_restart _ _); cbn [length]; lia.
  - lia.
  - rewrite length_app. cbn [length]. rewrite Hcnt, (er_count _ _ _ Hrep). done.
  - by rewrite Hfoot, (er_footer _ _ _ Hrep).
Qed.

Lemma entry_length_ge_value : length v <= length entry.
Proof.
  unfold entry_bytes, restart_entry, delta_entry, value_bytes.
  split_ifs; cbn [fst snd]; rewrite !length_app; lia.
Qed.

(** The bounds test of the code is the one on [page_used]; the last
    conjunct covers values no page can hold. *)
Lemma space_test n :
  ((Z.of_nat (length v) < 2 ^ 16)%Z -> n = length entry + (if is_restart rgs (length kvs) then 2 else 0)) ->
  length v <= n ->
  (size <? enc_bytes_written e + n) = negb (bool_decide (page_used rgs (kvs ++ [x]) <= size)).
Proof.
  intros Hn Hge. rewrite page_used_snoc. pose proof entry_length_ge_value as Hv.
  pose proof (er_written _ _ _ Hrep). destruct (er_cfg _ _ _ Hrep) as (_ & _ & Hs).
  destruct (decide (Z.of_nat (length v) < 2 ^ 16)%Z) as [Hlv|Hlv].
  - rewrite (Hn Hlv). case_bool_decide; [apply Nat.ltb_ge | apply Nat.ltb_lt]; lia.
  - rewrite bool_decide_eq_false_2 by lia. apply Nat.ltb_lt. lia.
Qed.

Lemma fits_value_small : page_used rgs (kvs ++ [x]) <= size -> (Z.of_nat (length v) < 2 ^ 16)%Z.
Proof.
  rewrite page_used_snoc. pose proof entry_length_ge_value. pose proof (er_written _ _ _ Hrep).
  destruct (er_cfg _ _ _ Hrep) as (_ & _ & Hs). lia.
Qed.

Lemma fits_in_memory :
  page_used rgs (kvs ++ [x]) <= size -> enc_head e + length entry <= length mem.
Proof.
  rewrite page_used_snoc. pose proof (er_written _ _ _ Hrep). pose proof (er_head _ _ _ Hrep).
  pose proof (er_mem _ _ _ Hrep). lia.
Qed.

(** The page has room and the offsets have not: the exception. *)
Lemma push_overflow :
  page_used rgs (kvs ++ [x]) <= size -> MAX_OFFSETS < ngroups rgs (S (length kvs)) ->
  ngroups rgs (length kvs) <= MAX_OFFSETS ->
  block_encoder_push xxh64_hash mem e k v = None.
Proof.
  intros Hfit Hg Hg0. destruct Hk as [Hk1 Hk2]. unfold MIN_KEY_LEN in Hk1. unfold block_encoder_push.
  rewrite (proj2 (Nat.ltb_ge _ _) Hk2), (proj2 (Nat.eqb_neq _ _)) by lia. cbn [orb].
  rewrite (er_count _ _ _ Hrep). fold (is_restart rgs (length kvs)).
  rewrite ngroups_S in Hg by apply rep_pow2. destruct (is_restart rgs (length kvs)) eqn:Hr; [|lia]. cbn [negb].
  assert (entry = restart_entry k v) as Hent by (unfold entry_bytes; by rewrite Hr).
  unfold _push_as_restart_key. rewrite <- Nat.add_assoc, (space_test (_ + sizeof_u16));
    [|intros Hv; rewrite Hent, length_restart_entry, Hr by done; done|lia].
  rewrite bool_decide_eq_true_2 by done. cbn [negb]. rewrite rep_ngroups, (proj2 (Nat.leb_le _ _)) by lia. done.
Qed.

Context (Hgroups : page_used rgs (kvs ++ [x]) <= size -> ngroups rgs (S (length kvs)) <= MAX_OFFSETS).

Lemma push_restart_spec :
  is_restart rgs (length kvs) = true ->
  if decide (page_used rgs (kvs ++ [x]) <= size) then
    exists e', _push_as_restart_key xxh64_hash mem e k v =
        Some (ok, (write_at mem (enc_head e) entry, e')) /\
      encoder_rep (write_at mem (enc_head e) entry) e' (kvs ++ [x]) /\
      frame mem (write_at mem (enc_head e) entry) (enc_base e) size /\
      enc_cfg e' = enc_cfg e /\ enc_base e' = enc_base e /\
      enc_committed e' = enc_committed e
  else _push_as_restart_key xxh64_hash mem e k v =
         Some (Err (mk_error "" BUFFER_FULL), _commit xxh64_hash mem e).
Proof.
  intros Hr. assert (entry = restart_entry k v) as Hent by (unfold entry_bytes; by rewrite Hr).
  unfold _push_as_restart_key. rewrite <- Nat.add_assoc, (space_test (_ + sizeof_u16));
    [|intros Hv; rewrite Hent, length_restart_entry, Hr by done; done|lia].
  case_decide as Hfit; [|by rewrite bool_decide_eq_false_2].
  rewrite bool_decide_eq_true_2 by done. cbn [negb].
  specialize (Hgroups Hfit). rewrite ngroups_S, Hr in Hgroups by apply rep_pow2.
  rewrite rep_ngroups, (proj2 (Nat.leb_gt _ _)) by lia.
  pose proof (fits_value_small Hfit) as Hv. pose proof (fits_in_memory Hfit) as Hin.
  pose proof (length_restart_entry k v Hv) as Hl. rewrite Hent in Hin.
  assert (_write_unsafe v (_write_as_varint_unsafe (Z.of_nat (length v))
     (_write_unsafe k (_write_unsafe [encode_key_size (Z.of_nat (length k))] (mem, enc_head e))))
     = (write_at mem (enc_head e) entry, enc_head e + length entry)) as Hwr.
  { rewrite Hent. unfold restart_entry, value_bytes, write_key in *. unfold _write_as_varint_unsafe.
    rewrite !length_app in Hin. cbn [length] in Hin.
    rewrite !write_unsafe_app by (rewrite ?length_app; cbn [length]; lia).
    unfold _write_unsafe. by rewrite <- !app_assoc. }
  rewrite Hwr. eexists. split; [done|].
  assert (u16 (Z.of_nat (enc_head e - enc_base e)) = Z.of_nat (length ents)) as Ho.
  { rewrite (er_head _ _ _ Hrep). pose proof rep_bound. destruct (er_cfg _ _ _ Hrep) as (_ & _ & ?).
    rewrite wrap_small by lia. lia. }
  match goal with |- encoder_rep _ ?e' _ /\ _ => destruct (write_entry_rep e') as [Hrep' Hfr] end;
    try done; cbn [enc_offsets enc_bytes_written];
    rewrite ?Ho, ?page_used_snoc, ?Hr, ?Hent, ?Hl; unfold sizeof_u16; try done; lia.
Qed.

Lemma push_delta_spec :
  is_restart rgs (length kvs) = false ->
  if decide (page_used rgs (kvs ++ [x]) <= size) then
    exists e', _push_as_delta_key xxh64_hash mem e k v =
        (ok, (write_at mem (enc_head e) entry, e')) /\
      encoder_rep (write_at mem (enc_head e) entry) e' (kvs ++ [x]) /\
      frame mem (write_at mem (enc_head e) entry) (enc_base e) size /\
      enc_cfg e' = enc_cfg e /\ enc_base e' = enc_base e /\
      enc_committed e' = enc_committed e
  else _push_as_delta_key xxh64_hash mem e k v =
         (Err (mk_error "" BUFFER_FULL), _commit xxh64_hash mem e).
Proof.
  intros Hr. assert (entry = delta_entry (last_key [] kvs) k v) as Hent
    by (unfold entry_bytes; by rewrite Hr).
  unfold _push_as_delta_key. rewrite (er_last _ _ _ Hrep).
  set (p := _compute_shared_prefix_length _ _). rewrite (space_test _);
    [|intros Hv; rewrite Hent, length_delta_entry, Hr by done; unfold p; lia|lia].
  case_decide as Hfit; [|by rewrite bool_decide_eq_false_2].
  rewrite bool_decide_eq_true_2 by done. cbn [negb].
  pose proof (fits_value_small Hfit) as Hv. pose proof (fits_in_memory Hfit) as Hin.
  pose proof (length_delta_entry (last_key [] kvs) k v Hv) as Hl. rewrite Hent in Hin.
  assert (_write_unsafe v (_write_as_varint_unsafe (Z.of_nat (length v))
     (_write_unsafe (drop p k) (_write_unsafe [u8 (Z.of_nat (length k - p))]
        (_write_unsafe [u8 (Z.of_nat p)] (mem, enc_head e)))))
     = (write_at mem (enc_head e) entry, enc_head e + length entry)) as Hwr.
  { rewrite Hent. unfold delta_entry, value_bytes in *. fold p in Hin |- *.
    unfold _write_as_varint_unsafe.
    rewrite !length_app in Hin. cbn [length] in Hin.
    rewrite !write_unsafe_app by (rewrite ?length_app; cbn [length]; lia).
    unfold _write_unsafe. by rewrite <- !app_assoc. }
  rewrite Hwr. eexists. split; [done|].
  match goal with |- encoder_rep _ ?e' _ /\ _ => destruct (write_entry_rep e') as [Hrep' Hfr] end;
    try done; cbn [enc_offsets enc_bytes_written];
    rewrite ?page_used_snoc, ?Hr, ?Hent, ?Hl, ?app_nil_r; unfold sizeof_u16, p; try done; lia.
Qed.

(** [push] takes the entry exactly when the page has room for it, and
    otherwise commits the page and reports [BUFFER_FULL]. *)
Lemma push_spec :
  if decide (page_used rgs (kvs ++ [x]) <= size) then
    exists e', block_encoder_push xxh64_hash mem e k v =
        Some (ok, (write_at mem (enc_head e) entry, e')) /\
      encoder_rep (write_at mem (enc_head e) entry) e' (kvs ++ [x]) /\
      frame mem (write_at mem (enc_head e) entry) (enc_base e) size /\
      enc_cfg e' = enc_cfg e /\ enc_base e' = enc_base e /\
      enc_committed e' = enc_committed e
  else block_encoder_push xxh64_hash mem e k v =
         Some (Err (mk_error "" BUFFER_FULL), _commit xxh64_hash mem e).
Proof.
  destruct Hk as [Hk1 Hk2]. unfold MIN_KEY_LEN in Hk1. unfold block_encoder_push.
  rewrite (proj2 (Nat.ltb_ge _ _) Hk2), (proj2 (Nat.eqb_neq _ _)) by lia. cbn [orb].
  rewrite (er_count _ _ _ Hrep). fold (is_restart rgs (length kvs)).
  destruct (is_restart rgs (length kvs)) eqn:Hr; cbn [negb];
    [by apply push_restart_spec|]. pose proof (push_delta_spec Hr) as H.
  case_decide; [|by rewrite H]. destruct H as (e' & -> & H). by exists e'.
Qed.
End push.
End encoder_facts.

(** ** Reading a page back *)

(** The value of the first entry with the given key. *)
Fixpoint assoc (key : bytes) (l : list kv) : option bytes :=
  match l with
  | [] => None
  | x :: l => if Lex.eqb x.1 key then Some x.2 else assoc key l
  end.

Definition sorted_kvs (l : list kv) : Prop := StronglySorted (fun x y => Lex.lt x.1 y.1) l.

Lemma assoc_app key a b :
  assoc key (a ++ b) = match assoc key a with Some v => Some v | None => assoc key b end.
Proof. induction a as [|x a IH]; simpl; [done|]. by destruct (Lex.eqb x.1 key). Qed.

Lemma assoc_None key l : (forall i x, l !! i = Some x -> x.1 <> key) -> assoc key l = None.
Proof.
  induction l as [|x l IH]; intros H; simpl; [done|].
  destruct (Lex.eqb x.1 key) eqn:E; [apply Lex.eqb_eq in E; by destruct (H 0 x)|].
  apply IH. intros i y Hy. by apply (H (S i)).
Qed.

Lemma sorted_kvs_lookup l i j x y :
  sorted_kvs l -> l !! i = Some x -> l !! j = Some y -> i < j -> Lex.lt x.1 y.1.
Proof.
  intros H. revert i j. induction H as [|z l Hs IH Hf]; intros [|i] [|j]; simpl; try done; intros Hi Hj Hij.
  - lia.
  - injection Hi as ->. rewrite Forall_lookup in Hf. exact (Hf _ _ Hj).
  - lia.
  - eapply IH; eauto. lia.
Qed.

Lemma sorted_kvs_lookup_le l i j x y :
  sorted_kvs l -> l !! i = Some x -> l !! j = Some y -> i <= j -> Lex.le x.1 y.1.
Proof.
  intros Hs Hx Hy Hij. destruct (decide (i = j)) as [->|].
  - simplify_eq. apply Lex.le_refl.
  - eapply Lex.lt_le, sorted_kvs_lookup; eauto. lia.
Qed.

Definition key_short (k : bytes) : Prop := length k < MAX_KEY_LEN.

Lemma byte_at_has mem off b bs : mem_has mem off (b :: bs) -> byte_at mem off = b.
Proof. intros H. unfold byte_at. by rewrite (mem_has_lookup _ _ _ _ H). Qed.

Lemma value_bytes_small (v : bytes) : (Z.of_nat (length v) < 2 ^ 16)%Z ->
  length (unsafe_varint (Z.of_nat (length v))) <= MAX_VARINT_LENGTH_32.
Proof.
  intros Hv. apply Nat2Z.inj_le. rewrite unsafe_varint_length by lia.
  unfold varint_length, bit_width, MAX_VARINT_LENGTH_32.
  destruct (Z.eqb_spec (Z.of_nat (length v)) 0); [lia|].
  pose proof (proj1 (Z.log2_lt_pow2 (Z.of_nat (length v)) 16 ltac:(lia)) Hv).
  apply Z.div_le_upper_bound; lia.
Qed.

Lemma read_value_spec mem it head key v :
  mem_has mem head (value_bytes v) -> (Z.of_nat (length v) < 2 ^ 16)%Z ->
  exists it', _read_value mem it head key = Some it' /\
    it_head it' = head + length (value_bytes v) /\ it_kv_idx it' = it_kv_idx it /\
    it_starting_kv_idx it' = it_starting_kv_idx it /\
    it_kvs_in_block_count it' = it_kvs_in_block_count it /\
    it_restart_group_size it' = it_restart_group_size it /\
    it_key it' = key /\ iterator_value mem it' = v /\ (it_value_ref it').2 = length v.
Proof.
  intros Hm Hv. unfold value_bytes in Hm. apply mem_has_app in Hm as [Hm1 Hm2].
  unfold _read_value.
  destruct (mem_has_read_prefix _ _ _ MAX_VARINT_LENGTH_32 Hm1 (value_bytes_small v Hv)) as [rest Hr].
  assert (length (read_at mem head MAX_VARINT_LENGTH_32) <= 5) as Hlen
    by (unfold read_at; rewrite length_take; unfold MAX_VARINT_LENGTH_32; lia).
  unfold try_decode_varint. rewrite (proj2 (Nat.leb_gt _ _)) by (unfold MAX_VARINT_LENGTH_64; lia).
  rewrite Hr, decode_slow_varint by lia. eexists. split; [done|].
  cbn [it_head it_kv_idx it_starting_kv_idx it_kvs_in_block_count it_restart_group_size it_key
       it_value_ref]. unfold value_bytes, iterator_value. cbn [it_value_ref fst snd].
  rewrite length_app, Nat2Z.id. split_ands; try done; lia.
Qed.

(** On sorted entries a lookup finds exactly the members. *)
Lemma assoc_elem key v l : sorted_kvs l -> assoc key l = Some v <-> (key, v) ∈ l.
Proof.
  induction 1 as [|x l Hs IH Hf]; simpl.
  { split; [done|]. intros H. by apply not_elem_of_nil in H. }
  rewrite elem_of_cons. destruct (Lex.eqb x.1 key) eqn:E.
  - apply Lex.eqb_eq in E. split.
    + intros [= <-]. left. destruct x; simpl in *; congruence.
    + intros [<-|H]; [done|]. rewrite Forall_forall in Hf. apply Hf in H. simpl in H.
      rewrite E in H. by apply Lex.lt_irrefl in H.
  - rewrite IH. split; [by right|]. intros [<-|H]; [|done]. simpl in E. by rewrite Lex.eqb_refl in E.
Qed.

(** Presents the head of the next read as the offset [H] speaks of. *)
Ltac align_read H :=
  match type of H with mem_has _ ?h _ =>
    match goal with |- context [_read_value _ _ ?h' _] => replace h' with h by lia end
  end.

Section page_facts.
Context (xxh64_hash : bytes -> Z -> Z).
Context (mem : bytes) (cfg : block_config) (base : nat) (kvs : list kv).
Context (Hpage : page_holds xxh64_hash mem cfg base kvs).
Context (Hshort : Forall (fun x => key_short x.1) kvs).

Local Abbreviation rgs := (restart_group_size cfg).
Local Abbreviation size := (block_size_in_bytes cfg).

(** The iterator [it] stands behind the entries [pre] of the page. *)
Record it_after (pre : list kv) (it : block_iterator) : Prop := {
  ia_head : it_head it = base + length (entries_bytes rgs 0 [] pre);
  ia_idx : it_kv_idx it = length pre;
  ia_count : it_kvs_in_block_count it = length kvs;
  ia_rgs : it_restart_group_size it = rgs;
  ia_key : is_restart rgs (length pre) = false -> it_key it = last_key [] pre;
}.

Lemma page_pow2 : exists j, rgs = 2 ^ j.
Proof. apply Hpage. Qed.

Lemma page_value_small pre x post :
  kvs = pre ++ x :: post -> (Z.of_nat (length x.2) < 2 ^ 16)%Z.
Proof.
  intros ->. pose proof (ph_fits _ _ _ _ _ Hpage) as Hf.
  rewrite entries_bytes_app, length_app in Hf. cbn [entries_bytes] in Hf. rewrite length_app in Hf.
  assert (length x.2 <= length (entry_bytes rgs (0 + length pre) (last_key [] pre) x)).
  { unfold entry_bytes, restart_entry, delta_entry, value_bytes. split_ifs; rewrite !length_app; lia. }
  destruct (ph_cfg _ _ _ _ _ Hpage) as (_ & _ & ?). lia.
Qed.

Lemma page_entry pre x post :
  kvs = pre ++ x :: post ->
  mem_has mem (base + length (entries_bytes rgs 0 [] pre))
    (entry_bytes rgs (length pre) (last_key [] pre) x).
Proof.
  intros E. pose proof (ph_entries _ _ _ _ _ Hpage) as He. rewrite E, entries_bytes_app in He.
  apply mem_has_app in He as [_ He]. cbn [entries_bytes] in He. by apply mem_has_app in He as [He _].
Qed.

Lemma page_key_ok pre x post : kvs = pre ++ x :: post -> key_ok x.1 /\ key_short x.1.
Proof.
  intros E. pose proof (ph_keys _ _ _ _ _ Hpage) as Hk. rewrite E in Hk, Hshort.
  apply Forall_app in Hk as [_ Hk], Hshort as [_ Hs].
  apply Forall_cons in Hk as [? _], Hs as [? _]. done.
Qed.

(** One step of the iterator reads the next entry of the page. *)
Lemma read_next_spec pre x post it :
  kvs = pre ++ x :: post -> it_after pre it ->
  exists it', _read_next mem it = Some it' /\ it_after (pre ++ [x]) it' /\
    it_starting_kv_idx it' = it_starting_kv_idx it /\
    it_key it' = x.1 /\ iterator_value mem it' = x.2 /\ (it_value_ref it').2 = length x.2.
Proof.
  intros E [Hh Hi Hc Hg Hkey]. pose proof (page_entry _ _ _ E) as He.
  pose proof (page_value_small _ _ _ E) as Hv. destruct (page_key_ok _ _ _ E) as [[Hk1 Hk2] Hs].
  unfold MIN_KEY_LEN, key_short, MAX_KEY_LEN in *.
  unfold _read_next. cbn [it_kvs_in_block_count it_restart_group_size].
  rewrite Hc, Hi, Hg, (proj2 (Nat.leb_gt _ _)) by (rewrite E, length_app; simpl; lia).
  fold (is_restart rgs (length pre)). unfold entry_bytes in He.
  destruct (is_restart rgs (length pre)) eqn:Hr.
  - unfold restart_entry, write_key in He. apply mem_has_app in He as [Hw Hval].
    unfold _read_restart_key. cbn [it_head]. rewrite Hh, (byte_at_has _ _ _ _ Hw).
    rewrite decode_encode_key_size by (unfold MIN_KEY_LEN, MAX_KEY_LEN; lia).
    change (?a :: ?b) with ([a] ++ b) in Hw. apply mem_has_app in Hw as [_ Hkb].
    cbn [length] in Hkb, Hval. rewrite (mem_has_read _ _ _ _ Hkb) by done.
    align_read Hval.
    edestruct read_value_spec as (it' & -> & H1 & H2 & H3 & H4 & H5 & H6 & H7 & H8); [exact Hval|done|].
    exists it'. split_ands; try done. cbn [it_kv_idx it_kvs_in_block_count it_restart_group_size it_starting_kv_idx] in *.
    split; try congruence.
    + rewrite H1, entries_bytes_snoc, length_app. unfold entry_bytes. rewrite Hr.
      unfold restart_entry, write_key. rewrite length_app. cbn [length]. lia.
    + rewrite H2, length_app. simpl. lia.
    + intros _. by rewrite last_key_snoc.
  - pose proof (shared_prefix_le (last_key [] pre) x.1) as [Hp1 Hp2].
    unfold delta_entry in He. set (p := _compute_shared_prefix_length _ _) in *.
    apply mem_has_app in He as [Hhd Hrest]. apply mem_has_app in Hrest as [Hd Hval].
    unfold _read_delta_key. cbn [it_head it_key]. rewrite Hh, (byte_at_has _ _ _ _ Hhd).
    change ([?a; ?b]) with ([a] ++ [b]) in Hhd. apply mem_has_app in Hhd as [_ Hb2].
    cbn [length] in Hb2. rewrite (byte_at_has _ _ _ _ Hb2).
    rewrite !wrap_small by lia. rewrite !Nat2Z.id. cbn [length] in Hd, Hval.
    rewrite (mem_has_read _ _ _ _ Hd) by (rewrite length_drop; done).
    rewrite length_drop in Hval. rewrite Hkey by done.
    assert (resize (last_key [] pre) p ++ drop p x.1 = x.1) as ->.
    { unfold resize. replace (p - length (last_key [] pre)) with 0 by lia.
      cbn [replicate]. rewrite app_nil_r. unfold p at 1. rewrite shared_prefix_take. apply take_drop. }
    align_read Hval.
    edestruct read_value_spec as (it' & -> & H1 & H2 & H3 & H4 & H5 & H6 & H7 & H8); [exact Hval|done|].
    exists it'. split_ands; try done. cbn [it_kv_idx it_kvs_in_block_count it_restart_group_size it_starting_kv_idx] in *.
    split; try congruence.
    + rewrite H1, entries_bytes_snoc, length_app. unfold entry_bytes. rewrite Hr.
      unfold delta_entry. fold p. rewrite !length_app, length_drop. cbn [length]. lia.
    + rewrite H2, length_app. simpl. lia.
    + intros _. by rewrite last_key_snoc.
Qed.

Lemma page_ngroups : ngroups rgs (length kvs) <= length kvs.
Proof.
  destruct (decide (ngroups rgs (length kvs) = 0)) as [->|Hn]; [lia|].
  assert (ngroups rgs (length kvs) - 1 < ngroups rgs (length kvs)) as H by lia.
  apply ngroups_lt in H; [|apply page_pow2]. pose proof (rgs_pos _ page_pow2). nia.
Qed.

Lemma page_count_small : (Z.of_nat (length kvs) < 2 ^ 16)%Z.
Proof.
  pose proof (ph_fits _ _ _ _ _ Hpage). pose proof (entries_length_ge rgs 0 [] kvs).
  destruct (ph_cfg _ _ _ _ _ Hpage) as (_ & _ & ?). lia.
Qed.

(** Where each part of the trailer lies. *)
Lemma page_trailer_parts :
  let sum := _checksum xxh64_hash (read_at mem base (size - 4)) in
  let t := base + size - 10 in
  mem_has mem (t - 2 * ngroups rgs (length kvs)) (offsets_bytes (restart_offsets rgs kvs)) /\
  mem_has mem t (le_encode 2 (Z.of_nat (ngroups rgs (length kvs)))) /\
  mem_has mem (t + 2) (le_encode 2 (Z.of_nat (length kvs))) /\
  mem_has mem (t + 4) (le_encode 2 0) /\ mem_has mem (t + 6) (le_encode 4 sum).
Proof.
  intros sum t. pose proof (ph_trailer _ _ _ _ _ Hpage) as Ht. pose proof (ph_fits _ _ _ _ _ Hpage).
  unfold trailer_bytes in Ht. fold sum in Ht. rewrite !mem_has_app in Ht.
  rewrite length_offsets_bytes, length_restart_offsets, !length_app, !length_le_encode in Ht.
  destruct Ht as (H1 & H2 & (H3 & H4) & H5). unfold t.
  split_ands; [exact H1| | | |];
    match goal with H : mem_has _ ?o ?bs |- mem_has _ ?o' ?bs =>
      replace o' with o by lia; exact H end.
Qed.

Lemma page_footer d :
  d = make_block_decoder mem cfg base ->
  kv_count (dec_footer d) = Z.of_nat (length kvs) /\
  checksum (dec_footer d) = _checksum xxh64_hash (read_at mem base (size - 4)).
Proof.
  intros ->. destruct page_trailer_parts as (_ & _ & H3 & _ & H5).
  pose proof page_count_small. pose proof (ph_fits _ _ _ _ _ Hpage).
  unfold make_block_decoder, _read_footer. cbn [dec_base dec_cfg dec_footer kv_count checksum].
  unfold sizeof_block_footer. split.
  - replace (base + size - 8) with (base + size - 10 + 2) by lia.
    rewrite (mem_has_read _ _ _ _ H3) by (by rewrite length_le_encode).
    apply le_decode_encode. simpl. lia.
  - replace (base + size - 8 + 4) with (base + size - 10 + 6) by lia.
    rewrite (mem_has_read _ _ _ _ H5) by (by rewrite length_le_encode).
    apply le_decode_encode. unfold _checksum.
    rewrite land_pow2_pred by lia. apply (wrap_range 32). lia.
Qed.

(** A page that was committed passes the checksum test. *)
Lemma page_sanity : sanity_check xxh64_hash mem (make_block_decoder mem cfg base) = ok.
Proof.
  destruct (page_footer _ eq_refl) as [_ Hc]. unfold sanity_check. rewrite Hc.
  unfold make_block_decoder, _read_footer. cbn [dec_base dec_cfg default].
  unfold sizeof_checksum. by rewrite Z.eqb_refl.
Qed.

Lemma not_at_end pre x post it :
  kvs = pre ++ x :: post -> it_after (pre ++ [x]) it -> at_end it = false.
Proof.
  intros E H. unfold at_end. rewrite (ia_count _ _ H), (ia_idx _ _ H), E, !length_app.
  apply Nat.ltb_ge. simpl. lia.
Qed.

(** Past the last entry a step only moves the index. *)
Lemma read_next_end it :
  it_after kvs it -> exists it', _read_next mem it = Some it' /\ at_end it' = true.
Proof.
  intros Hit. unfold _read_next, at_end. cbn [it_kvs_in_block_count it_restart_group_size].
  rewrite (ia_count _ _ Hit), (ia_idx _ _ Hit), (proj2 (Nat.leb_le _ _)) by done.
  eexists. split; [done|]. cbn [it_kvs_in_block_count it_kv_idx]. apply Nat.ltb_lt. lia.
Qed.

Lemma iterate_end fuel it : at_end it = true -> iterate fuel mem it = Some [].
Proof. intros H. by destruct fuel; simpl; rewrite H. Qed.

Lemma iterate_spec fuel pre x post it :
  kvs = pre ++ x :: post -> it_after (pre ++ [x]) it ->
  it_key it = x.1 -> iterator_value mem it = x.2 -> length post < fuel ->
  iterate fuel mem it = Some (x :: post).
Proof.
  revert pre x post it. induction fuel as [|fuel IH]; intros pre x post it E Hit Hk Hv Hf; [lia|].
  cbn [iterate]. rewrite (not_at_end _ _ _ _ E Hit). unfold iterator_next.
  destruct post as [|y post].
  - rewrite <- E in Hit. destruct (read_next_end it Hit) as (it' & -> & He). cbn.
    rewrite iterate_end by done. cbn. rewrite Hk, Hv. by destruct x.
  - assert (kvs = (pre ++ [x]) ++ y :: post) as E' by (rewrite E, <- app_assoc; done).
    destruct (read_next_spec _ _ _ _ E' Hit) as (it' & -> & Hit' & _ & Hk' & Hv' & _).
    cbn. rewrite (IH _ _ _ _ E' Hit' Hk' Hv') by (simpl in Hf; lia).
    cbn. rewrite Hk, Hv. by destruct x.
Qed.

(** The constructor of the iterator reads the first entry. *)
Lemma page_begin x post :
  kvs = x :: post ->
  exists it, decoder_begin mem (make_block_decoder mem cfg base) = Some it /\ it_after [x] it /\
    it_key it = x.1 /\ iterator_value mem it = x.2.
Proof.
  intros E. destruct (page_footer _ eq_refl) as [Hc _]. unfold decoder_begin.
  rewrite Hc, Nat2Z.id. unfold make_block_iterator, make_block_decoder, _read_footer.
  cbn [dec_base dec_cfg from_option id]. set (it0 := mk_block_iterator _ _ _ _ _ _ _).
  assert (it_after [] it0) as H0 by (split; simpl; try done; lia).
  destruct (read_next_spec [] x post it0 E H0) as (it' & -> & Hit' & _ & Hk & Hv & _). eauto.
Qed.

Lemma page_begin_empty :
  kvs = [] -> exists it, decoder_begin mem (make_block_decoder mem cfg base) = Some it /\ at_end it = true.
Proof.
  intros E. destruct (page_footer _ eq_refl) as [Hc _]. unfold decoder_begin.
  rewrite Hc, Nat2Z.id, E. eexists. done.
Qed.

Lemma page_contents : block_contents mem (make_block_decoder mem cfg base) = Some kvs.
Proof.
  destruct (page_footer _ eq_refl) as [Hc _]. unfold block_contents. rewrite Hc, Nat2Z.id.
  assert (kvs = [] \/ exists x post, kvs = x :: post) as [E|(x & post & E)].
  { generalize kvs. intros [|x post]; [by left | right; by exists x, post]. }
  - destruct (page_begin_empty E) as (it & -> & He). rewrite E. by apply (iterate_end 0).
  - destruct (page_begin _ _ E) as (it & -> & Hit & Hk & Hv). cbn. rewrite E.
    eapply (iterate_spec _ []); eauto.
Qed.

(** The result of a search matches a lookup in an association list. *)
Definition found (r : option (nat * nat)) (v : option bytes) : Prop :=
  match r, v with
  | Some ref, Some v => read_at mem ref.1 ref.2 = v /\ ref.2 = length v
  | None, None => True
  | _, _ => False
  end.

Lemma find_in_group_spec fuel pre x post it key :
  kvs = pre ++ x :: post -> it_after (pre ++ [x]) it ->
  it_key it = x.1 -> iterator_value mem it = x.2 -> (it_value_ref it).2 = length x.2 ->
  length pre < it_starting_kv_idx it + rgs ->
  it_starting_kv_idx it + rgs - length pre < fuel ->
  exists r, find_in_group fuel mem it key = Some r /\
    found r (assoc key (take (it_starting_kv_idx it + rgs - length pre) (x :: post))).
Proof.
  revert pre x post it. induction fuel as [|fuel IH]; intros pre x post it E Hit Hk Hv Hs Hg Hf; [lia|].
  assert (at_group_end it = false) as Hge.
  { unfold at_group_end. rewrite (ia_rgs _ _ Hit), (ia_count _ _ Hit), (ia_idx _ _ Hit), E, !length_app.
    apply orb_false_iff. split; apply Nat.ltb_ge; simpl; lia. }
  cbn [find_in_group]. rewrite Hge, Hk.
  destruct (it_starting_kv_idx it + rgs - length pre) as [|m] eqn:Em; [lia|]. cbn [take assoc].
  destruct (Lex.eqb x.1 key) eqn:Eq.
  { eexists. split; [done|]. split; done. }
  unfold iterator_next. destruct post as [|y post].
  - unfold _read_next. cbn [it_kvs_in_block_count it_restart_group_size].
    rewrite (ia_count _ _ Hit), (ia_idx _ _ Hit).
    rewrite (proj2 (Nat.leb_le _ _)) by (rewrite E; done).
    exists None. split; [|by rewrite take_nil].
    assert (length kvs < S (length (pre ++ [x]))) as Hlt by (rewrite E; lia).
    destruct fuel; cbn [find_in_group]; unfold at_group_end; cbn [it_kvs_in_block_count it_kv_idx];
        by rewrite (proj2 (Nat.ltb_lt _ _) Hlt), orb_true_r.
  - assert (kvs = (pre ++ [x]) ++ y :: post) as E' by (rewrite E, <- app_assoc; done).
    destruct (read_next_spec _ _ _ _ E' Hit) as (it' & -> & Hit' & Hst & Hk' & Hv' & Hl').
    destruct m as [|m].
    + exists None. split; [|done].
      destruct fuel; cbn [find_in_group]; unfold at_group_end;
        rewrite (ia_idx _ _ Hit'), (ia_rgs _ _ Hit'), Hst;
        rewrite (proj2 (Nat.ltb_lt (it_starting_kv_idx it + rgs) _))
          by (rewrite !length_app; simpl; lia); done.
    + destruct (IH _ _ _ _ E' Hit' Hk' Hv' Hl') as (r & Hr & Hfound).
      * rewrite Hst, length_app. simpl. lia.
      * rewrite Hst, length_app. simpl. lia.
      * exists r. split; [done|]. rewrite Hst, length_app in Hfound.
        replace (it_starting_kv_idx it + rgs - (length pre + length [x])) with (S m) in Hfound
          by (simpl; lia). done.
Qed.

Lemma page_split j x : kvs !! j = Some x -> kvs = take j kvs ++ x :: drop (S j) kvs.
Proof. intros H. by rewrite take_drop_middle. Qed.

(** A restart offset leads to the first key of its group. *)
Lemma restart_key_spec j x :
  kvs !! (j * rgs) = Some x ->
  restart_key_at mem base (Z.of_nat (restart_offset rgs kvs j)) = x.1.
Proof.
  intros Hx. pose proof (page_split _ _ Hx) as E. pose proof (page_entry _ _ _ E) as He.
  pose proof (lookup_lt_Some _ _ _ Hx) as Hlt. destruct (page_key_ok _ _ _ E) as [Hk _].
  unfold entry_bytes in He. rewrite length_take, Nat.min_l in He by lia.
  rewrite (is_restart_group _ page_pow2) in He. unfold restart_entry, write_key in He.
  apply mem_has_app in He as [He _]. unfold restart_key_at. rewrite Nat2Z.id.
  unfold restart_offset. rewrite (byte_at_has _ _ _ _ He), decode_encode_key_size by done.
  change (?a :: ?b) with ([a] ++ b) in He. apply mem_has_app in He as [_ He].
  by apply (mem_has_read _ _ _ _ He).
Qed.

(** The offsets the decoder loads are those the encoder kept. *)
Lemma offsets_bytes_lookup offs i o off :
  mem_has mem off (offsets_bytes offs) -> offs !! i = Some o -> (0 <= o < 2 ^ 16)%Z ->
  le_decode (read_at mem (off + i * 2) 2) = o.
Proof.
  revert i off. induction offs as [|o' offs IH]; intros i off Hm Hi Ho; [done|].
  unfold offsets_bytes in Hm. rewrite fmap_cons in Hm. cbn [concat] in Hm.
  apply mem_has_app in Hm as [H1 H2]. rewrite length_le_encode in H2. destruct i as [|i].
  - injection Hi as ->. rewrite Nat.add_0_r, (mem_has_read _ _ _ _ H1) by (by rewrite length_le_encode).
    apply le_decode_encode. simpl. lia.
  - rewrite <- (IH i (off + 2)); [|done..]. do 2 f_equal. simpl. lia.
Qed.

Lemma loaded_count :
  Z.to_nat (le_decode (read_at mem (base + size - sizeof_block_footer - sizeof_u16) 2)) = ngroups rgs (length kvs).
Proof.
  destruct page_trailer_parts as (_ & H2 & _). pose proof page_count_small. pose proof page_ngroups.
  replace (base + size - sizeof_block_footer - sizeof_u16) with (base + size - 10) by (unfold sizeof_block_footer, sizeof_u16; lia).
  rewrite (mem_has_read _ _ _ _ H2) by (by rewrite length_le_encode).
  rewrite le_decode_encode by (simpl; lia). apply Nat2Z.id.
Qed.

Lemma loaded_offsets :
  let t := base + size - sizeof_block_footer - sizeof_u16 in
  let n := Z.to_nat (le_decode (read_at mem t 2)) in
  (fun i => le_decode (read_at mem (t - n * sizeof_u16 + i * sizeof_u16) 2)) <$> seq 0 n
    = restart_offsets rgs kvs.
Proof.
  intros t. destruct page_trailer_parts as (H1 & H2 & _). pose proof page_count_small.
  pose proof page_ngroups. pose proof (ph_fits _ _ _ _ _ Hpage).
  destruct (ph_cfg _ _ _ _ _ Hpage) as (_ & _ & Hsz).
  assert (t = base + size - 10) as Ht by (unfold t, sizeof_block_footer, sizeof_u16; lia).
  rewrite <- Ht in H1, H2. rewrite (mem_has_read _ _ _ _ H2) by (by rewrite length_le_encode).
  rewrite le_decode_encode by (simpl; lia). rewrite Nat2Z.id. intros n.
  apply list_eq. intros i. rewrite list_lookup_fmap. unfold sizeof_u16.
  replace (t - n * 2) with (t - 2 * n) by lia. unfold n.
  destruct (decide (i < ngroups rgs (length kvs))) as [Hi|Hi].
  - rewrite lookup_seq_lt by done. cbn. pose proof (proj1 (ngroups_lt _ page_pow2 _ _) Hi) as Hj.
    pose proof (lookup_restart_offsets rgs page_pow2 kvs i Hj) as Hl. rewrite Hl. f_equal.
    eapply offsets_bytes_lookup; [exact H1|exact Hl|]. split; [lia|].
    unfold restart_offset. assert (length (entries_bytes rgs 0 [] (take (i * rgs) kvs))
      <= length (entries_bytes rgs 0 [] kvs)).
    { rewrite <- (take_drop (i * rgs) kvs) at 2. rewrite entries_bytes_app, length_app. lia. }
    lia.
  - rewrite lookup_seq_ge by lia. symmetry. apply lookup_ge_None.
    rewrite length_restart_offsets. lia.
Qed.

Section sorted.
Context (Hsorted : sorted_kvs kvs) (key : bytes) (Hgroups : ngroups rgs (length kvs) <= MAX_OFFSETS).

Local Abbreviation greater := (fun offset => Lex.ltb key (restart_key_at mem base offset)).

Lemma restart_first j o :
  restart_offsets rgs kvs !! j = Some o ->
  exists x, kvs !! (j * rgs) = Some x /\ restart_key_at mem base o = x.1.
Proof.
  intros Hj. pose proof (lookup_lt_Some _ _ _ Hj) as Hlt. rewrite length_restart_offsets in Hlt.
  apply ngroups_lt in Hlt; [|apply page_pow2].
  destruct (lookup_lt_is_Some_2 kvs (j * rgs) Hlt) as [x Hx]. exists x. split; [done|].
  rewrite lookup_restart_offsets in Hj by (try done; apply page_pow2). injection Hj as <-.
  by apply restart_key_spec.
Qed.

Lemma restart_search :
  let r := upper_bound greater (restart_offsets rgs kvs) in
  r <= length (restart_offsets rgs kvs) /\
  (forall j x, j < r -> kvs !! (j * rgs) = Some x -> Lex.le x.1 key) /\
  (forall j x, r <= j -> kvs !! (j * rgs) = Some x -> Lex.lt key x.1).
Proof.
  intros r. destruct (upper_bound_spec (restart_offsets rgs kvs) greater) as (H1 & H2 & H3).
  { intros i j a b Hij Ha Hb Hq. apply negb_true_iff, Lex.ltb_ge in Hq. apply negb_true_iff, Lex.ltb_ge.
    destruct (restart_first _ _ Ha) as (x & Hx & Ex), (restart_first _ _ Hb) as (y & Hy & Ey).
    rewrite Ex. rewrite Ey in Hq. eapply Lex.le_trans; [|exact Hq].
    eapply sorted_kvs_lookup_le; [exact Hsorted|exact Hx|exact Hy|]. nia. }
  assert (forall j x, kvs !! (j * rgs) = Some x ->
    restart_offsets rgs kvs !! j = Some (Z.of_nat (restart_offset rgs kvs j))) as Hl.
  { intros j x Hx. apply lookup_restart_offsets; [apply page_pow2|]. by eapply lookup_lt_Some. }
  split_ands; [done| |]; intros j x Hj Hx; pose proof (Hl _ _ Hx) as Ho;
    rewrite <- (restart_key_spec j x Hx).
  - apply Lex.ltb_ge. eapply H2; eauto.
  - apply Lex.ltb_lt. eapply H3; eauto.
Qed.

(** [key] can only lie in the group before the restart key the search
    stopped at. *)
Lemma assoc_in_group r :
  0 < r <= ngroups rgs (length kvs) ->
  (forall j x, j < r -> kvs !! (j * rgs) = Some x -> Lex.le x.1 key) ->
  (forall j x, r <= j -> kvs !! (j * rgs) = Some x -> Lex.lt key x.1) ->
  assoc key kvs = assoc key (take rgs (drop ((r - 1) * rgs) kvs)).
Proof.
  intros Hr Hlo Hhi. set (a := (r - 1) * rgs). pose proof (rgs_pos _ page_pow2) as Hpos.
  assert (a < length kvs) as Ha by (apply ngroups_lt; [apply page_pow2|lia]).
  rewrite <- (take_drop a kvs) at 1. rewrite assoc_app.
  rewrite assoc_None.
  2:{ intros i x Hx. rewrite lookup_take_Some in Hx. destruct Hx as [Hx Hi].
      destruct (lookup_lt_is_Some_2 kvs a Ha) as [y Hy].
      apply Lex.lt_ne. eapply Lex.lt_le_trans; [exact (sorted_kvs_lookup _ _ _ _ _ Hsorted Hx Hy Hi)|].
      eapply (Hlo (r - 1)); [lia|done]. }
  rewrite <- (take_drop rgs (drop a kvs)) at 1. rewrite assoc_app.
  case_match; [done|]. apply assoc_None. intros i x Hx. rewrite drop_drop, lookup_drop in Hx.
  assert (r * rgs < length kvs) as Hn
    by (apply lookup_lt_Some in Hx; unfold a in Hx; nia).
  destruct (lookup_lt_is_Some_2 kvs (r * rgs) Hn) as [y Hy].
  intros Hxk. apply (Lex.lt_irrefl key). rewrite <- Hxk at 2. eapply Lex.lt_le_trans; [exact (Hhi r y ltac:(lia) Hy)|].
  eapply sorted_kvs_lookup_le; [exact Hsorted|exact Hy|exact Hx|]. unfold a. nia.
Qed.

Lemma page_find :
  exists r, block_find mem (make_block_decoder mem cfg base) key = Some r /\ found r (assoc key kvs).
Proof.
  destruct (page_footer _ eq_refl) as [Hc _]. unfold block_find. rewrite Hc.
  unfold make_block_decoder, _read_footer. cbn [dec_base dec_cfg dec_footer from_option id].
  rewrite (proj2 (Nat.ltb_ge MAX_OFFSETS _)) by (rewrite loaded_count; exact Hgroups).
  rewrite loaded_offsets, Nat2Z.id. destruct restart_search as (Hr & Hlo & Hhi).
  set (r := upper_bound _ _) in *. rewrite length_restart_offsets in Hr.
  destruct (Nat.eqb_spec r 0) as [Hr0|Hr0].
  { exists None. split; [done|]. rewrite assoc_None; [done|]. intros i x Hx Hxk.
    destruct (lookup_lt_is_Some_2 kvs (0 * rgs)) as [y Hy]; [apply lookup_lt_Some in Hx; lia|].
    apply (Lex.lt_irrefl key). eapply Lex.lt_le_trans; [exact (Hhi 0 y ltac:(lia) Hy)|].
    rewrite <- Hxk. eapply sorted_kvs_lookup_le; [exact Hsorted|exact Hy|exact Hx|lia]. }
  rewrite (assoc_in_group r) by (try done; lia).
  assert ((r - 1) * rgs < length kvs) as Ha by (apply ngroups_lt; [apply page_pow2|lia]).
  rewrite (lookup_restart_offsets rgs page_pow2) by done. cbn [from_option id]. rewrite Nat2Z.id.
  destruct (lookup_lt_is_Some_2 kvs _ Ha) as [x Hx]. pose proof (page_split _ _ Hx) as E.
  unfold make_block_iterator. set (it0 := mk_block_iterator _ _ _ _ _ _ _).
  assert (length (take ((r - 1) * rgs) kvs) = (r - 1) * rgs) as Hl by (rewrite length_take; lia).
  assert (it_after (take ((r - 1) * rgs) kvs) it0) as Hit0.
  { split; simpl; try done. rewrite Hl, (is_restart_group _ page_pow2). done. }
  destruct (read_next_spec _ _ _ _ E Hit0) as (it' & -> & Hit' & Hst & Hk & Hv & Hlen).
  pose proof (rgs_pos _ page_pow2).
  change (it_starting_kv_idx it0) with ((r - 1) * rgs) in Hst.
  destruct (find_in_group_spec (S rgs) _ _ _ _ key E Hit' Hk Hv Hlen) as (res & Hres & Hf);
    rewrite ?Hst, ?Hl in *; try lia.
  exists res. split; [done|]. replace ((r - 1) * rgs + rgs - (r - 1) * rgs) with rgs in Hf by lia.
  by erewrite drop_S.
Qed.
End sorted.
End page_facts.

(** ** Whole blocks *)

Section whole_block.
Context (xxh64_hash : bytes -> Z -> Z).

(** Pushes in order, up to the first error or exception. *)
Fixpoint push_all (mem : bytes) (e : block_encoder) (l : list kv) : option (status * (bytes * block_encoder)) :=
  match l with
  | [] => Some (ok, (mem, e))
  | x :: l =>
      match block_encoder_push xxh64_hash mem e x.1 x.2 with
      | Some (Ok _, (mem, e)) => push_all mem e l
      | r => r
      end
  end.

Lemma page_used_mono rgs a b :
  page_used rgs a <= page_used rgs (a ++ b).
Proof.
  unfold page_used. rewrite entries_bytes_app, !length_app.
  pose proof (ngroups_mono rgs (length a) (length a + length b)). lia.
Qed.

Lemma frame_trans mem1 mem2 mem3 base size :
  frame mem1 mem2 base size -> frame mem2 mem3 base size -> frame mem1 mem3 base size.
Proof. intros [H1 H2] [H3 H4]. split; [congruence|]. intros i Hi. rewrite H4, H2; done. Qed.

Lemma push_all_spec mem e pre l :
  encoder_rep mem e pre -> Forall (fun x => key_ok x.1) l ->
  page_used (restart_group_size (enc_cfg e)) (pre ++ l) <= block_size_in_bytes (enc_cfg e) ->
  ngroups (restart_group_size (enc_cfg e)) (length (pre ++ l)) <= MAX_OFFSETS ->
  exists mem' e', push_all mem e l = Some (ok, (mem', e')) /\ encoder_rep mem' e' (pre ++ l) /\
    frame mem mem' (enc_base e) (block_size_in_bytes (enc_cfg e)) /\
    enc_cfg e' = enc_cfg e /\ enc_base e' = enc_base e /\ enc_committed e' = enc_committed e.
Proof.
  revert mem e pre. induction l as [|x l IH]; intros mem e pre Hrep Hk Hu Hg.
  { exists mem, e. rewrite app_nil_r. split_ands; done. }
  apply Forall_cons in Hk as [Hx Hk]. cbn [push_all].
  replace (pre ++ x :: l) with ((pre ++ [x]) ++ l) in * by (by rewrite <- app_assoc).
  pose proof (page_used_mono (restart_group_size (enc_cfg e)) (pre ++ [x]) l).
  assert (ngroups (restart_group_size (enc_cfg e)) (S (length pre)) <= MAX_OFFSETS) as Hg1.
  { etransitivity; [|exact Hg]. apply ngroups_mono. rewrite !length_app. cbn [length]. lia. }
  pose proof (push_spec xxh64_hash _ _ _ Hrep x.1 x.2 Hx (fun _ => Hg1)) as Hs.
  rewrite <- surjective_pairing in Hs. rewrite decide_True in Hs by lia.
  destruct Hs as (e' & -> & Hrep' & Hfr & Hc & Hb & Hcom). cbn.
  destruct (IH _ _ _ Hrep' Hk) as (m2 & e2 & -> & Hrep2 & Hfr2 & Hc2 & Hb2 & Hcom2);
    [by rewrite Hc|by rewrite Hc|].
  exists m2, e2. rewrite Hc, Hb in *. split_ands; try done; try congruence;
    eapply frame_trans; eauto.
Qed.

Section fresh.
Context (cfg : block_config) (base : nat) (mem : bytes) (kvs : list kv).
Context (Hcfg : cfg_ok cfg) (Hmem : base + block_size_in_bytes cfg <= length mem).
Context (Hkeys : Forall (fun x => key_ok x.1) kvs).
Context (Hfits : page_used (restart_group_size cfg) kvs <= block_size_in_bytes cfg).
Context (Hgroups : ngroups (restart_group_size cfg) (length kvs) <= MAX_OFFSETS).

Lemma fresh_push_all :
  exists mem' e', push_all mem (make_block_encoder cfg base) kvs = Some (ok, (mem', e')) /\
    encoder_rep mem' e' kvs /\ frame mem mem' base (block_size_in_bytes cfg) /\
    enc_cfg e' = cfg /\ enc_base e' = base /\ enc_committed e' = false.
Proof.
  exact (push_all_spec mem (make_block_encoder cfg base) [] kvs
    (make_encoder_rep mem cfg base Hcfg Hmem) Hkeys Hfits Hgroups).
Qed.

(** What a block built by pushes and a commit holds. *)
Definition built_block : bytes :=
  match push_all mem (make_block_encoder cfg base) kvs with
  | Some (_, (mem', e')) => (_commit xxh64_hash mem' e').1
  | None => mem
  end.

Lemma built_block_page :
  page_holds xxh64_hash built_block cfg base kvs /\ frame mem built_block base (block_size_in_bytes cfg).
Proof.
  destruct fresh_push_all as (m & e & Hp & Hrep & Hfr & Hc & Hb & _). unfold built_block.
  rewrite Hp. cbn [fst snd]. pose proof (commit_page xxh64_hash _ _ _ Hrep) as Hcp.
  destruct (_commit xxh64_hash m e) as [m' e']. cbn [fst]. rewrite Hc, Hb in Hcp.
  destruct Hcp as (Hpage & Hfr' & _). split; [done|]. eapply frame_trans; eauto.
Qed.
End fresh.
End whole_block.

Lemma short_keys_ok (kvs : list kv) :
  Forall (fun x => 1 <= length x.1 < MAX_KEY_LEN) kvs ->
  Forall (fun x => key_ok x.1) kvs /\ Forall (fun x => key_short x.1) kvs.
Proof.
  intros H. split; (eapply Forall_impl; [exact H|]); intros x []; unfold key_ok, key_short, MIN_KEY_LEN; lia.
Qed.

(** ** Properties *)

(** C31: block round trip. Entries with keys of 1 to 255 bytes that fit
    the page and make at most 512 restart groups (the room the encoder has
    for restart offsets, which the page size keeps to in the default
    configuration, see [default_groups]) are all accepted, and once the block is committed a decoder
    on the page passes the checksum test and iterates over exactly these
    entries in order, whatever their keys share with each other; no byte
    outside the page is written. *)
Theorem block_roundtrip (xxh64_hash : bytes -> Z -> Z) (cfg : block_config) (base : nat)
    (mem : bytes) (kvs : list kv)
    (Hcfg : cfg_ok cfg) (Hmem : base + block_size_in_bytes cfg <= length mem)
    (Hkeys : Forall (fun x => 1 <= length x.1 < MAX_KEY_LEN) kvs)
    (Hfits : page_used (restart_group_size cfg) kvs <= block_size_in_bytes cfg)
    (Hgroups : ngroups (restart_group_size cfg) (length kvs) <= MAX_OFFSETS) :
  (exists st, push_all xxh64_hash mem (make_block_encoder cfg base) kvs = Some (ok, st)) /\
  let page := built_block xxh64_hash cfg base mem kvs in
  let d := make_block_decoder page cfg base in
  sanity_check xxh64_hash page d = ok /\ block_contents page d = Some kvs /\
  frame mem page base (block_size_in_bytes cfg).
Proof.
  destruct (short_keys_ok kvs Hkeys) as [Hk Hs].
  destruct (fresh_push_all xxh64_hash cfg base mem kvs Hcfg Hmem Hk Hfits Hgroups) as (m & e & Hp & _).
  destruct (built_block_page xxh64_hash cfg base mem kvs Hcfg Hmem Hk Hfits Hgroups) as [Hpage Hfr].
  split; [by eexists|]. split; [by eapply page_sanity|]. split; [by eapply page_contents|done].
Qed.

Lemma block_roundtrip_witness :
  let kvs := [([1; 2; 3], [9; 9]); ([1; 2; 4; 4], []); ([1; 3], [7])]%Z in
  let cfg := mk_block_config 64 2 in
  block_contents (built_block (fun bs s => s) cfg 5 (replicate 80 0%Z) kvs)
    (make_block_decoder (built_block (fun bs s => s) cfg 5 (replicate 80 0%Z) kvs) cfg 5) = Some kvs.
Proof.
  intros kvs cfg. refine (proj1 (proj2 (proj2 (block_roundtrip (fun bs s => s) cfg 5 (replicate 80 0%Z) kvs _ _ _ _ _)))).
  - split; [by exists 1|]. simpl. lia.
  - simpl. lia.
  - repeat constructor; simpl; unfold MAX_KEY_LEN; lia.
  - apply Nat.leb_le. vm_compute. reflexivity.
  - apply Nat.leb_le. vm_compute. reflexivity.
Defined.

(** Block lookup. On a committed block whose keys are strictly
    increasing, the binary search over the restart points followed by the
    scan of one restart group finds the value of every key that is
    present and reports every other key as absent. *)
Theorem block_find_correct (xxh64_hash : bytes -> Z -> Z) (cfg : block_config) (base : nat)
    (mem : bytes) (kvs : list kv) (key : bytes)
    (Hcfg : cfg_ok cfg) (Hmem : base + block_size_in_bytes cfg <= length mem)
    (Hkeys : Forall (fun x => 1 <= length x.1 < MAX_KEY_LEN) kvs)
    (Hfits : page_used (restart_group_size cfg) kvs <= block_size_in_bytes cfg)
    (Hgroups : ngroups (restart_group_size cfg) (length kvs) <= MAX_OFFSETS)
    (Hsorted : sorted_kvs kvs) :
  let page := built_block xxh64_hash cfg base mem kvs in
  match assoc key kvs with
  | None => block_find page (make_block_decoder page cfg base) key = Some None
  | Some v => exists ref, block_find page (make_block_decoder page cfg base) key = Some (Some ref) /\
      read_at page ref.1 ref.2 = v /\ ref.2 = length v
  end.
Proof.
  intros page. destruct (short_keys_ok kvs Hkeys) as [Hk Hs].
  destruct (built_block_page xxh64_hash cfg base mem kvs Hcfg Hmem Hk Hfits Hgroups) as [Hpage _].
  destruct (page_find _ _ _ _ _ Hpage Hs Hsorted key Hgroups) as (r & Hr & Hf). unfold found in Hf.
  fold page in Hr, Hf. destruct r, (assoc key kvs); try done. eauto.
Qed.

Lemma block_find_witness :
  exists ref, block_find
    (built_block (fun bs s => s) (mk_block_config 64 2) 0 (replicate 64 0%Z)
       [([1; 2; 3], [9; 9]); ([1; 2; 4; 4], []); ([1; 3], [7])]%Z)
    (make_block_decoder (built_block (fun bs s => s) (mk_block_config 64 2) 0 (replicate 64 0%Z)
       [([1; 2; 3], [9; 9]); ([1; 2; 4; 4], []); ([1; 3], [7])]%Z) (mk_block_config 64 2) 0) [1; 3]%Z
    = Some (Some ref) /\
    read_at (built_block (fun bs s => s) (mk_block_config 64 2) 0 (replicate 64 0%Z)
       [([1; 2; 3], [9; 9]); ([1; 2; 4; 4], []); ([1; 3], [7])]%Z) ref.1 ref.2 = [7]%Z /\
    ref.2 = 1.
Proof.
  refine (block_find_correct (fun bs s => s) (mk_block_config 64 2) 0 (replicate 64 0%Z)
    [([1; 2; 3], [9; 9]); ([1; 2; 4; 4], []); ([1; 3], [7])]%Z [1; 3]%Z _ _ _ _ _ _).
  - split; [by exists 1|]. simpl. lia.
  - simpl. lia.
  - repeat constructor; simpl; unfold MAX_KEY_LEN; lia.
  - apply Nat.leb_le. vm_compute. reflexivity.
  - apply Nat.leb_le. vm_compute. reflexivity.
  - repeat constructor.
Defined.

(** A full block. After any accepted sequence of pushes the next one with
    a key of legal size is taken exactly when the page has room for the
    entry, its restart offset and the trailer, and the encoder has room for
    the offset; without the room for the offset the push throws, and without
    the room in the page the code reports [BUFFER_FULL], marks the encoder
    committed and leaves a page that holds exactly the earlier entries. A
    key of illegal size is refused and changes nothing. *)
Theorem block_push_full (xxh64_hash : bytes -> Z -> Z) (cfg : block_config) (base : nat)
    (mem : bytes) (kvs : list kv) (k v : bytes)
    (Hcfg : cfg_ok cfg) (Hmem : base + block_size_in_bytes cfg <= length mem)
    (Hkeys : Forall (fun x => key_ok x.1) kvs)
    (Hfits : page_used (restart_group_size cfg) kvs <= block_size_in_bytes cfg)
    (Hgroups : ngroups (restart_group_size cfg) (length kvs) <= MAX_OFFSETS) :
  let fits := page_used (restart_group_size cfg) (kvs ++ [(k, v)]) <= block_size_in_bytes cfg in
  let room := ngroups (restart_group_size cfg) (S (length kvs)) <= MAX_OFFSETS in
  exists mem1 e1, push_all xxh64_hash mem (make_block_encoder cfg base) kvs = Some (ok, (mem1, e1)) /\
  (key_ok k -> fits -> room -> exists mem' e',
     block_encoder_push xxh64_hash mem1 e1 k v = Some (ok, (mem', e')) /\
     enc_committed e' = false /\ enc_kvs_count e' = S (length kvs)) /\
  (key_ok k -> fits -> ~ room -> block_encoder_push xxh64_hash mem1 e1 k v = None) /\
  (key_ok k -> ~ fits -> exists mem' e',
     block_encoder_push xxh64_hash mem1 e1 k v = Some (Err (mk_error "" BUFFER_FULL), (mem', e')) /\
     enc_committed e' = true /\ page_holds xxh64_hash mem' cfg base kvs) /\
  (~ key_ok k -> block_encoder_push xxh64_hash mem1 e1 k v = Some (Err (generic_error "invalid key size"), (mem1, e1))).
Proof.
  intros fits room. destruct (fresh_push_all xxh64_hash cfg base mem kvs Hcfg Hmem Hkeys Hfits Hgroups)
    as (m & e & Hp & Hrep & _ & Hc & Hb & Hcom). exists m, e. split; [done|].
  assert (restart_group_size cfg = restart_group_size (enc_cfg e)) as Ec by (by rewrite Hc).
  split_ands.
  - intros Hk Hf Hr. pose proof (push_spec xxh64_hash _ _ _ Hrep k v Hk) as Hs. rewrite Hc in Hs.
    specialize (Hs (fun _ => Hr)). rewrite decide_True in Hs by done.
    destruct Hs as (e' & -> & Hrep' & _ & _ & _ & Hcom'). eexists _, e'. rewrite Hcom'. split_ands; try done.
    rewrite (er_count _ _ _ Hrep'), length_app. simpl. lia.
  - intros Hk Hf Hr. apply (push_overflow xxh64_hash _ _ _ Hrep); rewrite ?Hc; try done. unfold room in Hr. lia.
  - intros Hk Hf. pose proof (push_spec xxh64_hash _ _ _ Hrep k v Hk) as Hs. rewrite Hc in Hs.
    specialize (Hs (fun H => False_ind _ (Hf H))). rewrite decide_False in Hs by done.
    rewrite Hs. pose proof (commit_page xxh64_hash _ _ _ Hrep) as Hcp.
    destruct (_commit xxh64_hash m e) as [m' e']. rewrite Hc, Hb in Hcp. exists m', e'. by destruct Hcp as (? & _ & ? & _).
  - intros Hk. unfold block_encoder_push.
    assert ((MAX_KEY_LEN <? length k) || (length k =? 0) = true) as ->; [|done].
    apply orb_true_iff. unfold key_ok, MIN_KEY_LEN in Hk.
    destruct (decide (length k = 0)); [right; by apply Nat.eqb_eq|left; apply Nat.ltb_lt; lia].
Qed.

(** The page is full after one entry. *)
Lemma block_push_full_witness :
  exists mem1 e1 mem' e', push_all (fun bs s => s) (replicate 16 0%Z) (make_block_encoder (mk_block_config 16 4) 0) [([1], [])]%Z
      = Some (ok, (mem1, e1)) /\
    block_encoder_push (fun bs s => s) mem1 e1 [2]%Z [] = Some (Err (mk_error "" BUFFER_FULL), (mem', e')).
Proof.
  destruct (block_push_full (fun bs s => s) (mk_block_config 16 4) 0 (replicate 16 0%Z) [([1], [])]%Z [2]%Z [])
    as (m1 & e1 & Hp & _ & _ & Hf & _).
  - split; [by exists 2|]. simpl. lia.
  - simpl. lia.
  - repeat constructor; simpl; unfold MAX_KEY_LEN; lia.
  - apply Nat.leb_le. vm_compute. reflexivity.
  - apply Nat.leb_le. vm_compute. reflexivity.
  - destruct Hf as (m2 & e2 & Hf & _).
    + unfold key_ok, MIN_KEY_LEN, MAX_KEY_LEN. simpl. lia.
    + apply Nat.nle_gt, Nat.leb_gt. vm_compute. reflexivity.
    + by exists m1, e1, m2, e2.
Defined.

(** The offsets run out before the page: of 600 entries with one-byte keys
    in restart groups of one, which fit a page of 4096 bytes, the push of
    the 513th throws. *)
Theorem block_offsets_overflow :
  let cfg := mk_block_config PAGE_SIZE_IN_BYTES 1 in
  let kvs := replicate 600 ([1%Z], []) in
  cfg_ok cfg /\ Forall (fun x => key_ok x.1) kvs /\ page_used (restart_group_size cfg) kvs <= block_size_in_bytes cfg /\
  (exists st, push_all (fun bs s => s) (replicate PAGE_SIZE_IN_BYTES 0%Z) (make_block_encoder cfg 0) (take 512 kvs) = Some (ok, st)) /\
  push_all (fun bs s => s) (replicate PAGE_SIZE_IN_BYTES 0%Z) (make_block_encoder cfg 0) kvs = None.
Proof.
  intros cfg kvs. split_ands.
  - split; [by exists 0|]. unfold cfg, PAGE_SIZE_IN_BYTES, KiB. cbn [block_size_in_bytes]. lia.
  - apply Forall_replicate. unfold key_ok, MIN_KEY_LEN, MAX_KEY_LEN. simpl. lia.
  - apply Nat.leb_le. vm_compute. reflexivity.
  - eexists. vm_compute. reflexivity.
  - vm_compute. reflexivity.
Qed.

(** A key of the maximal legal length, 256 bytes, does not survive
    as a delta entry. Both pushes are accepted and the block is
    committed, but the delta length 256 is stored as the byte 0, so the
    iterator returns an empty key for the second entry. *)
Theorem block_max_length_delta_key_lost :
  exists (kvs : list kv),
    Forall (fun x => key_ok x.1) kvs /\ sorted_kvs kvs /\
    (exists st, push_all (fun bs s => s) (replicate PAGE_SIZE_IN_BYTES 0%Z)
       (make_block_encoder default_block_config 0) kvs = Some (ok, st)) /\
    let page := built_block (fun bs s => s) default_block_config 0 (replicate PAGE_SIZE_IN_BYTES 0%Z) kvs in
    block_contents page (make_block_decoder page default_block_config 0) <> Some kvs.
Proof.
  exists [([1%Z], [5%Z]); (replicate 256 2%Z, [6%Z])]. split_ands.
  - repeat constructor; unfold key_ok, MIN_KEY_LEN, MAX_KEY_LEN; simpl; lia.
  - repeat constructor.
  - eexists. vm_compute. reflexivity.
  - vm_compute. discriminate.
Qed.
