(* ===== verification/BlockBuffer.v ===== *)
(** * Buffers of blocks (src/db/block.h, src/db/merge/write_buffer.h)

    [block_buffer_writer] lays pushed entries out over consecutive pages
    of a buffer, switching to the next page when the current one is full;
    [block_buffer_reader] walks such a buffer. [merge_write_buffer] adds
    the bookkeeping of a compaction. *)

From stdpp Require Import base list numbers strings.
From Stdlib Require Import ZArith Lia.
From S2P Require Import Prelude StdAlgo Varint Types Block.

Section buffers.
Context (xxh64_hash : bytes -> Z -> Z).

(** ** The writer *)

Record block_buffer_writer := mk_writer {
  wr_begin : nat;
  wr_cur : nat;
  wr_end : nat;
  wr_encoder : block_encoder;
}.

Definition make_writer (begin_ end_ : nat) : block_buffer_writer :=
  mk_writer begin_ begin_ end_ (make_block_encoder default_block_config begin_).

(** The third component is what [on_end_of_block] was called with; [None]
    is the encoder's exception. *)
Definition writer_push (mem : bytes) (w : block_buffer_writer) (key value : bytes)
    : option (status * (bytes * block_buffer_writer) * list bytes) :=
  '(s, (mem, enc)) ← block_encoder_push xxh64_hash mem (wr_encoder w) key value;
  match s with
  | Ok _ => Some (s, (mem, mk_writer (wr_begin w) (wr_cur w) (wr_end w) enc), [])
  | Err _ =>
      let called := [enc_last_key enc] in
      if wr_cur w + PAGE_SIZE_IN_BYTES =? wr_end w
      then Some (s, (mem, mk_writer (wr_begin w) (wr_cur w) (wr_end w) enc), called)
      else
        let cur := wr_cur w + PAGE_SIZE_IN_BYTES in
        '(s, (mem, enc)) ← block_encoder_push xxh64_hash mem (encoder_reset enc cur) key value;
        Some (s, (mem, mk_writer (wr_begin w) cur (wr_end w) enc), called)
  end.

Definition writer_reset (w : block_buffer_writer) : block_buffer_writer :=
  mk_writer (wr_begin w) (wr_begin w) (wr_end w) (encoder_reset (wr_encoder w) (wr_begin w)).

Definition writer_empty (w : block_buffer_writer) : bool :=
  (wr_cur w =? wr_begin w) && (enc_kvs_count (wr_encoder w) =? 0).

Definition force_commit (mem : bytes) (w : block_buffer_writer) : bytes * block_buffer_writer :=
  let '(mem, enc) := _commit xxh64_hash mem (wr_encoder w) in
  (mem, mk_writer (wr_begin w) (wr_cur w) (wr_end w) enc).

Definition writer_bytes_written (w : block_buffer_writer) : nat :=
  wr_cur w - wr_begin w + PAGE_SIZE_IN_BYTES.

(** ** The reader *)

Record block_buffer_reader := mk_reader {
  rd_next : nat;
  rd_end : nat;
  rd_decoder : block_decoder;
  rd_it : block_iterator;
  rd_skip_checksum : bool;
}.

(** [None] stands for the exception of an iterator step. *)
Definition reader_reset (mem : bytes) (skip_checksum : bool) (begin_ end_ : nat)
    : option (status * block_buffer_reader) :=
  let d := make_block_decoder mem default_block_config begin_ in
  it ← decoder_begin mem d;
  let r := mk_reader (begin_ + PAGE_SIZE_IN_BYTES) end_ d it skip_checksum in
  Some (if skip_checksum then ok else sanity_check xxh64_hash mem d, r).

Definition reader_next (mem : bytes) (r : block_buffer_reader)
    : option (status * block_buffer_reader) :=
  it ← iterator_next mem (rd_it r);
  let r := mk_reader (rd_next r) (rd_end r) (rd_decoder r) it (rd_skip_checksum r) in
  if negb (at_end it) then Some (ok, r)
  else if rd_next r =? rd_end r then Some (ok, r)
  else
    let cur := rd_next r in
    let d := decoder_reset mem (rd_decoder r) cur in
    let s := if rd_skip_checksum r then ok else sanity_check xxh64_hash mem d in
    match s with
    | Err _ => Some (s, mk_reader (cur + PAGE_SIZE_IN_BYTES) (rd_end r) d it (rd_skip_checksum r))
    | Ok _ =>
        it ← decoder_begin mem d;
        Some (ok, mk_reader (cur + PAGE_SIZE_IN_BYTES) (rd_end r) d it (rd_skip_checksum r))
    end.

(** [reader == block_buffer_end_sentinel] *)
Definition reader_at_end (r : block_buffer_reader) : bool :=
  (rd_next r =? rd_end r) && at_end (rd_it r).

(** The loop of the readers' clients; it stops at the first error. *)
Fixpoint read_all (fuel : nat) (mem : bytes) (r : block_buffer_reader) : option (list kv) :=
  if reader_at_end r then Some []
  else
    match fuel with
    | O => None
    | S fuel =>
        let x := (it_key (rd_it r), iterator_value mem (rd_it r)) in
        match reader_next mem r with
        | Some (Ok _, r) => rest ← read_all fuel mem r; Some (x :: rest)
        | _ => None
        end
    end.

(** ** The write buffer of a compaction *)

Record merge_write_buffer := mk_write_buffer {
  wb_mem : bytes;                    (* _buf *)
  wb_writer : block_buffer_writer;   (* _block_writer *)
  wb_indexed_kvs : nat;
}.

(** [write_item]; the last component are the keys appended to both meta
    indexes; [None] is the encoder's exception. *)
Definition write_item (b : merge_write_buffer) (key value : bytes)
    : option (status * merge_write_buffer * list bytes) :=
  '(s, (mem, w), metas) ← writer_push (wb_mem b) (wb_writer b) key value;
  match s with
  | Err _ => Some (s, mk_write_buffer mem w (wb_indexed_kvs b), metas)
  | Ok _ => Some (ok, mk_write_buffer mem w (wb_indexed_kvs b + 1), metas)
  end.

(** The bytes [flush] hands to the file, and the buffer afterwards. *)
Definition flush_buffer (b : merge_write_buffer) : bytes * merge_write_buffer :=
  let '(mem, w) := force_commit (wb_mem b) (wb_writer b) in
  (read_at mem (wr_begin w) (writer_bytes_written w),
   mk_write_buffer mem (writer_reset w) (wb_indexed_kvs b)).

(** ** What the writer keeps *)

Local Abbreviation P := PAGE_SIZE_IN_BYTES.
Local Abbreviation cfg := default_block_config.

Lemma default_cfg_ok : cfg_ok cfg.
Proof. split; [by exists 2|]. change (block_size_in_bytes cfg) with P. unfold P, KiB. lia. Qed.

(** The encoder never runs out of room for the offsets of a page. *)
Lemma default_room e kvs x : enc_cfg e = cfg ->
  page_used (restart_group_size (enc_cfg e)) (kvs ++ [x]) <= block_size_in_bytes (enc_cfg e) ->
  ngroups (restart_group_size (enc_cfg e)) (S (length kvs)) <= MAX_OFFSETS.
Proof. intros -> H%default_groups. rewrite length_app in H. cbn [length] in H. by rewrite Nat.add_1_r in H. Qed.

(** The pages from [b] on hold the chunks in order. *)
Definition pages_hold (mem : bytes) (b : nat) (chunks : list (list kv)) : Prop :=
  forall i c, chunks !! i = Some c -> page_holds xxh64_hash mem cfg (b + i * P) c.

(** An entry some empty page can hold. *)
Definition entry_fits (x : kv) : Prop := page_used 4 [x] <= P.

Record writer_rep (mem : bytes) (w : block_buffer_writer) (done : list (list kv)) (cur : list kv)
    : Prop := {
  wr_mem : wr_end w <= length mem;
  wr_pages : exists n, wr_end w = wr_begin w + n * P;
  wr_cur_pos : wr_cur w = wr_begin w + length done * P;
  wr_cur_in : wr_cur w + P <= wr_end w;
  wr_done : pages_hold mem (wr_begin w) done;
  wr_nonempty : Forall (fun c => c <> []) done;
  wr_enc_cfg : enc_cfg (wr_encoder w) = cfg;
  wr_enc_base : enc_base (wr_encoder w) = wr_cur w;
  wr_enc : encoder_rep mem (wr_encoder w) cur;
}.

Lemma page_holds_frame mem mem' base size b c :
  frame mem mem' base size -> b + P <= base \/ base + size <= b ->
  page_holds xxh64_hash mem cfg b c -> page_holds xxh64_hash mem' cfg b c.
Proof.
  intros Hf Hd [H1 H2 H3 H4 H5 H6]. change (block_size_in_bytes cfg) with P in *.
  split; change (block_size_in_bytes cfg) with P; try done.
  - destruct Hf as [-> _]. done.
  - eapply frame_mem_has; [exact Hf| |exact H4]. lia.
  - rewrite (frame_read _ _ _ _ b (P - 4) Hf) by lia.
    eapply frame_mem_has; [exact Hf| |exact H6].
    unfold trailer_bytes. rewrite !length_app, length_offsets_bytes, length_restart_offsets, !length_le_encode.
    lia.
Qed.

Lemma pages_hold_frame mem mem' b done base :
  frame mem mem' base P -> base = b + length done * P ->
  pages_hold mem b done -> pages_hold mem' b done.
Proof.
  intros Hf -> H i c Hi. eapply page_holds_frame; [exact Hf| |by apply H].
  apply lookup_lt_Some in Hi. unfold P, KiB in *. nia.
Qed.

Lemma make_writer_rep mem b n :
  0 < n -> b + n * P <= length mem -> writer_rep mem (make_writer b (b + n * P)) [] [].
Proof.
  intros Hn Hm. split; simpl; try done; try lia.
  - by exists n.
  - unfold P, KiB in *. nia.
  - apply make_encoder_rep; [apply default_cfg_ok|].
    change (block_size_in_bytes cfg) with P. unfold P, KiB in *. nia.
Qed.

Section push.
Context (mem : bytes) (w : block_buffer_writer) (done : list (list kv)) (cur : list kv).
Context (Hrep : writer_rep mem w done cur).

(** A commit of the current page completes the chunk. *)
Lemma commit_current :
  let '(mem', e') := _commit xxh64_hash mem (wr_encoder w) in
  pages_hold mem' (wr_begin w) (done ++ [cur]) /\ frame mem mem' (wr_cur w) P /\
  enc_cfg e' = cfg /\ enc_last_key e' = last_key [] cur.
Proof.
  pose proof (commit_page xxh64_hash _ _ _ (wr_enc _ _ _ _ Hrep)) as H.
  destruct (_commit xxh64_hash mem (wr_encoder w)) as [mem' e'].
  rewrite (wr_enc_cfg _ _ _ _ Hrep), (wr_enc_base _ _ _ _ Hrep) in H.
  destruct H as (Hp & Hf & _ & _ & Hc & Hl & _). change (block_size_in_bytes cfg) with P in Hf.
  split_ands; try done; [|by rewrite Hl; apply Hrep].
  intros i c Hi. apply lookup_app_Some in Hi as [Hi|[Hge Hi]].
  - eapply pages_hold_frame; [exact Hf|apply Hrep|apply Hrep|done].
  - apply list_lookup_singleton_Some in Hi as [Hi <-].
    replace (wr_begin w + i * P) with (wr_cur w); [done|].
    rewrite (wr_cur_pos _ _ _ _ Hrep). f_equal. f_equal. lia.
Qed.

Context (x : kv) (Hk : key_ok x.1).

(** The push to the next page, after the current one was completed. *)
Lemma push_next_page m1 :
  frame mem m1 (wr_cur w) P -> pages_hold m1 (wr_begin w) (done ++ [cur]) -> wr_cur w + P + P <= wr_end w ->
  exists s m2 e2, block_encoder_push xxh64_hash m1 (make_block_encoder cfg (wr_cur w + P)) x.1 x.2 = Some (s, (m2, e2)) /\
  length m2 = length mem /\
  (forall i, i < wr_begin w \/ wr_end w <= i -> m2 !! i = mem !! i) /\
  (s = ok /\ entry_fits x /\
     (cur <> [] -> writer_rep m2 (mk_writer (wr_begin w) (wr_cur w + P) (wr_end w) e2) (done ++ [cur]) [x]) \/
   s = Err (mk_error "" BUFFER_FULL) /\ ~ entry_fits x).
Proof.
  intros [Hlen1 Hout1] Hp1 Hroom. destruct Hrep as [R1 R2 R3 R4 R5 R6 R7 R8 R9].
  assert (encoder_rep m1 (make_block_encoder cfg (wr_cur w + P)) []) as Hr1.
  { apply make_encoder_rep; [apply default_cfg_ok|]. change (block_size_in_bytes cfg) with P. lia. }
  pose proof (push_spec xxh64_hash _ _ _ Hr1 x.1 x.2 Hk 
    (default_room (make_block_encoder cfg (wr_cur w + P)) [] _ eq_refl)) as Hs2.
  rewrite <- surjective_pairing in Hs2.
  change (enc_cfg (make_block_encoder cfg (wr_cur w + P))) with cfg in Hs2.
  change (enc_base (make_block_encoder cfg (wr_cur w + P))) with (wr_cur w + P) in Hs2.
  change (restart_group_size cfg) with 4 in Hs2. change (block_size_in_bytes cfg) with P in Hs2.
  case_decide as Hd2.
  - destruct Hs2 as (e2 & -> & Hr2 & Hf2 & Hc2 & Hb2 & _). eexists _, _, e2. split; [done|].
    pose proof Hf2 as [Hlen2 Hout2]. split_ands; [congruence| |].
    + intros i Hi. rewrite Hout2, Hout1 by lia. done.
    + left. split_ands; [done|exact Hd2|]. intros Hne.
      split; cbn [wr_begin wr_end wr_cur wr_encoder]; try done.
      * lia.
      * rewrite length_app, R3. simpl. lia.
      * eapply pages_hold_frame; [exact Hf2| |exact Hp1]. rewrite length_app, R3. simpl. lia.
      * apply Forall_app. split; [done|]. by apply Forall_singleton.
  - rewrite Hs2. pose proof (commit_page xxh64_hash _ _ _ Hr1) as Hcp.
    destruct (_commit xxh64_hash m1 (make_block_encoder cfg (wr_cur w + P))) as [m2 e2]. eexists _, m2, e2. split; [done|].
    destruct Hcp as (_ & [Hlen2 Hout2] & _).
    change (enc_base (make_block_encoder cfg (wr_cur w + P))) with (wr_cur w + P) in Hout2.
    change (block_size_in_bytes _) with P in Hout2. split_ands; [congruence| |by right].
    intros i Hi. rewrite Hout2, Hout1 by lia. done.
Qed.

(** The entry goes to the current page, or to the next page after the
    current one was completed, or nowhere when there is no next page or
    no page can hold it. *)
Lemma writer_push_spec :
  exists s mem' w' called, writer_push mem w x.1 x.2 = Some (s, (mem', w'), called) /\
  length mem' = length mem /\
  (forall i, i < wr_begin w \/ wr_end w <= i -> mem' !! i = mem !! i) /\
  wr_begin w' = wr_begin w /\ wr_end w' = wr_end w /\
  (s = ok /\ called = [] /\ writer_rep mem' w' done (cur ++ [x]) \/
   s = ok /\ called = [last_key [] cur] /\ cur <> [] /\ writer_rep mem' w' (done ++ [cur]) [x] \/
   s = Err (mk_error "" BUFFER_FULL) /\
     (entry_fits x -> wr_cur w + P = wr_end w /\ called = [last_key [] cur] /\ cur <> [] /\
        pages_hold mem' (wr_begin w) (done ++ [cur]) /\
        _commit xxh64_hash mem (wr_encoder w) = (mem', wr_encoder w') /\ wr_cur w' = wr_cur w)).
Proof.
  pose proof (push_spec xxh64_hash _ _ _ (wr_enc _ _ _ _ Hrep) x.1 x.2 Hk (default_room _ _ _ (wr_enc_cfg _ _ _ _ Hrep))) as Hs.
  rewrite <- surjective_pairing in Hs. rewrite (wr_enc_cfg _ _ _ _ Hrep), (wr_enc_base _ _ _ _ Hrep) in Hs.
  change (restart_group_size cfg) with 4 in Hs. change (block_size_in_bytes cfg) with P in Hs.
  pose proof push_next_page as Hnext. destruct Hrep as [R1 R2 R3 R4 R5 R6 R7 R8 R9].
  unfold writer_push. case_decide as Hd.
  { destruct Hs as (e' & -> & Hr' & Hf & Hc & Hb & _). cbn [mbind option_bind]. eexists _, _, _, _. split; [done|]. cbn [wr_begin wr_end].
    pose proof Hf as [Hl Hout]. split_ands; try done.
    - intros i Hi. apply Hout. lia.
    - left. split_ands; try done. split; cbn [wr_begin wr_end wr_cur wr_encoder]; try done.
      + by rewrite Hl.
      + eapply pages_hold_frame; eauto. }
  rewrite Hs. cbn [mbind option_bind]. pose proof commit_current as Hcm.
  destruct (_commit xxh64_hash mem (wr_encoder w)) as [m1 e1] eqn:Ecm. destruct Hcm as (Hp1 & Hf1 & Hc1 & Hl1).
  assert (entry_fits x -> cur <> []) as Hne.
  { intros Hfit ->. apply Hd. exact Hfit. }
  destruct (Nat.eqb_spec (wr_cur w + P) (wr_end w)) as [He|He].
  { pose proof Hf1 as [Hlen1 Hout1]. eexists _, _, _, _. split; [done|]. cbn [wr_begin wr_end]. split_ands; try done.
    - intros i Hi. apply Hout1. lia.
    - right. right. split; [done|]. intros Hfit. rewrite Hl1. split_ands; auto. }
  destruct R2 as [n Hn].
  assert (wr_cur w + P + P <= wr_end w) as Hroom by (unfold P, KiB in *; nia).
  rewrite encoder_reset_make, Hc1. specialize (Hnext m1 Hf1 Hp1 Hroom).
  destruct Hnext as (s & m2 & e2 & -> & H1 & H2 & Hcs). cbn [mbind option_bind]. eexists _, _, _, _. split; [done|].
  destruct Hcs as [(-> & Hfit & H3)|(-> & Hfit)]; cbn [wr_begin wr_end]; split_ands; try done.
  - right. left. rewrite Hl1. split_ands; auto.
  - right. right. by split.
Qed.
End push.

(** Pushes in order up to the first error, with the keys the callback
    received. *)
Fixpoint writer_push_all (mem : bytes) (w : block_buffer_writer) (l : list kv)
    : option (status * (bytes * block_buffer_writer) * list bytes) :=
  match l with
  | [] => Some (ok, (mem, w), [])
  | x :: l =>
      match writer_push mem w x.1 x.2 with
      | Some (Ok _, (mem, w), called) =>
          '(s, st, rest) ← writer_push_all mem w l; Some (s, st, called ++ rest)
      | r => r
      end
  end.

Lemma writer_push_all_spec mem w done cur l mem' w' metas :
  writer_rep mem w done cur -> Forall (fun x => key_ok x.1) l ->
  writer_push_all mem w l = Some (ok, (mem', w'), metas) ->
  exists done' cur', writer_rep mem' w' (done ++ done') cur' /\
    concat done' ++ cur' = cur ++ l /\ metas = last_key [] <$> done' /\
    (cur' = [] -> cur = [] /\ l = []) /\
    length mem' = length mem /\ wr_begin w' = wr_begin w /\ wr_end w' = wr_end w /\
    (forall i, i < wr_begin w \/ wr_end w <= i -> mem' !! i = mem !! i).
Proof.
  revert mem w done cur metas. induction l as [|x l IH]; intros mem w done cur metas Hrep Hk Hp.
  { injection Hp as <- <- <-. exists [], cur. rewrite !app_nil_r. split_ands; try done; by intros ->. }
  apply Forall_cons in Hk as [Hx Hk]. cbn [writer_push_all] in Hp.
  pose proof (writer_push_spec _ _ _ _ Hrep x Hx) as Hs.
  destruct Hs as (s & m1 & w1 & called & E1 & Hl1 & Ho1 & Hb1 & He1 & Hcases). rewrite E1 in Hp.
  destruct s as [[]|]; [|done].
  destruct (writer_push_all m1 w1 l) as [[[s2 [m2 w2]] metas2]|] eqn:E2; [|done]. cbn [mbind option_bind] in Hp.
  injection Hp as -> -> -> <-.
  destruct Hcases as [(_ & -> & Hr1)|[(_ & -> & Hne & Hr1)|[? _]]]; [| |done].
  - destruct (IH _ _ _ _ _ Hr1 Hk E2) as (done' & cur' & Hr' & Hcat & Hm & Hnil & Hl & Hb & He & Ho).
    exists done', cur'. split_ands; try done; try congruence.
    + by rewrite Hcat, <- app_assoc.
    + intros H. apply Hnil in H as [H _]. by destruct cur.
    + intros i Hi. rewrite Ho, Ho1; [done|done|]. by rewrite Hb1, He1.
  - destruct (IH _ _ _ _ _ Hr1 Hk E2) as (done' & cur' & Hr' & Hcat & Hm & Hnil & Hl & Hb & He & Ho).
    exists (cur :: done'), cur'. rewrite <- app_assoc in Hr'. split_ands; try done; try congruence.
    + simpl. by rewrite <- app_assoc, Hcat.
    + simpl. by rewrite Hm.
    + intros H. by apply Hnil in H as [H _].
    + intros i Hi. rewrite Ho, Ho1; [done|done|]. by rewrite Hb1, He1.
Qed.

(** ** Reading a buffer back *)

Section read.
Context (mem : bytes) (b : nat) (chunks : list (list kv)).
Context (Hpages : pages_hold mem b chunks).
Context (Hshort : Forall (Forall (fun x => key_short x.1)) chunks).

Lemma chunk_short i c : chunks !! i = Some c -> Forall (fun x => key_short x.1) c.
Proof. intros H. rewrite Forall_lookup in Hshort. eauto. Qed.

(** The reader [r] stands on entry [x] of chunk [i]. *)
Record reader_at (r : block_buffer_reader) (i : nat) (c pre : list kv) (x : kv) (post : list kv)
    : Prop := {
  ra_chunk : chunks !! i = Some c;
  ra_split : c = pre ++ x :: post;
  ra_next : rd_next r = b + S i * P;
  ra_end : rd_end r = b + length chunks * P;
  ra_decoder : rd_decoder r = make_block_decoder mem cfg (b + i * P);
  ra_it : it_after cfg (b + i * P) c (pre ++ [x]) (rd_it r);
  ra_key : it_key (rd_it r) = x.1;
  ra_value : iterator_value mem (rd_it r) = x.2;
}.

Lemma reader_not_at_end r i c pre x post : reader_at r i c pre x post -> reader_at_end r = false.
Proof.
  intros [H1 H2 _ _ _ H6 _ _]. unfold reader_at_end.
  rewrite (not_at_end cfg _ _ _ _ _ _ H2 H6). by rewrite andb_false_r.
Qed.

(** [next] moves to the following entry, across pages. *)
Lemma reader_next_spec r i c pre x post :
  Forall (fun c => c <> []) chunks -> reader_at r i c pre x post ->
  exists r', reader_next mem r = Some (ok, r') /\
    match post, drop (S i) chunks with
    | y :: post', _ => reader_at r' i c (pre ++ [x]) y post'
    | [], (y :: post') :: _ => reader_at r' (S i) (y :: post') [] y post'
    | [], _ => reader_at_end r' = true
    end.
Proof.
  intros Hne [H1 H2 H3 H4 H5 H6 H7 H8]. unfold reader_next, iterator_next.
  pose proof (Hpages _ _ H1) as Hpg. destruct post as [|y post].
  - rewrite <- H2 in H6. destruct (read_next_end mem _ _ _ _ H6) as (it' & -> & He).
    cbn [mbind option_bind rd_next rd_end rd_decoder rd_skip_checksum]. rewrite He. cbn [negb]. rewrite H3, H4.
    destruct (Nat.eqb_spec (b + S i * P) (b + length chunks * P)) as [Hend|Hend].
    + eexists. split; [done|].
      assert (length chunks = S i) as Hl by (unfold P, KiB in *; nia).
      rewrite drop_ge by lia. unfold reader_at_end. cbn [rd_next rd_end rd_it].
      rewrite He, <- Hend, Nat.eqb_refl. done.
    + assert (S i < length chunks) as Hl.
      { apply lookup_lt_Some in H1. destruct (decide (length chunks = S i)) as [E|]; [|lia].
        rewrite E in Hend. done. }
      destruct (lookup_lt_is_Some_2 chunks (S i) Hl) as [c' Hc'].
      rewrite (drop_S chunks c' (S i) Hc').
      pose proof (Hpages _ _ Hc') as Hpg'.
      assert (decoder_reset mem (rd_decoder r) (b + S i * P) = make_block_decoder mem cfg (b + S i * P)) as ->
        by (by rewrite H5).
      rewrite Forall_lookup in Hne. specialize (Hne _ _ Hc'). destruct c' as [|y post]; [done|].
      destruct (page_begin _ _ _ _ _ Hpg' (chunk_short _ _ Hc') y post eq_refl) as (it2 & Hb2 & Hit2 & Hk2 & Hv2).
      assert ((if rd_skip_checksum r then ok
         else sanity_check xxh64_hash mem (make_block_decoder mem cfg (b + S i * P))) = ok) as ->.
      { rewrite (page_sanity _ _ _ _ _ Hpg'). by destruct (rd_skip_checksum r). }
      cbn [ok]. rewrite Hb2. eexists. split; [done|].
      split; cbn [rd_next rd_end rd_decoder rd_it]; try done. lia.
  - destruct (read_next_spec _ _ _ _ _ Hpg (chunk_short _ _ H1) (pre ++ [x]) y post (rd_it r))
      as (it' & -> & Hit' & _ & Hk' & Hv' & _); [by rewrite <- app_assoc|done|].
    cbn [mbind option_bind]. assert (c = (pre ++ [x]) ++ y :: post) as H2' by (by rewrite <- app_assoc).
    rewrite (not_at_end cfg _ _ _ _ _ _ H2' Hit'). cbn [negb]. eexists. split; [done|].
    split; cbn [rd_next rd_end rd_decoder rd_it]; done.
Qed.

Lemma read_all_spec fuel r i c pre x post :
  Forall (fun c => c <> []) chunks -> reader_at r i c pre x post ->
  length post + length (concat (drop (S i) chunks)) < fuel ->
  read_all fuel mem r = Some (x :: post ++ concat (drop (S i) chunks)).
Proof.
  intros Hne. revert r i c pre x post. induction fuel as [|fuel IH]; intros r i c pre x post Hr Hf; [lia|].
  cbn [read_all]. rewrite (reader_not_at_end _ _ _ _ _ _ Hr).
  rewrite (ra_key _ _ _ _ _ _ Hr), (ra_value _ _ _ _ _ _ Hr), <- surjective_pairing.
  destruct (reader_next_spec _ _ _ _ _ _ Hne Hr) as (r' & -> & Hr'). cbn [ok].
  destruct post as [|y post].
  - destruct (drop (S i) chunks) as [|c' rest] eqn:Ed.
    + simpl. assert (read_all fuel mem r' = Some []) as -> by (destruct fuel; simpl; by rewrite Hr').
      done.
    + destruct c' as [|y post].
      { assert (chunks !! (S i) = Some []) as Hl by (rewrite <- (Nat.add_0_r (S i)), <- lookup_drop, Ed; done).
        rewrite Forall_lookup in Hne. by destruct (Hne _ _ Hl). }
      assert (drop (S (S i)) chunks = rest) as Hd.
      { replace (S (S i)) with (S i + 1) by lia. by rewrite <- drop_drop, Ed. }
      simpl in Hf. rewrite length_app in Hf. rewrite (IH _ _ _ _ _ _ Hr'); rewrite Hd; [done|lia].
  - simpl in Hf. rewrite (IH _ _ _ _ _ _ Hr') by lia. done.
Qed.

(** A reader starts on the first entry of the first page. *)
Lemma reader_reset_at skip :
  Forall (fun c => c <> []) chunks -> chunks <> [] ->
  exists r x post, reader_reset mem skip b (b + length chunks * P) = Some (ok, r) /\ reader_at r 0 (x :: post) [] x post.
Proof.
  intros Hne Hnil. destruct (lookup_lt_is_Some_2 chunks 0) as [c Hc]; [destruct chunks; [done|simpl; lia]|].
  pose proof (Hpages _ _ Hc) as Hpg. rewrite Nat.mul_0_l, Nat.add_0_r in Hpg. unfold reader_reset.
  assert ((if skip then ok else sanity_check xxh64_hash mem (make_block_decoder mem cfg b)) = ok) as ->.
  { rewrite (page_sanity _ _ _ _ _ Hpg). by destruct skip. }
  rewrite Forall_lookup in Hne. pose proof (Hne _ _ Hc). destruct c as [|x post]; [done|].
  destruct (page_begin _ _ _ _ _ Hpg (chunk_short _ _ Hc) x post eq_refl) as (it & -> & Hit & Hk & Hv).
  eexists _, x, post. split; [done|].
  split; cbn [rd_next rd_end rd_decoder rd_it]; try done; rewrite ?Nat.mul_0_l, ?Nat.add_0_r; done.
Qed.

(** A reader over all pages returns the chunks' entries in order. *)
Lemma buffer_contents skip :
  (chunks = [[]] \/ Forall (fun c => c <> []) chunks) -> chunks <> [] ->
  exists r, reader_reset mem skip b (b + length chunks * P) = Some (ok, r) /\
    read_all (length (concat chunks)) mem r = Some (concat chunks).
Proof.
  intros [Hc|Hne] Hnil.
  - assert (chunks !! 0 = Some []) as Hl by (by rewrite Hc). pose proof (Hpages _ _ Hl) as Hpg.
    rewrite Nat.mul_0_l, Nat.add_0_r in Hpg. unfold reader_reset.
    destruct (page_begin_empty _ _ _ _ _ Hpg eq_refl) as (it & -> & He).
    assert ((if skip then ok else sanity_check xxh64_hash mem (make_block_decoder mem cfg b)) = ok) as ->.
    { rewrite (page_sanity _ _ _ _ _ Hpg). by destruct skip. }
    eexists. split; [cbn [mbind option_bind]; reflexivity|]. rewrite Hc. cbn [concat length read_all app].
    unfold reader_at_end. cbn [rd_next rd_end rd_it]. rewrite He, Nat.mul_1_l, Nat.eqb_refl. done.
  - destruct (reader_reset_at skip Hne Hnil) as (r & x & post & E & Hr). exists r. split; [done|].
    assert (concat chunks = x :: post ++ concat (drop 1 chunks)) as Hcat.
    { rewrite <- (take_drop_middle _ _ _ (ra_chunk _ _ _ _ _ _ Hr)) at 1. done. }
    rewrite Hcat. eapply (read_all_spec _ _ 0 (x :: post) []); [done|done|simpl; rewrite length_app; lia].
Qed.
End read.
End buffers.

(** ** Properties *)

(** Buffer round trip. When a sequence of entries with keys of 1 to
    255 bytes is accepted by the writer of a buffer of [n] pages and the
    last block is committed, a reader over the bytes written, with or
    without checksum verification, returns exactly that sequence; the
    page-switch callback received the last key of every page but the
    last; nothing outside the buffer changed. *)
Theorem buffer_roundtrip (xxh64_hash : bytes -> Z -> Z) (mem : bytes) (b n : nat) (l : list kv)
    (skip : bool) (mem' : bytes) (w' : block_buffer_writer) (metas : list bytes)
    (Hn : 0 < n) (Hmem : b + n * PAGE_SIZE_IN_BYTES <= length mem)
    (Hkeys : Forall (fun x => 1 <= length x.1 < MAX_KEY_LEN) l)
    (Hpush : writer_push_all xxh64_hash mem (make_writer b (b + n * PAGE_SIZE_IN_BYTES)) l
               = Some (ok, (mem', w'), metas)) :
  let '(final, _) := force_commit xxh64_hash mem' w' in
  (exists r, reader_reset xxh64_hash final skip b (b + writer_bytes_written w') = Some (ok, r) /\
     read_all xxh64_hash (length l) final r = Some l) /\
  (exists chunks, concat chunks = l /\ metas = last_key [] <$> take (length chunks - 1) chunks /\
     writer_bytes_written w' = length chunks * PAGE_SIZE_IN_BYTES) /\
  (forall i, i < b \/ b + n * PAGE_SIZE_IN_BYTES <= i -> final !! i = mem !! i).
Proof.
  destruct (short_keys_ok l Hkeys) as [Hok Hs].
  destruct (writer_push_all_spec _ _ _ _ _ _ _ _ _ (make_writer_rep xxh64_hash _ _ _ Hn Hmem) Hok Hpush)
    as (done & cur & Hrep & Hcat & Hm & Hnil & Hl & Hb & He & Ho).
  rewrite app_nil_l in Hrep, Hcat. cbn [wr_begin wr_end make_writer] in Hb, He, Ho.
  pose proof (commit_current _ _ _ _ _ Hrep) as Hcm. unfold force_commit.
  destruct (_commit xxh64_hash mem' (wr_encoder w')) as [final e'].
  destruct Hcm as (Hpages & [Hfl Hfo] & _ & _). rewrite Hb in Hpages.
  assert (writer_bytes_written w' = length (done ++ [cur]) * PAGE_SIZE_IN_BYTES) as Hbw.
  { unfold writer_bytes_written. rewrite (wr_cur_pos _ _ _ _ _ Hrep), Hb, length_app.
    cbn [length]. unfold PAGE_SIZE_IN_BYTES, KiB. lia. }
  assert (concat (done ++ [cur]) = l) as Hcc by (rewrite concat_app; simpl; by rewrite app_nil_r).
  split_ands.
  - rewrite Hbw, <- Hcc. apply buffer_contents; [done| | |by destruct done].
    + apply Forall_concat. by rewrite Hcc.
    + destruct cur as [|y cur].
      * left. destruct (Hnil eq_refl) as [_ ->]. rewrite app_nil_r in Hcat.
        pose proof (wr_nonempty _ _ _ _ _ Hrep) as Hne. destruct done as [|c done]; [done|].
        apply Forall_cons in Hne as [Hc _]. by destruct c.
      * right. apply Forall_app. split; [apply Hrep|by apply Forall_singleton].
  - exists (done ++ [cur]). split_ands; [done| |done].
    rewrite length_app. cbn [length]. by rewrite Nat.add_sub, take_app_length.
  - intros i Hi. rewrite Hfo; [apply Ho; lia|].
    pose proof (wr_cur_in _ _ _ _ _ Hrep). pose proof (wr_cur_pos _ _ _ _ _ Hrep). lia.
Qed.

Lemma buffer_roundtrip_witness :
  let l := [([1; 1], replicate 2000 7); ([1; 2], replicate 2000 8); ([2], replicate 500 9)]%Z in
  exists mem w metas,
    writer_push_all (fun bs s => s) (replicate 8192 0%Z) (make_writer 0 (0 + 2 * PAGE_SIZE_IN_BYTES)) l
      = Some (ok, (mem, w), metas) /\
    let '(final, _) := force_commit (fun bs s => s) mem w in
    exists r, reader_reset (fun bs s => s) final false 0 (0 + writer_bytes_written w) = Some (ok, r) /\
      read_all (fun bs s => s) (length l) final r = Some l.
Proof.
  intros l.
  destruct (writer_push_all (fun bs s => s) (replicate 8192 0%Z) (make_writer 0 (0 + 2 * PAGE_SIZE_IN_BYTES)) l)
    as [[[[[]|] [m w]] metas]|] eqn:E; [|vm_compute in E; discriminate E..].
  exists m, w, metas. split; [done|].
  pose proof (buffer_roundtrip (fun bs s => s) (replicate 8192 0%Z) 0 2 l false m w metas) as H.
  destruct (force_commit (fun bs s => s) m w) as [final w']. apply H; [lia| | |exact E].
  - rewrite length_replicate. apply Nat.leb_le. vm_compute. reflexivity.
  - repeat constructor; simpl; unfold MAX_KEY_LEN; lia.
Defined.

(** The writer refuses an entry only when the buffer is full. After
    an accepted sequence, an entry some empty page can hold is either
    taken or the writer stands on its last page and reports
    [BUFFER_FULL]; in that case all [n] pages are complete, hold exactly
    the accepted entries and the callback received the last of them. *)
Theorem writer_full_only_at_the_end (xxh64_hash : bytes -> Z -> Z) (mem : bytes) (b n : nat)
    (l : list kv) (mem' : bytes) (w' : block_buffer_writer) (metas : list bytes) (x : kv)
    (Hn : 0 < n) (Hmem : b + n * PAGE_SIZE_IN_BYTES <= length mem)
    (Hkeys : Forall (fun x => key_ok x.1) l) (Hx : key_ok x.1) (Hfit : entry_fits x)
    (Hpush : writer_push_all xxh64_hash mem (make_writer b (b + n * PAGE_SIZE_IN_BYTES)) l
               = Some (ok, (mem', w'), metas)) :
  exists s mem2 w2 called, writer_push xxh64_hash mem' w' x.1 x.2 = Some (s, (mem2, w2), called) /\
  (s = ok \/
   s = Err (mk_error "" BUFFER_FULL) /\ called = [last_key [] l] /\
     exists chunks, length chunks = n /\ concat chunks = l /\ pages_hold xxh64_hash mem2 b chunks).
Proof.
  destruct (writer_push_all_spec _ _ _ _ _ _ _ _ _ (make_writer_rep xxh64_hash _ _ _ Hn Hmem) Hkeys Hpush)
    as (done & cur & Hrep & Hcat & _ & _ & _ & Hb & He & _).
  rewrite app_nil_l in Hrep, Hcat. cbn [wr_begin wr_end make_writer] in Hb, He.
  pose proof (writer_push_spec _ _ _ _ _ Hrep x Hx) as Hs.
  destruct Hs as (s & m2 & w2 & called & -> & _ & _ & _ & _ & Hcs). exists s, m2, w2, called. split; [done|].
  destruct Hcs as [(-> & _)|[(-> & _)|[-> Hfull]]]; [by left|by left|].
  right. destruct (Hfull Hfit) as (Hend & -> & Hne & Hpg & _). split; [done|]. split.
  - simpl in Hcat. rewrite <- Hcat. f_equal. unfold last_key.
    rewrite last_app. destruct (last cur) eqn:El; [done|]. apply last_None in El. done.
  - exists (done ++ [cur]). rewrite Hb in Hpg. split_ands; [|by rewrite concat_app; simpl; rewrite app_nil_r|done].
    rewrite (wr_cur_pos _ _ _ _ _ Hrep), Hb, He in Hend. rewrite length_app. simpl.
    unfold PAGE_SIZE_IN_BYTES, KiB in *. nia.
Qed.

Lemma writer_full_witness :
  exists mem w metas s mem2 w2 called,
    writer_push_all (fun bs s => s) (replicate 4096 0%Z)
      (make_writer 0 (0 + 1 * PAGE_SIZE_IN_BYTES)) [([1%Z], replicate 4000 7%Z)] = Some (ok, (mem, w), metas) /\
    writer_push (fun bs s => s) mem w [2%Z] (replicate 100 1%Z) = Some (s, (mem2, w2), called) /\
    (s = ok \/
     s = Err (mk_error "" BUFFER_FULL) /\ called = [[1%Z]] /\
       exists chunks, length chunks = 1 /\ concat chunks = [([1%Z], replicate 4000 7%Z)] /\
         pages_hold (fun bs s => s) mem2 0 chunks).
Proof.
  destruct (writer_push_all (fun bs s => s) (replicate 4096 0%Z)
      (make_writer 0 (0 + 1 * PAGE_SIZE_IN_BYTES)) [([1%Z], replicate 4000 7%Z)])
    as [[[[[]|] [m w]] metas]|] eqn:E; [|vm_compute in E; discriminate E..].
  destruct (writer_full_only_at_the_end (fun bs s => s) (replicate 4096 0%Z) 0 1 [([1%Z], replicate 4000 7%Z)]
    m w metas ([2%Z], replicate 100 1%Z)) as (s & m2 & w2 & called & H1 & H2).
  - lia.
  - rewrite length_replicate. apply Nat.leb_le. vm_compute. reflexivity.
  - repeat constructor; unfold key_ok, MIN_KEY_LEN, MAX_KEY_LEN; simpl; lia.
  - unfold key_ok, MIN_KEY_LEN, MAX_KEY_LEN. simpl. lia.
  - apply Nat.leb_le. vm_compute. reflexivity.
  - exact E.
  - exists m, w, metas, s, m2, w2, called. split; [done|]. split; [exact H1|exact H2].
Defined.
