(* ===== verification/Wal.v ===== *)
(** * The write-ahead log (src/db/wal.h, src/db/wal.cc, src/db/hasher.h)

    One file per writer thread; entries are appended by the thread that
    holds the file and, after a crash, all files are read, merged in the
    order of their sequence numbers and replayed.

    The file system is a directory: regular files with their contents.
    The XXH64 hash is a parameter; the streaming [hasher64] is the hash of
    the bytes fed to it since the last reset, as its documentation says.
    The outcome of the [pwritev2] system call is a parameter too: how many
    of the bytes handed to it reached the file, or a negative number. *)

From stdpp Require Import base list numbers strings sorting.
From Stdlib Require Import ZArith Lia.
From S2P Require Import Prelude StdAlgo Types.

Record wal_entry := mk_wal_entry { we_seq_nr : Z; we_key : bytes; we_value : bytes }.

Section wal.
(** [XXH64(input, seed)] *)
Context (xxh64_hash : bytes -> Z -> Z).

(** ** [hasher64] *)

Definition HASHER_SEED : Z := 0x9E3779B97F4A7C15.

(** The bytes fed since the last reset. *)
Definition hasher64 := bytes.
Definition hasher_reset : hasher64 := [].
Definition hasher_update (h : hasher64) (input : bytes) : hasher64 := h ++ input.
Definition hasher_sum (h : hasher64) : Z * hasher64 := (xxh64_hash h HASHER_SEED, hasher_reset).

Definition MASK_32_BIT : Z := 2 ^ 32 - 1.

(** ** Writing *)

(** The buffers handed to [pwritev2], without the checksum. *)
Definition entry_iovecs (seq_nr : Z) (key value : bytes) : list bytes :=
  [le_encode 8 seq_nr; [encode_key_size (Z.of_nat (length key))]; key;
   le_encode 2 (u16 (Z.of_nat (length value))); value].

Definition entry_checksum (iov : list bytes) : Z :=
  u32 (Z.land (fst (hasher_sum (foldl hasher_update hasher_reset iov))) MASK_32_BIT).

Definition entry_bytes (seq_nr : Z) (key value : bytes) : bytes :=
  let iov := entry_iovecs seq_nr key value in
  concat iov ++ le_encode 4 (entry_checksum iov).

(** [_write_entry] on a file opened for appending. *)
Definition _write_entry (pwritev2 : nat -> Z) (file : bytes) (seq_nr : Z) (key value : bytes)
    : status * bytes :=
  let entry := entry_bytes seq_nr key value in
  let expected_bytes := length entry in
  let res := pwritev2 expected_bytes in
  if (res <? 0)%Z then (Err (generic_error "could not write into wal"), file)
  else
    let file := file ++ take (Z.to_nat res) entry in
    if negb (res =? Z.of_nat expected_bytes)%Z then (Err (generic_error "partial write into wal"), file)
    else (ok, file).

(** [wal]: its files, one per thread. An index past the files, which the
    code does not check, is [None]. *)
Definition wal_append (pwritev2 : nat -> Z) (files : list bytes) (thread_idx : nat)
    (seq_nr : Z) (key value : bytes) : option (status * list bytes) :=
  f ← files !! thread_idx;
  let '(s, f) := _write_entry pwritev2 f seq_nr key value in
  Some (s, <[thread_idx := f]> files).

Definition wal_reset (files : list bytes) : list bytes := (fun _ => []) <$> files.

(** ** Reading *)

(** [read_from_buf]: the next [n] bytes and what follows, unless fewer
    are left. *)
Definition read_from_buf (buf : bytes) (n : nat) : option (bytes * bytes) :=
  if length buf <? n then None else Some (take n buf, drop n buf).

(** One round of the reading loop: an entry and the rest of the buffer,
    or the error that ends the loop. *)
Definition read_wal_entry (buf : bytes) : error + (wal_entry * bytes) :=
  match read_from_buf buf 8 with
  | None => inl (generic_error "incomplete WAL entry sequence number")
  | Some (seq_bytes, buf) =>
  match read_from_buf buf 1 with
  | None => inl (generic_error "incomplete WAL entry key size")
  | Some (ks, buf) =>
      let key_size := decode_key_size (le_decode ks) in
      if MAX_KEY_LEN <? key_size then inl (generic_error "invalid encoded key size")
      else
  match read_from_buf buf key_size with
  | None => inl (generic_error "incomplete WAL entry key")
  | Some (key, buf) =>
  match read_from_buf buf 2 with
  | None => inl (generic_error "incomplete WAL entry value size")
  | Some (vs, buf) =>
  match read_from_buf buf (Z.to_nat (le_decode vs)) with
  | None => inl (generic_error "incomplete WAL entry value")
  | Some (value, buf) =>
  match read_from_buf buf 4 with
  | None => inl (generic_error "incomplete WAL entry checksum")
  | Some (sum, buf) =>
      let computed := entry_checksum [seq_bytes; ks; key; vs; value] in
      if negb (le_decode sum =? computed)%Z then inl (generic_error "checksum mismatch for WAL entry")
      else inr (mk_wal_entry (le_decode seq_bytes) key value, buf)
  end end end end end end.

(** [read_wal_file_generator]: what the generator yields, in order. Each
    round consumes bytes, so the length of the buffer is enough fuel. *)
Fixpoint read_wal_loop (fuel : nat) (buf : bytes) : list (expected wal_entry) :=
  match fuel, buf with
  | _, [] => []
  | O, _ => []
  | S fuel, _ =>
      match read_wal_entry buf with
      | inl e => [Err e]
      | inr (entry, rest) => Ok entry :: read_wal_loop fuel rest
      end
  end.

Definition read_wal_file (buf : bytes) : list (expected wal_entry) := read_wal_loop (length buf) buf.

Definition WAL_FILE_PREFIX : string := "log".

(** [collect_wal_files]: the non-empty files whose name starts with the
    prefix. *)
Definition collect_wal_files (dir : list (string * bytes)) : list bytes :=
  snd <$> filter (fun f => String.prefix WAL_FILE_PREFIX f.1 = true /\ f.2 <> []) dir.

(** The order [std::ranges::sort] is given. Entries of equal sequence
    number may come in any order; sequence numbers are unique. *)
Definition seq_le (a b : wal_entry) : Prop := (we_seq_nr a <= we_seq_nr b)%Z.

#[global] Instance seq_le_dec : RelDecision seq_le.
Proof. intros a b. unfold seq_le. solve_decision. Defined.

Definition ok_entries (l : list (expected wal_entry)) : list wal_entry :=
  omap (fun e => match e with Ok e => Some e | Err _ => None end) l.

(** [read_all_entries]; [None] is the exception thrown when any file had
    an error. *)
Definition read_all_entries (files : list bytes) : option (list wal_entry) :=
  let read := mjoin (read_wal_file <$> files) in
  if forallb is_ok read then Some (merge_sort seq_le (ok_entries read)) else None.

(** [wal::replay]: [on_entry] updates the caller's state and tells
    whether to go on. *)
Fixpoint replay_entries {S} (on_entry : S -> wal_entry -> S * bool) (s : S) (l : list wal_entry) : S :=
  match l with
  | [] => s
  | e :: l => let '(s, continue) := on_entry s e in
              if continue : bool then replay_entries on_entry s l else s
  end.

Definition wal_replay {S} (on_entry : S -> wal_entry -> S * bool) (s : S) (dir : list (string * bytes))
    : option (status * S) :=
  match collect_wal_files dir with
  | [] => Some (ok, s)
  | files => entries ← read_all_entries files; Some (ok, replay_entries on_entry s entries)
  end.

(** ** Lemmas *)

Definition entry_ok (e : wal_entry) : Prop :=
  (0 <= we_seq_nr e < 2 ^ 64)%Z /\ MIN_KEY_LEN <= length (we_key e) <= MAX_KEY_LEN /\
  (Z.of_nat (length (we_value e)) < 2 ^ 16)%Z.

Definition log_bytes (e : wal_entry) : bytes := entry_bytes (we_seq_nr e) (we_key e) (we_value e).

Lemma read_from_buf_app xs rest n :
  n = length xs -> read_from_buf (xs ++ rest) n = Some (xs, rest).
Proof.
  intros ->. unfold read_from_buf. rewrite (proj2 (Nat.ltb_ge _ _)) by (rewrite length_app; lia).
  by rewrite take_app_length, drop_app_length.
Qed.

(** More bytes behind do not change what was read. *)
Lemma read_from_buf_mono buf n xs rest ext :
  read_from_buf buf n = Some (xs, rest) -> read_from_buf (buf ++ ext) n = Some (xs, rest ++ ext).
Proof.
  unfold read_from_buf. split_ifs; try done; breflect; [rewrite length_app in *; lia|].
  intros [= <- <-]. by rewrite take_app_le, drop_app_le by lia.
Qed.

Lemma read_wal_entry_mono buf e rest ext :
  read_wal_entry buf = inr (e, rest) -> read_wal_entry (buf ++ ext) = inr (e, rest ++ ext).
Proof.
  unfold read_wal_entry. intros H.
  repeat match type of H with
  | context [match read_from_buf ?b ?n with _ => _ end] =>
      let E := fresh "E" in
      destruct (read_from_buf b n) as [[? ?]|] eqn:E; [|done];
      rewrite (read_from_buf_mono _ _ _ _ ext E)
  | (if ?b then _ else _) = _ => destruct b; [done|]
  end.
  by injection H as <- <-.
Qed.

Lemma entry_checksum_range iov : (0 <= entry_checksum iov < 2 ^ 32)%Z.
Proof. unfold entry_checksum. apply wrap_range. lia. Qed.

Lemma read_wal_entry_encoded e rest :
  entry_ok e -> read_wal_entry (log_bytes e ++ rest) = inr (e, rest).
Proof.
  intros (Hs & Hk & Hv). unfold log_bytes, entry_bytes.
  set (sum := entry_checksum _). cbn [entry_iovecs concat]. rewrite <- !app_assoc, app_nil_l.
  unfold read_wal_entry. rewrite read_from_buf_app by (by rewrite length_le_encode).
  rewrite (read_from_buf_app [_]) by done.
  assert (le_decode [encode_key_size (Z.of_nat (length (we_key e)))] =
    encode_key_size (Z.of_nat (length (we_key e)))) as -> by (simpl; lia).
  rewrite decode_encode_key_size by done. rewrite (proj2 (Nat.ltb_ge _ _)) by lia.
  rewrite read_from_buf_app by done. rewrite read_from_buf_app by (by rewrite length_le_encode).
  assert (le_decode (le_encode 2 (u16 (Z.of_nat (length (we_value e))))) = Z.of_nat (length (we_value e))) as ->.
  { rewrite wrap_small by lia. apply le_decode_encode. simpl. lia. }
  rewrite read_from_buf_app by (by rewrite Nat2Z.id).
  rewrite read_from_buf_app by (by rewrite length_le_encode).
  rewrite le_decode_encode by (apply entry_checksum_range).
  unfold sum. unfold entry_iovecs. rewrite Z.eqb_refl. cbn [negb].
  rewrite le_decode_encode by (simpl; lia). by destruct e.
Qed.

Lemma log_bytes_nonempty e : 1 <= length (log_bytes e).
Proof.
  unfold log_bytes, entry_bytes. rewrite length_app, length_le_encode. lia.
Qed.

(** Reading a file of complete entries, with or without something
    behind them. *)
Lemma read_wal_loop_app fuel l rest :
  Forall entry_ok l -> length (concat (log_bytes <$> l) ++ rest) <= fuel ->
  read_wal_loop fuel (concat (log_bytes <$> l) ++ rest) =
    (Ok <$> l) ++ read_wal_loop (fuel - length l) rest.
Proof.
  intros Hl. revert fuel. induction Hl as [|e l He _ IH]; intros fuel Hf.
  { simpl. by rewrite Nat.sub_0_r. }
  rewrite !fmap_cons in *. cbn [concat length] in *. rewrite <- app_assoc in *.
  pose proof (log_bytes_nonempty e) as Hne. rewrite length_app in Hf.
  destruct fuel as [|fuel]; [lia|].
  destruct (log_bytes e) as [|b bs] eqn:Eb; [simpl in Hne; lia|]. cbn [app read_wal_loop].
  change (b :: bs ++ ?r) with ((b :: bs) ++ r). rewrite <- Eb, read_wal_entry_encoded by done.
  rewrite IH by (simpl in Hf; lia). done.
Qed.

Lemma read_wal_loop_nil fuel : read_wal_loop fuel [] = [].
Proof. by destruct fuel. Qed.

Lemma read_wal_file_entries l :
  Forall entry_ok l -> read_wal_file (concat (log_bytes <$> l)) = Ok <$> l.
Proof.
  intros Hl. unfold read_wal_file. rewrite <- (app_nil_r (concat (log_bytes <$> l))).
  rewrite read_wal_loop_app by done. by rewrite read_wal_loop_nil, app_nil_r.
Qed.

(** A file that ends inside an entry ends in an error. *)
Lemma read_wal_file_torn l e k :
  Forall entry_ok l -> entry_ok e -> 0 < k < length (log_bytes e) ->
  exists err, read_wal_file (concat (log_bytes <$> l) ++ take k (log_bytes e)) = (Ok <$> l) ++ [Err err].
Proof.
  intros Hl He Hk. unfold read_wal_file. rewrite read_wal_loop_app by done.
  set (fuel := _ - _).
  assert (0 < fuel) as Hfuel.
  { unfold fuel. rewrite length_app, length_take.
    assert (length l <= length (concat (log_bytes <$> l))).
    { clear. induction l as [|a l IH]; [simpl; lia|]. rewrite fmap_cons. cbn [concat length]. rewrite length_app.
      pose proof (log_bytes_nonempty a). lia. }
    lia. }
  destruct fuel as [|fuel']; [lia|]. cbn [read_wal_loop].
  destruct (take k (log_bytes e)) as [|b bs] eqn:Et.
  { apply (f_equal length) in Et. rewrite length_take in Et. simpl in Et. lia. }
  rewrite <- Et. destruct (read_wal_entry (take k (log_bytes e))) as [err|[e' rest]] eqn:Er; [eauto|].
  apply (read_wal_entry_mono _ _ _ (drop k (log_bytes e))) in Er. rewrite take_drop in Er.
  pose proof (read_wal_entry_encoded e [] He) as He'. rewrite app_nil_r in He'.
  rewrite He' in Er. injection Er as _ Er. apply (f_equal length) in Er.
  rewrite length_app, length_drop in Er. cbn [length] in Er. lia.
Qed.

Lemma ok_entries_Ok l : ok_entries (Ok <$> l) = l.
Proof. induction l as [|e l IH]; [done|]. cbn. f_equal. exact IH. Qed.

Lemma ok_entries_app a b : ok_entries (a ++ b) = ok_entries a ++ ok_entries b.
Proof. apply omap_app. Qed.

Lemma forallb_is_ok_Ok (l : list wal_entry) : forallb is_ok (Ok <$> l) = true.
Proof. by induction l. Qed.

Lemma read_files_entries (logs : list (list wal_entry)) :
  Forall (Forall entry_ok) logs ->
  mjoin (read_wal_file <$> ((fun l => concat (log_bytes <$> l)) <$> logs)) = Ok <$> mjoin logs.
Proof.
  induction 1 as [|l logs Hl _ IH]; [done|]. rewrite !fmap_cons, !mjoin_cons.
  by rewrite read_wal_file_entries, IH, fmap_app by done.
Qed.

#[global] Instance seq_le_total : Total seq_le.
Proof. intros a b. unfold seq_le. lia. Qed.
#[global] Instance seq_le_trans : Transitive seq_le.
Proof. intros a b c. unfold seq_le. lia. Qed.

Lemma read_all_entries_spec (logs : list (list wal_entry)) :
  Forall (Forall entry_ok) logs ->
  exists out, read_all_entries ((fun l => concat (log_bytes <$> l)) <$> logs) = Some out /\
    out ≡ₚ mjoin logs /\ StronglySorted seq_le out.
Proof.
  intros H. unfold read_all_entries. rewrite read_files_entries by done.
  rewrite forallb_is_ok_Ok, ok_entries_Ok. eexists. split; [done|]. split.
  - apply merge_sort_Permutation.
  - apply (StronglySorted_merge_sort seq_le).
Qed.
End wal.

(** ** Properties *)

(** A run of appends, one per (thread, entry); [Some] when every one
    reports success. *)
Fixpoint append_all (xxh64_hash : bytes -> Z -> Z) (pwritev2 : nat -> Z) (files : list bytes)
    (l : list (nat * wal_entry)) : option (list bytes) :=
  match l with
  | [] => Some files
  | (t, e) :: l =>
      match wal_append xxh64_hash pwritev2 files t (we_seq_nr e) (we_key e) (we_value e) with
      | Some (Ok _, files) => append_all xxh64_hash pwritev2 files l
      | _ => None
      end
  end.

(** A system call that writes everything it is given. *)
Definition full_write (n : nat) : Z := Z.of_nat n.

Section append.
Context (xxh64_hash : bytes -> Z -> Z).
Local Abbreviation logs_bytes := (fmap (fun l => concat (log_bytes xxh64_hash <$> l))).

Lemma append_full (logs : list (list wal_entry)) t e log :
  logs !! t = Some log ->
  wal_append xxh64_hash full_write (logs_bytes logs) t (we_seq_nr e) (we_key e) (we_value e) =
    Some (ok, logs_bytes (<[t := log ++ [e]]> logs)).
Proof.
  intros Ht. unfold wal_append. rewrite list_lookup_fmap, Ht. cbn [fmap option_fmap option_map].
  unfold _write_entry, full_write. rewrite (proj2 (Z.ltb_ge _ _)) by lia.
  rewrite Z.eqb_refl, Nat2Z.id, take_ge by done. cbn [negb mbind option_bind]. do 2 f_equal.
  rewrite list_fmap_insert. f_equal. rewrite fmap_app, concat_app. simpl. by rewrite app_nil_r.
Qed.

Lemma append_all_spec (logs : list (list wal_entry)) l :
  Forall (fun x => x.1 < length logs) l -> Forall (Forall entry_ok) logs -> Forall (fun x => entry_ok x.2) l ->
  exists logs', append_all xxh64_hash full_write (logs_bytes logs) l = Some (logs_bytes logs') /\
    length logs' = length logs /\ mjoin logs' ≡ₚ mjoin logs ++ l.*2 /\ Forall (Forall entry_ok) logs'.
Proof.
  revert logs. induction l as [|[t e] l IH]; intros logs Ht Hok Hl.
  { exists logs. rewrite fmap_nil, app_nil_r. done. }
  apply Forall_cons in Ht as [Ht1 Ht], Hl as [He Hl]. simpl in Ht1, He.
  destruct (lookup_lt_is_Some_2 logs t Ht1) as [log Hlog]. cbn [append_all].
  rewrite (append_full _ _ _ _ Hlog). cbn [ok].
  assert (Forall (Forall entry_ok) (<[t := log ++ [e]]> logs)) as Hok'.
  { apply Forall_insert; [done|]. apply Forall_app. split; [|by apply Forall_singleton].
    rewrite Forall_lookup in Hok. by eapply Hok. }
  destruct (IH (<[t := log ++ [e]]> logs)) as (logs' & Hr & Hlen & Hperm & Hok2);
    [by rewrite length_insert|done|done|].
  exists logs'. split_ands; [done|by rewrite length_insert in Hlen| |done].
  rewrite Hperm, fmap_cons. cbn [snd].
  assert (mjoin (<[t := log ++ [e]]> logs) ≡ₚ mjoin logs ++ [e]) as ->.
  { rewrite insert_take_drop by done. rewrite <- (take_drop_middle logs t log Hlog) at 3.
    rewrite !mjoin_app, !mjoin_cons. rewrite <- !app_assoc. f_equiv. f_equiv.
    apply Permutation_app_comm. }
  rewrite <- app_assoc. done.
Qed.

(** Recovery sees the log of every thread that wrote something. *)
Lemma collect_logs (names : list string) (logs : list (list wal_entry)) :
  Forall (fun n => String.prefix WAL_FILE_PREFIX n = true) names -> length logs = length names ->
  collect_wal_files (zip names (logs_bytes logs)) = logs_bytes (filter (fun l => l <> []) logs).
Proof.
  unfold collect_wal_files. revert names. induction logs as [|log logs IH]; intros [|n names] Hn Hlen; try done.
  apply Forall_cons in Hn as [Hn Hns]. cbn [fmap list_fmap zip zip_with]. rewrite !filter_cons.
  injection Hlen as Hlen. specialize (IH names Hns Hlen).
  destruct log as [|e log].
  - rewrite (decide_False (P := [] <> [])) by tauto.
    rewrite decide_False by (cbn [fst snd fmap list_fmap concat]; tauto). exact IH.
  - rewrite (decide_True (P := e :: log <> [])) by done. cbn [fst snd].
    rewrite decide_True; [rewrite !fmap_cons; f_equal; exact IH|].
    split; [done|]. rewrite fmap_cons. cbn [concat]. pose proof (log_bytes_nonempty xxh64_hash e) as He.
    destruct (log_bytes xxh64_hash e); [simpl in He; lia|done].
Qed.

Lemma mjoin_filter_nonempty (logs : list (list wal_entry)) :
  mjoin (filter (fun l => l <> []) logs) = mjoin logs.
Proof.
  induction logs as [|log logs IH]; [done|]. rewrite filter_cons, mjoin_cons.
  destruct log; [rewrite decide_False by tauto|rewrite decide_True by done]; [exact IH|].
  by rewrite mjoin_cons, IH.
Qed.

Lemma replay_collect acc l :
  replay_entries (fun acc (e : wal_entry) => (acc ++ [e], true)) acc l = acc ++ l.
Proof.
  revert acc. induction l as [|e l IH]; intros acc; simpl; [by rewrite app_nil_r|].
  by rewrite IH, <- app_assoc.
Qed.
End append.

(** C32: log replay is complete for entries with values of less than 64 KiB
    and keys of one to 256 bytes. Such entries, appended by any number of
    threads, in any interleaving, to initially empty log files are all
    delivered by recovery, each exactly once, in the order of their
    sequence numbers: the files named with the log prefix are read, and
    the entries come out sorted and a permutation of what was appended. *)
Theorem wal_replay_complete (xxh64_hash : bytes -> Z -> Z) (names : list string)
    (l : list (nat * wal_entry))
    (Hnames : Forall (fun n => String.prefix WAL_FILE_PREFIX n = true) names)
    (Hthreads : Forall (fun x => x.1 < length names) l)
    (Hentries : Forall (fun x => entry_ok x.2) l) :
  exists files out,
    append_all xxh64_hash full_write (replicate (length names) []) l = Some files /\
    wal_replay xxh64_hash (fun acc e => (acc ++ [e], true)) [] (zip names files) = Some (ok, out) /\
    out ≡ₚ l.*2 /\ StronglySorted seq_le out.
Proof.
  destruct (append_all_spec xxh64_hash (replicate (length names) []) l) as (logs & Hr & Hlen & Hperm & Hok).
  - by rewrite length_replicate.
  - apply Forall_replicate. constructor.
  - done.
  - rewrite length_replicate in Hlen. rewrite fmap_replicate in Hr. cbn [fmap list_fmap concat] in Hr.
    set (logs2 := filter (fun l => l <> []) logs).
    assert (Forall (Forall entry_ok) logs2) as Hok2.
    { apply Forall_forall. intros log Hlog. apply list_elem_of_filter in Hlog as [_ Hlog].
      rewrite Forall_forall in Hok. auto. }
    destruct (read_all_entries_spec xxh64_hash logs2 Hok2) as (out & Hout & Hp & Hs).
    exists ((fun l => concat (log_bytes xxh64_hash <$> l)) <$> logs), out. split; [done|].
    unfold logs2 in Hp. rewrite mjoin_filter_nonempty, Hperm, mjoin_replicate_nil in Hp.
    split; [|done]. unfold wal_replay. rewrite collect_logs by done. fold logs2.
    destruct logs2 as [|log logs2'] eqn:El.
    + unfold read_all_entries in Hout. simpl in Hout. by injection Hout as <-.
    + rewrite fmap_cons in Hout |- *. rewrite Hout. cbn [mbind option_bind]. by rewrite replay_collect.
Qed.

Lemma wal_replay_complete_witness :
  exists files out,
    append_all (fun bs s => Z.of_nat (length bs)) full_write (replicate 2 [])
      [(1%nat, mk_wal_entry 1 [5] [1; 7]); (0%nat, mk_wal_entry 0 [6; 6] [1])]%Z = Some files /\
    wal_replay (fun bs s => Z.of_nat (length bs)) (fun acc e => (acc ++ [e], true)) []
      (zip ["log.0.0"; "log.1.0"]%string files) = Some (ok, out) /\
    out ≡ₚ [mk_wal_entry 1 [5] [1; 7]; mk_wal_entry 0 [6; 6] [1]]%Z /\ StronglySorted seq_le out.
Proof.
  refine (wal_replay_complete (fun bs s => Z.of_nat (length bs)) ["log.0.0"; "log.1.0"]%string
    [(1%nat, mk_wal_entry 1 [5] [1; 7]); (0%nat, mk_wal_entry 0 [6; 6] [1])]%Z _ _ _).
  - repeat constructor.
  - repeat constructor; simpl; lia.
  - repeat constructor; unfold MIN_KEY_LEN, MAX_KEY_LEN; simpl; lia.
Defined.

(** A torn entry stops recovery. When a crash cuts the last entry of
    any log file short, reading that file yields the complete entries and
    then an error, and recovery as a whole fails instead of replaying the
    complete entries. *)
Theorem wal_torn_tail_fails (xxh64_hash : bytes -> Z -> Z) (l : list wal_entry) (e : wal_entry)
    (k : nat) (others : list bytes)
    (Hl : Forall entry_ok l) (He : entry_ok e) (Hk : 0 < k < length (log_bytes xxh64_hash e)) :
  let torn := concat (log_bytes xxh64_hash <$> l) ++ take k (log_bytes xxh64_hash e) in
  (exists err, read_wal_file xxh64_hash torn = (Ok <$> l) ++ [Err err]) /\
  read_all_entries xxh64_hash (torn :: others) = None.
Proof.
  destruct (read_wal_file_torn xxh64_hash l e k Hl He Hk) as [err Hr]. split; [by exists err|].
  unfold read_all_entries. rewrite fmap_cons, mjoin_cons, Hr, forallb_app, forallb_app.
  cbn [forallb is_ok]. by rewrite andb_false_r, andb_false_l.
Qed.

Lemma wal_torn_tail_witness :
  read_all_entries (fun bs s => Z.of_nat (length bs))
    [concat (log_bytes (fun bs s => Z.of_nat (length bs)) <$> [mk_wal_entry 0 [1] [1; 2]]%Z)
       ++ take 10 (log_bytes (fun bs s => Z.of_nat (length bs)) (mk_wal_entry 1 [2] [1; 3]))%Z] = None.
Proof.
  refine (proj2 (wal_torn_tail_fails (fun bs s => Z.of_nat (length bs)) [mk_wal_entry 0 [1] [1; 2]]%Z
    (mk_wal_entry 1 [2] [1; 3])%Z 10 [] _ _ _)).
  - repeat constructor; unfold MIN_KEY_LEN, MAX_KEY_LEN; simpl; lia.
  - unfold entry_ok, MIN_KEY_LEN, MAX_KEY_LEN; simpl; lia.
  - split; [lia|]. apply Nat.ltb_lt. vm_compute. reflexivity.
Defined.

Section sizes.
Context (xxh64_hash : bytes -> Z -> Z).

Lemma le_decode_bound bs : Forall byte_ok bs -> (le_decode bs < 256 ^ Z.of_nat (length bs))%Z.
Proof.
  induction 1 as [|b bs Hb _ IH]; [simpl; lia|]. cbn [le_decode length].
  rewrite Nat2Z.inj_succ, Z.pow_succ_r by lia. unfold byte_ok in Hb. lia.
Qed.

Lemma read_from_buf_parts buf n xs rest :
  read_from_buf buf n = Some (xs, rest) -> buf = xs ++ rest /\ length xs = n.
Proof.
  unfold read_from_buf. split_ifs; [done|]. breflect. intros [= <- <-].
  rewrite take_drop, length_take. split; [done|lia].
Qed.

Lemma read_wal_entry_value_bound buf e rest :
  Forall byte_ok buf -> read_wal_entry xxh64_hash buf = inr (e, rest) ->
  (Z.of_nat (length (we_value e)) < 2 ^ 16)%Z /\ Forall byte_ok rest.
Proof.
  unfold read_wal_entry. intros Hb H.
  repeat match type of H with
  | context [match read_from_buf ?b ?n with _ => _ end] =>
      let E := fresh "E" in let Hl := fresh "Hl" in
      destruct (read_from_buf b n) as [[? ?]|] eqn:E; [|done];
      apply read_from_buf_parts in E as [-> Hl]; apply Forall_app in Hb as [? Hb]
  | (if ?b then _ else _) = _ => destruct b; [done|]
  end.
  injection H as <- <-. cbn [we_value]. split; [|done].
  match goal with H : length ?v = Z.to_nat (le_decode ?l), Hv : Forall byte_ok ?l, Hl : length ?l = 2 |- _ =>
    pose proof (le_decode_bound l Hv) as Hd; rewrite Hl in Hd, H || rewrite Hl in Hd;
    pose proof (le_decode_nonneg l Hv); rewrite H end.
  change (256 ^ Z.of_nat 2)%Z with (2 ^ 16)%Z in Hd. lia.
Qed.

Lemma read_wal_loop_value_bound fuel buf :
  Forall byte_ok buf ->
  Forall (fun e => (Z.of_nat (length (we_value e)) < 2 ^ 16)%Z) (ok_entries (read_wal_loop xxh64_hash fuel buf)).
Proof.
  revert buf. induction fuel as [|fuel IH]; intros [|b buf] Hb; try constructor.
  cbn [read_wal_loop]. destruct (read_wal_entry xxh64_hash (b :: buf)) as [err|[e rest]] eqn:E; [constructor|].
  destruct (read_wal_entry_value_bound _ _ _ Hb E) as [He Hrest].
  change (ok_entries (Ok e :: ?l)) with (e :: ok_entries l). constructor; auto.
Qed.
End sizes.

(** Values of 64 KiB and more are acknowledged but lost from the
    log. The append of such a value succeeds, but whatever the file holds
    no entry read from it has a value that long: the size field has 16
    bits. *)
Theorem wal_large_value_lost (xxh64_hash : bytes -> Z -> Z) (file : bytes) (seq_nr : Z) (key value : bytes)
    (Hfile : Forall byte_ok file) (Hkey : Forall byte_ok key) (Hvalue : Forall byte_ok value)
    (Hlarge : (2 ^ 16 <= Z.of_nat (length value))%Z) :
  let '(s, file') := _write_entry xxh64_hash full_write file seq_nr key value in
  s = ok /\ Forall (fun e => we_value e <> value) (ok_entries (read_wal_file xxh64_hash file')).
Proof.
  unfold _write_entry, full_write. rewrite (proj2 (Z.ltb_ge _ _)) by lia.
  rewrite Z.eqb_refl, Nat2Z.id, take_ge by done. cbn [negb]. split; [done|].
  eapply Forall_impl; [apply read_wal_loop_value_bound|].
  - apply Forall_app. split; [done|]. unfold entry_bytes. cbn [entry_iovecs concat].
    repeat (apply Forall_app; split); auto using le_encode_ok, Forall_nil_2.
    apply Forall_singleton, encode_key_size_ok.
  - intros e He Hev. cbv beta in He. rewrite Hev in He. lia.
Qed.

Lemma wal_large_value_witness :
  (_write_entry (fun bs s => 0%Z) full_write [] 0 [1%Z] (replicate (Z.to_nat 65536) 7%Z)).1 = ok.
Proof.
  pose proof (wal_large_value_lost (fun bs s => 0%Z) [] 0 [1%Z] (replicate (Z.to_nat 65536) 7%Z)) as H.
  destruct (_write_entry _ _ _ _ _ _) as [s f]. apply H.
  - constructor.
  - repeat constructor; unfold byte_ok; lia.
  - apply Forall_replicate. unfold byte_ok. lia.
  - rewrite length_replicate. lia.
Defined.
