(* ===== verification/Merge.v ===== *)
(** * The k-way merge (src/db/merge/merge_utils.h, src/db/merge/merge.cc)

    [deduplicator], the heap of one pending entry per input, and the loop
    of [index_ops::k_way_merge_async2] that turns several sorted runs into
    one. An input is the list of entries its [sst_stream] delivers; the merge
    on the files is the subject of MergeFile. [std::pop_heap] is modelled by its contract:
    it removes a largest element for the comparator. *)

From stdpp Require Import base list numbers strings sorting sets.
From Stdlib Require Import ZArith Lia.
From S2P Require Import Prelude StdAlgo Types Block.

(** ** Entries and the deduplicator *)

Record merge_entry_t := mk_entry { me_key : bytes; me_value : bytes; me_epoch : Z }.

Record deduplicator := mk_dedup {
  to_be_checked_item : option merge_entry_t;
  ready_item : option merge_entry_t;
  deduplicated_keys : nat;
}.

Definition empty_dedup : deduplicator := mk_dedup None None 0.

Definition dedup_push (d : deduplicator) (new_item : merge_entry_t) : deduplicator :=
  match to_be_checked_item d with
  | None => mk_dedup (Some new_item) (ready_item d) (deduplicated_keys d)
  | Some item =>
      if negb (Lex.eqb (me_key item) (me_key new_item))
      then mk_dedup (Some new_item) (Some item) (deduplicated_keys d)
      else mk_dedup (Some item) (ready_item d) (deduplicated_keys d + 1)
  end.

Definition dedup_ready (d : deduplicator) : bool := bool_decide (is_Some (ready_item d)).

(** [None] is the exception thrown by the two pops. *)
Definition dedup_pop (d : deduplicator) : option (merge_entry_t * deduplicator) :=
  item ← ready_item d; Some (item, mk_dedup (to_be_checked_item d) None (deduplicated_keys d)).

Definition dedup_force_pop (d : deduplicator) : option (merge_entry_t * deduplicator) :=
  if dedup_ready d then None
  else item ← to_be_checked_item d; Some (item, mk_dedup None None (deduplicated_keys d)).

(** ** The heap *)

(** A slot: the pending entry and its source. In this file a source is what
    it still delivers. *)
Record slot_t (S : Type) := mk_slot { sl_entry : merge_entry_t; sl_source : S }.
Arguments mk_slot {S}.
Arguments sl_entry {S}.
Arguments sl_source {S}.

(** The comparator: [lhs] comes after [rhs]. *)
Definition heap_item_t_comparator {S} (lhs rhs : slot_t S) : bool :=
  match Lex.compare (me_key (sl_entry lhs)) (me_key (sl_entry rhs)) with
  | Gt => true
  | Lt => false
  | Eq => (me_epoch (sl_entry lhs) <? me_epoch (sl_entry rhs))%Z
  end.

(** [pop_heap] and [pop_back] *)
Fixpoint pop_heap {S} (heap : list (slot_t S)) : option (slot_t S * list (slot_t S)) :=
  match heap with
  | [] => None
  | x :: heap' =>
      match pop_heap heap' with
      | None => Some (x, [])
      | Some (m, rest) =>
          if heap_item_t_comparator x m then Some (m, x :: rest) else Some (x, heap')
      end
  end.

Definition push_heap {S} (heap : list (slot_t S)) (s : slot_t S) : list (slot_t S) := heap ++ [s].

(** The first entry of every input that has one. *)
Definition init_heap (inputs : list (Z * list kv)) : list (slot_t (list kv)) :=
  omap (fun '(epoch, l) =>
    match l with
    | [] => None
    | x :: l => Some (mk_slot (mk_entry x.1 x.2 epoch) l)
    end) inputs.

Definition is_tombstone (e : merge_entry_t) : bool :=
  match me_value e with [] => false | t :: _ => (t =? value_type_code TOMBSTONE)%Z end.

(** ** The merge loop *)

Record merge_state := mk_merge_state {
  ms_heap : list (slot_t (list kv));
  ms_dedup : deduplicator;
  ms_out : list merge_entry_t;      (* items written, in order *)
  ms_filtered : nat;
}.

(** What is done with an item that left the deduplicator. *)
Definition emit_item (discard_deleted_keys : bool) (st : merge_state) (item : merge_entry_t)
    : merge_state :=
  if discard_deleted_keys && is_tombstone item
  then mk_merge_state (ms_heap st) (ms_dedup st) (ms_out st) (ms_filtered st + 1)
  else mk_merge_state (ms_heap st) (ms_dedup st) (ms_out st ++ [item]) (ms_filtered st).

(** Refilling the slot from its source; an unparsable value is an error. *)
Definition refill (heap : list (slot_t (list kv))) (slot : slot_t (list kv)) : expected (list (slot_t (list kv))) :=
  match sl_source slot with
  | [] => Ok heap
  | x :: rest =>
      match value_from_span x.2 with
      | Err e => Err e
      | Ok _ => Ok (push_heap heap (mk_slot (mk_entry x.1 x.2 (me_epoch (sl_entry slot))) rest))
      end
  end.

(** One iteration; [None] when the heap is empty and the loop ends. *)
Definition merge_step (discard : bool) (st : merge_state) : option (expected merge_state) :=
  match pop_heap (ms_heap st) with
  | None => None
  | Some (slot, heap) =>
      let dedup := dedup_push (ms_dedup st) (sl_entry slot) in
      Some (heap ← refill heap slot;
        match dedup_pop dedup with
        | None => Ok (mk_merge_state heap dedup (ms_out st) (ms_filtered st))
        | Some (item, dedup) =>
            Ok (emit_item discard (mk_merge_state heap dedup (ms_out st) (ms_filtered st)) item)
        end)
  end.

Fixpoint merge_loop (fuel : nat) (discard : bool) (st : merge_state) : option (expected merge_state) :=
  match merge_step discard st with
  | None => Some (Ok st)
  | Some (Err e) => Some (Err e)
  | Some (Ok st) =>
      match fuel with
      | O => None
      | S fuel => merge_loop fuel discard st
      end
  end.

(** The items left in the deduplicator after the loop. *)
Definition drain_dedup (discard : bool) (st : merge_state) : option merge_state :=
  let '(st, d) := match dedup_pop (ms_dedup st) with
                  | None => (st, ms_dedup st)
                  | Some (item, d) => (emit_item discard st item, d)
                  end in
  '(item, d) ← dedup_force_pop d;
  Some (emit_item discard (mk_merge_state (ms_heap st) d (ms_out st) (ms_filtered st)) item).

(** The merge of the entries: [None] when [force_pop] throws, otherwise
    the final state or the error of an unparsable value. *)
Definition total_entries (inputs : list (Z * list kv)) : nat := length (mjoin (snd <$> inputs)).

Definition merge_entries (discard : bool) (inputs : list (Z * list kv)) : option (expected merge_state) :=
  r ← merge_loop (total_entries inputs) discard (mk_merge_state (init_heap inputs) empty_dedup [] 0);
  match r with
  | Err e => Some (Err e)
  | Ok st => st ← drain_dedup discard st; Some (Ok st)
  end.

(** ** The footer fields computed from the inputs *)

(** [std::ranges::max_element] with a comparator: the first element no
    other element is greater than. *)
Fixpoint max_element_from {A} (less : A -> A -> bool) (best : A) (l : list A) : A :=
  match l with
  | [] => best
  | x :: l => max_element_from less (if less best x then x else best) l
  end.

Definition merged_epoch (epochs : list Z) : option Z :=
  match epochs with
  | [] => None
  | e :: l => Some (max_element_from (fun lhs rhs => (rhs <? lhs)%Z) e l)
  end.

Definition merged_max_seq_nr (seqs : list Z) : Z := foldl Z.max 0%Z seqs.

(** [create_qf_for_key_count]: the quotient bits chosen for a number of
    keys; the loop doubles [s] up to [slots]. *)
Fixpoint qf_bits_loop (fuel : nat) (s slots : Z) (q : Z) : Z :=
  match fuel with
  | O => q
  | S fuel => if (s <? slots)%Z then qf_bits_loop fuel (Z.shiftl s 1) slots (q + 1) else q
  end.

Definition QF_BITS_PER_KEY : Z := 10.
Definition qf_slots (num_keys : Z) : Z := ((num_keys * 4 + 2) / 3)%Z.
Definition qf_quotient_bits (num_keys : Z) : Z := qf_bits_loop 64 1 (qf_slots num_keys) 0.

(** ** The order in which entries leave the heap *)

Definition entry_le (a b : merge_entry_t) : Prop :=
  Lex.lt (me_key a) (me_key b) \/ (me_key a = me_key b /\ (me_epoch b <= me_epoch a)%Z).

#[global] Instance entry_le_trans : Transitive entry_le.
Proof.
  intros a b c [H1|[E1 H1]] [H2|[E2 H2]]; unfold entry_le.
  - left. by eapply Lex.lt_trans.
  - left. by rewrite <- E2.
  - left. by rewrite E1.
  - right. split; [congruence|lia].
Qed.

Lemma comparator_true {S} (x m : slot_t S) : heap_item_t_comparator x m = true -> entry_le (sl_entry m) (sl_entry x).
Proof.
  unfold heap_item_t_comparator, entry_le. destruct (Lex.compare _ _) eqn:E; intros H; try done.
  - apply Lex.compare_eq in E. right. breflect. split; [done|lia].
  - left. unfold Lex.lt. rewrite Lex.compare_antisym, E. done.
Qed.

Lemma comparator_false {S} (x m : slot_t S) : heap_item_t_comparator x m = false -> entry_le (sl_entry x) (sl_entry m).
Proof.
  unfold heap_item_t_comparator, entry_le. destruct (Lex.compare _ _) eqn:E; intros H; try done.
  - apply Lex.compare_eq in E. right. breflect. done.
  - by left.
Qed.

Lemma pop_heap_None {S} (h : list (slot_t S)) : pop_heap h = None <-> h = [].
Proof.
  split; [|by intros ->]. destruct h as [|x h]; simpl; [done|].
  destruct (pop_heap h) as [[m r]|]; [|done]. by destruct (heap_item_t_comparator x m).
Qed.

Lemma pop_heap_spec {S} (h : list (slot_t S)) m rest :
  pop_heap h = Some (m, rest) ->
  h ≡ₚ m :: rest /\ Forall (fun s => entry_le (sl_entry m) (sl_entry s)) rest.
Proof.
  revert m rest. induction h as [|x h IH]; intros m rest; simpl; [done|].
  destruct (pop_heap h) as [[m' r]|] eqn:E.
  - destruct (IH _ _ eq_refl) as [Hp Hf]. destruct (heap_item_t_comparator x m') eqn:Ec; intros [= <- <-].
    + split; [rewrite Hp; apply Permutation_swap|]. constructor; [by apply comparator_true|done].
    + split; [done|]. apply comparator_false in Ec. rewrite Hp. constructor; [done|].
      eapply Forall_impl; [exact Hf|]. intros s Hs. by etrans.
  - apply pop_heap_None in E as ->. intros [= <- <-]. by split.
Qed.

(** The entries a slot and a heap stand for. *)
Definition source_entries (epoch : Z) (l : list kv) : list merge_entry_t :=
  (fun x => mk_entry x.1 x.2 epoch) <$> l.

Definition slot_entries (s : slot_t (list kv)) : list merge_entry_t :=
  sl_entry s :: source_entries (me_epoch (sl_entry s)) (sl_source s).

Definition heap_entries (h : list (slot_t (list kv))) : list merge_entry_t := mjoin (slot_entries <$> h).

Definition input_entries (inputs : list (Z * list kv)) : list merge_entry_t :=
  mjoin ((fun '(epoch, l) => source_entries epoch l) <$> inputs).

Definition slot_sorted (s : slot_t (list kv)) : Prop :=
  sorted_kvs ((me_key (sl_entry s), me_value (sl_entry s)) :: sl_source s).

Definition value_ok (v : bytes) : Prop := is_ok (value_from_span v) = true.

Definition slot_values_ok (s : slot_t (list kv)) : Prop := Forall (fun x => value_ok x.2) (sl_source s).

(** Refilling when every value parses. *)
Definition refilled (heap : list (slot_t (list kv))) (slot : slot_t (list kv)) : list (slot_t (list kv)) :=
  match sl_source slot with
  | [] => heap
  | x :: rest => push_heap heap (mk_slot (mk_entry x.1 x.2 (me_epoch (sl_entry slot))) rest)
  end.

Lemma refill_ok heap slot : slot_values_ok slot -> refill heap slot = Ok (refilled heap slot).
Proof.
  unfold slot_values_ok, refill, refilled. destruct (sl_source slot) as [|x rest]; [done|].
  intros H. apply Forall_cons in H as [Hx _]. unfold value_ok in Hx.
  by destruct (value_from_span x.2).
Qed.

Lemma heap_entries_app a b : heap_entries (a ++ b) = heap_entries a ++ heap_entries b.
Proof. unfold heap_entries. by rewrite fmap_app, mjoin_app. Qed.

Lemma refilled_entries heap slot :
  heap_entries (refilled heap slot) =
    heap_entries heap ++ source_entries (me_epoch (sl_entry slot)) (sl_source slot).
Proof.
  unfold refilled, push_heap. destruct (sl_source slot) as [|x rest].
  - cbn. by rewrite app_nil_r.
  - rewrite heap_entries_app. unfold heap_entries at 2. cbn. by rewrite app_nil_r.
Qed.

Lemma refilled_Forall (P : slot_t (list kv) -> Prop) heap slot :
  Forall P heap ->
  (forall x rest, sl_source slot = x :: rest ->
     P (mk_slot (mk_entry x.1 x.2 (me_epoch (sl_entry slot))) rest)) ->
  Forall P (refilled heap slot).
Proof.
  intros Hh Hs. unfold refilled, push_heap. destruct (sl_source slot) as [|x rest]; [done|].
  apply Forall_app. split; [done|]. apply Forall_singleton. by apply Hs.
Qed.

Lemma refilled_sorted heap slot :
  Forall slot_sorted heap -> slot_sorted slot -> Forall slot_sorted (refilled heap slot).
Proof.
  intros Hh Hs. apply refilled_Forall; [done|]. intros x rest E. unfold slot_sorted in *.
  rewrite E in Hs. inversion Hs; subst. cbn. by rewrite <- surjective_pairing.
Qed.

Lemma refilled_values heap slot :
  Forall slot_values_ok heap -> slot_values_ok slot -> Forall slot_values_ok (refilled heap slot).
Proof.
  intros Hh Hs. apply refilled_Forall; [done|]. intros x rest E. unfold slot_values_ok in *.
  rewrite E in Hs. by apply Forall_cons in Hs as [_ Hs].
Qed.

(** Every entry of a slot comes at or after the pending one. *)
Lemma slot_entries_ge s e : slot_sorted s -> e ∈ slot_entries s -> entry_le (sl_entry s) e.
Proof.
  intros Hs He. apply elem_of_cons in He as [->|He].
  - right. split; [done|lia].
  - unfold source_entries in He. apply list_elem_of_fmap in He as (x & -> & Hx). left.
    unfold slot_sorted in Hs. inversion Hs as [|a l _ Hf]; subst. cbn.
    rewrite Forall_forall in Hf. by apply (Hf x).
Qed.

(** The sequence of entries the loop takes from the heap. *)
Fixpoint popped (fuel : nat) (h : list (slot_t (list kv))) : list merge_entry_t :=
  match pop_heap h, fuel with
  | None, _ => []
  | Some _, O => []
  | Some (slot, heap), S fuel => sl_entry slot :: popped fuel (refilled heap slot)
  end.

Lemma heap_entries_perm h1 h2 : h1 ≡ₚ h2 -> heap_entries h1 ≡ₚ heap_entries h2.
Proof.
  intros H. unfold heap_entries. induction H as [|x a b _ IH|x y l|a b c _ IH1 _ IH2].
  - done.
  - rewrite !fmap_cons, !mjoin_cons. by rewrite IH.
  - rewrite !fmap_cons, !mjoin_cons, !app_assoc. f_equiv. apply Permutation_app_comm.
  - by etrans.
Qed.

Lemma pop_entries h slot heap :
  pop_heap h = Some (slot, heap) ->
  heap_entries h ≡ₚ sl_entry slot :: heap_entries (refilled heap slot).
Proof.
  intros H. apply pop_heap_spec in H as [Hp _]. rewrite (heap_entries_perm _ _ Hp), refilled_entries.
  unfold heap_entries at 1. rewrite fmap_cons, mjoin_cons. unfold slot_entries.
  cbn [app]. f_equiv. apply Permutation_app_comm.
Qed.

(** The popped sequence is a sorted arrangement of all entries. *)
Lemma popped_spec fuel h :
  Forall slot_sorted h -> length (heap_entries h) <= fuel ->
  popped fuel h ≡ₚ heap_entries h /\ StronglySorted entry_le (popped fuel h).
Proof.
  revert h. induction fuel as [|fuel IH]; intros h Hs Hl; simpl;
    destruct (pop_heap h) as [[slot heap]|] eqn:E.
  - pose proof (Permutation_length (pop_entries _ _ _ E)) as H. simpl in H. lia.
  - apply pop_heap_None in E as ->. split; [done|constructor].
  - pose proof (pop_entries _ _ _ E) as Hp. pose proof (Permutation_length Hp) as Hlen. cbn [length] in Hlen.
    destruct (pop_heap_spec _ _ _ E) as [Hperm Hmin]. rewrite Hperm in Hs.
    apply Forall_cons in Hs as [Hslot Hheap].
    destruct (IH (refilled heap slot)) as [IHp IHs]; [by apply refilled_sorted|lia|].
    split; [by rewrite Hp, IHp|]. constructor; [done|]. rewrite IHp, refilled_entries.
    apply Forall_app. split.
    + apply Forall_forall. intros e He. unfold heap_entries in He. apply list_elem_of_join in He as (l & He & Hl').
      apply list_elem_of_fmap in Hl' as (s & -> & Hin). rewrite Forall_forall in Hheap, Hmin.
      etrans; [by apply Hmin|]. apply slot_entries_ge; auto.
    + apply Forall_forall. intros e He. apply slot_entries_ge; [done|]. by apply elem_of_cons; right.
  - apply pop_heap_None in E as ->. split; [done|constructor].
Qed.

(** ** What the deduplicator lets through *)

(** The heads that leave the deduplicator while the entries pass, the one
    left in it at the end, and the number of duplicates dropped. *)
Fixpoint dedup_run (cur : merge_entry_t) (l : list merge_entry_t)
    : list merge_entry_t * merge_entry_t * nat :=
  match l with
  | [] => ([], cur, 0)
  | x :: l =>
      if Lex.eqb (me_key cur) (me_key x)
      then let '(a, last, n) := dedup_run cur l in (a, last, S n)
      else let '(a, last, n) := dedup_run x l in (cur :: a, last, n)
  end.

(** The first entry of every run of equal keys. *)
Definition heads (l : list merge_entry_t) : list merge_entry_t :=
  match l with
  | [] => []
  | x :: l => let '(a, last, _) := dedup_run x l in a ++ [last]
  end.

Definition kept (discard : bool) (e : merge_entry_t) : Prop := discard && is_tombstone e = false.

#[global] Instance kept_dec discard e : Decision (kept discard e).
Proof. unfold kept. solve_decision. Defined.

Lemma emit_item_spec discard h d out f item :
  emit_item discard (mk_merge_state h d out f) item =
    mk_merge_state h d (out ++ filter (kept discard) [item])
      (f + length (filter (fun e => ~ kept discard e) [item])).
Proof.
  unfold emit_item. rewrite !filter_cons, !filter_nil. cbn [ms_heap ms_dedup ms_out ms_filtered].
  destruct (decide (kept discard item)) as [Hk|Hk].
  - rewrite decide_False by tauto. unfold kept in Hk. rewrite Hk. cbn [length]. by rewrite Nat.add_0_r.
  - rewrite decide_True by done. unfold kept in Hk. apply not_false_iff_true in Hk. rewrite Hk.
    by rewrite app_nil_r.
Qed.

Lemma length_filter_compl {A} (P : A -> Prop) `{forall x, Decision (P x)} (l : list A) :
  length (filter P l) + length (filter (fun x => ~ P x) l) = length l.
Proof.
  induction l as [|x l IH]; [done|]. rewrite !filter_cons.
  destruct (decide (P x)); [rewrite decide_False by tauto|rewrite decide_True by done]; cbn [length]; lia.
Qed.

Lemma merge_step_pop discard h d out f slot heap :
  pop_heap h = Some (slot, heap) -> Forall slot_values_ok h ->
  merge_step discard (mk_merge_state h d out f) =
    Some (match dedup_pop (dedup_push d (sl_entry slot)) with
          | None => Ok (mk_merge_state (refilled heap slot) (dedup_push d (sl_entry slot)) out f)
          | Some (item, d') =>
              Ok (emit_item discard (mk_merge_state (refilled heap slot) d' out f) item)
          end).
Proof.
  intros E Hv. unfold merge_step. cbn [ms_heap ms_dedup ms_out ms_filtered]. rewrite E.
  rewrite (proj1 (pop_heap_spec _ _ _ E)) in Hv. apply Forall_cons in Hv as [Hv _].
  by rewrite refill_ok.
Qed.

Lemma popped_refilled_values h slot heap :
  pop_heap h = Some (slot, heap) -> Forall slot_values_ok h -> Forall slot_values_ok (refilled heap slot).
Proof.
  intros E Hv. rewrite (proj1 (pop_heap_spec _ _ _ E)) in Hv. apply Forall_cons in Hv as [Hv Hh].
  by apply refilled_values.
Qed.

Lemma merge_loop_spec fuel discard h cur n out f :
  Forall slot_values_ok h -> length (heap_entries h) <= fuel ->
  merge_loop fuel discard (mk_merge_state h (mk_dedup (Some cur) None n) out f) =
    let '(a, last, k) := dedup_run cur (popped fuel h) in
    Some (Ok (mk_merge_state [] (mk_dedup (Some last) None (n + k))
                (out ++ filter (kept discard) a) (f + length (filter (fun e => ~ kept discard e) a)))).
Proof.
  revert h cur n out f. induction fuel as [|fuel IH]; intros h cur n out f Hv Hl; simpl popped;
    destruct (pop_heap h) as [[slot heap]|] eqn:E.
  - pose proof (Permutation_length (pop_entries _ _ _ E)) as H. simpl in H. lia.
  - apply pop_heap_None in E as ->. cbn. by rewrite app_nil_r, !Nat.add_0_r.
  - pose proof (Permutation_length (pop_entries _ _ _ E)) as Hlen. cbn [length] in Hlen.
    pose proof (popped_refilled_values _ _ _ E Hv) as Hv'.
    cbn [merge_loop]. rewrite (merge_step_pop _ _ _ _ _ _ _ E Hv). cbn [dedup_run].
    unfold dedup_push. cbn [to_be_checked_item ready_item deduplicated_keys].
    destruct (Lex.eqb (me_key cur) (me_key (sl_entry slot))) eqn:Ek; cbn [negb].
    + cbn [dedup_pop ready_item mbind option_bind]. rewrite IH by (done || lia).
      destruct (dedup_run cur _) as [[a last] k]. do 4 f_equal. lia.
    + cbn [dedup_pop ready_item mbind option_bind to_be_checked_item deduplicated_keys].
      rewrite emit_item_spec, IH by (done || lia).
      destruct (dedup_run (sl_entry slot) _) as [[a last] k]. do 2 f_equal.
      change (cur :: a) with ([cur] ++ a). rewrite !filter_app, length_app, app_assoc. f_equal. lia.
  - apply pop_heap_None in E as ->. cbn. by rewrite app_nil_r, !Nat.add_0_r.
Qed.

Lemma init_heap_entries inputs : heap_entries (init_heap inputs) = input_entries inputs.
Proof.
  unfold heap_entries, input_entries, init_heap. induction inputs as [|[e [|x l]] inputs IH]; [done|exact IH|].
  cbn [omap list_omap]. rewrite !fmap_cons, !mjoin_cons. by rewrite <- IH.
Qed.

Lemma total_entries_spec inputs : total_entries inputs = length (input_entries inputs).
Proof.
  unfold total_entries, input_entries, source_entries.
  induction inputs as [|[e l] inputs IH]; [done|].
  rewrite !fmap_cons, !mjoin_cons, !length_app, length_fmap. cbn [snd]. lia.
Qed.

Definition inputs_ok (inputs : list (Z * list kv)) : Prop :=
  Forall (fun i => sorted_kvs i.2 /\ Forall (fun x => value_ok x.2) i.2) inputs.

Lemma init_heap_ok inputs :
  inputs_ok inputs -> Forall slot_sorted (init_heap inputs) /\ Forall slot_values_ok (init_heap inputs).
Proof.
  induction 1 as [|[e [|x l]] inputs [Hs Hv] _ IH]; [by split|exact IH|].
  cbn. destruct IH as [IH1 IH2]. split; constructor; try done.
  - unfold slot_sorted. cbn. by rewrite <- surjective_pairing.
  - unfold slot_values_ok. cbn. by apply Forall_cons in Hv as [_ Hv].
Qed.

(** The whole merge: the heads of the sorted sequence, tombstones dropped
    on demand; it throws exactly when there is no entry at all. *)
Lemma merge_entries_spec discard inputs :
  inputs_ok inputs ->
  let P := popped (total_entries inputs) (init_heap inputs) in
  if decide (input_entries inputs = []) then merge_entries discard inputs = None
  else exists st, merge_entries discard inputs = Some (Ok st) /\
    ms_out st = filter (kept discard) (heads P) /\
    length (ms_out st) + deduplicated_keys (ms_dedup st) + ms_filtered st = total_entries inputs.
Proof.
  intros Hok. cbv zeta. destruct (init_heap_ok _ Hok) as [Hs Hv]. unfold merge_entries.
  pose proof (init_heap_entries inputs) as He. rewrite total_entries_spec.
  destruct (popped_spec (length (input_entries inputs)) (init_heap inputs)) as [HP _];
    [done|rewrite He; lia|]. rewrite He in HP. pose proof (Permutation_length HP) as HPl.
  case_decide as Hd.
  { assert (init_heap inputs = []) as ->.
    { destruct (init_heap inputs); [done|]. rewrite <- He in Hd. discriminate Hd. }
    rewrite Hd. done. }
  destruct (length (input_entries inputs)) as [|m] eqn:El;
    [apply length_zero_iff_nil in El; done|].
  destruct (pop_heap (init_heap inputs)) as [[slot heap]|] eqn:Ep;
    [|apply pop_heap_None in Ep; rewrite Ep in He; done].
  pose proof (popped_refilled_values _ _ _ Ep Hv) as Hv'.
  pose proof (Permutation_length (pop_entries _ _ _ Ep)) as Hlen. rewrite He, El in Hlen. cbn [length] in Hlen.
  cbn [merge_loop]. rewrite (merge_step_pop _ _ _ _ _ _ _ Ep Hv).
  cbn [dedup_push empty_dedup to_be_checked_item ready_item deduplicated_keys dedup_pop mbind option_bind].
  cbn [popped] in *. rewrite Ep in *. rewrite merge_loop_spec by (done || lia). cbn [heads].
  assert (forall cur l a last k, dedup_run cur l = (a, last, k) -> length a + k = length l) as Hcount.
  { clear. intros cur l. revert cur. induction l as [|x l IH]; intros cur a last k; simpl.
    - by intros [= <- <- <-].
    - destruct (Lex.eqb _ _).
      + destruct (dedup_run cur l) as [[a' l'] k'] eqn:E. intros [= <- <- <-]. apply IH in E. lia.
      + destruct (dedup_run x l) as [[a' l'] k'] eqn:E. intros [= <- <- <-]. apply IH in E. simpl. lia. }
  destruct (dedup_run _ _) as [[a last] k] eqn:Er. apply Hcount in Er. cbn [length] in HPl.
  clear Hcount.
  eexists. split; [cbn [mbind option_bind]; unfold drain_dedup;
    cbn [ms_dedup dedup_pop ready_item mbind option_bind dedup_force_pop to_be_checked_item
         deduplicated_keys ms_heap ms_out ms_filtered]; reflexivity|].
  rewrite emit_item_spec. cbn [ms_out ms_dedup ms_filtered deduplicated_keys].
  rewrite app_nil_l, <- filter_app. split; [done|].
  pose proof (length_filter_compl (kept discard) (a ++ [last])) as Hc.
  rewrite !filter_app, !length_app in Hc. rewrite filter_app, !length_app. cbn [length] in *. lia.
Qed.

(** ** The heads of a sorted sequence *)

Definition key_lt (a b : merge_entry_t) : Prop := Lex.lt (me_key a) (me_key b).

Lemma entry_le_key a b : entry_le a b -> Lex.le (me_key a) (me_key b).
Proof. intros [H|[-> _]]; auto with hedge. Qed.

Lemma dedup_run_spec cur l a last k :
  StronglySorted entry_le (cur :: l) -> dedup_run cur l = (a, last, k) ->
  StronglySorted key_lt (a ++ [last]) /\
  Forall (fun h => Lex.le (me_key cur) (me_key h)) (a ++ [last]) /\
  (forall h, h ∈ a ++ [last] -> h ∈ cur :: l /\
     forall e, e ∈ cur :: l -> me_key e = me_key h -> (me_epoch e <= me_epoch h)%Z) /\
  (forall e, e ∈ cur :: l -> exists h, h ∈ a ++ [last] /\ me_key h = me_key e).
Proof.
  revert cur a last k. induction l as [|x l IH]; intros cur a last k Hs; simpl.
  { intros [= <- <- <-]. split_ands.
    - repeat constructor.
    - repeat constructor. apply Lex.le_refl.
    - intros h Hh. split; [done|]. intros e He _. apply list_elem_of_singleton in He, Hh. subst. lia.
    - intros e He. exists e. done. }
  inversion Hs as [|c ll Hs' Hf]; subst. inversion Hs' as [|c ll Hs'' Hfx]; subst.
  apply Forall_cons in Hf as [Hcx Hcl].
  destruct (Lex.eqb (me_key cur) (me_key x)) eqn:Ek.
  - apply Lex.eqb_eq in Ek. destruct (dedup_run cur l) as [[a' last'] k'] eqn:Er. intros [= <- <- <-].
    destruct (IH _ _ _ _ (SSorted_cons _ Hs'' Hcl) Er) as (H1 & H2 & H3 & H4).
    assert (me_epoch x <= me_epoch cur)%Z as Hex.
    { destruct Hcx as [Hlt|[_ Hle]]; [|done]. rewrite Ek in Hlt. by apply Lex.lt_irrefl in Hlt. }
    split_ands; [done|done| |].
    + intros h Hh. destruct (H3 h Hh) as [Hin Hmax]. split.
      * apply elem_of_cons in Hin as [->|Hin]; set_solver.
      * intros e He Hke. apply elem_of_cons in He as [->|He]; [apply Hmax; [set_solver|done]|].
        apply elem_of_cons in He as [->|He]; [|apply Hmax; [set_solver|done]].
        etrans; [exact Hex|]. apply Hmax; [set_solver|congruence].
    + intros e He. apply elem_of_cons in He as [->|He]; [apply H4; set_solver|].
      apply elem_of_cons in He as [->|He]; [|apply H4; set_solver].
      destruct (H4 cur) as (h & Hh & Hk); [set_solver|]. exists h. split; [done|congruence].
  - assert (Lex.lt (me_key cur) (me_key x)) as Hlt.
    { destruct Hcx as [Hlt|[He _]]; [done|]. apply Lex.eqb_eq in He. congruence. }
    destruct (dedup_run x l) as [[a' last'] k'] eqn:Er. intros [= <- <- <-].
    destruct (IH _ _ _ _ Hs' Er) as (H1 & H2 & H3 & H4). cbn [app].
    assert (forall e, e ∈ x :: l -> Lex.lt (me_key cur) (me_key e)) as Hgt.
    { intros e He. apply elem_of_cons in He as [->|He]; [done|].
      eapply Lex.lt_le_trans; [exact Hlt|]. apply entry_le_key. rewrite Forall_forall in Hfx. auto. }
    assert (Forall (fun h => Lex.lt (me_key cur) (me_key h)) (a' ++ [last'])) as Hall.
    { apply Forall_forall. intros h Hh. apply Hgt, H3, Hh. }
    split_ands.
    + constructor; done.
    + constructor; [apply Lex.le_refl|]. eapply Forall_impl; [exact Hall|]. intros h Hh. by apply Lex.lt_le.
    + intros h Hh. apply elem_of_cons in Hh as [->|Hh].
      * split; [set_solver|]. intros e He Hke. apply elem_of_cons in He as [->|He]; [lia|].
        apply Hgt in He. rewrite Hke in He. by apply Lex.lt_irrefl in He.
      * destruct (H3 h Hh) as [Hin Hmax]. split; [set_solver|]. intros e He Hke.
        apply elem_of_cons in He as [->|He]; [|by apply Hmax].
        rewrite Forall_forall in Hall. apply Hall in Hh. rewrite Hke in Hh. by apply Lex.lt_irrefl in Hh.
    + intros e He. apply elem_of_cons in He as [->|He]; [exists cur; split; [set_solver|done]|].
      destruct (H4 e He) as (h & Hh & Hk). exists h. split; [set_solver|done].
Qed.

Lemma heads_spec P :
  StronglySorted entry_le P ->
  StronglySorted key_lt (heads P) /\
  (forall h, h ∈ heads P -> h ∈ P /\ forall e, e ∈ P -> me_key e = me_key h -> (me_epoch e <= me_epoch h)%Z) /\
  (forall e, e ∈ P -> exists h, h ∈ heads P /\ me_key h = me_key e).
Proof.
  destruct P as [|x l]; intros Hs; simpl.
  { split_ands; [constructor| |]; intros e He; by apply not_elem_of_nil in He. }
  destruct (dedup_run x l) as [[a last] k] eqn:E.
  destruct (dedup_run_spec _ _ _ _ _ Hs E) as (H1 & _ & H3 & H4). done.
Qed.

(** ** The merged entries *)

Definition out_kvs (out : list merge_entry_t) : list kv := (fun e => (me_key e, me_value e)) <$> out.

(** [v] is the value of [key] in the input of the highest epoch that has
    the key. *)
Definition newest (inputs : list (Z * list kv)) (key v : bytes) : Prop :=
  exists e l, (e, l) ∈ inputs /\ assoc key l = Some v /\
    forall e' l', (e', l') ∈ inputs -> (e < e')%Z -> assoc key l' = None.

Lemma StronglySorted_filter {A} (R : A -> A -> Prop) (P : A -> Prop) `{forall x, Decision (P x)} l :
  StronglySorted R l -> StronglySorted R (filter P l).
Proof.
  induction 1 as [|x l Hs IH Hf]; [constructor|]. rewrite filter_cons. case_decide; [|done].
  constructor; [done|]. apply Forall_forall. intros y Hy. apply list_elem_of_filter in Hy as [_ Hy].
  rewrite Forall_forall in Hf. auto.
Qed.

Lemma out_kvs_sorted out : StronglySorted key_lt out -> sorted_kvs (out_kvs out).
Proof.
  induction 1 as [|x l Hs IH Hf]; [constructor|]. cbn. constructor; [done|].
  apply Forall_fmap. eapply Forall_impl; [exact Hf|]. done.
Qed.

Lemma elem_input_entries inputs e :
  e ∈ input_entries inputs <-> exists l, (me_epoch e, l) ∈ inputs /\ (me_key e, me_value e) ∈ l.
Proof.
  unfold input_entries. rewrite list_elem_of_join. split.
  - intros (es & He & Hes). apply list_elem_of_fmap in Hes as ([ep l] & -> & Hin).
    apply list_elem_of_fmap in He as ([k v] & -> & Hx). by exists l.
  - intros (l & Hin & Hx). exists (source_entries (me_epoch e) l). split.
    + apply list_elem_of_fmap. eexists. split; [|exact Hx]. by destruct e.
    + apply list_elem_of_fmap. by exists (me_epoch e, l).
Qed.

Lemma epoch_unique (inputs : list (Z * list kv)) e l1 l2 :
  NoDup inputs.*1 -> (e, l1) ∈ inputs -> (e, l2) ∈ inputs -> l1 = l2.
Proof.
  induction inputs as [|[e' l'] inputs IH]; intros Hnd H1 H2; [by apply not_elem_of_nil in H1|].
  apply NoDup_cons in Hnd as [Hni Hnd].
  assert (forall l, (e, l) ∈ inputs -> e ∈ inputs.*1) as Hin.
  { intros l Hl. apply list_elem_of_fmap. by exists (e, l). }
  apply elem_of_cons in H1 as [[= -> ->]|H1], H2 as [H2|H2]; simpl in *.
  - by injection H2 as ->.
  - destruct Hni. eauto.
  - injection H2 as -> ->. destruct Hni. eauto.
  - auto.
Qed.

(** A head is the newest version of its key, and every newest version is
    a head. *)
Lemma heads_newest inputs P h :
  inputs_ok inputs -> NoDup inputs.*1 -> P ≡ₚ input_entries inputs -> StronglySorted entry_le P ->
  h ∈ heads P -> newest inputs (me_key h) (me_value h).
Proof.
  intros Hok Hnd HP Hs Hh. destruct (heads_spec P Hs) as (_ & H2 & _).
  destruct (H2 h Hh) as [Hin Hmax]. rewrite HP in Hin.
  apply elem_input_entries in Hin as (l & Hl & Hx). unfold inputs_ok in Hok. rewrite Forall_forall in Hok.
  exists (me_epoch h), l. split; [done|]. split; [by apply assoc_elem; [apply (Hok _ Hl)|]|].
  intros e' l' Hl' Hlt. destruct (assoc (me_key h) l') as [v'|] eqn:E; [|done].
  apply assoc_elem in E; [|by apply (Hok _ Hl')].
  assert (mk_entry (me_key h) v' e' ∈ P) as Hin' by (rewrite HP; apply elem_input_entries; by exists l').
  apply Hmax in Hin'; [|done]. simpl in Hin'. lia.
Qed.

Lemma newest_in_heads inputs P key v :
  inputs_ok inputs -> NoDup inputs.*1 -> P ≡ₚ input_entries inputs -> StronglySorted entry_le P ->
  newest inputs key v -> exists h, h ∈ heads P /\ me_key h = key /\ me_value h = v.
Proof.
  intros Hok Hnd HP Hs (e & l & Hl & Ha & Hmax). destruct (heads_spec P Hs) as (_ & H2 & H3).
  unfold inputs_ok in Hok. rewrite Forall_forall in Hok. pose proof (Hok _ Hl) as [Hsl _].
  apply assoc_elem in Ha; [|done].
  assert (mk_entry key v e ∈ P) as Hin by (rewrite HP; apply elem_input_entries; by exists l).
  destruct (H3 _ Hin) as (h & Hh & Hk). simpl in Hk. exists h. split; [done|]. split; [done|].
  destruct (H2 h Hh) as [Hhin Hhmax]. pose proof (Hhmax _ Hin (eq_sym Hk)) as Hle. simpl in Hle.
  rewrite HP in Hhin. apply elem_input_entries in Hhin as (l2 & Hl2 & Hx2). rewrite Hk in Hx2.
  destruct (decide (me_epoch h = e)) as [He|He].
  - rewrite He in Hl2. rewrite (epoch_unique _ _ _ _ Hnd Hl2 Hl) in Hx2.
    apply assoc_elem in Hx2, Ha; try done. congruence.
  - assert (assoc key l2 = None) as Hn by (apply (Hmax _ _ Hl2); lia).
    apply assoc_elem in Hx2; [|by apply (Hok _ Hl2)]. congruence.
Qed.

(** The merge keeps the newest version of every key. *)
Lemma merge_entries_correct (discard : bool) (inputs : list (Z * list kv))
    (Hok : inputs_ok inputs) (Hepochs : NoDup inputs.*1) (Hne : input_entries inputs <> []) :
  exists st, merge_entries discard inputs = Some (Ok st) /\
    sorted_kvs (out_kvs (ms_out st)) /\
    (forall key v, assoc key (out_kvs (ms_out st)) = Some v <->
       newest inputs key v /\ (discard && is_tombstone (mk_entry key v 0) = false)) /\
    length (ms_out st) + deduplicated_keys (ms_dedup st) + ms_filtered st = total_entries inputs.
Proof.
  pose proof (merge_entries_spec discard inputs Hok) as Hm. cbv zeta in Hm.
  rewrite decide_False in Hm by done. destruct Hm as (st & Hst & Hout & Hcount).
  exists st. split; [done|]. destruct (init_heap_ok _ Hok) as [Hsl _].
  destruct (popped_spec (total_entries inputs) (init_heap inputs)) as [HP Hs];
    [done|by rewrite init_heap_entries, total_entries_spec|].
  rewrite init_heap_entries in HP. set (P := popped _ _) in *.
  destruct (heads_spec P Hs) as (H1 & _). rewrite Hout in *.
  assert (sorted_kvs (out_kvs (filter (kept discard) (heads P)))) as Hsorted
    by (by apply out_kvs_sorted, StronglySorted_filter).
  split; [done|]. split; [|done]. intros key v. rewrite assoc_elem by done. unfold out_kvs.
  rewrite list_elem_of_fmap. split.
  - intros (h & [= -> ->] & Hh). apply list_elem_of_filter in Hh as [Hk Hh].
    split; [by eapply heads_newest|exact Hk].
  - intros [Hnew Hk]. destruct (newest_in_heads inputs P key v Hok Hepochs HP Hs Hnew) as (h & Hh & <- & <-).
    exists h. split; [done|]. apply list_elem_of_filter. split; [exact Hk|done].
Qed.

(** The recorded epoch is the smallest of the inputs'. *)
Lemma merged_epoch_min (e : Z) (l : list Z) :
  exists m, merged_epoch (e :: l) = Some m /\ m ∈ e :: l /\ Forall (fun x => (m <= x)%Z) (e :: l).
Proof.
  simpl. eexists. split; [done|]. revert e. induction l as [|x l IH]; intros e; cbn [max_element_from].
  - split; [set_solver|]. repeat constructor. lia.
  - destruct (Z.ltb_spec x e) as [Hlt|Hge].
    + destruct (IH x) as [Hin Hf]. apply Forall_cons in Hf as [Hx Hf]. split; [set_solver|].
      constructor; [lia|]. by constructor.
    + destruct (IH e) as [Hin Hf]. apply Forall_cons in Hf as [He Hf]. split; [set_solver|].
      constructor; [done|]. constructor; [lia|done].
Qed.

(** ** Properties *)

(** The merge keeps exactly the newest version of every key. For
    sorted inputs with distinct epochs and well-formed values, one of
    them not empty, the loop terminates without error; its output is
    strictly increasing in the key; a key maps to a value in the output
    iff that is its value in the input of the highest epoch that has it,
    except that tombstones are left out when the merge discards deleted
    keys; and the counters of written, deduplicated and filtered entries
    add up to the number of input entries. *)
Theorem merge_correct (discard : bool) (inputs : list (Z * list kv))
    (Hok : inputs_ok inputs) (Hepochs : NoDup inputs.*1) (Hne : input_entries inputs <> []) :
  exists st, merge_entries discard inputs = Some (Ok st) /\
    sorted_kvs (out_kvs (ms_out st)) /\
    (forall key v, assoc key (out_kvs (ms_out st)) = Some v <->
       newest inputs key v /\ (discard && is_tombstone (mk_entry key v 0) = false)) /\
    length (ms_out st) + deduplicated_keys (ms_dedup st) + ms_filtered st = total_entries inputs.
Proof. by apply merge_entries_correct. Qed.

Lemma merge_correct_witness :
  exists st, merge_entries true
    [(1, [([1], [1; 10]); ([2], [1; 20])]); (2, [([1], [2]); ([3], [1; 30])])]%Z = Some (Ok st) /\
    sorted_kvs (out_kvs (ms_out st)).
Proof.
  destruct (merge_correct true [(1, [([1], [1; 10]); ([2], [1; 20])]); (2, [([1], [2]); ([3], [1; 30])])]%Z)
    as (st & H1 & H2 & _).
  - repeat constructor.
  - refine (bool_decide_unpack _ _). vm_compute. exact I.
  - done.
  - by exists st.
Defined.

(** Merging inputs that are all empty throws. Such inputs are what a
    merge that discards every entry leaves behind. *)
Theorem merge_of_empty_inputs_throws (discard : bool) (inputs : list (Z * list kv))
    (Hempty : Forall (fun i => i.2 = []) inputs) :
  merge_entries discard inputs = None /\
  (exists st, merge_entries true [(1, [([1], [2])])]%Z = Some (Ok st) /\ ms_out st = []).
Proof.
  split; [|eexists; split; reflexivity].
  assert (inputs_ok inputs) as Hok.
  { eapply Forall_impl; [exact Hempty|]. intros [e l] ->. by repeat constructor. }
  assert (input_entries inputs = []) as He.
  { unfold input_entries. clear Hok. induction Hempty as [|[e l] inputs Hl _ IH]; [done|].
    simpl in Hl. subst l. exact IH. }
  pose proof (merge_entries_spec discard inputs Hok) as Hm. cbv zeta in Hm. by rewrite decide_True in Hm.
Qed.

Lemma merge_of_empty_witness : merge_entries false [(1, []); (2, [])]%Z = None.
Proof. refine (proj1 (merge_of_empty_inputs_throws false [(1, []); (2, [])]%Z _)). repeat constructor. Defined.

Section qf_size.
Local Open Scope Z_scope.

Lemma qf_bits_loop_spec fuel s slots q :
  0 <= q -> s = 2 ^ q -> slots <= 2 ^ (q + Z.of_nat fuel) ->
  (q = 0 \/ 2 ^ (q - 1) < slots) ->
  let r := qf_bits_loop fuel s slots q in 0 <= r /\ slots <= 2 ^ r /\ (r = 0 \/ 2 ^ (r - 1) < slots).
Proof.
  revert s q. induction fuel as [|fuel IH]; intros s q Hq Hs Hf Hmin; simpl.
  { rewrite Z.add_0_r in Hf. done. }
  destruct (Z.ltb_spec s slots) as [Hlt|Hge].
  - apply IH.
    + lia.
    + rewrite Z.shiftl_mul_pow2 by lia. subst s. rewrite <- Z.pow_add_r by lia. done.
    + etrans; [exact Hf|]. apply Z.pow_le_mono_r; lia.
    + right. replace (q + 1 - 1) with q by lia. lia.
  - subst s. done.
Qed.
End qf_size.

(** The filter of an SST has room for its keys. For any realistic
    number of keys the quotient has the fewest bits for which the number
    of slots is at least four thirds of the number of keys, so the load
    factor never exceeds three quarters. *)
Theorem qf_size_correct (num_keys : Z) (Hn : (0 <= num_keys < 2 ^ 62)%Z) :
  let q := qf_quotient_bits num_keys in
  (0 <= q /\ 4 * num_keys <= 3 * 2 ^ q /\ (q = 0 \/ 3 * 2 ^ (q - 1) < 4 * num_keys + 2))%Z.
Proof.
  unfold qf_quotient_bits. set (slots := qf_slots num_keys).
  assert (4 * num_keys <= 3 * slots /\ 3 * slots <= num_keys * 4 + 2)%Z as [Hlo Hhi].
  { unfold slots, qf_slots. pose proof (Z.div_mod (num_keys * 4 + 2) 3 ltac:(lia)).
    pose proof (Z.mod_pos_bound (num_keys * 4 + 2) 3 ltac:(lia)). lia. }
  destruct (qf_bits_loop_spec 64 1 slots 0) as (H1 & H2 & H3); lia.
Qed.

Lemma qf_size_witness :
  (0 <= qf_quotient_bits 1000 /\ 4 * 1000 <= 3 * 2 ^ qf_quotient_bits 1000 /\
   (qf_quotient_bits 1000 = 0 \/ 3 * 2 ^ (qf_quotient_bits 1000 - 1) < 4 * 1000 + 2))%Z.
Proof. exact (qf_size_correct 1000 ltac:(lia)). Defined.
