(* ===== verification/Sst.v ===== *)
(** * SST files (src/db/sst.h, src/db/sst.cc, src/db/index_ops.h, src/db/index_ops.cc)

    The writer that lays sorted entries out in pages and collects the meta
    index (the last key of every page), the meta and super index searches,
    the point lookup and the page range of a scan, the serialised meta
    index, the footer, and the compaction states of an SST.

    I/O is assumed to succeed: a write appends the bytes it is given. *)

From stdpp Require Import base list numbers strings sorting sets.
From Stdlib Require Import ZArith Lia.
From S2P Require Import Prelude StdAlgo Varint Types Block BlockBuffer.

(** ** Footer *)

Record sst_footer := mk_footer {
  f_upper_bound : Z;
  f_indexed_keys : Z;
  f_meta_index_entries : Z;
  f_index_offset : Z;
  f_meta_index_offset : Z;
  f_qf_offset : Z;
  f_qf_size : Z;
  f_footer_offset : Z;
  f_epoch : Z;
  f_max_seq_nr : Z;
}.

Record sst_footer_builder := mk_builder {
  b_upper_bound : option Z;
  b_indexed_kv : option Z;
  b_meta_index_entries : option Z;
  b_index_offset : option Z;
  b_meta_index_offset : option Z;
  b_qf_offset : option Z;
  b_qf_size : option Z;
  b_footer_offset : option Z;
  b_epoch : option Z;
  b_max_seq_nr : option Z;
}.

Definition require {A} (o : option A) (msg : string) : expected A :=
  match o with Some a => Ok a | None => Err (generic_error msg) end.

Definition build (b : sst_footer_builder) : expected sst_footer :=
  upper_bound ← require (b_upper_bound b) "Footer upper_bound not set";
  indexed ← require (b_indexed_kv b) "Footer indexed_keys not set";
  entries ← require (b_meta_index_entries b) "Footer meta_index_entries not set";
  index_offset ← require (b_index_offset b) "Footer index_offset not set";
  meta_offset ← require (b_meta_index_offset b) "Footer meta_index_offset not set";
  footer_offset ← require (b_footer_offset b) "Footer footer_offset not set";
  epoch ← require (b_epoch b) "Footer epoch not set";
  max_seq ← require (b_max_seq_nr b) "Footer max_seq_nr not set";
  Ok (mk_footer upper_bound indexed entries index_offset meta_offset
        (default 0%Z (b_qf_offset b)) (default 0%Z (b_qf_size b)) footer_offset epoch max_seq).

(** ** Compaction states *)

Inductive compaction_progress_state :=
  | PICKABLE_FOR_COMPACTION
  | IN_COMPACTION
  | COMPACTED
  | COMPACTION_ERROR.

#[global] Instance compaction_progress_state_eq_dec : EqDecision compaction_progress_state.
Proof. solve_decision. Defined.

Definition valid_transition (curr next : compaction_progress_state) : bool :=
  match curr, next with
  | PICKABLE_FOR_COMPACTION, (IN_COMPACTION | COMPACTION_ERROR) => true
  | IN_COMPACTION, (COMPACTED | COMPACTION_ERROR) => true
  | COMPACTED, COMPACTION_ERROR => true
  | _, _ => false
  end.

(** [None] is the exception of an invalid transition. *)
Definition set_compaction_state (curr new_state : compaction_progress_state)
    : option compaction_progress_state :=
  if bool_decide (curr = COMPACTION_ERROR) then Some curr
  else if negb (valid_transition curr new_state) then None
  else Some new_state.

Definition pickable_for_compaction (s : compaction_progress_state) : bool :=
  bool_decide (s = PICKABLE_FOR_COMPACTION).

(** ** Meta and super index *)

Definition sizeof_key_t : nat := 32.
Definition KEYS_PER_META_INDEX_PAGE : nat := Nat.div PAGE_SIZE_IN_BYTES sizeof_key_t.
Definition SUPER_INDEX_ENABLE_THRESHOLD : nat := 16.

Definition ceil_div (a b : nat) : nat := (a + b - 1) / b.

Section super_index.
(** The number of meta keys a super index entry stands for. *)
Context (entries_per_page : nat).

Definition create_super_index (meta_index : list bytes) : list bytes :=
  (fun i => default [] (meta_index !! Nat.min ((i + 1) * entries_per_page - 1) (length meta_index - 1)))
    <$> seq 0 (ceil_div (length meta_index) entries_per_page).

(** The [_find_page_id] search: in the slice of the meta index the super
    index points at, or in all of it. *)
Definition _find_page_id (meta_index : list bytes) (super_index : option (list bytes)) (key : bytes)
    : option nat :=
  let less := fun k => Lex.ltb k key in
  match super_index with
  | Some super =>
      let page := lower_bound less super in
      if page =? length super then None
      else
        let first := page * entries_per_page in
        let last_page_size := length meta_index mod entries_per_page in
        let count := if (page =? length super - 1) && negb (last_page_size =? 0)
                     then last_page_size else entries_per_page in
        let it := first + lower_bound less (read_at meta_index first count) in
        if it =? length meta_index then None else Some it
  | None =>
      let it := lower_bound less meta_index in
      if it =? length meta_index then None else Some it
  end.

Definition find_range (meta_index : list bytes) (super_index : option (list bytes))
    (lower upper : option bytes) : option (nat * nat) :=
  let last_default := length meta_index - 1 in
  let last := match upper with
              | None => last_default
              | Some u => default last_default (_find_page_id meta_index super_index u)
              end in
  match lower with
  | None => Some (0, last)
  | Some l => first ← _find_page_id meta_index super_index l; Some (first, last)
  end.
End super_index.

(** The super index built when there are enough meta keys. *)
Definition make_super_index (meta_index : list bytes) : option (list bytes) :=
  if KEYS_PER_META_INDEX_PAGE * SUPER_INDEX_ENABLE_THRESHOLD <? length meta_index
  then Some (create_super_index KEYS_PER_META_INDEX_PAGE meta_index) else None.

(** ** The serialised meta index *)

Definition append_meta_index_key (buffer : bytes) (key : bytes) : bytes := buffer ++ write_key key.

(** The loop of [sst::load] that reads the keys back. *)
Fixpoint read_meta_index (entries : nat) (raw : bytes) : list bytes :=
  match entries with
  | O => []
  | S n => let k := read_key raw in k :: read_meta_index n (drop (serialized_key_total_length k) raw)
  end.

Section sst.
Context (xxh64_hash : bytes -> Z -> Z).

(** ** Writing the pages *)

Record index_writer := mk_index_writer {
  iw_buf : merge_write_buffer;
  iw_file : bytes;            (* what was flushed to the file *)
  iw_meta : list bytes;       (* meta_index *)
}.

(** A buffer of [n] pages. *)
Definition make_index_writer (n : nat) : index_writer :=
  mk_index_writer
    (mk_write_buffer (replicate (n * PAGE_SIZE_IN_BYTES) 0%Z) (make_writer 0 (0 + n * PAGE_SIZE_IN_BYTES)) 0)
    [] [].

(** One item: written to the buffer, or written after the buffer was
    flushed. The encoder's exception, which no caller of the loop catches,
    ends the flush or the merge like an error ([write_kv_spec]: it does not
    occur). *)
Definition bad_alloc : error := generic_error "std::bad_alloc".

Definition write_kv (iw : index_writer) (x : kv) : expected index_writer :=
  match write_item xxh64_hash (iw_buf iw) x.1 x.2 with
  | None => Err bad_alloc
  | Some (Ok _, buf, metas) => Ok (mk_index_writer buf (iw_file iw) (iw_meta iw ++ metas))
  | Some (Err _, buf, metas) =>
      let '(out, buf) := flush_buffer xxh64_hash buf in
      match write_item xxh64_hash buf x.1 x.2 with
      | None => Err bad_alloc
      | Some (Err _, _, _) => Err (generic_error "Could not write item after flush")
      | Some (Ok _, buf, metas') => Ok (mk_index_writer buf (iw_file iw ++ out) (iw_meta iw ++ metas ++ metas'))
      end
  end.

Fixpoint write_kvs (iw : index_writer) (l : list kv) : expected index_writer :=
  match l with
  | [] => Ok iw
  | x :: l => iw ← write_kv iw x; write_kvs iw l
  end.

(** The last, partly filled buffer. *)
Definition finish_index (iw : index_writer) : index_writer :=
  let w := wb_writer (iw_buf iw) in
  if writer_empty w then iw
  else
    let '(out, buf) := flush_buffer xxh64_hash (iw_buf iw) in
    mk_index_writer buf (iw_file iw ++ out) (iw_meta iw ++ [enc_last_key (wr_encoder w)]).

(** A memtable entry: key, sequence number, tagged value. *)
Record memtable_entry := mk_mt_entry { mt_key : bytes; mt_seq : Z; mt_value : bytes }.

(** [_write_index]: the newest version of each key of a sorted range, with
    the largest sequence number among those written. *)
Fixpoint newest_versions (prev : option bytes) (l : list memtable_entry) : list memtable_entry :=
  match l with
  | [] => []
  | e :: l =>
      if bool_decide (prev = Some (mt_key e)) then newest_versions prev l
      else e :: newest_versions (Some (mt_key e)) l
  end.

Definition WRITE_BUF_PAGES : nat := 512. (* 2 MiB *)

Definition _write_index (l : list memtable_entry) : expected (index_writer * Z) :=
  let kept := newest_versions None l in
  iw ← write_kvs (make_index_writer WRITE_BUF_PAGES) ((fun e => (mt_key e, mt_value e)) <$> kept);
  Ok (finish_index iw, foldl Z.max 0%Z (mt_seq <$> kept)).

(** ** Point lookup *)

Definition _find_in_page (page : bytes) (key : bytes) : option (expected value_t) :=
  let d := make_block_decoder page default_block_config 0 in
  match sanity_check xxh64_hash page d with
  | Err _ => Some (Err (generic_error "checksum mismatch for key"))
  | Ok _ =>
      r ← block_find page d key;
      Some (match r with
            | None => Err (mk_error "" KEY_NOT_FOUND)
            | Some ref =>
                let value := read_at page ref.1 ref.2 in
                match value with
                | [] => Err (mk_error "" KEY_NOT_FOUND)
                | _ => value_from_span value
                end
            end)
  end.

(** [lookup_async] on the index pages of a file; [None] stands for an
    exception. *)
Definition sst_lookup (file : bytes) (meta_index : list bytes) (super_index : option (list bytes))
    (key : bytes) : option (expected value_t) :=
  match _find_page_id KEYS_PER_META_INDEX_PAGE meta_index super_index key with
  | None => Some (Err (mk_error "" KEY_NOT_FOUND))
  | Some page_id =>
      _find_in_page (read_at file (page_id * PAGE_SIZE_IN_BYTES) PAGE_SIZE_IN_BYTES) key
  end.

(** ** What the index writer keeps *)

Local Abbreviation P := PAGE_SIZE_IN_BYTES.
Local Abbreviation cfg := default_block_config.

(** A page can be copied to another place. *)
Lemma page_holds_move mem mem' b b' c :
  read_at mem' b' P = read_at mem b P -> b' + P <= length mem' ->
  page_holds xxh64_hash mem cfg b c -> page_holds xxh64_hash mem' cfg b' c.
Proof.
  intros Hr Hl [H1 H2 H3 H4 H5 H6]. change (block_size_in_bytes cfg) with P in *.
  split; change (block_size_in_bytes cfg) with P; try done.
  - rewrite <- (Nat.add_0_r b) in H4. rewrite <- (Nat.add_0_r b').
    eapply (mem_has_move mem mem' b b'); [exact Hr| |exact H4]. lia.
  - assert (read_at mem' b' (P - 4) = read_at mem b (P - 4)) as ->.
    { pose proof (read_at_move mem mem' b b' P 0 (P - 4) Hr ltac:(lia)) as H.
      by rewrite !Nat.add_0_r in H. }
    set (o := P - 10 - 2 * ngroups (restart_group_size cfg) (length c)).
    replace (b' + P - 10 - 2 * ngroups (restart_group_size cfg) (length c)) with (b' + o) by (unfold o; lia).
    replace (b + P - 10 - 2 * ngroups (restart_group_size cfg) (length c)) with (b + o) in H6 by (unfold o; lia).
    eapply mem_has_move; [exact Hr| |exact H6].
    unfold trailer_bytes. rewrite !length_app, length_offsets_bytes, length_restart_offsets, !length_le_encode.
    unfold o. lia.
Qed.

(** Pages copied out of a buffer, behind pages already in a file. *)
Lemma pages_hold_append file mem b fchunks chunks :
  length file = length fchunks * P -> b + length chunks * P <= length mem ->
  pages_hold xxh64_hash file 0 fchunks -> pages_hold xxh64_hash mem b chunks ->
  pages_hold xxh64_hash (file ++ read_at mem b (length chunks * P)) 0 (fchunks ++ chunks).
Proof.
  intros Hlf Hlm Hf Hm i c Hi.
  assert (length (file ++ read_at mem b (length chunks * P)) = (length fchunks + length chunks) * P) as Hlen.
  { rewrite length_app, length_read_at by lia. lia. }
  pose proof (lookup_lt_Some _ _ _ Hi) as Hlt. rewrite length_app in Hlt.
  apply lookup_app_Some in Hi as [Hi|[Hge Hi]].
  - eapply page_holds_move; [| |exact (Hf i c Hi)].
    + apply list_eq. intros j. rewrite !lookup_read_at. case_decide; [|done]. apply lookup_app_l.
      rewrite Hlf. apply lookup_lt_Some in Hi. unfold P, KiB in *. nia.
    + rewrite Hlen. unfold P, KiB in *. nia.
  - eapply page_holds_move; [| |exact (Hm _ c Hi)].
    + apply list_eq. intros j. rewrite !lookup_read_at. case_decide; [|done].
      rewrite lookup_app_r by (unfold P, KiB in *; nia). rewrite lookup_read_at.
      apply lookup_lt_Some in Hi. rewrite decide_True by (unfold P, KiB in *; nia).
      f_equal. unfold P, KiB in *. nia.
    + rewrite Hlen. unfold P, KiB in *. nia.
Qed.

Record index_rep (iw : index_writer) (fchunks done : list (list kv)) (cur : list kv) : Prop := {
  ix_writer : writer_rep xxh64_hash (wb_mem (iw_buf iw)) (wb_writer (iw_buf iw)) done cur;
  ix_begin : wr_begin (wb_writer (iw_buf iw)) = 0;
  ix_file : pages_hold xxh64_hash (iw_file iw) 0 fchunks;
  ix_length : length (iw_file iw) = length fchunks * P;
  ix_nonempty : Forall (fun c => c <> []) fchunks;
  ix_meta : iw_meta iw = last_key [] <$> (fchunks ++ done);
}.

Definition index_items (fchunks done : list (list kv)) (cur : list kv) : list kv :=
  concat (fchunks ++ done) ++ cur.

Lemma make_index_writer_rep n : 0 < n -> index_rep (make_index_writer n) [] [] [].
Proof.
  intros Hn. split; cbn [make_index_writer iw_buf iw_file iw_meta wb_mem wb_writer]; try done.
  apply make_writer_rep; [done|]. rewrite length_replicate. lia.
Qed.

(** A reset writer is a fresh one on the same pages. *)
Lemma writer_reset_rep mem w done cur mem' e' :
  writer_rep xxh64_hash mem w done cur -> length mem' = length mem -> enc_cfg e' = cfg ->
  writer_rep xxh64_hash mem' (writer_reset (mk_writer (wr_begin w) (wr_cur w) (wr_end w) e')) [] [].
Proof.
  intros [R1 R2 R3 R4 R5 R6 R7 R8 R9] Hl Hc. unfold writer_reset. cbn [wr_begin wr_cur wr_end wr_encoder].
  rewrite encoder_reset_make, Hc.
  split; cbn [wr_begin wr_cur wr_end wr_encoder length]; try done; try lia.
  apply make_encoder_rep; [apply default_cfg_ok|]. change (block_size_in_bytes cfg) with P. lia.
Qed.

(** What [flush] hands out when the current page is not committed yet. *)
Lemma flush_spec mem w done cur n :
  writer_rep xxh64_hash mem w done cur ->
  let '(out, b) := flush_buffer xxh64_hash (mk_write_buffer mem w n) in
  exists mem', pages_hold xxh64_hash mem' (wr_begin w) (done ++ [cur]) /\
    wr_begin w + length (done ++ [cur]) * P <= length mem' /\
    out = read_at mem' (wr_begin w) (length (done ++ [cur]) * P) /\
    writer_rep xxh64_hash (wb_mem b) (wb_writer b) [] [] /\ wr_begin (wb_writer b) = wr_begin w.
Proof.
  intros Hrep. pose proof (commit_current _ _ _ _ _ Hrep) as Hc. unfold flush_buffer, force_commit.
  cbn [wb_mem wb_writer wb_indexed_kvs].
  destruct (_commit xxh64_hash mem (wr_encoder w)) as [m1 e1]. destruct Hc as (Hp & [Hl _] & Hcfg & _).
  assert (writer_bytes_written (mk_writer (wr_begin w) (wr_cur w) (wr_end w) e1) = length (done ++ [cur]) * P) as Hbw.
  { unfold writer_bytes_written. cbn [wr_begin wr_cur]. rewrite (wr_cur_pos _ _ _ _ _ Hrep), length_app.
    cbn [length]. unfold P, KiB. lia. }
  exists m1. rewrite Hbw. split_ands; try done.
  - pose proof (wr_cur_in _ _ _ _ _ Hrep). pose proof (wr_cur_pos _ _ _ _ _ Hrep).
    pose proof (wr_mem _ _ _ _ _ Hrep). rewrite length_app, Hl. cbn [length]. unfold P, KiB in *. lia.
  - eapply writer_reset_rep; eauto.
Qed.

(** Flushing a buffer whose last page was committed by a failed push. *)
Lemma flush_full_spec mem w done cur mem1 w1 n :
  writer_rep xxh64_hash mem w done cur ->
  _commit xxh64_hash mem (wr_encoder w) = (mem1, wr_encoder w1) ->
  wr_begin w1 = wr_begin w -> wr_cur w1 = wr_cur w -> wr_end w1 = wr_end w ->
  let '(out, b) := flush_buffer xxh64_hash (mk_write_buffer mem1 w1 n) in
  exists mem', pages_hold xxh64_hash mem' (wr_begin w) (done ++ [cur]) /\
    wr_begin w + length (done ++ [cur]) * P <= length mem' /\
    out = read_at mem' (wr_begin w) (length (done ++ [cur]) * P) /\
    writer_rep xxh64_hash (wb_mem b) (wb_writer b) [] [] /\ wr_begin (wb_writer b) = wr_begin w.
Proof.
  intros Hrep Ec Hb Hcu He. pose proof (flush_spec _ _ _ _ n Hrep) as Hf.
  pose proof (commit_again _ _ _ _ (wr_enc _ _ _ _ _ Hrep) _ _ Ec) as Hagain.
  unfold flush_buffer, force_commit in *. cbn [wb_mem wb_writer wb_indexed_kvs] in *. rewrite Ec in Hf.
  assert (enc_cfg (_commit xxh64_hash mem1 (wr_encoder w1)).2 = enc_cfg (wr_encoder w1)) as Hcfg.
  { unfold _commit. by destruct (_write_unsafe (le_encode 4 _) _). }
  destruct (_commit xxh64_hash mem1 (wr_encoder w1)) as [m2 e2]. cbn [fst snd] in *. subst m2.
  destruct Hf as (mem' & H1 & H2 & H3 & H4 & H5). exists mem'. rewrite Hb, Hcu, He.
  unfold writer_bytes_written, writer_reset, encoder_reset in *. cbn [wr_begin wr_cur wr_end wr_encoder] in *.
  rewrite Hcfg. done.
Qed.

Lemma write_kv_spec iw fchunks done cur x :
  index_rep iw fchunks done cur -> key_ok x.1 -> entry_fits x ->
  exists iw' fchunks' done' cur', write_kv iw x = Ok iw' /\ index_rep iw' fchunks' done' cur' /\
    index_items fchunks' done' cur' = index_items fchunks done cur ++ [x] /\ cur' <> [].
Proof.
  intros [I1 I2 I3 I4 I5 I6] Hk Hfit. pose proof (writer_push_spec _ _ _ _ _ I1 x Hk) as Hp.
  unfold write_kv, write_item.
  destruct Hp as (s & m1 & w1 & called & -> & Hl1 & _ & Hb1 & He1 & Hcs). cbn [mbind option_bind].
  destruct Hcs as [(-> & -> & Hr)|[(-> & -> & Hne & Hr)|[-> Hfull]]].
  - eexists _, fchunks, done, (cur ++ [x]). split; [reflexivity|]. split_ands.
    + split; cbn [iw_buf iw_file iw_meta wb_mem wb_writer]; try done; [congruence|by rewrite app_nil_r].
    + unfold index_items. by rewrite app_assoc.
    + by destruct cur.
  - eexists _, fchunks, (done ++ [cur]), [x]. split; [reflexivity|]. split_ands; [|unfold index_items|done].
    + split; cbn [iw_buf iw_file iw_meta wb_mem wb_writer]; try done; [congruence|].
      by rewrite I6, (app_assoc fchunks), !fmap_app.
    + rewrite app_assoc, concat_app. simpl. by rewrite app_nil_r.
  - destruct (Hfull Hfit) as (Hend & -> & Hne & _ & Hc & Hcu).
    pose proof (flush_full_spec _ _ _ _ _ _ (wb_indexed_kvs (iw_buf iw)) I1 Hc Hb1 Hcu He1) as Hfl.
    destruct (flush_buffer xxh64_hash (mk_write_buffer m1 w1 (wb_indexed_kvs (iw_buf iw)))) as [out b].
    destruct Hfl as (mem' & F1 & F2 & F3 & F4 & F5). rewrite I2 in F1, F2, F3, F5.
    pose proof (writer_push_spec _ _ _ _ _ F4 x Hk) as Hp2.
    destruct Hp2 as (s2 & m2 & w2 & called2 & Ep2 & Hp2). rewrite Ep2. cbn [mbind option_bind].
    assert (index_rep (mk_index_writer (mk_write_buffer (wb_mem b) (wb_writer b) (wb_indexed_kvs b))
      (iw_file iw ++ out) (iw_meta iw ++ [last_key [] cur])) (fchunks ++ done ++ [cur]) [] []) as Hrep2.
    { split; cbn [iw_buf iw_file iw_meta wb_mem wb_writer]; try done.
      - rewrite F3. by apply pages_hold_append.
      - rewrite F3, length_app, length_read_at, I4, (length_app fchunks) by lia. lia.
      - apply Forall_app. split; [done|]. apply Forall_app. split; [apply I1|by apply Forall_singleton].
      - rewrite I6, app_nil_r, app_assoc, !fmap_app. done. }
    destruct Hrep2 as [J1 J2 J3 J4 J5 J6]. cbn [iw_buf iw_file iw_meta wb_mem wb_writer] in *.
    destruct Hp2 as (_ & _ & Hb2 & _ & [(-> & -> & Hr)|[(_ & _ & Hne2 & _)|[_ Hfull2]]]);
      [|done|by destruct (Hfull2 Hfit) as (_ & _ & Hne2 & _)].
    eexists _, (fchunks ++ done ++ [cur]), [], [x]. split; [reflexivity|]. split_ands; [|unfold index_items|done].
    + split; cbn [iw_buf iw_file iw_meta wb_mem wb_writer]; try done. congruence.
    + rewrite app_nil_r, app_assoc, concat_app. simpl. by rewrite app_nil_r.
Qed.

Definition kv_fits (x : kv) : Prop := key_ok x.1 /\ entry_fits x.

Lemma write_kvs_spec iw fchunks done cur l :
  index_rep iw fchunks done cur -> Forall kv_fits l ->
  exists iw' fchunks' done' cur', write_kvs iw l = Ok iw' /\ index_rep iw' fchunks' done' cur' /\
    index_items fchunks' done' cur' = index_items fchunks done cur ++ l /\
    (cur' = [] -> cur = [] /\ l = []).
Proof.
  revert iw fchunks done cur. induction l as [|x l IH]; intros iw fchunks done cur Hrep Hl.
  { exists iw, fchunks, done, cur. rewrite app_nil_r. split_ands; try done; by intros ->. }
  apply Forall_cons in Hl as [[Hk Hf] Hl].
  destruct (write_kv_spec _ _ _ _ _ Hrep Hk Hf) as (iw1 & fc1 & d1 & c1 & E1 & R1 & It1 & N1).
  destruct (IH _ _ _ _ R1 Hl) as (iw2 & fc2 & d2 & c2 & E2 & R2 & It2 & N2).
  exists iw2, fc2, d2, c2. cbn [write_kvs]. rewrite E1. cbn [mbind expected_bind]. split_ands; try done.
  - by rewrite It2, It1, <- app_assoc.
  - intros ->. destruct (N2 eq_refl) as [-> _]. done.
Qed.

(** ** What an SST holds *)

(** The index pages of the file hold the entries [items]: page by page,
    no page empty, with the last key of each page in the meta index. *)
Record sst_rep (file : bytes) (meta : list bytes) (items : list kv) : Prop := {
  sr_chunks : exists chunks, concat chunks = items /\ pages_hold xxh64_hash file 0 chunks /\
    Forall (fun c => c <> []) chunks /\ length file = length chunks * P /\ meta = last_key [] <$> chunks;
}.

Lemma finish_index_spec iw fchunks done cur :
  index_rep iw fchunks done cur -> (cur = [] -> fchunks = [] /\ done = []) ->
  sst_rep (iw_file (finish_index iw)) (iw_meta (finish_index iw))
    (index_items fchunks done cur).
Proof.
  intros [I1 I2 I3 I4 I5 I6] Hcur. unfold finish_index, writer_empty. split.
  rewrite (er_count _ _ _ (wr_enc _ _ _ _ _ I1)), (wr_cur_pos _ _ _ _ _ I1), I2.
  destruct (decide (cur = [])) as [Hc|Hc].
  - destruct (Hcur Hc) as [-> ->]. subst cur. cbn [length Nat.mul Nat.add Nat.eqb andb].
    exists []. split_ands; try done.
  - rewrite (proj2 (Nat.eqb_neq (length cur) 0)) by (by destruct cur). rewrite andb_false_r.
    assert (iw_buf iw = mk_write_buffer (wb_mem (iw_buf iw)) (wb_writer (iw_buf iw)) (wb_indexed_kvs (iw_buf iw)))
      as Eb by (by destruct (iw_buf iw)).
    pose proof (flush_spec _ _ _ _ (wb_indexed_kvs (iw_buf iw)) I1) as Hf. rewrite <- Eb in Hf.
    destruct (flush_buffer xxh64_hash (iw_buf iw)) as [out b].
    destruct Hf as (mem' & F1 & F2 & F3 & _). rewrite I2 in F1, F2, F3. cbn [iw_file iw_meta].
    exists (fchunks ++ done ++ [cur]). split_ands.
    + unfold index_items. rewrite app_assoc, concat_app. simpl. by rewrite app_nil_r.
    + rewrite F3. by apply pages_hold_append.
    + apply Forall_app. split; [done|]. apply Forall_app. split; [apply I1|by apply Forall_singleton].
    + rewrite F3, length_app, length_read_at, I4, (length_app fchunks) by lia. lia.
    + rewrite I6, (er_last _ _ _ (wr_enc _ _ _ _ _ I1)), app_assoc, !fmap_app. done.
Qed.

(** Writing items and finishing yields an SST that holds them. *)
Lemma write_sst_spec n l :
  0 < n -> Forall kv_fits l ->
  exists iw, write_kvs (make_index_writer n) l = Ok iw /\
    sst_rep (iw_file (finish_index iw)) (iw_meta (finish_index iw)) l.
Proof.
  intros Hn Hl. destruct (write_kvs_spec _ _ _ _ l (make_index_writer_rep n Hn) Hl)
    as (iw & fc & d & c & E & R & It & Nil). exists iw. split; [done|].
  cbn in It. rewrite <- It. apply finish_index_spec; [done|]. intros Hc.
  destruct (Nil Hc) as [_ ->]. subst c. unfold index_items in It. rewrite app_nil_r in It.
  pose proof (ix_nonempty _ _ _ _ R) as N1. pose proof (wr_nonempty _ _ _ _ _ (ix_writer _ _ _ _ R)) as N2.
  destruct fc as [|c1 fc]; [|apply Forall_cons in N1 as [N1 _]; by destruct c1].
  destruct d as [|c1 d]; [done|apply Forall_cons in N2 as [N2 _]; by destruct c1].
Qed.
End sst.

(** ** Searching the meta index *)

Definition meta_sorted (meta : list bytes) : Prop := StronglySorted Lex.lt meta.

Lemma meta_sorted_lookup meta i j x y :
  meta_sorted meta -> meta !! i = Some x -> meta !! j = Some y -> i <= j -> Lex.le x y.
Proof.
  intros H. revert i j. induction H as [|z l Hs IH Hf]; intros [|i] [|j]; simpl; try done; intros Hi Hj Hij.
  - simplify_eq. apply Lex.le_refl.
  - injection Hi as ->. rewrite Forall_lookup in Hf. apply Lex.lt_le. exact (Hf _ _ Hj).
  - lia.
  - eapply IH; eauto. lia.
Qed.

Lemma meta_prefix meta key : meta_sorted meta -> prefix_pred meta (fun k => Lex.ltb k key).
Proof.
  intros Hs i j x y Hij Hx Hy Hlt. apply Lex.ltb_lt in Hlt. apply Lex.ltb_lt.
  eapply Lex.le_lt_trans; [|exact Hlt]. by eapply meta_sorted_lookup.
Qed.

Section super.
Context (epp : nat) (Hepp : 0 < epp) (meta : list bytes) (Hs : meta_sorted meta).
Local Abbreviation super := (create_super_index epp meta).
Local Abbreviation n := (length meta).

Lemma length_super : length super = ceil_div n epp.
Proof. unfold create_super_index. by rewrite length_fmap, length_seq. Qed.

Lemma ceil_div_spec a b : 0 < b -> ceil_div a b * b < a + b /\ a <= ceil_div a b * b.
Proof.
  intros Hb. unfold ceil_div. pose proof (Nat.div_mod (a + b - 1) b ltac:(lia)).
  pose proof (Nat.mod_upper_bound (a + b - 1) b ltac:(lia)). nia.
Qed.

Lemma lookup_super i :
  i < length super ->
  exists k, super !! i = Some k /\ meta !! Nat.min ((i + 1) * epp - 1) (n - 1) = Some k.
Proof.
  intros Hi. rewrite length_super in Hi. pose proof (ceil_div_spec n epp Hepp) as [H1 H2].
  destruct (lookup_lt_is_Some_2 meta (Nat.min ((i + 1) * epp - 1) (n - 1))) as [k Hk].
  { assert (0 < n) by nia. lia. }
  exists k. split; [|done]. unfold create_super_index.
  rewrite list_lookup_fmap, lookup_seq_lt by done. cbn. by rewrite Hk.
Qed.

Lemma super_prefix key : prefix_pred super (fun k => Lex.ltb k key).
Proof.
  intros i j x y Hij Hx Hy Hlt.
  destruct (lookup_super i) as (x' & Hx' & Hmx); [by eapply lookup_lt_Some|].
  destruct (lookup_super j) as (y' & Hy' & Hmy); [by eapply lookup_lt_Some|].
  simplify_eq. eapply (meta_prefix meta key Hs); [|exact Hmx|exact Hmy|done]. nia.
Qed.

(** The slice of the meta index one super index entry stands for. *)
Lemma slice_lower_bound key first count r :
  first + count <= n -> r = lower_bound (fun k => Lex.ltb k key) meta ->
  first <= r <= first + count ->
  first + lower_bound (fun k => Lex.ltb k key) (read_at meta first count) = r.
Proof.
  intros Hfc Hr Hin. destruct (lower_bound_spec meta _ (meta_prefix meta key Hs)) as (_ & Hlo & Hhi).
  rewrite <- Hr in Hlo, Hhi. rewrite (lower_bound_unique _ _ (r - first)).
  - lia.
  - intros i j x y Hij Hx Hy Hlt. rewrite lookup_read_at in Hx, Hy.
    do 2 (case_decide; [|done]). eapply (meta_prefix meta key Hs); [|exact Hx|exact Hy|done]. lia.
  - rewrite length_read_at by done. lia.
  - intros i x Hi Hx. rewrite lookup_read_at in Hx. case_decide; [|done]. eapply (Hlo (first + i)); [lia|done].
  - intros i x Hi Hx. rewrite lookup_read_at in Hx. case_decide; [|done]. eapply (Hhi (first + i)); [lia|done].
Qed.

Lemma find_page_id_super key :
  _find_page_id epp meta (Some super) key = _find_page_id epp meta None key.
Proof.
  destruct (lower_bound_spec meta _ (meta_prefix meta key Hs)) as (Hr & Hlo & Hhi).
  destruct (lower_bound_spec super _ (super_prefix key)) as (Hps & Hslo & Hshi).
  unfold _find_page_id. set (r := lower_bound (fun k => Lex.ltb k key) meta) in *.
  set (page := lower_bound (fun k => Lex.ltb k key) super) in *.
  pose proof (ceil_div_spec n epp Hepp) as [Hc1 Hc2]. rewrite <- length_super in Hc1, Hc2.
  destruct (Nat.eqb_spec page (length super)) as [Hend|Hend].
  - destruct (decide (n = 0)) as [Hn0|Hn0].
    { by rewrite (proj2 (Nat.eqb_eq r n)) by lia. }
    assert (0 < length super) as Hpos by nia.
    destruct (lookup_super (length super - 1)) as (k & Hk & Hm); [lia|].
    pose proof (Hslo (length super - 1) k ltac:(lia) Hk) as Hl. rewrite (proj2 (Nat.eqb_eq r n)); [done|].
    destruct (decide (r = n)) as [|Hne]; [done|]. replace (Nat.min _ _) with (n - 1) in Hm by nia.
    pose proof (Hhi (n - 1) k ltac:(lia) Hm) as Hh. cbv beta in Hl, Hh. congruence.
  - assert (page < length super) as Hpl by lia.
    destruct (lookup_super page Hpl) as (k & Hk & Hm). pose proof (Hshi page k ltac:(lia) Hk) as Hge.
    assert (r <= Nat.min ((page + 1) * epp - 1) (n - 1)) as Hup.
    { destruct (decide (r <= Nat.min ((page + 1) * epp - 1) (n - 1))) as [|Hno]; [done|].
      pose proof (Hlo _ k (proj1 (Nat.nle_gt _ _) Hno) Hm) as Hc. cbv beta in *. congruence. }
    assert (page * epp <= r) as Hdown.
    { destruct page as [|p] eqn:Epage; [lia|].
      destruct (lookup_super p) as (k' & Hk' & Hm'); [lia|].
      pose proof (Hslo p k' ltac:(lia) Hk') as Hl. replace (Nat.min _ _) with ((p + 1) * epp - 1) in Hm' by nia.
      destruct (decide (S p * epp <= r)) as [|Hno]; [done|].
      pose proof (Hhi ((p + 1) * epp - 1) k' ltac:(nia) Hm') as Hc. cbv beta in *. congruence. }
    set (count := if (page =? length super - 1) && negb (n mod epp =? 0) then n mod epp else epp).
    assert (page * epp + count <= n /\ r <= page * epp + count) as [Hc Hrc].
    { unfold count. pose proof (Nat.div_mod n epp ltac:(lia)) as Hdm.
      pose proof (Nat.mod_upper_bound n epp ltac:(lia)) as Hmu.
      destruct (Nat.eqb_spec page (length super - 1)) as [Hlast|Hnl]; cbn [andb]; [|nia].
      set (q := n / epp) in *. set (m := n mod epp) in *.
      destruct (Nat.eqb_spec m 0) as [Hz|Hz]; cbn [negb].
      - assert (length super < q + 1) by (apply (Nat.mul_lt_mono_pos_r epp); lia).
        assert (q <= length super) by (apply (Nat.mul_le_mono_pos_r _ _ epp); lia).
        assert (page = q - 1 /\ 0 < q) as [-> Hq] by lia. nia.
      - assert (length super < q + 2) by (apply (Nat.mul_lt_mono_pos_r epp); lia).
        assert (q < length super) by (apply (Nat.mul_lt_mono_pos_r epp); lia).
        assert (page = q) as -> by lia. nia. }
    rewrite (slice_lower_bound key _ count r Hc eq_refl) by lia. done.
Qed.
End super.

(** ** Pages and keys *)

Lemma last_key_elem c : c <> [] -> exists v, (last_key [] c, v) ∈ c.
Proof.
  intros Hc. unfold last_key. destruct (last c) as [[k v]|] eqn:E.
  - exists v. cbn. apply last_Some in E as [c' ->]. set_solver.
  - by apply last_None in E.
Qed.

Section chunks.
Context (chunks : list (list kv)).
Context (Hne : Forall (fun c => c <> []) chunks) (Hsorted : sorted_kvs (concat chunks)).
Local Abbreviation meta := (last_key [] <$> chunks).

Lemma chunk_split i c : chunks !! i = Some c ->
  concat chunks = concat (take i chunks) ++ c ++ concat (drop (S i) chunks).
Proof.
  intros Hi. rewrite <- (take_drop_middle chunks i c Hi) at 1. by rewrite concat_app.
Qed.

Lemma chunk_last_ge i c x : chunks !! i = Some c -> x ∈ c -> Lex.le x.1 (last_key [] c).
Proof.
  intros Hi Hx. assert (sorted_kvs c) as Hs.
  { unfold sorted_kvs in *. rewrite (chunk_split i c Hi) in Hsorted.
    by apply StronglySorted_app_1_r, StronglySorted_app_1_l in Hsorted. }
  unfold last_key. destruct (last c) as [y|] eqn:E.
  - cbn. apply last_Some in E as [c' ->]. apply elem_of_app in Hx as [Hx|Hx].
    + apply Lex.lt_le. eapply (StronglySorted_app_1_elem_of _ _ _ x y Hs); set_solver.
    + apply list_elem_of_singleton in Hx as ->. apply Lex.le_refl.
  - apply last_None in E as ->. by apply not_elem_of_nil in Hx.
Qed.

(** Entries of an earlier page are smaller. *)
Lemma chunk_order i j c d x y :
  chunks !! i = Some c -> chunks !! j = Some d -> i < j -> x ∈ c -> y ∈ d -> Lex.lt x.1 y.1.
Proof.
  intros Hi Hj Hij Hx Hy. unfold sorted_kvs in Hsorted. rewrite (chunk_split i c Hi), app_assoc in Hsorted.
  eapply (StronglySorted_app_1_elem_of _ _ _ x y Hsorted).
  - set_solver.
  - apply list_elem_of_In, in_concat. exists d. split; [|by apply list_elem_of_In].
    apply list_elem_of_In, list_elem_of_lookup. exists (j - S i). rewrite lookup_drop. rewrite <- Hj. f_equal. lia.
Qed.

Lemma lookup_meta i k : meta !! i = Some k <-> exists c, chunks !! i = Some c /\ k = last_key [] c.
Proof. rewrite list_lookup_fmap. destruct (chunks !! i); cbn; naive_solver. Qed.

Lemma chunks_meta_sorted : meta_sorted meta.
Proof.
  assert (forall i j x y, meta !! i = Some x -> meta !! j = Some y -> i < j -> Lex.lt x y) as H.
  { intros i j x y Hx Hy Hij. apply lookup_meta in Hx as (c & Hc & ->), Hy as (d & Hd & ->).
    pose proof (proj1 (Forall_lookup _ _) Hne) as Hne'.
    destruct (last_key_elem c (Hne' _ _ Hc)) as [v Hv], (last_key_elem d (Hne' _ _ Hd)) as [v' Hv'].
    exact (chunk_order i j c d _ _ Hc Hd Hij Hv Hv'). }
  unfold meta_sorted. revert H. generalize meta. clear. intros l H.
  induction l as [|x l IH]; constructor.
  - apply IH. intros i j a b Ha Hb Hij. eapply (H (S i) (S j)); eauto. lia.
  - apply Forall_lookup. intros i y Hy. eapply (H 0 (S i)); eauto. lia.
Qed.

Lemma elem_chunk x : x ∈ concat chunks <-> exists i c, chunks !! i = Some c /\ x ∈ c.
Proof.
  rewrite list_elem_of_In, in_concat. split.
  - intros (c & Hc & Hx). apply list_elem_of_In in Hc, Hx. apply list_elem_of_lookup in Hc as [i Hi]. eauto.
  - intros (i & c & Hi & Hx). exists c. split; [|by apply list_elem_of_In].
    apply list_elem_of_In, list_elem_of_lookup. eauto.
Qed.

(** The page found for a key is the only one that can hold it; with no
    page found the key is larger than every entry. *)
Lemma find_page_spec epp super key :
  0 < epp -> super = None \/ super = Some (create_super_index epp meta) ->
  match _find_page_id epp meta super key with
  | None => forall x, x ∈ concat chunks -> Lex.lt x.1 key
  | Some p => exists c, chunks !! p = Some c /\
      (forall i d x, chunks !! i = Some d -> x ∈ d -> i < p -> Lex.lt x.1 key) /\
      (forall i d x, chunks !! i = Some d -> x ∈ d -> p < i -> Lex.lt key x.1)
  end.
Proof.
  intros Hepp Hsup.
  assert (_find_page_id epp meta super key = _find_page_id epp meta None key) as ->.
  { destruct Hsup as [->| ->]; [done|]. apply find_page_id_super; [done|apply chunks_meta_sorted]. }
  unfold _find_page_id.
  destruct (lower_bound_spec meta _ (meta_prefix meta key chunks_meta_sorted)) as (Hr & Hlo & Hhi).
  set (r := lower_bound _ meta) in *.
  assert (forall i d x, chunks !! i = Some d -> x ∈ d -> i < r -> Lex.lt x.1 key) as Hbefore.
  { intros i d x Hd Hx Hi. eapply Lex.le_lt_trans; [by eapply chunk_last_ge|].
    apply Lex.ltb_lt. eapply (Hlo i); [done|]. apply lookup_meta. eauto. }
  destruct (Nat.eqb_spec r (length meta)) as [He|He].
  - intros x Hx. apply elem_chunk in Hx as (i & d & Hd & Hx). eapply Hbefore; eauto.
    rewrite He, length_fmap. by eapply lookup_lt_Some.
  - destruct (lookup_lt_is_Some_2 chunks r) as [c Hc]; [rewrite length_fmap in *; lia|].
    exists c. split_ands; [done|done|]. intros i d x Hd Hx Hi.
    destruct (last_key_elem c (proj1 (Forall_lookup _ _) Hne _ _ Hc)) as [v Hv].
    eapply Lex.le_lt_trans; [|exact (chunk_order r i c d _ _ Hc Hd Hi Hv Hx)].
    apply Lex.ltb_ge. eapply (Hhi r); [lia|]. apply lookup_meta. eauto.
Qed.

Lemma assoc_concat key p c :
  chunks !! p = Some c ->
  (forall i d x, chunks !! i = Some d -> x ∈ d -> i < p -> Lex.lt x.1 key) ->
  (forall i d x, chunks !! i = Some d -> x ∈ d -> p < i -> Lex.lt key x.1) ->
  assoc key (concat chunks) = assoc key c.
Proof.
  intros Hc Hb Ha. assert (sorted_kvs c) as Hsc.
  { unfold sorted_kvs in *. rewrite (chunk_split p c Hc) in Hsorted.
    by apply StronglySorted_app_1_r, StronglySorted_app_1_l in Hsorted. }
  apply option_eq. intros v. rewrite !assoc_elem by done. rewrite elem_chunk. split; [|eauto].
  intros (i & d & Hd & Hx). destruct (Nat.lt_trichotomy i p) as [Hlt|[->|Hgt]].
  - apply (Hb _ _ _ Hd) in Hx; [|done]. by apply Lex.lt_irrefl in Hx.
  - by simplify_eq.
  - apply (Ha _ _ _ Hd) in Hx; [|done]. by apply Lex.lt_irrefl in Hx.
Qed.
End chunks.

Section lookup.
Context (xxh64_hash : bytes -> Z -> Z) (file : bytes) (meta : list bytes) (items : list kv).
Context (Hrep : sst_rep xxh64_hash file meta items) (Hsorted : sorted_kvs items).
Context (Hkeys : Forall (fun x => 1 <= length x.1 < MAX_KEY_LEN) items).

(** What a lookup promises for a stored value: an empty one counts as
    absent. *)
Definition lookup_spec (v : option bytes) : expected value_t :=
  match v with
  | None | Some [] => Err (mk_error "" KEY_NOT_FOUND)
  | Some v => value_from_span v
  end.

Lemma page_groups mem b c : page_holds xxh64_hash mem default_block_config b c ->
  ngroups (restart_group_size default_block_config) (length c) <= MAX_OFFSETS.
Proof. intros H%ph_fits. apply default_groups. unfold page_used. lia. Qed.

Lemma find_in_page_spec page c key :
  page_holds xxh64_hash page default_block_config 0 c -> sorted_kvs c ->
  Forall (fun x => 1 <= length x.1 < MAX_KEY_LEN) c ->
  _find_in_page xxh64_hash page key = Some (lookup_spec (assoc key c)).
Proof.
  intros Hp Hs Hk. destruct (short_keys_ok c Hk) as [_ Hshort]. unfold _find_in_page.
  rewrite (page_sanity _ _ _ _ _ Hp). cbn [ok].
  destruct (page_find _ _ _ _ _ Hp Hshort Hs key (page_groups _ _ _ Hp)) as (r & -> & Hf). cbn [mbind option_bind].
  unfold found in Hf. destruct r as [ref|], (assoc key c) as [v|]; try done.
  destruct Hf as [-> _]. by destruct v.
Qed.

Lemma sst_lookup_spec super key :
  super = None \/ super = Some (create_super_index KEYS_PER_META_INDEX_PAGE meta) ->
  sst_lookup xxh64_hash file meta super key = Some (lookup_spec (assoc key items)).
Proof.
  intros Hsup. destruct (sr_chunks _ _ _ _ Hrep) as (chunks & Hcat & Hpages & Hne & Hlen & Hmeta).
  subst items meta. unfold sst_lookup.
  pose proof (find_page_spec chunks Hne Hsorted KEYS_PER_META_INDEX_PAGE super key ltac:(vm_compute; lia) Hsup) as Hf.
  destruct (_find_page_id _ _ super key) as [p|].
  - destruct Hf as (c & Hc & Hb & Ha). rewrite (assoc_concat chunks Hsorted key p c Hc Hb Ha).
    pose proof (chunk_split chunks p c Hc) as Hsplit. unfold sorted_kvs in Hsorted. rewrite Hsplit in Hsorted, Hkeys.
    apply find_in_page_spec.
    + eapply page_holds_move; [| |exact (Hpages p c Hc)].
      * rewrite Nat.add_0_l. unfold read_at. by rewrite drop_0, take_take, Nat.min_id.
      * apply lookup_lt_Some in Hc. rewrite length_read_at; [lia|].
        unfold PAGE_SIZE_IN_BYTES, KiB in *. nia.
    + by apply StronglySorted_app_1_r, StronglySorted_app_1_l in Hsorted.
    + by apply Forall_app in Hkeys as [_ Hkeys2]; apply Forall_app in Hkeys2 as [Hkeys2 _].
  - rewrite assoc_None; [done|]. intros i x Hx Hk. rewrite <- Hk in Hf.
    apply list_elem_of_lookup_2 in Hx. by apply Hf, Lex.lt_irrefl in Hx.
Qed.
End lookup.

(** ** Properties *)

(** C17: an SST answers exactly for what was written to it. Writing
    strictly increasing entries that each fit a page, through a buffer of
    any number of pages and however many flushes that takes, succeeds;
    the resulting index pages and meta index, searched with or without a
    super index, then give for every key the parsed value that was
    written, and KEY_NOT_FOUND for every key that was not. *)
Theorem sst_write_lookup (xxh64_hash : bytes -> Z -> Z) (n : nat) (items : list kv) (key : bytes)
    (Hn : 0 < n) (Hsorted : sorted_kvs items)
    (Hkeys : Forall (fun x => 1 <= length x.1 < MAX_KEY_LEN) items)
    (Hfits : Forall entry_fits items) :
  exists iw, write_kvs xxh64_hash (make_index_writer n) items = Ok iw /\
    let sst := finish_index xxh64_hash iw in
    forall super, super = None \/ super = Some (create_super_index KEYS_PER_META_INDEX_PAGE (iw_meta sst)) ->
      sst_lookup xxh64_hash (iw_file sst) (iw_meta sst) super key = Some (lookup_spec (assoc key items)).
Proof.
  destruct (short_keys_ok items Hkeys) as [Hok _].
  destruct (write_sst_spec xxh64_hash n items Hn) as (iw & Hw & Hrep).
  { apply Forall_forall. intros x Hx. rewrite Forall_forall in Hok, Hfits. split; auto. }
  exists iw. split; [done|]. intros super Hsup. by apply sst_lookup_spec.
Qed.

Lemma sst_write_lookup_witness :
  exists iw, write_kvs (fun bs s => s) (make_index_writer 1)
      [([1], [1; 7]); ([1; 2], [2])]%Z = Ok iw /\
    sst_lookup (fun bs s => s) (iw_file (finish_index (fun bs s => s) iw))
      (iw_meta (finish_index (fun bs s => s) iw)) None [1]%Z = Some (Ok (VBytes [7]%Z)).
Proof.
  destruct (sst_write_lookup (fun bs s => s) 1 [([1], [1; 7]); ([1; 2], [2])]%Z [1]%Z) as (iw & H1 & H2).
  - lia.
  - repeat constructor.
  - repeat constructor; simpl; unfold MAX_KEY_LEN; lia.
  - repeat constructor; apply Nat.leb_le; vm_compute; reflexivity.
  - exists iw. split; [exact H1|]. exact (H2 None (or_introl eq_refl)).
Defined.

(** The super index only narrows the search. On a sorted meta index
    the two-level search returns the same page as the search of the whole
    meta index. *)
Theorem super_index_equivalent (entries_per_page : nat) (meta : list bytes) (key : bytes)
    (Hpos : 0 < entries_per_page) (Hsorted : meta_sorted meta) :
  _find_page_id entries_per_page meta (Some (create_super_index entries_per_page meta)) key =
  _find_page_id entries_per_page meta None key.
Proof. by apply find_page_id_super. Qed.

Lemma super_index_witness :
  _find_page_id 2 [[1]; [3]; [5]; [7]; [9]]%Z (Some (create_super_index 2 [[1]; [3]; [5]; [7]; [9]]%Z)) [6]%Z =
  _find_page_id 2 [[1]; [3]; [5]; [7]; [9]]%Z None [6]%Z.
Proof.
  refine (super_index_equivalent 2 [[1]; [3]; [5]; [7]; [9]]%Z [6]%Z ltac:(lia) _). repeat constructor.
Defined.

(** The page range of a scan covers every entry between the bounds. *)
Lemma find_range_spec (chunks : list (list kv)) (entries_per_page : nat)
    (super : option (list bytes)) (lower upper : option bytes)
    (Hne : Forall (fun c => c <> []) chunks) (Hsorted : sorted_kvs (concat chunks))
    (Hpos : 0 < entries_per_page)
    (Hsuper : super = None \/ super = Some (create_super_index entries_per_page (last_key [] <$> chunks))) :
  match find_range entries_per_page (last_key [] <$> chunks) super lower upper with
  | None => exists l, lower = Some l /\ forall x, x ∈ concat chunks -> Lex.lt x.1 l
  | Some (first, last) => forall i c x, chunks !! i = Some c -> x ∈ c ->
      (forall l, lower = Some l -> Lex.le l x.1) -> (forall u, upper = Some u -> Lex.le x.1 u) ->
      first <= i <= last
  end.
Proof.
  unfold find_range. set (meta := last_key [] <$> chunks).
  set (last := match upper with None => _ | Some u => _ end).
  assert (forall i c x, chunks !! i = Some c -> x ∈ c -> (forall u, upper = Some u -> Lex.le x.1 u) -> i <= last) as Hlast.
  { intros i c x Hi Hx Hu. pose proof (lookup_lt_Some _ _ _ Hi) as Hlt. unfold last.
    assert (i <= length meta - 1) as Hdef by (unfold meta; rewrite length_fmap; lia).
    destruct upper as [u|]; [|done].
    pose proof (find_page_spec chunks Hne Hsorted entries_per_page super u Hpos Hsuper) as Hf. fold meta in Hf.
    destruct (_find_page_id entries_per_page meta super u) as [p|]; [|done]. cbn.
    destruct Hf as (d & Hd & _ & Ha). destruct (decide (i <= p)) as [|Hno]; [done|].
    destruct (Lex.lt_not_le _ _ (Ha i c x Hi Hx ltac:(lia))). by apply Hu. }
  destruct lower as [l|]; cbn [mbind option_bind].
  - pose proof (find_page_spec chunks Hne Hsorted entries_per_page super l Hpos Hsuper) as Hf. fold meta in Hf.
    destruct (_find_page_id entries_per_page meta super l) as [p|]; [|by exists l].
    destruct Hf as (d & Hd & Hb & _). intros i c x Hi Hx Hl Hu. split; [|by eapply Hlast].
    destruct (decide (p <= i)) as [|Hno]; [done|].
    destruct (Lex.lt_not_le _ _ (Hb i c x Hi Hx ltac:(lia))). by apply Hl.
  - intros i c x Hi Hx _ Hu. split; [lia|]. by eapply Hlast.
Qed.

(** The page range of a scan misses nothing. Every entry between
    the bounds lies on a page of the range [find_range] returns, and when
    it returns none every entry is below the lower bound. *)
Theorem find_range_covers (chunks : list (list kv)) (entries_per_page : nat)
    (super : option (list bytes)) (lower upper : option bytes)
    (Hne : Forall (fun c => c <> []) chunks) (Hsorted : sorted_kvs (concat chunks))
    (Hpos : 0 < entries_per_page)
    (Hsuper : super = None \/ super = Some (create_super_index entries_per_page (last_key [] <$> chunks))) :
  match find_range entries_per_page (last_key [] <$> chunks) super lower upper with
  | None => exists l, lower = Some l /\ forall x, x ∈ concat chunks -> Lex.lt x.1 l
  | Some (first, last) => forall i c x, chunks !! i = Some c -> x ∈ c ->
      (forall l, lower = Some l -> Lex.le l x.1) -> (forall u, upper = Some u -> Lex.le x.1 u) ->
      first <= i <= last
  end.
Proof. by apply find_range_spec. Qed.

Lemma find_range_witness :
  exists first last,
    find_range 2 (last_key [] <$> [[([1], [1]); ([2], [1])]; [([4], [1])]]%Z) None (Some [2]%Z) (Some [3]%Z)
      = Some (first, last) /\ first <= 0 <= last.
Proof.
  pose proof (find_range_covers [[([1], [1]); ([2], [1])]; [([4], [1])]]%Z 2 None (Some [2]%Z) (Some [3]%Z)) as H.
  destruct (find_range 2 _ None (Some [2]%Z) (Some [3]%Z)) as [[first last]|] eqn:E.
  - exists first, last. split; [done|].
    apply (H ltac:(repeat constructor; done) ltac:(repeat constructor) ltac:(lia) (or_introl eq_refl)
      0 [([1], [1]); ([2], [1])]%Z ([2], [1])%Z eq_refl).
    + apply elem_of_cons. right. by apply list_elem_of_singleton.
    + intros l [= <-]. vm_compute. discriminate.
    + intros u [= <-]. vm_compute. discriminate.
  - vm_compute in E. discriminate E.
Defined.

(** Reading keys back from their serialised form, with anything behind. *)
Lemma read_meta_index_spec metas rest :
  Forall key_ok metas ->
  read_meta_index (length metas) (foldl append_meta_index_key [] metas ++ rest) = metas.
Proof.
  assert (forall acc, foldl append_meta_index_key acc metas = acc ++ concat (write_key <$> metas)) as Hfold.
  { induction metas as [|k metas IH]; intros acc; cbn [foldl]; [by rewrite app_nil_r|].
    rewrite IH. unfold append_meta_index_key. by rewrite <- app_assoc. }
  rewrite Hfold, app_nil_l. clear Hfold. induction 1 as [|k metas Hk _ IH]; [done|].
  rewrite fmap_cons. cbn [concat length read_meta_index]. rewrite <- app_assoc.
  rewrite read_write_key by done. f_equal. rewrite <- (length_write_key k), drop_app_length. exact IH.
Qed.

(** The meta index survives a restart. The keys appended page by
    page and padded to a page boundary are read back unchanged, for keys
    of any legal length. *)
Theorem meta_index_roundtrip (metas : list bytes) (padding : bytes)
    (Hkeys : Forall (fun k => MIN_KEY_LEN <= length k <= MAX_KEY_LEN) metas) :
  read_meta_index (length metas) (foldl append_meta_index_key [] metas ++ padding) = metas.
Proof. by apply read_meta_index_spec. Qed.

Lemma meta_index_roundtrip_witness :
  read_meta_index 2 (foldl append_meta_index_key [] [[1; 2]; [3]]%Z ++ [0; 0]%Z) = [[1; 2]; [3]]%Z.
Proof.
  refine (meta_index_roundtrip [[1; 2]; [3]]%Z [0; 0]%Z _).
  repeat constructor; simpl; unfold MAX_KEY_LEN; lia.
Defined.

(** The states an SST can be driven to. *)
Fixpoint drive (s : compaction_progress_state) (reqs : list compaction_progress_state)
    : option compaction_progress_state :=
  match reqs with
  | [] => Some s
  | r :: reqs => s ← set_compaction_state s r; drive s reqs
  end.

Definition state_rank (s : compaction_progress_state) : nat :=
  match s with
  | PICKABLE_FOR_COMPACTION => 0 | IN_COMPACTION => 1 | COMPACTED => 2 | COMPACTION_ERROR => 3
  end.

Lemma drive_rank s reqs s' : drive s reqs = Some s' -> state_rank s <= state_rank s'.
Proof.
  revert s. induction reqs as [|r reqs IH]; intros s; cbn; [by intros [= ->]|].
  destruct (set_compaction_state s r) as [s1|] eqn:E; [|done]. intros H. apply IH in H.
  etrans; [|exact H]. destruct s, r; vm_compute in E; simplify_eq; simpl; lia.
Qed.

(** Compaction states only move forward. Whatever requests are made,
    an SST that was taken for compaction is never pickable again, one
    whose compaction failed stays failed and absorbs every request, and
    an SST reaches COMPACTED only through IN_COMPACTION. *)
Theorem compaction_states_forward (s s' : compaction_progress_state) (reqs : list compaction_progress_state)
    (Hd : drive s reqs = Some s') :
  (s <> PICKABLE_FOR_COMPACTION -> pickable_for_compaction s' = false) /\
  (s = COMPACTION_ERROR -> s' = COMPACTION_ERROR) /\
  (forall r, set_compaction_state COMPACTION_ERROR r = Some COMPACTION_ERROR) /\
  set_compaction_state PICKABLE_FOR_COMPACTION COMPACTED = None.
Proof.
  apply drive_rank in Hd. split_ands; [| |done|done].
  - intros Hs. destruct s, s'; simpl in *; try done; lia.
  - intros ->. destruct s'; simpl in *; try done; lia.
Qed.

Lemma compaction_states_witness :
  drive IN_COMPACTION [COMPACTED; COMPACTION_ERROR; IN_COMPACTION] = Some COMPACTION_ERROR /\
  pickable_for_compaction COMPACTION_ERROR = false.
Proof.
  split; [reflexivity|].
  exact (proj1 (compaction_states_forward IN_COMPACTION COMPACTION_ERROR
    [COMPACTED; COMPACTION_ERROR; IN_COMPACTION] eq_refl) ltac:(discriminate)).
Defined.

(** ** Flushing a memtable range *)

(** Sorted as the skiplist keeps them: by key, newest version first. *)
Definition mt_lt (a b : memtable_entry) : Prop :=
  Lex.lt (mt_key a) (mt_key b) \/ (mt_key a = mt_key b /\ (mt_seq b < mt_seq a)%Z).

Lemma newest_versions_spec prev l :
  StronglySorted mt_lt l -> (forall k, prev = Some k -> Forall (fun e => Lex.le k (mt_key e)) l) ->
  let r := newest_versions prev l in
  StronglySorted (fun a b => Lex.lt (mt_key a) (mt_key b)) r /\
  (forall e, e ∈ r -> e ∈ l /\ prev <> Some (mt_key e) /\
     forall e', e' ∈ l -> mt_key e' = mt_key e -> (mt_seq e' <= mt_seq e)%Z) /\
  (forall e, e ∈ l -> prev = Some (mt_key e) \/ exists e', e' ∈ r /\ mt_key e' = mt_key e).
Proof.
  intros Hs. revert prev. induction Hs as [|x l Hs IH Hf]; intros prev Hp; cbn [newest_versions].
  { split_ands; [constructor| |]; intros e He; by apply not_elem_of_nil in He. }
  assert (Forall (fun e => Lex.le (mt_key x) (mt_key e)) l) as Hge.
  { eapply Forall_impl; [exact Hf|]. intros e [H|[-> _]]; auto with hedge. }
  case_bool_decide as Hd.
  - subst prev. destruct (IH (Some (mt_key x))) as (H1 & H2 & H3); [by intros k [= <-]|].
    split_ands; [done| |].
    + intros e He. destruct (H2 e He) as (Hin & Hnp & Hmax). split_ands; [set_solver|done|].
      intros e' He' Hk. apply elem_of_cons in He' as [->|He']; [by rewrite Hk in Hnp|]. by apply Hmax.
    + intros e He. apply elem_of_cons in He as [->|He]; [by left|]. by apply H3.
  - destruct (IH (Some (mt_key x))) as (H1 & H2 & H3); [by intros k [= <-]|]. split_ands.
    + constructor; [done|]. apply Forall_forall. intros e He. destruct (H2 e He) as (Hin & Hnp & _).
      rewrite Forall_forall in Hge. specialize (Hge e Hin). apply Lex.le_lteq in Hge as [|Heq]; [done|].
      by rewrite Heq in Hnp.
    + intros e He. apply elem_of_cons in He as [->|He].
      * split_ands; [set_solver|done|]. intros e' He' Hk.
        apply elem_of_cons in He' as [->|He']; [lia|]. rewrite Forall_forall in Hf.
        destruct (Hf e' He') as [Hlt|[_ Hlt]]; [|lia]. rewrite Hk in Hlt. by apply Lex.lt_irrefl in Hlt.
      * destruct (H2 e He) as (Hin & Hnp & Hmax). split_ands; [set_solver| |].
        -- intros Hpe. specialize (Hp _ Hpe). apply Forall_cons in Hp as [Hp _].
           rewrite Forall_forall in Hge. specialize (Hge e Hin).
           apply Lex.le_lteq in Hge as [Hlt|Heq]; [|by rewrite Heq in Hnp].
           by apply Lex.lt_not_le in Hlt.
        -- intros e' He' Hk. apply elem_of_cons in He' as [->|He']; [by rewrite Hk in Hnp|]. by apply Hmax.
    + intros e He. apply elem_of_cons in He as [->|He].
      * right. exists x. split; [set_solver|done].
      * destruct (H3 e He) as [[= Heq]|(e' & He' & Hk)].
        -- right. exists x. split; [set_solver|done].
        -- right. exists e'. split; [set_solver|done].
Qed.

Lemma mt_sorted_kvs r :
  StronglySorted (fun a b => Lex.lt (mt_key a) (mt_key b)) r ->
  sorted_kvs ((fun e => (mt_key e, mt_value e)) <$> r).
Proof.
  induction 1 as [|x r Hr IH Hf]; [constructor|]. cbn. constructor; [done|].
  apply Forall_fmap. eapply Forall_impl; [exact Hf|]. done.
Qed.

(** A flush writes the newest version of every key. From a range of
    memtable entries in skiplist order it keeps, in strictly increasing
    key order, exactly one entry per key, the one with the largest
    sequence number. *)
Theorem flush_keeps_newest (l : list memtable_entry) (Hs : StronglySorted mt_lt l) :
  let r := newest_versions None l in
  sorted_kvs ((fun e => (mt_key e, mt_value e)) <$> r) /\
  (forall e, e ∈ r -> e ∈ l /\ forall e', e' ∈ l -> mt_key e' = mt_key e -> (mt_seq e' <= mt_seq e)%Z) /\
  (forall e, e ∈ l -> exists e', e' ∈ r /\ mt_key e' = mt_key e).
Proof.
  destruct (newest_versions_spec None l Hs) as (H1 & H2 & H3); [done|]. cbv zeta. split_ands.
  - by apply mt_sorted_kvs.
  - intros e He. destruct (H2 e He) as (Hin & _ & Hmax). done.
  - intros e He. by destruct (H3 e He).
Qed.

Lemma flush_keeps_newest_witness :
  sorted_kvs ((fun e => (mt_key e, mt_value e)) <$>
    newest_versions None [mk_mt_entry [1] 5 [1]; mk_mt_entry [1] 2 [2]; mk_mt_entry [3] 4 [1]]%Z).
Proof.
  refine (proj1 (flush_keeps_newest [mk_mt_entry [1] 5 [1]; mk_mt_entry [1] 2 [2]; mk_mt_entry [3] 4 [1]]%Z _)).
  repeat constructor; unfold mt_lt; simpl; (by left) || (right; split; [done|lia]).
Defined.
