(* ===== verification/SstStream.v ===== *)
(** * Streams over SSTs (src/fs/file_reader2.h, src/fs/file_reader2.cc,
      src/db/merge/sst_stream.h)

    [file_reader2] reads a range of a file piece by piece; [sst_stream]
    turns the pieces, blocks of pages, into the sequence of their entries.
    A stream is shown to deliver the entries of the pages of its range in
    order, however its clients interleave [refresh] and [pop_front]. *)

From stdpp Require Import base list numbers strings.
From Stdlib Require Import ZArith Lia.
From S2P Require Import Prelude StdAlgo Types Utils Block BlockBuffer Sst.

(** ** Reading a file *)

Record file_reader2 := mk_file_reader {
  fr_file : bytes;
  fr_direct : bool;            (* has_direct_access *)
  fr_end_offset : nat;
  fr_read_ahead : nat;
  fr_current_offset : nat;
}.

Definition page_align (n : nat) : nat :=
  if is_page_aligned (Z.of_nat n) then n else Z.to_nat (ceil_page_align (Z.of_nat n)).

Definition make_file_reader (file : bytes) (direct : bool) (start_offset end_offset read_ahead_size : nat)
    : file_reader2 :=
  mk_file_reader file direct end_offset (page_align read_ahead_size) start_offset.

Definition fr_is_eof (r : file_reader2) : bool := (fr_end_offset r <=? fr_current_offset r)%nat.

(** [_next_no_cache]: the buffer once the read has completed, zero where
    the file ends. *)
Definition fr_next (r : file_reader2) : option (bytes * file_reader2) :=
  if (fr_end_offset r <=? fr_current_offset r)%nat then None
  else
    let bytes_to_read :=
      if (fr_end_offset r <? fr_current_offset r + fr_read_ahead r)%nat
      then fr_end_offset r - fr_current_offset r else fr_read_ahead r in
    let aligned := if fr_direct r && negb (is_page_aligned (Z.of_nat bytes_to_read))
                   then Z.to_nat (ceil_page_align (Z.of_nat bytes_to_read)) else bytes_to_read in
    let data := read_at (fr_file r) (fr_current_offset r) aligned in
    Some (data ++ replicate (aligned - length data) 0%Z,
          mk_file_reader (fr_file r) (fr_direct r) (fr_end_offset r) (fr_read_ahead r)
            (fr_current_offset r + aligned)).

Section stream.
Context (xxh64_hash : bytes -> Z -> Z).

(** ** The stream *)

(** The block reader is meaningful while there is a buffer; it then walks
    the first one. *)
Record sst_stream := mk_stream {
  ss_buffers : list bytes;
  ss_reader : file_reader2;
  ss_block_reader : option block_buffer_reader;
}.

Definition make_stream (r : file_reader2) : sst_stream := mk_stream [] r None.

Definition ss_buffer_empty (s : sst_stream) : bool :=
  match ss_buffers s with [] => true | _ => false end.

(** [size] *)
Definition ss_size (s : sst_stream) : nat := sum_list (length <$> ss_buffers s).

Definition ss_is_eof (s : sst_stream) : bool := fr_is_eof (ss_reader s) && ss_buffer_empty s.

(** [_start_consuming_buffer]; checksums are skipped. [None] is an
    exception. *)
Definition _start_consuming_buffer (s : sst_stream) (buffer : bytes) : option (status * sst_stream) :=
  '(st, r) ← reader_reset xxh64_hash buffer true 0 (length buffer);
  Some (st, mk_stream (ss_buffers s) (ss_reader s) (Some r)).

Definition _push (s : sst_stream) (buffer : bytes) : option (status * sst_stream) :=
  let s := mk_stream (ss_buffers s ++ [buffer]) (ss_reader s) (ss_block_reader s) in
  if (length (ss_buffers s) =? 1)%nat then _start_consuming_buffer s buffer else Some (ok, s).

Definition refresh (s : sst_stream) : option (status * sst_stream) :=
  if fr_is_eof (ss_reader s) then Some (ok, s)
  else match fr_next (ss_reader s) with
       | None => Some (ok, s)
       | Some (buffer, r) => _push (mk_stream (ss_buffers s) r (ss_block_reader s)) buffer
       end.

(** What [front] refers to. *)
Definition ss_front (s : sst_stream) : option kv :=
  buffer ← ss_buffers s !! 0;
  r ← ss_block_reader s;
  Some (it_key (rd_it r), iterator_value buffer (rd_it r)).

Definition ss_pop_front (s : sst_stream) : option (status * sst_stream) :=
  buffer ← ss_buffers s !! 0;
  r ← ss_block_reader s;
  '(st, r) ← reader_next xxh64_hash buffer r;
  match st with
  | Err _ => Some (st, mk_stream (ss_buffers s) (ss_reader s) (Some r))
  | Ok _ =>
      if negb (reader_at_end r) then Some (ok, mk_stream (ss_buffers s) (ss_reader s) (Some r))
      else
        let buffers := tail (ss_buffers s) in
        match buffers with
        | [] => Some (ok, mk_stream [] (ss_reader s) (Some r))
        | next :: _ => _start_consuming_buffer (mk_stream buffers (ss_reader s) (Some r)) next
        end
  end.

(** ** What a stream will deliver *)

Local Abbreviation P := PAGE_SIZE_IN_BYTES.

(** A buffer holds a group of pages. *)
Record buffer_holds (buffer : bytes) (group : list (list kv)) : Prop := {
  bh_pages : pages_hold xxh64_hash buffer 0 group;
  bh_length : length buffer = length group * P;
  bh_nonempty : group <> [];
  bh_chunks : Forall (fun c => c <> []) group;
  bh_short : Forall (Forall (fun x => key_short x.1)) group;
}.

(** The reader has the pages [rest] still before it. *)
Record file_ahead (r : file_reader2) (rest : list (list kv)) : Prop := {
  fa_chunks : Forall (fun c => c <> []) rest;
  fa_short : Forall (Forall (fun x => key_short x.1)) rest;
  fa_end : fr_end_offset r = fr_current_offset r + length rest * P;
  fa_file : fr_end_offset r <= length (fr_file r);
  fa_pages : forall i c, rest !! i = Some c ->
    page_holds xxh64_hash (fr_file r) default_block_config (fr_current_offset r + i * P) c;
  fa_ahead : exists k, 0 < k /\ fr_read_ahead r = k * P;
}.

(** The stream will deliver [l]. *)
Definition delivers (s : sst_stream) (l : list kv) : Prop :=
  exists rest groups, file_ahead (ss_reader s) rest /\ Forall2 buffer_holds (ss_buffers s) groups /\
    match ss_buffers s, groups with
    | b :: _, g :: gs => exists r i c pre x post, ss_block_reader s = Some r /\ reader_at b 0 g r i c pre x post /\
        l = (x :: post) ++ concat (drop (S i) g) ++ concat (concat gs) ++ concat rest
    | _, _ => l = concat rest
    end.

Lemma start_spec s b g : buffer_holds b g ->
  exists r x post, _start_consuming_buffer s b = Some (ok, mk_stream (ss_buffers s) (ss_reader s) (Some r)) /\
    reader_at b 0 g r 0 (x :: post) [] x post.
Proof.
  intros [H1 H2 H3 H4 H5]. unfold _start_consuming_buffer. rewrite H2.
  destruct (reader_reset_at xxh64_hash b 0 g H1 H5 true H4 H3) as (r & x & post & E & Hr).
  rewrite Nat.add_0_l in E. rewrite E. by exists r, x, post.
Qed.

Lemma group_concat g x post (r : block_buffer_reader) b : reader_at b 0 g r 0 (x :: post) [] x post ->
  concat g = (x :: post) ++ concat (drop 1 g).
Proof. intros Hr. rewrite <- (take_drop_middle _ _ _ (ra_chunk _ _ _ _ _ _ _ _ _ Hr)) at 1. done. Qed.

(** Reading the next pages of the file. *)
Lemma fr_next_spec r rest : file_ahead r rest -> rest <> [] ->
  exists b r' g rest', fr_next r = Some (b, r') /\ rest = g ++ rest' /\ buffer_holds b g /\ file_ahead r' rest'.
Proof.
  intros [H1 H2 H3 H4 H5 (k & Hk & Hra)] Hne.
  assert (0 < length rest) as Hlen by (destruct rest; [done|cbn; lia]).
  assert (0 < P) as HP by (vm_compute; lia). set (n := Nat.min k (length rest)).
  assert (fr_next r = Some (read_at (fr_file r) (fr_current_offset r) (n * P),
    mk_file_reader (fr_file r) (fr_direct r) (fr_end_offset r) (fr_read_ahead r) (fr_current_offset r + n * P))) as ->.
  { unfold fr_next. rewrite H3, Hra. rewrite (proj2 (Nat.leb_gt _ _)) by nia.
    assert ((if (fr_current_offset r + length rest * P <? fr_current_offset r + k * P)
      then fr_current_offset r + length rest * P - fr_current_offset r else k * P) = n * P) as ->.
    { unfold n. destruct (Nat.ltb_spec (fr_current_offset r + length rest * P) (fr_current_offset r + k * P)) as [Hl|Hl];
        [replace (Nat.min k (length rest)) with (length rest) by nia; nia|by replace (Nat.min k (length rest)) with k by nia]. }
    assert (is_page_aligned (Z.of_nat (n * P)) = true) as ->.
    { unfold is_page_aligned. apply Z.eqb_eq. rewrite Nat2Z.inj_mul. apply Z.mod_mul. done. }
    rewrite andb_false_r. rewrite length_read_at by nia. by rewrite Nat.sub_diag, app_nil_r. }
  eexists _, _, (take n rest), (drop n rest). split; [done|]. split; [by rewrite take_drop|].
  assert (n <= length rest) as Hnl by (unfold n; lia). split.
  - split.
    + intros i c Hi. apply lookup_take_Some in Hi as [Hi Hin]. rewrite Nat.add_0_l.
      eapply page_holds_move; [| |exact (H5 i c Hi)].
      * symmetry. rewrite <- (Nat.add_0_l (i * P)) at 2. unfold read_at at 3.
        apply list_eq. intros j. rewrite !lookup_read_at. case_decide as Hj; [|done].
        unfold read_at. rewrite Nat.add_0_l, lookup_take_lt, lookup_drop by nia. f_equal. lia.
      * rewrite length_read_at by nia. nia.
    + rewrite length_read_at by nia. rewrite length_take. f_equal. lia.
    + intros E. apply (f_equal length) in E. rewrite length_take in E. cbn in E. unfold n in E. lia.
    + by apply Forall_take.
    + by apply Forall_take.
  - split; cbn [fr_end_offset fr_current_offset fr_file fr_read_ahead].
    + by apply Forall_drop.
    + by apply Forall_drop.
    + rewrite length_drop. nia.
    + done.
    + intros i c Hi. rewrite lookup_drop in Hi. specialize (H5 _ _ Hi).
      by replace (fr_current_offset r + n * P + i * P) with (fr_current_offset r + (n + i) * P) by lia.
    + by exists k.
Qed.

Lemma ahead_eof r rest : file_ahead r rest -> fr_is_eof r = true <-> rest = [].
Proof.
  intros [_ _ H3 _ _ _]. unfold fr_is_eof. rewrite H3, Nat.leb_le. assert (0 < P) by (vm_compute; lia).
  destruct rest; cbn [length]; split; intros; try done; nia.
Qed.

(** [refresh] changes nothing about what is delivered, and leaves a
    buffer to read from while there is something to deliver. *)
Lemma refresh_spec s l : delivers s l ->
  exists s', refresh s = Some (ok, s') /\ delivers s' l /\ (l <> [] -> ss_buffer_empty s' = false).
Proof.
  intros (rest & groups & Ha & Hb & Hl). unfold refresh. pose proof (ahead_eof _ _ Ha) as He.
  destruct (fr_is_eof (ss_reader s)) eqn:Ee.
  - exists s. split_ands; [done|by exists rest, groups|]. intros Hne. unfold ss_buffer_empty.
    destruct (ss_buffers s); [|done]. apply Forall2_nil_inv_l in Hb as ->. rewrite (proj1 He eq_refl) in Hl. done.
  - assert (rest <> []) as Hne by (intros ->; naive_solver).
    destruct (fr_next_spec _ _ Ha Hne) as (b & r' & g & rest' & -> & -> & Hbh & Ha'). unfold _push.
    cbn [ss_buffers ss_reader ss_block_reader]. destruct (ss_buffers s) as [|b0 bs] eqn:Ebs.
    + apply Forall2_nil_inv_l in Hb as ->. cbn [app length Nat.eqb].
      destruct (start_spec (mk_stream [b] r' (ss_block_reader s)) b g Hbh) as (r & x & post & -> & Hr).
      eexists. split_ands; [done| |done]. exists rest', [g]. cbn [ss_reader ss_buffers ss_block_reader].
      split_ands; [done|by apply Forall2_cons; split; [|apply Forall2_nil]|]. exists r, 0, (x :: post), [], x, post. split_ands; [done|done|].
      rewrite Hl, concat_app, (group_concat _ _ _ _ _ Hr). by rewrite app_nil_l, <- app_assoc.
    + destruct groups as [|g0 gs]; [by apply Forall2_nil_inv_r in Hb|].
      rewrite (proj2 (Nat.eqb_neq _ _)) by (rewrite length_app; cbn; lia).
      eexists. split_ands; [done| |done]. exists rest', ((g0 :: gs) ++ [g]). cbn [ss_reader ss_buffers ss_block_reader].
      split_ands; [done|by apply Forall2_app; [|apply Forall2_cons; split; [|apply Forall2_nil]]|]. cbn [app].
      destruct Hl as (r & i & c & pre & x & post & H1 & H2 & ->). exists r, i, c, pre, x, post. split_ands; [done|done|].
      rewrite !concat_app. cbn [concat]. by rewrite app_nil_r, <- !app_assoc.
Qed.

(** [front] is the next entry, and [pop_front] moves behind it. *)
Lemma pop_front_spec s l : delivers s l -> ss_buffer_empty s = false ->
  exists x l' s', l = x :: l' /\ ss_front s = Some x /\ ss_pop_front s = Some (ok, s') /\ delivers s' l'.
Proof.
  intros (rest & groups & Ha & Hb & Hl) Hne. unfold ss_buffer_empty in Hne. unfold ss_front, ss_pop_front.
  destruct (ss_buffers s) as [|b bs] eqn:Ebs; [done|]. destruct groups as [|g gs]; [by apply Forall2_nil_inv_r in Hb|].
  destruct Hl as (r & i & c & pre & x & post & Er & Hr & ->). cbn [lookup list_lookup mbind option_bind]. rewrite Er.
  apply Forall2_cons in Hb as [Hbh Hbs]. cbn [mbind option_bind].
  rewrite (ra_key _ _ _ _ _ _ _ _ _ Hr), (ra_value _ _ _ _ _ _ _ _ _ Hr), <- surjective_pairing.
  destruct (reader_next_spec xxh64_hash b 0 g (bh_pages _ _ Hbh) (bh_short _ _ Hbh) _ _ _ _ _ _ (bh_chunks _ _ Hbh) Hr)
    as (r' & -> & Hr'). cbn [mbind option_bind ok].
  assert (forall i' c' pre' y post', reader_at b 0 g r' i' c' pre' y post' ->
    exists s', (if negb (reader_at_end r') then Some (ok, mk_stream (b :: bs) (ss_reader s) (Some r'))
      else match tail (b :: bs) with
           | [] => Some (ok, mk_stream [] (ss_reader s) (Some r'))
           | next :: _ => _start_consuming_buffer (mk_stream (tail (b :: bs)) (ss_reader s) (Some r')) next
           end) = Some (ok, s') /\
      delivers s' ((y :: post') ++ concat (drop (S i') g) ++ concat (concat gs) ++ concat rest)) as Hstay.
  { intros i' c' pre' y post' Hat. rewrite (reader_not_at_end _ _ _ _ _ _ _ _ _ Hat). cbn [negb]. eexists. split; [done|].
    exists rest, (g :: gs). cbn [ss_reader ss_buffers ss_block_reader]. split_ands; [done|by constructor|].
    by exists r', i', c', pre', y, post'. }
  exists x, (post ++ concat (drop (S i) g) ++ concat (concat gs) ++ concat rest). destruct post as [|y post].
  - destruct (drop (S i) g) as [|[|y post] cs] eqn:Ed.
    + rewrite Hr'. cbn [negb tail]. destruct bs as [|b1 bs].
      * apply Forall2_nil_inv_l in Hbs as ->. eexists. split_ands; [done|done|done|]. by exists rest, [].
      * destruct gs as [|g1 gs]; [by apply Forall2_nil_inv_r in Hbs|]. apply Forall2_cons in Hbs as [Hb1 Hbs].
        destruct (start_spec (mk_stream (b1 :: bs) (ss_reader s) (Some r')) b1 g1 Hb1) as (r1 & x1 & p1 & -> & Hr1).
        eexists. split_ands; [done|done|done|]. exists rest, (g1 :: gs). cbn [ss_reader ss_buffers ss_block_reader].
        split_ands; [done|by constructor|]. exists r1, 0, (x1 :: p1), [], x1, p1. split_ands; [done|done|].
        cbn [concat app]. rewrite (concat_app g1), (group_concat _ _ _ _ _ Hr1). by rewrite <- !app_assoc.
    + exfalso. pose proof (bh_chunks _ _ Hbh) as Hc. rewrite <- (take_drop (S i) g), Ed in Hc.
      apply Forall_app in Hc as [_ Hc]. apply Forall_cons in Hc as [Hc _]. done.
    + assert (drop (S (S i)) g = cs) as Hd by (replace (S (S i)) with (S i + 1) by lia; by rewrite <- drop_drop, Ed).
      destruct (Hstay _ _ _ _ _ Hr') as (s' & E & Hs'). exists s'. split_ands; [done|done|exact E|].
      rewrite Hd in Hs'. cbn [concat app] in *. by rewrite <- app_assoc.
  - destruct (Hstay _ _ _ _ _ Hr') as (s' & E & Hs'). exists s'. split_ands; [done|done|exact E|]. done.
Qed.

Lemma eof_spec s l : delivers s l -> ss_is_eof s = true <-> l = [].
Proof.
  intros (rest & groups & Ha & Hb & Hl). unfold ss_is_eof, ss_buffer_empty. rewrite andb_true_iff, (ahead_eof _ _ Ha).
  destruct (ss_buffers s) as [|b bs].
  - subst l. split; [by intros [-> _]|]. intros E. split; [|done]. destruct rest as [|c rest]; [done|].
    apply fa_chunks in Ha. apply Forall_cons in Ha as [Hc _]. destruct c; done.
  - destruct groups as [|g gs]; [by apply Forall2_nil_inv_r in Hb|].
    destruct Hl as (r & i & c & pre & x & post & _ & _ & ->). split; [by intros [_ ?]|done].
Qed.
End stream.

(** ** Runs of a stream *)

Section runs.
Context (xxh64_hash : bytes -> Z -> Z).

(** What clients do: refresh at any time, and take the front entry while
    there is a buffer. *)
Inductive stream_run : sst_stream -> list kv -> sst_stream -> Prop :=
  | run_done s : stream_run s [] s
  | run_refresh s s' xs s'' :
      refresh xxh64_hash s = Some (ok, s') -> stream_run s' xs s'' -> stream_run s xs s''
  | run_pop s x s' xs s'' :
      ss_buffer_empty s = false -> ss_front s = Some x -> ss_pop_front xxh64_hash s = Some (ok, s') ->
      stream_run s' xs s'' -> stream_run s (x :: xs) s''.

Definition refresh_if_empty (s : sst_stream) : option (status * sst_stream) :=
  if ss_buffer_empty s then refresh xxh64_hash s else Some (ok, s).

(** The loop of [k_way_merge_async2] and [range_iterator] on one source. *)
Fixpoint stream_entries (fuel : nat) (s : sst_stream) : option (list kv) :=
  if ss_is_eof s then Some []
  else match fuel with
       | O => None
       | S fuel =>
           '(st, s) ← refresh_if_empty s;
           match st with
           | Err _ => None
           | Ok _ =>
               x ← ss_front s;
               '(st, s) ← ss_pop_front xxh64_hash s;
               match st with
               | Err _ => None
               | Ok _ => rest ← stream_entries fuel s; Some (x :: rest)
               end
           end
       end.

Lemma run_delivers s xs s' l : stream_run s xs s' -> delivers xxh64_hash s l ->
  exists rest, l = xs ++ rest /\ delivers xxh64_hash s' rest.
Proof.
  intros Hr. revert l. induction Hr as [s|s s1 xs s2 E _ IH|s x s1 xs s2 Hb Hf Hp _ IH]; intros l Hd.
  - by exists l.
  - destruct (refresh_spec _ _ _ Hd) as (s1' & E' & Hd' & _). rewrite E in E'. injection E' as <-. by apply IH.
  - destruct (pop_front_spec _ _ _ Hd Hb) as (y & l' & s1' & -> & Hf' & Hp' & Hd').
    rewrite Hf in Hf'. rewrite Hp in Hp'. injection Hf' as <-. injection Hp' as <-.
    destruct (IH _ Hd') as (rest & -> & Hd''). by exists rest.
Qed.

Lemma entries_delivers fuel l s : delivers xxh64_hash s l -> length l <= fuel -> stream_entries fuel s = Some l.
Proof.
  revert fuel s. induction l as [|x l IH]; intros fuel s Hd Hf; pose proof (eof_spec _ _ _ Hd) as He.
  - destruct fuel; cbn [stream_entries]; by rewrite (proj2 He).
  - destruct fuel as [|fuel]; cbn [length] in Hf; [lia|]. cbn [stream_entries].
    destruct (ss_is_eof s) eqn:Ee; [by rewrite (proj1 He) by done|].
    assert (exists s1, refresh_if_empty s = Some (ok, s1) /\
      delivers xxh64_hash s1 (x :: l) /\ ss_buffer_empty s1 = false) as (s1 & -> & Hd1 & Hb1).
    { unfold refresh_if_empty. destruct (ss_buffer_empty s) eqn:Eb; [|by exists s].
      destruct (refresh_spec _ _ _ Hd) as (s1 & E & H1 & H2). exists s1. split_ands; [done|done|by apply H2]. }
    destruct (pop_front_spec _ _ _ Hd1 Hb1) as (y & l' & s2 & [= <- <-] & Hfr & Hp & Hd2).
    cbn [mbind option_bind ok]. rewrite Hfr. cbn [mbind option_bind]. rewrite Hp. cbn [mbind option_bind ok].
    by rewrite (IH fuel _ Hd2) by lia.
Qed.

(** The entries on the pages [first] to [last] of an SST. *)
Definition pages_entries (chunks : list (list kv)) (first last : nat) : list kv :=
  concat (read_at chunks first (S last - first)).

Definition page_stream (file : bytes) (direct : bool) (first last read_ahead : nat) : sst_stream :=
  make_stream (make_file_reader file direct (first * PAGE_SIZE_IN_BYTES) ((last + 1) * PAGE_SIZE_IN_BYTES) read_ahead).

Lemma reader_delivers file rest chunks direct first n read_ahead :
  pages_hold xxh64_hash file 0 chunks -> length file = length chunks * PAGE_SIZE_IN_BYTES ->
  Forall (fun c => c <> []) chunks -> Forall (Forall (fun x => key_short x.1)) chunks ->
  first + n <= length chunks -> (0 < Z.of_nat read_ahead < 2 ^ 63)%Z ->
  delivers xxh64_hash (make_stream (make_file_reader (file ++ rest) direct (first * PAGE_SIZE_IN_BYTES)
    ((first + n) * PAGE_SIZE_IN_BYTES) read_ahead)) (concat (read_at chunks first n)).
Proof.
  intros Hp Hl Hne Hs Hr Ha. exists (read_at chunks first n), []. split_ands; [|by apply Forall2_nil|done].
  unfold make_stream, make_file_reader. cbn [ss_reader].
  split; cbn [fr_end_offset fr_current_offset fr_file fr_read_ahead].
  - by apply Forall_take, Forall_drop.
  - by apply Forall_take, Forall_drop.
  - rewrite length_read_at by lia. lia.
  - rewrite length_app, Hl. assert ((first + n) * PAGE_SIZE_IN_BYTES <= length chunks * PAGE_SIZE_IN_BYTES)
      by (apply Nat.mul_le_mono_r; lia). lia.
  - intros i c Hi. unfold read_at in Hi. apply lookup_take_Some in Hi as [Hi Hlt]. rewrite lookup_drop in Hi.
    pose proof (lookup_lt_Some _ _ _ Hi) as Hb. eapply page_holds_move; [| |exact (Hp _ _ Hi)].
    + rewrite Nat.add_0_l. apply list_eq. intros j. rewrite !lookup_read_at. case_decide; [|done].
      rewrite lookup_app_l by nia. f_equal. lia.
    + rewrite length_app, Hl. nia.
  - unfold page_align. destruct (is_page_aligned (Z.of_nat read_ahead)) eqn:Ea.
    + unfold is_page_aligned in Ea. apply Z.eqb_eq, Z.mod_divide in Ea as [k Hk]; [|done].
      exists (Z.to_nat k). change PAGE_SIZE with 4096%Z in Hk. change PAGE_SIZE_IN_BYTES with 4096. lia.
    + destruct (ceil_page_align_spec (Z.of_nat read_ahead) ltac:(lia)) as [Hm Hb].
      apply Z.mod_divide in Hm as [k Hk]; [|done]. exists (Z.to_nat k). rewrite Hk in *.
      change PAGE_SIZE with 4096%Z in *. change PAGE_SIZE_IN_BYTES with 4096. lia.
Qed.

Lemma make_delivers file rest chunks direct first last read_ahead :
  pages_hold xxh64_hash file 0 chunks -> length file = length chunks * PAGE_SIZE_IN_BYTES ->
  Forall (fun c => c <> []) chunks -> Forall (Forall (fun x => key_short x.1)) chunks ->
  first <= S last <= length chunks -> (0 < Z.of_nat read_ahead < 2 ^ 63)%Z ->
  delivers xxh64_hash (page_stream (file ++ rest) direct first last read_ahead) (pages_entries chunks first last).
Proof.
  intros Hp Hl Hne Hs Hr Ha. unfold page_stream, pages_entries.
  replace (last + 1) with (first + (S last - first)) by lia. by apply reader_delivers; try lia.
Qed.
End runs.

(** A stream delivers its pages. Over the index pages of an SST, with
    whatever else the file holds behind them, any interleaving of [refresh]
    and [pop_front] gives the entries of the pages of the range in order,
    the stream is at its end exactly when all were given, and until then a
    [refresh] succeeds and leaves a buffer to read from. *)
Theorem stream_correct (xxh64_hash : bytes -> Z -> Z) (file rest : bytes) (chunks : list (list kv)) (direct : bool)
    (first last read_ahead : nat) (xs : list kv) (s' : sst_stream)
    (Hpages : pages_hold xxh64_hash file 0 chunks) (Hlen : length file = length chunks * PAGE_SIZE_IN_BYTES)
    (Hne : Forall (fun c => c <> []) chunks) (Hshort : Forall (Forall (fun x => key_short x.1)) chunks)
    (Hrange : first <= S last <= length chunks) (Hahead : (0 < Z.of_nat read_ahead < 2 ^ 63)%Z)
    (Hrun : stream_run xxh64_hash (page_stream (file ++ rest) direct first last read_ahead) xs s') :
  exists l, pages_entries chunks first last = xs ++ l /\ (ss_is_eof s' = true <-> l = []) /\
    (l <> [] -> exists s'', refresh xxh64_hash s' = Some (ok, s'') /\ ss_buffer_empty s'' = false) /\
    stream_entries xxh64_hash (length l) s' = Some l.
Proof.
  destruct (run_delivers _ _ _ _ _ Hrun (make_delivers _ _ rest _ direct _ _ _ Hpages Hlen Hne Hshort Hrange Hahead))
    as (l & E & Hd).
  exists l. split_ands; [done|by eapply eof_spec| |by eapply entries_delivers].
  intros Hl. destruct (refresh_spec _ _ _ Hd) as (s'' & Er & _ & Hb). exists s''. by split; [|apply Hb].
Qed.

(** The pages of an SST have what a stream asks for. *)
Lemma sst_rep_pages xxh64_hash file meta items :
  sst_rep xxh64_hash file meta items -> Forall (fun x => 1 <= length x.1 < MAX_KEY_LEN) items ->
  exists chunks, concat chunks = items /\ pages_hold xxh64_hash file 0 chunks /\
    length file = length chunks * PAGE_SIZE_IN_BYTES /\ Forall (fun c => c <> []) chunks /\
    Forall (Forall (fun x => key_short x.1)) chunks /\ meta = last_key [] <$> chunks.
Proof.
  intros Hrep Hk. destruct (sr_chunks _ _ _ _ Hrep) as (chunks & Hcat & Hp & Hne & Hl & Hm).
  exists chunks. split_ands; try done. destruct (short_keys_ok items Hk) as [_ Hs]. subst items.
  apply Forall_forall. intros c Hc. apply Forall_forall. intros x Hx. rewrite Forall_forall in Hs. apply Hs.
  apply list_elem_of_lookup in Hc as [i Hi]. apply elem_chunk. by exists i, c.
Qed.

Lemma stream_correct_witness : exists file chunks l,
  concat chunks = [([1], [1]); ([2], [1])]%Z /\ pages_entries chunks 0 (length chunks - 1) = [] ++ l /\
  stream_entries (fun _ s => s) (length l) (page_stream (file ++ [0]%Z) true 0 (length chunks - 1) 5000) = Some l.
Proof.
  destruct (write_sst_spec (fun _ s => s) 1 [([1], [1]); ([2], [1])]%Z) as (iw & _ & Hrep); [lia| |].
  { repeat constructor; vm_compute; lia. }
  destruct (sst_rep_pages _ _ _ _ Hrep) as (chunks & Hcat & Hp & Hl & Hne & Hs & _); [repeat constructor; vm_compute; lia|].
  assert (0 < length chunks) as Hlen by (destruct chunks; [discriminate Hcat|cbn; lia]).
  destruct (stream_correct (fun _ s => s) (iw_file (finish_index (fun _ s => s) iw)) [0]%Z chunks true 0 (length chunks - 1) 5000 []
    (page_stream (iw_file (finish_index (fun _ s => s) iw) ++ [0]%Z) true 0 (length chunks - 1) 5000) Hp Hl Hne Hs
    ltac:(lia) ltac:(lia) (run_done _ _)) as (l & E & _ & _ & Hall).
  by exists (iw_file (finish_index (fun _ s => s) iw)), chunks, l.
Defined.
