(* ===== verification/SstFile.v ===== *)
(** * SST files on disk (src/db/index_ops.cc, src/db/sst.h, src/db/sst.cc,
      src/db/merge/merge.cc)

    The file that a flush and a merge write around the index pages of Sst:
    the page-padded meta index, the header page and the data pages of the
    quotient filter, the footer page; and [sst::load], which reads the meta
    index, the filter and the footer back from such a file.

    A file is the list of its bytes. I/O is assumed to succeed: a write
    stores at its offset the bytes it is given, but like every read and
    write of Linux it transfers at most 0x7ffff000 of them, and the code
    goes on with the count that was transferred. What the code writes
    without having initialised it (the tail of a buffer, the padding of a
    structure, the value of a pointer) is the argument [heap]. *)

From stdpp Require Import base numbers option list strings sorting.
From Stdlib Require Import ZArith Lia.
From S2P Require Import Prelude StdAlgo Varint Types Utils QuotientFilter QfCorrect Block BlockBuffer Sst.

Local Open Scope Z_scope.

(** ** System calls *)

Definition pwrite (file : bytes) (off : nat) (data : bytes) : bytes :=
  take off (file ++ replicate (off - length file) 0) ++ data ++ drop (off + length data) file.

(** What one call transfers. *)
Definition MAX_RW_COUNT : Z := 0x7ffff000.
Definition transferred (data : bytes) : bytes :=
  if Z.of_nat (length data) <=? MAX_RW_COUNT then data else take (Z.to_nat MAX_RW_COUNT) data.

Definition pread (file : bytes) (off n : nat) : bytes := transferred (read_at file off n).

Definition ftruncate (file : bytes) (n : nat) : bytes := take n (file ++ replicate (n - length file) 0).

(** What is written without being initialised. *)
Record heap_bytes := mk_heap_bytes {
  hb_meta : nat -> Z;      (* behind the encoded meta index *)
  hb_qf_pad : Z;           (* padding of the filter structure *)
  hb_qf_table : Z;         (* its table pointer *)
  hb_footer_pad : nat -> Z;(* padding of the footer structure *)
  hb_footer : nat -> Z;    (* behind the footer *)
}.

(** The pages of a page-aligned buffer that holds [data]. *)
Definition aligned_size (data : bytes) : nat := Z.to_nat (ceil_page_align (Z.of_nat (length data))).
Definition padded (slack : nat -> Z) (data : bytes) : bytes :=
  data ++ (slack <$> seq 0 (aligned_size data - length data)).

(** ** The quotient filter *)

Definition QF_BITS_PER_KEY : Z := 10.
Definition QF_SEED : Z := 0xDEADBEEF.

(** The loop that doubles [s] until there are enough slots; 64 rounds are
    enough for it to end whenever it does. *)
Fixpoint quotient_bits (fuel : nat) (s slots q : Z) : option Z :=
  match fuel with
  | O => None
  | S fuel => if s <? slots then quotient_bits fuel (u64 (Z.shiftl s 1)) slots (u32 (q + 1)) else Some q
  end.

Definition create_qf_for_key_count (num_keys : Z) : option (expected quotient_filter) :=
  let slots := u64 (u64 (num_keys * 4) + 2) / 3 in
  q ← quotient_bits 64 1 slots 0;
  Some (qf_wrapper.make q QF_BITS_PER_KEY).

(** [_write_qf_async]: the bytes written and the file. *)
Definition _write_qf_async (heap : heap_bytes) (file : bytes) (qf : quotient_filter) (offset : nat)
    : nat * bytes :=
  let header_span := qf_wrapper.header_as_byte_span qf (hb_qf_pad heap) (hb_qf_table heap) in
  let header_buf := write_at (replicate PAGE_SIZE_IN_BYTES 0) 0 header_span in
  let file := pwrite file offset header_buf in
  let written := length header_buf in
  let data_span := qf_wrapper.data_as_byte_span qf in
  let data_buf := transferred (write_at (replicate (aligned_size data_span) 0) 0 data_span) in
  let file := pwrite file (offset + written) data_buf in
  ((written + length data_buf)%nat, file).

(** ** The footer *)

(** "hedge_FOOTER" *)
Definition footer_magic : bytes := [104; 101; 100; 103; 101; 95; 70; 79; 79; 84; 69; 82].
Definition CURRENT_FOOTER_VERSION : Z := 1.

Definition footer_fields (f : sst_footer) : list Z :=
  [f_upper_bound f; f_indexed_keys f; f_meta_index_entries f; f_index_offset f; f_meta_index_offset f;
   f_qf_offset f; f_qf_size f; f_footer_offset f; f_epoch f; f_max_seq_nr f].

(** The bytes of the structure: the magic filled up to 16 bytes, the
    version aligned to 8 and ten 64-bit fields. *)
Definition footer_bytes (heap : heap_bytes) (f : sst_footer) : bytes :=
  (footer_magic ++ replicate 4 0) ++ (CURRENT_FOOTER_VERSION :: (hb_footer_pad heap <$> seq 0 7)) ++
  mjoin (le_encode 8 <$> footer_fields f).

Definition sizeof_footer : nat := 104.

Definition footer_of_bytes (b : bytes) : sst_footer :=
  let field i := le_decode (read_at b (24 + 8 * i) 8) in
  mk_footer (field 0%nat) (field 1%nat) (field 2%nat) (field 3%nat) (field 4%nat)
    (field 5%nat) (field 6%nat) (field 7%nat) (field 8%nat) (field 9%nat).

(** ** SST objects *)

Record sst := mk_sst_object {
  st_file : bytes;
  st_meta_index : list bytes;
  st_super_index : option (list bytes);
  st_qf : option quotient_filter;
  st_footer : sst_footer;
}.

(** A lookup in the filter that does not end is [None]. *)
Definition sst_probe_filter (s : sst) (key_hash : Z) : option bool :=
  match st_qf s with
  | None => Some false
  | Some qf => qf_may_contain qf key_hash
  end.

(** The size estimate a new file is preallocated with. *)
Record sst_sizes := mk_sizes {
  index_size : Z;
  meta_index_size : Z;
  qf_size : Z;
  footer_size : Z;
}.

Definition total_size (s : sst_sizes) : Z :=
  u64 (u64 (u64 (index_size s + meta_index_size s) + qf_size s) + footer_size s).

Definition sizeof_qf : Z := 48.

Definition estimate_sst_size (entry_count average_key_value_length : Z) (qf : option quotient_filter)
    : sst_sizes :=
  let key_values_per_page_estimate := ceil PAGE_SIZE average_key_value_length in
  let estimated_pages := ceil entry_count key_values_per_page_estimate in
  mk_sizes (u64 (estimated_pages * PAGE_SIZE))
    (round_up (u64 (estimated_pages * Z.of_nat sizeof_key_t)) PAGE_SIZE)
    (match qf with
     | None => 0
     | Some qf => u64 (ceil_page_align sizeof_qf + ceil_page_align (qf_allocated_size qf))
     end)
    PAGE_SIZE.

Section sst_file.
Context (xxh64_hash : bytes -> Z -> Z) (heap : heap_bytes).

Definition key_hash (k : bytes) : Z := xxh64_hash k QF_SEED.

(** What follows the index pages of a file: meta index, filter, footer,
    and the truncation to what was written. *)
Definition write_tail (file : bytes) (iw : index_writer) (qf : option quotient_filter)
    (upper_bound epoch max_seq_nr : Z) : expected sst :=
  let bytes_written := length (iw_file iw) in
  let meta_index_offset := bytes_written in
  let meta := transferred (padded (hb_meta heap) (foldl append_meta_index_key [] (iw_meta iw))) in
  let file := pwrite file bytes_written meta in
  let bytes_written := (bytes_written + length meta)%nat in
  let qf_offset := bytes_written in
  let '(qf_written, file) :=
    match qf with None => (0%nat, file) | Some qf => _write_qf_async heap file qf bytes_written end in
  let bytes_written := (bytes_written + qf_written)%nat in
  footer ← build (mk_builder (Some upper_bound) (Some (Z.of_nat (wb_indexed_kvs (iw_buf iw))))
    (Some (Z.of_nat (length (iw_meta iw)))) (Some 0) (Some (Z.of_nat meta_index_offset))
    ((fun _ => Z.of_nat qf_offset) <$> qf) ((fun _ => Z.of_nat qf_written) <$> qf) (Some (Z.of_nat bytes_written))
    (Some epoch) (Some max_seq_nr));
  let footer_buf := padded (hb_footer heap) (footer_bytes heap footer) in
  let file := pwrite file bytes_written footer_buf in
  let bytes_written := (bytes_written + length footer_buf)%nat in
  Ok (mk_sst_object (ftruncate file bytes_written) (iw_meta iw) None qf footer).

(** [_export_as_sst_async] on a range of memtable entries. [None] is the
    exception of [create_qf_for_key_count] or a filter loop that does not
    end. *)
Definition _export_as_sst_async (l : list memtable_entry) (entry_count average_key_value_length : Z)
    (upper_bound epoch : Z) : option (expected sst) :=
  made ← create_qf_for_key_count entry_count;
  match made with
  | Err _ => None
  | Ok qf =>
      let estimated := estimate_sst_size entry_count average_key_value_length (Some qf) in
      let file := replicate (Z.to_nat (total_size estimated)) 0 in
      qf ← insert_all qf ((fun e => key_hash (mt_key e)) <$> newest_versions None l);
      Some ('(iw, max_seq_nr) ← _write_index xxh64_hash l;
            write_tail (pwrite file 0 (iw_file iw)) iw (Some qf) upper_bound epoch max_seq_nr)
  end.

(** The part of a merge behind the merged entries: the filter is made for
    [max_new_index_keys] keys, and left out when that fails. *)
Definition merge_output (items : list kv) (buf_pages : nat) (max_new_index_keys estimated_size : Z)
    (upper_bound epoch max_seq_nr : Z) : option (expected sst) :=
  made ← create_qf_for_key_count max_new_index_keys;
  qf ← match made with
       | Err _ => Some None
       | Ok qf => qf ← insert_all qf ((fun x => key_hash x.1) <$> items); Some (Some qf)
       end;
  Some (iw ← write_kvs xxh64_hash (make_index_writer buf_pages) items;
        let iw := finish_index xxh64_hash iw in
        let file := pwrite (replicate (Z.to_nat estimated_size) 0) 0 (iw_file iw) in
        s ← write_tail file iw qf upper_bound epoch max_seq_nr;
        Ok (mk_sst_object (st_file s) (st_meta_index s) (make_super_index (st_meta_index s))
              (st_qf s) (st_footer s))).
End sst_file.

(** ** Loading *)

Definition load_error (msg : string) : error := generic_error msg.

Definition sst_load (file : bytes) : expected sst :=
  let footer_page_size := Z.to_nat (round_up (Z.of_nat sizeof_footer) PAGE_SIZE) in
  let footer_buf := pread file (length file - footer_page_size) footer_page_size in
  if negb (length footer_buf =? footer_page_size)%nat then Err (load_error "sst::load: failed to read footer")
  else
  let footer := footer_of_bytes footer_buf in
  if negb (bool_decide (take 12 footer_buf = footer_magic))
  then Err (load_error "sst::load: invalid footer magic")
  else
  let meta_end := if 0 <? f_qf_size footer then f_qf_offset footer else f_footer_offset footer in
  let meta_size := u64 (meta_end - f_meta_index_offset footer) in
  let entries := Z.to_nat (f_meta_index_entries footer) in
  meta_index ←
    (if 0 <? meta_size then
       let raw_meta := pread file (Z.to_nat (f_meta_index_offset footer)) (Z.to_nat meta_size) in
       if negb (Z.of_nat (length raw_meta) =? meta_size)
       then Err (load_error "sst::load: failed to read meta-index")
       else Ok (read_meta_index entries raw_meta)
     else Ok (replicate entries []));
  qf ←
    (if 0 <? f_qf_size footer then
       let header_buf := pread file (Z.to_nat (f_qf_offset footer)) PAGE_SIZE_IN_BYTES in
       if negb (length header_buf =? PAGE_SIZE_IN_BYTES)%nat
       then Err (load_error "sst::load: failed to read QF header")
       else
       let data_size := u64 (f_qf_size footer - PAGE_SIZE) in
       let data_read_size := ceil_page_align data_size in
       let data_buf := pread file (Z.to_nat (u64 (f_qf_offset footer + PAGE_SIZE))) (Z.to_nat data_read_size) in
       if negb (Z.of_nat (length data_buf) =? data_read_size)
       then Err (load_error "sst::load: failed to read QF data")
       else match qf_wrapper.load header_buf data_buf data_size with
            | Err _ => Err (load_error "sst::load: failed to load quotient filter")
            | Ok qf => Ok (Some qf)
            end
     else Ok None);
  Ok (mk_sst_object file meta_index (make_super_index meta_index) qf footer).

(** ** Files written piece by piece *)

Lemma transferred_small data : Z.of_nat (length data) <= MAX_RW_COUNT -> transferred data = data.
Proof. intros H. unfold transferred. by rewrite (proj2 (Z.leb_le _ _) H). Qed.

Lemma pread_part (a b c : bytes) n : n = length b -> Z.of_nat n <= MAX_RW_COUNT -> pread (a ++ b ++ c) (length a) n = b.
Proof. intros -> Hn. unfold pread. rewrite read_at_mid. by apply transferred_small. Qed.

Lemma pwrite_app pre rest data : pwrite (pre ++ rest) (length pre) data = pre ++ data ++ drop (length data) rest.
Proof.
  unfold pwrite. rewrite length_app. replace (length pre - (length pre + length rest))%nat with 0%nat by lia.
  rewrite app_nil_r, take_app_length. f_equal. f_equal.
  rewrite drop_app_ge by lia. f_equal. lia.
Qed.

Lemma pwrite_start file data : pwrite file 0 data = data ++ drop (length data) file.
Proof. apply (pwrite_app []). Qed.

Lemma ftruncate_app pre rest : ftruncate (pre ++ rest) (length pre) = pre.
Proof.
  unfold ftruncate. rewrite length_app. replace (length pre - (length pre + length rest))%nat with 0%nat by lia.
  by rewrite app_nil_r, take_app_length.
Qed.

Lemma read_at_part (a b c : bytes) n : n = length b -> read_at (a ++ b ++ c) (length a) n = b.
Proof. intros ->. apply read_at_mid. Qed.

Lemma length_padded slack data : Z.of_nat (length data) < 2 ^ 63 -> length (padded slack data) = aligned_size data.
Proof.
  intros Hl. unfold padded. rewrite length_app, length_fmap, length_seq.
  destruct (ceil_page_align_spec (Z.of_nat (length data)) ltac:(lia)) as [_ Hb]. unfold aligned_size. lia.
Qed.

Lemma length_padded_ge slack data : (length data <= length (padded slack data))%nat.
Proof. unfold padded. rewrite length_app. lia. Qed.

(** ** The footer round trip *)

Definition footer_ok (f : sst_footer) : Prop := Forall (fun x => 0 <= x < 2 ^ 64) (footer_fields f).

Lemma length_words (xs : list Z) : length (mjoin (le_encode 8 <$> xs)) = (8 * length xs)%nat.
Proof. induction xs as [|x xs IH]; [done|]. rewrite fmap_cons, mjoin_cons, length_app, length_le_encode, IH. cbn. lia. Qed.

Lemma read_word pre (xs : list Z) post i x : xs !! i = Some x -> 0 <= x < 2 ^ 64 ->
  le_decode (read_at (pre ++ mjoin (le_encode 8 <$> xs) ++ post) (length pre + 8 * i) 8) = x.
Proof.
  intros Hx Hb. rewrite <- (take_drop_middle _ _ _ Hx), fmap_app, fmap_cons, mjoin_app, mjoin_cons.
  rewrite <- !app_assoc, (app_assoc pre).
  replace (length pre + 8 * i)%nat with (length (pre ++ mjoin (le_encode 8 <$> take i xs))).
  - apply read_field. by change (256 ^ Z.of_nat 8) with (2 ^ 64).
  - rewrite length_app, length_words, length_take. apply lookup_lt_Some in Hx. lia.
Qed.

(** The footer takes one page. *)
Lemma footer_page : Z.to_nat (round_up (Z.of_nat sizeof_footer) PAGE_SIZE) = PAGE_SIZE_IN_BYTES.
Proof. vm_compute. reflexivity. Qed.

Lemma length_footer_bytes heap f : length (footer_bytes heap f) = sizeof_footer.
Proof. unfold footer_bytes. by rewrite !length_app, length_words. Qed.

Lemma footer_roundtrip heap f rest : footer_ok f -> footer_of_bytes (footer_bytes heap f ++ rest) = f.
Proof.
  intros Hf. unfold footer_of_bytes, footer_bytes. rewrite <- !app_assoc.
  set (pre := footer_magic ++ replicate 4 0 ++ CURRENT_FOOTER_VERSION :: (hb_footer_pad heap <$> seq 0 7)).
  assert (forall i x, footer_fields f !! i = Some x ->
    le_decode (read_at (footer_magic ++ replicate 4 0 ++
      (CURRENT_FOOTER_VERSION :: (hb_footer_pad heap <$> seq 0 7)) ++
      mjoin (le_encode 8 <$> footer_fields f) ++ rest) (24 + 8 * i) 8) = x) as H.
  { intros i x Hx. unfold footer_ok in Hf. rewrite Forall_lookup in Hf. specialize (Hf _ _ Hx).
    pose proof (read_word pre (footer_fields f) rest i x Hx Hf) as Hr. unfold pre in Hr.
    by rewrite <- !app_assoc in Hr. }
  rewrite (H 0%nat (f_upper_bound f)), (H 1%nat (f_indexed_keys f)), (H 2%nat (f_meta_index_entries f)),
    (H 3%nat (f_index_offset f)), (H 4%nat (f_meta_index_offset f)), (H 5%nat (f_qf_offset f)),
    (H 6%nat (f_qf_size f)), (H 7%nat (f_footer_offset f)), (H 8%nat (f_epoch f)), (H 9%nat (f_max_seq_nr f)) by done.
  by destruct f.
Qed.

(** ** The filter pages *)

Section filter_pages.
Context (heap : heap_bytes) (q r : Z) (qf : quotient_filter) (Hwf : qf_wf q r qf).
Context (Hent : 0 <= qf_entries qf < 2 ^ 32) (Hrw : qf_allocated_size qf <= MAX_RW_COUNT).

Definition qf_header_page : bytes :=
  write_at (replicate PAGE_SIZE_IN_BYTES 0) 0
    (qf_wrapper.header_as_byte_span qf (hb_qf_pad heap) (hb_qf_table heap)).

Definition qf_data_pages : bytes := qf_wrapper.data_as_byte_span qf.

Lemma length_data_pages : Z.of_nat (length qf_data_pages) = qf_allocated_size qf.
Proof.
  unfold qf_data_pages, qf_wrapper.data_as_byte_span. rewrite length_words, (wf_alloc _ _ _ Hwf). lia.
Qed.

Lemma allocated_bound : qf_allocated_size qf mod PAGE_SIZE = 0 /\ 0 < qf_allocated_size qf < 2 ^ 62.
Proof.
  destruct (table_size_spec q r (wf_q _ _ _ Hwf) (wf_r _ _ _ Hwf)) as [Hs _].
  unfold qf_allocated_size. rewrite (wf_qbits _ _ _ Hwf), (wf_rbits _ _ _ Hwf).
  destruct (ceil_page_align_spec (qf_table_size q r)) as [Hm Hb]; [lia|]. split; [done|].
  change PAGE_SIZE with 4096 in Hb. lia.
Qed.

Lemma write_qf_spec file offset :
  _write_qf_async heap file qf offset =
  ((PAGE_SIZE_IN_BYTES + length qf_data_pages)%nat,
   pwrite (pwrite file offset qf_header_page) (offset + PAGE_SIZE_IN_BYTES) qf_data_pages).
Proof.
  unfold _write_qf_async. fold qf_header_page. fold qf_data_pages.
  assert (length qf_header_page = PAGE_SIZE_IN_BYTES) as ->.
  { unfold qf_header_page. rewrite length_write_at by (rewrite length_replicate; vm_compute; lia). apply length_replicate. }
  assert (aligned_size qf_data_pages = length qf_data_pages) as Ha.
  { unfold aligned_size. destruct allocated_bound as [Hm Hb]. rewrite ceil_page_align_id; [lia| |];
      rewrite length_data_pages; [lia|done]. }
  rewrite Ha. assert (write_at (replicate (length qf_data_pages) 0) 0 qf_data_pages = qf_data_pages) as ->.
  2:{ by rewrite transferred_small by (by rewrite length_data_pages). }
  unfold write_at. rewrite take_0, app_nil_l, drop_ge, app_nil_r by (rewrite length_replicate; lia). done.
Qed.

Lemma load_pages rest : qf_wrapper.load qf_header_page (qf_data_pages ++ rest) (qf_allocated_size qf) = Ok qf.
Proof. unfold qf_header_page, write_at. rewrite take_0, app_nil_l. by eapply load_filter. Qed.
End filter_pages.

(** ** The whole file *)

Section tail.
Context (heap : heap_bytes) (iw : index_writer) (qf : option quotient_filter) (upper_bound epoch max_seq_nr : Z).
Context (q r : Z) (Hqf : forall f, qf = Some f ->
  qf_wf q r f /\ 0 <= qf_entries f < 2 ^ 32 /\ qf_allocated_size f <= MAX_RW_COUNT).

Definition tail_meta : bytes := padded (hb_meta heap) (foldl append_meta_index_key [] (iw_meta iw)).

Definition tail_filter : bytes :=
  match qf with None => [] | Some f => qf_header_page heap f ++ qf_data_pages f end.

Definition tail_footer : sst_footer :=
  mk_footer upper_bound (Z.of_nat (wb_indexed_kvs (iw_buf iw))) (Z.of_nat (length (iw_meta iw))) 0
    (Z.of_nat (length (iw_file iw)))
    (match qf with None => 0 | Some _ => Z.of_nat (length (iw_file iw ++ tail_meta)) end)
    (Z.of_nat (length tail_filter)) (Z.of_nat (length (iw_file iw ++ tail_meta ++ tail_filter))) epoch max_seq_nr.

Definition tail_footer_page : bytes := padded (hb_footer heap) (footer_bytes heap tail_footer).

Definition sst_file_bytes : bytes := iw_file iw ++ tail_meta ++ tail_filter ++ tail_footer_page.

Context (Hmeta_rw : Z.of_nat (length tail_meta) <= MAX_RW_COUNT).

Lemma length_header_page f : length (qf_header_page heap f) = PAGE_SIZE_IN_BYTES.
Proof.
  unfold qf_header_page. rewrite length_write_at by (rewrite length_replicate; vm_compute; lia). apply length_replicate.
Qed.

Lemma write_tail_spec rest :
  write_tail heap (iw_file iw ++ rest) iw qf upper_bound epoch max_seq_nr =
  Ok (mk_sst_object sst_file_bytes (iw_meta iw) None qf tail_footer).
Proof.
  unfold write_tail. fold tail_meta. rewrite (transferred_small _ Hmeta_rw), pwrite_app.
  assert (forall rest', exists rest'',
    match qf with
    | None => (0%nat, (iw_file iw ++ tail_meta) ++ rest')
    | Some f => _write_qf_async heap ((iw_file iw ++ tail_meta) ++ rest') f (length (iw_file iw) + length tail_meta)
    end = (length tail_filter, (iw_file iw ++ tail_meta ++ tail_filter) ++ rest'')) as Hq.
  { intros rest'. unfold tail_filter. destruct qf as [f|] eqn:Ef.
    - destruct (Hqf f eq_refl) as (Hwf & He & Hrw). rewrite (write_qf_spec heap q r f Hwf Hrw).
      rewrite <- (length_app (iw_file iw)), pwrite_app.
      rewrite <- (length_header_page f), <- (length_app (iw_file iw ++ tail_meta)).
      rewrite (app_assoc (iw_file iw ++ tail_meta)), pwrite_app, <- length_app. eexists. by rewrite <- !app_assoc.
    - exists rest'. by rewrite app_nil_r. }
  rewrite (app_assoc (iw_file iw)). destruct (Hq (drop (length tail_meta) rest)) as [rest'' ->].
  unfold build. cbn [b_upper_bound b_indexed_kv b_meta_index_entries b_index_offset b_meta_index_offset
    b_qf_offset b_qf_size b_footer_offset b_epoch b_max_seq_nr require mbind expected_bind].
  replace (mk_footer _ _ _ _ _ _ _ _ _ _) with tail_footer.
  - fold tail_footer_page.
    replace (length (iw_file iw) + length tail_meta + length tail_filter)%nat
      with (length (iw_file iw ++ tail_meta ++ tail_filter)) by (rewrite !length_app; lia).
    rewrite pwrite_app, <- length_app, (app_assoc _ tail_footer_page), ftruncate_app.
    unfold sst_file_bytes. by rewrite <- !app_assoc.
  - unfold tail_footer, tail_filter. destruct qf; cbn [fmap option_fmap option_map default from_option id length];
      f_equal; rewrite ?length_app; cbn [length]; try done; lia.
Qed.

Context (Hsize : Z.of_nat (length sst_file_bytes) < 2 ^ 63).
Context (Hupper : 0 <= upper_bound < 2 ^ 64) (Hepoch : 0 <= epoch < 2 ^ 64) (Hseq : 0 <= max_seq_nr < 2 ^ 64).
Context (Hindexed : Z.of_nat (wb_indexed_kvs (iw_buf iw)) < 2 ^ 64) (Hmetas : Forall key_ok (iw_meta iw)).

Lemma tail_bounds :
  Z.of_nat (length (iw_file iw)) + Z.of_nat (length tail_meta) + Z.of_nat (length tail_filter)
    + Z.of_nat (length tail_footer_page) < 2 ^ 63 /\
  Z.of_nat (length (iw_meta iw)) <= Z.of_nat (length tail_meta).
Proof.
  unfold sst_file_bytes in Hsize. rewrite !length_app in Hsize. split; [lia|].
  unfold tail_meta. etrans; [|apply inj_le, length_padded_ge]. apply inj_le.
  assert (forall acc metas, length acc + length metas <= length (foldl append_meta_index_key acc metas))%nat as H.
  { intros acc metas. revert acc. induction metas as [|k metas IH]; intros acc; cbn [foldl length]; [lia|].
    etrans; [|apply IH]. unfold append_meta_index_key, write_key. rewrite length_app. cbn. lia. }
  apply (H [] (iw_meta iw)).
Qed.

Lemma tail_footer_ok : footer_ok tail_footer.
Proof.
  destruct tail_bounds as [Hb Hm]. unfold footer_ok, footer_fields, tail_footer.
  cbn [f_upper_bound f_indexed_keys f_meta_index_entries f_index_offset f_meta_index_offset f_qf_offset f_qf_size
    f_footer_offset f_epoch f_max_seq_nr]. rewrite !length_app.
  repeat constructor; try lia; destruct qf; lia.
Qed.

Lemma length_footer_page : length tail_footer_page = PAGE_SIZE_IN_BYTES.
Proof. unfold tail_footer_page. rewrite length_padded; unfold aligned_size; rewrite length_footer_bytes; done. Qed.

Lemma read_footer_page :
  pread sst_file_bytes (length sst_file_bytes - PAGE_SIZE_IN_BYTES) PAGE_SIZE_IN_BYTES = tail_footer_page.
Proof.
  unfold sst_file_bytes. rewrite !app_assoc, <- (app_nil_r (_ ++ tail_footer_page)), <- app_assoc.
  rewrite (length_app _ (tail_footer_page ++ _)), app_nil_r, length_footer_page, Nat.add_sub.
  rewrite <- (app_nil_r tail_footer_page) at 1. apply pread_part; [by rewrite length_footer_page|done].
Qed.

Lemma filter_length f : qf = Some f ->
  Z.of_nat (length tail_filter) = PAGE_SIZE + qf_allocated_size f /\
  qf_allocated_size f mod PAGE_SIZE = 0 /\ 0 < qf_allocated_size f < 2 ^ 62.
Proof.
  intros Ef. unfold tail_filter. rewrite Ef. destruct (Hqf f Ef) as (Hwf & _ & _).
  rewrite length_app, length_header_page, Nat2Z.inj_add, (length_data_pages q r f Hwf).
  split; [done|]. by eapply allocated_bound.
Qed.

(** The meta index is behind the index pages. *)
Lemma read_meta_part meta_size :
  meta_size = Z.of_nat (length tail_meta) ->
  pread sst_file_bytes (Z.to_nat (Z.of_nat (length (iw_file iw)))) (Z.to_nat meta_size) = tail_meta.
Proof. intros ->. rewrite !Nat2Z.id. by apply pread_part. Qed.

Lemma read_filter_parts f : qf = Some f ->
  let off := length (iw_file iw ++ tail_meta) in
  pread sst_file_bytes off PAGE_SIZE_IN_BYTES = qf_header_page heap f /\
  pread sst_file_bytes (off + PAGE_SIZE_IN_BYTES) (length (qf_data_pages f)) = qf_data_pages f.
Proof.
  intros Ef. cbv zeta. unfold sst_file_bytes, tail_filter. rewrite Ef. split.
  - rewrite (app_assoc (iw_file iw)), <- (app_assoc (qf_header_page heap f)). apply pread_part; [by rewrite length_header_page|done].
  - rewrite <- (length_header_page f), <- length_app.
    rewrite (app_assoc (iw_file iw)), <- (app_assoc (qf_header_page heap f)), (app_assoc _ (qf_header_page heap f)).
    apply pread_part; [done|]. destruct (Hqf f Ef) as (Hwf & _ & Hrw). by rewrite (length_data_pages q r f Hwf).
Qed.

Lemma filter_cases : (exists f, qf = Some f) \/ qf = None.
Proof. destruct qf; eauto. Qed.

Lemma meta_size_spec :
  u64 ((if 0 <? f_qf_size tail_footer then f_qf_offset tail_footer else f_footer_offset tail_footer)
       - f_meta_index_offset tail_footer) = Z.of_nat (length tail_meta).
Proof.
  destruct tail_bounds as [Hb _]. unfold tail_footer.
  cbn [f_qf_size f_qf_offset f_footer_offset f_meta_index_offset]. destruct filter_cases as [[f Ef]|Ef].
  - destruct (filter_length f Ef) as (Hl & _ & Hp). change PAGE_SIZE with 4096 in Hl. rewrite Ef.
    rewrite (proj2 (Z.ltb_lt _ _)) by lia. rewrite length_app, wrap_small; lia.
  - assert (tail_filter = []) as -> by (unfold tail_filter; by rewrite Ef). rewrite app_nil_r.
    change (0 <? Z.of_nat (@length Z [])) with false. cbv iota. rewrite length_app, wrap_small; lia.
Qed.

Lemma load_filter_part f : qf = Some f ->
  let data_size := u64 (f_qf_size tail_footer - PAGE_SIZE) in
  let data_buf := pread sst_file_bytes (Z.to_nat (u64 (f_qf_offset tail_footer + PAGE_SIZE)))
                    (Z.to_nat (ceil_page_align data_size)) in
  pread sst_file_bytes (Z.to_nat (f_qf_offset tail_footer)) PAGE_SIZE_IN_BYTES = qf_header_page heap f /\
  Z.of_nat (length data_buf) = ceil_page_align data_size /\
  qf_wrapper.load (qf_header_page heap f) data_buf data_size = Ok f.
Proof.
  intros Ef. destruct tail_bounds as [Hb _].
  destruct (filter_length f Ef) as (Hl & Ha & Hp), (read_filter_parts f Ef) as [R1 R2], (Hqf f Ef) as (Hwf & He & _).
  pose proof (length_data_pages q r f Hwf) as Hd. cbv zeta. unfold tail_footer. cbn [f_qf_size f_qf_offset].
  rewrite Hl, Z.add_simpl_l, (wrap_small 64 (qf_allocated_size f)) by lia.
  rewrite Ef, ceil_page_align_id, Nat2Z.id by (lia || done).
  replace (Z.to_nat (u64 (Z.of_nat (length (iw_file iw ++ tail_meta)) + PAGE_SIZE)))
    with (length (iw_file iw ++ tail_meta) + PAGE_SIZE_IN_BYTES)%nat.
  2:{ change PAGE_SIZE with 4096 in *. rewrite wrap_small by (rewrite length_app; lia).
      change PAGE_SIZE_IN_BYTES with 4096%nat. lia. }
  rewrite <- Hd, Nat2Z.id, R2. split_ands; [done|done|].
  rewrite <- (app_nil_r (qf_data_pages f)) at 1. rewrite Hd. by apply (load_pages heap q r).
Qed.

Lemma load_spec :
  sst_load sst_file_bytes =
  Ok (mk_sst_object sst_file_bytes (iw_meta iw) (make_super_index (iw_meta iw)) qf tail_footer).
Proof.
  destruct tail_bounds as [Hb Hm]. unfold sst_load.
  rewrite footer_page.
  rewrite read_footer_page, length_footer_page, Nat.eqb_refl. cbn [negb].
  replace (footer_of_bytes tail_footer_page) with tail_footer
    by (unfold tail_footer_page, padded; by rewrite footer_roundtrip by apply tail_footer_ok).
  rewrite bool_decide_eq_true_2 by done. cbn [negb]. rewrite meta_size_spec.
  change (f_meta_index_offset tail_footer) with (Z.of_nat (length (iw_file iw))).
  change (f_meta_index_entries tail_footer) with (Z.of_nat (length (iw_meta iw))).
  rewrite (read_meta_part _ eq_refl), Z.eqb_refl, Nat2Z.id. cbn [negb].
  assert ((if 0 <? Z.of_nat (length tail_meta) then Ok (read_meta_index (length (iw_meta iw)) tail_meta)
    else Ok (replicate (length (iw_meta iw)) [])) = (Ok (iw_meta iw) : expected (list bytes))) as ->.
  { destruct (Z.ltb_spec 0 (Z.of_nat (length tail_meta))) as [H0|H0].
    - unfold tail_meta, padded. by rewrite read_meta_index_spec.
    - assert (iw_meta iw = []) as -> by (apply nil_length_inv; lia). done. }
  cbn [mbind expected_bind]. destruct filter_cases as [[f Ef]|Ef].
  - destruct (filter_length f Ef) as (Hl & _ & Hp), (load_filter_part f Ef) as (-> & -> & ->).
    change (f_qf_size tail_footer) with (Z.of_nat (length tail_filter)). change PAGE_SIZE with 4096 in *.
    rewrite (proj2 (Z.ltb_lt _ _)) by lia. by rewrite length_header_page, Nat.eqb_refl, Z.eqb_refl, Ef.
  - assert (f_qf_size tail_footer = 0) as -> by (unfold tail_footer, tail_filter; by rewrite Ef). by rewrite Ef.
Qed.
End tail.

(** ** The filter made for a number of keys *)

Lemma quotient_bits_spec B fuel q slots :
  B <= 32 -> 0 <= q <= B -> slots <= 2 ^ B -> 33 - q <= Z.of_nat fuel ->
  exists q', quotient_bits fuel (2 ^ q) slots q = Some q' /\ q <= q' <= B /\ slots <= 2 ^ q'.
Proof.
  intros HB. revert q. induction fuel as [|fuel IH]; intros q Hq Hs Hf; [lia|]. cbn [quotient_bits].
  assert (2 ^ q <= 2 ^ 32) as Hle by (apply Z.pow_le_mono_r; lia).
  assert (0 < 2 ^ q) as Hpos by (apply Z.pow_pos_nonneg; lia).
  destruct (Z.ltb_spec (2 ^ q) slots) as [Hlt|Hge]; [|exists q; split_ands; done || lia].
  assert (q <> B) by (intros ->; lia).
  rewrite Z.shiftl_mul_pow2, wrap_small, wrap_small by lia.
  replace (2 ^ q * 2 ^ 1) with (2 ^ (q + 1)) by (rewrite Z.pow_add_r; lia).
  destruct (IH (q + 1)) as (q' & E & Hb & Hge); [lia|lia|lia|]. exists q'. split_ands; [done|lia|lia|done].
Qed.

(** The keys a filter is made for. *)
Definition FILTER_KEYS : Z := 3 * 2 ^ 30.

(** The keys up to which the meta index and the filter of a file take one
    write each, whatever the keys: a page holds at least one, and a meta
    index entry is at most 256 bytes. *)
Definition MAX_KEYS : Z := MAX_RW_COUNT / 256.

Lemma create_qf_spec n : 1 <= n <= FILTER_KEYS ->
  exists q, create_qf_for_key_count n = Some (qf_wrapper.make q QF_BITS_PER_KEY) /\ 0 < q <= 32 /\ n < 2 ^ q /\
    (n <= MAX_KEYS -> q <= 24).
Proof.
  unfold FILTER_KEYS. intros Hn. unfold create_qf_for_key_count. rewrite !wrap_small by (rewrite ?wrap_small; lia).
  change MAX_KEYS with 8388592.
  destruct (quotient_bits_spec (if n <=? 8388592 then 24 else 32) 64 0 ((n * 4 + 2) / 3)) as (q & E & Hq & Hs);
    [destruct (_ <=? _); lia..|destruct (Z.leb_spec n 8388592); Z.div_mod_to_equations; lia|lia|].
  change (2 ^ 0) with 1 in E. rewrite E. exists q. split; [done|].
  assert (n + 1 <= (n * 4 + 2) / 3) by (Z.div_mod_to_equations; lia).
  assert (q <= 32 /\ (n <= 8388592 -> q <= 24)) as [Hq32 Hq24] by (destruct (Z.leb_spec n 8388592); lia).
  split; [|split; [lia|done]]. destruct (Z.eq_dec q 0) as [->|]; [|lia]. change (2 ^ 0) with 1 in Hs. lia.
Qed.

Lemma filter_one_write q qf : qf_wf q QF_BITS_PER_KEY qf -> q <= 24 -> qf_allocated_size qf <= MAX_RW_COUNT.
Proof.
  intros Hwf Hq. pose proof (wf_q _ _ _ Hwf). unfold qf_allocated_size. rewrite (wf_qbits _ _ _ Hwf), (wf_rbits _ _ _ Hwf).
  assert (2 ^ q <= 2 ^ 24) by (apply Z.pow_le_mono_r; lia). assert (0 < 2 ^ q) by (apply Z.pow_pos_nonneg; lia).
  assert (0 <= qf_table_size q QF_BITS_PER_KEY <= 2 ^ 25) as Ht.
  { unfold qf_table_size, QF_BITS_PER_KEY. rewrite Z.shiftl_1_l, !wrap_small by (rewrite ?wrap_small; lia).
    destruct (_ =? _); Z.div_mod_to_equations; lia. }
  destruct (ceil_page_align_spec (qf_table_size q QF_BITS_PER_KEY)) as [_ Hb]; [lia|].
  change PAGE_SIZE with 4096 in Hb. unfold MAX_RW_COUNT. lia.
Qed.

(** The meta index of at most [MAX_KEYS] entries takes one write. *)
Lemma meta_one_write slack metas :
  Forall (fun k => (length k < MAX_KEY_LEN)%nat) metas -> Z.of_nat (length metas) <= MAX_KEYS ->
  Z.of_nat (length (padded slack (foldl append_meta_index_key [] metas))) <= MAX_RW_COUNT.
Proof.
  intros Hk Hn. change MAX_KEYS with 8388592 in Hn.
  assert (forall acc, Z.of_nat (length (foldl append_meta_index_key acc metas)) <= Z.of_nat (length acc) + 256 * Z.of_nat (length metas)) as H.
  { clear Hn. induction Hk as [|k metas Hk _ IH]; intros acc; cbn [foldl length]; [lia|]. etrans; [apply IH|].
    unfold append_meta_index_key, write_key. rewrite length_app. unfold MAX_KEY_LEN in Hk. cbn. lia. }
  specialize (H []). cbn [length] in H. rewrite length_padded by lia. unfold aligned_size.
  destruct (ceil_page_align_spec (Z.of_nat (length (foldl append_meta_index_key [] metas)))) as [Hm Hb]; [lia|].
  change PAGE_SIZE with 4096 in *. unfold MAX_RW_COUNT. rewrite Z2Nat.id by lia. Z.div_mod_to_equations. lia.
Qed.

(** No key of [keys] is missed by the filter. *)
Lemma filter_of_keys (hash : bytes -> Z) (keys : list bytes) n :
  (forall k, 0 <= hash k) -> 1 <= n <= FILTER_KEYS -> Z.of_nat (length keys) <= n ->
  exists q qf0 qf, create_qf_for_key_count n = Some (Ok qf0) /\ insert_all qf0 (hash <$> keys) = Some qf /\
    qf_wf q QF_BITS_PER_KEY qf /\ 0 <= qf_entries qf < 2 ^ 32 /\ (n <= MAX_KEYS -> qf_allocated_size qf <= MAX_RW_COUNT) /\
    forall k, exists b, qf_may_contain qf (hash k) = Some b /\ (k ∈ keys -> b = true).
Proof.
  intros Hh Hn Hk. destruct (create_qf_spec n Hn) as (q & -> & Hq & Hlt & Hq24).
  destruct (filter_of_hashes q QF_BITS_PER_KEY (hash <$> keys)) as (qf0 & qf & E0 & E1 & Hwf & He & Hm);
    [lia|unfold QF_BITS_PER_KEY; lia|unfold QF_BITS_PER_KEY; lia|by apply Forall_fmap, Forall_true|rewrite length_fmap; lia|].
  exists q, qf0, qf. unfold qf_wrapper.make. rewrite E0. split_ands; try done; [lia| | |].
  - assert (2 ^ q <= 2 ^ 32) by (apply Z.pow_le_mono_r; lia). lia.
  - intros Hm2. apply (filter_one_write q); [done|by apply Hq24].
  - intros k. destruct (Hm (hash k) (Hh k)) as (b & Eb & Hb). exists b. split; [done|].
    intros Hin. apply Hb. exists (hash k). split; [|done]. by apply list_elem_of_fmap_2.
Qed.

(** ** What the writer counts *)

Section counted.
Context (xxh64_hash : bytes -> Z -> Z).

Lemma flush_indexed b out b' : flush_buffer xxh64_hash b = (out, b') -> wb_indexed_kvs b' = wb_indexed_kvs b.
Proof. unfold flush_buffer. destruct (force_commit _ _ _) as [mem w]. by intros [= <- <-]. Qed.

Lemma write_item_indexed b k v s b' metas : write_item xxh64_hash b k v = Some (s, b', metas) ->
  wb_indexed_kvs b' = (wb_indexed_kvs b + match s with Ok _ => 1 | Err _ => 0 end)%nat.
Proof.
  unfold write_item. destruct (writer_push _ _ _ _ _) as [[[st [mem w]] ms]|]; [|done]. cbn [mbind option_bind].
  destruct st; intros [= <- <- <-]; cbn; lia.
Qed.

Lemma write_kvs_indexed l iw iw' : write_kvs xxh64_hash iw l = Ok iw' ->
  wb_indexed_kvs (iw_buf iw') = (wb_indexed_kvs (iw_buf iw) + length l)%nat.
Proof.
  revert iw. induction l as [|x l IH]; intros iw; cbn [write_kvs]; [intros [= ->]; cbn; lia|].
  destruct (write_kv xxh64_hash iw x) as [iw1|] eqn:E; cbn [mbind expected_bind]; [|done].
  intros H. rewrite (IH _ H). cbn [length].
  enough (wb_indexed_kvs (iw_buf iw1) = S (wb_indexed_kvs (iw_buf iw))) by lia.
  unfold write_kv in E. destruct (write_item _ _ _ _) as [[[s b] ms]|] eqn:E1; [|done]. apply write_item_indexed in E1.
  destruct s; [injection E as <-; cbn; lia|].
  destruct (flush_buffer xxh64_hash b) as [out b2] eqn:E2. apply flush_indexed in E2.
  destruct (write_item xxh64_hash b2 _ _) as [[[s2 b3] ms2]|] eqn:E3; [|done]. apply write_item_indexed in E3.
  destruct s2; [|done]. injection E as <-. cbn. lia.
Qed.

Lemma finish_indexed iw : wb_indexed_kvs (iw_buf (finish_index xxh64_hash iw)) = wb_indexed_kvs (iw_buf iw).
Proof.
  unfold finish_index. destruct (writer_empty _); [done|].
  destruct (flush_buffer xxh64_hash (iw_buf iw)) as [out b] eqn:E. by apply flush_indexed in E.
Qed.
End counted.

(** ** Looking keys up in the whole file *)

Section whole.
Context (xxh64_hash : bytes -> Z -> Z) (pages : bytes) (meta : list bytes) (items : list kv).
Context (Hrep : sst_rep xxh64_hash pages meta items) (Hsorted : sorted_kvs items).
Context (Hkeys : Forall (fun x => (1 <= length x.1 < MAX_KEY_LEN)%nat) items).

Lemma sst_lookup_whole rest super key : super = None \/ super = make_super_index meta ->
  sst_lookup xxh64_hash (pages ++ rest) meta super key = Some (lookup_spec (assoc key items)).
Proof.
  intros Hsuper. assert (super = None \/ super = Some (create_super_index KEYS_PER_META_INDEX_PAGE meta))
    as Hsup by (destruct Hsuper as [->| ->]; [by left|unfold make_super_index; case_match; auto]).
  rewrite <- (sst_lookup_spec _ _ _ _ Hrep Hsorted Hkeys _ key Hsup).
  destruct (sr_chunks _ _ _ _ Hrep) as (chunks & Hcat & _ & Hne & Hlen & Hmeta). subst items meta.
  unfold sst_lookup. pose proof (find_page_spec chunks Hne Hsorted KEYS_PER_META_INDEX_PAGE _ key ltac:(vm_compute; lia) Hsup) as Hf.
  destruct (_find_page_id _ _ _ key) as [p|]; [|done]. destruct Hf as (c & Hc & _). apply lookup_lt_Some in Hc.
  enough (read_at (pages ++ rest) (p * PAGE_SIZE_IN_BYTES) PAGE_SIZE_IN_BYTES =
    read_at pages (p * PAGE_SIZE_IN_BYTES) PAGE_SIZE_IN_BYTES) as -> by done.
  clear -Hlen Hc. generalize dependent PAGE_SIZE_IN_BYTES. intros n Hlen. unfold read_at.
  rewrite drop_app_le by nia. apply take_app_le. rewrite length_drop. nia.
Qed.

Lemma meta_keys : Forall key_ok meta /\ Forall (fun k => (length k < MAX_KEY_LEN)%nat) meta /\ (length meta <= length items)%nat.
Proof.
  destruct (sr_chunks _ _ _ _ Hrep) as (chunks & Hcat & _ & Hne & _ & ->). subst items.
  assert (forall c, c ∈ chunks -> (1 <= length (last_key [] c) < MAX_KEY_LEN)%nat) as Hb.
  { intros c Hc. rewrite Forall_forall in Hne. destruct (last_key_elem c (Hne c Hc)) as [v Hv].
    assert ((last_key [] c, v) ∈ concat chunks) as Hin by (apply elem_chunk; apply list_elem_of_lookup in Hc as [i Hi]; by exists i, c).
    exact (proj1 (Forall_forall _ _) Hkeys _ Hin). }
  split_ands.
  - apply Forall_fmap, Forall_forall. intros c Hc. destruct (Hb c Hc). unfold key_ok, MIN_KEY_LEN. cbn. lia.
  - apply Forall_fmap, Forall_forall. intros c Hc. by destruct (Hb c Hc).
  - rewrite length_fmap. clear -Hne. induction Hne as [|c chunks Hc _ IH]; [done|]. cbn [concat length].
    rewrite length_app. destruct c; [done|]. cbn [length]. lia.
Qed.
End whole.

(** ** Flushing and loading *)

(** What every SST object gives its readers for the entries [items]. *)
Definition serves (xxh64_hash : bytes -> Z -> Z) (s : sst) (items : list kv) : Prop :=
  forall key,
    sst_lookup xxh64_hash (st_file s) (st_meta_index s) (st_super_index s) key = Some (lookup_spec (assoc key items)) /\
    exists b, sst_probe_filter s (key_hash xxh64_hash key) = Some b /\ (assoc key items <> None -> b = true).

Section flush.
Context (xxh64_hash : bytes -> Z -> Z) (heap : heap_bytes).
Context (Hhash : forall b seed, 0 <= xxh64_hash b seed).

Definition file_item_ok (x : kv) : Prop := (1 <= length x.1 < MAX_KEY_LEN)%nat /\ entry_fits x.

(** The file of sorted entries with a filter made for [n] of them. *)
Lemma written_file n (items : list kv) pages :
  1 <= n <= MAX_KEYS -> Z.of_nat (length items) <= n -> (0 < pages)%nat -> sorted_kvs items -> Forall file_item_ok items ->
  exists qf0 qf iw, create_qf_for_key_count n = Some (Ok qf0) /\
    insert_all qf0 ((fun x => key_hash xxh64_hash x.1) <$> items) = Some qf /\
    write_kvs xxh64_hash (make_index_writer pages) items = Ok iw /\
    sst_rep xxh64_hash (iw_file (finish_index xxh64_hash iw)) (iw_meta (finish_index xxh64_hash iw)) items /\
    forall upper epoch seq, let f := finish_index xxh64_hash iw in
      (forall rest, write_tail heap (iw_file f ++ rest) f (Some qf) upper epoch seq =
        Ok (mk_sst_object (sst_file_bytes heap f (Some qf) upper epoch seq) (iw_meta f) None (Some qf)
              (tail_footer heap f (Some qf) upper epoch seq))) /\
      (0 <= upper < 2 ^ 64 -> 0 <= epoch < 2 ^ 64 -> 0 <= seq < 2 ^ 64 ->
       Z.of_nat (length (sst_file_bytes heap f (Some qf) upper epoch seq)) < 2 ^ 63 ->
       sst_load (sst_file_bytes heap f (Some qf) upper epoch seq) =
       Ok (mk_sst_object (sst_file_bytes heap f (Some qf) upper epoch seq) (iw_meta f) (make_super_index (iw_meta f))
             (Some qf) (tail_footer heap f (Some qf) upper epoch seq))) /\
      forall super, super = None \/ super = make_super_index (iw_meta f) ->
        serves xxh64_hash (mk_sst_object (sst_file_bytes heap f (Some qf) upper epoch seq) (iw_meta f)
          super (Some qf) (tail_footer heap f (Some qf) upper epoch seq)) items.
Proof.
  intros Hn Hlen Hp Hs Hi.
  assert (Forall (fun x => (1 <= length x.1 < MAX_KEY_LEN)%nat) items) as Hk by (eapply Forall_impl; [exact Hi|]; by intros x []).
  destruct (filter_of_keys (key_hash xxh64_hash) items.*1 n) as (q & qf0 & qf & E0 & E1 & Hwf & He & Hrw & Hm);
    [intros; apply Hhash|split; [lia|etrans; [apply Hn|done]]|by rewrite length_fmap|]. rewrite <- list_fmap_compose in E1.
  destruct (short_keys_ok items Hk) as [Hok _].
  destruct (write_sst_spec xxh64_hash pages items Hp) as (iw & Hw & Hrep).
  { rewrite Forall_forall in *. intros x Hx. split; [by apply Hok|by apply Hi]. }
  exists qf0, qf, iw. split_ands; try done. intros upper epoch seq f.
  assert (forall g, Some qf = Some g -> qf_wf q QF_BITS_PER_KEY g /\ 0 <= qf_entries g < 2 ^ 32 /\ qf_allocated_size g <= MAX_RW_COUNT)
    as Hqf by (intros g [= <-]; split_ands; [done|apply He|apply He|apply Hrw, Hn]).
  assert (Z.of_nat (length (tail_meta heap f)) <= MAX_RW_COUNT) as Hmrw.
  { destruct (meta_keys _ _ _ _ Hrep Hs Hk) as (M1 & M2 & M3). apply meta_one_write; [done|unfold f; lia]. }
  split_ands.
  - intros rest. by eapply write_tail_spec.
  - intros Hu Hep Hsq Hsz. eapply load_spec; try done.
    + unfold f. rewrite finish_indexed, (write_kvs_indexed _ _ _ _ Hw). cbn. change MAX_KEYS with 8388592 in Hn. lia.
    + by eapply meta_keys.
  - intros super Hsuper key. cbn [st_file st_meta_index st_super_index]. split.
    + unfold sst_file_bytes. by apply sst_lookup_whole.
    + unfold sst_probe_filter. cbn [st_qf]. destruct (Hm key) as (b & Eb & Hb). exists b. split; [done|].
      intros Ha. destruct (assoc key items) as [v|] eqn:Ea; [|done]. apply Hb.
      apply assoc_elem in Ea; [|done]. apply list_elem_of_fmap. by exists (key, v).
Qed.
End flush.

Definition mt_kv (e : memtable_entry) : kv := (mt_key e, mt_value e).

Lemma newest_versions_incl prev l : incl (newest_versions prev l) l /\ (length (newest_versions prev l) <= length l)%nat.
Proof.
  revert prev. induction l as [|e l IH]; intros prev; cbn [newest_versions]; [split; [apply incl_refl|done]|].
  case_bool_decide.
  - destruct (IH prev) as [H1 H2]. split; [by apply incl_tl|cbn; lia].
  - destruct (IH (Some (mt_key e))) as [H1 H2]. split; [|cbn; lia].
    apply incl_cons; [by left|by apply incl_tl].
Qed.

Lemma newest_versions_Forall (P : memtable_entry -> Prop) prev l : Forall P l -> Forall P (newest_versions prev l).
Proof.
  intros H. apply Forall_forall. intros e He. rewrite Forall_forall in H. apply H, list_elem_of_In.
  apply (proj1 (newest_versions_incl prev l)). by apply list_elem_of_In.
Qed.

Lemma max_seq_range (l : list Z) acc : 0 <= acc < 2 ^ 64 -> Forall (fun x => 0 <= x < 2 ^ 64) l -> 0 <= foldl Z.max acc l < 2 ^ 64.
Proof. intros Ha Hl. revert acc Ha. induction Hl as [|x l Hx _ IH]; intros acc Ha; cbn [foldl]; [done|]. apply IH. lia. Qed.

(** What a flush writes. *)
Section export.
Context (xxh64_hash : bytes -> Z -> Z) (heap : heap_bytes) (l : list memtable_entry) (avg upper epoch : Z).
Context (Hhash : forall b seed, 0 <= xxh64_hash b seed).
Context (Hne : l <> []) (Hcount : Z.of_nat (length l) <= MAX_KEYS) (Hsorted : StronglySorted mt_lt l).
Context (Hitems : Forall (fun e => file_item_ok (mt_kv e)) l) (Hseq : Forall (fun e => 0 <= mt_seq e < 2 ^ 64) l).

Lemma export_spec :
  let items := mt_kv <$> newest_versions None l in
  let seq := foldl Z.max 0 (mt_seq <$> newest_versions None l) in
  exists qf iw, let f := finish_index xxh64_hash iw in
    let file := sst_file_bytes heap f (Some qf) upper epoch seq in
    let footer := tail_footer heap f (Some qf) upper epoch seq in
    _export_as_sst_async xxh64_hash heap l (Z.of_nat (length l)) avg upper epoch =
      Some (Ok (mk_sst_object file (iw_meta f) None (Some qf) footer)) /\
    sorted_kvs items /\ sst_rep xxh64_hash (iw_file f) (iw_meta f) items /\
    wb_indexed_kvs (iw_buf f) = length items /\ 0 <= seq < 2 ^ 64 /\
    (0 <= upper < 2 ^ 64 -> 0 <= epoch < 2 ^ 64 -> Z.of_nat (length file) < 2 ^ 63 ->
     sst_load file = Ok (mk_sst_object file (iw_meta f) (make_super_index (iw_meta f)) (Some qf) footer)) /\
    forall super, super = None \/ super = make_super_index (iw_meta f) ->
      serves xxh64_hash (mk_sst_object file (iw_meta f) super (Some qf) footer) items.
Proof.
  intros items seq. assert (1 <= Z.of_nat (length l)) as Hpos by (destruct l; [done|cbn [length]; lia]).
  destruct (newest_versions_spec None l Hsorted) as (Hs & _ & _); [done|].
  assert (sorted_kvs items) as Hsi by (by apply mt_sorted_kvs).
  assert (0 <= seq < 2 ^ 64) as Hsq by (apply max_seq_range; [lia|]; apply Forall_fmap; by apply newest_versions_Forall).
  destruct (written_file xxh64_hash heap Hhash (Z.of_nat (length l)) items WRITE_BUF_PAGES)
    as (qf0 & qf & iw & E0 & E1 & Ew & Hrep & Hw); [lia| |vm_compute; lia|done| |].
  { unfold items. rewrite length_fmap. pose proof (proj2 (newest_versions_incl None l)). lia. }
  { apply Forall_fmap. by apply newest_versions_Forall. }
  unfold items in E1, Ew. rewrite <- list_fmap_compose in E1.
  assert (insert_all qf0 ((fun e => key_hash xxh64_hash (mt_key e)) <$> newest_versions None l) = Some qf) as E1' by exact E1.
  assert (write_kvs xxh64_hash (make_index_writer WRITE_BUF_PAGES)
    ((fun e => (mt_key e, mt_value e)) <$> newest_versions None l) = Ok iw) as Ew' by exact Ew.
  destruct (Hw upper epoch seq) as (Ht & Hl & Hserve). exists qf, iw. cbv zeta. split_ands; try done.
  - unfold _export_as_sst_async, _write_index. rewrite E0. cbn [mbind option_bind]. rewrite E1'.
    cbn [mbind option_bind]. rewrite Ew'. cbn [mbind expected_bind]. by rewrite pwrite_start, Ht.
  - by rewrite finish_indexed, (write_kvs_indexed _ _ _ _ Ew).
  - lia.
  - lia.
  - intros. by apply Hl.
Qed.
End export.

(** C15: an SST survives a restart. Flushing a sorted range of memtable
    entries that is not empty, has at most [MAX_KEYS] entries (8388592: so
    many that the meta index and the filter take one write each) and entries
    that fit a page succeeds, and loading the file it wrote gives back the meta
    index, the quotient filter and the footer; in the loaded SST every
    lookup finds the newest version the range has of the key, and the
    filter passes every key of the range. *)
Theorem flush_reload (xxh64_hash : bytes -> Z -> Z) (heap : heap_bytes) (l : list memtable_entry) (avg upper epoch : Z)
    (Hhash : forall b seed, 0 <= xxh64_hash b seed)
    (Hne : l <> []) (Hcount : Z.of_nat (length l) <= MAX_KEYS) (Hsorted : StronglySorted mt_lt l)
    (Hitems : Forall (fun e => file_item_ok (mt_kv e)) l) (Hseq : Forall (fun e => 0 <= mt_seq e < 2 ^ 64) l)
    (Hupper : 0 <= upper < 2 ^ 64) (Hepoch : 0 <= epoch < 2 ^ 64) :
  exists s, _export_as_sst_async xxh64_hash heap l (Z.of_nat (length l)) avg upper epoch = Some (Ok s) /\
    (Z.of_nat (length (st_file s)) < 2 ^ 63 ->
     exists s', sst_load (st_file s) = Ok s' /\ st_meta_index s' = st_meta_index s /\ st_qf s' = st_qf s /\
       st_footer s' = st_footer s /\ serves xxh64_hash s' (mt_kv <$> newest_versions None l)).
Proof.
  destruct (export_spec xxh64_hash heap l avg upper epoch Hhash Hne Hcount Hsorted Hitems Hseq)
    as (qf & iw & E & _ & _ & _ & _ & Hl & Hs).
  eexists. split; [exact E|]. cbn [st_file]. intros Hsz. eexists. split; [by apply Hl|]. split_ands; try done.
  apply Hs. by right.
Qed.

Definition no_heap : heap_bytes := mk_heap_bytes (fun _ => 0) 0 0 (fun _ => 0) (fun _ => 0).

Lemma flush_reload_witness :
  let l := [mk_mt_entry [1] 5 [1]; mk_mt_entry [1] 2 [2]; mk_mt_entry [3] 4 [1]] in
  exists s, _export_as_sst_async (fun b _ => Z.of_nat (length b)) no_heap l 3 2 0 1 = Some (Ok s) /\
    (Z.of_nat (length (st_file s)) < 2 ^ 63 ->
     exists s', sst_load (st_file s) = Ok s' /\ st_meta_index s' = st_meta_index s /\ st_qf s' = st_qf s /\
       st_footer s' = st_footer s /\ serves (fun b _ => Z.of_nat (length b)) s' (mt_kv <$> newest_versions None l)).
Proof.
  intros l. apply (flush_reload (fun b _ => Z.of_nat (length b)) no_heap l 2 0 1).
  - intros. lia.
  - discriminate.
  - vm_compute. discriminate.
  - repeat constructor; unfold mt_lt; simpl; (by left) || (right; split; [done|lia]).
  - repeat constructor; vm_compute; lia.
  - repeat constructor; vm_compute; discriminate.
  - lia.
  - lia.
Defined.

(** A merged SST is complete. When the merged entries are written to a
    file with a filter for at least as many keys, every lookup in the new
    SST finds what was merged, the filter passes every merged key, and
    loading the file gives back the same SST. *)
Theorem merge_output_reload (xxh64_hash : bytes -> Z -> Z) (heap : heap_bytes) (items : list kv) (pages : nat)
    (max_keys size upper epoch seq : Z)
    (Hhash : forall b seed, 0 <= xxh64_hash b seed)
    (Hmax : 1 <= max_keys <= MAX_KEYS) (Hlen : Z.of_nat (length items) <= max_keys) (Hpages : (0 < pages)%nat)
    (Hsorted : sorted_kvs items) (Hitems : Forall file_item_ok items)
    (Hupper : 0 <= upper < 2 ^ 64) (Hepoch : 0 <= epoch < 2 ^ 64) (Hseq : 0 <= seq < 2 ^ 64) :
  exists s, merge_output xxh64_hash heap items pages max_keys size upper epoch seq = Some (Ok s) /\
    serves xxh64_hash s items /\
    (Z.of_nat (length (st_file s)) < 2 ^ 63 -> sst_load (st_file s) = Ok s).
Proof.
  destruct (written_file xxh64_hash heap Hhash max_keys items pages Hmax Hlen Hpages Hsorted Hitems)
    as (qf0 & qf & iw & E0 & E1 & Ew & _ & Hw).
  unfold merge_output. rewrite E0. cbn [mbind option_bind]. rewrite E1. cbn [mbind option_bind].
  rewrite Ew. cbn [mbind expected_bind]. rewrite pwrite_start.
  destruct (Hw upper epoch seq) as (Ht & Hl & Hserve). rewrite Ht. cbn [mbind expected_bind].
  eexists. split; [done|]. split; [apply Hserve; by right|]. intros Hsz. by apply Hl.
Qed.

Lemma merge_output_witness :
  exists s, merge_output (fun b _ => Z.of_nat (length b)) no_heap [([1], [1]); ([3], [1])] 1 3 8192 0 1 5 = Some (Ok s) /\
    serves (fun b _ => Z.of_nat (length b)) s [([1], [1]); ([3], [1])] /\
    (Z.of_nat (length (st_file s)) < 2 ^ 63 -> sst_load (st_file s) = Ok s).
Proof.
  apply (merge_output_reload (fun b _ => Z.of_nat (length b)) no_heap [([1], [1]); ([3], [1])] 1 3 8192 0 1 5);
    try lia; try (vm_compute; split; discriminate); try (cbn; lia); repeat constructor; vm_compute; lia.
Defined.

(** What is not an SST is refused. Loading a file that is shorter than
    a page, or whose last page does not start with the magic string, is an
    error. *)
Theorem load_rejects (file : bytes)
    (Hbad : (length file < PAGE_SIZE_IN_BYTES)%nat \/
            read_at file (length file - PAGE_SIZE_IN_BYTES) 12 <> footer_magic) :
  exists e, sst_load file = Err e.
Proof.
  unfold sst_load. rewrite footer_page.
  unfold pread. rewrite transferred_small by (unfold read_at; rewrite length_take; change PAGE_SIZE_IN_BYTES with 4096%nat; unfold MAX_RW_COUNT; lia).
  destruct (Nat.eqb_spec (length (read_at file (length file - PAGE_SIZE_IN_BYTES) PAGE_SIZE_IN_BYTES))
    PAGE_SIZE_IN_BYTES) as [Hl|]; [|by eexists]. cbn [negb].
  rewrite bool_decide_eq_false_2; [by eexists|]. destruct Hbad as [Hs|Hm].
  - unfold read_at in Hl. rewrite length_take, length_drop in Hl. lia.
  - intros E. apply Hm. rewrite <- E. unfold read_at. by rewrite take_take.
Qed.

Lemma load_rejects_witness : exists e, sst_load [1; 2; 3] = Err e.
Proof. apply (load_rejects [1; 2; 3]). left. vm_compute. lia. Defined.
