(* ===== verification/MergeFile.v ===== *)
(** * The k-way merge on files (src/db/merge/merge.cc)

    [index_ops::k_way_merge_async2] as a whole. The inputs are SST objects;
    a stream reads each of them ahead, the heap holds one pending entry per
    stream, a refresh of the buffers touches every stream that runs low, and
    what leaves the deduplicator goes to the filter and the write buffer of
    the output at once. The merge is shown to write exactly the entries that
    the loop of Merge gives for the entries the inputs store, and to leave
    an SST that stores them and can be an input again. *)

From stdpp Require Import base numbers option list strings sorting sets.
From Stdlib Require Import ZArith Lia SpecFloat.
From S2P Require Import Prelude StdAlgo Types Utils QuotientFilter QfCorrect Block BlockBuffer Merge Sst SstStream SstFile.

(** ** Floating point *)

(** A [size_t] converted to [double], and the literal [0.35]. *)
Definition double_of_size (n : Z) : spec_float := binary_normalize 53 1024 n 0 false.

Definition REFRESH_THRESHOLD : spec_float := S754_finite false 6305039478318694 (-54).

(** ** The state of a merge *)

(** An SST with what its [fs::file] base records: whether it was opened for
    direct access, and the size it was opened or created with. *)
Record sst_object := mk_sst_file {
  so_sst : sst;
  so_direct : bool;
  so_file_size : Z;
}.

Definition so_footer (s : sst_object) : sst_footer := st_footer (so_sst s).

(** An input with its stream; [rb_index] is what [index] refers to. *)
Record rbuf := mk_rbuf { rb_index : sst_object; rb_stream : sst_stream }.

Record merge_config := mk_merge_config {
  mc_read_ahead_size : Z;
  mc_discard_deleted_keys : bool;
  mc_create_new_with_odirect : bool;
}.

(** The source of a slot is the position of its stream. *)
Record merger := mk_merger {
  mg_rbufs : list rbuf;
  mg_heap : list (slot_t nat);
  mg_dedup : deduplicator;
  mg_qf : option quotient_filter;
  mg_writer : index_writer;
  mg_filtered : nat;
}.

(** [std::accumulate] over [size_t] values. *)
Definition accumulate (l : list Z) : Z := foldl (fun acc x => u64 (acc + x)) 0%Z l.

Definition merge_read_ahead (read_ahead_size : Z) (inputs : nat) : Z :=
  let r := (read_ahead_size / Z.of_nat inputs)%Z in
  if is_page_aligned r then r else ceil_page_align r.

(** The read-ahead up to which the read of a stream and the flush of the
    write buffer, which has twice its size, are one system call each. *)
Definition MAX_READ_AHEAD : Z := 2 ^ 29.

Section merge_files.
Context (xxh64_hash : bytes -> Z -> Z) (heap : heap_bytes).

(** One stream over the index pages of an input. *)
Definition open_rbuf (read_ahead : Z) (s : sst_object) : rbuf :=
  mk_rbuf s (make_stream (make_file_reader (st_file (so_sst s)) (so_direct s)
    (Z.to_nat (f_index_offset (so_footer s))) (Z.to_nat (f_meta_index_offset (so_footer s))) (Z.to_nat read_ahead))).

Definition runs_low (read_ahead : Z) (s : sst_stream) : bool :=
  SFltb (SFdiv 53 1024 (double_of_size (Z.of_nat (ss_size s))) (double_of_size read_ahead)) REFRESH_THRESHOLD.

Definition refresh_if_low (read_ahead : Z) (s : sst_stream) : option (status * sst_stream) :=
  if runs_low read_ahead s then refresh xxh64_hash s else Some (ok, s).

(** [refresh_buffers]; [None] is an exception or an access outside of a
    buffer. *)
Fixpoint refresh_buffers (read_ahead : Z) (rbufs : list rbuf) : option (expected (list rbuf)) :=
  match rbufs with
  | [] => Some (Ok [])
  | rb :: rest =>
      '(st, s) ← refresh_if_low read_ahead (rb_stream rb);
      match st with
      | Err _ => Some (Err (generic_error "Failed to read from buffer during buffer refresh"))
      | Ok _ =>
          r ← refresh_buffers read_ahead rest;
          match r with
          | Err e => Some (Err e)
          | Ok rest => Some (Ok (mk_rbuf (rb_index rb) s :: rest))
          end
      end
  end.

(** The next entry of a stream, after a refresh if its buffers are used up;
    nothing at the end of the stream. The main loop parses the value first
    ([check]), the initialisation of the heap does not. *)
Definition next_entry (check : bool) (read_ahead : Z) (rbufs : list rbuf) (i : nat)
    : option (expected (list rbuf * option merge_entry_t)) :=
  rb ← rbufs !! i;
  if ss_is_eof (rb_stream rb) then Some (Ok (rbufs, None))
  else
    r ← (if ss_buffer_empty (rb_stream rb) then refresh_buffers read_ahead rbufs else Some (Ok rbufs));
    match r with
    | Err e => Some (Err (generic_error "Failed to refresh views"))
    | Ok rbufs =>
        rb ← rbufs !! i;
        x ← ss_front (rb_stream rb);
        if check && negb (is_ok (value_from_span x.2))
        then Some (Err (generic_error "Failed to parse value from index entry during heap initialization"))
        else
          '(st, s) ← ss_pop_front xxh64_hash (rb_stream rb);
          match st with
          | Err e => Some (Err e)
          | Ok _ => Some (Ok (<[i := mk_rbuf (rb_index rb) s]> rbufs,
                              Some (mk_entry x.1 x.2 (f_epoch (so_footer (rb_index rb))))))
          end
    end.

(** The heap of the first entries, from the stream at [i] on. *)
Fixpoint fill_heap (n : nat) (read_ahead : Z) (i : nat) (rbufs : list rbuf) (key_heap : list (slot_t nat))
    : option (expected (list rbuf * list (slot_t nat))) :=
  match n with
  | O => Some (Ok (rbufs, key_heap))
  | S n =>
      r ← next_entry false read_ahead rbufs i;
      match r with
      | Err e => Some (Err e)
      | Ok (rbufs, None) => fill_heap n read_ahead (S i) rbufs key_heap
      | Ok (rbufs, Some e) => fill_heap n read_ahead (S i) rbufs (push_heap key_heap (mk_slot e i))
      end
  end.

(** What is done with an item that left the deduplicator: dropped when it
    is a tombstone and those are discarded, otherwise put in the filter and
    written ([try_push_kv], [flush_and_retry]). *)
Definition output_item (discard_deleted_keys : bool) (m : merger) (item : merge_entry_t) : option (expected merger) :=
  if discard_deleted_keys && is_tombstone item
  then Some (Ok (mk_merger (mg_rbufs m) (mg_heap m) (mg_dedup m) (mg_qf m) (mg_writer m) (mg_filtered m + 1)))
  else
    qf ← match mg_qf m with
         | None => Some None
         | Some qf => x ← qf_insert qf (key_hash xxh64_hash (me_key item)); Some (Some x.2)
         end;
    match write_kv xxh64_hash (mg_writer m) (me_key item, me_value item) with
    | Err e => Some (Err e)
    | Ok w => Some (Ok (mk_merger (mg_rbufs m) (mg_heap m) (mg_dedup m) qf w (mg_filtered m)))
    end.

(** An item that is ready leaves the deduplicator. *)
Definition output_ready (discard : bool) (m : merger) : option (expected merger) :=
  if dedup_ready (mg_dedup m) then
    '(item, d) ← dedup_pop (mg_dedup m);
    output_item discard (mk_merger (mg_rbufs m) (mg_heap m) d (mg_qf m) (mg_writer m) (mg_filtered m)) item
  else Some (Ok m).

(** The loop. It ends when the heap is empty; [fuel] bounds the rounds. *)
Fixpoint merge_files_loop (fuel : nat) (discard : bool) (read_ahead : Z) (m : merger) : option (expected merger) :=
  match pop_heap (mg_heap m), fuel with
  | None, _ => Some (Ok m)
  | Some _, O => None
  | Some (slot, key_heap), S fuel =>
      let dedup := dedup_push (mg_dedup m) (sl_entry slot) in
      r ← next_entry true read_ahead (mg_rbufs m) (sl_source slot);
      match r with
      | Err e => Some (Err e)
      | Ok (rbufs, e) =>
          let key_heap := match e with
                          | None => key_heap
                          | Some e => push_heap key_heap (mk_slot e (sl_source slot))
                          end in
          r ← output_ready discard (mk_merger rbufs key_heap dedup (mg_qf m) (mg_writer m) (mg_filtered m));
          match r with
          | Err e => Some (Err e)
          | Ok m => merge_files_loop fuel discard read_ahead m
          end
      end
  end.

(** The items left in the deduplicator. *)
Definition output_last (discard : bool) (m : merger) : option (expected merger) :=
  r ← output_ready discard m;
  match r with
  | Err e => Some (Err e)
  | Ok m =>
      '(item, d) ← dedup_force_pop (mg_dedup m);
      output_item discard (mk_merger (mg_rbufs m) (mg_heap m) d (mg_qf m) (mg_writer m) (mg_filtered m)) item
  end.

(** The merged index pages, with their filter. *)
Definition merge_index (discard : bool) (read_ahead : Z) (indices : list sst_object)
    (max_new_index_keys : Z) : option (expected merger) :=
  made ← create_qf_for_key_count max_new_index_keys;
  let qf := match made with Err _ => None | Ok qf => Some qf end in
  r ← refresh_buffers read_ahead (open_rbuf read_ahead <$> indices);
  match r with
  | Err _ => Some (Err (generic_error "Failed to perform initial buffer refresh"))
  | Ok rbufs =>
      r ← fill_heap (length rbufs) read_ahead 0 rbufs [];
      match r with
      | Err e => Some (Err e)
      | Ok (rbufs, key_heap) =>
          let buf_pages := Z.to_nat (read_ahead * 2 / PAGE_SIZE) in
          r ← merge_files_loop (Z.to_nat max_new_index_keys) discard read_ahead
                (mk_merger rbufs key_heap empty_dedup qf (make_index_writer buf_pages) 0);
          match r with
          | Err e => Some (Err e)
          | Ok m => output_last discard m
          end
      end
  end.

(** The whole merge. The new file keeps the estimated size as its size. *)
Definition k_way_merge_async2 (config : merge_config) (indices : list sst_object) : option (expected sst_object) :=
  match indices with
  | [] => None
  | first :: _ =>
      let upper_bound := f_upper_bound (so_footer first) in
      if negb (forallb (fun idx => (f_upper_bound (so_footer idx) =? upper_bound)%Z) indices)
      then Some (Err (generic_error "All indices must have the same partition prefix for merging"))
      else
        let read_ahead := merge_read_ahead (mc_read_ahead_size config) (length indices) in
        epoch ← merged_epoch ((fun s => f_epoch (so_footer s)) <$> indices);
        let max_seq_nr := merged_max_seq_nr ((fun s => f_max_seq_nr (so_footer s)) <$> indices) in
        let estimated_size := accumulate (so_file_size <$> indices) in
        let max_new_index_keys := accumulate ((fun s => f_indexed_keys (so_footer s)) <$> indices) in
        r ← merge_index (mc_discard_deleted_keys config) read_ahead indices max_new_index_keys;
        match r with
        | Err e => Some (Err e)
        | Ok m =>
            let iw := finish_index xxh64_hash (mg_writer m) in
            let file := pwrite (replicate (Z.to_nat estimated_size) 0%Z) 0 (iw_file iw) in
            Some (s ← write_tail heap file iw (mg_qf m) upper_bound epoch max_seq_nr;
                  Ok (mk_sst_file (mk_sst_object (st_file s) (st_meta_index s) (make_super_index (st_meta_index s))
                        (st_qf s) (st_footer s)) (mc_create_new_with_odirect config) estimated_size))
        end
  end.
End merge_files.

(** ** An empty stream always runs low *)

Section doubles.
Local Open Scope Z_scope.

Lemma shr_1_div mrs : 0 <= shr_m mrs -> shr_m (shr_1 mrs) = shr_m mrs / 2.
Proof.
  destruct mrs as [[|[p|p|]|p] r s]; cbn; intros H; try done; try lia.
  - rewrite (Pos2Z.inj_xI p). Z.to_euclidean_division_equations; lia.
  - rewrite (Pos2Z.inj_xO p). Z.to_euclidean_division_equations; lia.
Qed.

Lemma iter_shr_div p mrs : 0 <= shr_m mrs -> shr_m (iter_pos shr_1 p mrs) = shr_m mrs / 2 ^ Z.pos p.
Proof.
  revert mrs. induction p as [p IH|p IH|]; intros mrs H; cbn [iter_pos].
  - assert (0 <= shr_m (shr_1 mrs)) by (rewrite shr_1_div by done; apply Z.div_pos; lia).
    rewrite IH, IH, shr_1_div; try done; [|rewrite IH by done; apply Z.div_pos; lia].
    rewrite !Z.div_div by lia. f_equal. rewrite (Pos2Z.inj_xI p), Z.pow_add_r, Z.pow_twice_r by lia. lia.
  - rewrite IH, IH; [|done|rewrite IH by done; apply Z.div_pos; lia].
    rewrite Z.div_div by lia. f_equal. by rewrite (Pos2Z.inj_xO p), Z.pow_twice_r.
  - by apply shr_1_div.
Qed.

Lemma digits2_log p : Z.pos (digits2_pos p) = Z.log2 (Z.pos p) + 1.
Proof.
  induction p as [p IH|p IH|]; cbn [digits2_pos]; [| |done]; rewrite Pos2Z.inj_succ, IH.
  - rewrite (Pos2Z.inj_xI p), Z.log2_succ_double by lia. lia.
  - rewrite (Pos2Z.inj_xO p), Z.log2_double by lia. lia.
Qed.

(** Rounding a positive mantissa leaves it positive. *)
Lemma shr_fexp_pos m e l : 0 < m -> emin 53 1024 <= e ->
  0 < shr_m (shr_fexp 53 1024 m e l).1 /\ emin 53 1024 <= (shr_fexp 53 1024 m e l).2.
Proof.
  intros Hm He. unfold shr_fexp, shr. set (n := fexp 53 1024 (Zdigits2 m + e) - e).
  assert (shr_m (shr_record_of_loc m l) = m) as Hr by (destruct l as [|[]]; done).
  destruct n as [|p|p] eqn:En; cbn [fst snd]; rewrite ?Hr; try done. split; [|lia].
  rewrite iter_shr_div, Hr by (rewrite Hr; lia). apply Z.div_str_pos. split; [lia|].
  destruct m as [|m|m]; try done. unfold n, fexp in En. cbn [Zdigits2] in En. rewrite digits2_log in En.
  etrans; [|exact (proj1 (Z.log2_spec (Z.pos m) Hm))]. apply Z.pow_le_mono_r; lia.
Qed.

Lemma double_pos n : 0 < n -> exists s m e, s = false /\
  (double_of_size n = S754_finite s m e \/ double_of_size n = S754_infinity s).
Proof.
  intros Hn. destruct n as [|n|n]; try done. unfold double_of_size, binary_normalize, binary_round.
  assert (exists mz ez, shl_align n 0 (fexp 53 1024 (Z.pos (digits2_pos n) + 0)) = (mz, ez) /\ emin 53 1024 <= ez)
    as (mz & ez & -> & Hez).
  { unfold shl_align. destruct (_ - 0) eqn:E; eexists _, _; (split; [done|]).
    1, 2: by vm_compute. unfold fexp. lia. }
  unfold binary_round_aux. pose proof (shr_fexp_pos (Z.pos mz) ez loc_Exact ltac:(lia) Hez) as H1.
  destruct (shr_fexp 53 1024 (Z.pos mz) ez loc_Exact) as [r1 e1]. cbn [fst snd] in H1. destruct H1 as [H1 H1e].
  assert (0 < round_nearest_even (shr_m r1) (loc_of_shr_record r1)) as H2
    by (unfold round_nearest_even; repeat case_match; lia).
  pose proof (shr_fexp_pos _ e1 loc_Exact H2 H1e) as H3.
  destruct (shr_fexp 53 1024 (round_nearest_even (shr_m r1) (loc_of_shr_record r1)) e1 loc_Exact) as [r2 e2].
  cbn [fst snd] in H3. destruct H3 as [H3 _]. destruct (shr_m r2) as [|m|m]; try done.
  exists false, m, e2. split; [done|]. case_match; auto.
Qed.

Lemma empty_runs_low read_ahead s : 0 < read_ahead -> ss_buffer_empty s = true -> runs_low read_ahead s = true.
Proof.
  intros Hr He. unfold runs_low, ss_size. unfold ss_buffer_empty in He. destruct (ss_buffers s); [|done].
  destruct (double_pos read_ahead Hr) as (sg & m & e & -> & [-> | ->]); done.
Qed.
End doubles.

(** ** The streams of a merge *)

Section simulation.
Context (xxh64_hash : bytes -> Z -> Z) (indices : list sst_object) (read_ahead : Z) (Hahead : (0 < read_ahead)%Z).

Definition index_epoch (s : sst_object) : Z := f_epoch (so_footer s).

(** The streams will deliver [ls]. *)
Record streams_at (rbufs : list rbuf) (ls : list (list kv)) : Prop := {
  sa_deliver : Forall2 (fun rb l => delivers xxh64_hash (rb_stream rb) l) rbufs ls;
  sa_indices : rb_index <$> rbufs = indices;
}.

Lemma refresh_buffers_spec rbufs ls : Forall2 (fun rb l => delivers xxh64_hash (rb_stream rb) l) rbufs ls ->
  exists rbufs', refresh_buffers xxh64_hash read_ahead rbufs = Some (Ok rbufs') /\ rb_index <$> rbufs' = rb_index <$> rbufs /\
    Forall2 (fun rb l => delivers xxh64_hash (rb_stream rb) l /\ (l <> [] -> ss_buffer_empty (rb_stream rb) = false)) rbufs' ls.
Proof.
  induction 1 as [|rb l rbufs ls Hd _ (rbufs' & E & Hi & IH)]; [by exists []|]. cbn [refresh_buffers].
  assert (exists s, refresh_if_low xxh64_hash read_ahead (rb_stream rb) = Some (ok, s) /\ delivers xxh64_hash s l /\
    (l <> [] -> ss_buffer_empty s = false)) as (s & -> & Hs & Hb).
  { unfold refresh_if_low. destruct (runs_low read_ahead (rb_stream rb)) eqn:El; [by apply refresh_spec|].
    exists (rb_stream rb). split_ands; [done|done|]. intros _. apply not_true_is_false. intros Hb.
    by rewrite empty_runs_low in El. }
  cbn [mbind option_bind ok]. rewrite E. cbn [mbind option_bind]. eexists. split_ands; [done| |].
  - rewrite !fmap_cons, Hi. done.
  - by constructor.
Qed.

Lemma next_entry_spec check rbufs ls i l : streams_at rbufs ls -> ls !! i = Some l ->
  match l with
  | [] => next_entry xxh64_hash check read_ahead rbufs i = Some (Ok (rbufs, None))
  | x :: l' => (check = true -> value_ok x.2) -> exists idx rbufs', indices !! i = Some idx /\
      next_entry xxh64_hash check read_ahead rbufs i = Some (Ok (rbufs', Some (mk_entry x.1 x.2 (index_epoch idx)))) /\
      streams_at rbufs' (<[i := l']> ls)
  end.
Proof.
  intros [Hd Hi] Hl. destruct (Forall2_lookup_r _ _ _ _ _ Hd Hl) as (rb & Hrb & Hdrb).
  unfold next_entry. rewrite Hrb. cbn [mbind option_bind]. pose proof (eof_spec _ _ _ Hdrb) as He.
  destruct l as [|x l]; [by rewrite (proj2 He)|]. intros Hv.
  destruct (ss_is_eof (rb_stream rb)) eqn:Ee; [by discriminate (proj1 He eq_refl)|].
  assert (exists rbufs1 rb1, (if ss_buffer_empty (rb_stream rb) then refresh_buffers xxh64_hash read_ahead rbufs
      else Some (Ok rbufs)) = Some (Ok rbufs1) /\ streams_at rbufs1 ls /\ rbufs1 !! i = Some rb1 /\
      delivers xxh64_hash (rb_stream rb1) (x :: l) /\ ss_buffer_empty (rb_stream rb1) = false)
    as (rbufs1 & rb1 & -> & [Hd1 Hi1] & Hrb1 & Hx & Hne).
  { destruct (ss_buffer_empty (rb_stream rb)) eqn:Eb; [|by exists rbufs, rb].
    destruct (refresh_buffers_spec _ _ Hd) as (rbufs1 & E & Hi1 & H2).
    destruct (Forall2_lookup_r _ _ _ _ _ H2 Hl) as (rb1 & Hrb1 & Hx & Hne).
    exists rbufs1, rb1. split_ands; [done| |done|done|by apply Hne].
    split; [|congruence]. eapply Forall2_impl; [exact H2|]. by intros ? ? []. }
  cbn [mbind option_bind]. rewrite Hrb1. cbn [mbind option_bind].
  destruct (pop_front_spec _ _ _ Hx Hne) as (y & l1 & s & [= <- <-] & -> & Hp & Hs). cbn [mbind option_bind].
  assert (check && negb (is_ok (value_from_span x.2)) = false) as ->.
  { destruct check; [|done]. rewrite Hv; done. }
  rewrite Hp. cbn [mbind option_bind ok]. exists (rb_index rb1). eexists. split_ands; [|done|split].
  - rewrite <- Hi1, list_lookup_fmap, Hrb1. done.
  - by apply Forall2_insert.
  - rewrite list_fmap_insert. cbn [rb_index]. rewrite list_insert_id; [done|]. by rewrite list_lookup_fmap, Hrb1.
Qed.

(** A slot with what its stream still delivers. *)
Definition slot_of (ls : list (list kv)) (s : slot_t nat) : slot_t (list kv) :=
  mk_slot (sl_entry s) (ls !!! sl_source s).

Definition slot_index (s : slot_t nat) : Prop :=
  exists idx, indices !! sl_source s = Some idx /\ me_epoch (sl_entry s) = index_epoch idx.

(** Slots of other streams keep what they have. *)
Lemma slot_of_insert ls i l (h : list (slot_t nat)) : i ∉ sl_source <$> h -> slot_of (<[i := l]> ls) <$> h = slot_of ls <$> h.
Proof.
  intros Hi. apply list_fmap_ext. intros j s Hs. unfold slot_of. f_equal.
  rewrite list_lookup_total_insert_ne; [done|]. intros E. apply Hi. subst i.
  apply list_elem_of_fmap. exists s. split; [done|]. by eapply list_elem_of_lookup_2.
Qed.

Lemma pop_heap_slots ls (h : list (slot_t nat)) :
  pop_heap (slot_of ls <$> h) =
    match pop_heap h with Some (s, h') => Some (slot_of ls s, slot_of ls <$> h') | None => None end.
Proof.
  induction h as [|s h IH]; [done|]. rewrite fmap_cons. cbn [pop_heap]. rewrite IH.
  destruct (pop_heap h) as [[m r]|]; [|done].
  change (heap_item_t_comparator (slot_of ls s) (slot_of ls m)) with (heap_item_t_comparator s m).
  by destruct (heap_item_t_comparator s m).
Qed.

(** ** The heap of the first entries *)

Lemma fill_heap_spec n i rbufs ls key_heap : streams_at rbufs ls -> i + n = length ls ->
  exists rbufs' h', fill_heap xxh64_hash n read_ahead i rbufs key_heap = Some (Ok (rbufs', key_heap ++ h')) /\
    streams_at rbufs' (take i ls ++ (tail <$> drop i ls)) /\ sublist (sl_source <$> h') (seq i n) /\ Forall slot_index h' /\
    slot_of (take i ls ++ (tail <$> drop i ls)) <$> h' = init_heap (zip (drop i (index_epoch <$> indices)) (drop i ls)).
Proof.
  revert i rbufs ls key_heap. induction n as [|n IH]; intros i rbufs ls kh Hs Hn; cbn [fill_heap].
  { rewrite Nat.add_0_r in Hn. exists rbufs, []. rewrite app_nil_r, take_ge, !(drop_ge ls), app_nil_r by lia.
    split_ands; [done|done|done|done|]. by rewrite zip_with_nil_r. }
  destruct (lookup_lt_is_Some_2 ls i) as [l Hl]; [lia|]. pose proof (next_entry_spec false _ _ _ _ Hs Hl) as Hne.
  assert (length indices = length ls) as Hlen.
  { rewrite <- (sa_indices _ _ Hs), length_fmap. by eapply Forall2_length, sa_deliver. }
  assert (exists idx, indices !! i = Some idx) as [idx Hidx] by (apply lookup_lt_is_Some_2; lia).
  assert (drop i (index_epoch <$> indices) = index_epoch idx :: drop (S i) (index_epoch <$> indices)) as Ede
    by (apply drop_S; by rewrite list_lookup_fmap, Hidx).
  rewrite Ede, (drop_S _ _ _ Hl).
  destruct l as [|x l].
  - rewrite Hne. cbn [mbind option_bind]. destruct (IH (S i) rbufs ls kh Hs ltac:(lia)) as (rbufs' & h' & -> & H1 & H2 & H3 & H4).
    rewrite (take_S_r _ _ _ Hl), <- app_assoc in H1, H4. exists rbufs', h'. split_ands; [done|done| |done|].
    + cbn [seq]. by constructor.
    + exact H4.
  - destruct Hne as (idx' & rbufs1 & Hidx' & -> & Hs1); [done|]. rewrite Hidx in Hidx'. injection Hidx' as <-.
    cbn [mbind option_bind]. unfold push_heap.
    destruct (IH (S i) rbufs1 (<[i := l]> ls) (kh ++ [mk_slot (mk_entry x.1 x.2 (index_epoch idx)) i]) Hs1
      ltac:(rewrite length_insert; lia)) as (rbufs' & h' & -> & H1 & H2 & H3 & H4).
    rewrite drop_insert_lt in H1, H4 by lia.
    assert (take (S i) (<[i := l]> ls) = take i ls ++ [l]) as Et.
    { rewrite (take_S_r _ _ l) by (apply list_lookup_insert_eq; lia). by rewrite take_insert_ge by lia. }
    rewrite Et, <- app_assoc in H1, H4.
    change (tail <$> (x :: l) :: drop (S i) ls) with ([l] ++ (tail <$> drop (S i) ls)). exists rbufs'. eexists. split_ands.
    + rewrite <- app_assoc. done.
    + exact H1.
    + cbn [app fmap list_fmap seq]. by constructor.
    + constructor; [by exists idx|done].
    + rewrite fmap_app, H4. unfold init_heap. cbn [zip zip_with omap list_omap fmap list_fmap app]. f_equal.
      unfold slot_of. f_equal. cbn [sl_source].
      apply list_lookup_total_correct. rewrite lookup_app_r by (rewrite length_take; lia). rewrite length_take.
      by replace (i - Nat.min i (length ls)) with 0 by lia.
Qed.

(** ** The loop *)

Section output.
Context (qf0 : option quotient_filter) (iw0 : index_writer) (discard : bool).

Definition out_hashes (out : list merge_entry_t) : list Z := (fun x => key_hash xxh64_hash x.1) <$> out_kvs out.

(** The filter and the writer once [out] was written. *)
Definition qf_after (out : list merge_entry_t) (qf : option quotient_filter) : Prop :=
  match qf0 with
  | None => qf = None
  | Some q => exists q', insert_all q (out_hashes out) = Some q' /\ qf = Some q'
  end.

(** [out] can be written. *)
Definition writes_ok (out : list merge_entry_t) : Prop :=
  (exists w, write_kvs xxh64_hash iw0 (out_kvs out) = Ok w) /\ exists qf, qf_after out qf.

(** The merge on the files stands where the merge of the lists does. *)
Record sim (m : merger) (ms : merge_state) (ls : list (list kv)) : Prop := {
  sim_streams : streams_at (mg_rbufs m) ls;
  sim_heap : ms_heap ms = slot_of ls <$> mg_heap m;
  sim_nodup : NoDup (sl_source <$> mg_heap m);
  sim_index : Forall slot_index (mg_heap m);
  sim_dedup : mg_dedup m = ms_dedup ms;
  sim_filtered : mg_filtered m = ms_filtered ms;
  sim_qf : qf_after (ms_out ms) (mg_qf m);
  sim_writer : write_kvs xxh64_hash iw0 (out_kvs (ms_out ms)) = Ok (mg_writer m);
}.

Lemma insert_all_app q a b : insert_all q (a ++ b) = q ← insert_all q a; insert_all q b.
Proof.
  revert q. induction a as [|h a IH]; intros q; [done|]. cbn [app insert_all].
  destruct (qf_insert q h) as [x|]; [|done]. cbn [mbind option_bind]. apply IH.
Qed.

Lemma write_kvs_app iw a b : write_kvs xxh64_hash iw (a ++ b) = iw ← write_kvs xxh64_hash iw a; write_kvs xxh64_hash iw b.
Proof.
  revert iw. induction a as [|x a IH]; intros iw; [done|]. cbn [app write_kvs].
  destruct (write_kv xxh64_hash iw x) as [iw1|]; [|done]. cbn [mbind expected_bind]. apply IH.
Qed.

Lemma writes_ok_prefix a b : writes_ok (a ++ b) -> writes_ok a.
Proof.
  unfold writes_ok, qf_after, out_hashes, out_kvs. rewrite !fmap_app, write_kvs_app. intros [[w Hw] [qf Hq]]. split.
  - destruct (write_kvs _ _ _) as [w1|]; [by exists w1|done].
  - destruct qf0 as [q|]; [|by exists None]. destruct Hq as (q' & Hq & _). rewrite insert_all_app in Hq.
    destruct (insert_all q _) as [q1|]; [|done]. exists (Some q1). by exists q1.
Qed.

(** Where the merge stands, with another deduplicator on both sides. *)
Definition with_dedup (m : merger) (d : deduplicator) : merger :=
  mk_merger (mg_rbufs m) (mg_heap m) d (mg_qf m) (mg_writer m) (mg_filtered m).

Definition state_dedup (ms : merge_state) (d : deduplicator) : merge_state :=
  mk_merge_state (ms_heap ms) d (ms_out ms) (ms_filtered ms).

Lemma sim_with_dedup m ms ls d : sim m ms ls -> sim (with_dedup m d) (state_dedup ms d) ls.
Proof. intros []. by split. Qed.

Lemma output_item_sim m ms ls item : sim m ms ls -> writes_ok (ms_out (emit_item discard ms item)) ->
  exists m', output_item xxh64_hash discard m item = Some (Ok m') /\ sim m' (emit_item discard ms item) ls.
Proof.
  intros [H1 H2 H3 H4 H5 H6 H7 H8]. unfold output_item, emit_item. destruct (discard && is_tombstone item).
  { intros _. eexists. split; [done|]. split; cbn; try done. by rewrite H6. }
  cbn [ms_out]. unfold writes_ok, qf_after, out_hashes, out_kvs in *. rewrite !fmap_app, write_kvs_app, H8.
  cbn [mbind expected_bind fmap list_fmap write_kvs]. intros [[w Hw] [qf Hq]].
  destruct (write_kv xxh64_hash (mg_writer m) (me_key item, me_value item)) as [w1|] eqn:Ew; [|done].
  assert (exists qf', match mg_qf m with
      | None => Some None
      | Some qf => x ← qf_insert qf (key_hash xxh64_hash (me_key item)); Some (Some x.2)
      end = Some qf' /\ qf_after (ms_out ms ++ [item]) qf') as (qf' & -> & Hqf').
  { unfold qf_after, out_hashes, out_kvs. rewrite !fmap_app. destruct qf0 as [q|]; [|exists None; by rewrite H7].
    destruct H7 as (q1 & Hq1 & ->), Hq as (q2 & Hq2 & _). rewrite insert_all_app, Hq1 in Hq2.
    cbn [mbind option_bind fmap list_fmap insert_all fst] in Hq2.
    destruct (qf_insert q1 (key_hash xxh64_hash (me_key item))) as [x|] eqn:Ei; [|done]. cbn [mbind option_bind] in *.
    exists (Some x.2). split; [done|]. exists x.2. split; [|done]. rewrite insert_all_app, Hq1.
    cbn [mbind option_bind fmap list_fmap insert_all fst]. by rewrite Ei. }
  cbn [mbind option_bind]. eexists. split; [done|]. split; cbn; try done.
  unfold out_kvs. rewrite fmap_app, write_kvs_app, H8. cbn [mbind expected_bind fmap list_fmap write_kvs]. by rewrite Ew.
Qed.

Lemma emit_item_prefix ms item : ms_out ms `prefix_of` ms_out (emit_item discard ms item).
Proof. unfold emit_item. case_match; [done|by apply prefix_app_r]. Qed.

(** What the loop of Merge does after a refill. *)
Definition emit_ready (ms : merge_state) : merge_state :=
  match dedup_pop (ms_dedup ms) with
  | None => ms
  | Some (item, d) => emit_item discard (state_dedup ms d) item
  end.

Lemma output_ready_sim m ms ls : sim m ms ls -> writes_ok (ms_out (emit_ready ms)) ->
  exists m', output_ready xxh64_hash discard m = Some (Ok m') /\ sim m' (emit_ready ms) ls.
Proof.
  intros Hs. unfold output_ready, emit_ready, dedup_ready, dedup_pop. rewrite (sim_dedup _ _ _ Hs).
  destruct (ready_item (ms_dedup ms)) as [item|]; cbn [mbind option_bind]; [|by exists m].
  intros Hw. apply output_item_sim; [|done]. by apply sim_with_dedup.
Qed.

Definition refill_slots (key_heap : list (slot_t nat)) (i : nat) (e : option merge_entry_t) : list (slot_t nat) :=
  match e with None => key_heap | Some e => push_heap key_heap (mk_slot e i) end.

(** Taking the next entry of a stream is what [refill] does on the list. *)
Lemma next_entry_refill rbufs ls slot h hp : streams_at rbufs ls -> NoDup (sl_source <$> slot :: h) ->
  Forall slot_index (slot :: h) -> refill (slot_of ls <$> h) (slot_of ls slot) = Ok hp ->
  exists rbufs' ls' e, next_entry xxh64_hash true read_ahead rbufs (sl_source slot) = Some (Ok (rbufs', e)) /\
    streams_at rbufs' ls' /\ hp = slot_of ls' <$> refill_slots h (sl_source slot) e /\
    NoDup (sl_source <$> refill_slots h (sl_source slot) e) /\ Forall slot_index (refill_slots h (sl_source slot) e).
Proof.
  intros Hs Hnd Hi. rewrite fmap_cons in Hnd. apply NoDup_cons in Hnd as [Hni Hnd].
  apply Forall_cons in Hi as [(idx & Hidx & He) Hi]. unfold refill.
  assert (length indices = length ls) as Hlen.
  { rewrite <- (sa_indices _ _ Hs), length_fmap. by eapply Forall2_length, sa_deliver. }
  destruct (lookup_lt_is_Some_2 ls (sl_source slot)) as [l Hl]; [rewrite <- Hlen; by eapply lookup_lt_Some|].
  pose proof (next_entry_spec true _ _ _ _ Hs Hl) as Hne. cbn [slot_of sl_source sl_entry].
  rewrite (list_lookup_total_correct _ _ _ Hl). destruct l as [|x l].
  { intros [= <-]. by exists rbufs, ls, None. }
  destruct (value_from_span x.2) eqn:Ev; [|done]. intros [= <-].
  destruct Hne as (idx' & rbufs' & Hidx' & E & Hs'); [intros _; unfold value_ok; by rewrite Ev|].
  rewrite Hidx in Hidx'. injection Hidx' as <-. eexists _, _, _. split; [exact E|]. split; [exact Hs'|].
  unfold refill_slots, push_heap. rewrite !fmap_app, slot_of_insert by done. split_ands.
  - do 2 f_equal. cbn [fmap list_fmap]. f_equal. unfold slot_of. cbn [sl_entry sl_source]. rewrite He. f_equal.
    rewrite list_lookup_total_insert_eq; [done|by eapply lookup_lt_Some].
  - apply NoDup_app. split_ands; [done| |apply NoDup_singleton]. intros i Hin ->%list_elem_of_singleton. done.
  - apply Forall_app. split; [done|]. apply Forall_singleton. by exists idx.
Qed.

Lemma merge_step_emit ms : merge_step discard ms =
  match pop_heap (ms_heap ms) with
  | None => None
  | Some (slot, h) => Some (h ← refill h slot;
      Ok (emit_ready (mk_merge_state h (dedup_push (ms_dedup ms) (sl_entry slot)) (ms_out ms) (ms_filtered ms))))
  end.
Proof.
  unfold merge_step, emit_ready. destruct (pop_heap _) as [[slot h]|]; [|done]. f_equal.
  destruct (refill h slot); [|done]. cbn [mbind expected_bind ms_dedup]. by destruct (dedup_pop _) as [[item d]|].
Qed.

Lemma emit_ready_prefix ms : ms_out ms `prefix_of` ms_out (emit_ready ms).
Proof.
  unfold emit_ready. destruct (dedup_pop _) as [[item d]|]; [|done]. apply (emit_item_prefix (state_dedup ms d)).
Qed.

Lemma merge_loop_prefix fuel ms ms' : merge_loop fuel discard ms = Some (Ok ms') -> ms_out ms `prefix_of` ms_out ms'.
Proof.
  revert ms. induction fuel as [|fuel IH]; intros ms; cbn [merge_loop]; rewrite merge_step_emit;
    destruct (pop_heap (ms_heap ms)) as [[slot h]|]; try (by intros [= ->]);
    destruct (refill h slot) as [h'|]; cbn [mbind expected_bind]; try done.
  intros H. apply IH in H. etrans; [|exact H]. by etrans; [|apply emit_ready_prefix].
Qed.

Lemma loop_sim fuel m ms ls ms' : sim m ms ls -> merge_loop fuel discard ms = Some (Ok ms') -> writes_ok (ms_out ms') ->
  exists m' ls', merge_files_loop xxh64_hash fuel discard read_ahead m = Some (Ok m') /\ sim m' ms' ls'.
Proof.
  revert m ms ls. induction fuel as [|fuel IH]; intros m ms ls Hs; cbn [merge_loop merge_files_loop];
    rewrite merge_step_emit, (sim_heap _ _ _ Hs), pop_heap_slots; destruct (pop_heap (mg_heap m)) as [[slot h]|] eqn:Ep;
    try (intros [= <-] _; by exists m, ls); destruct (refill _ _) as [hp|] eqn:Er; cbn [mbind expected_bind]; try done.
  intros Hl Hw. destruct (pop_heap_spec _ _ _ Ep) as [Hp _].
  destruct (next_entry_refill (mg_rbufs m) ls slot h hp) as (rbufs' & ls' & e & -> & Hs' & -> & Hnd & Hi).
  { apply Hs. }
  { rewrite <- Hp. apply Hs. }
  { rewrite <- Hp. apply Hs. }
  { done. }
  cbn [mbind option_bind]. fold (refill_slots h (sl_source slot) e).
  set (ms1 := mk_merge_state _ _ _ _) in Hl.
  assert (writes_ok (ms_out (emit_ready ms1))) as Hw1.
  { destruct (merge_loop_prefix _ _ _ Hl) as [more E]. rewrite E in Hw. by apply writes_ok_prefix in Hw. }
  destruct (output_ready_sim (mk_merger rbufs' (refill_slots h (sl_source slot) e)
    (dedup_push (mg_dedup m) (sl_entry slot)) (mg_qf m) (mg_writer m) (mg_filtered m)) ms1 ls') as (m1 & -> & Hs1).
  { destruct Hs. split; cbn; try done. by f_equal. }
  { done. }
  cbn [mbind option_bind]. by eapply IH.
Qed.

Lemma drain_sim m ms ls ms' : sim m ms ls -> drain_dedup discard ms = Some ms' -> writes_ok (ms_out ms') ->
  exists m', output_last xxh64_hash discard m = Some (Ok m') /\ sim m' ms' ls.
Proof.
  intros Hs. unfold drain_dedup, output_last. set (p := match dedup_pop (ms_dedup ms) with None => _ | Some _ => _ end).
  assert (p = (state_dedup (emit_ready ms) (ms_dedup ms), ms_dedup (emit_ready ms))) as ->.
  { unfold p, emit_ready. destruct (dedup_pop (ms_dedup ms)) as [[item d]|]; [|by destruct ms].
    unfold emit_item. by case_match. }
  cbn [ms_heap ms_out ms_filtered state_dedup]. destruct (dedup_force_pop _) as [[item d]|] eqn:Ef; [|done].
  cbn [mbind option_bind]. intros [= <-] Hw.
  assert (writes_ok (ms_out (emit_ready ms))) as Hw1.
  { destruct (emit_item_prefix (state_dedup (emit_ready ms) d) item) as [more E].
    unfold state_dedup in E. rewrite E in Hw. by apply writes_ok_prefix in Hw. }
  destruct (output_ready_sim _ _ _ Hs Hw1) as (m1 & -> & Hs1). cbn [mbind option_bind].
  rewrite (sim_dedup _ _ _ Hs1), Ef. cbn [mbind option_bind]. apply output_item_sim; [|done].
  by apply sim_with_dedup.
Qed.
End output.
End simulation.

(** ** Inputs and outputs *)

Section stores.
Context (xxh64_hash : bytes -> Z -> Z).

(** The SST stores [items]: its index pages hold them, sorted, and its
    footer tells where the pages end and how many entries there are. *)
Record sst_stores (s : sst_object) (items : list kv) : Prop := {
  ps_pages : exists pages rest, st_file (so_sst s) = pages ++ rest /\
    sst_rep xxh64_hash pages (st_meta_index (so_sst s)) items /\
    f_meta_index_offset (so_footer s) = Z.of_nat (length pages);
  ps_start : f_index_offset (so_footer s) = 0%Z;
  ps_count : f_indexed_keys (so_footer s) = Z.of_nat (length items);
  ps_sorted : sorted_kvs items;
  ps_items : Forall (fun x => file_item_ok x /\ value_ok x.2) items;
}.

Lemma open_delivers s items read_ahead : sst_stores s items -> (0 < read_ahead < 2 ^ 63)%Z ->
  delivers xxh64_hash (rb_stream (open_rbuf read_ahead s)) items.
Proof.
  intros [(pages & rest & Hf & Hrep & Hoff) H0 _ _ Hi] Hr.
  destruct (sst_rep_pages _ _ _ _ Hrep) as (chunks & Hcat & Hp & Hl & Hne & Hs & _).
  { eapply Forall_impl; [exact Hi|]. by intros x [[? _] _]. }
  unfold open_rbuf. cbn [rb_stream]. rewrite Hf, H0, Hoff, Nat2Z.id, Hl.
  pose proof (reader_delivers xxh64_hash pages rest chunks (so_direct s) 0 (length chunks) (Z.to_nat read_ahead)
    Hp Hl Hne Hs ltac:(lia) ltac:(lia)) as Hd.
  rewrite Nat.mul_0_l, Nat.add_0_l in Hd. unfold read_at in Hd. by rewrite drop_0, take_ge, Hcat in Hd by lia.
Qed.

Lemma accumulate_small l : Forall (fun x => 0 <= x)%Z l -> (foldr Z.add 0 l < 2 ^ 64)%Z -> accumulate l = foldr Z.add 0%Z l.
Proof.
  intros Hp Hb. unfold accumulate. enough (forall acc, (0 <= acc)%Z -> (acc + foldr Z.add 0 l < 2 ^ 64)%Z ->
    foldl (fun acc x => u64 (acc + x)) acc l = (acc + foldr Z.add 0 l)%Z) as H by (rewrite H; lia).
  clear Hb. induction Hp as [|x l Hx Hl IH]; intros acc Ha Hb; cbn [foldl foldr] in *; [lia|].
  assert (0 <= foldr Z.add 0 l)%Z by (clear -Hl; induction Hl; cbn; lia).
  rewrite wrap_small by lia. rewrite IH by lia. lia.
Qed.

Lemma key_count indices itemss : Forall2 sst_stores indices itemss ->
  foldr Z.add 0%Z ((fun s => f_indexed_keys (so_footer s)) <$> indices) = Z.of_nat (length (concat itemss)) /\
  Forall (fun x => 0 <= x)%Z ((fun s => f_indexed_keys (so_footer s)) <$> indices).
Proof.
  induction 1 as [|s items indices itemss Hs _ [IH1 IH2]]; [done|]. rewrite !fmap_cons. cbn [foldr concat].
  rewrite IH1, (ps_count _ _ Hs), length_app. split; [lia|]. constructor; [lia|done].
Qed.

Lemma read_ahead_ok size n : 0 < n -> (Z.of_nat n <= size < 2 ^ 62)%Z ->
  (0 < merge_read_ahead size n < 2 ^ 63)%Z /\ 0 < Z.to_nat (merge_read_ahead size n * 2 / PAGE_SIZE).
Proof.
  intros Hn Hs. unfold merge_read_ahead. set (r := (size / Z.of_nat n)%Z).
  assert (1 <= r < 2 ^ 62)%Z as Hr.
  { unfold r. split; [apply Z.div_le_lower_bound; lia|]. apply Z.div_lt_upper_bound; [lia|]. nia. }
  assert (exists k, (if is_page_aligned r then r else ceil_page_align r) = (k * 4096)%Z /\ (1 <= k * 4096 < 2 ^ 63)%Z) as (k & -> & Hk).
  { destruct (is_page_aligned r) eqn:Ea.
    - unfold is_page_aligned in Ea. apply Z.eqb_eq, Z.mod_divide in Ea as [k Hk]; [|done].
      exists k. change PAGE_SIZE with 4096%Z in Hk. lia.
    - destruct (ceil_page_align_spec r ltac:(lia)) as [Hm Hb]. apply Z.mod_divide in Hm as [k Hk]; [|done].
      exists k. rewrite Hk in *. change PAGE_SIZE with 4096%Z in *. lia. }
  split; [lia|]. change PAGE_SIZE with 4096%Z. replace (k * 4096 * 2)%Z with (k * 2 * 4096)%Z by lia.
  rewrite Z.div_mul by lia. lia.
Qed.
End stores.

Section whole.
Context (xxh64_hash : bytes -> Z -> Z) (indices : list sst_object) (itemss : list (list kv)).
Context (Hstores : Forall2 (sst_stores xxh64_hash) indices itemss).

(** The inputs as the merge of the lists has them. *)
Definition stored_inputs : list (Z * list kv) := zip (index_epoch <$> indices) itemss.

Lemma inputs_zip : stored_inputs.*1 = index_epoch <$> indices /\ stored_inputs.*2 = itemss.
Proof.
  pose proof (Forall2_length _ _ _ Hstores) as Hl. unfold stored_inputs.
  split; [apply fst_zip|apply snd_zip]; rewrite length_fmap; lia.
Qed.

Lemma stored_inputs_ok : inputs_ok stored_inputs.
Proof.
  apply Forall_forall. intros [e l] Hin. apply (list_elem_of_fmap_2 snd) in Hin. rewrite (proj2 inputs_zip) in Hin.
  cbn [snd] in *. apply list_elem_of_lookup in Hin as [i Hi].
  destruct (Forall2_lookup_r _ _ _ _ _ Hstores Hi) as (s & _ & Hs). split; [apply Hs|].
  eapply Forall_impl; [apply Hs|]. by intros x [].
Qed.

Lemma stored_total : total_entries stored_inputs = length (concat itemss).
Proof.
  unfold total_entries. rewrite (proj2 inputs_zip). f_equal. clear. induction itemss as [|l ls IH]; [done|].
  rewrite mjoin_cons, IH. done.
Qed.

Lemma merge_index_sim discard read_ahead qf0 max_keys ms : (0 < read_ahead < 2 ^ 63)%Z ->
  create_qf_for_key_count max_keys = Some (Ok qf0) -> Z.to_nat max_keys = total_entries stored_inputs ->
  merge_entries discard stored_inputs = Some (Ok ms) ->
  writes_ok xxh64_hash (Some qf0) (make_index_writer (Z.to_nat (read_ahead * 2 / PAGE_SIZE))) (ms_out ms) ->
  exists m ls, merge_index xxh64_hash discard read_ahead indices max_keys = Some (Ok m) /\
    sim xxh64_hash indices (Some qf0) (make_index_writer (Z.to_nat (read_ahead * 2 / PAGE_SIZE))) m ms ls.
Proof.
  intros Hr Eq Ef Em Hw. unfold merge_index. rewrite Eq. cbn [mbind option_bind].
  assert (Forall2 (fun rb l => delivers xxh64_hash (rb_stream rb) l) (open_rbuf read_ahead <$> indices) itemss) as Hd.
  { apply Forall2_fmap_l. eapply Forall2_impl; [exact Hstores|]. intros s l Hs. by apply open_delivers. }
  destruct (refresh_buffers_spec xxh64_hash read_ahead ltac:(lia) _ _ Hd) as (rbufs & -> & Hi & Hd').
  assert (streams_at xxh64_hash indices rbufs itemss) as Hs.
  { split; [eapply Forall2_impl; [exact Hd'|]; by intros ? ? []|]. rewrite Hi, <- list_fmap_compose. apply list_fmap_id. }
  cbn [mbind option_bind].
  assert (length rbufs = length itemss) as Hlen by (by eapply Forall2_length, sa_deliver).
  destruct (fill_heap_spec xxh64_hash indices read_ahead ltac:(lia) (length rbufs) 0 rbufs itemss [] Hs Hlen)
    as (rbufs' & h & -> & Hs' & Hsub & Hidx & Hh). rewrite !drop_0, take_0 in *. cbn [app] in *. cbn [mbind option_bind].
  unfold merge_entries in Em. rewrite <- Ef in Em.
  destruct (merge_loop _ _ _) as [[ms1|]|] eqn:El; cbn [mbind option_bind] in Em; try done.
  destruct (drain_dedup discard ms1) as [ms2|] eqn:Edr; [|done]. cbn [mbind option_bind] in Em. injection Em as <-.
  assert (ms_out ms1 `prefix_of` ms_out ms2) as [more Emore].
  { unfold drain_dedup in Edr. destruct (dedup_pop (ms_dedup ms1)) as [[item d]|];
      destruct (dedup_force_pop _) as [[item' d']|]; try done; cbn [mbind option_bind] in Edr; injection Edr as <-.
    - etrans; [apply (emit_item_prefix discard _ item)|]. apply (emit_item_prefix discard (mk_merge_state _ _ _ _)).
    - apply (emit_item_prefix discard (mk_merge_state _ _ _ _)). }
  assert (writes_ok xxh64_hash (Some qf0) (make_index_writer (Z.to_nat (read_ahead * 2 / PAGE_SIZE))) (ms_out ms1)) as Hw1
    by (rewrite Emore in Hw; by apply writes_ok_prefix in Hw).
  destruct (loop_sim xxh64_hash indices read_ahead ltac:(lia) (Some qf0)
    (make_index_writer (Z.to_nat (read_ahead * 2 / PAGE_SIZE))) discard (Z.to_nat max_keys)
    (mk_merger rbufs' h empty_dedup (Some qf0) (make_index_writer (Z.to_nat (read_ahead * 2 / PAGE_SIZE))) 0)
    (mk_merge_state (init_heap stored_inputs) empty_dedup [] 0) (tail <$> itemss) ms1) as (m1 & ls1 & -> & Hs1); [|exact El|exact Hw1|].
  { split; cbn; try done.
    - eapply sublist_NoDup; [apply NoDup_seq|exact Hsub].
    - by exists qf0. }
  cbn [mbind option_bind]. destruct (drain_sim xxh64_hash indices (Some qf0)
    (make_index_writer (Z.to_nat (read_ahead * 2 / PAGE_SIZE))) discard m1 ms1 ls1 ms2 Hs1 Edr Hw) as (m & -> & Hsm).
  by exists m, ls1.
Qed.
Lemma stored_nonempty : concat itemss <> [] -> input_entries stored_inputs <> [].
Proof.
  intros Hne E. pose proof stored_total as Ht. rewrite total_entries_spec, E in Ht. by destruct (concat itemss).
Qed.

Lemma merged_epoch_elem e : merged_epoch (index_epoch <$> indices) = Some e -> e ∈ index_epoch <$> indices.
Proof.
  clear Hstores. destruct indices as [|s rest]; [done|]. rewrite fmap_cons.
  destruct (merged_epoch_min (index_epoch s) (index_epoch <$> rest)) as (m & -> & Hin & _). by intros [= <-].
Qed.

Lemma merged_epoch_le e : merged_epoch (index_epoch <$> indices) = Some e -> Forall (fun x => (e <= index_epoch x)%Z) indices.
Proof.
  clear Hstores. destruct indices as [|s rest]; [done|]. rewrite fmap_cons.
  destruct (merged_epoch_min (index_epoch s) (index_epoch <$> rest)) as (m & -> & _ & Hmin). intros [= <-].
  exact (proj1 (Forall_fmap index_epoch _ (s :: rest)) Hmin).
Qed.

(** What is merged is in an input. *)
Lemma merged_items discard out : sorted_kvs out ->
  (forall key v, assoc key out = Some v <->
     newest stored_inputs key v /\ discard && is_tombstone (mk_entry key v 0) = false) ->
  Forall (fun x => file_item_ok x /\ value_ok x.2) out.
Proof.
  intros Hs Ha. apply Forall_forall. intros [k v] Hin. apply assoc_elem in Hin; [|done].
  apply Ha in Hin as [(e & l & Hl & Hk & _) _].
  apply (list_elem_of_fmap_2 snd) in Hl. rewrite (proj2 inputs_zip) in Hl. cbn [snd] in Hl.
  apply list_elem_of_lookup in Hl as [i Hi]. destruct (Forall2_lookup_r _ _ _ _ _ Hstores Hi) as (s & _ & Hst).
  apply assoc_elem in Hk; [|apply Hst]. exact (proj1 (Forall_forall _ _) (ps_items _ _ _ Hst) _ Hk).
Qed.

(** The merge, when the entries of the lists can be written. *)
Lemma k_way_merge_written heap config upper qf0 qf iw ms :
  let ra := merge_read_ahead (mc_read_ahead_size config) (length indices) in
  let max_keys := accumulate ((fun s => f_indexed_keys (so_footer s)) <$> indices) in
  let f := finish_index xxh64_hash iw in
  (0 < ra < 2 ^ 63)%Z -> Z.to_nat max_keys = total_entries stored_inputs -> indices <> [] ->
  Forall (fun s => f_upper_bound (so_footer s) = upper) indices ->
  merge_entries (mc_discard_deleted_keys config) stored_inputs = Some (Ok ms) ->
  create_qf_for_key_count max_keys = Some (Ok qf0) -> insert_all qf0 (out_hashes xxh64_hash (ms_out ms)) = Some qf ->
  write_kvs xxh64_hash (make_index_writer (Z.to_nat (ra * 2 / PAGE_SIZE))) (out_kvs (ms_out ms)) = Ok iw ->
  exists epoch, merged_epoch (index_epoch <$> indices) = Some epoch /\
    let estimated := accumulate (so_file_size <$> indices) in
    k_way_merge_async2 xxh64_hash heap config indices = Some (
      s ← write_tail heap (pwrite (replicate (Z.to_nat estimated) 0%Z) 0 (iw_file f)) f (Some qf) upper epoch
            (merged_max_seq_nr ((fun s => f_max_seq_nr (so_footer s)) <$> indices));
      Ok (mk_sst_file (mk_sst_object (st_file s) (st_meta_index s) (make_super_index (st_meta_index s))
            (st_qf s) (st_footer s)) (mc_create_new_with_odirect config) estimated)).
Proof.
  intros ra max_keys f Hra Hmax Hne Hupper Em Eq Ei Ew.
  destruct (merge_index_sim (mc_discard_deleted_keys config) ra qf0 max_keys ms Hra Eq Hmax Em) as (m & ls & Emi & Hsim).
  { split; [by exists iw|]. exists (Some qf). by exists qf. }
  assert (mg_writer m = iw) as Hmw by (pose proof (sim_writer _ _ _ _ _ _ _ Hsim); congruence).
  assert (mg_qf m = Some qf) as Hmq by (destruct (sim_qf _ _ _ _ _ _ _ Hsim) as (q & Hq & ->); congruence).
  destruct indices as [|first rest] eqn:Eidx; [done|].
  destruct (merged_epoch_min (index_epoch first) (index_epoch <$> rest)) as (epoch & Ee & _).
  exists epoch. split; [exact Ee|].
  cbv zeta. unfold k_way_merge_async2.
  assert (f_upper_bound (so_footer first) = upper) as Hf by (by apply Forall_cons in Hupper as [? _]).
  assert (forallb (fun idx => (f_upper_bound (so_footer idx) =? f_upper_bound (so_footer first))%Z) (first :: rest) = true) as ->.
  { apply forallb_forall. intros x Hx. apply Z.eqb_eq. rewrite Hf. rewrite Forall_forall in Hupper. apply Hupper.
    by apply list_elem_of_In. }
  cbn [negb]. change ((fun s => f_epoch (so_footer s)) <$> first :: rest) with (index_epoch first :: (index_epoch <$> rest)).
  rewrite Ee. cbn [mbind option_bind]. fold ra. fold max_keys. rewrite Emi. cbn [mbind option_bind].
  by rewrite Hmw, Hmq, Hf.
Qed.
End whole.

(** What a flush wrote can be merged. *)
Lemma flush_stores (xxh64_hash : bytes -> Z -> Z) (heap : heap_bytes) (l : list memtable_entry) (avg upper epoch : Z)
    (direct : bool) (file_size : Z) :
  (forall b seed, (0 <= xxh64_hash b seed)%Z) -> l <> [] -> (Z.of_nat (length l) <= MAX_KEYS)%Z ->
  StronglySorted mt_lt l -> Forall (fun e => file_item_ok (mt_kv e) /\ value_ok (mt_value e)) l ->
  Forall (fun e => (0 <= mt_seq e < 2 ^ 64)%Z) l ->
  exists s, _export_as_sst_async xxh64_hash heap l (Z.of_nat (length l)) avg upper epoch = Some (Ok s) /\
    let o := mk_sst_file s direct file_size in
    sst_stores xxh64_hash o (mt_kv <$> newest_versions None l) /\
    f_upper_bound (so_footer o) = upper /\ index_epoch o = epoch /\ (0 <= f_max_seq_nr (so_footer o) < 2 ^ 64)%Z.
Proof.
  intros Hh Hne Hc Hs Hi Hq.
  assert (Forall (fun e => file_item_ok (mt_kv e)) l) as Hi' by (eapply Forall_impl; [exact Hi|]; by intros x []).
  destruct (export_spec xxh64_hash heap l avg upper epoch Hh Hne Hc Hs Hi' Hq) as (qf & iw & E & Hso & Hrep & Hn & Hsq & _).
  eexists. split; [exact E|]. cbv zeta. split_ands; try done; [|apply Hsq|apply Hsq].
  split; cbn [so_sst so_footer st_file st_meta_index st_footer]; try done.
  - eexists _, _. split_ands; [reflexivity|done|done].
  - cbn. by rewrite Hn.
  - apply Forall_fmap. by apply newest_versions_Forall.
Qed.

(** The merge on the files writes what the merge of the lists gives. *)
Lemma k_way_merge_spec (xxh64_hash : bytes -> Z -> Z) (heap : heap_bytes) (config : merge_config)
    (indices : list sst_object) (itemss : list (list kv)) (upper : Z)
    (Hhash : forall b seed, (0 <= xxh64_hash b seed)%Z)
    (Hstores : Forall2 (sst_stores xxh64_hash) indices itemss)
    (Hupper : Forall (fun s => f_upper_bound (so_footer s) = upper) indices) (Hu : (0 <= upper < 2 ^ 64)%Z)
    (Hepochs : NoDup (index_epoch <$> indices))
    (Hwords : Forall (fun s => 0 <= index_epoch s < 2 ^ 64 /\ 0 <= f_max_seq_nr (so_footer s) < 2 ^ 64)%Z indices)
    (Hne : concat itemss <> []) (Hkeys : (Z.of_nat (length (concat itemss)) <= MAX_KEYS)%Z)
    (Hahead : (Z.of_nat (length indices) <= mc_read_ahead_size config <= MAX_READ_AHEAD)%Z) :
  exists s ms, k_way_merge_async2 xxh64_hash heap config indices = Some (Ok s) /\
    merge_entries (mc_discard_deleted_keys config) (stored_inputs indices itemss) = Some (Ok ms) /\
    sst_stores xxh64_hash s (out_kvs (ms_out ms)) /\ serves xxh64_hash (so_sst s) (out_kvs (ms_out ms)) /\
    f_upper_bound (so_footer s) = upper /\ merged_epoch (index_epoch <$> indices) = Some (index_epoch s) /\
    f_max_seq_nr (so_footer s) = merged_max_seq_nr ((fun s => f_max_seq_nr (so_footer s)) <$> indices) /\
    (0 <= f_max_seq_nr (so_footer s) < 2 ^ 64)%Z /\
    so_file_size s = accumulate (so_file_size <$> indices) /\
    ((Z.of_nat (length (st_file (so_sst s))) < 2 ^ 63)%Z -> sst_load (st_file (so_sst s)) = Ok (so_sst s)).
Proof.
  destruct (read_ahead_ok (mc_read_ahead_size config) (length indices)) as [Hra Hpg];
    [destruct Hstores; [done|cbn; lia]|unfold MAX_READ_AHEAD in Hahead; lia|].
  pose proof (key_count _ _ _ Hstores) as [Hcount Hcp].
  assert (accumulate ((fun s => f_indexed_keys (so_footer s)) <$> indices) = Z.of_nat (length (concat itemss))) as Eacc.
  { rewrite accumulate_small; [done|done|]. rewrite Hcount. change MAX_KEYS with 8388592%Z in Hkeys. lia. }
  destruct (merge_entries_correct (mc_discard_deleted_keys config) (stored_inputs indices itemss)) as (ms & Em & Hsort & Ha & Hc).
  { by eapply stored_inputs_ok. }
  { by rewrite (proj1 (inputs_zip _ _ _ Hstores)). }
  { by eapply stored_nonempty. }
  rewrite (stored_total _ _ _ Hstores) in Hc. set (out := out_kvs (ms_out ms)) in *.
  pose proof (merged_items _ _ _ Hstores _ _ Hsort Ha) as Hout.
  assert (length out = length (ms_out ms)) as Hlo by apply length_fmap.
  destruct (written_file xxh64_hash heap Hhash (Z.of_nat (length (concat itemss))) out
    (Z.to_nat (merge_read_ahead (mc_read_ahead_size config) (length indices) * 2 / PAGE_SIZE)))
    as (qf0 & qf & iw & E0 & E1 & Ew & Hrep & Hw); [split; [|done]|lia|lia|done| |].
  { destruct (concat itemss); [done|cbn [length]; lia]. }
  { eapply Forall_impl; [exact Hout|]. by intros x []. }
  destruct (k_way_merge_written xxh64_hash indices itemss Hstores heap config upper qf0 qf iw ms) as (epoch & Hmin & ->);
    [done|by rewrite Eacc, Nat2Z.id, (stored_total _ _ _ Hstores)|by destruct Hstores|done|done|by rewrite Eacc|done|done|].
  destruct (Hw upper epoch (merged_max_seq_nr ((fun s => f_max_seq_nr (so_footer s)) <$> indices))) as (Ht & Hl & Hserve).
  rewrite pwrite_start, Ht. cbn [mbind expected_bind st_file st_meta_index st_qf st_footer].
  assert (0 <= epoch < 2 ^ 64)%Z as He.
  { apply merged_epoch_elem in Hmin. apply list_elem_of_fmap in Hmin as (x & -> & Hx).
    by apply (proj1 (Forall_forall _ _) Hwords). }
  assert (0 <= merged_max_seq_nr ((fun s => f_max_seq_nr (so_footer s)) <$> indices) < 2 ^ 64)%Z as Hseq.
  { apply max_seq_range; [done|]. apply Forall_fmap. eapply Forall_impl; [exact Hwords|]. by intros x []. }
  eexists _, ms. split; [done|]. split_ands; try done; try apply Hseq; [|by apply Hserve; right|].
  - split; cbn [so_sst so_footer st_file st_meta_index st_footer]; try done.
    + eexists _, _. split_ands; [reflexivity|done|done].
    + cbn. rewrite finish_indexed, (write_kvs_indexed _ _ _ _ Ew). done.
  - intros Hsz. by apply Hl.
Qed.

(** ** Properties *)

(** C5: the compaction of SST files is complete. For SSTs of one
    partition with distinct epochs, one of them not empty, that store sorted
    entries, at most [MAX_KEYS] in all, [k_way_merge_async2] returns an SST.
    For every read-ahead of at least one byte for each input and at most
    [MAX_READ_AHEAD] (512 MiB, so that no read or write is cut short), and
    however the refreshes fall, it stores in order exactly the newest
    version of every key, tombstones left out if the merge discards them;
    lookups and the filter serve these entries; the footer has the bound of
    the partition, the smallest epoch and the largest sequence number of the
    inputs; loading the file gives the same SST; and it stores its entries
    the way an input does, so it can be merged again. The size its file
    object reports is the sum of those of the inputs. *)
Theorem k_way_merge_files (xxh64_hash : bytes -> Z -> Z) (heap : heap_bytes) (config : merge_config)
    (indices : list sst_object) (itemss : list (list kv)) (upper : Z)
    (Hhash : forall b seed, (0 <= xxh64_hash b seed)%Z)
    (Hstores : Forall2 (sst_stores xxh64_hash) indices itemss)
    (Hupper : Forall (fun s => f_upper_bound (so_footer s) = upper) indices) (Hu : (0 <= upper < 2 ^ 64)%Z)
    (Hepochs : NoDup (index_epoch <$> indices))
    (Hwords : Forall (fun s => 0 <= index_epoch s < 2 ^ 64 /\ 0 <= f_max_seq_nr (so_footer s) < 2 ^ 64)%Z indices)
    (Hne : concat itemss <> []) (Hkeys : (Z.of_nat (length (concat itemss)) <= MAX_KEYS)%Z)
    (Hahead : (Z.of_nat (length indices) <= mc_read_ahead_size config <= MAX_READ_AHEAD)%Z) :
  exists s out, k_way_merge_async2 xxh64_hash heap config indices = Some (Ok s) /\
    sst_stores xxh64_hash s out /\
    (forall key v, assoc key out = Some v <->
       newest (stored_inputs indices itemss) key v /\
       mc_discard_deleted_keys config && is_tombstone (mk_entry key v 0) = false) /\
    serves xxh64_hash (so_sst s) out /\
    (f_upper_bound (so_footer s) = upper /\ index_epoch s ∈ index_epoch <$> indices /\
     Forall (fun x => (index_epoch s <= index_epoch x)%Z) indices /\
     f_max_seq_nr (so_footer s) = merged_max_seq_nr ((fun s => f_max_seq_nr (so_footer s)) <$> indices)) /\
    so_file_size s = accumulate (so_file_size <$> indices) /\
    ((Z.of_nat (length (st_file (so_sst s))) < 2 ^ 63)%Z -> sst_load (st_file (so_sst s)) = Ok (so_sst s)).
Proof.
  destruct (k_way_merge_spec xxh64_hash heap config indices itemss upper Hhash Hstores Hupper Hu Hepochs Hwords Hne Hkeys Hahead)
    as (s & ms & E & Em & Hst & Hsv & H1 & H2 & H3 & _ & H4 & H5).
  destruct (merge_entries_correct (mc_discard_deleted_keys config) (stored_inputs indices itemss)) as (ms' & Em' & _ & Ha & _).
  { by eapply stored_inputs_ok. }
  { by rewrite (proj1 (inputs_zip _ _ _ Hstores)). }
  { by eapply stored_nonempty. }
  rewrite Em in Em'. injection Em' as <-. exists s, (out_kvs (ms_out ms)). split_ands; try done.
  - by apply merged_epoch_elem.
  - by apply merged_epoch_le.
Qed.

Lemma k_way_merge_files_witness : exists a b : sst_object,
  let hash := fun (b : bytes) (_ : Z) => Z.of_nat (length b) in
  let config := mk_merge_config 9000 true false in
  let itemss := [[([1], [1; 10]); ([2], [1; 20])]; [([1], [2]); ([3], [1; 30])]]%Z in
  exists s out, k_way_merge_async2 hash no_heap config [a; b] = Some (Ok s) /\ sst_stores hash s out /\
    forall key v, assoc key out = Some v <->
      newest (stored_inputs [a; b] itemss) key v /\ true && is_tombstone (mk_entry key v 0) = false.
Proof.
  set (hash := fun (b : bytes) (_ : Z) => Z.of_nat (length b)).
  set (la := [mk_mt_entry [1] 5 [1; 10]; mk_mt_entry [1] 2 [2]; mk_mt_entry [2] 4 [1; 20]]%Z).
  set (lb := [mk_mt_entry [1] 8 [2]; mk_mt_entry [3] 9 [1; 30]]%Z).
  assert (forall b seed, 0 <= hash b seed)%Z as Hh by (intros; unfold hash; lia).
  destruct (flush_stores hash no_heap la 3 7 1 true 100 Hh) as (a & _ & Ha & Hau & Hae & Has).
  { discriminate. }
  { vm_compute. discriminate. }
  { repeat constructor; unfold mt_lt; simpl; (by left) || (right; split; [done|lia]). }
  { repeat constructor; vm_compute; lia. }
  { repeat constructor; vm_compute; discriminate. }
  destruct (flush_stores hash no_heap lb 3 7 2 true 100 Hh) as (b & _ & Hb & Hbu & Hbe & Hbs).
  { discriminate. }
  { vm_compute. discriminate. }
  { repeat constructor; unfold mt_lt; simpl; (by left) || (right; split; [done|lia]). }
  { repeat constructor; vm_compute; lia. }
  { repeat constructor; vm_compute; discriminate. }
  exists (mk_sst_file a true 100), (mk_sst_file b true 100). intros hash' config itemss.
  destruct (k_way_merge_files hash no_heap config [mk_sst_file a true 100; mk_sst_file b true 100] itemss 7 Hh)
    as (s & out & E & Hst & Hout & _); try done.
  - constructor; [exact Ha|]. constructor; [exact Hb|constructor].
  - by repeat constructor.
  - cbn [fmap list_fmap]. rewrite Hae, Hbe. refine (bool_decide_unpack _ _). vm_compute. exact I.
  - constructor; [rewrite Hae; split; [lia|done]|]. constructor; [rewrite Hbe; split; [lia|done]|constructor].
  - by exists s, out.
Defined.
