(* ===== verification/SstManager.v ===== *)
(** * The SST manager (src/db/sst_manager.h, src/db/sst_manager.cc)

    One partition of the LSM tree: its levels of SSTs, the compaction
    states of the SST objects, the chain of compaction tasks of every
    level, and the operations on them: pushing flushed SSTs to level 0,
    picking buckets, launching compaction tasks, publishing or failing
    them, and the point lookup.

    An SST is its id, its epoch and the entries it holds; how a file holds
    entries is the subject of Sst, and the class [SstReader] is the
    interface between the two. The compaction state of an SST object,
    which snapshots and levels share through a pointer, is kept in a store
    indexed by the SST's id. The semaphores that order the tasks of a
    level are the order of its chain: a task publishes only when it is at
    the head. *)

From stdpp Require Import base list numbers strings sorting sets gmap.
From Stdlib Require Import ZArith Lia.
From S2P Require Import Prelude StdAlgo Types Block BlockBuffer Merge Sst.

Record sst_t := mk_sst { s_id : nat; s_epoch : Z; s_data : list kv }.

#[global] Instance sst_t_eq_dec : EqDecision sst_t.
Proof. solve_decision. Defined.

(** The compaction states of the SST objects. *)
Abbreviation states_t := (gmap nat compaction_progress_state).

Definition sst_state (states : states_t) (id : nat) : compaction_progress_state :=
  default PICKABLE_FOR_COMPACTION (states !! id).

Definition pickable (states : states_t) (s : sst_t) : bool :=
  pickable_for_compaction (sst_state states (s_id s)).

(** An invalid transition throws; the state is left alone. *)
Definition set_state (new_state : compaction_progress_state) (states : states_t) (s : sst_t) : states_t :=
  match set_compaction_state (sst_state states (s_id s)) new_state with
  | Some st => <[s_id s := st]> states
  | None => states
  end.

(** ** Picking buckets *)

Fixpoint skip_non_pickable (states : states_t) (l : list sst_t) : list sst_t :=
  match l with
  | [] => []
  | s :: l' => if pickable states s then l else skip_non_pickable states l'
  end.

Section buckets.
Context (min_merge_width max_merge_width : nat).

(** The loop over the rest of the level; each round consumes an SST. *)
Fixpoint buckets_loop (fuel : nat) (states : states_t) (candidates : list sst_t) (it : list sst_t)
    (out : list (list sst_t)) : states_t * list (list sst_t) :=
  match fuel, it with
  | O, _ | _, [] => (states, out)
  | S fuel, s :: rest =>
      let grow := pickable states s && (length candidates <? max_merge_width) in
      let candidates := if grow then candidates ++ [s] else candidates in
      if grow && negb (bool_decide (rest = []))
      then buckets_loop fuel states candidates rest out
      else
        let '(states, out) :=
          if min_merge_width <=? length candidates
          then (foldl (set_state IN_COMPACTION) states candidates, out ++ [candidates])
          else (states, out) in
        match skip_non_pickable states it with
        | [] => (states, out)
        | s :: rest => buckets_loop fuel states [s] rest out
        end
  end.

Definition create_buckets_from_level (states : states_t) (level : list sst_t)
    : states_t * list (list sst_t) :=
  if length level <? min_merge_width then (states, [])
  else
    match skip_non_pickable states level with
    | [] => (states, [])
    | s :: rest => buckets_loop (length rest) states [s] rest []
    end.
End buckets.

(** ** The state of a partition *)

Record task := mk_task { t_inputs : list sst_t; t_discard : bool; t_failed : bool }.

Record partition := mk_partition {
  p_levels : list (list sst_t);
  p_created : list bool;          (* per level: something is or will be there *)
  p_chains : list (list task);    (* per source level: the tasks not yet published *)
  p_states : states_t;
  p_next_id : nat;
}.

Definition make_partition (max_num_levels : nat) : partition :=
  mk_partition (replicate max_num_levels []) (replicate max_num_levels false)
    (replicate max_num_levels []) ∅ 0.

(** A partition that [sst_manager::load] finds on disk: the levels of its
    manifest, no task and every SST pickable again. *)
Definition reload (p : partition) : partition :=
  mk_partition (p_levels p) ((fun l => 0 <? length l) <$> p_levels p) ((fun _ => []) <$> p_levels p) ∅ (p_next_id p).

(** [push_new_ssts_to_l0], for the SST of this partition. *)
Definition push_l0 (p : partition) (epoch : Z) (data : list kv) : partition :=
  let s := mk_sst (p_next_id p) epoch data in
  mk_partition (alter (fun l => l ++ [s]) 0 (p_levels p)) (p_created p) (p_chains p)
    (p_states p) (S (p_next_id p)).

(** Whether the task of a bucket may drop tombstones. [first] tells that
    it is the first bucket of its level in this round. *)
Definition can_discard_keys (max_num_levels current_last_level level : nat) (first level_created : bool)
    : bool :=
  let target_level := Nat.min (level + 1) (max_num_levels - 1) in
  let merge_to_bottommost_level :=
    (level + 1 =? current_last_level) || (level + 1 =? max_num_levels - 1) in
  (if negb first then false else merge_to_bottommost_level)
  && ((target_level =? max_num_levels) || negb level_created).

(** Launching the buckets of one level. *)
Fixpoint launch_level (level : nat) (first : bool) (p : partition) (buckets : list (list sst_t)) : partition :=
  match buckets with
  | [] => p
  | b :: buckets =>
      let n := length (p_levels p) in
      let target_level := Nat.min (level + 1) (n - 1) in
      let discard := can_discard_keys n n level first (default false (p_created p !! target_level)) in
      launch_level level false
        (mk_partition (p_levels p) (<[target_level := true]> (p_created p))
           (alter (fun c => c ++ [mk_task b discard false]) level (p_chains p))
           (p_states p) (p_next_id p)) buckets
  end.

(** One compaction round on a level: picking and launching. *)
Definition compact_level (min_w max_w : nat) (p : partition) (level : nat) : partition :=
  let '(states, buckets) :=
    create_buckets_from_level min_w max_w (p_states p) (default [] (p_levels p !! level)) in
  launch_level level true
    (mk_partition (p_levels p) (p_created p) (p_chains p) states (p_next_id p)) buckets.

(** A round over all levels, in order. *)
Definition schedule_compaction (min_w max_w : nat) (p : partition) : partition :=
  foldl (compact_level min_w max_w) p (seq 0 (length (p_levels p))).

Definition sst_input (s : sst_t) : Z * list kv := (s_epoch s, s_data s).

(** The successful end of [_make_compaction_task] for the task at the head
    of its chain: the inputs leave their level, the output is pushed to
    the next one, and the permission is handed on. *)
Definition publish (p : partition) (level : nat) : option partition :=
  chain ← p_chains p !! level;
  match chain with
  | [] => None
  | t :: rest =>
      if t_failed t then None
      else
        match merge_entries (t_discard t) (sst_input <$> t_inputs t), merged_epoch (s_epoch <$> t_inputs t) with
        | Some (Ok st), Some epoch =>
            let ids := s_id <$> t_inputs t in
            let out := mk_sst (p_next_id p) epoch (out_kvs (ms_out st)) in
            let next_level_idx := Nat.min (level + 1) (length (p_levels p) - 1) in
            let levels := alter (filter (fun s => s_id s ∉ ids)) level (p_levels p) in
            let levels := alter (fun l => l ++ [out]) next_level_idx levels in
            Some (mk_partition levels (p_created p) (<[level := rest]> (p_chains p))
                    (p_states p) (S (p_next_id p)))
        | _, _ => None
        end
  end.

(** The error end of [_make_compaction_task], of any task of a chain: the
    inputs become COMPACTION_ERROR and stay, the permission is not handed
    on, so the task stays in the chain for good. *)
Definition fail_task (p : partition) (level i : nat) : option partition :=
  chain ← p_chains p !! level;
  t ← chain !! i;
  Some (mk_partition (p_levels p) (p_created p)
          (<[level := <[i := mk_task (t_inputs t) (t_discard t) true]> chain]> (p_chains p))
          (foldl (set_state COMPACTION_ERROR) (p_states p) (t_inputs t)) (p_next_id p)).

(** ** The read path *)

(** An entry a page can hold: a key within the limits and a value that
    parses. *)
Definition item_ok (x : kv) : Prop :=
  1 <= length x.1 < MAX_KEY_LEN /\ entry_fits x /\ value_ok x.2.

Definition run_ok (d : list kv) : Prop := sorted_kvs d /\ Forall item_ok d.

(** What the manager relies on, for SSTs with such entries: the filter has
    no false negatives and a lookup answers for the entries of the SST. *)
Class SstReader := {
  probe_filter : sst_t -> bytes -> bool;
  sst_lookup_async : sst_t -> bytes -> expected value_t;
  probe_complete : forall s key v,
    run_ok (s_data s) -> assoc key (s_data s) = Some v -> probe_filter s key = true;
  sst_lookup_async_spec : forall s key,
    run_ok (s_data s) -> sst_lookup_async s key = lookup_spec (assoc key (s_data s));
}.

Section read.
Context `{SstReader}.

(** One level, newest SST first: [None] when the key is in none. *)
Fixpoint lookup_level (level_newest_first : list sst_t) (key : bytes) : option (expected value_t) :=
  match level_newest_first with
  | [] => None
  | s :: rest =>
      if negb (probe_filter s key) then lookup_level rest key
      else
        match sst_lookup_async s key with
        | Ok v => Some (Ok v)
        | Err e => if bool_decide (error_code e = KEY_NOT_FOUND) then lookup_level rest key
                   else Some (Err (generic_error "An error occurred while reading index"))
        end
  end.

Fixpoint lookup_levels (levels : list (list sst_t)) (key : bytes) : expected value_t :=
  match levels with
  | [] => Err (mk_error "Key not found" KEY_NOT_FOUND)
  | l :: levels =>
      match lookup_level (reverse l) key with
      | Some r => r
      | None => lookup_levels levels key
      end
  end.
End read.

(** [max_seq_nr] over all SSTs, given the one each records. *)
Definition max_seq_nr (seq_of : sst_t -> Z) (levels : list (list sst_t)) : Z :=
  foldl Z.max 0%Z (seq_of <$> mjoin levels).

(** ** Backpressure *)

Record pressure := mk_pressure { pending_count : Z; backpressure : bool }.

Definition pressure_threshold (per_partition : option Z) (num_partition_exponent : Z) : Z :=
  match per_partition with
  | None => 2 ^ 63 - 1
  | Some t => t * Z.shiftl 1 num_partition_exponent
  end%Z.

Definition update_pending_compactions_counter (threshold count : Z) (s : pressure) : pressure :=
  let n := (pending_count s + count)%Z in
  let b := if negb (backpressure s) && (threshold <? n)%Z then true
           else if backpressure s && (n <? threshold)%Z then false
           else backpressure s in
  mk_pressure n b.

(** ** Lemmas on picking *)

Lemma pickable_set_state st states s x :
  pickable_for_compaction st = false -> s_id x <> s_id s ->
  pickable (set_state st states s) x = pickable states x.
Proof.
  intros _ Hne. unfold set_state, pickable, sst_state. case_match; [|done].
  by rewrite lookup_insert_ne by done.
Qed.

Lemma not_pickable_set_state st states s x :
  pickable_for_compaction st = false -> pickable states x = false ->
  pickable (set_state st states s) x = false.
Proof.
  intros Hst Hx. unfold set_state. destruct (set_compaction_state _ _) as [c|] eqn:E; [|done].
  unfold pickable, sst_state. destruct (decide (s_id s = s_id x)) as [Heq|Hne];
    [|by rewrite lookup_insert_ne by done].
  rewrite <- Heq, lookup_insert_eq. cbn. unfold set_compaction_state in E.
  case_bool_decide; simplify_eq; [by rewrite H|]. case_match; simplify_eq. done.
Qed.

(** Setting a non-pickable state: the others keep theirs, and none becomes
    pickable. *)
Lemma not_pickable_foldl st l states x :
  pickable_for_compaction st = false -> pickable states x = false ->
  pickable (foldl (set_state st) states l) x = false.
Proof. intros Hst. revert states. induction l; intros states Hx; [done|]. apply IHl. by apply not_pickable_set_state. Qed.

Lemma pickable_foldl_other st l states x :
  pickable_for_compaction st = false -> s_id x ∉ s_id <$> l ->
  pickable (foldl (set_state st) states l) x = pickable states x.
Proof.
  intros Hst. revert states. induction l as [|s l IH]; intros states Hx; [done|].
  rewrite fmap_cons in Hx. apply not_elem_of_cons in Hx as [Hne Hx]. cbn [foldl].
  rewrite IH by done. by apply pickable_set_state.
Qed.

Lemma not_pickable_picked states s :
  pickable (set_state IN_COMPACTION states s) s = false.
Proof.
  unfold set_state. destruct (sst_state states (s_id s)) eqn:E;
    match goal with |- context [set_compaction_state ?a ?b] =>
      let r := eval vm_compute in (set_compaction_state a b) in change (set_compaction_state a b) with r end;
    cbn beta match; unfold pickable; (by rewrite E) || (unfold sst_state; by rewrite lookup_insert_eq).
Qed.

Lemma pickable_foldl l states x :
  pickable (foldl (set_state IN_COMPACTION) states l) x
  = pickable states x && bool_decide (s_id x ∉ s_id <$> l).
Proof.
  revert states. induction l as [|s l IH]; intros states.
  - cbn [foldl]. rewrite bool_decide_eq_true_2 by apply not_elem_of_nil. by rewrite andb_true_r.
  - cbn [foldl]. rewrite IH, fmap_cons. destruct (decide (s_id x = s_id s)) as [Heq|Hne].
    + rewrite (bool_decide_eq_false_2 (_ ∉ _ :: _)) by set_solver. rewrite andb_false_r.
      assert (pickable (set_state IN_COMPACTION states s) x
              = pickable (set_state IN_COMPACTION states s) s) as -> by (unfold pickable; by rewrite Heq).
      by rewrite not_pickable_picked.
    + rewrite pickable_set_state by done. f_equal. apply bool_decide_ext. set_solver.
Qed.

Lemma skip_non_pickable_spec states l :
  exists skipped, l = skipped ++ skip_non_pickable states l /\
    Forall (fun s => pickable states s = false) skipped /\
    match skip_non_pickable states l with [] => True | s :: _ => pickable states s = true end.
Proof.
  induction l as [|s l (sk & IH1 & IH2 & IH3)]; [by exists []|]. cbn [skip_non_pickable].
  destruct (pickable states s) eqn:E; [by exists []|]. exists (s :: sk). split; [by rewrite IH1 at 1|].
  by split; [constructor|].
Qed.

(** The buckets lie in the level one after the other, each in one piece. *)
Inductive segments {A} : list A -> list (list A) -> Prop :=
  | segments_nil l : segments l []
  | segments_cons g b l bs : segments l bs -> segments (g ++ b ++ l) (b :: bs).

Lemma segments_skip {A} (g : list A) l bs : segments l bs -> segments (g ++ l) bs.
Proof.
  destruct 1 as [l|g' b l bs H]; [constructor|]. rewrite app_assoc. by constructor.
Qed.

Section picking.
Context (min_w max_w : nat) (Hw : 2 <= min_w <= max_w).

Definition bucket_size_ok (b : list sst_t) : Prop := min_w <= length b <= max_w.

(** What the loop does from a candidate set and the rest of the level. *)
Definition picked (states : states_t) (cand it : list sst_t) (bs : list (list sst_t)) : Prop :=
  segments (cand ++ it) bs /\ Forall bucket_size_ok bs /\
  Forall (fun s => pickable states s = true) (mjoin bs) /\
  (Forall (fun s => pickable states s = true) it ->
   exists rest, cand ++ it = mjoin bs ++ rest /\ length rest < min_w).

Lemma picked_none states cand it :
  length (cand ++ it) < min_w -> picked states cand it [].
Proof. intros Hl. unfold picked. split_ands; try constructor. intros _. by exists (cand ++ it). Qed.

Abbreviation mark := (foldl (set_state IN_COMPACTION)).

Lemma pickable_mark states l x :
  pickable (mark states l) x = true -> pickable states x = true.
Proof. rewrite pickable_foldl. by intros [? _]%andb_true_iff. Qed.

(** Emitting the candidates and going on with a later part of the level. *)
Lemma picked_emit states cand sk it cand' it' bs :
  it = sk ++ cand' ++ it' ->
  bucket_size_ok cand -> Forall (fun s => pickable states s = true) cand ->
  NoDup (s_id <$> cand ++ it) ->
  Forall (fun s => pickable (mark states cand) s = false) sk ->
  picked (mark states cand) cand' it' bs ->
  picked states cand it (cand :: bs).
Proof.
  intros -> Hsz Hc Hnd Hsk (H1 & H2 & H3 & H4). unfold picked. rewrite mjoin_cons. split_ands.
  - rewrite <- (app_nil_l (cand ++ _)). constructor. by apply segments_skip.
  - by constructor.
  - apply Forall_app. split; [done|]. eapply Forall_impl; [exact H3|]. cbv beta. intros s. apply pickable_mark.
  - intros Hall. destruct sk as [|s sk].
    + destruct H4 as (rest & Hr & Hl).
      { apply Forall_forall. intros s Hs. rewrite pickable_foldl. rewrite Forall_forall in Hall.
        rewrite fmap_app in Hnd. apply NoDup_app in Hnd as (_ & Hd & _).
        rewrite Hall by set_solver. apply bool_decide_eq_true. intros Hin. apply (Hd _ Hin).
        apply list_elem_of_fmap. exists s. set_solver. }
      exists rest. by rewrite app_nil_l, Hr, app_assoc.
    + exfalso. apply Forall_cons in Hsk as [Hs _]. apply Forall_cons in Hall as [Hs' _].
      rewrite pickable_foldl, Hs' in Hs. cbn in Hs. apply bool_decide_eq_false in Hs. apply Hs.
      rewrite fmap_app in Hnd. apply NoDup_app in Hnd as (_ & Hd & _).
      intros Hin. apply (Hd _ Hin). rewrite fmap_app. cbn. set_solver.
Qed.

(** Dropping the candidates because the next SST is not pickable. *)
Lemma picked_drop states cand s sk it it' cand' bs :
  it = s :: sk ++ cand' ++ it' -> pickable states s = false ->
  picked states cand' it' bs -> picked states cand it bs.
Proof.
  intros -> Hs (H1 & H2 & H3 & H4). unfold picked. split_ands; [|done|done|].
  - rewrite !app_comm_cons, !app_assoc, <- app_assoc. by apply segments_skip.
  - intros Hall. apply Forall_cons in Hall as [Hs' _]. congruence.
Qed.

Lemma picked_grow states cand s it bs :
  picked states (cand ++ [s]) it bs -> picked states cand (s :: it) bs.
Proof.
  intros (H1 & H2 & H3 & H4). rewrite <- app_assoc in *. unfold picked. split_ands; try done.
  intros Hall. apply Forall_cons in Hall as [_ Hall]. auto.
Qed.

Lemma mark_app states a b : mark states (a ++ b) = mark (mark states a) b.
Proof. apply foldl_app. Qed.

(** Going on after the candidates were emitted or dropped. *)
Lemma skip_split states it :
  exists sk cand' it', it = sk ++ cand' ++ it' /\ length cand' <= 1 /\
    Forall (fun s => pickable states s = false) sk /\ Forall (fun s => pickable states s = true) cand' /\
    match skip_non_pickable states it with
    | [] => cand' = [] /\ it' = []
    | s :: rest => cand' = [s] /\ it' = rest
    end.
Proof.
  destruct (skip_non_pickable_spec states it) as (sk & H1 & H2 & H3). exists sk.
  destruct (skip_non_pickable states it) as [|s rest].
  - exists [], []. rewrite !app_nil_l. by split_ands; [|cbn; lia| |constructor| |].
  - exists [s], rest. by split_ands; [|cbn; lia| |constructor| |].
Qed.

Lemma buckets_loop_nil fuel states cand out : buckets_loop min_w max_w fuel states cand [] out = (states, out).
Proof. by destruct fuel. Qed.

(** What the induction over the fuel carries. *)
Definition loop_picks (fuel : nat) : Prop := forall states cand it out,
  length it <= fuel -> 1 <= length cand <= max_w -> it <> [] \/ length cand < min_w ->
  Forall (fun s => pickable states s = true) cand -> NoDup (s_id <$> cand ++ it) ->
  exists bs, buckets_loop min_w max_w fuel states cand it out = (mark states (mjoin bs), out ++ bs) /\
    picked states cand it bs.

(** A fresh candidate set starts at the next pickable SST. *)
Lemma loop_restart fuel states sk cand it l out :
  loop_picks fuel -> length l <= S fuel -> NoDup (s_id <$> l) ->
  l = sk ++ cand ++ it -> length cand <= 1 -> Forall (fun s => pickable states s = true) cand ->
  match skip_non_pickable states l with
  | [] => cand = [] /\ it = []
  | s :: rest => cand = [s] /\ it = rest
  end ->
  exists bs, match skip_non_pickable states l with
             | [] => (states, out)
             | s :: rest => buckets_loop min_w max_w fuel states [s] rest out
             end = (mark states (mjoin bs), out ++ bs) /\ picked states cand it bs.
Proof.
  intros IH Hf Hnd Hit Hl1 Hc Hm.
  destruct (skip_non_pickable states l) as [|s' rest']; destruct Hm as [-> ->].
  - exists []. rewrite app_nil_r. split; [done|]. apply picked_none. cbn; lia.
  - rewrite Hit, !length_app in Hf. cbn in Hf.
    apply IH; [lia|cbn; lia|cbn; lia|done|]. rewrite Hit in Hnd. rewrite !fmap_app in *.
    apply NoDup_app in Hnd as (_ & _ & Hnd). done.
Qed.

(** The last SST of the level joins the candidates. *)
Lemma loop_last fuel states cand s out :
  S (length cand) <= max_w -> Forall (fun s => pickable states s = true) (cand ++ [s]) ->
  NoDup (s_id <$> cand ++ [s]) ->
  exists bs, buckets_loop min_w max_w (S fuel) states cand [s] out = (mark states (mjoin bs), out ++ bs) /\
    picked states cand [s] bs.
Proof.
  intros Hmax Hc Hnd. pose proof Hc as [_ Hs]%Forall_app. rewrite Forall_singleton in Hs.
  cbn [buckets_loop]. rewrite Hs, (proj2 (Nat.ltb_lt _ _)) by lia.
  rewrite bool_decide_eq_true_2 by done. cbn [negb andb]. rewrite length_app. cbn [length].
  destruct (Nat.leb_spec min_w (length cand + 1)).
  - cbn [skip_non_pickable]. rewrite pickable_foldl. rewrite bool_decide_eq_false_2, andb_false_r
      by (rewrite fmap_app; cbn; set_solver).
    exists [cand ++ [s]]. rewrite mjoin_cons, app_nil_r. split; [done|]. apply picked_grow.
    apply (picked_emit _ _ [] [] [] []); try done.
    + split; rewrite length_app; cbn; lia.
    + by rewrite app_nil_r.
    + apply picked_none. cbn; lia.
  - cbn [skip_non_pickable]. rewrite Hs. rewrite buckets_loop_nil.
    exists []. rewrite app_nil_r. split; [done|]. apply picked_none. rewrite length_app. cbn; lia.
Qed.

(** Too few candidates before an SST that is busy: they are dropped. *)
Lemma loop_drop states cand s rest sk cand' it' bs :
  pickable states s = false -> length cand < min_w -> s :: rest = sk ++ cand' ++ it' ->
  Forall (fun s => pickable states s = false) sk -> Forall (fun s => pickable states s = true) cand' ->
  match skip_non_pickable states (s :: rest) with
  | [] => cand' = [] /\ it' = []
  | s :: rest => cand' = [s] /\ it' = rest
  end ->
  picked states cand' it' bs -> picked states cand (s :: rest) bs.
Proof.
  intros Hs Hm H1 H3 H4 H5 Hp.
  destruct sk as [|s0 sk]; [|injection H1 as <- Hrest;
    apply (picked_drop _ _ s sk _ it' cand'); [by rewrite Hrest|done|done]].
  destruct cand' as [|s0 cand']; simplify_list_eq; [|apply Forall_cons in H4 as [? _]; congruence].
  cbn [skip_non_pickable] in H5. rewrite Hs in H5.
  destruct (skip_non_pickable states rest); destruct H5; simplify_eq.
Qed.

Lemma buckets_loop_spec fuel : loop_picks fuel.
Proof.
  induction fuel as [|fuel IH]; intros states cand it out Hf Hl Hne Hc Hnd.
  { destruct it; [|cbn in Hf; lia]. exists []. rewrite app_nil_r. split; [done|].
    apply picked_none. rewrite app_nil_r. by destruct Hne. }
  destruct it as [|s rest].
  { exists []. rewrite app_nil_r. split; [done|]. apply picked_none. rewrite app_nil_r. by destruct Hne. }
  assert (NoDup (s_id <$> s :: rest)) as Hnd2 by (rewrite fmap_app in Hnd; by apply NoDup_app in Hnd as (_ & _ & ?)).
  destruct (pickable states s && (length cand <? max_w)) eqn:Eg.
  - pose proof Eg as [Hs Hmax%Nat.ltb_lt]%andb_true_iff.
    assert (Forall (fun s => pickable states s = true) (cand ++ [s])) as Hc2
      by (apply Forall_app; split; [done|by constructor]).
    destruct (decide (rest = [])) as [->|Hr]; [by apply loop_last|].
    cbn [buckets_loop length] in *. rewrite Eg, bool_decide_eq_false_2 by done. cbn [negb andb].
    destruct (IH states (cand ++ [s]) rest out) as (bs & -> & Hp);
      [lia|rewrite length_app; cbn; lia|by left|done|by rewrite <- app_assoc|].
    exists bs. split; [done|]. by apply picked_grow.
  - cbn [buckets_loop]. rewrite Eg. cbn [andb]. destruct (Nat.leb_spec min_w (length cand)) as [Hm|Hm].
    + destruct (skip_split (mark states cand) (s :: rest)) as (sk & cand' & it' & H1 & H2 & H3 & H4 & H5).
      destruct (loop_restart _ _ _ _ _ _ (out ++ [cand]) IH Hf Hnd2 H1 H2 H4 H5) as (bs & -> & Hp).
      exists (cand :: bs). rewrite mjoin_cons, mark_app, <- app_assoc. split; [done|].
      eapply picked_emit; try done. split; lia.
    + destruct (skip_split states (s :: rest)) as (sk & cand' & it' & H1 & H2 & H3 & H4 & H5).
      destruct (loop_restart _ _ _ _ _ _ out IH Hf Hnd2 H1 H2 H4 H5) as (bs & -> & Hp).
      exists bs. split; [done|]. eapply loop_drop; try done.
      destruct (pickable states s); [|done]. cbn in Eg. apply Nat.ltb_ge in Eg. lia.
Qed.

Lemma fresh_split states (busy fresh sk l : list sst_t) :
  busy ++ fresh = sk ++ l -> Forall (fun s => pickable states s = false) busy ->
  Forall (fun s => pickable states s = true) fresh ->
  Forall (fun s => pickable states s = false) sk ->
  match l with [] => True | s :: _ => pickable states s = true end -> busy = sk /\ fresh = l.
Proof.
  revert sk. induction busy as [|x busy IH]; intros sk E Hb Hf Hsk Hl.
  - destruct sk as [|y sk]; [by split|]. cbn in E. subst fresh.
    apply Forall_cons in Hf as [? _], Hsk as [? _]. congruence.
  - apply Forall_cons in Hb as [Hx Hb]. destruct sk as [|y sk].
    + cbn in E. subst l. congruence.
    + simplify_list_eq. apply Forall_cons in Hsk as [_ Hsk]. destruct (IH sk) as [-> ->]; done.
Qed.

Lemma create_buckets_spec states level :
  NoDup (s_id <$> level) ->
  exists bs, create_buckets_from_level min_w max_w states level = (mark states (mjoin bs), bs) /\
    segments level bs /\ Forall bucket_size_ok bs /\ Forall (fun s => pickable states s = true) (mjoin bs) /\
    forall busy fresh, level = busy ++ fresh ->
      Forall (fun s => pickable states s = false) busy -> Forall (fun s => pickable states s = true) fresh ->
      exists rest, fresh = mjoin bs ++ rest /\ length rest < min_w.
Proof.
  intros Hnd. unfold create_buckets_from_level. destruct (Nat.ltb_spec (length level) min_w) as [Hlt|Hge].
  { exists []. split_ands; try constructor. intros busy fresh -> _ _. exists fresh.
    rewrite length_app in Hlt. split; [done|lia]. }
  destruct (skip_non_pickable_spec states level) as (sk & H1 & H2 & H3).
  pose proof (fun busy fresh E Hb Hf => fresh_split states busy fresh sk _
    (eq_trans (eq_sym E) H1) Hb Hf H2 H3) as Hsplit.
  destruct (skip_non_pickable states level) as [|s rest].
  { exists []. split_ands; try constructor. intros busy fresh E Hb Hf.
    destruct (Hsplit busy fresh E Hb Hf) as [_ ->]. exists []. split; [done|cbn; lia]. }
  destruct (buckets_loop_spec (length rest) states [s] rest []) as (bs & -> & Hp1 & Hp2 & Hp3 & Hp4).
  - done.
  - cbn; lia.
  - cbn; lia.
  - by constructor.
  - rewrite H1, fmap_app in Hnd. by apply NoDup_app in Hnd as (_ & _ & Hnd).
  - exists bs. rewrite app_nil_l. split_ands; try done.
    + rewrite H1. by apply segments_skip.
    + intros busy fresh E Hb Hf. destruct (Hsplit busy fresh E Hb Hf) as [_ ->].
      apply Forall_cons in Hf as [_ Hf]. auto.
Qed.
End picking.

(** ** Properties of picking and of backpressure *)

(** C33: picking the buckets of a level. For SSTs with distinct ids: the
    buckets lie in the level in order, each a run of neighbours of
    between [min_merge_width] and [max_merge_width] SSTs; every picked SST
    was pickable and no longer is, the others stay as pickable as they were;
    and when
    the SSTs that cannot be picked all come first, the buckets follow each
    other without gaps from there and leave fewer than [min_merge_width]
    SSTs at the end. *)
Theorem buckets_correct (min_w max_w : nat) (states : states_t) (level : list sst_t)
    (Hw : 2 <= min_w <= max_w) (Hids : NoDup (s_id <$> level)) :
  let '(states', bs) := create_buckets_from_level min_w max_w states level in
  segments level bs /\
  Forall (fun b => min_w <= length b <= max_w) bs /\
  (forall s, pickable states' s = pickable states s && bool_decide (s_id s ∉ s_id <$> mjoin bs)) /\
  Forall (fun s => pickable states s = true) (mjoin bs) /\
  (forall busy fresh, level = busy ++ fresh ->
    Forall (fun s => pickable states s = false) busy -> Forall (fun s => pickable states s = true) fresh ->
    exists rest, fresh = mjoin bs ++ rest /\ length rest < min_w).
Proof.
  destruct (create_buckets_spec min_w max_w Hw states level Hids) as (bs & -> & H1 & H2 & H3 & H4).
  split_ands; try done. intros s. apply pickable_foldl.
Qed.

Lemma buckets_witness :
  let sst i := mk_sst i (Z.of_nat i) [] in
  let '(_, bs) := create_buckets_from_level 2 3 {[ 0 := IN_COMPACTION ]} (sst <$> [0; 1; 2; 3; 4; 5]) in
  segments (sst <$> [0; 1; 2; 3; 4; 5]) bs /\ bs = [sst <$> [1; 2; 3]; sst <$> [4; 5]].
Proof.
  cbv zeta. set (l := (fun i => mk_sst i (Z.of_nat i) []) <$> [0; 1; 2; 3; 4; 5]).
  pose proof (buckets_correct 2 3 {[ 0 := IN_COMPACTION ]} l ltac:(lia)
    ltac:(refine (bool_decide_unpack _ _); vm_compute; exact I)) as H.
  assert (snd (create_buckets_from_level 2 3 {[ 0 := IN_COMPACTION ]} l)
          = [(fun i => mk_sst i (Z.of_nat i) []) <$> [1; 2; 3]; (fun i => mk_sst i (Z.of_nat i) []) <$> [4; 5]]) as E
    by (vm_compute; reflexivity).
  destruct (create_buckets_from_level _ _ _ _) as [st bs]. split; [apply H|exact E].
Defined.

(** Backpressure follows the number of SSTs pending in level 0 with
    hysteresis. After any sequence of updates it is on when the count is
    above the threshold and off when it is below; at the threshold it
    keeps the value it had. *)
Theorem backpressure_tracks_threshold (threshold count : Z) (s : pressure) :
  let s' := update_pending_compactions_counter threshold count s in
  pending_count s' = (pending_count s + count)%Z /\
  ((threshold < pending_count s')%Z -> backpressure s' = true) /\
  ((pending_count s' < threshold)%Z -> backpressure s' = false) /\
  (pending_count s' = threshold -> backpressure s' = backpressure s).
Proof.
  cbv zeta. unfold update_pending_compactions_counter. cbn [pending_count backpressure].
  split; [done|].
  destruct (backpressure s), (Z.ltb_spec threshold (pending_count s + count)),
    (Z.ltb_spec (pending_count s + count) threshold); cbn; split_ands; intros; lia || done.
Qed.
