(* ===== verification/Compactor.v ===== *)
(** * The compaction scheduler (src/db/sst_manager.cc)

    The worker that launches compactions and the tasks it launches, as a
    transition system: the channel of requests, the counters of pending
    SSTs, the backpressure flag, and the semaphores that hand the permission
    to publish from task to task. What the tasks do to the levels is the
    subject of SstManager and Lsm; here a bucket is the number of its SSTs.
    The tasks of one level run one after the other
    ([run_tasks_in_sequence]), those of other levels beside them, and a step
    is one access to the shared state.

    Shown are that the counters are exact, that all tasks finish when no
    merge fails, and what [wait_for_compactions_to_finish] does when one
    does, or when a request was posted but not yet taken up. *)

From stdpp Require Import base numbers option list gmap sorting.
From Stdlib Require Import ZArith Lia.
From S2P Require Import Prelude SstManager.

(** ** States *)

(** Where a task is in [_make_compaction_task]. *)
Inductive task_pc :=
  | Created      (* made, not yet posted to the pool *)
  | Queued       (* its turn in the sequence has not come *)
  | Merging      (* in k_way_merge_async2 *)
  | Waiting      (* co_await can_write *)
  | Publishing   (* has the permission, updates the levels *)
  | Notifying    (* has released next_can_write *)
  | Persisting   (* has posted the next request, writes the manifest, unlinks *)
  | Ending       (* done but for the counters *)
  | Counted      (* has updated the counter of the backpressure *)
  | Finished.

#[global] Instance task_pc_eq_dec : EqDecision task_pc.
Proof. solve_decision. Defined.

Record ctask := mk_ctask {
  ct_level : nat;
  ct_inputs : nat;             (* inputs.size() *)
  ct_can_write : nat;          (* the semaphores, by position *)
  ct_next_can_write : nat;
  ct_prev : option nat;        (* the task before it in its sequence *)
  ct_failed : bool;            (* merge_result is an error *)
  ct_pc : task_pc;
}.

(** The buckets of a level of a partition, as [launch_compaction_tasks]
    finds them. *)
Record level_buckets := mk_level_buckets {
  lb_partition : nat;
  lb_level : nat;
  lb_sizes : list nat;
}.

#[global] Instance level_buckets_eq_dec : EqDecision level_buckets.
Proof. solve_decision. Defined.

(** The worker: idle in [pull], or launching; [ids] are the tasks made for
    the level at hand. *)
Inductive worker_pc :=
  | Idle
  | Launching (todo : list level_buckets) (ids : list nat)
  | Adding (todo : list level_buckets) (ids : list nat).   (* pressure counted, total not yet *)

#[global] Instance worker_pc_eq_dec : EqDecision worker_pc.
Proof. solve_decision. Defined.

Record compactor := mk_compactor {
  cp_chan : list bool;                      (* _compaction_scheduler_signal_chan *)
  cp_worker : worker_pc;
  cp_tasks : list ctask;
  cp_semaphores : list nat;
  cp_permissions : gmap (nat * nat) nat;    (* partition, level *)
  cp_pressure : pressure;
  cp_total : Z;                             (* _total_pending_compacting_sst_count *)
  cp_jobs_in_flight : Z;
}.

(** ** Steps *)

Definition set_chan (s : compactor) (c : list bool) : compactor :=
  mk_compactor c (cp_worker s) (cp_tasks s) (cp_semaphores s) (cp_permissions s) (cp_pressure s) (cp_total s)
    (cp_jobs_in_flight s).

Definition set_worker (s : compactor) (w : worker_pc) : compactor :=
  mk_compactor (cp_chan s) w (cp_tasks s) (cp_semaphores s) (cp_permissions s) (cp_pressure s) (cp_total s)
    (cp_jobs_in_flight s).

Definition set_tasks (s : compactor) (ts : list ctask) : compactor :=
  mk_compactor (cp_chan s) (cp_worker s) ts (cp_semaphores s) (cp_permissions s) (cp_pressure s) (cp_total s)
    (cp_jobs_in_flight s).

Definition set_semaphores (s : compactor) (l : list nat) : compactor :=
  mk_compactor (cp_chan s) (cp_worker s) (cp_tasks s) l (cp_permissions s) (cp_pressure s) (cp_total s)
    (cp_jobs_in_flight s).

Definition set_pressure (s : compactor) (p : pressure) : compactor :=
  mk_compactor (cp_chan s) (cp_worker s) (cp_tasks s) (cp_semaphores s) (cp_permissions s) p (cp_total s)
    (cp_jobs_in_flight s).

Definition set_total (s : compactor) (n : Z) : compactor :=
  mk_compactor (cp_chan s) (cp_worker s) (cp_tasks s) (cp_semaphores s) (cp_permissions s) (cp_pressure s) n
    (cp_jobs_in_flight s).

Definition with_pc (t : ctask) (pc : task_pc) : ctask :=
  mk_ctask (ct_level t) (ct_inputs t) (ct_can_write t) (ct_next_can_write t) (ct_prev t) (ct_failed t) pc.

Definition as_failed (t : ctask) : ctask :=
  mk_ctask (ct_level t) (ct_inputs t) (ct_can_write t) (ct_next_can_write t) (ct_prev t) true Ending.

Definition put_task (s : compactor) (i : nat) (t : ctask) : compactor := set_tasks s (<[i := t]> (cp_tasks s)).

Section compactor.
Context (threshold : Z).

(** The counter of the backpressure is touched for level 0 only. *)
Definition count_pressure (s : compactor) (level : nat) (count : Z) : compactor :=
  if level =? 0 then set_pressure s (update_pending_compactions_counter threshold count (cp_pressure s)) else s.

(** [schedule_compaction] *)
Definition post (s : compactor) (compact_all : bool) : compactor := set_chan s (cp_chan s ++ [compact_all]).

(** Whether the tasks before it in the sequence are done. *)
Definition turn_come (s : compactor) (t : ctask) : bool :=
  match ct_prev t with
  | None => true
  | Some j => match cp_tasks s !! j with Some t' => bool_decide (ct_pc t' = Finished) | None => false end
  end.

(** One step of the task at [i]; [ok] is the outcome of a merge. *)
Definition task_step (s : compactor) (i : nat) (ok : bool) : option compactor :=
  t ← cp_tasks s !! i;
  match ct_pc t with
  | Created | Finished => None
  | Queued => if turn_come s t then Some (put_task s i (with_pc t Merging)) else None
  | Merging => Some (put_task s i (if ok then with_pc t Waiting else as_failed t))
  | Waiting =>
      match cp_semaphores s !! ct_can_write t with
      | Some (S n) =>
          Some (put_task (set_semaphores s (<[ct_can_write t := n]> (cp_semaphores s))) i (with_pc t Publishing))
      | _ => None
      end
  | Publishing =>
      Some (put_task (set_semaphores s (alter S (ct_next_can_write t) (cp_semaphores s))) i (with_pc t Notifying))
  | Notifying => Some (put_task (post s false) i (with_pc t Persisting))
  | Persisting => Some (put_task s i (with_pc t Ending))
  | Ending => Some (put_task (count_pressure s (ct_level t) (- Z.of_nat (ct_inputs t))) i (with_pc t Counted))
  | Counted => Some (put_task (set_total s (cp_total s - Z.of_nat (ct_inputs t))) i (with_pc t Finished))
  end.

(** The worker takes a request; [round] is what [pick_ssts_into_buckets]
    picks. *)
Definition pull (s : compactor) (round : list level_buckets) : option compactor :=
  match cp_worker s, cp_chan s with
  | Idle, _ :: c => Some (set_worker (set_chan s c) (Launching round []))
  | _, _ => None
  end.

(** Posting the sequence of tasks of a level. *)
Definition post_tasks (ts : list ctask) (ids : list nat) : list ctask :=
  foldl (fun ts i => alter (fun t => with_pc t Queued) i ts) ts ids.

(** The next step of [launch_compaction_tasks]: a bucket is counted, then
    its task is made; behind the last bucket of a level the tasks are
    posted; behind the last level the job is done. *)
Definition launch_step (s : compactor) : option compactor :=
  match cp_worker s with
  | Idle => None
  | Launching [] _ =>
      let s := set_worker s Idle in
      Some (mk_compactor (cp_chan s) (cp_worker s) (cp_tasks s) (cp_semaphores s) (cp_permissions s) (cp_pressure s)
        (cp_total s) (u64 (cp_jobs_in_flight s - 1)))
  | Launching (lb :: todo) ids =>
      match lb_sizes lb with
      | [] => Some (set_worker (set_tasks s (post_tasks (cp_tasks s) ids)) (Launching todo []))
      | n :: _ => Some (set_worker (count_pressure s (lb_level lb) (Z.of_nat n)) (Adding (lb :: todo) ids))
      end
  | Adding [] _ => None
  | Adding (lb :: todo) ids =>
      match lb_sizes lb with
      | [] => None
      | n :: sizes =>
          can_write ← cp_permissions s !! (lb_partition lb, lb_level lb);
          let next_can_write := length (cp_semaphores s) in
          let t := mk_ctask (lb_level lb) n can_write next_can_write (last ids) false Created in
          Some (mk_compactor (cp_chan s)
            (Launching (mk_level_buckets (lb_partition lb) (lb_level lb) sizes :: todo) (ids ++ [length (cp_tasks s)]))
            (cp_tasks s ++ [t]) (cp_semaphores s ++ [0])
            (<[(lb_partition lb, lb_level lb) := next_can_write]> (cp_permissions s))
            (cp_pressure s) (cp_total s + Z.of_nat n) (cp_jobs_in_flight s))
      end
  end.

(** ** Runs *)

Inductive event :=
  | Post (compact_all : bool)
  | Pull (round : list level_buckets)
  | Launch
  | Task (i : nat) (ok : bool).

(** What [pick_ssts_into_buckets] can return: buckets that are not empty,
    of partitions and levels that exist. *)
Definition round_ok (s : compactor) (round : list level_buckets) : bool :=
  forallb (fun lb => bool_decide (is_Some (cp_permissions s !! (lb_partition lb, lb_level lb))) &&
                     forallb (fun n => 0 <? n) (lb_sizes lb)) round.

Definition step (s : compactor) (e : event) : option compactor :=
  match e with
  | Post b => Some (post s b)
  | Pull round => if round_ok s round then pull s round else None
  | Launch => launch_step s
  | Task i ok => task_step s i ok
  end.

Definition run (s : compactor) (es : list event) : option compactor :=
  foldl (fun s e => s ← s; step s e) (Some s) es.

(** [wait_for_compactions_to_finish] goes on when the total is zero. *)
Definition wait_returns (s : compactor) : bool := (cp_total s =? 0)%Z.
End compactor.

(** The state after construction, one semaphore with count 1 for every
    level of every partition. *)
Definition all_levels (partitions levels : nat) : list (nat * nat) :=
  p ← seq 0 partitions; (fun l => (p, l)) <$> seq 0 levels.

Definition make_compactor (partitions levels : nat) : compactor :=
  let keys := all_levels partitions levels in
  mk_compactor [] Idle [] (replicate (length keys) 1) (list_to_map (zip keys (seq 0 (length keys))))
    (mk_pressure 0 false) 0 0.

(** ** What the counters and semaphores stand for *)

(** The task has handed the permission on; it has taken it. *)
Definition released (t : ctask) : bool :=
  match ct_pc t with
  | Notifying | Persisting => true
  | Ending | Counted | Finished => negb (ct_failed t)
  | _ => false
  end.

Definition passed (t : ctask) : bool := match ct_pc t with Publishing => true | _ => released t end.

(** The SSTs the task has in each counter. *)
Definition in_total (t : ctask) : Z := match ct_pc t with Finished => 0 | _ => Z.of_nat (ct_inputs t) end.

Definition in_pressure (t : ctask) : Z :=
  match ct_level t, ct_pc t with
  | O, (Counted | Finished) => 0
  | O, _ => Z.of_nat (ct_inputs t)
  | S _, _ => 0
  end.

Fixpoint sum_tasks (f : ctask -> Z) (ts : list ctask) : Z :=
  match ts with [] => 0%Z | t :: ts => (f t + sum_tasks f ts)%Z end.

(** What the worker has counted for a task that it has not made yet. *)
Definition worker_pressure (w : worker_pc) : Z :=
  match w with
  | Adding (lb :: _) _ => match lb_level lb, lb_sizes lb with O, n :: _ => Z.of_nat n | _, _ => 0 end
  | _ => 0
  end.

Definition worker_ids (w : worker_pc) : list nat :=
  match w with Idle => [] | Launching _ ids | Adding _ ids => ids end.

Definition worker_todo (w : worker_pc) : list level_buckets :=
  match w with Idle => [] | Launching todo _ | Adding todo _ => todo end.

Lemma sum_replace f ts i t t' : ts !! i = Some t -> sum_tasks f (<[i := t']> ts) = (sum_tasks f ts - f t + f t')%Z.
Proof.
  revert i. induction ts as [|x ts IH]; intros [|i] H; try done.
  - injection H as ->. cbn. lia.
  - change (<[S i := t']> (x :: ts)) with (x :: <[i := t']> ts). cbn [sum_tasks]. rewrite (IH i H). lia.
Qed.

Lemma sum_app f a b : sum_tasks f (a ++ b) = (sum_tasks f a + sum_tasks f b)%Z.
Proof. induction a as [|x a IH]; [done|]. cbn [app sum_tasks]. lia. Qed.

Lemma sum_nonneg f ts : (forall t, 0 <= f t)%Z -> (0 <= sum_tasks f ts)%Z.
Proof. intros Hf. induction ts as [|x ts IH]; [done|]. cbn. specialize (Hf x). lia. Qed.

Lemma sum_ge f ts i t : (forall t, 0 <= f t)%Z -> ts !! i = Some t -> (f t <= sum_tasks f ts)%Z.
Proof.
  intros Hf. revert i. induction ts as [|x ts IH]; intros [|i] H; try done; cbn.
  - injection H as ->. pose proof (sum_nonneg f ts Hf). lia.
  - specialize (IH i H). specialize (Hf x). lia.
Qed.

(** A semaphore has its permission when it was there from the start, or
    the task before released it, and no task has taken it. *)
Section semaphores.
Context (K : nat).   (* the semaphores made by the constructor *)

Definition produced (ts : list ctask) (c : nat) : bool :=
  (c <? K) || match ts !! (c - K) with Some t => released t | None => false end.

Definition taken (ts : list ctask) (c : nat) : Prop :=
  exists i t, ts !! i = Some t /\ ct_can_write t = c /\ passed t = true.

Definition semaphores_ok (ts : list ctask) (sems : list nat) : Prop :=
  forall c, c < length sems ->
    (sems !! c = Some 1 /\ ~ taken ts c /\ produced ts c = true) \/
    (sems !! c = Some 0 /\ taken ts c /\ produced ts c = true) \/
    (sems !! c = Some 0 /\ ~ taken ts c /\ produced ts c = false).

Definition same_task (t t' : ctask) : Prop :=
  ct_level t' = ct_level t /\ ct_inputs t' = ct_inputs t /\ ct_can_write t' = ct_can_write t /\
  ct_next_can_write t' = ct_next_can_write t /\ ct_prev t' = ct_prev t.

Record cinv (threshold : Z) (s : compactor) : Prop := {
  ci_inputs i t : cp_tasks s !! i = Some t -> 0 < ct_inputs t;
  ci_failed i t : cp_tasks s !! i = Some t -> ct_failed t = true ->
    ct_pc t = Ending \/ ct_pc t = Counted \/ ct_pc t = Finished;
  ci_total : cp_total s = sum_tasks in_total (cp_tasks s);
  ci_pending : pending_count (cp_pressure s) = (sum_tasks in_pressure (cp_tasks s) + worker_pressure (cp_worker s))%Z;
  ci_flag : ((threshold < pending_count (cp_pressure s))%Z -> backpressure (cp_pressure s) = true) /\
    ((pending_count (cp_pressure s) < threshold)%Z -> backpressure (cp_pressure s) = false);
  ci_next i t : cp_tasks s !! i = Some t -> ct_next_can_write t = K + i /\ ct_can_write t < K + i /\
    forall j, ct_prev t = Some j -> j < i;
  ci_length : length (cp_semaphores s) = K + length (cp_tasks s);
  ci_can i j t t' : cp_tasks s !! i = Some t -> cp_tasks s !! j = Some t' -> ct_can_write t = ct_can_write t' -> i = j;
  ci_perms k c : cp_permissions s !! k = Some c -> c < length (cp_semaphores s) /\
    (forall k', cp_permissions s !! k' = Some c -> k' = k) /\
    forall i t, cp_tasks s !! i = Some t -> ct_can_write t <> c;
  ci_sems : semaphores_ok (cp_tasks s) (cp_semaphores s);
  ci_created i t : cp_tasks s !! i = Some t -> ct_pc t = Created -> i ∈ worker_ids (cp_worker s);
  ci_ids i : i ∈ worker_ids (cp_worker s) -> exists t, cp_tasks s !! i = Some t /\ ct_pc t = Created;
  ci_todo : Forall (fun lb => is_Some (cp_permissions s !! (lb_partition lb, lb_level lb)) /\
    Forall (fun n => 0 < n) (lb_sizes lb)) (worker_todo (cp_worker s));
  ci_done ids : cp_worker s = Launching [] ids -> ids = [];
  ci_adding todo ids : cp_worker s = Adding todo ids -> exists lb rest, todo = lb :: rest /\ lb_sizes lb <> [];
}.

(** ** Every step keeps the invariant *)

Context (threshold : Z).

Lemma lookup_put (ts : list ctask) i t t' j x : ts !! i = Some t -> same_task t t' -> <[i := t']> ts !! j = Some x ->
  exists y, ts !! j = Some y /\ same_task y x /\ (j <> i -> x = y) /\ (j = i -> x = t').
Proof.
  intros Hi Hs. destruct (decide (i = j)) as [<-|Hn].
  - rewrite list_lookup_insert_eq by (by eapply lookup_lt_Some). intros [= <-]. by exists t.
  - rewrite list_lookup_insert_ne by done. intros H. exists x. by split_ands.
Qed.

Lemma taken_put ts i t t' c : ts !! i = Some t -> same_task t t' ->
  taken (<[i := t']> ts) c <-> (ct_can_write t = c /\ passed t' = true) \/
    exists j x, j <> i /\ ts !! j = Some x /\ ct_can_write x = c /\ passed x = true.
Proof.
  intros Hi Hs. split.
  - intros (j & x & Hj & Hc & Hp). destruct (lookup_put _ _ _ _ _ _ Hi Hs Hj) as (y & Hy & (_ & _ & E & _) & Hne & Heq).
    destruct (decide (j = i)) as [->|Hn].
    + left. rewrite (Heq eq_refl) in *. destruct Hs as (_ & _ & E' & _). split; congruence.
    + right. rewrite (Hne Hn) in *. by exists j, y.
  - intros [[Hc Hp]|(j & x & Hn & Hj & Hc & Hp)].
    + exists i, t'. split_ands; [apply list_lookup_insert_eq; by eapply lookup_lt_Some| |done].
      destruct Hs as (_ & _ & E & _). congruence.
    + exists j, x. by rewrite list_lookup_insert_ne.
Qed.

Lemma taken_same ts i t t' c : ts !! i = Some t -> same_task t t' -> passed t' = passed t ->
  taken (<[i := t']> ts) c <-> taken ts c.
Proof.
  intros Hi Hs Hp. rewrite (taken_put _ _ t) by done. split.
  - intros [[Hc Ht]|(j & x & _ & H)]; [exists i, t; split_ands; congruence|by exists j, x].
  - intros (j & x & Hj & Hc & Hx). destruct (decide (j = i)) as [->|Hn].
    + left. split; congruence.
    + right. by exists j, x.
Qed.

Lemma produced_put ts i t t' c : ts !! i = Some t -> (c = K + i -> released t' = released t) ->
  produced (<[i := t']> ts) c = produced ts c.
Proof.
  intros Hi Hr. unfold produced. destruct (Nat.ltb_spec c K) as [|Hc]; [done|]. cbn [orb].
  destruct (decide (i = c - K)) as [->|Hn]; [|by rewrite list_lookup_insert_ne].
  rewrite list_lookup_insert_eq, Hi by (by eapply lookup_lt_Some). apply Hr. lia.
Qed.

Lemma semaphores_same ts sems i t t' : ts !! i = Some t -> same_task t t' -> passed t' = passed t ->
  released t' = released t -> semaphores_ok ts sems -> semaphores_ok (<[i := t']> ts) sems.
Proof.
  intros Hi Hs Hp Hr H c Hc. rewrite (taken_same _ _ t), (produced_put _ _ t) by done. by apply H.
Qed.

(** The task takes its permission. *)
Lemma semaphores_take ts sems i t n : ts !! i = Some t -> ct_pc t = Waiting -> semaphores_ok ts sems ->
  sems !! ct_can_write t = Some (S n) ->
  semaphores_ok (<[i := with_pc t Publishing]> ts) (<[ct_can_write t := n]> sems).
Proof.
  intros Hi Hpc H Hn c Hc. rewrite length_insert in Hc. assert (same_task t (with_pc t Publishing)) as Hs by done.
  rewrite (taken_put _ _ t) by done. rewrite (produced_put _ _ t) by (try done; unfold released; rewrite Hpc; done).
  destruct (decide (c = ct_can_write t)) as [->|Hne].
  - right. left. destruct (H _ Hc) as [(E & Ht & Hp)|[(E & _)|(E & _)]]; rewrite Hn in E; try done. injection E as ->.
    split_ands; [by apply list_lookup_insert_eq|by left|done].
  - rewrite list_lookup_insert_ne by done.
    assert ((ct_can_write t = c /\ passed (with_pc t Publishing) = true) \/
      (exists j x, j <> i /\ ts !! j = Some x /\ ct_can_write x = c /\ passed x = true) <-> taken ts c) as ->; [|by apply H].
    split; [intros [[? _]|(j & x & _ & Hx)]; [done|by exists j, x]|].
    intros (j & x & Hj & Hcx & Hp). right. exists j, x. split_ands; try done. intros ->. congruence.
Qed.

(** The task releases the next permission. *)
Lemma semaphores_release ts sems i t : ts !! i = Some t -> ct_pc t = Publishing -> semaphores_ok ts sems ->
  ct_next_can_write t = K + i -> K + i < length sems ->
  semaphores_ok (<[i := with_pc t Notifying]> ts) (alter S (ct_next_can_write t) sems).
Proof.
  intros Hi Hpc H Hnext Hlt c Hc. rewrite length_alter in Hc. assert (same_task t (with_pc t Notifying)) as Hs by done.
  rewrite (taken_same _ _ t) by (try done; unfold passed; rewrite Hpc; done). rewrite Hnext.
  destruct (decide (c = K + i)) as [->|Hne].
  - left. assert (produced ts (K + i) = false) as Hp.
    { unfold produced. rewrite (proj2 (Nat.ltb_ge _ _)) by lia. cbn [orb].
      replace (K + i - K) with i by lia. rewrite Hi. unfold released. by rewrite Hpc. }
    destruct (H _ Hc) as [(_ & _ & E)|[(_ & _ & E)|(E & Ht & _)]]; [congruence|congruence|].
    split_ands; [by rewrite list_lookup_alter_eq, E|done|].
    unfold produced. rewrite (proj2 (Nat.ltb_ge _ _)) by lia. cbn [orb]. replace (K + i - K) with i by lia.
    by rewrite list_lookup_insert_eq by (by eapply lookup_lt_Some).
  - rewrite list_lookup_alter_ne by done. rewrite (produced_put _ _ t) by done. by apply H.
Qed.

(** A task moves on. *)
Lemma put_inv s i t t' chan sems pr total : cinv threshold s -> cp_tasks s !! i = Some t -> same_task t t' ->
  ct_pc t <> Created -> ct_pc t' <> Created ->
  (ct_failed t' = true -> ct_pc t' = Ending \/ ct_pc t' = Counted \/ ct_pc t' = Finished) ->
  semaphores_ok (<[i := t']> (cp_tasks s)) sems -> length sems = length (cp_semaphores s) ->
  total = (cp_total s - in_total t + in_total t')%Z ->
  pending_count pr = (pending_count (cp_pressure s) - in_pressure t + in_pressure t')%Z ->
  (((threshold < pending_count pr)%Z -> backpressure pr = true) /\ ((pending_count pr < threshold)%Z -> backpressure pr = false)) ->
  cinv threshold (mk_compactor chan (cp_worker s) (<[i := t']> (cp_tasks s)) sems (cp_permissions s) pr total (cp_jobs_in_flight s)).
Proof.
  intros [] Hi Hs Hpc Hpc' Hf Hsem Hlen Ht Hp Hfl. split; cbn; try done.
  - intros j x Hj. destruct (lookup_put _ _ _ _ _ _ Hi Hs Hj) as (y & Hy & (_ & E & _) & _). rewrite E. by eapply ci_inputs0.
  - intros j x Hj. destruct (lookup_put _ _ _ _ _ _ Hi Hs Hj) as (y & Hy & _ & Hne & Heq).
    destruct (decide (j = i)) as [->|Hn]; [rewrite (Heq eq_refl); done|rewrite (Hne Hn); by eapply ci_failed0].
  - rewrite (sum_replace _ _ _ _ _ Hi). lia.
  - rewrite (sum_replace _ _ _ _ _ Hi). lia.
  - intros j x Hj. destruct (lookup_put _ _ _ _ _ _ Hi Hs Hj) as (y & Hy & (_ & _ & -> & -> & ->) & _). by apply ci_next0.
  - rewrite length_insert. congruence.
  - intros j k x x' Hj Hk E. destruct (lookup_put _ _ _ _ _ _ Hi Hs Hj) as (y & Hy & (_ & _ & E1 & _) & _).
    destruct (lookup_put _ _ _ _ _ _ Hi Hs Hk) as (y' & Hy' & (_ & _ & E2 & _) & _). eapply ci_can0; [done|done|congruence].
  - intros k c Hk. destruct (ci_perms0 k c Hk) as (H1 & H2 & H3). split_ands; [congruence|done|].
    intros j x Hj. destruct (lookup_put _ _ _ _ _ _ Hi Hs Hj) as (y & Hy & (_ & _ & -> & _) & _). by eapply H3.
  - intros j x Hj Hx. destruct (lookup_put _ _ _ _ _ _ Hi Hs Hj) as (y & Hy & _ & Hne & Heq).
    destruct (decide (j = i)) as [->|Hn]; [rewrite (Heq eq_refl) in Hx; done|rewrite (Hne Hn) in Hx; by eapply ci_created0].
  - intros j Hj. destruct (ci_ids0 j Hj) as (x & Hx & Hcx). exists x. split; [|done].
    rewrite list_lookup_insert_ne; [done|]. intros ->. congruence.
Qed.

Lemma count_pressure_spec s level count : cinv threshold s ->
  let p := cp_pressure (count_pressure threshold s level count) in
  pending_count p = (pending_count (cp_pressure s) + if (level =? 0)%nat then count else 0)%Z /\
  ((threshold < pending_count p)%Z -> backpressure p = true) /\ ((pending_count p < threshold)%Z -> backpressure p = false).
Proof.
  intros Hs. unfold count_pressure. destruct (level =? 0); cbn [cp_pressure set_pressure].
  - destruct (backpressure_tracks_threshold threshold count (cp_pressure s)) as (H1 & H2 & H3 & _). done.
  - rewrite Z.add_0_r. split; [done|]. apply (ci_flag _ _ Hs).
Qed.

(** A move that touches no counter and no semaphore. *)
Lemma move_inv s i t t' chan : cinv threshold s -> cp_tasks s !! i = Some t -> same_task t t' ->
  ct_pc t <> Created -> ct_pc t' <> Created ->
  (ct_failed t' = true -> ct_pc t' = Ending \/ ct_pc t' = Counted \/ ct_pc t' = Finished) ->
  passed t' = passed t -> released t' = released t -> in_total t' = in_total t -> in_pressure t' = in_pressure t ->
  cinv threshold (put_task (set_chan s chan) i t').
Proof.
  intros Hs Hi Hst Hpc Hpc' Hf Hp Hr Ht Hpr. apply (put_inv s i t); try done.
  - eapply semaphores_same; try done. apply Hs.
  - cbn. lia.
  - cbn. lia.
  - apply Hs.
Qed.

Lemma task_step_inv s i ok s' : cinv threshold s -> task_step threshold s i ok = Some s' -> cinv threshold s'.
Proof.
  intros Hs. unfold task_step. destruct (cp_tasks s !! i) as [t|] eqn:Hi; [|done]. cbn [mbind option_bind].
  pose proof (ci_sems _ _ Hs) as Hsem. pose proof (ci_flag _ _ Hs) as Hfl. pose proof (ci_failed _ _ Hs _ _ Hi) as Hf.
  assert (forall pc chan, ct_pc t <> Created -> pc <> Created -> (ct_failed t = true -> pc = Ending \/ pc = Counted \/ pc = Finished) ->
    passed (with_pc t pc) = passed t -> released (with_pc t pc) = released t -> in_total (with_pc t pc) = in_total t ->
    in_pressure (with_pc t pc) = in_pressure t -> cinv threshold (put_task (set_chan s chan) i (with_pc t pc))) as Hmove.
  { intros pc chan. intros. by eapply move_inv. }
  assert (set_chan s (cp_chan s) = s) as Hid by (by destruct s).
  assert (ct_pc t <> Ending -> ct_pc t <> Counted -> ct_pc t <> Finished -> ct_failed t = false) as Hnf.
  { intros. destruct (ct_failed t); [|done]. destruct (Hf eq_refl) as [|[|]]; done. }
  unfold passed, released, in_total, in_pressure in Hmove. cbn [with_pc ct_pc ct_level ct_inputs ct_failed] in Hmove.
  destruct (ct_pc t) eqn:Hpc; try done.
  - destruct (turn_come s t); [|done]. intros [= <-]. rewrite <- Hid. apply Hmove; try done; rewrite ?Hnf; done.
  - intros [= <-]. rewrite <- Hid. destruct ok; [apply Hmove; try done; rewrite ?Hnf; done|].
    apply (move_inv s i t); try done; unfold passed, released, in_total, in_pressure, as_failed; cbn; rewrite ?Hpc; try done.
    by left.
  - destruct (cp_semaphores s !! ct_can_write t) as [[|n]|] eqn:Hn; try done. intros [= <-].
    apply (put_inv s i t); try done; rewrite ?Hpc; try done.
    + cbn. rewrite Hnf; done.
    + by apply semaphores_take.
    + cbn. by rewrite length_insert.
    + unfold in_total. rewrite Hpc. cbn. lia.
    + unfold in_pressure. rewrite Hpc. cbn. destruct (ct_level t); lia.
  - intros [= <-]. destruct (ci_next _ _ Hs _ _ Hi) as (Hnx & _ & _).
    apply (put_inv s i t); try done; rewrite ?Hpc; try done.
    + cbn. rewrite Hnf; done.
    + apply semaphores_release; try done. rewrite (ci_length _ _ Hs). apply lookup_lt_Some in Hi. lia.
    + cbn. by rewrite length_alter.
    + unfold in_total. rewrite Hpc. cbn. lia.
    + unfold in_pressure. rewrite Hpc. cbn. destruct (ct_level t); lia.
  - intros [= <-]. apply Hmove; try done; rewrite ?Hnf; done.
  - intros [= <-]. rewrite <- Hid. apply Hmove; try done; rewrite ?Hnf; done || (by left).
  - intros [= <-]. destruct (count_pressure_spec s (ct_level t) (- Z.of_nat (ct_inputs t)) Hs) as (Hp1 & Hp2).
    set (s1 := count_pressure threshold s (ct_level t) (- Z.of_nat (ct_inputs t))) in *.
    assert (s1 = set_pressure s (cp_pressure s1)) as -> by (unfold s1, count_pressure; destruct (ct_level t =? 0); by destruct s).
    apply (put_inv s i t); try done; rewrite ?Hpc; try done.
    + cbn. auto.
    + eapply semaphores_same; try done; unfold passed, released; by rewrite Hpc.
    + unfold in_total. rewrite Hpc. cbn. lia.
    + cbn [set_pressure cp_pressure]. rewrite Hp1. unfold in_pressure. rewrite Hpc. cbn. destruct (ct_level t); cbn; lia.
  - intros [= <-]. apply (put_inv s i t); try done; rewrite ?Hpc; try done.
    + cbn. auto.
    + eapply semaphores_same; try done; unfold passed, released; by rewrite Hpc.
    + unfold in_total. rewrite Hpc. cbn. lia.
    + unfold in_pressure. rewrite Hpc. cbn. destruct (ct_level t); lia.
Qed.

(** A task that was not started. *)
Definition unstarted (t : ctask) : Prop := ct_pc t = Created \/ ct_pc t = Queued.

Lemma post_tasks_ind (P : list ctask -> Prop) ts ids :
  (forall ts i t, P ts -> ts !! i = Some t -> unstarted t -> P (<[i := with_pc t Queued]> ts)) ->
  P ts -> (forall i, i ∈ ids -> exists t, ts !! i = Some t /\ unstarted t) -> P (post_tasks ts ids).
Proof.
  intros Hstep. revert ts. induction ids as [|i ids IH]; intros ts HP Hids; [done|]. cbn [post_tasks foldl].
  destruct (Hids i) as (t & Hi & Hu); [by left|].
  assert (alter (fun t => with_pc t Queued) i ts = <[i := with_pc t Queued]> ts) as E.
  { apply list_eq. intros j. destruct (decide (i = j)) as [<-|Hn].
    - rewrite list_lookup_alter_eq, Hi, list_lookup_insert_eq by (by eapply lookup_lt_Some). done.
    - by rewrite list_lookup_alter_ne, list_lookup_insert_ne. }
  change (P (post_tasks (alter (fun t => with_pc t Queued) i ts) ids)). rewrite E. apply IH; [by apply (Hstep _ _ t)|].
  intros j Hj. destruct (decide (i = j)) as [<-|Hn].
  - exists (with_pc t Queued). split; [apply list_lookup_insert_eq; by eapply lookup_lt_Some|by right].
  - rewrite list_lookup_insert_ne by done. apply Hids. by right.
Qed.

Lemma length_post ts ids : length (post_tasks ts ids) = length ts.
Proof. revert ts. induction ids as [|i ids IH]; intros ts; [done|]. etrans; [apply IH|apply length_alter]. Qed.

Lemma post_tasks_queued ts ids i t : i ∈ ids -> post_tasks ts ids !! i = Some t -> ct_pc t = Queued.
Proof.
  assert (forall ids ts t, ts !! i = Some t -> ct_pc t = Queued -> post_tasks ts ids !! i = Some t) as Hkeep.
  { clear. induction ids as [|j ids IH]; intros ts t Hi Hq; [done|]. cbn. apply IH; [|done].
    destruct (decide (j = i)) as [->|Hn]; [|by rewrite list_lookup_alter_ne].
    rewrite list_lookup_alter_eq, Hi. cbn. f_equal. destruct t. cbn in *. by subst. }
  revert ts. induction ids as [|j ids IH]; intros ts Hi Hp; [by apply not_elem_of_nil in Hi|]. cbn in Hp.
  apply elem_of_cons in Hi as [->|Hi]; [|by eapply IH].
  destruct (ts !! j) as [t0|] eqn:Hj.
  - rewrite (Hkeep _ _ (with_pc t0 Queued)) in Hp; [by injection Hp as <-|by rewrite list_lookup_alter_eq, Hj|done].
  - exfalso. apply lookup_lt_Some in Hp. apply lookup_ge_None in Hj.
    fold (post_tasks (alter (fun t => with_pc t Queued) j ts) ids) in Hp. rewrite length_post, length_alter in Hp. lia.
Qed.

(** Posting the tasks of a level changes nothing but their state. *)
Lemma post_tasks_spec ts sems ids : semaphores_ok ts sems -> (forall i, i ∈ ids -> exists t, ts !! i = Some t /\ unstarted t) ->
  let ts' := post_tasks ts ids in
  semaphores_ok ts' sems /\ sum_tasks in_total ts' = sum_tasks in_total ts /\
  sum_tasks in_pressure ts' = sum_tasks in_pressure ts /\
  forall j x, ts' !! j = Some x -> exists y, ts !! j = Some y /\ same_task y x /\ ct_failed x = ct_failed y /\
    (ct_pc x = ct_pc y \/ (ct_pc x = Queued /\ unstarted y)).
Proof.
  intros Hsem Hids. cbv zeta. apply (post_tasks_ind (fun ts' => semaphores_ok ts' sems /\
    sum_tasks in_total ts' = sum_tasks in_total ts /\ sum_tasks in_pressure ts' = sum_tasks in_pressure ts /\
    forall j x, ts' !! j = Some x -> exists y, ts !! j = Some y /\ same_task y x /\ ct_failed x = ct_failed y /\
      (ct_pc x = ct_pc y \/ (ct_pc x = Queued /\ unstarted y)))); [|split_ands; try done|done].
  - intros ts1 i t (H1 & H2 & H3 & H4) Hi Hu. split_ands.
    + apply (semaphores_same _ _ i t); try done; unfold passed, released; cbn; destruct Hu as [-> | ->]; done.
    + rewrite (sum_replace _ _ _ _ _ Hi), H2. unfold in_total. destruct Hu as [-> | ->]; cbn; lia.
    + rewrite (sum_replace _ _ _ _ _ Hi), H3. unfold in_pressure. cbn. destruct (ct_level t); [|lia].
      destruct Hu as [-> | ->]; lia.
    + intros j x Hj. destruct (H4 i t Hi) as (y & Hy & Hs & Hf & Hp). destruct (decide (j = i)) as [->|Hn].
      * rewrite list_lookup_insert_eq in Hj by (by eapply lookup_lt_Some). injection Hj as <-.
        exists y. split_ands; try done. right. split; [done|]. destruct Hp as [E|[_ Hp]]; [|done].
        unfold unstarted in *. by rewrite <- E.
      * rewrite list_lookup_insert_ne in Hj by done. by apply H4.
  - intros j x Hj. exists x. split_ands; auto. by split_ands.
Qed.

(** The same tasks up to their state. *)
Lemma post_inv s lb todo ids : cinv threshold s -> cp_worker s = Launching (lb :: todo) ids -> lb_sizes lb = [] ->
  cinv threshold (set_worker (set_tasks s (post_tasks (cp_tasks s) ids)) (Launching todo [])).
Proof.
  intros [] Hw Hsz. rewrite Hw in *.
  destruct (post_tasks_spec (cp_tasks s) (cp_semaphores s) ids ci_sems0) as (H1 & H2 & H3 & H4).
  { intros i Hi. destruct (ci_ids0 i Hi) as (t & Ht & Hc). exists t. split; [done|by left]. }
  split; cbn; try done.
  - intros i t Hi. destruct (H4 _ _ Hi) as (y & Hy & (_ & -> & _) & _). by eapply ci_inputs0.
  - intros i t Hi Hf. destruct (H4 _ _ Hi) as (y & Hy & _ & Ef & Ep). rewrite Ef in Hf.
    destruct (ci_failed0 _ _ Hy Hf) as [E|[E|E]], Ep as [->|[_ [Eu|Eu]]]; try congruence; auto.
  - congruence.
  - rewrite H3. done.
  - intros i t Hi. destruct (H4 _ _ Hi) as (y & Hy & (_ & _ & -> & -> & ->) & _). by apply ci_next0.
  - by rewrite length_post.
  - intros i j t t' Hi Hj E. destruct (H4 _ _ Hi) as (y & Hy & (_ & _ & E1 & _) & _), (H4 _ _ Hj) as (y' & Hy' & (_ & _ & E2 & _) & _).
    eapply ci_can0; [done|done|congruence].
  - intros k c Hk. destruct (ci_perms0 k c Hk) as (P1 & P2 & P3). split_ands; try done.
    intros i t Hi. destruct (H4 _ _ Hi) as (y & Hy & (_ & _ & -> & _) & _). by eapply P3.
  - intros i t Hi Hc. exfalso. destruct (H4 _ _ Hi) as (y & Hy & _ & _ & [E|[E _]]); [|congruence].
    rewrite Hc in E. pose proof (ci_created0 _ _ Hy (eq_sym E)) as Hin. cbn in Hin.
    rewrite (post_tasks_queued _ _ _ _ Hin Hi) in Hc. done.
  - intros i Hi. by apply not_elem_of_nil in Hi.
  - cbn in ci_todo0. by apply Forall_cons in ci_todo0 as [_ ?].
  - by intros ids' [= _ <-].
Qed.

Lemma lookup_snoc {A} (l : list A) x i y : (l ++ [x]) !! i = Some y -> l !! i = Some y \/ (i = length l /\ y = x).
Proof.
  intros H. apply lookup_app_Some in H as [H|[Hge H]]; [by left|]. right.
  destruct (i - length l) as [|n] eqn:E; [|by destruct n]. cbn in H. injection H as <-. split; [lia|done].
Qed.

(** A task is made: its semaphore is new and without permission. *)
Lemma semaphores_make ts sems t : semaphores_ok ts sems -> length sems = K + length ts -> ct_pc t = Created ->
  (forall i x, ts !! i = Some x -> ct_can_write x < length sems) -> semaphores_ok (ts ++ [t]) (sems ++ [0]).
Proof.
  intros H Hlen Hpc Hcan c Hc. rewrite length_app in Hc. cbn in Hc.
  assert (taken (ts ++ [t]) c <-> taken ts c) as ->.
  { split.
    - intros (i & x & Hi & Hx & Hp). apply lookup_snoc in Hi as [Hi|[_ ->]]; [by exists i, x|].
      unfold passed, released in Hp. by rewrite Hpc in Hp.
    - intros (i & x & Hi & Hx). exists i, x. split; [by apply lookup_app_l_Some|done]. }
  assert (produced (ts ++ [t]) c = produced ts c) as ->.
  { unfold produced. f_equal. destruct (decide (c - K < length ts)) as [Hl|Hl]; [by rewrite lookup_app_l|].
    rewrite lookup_app_r, (lookup_ge_None_2 ts) by lia. destruct (c - K - length ts) as [|n]; [|done]. cbn.
    unfold released. by rewrite Hpc. }
  destruct (decide (c < length sems)) as [Hl|Hl].
  - rewrite lookup_app_l by done. by apply H.
  - right. right. rewrite lookup_app_r by lia. replace (c - length sems) with 0 by lia. split; [done|].
    unfold produced. rewrite (proj2 (Nat.ltb_ge _ _)), (lookup_ge_None_2 ts) by lia. split; [|done].
    intros (i & x & Hi & Hx & _). apply Hcan in Hi. lia.
Qed.

Lemma compactor_make_inv s p l n sizes todo ids can : cinv threshold s ->
  cp_worker s = Adding (mk_level_buckets p l (n :: sizes) :: todo) ids -> cp_permissions s !! (p, l) = Some can ->
  cinv threshold (mk_compactor (cp_chan s) (Launching (mk_level_buckets p l sizes :: todo) (ids ++ [length (cp_tasks s)]))
    (cp_tasks s ++ [mk_ctask l n can (length (cp_semaphores s)) (last ids) false Created]) (cp_semaphores s ++ [0])
    (<[(p, l) := length (cp_semaphores s)]> (cp_permissions s)) (cp_pressure s) (cp_total s + Z.of_nat n) (cp_jobs_in_flight s)).
Proof.
  intros [] Hw Hp. rewrite Hw in *. cbn in *. destruct (ci_perms0 _ _ Hp) as (Hc1 & Hc2 & Hc3).
  apply Forall_cons in ci_todo0 as [[_ Hn] Htodo]. cbn in Hn. apply Forall_cons in Hn as [Hn Hsz].
  assert (forall i t, cp_tasks s !! i = Some t -> i < length (cp_tasks s)) as Hlt by (intros; by eapply lookup_lt_Some).
  split; cbn; try done.
  - intros i t Hi. apply lookup_snoc in Hi as [Hi|[_ ->]]; [by eapply ci_inputs0|done].
  - intros i t Hi. apply lookup_snoc in Hi as [Hi|[_ ->]]; [by eapply ci_failed0|done].
  - rewrite sum_app, ci_total0. cbn. lia.
  - rewrite sum_app, ci_pending0. cbn. unfold in_pressure. cbn. destruct l; lia.
  - intros i t Hi. apply lookup_snoc in Hi as [Hi|[-> ->]]; [by apply ci_next0|]. cbn. split_ands; [lia|lia|].
    intros j Hj. destruct (ci_ids0 j) as (x & Hx & _); [|by eapply Hlt].
    by apply last_Some_elem_of.
  - rewrite !length_app. cbn. lia.
  - intros i j t t' Hi Hj E. apply lookup_snoc in Hi as [Hi|[-> ->]], Hj as [Hj|[-> ->]]; cbn in *.
    + by eapply ci_can0.
    + by destruct (Hc3 _ _ Hi).
    + by destruct (Hc3 _ _ Hj).
    + done.
  - intros k c Hk. rewrite length_app. cbn. apply lookup_insert_Some in Hk as [[<- <-]|[Hne Hk]].
    + split_ands; [lia| |].
      * intros k' Hk'. apply lookup_insert_Some in Hk' as [[<- _]|[_ Hk']]; [done|]. apply ci_perms0 in Hk'. lia.
      * intros i t Hi. apply lookup_snoc in Hi as [Hi|[-> ->]]; [destruct (ci_next0 _ _ Hi); apply Hlt in Hi; lia|]. cbn. lia.
    + destruct (ci_perms0 k c Hk) as (P1 & P2 & P3). split_ands; [lia| |].
      * intros k' Hk'. apply lookup_insert_Some in Hk' as [[<- <-]|[_ Hk']]; [lia|by apply P2].
      * intros i t Hi. apply lookup_snoc in Hi as [Hi|[-> ->]]; [by eapply P3|]. cbn. intros ->. by apply Hne, P2.
  - apply semaphores_make; try done. intros i x Hi. destruct (ci_next0 _ _ Hi) as (_ & H & _). apply Hlt in Hi. lia.
  - intros i t Hi Ht. apply elem_of_app. apply lookup_snoc in Hi as [Hi|[-> ->]]; [left; by eapply ci_created0|].
    right. by left.
  - intros i Hi. apply elem_of_app in Hi as [Hi|Hi].
    + destruct (ci_ids0 i Hi) as (t & Ht & Hc). exists t. split; [by apply lookup_app_l_Some|done].
    + apply list_elem_of_singleton in Hi as ->. eexists. split; [apply list_lookup_middle; lia|done].
  - constructor.
    + cbn. rewrite lookup_insert_eq. by split; [eexists|].
    + eapply Forall_impl; [exact Htodo|]. intros lb [H1 H2]. split; [|done]. apply lookup_insert_is_Some'. by right.
Qed.

Lemma launch_step_inv s s' : cinv threshold s -> launch_step threshold s = Some s' -> cinv threshold s'.
Proof.
  intros Hs. unfold launch_step. destruct (cp_worker s) as [|[|lb todo] ids|[|lb todo] ids] eqn:Hw; try done.
  - intros [= <-]. pose proof (ci_done _ _ Hs _ Hw) as ->. destruct Hs. rewrite Hw in *. by split.
  - destruct (lb_sizes lb) as [|n sizes] eqn:Hsz; intros [= <-]; [by eapply post_inv|].
    destruct (count_pressure_spec s (lb_level lb) (Z.of_nat n) Hs) as (Hp1 & Hp2).
    set (s1 := count_pressure threshold s (lb_level lb) (Z.of_nat n)) in *.
    assert (s1 = set_pressure s (cp_pressure s1)) as -> by (unfold s1, count_pressure; destruct (lb_level lb =? 0); by destruct s).
    destruct Hs. rewrite Hw in *. split; cbn; try done.
    + rewrite Hp1, ci_pending0. cbn. rewrite Hsz. destruct (lb_level lb); cbn; lia.
    + intros todo' ids' [= <- <-]. exists lb, todo. by rewrite Hsz.
  - destruct lb as [p l [|n sizes]]; [done|]. cbn. destruct (cp_permissions s !! (p, l)) as [can|] eqn:Hp; [|done].
    cbn. intros [= <-]. by apply compactor_make_inv.
Qed.

Lemma compactor_step_inv s e s' : cinv threshold s -> step threshold s e = Some s' -> cinv threshold s'.
Proof.
  intros Hs. destruct e as [b|round| |i ok]; cbn [step].
  - intros [= <-]. destruct Hs. by split.
  - destruct (round_ok s round) eqn:Hr; [|done]. unfold pull. destruct (cp_worker s) eqn:Hw; try done.
    destruct (cp_chan s) as [|b c]; [done|]. intros [= <-]. destruct Hs. rewrite Hw in *. split; cbn; try done.
    + apply Forall_forall. intros lb Hlb. unfold round_ok in Hr. rewrite forallb_forall in Hr.
      apply list_elem_of_In, Hr, andb_true_iff in Hlb as [H1 H2]. apply bool_decide_eq_true in H1. split; [done|].
      apply Forall_forall. intros n Hn. rewrite forallb_forall in H2. by apply Nat.ltb_lt, H2, list_elem_of_In.
    + by intros ids [= _ <-].
  - by apply launch_step_inv.
  - by apply task_step_inv.
Qed.

Lemma run_cons s e es : run threshold s (e :: es) = s ← step threshold s e; run threshold s es.
Proof.
  unfold run. cbn [foldl mbind option_bind]. destruct (step threshold s e) as [s1|]; [done|]. cbn [mbind option_bind].
  induction es as [|e' es IH]; [done|]. exact IH.
Qed.

Lemma compactor_run_inv s es s' : cinv threshold s -> run threshold s es = Some s' -> cinv threshold s'.
Proof.
  revert s. induction es as [|e es IH]; intros s Hs; [by intros [= <-]|]. rewrite run_cons.
  destruct (step threshold s e) as [s1|] eqn:E; [|done]. cbn. apply IH. by eapply compactor_step_inv.
Qed.

(** ** Progress *)

(** How many steps a task and the worker still have. *)
Definition pc_left (pc : task_pc) : nat :=
  match pc with
  | Created => 9 | Queued => 8 | Merging => 7 | Waiting => 6 | Publishing => 5
  | Notifying => 4 | Persisting => 3 | Ending => 2 | Counted => 1 | Finished => 0
  end.

Fixpoint todo_left (todo : list level_buckets) : nat :=
  match todo with [] => 0 | lb :: todo => 1 + 11 * length (lb_sizes lb) + todo_left todo end.

Definition worker_left (w : worker_pc) : nat :=
  match w with
  | Idle => 0
  | Launching todo _ => 2 + todo_left todo
  | Adding todo _ => 1 + todo_left todo
  end.

Definition tasks_left (ts : list ctask) : Z := sum_tasks (fun t => Z.of_nat (pc_left (ct_pc t))) ts.

Definition work_left (s : compactor) : Z := (tasks_left (cp_tasks s) + Z.of_nat (worker_left (cp_worker s)))%Z.

Definition none_failed (s : compactor) : Prop := forall i t, cp_tasks s !! i = Some t -> ct_failed t = false.

Lemma tasks_left_put ts i t t' : ts !! i = Some t ->
  tasks_left (<[i := t']> ts) = (tasks_left ts - Z.of_nat (pc_left (ct_pc t)) + Z.of_nat (pc_left (ct_pc t')))%Z.
Proof. apply (sum_replace (fun t => Z.of_nat (pc_left (ct_pc t)))). Qed.

Lemma put_none_failed s i t' : none_failed s -> ct_failed t' = false -> forall j x, <[i := t']> (cp_tasks s) !! j = Some x -> ct_failed x = false.
Proof. intros Hn Ht j x Hj. apply list_lookup_insert_Some in Hj as [(_ & <- & _)|[_ Hj]]; [done|by eapply Hn]. Qed.

Lemma launch_progress s : cinv threshold s -> none_failed s -> cp_worker s <> Idle ->
  exists s', launch_step threshold s = Some s' /\ (work_left s' < work_left s)%Z /\ none_failed s'.
Proof.
  intros Hs Hn Hw. unfold launch_step, work_left. destruct (cp_worker s) as [|[|lb todo] ids|todo ids] eqn:E; [done| | |].
  - eexists. split; [done|]. split; [cbn [cp_tasks cp_worker worker_left set_worker set_tasks set_pressure]; lia|done].
  - destruct (lb_sizes lb) as [|n sizes] eqn:Hsz.
    + eexists. split; [done|]. cbn [cp_tasks cp_worker set_worker set_tasks].
      destruct (post_tasks_spec (cp_tasks s) (cp_semaphores s) ids) as (_ & _ & _ & Hp); [apply Hs| |].
      { intros i Hi. destruct (ci_ids _ _ Hs i) as (t & Ht & Hc); [by rewrite E|]. exists t. split; [done|by left]. }
      assert (tasks_left (post_tasks (cp_tasks s) ids) <= tasks_left (cp_tasks s))%Z as Hle.
      { apply (post_tasks_ind (fun ts => tasks_left ts <= tasks_left (cp_tasks s))%Z); [|done|].
        - intros ts i t Hle Hi Hu. rewrite (tasks_left_put _ _ _ _ Hi). destruct Hu as [-> | ->]; cbn; lia.
        - intros i Hi. destruct (ci_ids _ _ Hs i) as (t & Ht & Hc); [by rewrite E|]. exists t. split; [done|by left]. }
      split; [cbn [cp_tasks cp_worker worker_left set_worker set_tasks set_pressure]; cbn [todo_left]; lia|]. intros j x Hj. destruct (Hp _ _ Hj) as (y & Hy & _ & -> & _). by eapply Hn.
    + eexists. split; [done|]. unfold count_pressure. destruct (lb_level lb =? 0); (split; [cbn [cp_tasks cp_worker worker_left set_worker set_tasks set_pressure]; lia|exact Hn]).
  - destruct (ci_adding _ _ Hs _ _ E) as ([p l sizes] & rest & -> & Hsz). cbn in Hsz. destruct sizes as [|n sizes]; [done|].
    pose proof (ci_todo _ _ Hs) as Ht. rewrite E in Ht. cbn in Ht. apply Forall_cons in Ht as [[[can Hc] _] _]. cbn in Hc.
    cbn [lb_sizes lb_partition lb_level]. rewrite Hc. eexists. split; [done|]. split.
    + cbn [cp_tasks cp_worker worker_left set_worker set_tasks set_pressure]. unfold tasks_left. rewrite sum_app.
      cbn [todo_left lb_sizes length sum_tasks ct_pc pc_left]. lia.
    + intros i t Hi. cbn in Hi. apply lookup_snoc in Hi as [Hi|[_ ->]]; [by eapply Hn|done].
Qed.

(** The oldest task that is not finished can go on. *)
Lemma task_progress s i t : cinv threshold s -> none_failed s -> cp_worker s = Idle ->
  cp_tasks s !! i = Some t -> ct_pc t <> Finished -> (forall j x, j < i -> cp_tasks s !! j = Some x -> ct_pc x = Finished) ->
  exists s', task_step threshold s i true = Some s' /\ (work_left s' < work_left s)%Z /\ none_failed s'.
Proof.
  intros Hs Hn Hw Hi Hpc Hold. pose proof (Hn _ _ Hi) as Hf. destruct (ci_next _ _ Hs _ _ Hi) as (Hnx & Hcan & Hprev).
  assert (forall pc chan sems pr total, pc_left pc < pc_left (ct_pc t) ->
    let s' := mk_compactor chan (cp_worker s) (<[i := with_pc t pc]> (cp_tasks s)) sems (cp_permissions s) pr total (cp_jobs_in_flight s) in
    (work_left s' < work_left s)%Z /\ none_failed s') as Hput.
  { intros pc chan sems pr total Hl s'. split.
    - unfold work_left, s'. cbn [cp_tasks cp_worker]. rewrite (tasks_left_put _ _ _ _ Hi). cbn [with_pc ct_pc]. lia.
    - intros j x. by apply put_none_failed. }
  unfold task_step. rewrite Hi. cbn [mbind option_bind]. destruct (ct_pc t) eqn:E; try done.
  - exfalso. pose proof (ci_created _ _ Hs _ _ Hi E) as Hin. rewrite Hw in Hin. by apply not_elem_of_nil in Hin.
  - assert (turn_come s t = true) as ->; [|eexists; split; [done|]; apply Hput; cbn; lia].
    unfold turn_come. destruct (ct_prev t) as [j|]; [|done]. specialize (Hprev j eq_refl).
    destruct (lookup_lt_is_Some_2 (cp_tasks s) j) as [x Hx]; [apply lookup_lt_Some in Hi; lia|].
    rewrite Hx. apply bool_decide_eq_true. by eapply Hold.
  - eexists. split; [done|]. apply Hput. cbn. lia.
  - destruct (ci_sems _ _ Hs (ct_can_write t)) as [(-> & _)|[(_ & Ht & _)|(_ & _ & Hp)]].
    { rewrite (ci_length _ _ Hs). apply lookup_lt_Some in Hi. lia. }
    + eexists. split; [done|]. apply Hput. cbn. lia.
    + exfalso. destruct Ht as (j & x & Hj & Hc & Hx). rewrite (ci_can _ _ Hs _ _ _ _ Hj Hi Hc) in Hj.
      rewrite Hi in Hj. injection Hj as <-. unfold passed, released in Hx. by rewrite E in Hx.
    + exfalso. unfold produced in Hp. apply orb_false_iff in Hp as [Hk Hp]. apply Nat.ltb_ge in Hk.
      destruct (lookup_lt_is_Some_2 (cp_tasks s) (ct_can_write t - K)) as [x Hx]; [apply lookup_lt_Some in Hi; lia|].
      rewrite Hx in Hp. unfold released in Hp. rewrite (Hold (ct_can_write t - K) x ltac:(lia) Hx), (Hn _ _ Hx) in Hp. done.
  - eexists. split; [done|]. apply Hput. cbn. lia.
  - eexists. split; [done|]. apply Hput. cbn. lia.
  - eexists. split; [done|]. apply Hput. cbn. lia.
  - eexists. split; [done|]. unfold count_pressure. destruct (ct_level t =? 0); apply Hput; cbn; lia.
  - eexists. split; [done|]. apply Hput. cbn. lia.
Qed.

Lemma first_unfinished (ts : list ctask) : Forall (fun t => ct_pc t = Finished) ts \/
  exists i t, ts !! i = Some t /\ ct_pc t <> Finished /\ forall j x, j < i -> ts !! j = Some x -> ct_pc x = Finished.
Proof.
  induction ts as [|t ts IH]; [by left|]. destruct (decide (ct_pc t = Finished)) as [Hf|Hf].
  - destruct IH as [IH|(i & x & Hi & Hx & Hold)]; [left; by constructor|]. right. exists (S i), x. split_ands; try done.
    intros [|j] y Hj Hy; [by injection Hy as <-|]. eapply Hold; [|exact Hy]. lia.
  - right. exists 0, t. split_ands; [done|done|]. intros j x Hj. lia.
Qed.

(** What the worker and the tasks do by themselves, merges succeeding. *)
Definition own_event (e : event) : Prop := e = Launch \/ exists i, e = Task i true.

Lemma work_nonneg s : (0 <= work_left s)%Z.
Proof. unfold work_left, tasks_left. pose proof (sum_nonneg (fun t => Z.of_nat (pc_left (ct_pc t))) (cp_tasks s) (fun t => Nat2Z.is_nonneg _)). lia. Qed.

Lemma settle n s : cinv threshold s -> none_failed s -> (work_left s <= Z.of_nat n)%Z ->
  exists es s', Forall own_event es /\ length es <= n /\ run threshold s es = Some s' /\ cp_worker s' = Idle /\
    Forall (fun t => ct_pc t = Finished) (cp_tasks s').
Proof.
  revert s. induction n as [|n IH]; intros s Hs Hn Hle.
  all: assert ((cp_worker s = Idle /\ Forall (fun t => ct_pc t = Finished) (cp_tasks s)) \/
    exists e s1, own_event e /\ step threshold s e = Some s1 /\ (work_left s1 < work_left s)%Z /\ none_failed s1)
    as [[Hw Hf]|(e & s1 & He & E & Hlt & Hn1)].
  1, 4: destruct (decide (cp_worker s = Idle)) as [Hw|Hw];
    [destruct (first_unfinished (cp_tasks s)) as [Hf|(i & t & Hi & Ht & Hold)]; [by left|];
     destruct (task_progress s i t Hs Hn Hw Hi Ht Hold) as (s1 & E & Hl & Hn1); right; exists (Task i true), s1;
     split_ands; try done; right; by exists i
    |destruct (launch_progress s Hs Hn Hw) as (s1 & E & Hl & Hn1); right; exists Launch, s1; split_ands; try done; by left].
  - exists [], s. by split_ands.
  - pose proof (work_nonneg s1). lia.
  - exists [], s. split_ands; try done. cbn. lia.
  - destruct (IH s1) as (es & s' & H1 & H2 & H3 & H4 & H5); [by eapply compactor_step_inv|done|lia|].
    exists (e :: es), s'. split_ands; try done; [by constructor|cbn; lia|]. rewrite run_cons, E. done.
Qed.

(** ** After a failed merge *)

(** The task at [j] waits for the permission of the failed task at [i]. *)
Definition waits_for_failed (s : compactor) (i j : nat) : Prop :=
  exists ti tj, cp_tasks s !! i = Some ti /\ ct_failed ti = true /\ cp_tasks s !! j = Some tj /\
    ct_pc tj = Waiting /\ ct_can_write tj = ct_next_can_write ti.

(** Steps leave the tasks of others alone, and what failed has failed. *)
Lemma step_tasks s e s' k t : cinv threshold s -> step threshold s e = Some s' -> cp_tasks s !! k = Some t ->
  ct_pc t <> Created -> exists t', cp_tasks s' !! k = Some t' /\ same_task t t' /\ (ct_failed t = true -> ct_failed t' = true) /\
    ((forall ok, e <> Task k ok) -> t' = t).
Proof.
  intros Hs Hst Hk Hc. assert (same_task t t) as Hrefl by done. destruct e as [b|round| |i ok]; cbn [step] in Hst.
  - injection Hst as <-. by exists t.
  - destruct (round_ok s round); [|done]. unfold pull in Hst. destruct (cp_worker s), (cp_chan s); try done.
    injection Hst as <-. by exists t.
  - unfold launch_step in Hst. destruct (cp_worker s) as [|[|lb todo] ids|[|lb todo] ids] eqn:Hw; try done.
    + injection Hst as <-. by exists t.
    + destruct (lb_sizes lb) as [|n sizes]; injection Hst as <-.
      * cbn. exists t. split_ands; try done.
        assert (k ∉ ids) as Hni.
        { intros Hin. destruct (ci_ids _ _ Hs k) as (x & Hx & Hxc); [by rewrite Hw|]. congruence. }
        clear Hw. revert Hk. generalize (cp_tasks s). clear -Hni. induction ids as [|i ids IH]; intros ts Hk; [done|].
        apply not_elem_of_cons in Hni as [Hne Hni]. cbn. apply IH; [done|]. by rewrite list_lookup_alter_ne.
      * exists t. unfold count_pressure. destruct (lb_level lb =? 0); by split_ands.
    + destruct (lb_sizes lb) as [|n sizes]; [done|]. destruct (cp_permissions s !! _) as [c|]; [|done].
      injection Hst as <-. exists t. split_ands; try done. cbn. by apply lookup_app_l_Some.
  - unfold task_step in Hst. destruct (cp_tasks s !! i) as [x|] eqn:Hi; [|done]. cbn [mbind option_bind] in Hst.
    assert (exists x', cp_tasks s' = <[i := x']> (cp_tasks s) /\ same_task x x' /\ (ct_failed x = true -> ct_failed x' = true))
      as (x' & Ets & Hsame & Hfail).
    { assert (forall level count, cp_tasks (count_pressure threshold s level count) = cp_tasks s) as Hcp
        by (intros; unfold count_pressure; by destruct (level =? 0)).
      destruct (ct_pc x); try done; try (injection Hst as <-; eexists; split; [cbn; rewrite ?Hcp; reflexivity|by destruct ok]).
      - destruct (turn_come s x); [|done]. injection Hst as <-. by eexists.
      - destruct (cp_semaphores s !! ct_can_write x) as [[|n]|]; try done. injection Hst as <-. by eexists. }
    rewrite Ets. destruct (decide (i = k)) as [<-|Hn].
    + rewrite list_lookup_insert_eq by (by eapply lookup_lt_Some). rewrite Hi in Hk. injection Hk as <-.
      exists x'. split_ands; try done. intros Hno. by destruct (Hno ok).
    + rewrite list_lookup_insert_ne by done. by exists t.
Qed.

Lemma waits_step s e s' i j : cinv threshold s -> waits_for_failed s i j -> step threshold s e = Some s' -> waits_for_failed s' i j.
Proof.
  intros Hs (ti & tj & Hi & Hf & Hj & Hpc & Hc) Hst.
  assert (ct_pc ti <> Created) as Hci by (destruct (ci_failed _ _ Hs _ _ Hi Hf) as [-> |[-> | ->]]; done).
  destruct (step_tasks _ _ _ _ _ Hs Hst Hi Hci) as (ti' & Hi' & (_ & _ & _ & Enx & _) & Hf' & _).
  destruct (step_tasks _ _ _ _ _ Hs Hst Hj) as (tj' & Hj' & (_ & _ & Ec & _) & _ & Hsame); [by rewrite Hpc|].
  assert (forall ok, e <> Task j ok) as Hne.
  { intros ok ->. cbn [step] in Hst. unfold task_step in Hst. rewrite Hj in Hst. cbn [mbind option_bind] in Hst. rewrite Hpc in Hst.
    destruct (ci_next _ _ Hs _ _ Hi) as (Hnx & _). rewrite Hc, Hnx in Hst.
    assert (produced (cp_tasks s) (K + i) = false) as Hp.
    { unfold produced. rewrite (proj2 (Nat.ltb_ge _ _)) by lia. cbn [orb]. replace (K + i - K) with i by lia. rewrite Hi.
      unfold released. destruct (ci_failed _ _ Hs _ _ Hi Hf) as [-> |[-> | ->]]; by rewrite Hf. }
    destruct (ci_sems _ _ Hs (K + i)) as [(_ & _ & E)|[(_ & _ & E)|(E & _)]]; try congruence.
    - rewrite (ci_length _ _ Hs). apply lookup_lt_Some in Hi. lia.
    - by rewrite E in Hst. }
  rewrite (Hsame Hne) in *. exists ti', tj. split_ands; auto. congruence.
Qed.

Lemma waits_run s es s' i j : cinv threshold s -> waits_for_failed s i j -> run threshold s es = Some s' ->
  waits_for_failed s' i j /\ cinv threshold s'.
Proof.
  revert s. induction es as [|e es IH]; intros s Hs Hw; [by intros [= <-]|]. rewrite run_cons.
  destruct (step threshold s e) as [s1|] eqn:E; [|done]. cbn. apply IH; [by eapply compactor_step_inv|by eapply waits_step].
Qed.

Lemma in_total_nonneg t : (0 <= in_total t)%Z.
Proof. unfold in_total. destruct (ct_pc t); lia. Qed.

Lemma in_pressure_nonneg t : (0 <= in_pressure t)%Z.
Proof. unfold in_pressure. destruct (ct_level t); [|done]. destruct (ct_pc t); lia. Qed.

(** The total is zero when nothing is pending. *)
Lemma total_zero s : cinv threshold s -> cp_total s = 0%Z <-> Forall (fun t => ct_pc t = Finished) (cp_tasks s).
Proof.
  intros Hs. rewrite (ci_total _ _ Hs). split.
  - intros H0. apply Forall_lookup. intros i t Hi. pose proof (sum_ge _ _ _ _ in_total_nonneg Hi) as Hge.
    pose proof (ci_inputs _ _ Hs _ _ Hi). unfold in_total at 1 in Hge. destruct (ct_pc t); try done; lia.
  - induction 1 as [|t ts Ht _ IH]; [done|]. cbn. unfold in_total at 1. rewrite Ht. lia.
Qed.
End semaphores.

(** ** The start *)

Definition semaphores_made (partitions levels : nat) : nat := length (all_levels partitions levels).

Lemma make_cinv threshold partitions levels : (0 <= threshold)%Z ->
  cinv (semaphores_made partitions levels) threshold (make_compactor partitions levels).
Proof.
  intros Ht. unfold make_compactor, semaphores_made. set (keys := all_levels partitions levels).
  split; cbn; try done.
  - lia.
  - by rewrite length_replicate, Nat.add_0_r.
  - assert (forall k c, (list_to_map (zip keys (seq 0 (length keys))) : gmap (nat * nat) nat) !! k = Some c -> keys !! c = Some k) as Hk.
    { intros k c H. apply elem_of_list_to_map_2 in H. apply list_elem_of_lookup in H as [j Hj].
      apply lookup_zip_Some in Hj as [H1 H2]. apply lookup_seq in H2 as [-> _]. done. }
    intros k c H. apply Hk in H as H1. split_ands; [rewrite length_replicate; by eapply lookup_lt_Some| |done].
    intros k' H'. apply Hk in H'. congruence.
  - intros c Hc. rewrite length_replicate in Hc. left. split_ands.
    + by apply lookup_replicate_2.
    + by intros (i & t & Hi & _).
    + unfold produced. by rewrite (proj2 (Nat.ltb_lt _ _)).
  - intros i Hi. by apply not_elem_of_nil in Hi.
Qed.

(** ** Properties *)

(** C21: the counters of pending compactions are exact. Whatever the
    requests, the rounds, the interleaving of the tasks and the failures of
    merges, the total is the number of SSTs in tasks that are not finished,
    and the waiter goes on exactly when every task that was made has
    finished; the counter of the backpressure is the number of SSTs of the
    level 0 that are to be compacted, so it is never negative; and the
    backpressure is on above the threshold and off below it. *)
Theorem pending_counters_exact (threshold : Z) (partitions levels : nat) (es : list event) (s : compactor)
    (Hthreshold : (0 <= threshold)%Z) (Hrun : run threshold (make_compactor partitions levels) es = Some s) :
  cp_total s = sum_tasks in_total (cp_tasks s) /\
  (wait_returns s = true <-> Forall (fun t => ct_pc t = Finished) (cp_tasks s)) /\
  pending_count (cp_pressure s) = (sum_tasks in_pressure (cp_tasks s) + worker_pressure (cp_worker s))%Z /\
  (0 <= pending_count (cp_pressure s))%Z /\
  ((threshold < pending_count (cp_pressure s))%Z -> backpressure (cp_pressure s) = true) /\
  ((pending_count (cp_pressure s) < threshold)%Z -> backpressure (cp_pressure s) = false).
Proof.
  pose proof (compactor_run_inv _ _ _ _ _ (make_cinv _ partitions levels Hthreshold) Hrun) as Hs.
  split; [apply Hs|]. split; [unfold wait_returns; rewrite Z.eqb_eq; by apply (total_zero _ _ _ Hs)|].
  split_ands; try apply Hs. rewrite (ci_pending _ _ _ Hs).
  pose proof (sum_nonneg _ (cp_tasks s) in_pressure_nonneg).
  unfold worker_pressure. repeat case_match; lia.
Qed.

Definition demo_round : list level_buckets := [mk_level_buckets 0 0 [2; 3]; mk_level_buckets 1 1 [4]].

(** A round is launched, its first task publishes and finishes. *)
Definition demo_launch : list event := Post true :: Pull demo_round :: replicate 9 Launch.
Definition demo_first : list event := replicate 8 (Task 0 true).

Lemma pending_counters_witness : exists s, run 4 (make_compactor 2 2) (demo_launch ++ demo_first) = Some s /\
  cp_total s = sum_tasks in_total (cp_tasks s) /\
  (wait_returns s = true <-> Forall (fun t => ct_pc t = Finished) (cp_tasks s)).
Proof.
  destruct (run 4 (make_compactor 2 2) (demo_launch ++ demo_first)) as [s|] eqn:E; [|by vm_compute in E].
  exists s. destruct (pending_counters_exact 4 2 2 (demo_launch ++ demo_first) s ltac:(lia) E) as (H1 & H2 & _).
  exact (conj eq_refl (conj H1 H2)).
Defined.

(** C20: compactions finish. As long as no merge has failed, in every
    reachable state the worker and the tasks can run on by themselves, with
    at most [work_left] steps and whatever has happened before, until the
    round is launched and every task has finished: no task waits for a
    permission that nobody will give. Then the waiter goes on and the
    backpressure is off. *)
Theorem compactions_settle (threshold : Z) (partitions levels : nat) (es : list event) (s : compactor)
    (Hthreshold : (0 < threshold)%Z) (Hrun : run threshold (make_compactor partitions levels) es = Some s)
    (Hok : none_failed s) :
  exists es' s', Forall own_event es' /\ (Z.of_nat (length es') <= work_left s)%Z /\ run threshold s es' = Some s' /\
    cp_worker s' = Idle /\ Forall (fun t => ct_pc t = Finished) (cp_tasks s') /\
    wait_returns s' = true /\ backpressure (cp_pressure s') = false.
Proof.
  pose proof (compactor_run_inv _ _ _ _ _ (make_cinv threshold partitions levels ltac:(lia)) Hrun) as Hs.
  pose proof (work_nonneg s) as Hw.
  destruct (settle _ _ (Z.to_nat (work_left s)) s Hs Hok ltac:(lia)) as (es' & s' & H1 & H2 & H3 & H4 & H5).
  pose proof (compactor_run_inv _ _ _ _ _ Hs H3) as Hs'. exists es', s'. split_ands; try done; [lia| |].
  - unfold wait_returns. apply Z.eqb_eq. by apply (total_zero _ _ _ Hs').
  - apply (ci_flag _ _ _ Hs'). rewrite (ci_pending _ _ _ Hs'), H4. cbn.
    enough (sum_tasks in_pressure (cp_tasks s') = 0)%Z by lia.
    clear -H5. induction H5 as [|t ts Ht _ IH]; [done|]. cbn. rewrite IH. unfold in_pressure. rewrite Ht.
    by destruct (ct_level t).
Qed.

Lemma compactions_settle_witness : exists s es' s', run 4 (make_compactor 2 2) (demo_launch ++ demo_first) = Some s /\
  Forall own_event es' /\ run 4 s es' = Some s' /\ Forall (fun t => ct_pc t = Finished) (cp_tasks s') /\ wait_returns s' = true.
Proof.
  destruct (run 4 (make_compactor 2 2) (demo_launch ++ demo_first)) as [s|] eqn:E; [|by vm_compute in E]. exists s.
  destruct (compactions_settle 4 2 2 (demo_launch ++ demo_first) s ltac:(lia) E) as (es' & s' & H1 & _ & H2 & _ & H3 & H4 & _).
  - vm_compute in E. injection E as <-. intros [|[|[|i]]] t [= <-]; reflexivity.
  - exists es', s'. exact (conj eq_refl (conj H1 (conj H2 (conj H3 H4)))).
Defined.

(** C38: a failed merge stops the waiter for good. The error branch of the
    task does not release the semaphore of the next one, against the comment
    there. Once a task that has merged waits for the permission of a failed
    one, it waits in every later state, whatever else happens, and
    [wait_for_compactions_to_finish] does not return again. *)
Theorem failed_merge_hangs_waiter (threshold : Z) (partitions levels : nat) (es es' : list event) (s s' : compactor) (i j : nat)
    (Hthreshold : (0 <= threshold)%Z) (Hrun : run threshold (make_compactor partitions levels) es = Some s)
    (Hwaits : waits_for_failed s i j) (Hmore : run threshold s es' = Some s') :
  waits_for_failed s' i j /\ wait_returns s' = false.
Proof.
  pose proof (compactor_run_inv _ _ _ _ _ (make_cinv _ partitions levels Hthreshold) Hrun) as Hs.
  destruct (waits_run _ _ _ _ _ _ _ Hs Hwaits Hmore) as [Hw Hs']. split; [done|]. apply not_true_is_false.
  unfold wait_returns. rewrite Z.eqb_eq, (total_zero _ _ _ Hs'). intros Hf.
  destruct Hw as (ti & tj & _ & _ & Hj & Hpc & _). pose proof (Forall_lookup_1 _ _ _ _ Hf Hj). cbn in *. congruence.
Qed.

(** The first task of a level fails; the second merges and waits. *)
Definition demo_failure : list event :=
  [Task 0 true; Task 0 false; Task 0 true; Task 0 true; Task 1 true; Task 1 true].

Lemma failed_merge_witness : exists s s', run 4 (make_compactor 2 2) (demo_launch ++ demo_failure) = Some s /\
  waits_for_failed s 0 1 /\ run 4 s (replicate 8 (Task 2 true)) = Some s' /\ wait_returns s' = false.
Proof.
  destruct (run 4 (make_compactor 2 2) (demo_launch ++ demo_failure)) as [s|] eqn:E; [|by vm_compute in E].
  assert (waits_for_failed s 0 1) as Hw.
  { vm_compute in E. injection E as <-. unfold waits_for_failed. eexists _, _. by split_ands. }
  destruct (run 4 s (replicate 8 (Task 2 true))) as [s'|] eqn:E'.
  - exists s, s'. split; [reflexivity|]. split; [exact Hw|]. split; [exact E'|].
    apply (failed_merge_hangs_waiter 4 2 2 (demo_launch ++ demo_failure) (replicate 8 (Task 2 true)) s s' 0 1 ltac:(lia) E Hw E').
  - vm_compute in E. injection E as <-. by vm_compute in E'.
Defined.

(** The waiter does not see requests that were posted and not yet taken up:
    [trigger_compaction] followed by [wait_for_compactions_to_finish] can
    return before any SST is compacted, and so can the wait at the end of a
    round, while the request its last task posted starts another one. *)
Theorem wait_misses_requests :
  let s0 := post (make_compactor 1 2) true in
  wait_returns s0 = true /\
  exists s, run 4 s0 [Pull [mk_level_buckets 0 0 [2]]; Launch; Launch] = Some s /\ wait_returns s = false.
Proof. split; [done|]. eexists. split; [vm_compute; reflexivity|done]. Qed.

(** The number of jobs in flight is only ever decreased, so it wraps around
    with the first round. *)
Theorem jobs_in_flight_wraps :
  exists s, run 4 (make_compactor 1 2) [Post true; Pull []; Launch] = Some s /\ cp_jobs_in_flight s = (2 ^ 64 - 1)%Z.
Proof. eexists. split; vm_compute; reflexivity. Qed.
