(* ===== verification/Lsm.v ===== *)
(** * The LSM tree refines a log of flushes

    The partitions of SstManager under every interleaving of pushing
    flushed SSTs, picking buckets, publishing compactions and failing
    them. The abstract state is the log of what was pushed to level 0; a
    partition implements it when reading a key gives what the latest push
    that has the key gave it. *)

From stdpp Require Import base list numbers strings sorting sets gmap.
From Stdlib Require Import ZArith Lia.
From S2P Require Import Prelude StdAlgo Types QuotientFilter QfCorrect Block Merge Sst SstFile SstManager.

(** ** The specification *)

(** What the latest of the given sorted runs, oldest first, has for a
    key. *)
Fixpoint latest (runs : list (list kv)) (key : bytes) : option bytes :=
  match runs with
  | [] => None
  | d :: runs => match latest runs key with Some v => Some v | None => assoc key d end
  end.

(** A tombstone reads like an absent key. *)
Definition live (v : option bytes) : option bytes :=
  match v with
  | Some v => if is_tombstone (mk_entry [] v 0) then None else Some v
  | None => None
  end.

(** What a reader of the partition observes. *)
Definition observe (r : expected value_t) : option value_t :=
  match r with
  | Ok VTombstone => None
  | Ok v => Some v
  | Err _ => None
  end.

Abbreviation log_t := (list (Z * list kv)).

(** The states of a partition of [n] levels and the log they stand for.
    Flushed SSTs carry increasing epochs. Buckets are picked in any level
    but the last. *)
Inductive reachable (n : nat) : partition -> log_t -> Prop :=
  | reach_init : reachable n (make_partition n) []
  | reach_push p log epoch data :
      reachable n p log -> Forall (fun x => (x.1 < epoch)%Z) log -> run_ok data ->
      reachable n (push_l0 p epoch data) (log ++ [(epoch, data)])
  | reach_compact p log min_w max_w level :
      reachable n p log -> 2 <= min_w <= max_w -> S level < n ->
      reachable n (compact_level min_w max_w p level) log
  | reach_publish p log level p' :
      reachable n p log -> publish p level = Some p' -> reachable n p' log
  | reach_fail p log level i p' :
      reachable n p log -> fail_task p level i = Some p' -> reachable n p' log
  | reach_reload p log : reachable n p log -> reachable n (reload p) log.

(** All SSTs, oldest first: the last level is the oldest. *)
Definition history (p : partition) : list sst_t := mjoin (reverse (p_levels p)).

(** ** Lemmas on [latest] *)

Lemma latest_app a b key :
  latest (a ++ b) key = match latest b key with Some v => Some v | None => latest a key end.
Proof. induction a as [|d a IH]; cbn; [by case_match|]. rewrite IH. by destruct (latest b key). Qed.

Lemma latest_None runs key : latest runs key = None <-> Forall (fun d => assoc key d = None) runs.
Proof.
  induction runs as [|d runs IH]; cbn; [done|]. rewrite Forall_cons, <- IH.
  destruct (latest runs key); naive_solver.
Qed.

Lemma latest_newest (inputs : log_t) key v :
  StronglySorted Z.lt inputs.*1 -> latest inputs.*2 key = Some v <-> newest inputs key v.
Proof.
  induction inputs as [|[e0 d] inputs IH]; intros Hs.
  { split; [done|]. intros (e & l & Hin & _). by apply not_elem_of_nil in Hin. }
  rewrite fmap_cons in Hs. apply StronglySorted_inv in Hs as [Hs Hf]. specialize (IH Hs).
  rewrite Forall_fmap, Forall_forall in Hf. rewrite fmap_cons. cbn [latest snd].
  destruct (latest inputs.*2 key) as [w|] eqn:E.
  - rewrite IH. split; intros (e & l & Hin & Ha & Hmax); exists e, l; split_ands; try done.
    + by right.
    + intros e' l' Hin' Hlt. apply elem_of_cons in Hin' as [[= -> ->]|Hin']; [|eauto].
      apply Hf in Hin. cbn in Hin. lia.
    + apply elem_of_cons in Hin as [[= -> ->]|Hin]; [|done]. exfalso.
      assert (latest inputs.*2 key = None); [|congruence]. apply latest_None, Forall_fmap, Forall_forall.
      intros [e' l'] Hin'. apply (Hmax e'); [by right|]. by apply (Hf _ Hin').
    + intros e' l' Hin' Hlt. apply (Hmax e'); [by right|done].
  - apply latest_None in E. rewrite Forall_fmap, Forall_forall in E. split.
    + intros Ha. exists e0, d. split; [by left|]. split; [done|].
      intros e' l' Hin' Hlt. apply elem_of_cons in Hin' as [[= -> ->]|Hin']; [lia|]. by apply (E (e', l')).
    + intros (e & l & Hin & Ha & Hmax). apply elem_of_cons in Hin as [[= -> ->]|Hin]; [done|].
      apply E in Hin. cbn in Hin. congruence.
Qed.

(** Replacing a run of SSTs by their merge, below newer ones, shows the
    same values; tombstones may be dropped when nothing is older. *)
Lemma latest_merge older (inputs : log_t) discard st newer key :
  inputs_ok inputs -> StronglySorted Z.lt inputs.*1 -> NoDup inputs.*1 ->
  merge_entries discard inputs = Some (Ok st) -> (discard = true -> older = []) ->
  live (latest (older ++ [out_kvs (ms_out st)] ++ newer) key) = live (latest (older ++ inputs.*2 ++ newer) key).
Proof.
  intros Hok Hs Hnd Hm Hd. rewrite !latest_app. destruct (latest newer key); [done|].
  destruct (decide (input_entries inputs = [])) as [He|Hne].
  { pose proof (merge_entries_spec discard inputs Hok) as Hspec. cbv zeta in Hspec.
    rewrite decide_True in Hspec by done. congruence. }
  destruct (merge_entries_correct discard inputs Hok Hnd Hne) as (st' & Hst & _ & Ha & _).
  rewrite Hm in Hst. injection Hst as <-. cbn [latest].
  destruct (latest inputs.*2 key) as [v|] eqn:E.
  - pose proof (proj1 (latest_newest _ _ _ Hs) E) as Hnew.
    destruct (discard && is_tombstone (mk_entry key v 0)) eqn:Ek.
    + destruct (assoc key (out_kvs (ms_out st))) as [w|] eqn:Ew.
      { apply Ha in Ew as [Hw Hk]. apply latest_newest in Hw; [|done]. congruence. }
      apply andb_true_iff in Ek as [Hdt Ht]. rewrite (Hd Hdt). cbn. by rewrite (Ht : is_tombstone (mk_entry [] v 0) = true).
    + assert (assoc key (out_kvs (ms_out st)) = Some v) as -> by by apply Ha. done.
  - destruct (assoc key (out_kvs (ms_out st))) as [w|] eqn:Ew; [|done].
    apply Ha in Ew as [Hw _]. apply latest_newest in Hw; [|done]. congruence.
Qed.

Lemma runs_inputs_ok (inputs : log_t) : Forall (fun i => run_ok i.2) inputs -> inputs_ok inputs.
Proof.
  intros H. eapply Forall_impl; [exact H|]. intros [e d] [H1 H2]. split; [done|].
  eapply Forall_impl; [exact H2|]. by intros x (_ & _ & Hv).
Qed.

Lemma merge_run_ok (inputs : log_t) discard st :
  Forall (fun i => run_ok i.2) inputs -> NoDup inputs.*1 -> merge_entries discard inputs = Some (Ok st) ->
  run_ok (out_kvs (ms_out st)).
Proof.
  intros Hruns Hnd Hm. pose proof (runs_inputs_ok _ Hruns) as Hok. destruct (decide (input_entries inputs = [])) as [He|Hne].
  { pose proof (merge_entries_spec discard inputs Hok) as Hspec. cbv zeta in Hspec.
    rewrite decide_True in Hspec by done. congruence. }
  destruct (merge_entries_correct discard inputs Hok Hnd Hne) as (st' & Hst & Hsort & Ha & _).
  rewrite Hm in Hst. injection Hst as <-. split; [done|]. apply Forall_forall. intros [k v] Hin.
  apply assoc_elem in Hin; [|done]. apply Ha in Hin as [(e & l & Hl & Hv & _) _].
  rewrite Forall_forall in Hruns. destruct (Hruns _ Hl) as [Hsl Hvl].
  apply assoc_elem in Hv; [|done]. rewrite Forall_forall in Hvl. by apply (Hvl _ Hv).
Qed.

(** ** The invariant *)

Definition chain_inputs (c : list task) : list sst_t := mjoin (t_inputs <$> c).

(** Of the SSTs, oldest first: distinct ids, increasing epochs, well-formed
    contents, and together the values of the log. *)
Record hist_ok (h : list sst_t) (next_id : nat) (log : log_t) : Prop := {
  h_ids : NoDup (s_id <$> h);
  h_next_id : Forall (fun s => s_id s < next_id) h;
  h_epochs : StronglySorted Z.lt (s_epoch <$> h);
  h_log : Forall (fun s => s_epoch s ∈ log.*1) h;
  h_data : Forall (fun s => run_ok (s_data s)) h;
  h_abs key : live (latest (s_data <$> h) key) = live (latest log.*2 key);
}.

(** Of a partition: the tasks of a level took its oldest SSTs, in order,
    and only these are not pickable; a level not yet created is empty and
    no task is about to fill it; a task that drops tombstones is the first
    of its chain and nothing is below it; the last level has no task. *)
Record inv (n : nat) (p : partition) (log : log_t) : Prop := {
  inv_len : length (p_levels p) = n /\ length (p_created p) = n /\ length (p_chains p) = n;
  inv_level l L c : p_levels p !! l = Some L -> p_chains p !! l = Some c ->
    exists fresh, L = chain_inputs c ++ fresh /\
      Forall (fun s => pickable (p_states p) s = false) (chain_inputs c) /\
      Forall (fun s => pickable (p_states p) s = true) fresh;
  inv_hist : hist_ok (history p) (p_next_id p) log;
  inv_states id : p_next_id p <= id -> p_states p !! id = None;
  inv_created l : p_created p !! S l = Some false -> p_levels p !! S l = Some [] /\ p_chains p !! l = Some [];
  inv_discard l c i t : p_chains p !! l = Some c -> c !! i = Some t -> t_discard t = true ->
    i = 0 /\ S (S l) = n /\ p_levels p !! S l = Some [];
  inv_last c : p_chains p !! (n - 1) = Some c -> c = [];
}.

Lemma inv_init n : inv n (make_partition n) [].
Proof.
  assert (history (make_partition n) = []) as E.
  { unfold history. cbn [p_levels make_partition]. by rewrite reverse_replicate, mjoin_replicate_nil. }
  constructor; rewrite ?E; try (by repeat constructor);
    cbn [p_levels p_created p_chains p_states p_next_id make_partition]; rewrite ?length_replicate; try done.
  - intros l L c HL Hc. apply lookup_replicate in HL as [-> _], Hc as [-> _]. exists []. by split_ands; try constructor.
  - intros l Hl. apply lookup_replicate in Hl as [_ Hl]. split; apply lookup_replicate_2; lia.
  - intros l c i t Hc Ht. apply lookup_replicate in Hc as [-> _]. by rewrite lookup_nil in Ht.
  - intros c Hc. by apply lookup_replicate in Hc as [-> _].
Qed.

(** *** Pushing *)

Lemma history_push levels l0 s (p : partition) :
  p_levels p = l0 :: levels ->
  mjoin (reverse (alter (fun l => l ++ [s]) 0 (p_levels p))) = history p ++ [s].
Proof.
  intros E. unfold history. rewrite E. cbn [alter list_alter]. rewrite !reverse_cons, !mjoin_app.
  cbn [mjoin list_join]. by rewrite !app_nil_r, app_assoc.
Qed.

Lemma StronglySorted_snoc {A} (R : A -> A -> Prop) l x :
  StronglySorted R l -> Forall (fun y => R y x) l -> StronglySorted R (l ++ [x]).
Proof.
  induction 1 as [|y l Hs IH Hf]; intros Hx; [by repeat constructor|].
  apply Forall_cons in Hx as [Hy Hx]. cbn. constructor; [auto|]. apply Forall_app. by split; [|constructor].
Qed.

Lemma hist_push h id log epoch data :
  hist_ok h id log -> Forall (fun x => (x.1 < epoch)%Z) log -> run_ok data ->
  hist_ok (h ++ [mk_sst id epoch data]) (S id) (log ++ [(epoch, data)]).
Proof.
  intros [H1 H2 H3 H4 H5 H6] He Hd. constructor; rewrite ?fmap_app.
  - apply NoDup_app. split; [done|]. split; [|cbn; apply NoDup_singleton].
    intros x Hin. apply list_elem_of_fmap in Hin as (y & -> & Hy).
    rewrite Forall_forall in H2. apply H2 in Hy. cbn. rewrite list_elem_of_singleton. lia.
  - apply Forall_app. split; [|by constructor; [cbn; lia|]].
    eapply Forall_impl; [exact H2|]. cbv beta. intros; lia.
  - apply StronglySorted_snoc; [done|]. apply Forall_fmap.
    eapply Forall_impl; [exact H4|]. intros x Hx. apply list_elem_of_fmap in Hx as (y & Hy & Hin).
    rewrite Forall_forall in He. apply He in Hin. cbn. by rewrite Hy.
  - apply Forall_app. split; [|constructor; [|done]].
    + eapply Forall_impl; [exact H4|]. intros x Hx. apply elem_of_app. by left.
    + cbn. apply elem_of_app. right. by apply list_elem_of_singleton.
  - apply Forall_app. split; [done|by constructor].
  - intros key. rewrite !latest_app. cbn. case_match; [done|]. apply H6.
Qed.

Lemma new_pickable n p log s : inv n p log -> s_id s = p_next_id p -> pickable (p_states p) s = true.
Proof. intros Hi Hs. unfold pickable, sst_state. by rewrite (inv_states _ _ _ Hi) by lia. Qed.

Lemma inv_push n p log epoch data :
  0 < n -> inv n p log -> Forall (fun x => (x.1 < epoch)%Z) log -> run_ok data ->
  inv n (push_l0 p epoch data) (log ++ [(epoch, data)]).
Proof.
  intros Hn Hi He Hd. destruct (p_levels p) as [|l0 levels] eqn:El.
  { destruct (inv_len _ _ _ Hi) as [Hl _]. rewrite El in Hl. cbn in Hl. lia. }
  pose proof (new_pickable _ _ _ (mk_sst (p_next_id p) epoch data) Hi eq_refl) as Hps.
  constructor; cbn [push_l0 p_levels p_created p_chains p_states p_next_id].
  - rewrite length_alter. apply (inv_len _ _ _ Hi).
  - intros l L c HL Hc. destruct l as [|l].
    + rewrite list_lookup_alter_eq, El in HL. cbn in HL. injection HL as <-.
      destruct (inv_level _ _ _ Hi 0 l0 c) as (fresh & -> & H1 & H2); [by rewrite El|done|].
      exists (fresh ++ [mk_sst (p_next_id p) epoch data]). rewrite app_assoc.
      split_ands; try done. apply Forall_app. by repeat constructor.
    + rewrite list_lookup_alter_ne in HL by done. by apply (inv_level _ _ _ Hi (S l)).
  - unfold history. cbn [p_levels push_l0]. rewrite (history_push levels l0) by done.
    apply hist_push; [apply (inv_hist _ _ _ Hi)|done|done].
  - intros id Hid. apply (inv_states _ _ _ Hi). lia.
  - intros l Hl. rewrite list_lookup_alter_ne by done. by apply (inv_created _ _ _ Hi).
  - intros l c i t Hc Ht Hdt. rewrite list_lookup_alter_ne by done. by eapply (inv_discard _ _ _ Hi).
  - apply (inv_last _ _ _ Hi).
Qed.

(** *** Publishing *)

Lemma two_levels_split {A} (ls : list A) l x y :
  ls !! l = Some x -> ls !! S l = Some y -> exists a b, ls = a ++ x :: y :: b /\ length a = l.
Proof.
  intros Hx Hy. exists (take l ls), (drop (S (S l)) ls). pose proof (lookup_lt_Some _ _ _ Hx).
  split; [|rewrite length_take; lia]. rewrite <- (take_drop l ls) at 1. f_equal.
  rewrite (drop_S _ _ _ Hx). f_equal. by apply drop_S.
Qed.

Lemma history_split a (x y : list sst_t) b :
  mjoin (reverse (a ++ x :: y :: b)) = (mjoin (reverse b) ++ y) ++ x ++ mjoin (reverse a).
Proof.
  rewrite reverse_app, !reverse_cons, !mjoin_app. cbn [mjoin list_join].
  by rewrite !app_nil_r, <- !app_assoc.
Qed.

Lemma alter_two {A} (f g : A -> A) a x y b l :
  length a = l -> alter g (S l) (alter f l (a ++ x :: y :: b)) = a ++ f x :: g y :: b.
Proof.
  intros <-. rewrite alter_app_r_alt by lia. rewrite Nat.sub_diag. cbn [alter list_alter].
  rewrite alter_app_r_alt by lia. by replace (S (length a) - length a) with 1 by lia.
Qed.

Lemma filter_none {A} (P : A -> Prop) `{forall x, Decision (P x)} l :
  Forall (fun x => ~ P x) l -> filter P l = [].
Proof. induction 1; [done|]. by rewrite filter_cons, decide_False. Qed.

Lemma filter_all {A} (P : A -> Prop) `{forall x, Decision (P x)} l : Forall P l -> filter P l = l.
Proof. induction 1 as [|x l Hx _ IH]; [done|]. by rewrite filter_cons, decide_True, IH. Qed.

Lemma filter_inputs (inputs rest : list sst_t) :
  NoDup (s_id <$> inputs ++ rest) -> filter (fun s => s_id s ∉ s_id <$> inputs) (inputs ++ rest) = rest.
Proof.
  rewrite fmap_app. intros (_ & Hd & _)%NoDup_app. rewrite filter_app.
  rewrite filter_none, filter_all; [done| |].
  2:{ apply Forall_forall. intros s Hs Hn. apply Hn. by apply list_elem_of_fmap_2. }
  apply Forall_forall. intros s Hs Hin. apply (Hd _ Hin). by apply list_elem_of_fmap_2.
Qed.

(** Replacing a run by one element keeps the order when the element takes
    the key of one of the run. *)
Lemma StronglySorted_replace {A} (R : A -> A -> Prop) xs ins ys m :
  StronglySorted R (xs ++ ins ++ ys) -> m ∈ ins -> StronglySorted R (xs ++ m :: ys).
Proof.
  revert xs. induction xs as [|x xs IH]; cbn; intros Hs Hm.
  - induction ins as [|i ins IHi]; [by apply not_elem_of_nil in Hm|].
    cbn in Hs. apply StronglySorted_inv in Hs as [Hs Hf]. apply elem_of_cons in Hm as [->|Hm]; [|auto].
    apply Forall_app in Hf as [_ Hf]. constructor; [|done]. clear IHi Hf. induction ins; [done|].
    cbn in Hs. apply StronglySorted_inv in Hs as [Hs _]. auto.
  - apply StronglySorted_inv in Hs as [Hs Hf]. constructor; [auto|].
    rewrite !Forall_app in *. rewrite Forall_cons. destruct Hf as (H1 & H2 & H3). split_ands; try done.
    rewrite Forall_forall in H2. auto.
Qed.

Lemma StronglySorted_NoDup (l : list Z) : StronglySorted Z.lt l -> NoDup l.
Proof.
  induction 1 as [|x l Hs IH Hf]; constructor; [|done]. intros Hin. rewrite Forall_forall in Hf.
  apply Hf in Hin. lia.
Qed.

Lemma StronglySorted_mid {A} (R : A -> A -> Prop) xs ins ys :
  StronglySorted R (xs ++ ins ++ ys) -> StronglySorted R ins.
Proof.
  induction xs as [|x xs IH]; cbn.
  - induction ins as [|i ins IHi]; [constructor|]. cbn. intros [Hs Hf]%StronglySorted_inv.
    apply Forall_app in Hf as [Hf _]. constructor; auto.
  - intros [Hs _]%StronglySorted_inv. auto.
Qed.

Lemma sst_input_epochs l : (sst_input <$> l).*1 = s_epoch <$> l.
Proof. rewrite <- list_fmap_compose. done. Qed.

Lemma sst_input_runs l : (sst_input <$> l).*2 = s_data <$> l.
Proof. rewrite <- list_fmap_compose. done. Qed.

(** What publishing does to the levels and to the history. *)
Record published (p p' : partition) (level : nat) (t : task) (rest : list task) (out : sst_t)
    (older fresh newer : list sst_t) (L' : list sst_t) : Prop := {
  pub_chain : p_chains p !! level = Some (t :: rest);
  pub_chains : p_chains p' = <[level := rest]> (p_chains p);
  pub_created : p_created p' = p_created p;
  pub_states : p_states p' = p_states p;
  pub_id : s_id out = p_next_id p /\ p_next_id p' = S (p_next_id p);
  pub_below : p_levels p !! S level = Some L';
  pub_below' : p_levels p' !! S level = Some (L' ++ [out]);
  pub_level : p_levels p !! level = Some (t_inputs t ++ chain_inputs rest ++ fresh);
  pub_level' : p_levels p' !! level = Some (chain_inputs rest ++ fresh);
  pub_other l : l <> level -> l <> S level -> p_levels p' !! l = p_levels p !! l;
  pub_len : length (p_levels p') = length (p_levels p);
  pub_history : history p = older ++ t_inputs t ++ newer;
  pub_history' : history p' = older ++ out :: newer;
  pub_older : S (S level) = length (p_levels p) -> older = L';
  pub_merge : exists st, merge_entries (t_discard t) (sst_input <$> t_inputs t) = Some (Ok st) /\
    s_data out = out_kvs (ms_out st);
  pub_epoch : s_epoch out ∈ s_epoch <$> t_inputs t;
  pub_min : merged_epoch (s_epoch <$> t_inputs t) = Some (s_epoch out);
}.

Lemma publish_spec n p log level p' :
  inv n p log -> publish p level = Some p' ->
  exists t rest out older fresh newer L', published p p' level t rest out older fresh newer L'.
Proof.
  intros Hi Hp. unfold publish in Hp. destruct (p_chains p !! level) as [[|t rest]|] eqn:Ec; try done.
  cbn [mbind option_bind] in Hp. destruct (t_failed t); [done|].
  destruct (merge_entries _ _) as [[st|]|] eqn:Em; try done.
  destruct (merged_epoch _) as [e|] eqn:Ee; [|done]. injection Hp as <-.
  destruct (inv_len _ _ _ Hi) as (Hl1 & _ & Hl3).
  assert (S level < n) as Hlt.
  { pose proof (lookup_lt_Some _ _ _ Ec). destruct (decide (level = n - 1)) as [->|]; [|lia].
    by pose proof (inv_last _ _ _ Hi _ Ec). }
  destruct (lookup_lt_is_Some_2 (p_levels p) level) as [L HL]; [lia|].
  destruct (lookup_lt_is_Some_2 (p_levels p) (S level)) as [L' HL']; [lia|].
  destruct (inv_level _ _ _ Hi _ _ _ HL Ec) as (fresh & HLe & _).
  unfold chain_inputs in HLe. rewrite fmap_cons, mjoin_cons, <- app_assoc in HLe. subst L.
  destruct (two_levels_split _ _ _ _ HL HL') as (a & b & Hab & Hla).
  set (out := mk_sst (p_next_id p) e (out_kvs (ms_out st))).
  assert (alter (fun l => l ++ [out]) (Nat.min (level + 1) (length (p_levels p) - 1))
            (alter (filter (fun s => s_id s ∉ s_id <$> t_inputs t)) level (p_levels p))
          = a ++ (chain_inputs rest ++ fresh) :: (L' ++ [out]) :: b) as Hlev.
  { replace (Nat.min _ _) with (S level) by lia. rewrite Hab at 1. rewrite alter_two by done.
    rewrite filter_inputs; [done|]. pose proof (h_ids _ _ _ (inv_hist _ _ _ Hi)) as Hnd.
    unfold history in Hnd. rewrite Hab, history_split, !fmap_app in Hnd.
    apply NoDup_app in Hnd as (_ & _ & Hnd). apply NoDup_app in Hnd as (Hnd & _). by rewrite !fmap_app. }
  exists t, rest, out, (mjoin (reverse b) ++ L'), fresh, ((chain_inputs rest ++ fresh) ++ mjoin (reverse a)), L'.
  constructor; unfold history; cbn [p_levels p_created p_chains p_states p_next_id]; try rewrite Hlev; try done.
  - rewrite lookup_app_r by lia. by replace (S level - length a) with 1 by lia.
  - rewrite lookup_app_r by lia. by rewrite Hla, Nat.sub_diag.
  - intros l H1 H2. rewrite Hab. destruct (decide (l < length a)).
    + by rewrite !lookup_app_l by lia.
    + rewrite !lookup_app_r by lia. destruct (l - length a) as [|[|k]] eqn:Ek; try lia. done.
  - rewrite Hab, !length_app. done.
  - rewrite Hab, history_split. unfold chain_inputs. by rewrite <- !app_assoc.
  - rewrite history_split. by rewrite <- !app_assoc.
  - intros Hn. rewrite Hab, length_app in Hn. cbn in Hn. destruct b; [done|cbn in Hn; lia].
  - by exists st.
  - clear Hlev Hab HL Em Ec. destruct (t_inputs t) as [|s0 ins]; [done|]. rewrite fmap_cons in Ee |- *.
    destruct (merged_epoch_min (s_epoch s0) (s_epoch <$> ins)) as (m & Hm & Hin & _).
    rewrite Hm in Ee. injection Ee as <-. exact Hin.
Qed.

Section replace.
Context (h : list sst_t) (id : nat) (log : log_t) (Hh : hist_ok h id log).
Context (older inputs newer : list sst_t) (Hsplit : h = older ++ inputs ++ newer).

Lemma inputs_facts :
  Forall (fun i => run_ok i.2) (sst_input <$> inputs) /\ StronglySorted Z.lt (sst_input <$> inputs).*1 /\
  NoDup (sst_input <$> inputs).*1.
Proof.
  destruct Hh as [_ _ He _ Hd _]. rewrite Hsplit, !fmap_app in He. apply StronglySorted_mid in He.
  rewrite sst_input_epochs. split_ands; [|done|by apply StronglySorted_NoDup].
  rewrite Hsplit, !Forall_app in Hd. destruct Hd as (_ & Hd & _). by apply Forall_fmap.
Qed.

(** Replacing neighbours by their merge. *)
Lemma hist_replace discard st out :
  merge_entries discard (sst_input <$> inputs) = Some (Ok st) ->
  s_id out = id -> s_data out = out_kvs (ms_out st) -> s_epoch out ∈ s_epoch <$> inputs ->
  (discard = true -> older = []) -> hist_ok (older ++ out :: newer) (S id) log.
Proof.
  intros Hm Hid Hdata He Hd. destruct inputs_facts as (Hok & Hes & Hend).
  destruct Hh as [H1 H2 H3 H4 H5 H6]. rewrite Hsplit, ?fmap_app in *.
  assert (forall P : sst_t -> Prop, Forall P (older ++ inputs ++ newer) -> P out -> Forall P (older ++ out :: newer)) as Hfor.
  { intros P HP Ho. rewrite !Forall_app in *. rewrite Forall_cons. by destruct HP as (? & ? & ?). }
  constructor; rewrite ?fmap_app, ?fmap_cons.
  - apply NoDup_app in H1 as (Ho & Hon & H1). apply NoDup_app in H1 as (_ & _ & Hn).
    rewrite !Forall_app, !Forall_forall in H2. destruct H2 as (Hid1 & _ & Hid3).
    apply NoDup_app. split_ands; [done| |].
    + intros x Hin. apply not_elem_of_cons. split; [|set_solver]. intros ->.
      apply list_elem_of_fmap in Hin as (x & Ex & Hx). apply Hid1 in Hx. lia.
    + constructor; [|done]. intros Hin. apply list_elem_of_fmap in Hin as (x & Ex & Hx). apply Hid3 in Hx. lia.
  - apply Hfor; [|lia]. eapply Forall_impl; [exact H2|]. cbv beta. intros; lia.
  - by eapply StronglySorted_replace.
  - apply Hfor; [done|]. apply list_elem_of_fmap in He as (x & -> & Hx).
    rewrite !Forall_app, !Forall_forall in H4. destruct H4 as (_ & Hl & _). by apply Hl.
  - apply Hfor; [done|]. rewrite Hdata. by eapply merge_run_ok.
  - intros key. rewrite <- H6, ?fmap_app, Hdata, <- (sst_input_runs inputs).
    apply latest_merge with (discard := discard); [by apply runs_inputs_ok|done..|]. intros Hdt. by rewrite (Hd Hdt).
Qed.
End replace.

Lemma inv_publish n p log level p' : inv n p log -> publish p level = Some p' -> inv n p' log.
Proof.
  intros Hi Hp. destruct (publish_spec _ _ _ _ _ Hi Hp)
    as (t & rest & out & older & fresh & newer & L' & P). destruct P.
  destruct (inv_len _ _ _ Hi) as (Hl1 & Hl2 & Hl3). destruct pub_id0 as [Hoid Hnext].
  pose proof (lookup_lt_Some _ _ _ pub_chain0) as Hlt.
  pose proof (new_pickable _ _ _ _ Hi Hoid) as Hpo.
  constructor; rewrite ?pub_states0, ?pub_created0, ?Hnext.
  - rewrite pub_len0, pub_chains0, length_insert. by split_ands.
  - intros l L c HL Hc. rewrite pub_chains0 in Hc. destruct (decide (l = level)) as [->|Hne].
    + rewrite list_lookup_insert_eq in Hc by lia. injection Hc as <-. rewrite pub_level'0 in HL.
      injection HL as <-. destruct (inv_level _ _ _ Hi _ _ _ pub_level0 pub_chain0) as (fr & E & H1 & H2).
      unfold chain_inputs in E, H1. rewrite fmap_cons, mjoin_cons, <- app_assoc in E. apply app_inv_head in E.
      apply app_inv_head in E as <-. rewrite fmap_cons, mjoin_cons, Forall_app in H1. destruct H1 as [_ H1].
      by exists fresh.
    + rewrite list_lookup_insert_ne in Hc by done. destruct (decide (l = S level)) as [->|Hne2].
      * rewrite pub_below'0 in HL. injection HL as <-.
        destruct (inv_level _ _ _ Hi _ _ _ pub_below0 Hc) as (fr & -> & H1 & H2).
        exists (fr ++ [out]). rewrite app_assoc. split_ands; try done. apply Forall_app. by repeat constructor.
      * rewrite pub_other0 in HL by done. by apply (inv_level _ _ _ Hi l).
  - rewrite pub_history'0. destruct pub_merge0 as (st & Hm & Hout).
    apply (hist_replace _ _ _ (inv_hist _ _ _ Hi) _ _ _ pub_history0 (t_discard t) st); try done.
    intros Hd. destruct (inv_discard _ _ _ Hi level _ 0 t pub_chain0 eq_refl Hd) as (_ & H2 & H3).
    rewrite pub_older0 by lia. rewrite pub_below0 in H3. by injection H3 as ->.
  - intros id Hid. apply (inv_states _ _ _ Hi). lia.
  - intros l Hc. destruct (inv_created _ _ _ Hi _ Hc) as [H1 H2]. destruct (decide (l = level)) as [->|Hne].
    { rewrite pub_chain0 in H2. done. }
    rewrite pub_chains0, list_lookup_insert_ne by done. split; [|done].
    destruct (decide (S l = level)) as [<-|Hne2]; [|by rewrite pub_other0 by lia].
    rewrite pub_level0 in H1. injection H1 as [_ [E1 E2]%app_eq_nil]%app_eq_nil. by rewrite pub_level'0, E1, E2.
  - intros l c i u Hc Hu Hd. rewrite pub_chains0 in Hc. destruct (decide (l = level)) as [->|Hne].
    + rewrite list_lookup_insert_eq in Hc by lia. injection Hc as <-.
      destruct (inv_discard _ _ _ Hi level _ (S i) u pub_chain0 Hu Hd) as [? _]. done.
    + rewrite list_lookup_insert_ne in Hc by done.
      destruct (inv_discard _ _ _ Hi l c i u Hc Hu Hd) as (H1 & H2 & H3). split_ands; try done.
      assert (S l <> level). { intros <-. pose proof (inv_last _ _ _ Hi (t :: rest)) as Hx.
        replace (n - 1) with (S l) in Hx by lia. by specialize (Hx pub_chain0). }
      by rewrite pub_other0 by lia.
  - intros c Hc. rewrite pub_chains0 in Hc. destruct (decide (level = n - 1)) as [->|Hne].
    + by pose proof (inv_last _ _ _ Hi _ pub_chain0).
    + rewrite list_lookup_insert_ne in Hc by done. by apply (inv_last _ _ _ Hi).
Qed.

(** *** Picking and launching *)

Definition launched (p : partition) (l : nat) (first : bool) (bs : list (list sst_t)) : list task :=
  match bs with
  | [] => []
  | b :: bs =>
      let n := length (p_levels p) in
      mk_task b (can_discard_keys n n l first (default false (p_created p !! Nat.min (l + 1) (n - 1)))) false
      :: ((fun b => mk_task b false false) <$> bs)
  end.

Lemma launched_inputs p l first bs : t_inputs <$> launched p l first bs = bs.
Proof. destruct bs as [|b bs]; [done|]. cbn. f_equal. induction bs; [done|]. cbn. by f_equal. Qed.

Lemma launch_level_spec l first p bs :
  launch_level l first p bs =
  mk_partition (p_levels p)
    (match bs with [] => p_created p
     | _ => <[Nat.min (l + 1) (length (p_levels p) - 1) := true]> (p_created p) end)
    (alter (fun c => c ++ launched p l first bs) l (p_chains p)) (p_states p) (p_next_id p).
Proof.
  revert first p. induction bs as [|b bs IH]; intros first p.
  - cbn. destruct p as [L C c s i]. cbn. f_equal. symmetry.
    apply list_alter_id. intros x. apply app_nil_r.
  - cbn [launch_level]. rewrite IH. cbn [p_levels p_created p_chains p_states p_next_id].
    assert (forall t, alter (fun c => c ++ launched (mk_partition (p_levels p)
        (<[Nat.min (l + 1) (length (p_levels p) - 1) := true]> (p_created p))
        (alter (fun c0 => c0 ++ [t]) l (p_chains p)) (p_states p) (p_next_id p)) l false bs) l
        (alter (fun c => c ++ [t]) l (p_chains p))
      = alter (fun c => c ++ t :: ((fun b => mk_task b false false) <$> bs)) l (p_chains p)) as Hc.
    { intros t. rewrite list_alter_alter_eq. apply list_alter_ext; [|done].
      intros c _. cbn. rewrite <- app_assoc. cbn. do 2 f_equal. by destruct bs. }
    rewrite Hc. cbn [launched p_levels]. f_equal.
    destruct bs; [done|]. by rewrite list_insert_insert_eq.
Qed.

Lemma mjoin_reverse_perm {A} (ls : list (list A)) : mjoin (reverse ls) ≡ₚ mjoin ls.
Proof.
  induction ls as [|l ls IH]; [done|]. rewrite reverse_cons, mjoin_app, mjoin_cons. cbn [mjoin list_join].
  rewrite app_nil_r, IH. apply Permutation_app_comm.
Qed.

Section ids.
Context (levels : list (list sst_t)) (Hnd : NoDup (s_id <$> mjoin (reverse levels))).

Lemma level_ids l L : levels !! l = Some L -> NoDup (s_id <$> L).
Proof.
  intros HL. rewrite mjoin_reverse_perm in Hnd. apply list_elem_of_split_length in HL as (a & b & -> & _).
  rewrite mjoin_app, mjoin_cons, !fmap_app in Hnd. apply NoDup_app in Hnd as (_ & _ & H).
  by apply NoDup_app in H as [H _].
Qed.

Lemma levels_disjoint i j a b x y :
  levels !! i = Some a -> levels !! j = Some b -> x ∈ a -> y ∈ b -> s_id x = s_id y -> i = j.
Proof.
  assert (forall i j a b x y, i < j -> levels !! i = Some a -> levels !! j = Some b ->
    x ∈ a -> y ∈ b -> s_id x = s_id y -> False) as Hlt.
  { clear i j a b x y. intros i j a b x y Hij Ha Hb Hx Hy E. rewrite mjoin_reverse_perm in Hnd.
    apply list_elem_of_split_length in Ha as (pre & post & -> & Hl).
    rewrite mjoin_app, mjoin_cons, !fmap_app in Hnd. apply NoDup_app in Hnd as (_ & _ & H).
    apply NoDup_app in H as (_ & H & _). apply (H (s_id x)); [by apply list_elem_of_fmap_2|].
    rewrite lookup_app_r in Hb by lia. destruct (j - length pre) as [|k] eqn:Ek; [lia|]. cbn in Hb.
    rewrite E. apply list_elem_of_fmap_2, list_elem_of_join. exists b. split; [done|].
    by apply list_elem_of_lookup_2 in Hb. }
  intros Ha Hb Hx Hy E. destruct (lt_eq_lt_dec i j) as [[H|H]|H]; [exfalso; eauto|done|exfalso; eauto].
Qed.
End ids.

Lemma states_foldl_other st l states id :
  id ∉ s_id <$> l -> foldl (set_state st) states l !! id = states !! id.
Proof.
  revert states. induction l as [|s l IH]; intros states Hid; [done|]. rewrite fmap_cons in Hid.
  apply not_elem_of_cons in Hid as [Hne Hid]. cbn [foldl]. rewrite IH by done.
  unfold set_state. case_match; [|done]. by rewrite lookup_insert_ne by done.
Qed.

Lemma level_in_history (p : partition) l L s : p_levels p !! l = Some L -> s ∈ L -> s ∈ history p.
Proof.
  intros HL Hs. unfold history. rewrite mjoin_reverse_perm. apply list_elem_of_join. exists L.
  split; [done|]. by apply list_elem_of_lookup_2 in HL.
Qed.

(** Changing the states of SSTs of the partition leaves new ids alone. *)
Lemma states_in_level n p log st l L inputs id :
  inv n p log -> p_levels p !! l = Some L -> inputs ⊆ L -> p_next_id p <= id ->
  foldl (set_state st) (p_states p) inputs !! id = None.
Proof.
  intros Hi HL Hin Hid. rewrite states_foldl_other; [by apply (inv_states _ _ _ Hi)|].
  intros Hx. apply list_elem_of_fmap in Hx as (s & -> & Hs). apply Hin in Hs.
  apply (level_in_history _ _ _ _ HL) in Hs. pose proof (h_next_id _ _ _ (inv_hist _ _ _ Hi)) as Hf.
  rewrite Forall_forall in Hf. apply Hf in Hs. lia.
Qed.

(** The levels other than the one whose SSTs change state. *)
Lemma other_level_states n p log st l L inputs l' L' c :
  inv n p log -> pickable_for_compaction st = false -> p_levels p !! l = Some L -> inputs ⊆ L -> l' <> l ->
  p_levels p !! l' = Some L' -> p_chains p !! l' = Some c ->
  exists fresh, L' = chain_inputs c ++ fresh /\
    Forall (fun s => pickable (foldl (set_state st) (p_states p) inputs) s = false) (chain_inputs c) /\
    Forall (fun s => pickable (foldl (set_state st) (p_states p) inputs) s = true) fresh.
Proof.
  intros Hi Hst HL Hin Hne HL' Hc. destruct (inv_level _ _ _ Hi _ _ _ HL' Hc) as (fresh & E & H1 & H2).
  exists fresh. split_ands; [done| |].
  - eapply Forall_impl; [exact H1|]. intros s. by apply not_pickable_foldl.
  - rewrite Forall_forall in *. intros s Hs. rewrite pickable_foldl_other; [by apply H2|done|].
    intros Hx. apply list_elem_of_fmap in Hx as (x & Ex & Hx). apply Hne.
    eapply (levels_disjoint (p_levels p) (h_ids _ _ _ (inv_hist _ _ _ Hi)) l' l L' L s x); try done; [|by apply Hin].
    rewrite E. set_solver.
Qed.

Lemma compact_level_spec n p log min_w max_w level L c :
  inv n p log -> 2 <= min_w <= max_w -> S level < n ->
  p_levels p !! level = Some L -> p_chains p !! level = Some c ->
  exists bs rest, L = chain_inputs c ++ mjoin bs ++ rest /\
    Forall (fun s => pickable (p_states p) s = false) (chain_inputs c) /\
    Forall (fun s => pickable (p_states p) s = true) rest /\
    compact_level min_w max_w p level =
    mk_partition (p_levels p) (match bs with [] => p_created p | _ => <[S level := true]> (p_created p) end)
      (<[level := c ++ launched p level true bs]> (p_chains p))
      (foldl (set_state IN_COMPACTION) (p_states p) (mjoin bs)) (p_next_id p).
Proof.
  intros Hi Hw Hlt HL Hc. destruct (inv_len _ _ _ Hi) as (Hl1 & _).
  destruct (inv_level _ _ _ Hi _ _ _ HL Hc) as (fresh & E & H1 & H2).
  pose proof (level_ids _ (h_ids _ _ _ (inv_hist _ _ _ Hi)) _ _ HL) as Hids.
  destruct (create_buckets_spec min_w max_w Hw (p_states p) L Hids) as (bs & Hb & _ & _ & _ & Hfr).
  destruct (Hfr _ _ E H1 H2) as (rest & -> & _). exists bs, rest. split_ands; try done.
  { by apply Forall_app in H2 as [_ H2]. }
  unfold compact_level. rewrite HL. cbn [default from_option id]. rewrite Hb, launch_level_spec.
  cbn [p_levels p_created p_chains p_states p_next_id].
  replace (Nat.min (level + 1) (length (p_levels p) - 1)) with (S level) by lia. f_equal.
  apply list_eq. intros i. destruct (decide (i = level)) as [->|Hne].
  - rewrite list_lookup_alter_eq, Hc, list_lookup_insert_eq; [done|]. by eapply lookup_lt_Some.
  - by rewrite list_lookup_alter_ne, list_lookup_insert_ne.
Qed.

Lemma launched_discard n p log level bs k t c :
  inv n p log -> S level < n -> p_chains p !! level = Some c ->
  launched p level true bs !! k = Some t -> t_discard t = true ->
  k = 0 /\ c = [] /\ S (S level) = n /\ p_levels p !! S level = Some [].
Proof.
  intros Hi Hlt Hc Ht Hd. destruct (inv_len _ _ _ Hi) as (Hl1 & Hl2 & _). destruct bs as [|b bs]; [done|].
  destruct k as [|k]; cbn [launched] in Ht.
  - cbn in Ht. injection Ht as <-. cbn [t_discard] in Hd. unfold can_discard_keys in Hd.
    replace (Nat.min (level + 1) (length (p_levels p) - 1)) with (S level) in Hd by lia.
    destruct (lookup_lt_is_Some_2 (p_created p) (S level)) as [cr Hcr]; [lia|]. rewrite Hcr in Hd.
    cbn [negb default from_option] in Hd. apply andb_true_iff in Hd as [Hb Hcre].
    apply orb_true_iff in Hb, Hcre. rewrite !Nat.eqb_eq in Hb. rewrite Nat.eqb_eq in Hcre.
    destruct Hcre as [|Hcre]; [lia|]. destruct cr; [done|].
    destruct (inv_created _ _ _ Hi _ Hcr) as [H1 H2]. split_ands; try done; [congruence|lia].
  - change (((fun b => mk_task b false false) <$> bs) !! k = Some t) in Ht.
    rewrite list_lookup_fmap in Ht. destruct (bs !! k); [|done]. cbn in Ht. by injection Ht as <-.
Qed.

Lemma inv_compact n p log min_w max_w level :
  inv n p log -> 2 <= min_w <= max_w -> S level < n -> inv n (compact_level min_w max_w p level) log.
Proof.
  intros Hi Hw Hlt. destruct (inv_len _ _ _ Hi) as (Hl1 & Hl2 & Hl3).
  destruct (lookup_lt_is_Some_2 (p_levels p) level) as [L HL]; [lia|].
  destruct (lookup_lt_is_Some_2 (p_chains p) level) as [c Hc]; [lia|].
  destruct (compact_level_spec _ _ _ _ _ _ _ _ Hi Hw Hlt HL Hc) as (bs & rest & E & H1 & H2 & ->).
  pose proof (level_ids _ (h_ids _ _ _ (inv_hist _ _ _ Hi)) _ _ HL) as Hids.
  assert (mjoin bs ⊆ L) as Hsub by (rewrite E; intros x; set_solver).
  constructor; unfold history; cbn [p_levels p_created p_chains p_states p_next_id].
  - rewrite length_insert. split_ands; try done. by destruct bs; rewrite ?length_insert.
  - intros l' L' c' HL' Hc'. destruct (decide (l' = level)) as [->|Hne].
    + rewrite list_lookup_insert_eq in Hc' by lia. rewrite HL in HL'. simplify_eq. exists rest.
      unfold chain_inputs. rewrite fmap_app, launched_inputs, mjoin_app, <- app_assoc. split_ands; [done| |].
      * apply Forall_app. split; [eapply Forall_impl; [exact H1|]; intros s; by apply not_pickable_foldl|].
        apply Forall_forall. intros s Hs. rewrite pickable_foldl, bool_decide_eq_false_2; [apply andb_false_r|].
        intros Hn. apply Hn. by apply list_elem_of_fmap_2.
      * rewrite Forall_forall in *. intros s Hs. rewrite pickable_foldl_other; [by apply H2|done|].
        rewrite app_assoc, fmap_app in Hids. apply NoDup_app in Hids as (_ & Hd & _). intros Hin.
        apply (Hd (s_id s)); [rewrite fmap_app; set_solver|by apply list_elem_of_fmap_2].
    + rewrite list_lookup_insert_ne in Hc' by done. by apply (other_level_states n p log _ level L _ l').
  - apply (inv_hist _ _ _ Hi).
  - intros id Hid. by apply (states_in_level n p log _ level L).
  - intros l Hcr. assert (p_created p !! S l = Some false /\ (l = level -> bs = [])) as [Hcr' Hb].
    { destruct bs; [done|]. destruct (decide (l = level)) as [->|];
        [by rewrite list_lookup_insert_eq in Hcr by lia|by rewrite list_lookup_insert_ne in Hcr by lia]. }
    destruct (inv_created _ _ _ Hi _ Hcr') as [Hx Hy]. split; [done|].
    destruct (decide (l = level)) as [->|Hne]; [|by rewrite list_lookup_insert_ne by done].
    rewrite (Hb eq_refl), list_lookup_insert_eq by lia. rewrite Hc in Hy. by injection Hy as ->.
  - intros l c' i t Hc' Ht Hd. destruct (decide (l = level)) as [->|Hne];
      [|rewrite list_lookup_insert_ne in Hc' by done; by eapply (inv_discard _ _ _ Hi)].
    rewrite list_lookup_insert_eq in Hc' by lia. injection Hc' as <-.
    apply lookup_app_Some in Ht as [Ht|[Hi' Ht]]; [by eapply (inv_discard _ _ _ Hi)|].
    destruct (launched_discard _ _ _ _ _ _ _ _ Hi Hlt Hc Ht Hd) as (Hk & -> & ? & ?). cbn in Hk.
    split_ands; try done; lia.
  - intros c'. rewrite list_lookup_insert_ne by lia. apply (inv_last _ _ _ Hi).
Qed.

(** *** Failing *)

Lemma inv_fail n p log level i p' : inv n p log -> fail_task p level i = Some p' -> inv n p' log.
Proof.
  intros Hi Hf. unfold fail_task in Hf. destruct (p_chains p !! level) as [c|] eqn:Hc; [|done].
  cbn [mbind option_bind] in Hf. destruct (c !! i) as [t|] eqn:Ht; [|done]. injection Hf as <-.
  destruct (inv_len _ _ _ Hi) as (Hl1 & Hl2 & Hl3). pose proof (lookup_lt_Some _ _ _ Hc) as Hlt.
  destruct (lookup_lt_is_Some_2 (p_levels p) level) as [L HL]; [lia|].
  destruct (inv_level _ _ _ Hi _ _ _ HL Hc) as (fresh & E & H1 & H2).
  assert (t_inputs <$> <[i := mk_task (t_inputs t) (t_discard t) true]> c = t_inputs <$> c) as Hins.
  { rewrite list_fmap_insert. cbn. apply list_insert_id. by rewrite list_lookup_fmap, Ht. }
  assert (t_inputs t ⊆ chain_inputs c) as Hsub.
  { intros x Hx. apply list_elem_of_join. exists (t_inputs t). split; [done|].
    apply list_elem_of_fmap_2. by apply list_elem_of_lookup_2 in Ht. }
  assert (t_inputs t ⊆ L) as HsubL by (rewrite E; intros x Hx; apply Hsub in Hx; set_solver).
  constructor; unfold history; cbn [p_levels p_created p_chains p_states p_next_id].
  - by rewrite length_insert.
  - intros l' L' c' HL' Hc'. destruct (decide (l' = level)) as [->|Hne].
    + rewrite list_lookup_insert_eq in Hc' by lia. rewrite HL in HL'. simplify_eq. exists fresh.
      unfold chain_inputs in *. rewrite Hins. split_ands; [done| |].
      * eapply Forall_impl; [exact H1|]. intros s. by apply not_pickable_foldl.
      * rewrite Forall_forall in *. intros s Hs. rewrite pickable_foldl_other; [by apply H2|done|].
        intros Hx. apply list_elem_of_fmap in Hx as (x & Ex & Hx). apply Hsub, H1 in Hx. apply H2 in Hs.
        unfold pickable in Hx, Hs. rewrite Ex in Hs. congruence.
    + rewrite list_lookup_insert_ne in Hc' by done. by apply (other_level_states n p log _ level L _ l').
  - apply (inv_hist _ _ _ Hi).
  - intros id Hid. by apply (states_in_level n p log _ level L).
  - intros l Hcr. destruct (inv_created _ _ _ Hi _ Hcr) as [Hx Hy]. split; [done|].
    destruct (decide (l = level)) as [->|Hne]; [|by rewrite list_lookup_insert_ne by done].
    rewrite Hc in Hy. injection Hy as ->. by rewrite lookup_nil in Ht.
  - intros l c' k u Hc' Hu Hd. destruct (decide (l = level)) as [->|Hne];
      [|rewrite list_lookup_insert_ne in Hc' by done; by eapply (inv_discard _ _ _ Hi)].
    rewrite list_lookup_insert_eq in Hc' by lia. injection Hc' as <-.
    destruct (decide (k = i)) as [->|Hne]; [|rewrite list_lookup_insert_ne in Hu by done; by eapply (inv_discard _ _ _ Hi)].
    rewrite list_lookup_insert_eq in Hu by (by eapply lookup_lt_Some). injection Hu as <-. by eapply (inv_discard _ _ _ Hi).
  - intros c' Hc'. destruct (decide (level = n - 1)) as [->|Hne].
    + pose proof (inv_last _ _ _ Hi _ Hc) as ->. by rewrite lookup_nil in Ht.
    + rewrite list_lookup_insert_ne in Hc' by done. by apply (inv_last _ _ _ Hi).
Qed.

Lemma inv_reload n p log : inv n p log -> inv n (reload p) log.
Proof.
  intros [(H1 & H2 & H3) _ Hh _ _ _ _]. constructor; cbn [p_levels p_created p_chains p_states p_next_id reload]; try done.
  - by rewrite !length_fmap.
  - intros l L c HL Hc. rewrite list_lookup_fmap, HL in Hc. injection Hc as <-. exists L. split_ands; [done|constructor|].
    apply Forall_forall. intros s _. unfold pickable, sst_state. by rewrite lookup_empty.
  - intros l Hl. rewrite list_lookup_fmap in Hl. rewrite list_lookup_fmap. destruct (p_levels p !! S l) as [[|x L]|] eqn:E; try done.
    split; [done|]. destruct (p_levels p !! l) eqn:E'; [done|]. apply lookup_lt_Some in E. apply lookup_ge_None in E'. lia.
  - intros l c i t Hc. rewrite list_lookup_fmap in Hc. destruct (p_levels p !! l); [|done]. by injection Hc as <-.
  - intros c Hc. rewrite list_lookup_fmap in Hc. destruct (p_levels p !! (n - 1)); [|done]. by injection Hc as <-.
Qed.

Lemma reachable_inv n p log : 0 < n -> reachable n p log -> inv n p log.
Proof.
  intros Hn. induction 1.
  - apply inv_init.
  - by apply inv_push.
  - by apply inv_compact.
  - by eapply inv_publish.
  - by eapply inv_fail.
  - by apply inv_reload.
Qed.

(** ** Reading *)

Section read.
Context {reader : SstReader}.

Lemma value_ok_span v : value_ok v -> exists x, value_from_span v = Ok x /\ lookup_spec (Some v) = Ok x.
Proof.
  unfold value_ok. intros Hv. destruct v as [|t v]; [done|].
  unfold lookup_spec. destruct (value_from_span (t :: v)) as [x|]; [by exists x|done].
Qed.

Lemma assoc_value_ok d key v : run_ok d -> assoc key d = Some v -> value_ok v.
Proof.
  intros [Hs Hf] Ha. apply assoc_elem in Ha; [|done]. rewrite Forall_forall in Hf. by apply (Hf _ Ha).
Qed.

Lemma lookup_level_spec L key :
  Forall (fun s => run_ok (s_data s)) L ->
  lookup_level L key =
  match latest (reverse (s_data <$> L)) key with Some v => Some (lookup_spec (Some v)) | None => None end.
Proof.
  induction 1 as [|s L Hs _ IH]; [done|]. cbn [lookup_level].
  rewrite fmap_cons, reverse_cons, latest_app. cbn [latest]. rewrite IH, (sst_lookup_async_spec s key Hs).
  destruct (assoc key (s_data s)) as [v|] eqn:Ea.
  - rewrite (probe_complete s key v Hs Ea). cbn [negb].
    destruct (value_ok_span v) as (x & _ & ->); [by eapply assoc_value_ok|done].
  - cbn. by destruct (probe_filter s key).
Qed.

Definition not_found : expected value_t := Err (mk_error "Key not found" KEY_NOT_FOUND).

Lemma lookup_levels_spec levels key :
  Forall (Forall (fun s => run_ok (s_data s))) levels ->
  lookup_levels levels key =
  match latest (s_data <$> mjoin (reverse levels)) key with Some v => lookup_spec (Some v) | None => not_found end.
Proof.
  induction 1 as [|L levels HL _ IH]; [done|]. cbn [lookup_levels].
  rewrite reverse_cons, mjoin_app, fmap_app, latest_app. cbn [mjoin list_join]. rewrite app_nil_r.
  rewrite lookup_level_spec by (apply Forall_forall; intros s Hs; rewrite Forall_forall in HL;
    apply HL; by apply elem_of_reverse).
  rewrite fmap_reverse, reverse_involutive, IH. by destruct (latest (s_data <$> L) key).
Qed.

Lemma latest_value_ok runs key v : Forall run_ok runs -> latest runs key = Some v -> value_ok v.
Proof.
  induction 1 as [|d runs Hd _ IH]; [done|]. cbn. destruct (latest runs key); [naive_solver|].
  by apply assoc_value_ok.
Qed.

Lemma observe_tombstone v :
  value_ok v -> observe (lookup_spec (Some v)) = None <-> is_tombstone (mk_entry [] v 0) = true.
Proof.
  unfold value_ok, is_tombstone, lookup_spec. cbn [me_value]. destruct v as [|t v]; [done|].
  unfold value_from_span. cbn [value_type_code]. repeat case_match; try done; rewrite ?Z.eqb_eq in *;
    intros; try done; split; intros; try done; try lia; by rewrite ?Z.eqb_eq in *.
Qed.

(** Equal live values look equal to a reader. *)
Lemma observe_live a b :
  (forall v, a = Some v -> value_ok v) -> (forall v, b = Some v -> value_ok v) ->
  live a = live b -> observe (lookup_spec a) = observe (lookup_spec b).
Proof.
  intros Ha Hb. unfold live.
  assert (forall v, value_ok v -> is_tombstone (mk_entry [] v 0) = true -> observe (lookup_spec (Some v)) = None) as Ht.
  { intros v Hv. by apply observe_tombstone. }
  destruct a as [v|], b as [w|]; try done; repeat case_match; intros E; simplify_eq; try done;
    rewrite ?Ht by auto; done.
Qed.
End read.

(** What every reachable state guarantees to a reader. *)
Lemma reachable_lookup {reader : SstReader} n p log key :
  0 < n -> reachable n p log ->
  lookup_levels (p_levels p) key =
    match latest (s_data <$> history p) key with Some v => lookup_spec (Some v) | None => not_found end /\
  observe (lookup_levels (p_levels p) key) = observe (lookup_spec (latest log.*2 key)).
Proof.
  intros Hn Hr. pose proof (inv_hist _ _ _ (reachable_inv _ _ _ Hn Hr)) as Hh.
  pose proof (h_data _ _ _ Hh) as Hd.
  assert (Forall run_ok log.*2) as Hlog.
  { clear -Hr. induction Hr; try done. rewrite fmap_app. apply Forall_app. split; [done|]. by apply Forall_singleton. }
  assert (lookup_levels (p_levels p) key =
    match latest (s_data <$> history p) key with Some v => lookup_spec (Some v) | None => not_found end) as Hl.
  { apply lookup_levels_spec. apply Forall_forall. intros L HL. apply Forall_forall. intros s Hs.
    rewrite Forall_forall in Hd. apply Hd. unfold history. rewrite mjoin_reverse_perm.
    apply list_elem_of_join. by exists L. }
  split; [done|]. rewrite Hl.
  transitivity (observe (lookup_spec (latest (s_data <$> history p) key))); [by case_match|].
  apply observe_live; [| |apply (h_abs _ _ _ Hh)].
  - intros v. apply latest_value_ok. by apply Forall_fmap.
  - intros v. by apply latest_value_ok.
Qed.

Lemma reachable_lookup_total {reader : SstReader} n p log key :
  0 < n -> reachable n p log ->
  lookup_levels (p_levels p) key = not_found \/ exists x, lookup_levels (p_levels p) key = Ok x.
Proof.
  intros Hn Hr. destruct (reachable_lookup n p log key Hn Hr) as [-> _].
  destruct (latest (s_data <$> history p) key) as [v|] eqn:E; [right|by left].
  assert (value_ok v) as Hv.
  { eapply latest_value_ok; [|exact E]. apply Forall_fmap. apply (h_data _ _ _ (inv_hist _ _ _ (reachable_inv _ _ _ Hn Hr))). }
  destruct (value_ok_span v Hv) as (x & _ & ->). by exists x.
Qed.

(** ** The reader of files *)

(** The interface is implemented by the index pages, the meta index and
    the block search of Sst, and by the quotient filter over the keys of
    the SST. The filter of an SST with no keys is not made and passes
    nothing; [FILTER_KEYS] is the number of keys up to which SstFile shows
    the filter complete, and a larger SST is taken to pass every key. *)
Definition file_lookup (xxh64_hash : bytes -> Z -> Z) (items : list kv) (key : bytes) : expected value_t :=
  iw ← write_kvs xxh64_hash (make_index_writer WRITE_BUF_PAGES) items;
  let f := finish_index xxh64_hash iw in
  default (Err (generic_error "exception"))
    (sst_lookup xxh64_hash (iw_file f) (iw_meta f) (make_super_index (iw_meta f)) key).

Lemma file_lookup_spec xxh64_hash items key :
  run_ok items -> file_lookup xxh64_hash items key = lookup_spec (assoc key items).
Proof.
  intros [Hs Hf]. assert (Forall (fun x => 1 <= length x.1 < MAX_KEY_LEN) items) as Hk
    by (eapply Forall_impl; [exact Hf|]; by intros x [? _]).
  destruct (short_keys_ok items Hk) as [Hok _].
  destruct (write_sst_spec xxh64_hash WRITE_BUF_PAGES items) as (iw & Hw & Hrep).
  - unfold WRITE_BUF_PAGES. lia.
  - rewrite Forall_forall in *. intros x Hx. split; [by apply Hok|by apply Hf].
  - unfold file_lookup. rewrite Hw. cbn [mbind expected_bind].
    rewrite (sst_lookup_spec _ _ _ _ Hrep Hs Hk); [done|].
    unfold make_super_index. case_match; auto.
Qed.

Definition data_filter (xxh64_hash : bytes -> Z -> Z) (items : list kv) : option (option quotient_filter) :=
  made ← create_qf_for_key_count (Z.of_nat (length items));
  match made with
  | Err _ => Some None
  | Ok qf => qf ← insert_all qf (key_hash xxh64_hash <$> items.*1); Some (Some qf)
  end.

Definition filter_passes (xxh64_hash : bytes -> Z -> Z) (items : list kv) (key : bytes) : bool :=
  if (FILTER_KEYS <? Z.of_nat (length items))%Z then true
  else default true (qf ← data_filter xxh64_hash items;
                     match qf with
                     | None => Some false
                     | Some qf => qf_may_contain qf (key_hash xxh64_hash key)
                     end).

Lemma filter_passes_spec xxh64_hash items key v :
  (forall b seed, (0 <= xxh64_hash b seed)%Z) -> sorted_kvs items -> assoc key items = Some v ->
  filter_passes xxh64_hash items key = true.
Proof.
  intros Hh Hs Ha. apply assoc_elem in Ha; [|done]. unfold filter_passes, data_filter.
  destruct (Z.ltb_spec FILTER_KEYS (Z.of_nat (length items))) as [|Hle]; [done|].
  destruct (filter_of_keys (key_hash xxh64_hash) items.*1 (Z.of_nat (length items)))
    as (q & qf0 & qf & -> & E1 & _ & _ & _ & Hm); [intros; apply Hh| |rewrite length_fmap; lia|].
  { apply list_elem_of_lookup in Ha as [i Hi]. apply lookup_lt_Some in Hi. lia. }
  cbn [mbind option_bind]. rewrite E1. cbn [mbind option_bind]. destruct (Hm key) as (b & -> & Hb). apply Hb.
  apply list_elem_of_fmap. by exists (key, v).
Qed.

#[refine] Instance file_reader (xxh64_hash : bytes -> Z -> Z) (Hhash : forall b seed, (0 <= xxh64_hash b seed)%Z)
    : SstReader := {
  probe_filter s key := filter_passes xxh64_hash (s_data s) key;
  sst_lookup_async s key := file_lookup xxh64_hash (s_data s) key;
}.
Proof.
  - intros s key v [Hs _]. by apply filter_passes_spec.
  - intros s key Hs. by apply file_lookup_spec.
Defined.

(** ** Sequences of operations *)

Inductive op :=
  | Push (epoch : Z) (data : list kv)
  | Schedule (min_w max_w : nat)
  | Publish (level : nat)
  | FailTask (level i : nat).

Definition run_op (p : partition) (o : op) : option partition :=
  match o with
  | Push epoch data => Some (push_l0 p epoch data)
  | Schedule min_w max_w => Some (schedule_compaction min_w max_w p)
  | Publish level => publish p level
  | FailTask level i => fail_task p level i
  end.

Fixpoint run_ops (p : partition) (ops : list op) : option partition :=
  match ops with
  | [] => Some p
  | o :: ops => p ← run_op p o; run_ops p ops
  end.

Definition pushes (ops : list op) : log_t :=
  omap (fun o => match o with Push e d => Some (e, d) | _ => None end) ops.

Lemma compact_level_chain min_w max_w p level l c t :
  p_chains p !! l = Some (t :: c) ->
  exists c', p_chains (compact_level min_w max_w p level) !! l = Some (t :: c').
Proof.
  intros Hc. unfold compact_level. destruct (create_buckets_from_level _ _ _ _) as [states bs].
  rewrite launch_level_spec. cbn [p_chains]. destruct (decide (l = level)) as [->|Hne].
  - rewrite list_lookup_alter_eq, Hc. cbn. by eexists.
  - rewrite list_lookup_alter_ne by done. by exists c.
Qed.

Lemma schedule_chain min_w max_w p l c t :
  p_chains p !! l = Some (t :: c) ->
  exists c', p_chains (schedule_compaction min_w max_w p) !! l = Some (t :: c').
Proof.
  unfold schedule_compaction. generalize (seq 0 (length (p_levels p))). intros ls. revert p c.
  induction ls as [|i ls IH]; intros p c Hc; [by exists c|]. cbn [foldl].
  destruct (compact_level_chain min_w max_w p i l c t Hc) as [c' Hc']. by apply (IH _ c').
Qed.

(** A failed task at the head of a chain stays there. *)
Lemma run_op_failed_head p o p' level t c :
  p_chains p !! level = Some (t :: c) -> t_failed t = true -> run_op p o = Some p' ->
  exists t' c', p_chains p' !! level = Some (t' :: c') /\ t_failed t' = true.
Proof.
  intros Hc Ht Ho. destruct o as [e d|mi ma|l|l i]; cbn in Ho; try (injection Ho as <-).
  - by exists t, c.
  - destruct (schedule_chain mi ma p level c t Hc) as [c' Hc']. by exists t, c'.
  - unfold publish in Ho. destruct (decide (l = level)) as [->|Hne].
    + rewrite Hc in Ho. cbn in Ho. by rewrite Ht in Ho.
    + destruct (p_chains p !! l) as [[|u r]|]; try done. cbn [mbind option_bind] in Ho.
      repeat case_match; try done. injection Ho as <-. cbn [p_chains].
      rewrite list_lookup_insert_ne by done. by exists t, c.
  - unfold fail_task in Ho. destruct (p_chains p !! l) as [ch|] eqn:E; [|done]. cbn [mbind option_bind] in Ho.
    destruct (ch !! i) as [u|] eqn:Eu; [|done]. injection Ho as <-. cbn [p_chains].
    destruct (decide (l = level)) as [->|Hne]; [|rewrite list_lookup_insert_ne by done; by exists t, c].
    rewrite Hc in E. injection E as <-. rewrite list_lookup_insert_eq by (by eapply lookup_lt_Some).
    destruct i as [|i]; cbn; [by eexists _, _|by eexists _, _].
Qed.

Lemma small_run_ok (v : bytes) : length v <= 2 -> value_ok v -> run_ok [([1]%Z, v)].
Proof.
  intros Hv Hok. split; [repeat constructor|]. apply Forall_singleton. split; [cbn; unfold MAX_KEY_LEN; lia|].
  split; [|done]. destruct v as [|? [|? [|? v]]]; cbn in Hv; try lia; apply Nat.leb_le; vm_compute; reflexivity.
Qed.

(** ** Properties *)

(** C3: the LSM tree refines the log of flushes. In every state reached
    from an empty partition by any interleaving of flushes with
    increasing epochs, of picking buckets in levels other than the last,
    of publishing compactions in the order of their chains, of failing
    them and of restarts from the manifest, reading a key shows what the latest flush that contains the key
    stored, a tombstone showing as absence. The read itself finds the
    newest version among the SSTs. *)
Theorem lsm_refinement {reader : SstReader} (n : nat) (p : partition) (log : log_t) (key : bytes)
    (Hn : 0 < n) (Hr : reachable n p log) :
  observe (lookup_levels (p_levels p) key) = observe (lookup_spec (latest log.*2 key)) /\
  lookup_levels (p_levels p) key =
    match latest (s_data <$> history p) key with Some v => lookup_spec (Some v) | None => not_found end.
Proof. by destruct (reachable_lookup n p log key Hn Hr). Qed.

Lemma lsm_refinement_witness :
  let key : bytes := [1]%Z in
  let p := push_l0 (push_l0 (make_partition 2) 0 [(key, [1; 10]%Z)]) 1 [(key, [2]%Z)] in
  exists p', publish (compact_level 2 3 p 0) 0 = Some p' /\
    @observe (@lookup_levels (file_reader (fun _ _ => 0%Z) (fun _ _ => Z.le_refl 0)) (p_levels p') key) = None.
Proof.
  cbv zeta. eexists. split; [vm_compute; reflexivity|].
  refine (proj1 (@lsm_refinement (file_reader (fun _ _ => 0%Z) (fun _ _ => Z.le_refl 0)) 2 _
    [(0, [([1], [1; 10])]); (1, [([1], [2])])]%Z [1]%Z _ _)); [lia|].
  eapply (reach_publish 2 (compact_level 2 3
    (push_l0 (push_l0 (make_partition 2) 0 [([1], [1; 10])%Z]) 1 [([1], [2])%Z]) 0) _ 0);
    [|vm_compute; reflexivity].
  apply reach_compact; [|lia|lia].
  apply (reach_push 2 _ [(0, [([1], [1; 10])])]%Z); [|by repeat constructor|by apply small_run_ok; [cbn; lia|]].
  apply (reach_push 2 _ []); [constructor|constructor|by apply small_run_ok; [cbn; lia|]].
Defined.

(** C39: a compaction of the last level publishes its output behind newer
    SSTs. With two levels and rounds of compaction interleaved with
    flushes, the last level picks its two oldest SSTs, a newer SST arrives
    there, and the merged one is then appended after it: a read returns
    the fourth value written although the sixth was flushed last. *)
Theorem last_level_compaction_reads_stale {reader : SstReader} :
  let key : bytes := [1]%Z in
  let put i : op := Push i [(key, [1; i]%Z)] in
  let round := [Schedule 2 3; Publish 0] in
  let ops := [put 1; put 2]%Z ++ round ++ [put 3; put 4]%Z ++ round ++ [Schedule 2 3] ++
             [put 5; put 6]%Z ++ round ++ [Publish 1] in
  exists p, run_ops (make_partition 2) ops = Some p /\
    lookup_levels (p_levels p) key = Ok (VBytes [4]%Z) /\
    lookup_spec (latest (pushes ops).*2 key) = Ok (VBytes [6]%Z).
Proof.
  cbv zeta. eexists. split; [vm_compute; reflexivity|]. split; [|vm_compute; reflexivity].
  rewrite lookup_levels_spec; [vm_compute; reflexivity|].
  cbn [p_levels]. repeat (apply Forall_cons; split); try apply Forall_nil; try done; by apply small_run_ok; [cbn; lia|].
Qed.

(** A failed compaction blocks its level for good. Once the task at
    the head of a chain failed, then whatever flushes, rounds, publications
    and failures follow, the head stays and nothing of that level is ever
    published: the permission is not forwarded on the error branch. *)
Theorem failed_compaction_blocks_level (p p' : partition) (level : nat) (t : task) (c : list task)
    (ops : list op) (Hc : p_chains p !! level = Some (t :: c)) (Ht : t_failed t = true)
    (Hrun : run_ops p ops = Some p') :
  publish p' level = None /\ Publish level ∉ ops.
Proof.
  revert p t c Hc Ht Hrun. induction ops as [|o ops IH]; intros p t c Hc Ht Hrun.
  - injection Hrun as <-. split; [|apply not_elem_of_nil]. unfold publish. rewrite Hc. cbn. by rewrite Ht.
  - cbn in Hrun. destruct (run_op p o) as [p1|] eqn:Eo; [|done]. cbn in Hrun.
    destruct (run_op_failed_head _ _ _ _ _ _ Hc Ht Eo) as (t' & c' & Hc' & Ht').
    destruct (IH _ _ _ Hc' Ht' Hrun) as [H1 H2]. split; [done|]. apply not_elem_of_cons. split; [|done].
    intros <-. cbn in Eo. unfold publish in Eo. rewrite Hc in Eo. cbn in Eo. by rewrite Ht in Eo.
Qed.

Lemma failed_compaction_witness :
  let put i : op := Push i [([1], [1; i])]%Z in
  exists p p', run_ops (make_partition 2) [put 1%Z; put 2%Z; Schedule 2 3; FailTask 0 0] = Some p /\
    run_ops p [put 3%Z; put 4%Z; Schedule 2 3] = Some p' /\
    length <$> p_chains p' !! 0 = Some 2 /\ publish p' 0 = None.
Proof.
  cbv zeta.
  let r := eval vm_compute in (run_ops (make_partition 2)
    [Push 1 [([1], [1; 1])]; Push 2 [([1], [1; 2])]; Schedule 2 3; FailTask 0 0]%Z) in
  match r with Some ?q => exists q; eexists; split; [vm_compute; reflexivity|];
    split; [vm_compute; reflexivity|]; split; [vm_compute; reflexivity|];
    refine (proj1 (failed_compaction_blocks_level q _ 0 _ _
      [Push 3 [([1], [1; 3])]; Push 4 [([1], [1; 4])]; Schedule 2 3]%Z _ _ _)) end;
    [vm_compute; reflexivity|reflexivity|vm_compute; reflexivity].
Defined.
