(* ===== verification/LsmFiles.v ===== *)
(** * The LSM tree on its files

    The partitions of Lsm together with the SST files: a flush writes the
    file of its run ([_export_as_sst_async]), a compaction merges the files
    of its inputs ([k_way_merge_async2]) and unlinks them, a restart loads
    what the manifest names ([sst::load]), and a read asks the filters and
    pages of the files ([sst_manager::lookup_async]). Every SST of the
    levels has a file that stores its entries, the merge of the files
    succeeds whenever the merge of the entries does, and reading the files
    gives what the log of flushes gives. *)

From stdpp Require Import base list numbers strings sorting sets gmap.
From Stdlib Require Import ZArith Lia.
From S2P Require Import Prelude StdAlgo Types Block Merge Sst SstFile MergeFile SstManager Lsm.

Section files.
Context (xxh64_hash : bytes -> Z -> Z) (Hhash : forall b seed, (0 <= xxh64_hash b seed)%Z).
Context (heap : heap_bytes) (upper : Z) (Hupper : (0 <= upper < 2 ^ 64)%Z) (read_ahead : Z) (direct : bool).

(** ** Files and what they stand for *)

(** The files of a partition, by the identifier of their SST. *)
Abbreviation files_t := (gmap nat sst_object).

(** Reading a level and the levels from the files, newest SST first. [None]
    is a file that is missing or an access outside of it. *)
Fixpoint lookup_level_files (fs : files_t) (level_newest_first : list sst_t) (key : bytes)
    : option (option (expected value_t)) :=
  match level_newest_first with
  | [] => Some None
  | s :: rest =>
      o ← fs !! s_id s;
      pass ← sst_probe_filter (so_sst o) (key_hash xxh64_hash key);
      if negb pass then lookup_level_files fs rest key
      else
        r ← sst_lookup xxh64_hash (st_file (so_sst o)) (st_meta_index (so_sst o)) (st_super_index (so_sst o)) key;
        match r with
        | Ok v => Some (Some (Ok v))
        | Err e => if bool_decide (error_code e = KEY_NOT_FOUND) then lookup_level_files fs rest key
                   else Some (Some (Err (generic_error "An error occurred while reading index")))
        end
  end.

Fixpoint lookup_files (fs : files_t) (levels : list (list sst_t)) (key : bytes) : option (expected value_t) :=
  match levels with
  | [] => Some (Err (mk_error "Key not found" KEY_NOT_FOUND))
  | l :: levels =>
      r ← lookup_level_files fs (reverse l) key;
      match r with
      | Some r => Some r
      | None => lookup_files fs levels key
      end
  end.

(** The merge of a task: its configuration, and the objects of its inputs. *)
Definition task_config (t : task) : merge_config := mk_merge_config read_ahead (t_discard t) direct.

Definition input_objects (fs : files_t) (t : task) : option (list sst_object) := mapM (fun s => fs !! s_id s) (t_inputs t).

(** The inputs are unlinked and the output is there. *)
Definition replace_files (fs : files_t) (t : task) (id : nat) (o : sst_object) : files_t :=
  <[id := o]> (foldr (fun s fs => delete (s_id s) fs) fs (t_inputs t)).

(** A restart: every file is loaded again. *)
Definition load_object (o : sst_object) : option sst_object :=
  match sst_load (st_file (so_sst o)) with
  | Ok s => Some (mk_sst_file s direct (Z.of_nat (length (st_file (so_sst o)))))
  | Err _ => None
  end.

(** ** Runs *)

Definition mt_ok (e : memtable_entry) : Prop :=
  file_item_ok (mt_kv e) /\ value_ok (mt_value e) /\ (0 <= mt_seq e < 2 ^ 64)%Z.

(** A partition with its files, and the log they stand for. Runs and merges
    have at most [MAX_KEYS] keys, and merges a read-ahead of at least one
    byte for each input. *)
Inductive on_disk (n : nat) : partition -> log_t -> files_t -> Prop :=
  | disk_init : on_disk n (make_partition n) [] ∅
  | disk_push p log fs l avg epoch size s :
      on_disk n p log fs -> Forall (fun x => (x.1 < epoch)%Z) log -> (0 <= epoch < 2 ^ 64)%Z ->
      l <> [] -> (Z.of_nat (length l) <= MAX_KEYS)%Z -> StronglySorted mt_lt l -> Forall mt_ok l ->
      _export_as_sst_async xxh64_hash heap l (Z.of_nat (length l)) avg upper epoch = Some (Ok s) ->
      let data := mt_kv <$> newest_versions None l in
      on_disk n (push_l0 p epoch data) (log ++ [(epoch, data)]) (<[p_next_id p := mk_sst_file s direct size]> fs)
  | disk_compact p log fs min_w max_w level :
      on_disk n p log fs -> 2 <= min_w <= max_w -> S level < n -> on_disk n (compact_level min_w max_w p level) log fs
  | disk_publish p log fs level p' t rest objs o :
      on_disk n p log fs -> publish p level = Some p' -> p_chains p !! level = Some (t :: rest) ->
      (Z.of_nat (length (concat (s_data <$> t_inputs t))) <= MAX_KEYS)%Z ->
      (Z.of_nat (length (t_inputs t)) <= read_ahead <= MAX_READ_AHEAD)%Z ->
      input_objects fs t = Some objs -> k_way_merge_async2 xxh64_hash heap (task_config t) objs = Some (Ok o) ->
      on_disk n p' log (replace_files fs t (p_next_id p) o)
  | disk_fail p log fs level i p' : on_disk n p log fs -> fail_task p level i = Some p' -> on_disk n p' log fs
  | disk_reload p log fs fs' :
      on_disk n p log fs -> map_Forall (fun _ o => (Z.of_nat (length (st_file (so_sst o))) < 2 ^ 63)%Z) fs ->
      (forall id, fs' !! id = fs !! id ≫= load_object) -> on_disk n (reload p) log fs'.

(** ** The file of an SST *)

Record file_of (s : sst_t) (o : sst_object) : Prop := {
  fo_stores : sst_stores xxh64_hash o (s_data s);
  fo_serves : serves xxh64_hash (so_sst o) (s_data s);
  fo_epoch : index_epoch o = s_epoch s;
  fo_words : (0 <= index_epoch o < 2 ^ 64 /\ 0 <= f_max_seq_nr (so_footer o) < 2 ^ 64)%Z;
  fo_upper : f_upper_bound (so_footer o) = upper;
  fo_load : (Z.of_nat (length (st_file (so_sst o))) < 2 ^ 63)%Z -> exists s', sst_load (st_file (so_sst o)) = Ok s' /\
    st_file s' = st_file (so_sst o) /\ st_meta_index s' = st_meta_index (so_sst o) /\ st_footer s' = st_footer (so_sst o) /\
    serves xxh64_hash s' (s_data s);
}.

Definition files_ok (p : partition) (fs : files_t) : Prop := Forall (fun s => exists o, fs !! s_id s = Some o /\ file_of s o) (history p).

Lemma stores_run_ok o items : sst_stores xxh64_hash o items -> run_ok items.
Proof. intros [_ _ _ Hs Hi]. split; [done|]. eapply Forall_impl; [exact Hi|]. by intros x [[? ?] ?]. Qed.

(** Loading changes neither the pages nor the footer. *)
Lemma load_file_of s o o' : file_of s o -> (Z.of_nat (length (st_file (so_sst o))) < 2 ^ 63)%Z -> load_object o = Some o' -> file_of s o'.
Proof.
  intros [H1 H2 H3 H4 H5 H6] Hl. destruct (H6 Hl) as (s' & E & Ef & Em & Eft & Hs'). unfold load_object. rewrite E.
  intros [= <-]. unfold index_epoch, so_footer in *. split; unfold index_epoch, so_footer; cbn [so_sst]; rewrite ?Ef, ?Em, ?Eft; try done.
  destruct H1 as [P1 P2 P3 P4 P5]. unfold so_footer in *.
  split; unfold so_footer; cbn [so_sst]; rewrite ?Ef, ?Em, ?Eft; done.
Qed.

Lemma push_file_of l avg epoch size s id :
  (0 <= epoch < 2 ^ 64)%Z -> l <> [] -> (Z.of_nat (length l) <= MAX_KEYS)%Z -> StronglySorted mt_lt l -> Forall mt_ok l ->
  _export_as_sst_async xxh64_hash heap l (Z.of_nat (length l)) avg upper epoch = Some (Ok s) ->
  file_of (mk_sst id epoch (mt_kv <$> newest_versions None l)) (mk_sst_file s direct size).
Proof.
  intros He Hne Hc Hs Hok E.
  assert (Forall (fun e => file_item_ok (mt_kv e)) l) as H1 by (eapply Forall_impl; [exact Hok|]; by intros x []).
  assert (Forall (fun e => (0 <= mt_seq e < 2 ^ 64)%Z) l) as H2 by (eapply Forall_impl; [exact Hok|]; by intros x (_ & _ & ?)).
  assert (Forall (fun e => file_item_ok (mt_kv e) /\ value_ok (mt_value e)) l) as H3
    by (eapply Forall_impl; [exact Hok|]; by intros x (? & ? & _)).
  destruct (flush_stores xxh64_hash heap l avg upper epoch direct size Hhash Hne Hc Hs H3 H2) as (s1 & E1 & Hst & Hu & Hep & Hsq).
  rewrite E in E1. injection E1 as <-.
  destruct (export_spec xxh64_hash heap l avg upper epoch Hhash Hne Hc Hs H1 H2) as (qf & iw & E2 & _ & _ & _ & _ & Hl & Hserve).
  rewrite E in E2. injection E2 as ->. split; try done.
  - apply Hserve. by left.
  - cbn [so_sst st_file]. intros Hsz. eexists. split; [by apply Hl|]. split_ands; try done. apply Hserve. by right.
Qed.

(** ** Every step keeps the files *)

Lemma input_objects_ok fs t : Forall (fun s => exists o, fs !! s_id s = Some o /\ file_of s o) (t_inputs t) ->
  exists objs, input_objects fs t = Some objs /\ Forall2 file_of (t_inputs t) objs.
Proof.
  unfold input_objects. induction 1 as [|s l (o & Ho & Hf) _ (objs & E & IH)]; [by exists []|].
  exists (o :: objs). split; [|by constructor]. cbn. rewrite Ho. cbn. by rewrite E.
Qed.

Lemma stored_inputs_files inputs objs : Forall2 file_of inputs objs ->
  stored_inputs objs (s_data <$> inputs) = sst_input <$> inputs /\ index_epoch <$> objs = s_epoch <$> inputs.
Proof.
  unfold stored_inputs. induction 1 as [|s o inputs objs Hf _ [IH1 IH2]]; [done|]. rewrite !fmap_cons. cbn [zip zip_with].
  rewrite (fo_epoch _ _ Hf). split; [by f_equal|by rewrite IH2].
Qed.

(** The merge of the files of a task, when the merge of its entries
    succeeds. *)
Lemma merge_task_files n p log fs level p' t rest out older fresh newer L' :
  inv n p log -> files_ok p fs -> published p p' level t rest out older fresh newer L' ->
  (Z.of_nat (length (concat (s_data <$> t_inputs t))) <= MAX_KEYS)%Z ->
  (Z.of_nat (length (t_inputs t)) <= read_ahead <= MAX_READ_AHEAD)%Z ->
  exists objs o, input_objects fs t = Some objs /\
    k_way_merge_async2 xxh64_hash heap (task_config t) objs = Some (Ok o) /\ file_of out o.
Proof.
  intros Hi Hfs Hp Hk Hr. pose proof Hfs as Hall. unfold files_ok in Hall. rewrite (pub_history _ _ _ _ _ _ _ _ _ _ Hp) in Hall.
  apply Forall_app in Hall as [_ Hall]. apply Forall_app in Hall as [Hin _].
  destruct (input_objects_ok fs t Hin) as (objs & Eo & Hf). exists objs.
  destruct (stored_inputs_files _ _ Hf) as [Esi Eep].
  destruct (inputs_facts _ _ _ (inv_hist _ _ _ Hi) _ _ _ (pub_history _ _ _ _ _ _ _ _ _ _ Hp)) as (Hrun & _ & Hnd).
  destruct (pub_merge _ _ _ _ _ _ _ _ _ _ Hp) as (st & Em & Edata).
  destruct (k_way_merge_spec xxh64_hash heap (task_config t) objs (s_data <$> t_inputs t) upper Hhash) as
    (o & ms & Ek & Em' & Hst & Hsv & Hu & Hep & _ & Hsq & _ & Hl); try done.
  - apply Forall2_fmap_r, Forall2_flip. eapply Forall2_impl; [exact Hf|]. intros s o' Hso. apply Hso.
  - apply Forall_forall. intros x Hx. apply list_elem_of_lookup in Hx as [i Hix].
    destruct (Forall2_lookup_r _ _ _ _ _ Hf Hix) as (s & _ & Hs). apply Hs.
  - rewrite Eep, <- sst_input_epochs. done.
  - apply Forall_forall. intros x Hx. apply list_elem_of_lookup in Hx as [i Hix].
    destruct (Forall2_lookup_r _ _ _ _ _ Hf Hix) as (s & _ & Hs). apply Hs.
  - intros Hemp. pose proof (merge_entries_spec (t_discard t) (sst_input <$> t_inputs t)) as Hspec. cbv zeta in Hspec.
    rewrite decide_True in Hspec; [rewrite Hspec in Em; [done|]|].
    + eapply Forall_impl; [exact Hrun|]. intros x [Hsx Hix]. split; [done|]. eapply Forall_impl; [exact Hix|]. by intros y (_ & _ & ?).
    + apply length_zero_iff_nil. rewrite <- total_entries_spec. unfold total_entries. rewrite sst_input_runs.
      assert (forall l : list (list kv), mjoin l = concat l) as -> by (clear; induction l; [done|]; cbn; by f_equal).
      by rewrite Hemp.
  - cbn. rewrite <- (Forall2_length _ _ _ Hf). done.
  - exists o. split_ands; try done. cbn [task_config mc_discard_deleted_keys] in Em'. rewrite Esi, Em in Em'. injection Em' as <-.
    rewrite <- Edata in Hst, Hsv. rewrite Eep, (pub_min _ _ _ _ _ _ _ _ _ _ Hp) in Hep. injection Hep as Hep.
    split; try done.
    + split; [|done]. rewrite <- Hep. pose proof (pub_epoch _ _ _ _ _ _ _ _ _ _ Hp) as Hin'.
      rewrite <- Eep in Hin'. apply list_elem_of_fmap in Hin' as (x & -> & Hx). apply list_elem_of_lookup in Hx as [i Hix].
      destruct (Forall2_lookup_r _ _ _ _ _ Hf Hix) as (s & _ & Hs). apply Hs.
    + intros Hsz. exists (so_sst o). split; [by apply Hl|done].
Qed.

Lemma lookup_unlinked (fs : files_t) (l : list sst_t) id : id ∉ s_id <$> l ->
  foldr (fun s fs => delete (s_id s) fs) fs l !! id = fs !! id.
Proof.
  induction l as [|s l IH]; intros H; [done|]. rewrite fmap_cons in H. apply not_elem_of_cons in H as [Hne H]. cbn [foldr].
  rewrite lookup_delete_ne by done. by apply IH.
Qed.

Lemma push_history n p log epoch data : 0 < n -> inv n p log ->
  history (push_l0 p epoch data) = history p ++ [mk_sst (p_next_id p) epoch data].
Proof.
  intros Hn Hi. destruct (inv_len _ _ _ Hi) as (Hl & _). unfold history at 1, push_l0. cbn [p_levels].
  destruct (p_levels p) as [|l0 levels] eqn:E; [cbn in Hl; lia|]. rewrite <- E. by apply (history_push levels l0).
Qed.

Lemma compact_history min_w max_w p level : history (compact_level min_w max_w p level) = history p.
Proof.
  unfold compact_level. destruct (create_buckets_from_level _ _ _ _) as [states buckets]. by rewrite launch_level_spec.
Qed.

Lemma on_disk_ok n p log fs : 0 < n -> on_disk n p log fs -> reachable n p log /\ files_ok p fs.
Proof.
  intros Hn. induction 1 as [|p log fs l avg epoch size s _ [IH1 IH2] Hlog He Hne Hc Hs Hok E data
    |p log fs min_w max_w level _ [IH1 IH2] Hw Hl|p log fs level p' t rest objs o _ [IH1 IH2] Hp Ht Hk Hr Eo Ek
    |p log fs level i p' _ [IH1 IH2] Hf|p log fs fs' _ [IH1 IH2] Hsz Hld].
  - split; [constructor|]. unfold files_ok, history. cbn [p_levels make_partition]. by rewrite reverse_replicate, mjoin_replicate_nil.
  - pose proof (push_file_of l avg epoch size s (p_next_id p) He Hne Hc Hs Hok E) as Hfo. fold data in Hfo.
    split; [apply reach_push; try done; exact (stores_run_ok _ _ (fo_stores _ _ Hfo))|].
    pose proof (reachable_inv _ _ _ Hn IH1) as Hi. unfold files_ok. rewrite (push_history _ _ _ _ _ Hn Hi). apply Forall_app. split.
    + pose proof (h_next_id _ _ _ (inv_hist _ _ _ Hi)) as Hids. unfold files_ok in IH2. rewrite Forall_forall in *.
      intros x Hx. rewrite lookup_insert_ne; [by apply IH2|]. apply Hids in Hx. lia.
    + apply Forall_singleton. eexists. split; [apply lookup_insert_eq|done].
  - split; [by constructor|]. unfold files_ok. by rewrite compact_history.
  - split; [by eapply reach_publish|]. pose proof (reachable_inv _ _ _ Hn IH1) as Hi.
    destruct (publish_spec _ _ _ _ _ Hi Hp) as (t' & rest' & out & older & fresh & newer & L' & Hpub).
    pose proof (pub_chain _ _ _ _ _ _ _ _ _ _ Hpub) as Hch. rewrite Ht in Hch. injection Hch as <- <-.
    destruct (merge_task_files _ _ _ _ _ _ _ _ _ _ _ _ _ Hi IH2 Hpub Hk Hr) as (objs' & o' & Eo' & Ek' & Hfo).
    rewrite Eo in Eo'. injection Eo' as <-. rewrite Ek in Ek'. injection Ek' as <-.
    pose proof (inv_hist _ _ _ Hi) as Hh. pose proof (h_ids _ _ _ Hh) as Hnd. pose proof (h_next_id _ _ _ Hh) as Hids.
    unfold files_ok in *. rewrite (pub_history _ _ _ _ _ _ _ _ _ _ Hpub) in *. rewrite (pub_history' _ _ _ _ _ _ _ _ _ _ Hpub).
    rewrite !fmap_app in Hnd. apply NoDup_app in Hnd as (_ & Hon & Hnd). apply NoDup_app in Hnd as (_ & Hin & _).
    apply Forall_app in IH2 as [Hold IH2]. apply Forall_app in IH2 as [_ Hnew].
    apply Forall_app in Hids as [Hido Hids]. apply Forall_app in Hids as [_ Hidn].
    assert (forall x, s_id x < p_next_id p -> s_id x ∉ s_id <$> t_inputs t -> (exists o, fs !! s_id x = Some o /\ file_of x o) ->
      exists o', replace_files fs t (p_next_id p) o !! s_id x = Some o' /\ file_of x o') as Hkeep.
    { intros x Hlt Hni Hx. unfold replace_files. rewrite lookup_insert_ne by lia. by rewrite lookup_unlinked. }
    rewrite Forall_forall in Hold, Hnew, Hido, Hidn. apply Forall_app. split; [|constructor].
    + apply Forall_forall. intros x Hx. apply Hkeep; [by apply Hido| |by apply Hold]. intros Hxi.
      apply (Hon (s_id x)); [by apply list_elem_of_fmap_2|]. apply elem_of_app. by left.
    + exists o. split; [|done]. unfold replace_files. rewrite (proj1 (pub_id _ _ _ _ _ _ _ _ _ _ Hpub)). apply lookup_insert_eq.
    + apply Forall_forall. intros x Hx. apply Hkeep; [by apply Hidn| |by apply Hnew]. intros Hxi.
      apply (Hin (s_id x) Hxi). by apply list_elem_of_fmap_2.
  - split; [by eapply reach_fail|]. unfold fail_task in Hf. destruct (p_chains p !! level) as [c|]; [|done]. cbn in Hf.
    destruct (c !! i) as [t|]; [|done]. cbn in Hf. injection Hf as <-. done.
  - split; [by constructor|]. unfold files_ok in *. eapply Forall_impl; [exact IH2|]. intros x (o & Ho & Hfo).
    rewrite Hld, Ho. cbn. pose proof (Hsz _ _ Ho) as Hlt. cbn in Hlt. destruct (fo_load _ _ Hfo Hlt) as (s' & E & _).
    assert (exists o', load_object o = Some o') as [o' Eo'] by (unfold load_object; rewrite E; by eexists).
    exists o'. split; [done|]. by eapply load_file_of.
Qed.

(** ** Reading *)

Lemma lookup_level_files_ok {reader : SstReader} fs l key :
  Forall (fun s => exists o, fs !! s_id s = Some o /\ file_of s o) l -> lookup_level_files fs l key = Some (lookup_level l key).
Proof.
  induction 1 as [|s l (o & Ho & Hf) _ IH]; [done|]. cbn [lookup_level_files lookup_level]. rewrite Ho. cbn [mbind option_bind].
  pose proof (stores_run_ok _ _ (fo_stores _ _ Hf)) as Hrun.
  destruct (fo_serves _ _ Hf key) as (El & b & Eb & Hb). rewrite Eb. cbn [mbind option_bind].
  pose proof (sst_lookup_async_spec s key Hrun) as Hspec. pose proof (probe_complete s key) as Hpc.
  destruct (assoc key (s_data s)) as [v|] eqn:Ea.
  - rewrite (Hb ltac:(done)), (Hpc v Hrun eq_refl). cbn [negb]. rewrite El, Hspec. cbn [mbind option_bind].
    destruct (lookup_spec (Some v)) as [x|e]; [done|]. by case_match.
  - assert (lookup_spec None = Err (mk_error "" KEY_NOT_FOUND)) as En by done.
    destruct (negb b) eqn:Enb; [|rewrite El, En; cbn [mbind option_bind error_code]; rewrite bool_decide_eq_true_2 by done];
      (destruct (negb (probe_filter s key)); [done|]); rewrite Hspec, En; cbn [error_code];
      by rewrite bool_decide_eq_true_2.
Qed.

Lemma lookup_files_ok {reader : SstReader} fs levels key :
  Forall (Forall (fun s => exists o, fs !! s_id s = Some o /\ file_of s o)) levels ->
  lookup_files fs levels key = Some (lookup_levels levels key).
Proof.
  induction 1 as [|l levels Hl _ IH]; [done|]. cbn [lookup_files lookup_levels].
  rewrite lookup_level_files_ok by (by apply Forall_reverse). cbn [mbind option_bind]. by destruct (lookup_level (reverse l) key).
Qed.

Lemma files_ok_levels p fs : files_ok p fs -> Forall (Forall (fun s => exists o, fs !! s_id s = Some o /\ file_of s o)) (p_levels p).
Proof.
  unfold files_ok, history. rewrite !Forall_forall. intros H L HL. apply Forall_forall. intros s Hs. apply H.
  rewrite mjoin_reverse_perm. apply list_elem_of_join. by exists L.
Qed.
End files.

(** ** Properties *)

(** C4: the files refine the log of flushes, as long as the last level is not
    compacted. After any flushes of tables of at most [MAX_KEYS] entries that
    fit a page, bucket picks in levels other than the last, compactions,
    failed compactions and restarts, every SST of the levels has a file that
    stores exactly its entries; a read that goes through the filters, the
    meta indexes and the pages of these files returns, and shows what the
    latest flush with the key stored; and whenever a task can publish, with
    at most [MAX_KEYS] entries in its inputs and a read-ahead of at least one
    byte for each of them and at most 512 MiB, the merge of the files of its inputs
    succeeds. *)
Theorem files_refine_log (xxh64_hash : bytes -> Z -> Z) (heap : heap_bytes) (upper read_ahead : Z) (direct : bool)
    (n : nat) (p : partition) (log : log_t) (fs : gmap nat sst_object)
    (Hhash : forall b seed, (0 <= xxh64_hash b seed)%Z) (Hupper : (0 <= upper < 2 ^ 64)%Z) (Hn : 0 < n)
    (Hdisk : on_disk xxh64_hash heap upper read_ahead direct n p log fs) :
  (forall s, s ∈ history p -> exists o, fs !! s_id s = Some o /\ sst_stores xxh64_hash o (s_data s)) /\
  (forall key, exists r, lookup_files xxh64_hash fs (p_levels p) key = Some r /\
     observe r = observe (lookup_spec (latest log.*2 key))) /\
  (forall level p' t rest, publish p level = Some p' -> p_chains p !! level = Some (t :: rest) ->
     (Z.of_nat (length (concat (s_data <$> t_inputs t))) <= MAX_KEYS)%Z ->
     (Z.of_nat (length (t_inputs t)) <= read_ahead <= MAX_READ_AHEAD)%Z ->
     exists objs o, input_objects fs t = Some objs /\
       k_way_merge_async2 xxh64_hash heap (task_config read_ahead direct t) objs = Some (Ok o)).
Proof.
  destruct (on_disk_ok xxh64_hash Hhash heap upper Hupper read_ahead direct n p log fs Hn Hdisk) as [Hr Hfs]. split_ands.
  - intros s Hs. unfold files_ok in Hfs. rewrite Forall_forall in Hfs. destruct (Hfs s Hs) as (o & Ho & Hf). exists o. split; [done|apply Hf].
  - intros key. pose (reader := file_reader xxh64_hash Hhash).
    exists (@lookup_levels reader (p_levels p) key). split; [by eapply lookup_files_ok, files_ok_levels|].
    exact (proj2 (@reachable_lookup reader n p log key Hn Hr)).
  - intros level p' t rest Hp Ht Hk Hra. pose proof (reachable_inv _ _ _ Hn Hr) as Hi.
    destruct (publish_spec _ _ _ _ _ Hi Hp) as (t' & rest' & out & older & fresh & newer & L' & Hpub).
    pose proof (pub_chain _ _ _ _ _ _ _ _ _ _ Hpub) as Hch. rewrite Ht in Hch. injection Hch as <- <-.
    destruct (merge_task_files xxh64_hash Hhash heap upper Hupper read_ahead direct _ _ _ _ _ _ _ _ _ _ _ _ _ Hi Hfs Hpub Hk Hra)
      as (objs & o & Eo & Ek & _). by exists objs, o.
Qed.

(** Two flushes of the key 1, the second one deleting it, and a bucket. *)
Definition demo_older : list memtable_entry := [mk_mt_entry [1] 5 [1; 10]; mk_mt_entry [1] 2 [2]; mk_mt_entry [2] 4 [1; 20]]%Z.
Definition demo_newer : list memtable_entry := [mk_mt_entry [1] 8 [2]; mk_mt_entry [3] 9 [1; 30]]%Z.

Definition demo_partition : partition :=
  compact_level 2 3 (push_l0 (push_l0 (make_partition 2) 0 (mt_kv <$> newest_versions None demo_older)) 1
    (mt_kv <$> newest_versions None demo_newer)) 0.

Lemma demo_mt_ok l : l = demo_older \/ l = demo_newer ->
  l <> [] /\ (Z.of_nat (length l) <= MAX_KEYS)%Z /\ StronglySorted mt_lt l /\ Forall mt_ok l.
Proof.
  intros [-> | ->]; (split; [done|]; split; [by vm_compute|]; split;
    [repeat constructor; unfold mt_lt; simpl; (by left) || (right; split; [done|lia])|
     repeat constructor; vm_compute; try lia; try discriminate]).
Qed.

Lemma files_refine_log_witness : exists (fs : gmap nat sst_object) (p' : partition) t rest objs o,
  let hash := fun (b : bytes) (_ : Z) => Z.of_nat (length b) in
  publish demo_partition 0 = Some p' /\ p_chains demo_partition !! 0 = Some (t :: rest) /\
  (exists r, lookup_files hash fs (p_levels demo_partition) [1]%Z = Some r /\ observe r = None) /\
  input_objects fs t = Some objs /\ k_way_merge_async2 hash no_heap (task_config 9000 true t) objs = Some (Ok o).
Proof.
  set (hash := fun (b : bytes) (_ : Z) => Z.of_nat (length b)).
  assert (forall b seed, 0 <= hash b seed)%Z as Hh by (intros; unfold hash; lia).
  destruct (demo_mt_ok demo_older) as (A1 & A2 & A3 & A4); [by left|].
  destruct (demo_mt_ok demo_newer) as (B1 & B2 & B3 & B4); [by right|].
  destruct (flush_stores hash no_heap demo_older 3 7 0 true 100 Hh A1 A2 A3) as (a & Ea & _);
    [eapply Forall_impl; [exact A4|]; by intros x (? & ? & _)|eapply Forall_impl; [exact A4|]; by intros x (_ & _ & ?)|].
  destruct (flush_stores hash no_heap demo_newer 3 7 1 true 100 Hh B1 B2 B3) as (b & Eb & _);
    [eapply Forall_impl; [exact B4|]; by intros x (? & ? & _)|eapply Forall_impl; [exact B4|]; by intros x (_ & _ & ?)|].
  exists (<[1 := mk_sst_file b true 100]> (<[0 := mk_sst_file a true 100]> ∅)).
  destruct (files_refine_log hash no_heap 7 9000 true 2 demo_partition
    (([] ++ [(0%Z, mt_kv <$> newest_versions None demo_older)]) ++ [(1%Z, mt_kv <$> newest_versions None demo_newer)])
    (<[1 := mk_sst_file b true 100]> (<[0 := mk_sst_file a true 100]> ∅)) Hh ltac:(lia) ltac:(lia)) as (_ & Hread & Hmerge).
  { apply disk_compact; [|lia|lia].
    refine (disk_push hash no_heap 7 9000 true 2 _ _ _ demo_newer 3 1 100 b _ _ _ B1 B2 B3 B4 Eb); [|by repeat constructor|lia].
    refine (disk_push hash no_heap 7 9000 true 2 _ _ _ demo_older 3 0 100 a _ _ _ A1 A2 A3 A4 Ea); [constructor|constructor|lia]. }
  destruct (Hread [1]%Z) as (r & Er & Ho).
  assert (exists p' t rest, publish demo_partition 0 = Some p' /\ p_chains demo_partition !! 0 = Some (t :: rest) /\
    length (t_inputs t) = 2 /\ length (concat (s_data <$> t_inputs t)) = 4) as (p' & t & rest & Hp & Ht & Hl & Hc)
    by (eexists _, _, _; split_ands; vm_compute; reflexivity).
  destruct (Hmerge 0 p' t rest Hp Ht) as (objs & o & Eo & Ek); [rewrite Hc; by vm_compute|rewrite Hl; unfold MAX_READ_AHEAD; lia|].
  exists p', t, rest, objs, o. cbv zeta. split_ands; [exact Hp|exact Ht| |exact Eo|exact Ek].
  exists r. split; [exact Er|]. rewrite Ho. vm_compute. reflexivity.
Defined.
