(* ===== verification/Manifest.v ===== *)
(** * Partition manifests (src/db/sst_manager.cc, src/db/sst_manager_loader.cc)

    The text page that records which SST files make up the levels of a
    partition: how it is written, parsed and checked against the
    directory, and the number encoded in the name of an SST file. Names
    and file contents are lists of character codes. Loading one SST file
    is a parameter. *)

From stdpp Require Import base list numbers strings sets.
From Stdlib Require Import ZArith Lia.
From S2P Require Import Prelude StdAlgo Types Block.

Local Open Scope Z_scope.

Definition SEMICOLON : Z := 59.
Definition NEWLINE : Z := 10.
Definition DOT : Z := 46.
Definition MANIFEST_FILENAME : bytes := [109; 97; 110; 105; 102; 101; 115; 116]. (* "manifest" *)

(** ** Writing *)

Fixpoint join_names (names : list bytes) : bytes :=
  match names with
  | [] => []
  | [n] => n
  | n :: names => n ++ SEMICOLON :: join_names names
  end.

Definition level_lines (levels : list (list bytes)) : bytes :=
  mjoin ((fun l => join_names l ++ [NEWLINE]) <$> levels).

Definition _serialize_levels (levels : list (list bytes)) : bytes :=
  resize (level_lines levels) PAGE_SIZE_IN_BYTES.

(** ** Parsing *)

Fixpoint split_str_by (s : bytes) (delim : Z) : list bytes :=
  match s with
  | [] => [[]]
  | c :: s =>
      if c =? delim then [] :: split_str_by s delim
      else match split_str_by s delim with
           | [] => [[c]]
           | p :: ps => (c :: p) :: ps
           end
  end.

(** The text before the first newline and after it. *)
Fixpoint find_line (s : bytes) : option (bytes * bytes) :=
  match s with
  | [] => None
  | c :: s =>
      if c =? NEWLINE then Some ([], s)
      else match find_line s with
           | None => None
           | Some (line, rest) => Some (c :: line, rest)
           end
  end.

Section load.
Context {sst : Type} (sst_load : bytes -> expected sst).

(** The files of one line; empty names are skipped. *)
Fixpoint load_names (names : list bytes) : expected (list sst) :=
  match names with
  | [] => Ok []
  | n :: names =>
      if bool_decide (n = []) then load_names names
      else s ← sst_load n; rest ← load_names names; Ok (s :: rest)
  end.

Fixpoint _parse_manifest_and_load_ssts (manifest_content : bytes) (max_num_levels : nat)
    : expected (list (list sst)) :=
  match max_num_levels with
  | O => Ok []
  | S n =>
      match find_line manifest_content with
      | None => Ok (replicate (S n) [])
      | Some (line, rest) =>
          level ← (match line with [] => Ok [] | _ => load_names (split_str_by line SEMICOLON) end);
          levels ← _parse_manifest_and_load_ssts rest n;
          Ok (level :: levels)
      end
  end.
End load.

(** ** File names *)

(** The position-independent view of the last dot: the name before it and
    the text after it. *)
Fixpoint split_last_dot (name : bytes) : option (bytes * bytes) :=
  match name with
  | [] => None
  | c :: name =>
      match split_last_dot name with
      | Some (stem, ext) => Some (c :: stem, ext)
      | None => if c =? DOT then Some ([], name) else None
      end
  end.

(** [path::stem] and [path::extension] of a file name; a dot in front
    starts no extension. *)
Definition stem (name : bytes) : bytes :=
  match split_last_dot name with
  | Some ([], _) | None => name
  | Some (s, _) => s
  end.

Definition extension (name : bytes) : bytes :=
  match split_last_dot name with
  | Some ([], _) | None => []
  | Some (_, e) => DOT :: e
  end.

Definition is_digit (c : Z) : bool := (48 <=? c) && (c <=? 57).
Definition is_space (c : Z) : bool := ((9 <=? c) && (c <=? 13)) || (c =? 32).

Fixpoint skip_spaces (s : bytes) : bytes :=
  match s with
  | [] => []
  | c :: s' => if is_space c then skip_spaces s' else s
  end.

(** The digits at the front; [acc] is the number so far. *)
Fixpoint read_digits (s : bytes) (acc : Z) : Z :=
  match s with
  | [] => acc
  | c :: s => if is_digit c then read_digits s (acc * 10 + (c - 48)) else acc
  end.

(** [std::stoull]; [None] is an exception. *)
Definition stoull (s : bytes) : option Z :=
  let s := skip_spaces s in
  let '(neg, s) := match s with
                   | c :: s' => if c =? 45 then (true, s') else if c =? 43 then (false, s') else (false, s)
                   | [] => (false, s)
                   end in
  match s with
  | c :: _ =>
      if is_digit c then
        let v := read_digits s 0 in
        if 2 ^ 64 <=? v then None else Some (if neg then u64 (- v) else v)
      else None
  | [] => None
  end.

(** [substr(1)] of an empty extension throws. *)
Definition flush_iteration_from_filename (name : bytes) : option Z :=
  match extension name with
  | [] => None
  | _ :: e => stoull e
  end.

(** Decimal digits, most significant first. *)
Fixpoint decimal (fuel : nat) (n : Z) : bytes :=
  match fuel with
  | O => []
  | S fuel => (if n <? 10 then [] else decimal fuel (n / 10)) ++ [48 + n mod 10]
  end.

(** [std::format(".{:06}", n)] behind the partition's file prefix. *)
Definition sst_filename (file_prefix : bytes) (n : Z) : bytes :=
  let d := decimal 20 n in
  file_prefix ++ [DOT] ++ replicate (6 - length d) 48 ++ d.

(** ** Loading a partition *)

(** What loading sees of a partition's directory: the content of the
    manifest file, and the entries with whether they are regular files. *)
Record directory := mk_directory {
  dir_manifest : option bytes;
  dir_entries : list (bytes * bool);
}.

Definition orphans (tracked : list bytes) (entries : list (bytes * bool)) : list bytes :=
  fst <$> filter (fun e => e.2 = true /\ stem e.1 <> MANIFEST_FILENAME /\ e.1 ∉ tracked) entries.

Definition _check_orphans (tracked : list bytes) (entries : list (bytes * bool)) : status :=
  match orphans tracked entries with
  | [] => ok
  | _ => Err (generic_error "Orphan SST files detected in partition")
  end.

Section load_partition.
Context {sst : Type} (sst_load : bytes -> expected sst) (filename : sst -> bytes).

Record partition_state := mk_pstate { ps_levels : list (list sst); ps_created : list bool }.

(** The running maximum over the names of the loaded SSTs; [None] when a
    name has no number. *)
Fixpoint max_iteration (ssts : list sst) (max_flush_iteration : Z) : option Z :=
  match ssts with
  | [] => Some max_flush_iteration
  | s :: ssts =>
      n ← flush_iteration_from_filename (filename s);
      max_iteration ssts (Z.max max_flush_iteration n)
  end.

(** A manifest that does not load leaves the state as it is; the check for
    orphans follows. [None] is an exception. *)
Definition _load_partition (max_num_levels : nat) (state : partition_state) (dir : option directory)
    (max_flush_iteration : Z) : option (expected (partition_state * Z)) :=
  match dir with
  | None => Some (Ok (state, max_flush_iteration))
  | Some d =>
      '(state, m) ←
        match dir_manifest d with
        | Some ((_ :: _) as content) =>
            match _parse_manifest_and_load_ssts sst_load (resize content PAGE_SIZE_IN_BYTES) max_num_levels with
            | Ok levels =>
                m ← max_iteration (mjoin levels) max_flush_iteration;
                Some (mk_pstate levels ((fun l => 0 <? length l)%nat <$> levels), m)
            | Err _ => Some (state, max_flush_iteration)
            end
        | _ => Some (state, max_flush_iteration)
        end;
      Some (match _check_orphans (filename <$> mjoin (ps_levels state)) (dir_entries d) with
            | Err _ => Err (generic_error "Error while checking orphans")
            | Ok _ => Ok (state, m)
            end)
  end.
End load_partition.

Arguments partition_state : clear implicits.
Arguments mk_pstate {sst}.

(** ** Lemmas *)

Lemma find_line_spec line rest : NEWLINE ∉ line -> find_line (line ++ NEWLINE :: rest) = Some (line, rest).
Proof.
  induction line as [|c line IH]; intros Hn; cbn [app find_line]; [by rewrite Z.eqb_refl|].
  apply not_elem_of_cons in Hn as [Hc Hn]. rewrite (proj2 (Z.eqb_neq c NEWLINE)) by done. by rewrite IH.
Qed.

Lemma find_line_None s : NEWLINE ∉ s -> find_line s = None.
Proof.
  induction s as [|c s IH]; intros Hn; [done|]. apply not_elem_of_cons in Hn as [Hc Hn]. cbn [find_line].
  rewrite (proj2 (Z.eqb_neq c NEWLINE)) by done. by rewrite IH.
Qed.

Lemma split_none n d : d ∉ n -> split_str_by n d = [n].
Proof.
  induction n as [|c n IH]; intros Hn; [done|]. apply not_elem_of_cons in Hn as [Hc Hn]. cbn [split_str_by].
  rewrite (proj2 (Z.eqb_neq c d)) by done. by rewrite IH.
Qed.

Lemma split_cons n d s : d ∉ n -> split_str_by (n ++ d :: s) d = n :: split_str_by s d.
Proof.
  induction n as [|c n IH]; intros Hn; cbn [app split_str_by]; [by rewrite Z.eqb_refl|].
  apply not_elem_of_cons in Hn as [Hc Hn].
  rewrite (proj2 (Z.eqb_neq c d)) by done. by rewrite IH.
Qed.

Lemma join_names_cons n m l : join_names (n :: m :: l) = n ++ SEMICOLON :: join_names (m :: l).
Proof. done. Qed.

(** A name the manifest can hold. *)
Definition name_ok (n : bytes) : Prop := n <> [] /\ SEMICOLON ∉ n /\ NEWLINE ∉ n.

Lemma split_join l : l <> [] -> Forall name_ok l -> split_str_by (join_names l) SEMICOLON = l.
Proof.
  intros Hne Hok. induction Hok as [|n l [_ [Hn _]] _ IH]; [done|]. destruct l as [|m l].
  - by apply split_none.
  - rewrite join_names_cons, split_cons by done. by rewrite IH.
Qed.

Lemma join_newline l : Forall name_ok l -> NEWLINE ∉ join_names l.
Proof.
  induction 1 as [|n l [_ [_ Hn]] _ IH]; [apply not_elem_of_nil|]. destruct l as [|m l]; [done|].
  rewrite join_names_cons, elem_of_app, elem_of_cons. by intros [H|[H|H]].
Qed.

Lemma join_nil l : Forall name_ok l -> join_names l = [] -> l = [].
Proof.
  destruct 1 as [|n l [Hn _] _]; [done|]. destruct l as [|m l]; [done|]. rewrite join_names_cons.
  intros [-> _]%app_eq_nil. done.
Qed.

Lemma load_names_spec {sst} (sst_load : bytes -> expected sst) f l :
  Forall (fun n => name_ok n /\ sst_load n = Ok (f n)) l -> load_names sst_load l = Ok (f <$> l).
Proof.
  induction 1 as [|n l [[Hn _] Hl] _ IH]; [done|]. cbn [load_names]. rewrite bool_decide_eq_false_2 by done.
  rewrite Hl. cbn. by rewrite IH.
Qed.

Lemma parse_lines {sst} (sst_load : bytes -> expected sst) f levels rest :
  Forall (Forall (fun n => name_ok n /\ sst_load n = Ok (f n))) levels ->
  _parse_manifest_and_load_ssts sst_load (level_lines levels ++ rest) (length levels) = Ok ((fun l : list bytes => f <$> l) <$> levels).
Proof.
  induction 1 as [|l levels Hl _ IH]; [done|]. unfold level_lines in *.
  rewrite fmap_cons, mjoin_cons. cbn [length _parse_manifest_and_load_ssts].
  assert (Forall name_ok l) as Hok by (eapply Forall_impl; [exact Hl|]; by intros ? []).
  rewrite <- !app_assoc. cbn [app]. rewrite find_line_spec by by apply join_newline.
  assert (match join_names l with [] => Ok [] | _ => load_names sst_load (split_str_by (join_names l) SEMICOLON) end
          = Ok (f <$> l)) as ->.
  { destruct (join_names l) as [|c s] eqn:E; [by rewrite (join_nil l Hok E)|].
    rewrite <- E, split_join by (try done; by intros ->). by apply load_names_spec. }
  cbn [mbind expected_bind]. by rewrite IH.
Qed.

Lemma resize_pad v n : (length v <= n)%nat -> resize v n = v ++ replicate (n - length v) 0.
Proof. intros H. unfold resize. by rewrite take_ge by lia. Qed.

Lemma resize_cut v n : (n <= length v)%nat -> resize v n = take n v.
Proof. intros H. unfold resize. replace (n - length v)%nat with 0%nat by lia. apply app_nil_r. Qed.

Lemma resize_idem v n : resize (resize v n) n = resize v n.
Proof.
  unfold resize at 1. assert (length (resize v n) = n) as E.
  { unfold resize. rewrite length_app, length_take, length_replicate. lia. }
  rewrite E, Nat.sub_diag, app_nil_r. apply take_ge. lia.
Qed.

(** *** Numbers in names *)

Lemma read_digits_app a b acc :
  Forall (fun c => is_digit c = true) a -> read_digits (a ++ b) acc = read_digits b (read_digits a acc).
Proof. intros H. revert acc. induction H as [|c a Hc _ IH]; intros acc; [done|]. cbn. by rewrite Hc, IH. Qed.

Lemma is_digit_mod n : is_digit (48 + n mod 10) = true.
Proof.
  pose proof (Z.mod_pos_bound n 10 ltac:(lia)). unfold is_digit. apply andb_true_iff. rewrite !Z.leb_le. lia.
Qed.

Lemma decimal_digits fuel n : Forall (fun c => is_digit c = true) (decimal fuel n).
Proof.
  revert n. induction fuel as [|fuel IH]; intros n; [constructor|]. cbn [decimal]. apply Forall_app.
  split; [by case_match|]. apply Forall_singleton, is_digit_mod.
Qed.

Lemma read_decimal fuel n :
  0 <= n < 10 ^ Z.of_nat fuel -> (0 < fuel)%nat -> read_digits (decimal fuel n) 0 = n.
Proof.
  revert n. induction fuel as [|fuel IH]; intros n Hn Hf; [lia|]. cbn [decimal].
  rewrite read_digits_app by (case_match; [constructor|apply decimal_digits]).
  assert (read_digits (if n <? 10 then [] else decimal fuel (n / 10)) 0 = n / 10) as ->.
  { destruct (Z.ltb_spec n 10) as [Hlt|Hge]; [cbn; by rewrite Z.div_small by lia|].
    destruct fuel as [|fuel]; [cbn in Hn; lia|]. apply IH; [|lia].
    rewrite Nat2Z.inj_succ, Z.pow_succ_r in Hn by lia. split; [apply Z.div_pos; lia|].
    apply Z.div_lt_upper_bound; lia. }
  cbn [read_digits]. rewrite is_digit_mod. pose proof (Z.div_mod n 10 ltac:(lia)). lia.
Qed.

Lemma read_zeros k s : read_digits (replicate k 48 ++ s) 0 = read_digits s 0.
Proof. induction k as [|k IH]; [done|]. cbn. exact IH. Qed.

Lemma split_last_dot_spec p e : DOT ∉ e -> split_last_dot (p ++ DOT :: e) = Some (p, e).
Proof.
  intros He. induction p as [|c p IH]; cbn [app split_last_dot]; [|by rewrite IH].
  assert (split_last_dot e = None) as ->; [|by rewrite Z.eqb_refl].
  induction e as [|c e IH]; [done|]. apply not_elem_of_cons in He as [Hc He]. cbn [split_last_dot].
  by rewrite IH, (proj2 (Z.eqb_neq c DOT)).
Qed.

Lemma stoull_digits s :
  s <> [] -> Forall (fun c => is_digit c = true) s -> read_digits s 0 < 2 ^ 64 ->
  stoull s = Some (read_digits s 0).
Proof.
  intros Hne Hd Hb. destruct s as [|c s]; [done|]. apply Forall_cons in Hd as [Hc Hd].
  pose proof Hc as Hc'. unfold is_digit in Hc'. apply andb_true_iff in Hc'. rewrite !Z.leb_le in Hc'.
  unfold stoull. cbn [skip_spaces].
  assert (is_space c = false) as ->.
  { unfold is_space. apply orb_false_iff. rewrite andb_false_iff, !Z.leb_gt, Z.eqb_neq. lia. }
  rewrite (proj2 (Z.eqb_neq c 45)), (proj2 (Z.eqb_neq c 43)) by lia. rewrite Hc.
  by rewrite (proj2 (Z.leb_gt (2 ^ 64) (read_digits (c :: s) 0))) by done.
Qed.

Lemma filename_number prefix n :
  prefix <> [] -> 0 <= n < 2 ^ 64 -> flush_iteration_from_filename (sst_filename prefix n) = Some n.
Proof.
  intros Hp Hn. unfold flush_iteration_from_filename, extension, sst_filename. cbn [app].
  set (ds := replicate (6 - length (decimal 20 n)) 48 ++ decimal 20 n).
  assert (Forall (fun c => is_digit c = true) ds) as Hds.
  { apply Forall_app. split; [apply Forall_replicate; reflexivity|apply decimal_digits]. }
  assert (read_digits ds 0 = n) as Hr.
  { unfold ds. rewrite read_zeros. apply read_decimal; [|lia]. split; [lia|].
    apply Z.lt_trans with (2 ^ 64); [lia|reflexivity]. }
  rewrite split_last_dot_spec.
  - destruct prefix as [|c prefix]; [done|]. rewrite stoull_digits; [by rewrite Hr| |done|rewrite Hr; lia].
    unfold ds. intros [_ E]%app_eq_nil. cbn [decimal] in E. by apply app_eq_nil in E as [_ ?].
  - intros Hin. rewrite Forall_forall in Hds. by apply Hds in Hin.
Qed.

Lemma foldl_max_in l m : foldl Z.max m l = m \/ foldl Z.max m l ∈ l.
Proof.
  revert m. induction l as [|x l IH]; intros m; [by left|]. cbn [foldl]. destruct (IH (Z.max m x)) as [->|H]; [|right; by right].
  destruct (Z.max_spec m x) as [[_ ->]|[_ ->]]; [right; by left|by left].
Qed.

Lemma foldl_max l m : m <= foldl Z.max m l /\ Forall (fun x => x <= foldl Z.max m l) l.
Proof.
  revert m. induction l as [|x l IH]; intros m; cbn [foldl]; [split; [lia|constructor]|].
  destruct (IH (Z.max m x)) as [H1 H2]. split; [lia|]. constructor; [lia|done].
Qed.

(** *** The names of a partition *)

Section names.
Context {sst : Type} (sst_load : bytes -> expected sst) (filename : sst -> bytes).
Context (f : bytes -> sst) (num : bytes -> Z) (prefix : bytes) (levels : list (list bytes)).
Context (Hprefix : prefix <> [] /\ SEMICOLON ∉ prefix /\ NEWLINE ∉ prefix).
Context (Hnames : Forall (Forall (fun n => 0 <= num n < 2 ^ 64 /\ n = sst_filename prefix (num n))) levels).
Context (Hload : Forall (Forall (fun n => sst_load n = Ok (f n) /\ filename (f n) = n)) levels).

Lemma sst_filename_ok n : name_ok (sst_filename prefix n).
Proof.
  unfold sst_filename, name_ok. destruct Hprefix as (H1 & H2 & H3). split; [by destruct prefix|].
  assert (forall c, c ∈ replicate (6 - length (decimal 20 n)) 48 ++ decimal 20 n -> is_digit c = true) as Hd.
  { apply Forall_forall, Forall_app. split; [apply Forall_replicate; reflexivity|apply decimal_digits]. }
  cbn [app]. split; rewrite elem_of_app, elem_of_cons; intros [Hin|[Hin|Hin]]; try done; by apply Hd in Hin.
Qed.

Lemma names_parse : Forall (Forall (fun n => name_ok n /\ sst_load n = Ok (f n))) levels.
Proof.
  pose proof sst_filename_ok as Hfn. apply Forall_forall. intros l Hl.
  pose proof (proj1 (Forall_forall _ _) Hnames l Hl) as H1. pose proof (proj1 (Forall_forall _ _) Hload l Hl) as H2.
  cbv beta in H1, H2. rewrite Forall_forall in *. intros n Hn. destruct (H1 n Hn) as [_ E].
  split; [|by apply H2]. rewrite E. apply Hfn.
Qed.

Lemma join_fmap : mjoin ((fun l : list bytes => f <$> l) <$> levels) = f <$> mjoin levels.
Proof. clear. induction levels as [|l ls IH]; [done|]. by rewrite fmap_cons, !mjoin_cons, IH, fmap_app. Qed.

Lemma names_flat P : Forall (Forall P) levels -> Forall (P : bytes -> Prop) (mjoin levels).
Proof. clear. induction 1 as [|l ls Hl _ IH]; [constructor|]. rewrite mjoin_cons. by apply Forall_app. Qed.

Lemma max_iteration_names m :
  max_iteration filename (f <$> mjoin levels) m = Some (foldl Z.max m (num <$> mjoin levels)).
Proof.
  apply names_flat in Hnames as H1. apply names_flat in Hload as H2. revert m.
  induction (mjoin levels) as [|n l IH]; intros m; [done|].
  apply Forall_cons in H1 as [[Hn E] H1], H2 as [[_ Hf] H2]. rewrite !fmap_cons. cbn [max_iteration foldl].
  assert (flush_iteration_from_filename (filename (f n)) = Some (num n)) as ->.
  { rewrite Hf, E at 1. apply filename_number; [apply Hprefix|done]. }
  cbn [mbind option_bind]. by apply IH.
Qed.

Lemma filename_fmap : filename <$> (f <$> mjoin levels) = mjoin levels.
Proof.
  apply names_flat in Hload as H2. induction H2 as [|n l [_ Hf] _ IH]; [done|].
  rewrite !fmap_cons. by rewrite Hf, IH.
Qed.
End names.

Lemma serialize_cons levels : exists c s, _serialize_levels levels = c :: s.
Proof.
  destruct (_serialize_levels levels) as [|c s] eqn:E; [|by eauto].
  apply (f_equal length) in E. unfold _serialize_levels, resize in E.
  rewrite length_app, length_take, length_replicate in E. unfold PAGE_SIZE_IN_BYTES, KiB in E. cbn [length] in E. lia.
Qed.

Lemma no_orphans tracked entries :
  Forall (fun e : bytes * bool => e.2 = true -> stem e.1 <> MANIFEST_FILENAME -> e.1 ∈ tracked) entries ->
  _check_orphans tracked entries = ok.
Proof.
  intros H. unfold _check_orphans. assert (orphans tracked entries = []) as ->; [|done].
  unfold orphans. induction H as [|e entries He _ IH]; [done|]. rewrite filter_cons, decide_False; [done|].
  intros (H1 & H2 & H3). auto.
Qed.

Lemma orphan_found (tracked : list bytes) (entries : list (bytes * bool)) (name : bytes) :
  (name, true) ∈ entries -> stem name <> MANIFEST_FILENAME -> name ∉ tracked ->
  _check_orphans tracked entries = Err (generic_error "Orphan SST files detected in partition").
Proof.
  intros Hin Hstem Ht. unfold _check_orphans. assert (name ∈ orphans tracked entries) as Ho.
  { apply list_elem_of_fmap. exists (name, true). split; [done|]. by apply list_elem_of_filter. }
  destruct (orphans tracked entries); [by apply not_elem_of_nil in Ho|done].
Qed.

(** Loading a manifest that fits its page, whatever the directory holds. *)
Lemma load_manifest {sst} (sst_load : bytes -> expected sst) (filename : sst -> bytes)
    (f : bytes -> sst) (num : bytes -> Z) (prefix : bytes) (levels : list (list bytes))
    (state0 : partition_state sst) (entries : list (bytes * bool)) (m : Z) :
  prefix <> [] /\ SEMICOLON ∉ prefix /\ NEWLINE ∉ prefix ->
  Forall (Forall (fun n => 0 <= num n < 2 ^ 64 /\ n = sst_filename prefix (num n))) levels ->
  Forall (Forall (fun n => sst_load n = Ok (f n) /\ filename (f n) = n)) levels ->
  (length (level_lines levels) <= PAGE_SIZE_IN_BYTES)%nat ->
  _load_partition sst_load filename (length levels) state0
      (Some (mk_directory (Some (_serialize_levels levels)) entries)) m
  = Some (match _check_orphans (mjoin levels) entries with
          | Err _ => Err (generic_error "Error while checking orphans")
          | Ok _ => Ok (mk_pstate ((fun l : list bytes => f <$> l) <$> levels) ((fun l => 0 <? length l)%nat <$> levels),
                        foldl Z.max m (num <$> mjoin levels))
          end).
Proof.
  intros Hprefix Hnames Hload Hfit. unfold _load_partition. cbn [dir_manifest dir_entries].
  destruct (serialize_cons levels) as (c & s & E). rewrite E, <- E. unfold _serialize_levels at 1.
  rewrite resize_idem, resize_pad by done. rewrite (parse_lines sst_load f) by (by eapply names_parse).
  rewrite join_fmap, (max_iteration_names sst_load filename f num prefix) by done. cbn [mbind option_bind ps_levels].
  rewrite join_fmap, (filename_fmap sst_load) by done. destruct (_check_orphans _ _); [|done].
  do 4 f_equal. rewrite <- list_fmap_compose. apply list_fmap_ext. intros _ l _. cbn. by rewrite length_fmap.
Qed.

(** ** Properties *)

(** C34: a partition reloads as it was persisted. For SST files named by
    the flush counter, when the lines of the manifest fit its page and the
    directory holds no other regular file, loading gives back every level
    with its files in order, marks as created exactly the levels that are
    not empty, and leaves in the flush counter the largest of its former
    value and the numbers of the files, no more and no less. *)
Theorem partition_reload {sst} (sst_load : bytes -> expected sst) (filename : sst -> bytes)
    (f : bytes -> sst) (num : bytes -> Z) (prefix : bytes) (levels : list (list bytes))
    (state0 : partition_state sst) (entries : list (bytes * bool)) (m : Z)
    (Hprefix : prefix <> [] /\ SEMICOLON ∉ prefix /\ NEWLINE ∉ prefix)
    (Hnames : Forall (Forall (fun n => 0 <= num n < 2 ^ 64 /\ n = sst_filename prefix (num n))) levels)
    (Hload : Forall (Forall (fun n => sst_load n = Ok (f n) /\ filename (f n) = n)) levels)
    (Hfit : (length (level_lines levels) <= PAGE_SIZE_IN_BYTES)%nat)
    (Hdir : Forall (fun e => e.2 = true -> stem e.1 <> MANIFEST_FILENAME -> e.1 ∈ mjoin levels) entries) :
  exists m', _load_partition sst_load filename (length levels) state0
      (Some (mk_directory (Some (_serialize_levels levels)) entries)) m
    = Some (Ok (mk_pstate ((fun l : list bytes => f <$> l) <$> levels) ((fun l => 0 <? length l)%nat <$> levels), m')) /\
    m <= m' /\ Forall (fun n => num n <= m') (mjoin levels) /\ (m' = m \/ exists n, n ∈ mjoin levels /\ m' = num n).
Proof.
  exists (foldl Z.max m (num <$> mjoin levels)). split.
  2:{ destruct (foldl_max (num <$> mjoin levels) m) as [H1 H2]. rewrite Forall_fmap in H2. split; [done|]. split; [done|].
      destruct (foldl_max_in (num <$> mjoin levels) m) as [->|Hin]; [by left|right].
      apply list_elem_of_fmap in Hin as (n & -> & Hn). by exists n. }
  by rewrite (load_manifest sst_load filename f num prefix), no_orphans.
Qed.

Lemma partition_reload_witness :
  let name := sst_filename [48; 102] in
  let levels := [[name 12; name 15]; []; [name 3]] in
  exists m', _load_partition Ok id 3 (mk_pstate [] [])
      (Some (mk_directory (Some (_serialize_levels levels))
        [(name 3, true); (MANIFEST_FILENAME, true); (name 12, true); (name 15, true); ([46], false)])) 0
    = Some (Ok (mk_pstate levels [true; false; true], m')) /\ Forall (fun n => default 0 (flush_iteration_from_filename n) <= m') (mjoin levels).
Proof.
  cbv zeta. set (name := sst_filename [48; 102]).
  destruct (partition_reload Ok id id (fun n => default 0 (flush_iteration_from_filename n)) [48; 102]
    [[name 12; name 15]; []; [name 3]] (mk_pstate [] [])
    [(name 3, true); (MANIFEST_FILENAME, true); (name 12, true); (name 15, true); ([46], false)] 0)
    as (m' & H1 & _ & H3 & _).
  - split; [done|]. split; refine (bool_decide_unpack _ _); vm_compute; exact I.
  - repeat constructor; vm_compute; done.
  - repeat constructor.
  - apply Nat.leb_le. vm_compute. reflexivity.
  - repeat (apply Forall_cons; split); try (by apply Forall_nil); intros H1 H2; try done;
      try (refine (bool_decide_unpack _ _); vm_compute; exact I); by destruct H2.
  - exists m'. split; [exact H1|exact H3].
Defined.

(** C40: a manifest that outgrows its page is cut off. When the line of
    the first level alone takes the whole page, parsing finds no level at
    all, and loading the partition fails as soon as one of its SSTs is in
    the directory, although every file is intact. *)
Theorem manifest_overflow {sst} (sst_load : bytes -> expected sst) (filename : sst -> bytes)
    (l0 : list bytes) (levels : list (list bytes)) (n : nat) (state0 : partition_state sst)
    (entries : list (bytes * bool)) (m : Z) (name : bytes)
    (Hok : Forall name_ok l0) (Hlong : (PAGE_SIZE_IN_BYTES <= length (join_names l0))%nat)
    (Hin : (name, true) ∈ entries) (Hname : stem name <> MANIFEST_FILENAME) :
  _parse_manifest_and_load_ssts sst_load (_serialize_levels (l0 :: levels)) n = Ok (replicate n []) /\
  _load_partition sst_load filename n state0
    (Some (mk_directory (Some (_serialize_levels (l0 :: levels))) entries)) m
  = Some (Err (generic_error "Error while checking orphans")).
Proof.
  assert (forall k, _parse_manifest_and_load_ssts sst_load (_serialize_levels (l0 :: levels)) k = Ok (replicate k [])) as Hp.
  { intros [|k]; [done|]. cbn [_parse_manifest_and_load_ssts]. rewrite find_line_None; [done|].
    unfold _serialize_levels, level_lines. rewrite fmap_cons, mjoin_cons.
    rewrite resize_cut by (rewrite !length_app; lia). rewrite <- app_assoc, take_app_le by lia.
    intros Hx. apply (join_newline l0 Hok). by apply elem_of_take in Hx as (i & Hx & _); apply list_elem_of_lookup_2 in Hx. }
  split; [apply Hp|]. unfold _load_partition. cbn [dir_manifest dir_entries].
  destruct (serialize_cons (l0 :: levels)) as (c & s & E). rewrite E, <- E. unfold _serialize_levels at 1.
  rewrite resize_idem. change (resize (level_lines (l0 :: levels)) PAGE_SIZE_IN_BYTES) with (_serialize_levels (l0 :: levels)).
  rewrite Hp. rewrite mjoin_replicate_nil. cbn [max_iteration mbind option_bind ps_levels].
  rewrite mjoin_replicate_nil. erewrite orphan_found; [done|done|done|apply not_elem_of_nil].
Qed.

(** 342 SSTs with the usual names. *)
Lemma manifest_overflow_witness :
  let name := sst_filename [48; 48; 102; 102] in
  let l0 := (fun i => name (Z.of_nat i)) <$> seq 0 342 in
  _load_partition Ok id 40 (mk_pstate [] [])
    (Some (mk_directory (Some (_serialize_levels [l0])) [(name 0, true)])) 0
  = Some (Err (generic_error "Error while checking orphans")).
Proof.
  cbv zeta. set (l0 := (fun i => sst_filename [48; 48; 102; 102] (Z.of_nat i)) <$> seq 0 342).
  refine (proj2 (manifest_overflow Ok id l0 [] 40 (mk_pstate [] []) _ 0
    (sst_filename [48; 48; 102; 102] 0) _ _ _ _)).
  - apply Forall_fmap, Forall_forall. intros i _. cbn.
    apply (sst_filename_ok (fun _ => 0) [48; 48; 102; 102] []); [|constructor]. split; [done|].
    split; refine (bool_decide_unpack _ _); vm_compute; exact I.
  - apply Nat.leb_le. vm_compute. reflexivity.
  - by left.
  - vm_compute. done.
Defined.
