(* ===== verification/Persist.v ===== *)
(** * Persisting a partition (src/db/sst_manager.cc: the locked part of
      [push_new_ssts_to_l0], the commit of [_make_compaction_task], and
      [_persist_partition_state])

    One partition as a transition system. Flushes and compactions change
    the levels under the exclusive mutex and bump [levels_seq_num]; each
    change then posts a task that writes the manifest. The tasks of
    different changes run at the same time: each takes a snapshot and the
    sequence number, serialises outside any lock, and checks the number
    again under [state_write_mutex] before it writes the page. A
    compaction unlinks its inputs once its task has synced.

    Every access to shared state is one step. A page write is atomic; a
    call of fdatasync makes durable what was written before the call, and
    a crash leaves any of the pages written since. The names in the directory
    are durable on their own: creations and removals of files are logs, of
    which fdatasync of the directory makes durable what happened before the
    call, and a crash keeps or loses each of the later ones. The SSTs are
    their file names, which the flush counter makes unique. *)

From stdpp Require Import base numbers option list sorting strings.
From Stdlib Require Import ZArith Lia.
From S2P Require Import Prelude Types Manifest.

Abbreviation levels_t := (list (list bytes)).

(** ** States *)

(** Where a task is in [_persist_partition_state], and after it in its
    caller. A snapshot comes with the value of [levels_seq_num] it was
    taken at. *)
Inductive persist_pc :=
  | Opening                                  (* before the snapshot *)
  | Snapshotted (snap_gen : nat) (snapshot : levels_t)
  | Locked (snap_gen : nat) (snapshot : levels_t) (* has state_write_mutex *)
  | Stale                                    (* levels_seq_num has moved *)
  | Fresh (gen : nat) (snapshot : levels_t)  (* about to pwrite *)
  | Written                                  (* mutex released *)
  | Syncing (n : nat)                        (* in fdatasync, called at page n *)
  | DirSyncing (created unlinked : nat)      (* in fdatasync of the directory, called after so many creations and removals *)
  | Unlinking                                (* returned ok *)
  | Failed.                                  (* returned an error *)

(** A task, the sequence number its change produced, and the inputs of its
    compaction that are still to be unlinked. *)
Record ptask := mk_ptask { pt_born : nat; pt_inputs : list bytes; pt_pc : persist_pc }.

(** The changes of the directory: the files created and those unlinked, in
    order, and how many of either are durable. *)
Record dir_log := mk_dir {
  d_created : list bytes;
  d_created_synced : nat;
  d_unlinked : list bytes;
  d_unlinked_synced : nat;
}.

Record pstate := mk_pt {
  m_levels : levels_t;                  (* levels *)
  m_seq : nat;                          (* levels_seq_num *)
  m_changing : option (list bytes);     (* the mutex is held: the inputs of the change *)
  m_writer : option nat;                (* the holder of state_write_mutex *)
  m_tasks : list ptask;
  m_versions : list (nat * levels_t);   (* the pages written, with their generation *)
  m_synced : nat;                       (* the first page a crash can leave *)
  m_files : list bytes;                 (* the SST files of the directory, as the program sees it *)
  m_pending : list bytes;               (* complete, not in the levels yet *)
  m_dir : dir_log;
  m_hist : list levels_t;               (* history: the levels at every sequence number *)
}.

(** Every name given so far, and those unlinked. *)
Abbreviation m_used s := (d_created (m_dir s)).
Abbreviation m_unlinked s := (d_unlinked (m_dir s)).

(** ** Steps *)

Definition with_task (s : pstate) (i : nat) (t : ptask) : pstate :=
  mk_pt (m_levels s) (m_seq s) (m_changing s) (m_writer s) (<[i := t]> (m_tasks s)) (m_versions s)
    (m_synced s) (m_files s) (m_pending s) (m_dir s) (m_hist s).

Definition with_writer (s : pstate) (w : option nat) : pstate :=
  mk_pt (m_levels s) (m_seq s) (m_changing s) w (m_tasks s) (m_versions s)
    (m_synced s) (m_files s) (m_pending s) (m_dir s) (m_hist s).

Definition set_pc (t : ptask) (pc : persist_pc) : ptask := mk_ptask (pt_born t) (pt_inputs t) pc.

(** A flush or a merge has written a file under its final name. *)
Definition file_done (s : pstate) (x : bytes) : option pstate :=
  if decide (x ∈ m_used s) then None
  else Some (mk_pt (m_levels s) (m_seq s) (m_changing s) (m_writer s) (m_tasks s) (m_versions s)
    (m_synced s) (m_files s ++ [x]) (m_pending s ++ [x])
    (mk_dir (m_used s ++ [x]) (d_created_synced (m_dir s)) (m_unlinked s) (d_unlinked_synced (m_dir s))) (m_hist s)).

(** The levels change, with the mutex taken. *)
Definition change (s : pstate) (levels : levels_t) (out : bytes) (inputs : list bytes) : option pstate :=
  if decide (m_changing s = None /\ out ∈ m_pending s)
  then Some (mk_pt levels (m_seq s) (Some inputs) (m_writer s) (m_tasks s) (m_versions s)
    (m_synced s) (m_files s) (filter (.≠ out) (m_pending s)) (m_dir s) (m_hist s ++ [levels]))
  else None.

Definition push_name (s : pstate) (x : bytes) : option pstate :=
  match m_levels s !! 0 with
  | Some l0 => change s (<[0 := l0 ++ [x]]> (m_levels s)) x []
  | None => None
  end.

(** The inputs of a compaction are SSTs of its level. *)
Definition commit (s : pstate) (level : nat) (inputs : list bytes) (out : bytes) : option pstate :=
  match m_levels s !! level with
  | Some sst_level =>
      if decide (Forall (.∈ sst_level) inputs) then
        let levels := <[level := filter (.∉ inputs) sst_level]> (m_levels s) in
        let next_level_idx := Nat.min (level + 1) (length levels - 1) in
        change s (alter (fun l => l ++ [out]) next_level_idx levels) out inputs
      else None
  | None => None
  end.

(** [fetch_add] and the end of the locked region; the change posts its
    task. *)
Definition bump_seq (s : pstate) : option pstate :=
  match m_changing s with
  | Some inputs =>
      Some (mk_pt (m_levels s) (S (m_seq s)) None (m_writer s)
        (m_tasks s ++ [mk_ptask (S (m_seq s)) inputs Opening]) (m_versions s)
        (m_synced s) (m_files s) (m_pending s) (m_dir s) (m_hist s))
  | None => None
  end.

Definition write_page (s : pstate) (v : nat * levels_t) : pstate :=
  mk_pt (m_levels s) (m_seq s) (m_changing s) None (m_tasks s) (m_versions s ++ [v])
    (m_synced s) (m_files s) (m_pending s) (m_dir s) (m_hist s).

Definition synced_at (s : pstate) (n : nat) : pstate :=
  mk_pt (m_levels s) (m_seq s) (m_changing s) (m_writer s) (m_tasks s) (m_versions s)
    (Nat.max (m_synced s) n) (m_files s) (m_pending s) (m_dir s) (m_hist s).

(** [fdatasync] of the directory returns. *)
Definition dir_synced (s : pstate) (created unlinked : nat) : pstate :=
  mk_pt (m_levels s) (m_seq s) (m_changing s) (m_writer s) (m_tasks s) (m_versions s)
    (m_synced s) (m_files s) (m_pending s)
    (mk_dir (m_used s) (Nat.max (d_created_synced (m_dir s)) created)
       (m_unlinked s) (Nat.max (d_unlinked_synced (m_dir s)) unlinked)) (m_hist s).

(** No fdatasync of the directory follows. *)
Definition unlink (s : pstate) (x : bytes) : pstate :=
  mk_pt (m_levels s) (m_seq s) (m_changing s) (m_writer s) (m_tasks s) (m_versions s)
    (m_synced s) (filter (.≠ x) (m_files s)) (m_pending s)
    (mk_dir (m_used s) (d_created_synced (m_dir s)) (m_unlinked s ++ [x]) (d_unlinked_synced (m_dir s))) (m_hist s).

(** The next step of task [i]. The snapshot and the second reading take
    the shared mutex, so they wait while a change is in progress; the
    check of the number does not. *)
Definition persist_step (s : pstate) (i : nat) : option pstate :=
  t ← m_tasks s !! i;
  let go s pc := Some (with_task s i (set_pc t pc)) in
  match pt_pc t with
  | Opening =>
      if decide (m_changing s = None) then go s (Snapshotted (m_seq s) (m_levels s)) else None
  | Snapshotted g l =>
      if decide (m_writer s = None) then go (with_writer s (Some i)) (Locked g l) else None
  | Locked g l => if decide (m_seq s = g) then go s (Fresh g l) else go s Stale
  | Stale => if decide (m_changing s = None) then go s (Fresh (m_seq s) (m_levels s)) else None
  | Fresh g l => go (write_page s (g, l)) Written
  | Written => go s (Syncing (length (m_versions s) - 1))
  | Syncing n => go (synced_at s n) (DirSyncing (length (m_used s)) (length (m_unlinked s)))
  | DirSyncing created unlinked => go (dir_synced s created unlinked) Unlinking
  | Unlinking =>
      match pt_inputs t with
      | x :: xs => Some (with_task (unlink s x) i (mk_ptask (pt_born t) xs Unlinking))
      | [] => None
      end
  | Failed => None
  end.

(** Opening the file, writing the page or syncing fails: the error is
    logged, and nothing is unlinked. *)
Definition persist_fail (s : pstate) (i : nat) : option pstate :=
  t ← m_tasks s !! i;
  match pt_pc t with
  | Opening | Syncing _ | DirSyncing _ _ => Some (with_task s i (set_pc t Failed))
  | Fresh _ _ => Some (with_task (with_writer s None) i (set_pc t Failed))
  | _ => None
  end.

Inductive event :=
  | FileDone (x : bytes)
  | PushL0 (x : bytes)
  | Commit (level : nat) (inputs : list bytes) (out : bytes)
  | BumpSeq
  | Persist (i : nat)
  | PersistFail (i : nat).

Definition pstep (s : pstate) (e : event) : option pstate :=
  match e with
  | FileDone x => file_done s x
  | PushL0 x => push_name s x
  | Commit level inputs out => commit s level inputs out
  | BumpSeq => bump_seq s
  | Persist i => persist_step s i
  | PersistFail i => persist_fail s i
  end.

(** A partition that has just been loaded from its manifest, with its
    directory durable. *)
Definition loaded (levels : levels_t) : pstate :=
  mk_pt levels 0 None None [] [(0, levels)] 0 (mjoin levels) []
    (mk_dir (mjoin levels) (length (mjoin levels)) [] 0) [levels].

Inductive reachable (levels : levels_t) : pstate -> Prop :=
  | reach_loaded : reachable levels (loaded levels)
  | reach_step s e s' : reachable levels s -> pstep s e = Some s' -> reachable levels s'.

Fixpoint prun (s : pstate) (es : list event) : option pstate :=
  match es with
  | [] => Some s
  | e :: es => s ← pstep s e; prun s es
  end.

(** What a crash can leave in the manifest. *)
Definition crash_versions (s : pstate) : list (nat * levels_t) := drop (m_synced s) (m_versions s).
Definition crash_levels (s : pstate) : list levels_t := snd <$> crash_versions s.

(** What it can leave in the directory: the files whose creation is durable
    and that were not unlinked, and any of those created whose removal is not
    durable. *)
Definition crash_files (s : pstate) (F : list bytes) : Prop :=
  (forall x, x ∈ take (d_created_synced (m_dir s)) (m_used s) -> x ∉ m_unlinked s -> x ∈ F) /\
  (forall x, x ∈ F -> x ∈ m_used s /\ x ∉ take (d_unlinked_synced (m_dir s)) (m_unlinked s)).

Definition crash_directory (F : list bytes) (levels : levels_t) : directory :=
  mk_directory (Some (_serialize_levels levels)) ((MANIFEST_FILENAME, true) :: ((fun x => (x, true)) <$> F)).

(** No change in progress, and every task has returned ok and unlinked. *)
Definition quiescent (s : pstate) : Prop :=
  m_changing s = None /\ m_pending s = [] /\
  Forall (fun t => pt_pc t = Unlinking /\ pt_inputs t = []) (m_tasks s).

(** ** Names and levels *)

Lemma elem_of_names (ls : levels_t) (x : bytes) :
  x ∈ mjoin ls <-> exists i l, ls !! i = Some l /\ x ∈ l.
Proof.
  rewrite list_elem_of_join. split.
  - intros (l & Hx & Hl). apply list_elem_of_lookup in Hl as [i Hi]. by exists i, l.
  - intros (i & l & Hi & Hx). exists l. split; [done|]. by apply list_elem_of_lookup_2 in Hi.
Qed.

(** A name is in one level only. *)
Definition one_level (ls : levels_t) : Prop :=
  forall i j l l' x, ls !! i = Some l -> ls !! j = Some l' -> x ∈ l -> x ∈ l' -> i = j.

Lemma one_level_NoDup (ls : levels_t) : NoDup (mjoin ls) -> one_level ls.
Proof.
  induction ls as [|h ls IH]; intros Hn i j l l' x Hi Hj Hx Hx'; [done|].
  cbn in Hn. apply NoDup_app in Hn as (_ & Hd & Hn). destruct i as [|i], j as [|j]; cbn in Hi, Hj; simplify_eq; [done| | |].
  - destruct (Hd x Hx). apply elem_of_names. eauto.
  - destruct (Hd x Hx'). apply elem_of_names. eauto.
  - f_equal. by eapply IH.
Qed.

(** Appending a new name to a level. *)
Lemma names_append (ls : levels_t) k out x l :
  ls !! k = Some l -> x ∈ mjoin (<[k := l ++ [out]]> ls) <-> x ∈ mjoin ls \/ x = out.
Proof.
  intros Hk. assert (k < length ls)%nat as Hlt by by eapply lookup_lt_Some.
  rewrite !elem_of_names. split.
  - intros (i & l' & Hi & Hx). destruct (decide (i = k)) as [->|Hne].
    + rewrite list_lookup_insert_eq in Hi by done. simplify_eq. apply elem_of_app in Hx as [Hx|Hx]; [by eauto|].
      apply list_elem_of_singleton in Hx. auto.
    + rewrite list_lookup_insert_ne in Hi by done. eauto.
  - intros [(i & l' & Hi & Hx)| ->].
    + destruct (decide (i = k)) as [->|Hne].
      * exists k, (l ++ [out]). rewrite list_lookup_insert_eq by done. simplify_eq. split; [done|]. apply elem_of_app. by left.
      * exists i, l'. by rewrite list_lookup_insert_ne.
    + exists k, (l ++ [out]). rewrite list_lookup_insert_eq by done. split; [done|]. apply elem_of_app. right. by constructor.
Qed.

Lemma one_level_append (ls : levels_t) k out l :
  ls !! k = Some l -> one_level ls -> out ∉ mjoin ls -> one_level (<[k := l ++ [out]]> ls).
Proof.
  intros Hk Ho Hout. assert (k < length ls)%nat as Hlt by by eapply lookup_lt_Some.
  assert (forall i l' x, <[k := l ++ [out]]> ls !! i = Some l' -> x ∈ l' ->
      (exists l0, ls !! i = Some l0 /\ x ∈ l0) \/ (x = out /\ i = k)) as Hcase.
  { intros i l' x Hi Hx. destruct (decide (i = k)) as [->|Hne].
    - rewrite list_lookup_insert_eq in Hi by done. simplify_eq. apply elem_of_app in Hx as [Hx|Hx]; [by eauto|].
      apply list_elem_of_singleton in Hx. auto.
    - rewrite list_lookup_insert_ne in Hi by done. eauto. }
  intros i j li lj x Hi Hj Hxi Hxj.
  destruct (Hcase _ _ _ Hi Hxi) as [(l1 & H1 & H2)|[-> ->]], (Hcase _ _ _ Hj Hxj) as [(l2 & H3 & H4)|[? ->]]; subst; auto.
  - by eapply Ho.
  - destruct Hout. apply elem_of_names. eauto.
  - destruct Hout. apply elem_of_names. eauto.
Qed.

(** Erasing the inputs of a compaction from their level. *)
Lemma names_erase (ls : levels_t) k (inputs : list bytes) l x :
  ls !! k = Some l -> one_level ls -> Forall (.∈ l) inputs ->
  x ∈ mjoin (<[k := filter (.∉ inputs) l]> ls) <-> x ∈ mjoin ls /\ x ∉ inputs.
Proof.
  intros Hk Ho Hin. assert (k < length ls)%nat as Hlt by by eapply lookup_lt_Some.
  rewrite !elem_of_names. split.
  - intros (i & l' & Hi & Hx). destruct (decide (i = k)) as [->|Hne].
    + rewrite list_lookup_insert_eq in Hi by done. simplify_eq. apply list_elem_of_filter in Hx as [H1 H2]. eauto.
    + rewrite list_lookup_insert_ne in Hi by done. split; [by eauto|]. intros Hx'.
      rewrite Forall_forall in Hin. apply Hne. by eapply Ho; eauto.
  - intros [(i & l' & Hi & Hx) Hnot]. destruct (decide (i = k)) as [->|Hne].
    + exists k, (filter (.∉ inputs) l). rewrite list_lookup_insert_eq by done. simplify_eq. split; [done|].
      by apply list_elem_of_filter.
    + exists i, l'. by rewrite list_lookup_insert_ne.
Qed.

Lemma one_level_erase (ls : levels_t) k (inputs : list bytes) l :
  ls !! k = Some l -> one_level ls -> one_level (<[k := filter (.∉ inputs) l]> ls).
Proof.
  intros Hk Ho. assert (k < length ls)%nat as Hlt by by eapply lookup_lt_Some.
  assert (forall i l' x, <[k := filter (.∉ inputs) l]> ls !! i = Some l' -> x ∈ l' -> exists l0, ls !! i = Some l0 /\ x ∈ l0)
    as Hcase.
  { intros i l' x Hi Hx. destruct (decide (i = k)) as [->|Hne].
    - rewrite list_lookup_insert_eq in Hi by done. simplify_eq. apply list_elem_of_filter in Hx as [_ Hx]. eauto.
    - rewrite list_lookup_insert_ne in Hi by done. eauto. }
  intros i j li lj x Hi Hj Hxi Hxj.
  destruct (Hcase _ _ _ Hi Hxi) as (l1 & H1 & H2), (Hcase _ _ _ Hj Hxj) as (l2 & H3 & H4). by eapply Ho.
Qed.

(** ** The invariant *)

(** Page [n] is of generation [g] or later. *)
Definition covers (s : pstate) (n g : nat) : Prop := exists v, m_versions s !! n = Some v /\ g <= v.1.

Definition taken (s : pstate) (t : ptask) (g : nat) (l : levels_t) : Prop :=
  m_hist s !! g = Some l /\ pt_born t <= g <= m_seq s.

(** From its birth on, no levels name an input of the task. *)
Definition inputs_gone (s : pstate) (t : ptask) : Prop :=
  forall x, x ∈ pt_inputs t -> x ∈ m_used s /\ x ∉ m_pending s /\
    forall g l, pt_born t <= g -> m_hist s !! g = Some l -> x ∉ mjoin l.

(** The files named up to generation [g] are among the first [n] created. *)
Definition created_by (s : pstate) (g n : nat) : Prop :=
  forall g' l x, g' <= g -> m_hist s !! g' = Some l -> x ∈ mjoin l -> x ∈ take n (m_used s).

Definition pc_ok (s : pstate) (i : nat) (t : ptask) : Prop :=
  match pt_pc t with
  | Opening | Failed => True
  | Snapshotted g l => taken s t g l
  | Locked g l => taken s t g l /\ m_writer s = Some i
  | Stale => m_writer s = Some i
  | Fresh g l => taken s t g l /\ m_writer s = Some i /\ Forall (fun v => v.1 <= g) (m_versions s)
  | Written => covers s (length (m_versions s) - 1) (pt_born t)
  | Syncing n => covers s n (pt_born t)
  | DirSyncing created _ => covers s (m_synced s) (pt_born t) /\ created_by s (pt_born t) created
  | Unlinking => covers s (m_synced s) (pt_born t) /\ created_by s (pt_born t) (d_created_synced (m_dir s))
  end.

Record task_ok (s : pstate) (i : nat) (t : ptask) : Prop := {
  to_born : pt_born t <= m_seq s;
  to_inputs : inputs_gone s t;
  to_pc : pc_ok s i t;
}.

(** Where a file of the directory belongs. *)
Definition accounted (s : pstate) (x : bytes) : Prop :=
  x ∈ mjoin (m_levels s) \/ x ∈ m_pending s \/
  (exists inputs, m_changing s = Some inputs /\ x ∈ inputs) \/
  exists i t, m_tasks s !! i = Some t /\ x ∈ pt_inputs t.

Record inv (s : pstate) : Prop := {
  i_last : last (m_hist s) = Some (m_levels s);
  i_len : length (m_hist s) = (S (m_seq s) + match m_changing s with Some _ => 1 | None => 0 end)%nat;
  i_used : forall x, x ∈ mjoin (m_levels s) \/ x ∈ m_pending s \/ x ∈ m_files s -> x ∈ m_used s;
  i_unique : one_level (m_levels s);
  i_new : forall x, x ∈ m_pending s -> x ∉ mjoin (m_levels s) /\ x ∈ m_files s;
  i_versions : forall n v, m_versions s !! n = Some v -> m_hist s !! v.1 = Some v.2 /\ v.1 <= m_seq s;
  i_sorted : forall n k v w, n <= k -> m_versions s !! n = Some v -> m_versions s !! k = Some w -> v.1 <= w.1;
  i_synced : m_synced s < length (m_versions s);
  i_live : forall v g l, m_versions s !! m_synced s = Some v -> v.1 <= g -> m_hist s !! g = Some l ->
    forall x, x ∈ mjoin l -> x ∈ m_files s;
  i_tasks : forall i t, m_tasks s !! i = Some t -> task_ok s i t;
  i_changing : forall inputs x, m_changing s = Some inputs -> x ∈ inputs ->
    x ∈ m_used s /\ x ∉ m_pending s /\ x ∉ mjoin (m_levels s);
  i_births : forall g, 0 < g <= m_seq s -> exists i t, m_tasks s !! i = Some t /\ pt_born t = g;
  i_accounted : forall x, x ∈ m_files s -> accounted s x;
  i_old : forall g l x, m_hist s !! g = Some l -> x ∈ mjoin l -> x ∈ m_used s /\ x ∉ m_pending s;
  i_dir : forall x, x ∈ m_files s <-> x ∈ m_used s /\ x ∉ m_unlinked s;
  i_unlinked : forall x, x ∈ m_unlinked s -> x ∈ m_used s;
  i_start : created_by s 0 (d_created_synced (m_dir s));
}.

(** The loaded state. *)
Lemma inv_loaded levels : NoDup (mjoin levels) -> inv (loaded levels).
Proof.
  intros Hn. split; cbn; try done.
  - intros x [?|[H|?]]; [done|by apply elem_of_nil in H|done].
  - by apply one_level_NoDup.
  - intros x H. by apply elem_of_nil in H.
  - intros [|n] v Hv; [|done]. injection Hv as <-. cbn. split; [done|lia].
  - intros [|n] [|k] v w _ Hv Hw; try done. injection Hv as <-. injection Hw as <-. done.
  - lia.
  - intros v [|g] l _ _ Hl; [|done]. by injection Hl as <-.
  - lia.
  - by left.
  - intros [|g] l x Hl Hx; [|done]. injection Hl as <-. split; [done|apply not_elem_of_nil].
  - intros x. pose proof (not_elem_of_nil x). tauto.
  - intros x H. by apply elem_of_nil in H.
  - intros [|g] l x Hg Hl Hx; [|done]. injection Hl as <-. cbn. by rewrite firstn_all.
Qed.

(** ** Steps preserve the invariant *)

(** What a step may change that a task at rest depends on. *)
Record extends (s s' : pstate) : Prop := {
  e_versions : m_versions s `prefix_of` m_versions s';
  e_hist : exists h, m_hist s' = m_hist s ++ h /\ forall l x, l ∈ h ->
    x ∈ m_used s -> x ∉ m_pending s -> x ∉ mjoin (m_levels s) -> x ∉ mjoin l;
  e_seq : m_seq s <= m_seq s';
  e_synced : m_synced s <= m_synced s' < length (m_versions s');
  e_used : forall x, x ∈ m_used s -> x ∈ m_used s' /\ (x ∉ m_pending s -> x ∉ m_pending s');
  e_created : m_used s `prefix_of` m_used s' /\ d_created_synced (m_dir s) <= d_created_synced (m_dir s');
  e_sorted : forall n k v w, n <= k -> m_versions s' !! n = Some v -> m_versions s' !! k = Some w -> v.1 <= w.1;
}.

Lemma extends_refl s : inv s -> extends s s.
Proof.
  intros Hi. split; [done| |done|split; [done|apply Hi]|done|done|apply Hi].
  exists []. rewrite app_nil_r. split; [done|]. intros l x H. by apply elem_of_nil in H.
Qed.

(** A page at or after a covering one covers too. *)
Lemma covers_extends s s' n n' g :
  extends s s' -> covers s n g -> n <= n' < length (m_versions s') -> covers s' n' g.
Proof.
  intros He (v & Hv & Hg) [Hle Hlt]. apply lookup_lt_is_Some in Hlt as [w Hw]. exists w. split; [done|].
  assert (v.1 <= w.1); [|lia]. eapply (e_sorted _ _ He n n'); [done| |done]. by eapply prefix_lookup_Some; [|apply He].
Qed.

(** What is named and created stays so. *)
Lemma elem_of_take_mono (l : list bytes) n k x : n <= k -> x ∈ take n l -> x ∈ take k l.
Proof.
  intros Hle Hx. apply elem_of_take in Hx as (i & Hi & Hlt). apply elem_of_take. exists i. split; [done|lia].
Qed.

Lemma created_by_extends s s' g n n' :
  inv s -> extends s s' -> g <= m_seq s -> n <= n' -> created_by s g n -> created_by s' g n'.
Proof.
  intros Hi He Hg Hn Hc g' l x Hle Hl Hx. destruct (e_hist _ _ He) as (h & Eh & _). rewrite Eh in Hl.
  rewrite lookup_app_l in Hl by (rewrite (i_len _ Hi); lia). specialize (Hc g' l x Hle Hl Hx).
  destruct (e_created _ _ He) as [[k ->] _]. rewrite take_app. apply elem_of_app. left. by eapply elem_of_take_mono.
Qed.

Lemma covers_lt s n g : covers s n g -> n < length (m_versions s).
Proof. intros (v & Hv & _). by eapply lookup_lt_Some. Qed.

(** The current levels are the last of the history. *)
Lemma hist_last s : inv s -> m_hist s !! (length (m_hist s) - 1) = Some (m_levels s).
Proof.
  intros Hi. rewrite <- (i_last _ Hi), last_lookup. f_equal. pose proof (i_len _ Hi). lia.
Qed.

Lemma hist_current s : inv s -> m_changing s = None -> m_hist s !! m_seq s = Some (m_levels s).
Proof. intros Hi Hc. rewrite <- (hist_last s Hi). f_equal. rewrite (i_len _ Hi), Hc. lia. Qed.

Lemma inputs_gone_extends s s' t :
  inv s -> extends s s' -> pt_born t <= m_seq s -> inputs_gone s t -> inputs_gone s' t.
Proof.
  intros Hi He Hb Hg x Hx. destruct (Hg x Hx) as (H1 & H2 & H3). destruct (e_used _ _ He x H1) as [H4 H5].
  split; [done|]. split; [by apply H5|]. destruct (e_hist _ _ He) as (h & Eh & Hh). intros g l Hle Hl. rewrite Eh in Hl.
  apply lookup_app_Some in Hl as [Hl|[_ Hl]]; [by eapply H3|]. apply list_elem_of_lookup_2 in Hl.
  eapply Hh; [done..|]. eapply H3; [|by apply hist_last]. pose proof (i_len _ Hi). lia.
Qed.

(** A task that does not move stays right, if its mutex is not taken away
    and no page is written while it holds the mutex. *)
Lemma task_ok_extends s s' j t :
  inv s -> extends s s' -> (m_writer s = Some j -> m_writer s' = Some j /\ m_versions s' = m_versions s) ->
  task_ok s j t -> task_ok s' j t.
Proof.
  intros Hi He Hw [Hb Hg Hp]. pose proof (e_seq _ _ He). pose proof (e_synced _ _ He).
  destruct (e_versions _ _ He) as [k Ek]. pose proof (length_app (m_versions s) k) as Hlen. rewrite <- Ek in Hlen.
  assert (forall g l, taken s t g l -> taken s' t g l) as Ht.
  { intros g l [H1 H2]. split; [|lia]. destruct (e_hist _ _ He) as (h & -> & _). by apply lookup_app_l_Some. }
  split; [lia|by eapply inputs_gone_extends|]. unfold pc_ok in *. destruct (pt_pc t) eqn:E; auto.
  - destruct Hp as [H1 H2]. split; [by auto|]. by apply Hw.
  - by apply Hw.
  - destruct Hp as (H1 & H2 & H3). destruct (Hw H2) as [H4 ->]. auto.
  - pose proof (covers_lt _ _ _ Hp). eapply covers_extends; [done..|]. lia.
  - pose proof (covers_lt _ _ _ Hp). eapply covers_extends; [done..|]. lia.
  - destruct Hp as [H1 H2]. split; [eapply covers_extends; [done..|]; lia|by eapply created_by_extends].
  - destruct Hp as [H1 H2]. split; [eapply covers_extends; [done..|]; lia|]. eapply created_by_extends; [done..| |done]. apply He.
Qed.

(** A step of task [i] that moves the mutex, the pages, the synced page or
    what is durable of the directory. *)
Definition moved (s : pstate) (w : option nat) (vs : list (nat * levels_t)) (sy c u : nat) : pstate :=
  mk_pt (m_levels s) (m_seq s) (m_changing s) w (m_tasks s) vs sy (m_files s) (m_pending s)
    (mk_dir (m_used s) c (m_unlinked s) u) (m_hist s).

(** The pages after the step: the same, or one more by the task that holds
    the mutex. *)
Definition pages_ok (s : pstate) (t : ptask) (vs : list (nat * levels_t)) : Prop :=
  vs = m_versions s \/ exists g l, pt_pc t = Fresh g l /\ vs = m_versions s ++ [(g, l)].

Lemma pages_spec s i t vs :
  inv s -> m_tasks s !! i = Some t -> pages_ok s t vs ->
  m_versions s `prefix_of` vs /\
  (forall n v, vs !! n = Some v -> m_hist s !! v.1 = Some v.2 /\ v.1 <= m_seq s) /\
  (forall n k v w, n <= k -> vs !! n = Some v -> vs !! k = Some w -> v.1 <= w.1).
Proof.
  intros Hi Ht [->|(g & l & Hpc & ->)]; [split; [done|]; split; apply Hi|].
  destruct (i_tasks _ Hi i t Ht) as [_ _ Hp]. unfold pc_ok in Hp. rewrite Hpc in Hp. destruct Hp as ([H1 H2] & _ & H3).
  split; [by apply prefix_app_r|]. split.
  - intros n v [Hv|[_ Hv]]%lookup_app_Some; [by eapply i_versions|]. apply list_lookup_singleton_Some in Hv as [_ <-].
    cbn. split; [done|lia].
  - intros n k v w Hle Hv Hw. rewrite Forall_lookup in H3.
    apply lookup_app_Some in Hv as [Hv|[Hn Hv]], Hw as [Hw|[Hk Hw]].
    + by eapply (i_sorted _ Hi n k).
    + apply list_lookup_singleton_Some in Hw as [_ <-]. by eapply H3.
    + apply lookup_lt_Some in Hw. lia.
    + apply list_lookup_singleton_Some in Hv as [_ <-], Hw as [_ <-]. done.
Qed.

Lemma accounted_mono s s' x :
  m_levels s' = m_levels s -> m_pending s' = m_pending s -> m_changing s' = m_changing s ->
  (forall j t, m_tasks s !! j = Some t -> x ∈ pt_inputs t -> exists j' t', m_tasks s' !! j' = Some t' /\ x ∈ pt_inputs t') ->
  accounted s x -> accounted s' x.
Proof.
  intros E1 E2 E3 Ht [H|[H|[H|(j & t & H1 & H2)]]]; unfold accounted; rewrite E1, E2, E3; [auto..|].
  destruct (Ht j t H1 H2) as (j' & t' & ? & ?). do 3 right. eauto.
Qed.

(** A task found after one task was replaced. *)
Lemma insert_task (ts : list ptask) i t t' j u :
  ts !! i = Some t -> <[i := t']> ts !! j = Some u -> (j = i /\ u = t') \/ (j <> i /\ ts !! j = Some u).
Proof.
  intros Ht Hu. destruct (decide (j = i)) as [->|Hne].
  - rewrite list_lookup_insert_eq in Hu by (by eapply lookup_lt_Some). simplify_eq. auto.
  - rewrite list_lookup_insert_ne in Hu by done. auto.
Qed.

Lemma insert_task_self (ts : list ptask) i t t' :
  ts !! i = Some t -> <[i := t']> ts !! i = Some t'.
Proof. intros Ht. apply list_lookup_insert_eq. by eapply lookup_lt_Some. Qed.

Lemma inv_moved s w vs sy c u i t pc :
  inv s -> m_tasks s !! i = Some t -> pages_ok s t vs -> m_synced s <= sy < length vs -> d_created_synced (m_dir s) <= c ->
  (forall j, j <> i -> m_writer s = Some j -> w = Some j /\ vs = m_versions s) ->
  pc_ok (moved s w vs sy c u) i (set_pc t pc) ->
  inv (with_task (moved s w vs sy c u) i (set_pc t pc)).
Proof.
  intros Hi Ht Hvs Hsy Hc Hw Hp. destruct (pages_spec _ _ _ _ Hi Ht Hvs) as (Hpre & Hver & Hsort).
  assert (extends s (with_task (moved s w vs sy c u) i (set_pc t pc))) as He.
  { destruct (extends_refl s Hi) as [_ H2 H3 _ H5 _ _]. by split. }
  destruct (i_tasks _ Hi i t Ht) as [Hb Hg _].
  split; try (by apply Hi); cbn; [done|done|lia| | | | |].
  - intros v g l Hv Hle Hl. destruct (lookup_lt_is_Some_2 (m_versions s) (m_synced s) (i_synced _ Hi)) as [v0 Hv0].
    eapply (i_live _ Hi v0 g); [done| |done]. assert (v0.1 <= v.1); [|lia].
    eapply (Hsort (m_synced s) sy); [lia| |done]. by eapply prefix_lookup_Some.
  - intros j v Hv. destruct (insert_task _ _ _ _ _ _ Ht Hv) as [[-> ->]|[Hne Hj]].
    + split; [done|done|exact Hp].
    + apply (task_ok_extends s); [done|done|by apply Hw|by apply (i_tasks _ Hi)].
  - intros g Hgr. destruct (i_births _ Hi g Hgr) as (j & ut & Hj & Hu). destruct (decide (j = i)) as [->|Hne].
    + exists i, (set_pc t pc). rewrite (insert_task_self _ _ t) by done. by simplify_eq.
    + exists j, ut. by rewrite list_lookup_insert_ne.
  - intros x Hx. apply (accounted_mono s); [done..| |by apply (i_accounted _ Hi)]. intros j v Hj Hv. cbn.
    destruct (decide (j = i)) as [->|Hne]; [|exists j, v; by rewrite list_lookup_insert_ne].
    exists i, (set_pc t pc). rewrite (insert_task_self _ _ t) by done. by simplify_eq.
  - eapply (created_by_extends s); [done|done|lia|exact Hc|apply Hi].
Qed.

(** Unlinking an input. *)
Lemma inv_unlink s i t x xs :
  inv s -> m_tasks s !! i = Some t -> pt_pc t = Unlinking -> pt_inputs t = x :: xs ->
  inv (with_task (unlink s x) i (mk_ptask (pt_born t) xs Unlinking)).
Proof.
  intros Hi Ht Hpc Hin. destruct (i_tasks _ Hi i t Ht) as [Hb Hg Hp]. unfold pc_ok in Hp. rewrite Hpc in Hp.
  destruct (Hg x ltac:(rewrite Hin; left)) as (Hux & Hpx & Hlx).
  set (s' := with_task (unlink s x) i (mk_ptask (pt_born t) xs Unlinking)).
  assert (extends s s') as He by (destruct (extends_refl s Hi); by split). destruct Hp as [Hp Hcr].
  split; try (by apply Hi); cbn.
  - intros y [?|[?|[_ ?]%list_elem_of_filter]]; apply Hi; auto.
  - intros y Hy. destruct (i_new _ Hi y Hy) as [? ?]. split; [done|]. apply list_elem_of_filter. split; [|done].
    intros ->. done.
  - intros v g l Hv Hle Hl y Hy. apply list_elem_of_filter. split; [|by eapply (i_live _ Hi)]. intros ->.
    destruct Hp as (v' & Hv' & Hbv). simplify_eq. eapply (Hlx g l); [lia|done|done].
  - intros j u Hu. destruct (insert_task _ _ _ _ _ _ Ht Hu) as [[-> ->]|[Hne Hj]].
    + split; [done| |by split]. intros y Hy. apply Hg. rewrite Hin. by right.
    + apply (task_ok_extends s); [done|done|done|by apply (i_tasks _ Hi)].
  - intros g Hgr. destruct (i_births _ Hi g Hgr) as (j & u & Hj & Hu). destruct (decide (j = i)) as [->|Hne].
    + eexists i, _. rewrite (insert_task_self _ _ t) by done. by simplify_eq.
    + exists j, u. by rewrite list_lookup_insert_ne.
  - intros y [Hne Hy]%list_elem_of_filter. apply (accounted_mono s); [done..| |by apply (i_accounted _ Hi)].
    intros j u Hj Hu. cbn. destruct (decide (j = i)) as [->|Hji]; [|exists j, u; by rewrite list_lookup_insert_ne].
    eexists i, _. rewrite (insert_task_self _ _ t) by done. simplify_eq. split; [done|]. cbn.
    rewrite Hin in Hu. by apply elem_of_cons in Hu as [?|?].
  - intros y. rewrite list_elem_of_filter, (i_dir _ Hi), elem_of_app, list_elem_of_singleton. tauto.
  - intros y [?| ->%list_elem_of_singleton]%elem_of_app; [by apply (i_unlinked _ Hi)|done].
Qed.

(** A new file. *)
Lemma inv_file_done s x s' : inv s -> file_done s x = Some s' -> inv s'.
Proof.
  intros Hi. unfold file_done. destruct (decide (x ∈ m_used s)) as [|Hx]; [done|]. intros [= <-].
  assert (forall y, y ∈ m_used s -> y <> x) as Hne by (intros y Hy ->; done).
  assert (forall y, y ∈ m_pending s ++ [x] -> y ∈ m_pending s \/ y = x) as Hpend.
  { intros y [?|Hy%list_elem_of_singleton]%elem_of_app; auto. }
  split; try (by apply Hi); cbn.
  - intros y H. apply elem_of_app. rewrite list_elem_of_singleton. destruct (decide (y = x)); [by right|left]. apply Hi.
    rewrite !elem_of_app, list_elem_of_singleton in H. naive_solver.
  - intros y Hy. rewrite elem_of_app, list_elem_of_singleton. destruct (Hpend y Hy) as [H| ->].
    + destruct (i_new _ Hi y H). auto.
    + split; [|by right]. intros H. apply Hx. apply Hi. by left.
  - intros v g l Hv Hle Hl y Hy. apply elem_of_app. left. by eapply i_live.
  - intros j t Hj. eapply (task_ok_extends s); [done| |done|by apply i_tasks].
    destruct (extends_refl s Hi) as [H1 H2 H3 H4 _ H6 H7]. split; try done; cbn.
    + intros y Hy. split; [apply elem_of_app; by left|]. intros Hn [?| ->]%Hpend; [done|]. by apply (Hne x).
    + split; [by apply prefix_app_r|done].
  - intros inputs y Hc Hy. destruct (i_changing _ Hi inputs y Hc Hy) as (H1 & H2 & H3). split; [apply elem_of_app; by left|]. split; [|done].
    intros [?| ->]%Hpend; [done|]. by apply (Hne x).
  - intros y [Hy| ->%list_elem_of_singleton]%elem_of_app; unfold accounted; cbn.
    + destruct (i_accounted _ Hi y Hy) as [?|[?|?]]; [by left| |by do 2 right]. right; left. apply elem_of_app. by left.
    + right; left. apply elem_of_app. right. by left.
  - intros g l y Hl Hy. destruct (i_old _ Hi g l y Hl Hy) as [H1 H2]. split; [apply elem_of_app; by left|].
    intros [?| ->]%Hpend; [done|]. by apply (Hne x).
  - intros y. rewrite !elem_of_app, !list_elem_of_singleton, (i_dir _ Hi). split; [|tauto].
    intros [?| ->]; [tauto|]. split; [by right|]. intros H. by apply Hx, (i_unlinked _ Hi).
  - intros y H. apply elem_of_app. left. by apply (i_unlinked _ Hi).
  - intros g l y Hg Hl Hy. cbn. rewrite take_app. apply elem_of_app. left. by eapply (i_start _ Hi).
Qed.

(** New levels: those before, less the inputs, and the new file. *)
Lemma inv_change s levels out inputs s' :
  inv s -> change s levels out inputs = Some s' ->
  (forall x, x ∈ mjoin levels <-> (x ∈ mjoin (m_levels s) /\ x ∉ inputs) \/ x = out) ->
  one_level levels -> (forall x, x ∈ inputs -> x ∈ mjoin (m_levels s)) -> inv s'.
Proof.
  intros Hi Hc Hnames Hone Hin. unfold change in Hc. destruct (decide _) as [[Hfree Hout]|]; [|done].
  injection Hc as <-. destruct (i_new _ Hi out Hout) as [Hnew Hfile].
  assert (forall y, y ∈ filter (.≠ out) (m_pending s) -> y ∈ m_pending s /\ y <> out) as Hpend.
  { intros y [? ?]%list_elem_of_filter. done. }
  assert (length (m_hist s) = S (m_seq s)) as Hlen by (rewrite (i_len _ Hi), Hfree; lia).
  split; try (by apply Hi); cbn.
  - by rewrite last_snoc.
  - rewrite length_app. cbn. lia.
  - intros y Hy. apply Hi. rewrite Hnames in Hy. naive_solver.
  - done.
  - intros y [Hy Hne]%Hpend. rewrite Hnames. destruct (i_new _ Hi y Hy). split; [naive_solver|done].
  - intros n v Hv. destruct (i_versions _ Hi n v Hv) as [H1 H2]. split; [|done]. by apply lookup_app_l_Some.
  - intros v g l Hv Hle [Hl|[_ Hl]]%lookup_app_Some y Hy; [by eapply (i_live _ Hi v g l)|].
    apply list_lookup_singleton_Some in Hl as [_ <-]. rewrite Hnames in Hy. destruct Hy as [[Hy _]| ->]; [|done].
    eapply (i_live _ Hi v (m_seq s)); [done| |by apply hist_current|done]. by eapply (i_versions _ Hi).
  - intros j t Hj. eapply (task_ok_extends s); [done| |done|by apply i_tasks].
    destruct (extends_refl s Hi) as [H1 _ H3 H4 H5 H6 H7]. split; try done; cbn.
    + exists [levels]. split; [done|]. intros l x ->%list_elem_of_singleton Hu Hp Hl. rewrite Hnames.
      intros [[? ?]| ->]; done.
    + intros y Hy. split; [done|]. intros Hn [? ?]%Hpend. done.
  - intros ins y [= <-] Hy. specialize (Hin y Hy). split; [apply Hi; by left|]. split.
    + intros [H _]%Hpend. by destruct (i_new _ Hi y H).
    + rewrite Hnames. intros [[_ ?]| ->]; done.
  - intros y Hy. unfold accounted. cbn. rewrite Hnames. destruct (i_accounted _ Hi y Hy) as [H|[H|[H|H]]].
    + destruct (decide (y ∈ inputs)); [|by auto]. right; right; left. eauto.
    + destruct (decide (y = out)); [by auto|]. right; left. by apply list_elem_of_filter.
    + rewrite Hfree in H. by destruct H as (? & ? & _).
    + by do 3 right.
  - intros g l y [Hl|[_ Hl]]%lookup_app_Some Hy.
    + destruct (i_old _ Hi g l y Hl Hy) as [H1 H2]. split; [done|]. by intros [? _]%Hpend.
    + apply list_lookup_singleton_Some in Hl as [_ <-]. rewrite Hnames in Hy. destruct Hy as [[Hy _]| ->].
      * split; [apply Hi; by left|]. intros [H _]%Hpend. by destruct (i_new _ Hi y H).
      * split; [apply Hi; auto|]. by intros [_ H]%Hpend.
  - intros g l y Hg Hl Hy. cbn in *. rewrite lookup_app_l in Hl by lia. by eapply (i_start _ Hi).
Qed.

Lemma inv_push_name s x s' : inv s -> push_name s x = Some s' -> inv s'.
Proof.
  intros Hi. unfold push_name. destruct (m_levels s !! 0) as [l0|] eqn:E; [|done]. intros Hc.
  assert (x ∈ m_pending s) as Hx by (unfold change in Hc; destruct (decide _) as [[_ ?]|]; done).
  destruct (i_new _ Hi x Hx) as [Hn _]. eapply inv_change; [done..| | |].
  - intros y. rewrite (names_append _ _ _ _ _ E), elem_of_nil. naive_solver.
  - apply one_level_append; [done|apply Hi|done].
  - intros y H. by apply elem_of_nil in H.
Qed.

Lemma inv_commit s level inputs out s' : inv s -> commit s level inputs out = Some s' -> inv s'.
Proof.
  intros Hi. unfold commit. destruct (m_levels s !! level) as [l|] eqn:E; [|done].
  destruct (decide (Forall _ inputs)) as [Hf|]; [|done]. cbv zeta. intros Hc.
  set (ls := <[level := filter (.∉ inputs) l]> (m_levels s)) in *.
  assert (out ∈ m_pending s) as Hx by (unfold change in Hc; destruct (decide _) as [[_ ?]|]; done).
  destruct (i_new _ Hi out Hx) as [Hn _].
  assert (forall x, x ∈ mjoin ls <-> x ∈ mjoin (m_levels s) /\ x ∉ inputs) as Hls.
  { intros x. apply names_erase; [done|apply Hi|done]. }
  assert (length ls = length (m_levels s)) as Hlen by apply length_insert.
  assert (Nat.min (level + 1) (length ls - 1) < length ls) as Hlt.
  { apply lookup_lt_Some in E. lia. }
  apply lookup_lt_is_Some in Hlt as [lk Hk].
  assert (alter (fun l => l ++ [out]) (Nat.min (level + 1) (length ls - 1)) ls
    = <[Nat.min (level + 1) (length ls - 1) := lk ++ [out]]> ls) as Ea.
  { apply list_eq. intros j. destruct (decide (j = Nat.min (level + 1) (length ls - 1))) as [->|Hne].
    - rewrite list_lookup_alter_eq, Hk, list_lookup_insert_eq by (by eapply lookup_lt_Some). done.
    - by rewrite list_lookup_alter_ne, list_lookup_insert_ne. }
  rewrite Ea in Hc. eapply inv_change; [done..| | |].
  - intros y. by rewrite (names_append _ _ _ _ _ Hk), Hls.
  - apply one_level_append; [done|exact (one_level_erase _ _ inputs _ E (i_unique _ Hi))|]. rewrite Hls. by intros [? _].
  - intros y Hy. apply elem_of_names. exists level, l. split; [done|]. rewrite Forall_forall in Hf. by apply Hf.
Qed.

Lemma inv_bump s s' : inv s -> bump_seq s = Some s' -> inv s'.
Proof.
  intros Hi. unfold bump_seq. destruct (m_changing s) as [inputs|] eqn:Hc; [|done]. intros [= <-].
  assert (length (m_hist s) = S (S (m_seq s))) as Hlen by (rewrite (i_len _ Hi), Hc; lia).
  split; try (by apply Hi); cbn.
  - lia.
  - intros n v Hv. destruct (i_versions _ Hi n v Hv). split; [done|lia].
  - intros j t [Hj|[_ Hj]]%lookup_app_Some.
    + eapply (task_ok_extends s); [done| |done|by apply i_tasks].
      destruct (extends_refl s Hi) as [H1 H2 _ H4 H5 H6 H7]. split; try done. cbn. lia.
    + apply list_lookup_singleton_Some in Hj as [_ <-]. split; cbn; [done| |done].
      intros x Hx. destruct (i_changing _ Hi inputs x Hc Hx) as (H1 & H2 & H3). split; [done|]. split; [done|]. cbn.
      intros g l Hle Hl. assert (g = length (m_hist s) - 1) as -> by (apply lookup_lt_Some in Hl; lia).
      rewrite hist_last in Hl by done. by injection Hl as <-.
  - done.
  - intros g Hg. destruct (decide (g = S (m_seq s))) as [->|Hne].
    + exists (length (m_tasks s)), (mk_ptask (S (m_seq s)) inputs Opening). split; [|done]. by rewrite list_lookup_middle.
    + destruct (i_births _ Hi g ltac:(lia)) as (j & t & Hj & Ht). exists j, t. split; [|done]. by apply lookup_app_l_Some.
  - intros y Hy. unfold accounted. cbn. destruct (i_accounted _ Hi y Hy) as [H|[H|[(ins & H1 & H2)|(j & t & H1 & H2)]]].
    + by left.
    + by right; left.
    + do 3 right. rewrite Hc in H1. injection H1 as <-. exists (length (m_tasks s)), (mk_ptask (S (m_seq s)) inputs Opening).
      split; [|done]. by rewrite list_lookup_middle.
    + do 3 right. exists j, t. split; [|done]. by apply lookup_app_l_Some.
Qed.

(** A task moves without touching the pages. *)
Lemma inv_pc s w i t pc :
  inv s -> m_tasks s !! i = Some t -> (forall j, j <> i -> m_writer s = Some j -> w = Some j) ->
  pc_ok (with_writer s w) i (set_pc t pc) -> inv (with_task (with_writer s w) i (set_pc t pc)).
Proof.
  intros Hi Ht Hw Hp.
  assert (forall w, moved s w (m_versions s) (m_synced s) (d_created_synced (m_dir s)) (d_unlinked_synced (m_dir s)) = with_writer s w) as E.
  { intros w'. unfold moved, with_writer. by destruct (m_dir s). }
  rewrite <- E in Hp |- *. refine (inv_moved s w (m_versions s) (m_synced s) _ _ i t pc Hi Ht _ _ _ _ Hp).
  - by left.
  - split; [done|apply Hi].
  - done.
  - intros j Hne Hj. split; [by apply Hw|done].
Qed.

(** ... nor the mutex. *)
Lemma inv_pc_only s i t pc :
  inv s -> m_tasks s !! i = Some t -> pc_ok s i (set_pc t pc) -> inv (with_task s i (set_pc t pc)).
Proof. intros Hi Ht Hp. exact (inv_pc s (m_writer s) i t pc Hi Ht (fun j _ H => H) Hp). Qed.

(** The versions are no newer than the sequence number. *)
Lemma versions_old s : inv s -> Forall (fun v => v.1 <= m_seq s) (m_versions s).
Proof. intros Hi. apply Forall_lookup. intros n v Hv. by apply (i_versions _ Hi n v). Qed.

(** The new page covers its task; the pages the task has seen cover it
    when they are durable. *)
Lemma inv_write s i t g l :
  inv s -> m_tasks s !! i = Some t -> pt_pc t = Fresh g l ->
  inv (with_task (write_page s (g, l)) i (set_pc t Written)).
Proof.
  intros Hi Ht Hpc. destruct (i_tasks _ Hi i t Ht) as [_ _ Hp]. unfold pc_ok in Hp. rewrite Hpc in Hp.
  destruct Hp as ([_ [H2 _]] & H3 & _).
  assert (write_page s (g, l) = moved s None (m_versions s ++ [(g, l)]) (m_synced s) (d_created_synced (m_dir s)) (d_unlinked_synced (m_dir s))) as ->
    by (unfold moved, write_page; by destruct (m_dir s)).
  apply inv_moved; [done|done| | |done| |].
  - right. eauto.
  - rewrite length_app. pose proof (i_synced _ Hi). lia.
  - intros j Hne Hj. congruence.
  - exists (g, l). cbn. split; [|done]. rewrite length_app. cbn. replace (_ + 1 - 1) with (length (m_versions s)) by lia.
    by rewrite list_lookup_middle.
Qed.

(** The synced page covers the task; whatever was named up to then has been
    created before the directory is synced. *)
Lemma inv_synced s i t n :
  inv s -> m_tasks s !! i = Some t -> pt_pc t = Syncing n ->
  inv (with_task (synced_at s n) i (set_pc t (DirSyncing (length (m_used s)) (length (m_unlinked s))))).
Proof.
  intros Hi Ht Hpc. destruct (i_tasks _ Hi i t Ht) as [_ _ Hp]. unfold pc_ok in Hp. rewrite Hpc in Hp.
  pose proof (covers_lt _ _ _ Hp). pose proof (i_synced _ Hi).
  assert (synced_at s n = moved s (m_writer s) (m_versions s) (Nat.max (m_synced s) n) (d_created_synced (m_dir s)) (d_unlinked_synced (m_dir s))) as ->
    by (unfold moved, synced_at; by destruct (m_dir s)).
  apply inv_moved; [done|done|by left|lia|done|done|]. split.
  - destruct (covers_extends s s n (Nat.max (m_synced s) n) (pt_born t)) as (v & Hv & Hb);
      [by apply extends_refl|done|lia|]. by exists v.
  - intros g' l x _ Hl Hx. cbn. rewrite firstn_all. by eapply (i_old _ Hi).
Qed.

Lemma inv_dir_synced s i t c u :
  inv s -> m_tasks s !! i = Some t -> pt_pc t = DirSyncing c u ->
  inv (with_task (dir_synced s c u) i (set_pc t Unlinking)).
Proof.
  intros Hi Ht Hpc. destruct (i_tasks _ Hi i t Ht) as [_ _ Hp]. unfold pc_ok in Hp. rewrite Hpc in Hp.
  pose proof (i_synced _ Hi). destruct Hp as [H1 H2].
  refine (inv_moved s (m_writer s) (m_versions s) (m_synced s) (Nat.max _ c) (Nat.max _ u) i t Unlinking Hi Ht _ _ _ _ _).
  - by left.
  - lia.
  - lia.
  - done.
  - split; [done|]. intros g' l x Hg Hl Hx. specialize (H2 g' l x Hg Hl Hx). cbn. eapply elem_of_take_mono; [|exact H2]. lia.
Qed.

Lemma inv_persist_step s i s' : inv s -> persist_step s i = Some s' -> inv s'.
Proof.
  intros Hi. unfold persist_step. destruct (m_tasks s !! i) as [t|] eqn:Ht; [|done]. cbn [mbind option_bind].
  destruct (i_tasks _ Hi i t Ht) as [Hb Hg Hp]. unfold pc_ok in Hp.
  destruct (pt_pc t) as [|g l|g l| |g l| |n|c u| |] eqn:Hpc; intros Hs.
  - destruct (decide _) as [Hc|]; [|done]. injection Hs as <-. apply inv_pc_only; [done..|]. split; [by apply hist_current|done].
  - destruct (decide _) as [Hw|]; [|done]. injection Hs as <-. apply inv_pc; [done..| |].
    + intros j _ Hj. congruence.
    + by split.
  - destruct Hp as [[H1 H2] H3]. destruct (decide _) as [<-|]; injection Hs as <-; apply inv_pc_only; try done.
    split; [by split|]. split; [done|by apply versions_old].
  - destruct (decide _) as [Hc|]; [|done]. injection Hs as <-. apply inv_pc_only; [done..|]. cbn.
    split; [split; [by apply hist_current|done]|]. split; [done|by apply versions_old].
  - injection Hs as <-. by apply inv_write.
  - injection Hs as <-. by apply inv_pc_only.
  - injection Hs as <-. by apply inv_synced.
  - injection Hs as <-. by apply inv_dir_synced.
  - destruct (pt_inputs t) as [|x xs] eqn:Ein; [done|]. injection Hs as <-. by apply inv_unlink.
  - done.
Qed.

Lemma inv_persist_fail s i s' : inv s -> persist_fail s i = Some s' -> inv s'.
Proof.
  intros Hi. unfold persist_fail. destruct (m_tasks s !! i) as [t|] eqn:Ht; [|done]. cbn [mbind option_bind].
  destruct (i_tasks _ Hi i t Ht) as [Hb Hg Hp]. unfold pc_ok in Hp.
  destruct (pt_pc t) as [|g l|g l| |g l| |n|c u| |] eqn:Hpc; intros Hs; try done; injection Hs as <-; try (by apply inv_pc_only).
  apply inv_pc; [done..| |done]. intros j Hne Hj. destruct Hp as (_ & Hw & _). congruence.
Qed.

#[export] Hint Resolve inv_file_done inv_push_name inv_commit inv_bump inv_persist_step inv_persist_fail : hedge.

Lemma persist_inv levels s : NoDup (mjoin levels) -> reachable levels s -> inv s.
Proof.
  intros Hn. induction 1 as [|s e s' _ IH Hs]; [by apply inv_loaded|]. destruct e; cbn in Hs; eauto with hedge.
Qed.

(** A crash leaves levels of the history, no older than the synced page. *)
Lemma crash_version_hist s g l :
  inv s -> (g, l) ∈ crash_versions s ->
  exists v, m_versions s !! m_synced s = Some v /\ v.1 <= g <= m_seq s /\ m_hist s !! g = Some l.
Proof.
  intros Hi Hw. unfold crash_versions in Hw.
  apply list_elem_of_lookup in Hw as [k Hk]. rewrite lookup_drop in Hk.
  destruct (lookup_lt_is_Some_2 _ _ (i_synced _ Hi)) as [v Hv]. exists v.
  destruct (i_versions _ Hi _ _ Hk) as [H1 H2]. split; [done|]. split; [|done]. split; [|done].
  eapply (i_sorted _ Hi (m_synced s) (m_synced s + k) v (g, l)); [lia|done..].
Qed.

Lemma crash_levels_hist s l :
  inv s -> l ∈ crash_levels s ->
  exists v g, m_versions s !! m_synced s = Some v /\ v.1 <= g <= m_seq s /\ m_hist s !! g = Some l.
Proof.
  intros Hi Hl. unfold crash_levels in Hl. apply list_elem_of_fmap in Hl as ([g l'] & -> & Hw).
  destruct (crash_version_hist s g l' Hi Hw) as (v & H). by exists v, g.
Qed.

(** A generation whose task has returned without error, or that was loaded. *)
Definition returned (s : pstate) (g : nat) : Prop :=
  g = 0 \/ exists i t, m_tasks s !! i = Some t /\ pt_pc t = Unlinking /\ g <= pt_born t.

Lemma returned_created s g : inv s -> returned s g -> created_by s g (d_created_synced (m_dir s)).
Proof.
  intros Hi [->|(i & t & Ht & Hpc & Hg)]; [apply Hi|]. destruct (i_tasks _ Hi i t Ht) as [_ _ Hp]. unfold pc_ok in Hp. rewrite Hpc in Hp.
  destruct Hp as [_ Hc]. intros g' l x Hle Hl Hx. eapply (Hc g'); [lia|done|done].
Qed.

(** The names of a manifest that a crash can leave have not been unlinked. *)
Lemma crash_named s g l x : inv s -> (g, l) ∈ crash_versions s -> x ∈ mjoin l -> x ∈ m_files s.
Proof.
  intros Hi Hl Hx. destruct (crash_version_hist s g l Hi Hl) as (v & Hv & Hg & Hh). eapply (i_live _ Hi v g l); [done|lia|done|done].
Qed.

Lemma crash_named_present s g l x F :
  inv s -> (g, l) ∈ crash_versions s -> x ∈ mjoin l -> crash_files s F -> returned s g -> x ∈ F.
Proof.
  intros Hi Hl Hx [HF _] Hr. destruct (crash_version_hist s g l Hi Hl) as (_ & _ & _ & Hh).
  apply HF; [by eapply returned_created|]. apply (i_dir _ Hi). by eapply crash_named.
Qed.

(** When nothing is under way, the durable manifest is the current one and
    the directory holds the files it names. *)
Lemma quiescent_levels s l : inv s -> quiescent s -> l ∈ crash_levels s -> l = m_levels s.
Proof.
  intros Hi (Hc & _ & Ht) Hl. destruct (crash_levels_hist s l Hi Hl) as (v & g & Hv & Hg & Hh).
  rewrite Forall_lookup in Ht. assert (m_seq s <= v.1) as Hle.
  { destruct (decide (m_seq s = 0)) as [->|Hne]; [lia|]. destruct (i_births _ Hi (m_seq s) ltac:(lia)) as (i & t & Hi' & Hb).
    destruct (Ht i t Hi') as [Hpc _]. destruct (i_tasks _ Hi i t Hi') as [_ _ Hp]. unfold pc_ok in Hp. rewrite Hpc in Hp.
    destruct Hp as [(v' & Hv' & Hbv) _]. simplify_eq. lia. }
  replace g with (m_seq s) in Hh by lia. rewrite hist_current in Hh by done. by injection Hh.
Qed.

Lemma quiescent_returned s : inv s -> quiescent s -> returned s (m_seq s).
Proof.
  intros Hi (_ & _ & Ht). destruct (decide (m_seq s = 0)) as [->|Hne]; [by left|right].
  destruct (i_births _ Hi (m_seq s) ltac:(lia)) as (i & t & Hi' & Hb). exists i, t. rewrite Forall_lookup in Ht.
  destruct (Ht i t Hi') as [Hpc _]. split; [done|]. split; [done|lia].
Qed.

Lemma quiescent_files s x : inv s -> quiescent s -> x ∈ m_files s -> x ∈ mjoin (m_levels s).
Proof.
  intros Hi (Hc & Hp & Ht) Hx. destruct (i_accounted _ Hi x Hx) as [H|[H|[(ins & H & _)|(i & t & H1 & H2)]]].
  - done.
  - rewrite Hp in H. by apply elem_of_nil in H.
  - by rewrite Hc in H.
  - rewrite Forall_lookup in Ht. destruct (Ht i t H1) as [_ E]. rewrite E in H2. by apply elem_of_nil in H2.
Qed.

(** A file being added or removed is in no manifest a crash can leave. *)
Lemma unnamed_in_window s l x :
  inv s -> l ∈ crash_levels s ->
  x ∈ m_pending s \/ (exists i t, m_tasks s !! i = Some t /\ pt_pc t = Unlinking /\ x ∈ pt_inputs t) ->
  x ∉ mjoin l.
Proof.
  intros Hi Hl Hw Hx. destruct (crash_levels_hist s l Hi Hl) as (v & g & Hv & Hg & Hh).
  destruct Hw as [Hw|(i & t & Ht & Hpc & Hin)]; [by destruct (i_old _ Hi g l x Hh Hx)|].
  destruct (i_tasks _ Hi i t Ht) as [_ Hgone Hp]. unfold pc_ok in Hp. rewrite Hpc in Hp. destruct Hp as [(v' & Hv' & Hb) _].
  simplify_eq. destruct (Hgone x Hin) as (_ & _ & H). by apply (H g l); [lia|..].
Qed.

(** ** Properties *)

(** C12: a manifest that a crash leaves names no file that was removed.
    However flushes, compactions and their persist tasks interleave or fail,
    a file named by a manifest a crash can leave was created and has not been
    unlinked: the inputs of a compaction are unlinked only when no such
    manifest can name them. It is in every directory the crash can leave once
    the task of that manifest's generation, or of a later one, has returned
    without error, and from the start if it was loaded: the task has then
    synced the directory after the creation of every file it names. *)
Theorem crash_manifest_names_files (levels0 : levels_t) (s : pstate) (g : nat) (l : levels_t) (F : list bytes) (x : bytes)
    (Hn : NoDup (mjoin levels0)) (Hr : reachable levels0 s) (Hl : (g, l) ∈ crash_versions s) (Hx : x ∈ mjoin l)
    (HF : crash_files s F) :
  x ∈ m_used s /\ x ∉ m_unlinked s /\ (returned s g -> x ∈ F).
Proof.
  apply persist_inv in Hr; [|done]. pose proof (crash_named s g l x Hr Hl Hx) as Hf. apply (i_dir _ Hr) in Hf as [H1 H2].
  split; [done|]. split; [done|]. by eapply crash_named_present.
Qed.

(** Reaching a state by a given run. *)
Lemma prun_reachable levels0 s es s' : reachable levels0 s -> prun s es = Some s' -> reachable levels0 s'.
Proof.
  revert s. induction es as [|e es IH]; intros s Hr; cbn; [by intros [= <-]|].
  destruct (pstep s e) as [s1|] eqn:E; [|done]. apply IH. by eapply reach_step.
Qed.

(** A flush and a compaction whose tasks overlap: the flush has taken its
    snapshot before the compaction commits, and writes after it. *)
Definition overlap (a b c d : bytes) : list event :=
  [FileDone c; FileDone d; PushL0 c; BumpSeq; Persist 0; Commit 0 [a; b] d; BumpSeq;
   Persist 1; Persist 1; Persist 1; Persist 1; Persist 1; Persist 1; Persist 1; Persist 1; Persist 1;
   Persist 0; Persist 0; Persist 0; Persist 0].

Lemma crash_manifest_witness :
  let name i := sst_filename [48; 102]%Z (Z.of_nat i) in
  exists s, prun (loaded [[name 1; name 2]; []]) (overlap (name 1) (name 2) (name 3) (name 4)) = Some s /\
    forall F, crash_files s F -> name 4 ∈ F.
Proof.
  cbv zeta. set (name i := sst_filename [48; 102]%Z (Z.of_nat i)).
  destruct (prun (loaded [[name 1; name 2]; []]) (overlap (name 1) (name 2) (name 3) (name 4))) as [s|] eqn:E.
  2:{ vm_compute in E. discriminate E. }
  exists s. split; [done|]. intros F HF.
  apply (crash_manifest_names_files [[name 1; name 2]; []] s 2 [[name 3]; [name 4]] F).
  - refine (bool_decide_unpack _ _). vm_compute. exact I.
  - eapply prun_reachable; [apply reach_loaded|exact E].
  - vm_compute in E. injection E as <-. refine (bool_decide_unpack _ _). vm_compute. exact I.
  - refine (bool_decide_unpack _ _). vm_compute. exact I.
  - exact HF.
  - right. exists 1. vm_compute in E. injection E as <-. eexists. split; [reflexivity|]. split; [reflexivity|]. cbn. lia.
Defined.

Section restart.
Context {sst : Type} (sst_load : bytes -> expected sst) (filename : sst -> bytes).
Context (f : bytes -> sst) (num : bytes -> Z) (prefix : bytes).

(** Levels whose files are named by the flush counter and load, and whose
    lines fit the page of the manifest. *)
Definition loadable (levels : levels_t) : Prop :=
  Forall (Forall (fun n => (0 <= num n < 2 ^ 64)%Z /\ n = sst_filename prefix (num n))) levels /\
  Forall (Forall (fun n => sst_load n = Ok (f n) /\ filename (f n) = n)) levels /\
  length (level_lines levels) <= PAGE_SIZE_IN_BYTES.

(** Loading an SST from a directory that has the files [F]. *)
Definition load_from (F : list bytes) (n : bytes) : expected sst :=
  if decide (n ∈ F) then sst_load n else Err (generic_error "Failed to open file").

Lemma load_from_ok F levels :
  (forall x, x ∈ mjoin levels -> x ∈ F) ->
  Forall (Forall (fun n => sst_load n = Ok (f n) /\ filename (f n) = n)) levels ->
  Forall (Forall (fun n => load_from F n = Ok (f n) /\ filename (f n) = n)) levels.
Proof.
  intros Hin H. rewrite !Forall_forall in *. intros l Hl. specialize (H l Hl). rewrite Forall_forall in *. intros x Hx.
  unfold load_from. rewrite decide_True; [by apply H|]. apply Hin, list_elem_of_join. eauto.
Qed.

(** C16: a partition at rest restarts as it was, or not at all. When no
    flush or compaction is under way, every persist task has returned
    without error and the lines of the levels fit the page of the manifest,
    a crash can leave one manifest only, and every file it names is in every
    directory the crash can leave. If the directory has none of the unlinked
    files, loading gives back the levels the partition had in memory; if it
    still has one, which is possible because no sync of the directory follows
    the unlinks, loading is refused because of an orphan. *)
Theorem quiescent_restart (levels0 : levels_t) (s : pstate) (l : levels_t) (F : list bytes) (state0 : partition_state sst) (m : Z)
    (Hn : NoDup (mjoin levels0)) (Hr : reachable levels0 s) (Hq : quiescent s) (Hl : l ∈ crash_levels s)
    (HF : crash_files s F)
    (Hprefix : prefix <> [] /\ SEMICOLON ∉ prefix /\ NEWLINE ∉ prefix) (Hload : loadable (m_levels s))
    (Hstems : forall x, x ∈ m_unlinked s -> stem x <> MANIFEST_FILENAME) :
  l = m_levels s /\
  ((forall x, x ∈ F -> x ∉ m_unlinked s) ->
   exists m', _load_partition (load_from F) filename (length (m_levels s)) state0 (Some (crash_directory F l)) m
     = Some (Ok (mk_pstate ((fun l : list bytes => f <$> l) <$> m_levels s)
                           ((fun l => 0 <? length l) <$> m_levels s), m'))) /\
  (forall x, x ∈ F -> x ∈ m_unlinked s ->
   _load_partition (load_from F) filename (length (m_levels s)) state0 (Some (crash_directory F l)) m
     = Some (Err (generic_error "Error while checking orphans"))).
Proof.
  apply persist_inv in Hr; [|done]. assert (Hl' := Hl). rewrite (quiescent_levels s l Hr Hq Hl). split; [done|].
  destruct Hload as (H1 & H2 & H3).
  assert (forall x, x ∈ mjoin (m_levels s) -> x ∈ F) as Hin.
  { intros x Hx. destruct HF as [HF _]. apply HF.
    - eapply (returned_created s (m_seq s)); [done|by apply quiescent_returned|done|apply hist_current; [done|apply Hq]|done].
    - apply (i_dir _ Hr). unfold crash_levels in Hl'. apply list_elem_of_fmap in Hl' as ([g l0] & -> & Hv). eapply (crash_named s g l0); [done|done|].
      cbn in Hl. rewrite (quiescent_levels s l0 Hr Hq Hl). done. }
  pose proof (load_from_ok F _ Hin H2) as H2'. unfold crash_directory. split.
  - intros Hno. eexists. rewrite (load_manifest (load_from F) filename f num prefix) by done.
    rewrite no_orphans; [done|]. constructor; [by intros _ []|]. apply Forall_fmap, Forall_forall. intros x Hx _ _.
    apply quiescent_files; [done|done|]. apply (i_dir _ Hr). split; [by apply HF|by apply Hno].
  - intros x Hx Hu. rewrite (load_manifest (load_from F) filename f num prefix) by done.
    rewrite (orphan_found _ _ x); [done| |by apply Hstems|].
    + apply elem_of_cons. right. apply list_elem_of_fmap. eauto.
    + intros Hm. assert (x ∈ m_files s) as Hf.
      { unfold crash_levels in Hl'. apply list_elem_of_fmap in Hl' as ([g l0] & -> & Hv). eapply (crash_named s g l0); [done|done|].
        cbn in Hl. rewrite (quiescent_levels s l0 Hr Hq Hl). done. }
      apply (i_dir _ Hr) in Hf. tauto.
Qed.

(** A crash while a flush or a compaction is under way makes the
    partition unloadable. From the moment an SST is written until it is in
    the levels, and from the moment the levels of a compaction are durable
    until its last input is unlinked, the directory can hold a file that no
    manifest left by a crash names, and loading it fails on an orphan. *)
Theorem crash_window_refused (levels0 : levels_t) (s : pstate) (l : levels_t) (F : list bytes) (x : bytes)
    (state0 : partition_state sst) (m : Z)
    (Hn : NoDup (mjoin levels0)) (Hr : reachable levels0 s) (Hl : l ∈ crash_levels s)
    (Hin : forall y, y ∈ mjoin l -> y ∈ F) (Hx : x ∈ F)
    (Hwin : x ∈ m_pending s \/ exists i t, m_tasks s !! i = Some t /\ pt_pc t = Unlinking /\ x ∈ pt_inputs t)
    (Hstem : stem x <> MANIFEST_FILENAME)
    (Hprefix : prefix <> [] /\ SEMICOLON ∉ prefix /\ NEWLINE ∉ prefix) (Hload : loadable l) :
  _load_partition (load_from F) filename (length l) state0 (Some (crash_directory F l)) m
  = Some (Err (generic_error "Error while checking orphans")).
Proof.
  destruct Hload as (H1 & H2 & H3). pose proof (load_from_ok F _ Hin H2) as H2'. unfold crash_directory.
  rewrite (load_manifest (load_from F) filename f num prefix) by done.
  rewrite (orphan_found _ _ x); [done| |done|].
  - apply elem_of_cons. right. apply list_elem_of_fmap. eauto.
  - eapply unnamed_in_window; [by eapply persist_inv|done|done].
Qed.
End restart.

(** C22: the manifest can become durable before the file it names. A flush
    has pushed its SST and its task is in the sync of the directory, after
    that of the manifest: a crash leaves a manifest that names the SST, and
    can leave a directory without it. Loading such a partition fails, although
    the SSTs it had before the flush are there. *)
Theorem manifest_synced_before_directory :
  let name i := sst_filename [48; 102]%Z (Z.of_nat i) in
  exists s, reachable [[name 1]; []] s /\ crash_levels s = [[[name 1; name 2]; []]] /\ crash_files s [name 1] /\
    _load_partition (load_from Ok [name 1]) id 2 (mk_pstate [[]; []] []) (Some (crash_directory [name 1] [[name 1; name 2]; []])) 0%Z
    = Some (Err (generic_error "Error while checking orphans")).
Proof.
  cbv zeta. set (name i := sst_filename [48; 102]%Z (Z.of_nat i)).
  destruct (prun (loaded [[name 1]; []]) ([FileDone (name 2); PushL0 (name 2); BumpSeq] ++ replicate 6 (Persist 0))) as [s|] eqn:E.
  2:{ vm_compute in E. discriminate E. }
  exists s. split; [eapply prun_reachable; [apply reach_loaded|exact E]|].
  assert (crash_levels s = [[[name 1; name 2]; []]] /\ m_unlinked s = [] /\ m_used s = [name 1; name 2] /\ d_created_synced (m_dir s) = 1) as (E1 & E2 & E3 & E4)
    by (vm_compute in E; injection E as <-; by vm_compute).
  split; [done|]. split; [|vm_compute; reflexivity]. unfold crash_files. rewrite E2, E3, E4, take_nil. split.
  - done.
  - intros x ->%list_elem_of_singleton. split; [by left|apply not_elem_of_nil].
Qed.

Definition num_of (x : bytes) : Z := default 0%Z (flush_iteration_from_filename x).

(** After the overlapping flush and compaction, with the inputs of the
    compaction gone, and with one of them back. *)
Lemma quiescent_restart_witness :
  let name i := sst_filename [48; 102]%Z (Z.of_nat i) in
  exists s m', prun (loaded [[name 1; name 2]; []])
      (overlap (name 1) (name 2) (name 3) (name 4) ++ [Persist 0; Persist 0; Persist 0]) = Some s /\
    _load_partition (load_from Ok [name 3; name 4]) id 2 (mk_pstate [] []) (Some (crash_directory [name 3; name 4] [[name 3]; [name 4]])) 0%Z
    = Some (Ok (mk_pstate [[name 3]; [name 4]] [true; true], m')).
Proof.
  cbv zeta. set (name i := sst_filename [48; 102]%Z (Z.of_nat i)).
  destruct (prun (loaded [[name 1; name 2]; []])
      (overlap (name 1) (name 2) (name 3) (name 4) ++ [Persist 0; Persist 0; Persist 0])) as [s|] eqn:E.
  2:{ vm_compute in E. discriminate E. }
  exists s. assert (m_levels s = [[name 3]; [name 4]] /\ m_unlinked s = [name 1; name 2] /\
    take (d_created_synced (m_dir s)) (m_used s) = [name 1; name 2; name 3; name 4] /\ m_used s = [name 1; name 2; name 3; name 4]) as (El & Eu & Ec & Ecr)
    by (vm_compute in E; injection E as <-; by vm_compute).
  assert (forall x, x ∈ [name 3; name 4] -> x ∉ [name 1; name 2]) as Hdisj.
  { intros x Hx Hx'. assert (Forall (fun x => x ∉ [name 1; name 2]) [name 3; name 4]) as Hf by (refine (bool_decide_unpack _ _); vm_compute; exact I).
    rewrite Forall_forall in Hf. by apply (Hf x Hx). }
  destruct (quiescent_restart Ok id id num_of [48; 102]%Z [[name 1; name 2]; []] s [[name 3]; [name 4]] [name 3; name 4] (mk_pstate [] []) 0%Z)
    as (_ & Hgood & _).
  - refine (bool_decide_unpack _ _). vm_compute. exact I.
  - eapply prun_reachable; [apply reach_loaded|exact E].
  - vm_compute in E. injection E as <-. repeat constructor.
  - vm_compute in E. injection E as <-. refine (bool_decide_unpack _ _). vm_compute. exact I.
  - unfold crash_files. rewrite Eu, Ec, Ecr. split.
    + intros x Hx Hno. apply (elem_of_app [name 1; name 2] [name 3; name 4]) in Hx. tauto.
    + intros x Hx. split; [apply (elem_of_app [name 1; name 2] [name 3; name 4]); by right|]. intros Ht. apply elem_of_take in Ht as (k & Hk & _).
      apply list_elem_of_lookup_2 in Hk. by apply (Hdisj x Hx).
  - split; [done|]. split; refine (bool_decide_unpack _ _); vm_compute; exact I.
  - rewrite El. split; [|split].
    + repeat constructor; vm_compute; done.
    + repeat constructor.
    + apply Nat.leb_le. vm_compute. reflexivity.
  - rewrite Eu. intros x Hx. assert (Forall (fun x => stem x <> MANIFEST_FILENAME) [name 1; name 2]) as Hf
      by (refine (bool_decide_unpack _ _); vm_compute; exact I). rewrite Forall_forall in Hf. by apply Hf.
  - destruct Hgood as [m' Hm']; [rewrite Eu; exact Hdisj|]. exists m'. split; [reflexivity|]. rewrite El in Hm'. exact Hm'.
Defined.

(** A flush has written its file, and the power fails. *)
Lemma crash_window_witness :
  let name i := sst_filename [48; 102]%Z (Z.of_nat i) in
  exists s, prun (loaded [[name 1]; []]) [FileDone (name 2)] = Some s /\
    _load_partition (load_from Ok [name 1; name 2]) id 2 (mk_pstate [] []) (Some (crash_directory [name 1; name 2] [[name 1]; []])) 0%Z
    = Some (Err (generic_error "Error while checking orphans")).
Proof.
  cbv zeta. set (name i := sst_filename [48; 102]%Z (Z.of_nat i)).
  destruct (prun (loaded [[name 1]; []]) [FileDone (name 2)]) as [s|] eqn:E; [|vm_compute in E; discriminate E].
  exists s. split; [reflexivity|].
  apply (crash_window_refused Ok id id num_of [48; 102]%Z [[name 1]; []] s [[name 1]; []] [name 1; name 2] (name 2)).
  - refine (bool_decide_unpack _ _). vm_compute. exact I.
  - eapply prun_reachable; [apply reach_loaded|exact E].
  - vm_compute in E. injection E as <-. refine (bool_decide_unpack _ _). vm_compute. exact I.
  - intros y ->%list_elem_of_singleton. by left.
  - right. by left.
  - left. vm_compute in E. injection E as <-. refine (bool_decide_unpack _ _). vm_compute. exact I.
  - vm_compute. done.
  - split; [done|]. split; refine (bool_decide_unpack _ _); vm_compute; exact I.
  - split; [|split].
    + repeat constructor; vm_compute; done.
    + repeat constructor.
    + apply Nat.leb_le. vm_compute. reflexivity.
Defined.
