(* ===== verification/Memtable.v ===== *)
(** * The memtable (src/db/memtable.h, src/db/memtable.cc, src/db/skiplist.h,
      src/db/arena_allocator.h; ranges and flush of src/db/index_ops.cc)

    Puts, gets, the switch to a fresh table, the split of a table into the
    runs of its partitions, and the replay of the write-ahead log. The
    skiplist is the ordered set it implements: entries by key, newest
    version first. A put is a sequence of steps between the points where
    it can be suspended (a free flush slot, the pipelined table), and the
    flushes of older tables go on between them; puts of several threads
    at once are the subject of MemtableSwitch. The write-ahead log of a
    table is the list of entries appended to it; how files hold them is
    the subject of Wal. *)

From stdpp Require Import base list numbers strings sorting sets.
From Stdlib Require Import ZArith Lia.
From S2P Require Import Prelude StdAlgo Types Utils Block BlockBuffer Wal Merge Sst SstManager Lsm.

Local Open Scope Z_scope.

(** ** The arena of a writer thread *)

Definition EXTENT_BYTES : Z := 4 * 1024 * 1024.

Record arena := mk_arena {
  ar_budget : Z;
  ar_extent_size : Z;
  ar_items_per_extent : Z;
  ar_total_allocated : Z;
  ar_curr_extent : bool;      (* false is nullptr *)
  ar_current_slot_index : Z;
}.

(** [_allocate_new_extent], without running out of memory. *)
Definition allocate_new_extent (a : arena) : arena :=
  if ar_budget a <? ar_total_allocated a + ar_extent_size a
  then mk_arena (ar_budget a) (ar_extent_size a) (ar_items_per_extent a) (ar_total_allocated a) false
         (ar_current_slot_index a)
  else mk_arena (ar_budget a) (ar_extent_size a) (ar_items_per_extent a)
         (ar_total_allocated a + ar_extent_size a) true (ar_current_slot_index a).

(** An arena of bytes with the default extent hint. *)
Definition make_arena (budget : Z) : arena :=
  let extent_size := Z.max EXTENT_BYTES 4096 in
  allocate_new_extent (mk_arena budget extent_size (Z.max extent_size 1) 0 false 0).

Definition allocate_many_impl (a : arena) (n_items : Z) : arena * bool :=
  if ar_items_per_extent a <? ar_current_slot_index a + n_items then
    if ar_items_per_extent a <? n_items then (a, false)
    else
      let a := allocate_new_extent a in
      if ar_curr_extent a
      then (mk_arena (ar_budget a) (ar_extent_size a) (ar_items_per_extent a) (ar_total_allocated a) true n_items, true)
      else (mk_arena (ar_budget a) (ar_extent_size a) (ar_items_per_extent a) (ar_total_allocated a) false 0, false)
  else
    if ar_curr_extent a
    then (mk_arena (ar_budget a) (ar_extent_size a) (ar_items_per_extent a) (ar_total_allocated a) true
            (ar_current_slot_index a + n_items), true)
    else (a, false).

Definition VALUE_DATA_ALIGNMENT : Z := 16.

Definition allocate_many (a : arena) (n_items alignment : Z) : arena * bool :=
  allocate_many_impl a (round_up n_items alignment).

(** ** The skiplist *)

Definition memtable_cmp (a b : memtable_entry) : bool :=
  match Lex.compare (mt_key a) (mt_key b) with
  | Lt => true
  | Gt => false
  | Eq => mt_seq b <? mt_seq a
  end.

(** Insertion in an ordered set. *)
Fixpoint skiplist_insert (e : memtable_entry) (l : list memtable_entry) : list memtable_entry :=
  match l with
  | [] => [e]
  | x :: l' =>
      if memtable_cmp x e then x :: skiplist_insert e l'
      else if memtable_cmp e x then e :: l
      else l
  end.

Definition UINT64_MAX : Z := 2 ^ 64 - 1.

Definition skiplist_get (l : list memtable_entry) (key : bytes) : option bytes :=
  let it := lower_bound (fun x => memtable_cmp x (mk_mt_entry key UINT64_MAX [])) l in
  match l !! it with
  | Some e => if Lex.eqb (mt_key e) key then Some (mt_value e) else None
  | None => None
  end.

(** ** The memtable *)

Record mem_buffer := mk_mem_buffer {
  mb_entries : list memtable_entry;
  mb_bytes_written : Z;
  mb_arenas : list arena;
  mb_wal : list wal_entry;
}.

(** What a switch of tables waits for, apart from the tables themselves. *)
Record gate := mk_gate {
  g_frozen : bool;      (* [freeze_writes] of the current table *)
  g_slots : nat;        (* [_pending_flush_slots] *)
  g_pipelined : bool;   (* [_pipelined_table] is not null *)
  g_wals : nat;         (* logs in [_wal_ch] *)
  g_closing : nat;      (* flushes that have erased their table and hold their slot *)
  g_resetting : nat;    (* flushes that have released the slot and hold their log *)
}.

Record memtable := mk_memtable {
  m_seq_nr : Z;
  m_table : mem_buffer;
  m_pending : list (Z * mem_buffer);   (* pending flushes, by epoch *)
  m_flush_epoch : Z;
  m_gate : gate;
}.

(** Where a call of [put_async] stands. *)
Inductive put_pc :=
  | PutAcquire (current : bool)   (* top of the loop; is [local_memtable_ref] the current table? *)
  | PutSlot (epoch : Z)           (* [co_await _pending_flush_slots] *)
  | PutTable (epoch : Z)          (* [co_await _pipelined_table.await(nullptr)] *)
  | PutDone.

Section memtable.
(** [memory_budget_cap], [num_writer_threads] and [max_pending_flushes] *)
Context (cap : Z) (num_writer_threads max_pending_flushes : nat).

Definition make_mem_buffer : mem_buffer :=
  mk_mem_buffer [] 0 (replicate num_writer_threads (make_arena cap)) [].

(** The constructor: [max_pending_flushes + 2] logs, two of which go to
    the current and the pipelined table. *)
Definition make_memtable (flush_epoch : Z) : memtable :=
  let n_slots := (max_pending_flushes + 2)%nat in
  mk_memtable 0 make_mem_buffer [] flush_epoch (mk_gate false max_pending_flushes true (n_slots - 2) 0 0).

(** [_flush] up to its first suspension: the epoch is taken and the table
    frozen. *)
Definition flush_freeze (m : memtable) : memtable * Z :=
  let g := m_gate m in
  (mk_memtable (m_seq_nr m) (m_table m) (m_pending m) (m_flush_epoch m + 1)
     (mk_gate true (g_slots g) (g_pipelined g) (g_wals g) (g_closing g) (g_resetting g)), m_flush_epoch m).

(** [co_await _pending_flush_slots]: [None] while there is no slot. *)
Definition flush_slot (m : memtable) : option memtable :=
  let g := m_gate m in
  match g_slots g with
  | O => None
  | S slots => Some (mk_memtable (m_seq_nr m) (m_table m) (m_pending m) (m_flush_epoch m)
                       (mk_gate (g_frozen g) slots (g_pipelined g) (g_wals g) (g_closing g) (g_resetting g)))
  end.

(** The rest of [_flush]: [None] while the pipelined table is missing; then
    the table becomes a pending flush under the epoch, and the pipelined
    one, which is not frozen, takes its place. *)
Definition flush_switch (epoch : Z) (m : memtable) : option memtable :=
  let g := m_gate m in
  if g_pipelined g
  then Some (mk_memtable (m_seq_nr m) make_mem_buffer (m_pending m ++ [(epoch, m_table m)]) (m_flush_epoch m)
               (mk_gate false (g_slots g) false (g_wals g) (g_closing g) (g_resetting g)))
  else None.

(** The attempt to store a value in the current table: the sequence number
    under which it was stored, or [None] when the table has to be switched.
    A value stored in a table that is over its budget stays there. *)
Definition put_attempt (tid : nat) (m : memtable) (key value_span : bytes) : memtable * option Z :=
  let t := m_table m in
  match mb_arenas t !! tid with
  | None => (m, None)
  | Some a =>
      let '(a, ok) := allocate_many a (Z.of_nat (length value_span)) VALUE_DATA_ALIGNMENT in
      let arenas := <[tid := a]> (mb_arenas t) in
      if ok : bool then
        let seq_nr := m_seq_nr m in
        let entries := skiplist_insert (mk_mt_entry key seq_nr value_span) (mb_entries t) in
        let t' := mk_mem_buffer entries
                    (mb_bytes_written t + Z.of_nat (length key) + Z.of_nat (length value_span)) arenas (mb_wal t) in
        let m' := mk_memtable (u64 (seq_nr + 1)) t' (m_pending m) (m_flush_epoch m) (m_gate m) in
        if cap <? mb_bytes_written t then (m', None) else (m', Some seq_nr)
      else
        (mk_memtable (m_seq_nr m)
          (mk_mem_buffer (mb_entries t) (mb_bytes_written t) arenas (mb_wal t)) (m_pending m) (m_flush_epoch m)
          (m_gate m), None)
  end.

(** Appending to the log of the current table. *)
Definition append_wal (m : memtable) (e : wal_entry) : memtable :=
  let t := m_table m in
  mk_memtable (m_seq_nr m)
    (mk_mem_buffer (mb_entries t) (mb_bytes_written t) (mb_arenas t) (mb_wal t ++ [e]))
    (m_pending m) (m_flush_epoch m) (m_gate m).

(** One step of [put_async], up to the next point of suspension or the next
    iteration of its loop; [None] while it is suspended. A reference to a
    former table finds it frozen and loads the current one. *)
Definition put_async_step (tid : nat) (key value_span : bytes) (m : memtable) (pc : put_pc)
    : option (memtable * put_pc) :=
  match pc with
  | PutAcquire false => Some (m, PutAcquire true)
  | PutAcquire true =>
      if g_frozen (m_gate m) then None
      else match put_attempt tid m key value_span with
           | (m, Some seq_nr) => Some (append_wal m (mk_wal_entry seq_nr key value_span), PutDone)
           | (m, None) => let '(m, epoch) := flush_freeze m in Some (m, PutSlot epoch)
           end
  | PutSlot epoch => m ← flush_slot m; Some (m, PutTable epoch)
  | PutTable epoch => m ← flush_switch epoch m; Some (m, PutAcquire false)
  | PutDone => None
  end.

(** What goes on beside a put: the end of [_flush_inner] of the oldest
    pending flush (its SSTs are pushed and its table erased), then the
    release of its slot, once the compactions put no pressure, then the
    return of its log; and the task that makes the next pipelined table. *)
Inductive background := FlushDone | ReleaseSlot | ReturnWal | MakeTable.

Definition with_gate (m : memtable) (g : gate) : memtable :=
  mk_memtable (m_seq_nr m) (m_table m) (m_pending m) (m_flush_epoch m) g.

Definition background_step (b : background) (m : memtable) : option memtable :=
  let g := m_gate m in
  match b with
  | FlushDone =>
      match m_pending m with
      | [] => None
      | _ :: pending =>
          Some (mk_memtable (m_seq_nr m) (m_table m) pending (m_flush_epoch m)
                  (mk_gate (g_frozen g) (g_slots g) (g_pipelined g) (g_wals g) (S (g_closing g)) (g_resetting g)))
      end
  | ReleaseSlot =>
      match g_closing g with
      | O => None
      | S closing => Some (with_gate m (mk_gate (g_frozen g) (S (g_slots g)) (g_pipelined g) (g_wals g) closing (S (g_resetting g))))
      end
  | ReturnWal =>
      match g_resetting g with
      | O => None
      | S resetting => Some (with_gate m (mk_gate (g_frozen g) (g_slots g) (g_pipelined g) (S (g_wals g)) (g_closing g) resetting))
      end
  | MakeTable =>
      match g_pipelined g, g_wals g with
      | false, S wals => Some (with_gate m (mk_gate (g_frozen g) (g_slots g) true wals (g_closing g) (g_resetting g)))
      | _, _ => None
      end
  end.

Fixpoint background_steps (bs : list background) (m : memtable) : option memtable :=
  match bs with
  | [] => Some m
  | b :: bs => m ← background_step b m; background_steps bs m
  end.

(** The table that a background step takes away. *)
Definition erased (b : background) (m : memtable) : list mem_buffer :=
  match b, m_pending m with
  | FlushDone, (_, t) :: _ => [t]
  | _, _ => []
  end.

(** [get]: the current table, then the pending ones from the most recent.
    The outer [None] is the exception of a corrupted value. *)
Fixpoint get_in (tables_newest_first : list mem_buffer) (key : bytes) : option (option value_t) :=
  match tables_newest_first with
  | [] => Some None
  | t :: tables =>
      match skiplist_get (mb_entries t) key with
      | Some v => match value_from_span v with Ok v => Some (Some v) | Err _ => None end
      | None => get_in tables key
      end
  end.

Definition memtable_get (m : memtable) (key : bytes) : option (option value_t) :=
  get_in (m_table m :: reverse (snd <$> m_pending m)) key.

(** ** Flushing *)

(** [_partition_ranges_generator]: the entries of each partition in turn. *)
Fixpoint ranges_loop (part : bytes -> Z) (current : Z) (range : list memtable_entry) (l : list memtable_entry)
    : list (Z * list memtable_entry) :=
  match l with
  | [] => [(current, range)]
  | e :: l =>
      let part_id := part (mt_key e) in
      if negb (part_id =? current) then (current, range) :: ranges_loop part part_id [e] l
      else ranges_loop part current (range ++ [e]) l
  end.

Definition partition_ranges (num_partition_exponent : Z) (l : list memtable_entry)
    : list (Z * list memtable_entry) :=
  let part key := find_partition_prefix_for_key key (partition_size num_partition_exponent) in
  match l with
  | [] => []
  | e :: _ => ranges_loop part (part (mt_key e)) [] l
  end.

(** The run an SST stores for a range: the newest version of each key. *)
Definition run_of (l : list memtable_entry) : list kv :=
  (fun e => (mt_key e, mt_value e)) <$> newest_versions None l.

(** [flush_memtable]: one run per partition present. *)
Definition flush_memtable (num_partition_exponent : Z) (l : list memtable_entry) : list (Z * list kv) :=
  (fun r => (r.1, run_of r.2)) <$> partition_ranges num_partition_exponent l.

(** ** Recovery *)

(** The callback of [replay_wal]; an exhausted arena throws. The state is
    the memtable, the largest number seen and the count of entries. *)
Definition replay_entry (skip_up_to_seq_nr : option Z) (s : option (memtable * Z * nat)) (e : wal_entry)
    : option (memtable * Z * nat) :=
  '(m, max_seq_nr, count) ← s;
  if match skip_up_to_seq_nr with Some k => we_seq_nr e <=? k | None => false end then s
  else
    let t := m_table m in
    a ← mb_arenas t !! 0%nat;
    let '(a, ok) := allocate_many a (Z.of_nat (length (we_value e))) VALUE_DATA_ALIGNMENT in
    if ok : bool then
      let entries := skiplist_insert (mk_mt_entry (we_key e) (m_seq_nr m) (we_value e)) (mb_entries t) in
      Some (mk_memtable (u64 (m_seq_nr m + 1))
              (mk_mem_buffer entries (mb_bytes_written t) (<[0%nat := a]> (mb_arenas t)) (mb_wal t))
              (m_pending m) (m_flush_epoch m) (m_gate m),
            Z.max max_seq_nr (we_seq_nr e), S count)
    else None.

(** [replay_wal] on the entries [wal::replay] delivers. *)
Definition replay_wal (skip_up_to_seq_nr : option Z) (m : memtable) (entries : list wal_entry) : option memtable :=
  '(m, max_seq_nr, count) ← foldl (replay_entry skip_up_to_seq_nr) (Some (m, 0, 0%nat)) entries;
  Some (if (0 <? count)%nat
        then mk_memtable (u64 (max_seq_nr + 1)) (m_table m) (m_pending m) (m_flush_epoch m) (m_gate m)
        else m).
End memtable.

(** [database::load]: SSTs that record [sst_max_seq_nr], then the log. *)
Definition recover (cap : Z) (num_writer_threads max_pending_flushes : nat) (flush_epoch sst_max_seq_nr : Z)
    (wal : list wal_entry) : option memtable :=
  replay_wal (Some sst_max_seq_nr) (make_memtable cap num_writer_threads max_pending_flushes flush_epoch) wal.

(** ** Lemmas on the skiplist *)

Lemma memtable_cmp_lt a b : memtable_cmp a b = true <-> mt_lt a b.
Proof.
  unfold memtable_cmp, mt_lt, Lex.lt. destruct (Lex.compare (mt_key a) (mt_key b)) eqn:E.
  - apply Lex.compare_eq in E. rewrite Z.ltb_lt. split; [auto|]. intros [|[_ ?]]; done.
  - split; auto.
  - split; [done|]. intros [|[Heq _]]; [done|]. apply Lex.compare_eq in Heq. congruence.
Qed.

Lemma mt_lt_trans a b c : mt_lt a b -> mt_lt b c -> mt_lt a c.
Proof.
  intros [H1|[E1 H1]] [H2|[E2 H2]]; unfold mt_lt.
  - left. by eapply Lex.lt_trans.
  - left. by rewrite <- E2.
  - left. by rewrite E1.
  - right. split; [congruence|lia].
Qed.

(** The value of the first entry with the key. *)
Fixpoint first_value (l : list memtable_entry) (key : bytes) : option bytes :=
  match l with
  | [] => None
  | e :: l => if Lex.eqb (mt_key e) key then Some (mt_value e) else first_value l key
  end.

Lemma Lex_eqb_neq a b : a <> b -> Lex.eqb a b = false.
Proof. intros H. destruct (Lex.eqb a b) eqn:E; [|done]. by apply Lex.eqb_eq in E. Qed.

Lemma first_value_app a b key :
  Forall (fun e => mt_key e <> key) a -> first_value (a ++ b) key = first_value b key.
Proof. induction 1 as [|e a He _ IH]; [done|]. cbn. by rewrite Lex_eqb_neq. Qed.

Lemma first_value_None l key : Forall (fun e => mt_key e <> key) l -> first_value l key = None.
Proof. intros H. rewrite <- (app_nil_r l). by rewrite first_value_app. Qed.

(** A flush writes what the first entry of each key holds. *)
Lemma assoc_newest prev l key :
  prev <> Some key ->
  assoc key ((fun e => (mt_key e, mt_value e)) <$> newest_versions prev l) = first_value l key.
Proof.
  revert prev. induction l as [|e l IH]; intros prev Hp; [done|]. cbn [newest_versions first_value].
  destruct (Lex.eqb (mt_key e) key) eqn:E.
  - apply Lex.eqb_eq in E as E'. rewrite bool_decide_eq_false_2 by congruence.
    rewrite fmap_cons. cbn [assoc fst snd]. by rewrite E.
  - assert (mt_key e <> key) as Hne by (intros Hk; by rewrite Hk, Lex.eqb_refl in E).
    case_bool_decide; [by apply IH|]. rewrite fmap_cons. cbn [assoc fst]. rewrite E. apply IH. congruence.
Qed.

Lemma assoc_run_of l key : assoc key (run_of l) = first_value l key.
Proof. by apply assoc_newest. Qed.

Definition table_ok (seq_nr : Z) (l : list memtable_entry) : Prop :=
  StronglySorted mt_lt l /\ Forall (fun e => mt_seq e < seq_nr) l.

Lemma skiplist_insert_elem e l x : x ∈ skiplist_insert e l -> x = e \/ x ∈ l.
Proof.
  induction l as [|y l IH]; cbn [skiplist_insert]; [set_solver|].
  destruct (memtable_cmp y e); [|destruct (memtable_cmp e y); set_solver]. set_solver.
Qed.

Lemma skiplist_insert_ok e l : table_ok (mt_seq e) l -> table_ok (mt_seq e + 1) (skiplist_insert e l).
Proof.
  intros [Hs Hf]. split.
  - induction Hs as [|x l Hs IH Hx]; cbn [skiplist_insert]; [repeat constructor|].
    apply Forall_cons in Hf as [Hxe Hf]. destruct (memtable_cmp x e) eqn:E1.
    + constructor; [by apply IH|]. apply Forall_forall. intros y Hy.
      apply skiplist_insert_elem in Hy as [->|Hy]; [by apply memtable_cmp_lt|]. rewrite Forall_forall in Hx. auto.
    + destruct (memtable_cmp e x) eqn:E2; [|by constructor]. apply memtable_cmp_lt in E2.
      constructor; [by constructor|]. constructor; [done|]. eapply Forall_impl; [exact Hx|].
      intros y Hy. by eapply mt_lt_trans.
  - apply Forall_forall. intros x Hx. rewrite Forall_forall in Hf.
    apply skiplist_insert_elem in Hx as [->|Hx]; [lia|]. apply Hf in Hx. lia.
Qed.

Lemma first_value_insert e l key :
  table_ok (mt_seq e) l ->
  first_value (skiplist_insert e l) key = if Lex.eqb (mt_key e) key then Some (mt_value e) else first_value l key.
Proof.
  intros [_ Hf]. induction Hf as [|x l Hx _ IH]; [done|]. cbn [skiplist_insert].
  destruct (memtable_cmp x e) eqn:E1; cbn [first_value].
  - rewrite IH. destruct (Lex.eqb (mt_key x) key) eqn:Ex; [|done].
    destruct (Lex.eqb (mt_key e) key) eqn:Ee; [|done]. apply Lex.eqb_eq in Ex, Ee.
    apply memtable_cmp_lt in E1 as [H|[_ H]]; [|lia]. rewrite Ex, Ee in H. by apply Lex.lt_irrefl in H.
  - destruct (memtable_cmp e x) eqn:E2; [done|]. exfalso. unfold memtable_cmp in E1, E2.
    rewrite Lex.compare_antisym in E2. destruct (Lex.compare (mt_key x) (mt_key e)); try done.
    cbn in E2. apply Z.ltb_ge in E1, E2. lia.
Qed.

Lemma StronglySorted_lookup {A} (R : A -> A -> Prop) l i j x y :
  StronglySorted R l -> (i < j)%nat -> l !! i = Some x -> l !! j = Some y -> R x y.
Proof.
  intros Hs. revert i j. induction Hs as [|z l Hs IH Hf]; intros [|i] [|j] Hij Hx Hy; try done; try lia.
  - cbn in Hx, Hy. injection Hx as ->. rewrite Forall_forall in Hf. apply Hf. by eapply list_elem_of_lookup_2.
  - cbn in Hx, Hy. eapply (IH i j); try done. lia.
Qed.

(** The search of the skiplist finds the first entry of the key. *)
Lemma skiplist_get_spec seq_nr l key :
  seq_nr <= UINT64_MAX -> table_ok seq_nr l -> skiplist_get l key = first_value l key.
Proof.
  intros Hmax [Hs Hf]. set (less := fun x => memtable_cmp x (mk_mt_entry key UINT64_MAX [])).
  assert (forall e, e ∈ l -> less e = true <-> Lex.lt (mt_key e) key) as Hless.
  { intros e He. unfold less. rewrite memtable_cmp_lt. unfold mt_lt. cbn. rewrite Forall_forall in Hf.
    apply Hf in He. split; [|auto]. intros [|[_ ?]]; [done|lia]. }
  assert (prefix_pred l less) as Hp.
  { intros i j x y Hij Hx Hy Hl. unfold less in *. rewrite memtable_cmp_lt in *.
    destruct (decide (i = j)) as [->|Hne]; [congruence|]. eapply mt_lt_trans; [|exact Hl].
    eapply (StronglySorted_lookup mt_lt l i j); try done; lia. }
  destruct (lower_bound_spec l less Hp) as (Hr & Hlo & Hhi). unfold skiplist_get. fold less.
  set (r := lower_bound less l) in *. rewrite <- (take_drop r l) at 2. rewrite first_value_app.
  2:{ apply Forall_forall. intros e He Hk. apply list_elem_of_lookup in He as [i Hi].
      apply lookup_take_Some in Hi as [Hi Hir]. pose proof (Hlo i e Hir Hi) as H.
      apply Hless in H; [|by eapply list_elem_of_lookup_2]. rewrite Hk in H. by apply Lex.lt_irrefl in H. }
  destruct (l !! r) as [e|] eqn:El.
  - rewrite (drop_S _ _ _ El). cbn [first_value]. destruct (Lex.eqb (mt_key e) key) eqn:Ek; [done|].
    symmetry. apply first_value_None. apply Forall_forall. intros x Hx Hk.
    apply list_elem_of_lookup in Hx as [i Hi]. rewrite lookup_drop in Hi.
    assert (mt_lt e x) as Hex by (eapply (StronglySorted_lookup mt_lt l r (S r + i)); try done; lia).
    assert (less e = false) as Hn by (apply (Hhi r e); [lia|done]).
    assert (Lex.lt (mt_key e) key) as Hlt.
    { destruct Hex as [H|[H _]]; [by rewrite <- Hk|]. rewrite H, Hk, Lex.eqb_refl in Ek. done. }
    apply Hless in Hlt; [congruence|]. by eapply list_elem_of_lookup_2.
  - rewrite drop_ge; [done|]. by apply lookup_ge_None.
Qed.

(** ** Puts and gets *)

(** The tables, oldest first, and the runs they would be flushed as. *)
Definition mem_tables (m : memtable) : list mem_buffer := (snd <$> m_pending m) ++ [m_table m].
Definition mem_runs (m : memtable) : list (list kv) := (fun t => run_of (mb_entries t)) <$> mem_tables m.

Definition buffer_ok (seq_nr : Z) (t : mem_buffer) : Prop :=
  table_ok seq_nr (mb_entries t) /\ Forall (fun e => value_ok (mt_value e)) (mb_entries t).

Record mem_ok (num_writer_threads : nat) (m : memtable) : Prop := {
  mo_seq : 0 <= m_seq_nr m <= UINT64_MAX;
  mo_tables : Forall (buffer_ok (m_seq_nr m)) (mem_tables m);
  mo_arenas : length (mb_arenas (m_table m)) = num_writer_threads;
}.

Lemma buffer_ok_mono a b t : a <= b -> buffer_ok a t -> buffer_ok b t.
Proof.
  intros Hab [[H1 H2] H3]. split; [|done]. split; [done|]. eapply Forall_impl; [exact H2|]. cbv beta. intros; lia.
Qed.

Lemma run_of_values l : Forall (fun e => value_ok (mt_value e)) l -> Forall (fun x => value_ok x.2) (run_of l).
Proof.
  intros H. unfold run_of. apply Forall_fmap. revert H. generalize (@None bytes).
  induction l as [|e l IH]; intros prev H; [constructor|]. apply Forall_cons in H as [He H]. cbn [newest_versions].
  case_bool_decide; [auto|]. constructor; [done|]. auto.
Qed.

Lemma get_in_spec seq_nr tables key :
  seq_nr <= UINT64_MAX -> Forall (buffer_ok seq_nr) tables ->
  get_in tables key =
  match latest (reverse ((fun t => run_of (mb_entries t)) <$> tables)) key with
  | None => Some None
  | Some v => match value_from_span v with Ok v => Some (Some v) | Err _ => None end
  end.
Proof.
  intros Hs. induction 1 as [|t tables [Ht _] _ IH]; [done|]. cbn [get_in].
  rewrite fmap_cons, reverse_cons, latest_app. cbn [latest]. rewrite assoc_run_of.
  rewrite (skiplist_get_spec seq_nr) by done. by destruct (first_value (mb_entries t) key).
Qed.

Lemma memtable_get_spec n m key :
  mem_ok n m ->
  memtable_get m key =
  match latest (mem_runs m) key with
  | None => Some None
  | Some v => match value_from_span v with Ok v => Some (Some v) | Err _ => None end
  end.
Proof.
  intros [Hs Ht _]. unfold memtable_get.
  assert (m_table m :: reverse (snd <$> m_pending m) = reverse (mem_tables m)) as ->
    by (unfold mem_tables; by rewrite reverse_app).
  rewrite (get_in_spec (m_seq_nr m)); [|lia|].
  - unfold mem_runs. by rewrite fmap_reverse, reverse_involutive.
  - apply Forall_forall. intros t Hin. rewrite elem_of_reverse in Hin. rewrite Forall_forall in Ht. auto.
Qed.

(** The values after [key] was set to [v]. *)
Definition updated (old new : bytes -> option bytes) (key v : bytes) : Prop :=
  forall k, new k = if Lex.eqb key k then Some v else old k.

Lemma round_up_16 x : 0 <= x < 2 ^ 63 -> x <= round_up x 16 < x + 16.
Proof. intros Hx. apply (round_up_spec x 4); [lia|lia|]. change (2 ^ 4) with 16. lia. Qed.

Section store.
Context (cap : Z) (n : nat) (key v : bytes) (Hv : value_ok v).

Abbreviation runs m := (latest (mem_runs m)).

Lemma runs_same m m' k :
  m_pending m = m_pending m' -> mb_entries (m_table m) = mb_entries (m_table m') -> runs m k = runs m' k.
Proof. intros H1 H2. unfold mem_runs, mem_tables. rewrite !fmap_app, H1. cbn. by rewrite H2. Qed.

(** Storing a value in the current table. *)
Lemma insert_ok m t :
  mem_ok n m -> m_seq_nr m < UINT64_MAX -> length (mb_arenas t) = n ->
  mb_entries t = skiplist_insert (mk_mt_entry key (m_seq_nr m) v) (mb_entries (m_table m)) ->
  let m' := mk_memtable (u64 (m_seq_nr m + 1)) t (m_pending m) (m_flush_epoch m) (m_gate m) in
  mem_ok n m' /\ m_seq_nr m' = m_seq_nr m + 1 /\ updated (runs m) (runs m') key v.
Proof.
  intros [H1 H2 H3] Hs Ha He. cbv zeta.
  assert (u64 (m_seq_nr m + 1) = m_seq_nr m + 1) as Hu by (apply wrap_small; unfold UINT64_MAX in *; lia).
  unfold mem_tables in H2. apply Forall_app in H2 as [H2 Ht]. apply Forall_singleton in Ht as [Ht1 Ht2].
  split; [|split; [exact Hu|]].
  - split; cbn [m_seq_nr m_table]; [rewrite Hu; lia| |done]. unfold mem_tables. cbn [m_pending m_table].
    rewrite Hu. apply Forall_app. split.
    + eapply Forall_impl; [exact H2|]. intros x. apply buffer_ok_mono. lia.
    + apply Forall_singleton. split; rewrite He; [exact (skiplist_insert_ok (mk_mt_entry key (m_seq_nr m) v) _ Ht1)|].
      apply Forall_forall. intros x Hx. rewrite Forall_forall in Ht2.
      apply skiplist_insert_elem in Hx as [->|Hx]; [done|auto].
  - intros k. unfold mem_runs, mem_tables. cbn [m_pending m_table]. rewrite !fmap_app, !latest_app. cbn.
    rewrite !assoc_run_of, He, first_value_insert by done. cbn [mt_key mt_value]. by destruct (Lex.eqb key k).
Qed.

End store.

Section put.
Context (cap : Z) (n : nat) (tid : nat) (key v : bytes).
Context (Hcap : EXTENT_BYTES <= cap) (Htid : (tid < n)%nat).
Context (Hlen : Z.of_nat (length v) <= EXTENT_BYTES - 16) (Hv : value_ok v).

Abbreviation runs m := (latest (mem_runs m)).

(** The attempt to store the value. *)
Lemma put_attempt_spec m :
  mem_ok n m -> m_seq_nr m < UINT64_MAX ->
  let '(m', r) := put_attempt cap tid m key v in
  mem_ok n m' /\ m_seq_nr m <= m_seq_nr m' <= m_seq_nr m + 1 /\
  (updated (runs m) (runs m') key v \/ r = None /\ forall k, runs m' k = runs m k) /\
  m_pending m' = m_pending m /\ m_flush_epoch m' = m_flush_epoch m /\ m_gate m' = m_gate m /\
  (r <> None -> first_value (mb_entries (m_table m')) key = Some v).
Proof.
  intros Hm Hs. unfold put_attempt.
  destruct (lookup_lt_is_Some_2 (mb_arenas (m_table m)) tid) as [a Ha]; [rewrite (mo_arenas _ _ Hm); lia|].
  rewrite Ha. destruct (allocate_many a _ _) as [a' [|]].
  - set (t := mk_mem_buffer _ _ _ _).
    destruct (insert_ok n key v Hv m t Hm Hs) as (H1 & H2 & H3); [unfold t; cbn [mb_arenas]; by rewrite length_insert, (mo_arenas _ _ Hm)|done|].
    assert (first_value (mb_entries t) key = Some v) as Hf.
    { unfold t. cbn [mb_entries]. rewrite first_value_insert; [by rewrite Lex.eqb_refl|].
      destruct Hm as [_ B _]. unfold mem_tables in B. apply Forall_app in B as [_ B]. rewrite Forall_singleton in B. apply B. }
    destruct (cap <? _); (split; [done|]); (split; [lia|]); (split; [by left|]); done.
  - split; [|split; [cbn [m_seq_nr]; lia|]]; [|split; [right; split; [done|]; intros k; by apply runs_same|done]].
    destruct Hm as [A B C]. split; [done| |cbn [m_table mb_arenas]; by rewrite length_insert].
    unfold mem_tables in *. cbn [m_pending m_table]. apply Forall_app in B as [B1 B2]. apply Forall_app.
    split; [done|]. apply Forall_singleton. rewrite Forall_singleton in B2. exact B2.
Qed.

(** On a fresh table it succeeds. *)
Lemma put_attempt_fresh m :
  0 <= cap -> m_table m = make_mem_buffer cap n -> exists m', put_attempt cap tid m key v = (m', Some (m_seq_nr m)).
Proof.
  intros Hc Ht. unfold put_attempt. rewrite Ht. cbn [make_mem_buffer mb_arenas mb_bytes_written].
  rewrite lookup_replicate_2 by done.
  assert (exists a', allocate_many (make_arena cap) (Z.of_nat (length v)) VALUE_DATA_ALIGNMENT = (a', true)) as [a' ->].
  { unfold allocate_many, allocate_many_impl, make_arena, allocate_new_extent, VALUE_DATA_ALIGNMENT.
    cbn [ar_items_per_extent ar_current_slot_index ar_budget ar_total_allocated ar_extent_size ar_curr_extent].
    unfold EXTENT_BYTES in *. replace (Z.max (4 * 1024 * 1024) 4096) with 4194304 by reflexivity.
    pose proof (round_up_16 (Z.of_nat (length v)) ltac:(lia)).
    rewrite (proj2 (Z.ltb_ge cap _)) by lia.
    cbn [ar_items_per_extent ar_current_slot_index ar_budget ar_total_allocated ar_extent_size ar_curr_extent].
    replace (Z.max 4194304 1) with 4194304 by reflexivity.
    rewrite (proj2 (Z.ltb_ge 4194304 _)) by lia. by eexists. }
  cbv beta iota. rewrite (proj2 (Z.ltb_ge cap 0)) by lia. by eexists.
Qed.

Lemma append_wal_same m e : mem_ok n m -> mem_ok n (append_wal m e) /\ forall k, runs (append_wal m e) k = runs m k.
Proof.
  intros [A B C]. split; [|intros k; by apply runs_same]. split; [done| |done]. unfold mem_tables in *.
  apply Forall_app in B as [B1 B2]. apply Forall_app. split; [done|]. apply Forall_singleton. rewrite Forall_singleton in B2. exact B2.
Qed.

(** What a put still has to do: the steps left, at most, in each place. In
    the first round nothing is known of the table; after the switch it is
    new. *)
Definition put_phase (m : memtable) (pc : put_pc) (rank : nat) : Prop :=
  match pc with
  | PutAcquire current =>
      rank = (if current then 5 else 6)%nat /\ m_seq_nr m + 2 <= UINT64_MAX \/
      rank = (if current then 1 else 2)%nat /\ m_seq_nr m + 1 <= UINT64_MAX /\ m_table m = make_mem_buffer cap n
  | PutSlot _ => rank = 4%nat /\ m_seq_nr m + 1 <= UINT64_MAX
  | PutTable _ => rank = 3%nat /\ m_seq_nr m + 1 <= UINT64_MAX
  | PutDone => rank = 0%nat
  end.

Lemma runs_switch epoch m m' k : flush_switch cap n epoch m = Some m' -> runs m' k = runs m k.
Proof.
  unfold flush_switch. destruct (g_pipelined _); [|done]. intros [= <-].
  unfold mem_runs, mem_tables. cbn [m_pending m_table]. rewrite !fmap_app, latest_app. cbn. by rewrite !latest_app.
Qed.

Lemma mem_ok_same m m' :
  mem_ok n m -> m_seq_nr m' = m_seq_nr m -> m_table m' = m_table m -> m_pending m' = m_pending m -> mem_ok n m'.
Proof. intros [A B C] E1 E2 E3. split; unfold mem_tables in *; by rewrite ?E1, ?E2, ?E3. Qed.

Lemma mem_ok_switch epoch m m' : mem_ok n m -> flush_switch cap n epoch m = Some m' -> mem_ok n m'.
Proof.
  intros [H1 H2 H3]. unfold flush_switch. destruct (g_pipelined _); [|done]. intros [= <-]. split; cbn [m_seq_nr m_table]; [done| |].
  - unfold mem_tables in *. cbn [m_pending m_table]. rewrite fmap_app. cbn. apply Forall_app. split; [done|].
    apply Forall_singleton. repeat constructor.
  - cbn. by rewrite length_replicate.
Qed.

(** A step keeps the memtable well formed and brings the put nearer to its
    end; it stores the value or changes no answer, and the last step leaves
    the value in the current table. *)
Lemma put_step_spec m pc rank m' pc' :
  mem_ok n m -> put_phase m pc rank -> put_async_step cap n tid key v m pc = Some (m', pc') ->
  mem_ok n m' /\ m_seq_nr m <= m_seq_nr m' /\ (exists rank', put_phase m' pc' rank' /\ (rank' < rank)%nat) /\
  (updated (runs m) (runs m') key v \/ pc' <> PutDone /\ forall k, runs m' k = runs m k) /\
  (pc' = PutDone -> first_value (mb_entries (m_table m')) key = Some v).
Proof.
  intros Hm Hp. destruct pc as [[|]|ep|ep|]; cbn [put_async_step].
  - destruct (g_frozen _); [done|]. assert (m_seq_nr m + 1 <= UINT64_MAX) as Hs by (cbn [put_phase] in Hp; lia).
    pose proof (put_attempt_spec m Hm ltac:(lia)) as Ha. pose proof (put_attempt_fresh m) as Hfresh.
    destruct (put_attempt cap tid m key v) as [m1 [s1|]]; destruct Ha as (O1 & S1 & U1 & A1 & A2 & A3 & A4).
    + intros [= <- <-]. destruct (append_wal_same m1 (mk_wal_entry s1 key v) O1) as [O2 U2].
      split; [done|]. split; [cbn [append_wal m_seq_nr]; lia|]. split; [exists 0%nat; split; [done|cbn [put_phase] in Hp; lia]|].
      split; [|intros _; by apply A4]. destruct U1 as [U1|[? _]]; [|done]. left. intros k. by rewrite U2.
    + cbn. intros [= <- <-]. destruct Hp as [[-> Hp]|(_ & _ & Hp)].
      2:{ destruct Hfresh as [m2 E]; [unfold EXTENT_BYTES in *; lia|done|done]. }
      split; [by eapply mem_ok_same|]. split; [cbn [m_seq_nr]; lia|]. split; [exists 4%nat; cbn [put_phase m_seq_nr]; lia|].
      split; [|done]. destruct U1 as [U1|[_ U1]]; [left|right; split; [done|]]; intros k; (rewrite (runs_same _ m1) by done); apply U1.
  - intros [= <- <-]. split; [done|]. split; [done|]. cbn [put_phase] in *. split; [|split; [by right|done]].
    destruct Hp as [[-> Hp]|(-> & Hp & Ht)]; [exists 5%nat|exists 1%nat]; (split; [|lia]); [by left|by right].
  - unfold flush_slot. destruct (g_slots _) as [|slots]; [done|]. cbn. intros [= <- <-]. destruct Hp as [-> Hp].
    split; [by eapply mem_ok_same|]. split; [cbn; lia|]. split; [exists 3%nat; cbn; lia|]. split; [right; split; [done|]; intros k; by apply runs_same|done].
  - destruct (flush_switch cap n ep m) as [m1|] eqn:E; [|done]. cbn. intros [= <- <-]. destruct Hp as [-> Hp].
    split; [by eapply mem_ok_switch|]. assert (m_seq_nr m1 = m_seq_nr m /\ m_table m1 = make_mem_buffer cap n) as [E1 E2]
      by (unfold flush_switch in E; destruct (g_pipelined _); [injection E as <-|]; done).
    split; [lia|]. split; [exists 2%nat; split; [right; split_ands; [done|lia|done]|lia]|].
    split; [right; split; [done|]; intros k; by eapply runs_switch|done].
  - done.
Qed.
End put.

(** *** The slots and the logs *)

Definition holds_slot (pc : put_pc) : nat := match pc with PutTable _ => 1 | _ => 0 end.
Definition switching (pc : put_pc) : bool := match pc with PutSlot _ | PutTable _ => true | _ => false end.

(** Every slot is free, taken by a put, or held by a flush; every log is in
    the pool, in a table, or held by a flush. *)
Record gate_ok (max_pending_flushes : nat) (pc : put_pc) (m : memtable) : Prop := {
  go_frozen : g_frozen (m_gate m) = switching pc;
  go_slots : (g_slots (m_gate m) + length (m_pending m) + g_closing (m_gate m) + holds_slot pc = max_pending_flushes)%nat;
  go_wals : (g_wals (m_gate m) + 1 + (if g_pipelined (m_gate m) then 1 else 0) + length (m_pending m)
             + g_closing (m_gate m) + g_resetting (m_gate m) = max_pending_flushes + 2)%nat;
}.

Section gate.
Context (cap : Z) (n max_pending_flushes tid : nat) (key v : bytes).

Lemma make_memtable_gate epoch : gate_ok max_pending_flushes PutDone (make_memtable cap n max_pending_flushes epoch).
Proof. split; cbn; [done|lia|lia]. Qed.

Lemma gate_start m cur : gate_ok max_pending_flushes PutDone m -> gate_ok max_pending_flushes (PutAcquire cur) m.
Proof. intros [A B C]. by split. Qed.

Lemma attempt_gate m : m_gate (put_attempt cap tid m key v).1 = m_gate m /\ m_pending (put_attempt cap tid m key v).1 = m_pending m.
Proof. unfold put_attempt. repeat case_match; done. Qed.

Lemma put_step_gate m pc m' pc' :
  gate_ok max_pending_flushes pc m -> put_async_step cap n tid key v m pc = Some (m', pc') -> gate_ok max_pending_flushes pc' m'.
Proof.
  intros [A B C]. destruct pc as [[|]|ep|ep|]; cbn [put_async_step switching holds_slot] in *.
  - rewrite A. pose proof (attempt_gate m) as [G1 G2]. destruct (put_attempt cap tid m key v) as [m1 [s|]]; cbn [fst] in *;
      intros [= <- <-]; split; cbn [flush_freeze fst append_wal m_gate m_pending g_frozen g_slots g_pipelined g_wals g_closing g_resetting switching holds_slot];
      rewrite ?G1, ?G2; done.
  - intros [= <- <-]. by split.
  - unfold flush_slot. destruct (g_slots _) as [|slots] eqn:Es; [done|]. cbn. intros [= <- <-]. split; cbn in *; [done|lia|lia].
  - unfold flush_switch. destruct (g_pipelined _) eqn:Ep; [|done]. cbn. intros [= <- <-]. split; cbn in *; rewrite ?length_app; cbn; [done|lia|lia].
  - done.
Qed.

Lemma background_gate b m m' pc :
  gate_ok max_pending_flushes pc m -> background_step b m = Some m' -> gate_ok max_pending_flushes pc m'.
Proof.
  intros [A B C]. destruct b; cbn [background_step].
  - destruct (m_pending m) as [|x pend]; [done|]. intros [= <-]. split; cbn in *; [done|lia|lia].
  - destruct (g_closing _) as [|c]; [done|]. intros [= <-]. split; cbn in *; [done|lia|lia].
  - destruct (g_resetting _) as [|c]; [done|]. intros [= <-]. split; cbn in *; [done|lia|lia].
  - destruct (g_pipelined _), (g_wals _) as [|c]; try done. intros [= <-]. split; cbn in *; [done|lia|lia].
Qed.

(** The background steps that a suspended put waits for. *)
Definition awaited (m : memtable) (pc : put_pc) : list background :=
  match pc with
  | PutSlot _ => match g_slots (m_gate m), g_closing (m_gate m) with
                 | O, O => [FlushDone; ReleaseSlot]
                 | O, S _ => [ReleaseSlot]
                 | _, _ => []
                 end
  | PutTable _ => if g_pipelined (m_gate m) then []
                  else match g_wals (m_gate m) with O => [ReturnWal; MakeTable] | S _ => [MakeTable] end
  | _ => []
  end.

(** They can be taken, and the put goes on after them. *)
Lemma put_goes_on m pc :
  (0 < max_pending_flushes)%nat -> gate_ok max_pending_flushes pc m -> pc <> PutDone ->
  exists m1, background_steps (awaited m pc) m = Some m1 /\ is_Some (put_async_step cap n tid key v m1 pc).
Proof.
  intros Hmax [A B C] Hpc. destruct pc as [[|]|ep|ep|]; [..|done]; cbn [awaited switching holds_slot] in *.
  - exists m. split; [done|]. cbn [put_async_step]. rewrite A. destruct (put_attempt _ _ _ _ _) as [m1 [s|]]; by eexists.
  - exists m. split; [done|]. by eexists.
  - destruct (g_slots (m_gate m)) as [|s] eqn:Es.
    + destruct (g_closing (m_gate m)) as [|c] eqn:Ec.
      * destruct (m_pending m) as [|x pend] eqn:Ep; [cbn in B; lia|]. cbn. rewrite Ep. cbn. rewrite Ec. cbn. eexists. split; [done|]. by eexists.
      * cbn. rewrite Ec. cbn. eexists. split; [done|]. cbn. by eexists.
    + exists m. split; [done|]. cbn. unfold flush_slot. rewrite Es. by eexists.
  - destruct (g_pipelined (m_gate m)) eqn:Ep.
    + exists m. split; [done|]. cbn. unfold flush_switch. rewrite Ep. by eexists.
    + destruct (g_wals (m_gate m)) as [|w] eqn:Ew.
      * destruct (g_resetting (m_gate m)) as [|r] eqn:Er; [lia|]. cbn. rewrite Er. cbn. rewrite Ep. cbn. eexists. split; [done|]. by eexists.
      * cbn. rewrite Ep, Ew. cbn. eexists. split; [done|]. by eexists.
Qed.
End gate.

(** ** Replaying the log *)

Definition full_arena (cap slot : Z) : arena := mk_arena cap EXTENT_BYTES EXTENT_BYTES EXTENT_BYTES true slot.

Lemma make_arena_full cap : EXTENT_BYTES <= cap -> make_arena cap = full_arena cap 0.
Proof.
  intros H. unfold make_arena, allocate_new_extent, full_arena.
  cbn [ar_items_per_extent ar_current_slot_index ar_budget ar_total_allocated ar_extent_size ar_curr_extent].
  unfold EXTENT_BYTES in *. replace (Z.max (4 * 1024 * 1024) 4096) with 4194304 by reflexivity.
  by rewrite (proj2 (Z.ltb_ge cap _)) by lia.
Qed.

Lemma allocate_full cap slot len :
  0 <= slot -> 0 <= len -> slot + len + 16 <= EXTENT_BYTES ->
  exists slot', allocate_many (full_arena cap slot) len VALUE_DATA_ALIGNMENT = (full_arena cap slot', true) /\
    slot <= slot' <= slot + len + 16.
Proof.
  intros H1 H2 H3. unfold allocate_many, allocate_many_impl, VALUE_DATA_ALIGNMENT, full_arena.
  cbn [ar_items_per_extent ar_current_slot_index ar_budget ar_total_allocated ar_extent_size ar_curr_extent].
  pose proof (round_up_16 len ltac:(unfold EXTENT_BYTES in *; lia)).
  rewrite (proj2 (Z.ltb_ge EXTENT_BYTES _)) by lia. eexists. split; [done|]. lia.
Qed.

(** The value of a key after replaying a log, as that of the last entry. *)
Definition last_value (l : list wal_entry) (key : bytes) : option bytes :=
  latest ((fun e => [(we_key e, we_value e)]) <$> l) key.

Definition log_size (l : list wal_entry) : Z :=
  foldr (fun e acc => Z.of_nat (length (we_value e)) + 16 + acc) 0 l.

Lemma log_size_nonneg l : 0 <= log_size l.
Proof. unfold log_size. induction l as [|e l IH]; cbn [foldr]; lia. Qed.

Definition replayed (threshold : Z) (l : list wal_entry) : list wal_entry :=
  filter (fun e => threshold < we_seq_nr e) l.

Section replay.
Context (cap : Z) (n : nat) (Hn : (0 < n)%nat) (threshold : Z).

Lemma replay_loop l m mx c slot :
  mem_ok n m -> m_seq_nr m = Z.of_nat c -> Z.of_nat c <= mx + 1 -> (c = 0%nat -> mx = 0) ->
  mb_arenas (m_table m) !! 0%nat = Some (full_arena cap slot) -> 0 <= slot ->
  slot + log_size l <= EXTENT_BYTES ->
  StronglySorted (fun a b => we_seq_nr a < we_seq_nr b) l ->
  Forall (fun e => (c = 0%nat \/ mx < we_seq_nr e) /\ 0 <= we_seq_nr e < UINT64_MAX /\ value_ok (we_value e)) l ->
  exists m' mx', foldl (replay_entry (Some threshold)) (Some (m, mx, c)) l
      = Some (m', mx', (c + length (replayed threshold l))%nat) /\
    mem_ok n m' /\ m_seq_nr m' <= mx' + 1 /\
    mx <= mx' /\ Forall (fun e => we_seq_nr e <= mx') (replayed threshold l) /\
    (mx' = mx \/ exists e, e ∈ l /\ mx' = we_seq_nr e) /\
    forall k, latest (mem_runs m') k =
      match last_value (replayed threshold l) k with Some v => Some v | None => latest (mem_runs m) k end.
Proof.
  revert m mx c slot. induction l as [|e l IH]; intros m mx c slot Hm Hc Hmx Hz Ha Hs Hsz Hsort Hf.
  { exists m, mx. rewrite Nat.add_0_r. split_ands; try done; [lia|by left]. }
  apply Forall_cons in Hf as [(He1 & He2 & He3) Hf]. apply StronglySorted_inv in Hsort as [Hsort Hlt].
  cbn [log_size foldr] in Hsz. fold (log_size l) in Hsz. pose proof (log_size_nonneg l).
  cbn [foldl]. unfold replay_entry at 2. cbn [mbind option_bind]. unfold replayed. rewrite filter_cons.
  destruct (Z.leb_spec (we_seq_nr e) threshold) as [Hskip|Hkeep].
  - rewrite decide_False by lia.
    destruct (IH m mx c slot) as (m' & mx' & H1 & H2 & H3 & H4 & H5 & H6 & H7); try done; [lia|].
    exists m', mx'. split_ands; try done. destruct H6 as [->|(x & Hx & ->)]; [by left|right]. exists x. split; [by right|done].
  - rewrite decide_True by lia. rewrite Ha. cbn [mbind option_bind].
    destruct (allocate_full cap slot (Z.of_nat (length (we_value e)))) as (slot' & -> & Hsl); [done|lia|lia|].
    cbv beta iota. set (t := mk_mem_buffer _ _ _ _).
    destruct (insert_ok n (we_key e) (we_value e) He3 m t) as (I1 & I2 & I3); [done|lia| |done|].
    { unfold t. cbn [mb_arenas]. by rewrite length_insert, (mo_arenas _ _ Hm). }
    destruct (IH _ (Z.max mx (we_seq_nr e)) (S c) slot' I1) as (m' & mx' & H1 & H2 & H3 & H4 & H5 & H6 & H7).
    + rewrite I2. lia.
    + lia.
    + done.
    + unfold t. cbn [m_table mb_arenas]. apply list_lookup_insert_eq. by rewrite (mo_arenas _ _ Hm).
    + lia.
    + lia.
    + done.
    + rewrite !Forall_forall in *. intros x Hx. destruct (Hf x Hx) as (A & B & C). split; [|done].
      right. pose proof (Hlt x Hx). destruct A as [A|A]; [rewrite (Hz A)|]; lia.
    + exists m', mx'. unfold replayed in *. cbn [length]. rewrite <- plus_n_Sm.
      split; [exact H1|]. split; [done|]. split; [done|]. split; [lia|]. split; [constructor; [lia|done]|]. split.
      * destruct H6 as [E|(x & Hx & ->)]; [|right; exists x; split; [by right|done]].
        destruct (Z.max_spec mx (we_seq_nr e)) as [[_ E']|[_ E']]; rewrite E' in E; [right|by left].
        exists e. split; [by left|done].
      * intros k. rewrite H7. unfold last_value. rewrite fmap_cons. cbn [latest assoc fst snd].
        destruct (latest ((fun e0 => [(we_key e0, we_value e0)]) <$> filter (fun e0 => threshold < we_seq_nr e0) l) k); [done|].
        rewrite I3. by destruct (Lex.eqb (we_key e) k).
Qed.
End replay.

Lemma make_memtable_ok cap n mpf epoch : mem_ok n (make_memtable cap n mpf epoch).
Proof.
  split; cbn; [unfold UINT64_MAX; lia| |by rewrite length_replicate].
  unfold mem_tables. cbn. apply Forall_singleton. repeat constructor.
Qed.

Lemma latest_empty_mem cap n mpf epoch k : latest (mem_runs (make_memtable cap n mpf epoch)) k = None.
Proof. done. Qed.

Lemma skip_all threshold s l :
  Forall (fun e => we_seq_nr e <= threshold) l ->
  foldl (replay_entry (Some threshold)) (Some s) l = Some s.
Proof.
  induction 1 as [|e l He _ IH]; [done|]. cbn [foldl]. unfold replay_entry at 2. destruct s as [[m mx] c].
  cbn [mbind option_bind]. by rewrite (proj2 (Z.leb_le _ _) He).
Qed.

(** ** A put among background steps *)

Section put_run.
Context (cap : Z) (n tid : nat) (key v : bytes) (m0 : memtable).

(** The states of a put that started on [m0], with the tables that flushes
    have taken to the SSTs since, oldest first, and the count of its own
    steps. *)
Inductive put_run : memtable -> put_pc -> list mem_buffer -> nat -> Prop :=
  | put_run_start current : put_run m0 (PutAcquire current) [] 0
  | put_run_step m pc gone steps m' pc' :
      put_run m pc gone steps -> put_async_step cap n tid key v m pc = Some (m', pc') -> put_run m' pc' gone (S steps)
  | put_run_background m pc gone steps b m' :
      put_run m pc gone steps -> background_step b m = Some m' -> put_run m' pc (gone ++ erased b m) steps.
End put_run.

(** A background step moves at most the oldest table out of the memtable. *)
Lemma background_tables b m m' : background_step b m = Some m' ->
  m_seq_nr m' = m_seq_nr m /\ m_table m' = m_table m /\ m_flush_epoch m' = m_flush_epoch m /\ mem_tables m = erased b m ++ mem_tables m'.
Proof.
  destruct b; cbn [background_step erased].
  - unfold mem_tables. destruct (m_pending m) as [|[e t] pend]; [done|]. by intros [= <-].
  - destruct (g_closing _); [done|]. by intros [= <-].
  - destruct (g_resetting _); [done|]. by intros [= <-].
  - destruct (g_pipelined (m_gate m)), (g_wals (m_gate m)); try done. by intros [= <-].
Qed.

Lemma background_ok n b m m' : mem_ok n m -> background_step b m = Some m' -> mem_ok n m'.
Proof.
  intros [A B C] E. apply background_tables in E as (E1 & E2 & _ & E3). rewrite E3 in B. apply Forall_app in B as [_ B].
  split; by rewrite ?E1, ?E2.
Qed.

Lemma background_phase cap n b m m' pc r : background_step b m = Some m' -> put_phase cap n m pc r -> put_phase cap n m' pc r.
Proof.
  intros E Hp. apply background_tables in E as (E1 & E2 & _ & _). destruct pc; cbn [put_phase] in *; by rewrite ?E1, ?E2.
Qed.

Definition runs_of (ts : list mem_buffer) : list (list kv) := (fun t => run_of (mb_entries t)) <$> ts.

Record run_inv (cap : Z) (n mpf : nat) (key v : bytes) (m0 m : memtable) (pc : put_pc) (gone : list mem_buffer) (steps : nat) : Prop := {
  ri_mem : mem_ok n m;
  ri_gate : gate_ok mpf pc m;
  ri_phase : exists rank, put_phase cap n m pc rank /\ (steps + rank <= 6)%nat;
  ri_gone : Forall (buffer_ok (m_seq_nr m)) gone;
  ri_other k : k <> key -> latest (runs_of (gone ++ mem_tables m)) k = latest (mem_runs m0) k;
  ri_stored : pc = PutDone -> first_value (mb_entries (m_table m)) key = Some v;
}.

Lemma put_run_inv cap n mpf tid key v m0 m pc gone steps :
  EXTENT_BYTES <= cap -> (tid < n)%nat -> Z.of_nat (length v) <= EXTENT_BYTES - 16 -> value_ok v ->
  mem_ok n m0 -> gate_ok mpf PutDone m0 -> m_seq_nr m0 + 2 <= UINT64_MAX ->
  put_run cap n tid key v m0 m pc gone steps -> run_inv cap n mpf key v m0 m pc gone steps.
Proof.
  intros Hcap Htid Hlen Hv Hm Hg Hs. induction 1 as [cur|m pc gone steps m' pc' _ [I1 I2 (r & I3 & I4) I5 I6 _] E|m pc gone steps b m' _ [I1 I2 (r & I3 & I4) I5 I6 I7] E].
  - split; [done|by apply gate_start| |constructor|done|done]. exists (if cur then 5 else 6)%nat. split; [by left|destruct cur; lia].
  - destruct (put_step_spec cap n tid key v Hcap Htid Hlen Hv m pc r m' pc' I1 I3 E) as (O & S1 & (r' & P & Hr) & U & St).
    split; [done|by eapply put_step_gate| | | |done].
    + exists r'. split; [done|lia].
    + eapply Forall_impl; [exact I5|]. intros t. by apply buffer_ok_mono.
    + intros k Hk. rewrite <- (I6 k Hk). unfold runs_of. rewrite !fmap_app, !latest_app. fold (mem_runs m) (mem_runs m').
      destruct U as [U|[_ U]]; rewrite U; [by rewrite Lex_eqb_neq by done|done].
  - pose proof (background_tables b m m' E) as (E1 & E2 & _ & E3). split.
    + by eapply background_ok.
    + by eapply background_gate.
    + exists r. split; [by eapply background_phase|done].
    + rewrite E1. apply Forall_app. split; [done|]. destruct I1 as [_ B _]. rewrite E3 in B. by apply Forall_app in B as [B _].
    + intros k Hk. rewrite <- (I6 k Hk), E3. by rewrite app_assoc.
    + by rewrite E2.
Qed.

(** ** Properties *)


(** A memtable over its budget with its only flush slot taken: the put
    freezes the table, waits for the pending flush, switches and stores. *)
Definition busy_memtable : memtable :=
  mk_memtable 5 (mk_mem_buffer [] (5 * 1024 * 1024) [make_arena EXTENT_BYTES] []) [(0, make_mem_buffer EXTENT_BYTES 1)] 1
    (mk_gate false 0 true 0 0 0).


(** An arena whose budget does not cover one extent. *)
Definition dead_arena (a : arena) : Prop :=
  ar_budget a < EXTENT_BYTES /\ ar_extent_size a = EXTENT_BYTES /\ 0 <= ar_total_allocated a /\ ar_curr_extent a = false.

Lemma dead_make_arena cap : cap < EXTENT_BYTES -> dead_arena (make_arena cap).
Proof.
  intros Hcap. unfold make_arena, allocate_new_extent, EXTENT_BYTES in *.
  cbn [ar_items_per_extent ar_current_slot_index ar_budget ar_total_allocated ar_extent_size ar_curr_extent].
  replace (Z.max (4 * 1024 * 1024) 4096) with 4194304 by reflexivity. rewrite (proj2 (Z.ltb_lt cap _)) by lia.
  split_ands; unfold EXTENT_BYTES; cbn; lia || done.
Qed.

Lemma dead_allocate a len : dead_arena a ->
  dead_arena (allocate_many a len VALUE_DATA_ALIGNMENT).1 /\ (allocate_many a len VALUE_DATA_ALIGNMENT).2 = false.
Proof.
  intros (H1 & H2 & H3 & H4). unfold allocate_many, allocate_many_impl.
  destruct (_ <? _); [destruct (_ <? _); [by split_ands|]|rewrite H4; by split_ands].
  unfold allocate_new_extent. rewrite H2, (proj2 (Z.ltb_lt (ar_budget a) _)) by lia. by split_ands.
Qed.

(** A memtable budget below one arena extent accepts no write. The
    budget check in the arena uses the configured value, not the one
    raised to an extent: no extent is ever allocated, and a put on a new
    memtable switches tables for ever, whatever the flushes do beside. *)
Theorem small_budget_never_stores (cap : Z) (n mpf tid : nat) (epoch : Z) (key value : bytes) (t : value_type)
    (m : memtable) (pc : put_pc) (gone : list mem_buffer) (steps : nat) (Hcap : cap < EXTENT_BYTES)
    (Hrun : put_run cap n tid key (tagged_value t value) (make_memtable cap n mpf epoch) m pc gone steps) :
  pc <> PutDone.
Proof.
  generalize dependent (tagged_value t value). intros v Hrun.
  assert (Forall dead_arena (mb_arenas (make_mem_buffer cap n))) as Hnew by (apply Forall_replicate; by apply dead_make_arena).
  enough (Forall dead_arena (mb_arenas (m_table m)) /\ pc <> PutDone) by tauto.
  induction Hrun as [cur|m pc gone steps m' pc' _ [I _] E|m pc gone steps b m' _ IH E]; [done| |].
  - destruct pc as [[|]|ep|ep|]; cbn [put_async_step] in E.
    + destruct (g_frozen _); [done|]. unfold put_attempt in E. destruct (mb_arenas (m_table m) !! tid) as [a|] eqn:Ea; [|by injection E as <- <-].
      destruct (dead_allocate a (Z.of_nat (length v))) as [D1 D2]; [rewrite Forall_lookup in I; by eapply I|].
      destruct (allocate_many a _ _) as [a' ok]. cbn in D1, D2. subst ok. injection E as <- <-. split; [|done]. cbn. by apply Forall_insert.
    + by injection E as <- <-.
    + unfold flush_slot in E. destruct (g_slots _); [done|]. by injection E as <- <-.
    + unfold flush_switch in E. destruct (g_pipelined _); [|done]. by injection E as <- <-.
    + done.
  - apply background_tables in E as (_ & -> & _). done.
Qed.

(** With no flush slot configured, a put that has to switch tables waits for
    ever. *)
Theorem no_flush_slot_hangs (cap : Z) (n tid : nat) (epoch ep : Z) (key v : bytes) (m : memtable) (gone : list mem_buffer) (steps : nat)
    (Hrun : put_run cap n tid key v (make_memtable cap n 0 epoch) m (PutSlot ep) gone steps) :
  put_async_step cap n tid key v m (PutSlot ep) = None.
Proof.
  assert (gate_ok 0 (PutSlot ep) m) as [_ Hs _].
  { induction Hrun; [apply gate_start, make_memtable_gate|by eapply put_step_gate|by eapply background_gate]. }
  cbn. unfold flush_slot. by replace (g_slots (m_gate m)) with 0%nat by lia.
Qed.

Lemma small_budget_witness :
  PutAcquire true <> PutDone.
Proof.
  refine (small_budget_never_stores (1024 * 1024) 4 2 0 0 [1; 2] [7] IN_PLACE_VALUE _ _ [] 1 _
    (put_run_step _ _ _ _ _ _ _ _ _ _ _ _ (put_run_start _ _ _ _ _ _ false) eq_refl)).
  unfold EXTENT_BYTES. lia.
Defined.

(** Recovery restores what the log holds beyond the SSTs. For a log
    in the order of its sequence numbers that fits an arena extent,
    recovery succeeds; reading a key then gives the value of the last
    entry whose number is above the largest one the SSTs record, and, when
    there is such an entry, later writes are numbered above the whole
    replayed log. *)
Theorem recovery_restores_log (cap : Z) (n mpf : nat) (epoch sst_max : Z) (wal : list wal_entry)
    (Hcap : EXTENT_BYTES <= cap) (Hn : (0 < n)%nat) (Hsize : log_size wal <= EXTENT_BYTES)
    (Hsort : StronglySorted (fun a b => we_seq_nr a < we_seq_nr b) wal)
    (Hwal : Forall (fun e => 0 <= we_seq_nr e < UINT64_MAX /\ value_ok (we_value e)) wal) :
  exists m, recover cap n mpf epoch sst_max wal = Some m /\ mem_ok n m /\
    (forall key, memtable_get m key =
       match last_value (replayed sst_max wal) key with
       | None => Some None
       | Some v => match value_from_span v with Ok x => Some (Some x) | Err _ => None end
       end) /\
    Forall (fun e => we_seq_nr e < m_seq_nr m) (replayed sst_max wal).
Proof.
  unfold recover, replay_wal.
  destruct (replay_loop cap n Hn sst_max wal (make_memtable cap n mpf epoch) 0 0 0)
    as (m & mx & -> & H2 & H3 & H4 & H5 & H6 & H7); try done; try lia.
  { apply make_memtable_ok. }
  { cbn [make_memtable m_table make_mem_buffer mb_arenas]. rewrite lookup_replicate_2 by done.
    by rewrite make_arena_full. }
  { eapply Forall_impl; [exact Hwal|]. cbv beta. intros e [? ?]. split; [by left|done]. }
  cbn [mbind option_bind]. rewrite Nat.add_0_l.
  assert (0 <= mx < UINT64_MAX) as Hmx.
  { destruct H6 as [->|(e & He & ->)]; [unfold UINT64_MAX; lia|]. rewrite Forall_forall in Hwal. by apply Hwal. }
  assert (u64 (mx + 1) = mx + 1) as Hu by (apply wrap_small; unfold UINT64_MAX in *; lia).
  eexists. split; [done|]. destruct (Nat.ltb_spec 0 (length (replayed sst_max wal))) as [Hc|Hc].
  - assert (mem_ok n (mk_memtable (u64 (mx + 1)) (m_table m) (m_pending m) (m_flush_epoch m) (m_gate m))) as Hok.
    { destruct H2 as [A B C]. split; [cbn [m_seq_nr]; lia| |done]. cbn [m_seq_nr]. rewrite Hu.
      eapply Forall_impl; [exact B|]. intros t. by apply buffer_ok_mono. }
    split; [done|]. split.
    + intros key. rewrite (memtable_get_spec n) by done.
      change (mem_runs (mk_memtable _ _ _ _ _)) with (mem_runs m). rewrite H7, latest_empty_mem.
      by destruct (last_value (replayed sst_max wal) key).
    + cbn [m_seq_nr]. rewrite Hu. eapply Forall_impl; [exact H5|]. cbv beta. intros; lia.
  - split; [done|]. destruct (replayed sst_max wal); [|cbn in Hc; lia]. split; [|constructor].
    intros key. rewrite (memtable_get_spec n) by done. by rewrite H7.
Qed.

Lemma recovery_witness :
  exists m, recover (32 * 1024 * 1024) 2 4 5 10
      [mk_wal_entry 10 [1; 1] [1; 7]; mk_wal_entry 11 [1; 2] [1; 8]; mk_wal_entry 12 [1; 2] [2]] = Some m /\
    memtable_get m [1; 2] = Some (Some VTombstone) /\ memtable_get m [1; 1] = Some None.
Proof.
  destruct (recovery_restores_log (32 * 1024 * 1024) 2 4 5 10
      [mk_wal_entry 10 [1; 1] [1; 7]; mk_wal_entry 11 [1; 2] [1; 8]; mk_wal_entry 12 [1; 2] [2]])
    as (m & H1 & _ & H2 & _).
  - unfold EXTENT_BYTES. lia.
  - lia.
  - vm_compute. discriminate.
  - repeat constructor.
  - repeat constructor; vm_compute; done.
  - exists m. split; [done|]. split; apply H2.
Defined.

(** Writes made after an empty recovery are lost by the next one.
    When nothing is replayed the sequence counter stays at zero, whatever
    number the SSTs record. The first write after such a start, or the
    first write ever, is logged under number zero, and the next recovery
    skips it as already persisted: the key that was acknowledged is
    gone. *)
Theorem recovery_loses_first_write (cap : Z) (n mpf tid : nat) (epoch epoch' sst_max : Z) (key value : bytes)
    (Hcap : EXTENT_BYTES <= cap) (Htid : (tid < n)%nat) (Hmax : 0 <= sst_max)
    (Hlen : Z.of_nat (length value) + 17 <= EXTENT_BYTES) :
  exists m0 m1 m2,
    recover cap n mpf epoch sst_max [] = Some m0 /\
    put_async_step cap n tid key (tagged_value IN_PLACE_VALUE value) m0 (PutAcquire true) = Some (m1, PutDone) /\
    memtable_get m1 key = Some (Some (VBytes value)) /\
    recover cap n mpf epoch' sst_max (mb_wal (m_table m1)) = Some m2 /\
    memtable_get m2 key = Some None.
Proof.
  exists (make_memtable cap n mpf epoch). set (v := tagged_value IN_PLACE_VALUE value).
  destruct (put_attempt_fresh cap n tid key v Hcap Htid) with (m := make_memtable cap n mpf epoch) as [m1 E];
    [unfold v; cbn [tagged_value length]; lia|unfold EXTENT_BYTES in *; lia|done|].
  pose proof (put_attempt_spec cap n tid key v Htid) as Hp.
  specialize (Hp ltac:(by unfold v, value_ok) (make_memtable cap n mpf epoch) (make_memtable_ok cap n mpf epoch) ltac:(cbn; unfold UINT64_MAX; lia)).
  rewrite E in Hp. destruct Hp as (O1 & _ & [U1|[? _]] & _); [|done].
  destruct (append_wal_same n m1 (mk_wal_entry (m_seq_nr (make_memtable cap n mpf epoch)) key v) O1) as [O2 U2].
  eexists _, (make_memtable cap n mpf epoch'). split; [done|]. split; [unfold put_async_step; cbn [make_memtable m_gate g_frozen]; by rewrite E|]. split.
  { rewrite (memtable_get_spec n) by done. rewrite U2, U1, Lex.eqb_refl. done. }
  split; [|done]. unfold recover, replay_wal.
  assert (mb_wal (m_table m1) = []) as Hw.
  { revert E. unfold put_attempt. cbn [make_memtable m_table make_mem_buffer mb_arenas mb_wal].
    repeat case_match; intros [= <-]; done. }
  cbn [append_wal m_table mb_wal]. rewrite Hw, skip_all; [done|]. apply Forall_singleton. cbn. lia.
Qed.

Lemma recovery_loses_witness :
  exists m0 m1 m2,
    recover (32 * 1024 * 1024) 1 4 3 500 [] = Some m0 /\
    put_async_step (32 * 1024 * 1024) 1 0 [1; 2] (tagged_value IN_PLACE_VALUE [7]) m0 (PutAcquire true) = Some (m1, PutDone) /\
    recover (32 * 1024 * 1024) 1 4 4 500 (mb_wal (m_table m1)) = Some m2 /\
    memtable_get m1 [1; 2] = Some (Some (VBytes [7])) /\ memtable_get m2 [1; 2] = Some None.
Proof.
  destruct (recovery_loses_first_write (32 * 1024 * 1024) 1 4 0 3 4 500 [1; 2] [7])
    as (m0 & m1 & m2 & H1 & H2 & H3 & H4 & H5); try lia; try (unfold EXTENT_BYTES; cbn; lia).
  exists m0, m1, m2. done.
Defined.
