(* ===== verification/ConcurrentMemtable.v ===== *)
(** * Memtables on the concurrent skiplist

    The comparator of the memtable is a strict weak order, the ordered set
    of Memtable is the abstract set of the skiplist, and a lookup that runs
    beside insertions returns the newest version of its key, in whatever
    order the versions were inserted. *)

From stdpp Require Import base list numbers option sorting.
From Stdlib Require Import ZArith Lia.
From S2P Require Import Prelude StdAlgo Types Utils Merge Sst SstManager Lsm Memtable Skiplist SkiplistInv SkiplistSteps SkiplistLin.

Local Open Scope Z_scope.

#[export] Instance memtable_entry_inhabited : Inhabited memtable_entry := populate (mk_mt_entry [] 0 []).

#[export] Instance memtable_comparator : Comparator memtable_cmp.
Proof.
  split.
  - intros x. unfold memtable_cmp. rewrite (proj2 (Lex.compare_eq _ _)) by done. apply Z.ltb_irrefl.
  - intros x y z. rewrite !memtable_cmp_lt. apply mt_lt_trans.
  - intros x y z. unfold memtable_cmp. destruct (Lex.compare (mt_key x) (mt_key y)) eqn:E1; [| |].
    + apply Lex.compare_eq in E1 as ->. destruct (Lex.compare (mt_key y) (mt_key z)); [|done|done].
      rewrite !Z.ltb_ge. lia.
    + done.
    + intros _. destruct (Lex.compare (mt_key y) (mt_key z)) eqn:E2; [|done|].
      * apply Lex.compare_eq in E2 as <-. by rewrite E1.
      * intros _. rewrite Lex.compare_antisym in E1, E2. destruct (Lex.compare (mt_key y) (mt_key x)) eqn:E3; try done.
        destruct (Lex.compare (mt_key z) (mt_key y)) eqn:E4; try done.
        rewrite Lex.compare_antisym. by rewrite (Lex.lt_trans _ _ _ E4 E3).
Qed.

Lemma set_insert_skiplist e l : set_insert memtable_cmp e l = skiplist_insert e l.
Proof. induction l as [|x l IH]; [done|]. cbn. by rewrite IH. Qed.

Lemma replay_skiplist log : replay memtable_cmp log = foldl (fun l e => skiplist_insert e l) [] log.*2.
Proof.
  unfold replay. generalize (@nil memtable_entry). induction log as [|x log IH]; intros l; [done|]. cbn.
  by rewrite set_insert_skiplist, IH.
Qed.

(** The search of Memtable finds the node the skiplist finds. *)
Lemma first_lower_bound d l :
  StronglySorted (fun x y => memtable_cmp x y = true) l ->
  first_not_less memtable_cmp d l = l !! lower_bound (fun x => memtable_cmp x d) l.
Proof.
  intros Hs. assert (Hp : prefix_pred l (fun x => memtable_cmp x d)).
  { intros i j x y Hij Hx Hy Hl. cbn in *. destruct (decide (i = j)) as [->|Hne]; [congruence|].
    assert (Hxy : memtable_cmp x y = true) by (apply (StronglySorted_lookup (fun x y => memtable_cmp x y = true) l i j); try done; lia). exact (cmp_trans _ _ _ Hxy Hl). }
  destruct (lower_bound_spec l _ Hp) as (Hr & Hlo & Hhi). set (r := lower_bound _ l) in *.
  rewrite <- (take_drop r l) at 1. rewrite first_app.
  - rewrite first_head, head_lookup, lookup_drop; [f_equal; lia|]. intros x Hx.
    rewrite head_lookup, lookup_drop in Hx. apply (Hhi (r + 0)%nat); [lia|done].
  - apply Forall_forall. intros x Hx. apply elem_of_take in Hx as (k & Hk & Hlt). by apply (Hlo k).
Qed.

Section memtable.
Context (getSizeLimit : nat -> nat).

Definition MAX_HEIGHT : nat := 24.
Definition default_entry : memtable_entry := mk_mt_entry [] 0 [].

Notation state := (state (T := memtable_entry)).
Notation reachable := (reachable memtable_cmp default_entry getSizeLimit MAX_HEIGHT).

Definition lookup_op (key : bytes) : op := LowerBound (mk_mt_entry key UINT64_MAX []).

(** The value [mem_buffer::get] takes from the node it finds. *)
Definition value_at (s : state) (key : bytes) (o : option nat) : option bytes :=
  match o ≫= (s_heap s !!.) with
  | Some n => if Lex.eqb (mt_key (n_data n)) key then Some (mt_value (n_data n)) else None
  | None => None
  end.

(** The newest version of a key among entries. *)
Definition newest (l : list memtable_entry) (key : bytes) (v : option bytes) : Prop :=
  match v with
  | Some v => exists e, e ∈ l /\ mt_key e = key /\ mt_value e = v /\ forall e', e' ∈ l -> mt_key e' = key -> mt_seq e' <= mt_seq e
  | None => forall e, e ∈ l -> mt_key e <> key
  end.

Lemma first_newest l key o :
  StronglySorted (fun x y => memtable_cmp x y = true) l -> Forall (fun e => mt_seq e <= UINT64_MAX) l ->
  first_not_less memtable_cmp (mk_mt_entry key UINT64_MAX []) l = o ->
  newest l key (match o with Some e => if Lex.eqb (mt_key e) key then Some (mt_value e) else None | None => None end).
Proof.
  intros Hs Hmax <-. pose proof (first_not_less_spec memtable_cmp (mk_mt_entry key UINT64_MAX []) l Hs) as Hf.
  rewrite Forall_forall in Hmax.
  assert (Hk : forall e, e ∈ l -> mt_key e = key -> memtable_cmp e (mk_mt_entry key UINT64_MAX []) = false).
  { intros e He Hkey. unfold memtable_cmp. cbn. rewrite (proj2 (Lex.compare_eq _ _) Hkey). apply Z.ltb_ge. by apply Hmax. }
  destruct (first_not_less _ _ l) as [x|]; [|intros e He Hkey; specialize (Hf e He); rewrite Hk in Hf; done].
  destruct Hf as (H1 & H2 & H3). destruct (Lex.eqb (mt_key x) key) eqn:Ex.
  - apply Lex.eqb_eq in Ex. exists x. split_and!; try done. intros e He Hkey. destruct (H3 e He (Hk e He Hkey)) as [->|Hlt]; [lia|].
    apply memtable_cmp_lt in Hlt as [Hlt|[_ Hlt]]; [|lia]. exfalso. rewrite Ex, Hkey in Hlt. by apply Lex.lt_irrefl in Hlt.
  - intros e He Hkey. destruct (H3 e He (Hk e He Hkey)) as [->|Hlt]; [rewrite Hkey, Lex.eqb_refl in Ex; done|].
    unfold memtable_cmp in H2, Hlt. cbn in H2. rewrite Hkey in Hlt. unfold Lex.eqb in Ex. by destruct (Lex.compare (mt_key x) key).
Qed.

(** The list under a memtable holds what the sequential insertions of
    Memtable give in the order of the log, and a lookup that runs beside
    insertions returns what the lookup of Memtable returns after those that
    were made before one point of the call. *)
Theorem concurrent_memtable_refines hh ops s :
  (0 < hh)%nat -> reachable hh ops s ->
  contents s = foldl (fun l e => skiplist_insert e l) [] (s_log s).*2 /\
  forall j t key o, s_threads s !! j = Some t -> t_op t = lookup_op key -> t_pc t = Done (Position o) ->
    exists m, (t_start t <= m <= t_last t)%nat /\
      value_at s key o = skiplist_get (foldl (fun l e => skiplist_insert e l) [] (take m (s_log s)).*2) key.
Proof.
  intros Hh Hr. destruct (list_reachable_inv _ _ _ _ hh ops s Hh Hr) as [C Hi]. split.
  { by rewrite (contents_data memtable_cmp s C Hi), (i_log _ _ _ Hi), replay_skiplist. }
  intros j t key o Ht Hop Hd. pose proof (inv_answers memtable_cmp s C j t _ Hi Ht Hd) as Ha. unfold answers in Ha.
  rewrite Hop in Ha. cbn in Ha. destruct Ha as (_ & m & Hm & Hf). exists m. split; [done|].
  rewrite first_lower_bound in Hf by exact (replay_strict memtable_cmp _). rewrite replay_skiplist in Hf.
  unfold skiplist_get, value_at. cbn zeta. rewrite Hf. by destruct (o ≫= (s_heap s !!.)).
Qed.

(** C10: a lookup of a key that runs beside insertions, in any
    interleaving, finds the version with the highest sequence number among
    the insertions made before one point of the call, or nothing when none
    of them has the key; versions may have been inserted in any order. *)
Theorem concurrent_lookup_newest hh ops s j t key o :
  (0 < hh)%nat -> (forall i e, ops !! i = Some (Insert e) -> mt_seq e <= UINT64_MAX) ->
  reachable hh ops s -> s_threads s !! j = Some t -> t_op t = lookup_op key -> t_pc t = Done (Position o) ->
  exists m, (t_start t <= m <= t_last t)%nat /\ newest (take m (s_log s)).*2 key (value_at s key o).
Proof.
  intros Hh Hops Hr Ht Hop Hd. destruct (list_reachable_inv _ _ _ _ hh ops s Hh Hr) as [C Hi].
  pose proof (inv_answers memtable_cmp s C j t _ Hi Ht Hd) as Ha. unfold answers in Ha. rewrite Hop in Ha. cbn in Ha.
  destruct Ha as (_ & m & Hm & Hf). exists m. split; [done|].
  assert (Hel : forall e, e ∈ replay memtable_cmp (take m (s_log s)) <-> e ∈ (take m (s_log s)).*2) by (intros e; by eapply replay_elem).
  assert (Hmax : Forall (fun e => mt_seq e <= UINT64_MAX) (replay memtable_cmp (take m (s_log s)))).
  { apply Forall_forall. intros e He%Hel. apply list_elem_of_fmap in He as ([i e'] & -> & He). apply elem_of_take in He as (k & He & _).
    apply list_elem_of_lookup_2 in He. destruct (i_calls _ _ _ Hi i e' He) as (u & Hu & Ho).
    apply (Hops i). rewrite <- (reachable_ops _ _ _ _ hh ops s Hr), list_lookup_fmap, Hu. cbn. by rewrite Ho. }
  pose proof (first_newest _ key _ (replay_strict memtable_cmp _) Hmax Hf) as Hn.
  assert (E : value_at s key o = match n_data <$> (o ≫= (s_heap s !!.)) with
    Some e => if Lex.eqb (mt_key e) key then Some (mt_value e) else None | None => None end).
  { unfold value_at. by destruct (o ≫= (s_heap s !!.)). }
  rewrite <- E in Hn. clear E.
  destruct (value_at s key o) as [v|]; cbn in *.
  - destruct Hn as (e & He & H1 & H2 & H3). exists e. split_and!; [by apply Hel|done|done|]. intros e' He'. apply H3. by apply Hel.
  - intros e He. apply Hn. by apply Hel.
Qed.
End memtable.

(** Two versions of a key, the newer one inserted first, and a lookup. *)
Definition mt_ops : list op :=
  [Insert (mk_mt_entry [7] 2 [22]); Insert (mk_mt_entry [7] 1 [11]); lookup_op [7]].
Definition mt_end : state :=
  exec memtable_cmp default_entry (fun h => h) MAX_HEIGHT (fun _ => false)
    (replicate 20 0%nat ++ replicate 25 1%nat ++ replicate 20 2%nat) (make default_entry 1 mt_ops).

Lemma mt_reachable : reachable memtable_cmp default_entry (fun h => h) MAX_HEIGHT 1 mt_ops mt_end.
Proof. apply exec_reachable, reach_make. Qed.

Lemma concurrent_memtable_refines_witness :
  contents mt_end = [mk_mt_entry [7] 2 [22]; mk_mt_entry [7] 1 [11]] /\
  contents mt_end = foldl (fun l e => skiplist_insert e l) [] (s_log mt_end).*2.
Proof.
  split; [vm_compute; reflexivity|].
  apply (concurrent_memtable_refines (fun h => h) 1 mt_ops); [lia|apply mt_reachable].
Defined.

Lemma concurrent_lookup_newest_witness :
  exists t m, s_threads mt_end !! 2%nat = Some t /\ (t_start t <= m <= t_last t)%nat /\
    newest (take m (s_log mt_end)).*2 [7] (Some [22]).
Proof.
  eexists. destruct (concurrent_lookup_newest (fun h => h) 1 mt_ops mt_end 2
    (mk_thread (lookup_op [7]) (Done (Position (Some 1%nat))) 2 2) [7] (Some 1%nat)) as [m Hm].
  - lia.
  - intros i e Hi. unfold mt_ops in Hi. destruct i as [|[|[|i]]]; cbn in Hi; [| |discriminate|discriminate]; injection Hi as <-;
      unfold UINT64_MAX; cbn; lia.
  - apply mt_reachable.
  - vm_compute; reflexivity.
  - reflexivity.
  - reflexivity.
  - exists m. split; [vm_compute; reflexivity|]. replace (Some [22]) with (value_at mt_end [7] (Some 1%nat)) by (vm_compute; reflexivity).
    exact Hm.
Defined.
