(* ===== verification/MemtableSwitch.v ===== *)
(** * Writers, flushes and readers of the memtable together
      (src/db/memtable.cc: [put_async], [_flush], [_flush_inner], [get])

    Memtable runs one operation at a time, ConcurrentMemtable interleaves
    the calls on one table; this file interleaves the operations of the
    class around the switch of tables, as a transition system. A thread
    keeps, as in the code, a thread-local reference to the table it wrote
    last and another, with an epoch, to the table it read last. A step is one
    access to shared state; what is done under the mutex of the pending
    flushes is one step, and so is an insertion in a table or a lookup in
    one (SkiplistLin: they are linearizable). Threads have writer slots of
    their own (RwSync: sharing one is unsafe), the log is on, and atomics are
    sequentially consistent. Whether an arena has room, the budget is
    exceeded, an append to the log or an export fails, are choices of the
    schedule. Compactions take their numbers from the counter of the flush
    epochs, at any moment.

    The history variable is the list of acknowledged writes, with their
    tables; a read carries the number of writes that were acknowledged when
    it loaded the epoch, if no switch was half done at that moment. *)

From stdpp Require Import base list numbers option sorting sets.
From Stdlib Require Import ZArith Lia.
From S2P Require Import Prelude StdAlgo Types Utils Merge Sst SstManager Lsm Memtable Skiplist SkiplistInv SkiplistSteps SkiplistLin ConcurrentMemtable.

Local Open Scope nat_scope.

(** ** States *)

(** An [rw_sync<write_buffer>]. *)
Record table := mk_table {
  tb_frozen : bool;
  tb_counters : list bool;             (* by thread *)
  tb_entries : list memtable_entry;
  tb_wal : list memtable_entry;
}.

Definition kv_pair : Type := bytes * bytes.

(** Where a thread is; [seen] is history. *)
Inductive spc :=
  | SIdle
  (* put_async *)
  | PutRef (w : kv_pair)
  | PutAnnounce (w : kv_pair)
  | PutCheck (w : kv_pair)
  | PutBackoff (w : kv_pair)
  | PutReload (w : kv_pair)
  | PutAllocate (w : kv_pair)
  | PutInsert (e : memtable_entry)
  | PutBudget (e : memtable_entry)
  | PutAppend (e : memtable_entry)
  | PutAck (e : memtable_entry)
  | PutLeave (w : kv_pair)
  (* _flush *)
  | FlushCas (w : kv_pair)
  | FlushGuard (w : kv_pair)
  | FlushFreeze (w : kv_pair)
  | FlushSlot (ep : nat) (w : kv_pair)
  | FlushPipe (ep : nat) (w : kv_pair)
  | FlushSwap (ep : nat) (w : kv_pair)
  | FlushBump (ep t : nat) (w : kv_pair)
  | FlushSpawn (ep t : nat) (w : kv_pair)
  | FlushUnlock (w : kv_pair)
  (* get *)
  | GetInitEpoch (k : bytes)
  | GetInitTable (ep : nat) (k : bytes)
  | GetEpoch (k : bytes)
  | GetReload (k : bytes) (seen : option nat)
  | GetTable (k : bytes) (seen : option nat)
  | GetPending (k : bytes) (seen : option nat)
  | GetScan (k : bytes) (l : list nat) (seen : option nat)
  | GetSsts (k : bytes) (seen : option nat)
  | GetDone (k : bytes) (r : option (nat * memtable_entry)) (seen : option nat).

Record sthread := mk_sthread {
  st_put_ref : option nat;             (* local_memtable_ref of put_async *)
  st_get_ref : option (nat * nat);     (* table_switch_epoch and local_memtable_ref of get *)
  st_pc : spc;
}.

(** Where a flush is in [_flush_inner]. *)
Inductive fpc :=
  | Draining (k : nat)
  | Exporting
  | AwaitTurn (run : list memtable_entry)
  | Pushing (run : list memtable_entry)
  | GivingTurn
  | FreeingSlot
  | Resetting
  | Flushed
  | FlushFailed.

Record flush := mk_flush { fl_epoch : nat; fl_table : nat; fl_pc : fpc }.

Record sw := mk_sw {
  sw_tables : list table;
  sw_table : nat;                      (* _table *)
  sw_pipelined : option nat;           (* _pipelined_table *)
  sw_flush_mutex : option nat;         (* _flush_mutex, with its holder *)
  sw_flush_epoch : nat;                (* *_flush_epoch *)
  sw_switch_epoch : nat;               (* _table_switch_epoch *)
  sw_slots : nat;                      (* _pending_flush_slots *)
  sw_pending : list (nat * nat);       (* _pending_flushes, by epoch *)
  sw_seq : nat;                        (* _seq_nr *)
  sw_pushed : list (nat * list memtable_entry);  (* runs given to the SST manager, newest last *)
  sw_released : list nat;              (* the chain of can_write semaphores: those with a unit, by flush *)
  sw_making : nat;                     (* tasks that make the next pipelined table *)
  sw_flushes : list flush;
  sw_threads : list sthread;
  sw_acked : list (nat * memtable_entry);        (* history *)
}.

(** ** Steps *)

Definition fresh_table (threads : nat) : table := mk_table false (replicate threads false) [] [].

Definition upd_table (s : sw) (t : nat) (f : table -> table) : sw :=
  mk_sw (alter f t (sw_tables s)) (sw_table s) (sw_pipelined s) (sw_flush_mutex s) (sw_flush_epoch s) (sw_switch_epoch s)
    (sw_slots s) (sw_pending s) (sw_seq s) (sw_pushed s) (sw_released s) (sw_making s) (sw_flushes s) (sw_threads s) (sw_acked s).

Definition set_present (i : nat) (b : bool) (t : table) : table :=
  mk_table (tb_frozen t) (<[i := b]> (tb_counters t)) (tb_entries t) (tb_wal t).
Definition freeze (t : table) : table := mk_table true (tb_counters t) (tb_entries t) (tb_wal t).
Definition insert_row (e : memtable_entry) (t : table) : table :=
  mk_table (tb_frozen t) (tb_counters t) (skiplist_insert e (tb_entries t)) (tb_wal t).
Definition append_log (e : memtable_entry) (t : table) : table :=
  mk_table (tb_frozen t) (tb_counters t) (tb_entries t) (tb_wal t ++ [e]).
Definition reset_log (t : table) : table := mk_table (tb_frozen t) (tb_counters t) (tb_entries t) [].

Definition set_mutex (s : sw) (o : option nat) : sw :=
  mk_sw (sw_tables s) (sw_table s) (sw_pipelined s) o (sw_flush_epoch s) (sw_switch_epoch s)
    (sw_slots s) (sw_pending s) (sw_seq s) (sw_pushed s) (sw_released s) (sw_making s) (sw_flushes s) (sw_threads s) (sw_acked s).
Definition set_slots (s : sw) (n : nat) : sw :=
  mk_sw (sw_tables s) (sw_table s) (sw_pipelined s) (sw_flush_mutex s) (sw_flush_epoch s) (sw_switch_epoch s)
    n (sw_pending s) (sw_seq s) (sw_pushed s) (sw_released s) (sw_making s) (sw_flushes s) (sw_threads s) (sw_acked s).
Definition next_seq (s : sw) : sw :=
  mk_sw (sw_tables s) (sw_table s) (sw_pipelined s) (sw_flush_mutex s) (sw_flush_epoch s) (sw_switch_epoch s)
    (sw_slots s) (sw_pending s) (S (sw_seq s)) (sw_pushed s) (sw_released s) (sw_making s) (sw_flushes s) (sw_threads s) (sw_acked s).
Definition next_epoch (s : sw) : sw :=
  mk_sw (sw_tables s) (sw_table s) (sw_pipelined s) (sw_flush_mutex s) (S (sw_flush_epoch s)) (sw_switch_epoch s)
    (sw_slots s) (sw_pending s) (sw_seq s) (sw_pushed s) (sw_released s) (sw_making s) (sw_flushes s) (sw_threads s) (sw_acked s).
Definition bump (s : sw) : sw :=
  mk_sw (sw_tables s) (sw_table s) (sw_pipelined s) (sw_flush_mutex s) (sw_flush_epoch s) (S (sw_switch_epoch s))
    (sw_slots s) (sw_pending s) (sw_seq s) (sw_pushed s) (sw_released s) (sw_making s) (sw_flushes s) (sw_threads s) (sw_acked s).
Definition acknowledge (s : sw) (t : nat) (e : memtable_entry) : sw :=
  mk_sw (sw_tables s) (sw_table s) (sw_pipelined s) (sw_flush_mutex s) (sw_flush_epoch s) (sw_switch_epoch s)
    (sw_slots s) (sw_pending s) (sw_seq s) (sw_pushed s) (sw_released s) (sw_making s) (sw_flushes s) (sw_threads s) (sw_acked s ++ [(t, e)]).

(** [std::map::insert] *)
Fixpoint map_insert (k v : nat) (l : list (nat * nat)) : list (nat * nat) :=
  match l with
  | [] => [(k, v)]
  | p :: l' => if k <? p.1 then (k, v) :: l else if k =? p.1 then l else p :: map_insert k v l'
  end.

(** The swap under the mutex of the pending flushes. *)
Definition swap_table (s : sw) (ep p : nat) : sw :=
  mk_sw (sw_tables s) p None (sw_flush_mutex s) (sw_flush_epoch s) (sw_switch_epoch s)
    (sw_slots s) (map_insert ep (sw_table s) (sw_pending s)) (sw_seq s) (sw_pushed s) (sw_released s) (sw_making s) (sw_flushes s)
    (sw_threads s) (sw_acked s).

(** The two tasks that [_flush] spawns. *)
Definition spawn_tasks (s : sw) (ep t : nat) : sw :=
  mk_sw (sw_tables s) (sw_table s) (sw_pipelined s) (sw_flush_mutex s) (sw_flush_epoch s) (sw_switch_epoch s)
    (sw_slots s) (sw_pending s) (sw_seq s) (sw_pushed s) (sw_released s) (S (sw_making s))
    (sw_flushes s ++ [mk_flush ep t (Draining 0)]) (sw_threads s) (sw_acked s).

(** [_make_memtable] *)
Definition make_table (s : sw) : sw :=
  mk_sw (sw_tables s ++ [fresh_table (length (sw_threads s))]) (sw_table s) (Some (length (sw_tables s))) (sw_flush_mutex s)
    (sw_flush_epoch s) (sw_switch_epoch s) (sw_slots s) (sw_pending s) (sw_seq s) (sw_pushed s) (sw_released s)
    (pred (sw_making s)) (sw_flushes s) (sw_threads s) (sw_acked s).

(** The push of the runs to level 0, and the erasure, under the same mutex. *)
Definition push_run (s : sw) (ep : nat) (run : list memtable_entry) : sw :=
  mk_sw (sw_tables s) (sw_table s) (sw_pipelined s) (sw_flush_mutex s) (sw_flush_epoch s) (sw_switch_epoch s)
    (sw_slots s) (filter (fun p => p.1 <> ep) (sw_pending s)) (sw_seq s) (sw_pushed s ++ [(ep, run)]) (sw_released s) (sw_making s)
    (sw_flushes s) (sw_threads s) (sw_acked s).

(** The semaphores: a unit taken, a unit given. *)
Definition set_released (s : sw) (l : list nat) : sw :=
  mk_sw (sw_tables s) (sw_table s) (sw_pipelined s) (sw_flush_mutex s) (sw_flush_epoch s) (sw_switch_epoch s)
    (sw_slots s) (sw_pending s) (sw_seq s) (sw_pushed s) l (sw_making s) (sw_flushes s) (sw_threads s) (sw_acked s).
Definition set_flush (s : sw) (j : nat) (c : fpc) : sw :=
  mk_sw (sw_tables s) (sw_table s) (sw_pipelined s) (sw_flush_mutex s) (sw_flush_epoch s) (sw_switch_epoch s)
    (sw_slots s) (sw_pending s) (sw_seq s) (sw_pushed s) (sw_released s) (sw_making s)
    (alter (fun f => mk_flush (fl_epoch f) (fl_table f) c) j (sw_flushes s)) (sw_threads s) (sw_acked s).
Definition set_thread (s : sw) (i : nat) (th : sthread) : sw :=
  mk_sw (sw_tables s) (sw_table s) (sw_pipelined s) (sw_flush_mutex s) (sw_flush_epoch s) (sw_switch_epoch s)
    (sw_slots s) (sw_pending s) (sw_seq s) (sw_pushed s) (sw_released s) (sw_making s) (sw_flushes s) (<[i := th]> (sw_threads s)) (sw_acked s).

(** The entry that [skiplist_wrapper::get] finds. *)
Definition find_entry (l : list memtable_entry) (k : bytes) : option memtable_entry :=
  match l !! lower_bound (fun x => memtable_cmp x (mk_mt_entry k UINT64_MAX [])) l with
  | Some e => if Lex.eqb (mt_key e) k then Some e else None
  | None => None
  end.

Definition entries_of (s : sw) (t : nat) : list memtable_entry := from_option tb_entries [] (sw_tables s !! t).

(** The newest run that has the key; the position of a run is the number of
    its table. *)
Fixpoint find_run (runs : list (nat * list memtable_entry)) (n : nat) (k : bytes) : option (nat * memtable_entry) :=
  match n with
  | O => None
  | S n =>
      match runs !! n ≫= (fun r => find_entry r.2 k) with
      | Some e => Some (n, e)
      | None => find_run runs n k
      end
  end.

(** Is a switch between the exchange of the table and the new epoch? *)
Definition switching (s : sw) : bool :=
  existsb (fun th => match st_pc th with FlushBump _ _ _ => true | _ => false end) (sw_threads s).

(** What the schedule chooses at a step. *)
Inductive choice := BeginPut (w : kv_pair) | BeginGet (k : bytes) | Yes | No.
Definition yes (c : choice) : bool := match c with Yes => true | _ => false end.

Definition entry_kv (e : memtable_entry) : kv_pair := (mt_key e, mt_value e).

(** The steps of [put_async]; [r] is the local reference. *)
Definition put_step (s : sw) (i : nat) (r : nat) (c : spc) (ch : choice) : option (sw * nat * spc) :=
  match c with
  | PutAnnounce w => Some (upd_table s r (set_present i true), r, PutCheck w)
  | PutCheck w =>
      t ← sw_tables s !! r; Some (s, r, if tb_frozen t then PutBackoff w else PutAllocate w)
  | PutBackoff w => Some (upd_table s r (set_present i false), r, PutReload w)
  | PutReload w => Some (s, sw_table s, PutAnnounce w)
  | PutAllocate w =>
      if yes ch
      then Some (next_seq s, r, PutInsert (mk_mt_entry w.1 (Z.of_nat (sw_seq s)) w.2))
      else Some (s, r, FlushCas w)
  | PutInsert e => if yes ch then Some (upd_table s r (insert_row e), r, PutBudget e) else Some (s, r, FlushCas (entry_kv e))
  | PutBudget e => Some (s, r, if yes ch then PutAppend e else FlushCas (entry_kv e))
  | PutAppend e =>
      if yes ch then Some (upd_table s r (append_log e), r, PutAck e) else Some (upd_table s r (set_present i false), r, SIdle)
  | PutAck e => Some (acknowledge (upd_table s r (set_present i false)) r e, r, SIdle)
  | PutLeave w => Some (upd_table s r (set_present i false), r, PutAnnounce w)
  | _ => None
  end.

(** The steps of [_flush] with the table [r] as [expected_table]. *)
Definition flush_step (s : sw) (i : nat) (r : nat) (c : spc) : option (sw * spc) :=
  match c with
  | FlushCas w => Some (match sw_flush_mutex s with
                        | None => (set_mutex s (Some i), FlushGuard w)
                        | Some _ => (s, PutLeave w)
                        end)
  | FlushGuard w => Some (s, if sw_table s =? r then FlushFreeze w else FlushUnlock w)
  | FlushFreeze w => Some (next_epoch (upd_table s r freeze), FlushSlot (sw_flush_epoch s) w)
  | FlushSlot ep w => if 0 <? sw_slots s then Some (set_slots s (pred (sw_slots s)), FlushPipe ep w) else None
  | FlushPipe ep w => match sw_pipelined s with Some _ => Some (s, FlushSwap ep w) | None => None end
  | FlushSwap ep w => p ← sw_pipelined s; Some (swap_table s ep p, FlushBump ep (sw_table s) w)
  | FlushBump ep t w => Some (bump s, FlushSpawn ep t w)
  | FlushSpawn ep t w => Some (spawn_tasks s ep t, FlushUnlock w)
  | FlushUnlock w => Some (set_mutex s None, PutLeave w)
  | _ => None
  end.

(** The steps of [get]; [ref] are the local epoch and table. *)
Definition get_step (s : sw) (ref : nat * nat) (c : spc) : option ((nat * nat) * spc) :=
  match c with
  | GetEpoch k =>
      let seen := if switching s then None else Some (length (sw_acked s)) in
      Some (if ref.1 <? sw_switch_epoch s then ((sw_switch_epoch s, ref.2), GetReload k seen) else (ref, GetTable k seen))
  | GetReload k seen => Some ((ref.1, sw_table s), GetTable k seen)
  | GetTable k seen =>
      Some (ref, match find_entry (entries_of s ref.2) k with
                 | Some e => GetDone k (Some (ref.2, e)) seen
                 | None => GetPending k seen
                 end)
  | GetPending k seen => Some (ref, GetScan k (reverse (sw_pending s).*2) seen)
  | GetScan k (t :: l) seen =>
      Some (ref, match find_entry (entries_of s t) k with
                 | Some e => GetDone k (Some (t, e)) seen
                 | None => GetScan k l seen
                 end)
  | GetScan k [] seen => Some (ref, GetSsts k seen)
  | GetSsts k seen => Some (ref, GetDone k (find_run (sw_pushed s) (length (sw_pushed s)) k) seen)
  | GetDone k r seen => Some (ref, SIdle)
  | _ => None
  end.

Definition in_flush (c : spc) : bool :=
  match c with
  | FlushCas _ | FlushGuard _ | FlushFreeze _ | FlushSlot _ _ | FlushPipe _ _ | FlushSwap _ _ | FlushBump _ _ _
  | FlushSpawn _ _ _ | FlushUnlock _ => true
  | _ => false
  end.
Definition in_get (c : spc) : bool :=
  match c with
  | GetEpoch _ | GetReload _ _ | GetTable _ _ | GetPending _ _ | GetScan _ _ _ | GetSsts _ _ | GetDone _ _ _ => true
  | _ => false
  end.

Definition thread_step (s : sw) (i : nat) (th : sthread) (ch : choice) : option (sw * sthread) :=
  let c := st_pc th in
  match c with
  | SIdle =>
      match ch with
      | BeginPut w => Some (s, mk_sthread (st_put_ref th) (st_get_ref th) (if st_put_ref th then PutAnnounce w else PutRef w))
      | BeginGet k => Some (s, mk_sthread (st_put_ref th) (st_get_ref th) (if st_get_ref th then GetEpoch k else GetInitEpoch k))
      | _ => None
      end
  | PutRef w => Some (s, mk_sthread (Some (sw_table s)) (st_get_ref th) (PutAnnounce w))
  | GetInitEpoch k => Some (s, mk_sthread (st_put_ref th) (st_get_ref th) (GetInitTable (sw_switch_epoch s) k))
  | GetInitTable ep k => Some (s, mk_sthread (st_put_ref th) (Some (ep, sw_table s)) (GetEpoch k))
  | _ =>
      if in_get c then
        ref ← st_get_ref th; '(ref', c') ← get_step s ref c; Some (s, mk_sthread (st_put_ref th) (Some ref') c')
      else if in_flush c then
        r ← st_put_ref th; '(s', c') ← flush_step s i r c; Some (s', mk_sthread (Some r) (st_get_ref th) c')
      else
        r ← st_put_ref th; '(s', r', c') ← put_step s i r c ch; Some (s', mk_sthread (Some r') (st_get_ref th) c')
  end.

(** The steps of [_flush_inner]. *)
Definition inner_step (s : sw) (j : nat) (f : flush) (ok : bool) : option (sw * fpc) :=
  match fl_pc f with
  | Draining k =>
      t ← sw_tables s !! fl_table f;
      Some (s, match tb_counters t !! k with
               | None => Exporting
               | Some true => Draining 0
               | Some false => Draining (S k)
               end)
  | Exporting => Some (if ok then (s, AwaitTurn (entries_of s (fl_table f))) else (set_slots s (S (sw_slots s)), FlushFailed))
  | AwaitTurn run => if bool_decide (j ∈ sw_released s) then Some (set_released s (filter (fun x => x <> j) (sw_released s)), Pushing run) else None
  | Pushing run => Some (push_run s (fl_epoch f) run, GivingTurn)
  | GivingTurn => Some (set_released s (S j :: sw_released s), FreeingSlot)
  | FreeingSlot => Some (set_slots s (S (sw_slots s)), Resetting)
  | Resetting => Some (upd_table s (fl_table f) reset_log, Flushed)
  | Flushed | FlushFailed => None
  end.

Inductive actor := Thread (i : nat) (ch : choice) | Flush (j : nat) (ok : bool) | Maker | Compaction.

Definition sw_step (s : sw) (a : actor) : option sw :=
  match a with
  | Thread i ch =>
      th ← sw_threads s !! i; '(s', th') ← thread_step s i th ch; Some (set_thread s' i th')
  | Flush j ok =>
      f ← sw_flushes s !! j; '(s', c) ← inner_step s j f ok; Some (set_flush s' j c)
  | Maker => if 0 <? sw_making s then Some (make_table s) else None
  | Compaction => Some (next_epoch s)
  end.

(** The constructor: the first table and the pipelined one. *)
Definition make_switch (threads slots epoch seq : nat) : sw :=
  mk_sw [fresh_table threads; fresh_table threads] 0 (Some 1) None epoch 0 slots [] seq [] [0] 0 []
    (replicate threads (mk_sthread None None SIdle)) [].

Inductive sw_reachable (threads slots epoch seq : nat) : sw -> Prop :=
  | sr_make : sw_reachable threads slots epoch seq (make_switch threads slots epoch seq)
  | sr_step s a s' :
      sw_reachable threads slots epoch seq s -> sw_step s a = Some s' -> sw_reachable threads slots epoch seq s'.

(** ** Lookups in a table *)

Abbreviation sorted := (StronglySorted (fun x y => memtable_cmp x y = true)).

Lemma find_entry_get l k : mt_value <$> find_entry l k = skiplist_get l k.
Proof. unfold find_entry, skiplist_get. destruct (l !! _) as [e|]; [|done]. by destruct (Lex.eqb (mt_key e) k). Qed.

Lemma find_entry_Some l k e : find_entry l k = Some e -> e ∈ l /\ mt_key e = k.
Proof.
  unfold find_entry. destruct (l !! _) as [x|] eqn:E; [|done]. destruct (Lex.eqb (mt_key x) k) eqn:Ek; [|done].
  intros [= <-]. split; [by eapply list_elem_of_lookup_2|by apply Lex.eqb_eq].
Qed.

(** The entry found is the newest of its key. *)
Lemma find_entry_newest l k e :
  sorted l -> Forall (fun e => (mt_seq e <= UINT64_MAX)%Z) l -> e ∈ l -> mt_key e = k ->
  exists e', find_entry l k = Some e' /\ (mt_seq e <= mt_seq e')%Z.
Proof.
  intros Hs Hf He Hk. pose proof (first_newest l k _ Hs Hf eq_refl) as Hn. rewrite (first_lower_bound _ _ Hs) in Hn.
  unfold find_entry. destruct (l !! _) as [x|] eqn:Ex; [|by apply Hn in He].
  destruct (Lex.eqb (mt_key x) k) eqn:Ek; [|by apply Hn in He]. exists x. split; [done|].
  apply Lex.eqb_eq in Ek. pose proof (first_not_less_spec memtable_cmp (mk_mt_entry k UINT64_MAX []) l Hs) as Hf'.
  rewrite (first_lower_bound _ _ Hs), Ex in Hf'. destruct Hf' as (_ & _ & H3).
  rewrite Forall_forall in Hf. destruct (H3 e He) as [->|Hlt]; [|lia|].
  - unfold memtable_cmp. cbn. rewrite (proj2 (Lex.compare_eq _ _) Hk). apply Z.ltb_ge. by apply Hf.
  - apply memtable_cmp_lt in Hlt as [Hlt|[_ Hlt]]; [|lia]. exfalso. rewrite Ek, Hk in Hlt. by apply Lex.lt_irrefl in Hlt.
Qed.

Lemma insert_sorted e l : sorted l -> sorted (skiplist_insert e l).
Proof. rewrite <- set_insert_skiplist. apply (set_insert_sorted memtable_cmp). Qed.

Lemma insert_keeps e l x : x ∈ l -> x ∈ skiplist_insert e l.
Proof.
  induction l as [|y l IH]; [set_solver|]. cbn [skiplist_insert]. intros Hx.
  destruct (memtable_cmp y e); [set_solver|]. destruct (memtable_cmp e y); set_solver.
Qed.

Lemma insert_adds e l : (forall x, x ∈ l -> mt_seq x <> mt_seq e) -> e ∈ skiplist_insert e l.
Proof.
  induction l as [|y l IH]; cbn [skiplist_insert]; [set_solver|]. intros Hl. assert (Hy : mt_seq y <> mt_seq e) by (apply Hl; left).
  destruct (memtable_cmp y e) eqn:E1; [right; apply IH; set_solver|]. destruct (memtable_cmp e y) eqn:E2; [left|].
  exfalso. unfold memtable_cmp in E1, E2. rewrite Lex.compare_antisym in E2.
  destruct (Lex.compare (mt_key y) (mt_key e)); cbn in *; try done. rewrite Z.ltb_ge in E1, E2. lia.
Qed.

(** The newest run with the key. *)
Lemma find_run_newest (entries : nat -> list memtable_entry) (runs : list (nat * list memtable_entry)) n k t e :
  (forall j r, j < n -> runs !! j = Some r -> r.2 = entries j) -> n <= length runs ->
  (forall j, sorted (entries j) /\ Forall (fun e => (mt_seq e <= UINT64_MAX)%Z) (entries j)) ->
  t < n -> e ∈ entries t -> mt_key e = k ->
  exists t' e', find_run runs n k = Some (t', e') /\ (t < t' \/ t' = t /\ (mt_seq e <= mt_seq e')%Z).
Proof.
  intros Hr. induction n as [|n IH]; intros Hn Hok Ht He Hk; [lia|]. cbn [find_run].
  destruct (lookup_lt_is_Some_2 runs n Hn) as [r Hrun]. rewrite Hrun. cbn. rewrite (Hr n r) by (done || lia).
  destruct (decide (t = n)) as [->|Hne].
  - destruct (find_entry_newest _ k e (proj1 (Hok n)) (proj2 (Hok n)) He Hk) as (e' & -> & Hle). exists n, e'. auto.
  - destruct (find_entry (entries n) k) as [e'|]; [exists n, e'; split; [done|left; lia]|].
    apply IH; [intros; apply Hr; auto|lia|done|lia|done|done].
Qed.

Lemma find_run_Some (entries : nat -> list memtable_entry) (runs : list (nat * list memtable_entry)) n k t e :
  (forall j ep r, runs !! j = Some (ep, r) -> r = entries j) -> find_run runs n k = Some (t, e) -> e ∈ entries t /\ mt_key e = k.
Proof.
  intros Hr. induction n as [|n IH]; cbn [find_run]; [done|]. destruct (runs !! n) as [[ep r]|] eqn:En; cbn; [|done].
  rewrite (Hr n ep r En). destruct (find_entry (entries n) k) as [x|] eqn:Ex; [|done]. intros [= <- <-]. by apply find_entry_Some.
Qed.
