(* ===== verification/SwitchInv.v ===== *)
(** * The switch of tables: the invariant and the steps of the threads

    The invariant of the transition system of MemtableSwitch in two parts:
    what holds of the shared state ([ginv]) and what holds at each point of
    a thread ([th_ok]); [ext] says how the steps of others may change what a
    thread relies on. *)

From stdpp Require Import base list numbers option sorting sets.
From Stdlib Require Import ZArith Lia.
From S2P Require Import Prelude StdAlgo Types Utils Merge Sst SstManager Lsm Memtable ConcurrentMemtable MemtableSwitch.

Local Open Scope nat_scope.

(** ** The invariant *)

(** The thread has passed the gate of its table. *)
Definition holding (c : spc) : bool :=
  match c with
  | PutAllocate _ | PutInsert _ | PutBudget _ | PutAppend _ | PutAck _ | PutLeave _ => true
  | _ => in_flush c
  end.
Definition announced (c : spc) : bool := match c with PutCheck _ => true | _ => holding c end.
(** It holds the flush mutex. *)
Definition critical (c : spc) : bool := match c with FlushCas _ => false | _ => in_flush c end.

(** The flusher of a table has seen the counter of thread [i] at zero. *)
Definition drained (c : fpc) (i : nat) : Prop := match c with Draining k => i < k | _ => True end.
Definition in_lsm (c : fpc) : bool := match c with GivingTurn | FreeingSlot | Resetting | Flushed => true | _ => false end.
Definition held_run (c : fpc) : option (list memtable_entry) := match c with AwaitTurn r | Pushing r => Some r | _ => None end.

Definition supply (s : sw) : nat := sw_making s + (if sw_pipelined s then 1 else 0).
Definition wal_of (s : sw) (t : nat) : list memtable_entry := from_option tb_wal [] (sw_tables s !! t).
Definition counter (s : sw) (t i : nat) : option bool := sw_tables s !! t ≫= (fun tb => tb_counters tb !! i).
Definition frozen (s : sw) (t : nat) : Prop := exists tb, sw_tables s !! t = Some tb /\ tb_frozen tb = true.

(** The numbers that the phases of a switch relate: the epoch, the flushes
    started and the tables to come. *)
Definition numbers (s : sw) : nat * nat * nat * nat :=
  (sw_table s, sw_switch_epoch s, length (sw_flushes s), supply s).

Definition quiet (s : sw) : Prop :=
  let t := sw_table s in numbers s = (t, t, t, 1).

(** The epoch of a flush is newer than those of the pending ones. *)
Definition newest_epoch (s : sw) (ep : nat) : Prop :=
  ep < sw_flush_epoch s /\ forall p, p ∈ sw_pending s -> p.1 < ep.

Definition phase_ok (s : sw) (r : option nat) (c : spc) : Prop :=
  let t := sw_table s in
  match c with
  | FlushGuard _ | FlushUnlock _ => quiet s
  | FlushFreeze _ => quiet s /\ r = Some t
  | FlushSlot ep _ | FlushPipe ep _ | FlushSwap ep _ =>
      quiet s /\ newest_epoch s ep /\ r = Some t /\ frozen s t
  | FlushBump ep t' _ => t = S t' /\ (ep, t') ∈ sw_pending s /\ numbers s = (t, t', t', 0)
  | FlushSpawn ep t' _ => t = S t' /\ (ep, t') ∈ sw_pending s /\ numbers s = (t, t, t', 0)
  | _ => True
  end.

(** The acknowledged writes of a key that a read must not miss. *)
Definition must_see (s : sw) (n : nat) (k : bytes) (t : nat) (e : memtable_entry) : Prop :=
  (t, e) ∈ take n (sw_acked s) /\ mt_key e = k.

Definition get_ok (s : sw) (ref : option (nat * nat)) (c : spc) : Prop :=
  match c with
  | GetTable k (Some n) => exists ep r, ref = Some (ep, r) /\ forall t e, must_see s n k t e -> t <= r
  | GetPending k (Some n) => forall t e, must_see s n k t e -> t < sw_table s
  | GetScan k l (Some n) =>
      StronglySorted (fun a b => b < a) l /\
      forall t e, must_see s n k t e -> t ∈ l \/ t < length (sw_pushed s) /\ Forall (fun a => t < a) l
  | GetSsts k (Some n) => forall t e, must_see s n k t e -> t < length (sw_pushed s)
  | GetDone k r seen =>
      (forall t e, r = Some (t, e) -> e ∈ entries_of s t /\ mt_key e = k) /\
      forall n, seen = Some n ->
        forall t e, must_see s n k t e -> exists t' e', r = Some (t', e') /\ (t < t' \/ t' = t /\ (mt_seq e <= mt_seq e')%Z)
  | _ => True
  end.

Definition seen_of (c : spc) : option nat :=
  match c with
  | GetReload _ o | GetTable _ o | GetPending _ o | GetScan _ _ o | GetSsts _ o | GetDone _ _ o => o
  | _ => None
  end.

Definition reloading (c : spc) : bool := match c with GetReload _ _ => true | _ => false end.

(** What is known of the entry a put is writing. *)
Definition entry_at (s : sw) (r : option nat) (c : spc) : Prop :=
  match c with
  | PutInsert e => (mt_seq e < Z.of_nat (sw_seq s))%Z /\ forall t x, x ∈ entries_of s t -> mt_seq x <> mt_seq e
  | PutBudget e | PutAppend e => forall t, r = Some t -> e ∈ entries_of s t
  | PutAck e => forall t, r = Some t -> e ∈ entries_of s t /\ e ∈ wal_of s t
  | _ => True
  end.

Record th_ok (s : sw) (i : nat) (th : sthread) : Prop := {
  tk_put_ref t : st_put_ref th = Some t -> t <= sw_table s;
  tk_get_ref ep t : st_get_ref th = Some (ep, t) -> ep <= sw_switch_epoch s /\ t <= sw_table s /\
    (reloading (st_pc th) = false -> ep <= t);
  tk_init ep k : st_pc th = GetInitTable ep k -> ep <= sw_switch_epoch s;
  tk_ref : announced (st_pc th) = true -> is_Some (st_put_ref th);
  tk_counter t : st_put_ref th = Some t -> announced (st_pc th) = true -> counter s t i = Some true;
  tk_drained t f : st_put_ref th = Some t -> holding (st_pc th) = true -> sw_flushes s !! t = Some f -> ~ drained (fl_pc f) i;
  tk_mutex : critical (st_pc th) = true <-> sw_flush_mutex s = Some i;
  tk_phase : phase_ok s (st_put_ref th) (st_pc th);
  tk_entry : entry_at s (st_put_ref th) (st_pc th);
  tk_seen n : seen_of (st_pc th) = Some n -> n <= length (sw_acked s);
  tk_get : get_ok s (st_get_ref th) (st_pc th);
}.

(** Whose turn it is to push: the next flush has the unit of its semaphore,
    or one flush is between taking its unit and giving the next. *)
Definition has_turn (c : fpc) : bool := match c with Pushing _ | GivingTurn => true | _ => false end.
Definition turn_ok (s : sw) : Prop :=
  let p := length (sw_pushed s) in
  (sw_released s = [p] /\ forall j f, sw_flushes s !! j = Some f -> has_turn (fl_pc f) = false) \/
  (sw_released s = [] /\ exists h f, sw_flushes s !! h = Some f /\
     match fl_pc f with Pushing _ => h = p | GivingTurn => S h = p | _ => False end /\
     forall j f', sw_flushes s !! j = Some f' -> has_turn (fl_pc f') = true -> j = h).

Record flush_ok (s : sw) (j : nat) (f : flush) : Prop := {
  fk_table : fl_table f = j;
  fk_epoch : in_lsm (fl_pc f) = false -> (fl_epoch f, j) ∈ sw_pending s;
  fk_lsm : in_lsm (fl_pc f) = true <-> j < length (sw_pushed s);
  fk_run r : held_run (fl_pc f) = Some r -> r = entries_of s j;
}.

Record ginv (n : nat) (s : sw) : Prop := {
  gi_threads : length (sw_threads s) = n;
  gi_counters t tb : sw_tables s !! t = Some tb -> length (tb_counters tb) = n;
  gi_tables : length (sw_tables s) = S (sw_table s) + (if sw_pipelined s then 1 else 0);
  gi_pipelined p : sw_pipelined s = Some p -> p = S (sw_table s);
  gi_frozen t : t < sw_table s -> frozen s t;
  gi_bounds : length (sw_pushed s) <= length (sw_flushes s) <= sw_table s /\ sw_switch_epoch s <= sw_table s;
  gi_flush j f : sw_flushes s !! j = Some f -> flush_ok s j f;
  gi_pushed j ep r : sw_pushed s !! j = Some (ep, r) -> r = entries_of s j;
  gi_turn : turn_ok s;
  gi_pending : (sw_pending s).*2 = seq (length (sw_pushed s)) (sw_table s - length (sw_pushed s));
  gi_epochs : StronglySorted lt (sw_pending s).*1 /\ forall p, p ∈ sw_pending s -> p.1 < sw_flush_epoch s;
  gi_sorted t : StronglySorted (fun x y => memtable_cmp x y = true) (entries_of s t);
  gi_seq t e : e ∈ entries_of s t -> (mt_seq e < Z.of_nat (sw_seq s))%Z;
  gi_acked t e : (t, e) ∈ sw_acked s -> t <= sw_table s /\ e ∈ entries_of s t /\ (t < length (sw_pushed s) \/ e ∈ wal_of s t);
}.

Record winv (n : nat) (s : sw) : Prop := {
  wi_global : ginv n s;
  wi_mutex : match sw_flush_mutex s with
             | None => quiet s
             | Some i => exists th, sw_threads s !! i = Some th /\ critical (st_pc th) = true
             end;
  wi_thread i th : sw_threads s !! i = Some th -> th_ok s i th;
  wi_unique i j a b x y : sw_threads s !! i = Some a -> sw_threads s !! j = Some b -> i <> j ->
    st_pc a = PutInsert x -> st_pc b = PutInsert y -> mt_seq x <> mt_seq y;
}.

(** ** What a thread relies on *)

Record ext (i : nat) (c : spc) (s s' : sw) : Prop := {
  x_table : sw_table s <= sw_table s';
  x_switch : sw_switch_epoch s <= sw_switch_epoch s';
  x_pushed : length (sw_pushed s) <= length (sw_pushed s');
  x_seq : sw_seq s <= sw_seq s';
  x_acked : exists l, sw_acked s' = sw_acked s ++ l;
  x_tables t tb : sw_tables s !! t = Some tb -> exists tb', sw_tables s' !! t = Some tb' /\
    tb_counters tb' !! i = tb_counters tb !! i /\ (tb_frozen tb = true -> tb_frozen tb' = true) /\
    (forall e, e ∈ tb_entries tb -> e ∈ tb_entries tb') /\
    (forall e, e ∈ tb_wal tb -> e ∈ tb_wal tb' \/ exists f, sw_flushes s !! t = Some f /\ drained (fl_pc f) i);
  x_new t e x : c = PutInsert e -> x ∈ entries_of s' t -> x ∈ entries_of s t \/ mt_seq x <> mt_seq e;
  x_flush t f' : sw_flushes s' !! t = Some f' -> drained (fl_pc f') i -> counter s t i = Some true ->
    exists f, sw_flushes s !! t = Some f /\ drained (fl_pc f) i;
  x_mutex : sw_flush_mutex s = Some i <-> sw_flush_mutex s' = Some i;
  x_numbers : critical c = true -> numbers s' = numbers s;
  x_epoch : sw_flush_epoch s <= sw_flush_epoch s';
  x_pending p : critical c = true -> p ∈ sw_pending s' -> p ∈ sw_pending s;
  x_keep p : critical c = true -> p ∈ sw_pending s -> length (sw_flushes s) <= p.2 -> p ∈ sw_pending s';
}.

Lemma ext_entries i c s s' t e : ext i c s s' -> e ∈ entries_of s t -> e ∈ entries_of s' t.
Proof.
  intros X He. unfold entries_of in *. destruct (sw_tables s !! t) as [tb|] eqn:Et; [|by apply elem_of_nil in He].
  destruct (x_tables _ _ _ _ X t tb Et) as (tb' & -> & _ & _ & H & _). by apply H.
Qed.

Lemma ext_counter i c s s' t : ext i c s s' -> counter s t i = Some true -> counter s' t i = Some true.
Proof.
  intros X Hc. unfold counter in *. destruct (sw_tables s !! t) as [tb|] eqn:Et; [|done].
  destruct (x_tables _ _ _ _ X t tb Et) as (tb' & -> & H & _). cbn in *. by rewrite H.
Qed.

Lemma ext_frozen i c s s' t : ext i c s s' -> frozen s t -> frozen s' t.
Proof. intros X (tb & Et & Hf). destruct (x_tables _ _ _ _ X t tb Et) as (tb' & Et' & _ & H & _). exists tb'. auto. Qed.

Lemma ext_phase i c s s' r : ext i c s s' -> phase_ok s r c -> phase_ok s' r c.
Proof.
  intros X. destruct (critical c) eqn:Ec; [|by destruct c].
  pose proof (x_numbers _ _ _ _ X Ec) as En. assert (Et : sw_table s' = sw_table s) by (unfold numbers in En; congruence).
  assert (Hq : quiet s -> quiet s') by (unfold quiet; by rewrite En, Et). pose proof (x_epoch _ _ _ _ X) as Hep.
  assert (Hn : forall ep, newest_epoch s ep -> newest_epoch s' ep).
  { intros ep [H1 H2]. split; [lia|]. intros p Hp. by apply H2, (x_pending _ _ _ _ X). }
  assert (Hk : forall ep t a b d, numbers s = (a, b, t, d) -> (ep, t) ∈ sw_pending s -> (ep, t) ∈ sw_pending s').
  { intros ep t a b d E Hin. apply (x_keep _ _ _ _ X _ Ec Hin). unfold numbers in E. injection E as <- <- <- <-. done. }
  unfold phase_ok. rewrite En, Et. pose proof (ext_frozen i c s s' (sw_table s) X).
  destruct c; try done; intuition eauto.
Qed.

Lemma ext_must i c s s' n k t e : ext i c s s' -> n <= length (sw_acked s) -> must_see s' n k t e -> must_see s n k t e.
Proof.
  intros X Hn [H1 H2]. split; [|done]. destruct (x_acked _ _ _ _ X) as [l E]. by rewrite E, take_app_le in H1.
Qed.

Lemma ext_get i c s s' ref :
  ext i c s s' -> (forall n, seen_of c = Some n -> n <= length (sw_acked s)) -> get_ok s ref c -> get_ok s' ref c.
Proof.
  intros X Hn. pose proof (x_table _ _ _ _ X). pose proof (x_pushed _ _ _ _ X).
  assert (Hm : forall n k t e, seen_of c = Some n -> must_see s' n k t e -> must_see s n k t e) by (intros; eapply ext_must; eauto).
  destruct c as [| | | | | | | | | | | | | | | | | | | | | | | | |k seen|k seen|k l seen|k seen|k o seen]; try done; cbn in *.
  all: try (destruct seen as [n|]; [|done]).
  - intros (ep & r & E & H1). exists ep, r. split; [done|]. intros t e Ht. eapply H1; eauto.
  - intros H1 t e Ht. assert (t < sw_table s) by eauto. lia.
  - intros [H1 H2]. split; [done|]. intros t e Ht. destruct (H2 t e) as [|[? ?]]; [by eauto|by left|]. right. split; [lia|done].
  - intros H1 t e Ht. assert (t < length (sw_pushed s)) by eauto. lia.
  - intros [H1 H2]. split; [|intros n Hs t e Ht; eapply (H2 n); eauto]. intros t e Ht. destruct (H1 t e Ht). split; [by eapply ext_entries|done].
Qed.

Lemma th_ok_ext s s' i th : ext i (st_pc th) s s' -> th_ok s i th -> th_ok s' i th.
Proof.
  intros X [K1 K2 K3 K4 K5 K6 K7 K8 K9 K10 K11]. pose proof (x_table _ _ _ _ X). pose proof (x_switch _ _ _ _ X). split.
  - intros t Ht. specialize (K1 t Ht). lia.
  - intros ep t Ht. destruct (K2 ep t Ht) as (? & ? & ?). split_and!; [lia|lia|done].
  - intros ep k Hk. specialize (K3 ep k Hk). lia.
  - done.
  - intros t Ht Ha. eapply ext_counter; eauto.
  - intros t f' Ht Hh Hf Hd. destruct (x_flush _ _ _ _ X t f' Hf Hd) as (f & Hf' & Hd'); [|by eapply K6].
    apply K5; [done|]. unfold announced. by destruct (st_pc th).
  - rewrite K7. apply X.
  - by eapply ext_phase.
  - pose proof (x_seq _ _ _ _ X). assert (Hent : forall t e, e ∈ entries_of s t -> e ∈ entries_of s' t) by (intros; by eapply ext_entries).
    unfold entry_at in *. destruct (st_pc th) as [| | | | | | |e|e|e|e| | | | | | | | | | | | | | | | | | | ] eqn:Ec; try done.
    + destruct K9 as [G1 G2]. split; [lia|]. intros t x Hx. destruct (x_new _ _ _ _ X t e x eq_refl Hx); [by eapply G2|done].
    + auto.
    + auto.
    + intros t Ht. destruct (K9 t Ht) as [G1 G2]. split; [auto|]. unfold wal_of in G2 |- *.
      destruct (sw_tables s !! t) as [tb|] eqn:Et; [|by apply elem_of_nil in G2].
      destruct (x_tables _ _ _ _ X t tb Et) as (tb' & -> & _ & _ & _ & H5). destruct (H5 e G2) as [|(f & Hf & Hd)]; [done|].
      exfalso. by apply (K6 t f Ht eq_refl Hf).
  - intros n Hn. destruct (x_acked _ _ _ _ X) as [l ->]. rewrite length_app. specialize (K10 n Hn). lia.
  - eapply ext_get; eauto.
Qed.

(** Nothing changes but the threads. *)
Lemma ext_same i c s s' :
  sw_tables s' = sw_tables s -> sw_table s' = sw_table s -> sw_switch_epoch s' = sw_switch_epoch s -> sw_pushed s' = sw_pushed s ->
  sw_seq s <= sw_seq s' -> (exists l, sw_acked s' = sw_acked s ++ l) -> sw_flushes s' = sw_flushes s ->
  (sw_flush_mutex s = Some i <-> sw_flush_mutex s' = Some i) -> (critical c = true -> numbers s' = numbers s) ->
  sw_flush_epoch s <= sw_flush_epoch s' -> sw_pending s' = sw_pending s -> ext i c s s'.
Proof.
  intros E1 E2 E3 E4 E5 E6 E7 E8 E9 E10 E11. split; rewrite ?E2, ?E3, ?E4, ?E11; try done.
  - rewrite E1. intros t tb Ht. exists tb. split_and!; auto.
  - unfold entries_of. rewrite E1. auto.
  - rewrite E7. eauto.
Qed.

(** ** Assembling the invariant after a step *)

Lemma winv_thread n s s1 i th th' :
  winv n s -> sw_threads s !! i = Some th -> sw_threads s1 = sw_threads s -> ginv n s1 -> th_ok s1 i th' ->
  (forall j u, j <> i -> sw_threads s !! j = Some u -> ext j (st_pc u) s s1) ->
  (sw_flush_mutex s1 = None -> quiet s1) -> (forall j, j <> i -> sw_flush_mutex s1 = Some j -> sw_flush_mutex s = Some j) ->
  (forall e, st_pc th' = PutInsert e -> st_pc th = PutInsert e \/
     forall j u y, j <> i -> sw_threads s !! j = Some u -> st_pc u = PutInsert y -> mt_seq e <> mt_seq y) ->
  winv n (set_thread s1 i th').
Proof.
  intros [_ Wm Wt Wu] Hi Et G K X Mn Mj U. pose proof (lookup_lt_Some _ _ _ Hi) as Hlt.
  assert (Hlook : forall j u, <[i := th']> (sw_threads s) !! j = Some u -> (j = i /\ u = th') \/ (j <> i /\ sw_threads s !! j = Some u)).
  { intros j u Hj. destruct (decide (j = i)) as [->|Hne]; [rewrite list_lookup_insert_eq in Hj by done; left; split; congruence|].
    rewrite list_lookup_insert_ne in Hj by done. auto. }
  assert (Hself : forall j u, th_ok s1 j u -> th_ok (set_thread s1 i th') j u).
  { intros j u. apply th_ok_ext, ext_same; try done. by exists []; rewrite app_nil_r. }
  split.
  - destruct G as [G1 G2 G3 G4 G5 G6 G7 G8 G9 G10 G11 G12 G13 G14]. split; try done; [cbn; by rewrite length_insert|].
    intros j f Hj. destruct (G7 j f Hj). by split.
  - cbn. rewrite Et. destruct (sw_flush_mutex s1) as [j|] eqn:Em; [|by apply Mn]. destruct (decide (j = i)) as [->|Hne].
    + exists th'. rewrite list_lookup_insert_eq by done. split; [done|]. apply (tk_mutex _ _ _ K). done.
    + rewrite (Mj j Hne eq_refl) in Wm. destruct Wm as (u & Hu & Hc). exists u. by rewrite list_lookup_insert_ne.
  - intros j u Hj. cbn in Hj. rewrite Et in Hj. apply Hself. apply Hlook in Hj as [[-> ->]|[Hne Hj]]; [done|].
    apply th_ok_ext with s; [by apply X|by apply Wt].
  - intros j k a b x y Hj Hk Hjk Ha Hb. cbn in Hj, Hk. rewrite Et in Hj, Hk.
    apply Hlook in Hj as [[-> ->]|[Hne Hj]]; apply Hlook in Hk as [[-> ->]|[Hne' Hk]]; try done.
    + destruct (U x Ha) as [Hx|Hx]; [by eapply (Wu i k)|by eapply Hx].
    + destruct (U y Hb) as [Hy|Hy]; [by eapply (Wu j i)|]. intros E. by eapply (Hy j a x Hne Hj).
    + by eapply (Wu j k).
Qed.

Lemma winv_task n s s1 :
  winv n s -> sw_threads s1 = sw_threads s -> ginv n s1 ->
  (forall j u, sw_threads s !! j = Some u -> ext j (st_pc u) s s1) ->
  sw_flush_mutex s1 = sw_flush_mutex s -> numbers s1 = numbers s -> winv n s1.
Proof.
  intros [_ Wm Wt Wu] Et G X Em En. split.
  - done.
  - rewrite Em, Et. destruct (sw_flush_mutex s); [done|]. unfold quiet in *. rewrite En.
    assert (E : sw_table s1 = sw_table s) by (unfold numbers in En; congruence). by rewrite E.
  - intros i th Hi. rewrite Et in Hi. apply th_ok_ext with s; [by apply X|by apply Wt].
  - rewrite Et. done.
Qed.

(** ** Changes of a table *)

Section table_changes.
Context (s : sw) (r : nat) (f : table -> table).

Lemma upd_lookup t tb' :
  sw_tables (upd_table s r f) !! t = Some tb' -> exists tb, sw_tables s !! t = Some tb /\ tb' = if decide (t = r) then f tb else tb.
Proof.
  cbn. destruct (decide (t = r)) as [->|Hne].
  - rewrite list_lookup_alter_eq. intros H. apply fmap_Some in H as (tb & Ht & ->). eauto.
  - rewrite list_lookup_alter_ne by done. eauto.
Qed.

Lemma upd_lookup_some t tb :
  sw_tables s !! t = Some tb -> sw_tables (upd_table s r f) !! t = Some (if decide (t = r) then f tb else tb).
Proof.
  intros Ht. cbn. destruct (decide (t = r)) as [->|Hne].
  - by rewrite list_lookup_alter_eq, Ht.
  - by rewrite list_lookup_alter_ne.
Qed.

Lemma upd_entries_same t : (forall tb, tb_entries (f tb) = tb_entries tb) -> entries_of (upd_table s r f) t = entries_of s t.
Proof.
  intros Hf. unfold entries_of. cbn. destruct (decide (t = r)) as [->|Hne].
  - rewrite list_lookup_alter_eq. destruct (sw_tables s !! r); [|done]. cbn. by rewrite Hf.
  - by rewrite list_lookup_alter_ne.
Qed.

Lemma upd_wal t : wal_of (upd_table s r f) t = if decide (t = r) then from_option (fun tb => tb_wal (f tb)) [] (sw_tables s !! r) else wal_of s t.
Proof.
  unfold wal_of. cbn. destruct (decide (t = r)) as [->|Hne].
  - rewrite list_lookup_alter_eq. by destruct (sw_tables s !! r).
  - by rewrite list_lookup_alter_ne.
Qed.

Lemma upd_frozen t : (forall tb, tb_frozen tb = true -> tb_frozen (f tb) = true) -> frozen s t -> frozen (upd_table s r f) t.
Proof.
  intros Hf (tb & Ht & Hz). eexists. split; [by apply upd_lookup_some|]. destruct (decide (t = r)); auto.
Qed.

(** Changes that keep the entries. *)
Lemma ginv_upd n :
  ginv n s -> (forall tb, length (tb_counters (f tb)) = length (tb_counters tb)) ->
  (forall tb, tb_frozen tb = true -> tb_frozen (f tb) = true) -> (forall tb, tb_entries (f tb) = tb_entries tb) ->
  (forall e, e ∈ wal_of s r -> r < length (sw_pushed s) \/ forall tb, sw_tables s !! r = Some tb -> e ∈ tb_wal (f tb)) ->
  ginv n (upd_table s r f).
Proof.
  intros G Hc Hz He Hw. pose proof (fun t => upd_entries_same t He) as Es. destruct G as [G1 G2 G3 G4 G5 G6 G7 G8 G9 G10 G11 G12 G13 G14].
  split; try done.
  - intros t tb' Ht. apply upd_lookup in Ht as (tb & Ht & ->). destruct (decide (t = r)); [rewrite Hc|]; by eapply G2.
  - cbn. by rewrite length_alter.
  - intros t Ht. apply upd_frozen; [done|by apply G5].
  - intros j g Hj. destruct (G7 j g Hj) as [F1 F2 F3 F4]. split; try done. intros x Hx. rewrite Es. auto.
  - intros j ep x Hj. rewrite Es. by eapply G8.
  - intros t. rewrite Es. done.
  - intros t e. rewrite Es. apply G13.
  - intros t e Ha. destruct (G14 t e Ha) as (A1 & A2 & A3). rewrite Es. split_and!; try done. cbn. rewrite upd_wal.
    destruct A3 as [|A3]; [by left|]. destruct (decide (t = r)) as [->|]; [|by right]. destruct (Hw e A3) as [|Hx]; [by left|].
    right. unfold wal_of in A3. destruct (sw_tables s !! r) as [tb|]; [|by apply elem_of_nil in A3]. cbn. by apply Hx.
Qed.

Lemma ext_upd i c :
  (forall tb, tb_counters (f tb) !! i = tb_counters tb !! i) ->
  (forall tb, tb_frozen tb = true -> tb_frozen (f tb) = true) -> (forall tb, tb_entries (f tb) = tb_entries tb) ->
  (forall tb e, e ∈ tb_wal tb -> e ∈ tb_wal (f tb) \/ exists g, sw_flushes s !! r = Some g /\ drained (fl_pc g) i) ->
  ext i c s (upd_table s r f).
Proof.
  intros Hc Hz He Hw. split; try done.
  - by exists []; rewrite app_nil_r.
  - intros t tb Ht. eexists. split; [by apply upd_lookup_some|]. destruct (decide (t = r)) as [->|]; [|split_and!; auto].
    rewrite He. split_and!; auto.
  - intros t e x _ Hx. left. by rewrite upd_entries_same in Hx.
  - intros t g Hg Hd _. by exists g.
Qed.
End table_changes.

(** What is not shared by the invariant may change. *)
Lemma ginv_shared n s m fe se sl mk :
  let s1 := mk_sw (sw_tables s) (sw_table s) (sw_pipelined s) m fe se sl (sw_pending s) (sw_seq s) (sw_pushed s) (sw_released s) mk
    (sw_flushes s) (sw_threads s) (sw_acked s) in
  ginv n s -> sw_flush_epoch s <= fe -> se <= sw_table s -> ginv n s1.
Proof.
  intros s1 G Hf Hs. destruct G as [G1 G2 G3 G4 G5 G6 G7 G8 G9 G10 [G11 G11'] G12 G13 G14]. split; try done.
  - cbn. lia.
  - intros j f Hj. by destruct (G7 j f Hj).
  - split; [done|]. intros p Hp. specialize (G11' p Hp). cbn. lia.
Qed.

(** ** The steps *)

Section steps.
Context (n : nat) (s : sw) (i : nat) (th : sthread).
Context (W : winv n s) (Hi : sw_threads s !! i = Some th).

Let K : th_ok s i th := wi_thread n s W i th Hi.
Let G : ginv n s := wi_global n s W.

Lemma quiet_now : sw_flush_mutex s = None -> quiet s.
Proof. intros E. pose proof (wi_mutex _ _ W) as M. by rewrite E in M. Qed.

Lemma winv_pure th' :
  th_ok s i th' ->
  (forall e, st_pc th' = PutInsert e -> st_pc th = PutInsert e) -> winv n (set_thread s i th').
Proof.
  intros K' U. apply (winv_thread n s s i th th'); try done.
  - intros j u _ _. apply ext_same; try done. by exists []; rewrite app_nil_r.
  - apply quiet_now.
  - intros e He. left. auto.
Qed.

Lemma not_critical : critical (st_pc th) = false -> sw_flush_mutex s <> Some i.
Proof. intros E M. apply (tk_mutex _ _ _ K) in M. congruence. Qed.

Lemma mutex_critical c : critical (st_pc th) = false -> critical c = false -> critical c = true <-> sw_flush_mutex s = Some i.
Proof. intros H1 H2. pose proof (not_critical H1). rewrite H2. split; [done|]. intros ?. by destruct H. Qed.

(** A step to a point outside of flushes and reads that only changes the
    reference to a table. *)
Lemma th_ok_put c r :
  critical (st_pc th) = false -> critical c = false -> in_get c = false -> (forall ep k, c <> GetInitTable ep k) ->
  (forall t, r = Some t -> t <= sw_table s) ->
  (announced c = true -> is_Some r) -> (forall t, r = Some t -> announced c = true -> counter s t i = Some true) ->
  (forall t f, r = Some t -> holding c = true -> sw_flushes s !! t = Some f -> ~ drained (fl_pc f) i) ->
  entry_at s r c -> reloading (st_pc th) = false -> th_ok s i (mk_sthread r (st_get_ref th) c).
Proof.
  intros Hc Hc' Hg Hgi Hr Ha Hcnt Hd He Hnr. split; cbn; try done.
  - intros ep t Ht. destruct (tk_get_ref _ _ _ K ep t Ht) as (? & ? & H1). split_and!; [done|done|]. intros _. by apply H1.
  - intros ep k E. by destruct (Hgi ep k).
  - by apply mutex_critical.
  - by destruct c.
  - by destruct c.
  - by destruct c.
Qed.

(** The same for reads. *)
Lemma th_ok_read c ref :
  critical (st_pc th) = false -> critical c = false -> announced c = false ->
  (forall ep t, ref = Some (ep, t) -> ep <= sw_switch_epoch s /\ t <= sw_table s /\ (reloading c = false -> ep <= t)) ->
  (forall ep k, c = GetInitTable ep k -> ep <= sw_switch_epoch s) ->
  (forall m, seen_of c = Some m -> m <= length (sw_acked s)) -> entry_at s (st_put_ref th) c -> get_ok s ref c ->
  th_ok s i (mk_sthread (st_put_ref th) ref c).
Proof.
  intros Hc Hc' Hg Hr Hin Hs He Hok. split; cbn; try done.
  - apply K.
  - congruence.
  - intros; congruence.
  - intros t f _ Hh. exfalso. unfold announced in Hg. destruct c; cbn in *; congruence.
  - by apply mutex_critical.
  - destruct c; cbn in *; done.
Qed.

Lemma refs_now ep t : st_get_ref th = Some (ep, t) -> reloading (st_pc th) = false ->
  ep <= sw_switch_epoch s /\ t <= sw_table s /\ ep <= t.
Proof. intros Hr Hn. destruct (tk_get_ref _ _ _ K ep t Hr) as (? & ? & H1). auto. Qed.

(** *** Reads *)

Definition small (s : sw) : Prop := (Z.of_nat (sw_seq s) <= 2 ^ 64)%Z.
Context (Hsmall : small s).

Lemma entries_small t : Forall (fun e => (mt_seq e <= UINT64_MAX)%Z) (entries_of s t).
Proof. apply Forall_forall. intros e He. apply (gi_seq _ _ G) in He. unfold small, UINT64_MAX in *. lia. Qed.

Lemma find_newest t k e : e ∈ entries_of s t -> mt_key e = k ->
  exists e', find_entry (entries_of s t) k = Some e' /\ (mt_seq e <= mt_seq e')%Z.
Proof. apply find_entry_newest; [apply G|apply entries_small]. Qed.

Lemma not_switching : switching s = false -> sw_switch_epoch s = sw_table s.
Proof.
  intros Hs. pose proof (wi_mutex _ _ W) as M. destruct (sw_flush_mutex s) as [j|]; [|unfold quiet, numbers in M; congruence].
  destruct M as (u & Hu & Hc). pose proof (tk_phase _ _ _ (wi_thread _ _ W j u Hu)) as P.
  assert (Hb : forall ep t w, st_pc u <> FlushBump ep t w).
  { intros ep t w E. unfold switching in Hs. assert (Ht : existsb (fun th => match st_pc th with FlushBump _ _ _ => true | _ => false end) (sw_threads s) = true); [|congruence].
    apply existsb_exists. exists u. split; [by apply list_elem_of_lookup_2, list_elem_of_In in Hu|]. by rewrite E. }
  unfold phase_ok, quiet, numbers in P. destruct (st_pc u); try done; intuition congruence.
Qed.

Lemma must_acked m k t e : must_see s m k t e -> t <= sw_table s /\ e ∈ entries_of s t /\ mt_key e = k.
Proof.
  intros [H1 H2]. destruct (gi_acked _ _ G t e) as (? & ? & _); [|done].
  apply elem_of_take in H1 as (j & Hj & _). by apply list_elem_of_lookup_2 in Hj.
Qed.

Lemma pending_desc : StronglySorted (fun a b => b < a) (reverse (sw_pending s).*2).
Proof.
  rewrite (gi_pending _ _ G). set (m := length (sw_pushed s)). set (d := sw_table s - m). clearbody m d.
  induction d as [|d IH]; [constructor|].
  rewrite seq_S, reverse_snoc. constructor; [done|]. apply Forall_forall. intros x Hx. rewrite elem_of_reverse, elem_of_seq in Hx. lia.
Qed.

Lemma pending_elem t : t ∈ reverse (sw_pending s).*2 <-> length (sw_pushed s) <= t < sw_table s.
Proof. rewrite elem_of_reverse, (gi_pending _ _ G), elem_of_seq. pose proof (gi_bounds _ _ G). lia. Qed.

Lemma seen_now m : seen_of (st_pc th) = Some m -> m <= length (sw_acked s).
Proof. apply K. Qed.

Lemma get_step_ok ref ref' c' :
  st_get_ref th = Some ref -> in_get (st_pc th) = true -> get_step s ref (st_pc th) = Some (ref', c') ->
  th_ok s i (mk_sthread (st_put_ref th) (Some ref') c').
Proof.
  intros Hr Hg Hs. destruct ref as [ep r]. pose proof (tk_get_ref _ _ _ K ep r Hr) as (R1 & R2 & R3). pose proof (tk_get _ _ _ K) as O. pose proof seen_now as Hn.
  assert (Hc : critical (st_pc th) = false) by (by destruct (st_pc th)).
  destruct (st_pc th) as [| | | | | | | | | | | | | | | | | | | | | | |k|k seen|k seen|k seen|k l seen|k seen|k o seen] eqn:Ec; try done; cbn [get_step fst snd] in Hs.
  - assert (Ha : forall m, (if switching s then None else Some (length (sw_acked s))) = Some m -> m <= length (sw_acked s)) by (intros m; destruct (switching s); [done|intros [= <-]; lia]).
    assert (Hep : ep <= r) by (by apply R3).
    destruct (Nat.ltb_spec ep (sw_switch_epoch s)) as [Hlt|Hge]; injection Hs as <- <-; apply th_ok_read; rewrite ?Ec; cbn; try done.
    + intros ep' t [= <- <-]. split_and!; [lia|done|done].
    + intros ep' t [= <- <-]. auto.
    + destruct (switching s) eqn:Esw; [done|]. exists ep, r. split; [done|]. intros t e Hm.
      destruct (must_acked _ _ _ _ Hm) as (? & _). pose proof (not_switching Esw). lia.
  - injection Hs as <- <-. pose proof (gi_bounds _ _ G). apply th_ok_read; rewrite ?Ec; cbn; try done.
    + intros ep' t [= <- <-]. split_and!; [lia|lia|]. intros. lia.
    + destruct seen as [m|]; [|done]. exists ep, (sw_table s). split; [done|]. intros t e Hm. by destruct (must_acked _ _ _ _ Hm) as (? & _).
  - assert (Hep : ep <= r) by (by apply R3).
    assert (Hok : get_ok s (Some (ep, r)) c').
    { injection Hs as _ <-. destruct (find_entry (entries_of s r) k) as [e'|] eqn:Ef;
        [split; [intros t e [= <- <-]; by apply find_entry_Some in Ef|intros m ->]|destruct seen as [m|]; [|done]]; cbn in *;
        destruct O as (ep0 & r0 & E & O); rewrite Hr in E; injection E as <- <-; intros t e Hm; destruct (must_acked _ _ _ _ Hm) as (? & He & Hk);
        specialize (O t e Hm).
      - exists r, e'. split; [done|]. destruct (decide (t = r)) as [->|]; [|lia]. destruct (find_newest r k e He Hk) as (e'' & E & Hle).
        rewrite Ef in E. injection E as <-. auto.
      - destruct (decide (t = r)) as [->|]; [|lia]. destruct (find_newest r k e He Hk) as (e'' & E & Hle). congruence. }
    injection Hs as <- <-. apply th_ok_read; rewrite ?Ec; try done; try (by destruct (find_entry (entries_of s r) k)).
    + intros ep' t [= <- <-]. auto.
  - injection Hs as <- <-. apply th_ok_read; rewrite ?Ec; cbn; try done.
    + intros ep' t [= <- <-]. split_and!; [done|done|]. intros _. by apply R3.
    + destruct seen as [m|]; [|done]. cbn in O. split; [apply pending_desc|]. intros t e Hm. specialize (O t e Hm).
      destruct (decide (t < length (sw_pushed s))) as [Hlt|Hge]; [|left; apply pending_elem; lia].
      right. split; [done|]. apply Forall_forall. intros a Ha. apply pending_elem in Ha. lia.
  - assert (Hep : ep <= r) by (by apply R3). destruct l as [|t0 l].
    + injection Hs as <- <-. apply th_ok_read; rewrite ?Ec; cbn; try done.
      * intros ep' t [= <- <-]. auto.
      * destruct seen as [m|]; [|done]. destruct O as [_ O]. intros t e Hm. destruct (O t e Hm) as [Hin|[? _]]; [by apply elem_of_nil in Hin|done].
    + assert (Hok : get_ok s (Some (ep, r)) c').
      { injection Hs as _ <-. destruct (find_entry (entries_of s t0) k) as [e'|] eqn:Ef;
          [split; [intros t e [= <- <-]; by apply find_entry_Some in Ef|intros m ->]|destruct seen as [m|]; [|done]]; cbn in *;
          destruct O as [Hso O]; apply StronglySorted_inv in Hso as [Hso Hal]; rewrite Forall_forall in Hal.
        - intros t e Hm. destruct (must_acked _ _ _ _ Hm) as (? & He & Hk). exists t0, e'. split; [done|].
          destruct (O t e Hm) as [Hin|[_ Hall]]; [|apply Forall_cons in Hall as [? _]; auto].
          apply elem_of_cons in Hin as [->|Hin]; [|left; by apply Hal].
          destruct (find_newest t0 k e He Hk) as (e'' & E & Hle). rewrite Ef in E. injection E as <-. auto.
        - split; [done|]. intros t e Hm. destruct (must_acked _ _ _ _ Hm) as (? & He & Hk).
          destruct (O t e Hm) as [Hin|[? Hall]]; [|apply Forall_cons in Hall as [_ ?]; auto].
          apply elem_of_cons in Hin as [->|Hin]; [|by left]. destruct (find_newest t0 k e He Hk) as (e'' & E & Hle). congruence. }
      injection Hs as <- <-. apply th_ok_read; rewrite ?Ec; try done; try (by destruct (find_entry (entries_of s t0) k)).
      intros ep' t [= <- <-]. auto.
  - injection Hs as <- <-. apply th_ok_read; rewrite ?Ec; cbn; try done.
    + intros ep' t [= <- <-]. split_and!; [done|done|]. intros _. by apply R3.
    + assert (Hrun : forall j ep' x, sw_pushed s !! j = Some (ep', x) -> x = entries_of s j) by apply G.
      split; [intros t e Hf; by eapply find_run_Some|]. intros m -> t e Hm. destruct (must_acked _ _ _ _ Hm) as (? & He & Hk).
      apply (find_run_newest (entries_of s)); try done.
      * intros j x _ Hx. destruct x as [ep' x]. by apply (gi_pushed _ _ G j ep').
      * intros j. split; [apply G|apply entries_small].
      * by apply (O t e).
  - injection Hs as <- <-. apply th_ok_read; rewrite ?Ec; cbn; try done.
    intros ep' t [= <- <-]. split_and!; [done|done|]. intros _. by apply R3.
Qed.

(** *** Writes *)

(** A point outside of flushes and reads, in any state. *)
Lemma th_ok_mk s1 r c :
  sw_table s1 = sw_table s -> sw_switch_epoch s1 = sw_switch_epoch s ->
  sw_flush_mutex s1 <> Some i -> critical c = false -> in_get c = false -> (forall ep k, c <> GetInitTable ep k) ->
  reloading (st_pc th) = false -> (forall t, r = Some t -> t <= sw_table s1) ->
  (announced c = true -> is_Some r) -> (forall t, r = Some t -> announced c = true -> counter s1 t i = Some true) ->
  (forall t f, r = Some t -> holding c = true -> sw_flushes s1 !! t = Some f -> ~ drained (fl_pc f) i) ->
  entry_at s1 r c -> th_ok s1 i (mk_sthread r (st_get_ref th) c).
Proof.
  intros E1 E2 Hm Hc Hg Hgi Hrl Hr Ha Hcnt Hd He. split; cbn; try done.
  - intros ep t Ht. rewrite E1, E2. destruct (refs_now ep t Ht Hrl) as (? & ? & ?). auto.
  - intros ep k E. by destruct (Hgi ep k).
  - rewrite Hc. split; [done|]. intros. by destruct Hm.
  - by destruct c.
  - by destruct c.
  - by destruct c.
Qed.

Lemma counter_set b r : is_Some (sw_tables s !! r) -> counter (upd_table s r (set_present i b)) r i = Some b.
Proof.
  intros [tb Ht]. unfold counter. rewrite (upd_lookup_some s r _ r tb Ht). rewrite decide_True by done. cbn.
  apply list_lookup_insert_eq. rewrite (gi_counters _ _ G r tb Ht), <- (gi_threads _ _ G). exact (lookup_lt_Some _ _ _ Hi).
Qed.

Lemma ref_table r : st_put_ref th = Some r -> is_Some (sw_tables s !! r).
Proof. intros Hr. apply lookup_lt_is_Some. rewrite (gi_tables _ _ G). pose proof (tk_put_ref _ _ _ K r Hr). lia. Qed.

(** Announcing and leaving: the thread's counter changes. *)
Lemma winv_counter r b c :
  st_put_ref th = Some r -> critical (st_pc th) = false -> critical c = false -> in_get c = false -> (forall ep k, c <> GetInitTable ep k) ->
  reloading (st_pc th) = false -> holding c = false -> (announced c = true -> b = true) -> entry_at s (Some r) c -> (forall e, c <> PutInsert e) ->
  winv n (set_thread (upd_table s r (set_present i b)) i (mk_sthread (Some r) (st_get_ref th) c)).
Proof.
  intros Hr Hc Hc' Hg Hgi Hrl Hh Hb He Hni. apply (winv_thread n s _ i th); try done.
  - apply ginv_upd; try done; [intros tb; cbn; by rewrite length_insert|]. intros e He'. right. intros tb Ht. unfold wal_of in He'. by rewrite Ht in He'.
  - apply th_ok_mk; try done.
    + by apply not_critical.
    + intros t [= <-]. by apply (tk_put_ref _ _ _ K).
    + intros t [= <-] Ha. rewrite counter_set by (by apply ref_table). by rewrite Hb.
    + intros t f _ Hh'. congruence.
    + by destruct c.
  - intros j u Hj _. apply ext_upd; try done; [|by auto]. intros tb. cbn. by rewrite list_lookup_insert_ne.
  - apply quiet_now.
  - intros e E. by destruct (Hni e).
Qed.

Lemma hold_current r tb : sw_tables s !! r = Some tb -> tb_frozen tb = false -> r <= sw_table s -> r = sw_table s.
Proof.
  intros Ht Hf Hle. destruct (decide (r = sw_table s)) as [|Hne]; [done|].
  destruct (gi_frozen _ _ G r ltac:(lia)) as (tb' & Ht' & Hz). congruence.
Qed.

(** The table of a thread that holds it has not been exported. *)
Lemma not_exported r f : st_put_ref th = Some r -> holding (st_pc th) = true -> sw_flushes s !! r = Some f ->
  held_run (fl_pc f) = None /\ in_lsm (fl_pc f) = false.
Proof.
  intros Hr Hh Hf. pose proof (tk_drained _ _ _ K r f Hr Hh Hf) as Hd. destruct (fl_pc f); cbn in *; try done; by destruct Hd.
Qed.

Lemma not_pushed r : st_put_ref th = Some r -> holding (st_pc th) = true -> length (sw_pushed s) <= r.
Proof.
  intros Hr Hh. destruct (decide (length (sw_pushed s) <= r)) as [|Hlt]; [done|]. pose proof (gi_bounds _ _ G).
  destruct (lookup_lt_is_Some_2 (sw_flushes s) r) as [f Hf]; [lia|]. destruct (not_exported r f Hr Hh Hf) as [_ Hl].
  pose proof (proj2 (fk_lsm _ _ _ (gi_flush _ _ G r f Hf)) ltac:(lia)). congruence.
Qed.

Lemma entries_insert r e t : is_Some (sw_tables s !! r) ->
  entries_of (upd_table s r (insert_row e)) t = if decide (t = r) then skiplist_insert e (entries_of s t) else entries_of s t.
Proof.
  intros [tb Ht]. unfold entries_of. cbn. destruct (decide (t = r)) as [->|Hne].
  - by rewrite list_lookup_alter_eq, Ht.
  - by rewrite list_lookup_alter_ne.
Qed.

Lemma ginv_insert r e :
  st_put_ref th = Some r -> st_pc th = PutInsert e -> ginv n (upd_table s r (insert_row e)).
Proof.
  intros Hr Ec. assert (Hh : holding (st_pc th) = true) by (by rewrite Ec). pose proof (tk_entry _ _ _ K) as E. rewrite Ec in E. destruct E as [Es En].
  pose proof (fun t => entries_insert r e t (ref_table r Hr)) as Ee. pose proof (not_pushed r Hr Hh) as Hp.
  assert (Hw : forall t, wal_of (upd_table s r (insert_row e)) t = wal_of s t).
  { intros t. rewrite upd_wal. destruct (decide (t = r)) as [->|]; [|done]. unfold wal_of. by destruct (sw_tables s !! r). }
  destruct G as [G1 G2 G3 G4 G5 G6 G7 G8 G9 G10 G11 G12 G13 G14]. split; try done.
  - intros t tb' Ht. apply upd_lookup in Ht as (tb & Ht & ->). destruct (decide (t = r)); exact (G2 t tb Ht).
  - cbn. by rewrite length_alter.
  - intros t Ht. apply upd_frozen; [done|by apply G5].
  - intros j f Hj. destruct (G7 j f Hj) as [F1 F2 F3 F4]. split; try done. intros x Hx. rewrite Ee. destruct (decide (j = r)) as [->|]; [|auto].
    destruct (not_exported r f Hr Hh Hj). congruence.
  - intros j ep x Hj. rewrite Ee. destruct (decide (j = r)) as [->|]; [|by eapply G8]. apply lookup_lt_Some in Hj. cbn in Hj. lia.
  - intros t. rewrite Ee. destruct (decide (t = r)); [by apply insert_sorted|done].
  - intros t x. rewrite Ee. destruct (decide (t = r)); [|apply G13]. intros Hx. apply skiplist_insert_elem in Hx as [->|Hx]; [done|by apply (G13 t)].
  - intros t x Ha. destruct (G14 t x Ha) as (A1 & A2 & A3). rewrite Hw, Ee. split_and!; try done.
    destruct (decide (t = r)); [by apply insert_keeps|done].
Qed.

Lemma step_insert r e :
  st_put_ref th = Some r -> st_pc th = PutInsert e ->
  winv n (set_thread (upd_table s r (insert_row e)) i (mk_sthread (Some r) (st_get_ref th) (PutBudget e))).
Proof.
  intros Hr Ec. pose proof (tk_entry _ _ _ K) as E. rewrite Ec in E. destruct E as [Es En].
  pose proof (fun t => entries_insert r e t (ref_table r Hr)) as Ee.
  assert (Hcnt : forall t j, counter (upd_table s r (insert_row e)) t j = counter s t j).
  { intros t j. unfold counter. destruct (sw_tables s !! t) as [tb|] eqn:Et.
    - rewrite (upd_lookup_some s r _ t tb Et). by destruct (decide (t = r)).
    - cbn. destruct (decide (t = r)) as [->|]; [rewrite list_lookup_alter_eq, Et|rewrite list_lookup_alter_ne, Et by done]; done. }
  apply (winv_thread n s _ i th); try done.
  - by apply ginv_insert.
  - apply th_ok_mk; try done; rewrite ?Ec; try done.
    + apply not_critical. by rewrite Ec.
    + intros t [= <-]. by apply (tk_put_ref _ _ _ K).
    + intros t [= <-] _. rewrite Hcnt. apply (tk_counter _ _ _ K); [done|by rewrite Ec].
    + intros t f [= <-] _ Hf. apply (tk_drained _ _ _ K r f Hr); [by rewrite Ec|done].
    + intros t [= <-]. rewrite Ee, decide_True by done. apply insert_adds. intros x Hx. by apply (En r).
  - intros j u Hj Hu. split; try done.
    + by exists []; rewrite app_nil_r.
    + intros t tb Ht. eexists. split; [by apply upd_lookup_some|]. destruct (decide (t = r)); split_and!; auto. intros x Hx. by apply insert_keeps.
    + intros t y x Hy Hx. rewrite Ee in Hx. destruct (decide (t = r)); [|by left].
      apply skiplist_insert_elem in Hx as [->|Hx]; [right|by left]. by apply (wi_unique _ _ W i j th u).
    + intros t f Hf Hd _. by exists f.
  - apply quiet_now.
Qed.

Lemma step_append r e :
  st_put_ref th = Some r -> st_pc th = PutAppend e ->
  winv n (set_thread (upd_table s r (append_log e)) i (mk_sthread (Some r) (st_get_ref th) (PutAck e))).
Proof.
  intros Hr Ec. apply (winv_thread n s _ i th); try done.
  - apply ginv_upd; try done. intros x Hx. right. intros tb Ht. unfold wal_of in Hx. rewrite Ht in Hx. cbn in *. apply elem_of_app. by left.
  - destruct (ref_table r Hr) as [tb Ht]. apply th_ok_mk; try done; rewrite ?Ec; try done.
    + apply not_critical. by rewrite Ec.
    + intros t [= <-]. by apply (tk_put_ref _ _ _ K).
    + intros t [= <-] _. assert (Hc : counter s r i = Some true) by (apply (tk_counter _ _ _ K); [done|by rewrite Ec]).
      unfold counter in *. rewrite (upd_lookup_some s r _ r tb Ht), decide_True by done. by rewrite Ht in Hc.
    + intros t f [= <-] _ Hf. apply (tk_drained _ _ _ K r f Hr); [by rewrite Ec|done].
    + intros t [= <-]. pose proof (tk_entry _ _ _ K) as E. rewrite Ec in E. split; [rewrite upd_entries_same by done; by apply E|].
      rewrite upd_wal, decide_True, Ht by done. cbn. apply elem_of_app. right. by left.
  - intros j u Hj _. apply ext_upd; try done. intros tb x Hx. left. cbn. apply elem_of_app. by left.
  - apply quiet_now.
Qed.

Lemma step_ack r e :
  st_put_ref th = Some r -> st_pc th = PutAck e ->
  winv n (set_thread (acknowledge (upd_table s r (set_present i false)) r e) i (mk_sthread (Some r) (st_get_ref th) SIdle)).
Proof.
  intros Hr Ec. pose proof (tk_entry _ _ _ K) as E. rewrite Ec in E. destruct (E r Hr) as [E1 E2].
  assert (Gu : ginv n (upd_table s r (set_present i false))).
  { apply ginv_upd; try done; [intros tb; cbn; by rewrite length_insert|]. intros x Hx. right. intros tb Ht. unfold wal_of in Hx. by rewrite Ht in Hx. }
  assert (Es : forall t, entries_of (upd_table s r (set_present i false)) t = entries_of s t) by (intros; by apply upd_entries_same).
  apply (winv_thread n s _ i th); try done.
  - destruct Gu as [G1 G2 G3 G4 G5 G6 G7 G8 G9 G10 G11 G12 G13 G14]. split; try done.
    + intros j f Hj. destruct (G7 j f Hj). by split.
    + intros t x Ha. cbn in Ha. apply elem_of_app in Ha as [Ha|Ha]; [by apply (G14 t x)|]. apply list_elem_of_singleton in Ha. injection Ha as -> ->.
      split_and!; [by apply (tk_put_ref _ _ _ K)|by rewrite <- (Es r) in E1|right].
      change (wal_of (acknowledge (upd_table s r (set_present i false)) r e) r) with (wal_of (upd_table s r (set_present i false)) r).
      rewrite upd_wal, decide_True by done. unfold wal_of in E2. by destruct (sw_tables s !! r).
  - apply th_ok_mk; try done; rewrite ?Ec; try done.
    + apply not_critical. by rewrite Ec.
    + intros t [= <-]. by apply (tk_put_ref _ _ _ K).
  - intros j u Hj _. assert (X : ext j (st_pc u) s (upd_table s r (set_present i false))).
    { apply ext_upd; try done; [|by auto]. intros tb. cbn. by rewrite list_lookup_insert_ne. }
    destruct X. split; try done. by eexists.
  - apply quiet_now.
Qed.

Lemma step_allocate r w :
  st_put_ref th = Some r -> st_pc th = PutAllocate w ->
  winv n (set_thread (next_seq s) i (mk_sthread (Some r) (st_get_ref th) (PutInsert (mk_mt_entry w.1 (Z.of_nat (sw_seq s)) w.2)))).
Proof.
  intros Hr Ec. apply (winv_thread n s _ i th); try done.
  - destruct G as [G1 G2 G3 G4 G5 G6 G7 G8 G9 G10 G11 G12 G13 G14]. split; try done.
    + intros j f Hj. destruct (G7 j f Hj). by split.
    + intros t x Hx. cbn. specialize (G13 t x Hx). lia.
  - apply th_ok_mk; try done; rewrite ?Ec; try done.
    + apply not_critical. by rewrite Ec.
    + intros t [= <-]. by apply (tk_put_ref _ _ _ K).
    + intros t [= <-] _. apply (tk_counter _ _ _ K); [done|by rewrite Ec].
    + intros t f [= <-] _ Hf. apply (tk_drained _ _ _ K r f Hr); [by rewrite Ec|done].
    + cbn. split; [lia|]. intros t x Hx E. apply (gi_seq _ _ G) in Hx. lia.
  - intros j u Hj _. apply ext_same; try done; [cbn; lia|]. by exists []; rewrite app_nil_r.
  - apply quiet_now.
  - intros e He. right. intros j u y _ Hu Hy. injection He as <-. cbn. pose proof (tk_entry _ _ _ (wi_thread _ _ W j u Hu)) as E.
    rewrite Hy in E. destruct E as [E _]. lia.
Qed.

(** Out of room: on to [_flush]. *)
Lemma step_full r w :
  st_put_ref th = Some r -> holding (st_pc th) = true -> in_flush (st_pc th) = false -> th_ok s i (mk_sthread (Some r) (st_get_ref th) (FlushCas w)).
Proof.
  intros Hr Hh Hf. assert (Hc : critical (st_pc th) = false) by (by destruct (st_pc th)).
  assert (Ha : announced (st_pc th) = true) by (by destruct (st_pc th)).
  apply th_ok_mk; try done.
  - by apply not_critical.
  - by destruct (st_pc th).
  - intros t [= <-]. by apply (tk_put_ref _ _ _ K).
  - intros t [= <-] _. by apply (tk_counter _ _ _ K).
  - intros t f [= <-] _. by apply (tk_drained _ _ _ K).
Qed.

Lemma put_step_ok r ch s1 r' c' :
  st_put_ref th = Some r -> put_step s i r (st_pc th) ch = Some (s1, r', c') ->
  winv n (set_thread s1 i (mk_sthread (Some r') (st_get_ref th) c')).
Proof.
  intros Hr Hs. pose proof (tk_put_ref _ _ _ K r Hr) as Hle.
  destruct (st_pc th) as [|w|w|w|w|w|w|e|e|e|e|w| | | | | | | | | | | | | | | | | | ] eqn:Ec; try done; cbn [put_step] in Hs.
  - injection Hs as <- <- <-. apply winv_counter; rewrite ?Ec; done.
  - rewrite bind_Some in Hs. destruct Hs as (tb & Ht & Hs). injection Hs as <- <- <-. apply winv_pure; [|by destruct (tb_frozen tb)].
    destruct (tb_frozen tb) eqn:Ef; apply th_ok_mk; rewrite ?Ec; try done.
    + apply not_critical. by rewrite Ec.
    + by intros t [= <-].
    + apply not_critical. by rewrite Ec.
    + by intros t [= <-].
    + intros t [= <-] _. apply (tk_counter _ _ _ K); [done|by rewrite Ec].
    + intros t f [= <-] _ Hf. pose proof (hold_current r tb Ht Ef Hle). apply lookup_lt_Some in Hf. pose proof (gi_bounds _ _ G). lia.
  - injection Hs as <- <- <-. apply winv_counter; rewrite ?Ec; done.
  - injection Hs as <- <- <-. apply winv_pure; [|done]. apply th_ok_mk; rewrite ?Ec; try done.
    + apply not_critical. by rewrite Ec.
    + by intros t [= <-].
  - destruct (yes ch); injection Hs as <- <- <-; [by apply step_allocate|]. apply winv_pure; [apply step_full; by rewrite ?Ec|done].
  - destruct (yes ch); injection Hs as <- <- <-; [by apply step_insert|]. apply winv_pure; [apply step_full; by rewrite ?Ec|done].
  - injection Hs as <- <- <-. apply winv_pure; [|by destruct (yes ch)]. pose proof (tk_entry _ _ _ K) as E. rewrite Ec in E.
    apply th_ok_mk; rewrite ?Ec; try done; try (by destruct (yes ch)).
    + apply not_critical. by rewrite Ec.
    + by intros t [= <-].
    + intros t [= <-] _. apply (tk_counter _ _ _ K); [done|by rewrite Ec].
    + intros t f [= <-] _ Hf. apply (tk_drained _ _ _ K r f Hr); [by rewrite Ec|done].
    + destruct (yes ch); [|done]. intros t [= <-]. by apply E.
  - destruct (yes ch); injection Hs as <- <- <-; [by apply step_append|]. apply winv_counter; rewrite ?Ec; done.
  - injection Hs as <- <- <-. by apply step_ack.
  - injection Hs as <- <- <-. apply winv_counter; rewrite ?Ec; done.
Qed.
(** *** Flushes *)

Lemma map_insert_last k v l : (forall p, p ∈ l -> p.1 < k) -> map_insert k v l = l ++ [(k, v)].
Proof.
  induction l as [|p l IH]; intros Hl; [done|]. cbn [map_insert]. assert (p.1 < k) by (apply Hl; left).
  rewrite (proj2 (Nat.ltb_ge _ _)) by lia. rewrite (proj2 (Nat.eqb_neq _ _)) by lia. cbn. f_equal. apply IH. intros q Hq. apply Hl. by right.
Qed.

(** What a step of the holder of the flush mutex keeps for the others. *)
Lemma ext_calm j c s1 :
  critical c = false -> sw_flush_mutex s <> Some j -> sw_flush_mutex s1 <> Some j ->
  sw_table s <= sw_table s1 -> sw_switch_epoch s <= sw_switch_epoch s1 -> sw_flush_epoch s <= sw_flush_epoch s1 ->
  sw_pushed s1 = sw_pushed s -> sw_seq s1 = sw_seq s -> sw_acked s1 = sw_acked s ->
  (sw_tables s1 = sw_tables s \/ exists r, sw_tables s1 = alter freeze r (sw_tables s)) ->
  (forall t f, sw_flushes s1 !! t = Some f -> sw_flushes s !! t = Some f \/ fl_pc f = Draining 0) -> ext j c s s1.
Proof.
  intros Hc M M1 E1 E2 E3 E4 E5 E6 E7 E8.
  assert (Ht : forall t tb, sw_tables s !! t = Some tb -> sw_tables s1 !! t = Some tb \/ sw_tables s1 !! t = Some (freeze tb)).
  { intros t tb Hb. destruct E7 as [->|[r ->]]; [by left|]. destruct (decide (t = r)) as [->|].
    - right. by rewrite list_lookup_alter_eq, Hb.
    - left. by rewrite list_lookup_alter_ne. }
  assert (He : forall t, entries_of s1 t = entries_of s t).
  { intros t. unfold entries_of. destruct (sw_tables s !! t) as [tb|] eqn:Eb; [by destruct (Ht t tb Eb) as [->| ->]|].
    destruct E7 as [->|[r ->]]; [by rewrite Eb|]. destruct (decide (t = r)) as [->|].
    - by rewrite list_lookup_alter_eq, Eb.
    - by rewrite list_lookup_alter_ne, Eb. }
  split; rewrite ?E4, ?E5, ?E6; try done; try (by rewrite Hc).
  - by exists []; rewrite app_nil_r.
  - intros t tb Hb. destruct (Ht t tb Hb) as [Hb'|Hb']; eexists; (split; [exact Hb'|]); split_and!; auto.
  - intros t e x _. rewrite He. auto.
  - intros t f Hf Hd _. destruct (E8 t f Hf) as [Hf'|Hf']; [by eauto|]. rewrite Hf' in Hd. cbn in Hd. lia.
Qed.

Lemma others_calm j u : sw_flush_mutex s <> Some j -> sw_threads s !! j = Some u -> critical (st_pc u) = false.
Proof.
  intros Hne Hu. pose proof (tk_mutex _ _ _ (wi_thread _ _ W j u Hu)) as M. destruct (critical (st_pc u)) eqn:E; [|done].
  by destruct Hne; apply M.
Qed.

(** The point of a thread in a flush after its own step. *)
Lemma th_ok_flush s1 r c :
  st_put_ref th = Some r -> in_flush (st_pc th) = true -> in_flush c = true \/ (exists w, c = PutLeave w) ->
  sw_table s <= sw_table s1 -> sw_switch_epoch s <= sw_switch_epoch s1 ->
  (sw_tables s1 = sw_tables s \/ exists r, sw_tables s1 = alter freeze r (sw_tables s)) ->
  (forall t f, sw_flushes s1 !! t = Some f -> sw_flushes s !! t = Some f \/ fl_pc f = Draining 0) ->
  (critical c = true <-> sw_flush_mutex s1 = Some i) -> phase_ok s1 (Some r) c ->
  th_ok s1 i (mk_sthread (Some r) (st_get_ref th) c).
Proof.
  intros Hr Hf Hc E1 E2 E3 E4 Hm Hp. assert (Hh : holding (st_pc th) = true) by (by destruct (st_pc th)).
  assert (Ha : announced (st_pc th) = true) by (by destruct (st_pc th)).
  assert (Hng : in_get c = false) by (destruct Hc as [Hc|[w Hc]]; [by destruct c|by subst c]).
  split; cbn; try done.
  - intros t [= <-]. pose proof (tk_put_ref _ _ _ K r Hr). lia.
  - intros ep t Ht. destruct (refs_now ep t Ht) as (? & ? & ?); [by destruct (st_pc th)|]. split_and!; [lia|lia|done].
  - intros ep k E. subst c. destruct Hc as [Hc|[w Hc]]; done.
  - intros t [= <-] _. pose proof (tk_counter _ _ _ K r Hr Ha) as Hn. unfold counter in *. destruct E3 as [->|[q ->]]; [done|].
    destruct (decide (r = q)) as [->|]; [rewrite list_lookup_alter_eq|by rewrite list_lookup_alter_ne]. by destruct (sw_tables s !! q).
  - intros t f [= <-] _ Ht. destruct (E4 r f Ht) as [Ht'| ->]; [by apply (tk_drained _ _ _ K r f Hr)|]. cbn. lia.
  - destruct Hc as [Hc|[w Hc]]; [by destruct c|by subst c].
  - destruct Hc as [Hc|[w Hc]]; [by destruct c|by subst c].
  - by destruct c.
Qed.

(** A step of the flush that leaves the sequence numbers, the runs and the
    history alone. *)
Record flush_frame (s1 : sw) : Prop := {
  ff_threads : sw_threads s1 = sw_threads s;
  ff_table : sw_table s <= sw_table s1;
  ff_switch : sw_switch_epoch s <= sw_switch_epoch s1;
  ff_epoch : sw_flush_epoch s <= sw_flush_epoch s1;
  ff_pushed : sw_pushed s1 = sw_pushed s;
  ff_seq : sw_seq s1 = sw_seq s;
  ff_acked : sw_acked s1 = sw_acked s;
  ff_tables : sw_tables s1 = sw_tables s \/ exists r, sw_tables s1 = alter freeze r (sw_tables s);
  ff_flushes t f : sw_flushes s1 !! t = Some f -> sw_flushes s !! t = Some f \/ fl_pc f = Draining 0;
}.

Lemma winv_flush s1 r c :
  st_put_ref th = Some r -> in_flush (st_pc th) = true -> in_flush c = true \/ (exists w, c = PutLeave w) ->
  (sw_flush_mutex s = Some i \/ sw_flush_mutex s = None) -> flush_frame s1 -> ginv n s1 ->
  (if critical c then sw_flush_mutex s1 = Some i else sw_flush_mutex s1 = None /\ quiet s1) -> phase_ok s1 (Some r) c ->
  winv n (set_thread s1 i (mk_sthread (Some r) (st_get_ref th) c)).
Proof.
  intros Hr Hf Hc Hm [F1 F2 F3 F4 F5 F6 F7 F8 F9] G1 Hm1 Hp.
  assert (Hmi : critical c = true <-> sw_flush_mutex s1 = Some i).
  { destruct (critical c); [tauto|]. destruct Hm1 as [-> _]. by split. }
  assert (Hoth : forall j, j <> i -> sw_flush_mutex s <> Some j) by (intros j Hj; destruct Hm as [-> | ->]; congruence).
  assert (Hoth1 : forall j, j <> i -> sw_flush_mutex s1 <> Some j).
  { intros j Hj. destruct (critical c); [congruence|]. destruct Hm1 as [-> _]. done. }
  apply (winv_thread n s s1 i th); try done.
  - by apply th_ok_flush.
  - intros j u Hj Hu. apply ext_calm; auto. apply (others_calm j u); auto.
  - destruct (critical c); [congruence|]. intros _. apply Hm1.
  - intros j Hj E. by destruct (Hoth1 j Hj).
  - cbn. intros e ->. by destruct Hc as [Hc|[w Hc]].
Qed.

Ltac frame := split; cbn; auto; lia.

Lemma ginv_swap ep p :
  sw_pipelined s = Some p -> newest_epoch s ep -> frozen s (sw_table s) -> length (sw_flushes s) = sw_table s ->
  sw_pending (swap_table s ep p) = sw_pending s ++ [(ep, sw_table s)] /\ ginv n (swap_table s ep p).
Proof.
  intros Hp [He Hl] Hz Hlen. assert (Ei : map_insert ep (sw_table s) (sw_pending s) = sw_pending s ++ [(ep, sw_table s)]) by (by apply map_insert_last).
  split; [done|]. destruct G as [G1 G2 G3 G4 G5 G6 G7 G8 G9 G10 G11 G12 G13 G14]. pose proof (G4 p Hp) as ->. rewrite Hp in G3.
  split; try done; cbn [sw_table sw_tables sw_pipelined swap_table sw_pending sw_pushed sw_flushes sw_switch_epoch]; rewrite ?Ei.
  - lia.
  - intros t Ht. destruct (decide (t = sw_table s)) as [->|]; [done|]. apply G5. lia.
  - lia.
  - intros j f Hj. destruct (G7 j f Hj) as [A1 A2 A3 A4]. split; try done. intros Hn. cbn. rewrite Ei. apply elem_of_app. left. auto.
  - rewrite fmap_app, G10. cbn. replace (S (sw_table s) - length (sw_pushed s)) with (S (sw_table s - length (sw_pushed s))) by lia.
    rewrite seq_S. do 2 f_equal. lia.
  - rewrite fmap_app. destruct G11 as [G11 G11']. split.
    + apply StronglySorted_app_2; [|done|repeat constructor]. intros x y Hx Hy. apply list_elem_of_fmap in Hx as (q & -> & Hq).
      apply list_elem_of_singleton in Hy as ->. by apply Hl.
    + intros q Hq. apply elem_of_app in Hq as [Hq|Hq]; [by apply G11'|]. by apply list_elem_of_singleton in Hq as ->.
  - intros t e Ha. destruct (G14 t e Ha) as (? & ? & ?). split_and!; [lia|done|done].
Qed.

Lemma ginv_spawn ep t :
  length (sw_flushes s) = t -> sw_table s = S t -> (ep, t) ∈ sw_pending s -> ginv n (spawn_tasks s ep t).
Proof.
  intros Hl Ht Hp. assert (Hnew : forall j f, (sw_flushes s ++ [mk_flush ep t (Draining 0)]) !! j = Some f ->
    sw_flushes s !! j = Some f \/ (j = t /\ f = mk_flush ep t (Draining 0))).
  { intros j f Hj. apply lookup_app_Some in Hj as [Hj|[Hle Hj]]; [by left|right]. rewrite Hl in *.
    destruct (j - t) as [|d] eqn:Ed; cbn in Hj; [|done]. split; [lia|congruence]. }
  destruct G as [G1 G2 G3 G4 G5 G6 G7 G8 G9 G10 G11 G12 G13 G14]. split; try done.
  - cbn. rewrite length_app. cbn. lia.
  - intros j f Hj. apply Hnew in Hj as [Hj|[-> ->]]; [by destruct (G7 j f Hj)|]. split; cbn; try done. split; [done|lia].
  - destruct G9 as [[R1 R2]|(R1 & h & f & Hh & R2 & R3)]; [left|right]; (split; [done|]).
    + intros j f' Hj. apply Hnew in Hj as [Hj|[-> ->]]; [by eapply R2|done].
    + exists h, f. split_and!; [by apply lookup_app_l_Some|done|]. intros j f' Hj. apply Hnew in Hj as [Hj|[-> ->]]; [by eapply R3|done].
Qed.

Lemma flush_step_ok r s1 c' :
  st_put_ref th = Some r -> in_flush (st_pc th) = true -> flush_step s i r (st_pc th) = Some (s1, c') ->
  winv n (set_thread s1 i (mk_sthread (Some r) (st_get_ref th) c')).
Proof.
  intros Hr Hf Hs. pose proof (tk_phase _ _ _ K) as P. rewrite Hr in P. pose proof (tk_mutex _ _ _ K) as M.
  destruct (st_pc th) as [| | | | | | | | | | | |w|w|w|ep w|ep w|ep w|ep t w|ep t w|w| | | | | | | | | ] eqn:Ec; try done; cbn [flush_step phase_ok] in *.
  - injection Hs as Hs. destruct (sw_flush_mutex s) as [j|] eqn:Em; injection Hs as <- <-.
    + apply winv_pure; [|done]. apply th_ok_mk; rewrite ?Ec; try done.
      * apply not_critical. by rewrite Ec.
      * intros t [= <-]. by apply (tk_put_ref _ _ _ K).
      * intros t [= <-] _. apply (tk_counter _ _ _ K); [done|by rewrite Ec].
      * intros t f [= <-] _. apply (tk_drained _ _ _ K); [done|by rewrite Ec].
    + pose proof (quiet_now Em). apply winv_flush; rewrite ?Ec; [done|done|by left|by right|frame| |done|done].
      apply ginv_shared; [done|lia|apply G].
  - assert (Em : sw_flush_mutex s = Some i) by (by apply M). injection Hs as <- <-.
    apply winv_flush; rewrite ?Ec; [done|done|left; by destruct (_ =? _)|by left|frame|done|by destruct (_ =? _)|].
    destruct (Nat.eqb_spec (sw_table s) r) as [E|]; [|done]. split; [done|by f_equal].
  - assert (Em : sw_flush_mutex s = Some i) by (by apply M). destruct P as [Q P]. injection P as Pr. injection Hs as <- <-.
    pose proof (gi_epochs _ _ G) as [_ He].
    apply winv_flush; rewrite ?Ec; [done|done|by left|by left|split; cbn; eauto| |done|].
    + apply ginv_shared; [|cbn; lia|apply G]. apply ginv_upd; try done. intros e Hin. right. intros tb Hb. unfold wal_of in Hin. by rewrite Hb in Hin.
    + split_and!; [done|split; [cbn; lia|exact He]|by f_equal|]. destruct (ref_table r Hr) as [tb Hb]. subst r.
      exists (freeze tb). split; [|done]. cbn. by rewrite list_lookup_alter_eq, Hb.
  - assert (Em : sw_flush_mutex s = Some i) by (by apply M). destruct (0 <? sw_slots s); [|done]. injection Hs as <- <-.
    apply winv_flush; rewrite ?Ec; [done|done|by left|by left|frame| |done|done]. apply ginv_shared; [done|lia|apply G].
  - assert (Em : sw_flush_mutex s = Some i) by (by apply M). destruct (sw_pipelined s) as [p|] eqn:Ep; [|done]. injection Hs as <- <-.
    apply winv_flush; rewrite ?Ec; [done|done|by left|by left|frame|done|done|done].
  - assert (Em : sw_flush_mutex s = Some i) by (by apply M). destruct (sw_pipelined s) as [p|] eqn:Ep; [|done]. injection Hs as <- <-.
    destruct P as (Q & Hn & Pr & Hz). unfold quiet, numbers, supply in Q. rewrite Ep in Q. injection Q as Q1 Q2 Q3.
    pose proof (gi_pipelined _ _ G p Ep) as ->. destruct (ginv_swap ep _ Ep Hn Hz Q2) as [Epd Gs].
    apply winv_flush; rewrite ?Ec; [done|done|by left|by left|frame|done|done|]. split_and!; [done| |].
    + rewrite Epd. apply elem_of_app. right. by left.
    + unfold numbers, supply. cbn. rewrite Q1, Q2. repeat f_equal. lia.
  - assert (Em : sw_flush_mutex s = Some i) by (by apply M). injection Hs as <- <-. destruct P as (Pt & Pp & Pn). unfold numbers in Pn. injection Pn as N1 N2 N3.
    apply winv_flush; rewrite ?Ec; [done|done|by left|by left|frame| |done|].
    + apply ginv_shared; [done|lia|lia].
    + split_and!; [done|done|]. unfold numbers, supply in *. cbn. by rewrite N1, N2, N3, Pt.
  - assert (Em : sw_flush_mutex s = Some i) by (by apply M). injection Hs as <- <-. destruct P as (Pt & Pp & Pn). unfold numbers in Pn. injection Pn as N1 N2 N3.
    apply winv_flush; rewrite ?Ec; [done|done|by left|by left| |by apply ginv_spawn|done|].
    + split; cbn; auto. intros j f Hj. apply lookup_app_Some in Hj as [Hj|[_ Hj]]; [by left|right].
      apply list_elem_of_lookup_2, list_elem_of_singleton in Hj. by subst f.
    + unfold phase_ok, quiet, numbers, supply in *. cbn. rewrite length_app, N1, N2, Pt. cbn. repeat f_equal; lia.
  - assert (Em : sw_flush_mutex s = Some i) by (by apply M). injection Hs as <- <-.
    apply winv_flush; rewrite ?Ec; [done|done|by right; eexists|by left|frame| |done|done]. apply ginv_shared; [done|lia|apply G].
Qed.

(** *** All the steps of a thread *)

Lemma thread_step_ok ch s1 th' : thread_step s i th ch = Some (s1, th') -> winv n (set_thread s1 i th').
Proof.
  intros Hs. unfold thread_step in Hs. pose proof (tk_put_ref _ _ _ K) as Hp.
  assert (Hg : forall ep t, st_get_ref th = Some (ep, t) -> reloading (st_pc th) = false ->
    ep <= sw_switch_epoch s /\ t <= sw_table s /\ (reloading SIdle = false -> ep <= t)).
  { intros ep t Ht Hrl. destruct (refs_now ep t Ht Hrl) as (? & ? & ?). auto. }
  destruct (in_get (st_pc th)) eqn:Eg.
  { assert (Hs' : (ref ← st_get_ref th; '(ref', c') ← get_step s ref (st_pc th); Some (s, mk_sthread (st_put_ref th) (Some ref') c')) = Some (s1, th'))
      by (by destruct (st_pc th)). clear Hs.
    rewrite bind_Some in Hs'. destruct Hs' as (ref & Hr & Hs). rewrite bind_Some in Hs. destruct Hs as ([ref' c'] & Hs & E). injection E as <- <-.
    apply winv_pure; [by eapply get_step_ok|]. cbn. intros e ->. unfold get_step in Hs. destruct (st_pc th) as [| | | | | | | | | | | | | | | | | | | | | | | | | | |k [|t0 l] seen| | ]; try done;
      injection Hs as Hs; repeat case_match; congruence. }
  destruct (in_flush (st_pc th)) eqn:Ef.
  { assert (Hs' : (r ← st_put_ref th; '(s', c') ← flush_step s i r (st_pc th); Some (s', mk_sthread (Some r) (st_get_ref th) c')) = Some (s1, th'))
      by (by destruct (st_pc th)). clear Hs.
    rewrite bind_Some in Hs'. destruct Hs' as (r & Hr & Hs). rewrite bind_Some in Hs. destruct Hs as ([s' c'] & Hs & E). injection E as <- <-.
    by eapply flush_step_ok. }
  assert (Hput : (r ← st_put_ref th; '(s', r', c') ← put_step s i r (st_pc th) ch; Some (s', mk_sthread (Some r') (st_get_ref th) c')) = Some (s1, th') ->
    winv n (set_thread s1 i th')).
  { clear Hs. intros Hs. rewrite bind_Some in Hs. destruct Hs as (r & Hr & Hs). rewrite bind_Some in Hs. destruct Hs as ([[s' r'] c'] & Hs & E). injection E as <- <-.
    by eapply put_step_ok. }
  destruct (st_pc th) eqn:Ec; try done; try (by apply Hput).
  - destruct ch as [w|k| |]; try done; injection Hs as <- <-; apply winv_pure;
      try solve [by destruct (st_put_ref th)|by destruct (st_get_ref th)].
    + apply th_ok_mk; rewrite ?Ec; try by destruct (st_put_ref th). apply not_critical. by rewrite Ec.
    + destruct (st_get_ref th) as [[ep t]|] eqn:Er; apply th_ok_read; rewrite ?Ec; try done. intros ep' t' [= <- <-]. by apply Hg.
  - injection Hs as <- <-. apply winv_pure; [|done]. apply th_ok_mk; rewrite ?Ec; try done; [apply not_critical; by rewrite Ec|]. by intros t [= <-].
  - injection Hs as <- <-. apply winv_pure; [|done]. apply th_ok_read; rewrite ?Ec; try done.
    + intros ep t Ht. by apply Hg.
    + by intros ep k' [= <- _].
  - injection Hs as <- <-. pose proof (gi_bounds _ _ G). pose proof (tk_init _ _ _ K ep k Ec). apply winv_pure; [|done]. apply th_ok_read; rewrite ?Ec; try done.
    intros ep' t' [= <- <-]. split_and!; [done|done|]. intros. lia.
Qed.

End steps.
