(* ===== verification/SwitchCorrect.v ===== *)
(** * The switch of tables: the tasks, and what holds of every schedule

    The steps of [_flush_inner], of the task that makes the next table and
    of compactions keep the invariant of SwitchInv, which then holds of every
    reachable state. *)

From stdpp Require Import base list numbers option sorting sets.
From Stdlib Require Import ZArith Lia.
From S2P Require Import Prelude StdAlgo Types Utils Merge Sst SstManager Lsm Wal Memtable ConcurrentMemtable MemtableSwitch SwitchInv.

Local Open Scope nat_scope.

(** ** The tasks: flushes, the next table, compactions *)

Lemma ext_task i c s s1 :
  sw_table s1 = sw_table s -> sw_switch_epoch s1 = sw_switch_epoch s -> sw_seq s1 = sw_seq s -> sw_acked s1 = sw_acked s ->
  sw_flush_mutex s1 = sw_flush_mutex s -> sw_flush_epoch s <= sw_flush_epoch s1 -> numbers s1 = numbers s ->
  length (sw_pushed s) <= length (sw_pushed s1) -> (forall t, entries_of s1 t = entries_of s t) ->
  (forall t tb, sw_tables s !! t = Some tb -> exists tb', sw_tables s1 !! t = Some tb' /\ tb_counters tb' = tb_counters tb /\
     tb_frozen tb' = tb_frozen tb /\ tb_entries tb' = tb_entries tb /\
     (tb_wal tb' = tb_wal tb \/ exists f, sw_flushes s !! t = Some f /\ forall i, drained (fl_pc f) i)) ->
  (forall t f', sw_flushes s1 !! t = Some f' -> drained (fl_pc f') i -> counter s t i = Some true ->
     exists f, sw_flushes s !! t = Some f /\ drained (fl_pc f) i) ->
  (forall p, p ∈ sw_pending s1 -> p ∈ sw_pending s) ->
  (forall p, p ∈ sw_pending s -> length (sw_flushes s) <= p.2 -> p ∈ sw_pending s1) -> ext i c s s1.
Proof.
  intros E1 E2 E3 E4 E5 E6 E7 E8 E9 E10 E11 E12 E13. split; rewrite ?E1, ?E2, ?E3, ?E4, ?E5; auto.
  - by exists []; rewrite app_nil_r.
  - intros t tb Ht. destruct (E10 t tb Ht) as (tb' & Ht' & Hc & Hz & He & Hw). exists tb'. rewrite Hc, Hz, He. split_and!; auto.
    destruct Hw as [->|(f & Hf & Hd)]; [auto|]. intros e _. right. eauto.
  - intros t e x _. rewrite E9. auto.
Qed.

Lemma set_flush_lookup s j f c t f' :
  sw_flushes s !! j = Some f -> sw_flushes (set_flush s j c) !! t = Some f' ->
  (t = j /\ f' = mk_flush (fl_epoch f) (fl_table f) c) \/ (t <> j /\ sw_flushes s !! t = Some f').
Proof.
  intros Hj Ht. cbn in Ht. destruct (decide (t = j)) as [->|Hne].
  - rewrite list_lookup_alter_eq, Hj in Ht. injection Ht as <-. auto.
  - rewrite list_lookup_alter_ne in Ht by done. auto.
Qed.

Lemma set_flush_lookup_eq s j f c : sw_flushes s !! j = Some f ->
  sw_flushes (set_flush s j c) !! j = Some (mk_flush (fl_epoch f) (fl_table f) c).
Proof. intros Hj. cbn. by rewrite list_lookup_alter_eq, Hj. Qed.

Lemma ginv_set_flush n s j f c sl rel :
  ginv n s -> sw_flushes s !! j = Some f -> in_lsm c = in_lsm (fl_pc f) -> (forall r, held_run c = Some r -> r = entries_of s j) ->
  let s1 := set_flush (set_released (set_slots s sl) rel) j c in turn_ok s1 -> ginv n s1.
Proof.
  intros G Hj Hl Hr s1 Ht. destruct G as [G1 G2 G3 G4 G5 G6 G7 G8 G9 G10 G11 G12 G13 G14]. split; try done.
  - cbn. by rewrite length_alter.
  - intros t f' Hf. apply (set_flush_lookup s j f c t f' Hj) in Hf as [[-> ->]|[Hne Hf]]; [|by destruct (G7 t f' Hf)].
    destruct (G7 j f Hj) as [F1 F2 F3 F4]. split; cbn; rewrite ?Hl; auto.
Qed.

Lemma turn_keep s j f c sl :
  sw_flushes s !! j = Some f -> has_turn (fl_pc f) = false -> has_turn c = false -> turn_ok s ->
  turn_ok (set_flush (set_released (set_slots s sl) (sw_released s)) j c).
Proof.
  intros Hj H1 H2 [[R1 R2]|(R1 & h & g & Hh & R2 & R3)]; [left|right]; (split; [done|]).
  - intros t f' Hf. apply (set_flush_lookup s j f c t f' Hj) in Hf as [[-> ->]|[Hne Hf]]; [done|by eapply R2].
  - exists h, g. assert (Hne : h <> j).
    { intros ->. rewrite Hj in Hh. injection Hh as <-. destruct (fl_pc f); done. }
    split_and!; [cbn; by rewrite list_lookup_alter_ne|done|].
    intros t f' Hf. apply (set_flush_lookup s j f c t f' Hj) in Hf as [[-> ->]|[Hne' Hf]]; [cbn; congruence|by eapply R3].
Qed.

(** *** The turns *)

Lemma turn_take s j f run :
  sw_flushes s !! j = Some f -> fl_pc f = AwaitTurn run -> j ∈ sw_released s -> turn_ok s ->
  turn_ok (set_flush (set_released (set_slots s (sw_slots s)) (filter (fun x => x <> j) (sw_released s))) j (Pushing run)).
Proof.
  intros Hj Hc Hin [[R1 R2]|(R1 & _)]; [|rewrite R1 in Hin; by apply elem_of_nil in Hin].
  rewrite R1 in Hin |- *. apply list_elem_of_singleton in Hin. right. split.
  - change (filter (fun x => x <> j) [length (sw_pushed s)] = []). rewrite filter_cons_False by (intros H; by apply H). done.
  - exists j, (mk_flush (fl_epoch f) (fl_table f) (Pushing run)). split_and!; [by apply set_flush_lookup_eq|done|].
    intros t f' Hf Ht. apply (set_flush_lookup s j f _ t f' Hj) in Hf as [[-> ->]|[_ Hf]]; [done|]. apply R2 in Hf. congruence.
Qed.

(** The flush that has the turn. *)
Lemma turn_owner s j f : turn_ok s -> sw_flushes s !! j = Some f -> has_turn (fl_pc f) = true ->
  sw_released s = [] /\ match fl_pc f with Pushing _ => j = length (sw_pushed s) | _ => S j = length (sw_pushed s) end /\
  forall t f', sw_flushes s !! t = Some f' -> has_turn (fl_pc f') = true -> t = j.
Proof.
  intros [[_ R]|(R1 & h & g & Hh & R2 & R3)] Hj Ht; [apply R in Hj; congruence|]. split; [done|].
  assert (j = h) as -> by (by eapply R3). rewrite Hh in Hj. injection Hj as <-. split; [|done]. by destruct (fl_pc g).
Qed.

Lemma turn_give s j f :
  sw_flushes s !! j = Some f -> fl_pc f = GivingTurn -> turn_ok s ->
  turn_ok (set_flush (set_released (set_slots s (sw_slots s)) (S j :: sw_released s)) j FreeingSlot).
Proof.
  intros Hj Hc Ht. destruct (turn_owner s j f Ht Hj) as (R1 & R2 & R3); [by rewrite Hc|]. rewrite Hc in R2. left. split.
  - cbn. by rewrite R1, <- R2.
  - intros t f' Hf. apply (set_flush_lookup s j f _ t f' Hj) in Hf as [[-> ->]|[Hne Hf]]; [done|].
    destruct (has_turn (fl_pc f')) eqn:E; [|done]. destruct Hne. by eapply R3.
Qed.

(** *** The push of a run *)

Section push.
Context (n : nat) (s : sw) (j : nat) (f : flush) (run : list memtable_entry).
Context (G : ginv n s) (Hj : sw_flushes s !! j = Some f) (Hc : fl_pc f = Pushing run).

Lemma push_turn : sw_released s = [] /\ j = length (sw_pushed s) /\
  forall t f', sw_flushes s !! t = Some f' -> has_turn (fl_pc f') = true -> t = j.
Proof. pose proof (turn_owner s j f (gi_turn _ _ G) Hj) as T. rewrite Hc in T. by apply T. Qed.

(** The erased flush is the oldest of the pending ones. *)
Lemma push_pending : exists rest, sw_pending s = (fl_epoch f, j) :: rest /\
  filter (fun p => p.1 <> fl_epoch f) (sw_pending s) = rest.
Proof.
  destruct push_turn as (_ & E & _). pose proof (lookup_lt_Some _ _ _ Hj) as Hlt. pose proof (gi_bounds _ _ G) as B. pose proof (gi_pending _ _ G) as P.
  assert (Hin : (fl_epoch f, j) ∈ sw_pending s) by (apply (fk_epoch _ _ _ (gi_flush _ _ G j f Hj)); by rewrite Hc).
  rewrite <- E in P. destruct (sw_table s - j) as [|d] eqn:Ed; [lia|]. cbn [seq] in P.
  destruct (sw_pending s) as [|[e q] rest] eqn:Ep; [done|]. rewrite fmap_cons in P. injection P as -> P.
  assert (E' : (e, j) = (fl_epoch f, j)).
  { apply elem_of_cons in Hin as [Hin|Hin]; [done|]. exfalso. apply (list_elem_of_fmap_2' snd _ _ j) in Hin; [|done].
    rewrite P, elem_of_seq in Hin. lia. }
  injection E' as ->. exists rest. split; [done|]. rewrite filter_cons_False by (intros H; by apply H).
  pose proof (gi_epochs _ _ G) as [Hs _]. rewrite Ep in Hs. cbn in Hs. apply StronglySorted_inv in Hs as [_ Hs]. rewrite Forall_fmap in Hs.
  apply filter_all. eapply Forall_impl; [exact Hs|]. cbn. intros p Hp. lia.
Qed.

Lemma push_ginv : ginv n (set_flush (push_run s (fl_epoch f) run) j GivingTurn).
Proof.
  destruct push_turn as (R & Ej & Hu). destruct push_pending as (rest & Ep & Ef). pose proof (lookup_lt_Some _ _ _ Hj) as Hlt.
  pose proof (gi_flush _ _ G j f Hj) as [F1 F2 F3 F4].
  set (s1 := set_flush (push_run s (fl_epoch f) run) j GivingTurn).
  assert (Epd : sw_pending s1 = rest) by done. assert (El : length (sw_pushed s1) = S j) by (cbn; rewrite length_app; cbn; lia).
  destruct G as [G1 G2 G3 G4 G5 G6 G7 G8 G9 G10 G11 G12 G13 G14]. split; try done; rewrite ?El, ?Epd.
  - cbn. rewrite length_alter. lia.
  - intros t f' Hf. apply (set_flush_lookup s j f GivingTurn t f' Hj) in Hf as [[-> ->]|[Hne Hf]].
    + split; rewrite ?El; cbn; try done. split; [lia|done].
    + destruct (G7 t f' Hf) as [A1 A2 A3 A4]. split; try done.
      * intros Hl. rewrite Epd. specialize (A2 Hl). rewrite Ep in A2. apply elem_of_cons in A2 as [E|A2]; [congruence|done].
      * rewrite El, A3. lia.
  - intros t ep r Ht. cbn in Ht. apply lookup_app_Some in Ht as [Ht|[Hle Ht]]; [by eapply G8|].
    destruct (t - length (sw_pushed s)) eqn:Ed; [|done]. injection Ht as <- <-. replace t with j by lia. apply F4. by rewrite Hc.
  - right. split; [done|]. exists j, (mk_flush (fl_epoch f) (fl_table f) GivingTurn). rewrite El. split_and!; [by apply set_flush_lookup_eq|done|].
    intros t f' Hf Ht. apply (set_flush_lookup s j f _ t f' Hj) in Hf as [[-> ->]|[_ Hf]]; [done|by eapply Hu].
  - rewrite Ep, <- Ej, fmap_cons in G10. replace (sw_table s - j) with (S (sw_table s - S j)) in G10 by lia. by injection G10.
  - rewrite Ep in G11. destruct G11 as [G11 G11']. split; [by apply StronglySorted_inv in G11 as [G11 _]|]. intros p Hp. apply G11'. by right.
  - intros t e Ha. destruct (G14 t e Ha) as (? & ? & A3). split_and!; [done|done|]. destruct A3; [left; lia|by right].
Qed.

Lemma push_ext i c : ext i c s (set_flush (push_run s (fl_epoch f) run) j GivingTurn).
Proof.
  destruct push_turn as (_ & Ej & _). destruct push_pending as (rest & Ep & Ef). pose proof (lookup_lt_Some _ _ _ Hj) as Hlt. apply ext_task; try done.
  - unfold numbers. cbn. by rewrite length_alter.
  - cbn. rewrite length_app. lia.
  - intros t tb Ht. exists tb. split_and!; auto.
  - intros t f' Hf Hd _. apply (set_flush_lookup s j f _ t f' Hj) in Hf as [[-> ->]|[_ Hf]]; [|by eauto]. exists f. split; [done|]. by rewrite Hc.
  - intros p Hp. cbn [sw_pending set_flush push_run] in Hp. rewrite Ef in Hp. rewrite Ep. by right.
  - intros p Hp Hle. cbn [sw_pending set_flush push_run]. rewrite Ef. rewrite Ep in Hp. apply elem_of_cons in Hp as [->|Hp]; [cbn in Hle; lia|done].
Qed.
End push.

(** *** The steps of the tasks *)

Section tasks.
Context (n : nat) (s : sw) (W : winv n s).

Let G : ginv n s := wi_global n s W.

(** A step of a flush that changes its point, the slots and the semaphores. *)
Lemma flush_moves j f c sl rel :
  sw_flushes s !! j = Some f -> in_lsm c = in_lsm (fl_pc f) -> (forall r, held_run c = Some r -> r = entries_of s j) ->
  (forall i, drained c i -> counter s j i = Some true -> drained (fl_pc f) i) ->
  let s1 := set_flush (set_released (set_slots s sl) rel) j c in turn_ok s1 -> winv n s1.
Proof.
  intros Hj Hl Hr Hd s1 Ht. assert (En : numbers s1 = numbers s) by (unfold numbers; cbn; by rewrite length_alter).
  apply (winv_task n s); try done; [by eapply ginv_set_flush|]. intros i u Hu. apply ext_task; try done.
  - intros t tb Hb. exists tb. split_and!; auto.
  - intros t f' Hf Hd' Hcnt. apply (set_flush_lookup s j f c t f' Hj) in Hf as [[-> ->]|[_ Hf]]; [|by eauto]. exists f. split; [done|]. by apply Hd.
Qed.

Lemma flush_waits j f c sl :
  sw_flushes s !! j = Some f -> in_lsm c = in_lsm (fl_pc f) -> (forall r, held_run c = Some r -> r = entries_of s j) ->
  (forall i, drained c i -> counter s j i = Some true -> drained (fl_pc f) i) -> has_turn (fl_pc f) = false -> has_turn c = false ->
  winv n (set_flush (set_slots s sl) j c).
Proof.
  intros Hj Hl Hr Hd H1 H2. apply (flush_moves j f c sl (sw_released s)); try done. apply (turn_keep s j f); try done. apply G.
Qed.

(** A counter seen at zero, or the last one seen. *)
Lemma drain_step j f k : sw_flushes s !! j = Some f -> fl_pc f = Draining k -> forall tb, sw_tables s !! j = Some tb ->
  winv n (set_flush s j match tb_counters tb !! k with None => Exporting | Some true => Draining 0 | Some false => Draining (S k) end).
Proof.
  intros Hj Hc tb Hb.
  destruct (tb_counters tb !! k) as [[|]|] eqn:Ek; apply (flush_waits j f _ (sw_slots s)); rewrite ?Hc; try done; intros i Hd Hcnt; cbn in *;
    unfold counter in Hcnt; rewrite Hb in Hcnt; cbn in Hcnt; [lia| |].
  - destruct (decide (i = k)) as [->|]; [congruence|lia].
  - apply lookup_lt_Some in Hcnt. apply lookup_ge_None in Ek. lia.
Qed.

Lemma reset_step j f : sw_flushes s !! j = Some f -> fl_pc f = Resetting -> winv n (set_flush (upd_table s j reset_log) j Flushed).
Proof.
  intros Hj Hc. destruct (gi_flush _ _ G j f Hj) as [_ _ F3 _]. rewrite Hc in F3. assert (Hp : j < length (sw_pushed s)) by (by apply F3).
  assert (Gu : ginv n (upd_table s j reset_log)) by (apply ginv_upd; try done; intros e _; by left).
  assert (Eu : forall t, entries_of (upd_table s j reset_log) t = entries_of s t) by (intros; by apply upd_entries_same).
  assert (En : numbers (set_flush (upd_table s j reset_log) j Flushed) = numbers s) by (unfold numbers; cbn; by rewrite length_alter).
  apply (winv_task n s); try done.
  - apply (ginv_set_flush n _ j f Flushed (sw_slots s) (sw_released s) Gu Hj); [by rewrite Hc|done|].
    apply (turn_keep (upd_table s j reset_log) j f Flushed (sw_slots s)); [done|by rewrite Hc|done|apply Gu].
  - intros i u Hu. apply ext_task; try done.
    + intros t tb Hb. eexists. split; [by apply (upd_lookup_some s j reset_log)|]. destruct (decide (t = j)) as [->|]; split_and!; auto.
      right. exists f. split; [done|]. by rewrite Hc.
    + intros t f' Hf Hd' Hcnt. apply (set_flush_lookup (upd_table s j reset_log) j f Flushed t f' Hj) in Hf as [[-> ->]|[_ Hf]]; [|by eauto].
      exists f. split; [done|]. by rewrite Hc.
Qed.

Lemma inner_step_ok j f ok s1 c : sw_flushes s !! j = Some f -> inner_step s j f ok = Some (s1, c) -> winv n (set_flush s1 j c).
Proof.
  intros Hj Hs. unfold inner_step in Hs. pose proof (gi_flush _ _ G j f Hj) as [F1 F2 F3 F4]. rewrite ?F1 in Hs.
  destruct (fl_pc f) as [k| |run|run| | | | | ] eqn:Ec; try done.
  - rewrite bind_Some in Hs. destruct Hs as (tb & Hb & Hs). injection Hs as <- <-. by apply (drain_step j f k).
  - injection Hs as Hs. destruct ok; injection Hs as <- <-.
    + apply (flush_waits j f _ (sw_slots s)); rewrite ?Ec; try done. by intros r [= <-].
    + apply (flush_waits j f); rewrite ?Ec; done.
  - destruct (bool_decide_reflect (j ∈ sw_released s)) as [Hin|]; [|done]. injection Hs as <- <-.
    apply (flush_moves j f (Pushing run) (sw_slots s) (filter (fun x => x <> j) (sw_released s))); rewrite ?Ec; try done.
    apply (turn_take s j f); try done. apply G.
  - injection Hs as <- <-. apply (winv_task n s); try done.
    + by apply push_ginv.
    + intros i u _. by eapply push_ext.
    + unfold numbers. cbn. by rewrite length_alter.
  - injection Hs as <- <-. apply (flush_moves j f FreeingSlot (sw_slots s) (S j :: sw_released s)); rewrite ?Ec; try done.
    apply (turn_give s j f); try done. apply G.
  - injection Hs as <- <-. apply (flush_waits j f); rewrite ?Ec; done.
  - injection Hs as <- <-. by apply (reset_step j f).
Qed.

(** There is one table to come, or none. *)
Lemma supply_le : supply s <= 1.
Proof.
  pose proof (wi_mutex _ _ W) as M. destruct (sw_flush_mutex s) as [i|]; [|unfold quiet, numbers in M; injection M; lia].
  destruct M as (u & Hu & Hc). pose proof (tk_phase _ _ _ (wi_thread _ _ W i u Hu)) as P.
  unfold phase_ok, quiet, numbers in P. destruct (st_pc u); try done.
  all: repeat match goal with H : _ /\ _ |- _ => destruct H end.
  all: match goal with H : (_, _, _, _) = (_, _, _, _) |- _ => injection H; lia end.
Qed.

Lemma make_entries t : entries_of (make_table s) t = entries_of s t.
Proof.
  unfold entries_of. cbn. destruct (decide (t < length (sw_tables s))) as [Hlt|Hge]; [by rewrite lookup_app_l|].
  rewrite lookup_app_r by lia. rewrite (lookup_ge_None_2 (sw_tables s)) by lia. by destruct (t - _) as [|[|d]].
Qed.

Lemma make_step : 0 < sw_making s -> winv n (make_table s).
Proof.
  intros Hm. pose proof supply_le as Hs. unfold supply in Hs. destruct (sw_pipelined s) as [q|] eqn:Eq; [lia|].
  assert (Hlook : forall t tb, sw_tables s !! t = Some tb -> sw_tables (make_table s) !! t = Some tb) by (intros; by apply lookup_app_l_Some).
  apply (winv_task n s); try done.
  - destruct G as [G1 G2 G3 G4 G5 G6 G7 G8 G9 G10 G11 G12 G13 G14]. rewrite Eq in G3. split; try done.
    + intros t tb Ht. cbn in Ht. apply lookup_app_Some in Ht as [Ht|[_ Ht]]; [by eapply G2|]. apply list_elem_of_lookup_2, list_elem_of_singleton in Ht as ->.
      cbn. by rewrite length_replicate.
    + cbn. rewrite length_app. cbn. lia.
    + cbn. intros p [= <-]. lia.
    + intros t Ht. destruct (G5 t Ht) as (tb & Hb & Hz). exists tb. auto.
    + intros j f Hj. destruct (G7 j f Hj) as [F1 F2 F3 F4]. split; try done. intros r. rewrite make_entries. auto.
    + intros j ep r. rewrite make_entries. apply G8.
    + intros t. rewrite make_entries. auto.
    + intros t e. rewrite make_entries. apply G13.
    + intros t e Ha. destruct (G14 t e Ha) as (A1 & A2 & A3). rewrite make_entries. split_and!; try done. destruct A3 as [|A3]; [by left|right].
      unfold wal_of in *. destruct (sw_tables s !! t) as [tb|] eqn:Et; [|by apply elem_of_nil in A3]. by rewrite (Hlook t tb Et).
  - intros i u Hu. apply ext_task; try done.
    + unfold numbers, supply. rewrite Eq. cbn. f_equal. lia.
    + apply make_entries.
    + intros t tb Hb. exists tb. split_and!; auto.
    + intros t f Hf Hd _. eauto.
  - unfold numbers, supply. rewrite Eq. cbn. f_equal. lia.
Qed.

Lemma compaction_step : winv n (next_epoch s).
Proof.
  apply (winv_task n s); try done.
  - apply ginv_shared; [done|lia|apply G].
  - intros i u Hu. apply ext_same; try done; [by exists []; rewrite app_nil_r|cbn; lia].
Qed.
End tasks.

(** ** Reachable states *)

Lemma put_step_seq s i r c ch s' r' c' : put_step s i r c ch = Some (s', r', c') -> sw_seq s <= sw_seq s'.
Proof.
  destruct c; intros Hs; try done; cbn [put_step] in Hs; try (rewrite bind_Some in Hs; destruct Hs as (? & ? & Hs));
    repeat (case_match; try done); simplify_eq; cbn; lia.
Qed.

Lemma flush_step_seq s i r c s' c' : flush_step s i r c = Some (s', c') -> sw_seq s' = sw_seq s.
Proof.
  destruct c; intros Hs; try done; cbn [flush_step] in Hs; try (rewrite bind_Some in Hs; destruct Hs as (? & ? & Hs));
    repeat (case_match; try done); by simplify_eq.
Qed.

Lemma thread_step_seq s i th ch s' th' : thread_step s i th ch = Some (s', th') -> sw_seq s <= sw_seq s'.
Proof.
  unfold thread_step. intros Hs.
  assert (Hc : s' = s \/ (exists r c c', flush_step s i r c = Some (s', c')) \/ exists r c r' c', put_step s i r c ch = Some (s', r', c')).
  { destruct (st_pc th); cbn [in_get in_flush] in Hs; repeat (case_match; try done); simplify_eq; auto;
      rewrite bind_Some in Hs; destruct Hs as (? & _ & Hs); rewrite bind_Some in Hs; destruct Hs as (q & Hq & Hs);
      repeat destruct q as [q ?]; simplify_eq; eauto 10. }
  destruct Hc as [->|[(r & c & c' & Hf)|(r & c & r' & c' & Hp)]]; [done|apply flush_step_seq in Hf; lia|by apply put_step_seq in Hp].
Qed.

Lemma sw_step_seq s a s' : sw_step s a = Some s' -> sw_seq s <= sw_seq s'.
Proof.
  destruct a as [i ch|j ok| |]; cbn [sw_step]; intros Hs.
  - rewrite bind_Some in Hs. destruct Hs as (th & Hi & Hs). rewrite bind_Some in Hs. destruct Hs as ([s1 th'] & Hs & E). injection E as <-.
    apply thread_step_seq in Hs. done.
  - rewrite bind_Some in Hs. destruct Hs as (f & Hj & Hs). rewrite bind_Some in Hs. destruct Hs as ([s1 c] & Hs & E). injection E as <-.
    unfold inner_step in Hs. repeat (case_match || rewrite bind_Some in Hs || destruct Hs as (? & ? & Hs)); simplify_eq; cbn; lia.
  - destruct (0 <? sw_making s); by simplify_eq.
  - by simplify_eq.
Qed.

Lemma winv_step n s a s' : winv n s -> small s -> sw_step s a = Some s' -> winv n s'.
Proof.
  intros W Hsm Hs. destruct a as [i ch|j ok| |]; cbn [sw_step] in Hs.
  - rewrite bind_Some in Hs. destruct Hs as (th & Hi & Hs). rewrite bind_Some in Hs. destruct Hs as ([s1 th'] & Hs & E). injection E as <-.
    by eapply thread_step_ok.
  - rewrite bind_Some in Hs. destruct Hs as (f & Hj & Hs). rewrite bind_Some in Hs. destruct Hs as ([s1 c] & Hs & E). injection E as <-.
    by eapply inner_step_ok.
  - destruct (Nat.ltb_spec 0 (sw_making s)); [|done]. injection Hs as <-. by apply make_step.
  - injection Hs as <-. by apply compaction_step.
Qed.

Lemma winv_init threads slots epoch seq : winv threads (make_switch threads slots epoch seq).
Proof.
  assert (Ee : forall t, entries_of (make_switch threads slots epoch seq) t = []) by (by intros [|[|t]]).
  split.
  - split; cbn; try done; try lia.
    + by rewrite length_replicate.
    + intros [|[|t]] tb Ht; cbn in Ht; try done; injection Ht as <-; cbn; by rewrite length_replicate.
    + by intros p [= <-].
    + by left.
    + split; [constructor|]. intros p Hp. by apply elem_of_nil in Hp.
    + intros t. rewrite Ee. constructor.
    + intros t e. rewrite Ee. intros He. by apply elem_of_nil in He.
    + intros t e He. by apply elem_of_nil in He.
  - done.
  - intros i th Hi. apply lookup_replicate in Hi as [-> Hi]. split; cbn; try done. 
  - intros i j a b x y Hi _ _ Ha. apply lookup_replicate in Hi as [-> Hi]. done.
Qed.

Lemma winv_reachable threads slots epoch seq s : sw_reachable threads slots epoch seq s -> small s -> winv threads s.
Proof.
  induction 1 as [|s a s' Hr IH Hs]; [intros _; apply winv_init|]. intros Hsm. pose proof (sw_step_seq s a s' Hs).
  assert (small s) by (unfold small in *; lia). by eapply winv_step; auto.
Qed.

(** ** What holds of every schedule *)

(** A write is kept when the LSM tree has it, or when reads reach its table
    and the log of that table has it. *)
Definition write_kept (s : sw) (t : nat) (e : memtable_entry) : Prop :=
  (exists ep run, sw_pushed s !! t = Some (ep, run) /\ e ∈ run) \/
  (t = sw_table s \/ t ∈ (sw_pending s).*2) /\ e ∈ entries_of s t /\ e ∈ wal_of s t.

(** C7: no acknowledged write is dropped by a table switch. However puts,
    reads, flushes and compactions interleave, and whatever exports or log
    appends fail, a write that [put_async] acknowledged is in a run pushed
    to the LSM tree, or it is both in a table that reads look at (the
    current one or a pending one) and in the log of that table, which is
    not reset before the run is pushed. *)
Theorem acknowledged_writes_kept (threads slots epoch seq : nat) (s : sw) (t : nat) (e : memtable_entry)
    (Hr : sw_reachable threads slots epoch seq s) (Hs : small s) (Ha : (t, e) ∈ sw_acked s) : write_kept s t e.
Proof.
  pose proof (wi_global _ _ (winv_reachable _ _ _ _ _ Hr Hs)) as G. destruct (gi_acked _ _ G t e Ha) as (H1 & H2 & H3).
  destruct (decide (t < length (sw_pushed s))) as [Hlt|Hge].
  - left. destruct (lookup_lt_is_Some_2 _ _ Hlt) as [[ep run] Hp]. exists ep, run. split; [done|]. by rewrite (gi_pushed _ _ G t ep run Hp).
  - right. split; [|destruct H3; [lia|done]]. destruct (decide (t = sw_table s)) as [|Hne]; [by left|right].
    rewrite (gi_pending _ _ G), elem_of_seq. lia.
Qed.

(** Reads compare writes by table, then by sequence number. *)
Definition at_least_as_new (w w' : nat * memtable_entry) : Prop :=
  w.1 < w'.1 \/ w'.1 = w.1 /\ (mt_seq w.2 <= mt_seq w'.2)%Z.

(** C8: reads across table switches are fresh. A read that loads the switch
    epoch at a moment when no switch is between the exchange of the table
    and the new epoch returns, when it ends, a write of its key that is at
    least as new as every write of the key acknowledged before that moment,
    even if any number of switches, flushes and writes run meanwhile; and
    what any read returns was written under its key. *)
Theorem switch_read_fresh (threads slots epoch seq : nat) (s : sw) (i : nat) (th : sthread) (k : bytes)
    (r : option (nat * memtable_entry)) (seen : option nat) (Hr : sw_reachable threads slots epoch seq s) (Hs : small s)
    (Hi : sw_threads s !! i = Some th) (Hd : st_pc th = GetDone k r seen) :
  (forall t e, r = Some (t, e) -> e ∈ entries_of s t /\ mt_key e = k) /\
  (forall m w, seen = Some m -> w ∈ take m (sw_acked s) -> mt_key w.2 = k -> exists w', r = Some w' /\ at_least_as_new w w').
Proof.
  pose proof (wi_thread _ _ (winv_reachable _ _ _ _ _ Hr Hs) i th Hi) as K. pose proof (tk_get _ _ _ K) as O. rewrite Hd in O.
  destruct O as [O1 O2]. split; [done|]. intros m [t e] Hm Hw Hk. destruct (O2 m Hm t e) as (t' & e' & -> & H); [by split|]. by exists (t', e').
Qed.

(** ** Schedules *)

Definition run_sched (s : sw) (l : list actor) : option sw := foldl (fun o a => s ← o; sw_step s a) (Some s) l.

Lemma run_sched_reachable threads slots epoch seq s l s' :
  sw_reachable threads slots epoch seq s -> run_sched s l = Some s' -> sw_reachable threads slots epoch seq s'.
Proof.
  unfold run_sched. revert s. induction l as [|a l IH]; intros s Hr Hs; cbn in Hs; [by injection Hs as <-|].
  destruct (sw_step s a) as [s1|] eqn:E; [apply (IH s1); [by eapply sr_step|done]|].
  exfalso. clear -Hs. induction l as [|b l IH]; cbn in Hs; [done|]. by apply IH.
Qed.

(** A thread goes on, always succeeding; one that writes; one that finds its
    table full. *)
Definition go (i n : nat) : list actor := replicate n (Thread i Yes).
Definition write (i : nat) (w : kv_pair) : list actor := Thread i (BeginPut w) :: go i 8.
Definition full (i : nat) (w : kv_pair) : list actor := Thread i (BeginPut w) :: go i 3 ++ [Thread i No].

Definition key_a : bytes := [97]%Z.
Definition key_b : bytes := [98]%Z.

(** Thread 1 reads; thread 0 fills the table and exchanges it. *)
Definition until_exchange : list actor :=
  Thread 1 (BeginGet key_a) :: go 1 8 ++ full 0 (key_b, [1; 9]%Z) ++ go 0 6.

(** C35: during a switch a thread can miss its own write. When the table has
    been exchanged and the epoch not yet advanced, a writer already reaches
    the new table through [_table], while a reader whose epoch is current
    keeps the table it read last: the same thread puts a key, the put is
    acknowledged, and its next read of the key finds nothing. *)
Theorem switch_read_misses_write :
  exists s1 s2 e, sw_reachable 2 4 0 5 s1 /\ run_sched (make_switch 2 4 0 5) (until_exchange ++ write 1 (key_a, [1; 7]%Z)) = Some s1 /\
    (1, e) ∈ sw_acked s1 /\ mt_key e = key_a /\ (st_pc <$> sw_threads s1 !! 1) = Some SIdle /\
    run_sched s1 (Thread 1 (BeginGet key_a) :: go 1 6) = Some s2 /\ (st_pc <$> sw_threads s2 !! 1) = Some (GetDone key_a None None).
Proof.
  destruct (run_sched (make_switch 2 4 0 5) (until_exchange ++ write 1 (key_a, [1; 7]%Z))) as [s1|] eqn:E1; [|by vm_compute in E1].
  pose proof (run_sched_reachable 2 4 0 5 _ _ s1 (sr_make 2 4 0 5) E1) as Hr. vm_compute in E1. injection E1 as <-.
  eexists _, _, _. split; [exact Hr|]. split; [done|]. split; [by left|]. split; [done|]. split; [done|]. split; [vm_compute; reflexivity|done].
Qed.

(** *** Crashes *)

(** [sst_manager::max_seq_nr] of the pushed runs, and what the logs hold. *)
Definition max_flushed (s : sw) : Z :=
  foldr (fun r m => foldr (fun e m => Z.max (mt_seq e) m) m r.2) 0%Z (sw_pushed s).
Definition logged (s : sw) : list wal_entry :=
  (fun e => mk_wal_entry (mt_seq e) (mt_key e) (mt_value e)) <$> (sw_tables s ≫= tb_wal).

(** Thread 0 passes the gate of the table; thread 1 switches it; thread 2
    writes to the new table; thread 0 writes to the old one, which is then
    flushed. *)
Definition late_writer : list actor :=
  Thread 0 (BeginPut (key_b, [1; 9]%Z)) :: go 0 3 ++ full 1 (key_b, [1; 8]%Z) ++ go 1 10 ++ write 2 (key_a, [1; 7]%Z) ++ go 0 5 ++
  replicate 10 (Flush 0 true).

(** C37: a switch can make recovery lose an acknowledged write. Sequence
    numbers are taken after the gate of the table, so a writer still in the
    old table can take a number above one already used in the new table.
    Once the old table is flushed, the largest number of the SSTs is above
    that of the write in the new table, which is only in the log: recovery
    skips it as persisted, and the key is in no run. *)
Theorem switch_recovery_loses_write :
  exists s e m, sw_reachable 3 4 0 5 s /\ run_sched (make_switch 3 4 0 5) late_writer = Some s /\
    (1, e) ∈ sw_acked s /\ mt_key e = key_a /\ e ∈ wal_of s 1 /\ find_run (sw_pushed s) (length (sw_pushed s)) key_a = None /\
    recover (32 * 1024 * 1024) 3 4 1 (max_flushed s) (logged s) = Some m /\ memtable_get m key_a = Some None.
Proof.
  destruct (run_sched (make_switch 3 4 0 5) late_writer) as [s|] eqn:E1; [|by vm_compute in E1].
  pose proof (run_sched_reachable 3 4 0 5 _ _ s (sr_make 3 4 0 5) E1) as Hr. vm_compute in E1. injection E1 as <-.
  eexists _, _, _. split; [exact Hr|]. split; [done|]. split; [by left|]. split; [done|]. split; [by left|]. split; [done|].
  split; [vm_compute; reflexivity|done].
Qed.

Lemma acknowledged_writes_kept_witness :
  exists s e, run_sched (make_switch 3 4 0 5) late_writer = Some s /\ (1, e) ∈ sw_acked s /\ write_kept s 1 e.
Proof.
  destruct (run_sched (make_switch 3 4 0 5) late_writer) as [s|] eqn:E1; [|by vm_compute in E1].
  pose proof (run_sched_reachable 3 4 0 5 _ _ s (sr_make 3 4 0 5) E1) as Hr. vm_compute in E1. injection E1 as <-.
  eexists _, _. split; [done|]. split; [by left|]. eapply (acknowledged_writes_kept 3 4 0 5); [exact Hr|by vm_compute|by left].
Defined.

(** A write, a switch with its flush, then a read. *)
Definition read_after_flush : list actor :=
  write 0 (key_a, [1; 7]%Z) ++ full 1 (key_b, [1; 8]%Z) ++ go 1 10 ++ replicate 10 (Flush 0 true) ++ Thread 2 (BeginGet key_a) :: go 2 7.

Lemma switch_read_fresh_witness :
  exists s w', run_sched (make_switch 3 4 0 5) read_after_flush = Some s /\
    (st_pc <$> sw_threads s !! 2) = Some (GetDone key_a (Some w') (Some 1)) /\
    at_least_as_new (0, mk_mt_entry key_a 5 [1; 7]%Z) w'.
Proof.
  destruct (run_sched (make_switch 3 4 0 5) read_after_flush) as [s|] eqn:E1; [|by vm_compute in E1].
  pose proof (run_sched_reachable 3 4 0 5 _ _ s (sr_make 3 4 0 5) E1) as Hr. vm_compute in E1. injection E1 as <-.
  eexists _, _. split; [done|]. split; [done|].
  pose proof (fun th k r seen => switch_read_fresh 3 4 0 5 _ 2 th k r seen Hr) as F.
  destruct (F _ _ _ _ ltac:(by vm_compute) eq_refl eq_refl) as [_ F'].
  destruct (F' 1 (0, mk_mt_entry key_a 5 [1; 7]%Z) eq_refl) as (w' & Hw & Hn); [by left|done|]. by injection Hw as <-.
Defined.
