(* ===== verification/RangeIterator.v ===== *)
(** * Range scans (src/db/range_iterator.cc, include/db/range_iterator.h,
      the cursor of src/db/merge/sst_stream.h)

    The cursor over a table of the memtable, and the iterator that merges
    the cursors and the streams of the SSTs of a partition and returns the
    pairs of a range one by one. A source of the iterator is the list of
    entries it still delivers: for a cursor that list is computed here, for
    a stream over the pages of an SST in SstStream. *)

From stdpp Require Import base list numbers strings sorting sets.
From Stdlib Require Import ZArith Lia.
From S2P Require Import Prelude StdAlgo Types Block Merge Sst Lsm Memtable.

(** ** The memtable cursor *)

Record memtable_cursor := mk_cursor {
  mc_table : list memtable_entry;
  mc_it : nat;
  mc_end : nat;
  mc_max_seq : Z;
  mc_epoch : Z;
}.

Definition mc_is_eof (c : memtable_cursor) : bool := (mc_it c =? mc_end c)%nat.

(** [None] is the dereference of the end of the skiplist. *)
Definition mc_front (c : memtable_cursor) : option memtable_entry := mc_table c !! mc_it c.

(** The two skipping loops: [it] moves on while it is not the end and the
    entry at it satisfies [skip]. *)
Fixpoint skip_while (fuel : nat) (skip : memtable_entry -> bool) (table : list memtable_entry) (it end_ : nat)
    : option nat :=
  if (it =? end_)%nat then Some it
  else
    e ← table !! it;
    if negb (skip e) then Some it
    else match fuel with O => None | S fuel => skip_while fuel skip table (S it) end_ end.

Definition _skip_invisible (c : memtable_cursor) : option memtable_cursor :=
  it ← skip_while (length (mc_table c)) (fun e => mc_max_seq c <? mt_seq e)%Z (mc_table c) (mc_it c) (mc_end c);
  Some (mk_cursor (mc_table c) it (mc_end c) (mc_max_seq c) (mc_epoch c)).

Definition _skip_duplicate_keys (c : memtable_cursor) (key : bytes) : option memtable_cursor :=
  it ← skip_while (length (mc_table c)) (fun e => Lex.eqb (mt_key e) key) (mc_table c) (mc_it c) (mc_end c);
  Some (mk_cursor (mc_table c) it (mc_end c) (mc_max_seq c) (mc_epoch c)).

(** The first entry not before the newest possible version of [key]. *)
Definition skiplist_lower_bound (table : list memtable_entry) (key : bytes) : nat :=
  lower_bound (fun x => memtable_cmp x (mk_mt_entry key UINT64_MAX [])) table.

Definition make_cursor (table : list memtable_entry) (lower upper : option bytes) (epoch max_seq : Z)
    : option memtable_cursor :=
  let it := match lower with Some l => skiplist_lower_bound table l | None => 0 end in
  let end_ := match upper with Some u => skiplist_lower_bound table u | None => length table end in
  let end_ := if (end_ =? length table)%nat then end_ else S end_ in
  _skip_invisible (mk_cursor table it end_ max_seq epoch).

Definition mc_pop_front (c : memtable_cursor) : option memtable_cursor :=
  e ← mc_front c;
  c ← _skip_invisible (mk_cursor (mc_table c) (S (mc_it c)) (mc_end c) (mc_max_seq c) (mc_epoch c));
  _skip_duplicate_keys c (mt_key e).

(** What the cursor delivers to [source_pop_entry], until it is at its
    end. *)
Fixpoint cursor_entries (fuel : nat) (c : memtable_cursor) : option (list kv) :=
  if mc_is_eof c then Some []
  else match fuel with
       | O => None
       | S fuel =>
           e ← mc_front c;
           c ← mc_pop_front c;
           rest ← cursor_entries fuel c;
           Some ((mt_key e, mt_value e) :: rest)
       end.

(** ** The iterator *)

Record range_iterator := mk_iter {
  ri_lower : option bytes;
  ri_upper : option bytes;
  ri_sources : list (Z * list kv);   (* epoch and entries of each source *)
  ri_dedup : deduplicator;
  ri_heap : list (slot_t (list kv));
  ri_initialized : bool;
  ri_exhausted : bool;
}.

Definition make_iter (lower upper : option bytes) (sources : list (Z * list kv)) : range_iterator :=
  mk_iter lower upper sources empty_dedup [] false false.

(** [_init]: the first entry of every source goes to the heap. *)
Definition _init (it : range_iterator) : range_iterator :=
  mk_iter (ri_lower it) (ri_upper it) (ri_sources it) (ri_dedup it) (init_heap (ri_sources it)) true (ri_exhausted it).

Definition scan_result : Type := expected (bytes * bytes).

Definition end_of_scan : scan_result := Err (mk_error "End of scan" END_OF_SCAN).

(** [_emit]: the result for an item that left the deduplicator, and the
    value of [_exhausted]. [None] is the failed assertion on a value
    pointer. *)
Definition _emit (lower upper : option bytes) (exhausted : bool) (item : merge_entry_t)
    : option (scan_result * bool) :=
  if match lower with Some l => Lex.ltb (me_key item) l | None => false end
  then Some (Err (mk_error "" SKIP), exhausted)
  else if match upper with Some u => Lex.ltb u (me_key item) | None => false end
  then Some (end_of_scan, true)
  else match value_from_span (me_value item) with
       | Err e => Some (Err (generic_error "Failed to parse value"), exhausted)
       | Ok VTombstone => Some (Err (mk_error "" SKIP), exhausted)
       | Ok (VBytes bytes) => Some (Ok (me_key item, bytes), exhausted)
       | Ok (VPtr _) => None
       end.

(** The slot goes back to the heap with the next entry of its source. *)
Definition refill_slot (heap : list (slot_t (list kv))) (slot : slot_t (list kv)) : list (slot_t (list kv)) :=
  match sl_source slot with
  | [] => heap
  | x :: rest => push_heap heap (mk_slot (mk_entry x.1 x.2 (me_epoch (sl_entry slot))) rest)
  end.

Definition with_merge (it : range_iterator) (dedup : deduplicator) (heap : list (slot_t (list kv))) (exhausted : bool)
    : range_iterator :=
  mk_iter (ri_lower it) (ri_upper it) (ri_sources it) dedup heap (ri_initialized it) exhausted.

(** [_next_inner]; [None] is the failed assertion or fuel that ran out.
    One round takes one entry from the heap. *)
Fixpoint _next_inner (fuel : nat) (it : range_iterator) : option (scan_result * range_iterator) :=
  match pop_heap (ri_heap it) with
  | None => Some (Err (mk_error "eof" END_OF_SCAN), it)
  | Some (slot, heap) =>
      match fuel with
      | O => None
      | S fuel =>
          let dedup := dedup_push (ri_dedup it) (sl_entry slot) in
          let heap := refill_slot heap slot in
          match dedup_pop dedup with
          | None => _next_inner fuel (with_merge it dedup heap (ri_exhausted it))
          | Some (item, dedup) =>
              '(result, exhausted) ← _emit (ri_lower it) (ri_upper it) (ri_exhausted it) item;
              let it := with_merge it dedup heap exhausted in
              match result with
              | Err e => if bool_decide (error_code e = END_OF_SCAN) then Some (result, it) else _next_inner fuel it
              | Ok _ => Some (result, it)
              end
          end
      end
  end.

(** The items left in the deduplicator: at most one is ready. *)
Fixpoint drain_ready (fuel : nat) (it : range_iterator) : option (option scan_result * range_iterator) :=
  match dedup_pop (ri_dedup it) with
  | None => Some (None, it)
  | Some (item, dedup) =>
      match fuel with
      | O => None
      | S fuel =>
          '(result, exhausted) ← _emit (ri_lower it) (ri_upper it) (ri_exhausted it) item;
          let it := with_merge it dedup (ri_heap it) exhausted in
          match result with
          | Ok _ => Some (Some result, it)
          | Err e => if bool_decide (error_code e = END_OF_SCAN) then Some (Some result, it) else drain_ready fuel it
          end
      end
  end.

(** [next]; [None] is an exception. *)
Definition next (fuel : nat) (it : range_iterator) : option (scan_result * range_iterator) :=
  let it := if ri_initialized it then it else _init it in
  if ri_exhausted it then Some (end_of_scan, it)
  else
    '(maybe_kv, it) ← _next_inner fuel it;
    match maybe_kv with
    | Ok _ => Some (maybe_kv, it)
    | Err e =>
        if negb (bool_decide (error_code e = END_OF_SCAN))
        then Some (Err (generic_error "Failed to get next item from scan iterator"), it)
        else
          '(drained, it) ← drain_ready 2 it;
          match drained with
          | Some result => Some (result, it)
          | None =>
              '(item, dedup) ← dedup_force_pop (ri_dedup it);
              '(result, _) ← _emit (ri_lower it) (ri_upper it) (ri_exhausted it) item;
              let it := with_merge it dedup (ri_heap it) true in
              match result with
              | Ok _ => Some (result, it)
              | Err _ => Some (end_of_scan, it)
              end
          end
    end.

(** The loop of a client: [next] until the end of the scan. *)
Fixpoint collect (calls fuel : nat) (it : range_iterator) : option (list (bytes * bytes) * error) :=
  match calls with
  | O => None
  | S calls =>
      '(r, it) ← next fuel it;
      match r with
      | Err e => Some ([], e)
      | Ok kv => '(rest, e) ← collect calls fuel it; Some (kv :: rest, e)
      end
  end.

(** ** What a scan returns *)

Section scan.
Context (lower upper : option bytes).

Definition in_range (k : bytes) : bool :=
  negb (match lower with Some l => Lex.ltb k l | None => false end) &&
  negb (match upper with Some u => Lex.ltb u k | None => false end).

(** The pair a stored entry stands for, if it is a value. *)
Definition pair_of (e : merge_entry_t) : option (bytes * bytes) :=
  match value_from_span (me_value e) with Ok (VBytes b) => Some (me_key e, b) | _ => None end.

Definition no_pointer (e : merge_entry_t) : Prop := forall p, value_from_span (me_value e) <> Ok (VPtr p).

Definition past_upper (e : merge_entry_t) : Prop := exists u, upper = Some u /\ Lex.lt u (me_key e).

(** What becomes of the items that leave the deduplicator, in order: the
    first pair with the items behind it, the end of the scan with the items
    behind it, or neither. *)
Inductive hit :=
  | Hit (kv : bytes * bytes) (rest : list merge_entry_t)
  | HitEnd (rest : list merge_entry_t)
  | NoHit.

Fixpoint first_hit (items : list merge_entry_t) : hit :=
  match items with
  | [] => NoHit
  | e :: items =>
      match _emit lower upper false e with
      | Some (Ok kv, _) => Hit kv items
      | Some (Err err, _) => if bool_decide (error_code err = END_OF_SCAN) then HitEnd items else first_hit items
      | None => NoHit
      end
  end.

Lemma emit_cases e exhausted : no_pointer e ->
  (in_range (me_key e) = true /\ exists kv, pair_of e = Some kv /\ _emit lower upper exhausted e = Some (Ok kv, exhausted)) \/
  (pair_of e = None \/ in_range (me_key e) = false) /\
    ((exists err, error_code err <> END_OF_SCAN /\ _emit lower upper exhausted e = Some (Err err, exhausted)) \/
     (past_upper e /\ _emit lower upper exhausted e = Some (end_of_scan, true))).
Proof.
  unfold no_pointer, _emit, in_range, pair_of, past_upper. intros Hp.
  destruct (match lower with Some l => Lex.ltb (me_key e) l | None => false end).
  { right. split; [by right|]. left. eexists. split; [|done]. done. }
  destruct upper as [u|].
  - destruct (Lex.ltb u (me_key e)) eqn:Eu.
    { right. split; [by right|]. right. split; [|done]. exists u. split; [done|]. by apply Lex.ltb_lt. }
    destruct (value_from_span (me_value e)) as [[p|b|]|] eqn:Ev; [by destruct (Hp p)| | |].
    + left. split; [done|]. eexists. split; done.
    + right. split; [by left|]. left. eexists. split; [|done]. done.
    + right. split; [by left|]. left. eexists. split; [|done]. done.
  - destruct (value_from_span (me_value e)) as [[p|b|]|] eqn:Ev; [by destruct (Hp p)| | |].
    + left. split; [done|]. eexists. split; done.
    + right. split; [by left|]. left. eexists. split; [|done]. done.
    + right. split; [by left|]. left. eexists. split; [|done]. done.
Qed.

(** All the pairs. *)
Fixpoint emitted (items : list merge_entry_t) : list (bytes * bytes) :=
  match items with
  | [] => []
  | e :: items =>
      match _emit lower upper false e with
      | Some (Ok kv, _) => kv :: emitted items
      | Some (Err err, _) => if bool_decide (error_code err = END_OF_SCAN) then [] else emitted items
      | None => []
      end
  end.

Lemma emitted_spec items : StronglySorted key_lt items -> Forall no_pointer items ->
  emitted items = omap pair_of (filter (fun e => in_range (me_key e) = true) items).
Proof.
  induction 1 as [|e items Hs IH Hf]; intros Hp; [done|]. apply Forall_cons in Hp as [He Hp]. specialize (IH Hp).
  cbn [emitted]. destruct (emit_cases e false He) as [(Hin & kv & Hkv & ->)|(Hno & [(err & Hc & ->)|(Hpast & ->)])].
  - rewrite filter_cons_True by done. cbn [omap list_omap]. by rewrite Hkv, IH.
  - rewrite bool_decide_eq_false_2 by done. rewrite IH, filter_cons. case_decide as Hd; [|done].
    destruct Hno as [Hno|Hno]; [|congruence]. cbn [omap list_omap]. by rewrite Hno.
  - unfold end_of_scan. rewrite bool_decide_eq_true_2 by done. symmetry. rewrite filter_none; [done|].
    destruct Hpast as (u & Hu & Hlt). unfold in_range. rewrite Hu. constructor.
    + rewrite (proj2 (Lex.ltb_lt _ _) Hlt). cbn. by rewrite andb_false_r.
    + eapply Forall_impl; [exact Hf|]. intros x Hx. cbv beta.
      rewrite (proj2 (Lex.ltb_lt u (me_key x))) by (by eapply Lex.lt_trans). cbn. by rewrite andb_false_r.
Qed.

Lemma emitted_hit a b : Forall no_pointer a ->
  match first_hit a with
  | Hit kv r => emitted (a ++ b) = kv :: emitted (r ++ b) /\ suffix r a /\ length r < length a
  | HitEnd r => emitted (a ++ b) = [] /\ suffix r a /\ exists e pre, past_upper e /\ a = pre ++ e :: r
  | NoHit => emitted (a ++ b) = emitted b
  end.
Proof.
  induction 1 as [|e a He _ IH]; [done|]. cbn [first_hit emitted app].
  destruct (emit_cases e false He) as [(_ & kv & _ & ->)|(_ & [(err & Hc & ->)|(Hpast & ->)])].
  - split_ands; [done|by exists [e]|cbn; lia].
  - rewrite bool_decide_eq_false_2 by done. destruct (first_hit a) as [kv r|r|]; [| |done].
    + destruct IH as (H1 & H2 & H3). split_ands; [done|by apply suffix_cons_r|cbn; lia].
    + destruct IH as (H1 & H2 & x & pre & Hx & ->). split_ands; [done|by apply suffix_cons_r|].
      exists x, (e :: pre). done.
  - unfold end_of_scan. rewrite bool_decide_eq_true_2 by done. split_ands; [done|by exists [e]|by exists e, []].
Qed.

(** The entries the heap will give, in order. *)
Definition pending (h : list (slot_t (list kv))) : list merge_entry_t := popped (length (heap_entries h)) h.

Lemma pending_step h slot heap : pop_heap h = Some (slot, heap) ->
  pending h = sl_entry slot :: pending (refill_slot heap slot) /\
  length (heap_entries h) = S (length (heap_entries (refill_slot heap slot))).
Proof.
  intros E. pose proof (Permutation_length (pop_entries _ _ _ E)) as Hl. cbn [length] in Hl.
  change (refilled heap slot) with (refill_slot heap slot) in Hl. unfold pending. rewrite Hl. split; [|done].
  cbn [popped]. by rewrite E.
Qed.

Context (sources : list (Z * list kv)).

Definition state (d : deduplicator) (h : list (slot_t (list kv))) (exhausted : bool) : range_iterator :=
  mk_iter lower upper sources d h true exhausted.

Definition holding (cur : merge_entry_t) (n : nat) : deduplicator := mk_dedup (Some cur) None n.

Lemma next_inner_step fuel h cur m slot heap : pop_heap h = Some (slot, heap) ->
  _next_inner (S fuel) (state (holding cur m) h false) =
  if Lex.eqb (me_key cur) (me_key (sl_entry slot))
  then _next_inner fuel (state (holding cur (m + 1)) (refill_slot heap slot) false)
  else '(result, exhausted) ← _emit lower upper false cur;
       let it := state (holding (sl_entry slot) m) (refill_slot heap slot) exhausted in
       match result with
       | Err e => if bool_decide (error_code e = END_OF_SCAN) then Some (result, it) else _next_inner fuel it
       | Ok _ => Some (result, it)
       end.
Proof.
  intros E. cbn [_next_inner]. unfold state, holding. cbn [ri_heap ri_dedup ri_exhausted ri_lower ri_upper]. rewrite E.
  unfold dedup_push. cbn [to_be_checked_item ready_item deduplicated_keys].
  destruct (Lex.eqb (me_key cur) (me_key (sl_entry slot))); reflexivity.
Qed.

Lemma next_inner_spec n fuel h cur m a last k :
  length (heap_entries h) = n -> n <= fuel -> dedup_run cur (pending h) = (a, last, k) ->
  Forall no_pointer (a ++ [last]) ->
  match first_hit a with
  | Hit kv r => exists cur' m' h' k', _next_inner fuel (state (holding cur m) h false) =
      Some (Ok kv, state (holding cur' m') h' false) /\ dedup_run cur' (pending h') = (r, last, k') /\
      length (heap_entries h') < n
  | HitEnd r => exists cur' m' h' k', _next_inner fuel (state (holding cur m) h false) =
      Some (end_of_scan, state (holding cur' m') h' true) /\ dedup_run cur' (pending h') = (r, last, k')
  | NoHit => exists m', _next_inner fuel (state (holding cur m) h false) =
      Some (Err (mk_error "eof" END_OF_SCAN), state (holding last m') [] false)
  end.
Proof.
  revert fuel h cur m a k. induction n as [|n IH]; intros fuel h cur m a k Hn Hf Hr Hp.
  { destruct (pop_heap h) as [[slot heap]|] eqn:E; [apply pending_step in E as [_ E]; lia|].
    apply pop_heap_None in E as ->. cbn in Hr. injection Hr as <- <- <-. exists m. by destruct fuel. }
  destruct (pop_heap h) as [[slot heap]|] eqn:E; [|apply pop_heap_None in E as ->; done].
  destruct fuel as [|fuel]; [lia|]. rewrite (next_inner_step fuel h cur m slot heap E).
  destruct (pending_step _ _ _ E) as [Hpend Hlen]. rewrite Hpend in Hr. cbn [dedup_run] in Hr.
  destruct (Lex.eqb (me_key cur) (me_key (sl_entry slot))) eqn:Ek.
  - destruct (dedup_run cur (pending (refill_slot heap slot))) as [[a' last'] k'] eqn:Er. injection Hr as <- <- <-.
    specialize (IH fuel (refill_slot heap slot) cur (m + 1) a' k' ltac:(lia) ltac:(lia) Er Hp).
    destruct (first_hit a'); [|exact IH|exact IH].
    destruct IH as (cur' & m' & h' & k2 & H1 & H2 & H3). exists cur', m', h', k2. split_ands; [exact H1|done|lia].
  - destruct (dedup_run (sl_entry slot) (pending (refill_slot heap slot))) as [[a' last'] k'] eqn:Er.
    injection Hr as <- <- <-. cbn [app] in Hp. apply Forall_cons in Hp as [Hc Hp]. cbn [first_hit].
    destruct (emit_cases cur false Hc) as [(_ & kv & _ & ->)|(_ & [(err & Hc' & ->)|(Hpast & ->)])]; cbn [mbind option_bind].
    + exists (sl_entry slot), m, (refill_slot heap slot), k'. split_ands; [done|done|lia].
    + rewrite bool_decide_eq_false_2 by done.
      specialize (IH fuel (refill_slot heap slot) (sl_entry slot) m a' k' ltac:(lia) ltac:(lia) Er Hp).
      destruct (first_hit a'); [|exact IH|exact IH].
      destruct IH as (cur' & m' & h' & k2 & H1 & H2 & H3). exists cur', m', h', k2. split_ands; [exact H1|done|lia].
    + unfold end_of_scan. rewrite bool_decide_eq_true_2 by done.
      exists (sl_entry slot), m, (refill_slot heap slot), k'. split; done.
Qed.

Lemma dedup_run_head cur l a last k : dedup_run cur l = (a, last, k) -> exists t, a ++ [last] = cur :: t.
Proof.
  revert cur a last k. induction l as [|x l IH]; intros cur a last k; cbn [dedup_run].
  - intros [= <- <- <-]. by exists [].
  - destruct (Lex.eqb _ _).
    + destruct (dedup_run cur l) as [[a' last'] k'] eqn:E. intros [= <- <- <-]. by eapply IH.
    + destruct (dedup_run x l) as [[a' last'] k']. intros [= <- <- <-]. by eexists.
Qed.

Lemma emit_past e exhausted : no_pointer e -> past_upper e ->
  exists err x, _emit lower upper exhausted e = Some (Err err, x).
Proof.
  intros Hp (u & Hu & Hlt). destruct (emit_cases e exhausted Hp) as [(Hin & _)|(_ & [(err & _ & ->)|(_ & ->)])].
  - unfold in_range in Hin. rewrite Hu, (proj2 (Lex.ltb_lt _ _) Hlt) in Hin. cbn in Hin. by rewrite andb_false_r in Hin.
  - by eexists _, _.
  - by eexists _, _.
Qed.

(** [next] on an iterator that was initialised and is not exhausted. *)
Lemma next_started fuel d h :
  next fuel (state d h false) =
  ('(maybe_kv, it) ← _next_inner fuel (state d h false);
   match maybe_kv with
   | Ok _ => Some (maybe_kv, it)
   | Err e =>
       if negb (bool_decide (error_code e = END_OF_SCAN))
       then Some (Err (generic_error "Failed to get next item from scan iterator"), it)
       else
         '(drained, it) ← drain_ready 2 it;
         match drained with
         | Some result => Some (result, it)
         | None =>
             '(item, dedup) ← dedup_force_pop (ri_dedup it);
             '(result, _) ← _emit (ri_lower it) (ri_upper it) (ri_exhausted it) item;
             let it := with_merge it dedup (ri_heap it) true in
             match result with
             | Ok _ => Some (result, it)
             | Err _ => Some (end_of_scan, it)
             end
         end
   end).
Proof. reflexivity. Qed.

(** The end of [next], once the heap is of no more use. *)
Lemma next_tail fuel cur m h last m' h' exhausted e :
  _next_inner fuel (state (holding cur m) h false) = Some (Err e, state (holding last m') h' exhausted) ->
  error_code e = END_OF_SCAN ->
  next fuel (state (holding cur m) h false) =
  ('(result, _) ← _emit lower upper exhausted last;
   Some (match result with Ok _ => result | Err _ => end_of_scan end, state (mk_dedup None None m') h' true)).
Proof.
  intros E Hc. rewrite next_started, E. cbn [mbind option_bind]. rewrite bool_decide_eq_true_2 by done. cbn.
  destruct (_emit lower upper exhausted last) as [[[kv|err] x]|]; done.
Qed.

Definition scan_sorted (items : list merge_entry_t) : Prop := StronglySorted key_lt items /\ Forall no_pointer items.

Lemma next_spec fuel cur m h a last k :
  length (heap_entries h) <= fuel -> dedup_run cur (pending h) = (a, last, k) -> scan_sorted (a ++ [last]) ->
  let result := next fuel (state (holding cur m) h false) in
  (exists kv cur' m' h' r k', result = Some (Ok kv, state (holding cur' m') h' false) /\
     dedup_run cur' (pending h') = (r, last, k') /\ length (heap_entries h') <= fuel /\
     emitted (a ++ [last]) = kv :: emitted (r ++ [last]) /\ suffix r a /\ length r < length a) \/
  (exists kv d h', result = Some (Ok kv, state d h' true) /\ emitted (a ++ [last]) = [kv]) \/
  (exists e it', result = Some (Err e, it') /\ error_code e = END_OF_SCAN /\ emitted (a ++ [last]) = []).
Proof.
  intros Hf Hr [Hs Hp]. cbv zeta. pose proof (next_inner_spec _ fuel h cur m a last k eq_refl Hf Hr Hp) as Hin.
  apply Forall_app in Hp as [Hpa Hpl]. pose proof (emitted_hit a [last] Hpa) as He.
  destruct (first_hit a) as [kv r|r|].
  - destruct Hin as (cur' & m' & h' & k' & E & Hd & Hl), He as (He & Hsuf & Hlen). left.
    exists kv, cur', m', h', r, k'. split_ands; try done; [|lia].
    by rewrite next_started, E.
  - destruct Hin as (cur' & m' & h' & k' & E & Hd), He as (He & Hsuf & e & pre & Hpast & Ha). right. right.
    destruct (dedup_run_head _ _ _ _ _ Hd) as [t Ht]. rewrite (next_tail _ _ _ _ _ _ _ _ _ E) by done.
    assert (no_pointer cur' /\ past_upper cur') as [Hnp Hpu].
    { rewrite Ha, <- app_assoc in Hs. cbn [app] in Hs. rewrite Ht in Hs. apply StronglySorted_app_1_r in Hs.
      apply StronglySorted_inv in Hs as [_ Hs]. apply Forall_cons in Hs as [Hlt _]. split.
      - assert (cur' ∈ r ++ [last]) as Hin by (rewrite Ht; by left). apply elem_of_app in Hin as [Hin|Hin].
        + rewrite Forall_forall in Hpa. apply Hpa. rewrite Ha. set_solver.
        + rewrite Forall_forall in Hpl. by apply Hpl.
      - destruct Hpast as (u & Hu & Hue). exists u. split; [done|]. by eapply Lex.lt_trans. }
    destruct (emit_past cur' true Hnp Hpu) as (err & x & ->). by eexists _, _.
  - destruct Hin as [m' E]. rewrite (next_tail _ _ _ _ _ _ _ _ _ E) by done. rewrite He.
    apply Forall_cons in Hpl as [Hpl _]. cbn [emitted]. right.
    destruct (emit_cases last false Hpl) as [(_ & kv & _ & ->)|(_ & [(err & Hc & ->)|(_ & ->)])]; cbn [mbind option_bind].
    + left. by eexists kv, _, _.
    + right. rewrite bool_decide_eq_false_2 by done. by eexists _, _.
    + right. by eexists _, _.
Qed.

Lemma collect_spec calls fuel cur m h a last k :
  S (length a) < calls -> length (heap_entries h) <= fuel -> dedup_run cur (pending h) = (a, last, k) ->
  scan_sorted (a ++ [last]) ->
  exists e, collect calls fuel (state (holding cur m) h false) = Some (emitted (a ++ [last]), e) /\ error_code e = END_OF_SCAN.
Proof.
  revert cur m h a k. induction calls as [|calls IH]; intros cur m h a k Hc Hf Hr Hs; [lia|]. cbn [collect].
  destruct (next_spec fuel cur m h a last k Hf Hr Hs)
    as [(kv & cur' & m' & h' & r & k' & -> & Hd & Hl & -> & [pre ->] & Hlen)|[(kv & d & h' & -> & ->)|(e & it' & -> & He & ->)]];
    cbn [mbind option_bind].
  - destruct (IH cur' m' h' r k') as (e & -> & He); [lia|done|done| |by exists e].
    destruct Hs as [H1 H2]. rewrite <- app_assoc in H1, H2. split; [by eapply StronglySorted_app_1_r|].
    by apply Forall_app in H2 as [_ ?].
  - destruct calls as [|calls]; [lia|]. cbn. by eexists.
  - by exists e.
Qed.
End scan.

Definition entry_no_pointer (x : kv) : Prop := forall p, value_from_span x.2 <> Ok (VPtr p).

(** Runs in which every value is stored in place or is a tombstone. *)
Definition sources_ok (sources : list (Z * list kv)) : Prop :=
  inputs_ok sources /\ Forall (fun s => Forall entry_no_pointer s.2) sources.

Lemma dedup_run_length cur l a last k : dedup_run cur l = (a, last, k) -> length a <= length l.
Proof.
  revert cur a last k. induction l as [|x l IH]; intros cur a last k; cbn [dedup_run].
  - by intros [= <- _ _].
  - destruct (Lex.eqb _ _).
    + destruct (dedup_run cur l) as [[a' last'] k'] eqn:E. intros [= <- _ _]. apply IH in E. cbn. lia.
    + destruct (dedup_run x l) as [[a' last'] k'] eqn:E. intros [= <- _ _]. apply IH in E. cbn. lia.
Qed.

Lemma next_first lower upper sources fuel slot heap :
  pop_heap (init_heap sources) = Some (slot, heap) ->
  next (S fuel) (make_iter lower upper sources) =
  next fuel (state lower upper sources (holding (sl_entry slot) 0) (refill_slot heap slot) false).
Proof.
  intros E. rewrite next_started. unfold next, make_iter, _init.
  cbn [ri_initialized ri_exhausted ri_lower ri_upper ri_sources ri_dedup].
  enough (_next_inner (S fuel) (mk_iter lower upper sources empty_dedup (init_heap sources) true false) =
    _next_inner fuel (state lower upper sources (holding (sl_entry slot) 0) (refill_slot heap slot) false)) as ->; [done|].
  cbn [_next_inner ri_heap]. by rewrite E.
Qed.

(** The items of a whole scan. *)
Definition scan_items (sources : list (Z * list kv)) : list merge_entry_t := heads (pending (init_heap sources)).

Lemma scan_items_sorted sources : sources_ok sources -> scan_sorted (scan_items sources).
Proof.
  intros [Hok Hnp]. destruct (init_heap_ok _ Hok) as [Hsl _].
  destruct (popped_spec (length (heap_entries (init_heap sources))) (init_heap sources) Hsl) as [HP Hs]; [lia|].
  destruct (heads_spec _ Hs) as (H1 & H2 & _). split; [exact H1|]. apply Forall_forall. intros e He.
  destruct (H2 e He) as [Hin _]. rewrite HP, init_heap_entries in Hin.
  apply elem_input_entries in Hin as (l & Hl & Hx). rewrite Forall_forall in Hnp. specialize (Hnp _ Hl). cbn in Hnp.
  rewrite Forall_forall in Hnp. exact (Hnp _ Hx).
Qed.

Lemma collect_all lower upper sources :
  sources_ok sources -> input_entries sources <> [] ->
  exists e, collect (S (total_entries sources)) (total_entries sources) (make_iter lower upper sources) =
    Some (emitted lower upper (scan_items sources), e) /\ error_code e = END_OF_SCAN.
Proof.
  intros Hok Hne. pose proof (scan_items_sorted sources Hok) as Hss. pose proof (init_heap_entries sources) as Hie.
  rewrite total_entries_spec, <- Hie. rewrite <- Hie in Hne. clear Hie.
  destruct (pop_heap (init_heap sources)) as [[slot heap]|] eqn:E; [|apply pop_heap_None in E; by rewrite E in Hne].
  destruct (pending_step _ _ _ E) as [Hp Hl]. unfold scan_items in *. rewrite Hp in *. cbn [heads] in *.
  destruct (dedup_run (sl_entry slot) (pending (refill_slot heap slot))) as [[a last] k] eqn:Er.
  rewrite Hl. set (n := length (heap_entries (refill_slot heap slot))) in *.
  assert (length a <= n) as Hla.
  { apply dedup_run_length in Er. etrans; [exact Er|].
    destruct (init_heap_ok _ (proj1 Hok)) as [Hsl _]. rewrite (proj1 (pop_heap_spec _ _ _ E)) in Hsl.
    apply Forall_cons in Hsl as [H1 H2].
    destruct (popped_spec n (refill_slot heap slot)) as [HP _]; [by apply refilled_sorted|done|].
    apply Permutation_length in HP. change (length (popped n (refill_slot heap slot)) <= n). lia. }
  cbn [collect]. rewrite (next_first _ _ _ _ _ _ E).
  destruct (next_spec lower upper sources n (sl_entry slot) 0 (refill_slot heap slot) a last k ltac:(done) Er Hss)
    as [(kv & cur' & m' & h' & r & k' & -> & Hd & Hl' & -> & [pre Hpre] & Hlen)|[(kv & d & h' & -> & ->)|(e & it' & -> & He & ->)]];
    cbn [mbind option_bind].
  - destruct (collect_spec lower upper sources (S n) (S n) cur' m' h' r last k') as (e & H1 & He); [lia|lia|done| |].
    { subst a. destruct Hss as [H1 H2]. rewrite <- app_assoc in H1, H2. split; [by eapply StronglySorted_app_1_r|].
      by apply Forall_app in H2 as [_ ?]. }
    exists e. cbn [collect] in H1. by rewrite H1.
  - cbn. by eexists.
  - by exists e.
Qed.

(** What is in a scan. *)
Lemma scan_elem lower upper sources k b :
  sources_ok sources -> NoDup sources.*1 ->
  (k, b) ∈ emitted lower upper (scan_items sources) <->
  in_range lower upper k = true /\ exists v, newest sources k v /\ value_from_span v = Ok (VBytes b).
Proof.
  intros Hok Hnd. destruct (scan_items_sorted sources Hok) as [Hs Hnp]. rewrite emitted_spec by done.
  rewrite list_elem_of_omap. destruct (init_heap_ok _ (proj1 Hok)) as [Hsl _].
  destruct (popped_spec (length (heap_entries (init_heap sources))) (init_heap sources) Hsl) as [HP HPs]; [lia|].
  rewrite init_heap_entries in HP at 2. unfold pair_of. split.
  - intros (e & He & Hv). apply list_elem_of_filter in He as [Hin He].
    destruct (value_from_span (me_value e)) as [[]|] eqn:Ev; try done. injection Hv as <- <-. split; [done|].
    exists (me_value e). split; [|done]. by eapply (heads_newest sources _ e (proj1 Hok) Hnd HP HPs).
  - intros (Hin & v & Hnew & Hv).
    destruct (newest_in_heads sources _ k v (proj1 Hok) Hnd HP HPs Hnew) as (h & Hh & <- & <-).
    exists h. split; [by apply list_elem_of_filter|]. by rewrite Hv.
Qed.

Definition pair_lt (a b : bytes * bytes) : Prop := Lex.lt a.1 b.1.

Lemma emitted_sorted lower upper items : StronglySorted key_lt items -> Forall no_pointer items ->
  StronglySorted pair_lt (emitted lower upper items).
Proof.
  intros Hs Hp. rewrite emitted_spec by done. assert (StronglySorted key_lt (filter (fun e => in_range lower upper (me_key e) = true) items))
    as Hf by (by apply StronglySorted_filter). clear Hs Hp.
  induction Hf as [|e l Hl IH Hf]; [constructor|]. cbn [omap list_omap]. destruct (pair_of e) as [kv|] eqn:E; [|done].
  constructor; [done|]. apply Forall_forall. intros kv' Hin. apply list_elem_of_omap in Hin as (e' & He' & E').
  rewrite Forall_forall in Hf. apply Hf in He'. unfold pair_of in E, E'. unfold pair_lt.
  destruct (value_from_span (me_value e)) as [[]|]; try done. destruct (value_from_span (me_value e')) as [[]|]; try done.
  by simplify_eq.
Qed.

(** A scan returns the range. Calling [next] until the end of the scan
    gives, in strictly increasing key order, exactly the pairs whose key is
    between the bounds, both included, and whose value in the newest source
    that has the key is not a tombstone; with at least one entry in the
    sources the scan ends with END_OF_SCAN. *)
Theorem scan_correct (lower upper : option bytes) (sources : list (Z * list kv))
    (Hok : sources_ok sources) (Hepochs : NoDup sources.*1) (Hne : input_entries sources <> []) :
  exists out e,
    collect (S (total_entries sources)) (total_entries sources) (make_iter lower upper sources) = Some (out, e) /\
    error_code e = END_OF_SCAN /\ StronglySorted pair_lt out /\
    forall k b, (k, b) ∈ out <->
      in_range lower upper k = true /\ exists v, newest sources k v /\ value_from_span v = Ok (VBytes b).
Proof.
  destruct (collect_all lower upper sources Hok Hne) as (e & E & He).
  exists (emitted lower upper (scan_items sources)), e. split_ands; [done|done| |].
  - destruct (scan_items_sorted sources Hok). by apply emitted_sorted.
  - intros k b. by apply scan_elem.
Qed.

(** A scan over sources without any entry throws: the first call of
    [next] takes the last item of an empty deduplicator. *)
Theorem empty_scan_throws (lower upper : option bytes) (sources : list (Z * list kv)) (fuel : nat)
    (Hempty : input_entries sources = []) :
  next fuel (make_iter lower upper sources) = None.
Proof.
  assert (init_heap sources = []) as E.
  { destruct (init_heap sources) eqn:E; [done|]. rewrite <- init_heap_entries, E in Hempty. discriminate Hempty. }
  unfold next, make_iter, _init. cbn [ri_initialized ri_exhausted ri_sources]. rewrite E. by destruct fuel.
Qed.

Lemma empty_scan_witness : next 5 (make_iter (Some [1]%Z) None [(3%Z, [])]) = None.
Proof. exact (empty_scan_throws (Some [1]%Z) None [(3%Z, [])] 5 eq_refl). Defined.

Lemma scan_correct_witness :
  let sources := [(2, [([1], [1; 7]); ([4], [2])]); (1, [([1], [1; 5]); ([2], [1; 6]); ([9], [1; 0])])]%Z in
  exists out e,
    collect 6 5 (make_iter (Some [1]%Z) (Some [8]%Z) sources) = Some (out, e) /\
    error_code e = END_OF_SCAN /\ StronglySorted pair_lt out /\
    forall k b, (k, b) ∈ out <->
      in_range (Some [1]%Z) (Some [8]%Z) k = true /\ exists v, newest sources k v /\ value_from_span v = Ok (VBytes b).
Proof.
  intros sources. apply (scan_correct (Some [1]%Z) (Some [8]%Z) sources).
  - split; repeat constructor; try (vm_compute; reflexivity); intros p; vm_compute; discriminate.
  - apply NoDup_cons; split; [|apply NoDup_singleton]. intros H. apply list_elem_of_singleton in H. discriminate H.
  - discriminate.
Defined.

(** ** What a cursor delivers *)

Fixpoint drop_while {A} (f : A -> bool) (l : list A) : list A :=
  match l with
  | [] => []
  | x :: l' => if f x then drop_while f l' else l
  end.

(** The entries between [it] and [end_]. *)
Definition segment {A} (l : list A) (it end_ : nat) : list A := read_at l it (end_ - it).

Lemma segment_cons {A} (l : list A) it end_ x :
  l !! it = Some x -> it < end_ -> segment l it end_ = x :: segment l (S it) end_.
Proof.
  intros Hx Hlt. unfold segment, read_at. rewrite (drop_S _ _ _ Hx).
  by replace (end_ - it) with (S (end_ - S it)) by lia.
Qed.

Lemma segment_nil {A} (l : list A) it : segment l it it = [].
Proof. unfold segment, read_at. by rewrite Nat.sub_diag. Qed.

Lemma skip_while_spec skip table end_ fuel it :
  it <= end_ <= length table -> end_ - it <= fuel ->
  exists it', skip_while fuel skip table it end_ = Some it' /\ it <= it' <= end_ /\
    segment table it' end_ = drop_while skip (segment table it end_).
Proof.
  revert it. induction fuel as [|fuel IH]; intros it Hit Hf; cbn [skip_while].
  { destruct (Nat.eqb_spec it end_) as [->|]; [|lia]. exists end_. split_ands; [done|lia|lia|]. by rewrite segment_nil. }
  destruct (Nat.eqb_spec it end_) as [->|Hne].
  { exists end_. split_ands; [done|lia|lia|]. by rewrite segment_nil. }
  destruct (lookup_lt_is_Some_2 table it) as [e He]; [lia|]. rewrite He. cbn [mbind option_bind].
  rewrite (segment_cons _ _ _ _ He) by lia. cbn [drop_while]. destruct (skip e); cbn [negb].
  - destruct (IH (S it)) as (it' & E & H1 & H2); [lia|lia|]. exists it'. split_ands; [done|lia|lia|done].
  - exists it. split_ands; [done|lia|lia|]. by rewrite (segment_cons _ _ _ _ He) by lia.
Qed.

(** The entries as the cursor walks over them: after each one, the
    invisible entries, then the other versions of its key. *)
Fixpoint walk (fuel : nat) (max_seq : Z) (l : list memtable_entry) : list memtable_entry :=
  match fuel, l with
  | S fuel, e :: l =>
      e :: walk fuel max_seq
        (drop_while (fun x => Lex.eqb (mt_key x) (mt_key e)) (drop_while (fun x => max_seq <? mt_seq x)%Z l))
  | _, _ => []
  end.

Definition mt_pair (e : memtable_entry) : kv := (mt_key e, mt_value e).

Lemma cursor_entries_spec fuel table it end_ max_seq epoch :
  it <= end_ <= length table -> end_ - it <= fuel ->
  cursor_entries fuel (mk_cursor table it end_ max_seq epoch) = Some (mt_pair <$> walk fuel max_seq (segment table it end_)).
Proof.
  revert it. induction fuel as [|fuel IH]; intros it Hit Hf; cbn [cursor_entries]; unfold mc_is_eof;
    cbn [mc_it mc_end]; (destruct (Nat.eqb_spec it end_) as [->|Hne]; [by rewrite segment_nil|]); [lia|].
  destruct (lookup_lt_is_Some_2 table it) as [e He]; [lia|]. rewrite (segment_cons _ _ _ _ He) by lia.
  unfold mc_pop_front, mc_front. cbn [mc_table mc_it]. rewrite He. cbn [mbind option_bind].
  unfold _skip_invisible. cbn [mc_table mc_it mc_end mc_max_seq mc_epoch].
  destruct (skip_while_spec (fun e => max_seq <? mt_seq e)%Z table end_ (length table) (S it)) as (i1 & -> & H1 & S1); [lia|lia|].
  cbn [mbind option_bind]. unfold _skip_duplicate_keys. cbn [mc_table mc_it mc_end mc_max_seq mc_epoch].
  destruct (skip_while_spec (fun x => Lex.eqb (mt_key x) (mt_key e)) table end_ (length table) i1) as (i2 & -> & H2 & S2); [lia|lia|].
  cbn [mbind option_bind]. rewrite IH by lia. cbn [mbind option_bind walk]. by rewrite fmap_cons, S2, S1.
Qed.

Lemma drop_while_none {A} (f : A -> bool) l : Forall (fun x => f x = false) l -> drop_while f l = l.
Proof. intros [|x l' Hx]; cbn; [done|]. by rewrite Hx. Qed.

Lemma drop_while_suffix {A} (f : A -> bool) l : suffix (drop_while f l) l.
Proof. induction l as [|x l IH]; [done|]. cbn. destruct (f x); [by apply suffix_cons_r|done]. Qed.

Lemma newest_drop_while k l :
  newest_versions (Some k) l = newest_versions (Some k) (drop_while (fun x => Lex.eqb (mt_key x) k) l).
Proof.
  induction l as [|e l IH]; [done|]. cbn [drop_while]. destruct (Lex.eqb (mt_key e) k) eqn:E; [|done].
  apply Lex.eqb_eq in E. cbn [newest_versions]. by rewrite bool_decide_eq_true_2 by (by rewrite E).
Qed.

Lemma newest_head k l :
  newest_versions (Some k) (drop_while (fun x => Lex.eqb (mt_key x) k) l) =
  newest_versions None (drop_while (fun x => Lex.eqb (mt_key x) k) l).
Proof.
  induction l as [|e l IH]; [done|]. cbn [drop_while]. destruct (Lex.eqb (mt_key e) k) eqn:E; [exact IH|].
  cbn [newest_versions]. rewrite bool_decide_eq_false_2; [done|]. intros [= ->]. by rewrite Lex.eqb_refl in E.
Qed.

(** When every entry is visible the walk keeps what a flush keeps. *)
Lemma walk_newest fuel max_seq l : length l <= fuel -> Forall (fun e => mt_seq e <= max_seq)%Z l ->
  walk fuel max_seq l = newest_versions None l.
Proof.
  revert l. induction fuel as [|fuel IH]; intros [|e l] Hf Hv; cbn [length] in Hf; try done; [lia|].
  apply Forall_cons in Hv as [_ Hv]. cbn [walk]. rewrite (drop_while_none (fun x => max_seq <? mt_seq x)%Z l).
  2:{ eapply Forall_impl; [exact Hv|]. intros x Hx. cbv beta. by apply Z.ltb_ge. }
  cbn [newest_versions]. rewrite bool_decide_eq_false_2 by done. f_equal. rewrite newest_drop_while, newest_head.
  destruct (drop_while_suffix (fun x => Lex.eqb (mt_key x) (mt_key e)) l) as [pre Hpre]. apply IH.
  - apply (f_equal length) in Hpre. rewrite length_app in Hpre. lia.
  - rewrite Hpre in Hv. by apply Forall_app in Hv as [_ ?].
Qed.

Section cursor.
Context (seq_nr : Z) (table : list memtable_entry) (Hmax : (seq_nr <= UINT64_MAX)%Z) (Htable : table_ok seq_nr table).

(** The search finds the first entry whose key is not below [key]. *)
Lemma lower_bound_key key :
  let r := skiplist_lower_bound table key in
  r <= length table /\
  (forall i e, i < r -> table !! i = Some e -> Lex.lt (mt_key e) key) /\
  (forall i e, r <= i -> table !! i = Some e -> Lex.le key (mt_key e)).
Proof.
  destruct Htable as [Hs Hf]. set (less := fun x => memtable_cmp x (mk_mt_entry key UINT64_MAX [])).
  assert (forall e, e ∈ table -> less e = true <-> Lex.lt (mt_key e) key) as Hless.
  { intros e He. unfold less. rewrite memtable_cmp_lt. unfold mt_lt. cbn. rewrite Forall_forall in Hf.
    apply Hf in He. split; [|auto]. intros [|[_ ?]]; [done|lia]. }
  assert (prefix_pred table less) as Hp.
  { intros i j x y Hij Hx Hy Hl. unfold less in *. rewrite memtable_cmp_lt in *.
    destruct (decide (i = j)) as [->|Hne]; [congruence|]. eapply mt_lt_trans; [|exact Hl].
    eapply (StronglySorted_lookup mt_lt table i j); try done; lia. }
  destruct (lower_bound_spec table less Hp) as (Hr & Hlo & Hhi). cbv zeta. split_ands; [exact Hr| |].
  - intros i e Hi He. apply Hless; [by eapply list_elem_of_lookup_2|]. by eapply Hlo.
  - intros i e Hi He. pose proof (Hhi i e Hi He) as Hn. apply Lex.ltb_ge.
    destruct (Lex.ltb (mt_key e) key) eqn:E; [|done]. apply Lex.ltb_lt in E.
    apply (Hless e (list_elem_of_lookup_2 _ _ _ He)) in E. congruence.
Qed.

Lemma lower_bound_mono l u : Lex.le l u -> skiplist_lower_bound table l <= skiplist_lower_bound table u.
Proof.
  intros Hle. destruct (lower_bound_key l) as (Hl & Hlo & _), (lower_bound_key u) as (_ & _ & Hhi).
  destruct (decide (skiplist_lower_bound table l <= skiplist_lower_bound table u)) as [|Hn]; [done|].
  destruct (lookup_lt_is_Some_2 table (skiplist_lower_bound table u)) as [e He]; [lia|].
  pose proof (Hlo (skiplist_lower_bound table u) e ltac:(lia) He) as H1.
  pose proof (Hhi (skiplist_lower_bound table u) e ltac:(lia) He) as H2.
  exfalso. eapply Lex.lt_not_le; [exact H1|]. by eapply Lex.le_trans.
Qed.

Definition cursor_begin (lower : option bytes) : nat :=
  match lower with Some l => skiplist_lower_bound table l | None => 0 end.

Definition cursor_end (upper : option bytes) : nat :=
  let end_ := match upper with Some u => skiplist_lower_bound table u | None => length table end in
  if (end_ =? length table)%nat then end_ else S end_.

Lemma cursor_bounds lower upper :
  (forall l u, lower = Some l -> upper = Some u -> Lex.le l u) ->
  cursor_begin lower <= cursor_end upper <= length table.
Proof.
  intros Hlu. assert (cursor_begin lower <= match upper with Some u => skiplist_lower_bound table u | None => length table end <= length table) as Hb.
  { unfold cursor_begin. destruct lower as [l|], upper as [u|].
    - split; [apply lower_bound_mono; by apply Hlu|apply (lower_bound_key u)].
    - split; [apply (lower_bound_key l)|done].
    - split; [lia|apply (lower_bound_key u)].
    - lia. }
  unfold cursor_end. destruct (Nat.eqb_spec (match upper with Some u => skiplist_lower_bound table u | None => length table end) (length table)); lia.
Qed.

Lemma first_value_split a b key :
  first_value (a ++ b) key = match first_value a key with Some v => Some v | None => first_value b key end.
Proof. induction a as [|e a IH]; [done|]. cbn. by destruct (Lex.eqb (mt_key e) key). Qed.

(** Between its bounds the segment decides. *)
Lemma first_value_segment lower upper key :
  (forall l u, lower = Some l -> upper = Some u -> Lex.le l u) -> in_range lower upper key = true ->
  first_value (segment table (cursor_begin lower) (cursor_end upper)) key = first_value table key.
Proof.
  intros Hlu Hin. destruct (cursor_bounds lower upper Hlu) as [Hbe He]. unfold in_range in Hin.
  apply andb_true_iff in Hin as [Hlo Hup]. rewrite negb_true_iff in Hlo, Hup.
  rewrite <- (take_drop (cursor_begin lower) table) at 2. rewrite first_value_app.
  2:{ apply Forall_forall. intros e Hin Hk. unfold cursor_begin in Hin. destruct lower as [l|]; [|by apply not_elem_of_nil in Hin].
      apply list_elem_of_lookup in Hin as [i Hi]. apply lookup_take_Some in Hi as [Hi Hlt].
      pose proof (proj1 (proj2 (lower_bound_key l)) i e Hlt Hi) as H. rewrite Hk in H.
      apply Lex.ltb_lt in H. congruence. }
  rewrite <- (take_drop (cursor_end upper - cursor_begin lower) (drop (cursor_begin lower) table)), first_value_split.
  fold (read_at table (cursor_begin lower) (cursor_end upper - cursor_begin lower)).
  fold (segment table (cursor_begin lower) (cursor_end upper)).
  destruct (first_value (segment table (cursor_begin lower) (cursor_end upper)) key) as [v|] eqn:E; [done|].
  rewrite drop_drop. replace (cursor_begin lower + (cursor_end upper - cursor_begin lower)) with (cursor_end upper) by lia.
  symmetry. apply first_value_None. apply Forall_forall. intros e Hin Hk.
  apply list_elem_of_lookup in Hin as [i Hi]. rewrite lookup_drop in Hi. pose proof (lookup_lt_Some _ _ _ Hi) as Hlt.
  unfold cursor_end in Hi, Hlt. destruct upper as [u|]; [|rewrite Nat.eqb_refl in Hlt; lia].
  destruct (Nat.eqb_spec (skiplist_lower_bound table u) (length table)) as [|Hne]; [lia|].
  destruct (lower_bound_key u) as (_ & _ & Hhi). set (r := skiplist_lower_bound table u) in *.
  destruct (lookup_lt_is_Some_2 table r) as [x Hx]; [lia|].
  assert (mt_lt x e) as Hxe by (eapply (StronglySorted_lookup mt_lt table r (S r + i)); [apply Htable|lia|done|done]).
  apply Lex.ltb_ge in Hup. pose proof (Hhi r x ltac:(lia) Hx) as Hux.
  assert (mt_key x = key) as Hxk.
  { destruct Hxe as [Hl|[Hq _]]; [|congruence]. exfalso. rewrite Hk in Hl.
    eapply Lex.lt_not_le; [exact Hl|]. by eapply Lex.le_trans. }
  assert (x ∈ segment table (cursor_begin lower) (cursor_end (Some u))) as Hxs.
  { apply list_elem_of_lookup. exists (r - cursor_begin lower). unfold segment. rewrite lookup_read_at.
    assert (cursor_begin lower <= r) as Hbr.
    { unfold cursor_begin. destruct lower as [l|]; [|lia]. apply lower_bound_mono. by apply Hlu. }
    assert (cursor_end (Some u) = S r) as -> by (unfold cursor_end; fold r; by rewrite (proj2 (Nat.eqb_neq _ _) Hne)).
    rewrite decide_True by lia. by replace (cursor_begin lower + (r - cursor_begin lower)) with r by lia. }
  clear -E Hxs Hxk. induction (segment table (cursor_begin lower) (cursor_end (Some u))) as [|y l IH]; [by apply not_elem_of_nil in Hxs|].
  cbn in E. destruct (Lex.eqb (mt_key y) key) eqn:Ey; [done|]. apply elem_of_cons in Hxs as [->|Hxs]; [|by apply IH].
  by rewrite Hxk, Lex.eqb_refl in Ey.
Qed.

Lemma segment_Forall (P : memtable_entry -> Prop) a b : Forall P table -> Forall P (segment table a b).
Proof. intros H. unfold segment, read_at. by apply Forall_take, Forall_drop. Qed.

Lemma segment_sorted a b : StronglySorted mt_lt (segment table a b).
Proof.
  destruct Htable as [Hs _]. unfold segment, read_at. rewrite <- (take_drop a table) in Hs.
  apply StronglySorted_app_1_r in Hs. rewrite <- (take_drop (b - a) (drop a table)) in Hs. by eapply StronglySorted_app_1_l.
Qed.

(** What a cursor over visible entries is to the iterator. *)
Lemma cursor_run lower upper epoch max_seq :
  (forall l u, lower = Some l -> upper = Some u -> Lex.le l u) -> Forall (fun e => mt_seq e <= max_seq)%Z table ->
  exists c run, make_cursor table lower upper epoch max_seq = Some c /\
    cursor_entries (length table) c = Some run /\ sorted_kvs run /\
    (forall x, x ∈ run -> exists e, e ∈ table /\ x = mt_pair e) /\
    (forall key, in_range lower upper key = true -> assoc key run = first_value table key).
Proof.
  intros Hlu Hv. destruct (cursor_bounds lower upper Hlu) as [Hbe He].
  set (seg := segment table (cursor_begin lower) (cursor_end upper)).
  assert (Forall (fun e => mt_seq e <= max_seq)%Z seg) as Hvs by (by apply segment_Forall).
  destruct (skip_while_spec (fun e => max_seq <? mt_seq e)%Z table (cursor_end upper) (length table) (cursor_begin lower))
    as (it & Es & Hit & Hseg); [lia|lia|]. fold seg in Hseg. rewrite drop_while_none in Hseg.
  2:{ eapply Forall_impl; [exact Hvs|]. intros x Hx. cbv beta. by apply Z.ltb_ge. }
  eexists _, _. split.
  { unfold make_cursor, _skip_invisible. cbn [mc_table mc_it mc_end mc_max_seq mc_epoch].
    fold (cursor_begin lower). fold (cursor_end upper). rewrite Es. done. }
  rewrite cursor_entries_spec by lia. rewrite Hseg. split; [done|].
  assert (length seg <= length table) as Hlen.
  { unfold seg, segment, read_at. rewrite length_take, length_drop. lia. }
  rewrite walk_newest by done. pose proof (segment_sorted (cursor_begin lower) (cursor_end upper)) as Hss.
  destruct (newest_versions_spec None seg Hss) as (H1 & H2 & _); [done|]. split_ands.
  - by apply mt_sorted_kvs.
  - intros x Hx. apply list_elem_of_fmap in Hx as (e & -> & Hin). exists e. split; [|done].
    destruct (H2 e Hin) as [Hin' _]. unfold seg, segment, read_at in Hin'.
    apply list_elem_of_lookup in Hin' as [i Hi]. apply lookup_take_Some in Hi as [Hi _]. rewrite lookup_drop in Hi.
    by eapply list_elem_of_lookup_2.
  - intros key Hin. etrans; [by apply (assoc_newest None seg key)|]. by apply first_value_segment.
Qed.
End cursor.

(** A memtable cursor delivers the range. When no entry is newer than
    the snapshot, the cursor over a table gives its entries in strictly
    increasing key order, each from the table, and for every key between
    the bounds, both included, the value a lookup in the table finds. *)
Theorem cursor_correct (seq_nr : Z) (table : list memtable_entry) (lower upper : option bytes) (epoch max_seq : Z)
    (Hmax : (seq_nr <= UINT64_MAX)%Z) (Htable : table_ok seq_nr table)
    (Hvisible : Forall (fun e => mt_seq e <= max_seq)%Z table)
    (Hbounds : forall l u, lower = Some l -> upper = Some u -> Lex.le l u) :
  exists c run, make_cursor table lower upper epoch max_seq = Some c /\
    cursor_entries (length table) c = Some run /\ sorted_kvs run /\
    (forall x, x ∈ run -> exists e, e ∈ table /\ x = mt_pair e) /\
    (forall key, in_range lower upper key = true -> assoc key run = skiplist_get table key).
Proof.
  destruct (cursor_run seq_nr table Hmax Htable lower upper epoch max_seq Hbounds Hvisible)
    as (c & run & H1 & H2 & H3 & H4 & H5). exists c, run. split_ands; try done.
  intros key Hin. rewrite (skiplist_get_spec seq_nr) by done. by apply H5.
Qed.

Lemma cursor_correct_witness :
  let table := [mk_mt_entry [1] 5 [1]; mk_mt_entry [1] 2 [2]; mk_mt_entry [3] 4 [1]; mk_mt_entry [4] 1 [2]]%Z in
  exists c run, make_cursor table (Some [1]%Z) (Some [3]%Z) 7 9 = Some c /\
    cursor_entries 4 c = Some run /\ sorted_kvs run /\
    (forall x, x ∈ run -> exists e, e ∈ table /\ x = mt_pair e) /\
    (forall key, in_range (Some [1]%Z) (Some [3]%Z) key = true -> assoc key run = skiplist_get table key).
Proof.
  intros table. apply (cursor_correct 6 table (Some [1]%Z) (Some [3]%Z) 7 9).
  - vm_compute. discriminate.
  - split; repeat constructor; unfold mt_lt; simpl; (by left) || (right; split; [done|lia]).
  - repeat constructor; vm_compute; discriminate.
  - intros l u [= <-] [= <-]. vm_compute. discriminate.
Defined.

(** C36: a scan can return a version newer than its snapshot, and miss the
    version it should return. The cursor skips invisible entries before the
    other versions of the key it leaves, so the first entry of the next key
    is not checked; and it ends behind the newest version of the upper
    bound, so an older, visible version of that key is out of its reach. *)
Theorem cursor_breaks_snapshot :
  let e key seq value := mk_mt_entry [key] seq [1; value]%Z in
  let leak := [e 1 2 10; e 1 1 11; e 2 9 12; e 2 0 13]%Z in
  let missed := [e 2 9 12; e 2 0 13]%Z in
  (exists c, make_cursor leak None None 7 5 = Some c /\
     cursor_entries 4 c = Some [([1], [1; 10]); ([2], [1; 12])]%Z) /\
  (exists c, make_cursor missed None (Some [2]%Z) 7 5 = Some c /\ cursor_entries 2 c = Some []) /\
  Forall (fun e => mt_key e = [2]%Z -> mt_value e = [1; 12]%Z -> (5 < mt_seq e)%Z) leak /\
  Exists (fun e => mt_key e = [2]%Z /\ (mt_seq e <= 5)%Z) missed.
Proof.
  intros e leak missed. split_ands; [by eexists|by eexists| |].
  - repeat constructor; cbn; intros; try discriminate; lia.
  - apply Exists_cons_tl, Exists_cons_hd. cbn. split; [done|lia].
Qed.

(** Inverted bounds are not an empty range. With the lower bound above
    the upper one the cursor starts behind its end and runs off the
    skiplist. *)
Theorem inverted_cursor_overruns :
  let table := [mk_mt_entry [1] 0 [1]; mk_mt_entry [2] 1 [1]; mk_mt_entry [3] 2 [1]]%Z in
  exists c, make_cursor table (Some [3]%Z) (Some [1]%Z) 7 5 = Some c /\ mc_is_eof c = false /\
    forall fuel, cursor_entries fuel c = None.
Proof.
  eexists. split; [reflexivity|]. split; [done|]. intros [|[|fuel]]; done.
Qed.
