(* ===== verification/Scan.v ===== *)
(** * Scans of a partition (src/db/range_iterator.cc, src/db/database.cc)

    [range_iterator::make_new] collects the sources of a scan from the
    tables of a memtable snapshot and the SSTs of a partition, and
    [database::scan] chooses the partition. The scan is shown to return
    what the newest of them has for every key of the range. *)

From stdpp Require Import base list numbers strings sorting sets.
From Stdlib Require Import ZArith Lia.
From S2P Require Import Prelude StdAlgo Types Utils Block BlockBuffer Merge Sst SstStream SstFile SstManager Lsm.
From S2P Require Import Memtable RangeIterator.

Abbreviation table_t := (list memtable_entry).

(** A snapshot of the memtable: the current table with the sequence number
    up to which it is visible, and the pending flushes by epoch. *)
Record snapshot := mk_snapshot {
  sn_seq_nr : Z;
  sn_curr : option table_t;
  sn_pending : list (Z * table_t);
}.

(** [acquire_snapshot] *)
Definition acquire_snapshot (m : memtable) : snapshot :=
  mk_snapshot (m_seq_nr m) (Some (mb_entries (m_table m))) (prod_map id mb_entries <$> m_pending m).

Section scan.
Context (xxh64_hash : bytes -> Z -> Z).

(** The SSTs that overlap the range with their pages, and the pending
    flushes left when those already among them are dropped. *)
Fixpoint match_ssts (lower upper : option bytes) (ssts : list sst) (pending : list (Z * table_t))
    : list (sst * (nat * nat)) * list (Z * table_t) :=
  match ssts with
  | [] => ([], pending)
  | s :: ssts =>
      match find_range KEYS_PER_META_INDEX_PAGE (st_meta_index s) (st_super_index s) lower upper with
      | None => match_ssts lower upper ssts pending
      | Some range =>
          let '(matching, pending) :=
            match_ssts lower upper ssts (filter (fun p => p.1 <> f_epoch (st_footer s)) pending) in
          ((s, range) :: matching, pending)
      end
  end.

(** The reader of an SST's pages. Without pages the last page id is -1,
    and the range ends where the index begins. *)
Definition range_stream (direct : bool) (read_ahead : nat) (s : sst) (range : nat * nat) : sst_stream :=
  let index_offset := Z.to_nat (f_index_offset (st_footer s)) in
  let last_1 := match st_meta_index s with [] => 0 | _ => range.2 + 1 end in
  make_stream (make_file_reader (st_file s) direct (index_offset + range.1 * PAGE_SIZE_IN_BYTES)
                 (index_offset + last_1 * PAGE_SIZE_IN_BYTES) read_ahead).

Definition cursor_source (table : table_t) (lower upper : option bytes) (epoch max_seq : Z) : option (Z * list kv) :=
  c ← make_cursor table lower upper epoch max_seq;
  run ← cursor_entries (length table) c;
  Some (epoch, run).

Definition sst_source (fuel : nat) (direct : bool) (read_ahead : nat) (m : sst * (nat * nat)) : option (Z * list kv) :=
  run ← stream_entries xxh64_hash fuel (range_stream direct read_ahead m.1 m.2);
  Some (f_epoch (st_footer m.1), run).

(** [make_new] with the sources given as what they deliver; the fuel is
    for the streams. *)
Definition make_new (fuel : nat) (direct : bool) (snap : snapshot) (partition : option (list (list sst)))
    (lower upper : option bytes) (read_ahead_size : nat) : option range_iterator :=
  let '(matching, pending) := match_ssts lower upper (mjoin (default [] partition)) (sn_pending snap) in
  let read_ahead := match partition with
                    | Some _ => Z.to_nat (ceil_page_align (Z.of_nat read_ahead_size))
                    | None => read_ahead_size
                    end in
  streams ← mapM (sst_source fuel direct read_ahead) matching;
  curr ← match sn_curr snap with
         | None => Some []
         | Some t => s ← cursor_source t lower upper UINT64_MAX (sn_seq_nr snap); Some [s]
         end;
  flushes ← mapM (fun p => cursor_source p.2 lower upper p.1 UINT64_MAX) pending;
  Some (make_iter lower upper (streams ++ curr ++ flushes)).

(** [database::scan]: [None] when neither bound is given, which the code
    dereferences. *)
Definition scan_partition_id (num_partition_exponent : Z) (lower upper : option bytes) : option Z :=
  bound ← match lower with Some l => Some l | None => upper end;
  Some (find_partition_prefix_for_key bound (partition_size num_partition_exponent)).

Definition database_scan (fuel : nat) (direct : bool) (num_partition_exponent : Z) (m : option memtable)
    (partitions : Z -> option (list (list sst))) (lower upper : option bytes) (read_ahead_size : nat)
    : option (expected range_iterator) :=
  partition_id ← scan_partition_id num_partition_exponent lower upper;
  let snap := match m with Some m => acquire_snapshot m | None => mk_snapshot 0 None [] end in
  match partitions partition_id with
  | None => Some (Err (mk_error "Partition not found in sorted indices" KEY_NOT_FOUND))
  | Some p => it ← make_new fuel direct snap (Some p) lower upper read_ahead_size; Some (Ok it)
  end.
End scan.

(** ** The sources of a scan *)

Section sources.
Context (xxh64_hash : bytes -> Z -> Z) (lower upper : option bytes).

(** The SST object [s] stores [items]. *)
Record sst_holds (s : sst) (items : list kv) : Prop := {
  sh_pages : exists pages rest, st_file s = pages ++ rest /\ sst_rep xxh64_hash pages (st_meta_index s) items;
  sh_super : st_super_index s = None \/
    st_super_index s = Some (create_super_index KEYS_PER_META_INDEX_PAGE (st_meta_index s));
  sh_offset : f_index_offset (st_footer s) = 0%Z;
  sh_run : run_ok items;
}.

(** A part of a run that has all its keys of the range. *)
Record covers (run items : list kv) : Prop := {
  cv_sorted : sorted_kvs run;
  cv_incl : forall x, x ∈ run -> x ∈ items;
  cv_range key : in_range lower upper key = true -> assoc key run = assoc key items;
}.

Lemma in_range_bounds key : in_range lower upper key = true ->
  (forall l, lower = Some l -> Lex.le l key) /\ (forall u, upper = Some u -> Lex.le key u).
Proof.
  unfold in_range. rewrite andb_true_iff, !negb_true_iff. intros [Hl Hu].
  split; [intros l ->|intros u ->]; by apply Lex.ltb_ge.
Qed.

Lemma sublist_covers run items : sorted_kvs items -> sorted_kvs run -> (forall x, x ∈ run -> x ∈ items) ->
  (forall x, x ∈ items -> in_range lower upper x.1 = true -> x ∈ run) -> covers run items.
Proof.
  intros Hs Hr Hin Hcov. split; [done|done|]. intros key Hk.
  destruct (assoc key items) as [v|] eqn:E.
  - apply assoc_elem in E; [|done]. apply assoc_elem; [done|]. by apply Hcov.
  - destruct (assoc key run) as [v|] eqn:E'; [|done]. apply assoc_elem in E'; [|done]. apply Hin in E'.
    apply assoc_elem in E'; [|done]. congruence.
Qed.

Lemma pages_sorted chunks first last : sorted_kvs (concat chunks) -> sorted_kvs (pages_entries chunks first last).
Proof.
  unfold pages_entries, read_at, sorted_kvs. intros Hs. rewrite <- (take_drop first chunks), concat_app in Hs.
  apply StronglySorted_app_1_r in Hs. rewrite <- (take_drop (S last - first) (drop first chunks)), concat_app in Hs.
  by apply StronglySorted_app_1_l in Hs.
Qed.

Lemma pages_elem chunks first last x :
  x ∈ pages_entries chunks first last <-> exists i c, chunks !! i = Some c /\ x ∈ c /\ first <= i <= last.
Proof.
  unfold pages_entries. rewrite elem_chunk. split.
  - intros (i & c & Hi & Hx). rewrite lookup_read_at in Hi. case_decide; [|done].
    exists (first + i), c. split_ands; [done|done|lia|lia].
  - intros (i & c & Hi & Hx & Hl). exists (i - first), c. rewrite lookup_read_at, decide_True by lia.
    by replace (first + (i - first)) with i by lia.
Qed.

Lemma range_last_lt chunks super first last :
  Forall (fun c => c <> []) chunks -> sorted_kvs (concat chunks) -> chunks <> [] ->
  super = None \/ super = Some (create_super_index KEYS_PER_META_INDEX_PAGE (last_key [] <$> chunks)) ->
  find_range KEYS_PER_META_INDEX_PAGE (last_key [] <$> chunks) super lower upper = Some (first, last) ->
  last < length chunks.
Proof.
  intros Hne Hs Hnil Hsup Hf. assert (0 < length chunks) as Hlen by (destruct chunks; [done|cbn; lia]).
  assert (last = match upper with None => length (last_key [] <$> chunks) - 1
    | Some u => default (length (last_key [] <$> chunks) - 1) (_find_page_id KEYS_PER_META_INDEX_PAGE (last_key [] <$> chunks) super u) end) as ->.
  { unfold find_range in Hf. destruct lower as [l|]; [|by injection Hf as _ <-].
    destruct (_find_page_id _ _ super l); [|done]. by injection Hf as _ <-. }
  rewrite length_fmap. destruct upper as [u|]; [|lia].
  pose proof (find_page_spec chunks Hne Hs KEYS_PER_META_INDEX_PAGE super u ltac:(vm_compute; lia) Hsup) as Hp.
  destruct (_find_page_id _ _ super u) as [p|]; cbn; [|lia]. destruct Hp as (c & Hc & _). by apply lookup_lt_Some in Hc.
Qed.

Lemma sst_source_spec fuel direct read_ahead s items first last :
  sst_holds s items ->
  find_range KEYS_PER_META_INDEX_PAGE (st_meta_index s) (st_super_index s) lower upper = Some (first, last) ->
  length items <= fuel -> (0 < Z.of_nat read_ahead < 2 ^ 63)%Z ->
  exists run, sst_source xxh64_hash fuel direct read_ahead (s, (first, last)) = Some (f_epoch (st_footer s), run) /\ covers run items.
Proof.
  intros [(pages & rest & Hfile & Hrep) Hsup Hoff [Hs Hitems]] Hr Hf Ha.
  assert (Forall (fun x => 1 <= length x.1 < MAX_KEY_LEN) items) as Hk by (eapply Forall_impl; [exact Hitems|]; by intros x [? _]).
  destruct (sst_rep_pages _ _ _ _ Hrep Hk) as (chunks & Hcat & Hp & Hl & Hne & Hshort & Hmeta).
  unfold sst_source, range_stream. cbn [fst snd]. rewrite Hoff, Hfile. cbn [Z.to_nat Nat.add].
  rewrite Hmeta in *. subst items.
  destruct (decide (chunks = [])) as [->|Hnil].
  { assert (forall f, stream_entries xxh64_hash f (make_stream (make_file_reader (pages ++ rest) direct
      (first * PAGE_SIZE_IN_BYTES) (0 * PAGE_SIZE_IN_BYTES) read_ahead)) = Some []) as Hz by (by intros []).
    rewrite fmap_nil, Hz. exists []. split; [done|]. by split; [constructor| |]. }
  assert (match last_key [] <$> chunks with [] => 0 | _ :: _ => last + 1 end = last + 1) as -> by (by destruct chunks).
  pose proof (range_last_lt _ _ _ _ Hne Hs Hnil Hsup Hr) as Hlast.
  pose proof (find_range_spec chunks KEYS_PER_META_INDEX_PAGE (st_super_index s) lower upper Hne Hs ltac:(vm_compute; lia) Hsup) as Hcov.
  rewrite Hr in Hcov. exists (pages_entries chunks first last). split.
  - destruct (decide (first <= S last)) as [Hle|Hgt].
    + rewrite (entries_delivers xxh64_hash fuel (pages_entries chunks first last)); [done| |].
      * by apply (make_delivers xxh64_hash pages rest chunks direct first last read_ahead).
      * etrans; [|exact Hf]. unfold pages_entries, read_at.
        rewrite <- (take_drop first chunks) at 2. rewrite <- (take_drop (S last - first) (drop first chunks)) at 2.
        rewrite !concat_app, !length_app. lia.
    + unfold pages_entries. replace (S last - first) with 0 by lia.
      assert (ss_is_eof (make_stream (make_file_reader (pages ++ rest) direct (first * PAGE_SIZE_IN_BYTES)
        ((last + 1) * PAGE_SIZE_IN_BYTES) read_ahead)) = true) as He.
      { unfold ss_is_eof, fr_is_eof, make_stream, make_file_reader. cbn [ss_reader fr_end_offset fr_current_offset ss_buffer_empty ss_buffers].
        rewrite andb_true_r. apply Nat.leb_le. apply Nat.mul_le_mono_r. lia. }
      assert (forall f, stream_entries xxh64_hash f (make_stream (make_file_reader (pages ++ rest) direct
        (first * PAGE_SIZE_IN_BYTES) ((last + 1) * PAGE_SIZE_IN_BYTES) read_ahead)) = Some []) as ->; [|done].
      intros f. destruct f; cbn [stream_entries]; by rewrite He.
  - apply sublist_covers; [done|by apply pages_sorted| |].
    + intros x Hx. apply pages_elem in Hx as (i & c & Hi & Hx & _). apply elem_chunk. by exists i, c.
    + intros x Hx Hin. destruct (in_range_bounds _ Hin) as [H1 H2]. apply elem_chunk in Hx as (i & c & Hi & Hx).
      apply pages_elem. exists i, c. split_ands; [done|done|..]; by eapply Hcov.
Qed.

Lemma sst_no_range s items key :
  sst_holds s items ->
  find_range KEYS_PER_META_INDEX_PAGE (st_meta_index s) (st_super_index s) lower upper = None ->
  in_range lower upper key = true -> assoc key items = None.
Proof.
  intros [(pages & rest & Hfile & Hrep) Hsup Hoff [Hs Hitems]] Hr Hin.
  destruct (sr_chunks _ _ _ _ Hrep) as (chunks & Hcat & _ & Hne & _ & Hmeta). rewrite Hmeta in *. subst items.
  pose proof (find_range_spec chunks KEYS_PER_META_INDEX_PAGE (st_super_index s) lower upper Hne Hs ltac:(vm_compute; lia) Hsup) as Hcov.
  rewrite Hr in Hcov. destruct Hcov as (l & Hl & Hlt). destruct (in_range_bounds _ Hin) as [H1 _].
  destruct (assoc key (concat chunks)) as [v|] eqn:E; [|done]. apply assoc_elem in E; [|done].
  exfalso. eapply Lex.lt_not_le; [by apply (Hlt _ E)|]. by apply H1.
Qed.
End sources.

(** ** Newest values by epoch *)

Definition has (inputs : list (Z * list kv)) (key : bytes) (e : Z) (v : bytes) : Prop :=
  exists l, (e, l) ∈ inputs /\ assoc key l = Some v.

Lemma newest_has inputs key v :
  newest inputs key v <-> exists e, has inputs key e v /\ forall e' v', (e < e')%Z -> ~ has inputs key e' v'.
Proof.
  split.
  - intros (e & l & Hl & Ha & Hmax). exists e. split; [by exists l|]. intros e' v' Hlt (l' & Hl' & Ha').
    rewrite (Hmax _ _ Hl' Hlt) in Ha'. done.
  - intros (e & (l & Hl & Ha) & Hmax). exists e, l. split_ands; [done|done|]. intros e' l' Hl' Hlt.
    destruct (assoc key l') as [v'|] eqn:E; [|done]. destruct (Hmax e' v' Hlt). by exists l'.
Qed.

Lemma has_app a b key e v : has (a ++ b) key e v <-> has a key e v \/ has b key e v.
Proof. unfold has. setoid_rewrite elem_of_app. naive_solver. Qed.

Lemma has_cons e0 l0 inputs key e v :
  has ((e0, l0) :: inputs) key e v <-> (e = e0 /\ assoc key l0 = Some v) \/ has inputs key e v.
Proof. unfold has. setoid_rewrite elem_of_cons. naive_solver. Qed.

Lemma has_nil key e v : ~ has [] key e v.
Proof. intros (l & Hl & _). by apply not_elem_of_nil in Hl. Qed.

Lemma has_max_or inputs key e0 :
  (exists e v, has inputs key e v /\ (e0 < e)%Z /\ forall e' v', (e < e')%Z -> ~ has inputs key e' v') \/
  (forall e v, has inputs key e v -> (e <= e0)%Z).
Proof.
  revert e0. induction inputs as [|[e1 l1] inputs IH]; intros e0; [right; intros e v Hh; by apply has_nil in Hh|].
  assert (assoc key l1 = None \/ (e1 <= e0)%Z \/ exists v1, assoc key l1 = Some v1 /\ (e0 < e1)%Z) as Hcase.
  { destruct (assoc key l1) as [v1|]; [|by left]. right. destruct (decide (e1 <= e0)%Z); [by left|right]. exists v1. split; [done|lia]. }
  destruct Hcase as [Hn|[Hle|(v1 & Hv & Hlt)]].
  - setoid_rewrite has_cons. destruct (IH e0) as [(e & v & H1 & H2 & H3)|H]; [left|right].
    + exists e, v. split; [by right|]. split; [done|]. intros e' v' H' [[_ ?]|?]; [congruence|by eapply H3].
    + intros e v [[_ ?]|?]; [congruence|by eapply H].
  - setoid_rewrite has_cons. destruct (IH e0) as [(e & v & H1 & H2 & H3)|H]; [left|right].
    + exists e, v. split; [by right|]. split; [done|]. intros e' v' H' [[-> _]|?]; [lia|by eapply H3].
    + intros e v [[-> _]|?]; [lia|by eapply H].
  - left. setoid_rewrite has_cons. destruct (IH e1) as [(e & v & H1 & H2 & H3)|H].
    + exists e, v. split; [by right|]. split; [lia|]. intros e' v' H' [[-> _]|?]; [lia|by eapply H3].
    + exists e1, v1. split; [by left|]. split; [lia|]. intros e' v' H' [[-> _]|Hh]; [lia|]. apply H in Hh. lia.
Qed.

Lemma has_max inputs key e0 : (exists e v, has inputs key e v /\ (e0 < e)%Z) ->
  exists e v, has inputs key e v /\ (e0 < e)%Z /\ forall e' v', (e < e')%Z -> ~ has inputs key e' v'.
Proof. intros (e & v & Hh & He). destruct (has_max_or inputs key e0) as [|H]; [done|]. apply H in Hh. lia. Qed.

(** The inputs that are left hold the newest value of a key when whatever is
    left out is held by another input, or overtaken by a newer one. *)
Lemma newest_covered a b key v :
  (forall e v, has a key e v -> has b key e v) ->
  (forall e v, has b key e v -> has a key e v \/ exists e' v', (e < e')%Z /\ has b key e' v') ->
  newest a key v <-> newest b key v.
Proof.
  intros Hab Hba. rewrite !newest_has. split; intros (e & Hh & Hmax); exists e.
  - split; [by apply Hab|]. intros e' v' Hlt Hb.
    destruct (has_max b key e) as (e2 & v2 & H1 & H2 & H3); [by exists e', v'|].
    destruct (Hba e2 v2 H1) as [Ha|(e3 & v3 & Hlt3 & Hb3)]; [by eapply (Hmax e2)|by eapply (H3 e3)].
  - split; [|intros e' v' Hlt Ha; by eapply (Hmax e'), Hab].
    destruct (Hba e v Hh) as [Ha|(e' & v' & Hlt & Hb)]; [done|]. by destruct (Hmax e' v' Hlt).
Qed.

Section whole_scan.
Context (xxh64_hash : bytes -> Z -> Z) (lower upper : option bytes).
Context (fuel : nat) (direct : bool) (read_ahead : nat) (Hahead : (0 < Z.of_nat read_ahead < 2 ^ 63)%Z).

Definition sst_epoch (s : sst) : Z := f_epoch (st_footer s).

Definition item_values_ok (items : list kv) : Prop := Forall (fun x => value_ok x.2 /\ entry_no_pointer x) items.

(** A source as the iterator wants it. *)
Definition source_ok (l : list kv) : Prop := sorted_kvs l /\ item_values_ok l.

Lemma covers_source_ok run items : covers lower upper run items -> item_values_ok items -> source_ok run.
Proof.
  intros [Hs Hin _] Hv. split; [done|]. apply Forall_forall. intros x Hx. unfold item_values_ok in Hv.
  rewrite Forall_forall in Hv. by apply Hv, Hin.
Qed.

Lemma sources_ok_Forall sources : Forall (fun s => source_ok s.2) sources -> sources_ok sources.
Proof.
  intros H. split; (eapply Forall_impl; [exact H|]); intros [e l] [Hs Hv]; cbn in *.
  - split; [done|]. eapply Forall_impl; [exact Hv|]. by intros x [].
  - eapply Forall_impl; [exact Hv|]. by intros x [].
Qed.

(** The streams of the matching SSTs. *)
Lemma match_streams ssts itemss pending :
  Forall2 (sst_holds xxh64_hash) ssts itemss -> Forall item_values_ok itemss ->
  Forall (fun items => length items <= fuel) itemss ->
  let '(matching, pending') := match_ssts lower upper ssts pending in
  exists streams, mapM (sst_source xxh64_hash fuel direct read_ahead) matching = Some streams /\
    Forall (fun s => source_ok s.2) streams /\
    sublist streams.*1 (sst_epoch <$> ssts) /\ sublist pending' pending /\
    Forall (fun p => p.1 ∉ streams.*1) pending' /\
    (forall p, p ∈ pending -> p ∈ pending' \/ p.1 ∈ sst_epoch <$> ssts) /\
    (forall key e v, in_range lower upper key = true ->
       has streams key e v <-> has (zip (sst_epoch <$> ssts) itemss) key e v).
Proof.
  intros Hh. revert pending. induction Hh as [|s items ssts itemss Hs Hh IH]; intros pending Hv Hf.
  { cbn. exists []. split_ands; try done; [by apply Forall_true; intros p; apply not_elem_of_nil|by left]. }
  apply Forall_cons in Hv as [Hv0 Hv], Hf as [Hf0 Hf]. cbn [match_ssts].
  destruct (find_range _ (st_meta_index s) (st_super_index s) lower upper) as [[first last]|] eqn:Er.
  - specialize (IH (filter (fun p => p.1 <> f_epoch (st_footer s)) pending) Hv Hf).
    destruct (match_ssts lower upper ssts _) as [matching pending'].
    destruct IH as (streams & Em & H1 & H2 & H3 & H4 & H6 & H5).
    destruct (sst_source_spec xxh64_hash lower upper fuel direct read_ahead s items first last Hs Er Hf0 Hahead) as (run & Erun & Hc).
    exists ((sst_epoch s, run) :: streams). cbn [mapM]. rewrite Erun. cbn [mbind option_bind]. rewrite Em. split_ands.
    + done.
    + constructor; [by eapply covers_source_ok|done].
    + rewrite !fmap_cons. by apply sublist_skip.
    + etrans; [exact H3|]. apply sublist_filter.
    + rewrite Forall_forall in *. intros p Hp. rewrite fmap_cons, not_elem_of_cons. split; [|by apply H4].
      assert (p ∈ filter (fun p => p.1 <> f_epoch (st_footer s)) pending) as Hin by (by eapply elem_of_sublist).
      by apply list_elem_of_filter in Hin as [? _].
    + intros p Hp. rewrite fmap_cons, elem_of_cons. destruct (decide (p.1 = sst_epoch s)) as [He|He]; [by auto|].
      destruct (H6 p) as [Hin|Hin]; [by apply list_elem_of_filter|by left|by auto].
    + intros key e v Hin. rewrite fmap_cons. cbn [zip_with zip]. rewrite !has_cons, (H5 _ _ _ Hin).
      by rewrite (cv_range _ _ _ _ Hc _ Hin).
  - specialize (IH pending Hv Hf). destruct (match_ssts lower upper ssts pending) as [matching pending'].
    destruct IH as (streams & Em & H1 & H2 & H3 & H4 & H6 & H5). exists streams. split_ands; try done.
    + rewrite fmap_cons. by apply sublist_cons.
    + intros p Hp. rewrite fmap_cons, elem_of_cons. destruct (H6 p Hp); auto.
    + intros key e v Hin. rewrite fmap_cons. cbn [zip_with zip]. rewrite has_cons, (H5 _ _ _ Hin).
      rewrite (sst_no_range xxh64_hash lower upper s items key Hs Er Hin). naive_solver.
Qed.

End whole_scan.

Section cursors.
Context (lower upper : option bytes).

Definition table_good (t : table_t) : Prop :=
  table_ok UINT64_MAX t /\ Forall (fun e => value_ok (mt_value e) /\ entry_no_pointer (mt_pair e)) t.

Context (Hbounds : forall l u, lower = Some l -> upper = Some u -> Lex.le l u).

Lemma cursor_source_spec t epoch max_seq :
  table_good t -> Forall (fun e => mt_seq e <= max_seq)%Z t ->
  exists run, cursor_source t lower upper epoch max_seq = Some (epoch, run) /\ source_ok run /\
    (forall key e v, in_range lower upper key = true -> has [(epoch, run)] key e v <-> has [(epoch, run_of t)] key e v).
Proof.
  intros [Ht Hv] Hvis.
  destruct (cursor_run UINT64_MAX t ltac:(done) Ht lower upper epoch max_seq Hbounds Hvis) as (c & run & E1 & E2 & Hs & Hin & Hr).
  exists run. unfold cursor_source. rewrite E1. cbn [mbind option_bind]. rewrite E2. split_ands; [done| |].
  - split; [done|]. apply Forall_forall. intros x Hx. destruct (Hin x Hx) as (e & He & ->).
    rewrite Forall_forall in Hv. by apply Hv.
  - intros key e v Hk. rewrite !has_cons, assoc_run_of, (Hr key Hk). done.
Qed.

Lemma flush_sources_spec pending : Forall (fun p => table_good p.2) pending ->
  exists flushes, mapM (fun p => cursor_source p.2 lower upper p.1 UINT64_MAX) pending = Some flushes /\
    Forall (fun s => source_ok s.2) flushes /\ flushes.*1 = pending.*1 /\
    (forall key e v, in_range lower upper key = true ->
       has flushes key e v <-> has ((fun p => (p.1, run_of p.2)) <$> pending) key e v).
Proof.
  induction 1 as [|[epoch t] pending Ht _ (flushes & Em & H1 & H2 & H3)].
  { exists []. split_ands; try done. }
  destruct (cursor_source_spec t epoch UINT64_MAX Ht) as (run & Er & Hok & Hh).
  { destruct Ht as [[_ Hs] _]. eapply Forall_impl; [exact Hs|]. cbv beta. cbn. intros. lia. }
  exists ((epoch, run) :: flushes). cbn [mapM fst snd]. rewrite Er. cbn [mbind option_bind]. rewrite Em. split_ands.
  - done.
  - by constructor.
  - rewrite !fmap_cons. by f_equal.
  - intros key e v Hin. rewrite fmap_cons. cbn [fst snd]. rewrite !has_cons, (H3 _ _ _ Hin).
    specialize (Hh key e v Hin). rewrite !has_cons in Hh. pose proof (has_nil key e v). naive_solver.
Qed.
End cursors.

(** ** Scanning a partition *)

(** What a scan has to serve: the SSTs, the current table and all pending
    flushes of the snapshot. *)
Definition scan_inputs (snap : snapshot) (ssts : list sst) (itemss : list (list kv)) : list (Z * list kv) :=
  zip (sst_epoch <$> ssts) itemss ++
  match sn_curr snap with None => [] | Some t => [(UINT64_MAX, run_of t)] end ++
  ((fun p => (p.1, run_of p.2)) <$> sn_pending snap).

(** The state a scan starts from: SSTs that hold runs, tables in skiplist
    order, distinct epochs below that of the current table, no version
    newer than the snapshot in it, and bounds in order. The snapshot of the
    memtable is older than that of the partition: an SST with the epoch of a
    pending flush was written or merged from it, so that it holds what the
    flush holds of a key, unless something newer has the key. *)
Record scan_ready (xxh64_hash : bytes -> Z -> Z) (snap : snapshot) (ssts : list sst) (itemss : list (list kv))
    (lower upper : option bytes) : Prop := {
  sr_holds : Forall2 (sst_holds xxh64_hash) ssts itemss;
  sr_values : Forall item_values_ok itemss;
  sr_epochs : NoDup (sst_epoch <$> ssts) /\ Forall (fun s => sst_epoch s < UINT64_MAX)%Z ssts;
  sr_pending : NoDup (sn_pending snap).*1 /\ Forall (fun p => (p.1 < UINT64_MAX)%Z /\ table_good p.2) (sn_pending snap);
  sr_flushed e t items key v :
    (e, t) ∈ sn_pending snap -> (e, items) ∈ zip (sst_epoch <$> ssts) itemss -> in_range lower upper key = true ->
    first_value t key = Some v ->
    assoc key items = Some v \/ exists e' v', (e < e')%Z /\ has (scan_inputs snap ssts itemss) key e' v';
  sr_curr t : sn_curr snap = Some t -> table_good t /\ Forall (fun e => mt_seq e <= sn_seq_nr snap)%Z t;
  sr_bounds l u : lower = Some l -> upper = Some u -> Lex.le l u;
}.

Lemma make_new_spec xxh64_hash snap partition itemss lower upper fuel direct read_ahead :
  scan_ready xxh64_hash snap (mjoin partition) itemss lower upper ->
  Forall (fun items => length items <= fuel) itemss -> (0 < Z.of_nat read_ahead < 2 ^ 62)%Z ->
  exists sources, make_new xxh64_hash fuel direct snap (Some partition) lower upper read_ahead = Some (make_iter lower upper sources) /\
    sources_ok sources /\ NoDup sources.*1 /\
    (forall key e v, in_range lower upper key = true ->
       has sources key e v -> has (scan_inputs snap (mjoin partition) itemss) key e v) /\
    (forall key e v, in_range lower upper key = true ->
       has (scan_inputs snap (mjoin partition) itemss) key e v ->
       has sources key e v \/ exists e' v', (e < e')%Z /\ has (scan_inputs snap (mjoin partition) itemss) key e' v').
Proof.
  intros [H1 H2 [H3 H3'] [H4 H4'] Hfl H5 H6] Hf Ha. unfold make_new. cbn [default from_option id].
  assert (0 < Z.of_nat (Z.to_nat (ceil_page_align (Z.of_nat read_ahead))) < 2 ^ 63)%Z as Ha'.
  { destruct (ceil_page_align_spec (Z.of_nat read_ahead)) as [_ Hb]; [lia|]. change PAGE_SIZE with 4096%Z in Hb. lia. }
  pose proof (match_streams xxh64_hash lower upper fuel direct _ Ha' (mjoin partition) itemss (sn_pending snap) H1 H2 Hf) as Hm.
  destruct (match_ssts lower upper (mjoin partition) (sn_pending snap)) as [matching pending]. cbn [snd].
  destruct Hm as (streams & -> & S1 & S2 & S3 & S4 & S6 & S5). cbn [mbind option_bind].
  assert (Forall (fun p => (p.1 < UINT64_MAX)%Z /\ table_good p.2) pending) as Hp.
  { apply Forall_forall. intros p Hp. rewrite Forall_forall in H4'. by apply H4'; eapply elem_of_sublist. }
  destruct (flush_sources_spec lower upper H6 pending) as (flushes & -> & F1 & F2 & F3);
    [eapply Forall_impl; [exact Hp|]; by intros p []|].
  assert (exists curr, match sn_curr snap with
      | None => Some []
      | Some t => s ← cursor_source t lower upper UINT64_MAX (sn_seq_nr snap); Some [s] end = Some curr /\
    Forall (fun s => source_ok s.2) curr /\ sublist curr.*1 [UINT64_MAX] /\
    (forall key e v, in_range lower upper key = true -> has curr key e v <->
      has match sn_curr snap with None => [] | Some t => [(UINT64_MAX, run_of t)] end key e v)) as (curr & -> & C1 & C2 & C3).
  { destruct (sn_curr snap) as [t|] eqn:Et.
    - destruct (H5 t eq_refl) as [Ht Hv].
      destruct (cursor_source_spec lower upper H6 t UINT64_MAX (sn_seq_nr snap) Ht Hv) as (run & -> & R1 & R2).
      exists [(UINT64_MAX, run)]. split_ands; [done|by constructor|done|done].
    - exists []. split_ands; [done|done|apply sublist_nil_l|done]. }
  cbn [mbind option_bind]. exists (streams ++ curr ++ flushes). split_ands; [done| | | |].
  - apply sources_ok_Forall, Forall_app. split; [done|]. apply Forall_app. by split.
  - rewrite !fmap_app, F2. assert (forall e, e ∈ curr.*1 -> e = UINT64_MAX) as Hc.
    { intros e He. apply (elem_of_sublist _ _ _ He) in C2. by apply list_elem_of_singleton in C2. }
    assert (UINT64_MAX ∉ streams.*1 /\ UINT64_MAX ∉ pending.*1) as [N1 N2].
    { split; intros Hin.
      - apply (elem_of_sublist _ _ _ Hin) in S2. apply list_elem_of_fmap in S2 as (s & Hs & Hin').
        rewrite Forall_forall in H3'. apply H3' in Hin'. lia.
      - apply list_elem_of_fmap in Hin as (p & Hs & Hin'). rewrite Forall_forall in Hp. apply Hp in Hin' as [? _]. lia. }
    apply NoDup_app. split_ands; [exact (sublist_NoDup _ _ H3 S2)| |apply NoDup_app; split_ands].
    + intros e He Hin. apply elem_of_app in Hin as [Hin|Hin]; [apply Hc in Hin; by subst|].
      apply list_elem_of_fmap in Hin as (p & -> & Hin). rewrite Forall_forall in S4. by apply (S4 p Hin).
    + eapply sublist_NoDup; [|exact C2]. apply NoDup_singleton.
    + intros e He Hin. apply Hc in He. by subst.
    + eapply sublist_NoDup; [exact H4|]. by apply fmap_sublist.
  - intros key e v Hin. unfold scan_inputs. rewrite !has_app, (S5 _ _ _ Hin), (C3 _ _ _ Hin), (F3 _ _ _ Hin).
    intros [Hh|[Hh|(l & Hl & Hk)]]; [by left|right; by left|]. right. right. exists l. split; [|done].
    apply list_elem_of_fmap in Hl as (x & Hl & Hx). apply list_elem_of_fmap. exists x. split; [exact Hl|by eapply elem_of_sublist].
  - intros key e v Hin. unfold scan_inputs at 1. rewrite !has_app, (S5 _ _ _ Hin), (C3 _ _ _ Hin), (F3 _ _ _ Hin).
    intros [Hh|[Hh|(l & Hl & Hk)]]; [by auto|by auto|]. apply list_elem_of_fmap in Hl as ([e1 t] & [= -> ->] & Hx).
    destruct (S6 _ Hx) as [Hx'|He]; [left; right; right; exists (run_of t); split; [by apply (list_elem_of_fmap_2 (fun p : Z * table_t => (p.1, run_of p.2)) _ (e1, t))|done]|].
    cbn in He. apply list_elem_of_lookup in He as [i Hi]. assert (exists items, itemss !! i = Some items) as [items Hit].
    { apply lookup_lt_is_Some_2. rewrite <- (Forall2_length _ _ _ H1), <- (length_fmap sst_epoch). by eapply lookup_lt_Some. }
    assert ((e1, items) ∈ zip (sst_epoch <$> mjoin partition) itemss) as Hz.
    { apply list_elem_of_lookup. exists i. by rewrite lookup_zip_with, Hi, Hit. }
    rewrite assoc_run_of in Hk. destruct (Hfl e1 t items key v Hx Hz Hin Hk) as [Hv|Hn]; [left; left; by exists items|by right].
Qed.

(** C9: a scan of a partition returns its newest state. The iterator made
    from a snapshot of the memtable and the SSTs of a partition, called
    until the end of the scan, gives in strictly increasing key order
    exactly the pairs between the bounds whose value is the one of the
    newest of SSTs, pending flushes and current table that has the key,
    tombstones left out. The code drops the pending flushes that a matching
    SST has the epoch of; this loses nothing when such an SST holds what the
    flush holds, or something newer has the key. There has to be an entry
    between the bounds, and the current table has no entry above the
    snapshot. *)
Theorem partition_scan_correct (xxh64_hash : bytes -> Z -> Z) (snap : snapshot) (partition : list (list sst))
    (itemss : list (list kv)) (lower upper : option bytes) (fuel : nat) (direct : bool) (read_ahead : nat)
    (Hready : scan_ready xxh64_hash snap (mjoin partition) itemss lower upper)
    (Hfuel : Forall (fun items => length items <= fuel) itemss) (Hahead : (0 < Z.of_nat read_ahead < 2 ^ 62)%Z)
    (Hsome : exists key e v, in_range lower upper key = true /\
       has (scan_inputs snap (mjoin partition) itemss) key e v) :
  exists it n out e,
    make_new xxh64_hash fuel direct snap (Some partition) lower upper read_ahead = Some it /\
    collect (S n) n it = Some (out, e) /\ error_code e = END_OF_SCAN /\ StronglySorted pair_lt out /\
    forall k b, (k, b) ∈ out <-> in_range lower upper k = true /\
      exists v, newest (scan_inputs snap (mjoin partition) itemss) k v /\ value_from_span v = Ok (VBytes b).
Proof.
  destruct (make_new_spec _ _ _ _ _ _ fuel direct read_ahead Hready Hfuel Hahead) as (sources & E & Hok & Hnd & Hsub & Hcov).
  assert (input_entries sources <> []) as Hne.
  { destruct Hsome as (key & e0 & v0 & Hin & Hh0).
    destruct (has_max (scan_inputs snap (mjoin partition) itemss) key (e0 - 1)) as (e & v & Hh & _ & Hmax); [exists e0, v0; split; [done|lia]|].
    destruct (Hcov key e v Hin Hh) as [(l & Hl & Ha)|(e' & v' & Hlt & Hh')]; [|by destruct (Hmax e' v' Hlt)].
    apply assoc_elem in Ha; [|exact (proj1 (proj1 (Forall_forall _ sources) (proj1 Hok) (e, l) Hl))].
    assert (mk_entry key v e ∈ input_entries sources) as Hin' by (apply elem_input_entries; by exists l).
    intros E0. rewrite E0 in Hin'. by apply not_elem_of_nil in Hin'. }
  destruct (collect_all lower upper sources Hok Hne) as (e & Ec & He).
  exists (make_iter lower upper sources), (total_entries sources), (emitted lower upper (scan_items sources)), e.
  split_ands; [done|done|done| |].
  - destruct (scan_items_sorted sources Hok). by apply emitted_sorted.
  - intros k b. rewrite scan_elem by done. split; intros (Hin & v & Hn & Hv); (split; [done|]); exists v; (split; [|done]).
    + eapply (newest_covered sources); [| |exact Hn]; intros e' v'; [by apply Hsub|by apply Hcov].
    + eapply (newest_covered sources); [| |exact Hn]; intros e' v'; [by apply Hsub|by apply Hcov].
Qed.

(** What a merge wrote can be scanned. *)
Lemma written_holds xxh64_hash heap (items : list kv) :
  (forall b seed, (0 <= xxh64_hash b seed)%Z) -> run_ok items -> (1 <= Z.of_nat (length items) <= MAX_KEYS)%Z ->
  exists s, merge_output xxh64_hash heap items 1 (Z.of_nat (length items)) 0 0 3 0 = Some (Ok s) /\
    sst_holds xxh64_hash s items /\ sst_epoch s = 3%Z.
Proof.
  intros Hh [Hs Hi] Hn.
  destruct (written_file xxh64_hash heap Hh (Z.of_nat (length items)) items 1) as (qf0 & qf & iw & E0 & E1 & Ew & Hrep & Hw);
    [lia|lia|lia|done|eapply Forall_impl; [exact Hi|]; by intros x (? & ? & _)|].
  unfold merge_output. rewrite E0. cbn [mbind option_bind]. rewrite E1. cbn [mbind option_bind].
  rewrite Ew. cbn [mbind expected_bind]. rewrite pwrite_start.
  destruct (Hw 0 3 0)%Z as (Ht & _). rewrite Ht. cbn [mbind expected_bind]. eexists. split; [done|]. split; [|done].
  split; cbn [st_file st_meta_index st_super_index st_footer].
  - eexists _, _. split; [reflexivity|done].
  - unfold make_super_index. case_match; auto.
  - done.
  - by split.
Qed.

Lemma partition_scan_witness : exists s : sst,
  let snap := (mk_snapshot 9 (Some [mk_mt_entry [1] 5 [1; 7]; mk_mt_entry [4] 6 [2]])
    [(3, [mk_mt_entry [2] 2 [1; 5]]); (4, [mk_mt_entry [3] 4 [1; 8]])])%Z in
  let itemss := [[([2], [1; 5]); ([4], [1; 6])]]%Z in
  exists it n out e,
    make_new (fun _ _ => 0%Z) 2 true snap (Some [[s]]) (Some [1]%Z) None 4096 = Some it /\
    collect (S n) n it = Some (out, e) /\ error_code e = END_OF_SCAN /\ StronglySorted pair_lt out /\
    forall k b, (k, b) ∈ out <-> in_range (Some [1]%Z) None k = true /\
      exists v, newest (scan_inputs snap (mjoin [[s]]) itemss) k v /\ value_from_span v = Ok (VBytes b).
Proof.
  destruct (written_holds (fun _ _ => 0%Z) no_heap [([2], [1; 5]); ([4], [1; 6])]%Z) as (s & _ & Hs & He).
  - done.
  - split; [repeat constructor|]. repeat constructor; vm_compute; lia.
  - vm_compute. split; discriminate.
  - exists s. intros snap itemss.
    apply (partition_scan_correct (fun _ _ => 0%Z) snap [[s]] itemss (Some [1]%Z) None 2 true 4096).
    + split.
      * cbn. constructor; [done|constructor].
      * repeat constructor; try (vm_compute; reflexivity); intros p; vm_compute; discriminate.
      * cbn. split; [apply NoDup_singleton|]. constructor; [|done]. rewrite He. by vm_compute.
      * cbn. split; [refine (bool_decide_unpack _ _); vm_compute; exact I|].
        repeat constructor; try (vm_compute; reflexivity); intros p; vm_compute; discriminate.
      * intros e t items key v Ht Hz _ Hf. apply list_elem_of_singleton in Hz as [= -> ->]. rewrite He in Ht.
        apply elem_of_cons in Ht as [[= ->]|Ht]; [|apply list_elem_of_singleton in Ht as [=]].
        left. cbn [first_value mt_key mt_value assoc fst snd] in *. by destruct (Lex.eqb [2]%Z key).
      * intros t [= <-]. split; [split|]; repeat constructor; try (vm_compute; reflexivity); try (vm_compute; discriminate).
        all: try (intros p; vm_compute; discriminate).
      * intros l u _ [=].
    + repeat constructor.
    + lia.
    + exists [1]%Z, UINT64_MAX, [1; 7]%Z. split; [done|]. unfold scan_inputs. apply has_app. right. apply has_app. left.
      exists [([1], [1; 7]); ([4], [2])]%Z. split; [by left|done].
Defined.
