(* ===== verification/Database.v ===== *)
(** * The database (src/db/database.cc, include/db/database.h)

    The memtable and the partitions put together: writing, reading,
    finishing flushes and compacting, and the theorem that the whole is a
    map from keys to values. One write is under way at a time; flushes and
    compactions go on between its steps. *)

From stdpp Require Import base list numbers strings sorting sets gmap.
From Stdlib Require Import ZArith Lia.
From S2P Require Import Prelude StdAlgo Types Utils Block BlockBuffer Wal Merge Sst SstManager Lsm Memtable.

Local Open Scope Z_scope.

Definition MAX_PARTITION_EXPONENT : Z := 16.

Record db_config := mk_db_config {
  num_partition_exponent : Z;
  max_num_levels : nat;
  memtable_budget_bytes : Z;
  num_threads : nat;
  max_pending_flushes : nat;
}.

Definition _validate_config (c : db_config) : status :=
  if MAX_PARTITION_EXPONENT <? num_partition_exponent c
  then Err (generic_error "num_partition_exponent must be <= 16") else ok.

Record database := mk_database {
  db_memtable : memtable;
  db_partitions : gmap Z partition;
}.

(** A write sets a key to a value or removes it. *)
Abbreviation write_t := (bytes * option bytes)%type.

(** A write under way: its thread, what it writes and where it stands. *)
Record write_op := mk_write_op {
  wo_tid : nat;
  wo_write : write_t;
  wo_pc : put_pc;
}.

Section database.
Context (cfg : db_config).

Definition make_new : expected database :=
  match _validate_config cfg with
  | Err e => Err e
  | Ok _ => Ok (mk_database (make_memtable (memtable_budget_bytes cfg) (num_threads cfg) (max_pending_flushes cfg) 0)
                  (list_to_map ((fun id => (id, make_partition (max_num_levels cfg)))
                                  <$> partition_ids (num_partition_exponent cfg))))
  end.

Definition _find_matching_partition_for_key (key : bytes) : Z :=
  find_partition_prefix_for_key key (partition_size (num_partition_exponent cfg)).

(** The steps of writes: [put_async] and [remove_async]. *)
Definition db_put (tid : nat) (key value : bytes) (d : database) (pc : put_pc) : option (database * put_pc) :=
  '(m, pc) ← put_async_step (memtable_budget_bytes cfg) (num_threads cfg) tid key (tagged_value IN_PLACE_VALUE value) (db_memtable d) pc;
  Some (mk_database m (db_partitions d), pc).

Definition db_remove (tid : nat) (key : bytes) (d : database) (pc : put_pc) : option (database * put_pc) :=
  '(m, pc) ← put_async_step (memtable_budget_bytes cfg) (num_threads cfg) tid key (tagged_value TOMBSTONE []) (db_memtable d) pc;
  Some (mk_database m (db_partitions d), pc).

(** [push_new_ssts_to_l0] of one flush. *)
Definition push_ssts (epoch : Z) (parts : gmap Z partition) (runs : list (Z * list kv)) : gmap Z partition :=
  foldl (fun parts r => alter (fun p => push_l0 p epoch r.2) r.1 parts) parts runs.

(** The end of [_flush_inner] for the oldest pending flush: its SSTs enter
    level 0 and the table is dropped. *)
Definition finish_flush (d : database) : option database :=
  let m := db_memtable d in
  match m_pending m with
  | [] => None
  | (epoch, t) :: _ =>
      m ← background_step FlushDone m;
      Some (mk_database m
              (push_ssts epoch (db_partitions d)
                 (flush_memtable (num_partition_exponent cfg) (mb_entries t))))
  end.

(** Reads. The outer [None] is an exception. *)
Definition _find_value `{SstReader} (d : database) (key : bytes) : option (expected value_t) :=
  match memtable_get (db_memtable d) key with
  | None => None
  | Some (Some v) => Some (Ok v)
  | Some None =>
      Some (match db_partitions d !! _find_matching_partition_for_key key with
            | None => Err (mk_error "Partition not found in sorted indices" KEY_NOT_FOUND)
            | Some p => lookup_levels (p_levels p) key
            end)
  end.

Definition get_async `{SstReader} (d : database) (key : bytes) : option (expected bytes) :=
  r ← _find_value d key;
  Some (match r with
        | Err e => Err e
        | Ok (VBytes v) => Ok v
        | Ok VTombstone => Err (mk_error "deleted key" DELETED)
        | Ok (VPtr _) => Err (generic_error "kv separation not implemented")
        end).

(** ** The specification *)

Definition tagged_write (w : write_t) : bytes :=
  match w.2 with
  | Some v => tagged_value IN_PLACE_VALUE v
  | None => tagged_value TOMBSTONE []
  end.

(** The map after a sequence of writes. *)
Fixpoint spec_get (ws : list write_t) (key : bytes) : option (option bytes) :=
  match ws with
  | [] => None
  | w :: ws => match spec_get ws key with
               | Some r => Some r
               | None => if Lex.eqb w.1 key then Some w.2 else None
               end
  end.

(** A write the database accepts: a key of two to 255 bytes, small enough
    with its value for a page. *)
Definition write_ok (w : write_t) : Prop :=
  (2 <= length w.1 < MAX_KEY_LEN)%nat /\ Forall byte_ok w.1 /\ entry_fits (w.1, tagged_write w).

(** Picking, publishing and failing compactions of a partition; a pick is
    labelled with its level. *)
Inductive compaction_step (p : partition) : option nat -> partition -> Prop :=
  | step_compact min_w max_w level :
      (2 <= min_w <= max_w)%nat -> (level < max_num_levels cfg)%nat ->
      compaction_step p (Some level) (compact_level min_w max_w p level)
  | step_publish level p' : publish p level = Some p' -> compaction_step p None p'
  | step_fail level i p' : fail_task p level i = Some p' -> compaction_step p None p'.

(** A compaction that does not pick the last level. *)
Definition above_last (picked : option nat) : Prop :=
  match picked with Some level => (S level < max_num_levels cfg)%nat | None => True end.

(** A step of a write. *)
Definition write_step (tid : nat) (w : write_t) (d : database) (pc : put_pc) : option (database * put_pc) :=
  match w.2 with
  | Some v => db_put tid w.1 v d pc
  | None => db_remove tid w.1 d pc
  end.

(** The write under way after a step, and the write it acknowledges. *)
Definition next_op (o : write_op) (pc : put_pc) : option write_op :=
  match pc with PutDone => None | _ => Some (mk_write_op (wo_tid o) (wo_write o) pc) end.
Definition acknowledged (o : write_op) (pc : put_pc) : list write_t :=
  match pc with PutDone => [wo_write o] | _ => [] end.

(** The steps of a database: a write begins, with a reference of its thread
    to the current or to a former table; a write goes on; a flush ends; the
    slot or the log of a flush is given back, or the pipelined table is
    made; a compaction of some partition is picked, in a level other than
    the last, published or given up. The last arguments are the writes
    acknowledged and the tables flushed. *)
Inductive db_step (d : database) : option write_op -> database -> option write_op -> list write_t -> list (Z * mem_buffer) -> Prop :=
  | step_begin tid w current :
      write_ok w -> (tid < num_threads cfg)%nat -> m_seq_nr (db_memtable d) + 2 <= UINT64_MAX ->
      db_step d None d (Some (mk_write_op tid w (PutAcquire current))) [] []
  | step_write o d' pc :
      write_step (wo_tid o) (wo_write o) d (wo_pc o) = Some (d', pc) ->
      db_step d (Some o) d' (next_op o pc) (acknowledged o pc) []
  | step_flush op d' x pending :
      m_pending (db_memtable d) = x :: pending -> finish_flush d = Some d' -> db_step d op d' op [] [x]
  | step_background op b m :
      b <> FlushDone -> background_step b (db_memtable d) = Some m ->
      db_step d op (mk_database m (db_partitions d)) op [] []
  | step_compaction op pid p p' picked :
      db_partitions d !! pid = Some p -> compaction_step p picked p' -> above_last picked ->
      db_step d op (mk_database (db_memtable d) (<[pid := p']> (db_partitions d))) op [] [].

(** The states of the database, with the write under way and the writes
    acknowledged. *)
Inductive db_reachable : database -> option write_op -> list write_t -> Prop :=
  | db_new d : make_new = Ok d -> db_reachable d None []
  | db_next d op ws d' op' acked fl :
      db_reachable d op ws -> db_step d op d' op' acked fl -> db_reachable d' op' (ws ++ acked).

(** A schedule that brings a write to its end: its own steps, and when it
    waits the background steps it waits for. *)
Definition awaited_step (d : database) (pc : put_pc) : option database :=
  match awaited (db_memtable d) pc with
  | [] => None
  | FlushDone :: _ => finish_flush d
  | b :: _ => m ← background_step b (db_memtable d); Some (mk_database m (db_partitions d))
  end.

Fixpoint complete_write (fuel tid : nat) (w : write_t) (d : database) (pc : put_pc) : option database :=
  match fuel with
  | O => None
  | S fuel =>
      match write_step tid w d pc with
      | Some (d, PutDone) => Some d
      | Some (d, pc) => complete_write fuel tid w d pc
      | None => d ← awaited_step d pc; complete_write fuel tid w d pc
      end
  end.
End database.

(** ** Lemmas on ranges *)

Section ranges.
Context (part : bytes -> Z) (ok_key : bytes -> Prop).
Context (Hmono : forall a b, ok_key a -> ok_key b -> Lex.le a b -> part a <= part b).

Definition range_ok (r : Z * list memtable_entry) : Prop := Forall (fun e => part (mt_key e) = r.1) r.2.

Lemma ranges_loop_spec l cur range :
  StronglySorted mt_lt (range ++ l) -> Forall (fun e => ok_key (mt_key e)) (range ++ l) ->
  range_ok (cur, range) -> Forall (fun e => cur <= part (mt_key e)) l ->
  let rs := ranges_loop part cur range l in
  mjoin (snd <$> rs) = range ++ l /\ Forall range_ok rs /\
  StronglySorted Z.lt rs.*1 /\ Forall (fun r => cur <= r.1) rs.
Proof.
  revert cur range. induction l as [|e l IH]; intros cur range Hs Hk Hr Hge; cbn [ranges_loop]; cbv zeta.
  { rewrite fmap_cons. cbn. split_ands; [done|by constructor|repeat constructor|by repeat constructor]. }
  apply Forall_cons in Hge as [He Hge].
  assert (forall x, x ∈ l -> part (mt_key e) <= part (mt_key x)) as Hle.
  { intros x Hx. apply Forall_app in Hk as [_ Hk]. apply Forall_cons in Hk as [Hke Hk].
    rewrite Forall_forall in Hk. apply Hmono; [done|auto|].
    apply StronglySorted_app_1_r, StronglySorted_inv in Hs as [_ Hs]. rewrite Forall_forall in Hs.
    destruct (Hs x Hx) as [H|[H _]]; [by apply Lex.lt_le|rewrite H; apply Lex.le_refl]. }
  destruct (Z.eqb_spec (part (mt_key e)) cur) as [Heq|Hne]; cbn [negb].
  - replace (range ++ e :: l) with ((range ++ [e]) ++ l) in * by (by rewrite <- app_assoc).
    apply IH; try done. apply Forall_app. split; [done|by repeat constructor].
  - destruct (IH (part (mt_key e)) [e]) as (H1 & H2 & H3 & H4).
    + by apply StronglySorted_app_1_r in Hs.
    + by apply Forall_app in Hk as [_ Hk].
    + by repeat constructor.
    + by apply Forall_forall.
    + rewrite !fmap_cons, mjoin_cons, H1. cbn [fst snd]. split_ands.
      * done.
      * by constructor.
      * constructor; [done|]. apply Forall_fmap. eapply Forall_impl; [exact H4|]. cbv beta. cbn. lia.
      * constructor; [cbn; lia|]. eapply Forall_impl; [exact H4|]. cbv beta. lia.
Qed.

(** The run of a partition among those of a flush. *)
Fixpoint run_for (pid : Z) (runs : list (Z * list kv)) : option (list kv) :=
  match runs with
  | [] => None
  | r :: runs => if r.1 =? pid then Some r.2 else run_for pid runs
  end.

Lemma run_for_None pid (runs : list (Z * list kv)) : Forall (fun r => r.1 <> pid) runs -> run_for pid runs = None.
Proof. induction 1 as [|r runs H _ IH]; [done|]. cbn. by rewrite (proj2 (Z.eqb_neq _ _) H). Qed.

(** The run of a key's partition has what the whole table has. *)
Lemma run_for_value rs key :
  Forall range_ok rs -> StronglySorted Z.lt rs.*1 ->
  first_value (mjoin (snd <$> rs)) key =
  match run_for (part key) ((fun r => (r.1, run_of r.2)) <$> rs) with
  | Some run => assoc key run
  | None => None
  end.
Proof.
  intros Hok. induction Hok as [|r rs Hr Hok IH]; intros Hs; [done|].
  rewrite !fmap_cons, mjoin_cons. cbn [run_for fst snd]. rewrite fmap_cons in Hs.
  apply StronglySorted_inv in Hs as [Hs Hlt]. destruct (Z.eqb_spec r.1 (part key)) as [Heq|Hne].
  - rewrite assoc_run_of. assert (first_value (mjoin (snd <$> rs)) key = None) as Hn.
    { rewrite IH by done. rewrite run_for_None; [done|]. apply Forall_fmap. rewrite Forall_fmap in Hlt.
      eapply Forall_impl; [exact Hlt|]. cbv beta. cbn. intros x H. lia. }
    clear -Hn. induction r.2 as [|e l IH]; [exact Hn|]. cbn. by destruct (Lex.eqb (mt_key e) key).
  - rewrite first_value_app; [by apply IH|]. eapply Forall_impl; [exact Hr|]. cbv beta.
    intros e He Hk. congruence.
Qed.
End ranges.

(** ** Lemmas on pushes *)

Lemma push_ssts_lookup epoch parts runs pid :
  NoDup runs.*1 ->
  push_ssts epoch parts runs !! pid =
  match run_for pid runs with
  | Some run => (fun p => push_l0 p epoch run) <$> parts !! pid
  | None => parts !! pid
  end.
Proof.
  unfold push_ssts. revert parts. induction runs as [|r runs IH]; intros parts Hnd; [done|].
  rewrite fmap_cons in Hnd. apply NoDup_cons in Hnd as [Hni Hnd]. cbn [foldl run_for]. rewrite IH by done.
  destruct (Z.eqb_spec r.1 pid) as [<-|Hne].
  - rewrite run_for_None; [by rewrite lookup_alter_eq|]. apply Forall_forall. intros x Hx E. apply Hni.
    apply list_elem_of_fmap. by exists x.
  - by rewrite lookup_alter_ne by done.
Qed.

Lemma run_for_elem pid (runs : list (Z * list kv)) run : run_for pid runs = Some run -> (pid, run) ∈ runs.
Proof.
  induction runs as [|r runs IH]; [done|]. cbn. destruct (Z.eqb_spec r.1 pid) as [<-|Hne].
  - intros [= <-]. destruct r. by left.
  - intros H. right. auto.
Qed.

(** ** What writes keep *)

(** The epoch a put has taken for the table it will switch. *)
Definition waiting (pc : put_pc) : list Z := match pc with PutSlot ep | PutTable ep => [ep] | _ => [] end.

Definition epochs (pc : put_pc) (m : memtable) : list Z := (m_pending m).*1 ++ waiting pc ++ [m_flush_epoch m].

Section keep.
Context (P : memtable_entry -> Prop) (lo : Z).

(** The entries satisfy [P]; the epochs of pending flushes increase
    towards the next one, all above [lo]. *)
Definition kept_ok (pc : put_pc) (m : memtable) : Prop :=
  Forall (fun t => Forall P (mb_entries t)) (mem_tables m) /\
  StronglySorted Z.lt (epochs pc m) /\ Forall (Z.lt lo) (epochs pc m).

Lemma kept_freeze current m ep m' :
  kept_ok (PutAcquire current) m -> flush_freeze m = (m', ep) -> kept_ok (PutSlot ep) m'.
Proof.
  intros (H1 & H2 & H3) [= <- <-]. unfold kept_ok, epochs in *. cbn [waiting m_pending m_flush_epoch app] in *.
  assert (Forall (fun x => x < m_flush_epoch m + 1) ((m_pending m).*1 ++ [m_flush_epoch m])) as Hlt.
  { apply Forall_app. split; [|repeat constructor; lia]. apply Forall_forall. intros x Hx.
    pose proof (StronglySorted_app_1_elem_of _ _ _ _ (m_flush_epoch m) H2 Hx ltac:(by left)). lia. }
  replace ((m_pending m).*1 ++ [m_flush_epoch m; m_flush_epoch m + 1])
    with (((m_pending m).*1 ++ [m_flush_epoch m]) ++ [m_flush_epoch m + 1]) by (by rewrite <- app_assoc).
  split; [done|]. split; [by apply StronglySorted_snoc|].
  apply Forall_app. split; [done|]. apply Forall_app in H3 as [_ H3]. rewrite Forall_singleton in H3 |- *. lia.
Qed.

Lemma kept_table m t s g pc :
  kept_ok pc m -> Forall P (mb_entries t) -> kept_ok pc (mk_memtable s t (m_pending m) (m_flush_epoch m) g).
Proof.
  intros (H1 & H2 & H3) Ht. split; [|done]. unfold mem_tables in *. cbn [m_pending m_table].
  apply Forall_app in H1 as [H1 _]. apply Forall_app. split; [done|]. by apply Forall_singleton.
Qed.

Lemma kept_current pc m : kept_ok pc m -> Forall P (mb_entries (m_table m)).
Proof. intros (H1 & _). apply Forall_app in H1 as [_ H1]. by rewrite Forall_singleton in H1. Qed.

Lemma put_attempt_kept cap tid m key v pc :
  (forall s, P (mk_mt_entry key s v)) -> kept_ok pc m -> kept_ok pc (put_attempt cap tid m key v).1.
Proof.
  intros HP Hm. unfold put_attempt. destruct (mb_arenas (m_table m) !! tid); [|done].
  pose proof (kept_current pc m Hm) as Hc. rewrite Forall_forall in Hc.
  destruct (allocate_many _ _ _) as [a' [|]]; [destruct (cap <? _)|]; cbn [fst]; (apply kept_table; [done|]); cbn [mb_entries];
    apply Forall_forall; intros x Hx; [..|by apply Hc];
    (apply skiplist_insert_elem in Hx as [->|Hx]; [apply HP|by apply Hc]).
Qed.

Lemma put_step_kept cap n tid m key v pc m' pc' :
  (forall s, P (mk_mt_entry key s v)) -> kept_ok pc m -> put_async_step cap n tid key v m pc = Some (m', pc') -> kept_ok pc' m'.
Proof.
  intros HP Hm. destruct pc as [[|]|ep|ep|]; cbn [put_async_step].
  - destruct (g_frozen _); [done|]. pose proof (put_attempt_kept cap tid m key v _ HP Hm) as Ha.
    destruct (put_attempt cap tid m key v) as [m1 [s|]]; cbn [fst] in Ha.
    + intros [= <- <-]. unfold append_wal. change (kept_ok (PutAcquire true) (append_wal m1 (mk_wal_entry s key v))).
      apply kept_table; [done|]. by apply (kept_current (PutAcquire true)).
    + destruct (flush_freeze m1) as [m2 ep] eqn:E. intros [= <- <-]. by eapply kept_freeze.
  - by intros [= <- <-].
  - unfold flush_slot. destruct (g_slots _); [done|]. by intros [= <- <-].
  - unfold flush_switch. destruct (g_pipelined _); [|done]. intros [= <- <-]. destruct Hm as (H1 & H2 & H3).
    unfold kept_ok, mem_tables, epochs in *. cbn [waiting m_pending m_table m_flush_epoch app] in *. rewrite !fmap_app. cbn [fmap list_fmap fst snd].
    rewrite <- !app_assoc. split; [|done]. rewrite app_assoc. apply Forall_app. split; [done|]. by repeat constructor.
  - done.
Qed.
End keep.

(** ** The invariant *)

Definition key_ok2 (k : bytes) : Prop := (2 <= length k)%nat /\ Forall byte_ok k.

Definition mt_entry_ok (e : memtable_entry) : Prop :=
  key_ok2 (mt_key e) /\ item_ok (mt_key e, mt_value e).

Lemma entry_fits_page x : entry_fits x -> (length x.2 <= PAGE_SIZE_IN_BYTES)%nat.
Proof.
  unfold entry_fits, page_used. intros H. change (entries_bytes 4 0 [] [x]) with (restart_entry x.1 x.2 ++ []) in H.
  unfold restart_entry, value_bytes in H. rewrite !length_app in H. lia.
Qed.

Lemma entry_fits_value x : entry_fits x -> Z.of_nat (length x.2) <= EXTENT_BYTES - 16.
Proof. intros H%entry_fits_page. unfold EXTENT_BYTES, PAGE_SIZE_IN_BYTES, KiB in *. lia. Qed.

Section inv.
Context {reader : SstReader} (cfg : db_config).
Context (Hexp : 0 <= num_partition_exponent cfg <= MAX_PARTITION_EXPONENT).
Context (Hlevels : (0 < max_num_levels cfg)%nat) (Hcap : EXTENT_BYTES <= memtable_budget_bytes cfg).

Abbreviation route := (_find_matching_partition_for_key cfg).
Abbreviation ids := (partition_ids (num_partition_exponent cfg)).

Lemma route_in k : route k ∈ ids.
Proof.
  unfold _find_matching_partition_for_key, find_partition_prefix_for_key.
  apply find_partition_prefix_in; [unfold MAX_PARTITION_EXPONENT in Hexp; lia|apply extract_prefix_range].
Qed.

Lemma route_mono a b : key_ok2 a -> key_ok2 b -> Lex.le a b -> route a <= route b.
Proof.
  intros [La Ha] [Lb Hb] Hle. unfold _find_matching_partition_for_key, find_partition_prefix_for_key.
  apply find_partition_prefix_mono; [unfold MAX_PARTITION_EXPONENT in Hexp; lia| |apply extract_prefix_range].
  split; [apply extract_prefix_range|by apply extract_prefix_mono].
Qed.

Definition write_runs (ws : list write_t) : list (list kv) := (fun w => [(w.1, tagged_write w)]) <$> ws.

Definition pc_of (op : option write_op) : put_pc := match op with Some o => wo_pc o | None => PutDone end.

(** The write under way is one the database accepts, and not at its end. *)
Definition op_ok (op : option write_op) : Prop :=
  match op with Some o => write_ok (wo_write o) /\ (wo_tid o < num_threads cfg)%nat /\ wo_pc o <> PutDone | None => True end.

(** The database holds the writes [ws], in the tables and in the runs
    [logs] of the partitions, whose epochs go up to [lo]. *)
Record db_inv (d : database) (op : option write_op) (logs : Z -> log_t) (lo : Z) (ws : list write_t) : Prop := {
  di_op : op_ok op;
  di_mem : mem_ok (num_threads cfg) (db_memtable d);
  di_gate : gate_ok (max_pending_flushes cfg) (pc_of op) (db_memtable d);
  di_phase : exists rank, put_phase (memtable_budget_bytes cfg) (num_threads cfg) (db_memtable d) (pc_of op) rank /\ (rank <= 6)%nat;
  di_kept : kept_ok mt_entry_ok lo (pc_of op) (db_memtable d);
  di_parts pid : pid ∈ ids -> exists p, db_partitions d !! pid = Some p /\
    reachable (max_num_levels cfg) p (logs pid) /\ Forall (fun x => x.1 <= lo) (logs pid);
  di_abs k : latest ((logs (route k)).*2 ++ mem_runs (db_memtable d)) k = latest (write_runs ws) k;
}.

(** The writes that reads see: those acknowledged, and perhaps the one under
    way. *)
Definition seen (op : option write_op) (ws ws' : list write_t) : Prop :=
  ws' = ws \/ exists o, op = Some o /\ ws' = ws ++ [wo_write o].

Lemma db_inv_new d : make_new cfg = Ok d -> db_inv d None (fun _ => []) (-1) [].
Proof.
  unfold make_new, _validate_config. destruct (_ <? _); [done|]. intros [= <-]. split; cbn [db_memtable db_partitions pc_of].
  - done.
  - apply make_memtable_ok.
  - apply make_memtable_gate.
  - exists 0%nat. split; [done|lia].
  - split; [by repeat constructor|]. split; repeat constructor.
  - intros pid Hpid. exists (make_partition (max_num_levels cfg)). split_ands; [|constructor|constructor].
    apply elem_of_list_to_map_1'.
    + intros y Hy. apply list_elem_of_fmap in Hy as (x & [= _ ->] & _). done.
    + apply list_elem_of_fmap. by exists pid.
  - done.
Qed.

Lemma latest_write ws w k :
  latest (write_runs (ws ++ [w])) k = if Lex.eqb w.1 k then Some (tagged_write w) else latest (write_runs ws) k.
Proof. unfold write_runs. rewrite fmap_app, latest_app. cbn. by destruct (Lex.eqb w.1 k). Qed.

Lemma tagged_write_ok w : value_ok (tagged_write w).
Proof. destruct w as [k [v|]]; done. Qed.

Lemma write_step_put tid d w pc d' pc' :
  write_step cfg tid w d pc = Some (d', pc') <->
  exists m', put_async_step (memtable_budget_bytes cfg) (num_threads cfg) tid w.1 (tagged_write w) (db_memtable d) pc = Some (m', pc') /\
    d' = mk_database m' (db_partitions d).
Proof.
  unfold write_step, db_put, db_remove, tagged_write. destruct w as [k [v|]]; cbn [fst snd];
    (split; [|intros (m' & -> & ->); done]); (destruct (put_async_step _ _ _ _ _ _ _) as [[m1 pc1]|]; [|done]); intros [= <- <-]; by exists m1.
Qed.

Lemma db_inv_begin d logs lo ws tid w current :
  db_inv d None logs lo ws -> write_ok w -> (tid < num_threads cfg)%nat -> m_seq_nr (db_memtable d) + 2 <= UINT64_MAX ->
  db_inv d (Some (mk_write_op tid w (PutAcquire current))) logs lo ws.
Proof.
  intros [_ H2 H3 _ H5 H6 H7] Hw Htid Hseq. split; cbn [pc_of wo_pc]; try done; [by apply gate_start|].
  exists (if current then 5 else 6)%nat. split; [by left|destruct current; lia].
Qed.

Lemma db_inv_write d logs lo ws ws' o d' pc :
  db_inv d (Some o) logs lo ws' -> seen (Some o) ws ws' -> write_step cfg (wo_tid o) (wo_write o) d (wo_pc o) = Some (d', pc) ->
  exists ws2, db_inv d' (next_op o pc) logs lo ws2 /\ seen (next_op o pc) (ws ++ acknowledged o pc) ws2.
Proof.
  intros [(Hw & Htid & _) H2 H3 (r & H4 & H4') H5 H6 H7] Hseen E. apply write_step_put in E as (m' & E & ->). set (w := wo_write o) in *.
  cbn [pc_of] in *. assert (Hf := Hw). destruct Hf as (Hk1 & Hk2 & Hf).
  destruct (put_step_spec (memtable_budget_bytes cfg) (num_threads cfg) (wo_tid o) w.1 (tagged_write w) Hcap Htid
    (entry_fits_value _ Hf) (tagged_write_ok w) (db_memtable d) (wo_pc o) r m' pc H2 H4 E) as (O & _ & (r' & P & Hr) & U & _).
  assert (Hpc : pc_of (next_op o pc) = pc) by (by destruct pc).
  assert (Hinv : forall ws2, (forall k, latest ((logs (route k)).*2 ++ mem_runs m') k = latest (write_runs ws2) k) ->
    db_inv (mk_database m' (db_partitions d)) (next_op o pc) logs lo ws2).
  { intros ws2 Habs. split; rewrite ?Hpc; cbn [db_memtable db_partitions]; try done.
    - destruct pc; done.
    - by eapply put_step_gate.
    - exists r'. split; [done|lia].
    - eapply put_step_kept; [|exact H5|exact E]. intros s. split; cbn [mt_key mt_value].
      + split; [lia|done].
      + split; [cbn [fst]; lia|]. split; [done|]. apply tagged_write_ok. }
  assert (Hold : forall k, Lex.eqb w.1 k = false -> latest (write_runs ws') k = latest (write_runs ws) k).
  { intros k Hk. destruct Hseen as [->|(o' & [= <-] & ->)]; [done|]. fold w. by rewrite latest_write, Hk. }
  destruct U as [U|[Hnd U]].
  - exists (ws ++ [w]). split.
    + apply Hinv. intros k. rewrite latest_write, latest_app, U. destruct (Lex.eqb w.1 k) eqn:Ek; [done|].
      rewrite <- (Hold k Ek), <- H7, latest_app. done.
    + destruct pc; cbn [next_op acknowledged]; [right; eexists; split; [done|]; by rewrite app_nil_r..|by left].
  - exists ws'. split; [apply Hinv; intros k; rewrite <- H7, !latest_app; by rewrite U|].
    destruct pc; cbn [next_op acknowledged]; [..|done]; rewrite app_nil_r; destruct Hseen as [->|(o' & [= <-] & ->)]; [by left|right; by eexists|by left|right; by eexists|by left|right; by eexists].
Qed.

Lemma db_inv_background d op logs lo ws b m :
  db_inv d op logs lo ws -> b <> FlushDone -> background_step b (db_memtable d) = Some m ->
  db_inv (mk_database m (db_partitions d)) op logs lo ws.
Proof.
  intros [H1 H2 H3 (r & H4 & H4') H5 H6 H7] Hb E. pose proof (background_tables _ _ _ E) as (E1 & E2 & E3 & E4).
  assert (m_pending m = m_pending (db_memtable d)) as E5.
  { destruct b; [done|..]; cbn [background_step] in E; repeat case_match; simplify_eq; done. }
  split; cbn [db_memtable db_partitions]; try done.
  - by eapply background_ok.
  - by eapply background_gate.
  - exists r. split; [by eapply background_phase|done].
  - unfold kept_ok, epochs, mem_tables in *. by rewrite E5, E2, E3.
  - intros k. rewrite <- H7. unfold mem_runs, mem_tables. by rewrite E5, E2.
Qed.

(** The runs of a flush. *)
Lemma flush_runs l :
  StronglySorted mt_lt l -> Forall mt_entry_ok l ->
  let runs := flush_memtable (num_partition_exponent cfg) l in
  NoDup runs.*1 /\ Forall (fun r => run_ok r.2) runs /\
  forall k, match run_for (route k) runs with Some run => assoc k run | None => None end = assoc k (run_of l).
Proof.
  intros Hs Hok. cbv zeta. unfold flush_memtable, partition_ranges.
  destruct l as [|e l]; [split_ands; try constructor; done|].
  assert (Forall (fun x => key_ok2 (mt_key x)) (e :: l)) as Hk by (eapply Forall_impl; [exact Hok|]; by intros x [? _]).
  destruct (ranges_loop_spec route key_ok2 route_mono (e :: l) (route (mt_key e)) []) as (H1 & H2 & H3 & H4); try done.
  { by apply Forall_nil. }
  { constructor; [done|]. apply Forall_cons in Hk as [Hke Hk]. apply StronglySorted_inv in Hs as [_ Hs].
    rewrite Forall_forall in *. intros x Hx. apply route_mono; auto.
    destruct (Hs x Hx) as [H|[H _]]; [by apply Lex.lt_le|rewrite H; apply Lex.le_refl]. }
  change (fun key => find_partition_prefix_for_key key (partition_size (num_partition_exponent cfg))) with route.
  set (rs := ranges_loop route _ [] (e :: l)) in *. rewrite app_nil_l in H1. split_ands.
  - rewrite <- list_fmap_compose. by apply StronglySorted_NoDup.
  - apply Forall_fmap, Forall_forall. intros r Hr. cbn.
    assert (r.2 ∈ snd <$> rs) as Hin by by apply list_elem_of_fmap_2.
    apply list_elem_of_split in Hin as (a & b & Eab). rewrite Eab, mjoin_app, mjoin_cons in H1.
    rewrite <- H1 in Hs, Hok. apply StronglySorted_app_1_r, StronglySorted_app_1_l in Hs.
    apply Forall_app in Hok as [_ Hok]. apply Forall_app in Hok as [Hok _].
    split; [by apply mt_sorted_kvs, newest_versions_spec|]. unfold run_of. apply Forall_fmap, Forall_forall.
    intros x Hx. apply newest_versions_spec in Hx as [Hx _]; [|done|done]. rewrite Forall_forall in Hok. by apply Hok.
  - intros k. rewrite assoc_run_of, <- H1. symmetry. by apply (run_for_value route).
Qed.

Lemma kept_ok_drop P lo pc s t ep u pending fe g g' :
  kept_ok P lo pc (mk_memtable s t ((ep, u) :: pending) fe g) ->
  kept_ok P ep pc (mk_memtable s t pending fe g') /\ lo < ep /\ Forall P (mb_entries u).
Proof.
  intros (H1 & H2 & H3). unfold kept_ok, mem_tables, epochs in *. cbn [m_pending m_table m_flush_epoch] in *.
  rewrite fmap_cons in *. cbn [fst snd app] in *. apply Forall_cons in H1 as [H1 H1'], H3 as [H3 H3'].
  apply StronglySorted_inv in H2 as [H2 H2']. by split_ands.
Qed.

(** The runs that a flush adds. *)
Definition flushed (logs : Z -> log_t) (ep : Z) (l : list memtable_entry) (pid : Z) : log_t :=
  logs pid ++ match run_for pid (flush_memtable (num_partition_exponent cfg) l) with Some run => [(ep, run)] | None => [] end.

Lemma finish_flush_eq d ep u pending d' :
  m_pending (db_memtable d) = (ep, u) :: pending -> finish_flush cfg d = Some d' ->
  exists m', background_step FlushDone (db_memtable d) = Some m' /\
    d' = mk_database m' (push_ssts ep (db_partitions d) (flush_memtable (num_partition_exponent cfg) (mb_entries u))).
Proof.
  intros Hp. unfold finish_flush. rewrite Hp. destruct (background_step FlushDone (db_memtable d)) as [m'|]; [|done].
  intros [= <-]. by exists m'.
Qed.

Lemma db_inv_flush d op logs lo ws ep u pending d' :
  db_inv d op logs lo ws -> m_pending (db_memtable d) = (ep, u) :: pending -> finish_flush cfg d = Some d' ->
  db_inv d' op (flushed logs ep (mb_entries u)) ep ws.
Proof.
  intros [H0 H1 Hg (r & Hph & Hr) H2 H3 H4] Hp Hf. destruct (finish_flush_eq _ _ _ _ _ Hp Hf) as (m' & Eb & ->).
  assert (Hok : mem_ok (num_threads cfg) m') by (by eapply background_ok).
  assert (Hg' : gate_ok (max_pending_flushes cfg) (pc_of op) m') by (by eapply background_gate).
  assert (Hph' := background_phase _ _ _ _ _ _ _ Eb Hph). clear Hf.
  destruct d as [[s t pend fe g] parts]. cbn [db_memtable db_partitions m_pending] in *. subst pend.
  destruct H1 as [_ Htab _]. cbn in Htab. apply Forall_cons in Htab as [[[Hsorted _] _] _].
  cbn in Eb. injection Eb as <-. eapply kept_ok_drop in H2 as (H2 & Hlo & Hent).
  set (runs := flush_memtable (num_partition_exponent cfg) (mb_entries u)).
  destruct (flush_runs (mb_entries u) Hsorted Hent) as (R1 & R2 & R3). fold runs in R1, R2, R3.
  unfold flushed. fold runs. split; cbn [db_memtable db_partitions]; [done|done|done|by exists r|exact H2| |].
  - intros pid Hpid. destruct (H3 pid Hpid) as (p & Hpp & Hrr & Hl). rewrite push_ssts_lookup by done.
    assert (Forall (fun x : Z * list kv => x.1 <= ep) (logs pid)) as Hle
      by (eapply Forall_impl; [exact Hl|]; cbv beta; intros; lia).
    destruct (run_for pid runs) as [run|] eqn:E.
    + rewrite Hpp. cbn. eexists. split; [done|]. split.
      * apply reach_push; [done| |].
        -- eapply Forall_impl; [exact Hl|]. cbv beta. intros; lia.
        -- apply run_for_elem in E. rewrite Forall_forall in R2. by apply R2 in E.
      * apply Forall_app. split; [done|]. apply Forall_singleton. done.
    + exists p. rewrite app_nil_r. done.
  - intros k. rewrite <- H4.
    change (mem_runs (mk_memtable s t ((ep, u) :: pending) fe g)) with (run_of (mb_entries u) :: mem_runs (mk_memtable s t pending fe g)).
    rewrite fmap_app, !latest_app. cbn [latest].
    change (mem_runs (mk_memtable s t pending fe (mk_gate (g_frozen g) (g_slots g) (g_pipelined g) (g_wals g) (S (g_closing g)) (g_resetting g))))
      with (mem_runs (mk_memtable s t pending fe g)).
    destruct (latest (mem_runs _) k); [done|]. rewrite <- (R3 k).
    destruct (run_for (route k) runs) as [run|]; cbn; [by destruct (assoc k run)|done].
Qed.

Lemma db_inv_compact d op logs lo ws pid p p' picked :
  db_inv d op logs lo ws -> db_partitions d !! pid = Some p -> compaction_step cfg p picked p' -> above_last cfg picked ->
  db_inv (mk_database (db_memtable d) (<[pid := p']> (db_partitions d))) op logs lo ws.
Proof.
  intros [H0 H1 Hg Hph H2 H3 H4] Hp Hstep Hlast. split; cbn [db_memtable db_partitions]; try done.
  intros q Hq. destruct (H3 q Hq) as (p0 & Hp0 & Hr & Hl). destruct (decide (q = pid)) as [->|Hne].
  - rewrite Hp in Hp0. injection Hp0 as <-. rewrite lookup_insert_eq. exists p'. split; [done|]. split; [|done].
    destruct Hstep as [min_w max_w level Hw Hlv|level p' Hpub|level i p' Hfail].
    + by apply reach_compact.
    + by eapply reach_publish.
    + by eapply reach_fail.
  - rewrite lookup_insert_ne by done. by exists p0.
Qed.

Lemma db_inv_step d op logs lo ws ws' d' op' acked fl :
  db_inv d op logs lo ws' -> seen op ws ws' -> db_step cfg d op d' op' acked fl ->
  exists logs2 lo2 ws2, db_inv d' op' logs2 lo2 ws2 /\ seen op' (ws ++ acked) ws2.
Proof.
  intros Hi Hs Hstep. destruct Hstep as [tid w cur Hw Htid Hseq|o d' pc E|op d' [ep u] pend Hp Hf|op b m Hb E|op pid p p' picked Hp Hc Hl]; rewrite ?app_nil_r.
  - exists logs, lo, ws'. split; [by apply db_inv_begin|]. destruct Hs as [->|(o & ? & _)]; [by left|done].
  - destruct (db_inv_write _ _ _ _ _ _ _ _ Hi Hs E) as (ws2 & Hi2 & Hs2). by exists logs, lo, ws2.
  - eexists _, ep, ws'. split; [by eapply db_inv_flush|done].
  - exists logs, lo, ws'. split; [by eapply db_inv_background|done].
  - exists logs, lo, ws'. split; [by eapply db_inv_compact|done].
Qed.

Lemma db_reachable_inv d op ws : db_reachable cfg d op ws -> exists logs lo ws', db_inv d op logs lo ws' /\ seen op ws ws'.
Proof.
  induction 1 as [d Hd|d op ws d' op' acked fl _ (logs & lo & ws' & Hi & Hs) Hstep].
  - exists (fun _ => []), (-1), []. split; [by apply db_inv_new|by left].
  - by eapply db_inv_step.
Qed.

(** *** Completing a write *)

Lemma awaited_tail m pc b bs m' : awaited m pc = b :: bs -> background_step b m = Some m' -> awaited m' pc = bs.
Proof.
  intros Ha Hb. destruct pc as [c|ep|ep|]; cbn [awaited] in *; [done| | |done].
  - destruct (g_slots (m_gate m)) as [|sl] eqn:Es; [|done]. destruct (g_closing (m_gate m)) as [|c] eqn:Ec; injection Ha as <- <-;
      cbn [background_step] in Hb; [destruct (m_pending m); [done|]|rewrite Ec in Hb]; injection Hb as <-; cbn; by rewrite ?Es, ?Ec.
  - destruct (g_pipelined (m_gate m)) eqn:Ep; [done|]. destruct (g_wals (m_gate m)) as [|w] eqn:Ew; injection Ha as <- <-;
      cbn [background_step] in Hb; [destruct (g_resetting (m_gate m)); [done|]|rewrite Ep, Ew in Hb]; injection Hb as <-; cbn; by rewrite ?Ep, ?Ew.
Qed.

Lemma awaited_length m pc : (length (awaited m pc) <= 2)%nat.
Proof. clear. destruct pc; cbn; repeat case_match; cbn; lia. Qed.

Lemma awaited_step_ok d o logs lo ws :
  (0 < max_pending_flushes cfg)%nat -> db_inv d (Some o) logs lo ws -> write_step cfg (wo_tid o) (wo_write o) d (wo_pc o) = None ->
  exists d', awaited_step cfg d (wo_pc o) = Some d' /\ (exists fl, db_step cfg d (Some o) d' (Some o) [] fl) /\
    (length (awaited (db_memtable d') (wo_pc o)) < length (awaited (db_memtable d) (wo_pc o)))%nat.
Proof.
  intros Hmpf Hi Hno. destruct (di_op _ _ _ _ _ Hi) as (_ & _ & Hpc). set (w := wo_write o) in *.
  destruct (put_goes_on (memtable_budget_bytes cfg) (num_threads cfg) (max_pending_flushes cfg) (wo_tid o) w.1 (tagged_write w)
    (db_memtable d) (wo_pc o) Hmpf (di_gate _ _ _ _ _ Hi) Hpc) as (m1 & E1 & [m2 pc2] & E2).
  unfold awaited_step. destruct (awaited (db_memtable d) (wo_pc o)) as [|b bs] eqn:Ea.
  { injection E1 as <-. assert (H : write_step cfg (wo_tid o) w d (wo_pc o) = Some (mk_database m2 (db_partitions d), pc2)).
    { apply write_step_put. by exists m2. } congruence. }
  cbn [background_steps] in E1. destruct (background_step b (db_memtable d)) as [m'|] eqn:Eb; [|done]. clear E1 E2.
  pose proof (awaited_tail _ _ _ _ _ Ea Eb) as Ht.
  assert (b <> FlushDone -> db_step cfg d (Some o) (mk_database m' (db_partitions d)) (Some o) [] []) as Hbg by (intros; by eapply step_background).
  destruct b; cbn [mbind option_bind]; [|eexists; split; [done|]; split; [eexists; by apply Hbg|cbn [db_memtable]; rewrite Ht; cbn; lia]..].
  destruct (m_pending (db_memtable d)) as [|[ep u] pend] eqn:Ep; [by cbn in Eb; rewrite Ep in Eb|].
  assert (finish_flush cfg d = Some (mk_database m' (push_ssts ep (db_partitions d) (flush_memtable (num_partition_exponent cfg) (mb_entries u))))) as Ef.
  { unfold finish_flush. by rewrite Ep, Eb. }
  rewrite Ef. eexists. split; [done|]. split; [eexists; by eapply step_flush|]. cbn [db_memtable]. rewrite Ht. cbn. lia.
Qed.

Lemma complete_write_ok fuel d o logs lo ws ws' rank :
  (0 < max_pending_flushes cfg)%nat -> db_reachable cfg d (Some o) ws -> db_inv d (Some o) logs lo ws' -> seen (Some o) ws ws' ->
  put_phase (memtable_budget_bytes cfg) (num_threads cfg) (db_memtable d) (wo_pc o) rank ->
  (3 * rank + length (awaited (db_memtable d) (wo_pc o)) < fuel)%nat ->
  exists d', complete_write cfg fuel (wo_tid o) (wo_write o) d (wo_pc o) = Some d' /\ db_reachable cfg d' None (ws ++ [wo_write o]).
Proof.
  intros Hmpf. revert d o logs lo ws' rank. induction fuel as [|fuel IH]; intros d o logs lo ws' rank Hr Hi Hs Hph Hfuel; [lia|]. cbn [complete_write].
  destruct (write_step cfg (wo_tid o) (wo_write o) d (wo_pc o)) as [[d1 pc]|] eqn:E.
  - pose proof (db_next cfg _ _ _ _ _ _ _ Hr (step_write cfg d o d1 pc E)) as Hr1.
    destruct (db_inv_write _ _ _ _ _ _ _ _ Hi Hs E) as (ws2 & Hi2 & Hs2).
    assert (exists rank', put_phase (memtable_budget_bytes cfg) (num_threads cfg) (db_memtable d1) pc rank' /\ (rank' < rank)%nat) as (rank' & Hp' & Hlt).
    { destruct (di_op _ _ _ _ _ Hi) as ((_ & _ & Hf) & Htid & _). apply write_step_put in E as (m' & E & ->).
      destruct (put_step_spec _ _ _ _ _ Hcap Htid (entry_fits_value _ Hf) (tagged_write_ok _) _ _ _ _ _ (di_mem _ _ _ _ _ Hi) Hph E) as (_ & _ & H & _). exact H. }
    pose proof (awaited_length (db_memtable d1) pc) as Hl.
    destruct pc as [c|ep|ep|]; [..|by exists d1]; cbn [next_op acknowledged] in *; rewrite app_nil_r in Hr1, Hs2;
      refine (IH d1 (mk_write_op (wo_tid o) (wo_write o) _) logs lo ws2 rank' Hr1 Hi2 Hs2 Hp' _); cbn [wo_pc]; lia.
  - destruct (awaited_step_ok d o logs lo ws' Hmpf Hi E) as (d1 & -> & (fl & Hst) & Hlen). cbn [mbind option_bind].
    pose proof (db_next cfg _ _ _ _ _ _ _ Hr Hst) as Hr1. rewrite app_nil_r in Hr1.
    destruct (db_inv_step _ _ _ _ _ _ _ _ _ _ Hi Hs Hst) as (logs2 & lo2 & ws2 & Hi2 & Hs2). rewrite app_nil_r in Hs2.
    apply (IH d1 o logs2 lo2 ws2 rank); try done; [|lia].
    inversion Hst as [|o' d'' pc Ew Ed Eop Eop' Eack|op d'' x pend Hp Hf|op b m Hb Eb|]; subst.
    + by rewrite E in Ew.
    + destruct x as [ep u]. destruct (finish_flush_eq _ _ _ _ _ Hp Hf) as (m' & Eb & ->). by eapply background_phase.
    + by eapply background_phase.
    + done.
Qed.

(** *** Reading *)

Lemma spec_get_latest ws k :
  latest (write_runs ws) k = (fun o => tagged_write (k, o)) <$> spec_get ws k.
Proof.
  induction ws as [|w ws IH]; [done|]. unfold write_runs in *. rewrite fmap_cons. cbn [latest spec_get].
  rewrite IH. destruct (spec_get ws k) as [o|]; [done|]. cbn. destruct (Lex.eqb w.1 k); done.
Qed.

Lemma tagged_write_span w :
  value_from_span (tagged_write w) = Ok (match w.2 with Some v => VBytes v | None => VTombstone end) /\
  lookup_spec (Some (tagged_write w)) = Ok (match w.2 with Some v => VBytes v | None => VTombstone end).
Proof. destruct w as [k [v|]]; done. Qed.

Lemma get_async_spec d op logs lo ws k :
  db_inv d op logs lo ws ->
  match spec_get ws k with
  | Some (Some v) => get_async cfg d k = Some (Ok v)
  | Some None | None => exists e, get_async cfg d k = Some (Err e) /\ (error_code e = KEY_NOT_FOUND \/ error_code e = DELETED)
  end.
Proof.
  intros [_ H1 _ _ _ H3 H4]. specialize (H4 k). rewrite spec_get_latest, latest_app in H4.
  unfold get_async, _find_value. rewrite (memtable_get_spec (num_threads cfg)) by done.
  destruct (latest (mem_runs (db_memtable d)) k) as [v|] eqn:Em.
  - destruct (spec_get ws k) as [o|]; [|done]. cbn in H4. injection H4 as ->.
    rewrite (proj1 (tagged_write_span (k, o))). cbn. destruct o as [v|]; [done|]. eexists. split; [done|]. by right.
  - destruct (H3 (route k) (route_in k)) as (p & Hp & Hr & _). rewrite Hp. cbn [mbind option_bind].
    destruct (reachable_lookup (max_num_levels cfg) p (logs (route k)) k Hlevels Hr) as [_ Ho].
    destruct (reachable_lookup_total (max_num_levels cfg) p (logs (route k)) k Hlevels Hr) as [Hl|[x Hl]];
      rewrite Hl, H4 in Ho; rewrite Hl.
    + destruct (spec_get ws k) as [[v|]|]; [done|..]; eexists; (split; [done|by left]).
    + destruct (spec_get ws k) as [[v|]|]; cbn in Ho; destruct x; simplify_eq/=; [done|..];
        eexists; (split; [done|by right]).
Qed.
End inv.

Lemma reachable_exponent cfg d op ws : db_reachable cfg d op ws -> num_partition_exponent cfg <= MAX_PARTITION_EXPONENT.
Proof.
  induction 1 as [d Hd|]; try done. unfold make_new, _validate_config in Hd.
  destruct (Z.ltb_spec MAX_PARTITION_EXPONENT (num_partition_exponent cfg)); [done|lia].
Qed.

(** ** Properties *)

(** What [get_async] has to return after the writes [ws]. *)
Definition reads_as `{SstReader} (cfg : db_config) (d : database) (ws : list write_t) : Prop :=
  forall key,
    match spec_get ws key with
    | Some (Some v) => get_async cfg d key = Some (Ok v)
    | Some None | None =>
        exists e, get_async cfg d key = Some (Err e) /\ (error_code e = KEY_NOT_FOUND \/ error_code e = DELETED)
    end.


Lemma small_write_ok k v : (2 <= length k <= 4)%nat -> Forall byte_ok k -> (length v <= 4)%nat -> write_ok (k, Some v).
Proof.
  intros Hk Hb Hv. split; [unfold MAX_KEY_LEN; cbn [fst]; lia|]. split; [done|]. apply Nat.leb_le.
  destruct k as [|a [|b [|c [|e [|]]]]]; cbn in Hk; try lia; destruct v as [|x [|y [|z [|u [|]]]]]; cbn in Hv; try lia; vm_compute; reflexivity.
Qed.

