(* ===== verification/Restart.v ===== *)
(** * Restarting the database (database.cc: [load], sst_manager_loader.cc, wal.cc)

    What a database leaves on disk and what [database::load] makes of it,
    composed from the levels of the manifests (Persist), the log files (Wal)
    and the replay into a new memtable (Memtable). The first part relates
    the logs of the tables in memory to their contents. *)

From stdpp Require Import base list numbers strings sorting sets gmap.
From Stdlib Require Import ZArith Lia.
From S2P Require Import Prelude StdAlgo Types Utils Block BlockBuffer Wal Merge Sst SstManager Lsm Memtable Database.

Local Open Scope Z_scope.

(** ** The logs of the tables *)

(** The entries and the log of a table. *)
Abbreviation logged_table := (list memtable_entry * list wal_entry)%type.

Definition table_runs (ts : list logged_table) : list (list kv) := (fun t => run_of t.1) <$> ts.
Definition table_logs (ts : list logged_table) : list wal_entry := mjoin ts.*2.
Definition content (t : mem_buffer) : logged_table := (mb_entries t, mb_wal t).
Definition mem_log (m : memtable) : list wal_entry := mjoin (mb_wal <$> mem_tables m).

(** For every table, what it and the newer ones hold of the keys in [P] is
    what their logs hold; numbers increase along the logs, and a number in a
    log is above those in the older tables. *)
Record logged_ok (P : bytes -> Prop) (ts : list logged_table) (seq_nr : Z) : Prop := {
  lo_values i k : P k -> latest (table_runs (drop i ts)) k = last_value (table_logs (drop i ts)) k;
  lo_sorted : StronglySorted (fun a b => we_seq_nr a < we_seq_nr b) (table_logs ts);
  lo_bound w : w ∈ table_logs ts -> 0 <= we_seq_nr w < seq_nr;
  lo_entries i t e : ts !! i = Some t -> e ∈ t.1 -> 0 <= mt_seq e < seq_nr;
  lo_tables i j t u e w : ts !! i = Some t -> ts !! j = Some u -> (i < j)%nat -> e ∈ t.1 -> w ∈ u.2 -> mt_seq e < we_seq_nr w;
}.

Lemma table_runs_app a b : table_runs (a ++ b) = table_runs a ++ table_runs b.
Proof. apply fmap_app. Qed.

Lemma table_logs_app a b : table_logs (a ++ b) = table_logs a ++ table_logs b.
Proof. unfold table_logs. by rewrite fmap_app, mjoin_app. Qed.

Lemma table_logs_one t : table_logs [t] = t.2.
Proof. unfold table_logs. cbn. by rewrite app_nil_r. Qed.

Lemma last_value_app a b k : last_value (a ++ b) k = match last_value b k with Some v => Some v | None => last_value a k end.
Proof. unfold last_value. by rewrite fmap_app, latest_app. Qed.

Lemma last_value_one s key v k : last_value [mk_wal_entry s key v] k = if Lex.eqb key k then Some v else None.
Proof. done. Qed.

(** Where a lookup in tables with a changed last one ends. *)
Lemma lookup_last {A} (l : list A) x y i t :
  (l ++ [x]) !! i = Some t -> t = x /\ i = length l \/ (i < length l)%nat /\ (l ++ [y]) !! i = Some t.
Proof.
  intros Ht. apply lookup_app_Some in Ht as [Ht|[Hle Ht]].
  - right. split; [by eapply lookup_lt_Some|by apply lookup_app_l_Some].
  - left. destruct (i - length l)%nat eqn:E; [|done]. injection Ht as <-. split; [done|lia].
Qed.

Lemma logged_flush P ts s : logged_ok P ts s -> logged_ok P (ts ++ [([], [])]) s.
Proof.
  intros [L1 L2 L3 L4 L5]. assert (Hl : table_logs (ts ++ [([], [])]) = table_logs ts) by (rewrite table_logs_app, table_logs_one; apply app_nil_r).
  assert (Hin : forall i t, (ts ++ [([], [])]) !! i = Some t -> t = ([], []) \/ ts !! i = Some t).
  { intros i t Ht. apply lookup_app_Some in Ht as [Ht|[_ Ht]]; [by right|left]. apply list_elem_of_lookup_2 in Ht. by apply list_elem_of_singleton in Ht. }
  split; rewrite ?Hl; try done.
  - intros i k Hk. rewrite drop_app, table_runs_app, table_logs_app, latest_app, last_value_app, L1 by done.
    destruct (i - length ts)%nat as [|[|d]]; done.
  - intros i t e Ht He. apply Hin in Ht as [->|Ht]; [by apply elem_of_nil in He|by eapply L4].
  - intros i j t u e w Ht Hu Hij He Hw. apply Hin in Ht as [->|Ht]; [by apply elem_of_nil in He|].
    apply Hin in Hu as [->|Hu]; [by apply elem_of_nil in Hw|by eapply (L5 i j)].
Qed.

Section store.
Context (ts : list logged_table) (es : list memtable_entry) (ws : list wal_entry) (s : Z) (key v : bytes).
Context (Hs : 0 <= s) (Ht : table_ok s es).

Abbreviation e := (mk_mt_entry key s v).

Lemma run_store k : latest (table_runs [(skiplist_insert e es, ws)]) k = if Lex.eqb key k then Some v else latest (table_runs [(es, ws)]) k.
Proof.
  unfold table_runs. rewrite !list_fmap_singleton. cbn [latest fst]. rewrite !assoc_run_of, (first_value_insert e es) by done.
  cbn [mt_key mt_value]. by destruct (Lex.eqb key k).
Qed.

Lemma store_entries i t x :
  (ts ++ [(skiplist_insert e es, ws)]) !! i = Some t -> x ∈ t.1 ->
  (x = e /\ i = length ts) \/ exists t', (ts ++ [(es, ws)]) !! i = Some t' /\ x ∈ t'.1.
Proof.
  intros Hi Hx. apply (lookup_last _ _ (es, ws)) in Hi as [[-> ->]|[_ Hi]]; [|by eauto].
  apply skiplist_insert_elem in Hx as [->|Hx]; [by left|]. right. eexists. split; [by apply list_lookup_middle|done].
Qed.

(** A value stored in the last table, not in its log. *)
Lemma logged_store :
  logged_ok (fun k => k <> key) (ts ++ [(es, ws)]) s -> logged_ok (fun k => k <> key) (ts ++ [(skiplist_insert e es, ws)]) (s + 1).
Proof.
  intros [L1 L2 L3 L4 L5].
  assert (Hl : table_logs (ts ++ [(skiplist_insert e es, ws)]) = table_logs (ts ++ [(es, ws)])) by (by rewrite !table_logs_app, !table_logs_one).
  split; rewrite ?Hl; try done.
  - intros i k Hk. specialize (L1 i k Hk). rewrite drop_app, table_runs_app, table_logs_app, latest_app in L1 |- *.
    destruct (i - length ts)%nat as [|d]; [|exact L1]. cbn [drop] in *. rewrite !table_logs_one in *.
    rewrite run_store. destruct (Lex.eqb key k) eqn:E; [|exact L1]. apply Lex.eqb_eq in E. congruence.
  - intros w Hw. specialize (L3 w Hw). lia.
  - intros i t x Hi Hx. apply (store_entries i t x Hi) in Hx as [[-> _]|(t' & Hi' & Hx)]; [cbn; lia|]. specialize (L4 i t' x Hi' Hx). lia.
  - intros i j t u x w Hi Hj Hij Hx Hw. assert (Hu : exists u', (ts ++ [(es, ws)]) !! j = Some u' /\ w ∈ u'.2).
    { apply (lookup_last _ _ (es, ws)) in Hj as [[-> ->]|[_ Hj]]; [eexists; split; [by apply list_lookup_middle|done]|by eauto]. }
    destruct Hu as (u' & Hj' & Hw'). apply (store_entries i t x Hi) in Hx as [[-> ->]|(t' & Hi' & Hx)]; [|by eapply (L5 i j)].
    apply lookup_lt_Some in Hj'. rewrite length_app in Hj'. cbn in Hj'. lia.
Qed.

(** A value stored in the last table and appended to its log. *)
Lemma logged_commit :
  logged_ok (fun k => k <> key) (ts ++ [(es, ws)]) s ->
  logged_ok (fun _ => True) (ts ++ [(skiplist_insert e es, ws ++ [mk_wal_entry s key v])]) (s + 1).
Proof.
  intros L. pose proof (logged_store L) as [S1 S2 S3 S4 S5]. destruct L as [L1 L2 L3 L4 L5].
  assert (Hl : table_logs (ts ++ [(skiplist_insert e es, ws ++ [mk_wal_entry s key v])]) = table_logs (ts ++ [(es, ws)]) ++ [mk_wal_entry s key v])
    by (rewrite !table_logs_app, !table_logs_one; cbn [snd]; by rewrite app_assoc).
  assert (Hsame : forall i t, (ts ++ [(skiplist_insert e es, ws ++ [mk_wal_entry s key v])]) !! i = Some t ->
    exists t', (ts ++ [(skiplist_insert e es, ws)]) !! i = Some t' /\ t'.1 = t.1 /\
      forall w, w ∈ t.2 -> w ∈ t'.2 \/ w = mk_wal_entry s key v /\ i = length ts).
  { intros i t Hi. apply (lookup_last _ _ (skiplist_insert e es, ws)) in Hi as [[-> ->]|[_ Hi]]; [|by eauto].
    eexists. split; [by apply list_lookup_middle|]. split; [done|]. cbn. intros w Hw. apply elem_of_app in Hw as [Hw|Hw]; [by left|].
    apply list_elem_of_singleton in Hw. by right. }
  split; rewrite ?Hl.
  - intros i k _. destruct (decide (k = key)) as [->|Hne].
    + rewrite drop_app, table_runs_app, table_logs_app, latest_app, last_value_app.
      destruct (i - length ts)%nat as [|d] eqn:Ed; cbn [drop].
      * rewrite table_logs_one. cbn [snd]. rewrite last_value_app, last_value_one, Lex.eqb_refl.
        pose proof (run_store key) as R. rewrite Lex.eqb_refl in R. unfold table_runs in R |- *. rewrite list_fmap_singleton in R |- *. cbn [fst] in R |- *. by rewrite R.
      * rewrite drop_nil. rewrite drop_ge by lia. done.
    + specialize (S1 i k Hne). rewrite drop_app, table_runs_app, table_logs_app, latest_app, last_value_app in S1 |- *.
      destruct (i - length ts)%nat as [|d]; [|exact S1]. cbn [drop] in *. rewrite !table_logs_one in *. cbn [snd] in *.
      rewrite last_value_app, last_value_one. destruct (Lex.eqb key k) eqn:E; [apply Lex.eqb_eq in E; congruence|].
      unfold table_runs in *. rewrite list_fmap_singleton in *. exact S1.
  - apply StronglySorted_snoc; [done|]. apply Forall_forall. intros w Hw. apply L3 in Hw. cbn. lia.
  - intros w Hw. apply elem_of_app in Hw as [Hw|Hw]; [apply L3 in Hw; lia|]. apply list_elem_of_singleton in Hw as ->. cbn. lia.
  - intros i t x Hi Hx. destruct (Hsame i t Hi) as (t' & Hi' & E & _). rewrite <- E in Hx. by eapply S4.
  - intros i j t u x w Hi Hj Hij Hx Hw. destruct (Hsame i t Hi) as (t' & Hi' & E & _). rewrite <- E in Hx.
    destruct (Hsame j u Hj) as (u' & Hj' & _ & Hw'). destruct (Hw' w Hw) as [Hu|[-> ->]]; [by eapply (S5 i j)|]. cbn.
    apply (store_entries i t' x Hi') in Hx as [[-> ->]|(t2 & Hi2 & Hx)]; [lia|]. by apply (L4 i t2 x).
Qed.
End store.

Definition mem_content (m : memtable) : list logged_table := content <$> mem_tables m.

Lemma mem_log_content m : mem_log m = table_logs (mem_content m).
Proof. unfold mem_log, table_logs, mem_content. by rewrite <- list_fmap_compose. Qed.

Lemma mem_runs_content m : mem_runs m = table_runs (mem_content m).
Proof. unfold mem_runs, table_runs, mem_content. by rewrite <- list_fmap_compose. Qed.

Lemma content_split m : mem_content m = (content <$> (m_pending m).*2) ++ [content (m_table m)].
Proof. unfold mem_content, mem_tables. by rewrite fmap_app. Qed.

Lemma content_switch cap n ep m m' : flush_switch cap n ep m = Some m' -> mem_content m' = mem_content m ++ [([], [])].
Proof. unfold flush_switch. destruct (g_pipelined _); [|done]. intros [= <-]. rewrite !content_split. cbn [m_pending m_table]. by rewrite !fmap_app. Qed.

Lemma content_same m m' : m_pending m' = m_pending m -> m_table m' = m_table m -> mem_content m' = mem_content m.
Proof. intros E1 E2. by rewrite !content_split, E1, E2. Qed.

Lemma logged_weaken (P Q : bytes -> Prop) ts s : (forall k, Q k -> P k) -> logged_ok P ts s -> logged_ok Q ts s.
Proof. intros HPQ [L1 L2 L3 L4 L5]. split; auto. Qed.

Section put_logged.
Context (cap : Z) (n : nat) (tid : nat) (key v : bytes) (Htid : (tid < n)%nat) (Hv : value_ok v).

Lemma put_attempt_logged m m1 r :
  mem_ok n m -> m_seq_nr m < UINT64_MAX -> logged_ok (fun k => k <> key) (mem_content m) (m_seq_nr m) ->
  put_attempt cap tid m key v = (m1, r) ->
  match r with
  | Some s => logged_ok (fun _ => True) (mem_content (append_wal m1 (mk_wal_entry s key v))) (m_seq_nr m1)
  | None => logged_ok (fun k => k <> key) (mem_content m1) (m_seq_nr m1)
  end.
Proof.
  intros [Hm1 Hm2 Hm3] Hs L E. unfold put_attempt in E.
  assert (Hu : u64 (m_seq_nr m + 1) = m_seq_nr m + 1) by (apply wrap_small; unfold UINT64_MAX in *; lia).
  apply Forall_app in Hm2 as [_ Hm2]. apply Forall_singleton in Hm2 as [Hok _]. rewrite content_split in L.
  destruct (mb_arenas (m_table m) !! tid) as [a|]; [|injection E as <- <-; by rewrite content_split].
  destruct (allocate_many a _ _) as [a' [|]].
  - destruct (cap <? _); injection E as <- <-; rewrite content_split; cbn [m_pending m_table append_wal m_seq_nr]; rewrite Hu.
    + apply logged_store; [lia|done|done].
    + apply logged_commit; [lia|done|done].
  - injection E as <- <-. by rewrite content_split.
Qed.

(** The keys that the logs know: all but that of the write under way. *)
Definition logged_keys (pc : put_pc) (k : bytes) : Prop := match pc with PutDone => True | _ => k <> key end.

Lemma put_step_logged m pc m' pc' rank :
  mem_ok n m -> put_phase cap n m pc rank -> logged_ok (logged_keys pc) (mem_content m) (m_seq_nr m) ->
  put_async_step cap n tid key v m pc = Some (m', pc') -> logged_ok (logged_keys pc') (mem_content m') (m_seq_nr m').
Proof.
  intros Hm Hp L. destruct pc as [[|]|ep|ep|]; cbn [put_async_step].
  - destruct (g_frozen _); [done|]. destruct (put_attempt cap tid m key v) as [m1 r] eqn:Ea.
    pose proof (put_attempt_logged m m1 r Hm ltac:(cbn [put_phase] in Hp; lia) L Ea) as L1. destruct r as [s|]; by intros [= <- <-].
  - by intros [= <- <-].
  - unfold flush_slot. destruct (g_slots _); [done|]. by intros [= <- <-].
  - destruct (flush_switch cap n ep m) as [m1|] eqn:E; [|done]. intros [= <- <-]. rewrite (content_switch _ _ _ _ _ E).
    assert (m_seq_nr m1 = m_seq_nr m) as -> by (unfold flush_switch in E; destruct (g_pipelined _); [by injection E as <-|done]). by apply logged_flush.
  - done.
Qed.
End put_logged.

(** ** What the logs hold *)

(** An entry of the log of a write the database accepts. *)
Definition wal_item_ok (w : wal_entry) : Prop := mt_entry_ok (mk_mt_entry (we_key w) (we_seq_nr w) (we_value w)).

Lemma mem_log_split m : mem_log m = mjoin (mb_wal <$> (m_pending m).*2) ++ mb_wal (m_table m).
Proof. unfold mem_log, mem_tables. rewrite fmap_app, mjoin_app. cbn. by rewrite app_nil_r. Qed.

Lemma mem_log_same m m' : mem_content m' = mem_content m -> mem_log m' = mem_log m.
Proof. rewrite !mem_log_content. congruence. Qed.

Lemma put_attempt_log cap tid m key v : mem_log (put_attempt cap tid m key v).1 = mem_log m.
Proof.
  unfold put_attempt. destruct (mb_arenas (m_table m) !! tid) as [a|]; [|done]. destruct (allocate_many a _ _) as [a' [|]]; [destruct (cap <? _)|]; cbn [fst];
    rewrite !mem_log_split; done.
Qed.

(** A step of a put leaves the logs as they are, but for the last one, which
    appends the write under a number that is new. *)
Lemma put_step_log cap n tid m key v pc m' pc' :
  put_async_step cap n tid key v m pc = Some (m', pc') ->
  match pc' with
  | PutDone => mem_log m' = mem_log m ++ [mk_wal_entry (m_seq_nr m) key v]
  | _ => mem_log m' = mem_log m
  end.
Proof.
  destruct pc as [[|]|ep|ep|]; cbn [put_async_step].
  - destruct (g_frozen _); [done|]. pose proof (put_attempt_log cap tid m key v) as Hl.
    destruct (put_attempt cap tid m key v) as [m1 [s|]] eqn:Ea; cbn in Hl; intros [= <- <-].
    + assert (s = m_seq_nr m) as ->.
      { unfold put_attempt in Ea. destruct (mb_arenas (m_table m) !! tid) as [a|]; [|done]. destruct (allocate_many a _ _) as [a' [|]]; [destruct (cap <? _)|]; try done.
        by injection Ea as _ <-. }
      rewrite <- Hl, !mem_log_split. cbn. by rewrite app_assoc.
    + rewrite <- Hl. by apply mem_log_same.
  - by intros [= <- <-].
  - unfold flush_slot. destruct (g_slots _); [done|]. by intros [= <- <-].
  - destruct (flush_switch cap n ep m) as [m1|] eqn:E; [|done]. intros [= <- <-]. rewrite !mem_log_content, (content_switch _ _ _ _ _ E), table_logs_app, table_logs_one.
    apply app_nil_r.
  - done.
Qed.

(** ** The life of a database *)

Section life.
Context (cfg : db_config).

(** The largest sequence number of a flushed table, for the footers of its
    SSTs. *)
Definition max_seq (acc : Z) (l : list memtable_entry) : Z := foldr (fun e a => Z.max (mt_seq e) a) acc l.

(** What a step flushes to the SSTs: their largest sequence number and the
    epoch of the last flush. *)
Definition flushed_max (mx : Z) (fl : list (Z * mem_buffer)) : Z := foldl (fun mx x => max_seq mx (mb_entries x.2)) mx fl.
Definition flushed_epoch (lo : Z) (fl : list (Z * mem_buffer)) : Z := foldl (fun _ x => x.1) lo fl.

(** The states of a database since its creation, with the write under way,
    the largest sequence number its SSTs record, the epoch of the last
    finished flush and the writes acknowledged. *)
Inductive life : database -> option write_op -> Z -> Z -> list write_t -> Prop :=
  | life_new d : make_new cfg = Ok d -> life d None 0 (-1) []
  | life_step d op mx lo ws d' op' acked fl :
      life d op mx lo ws -> db_step cfg d op d' op' acked fl -> life d' op' (flushed_max mx fl) (flushed_epoch lo fl) (ws ++ acked).

(** A log entry is above what the SSTs record, the very first write apart. *)
Definition above (mx : Z) (w : wal_entry) : Prop := mx < we_seq_nr w \/ mx = 0 /\ we_seq_nr w = 0.

(** Is the very first write still in the log? *)
Definition has_first (l : list wal_entry) : bool := existsb (fun w => we_seq_nr w =? 0) l.
Definition log_kvs (l : list wal_entry) : list kv := (fun w => (we_key w, we_value w)) <$> l.

(** While nothing was written nothing is on disk; while the first write is
    in the log, the log is the history and nothing is on disk. *)
Record first_ok (m : memtable) (logs : Z -> log_t) (ws : list write_t) : Prop := {
  fo_start : m_seq_nr m = 0 -> ws = [] /\ forall pid, logs pid = [];
  fo_first : has_first (mem_log m) = true -> (forall pid, logs pid = []) /\ log_kvs (mem_log m) = (fun w => (w.1, tagged_write w)) <$> ws;
}.

Definition known_keys (op : option write_op) : bytes -> Prop :=
  match op with Some o => logged_keys (wo_write o).1 (wo_pc o) | None => fun _ => True end.

(** [ws] are the writes acknowledged, which the logs know of, [ws'] those
    that reads see. *)
Record life_inv (d : database) (op : option write_op) (mx lo : Z) (ws : list write_t) : Prop := {
  li_db : exists logs ws', db_inv cfg d op logs lo ws' /\ seen op ws ws' /\ first_ok (db_memtable d) logs ws;
  li_logged : logged_ok (known_keys op) (mem_content (db_memtable d)) (m_seq_nr (db_memtable d));
  li_items : Forall wal_item_ok (mem_log (db_memtable d));
  li_max : 0 <= mx /\ (mx = 0 \/ mx < m_seq_nr (db_memtable d));
  li_above : Forall (above mx) (mem_log (db_memtable d));
}.

Context (Hexp : 0 <= num_partition_exponent cfg <= MAX_PARTITION_EXPONENT).
Context (Hlevels : (0 < max_num_levels cfg)%nat) (Hcap : EXTENT_BYTES <= memtable_budget_bytes cfg).

Lemma max_seq_le acc l : acc <= max_seq acc l.
Proof. unfold max_seq. induction l as [|e l IH]; cbn [foldr]; lia. Qed.

Lemma max_seq_lt acc l b : acc < b -> (forall e, e ∈ l -> mt_seq e < b) -> max_seq acc l < b.
Proof.
  unfold max_seq. intros Ha. induction l as [|e l IH]; intros Hl; cbn [foldr]; [done|]. apply Z.max_lub_lt; [apply Hl; by left|].
  apply IH. intros x Hx. apply Hl. by right.
Qed.

Lemma empty_table {A} (l : list A) : (forall e, e ∈ l -> False) -> l = [].
Proof. destruct l as [|e l]; [done|]. intros H. by destruct (H e ltac:(left)). Qed.

Lemma logged_drop P t ts s : logged_ok P (t :: ts) s -> logged_ok P ts s.
Proof.
  intros [L1 L2 L3 L4 L5]. assert (Hl : table_logs (t :: ts) = t.2 ++ table_logs ts) by done. rewrite Hl in L2, L3. split.
  - intros i k Hk. by apply (L1 (S i)).
  - by apply StronglySorted_app_1_r in L2.
  - intros w Hw. apply L3, elem_of_app. by right.
  - intros i. apply (L4 (S i)).
  - intros i j u u' e w Hi Hj Hij. apply (L5 (S i) (S j)); [done|done|lia].
Qed.

Lemma life_inv_new d : make_new cfg = Ok d -> life_inv d None 0 (-1) [].
Proof.
  intros Hd. pose proof (db_inv_new cfg Hlevels d Hd) as Hi. unfold make_new, _validate_config in Hd. destruct (_ <? _); [done|].
  injection Hd as <-. split; [by eexists _, []; split; [done|]; split; [by left|]| |by constructor|split; [lia|by left]|by constructor]. cbn [db_memtable make_memtable m_seq_nr].
  apply (logged_flush (fun _ => True) []). split; try done; [intros i k _; by rewrite drop_nil|constructor|].
  intros w Hw. by apply elem_of_nil in Hw.
Qed.

Lemma write_item_ok w s : write_ok w -> wal_item_ok (mk_wal_entry s w.1 (tagged_write w)).
Proof. intros (Hk1 & Hk2 & Hf). split; [split; cbn; [lia|done]|]. split; [cbn; lia|]. split; [done|apply tagged_write_ok]. Qed.

(** The first write enters an empty log; later ones follow it. *)
Lemma first_ok_write m m' logs ws w :
  (forall x, x ∈ mem_log m -> 0 <= we_seq_nr x < m_seq_nr m) -> first_ok m logs ws ->
  mem_log m' = mem_log m ++ [mk_wal_entry (m_seq_nr m) w.1 (tagged_write w)] -> m_seq_nr m < m_seq_nr m' -> 0 <= m_seq_nr m ->
  first_ok m' logs (ws ++ [w]).
Proof.
  intros Hb [F1 F2] Hl Hs H0. split; [lia|]. rewrite Hl. unfold has_first, log_kvs. rewrite existsb_app. cbn. rewrite orb_false_r, !fmap_app. intros Hz.
  destruct (has_first (mem_log m)) eqn:Ef.
  - destruct (F2 eq_refl) as [F3 F4]. split; [done|]. unfold log_kvs in F4. by rewrite F4.
  - unfold has_first in Ef. rewrite Ef in Hz. apply Z.eqb_eq in Hz. destruct F1 as [-> F3]; [lia|]. split; [done|].
    rewrite (empty_table (mem_log m)); [done|]. intros x Hx. apply Hb in Hx. lia.
Qed.

Lemma life_inv_write d mx lo ws o d' pc :
  life_inv d (Some o) mx lo ws -> write_step cfg (wo_tid o) (wo_write o) d (wo_pc o) = Some (d', pc) ->
  life_inv d' (next_op o pc) mx lo (ws ++ acknowledged o pc).
Proof.
  intros [(logs & ws' & Hi & Hs & F) L It Hmx Ab] E.
  destruct (db_inv_write cfg Hlevels Hcap _ _ _ _ _ _ _ _ Hi Hs E) as (ws2 & Hi2 & Hs2). apply write_step_put in E as (m' & E & ->).
  destruct (di_op _ _ _ _ _ _ Hi) as (Hw & Htid & _). set (w := wo_write o) in *. pose proof (di_mem _ _ _ _ _ _ Hi) as Hm.
  destruct (di_phase _ _ _ _ _ _ Hi) as (r & Hph & _). cbn [pc_of] in Hph.
  destruct (put_step_spec _ _ _ _ _ Hcap Htid (entry_fits_value _ (proj2 (proj2 Hw))) (tagged_write_ok w) _ _ _ _ _ Hm Hph E) as (_ & Hsq & _).
  assert (L' : logged_ok (logged_keys w.1 pc) (mem_content m') (m_seq_nr m')) by (eapply put_step_logged; try exact E; eassumption).
  pose proof (put_step_log _ _ _ _ _ _ _ _ _ E) as Hl. pose proof (mo_seq _ _ Hm) as Hm0.
  assert (Hb : forall x, x ∈ mem_log (db_memtable d) -> 0 <= we_seq_nr x < m_seq_nr (db_memtable d)) by (intros x Hx; apply (lo_bound _ _ _ L); by rewrite <- mem_log_content).
  assert (pc = PutDone \/ pc <> PutDone) as [->|Hpc] by (destruct pc; auto).
  - cbn [next_op acknowledged] in *. fold w in Hs2 |- *. assert (m_seq_nr (db_memtable d) < m_seq_nr m') as Hlt.
    { assert (mk_wal_entry (m_seq_nr (db_memtable d)) w.1 (tagged_write w) ∈ table_logs (mem_content m')) as Hin by (rewrite <- mem_log_content, Hl; apply elem_of_app; right; by left).
      apply (lo_bound _ _ _ L') in Hin. cbn in Hin. lia. }
    split; cbn [db_memtable known_keys]; [|done| |lia|].
    + exists logs, ws2. split; [done|]. split; [done|]. by eapply first_ok_write; eauto; lia.
    + rewrite Hl. apply Forall_app. split; [done|]. apply Forall_singleton. by apply write_item_ok.
    + rewrite Hl. apply Forall_app. split; [done|]. apply Forall_singleton. unfold above. cbn. lia.
  - assert (mem_log m' = mem_log (db_memtable d) /\ acknowledged o pc = [] /\ known_keys (next_op o pc) = logged_keys w.1 pc) as (El & -> & Ek) by (by destruct pc).
    rewrite app_nil_r in *. split; cbn [db_memtable]; rewrite ?El, ?Ek; [|done|done|lia|done].
    exists logs, ws2. split; [done|]. split; [by destruct pc; cbn in Hs2; rewrite ?app_nil_r in Hs2|].
    destruct F as [F1 F2]. split; [|by rewrite El]. intros H0. apply F1. lia.
Qed.

Lemma life_inv_flush d op mx lo ws ep t pending d' :
  life_inv d op mx lo ws -> m_pending (db_memtable d) = (ep, t) :: pending -> finish_flush cfg d = Some d' ->
  life_inv d' op (max_seq mx (mb_entries t)) ep ws.
Proof.
  intros [(logs & ws' & Hi & Hseen & F1 & F2) L It [Hmx Hsq] Ab] Hp Hf. pose proof (db_inv_flush cfg Hexp Hlevels _ _ _ _ _ _ _ _ _ Hi Hp Hf) as Hi'.
  destruct (finish_flush_eq _ _ _ _ _ _ Hp Hf) as (m' & Eb & ->).
  pose proof (background_tables _ _ _ Eb) as (Es & Et & _ & Ets). cbn [erased] in Ets. rewrite Hp in Ets.
  assert (Ec : mem_content (db_memtable d) = content t :: mem_content m') by (unfold mem_content; by rewrite Ets).
  assert (El : mem_log (db_memtable d) = mb_wal t ++ mem_log m') by (rewrite !mem_log_content, Ec; done).
  rewrite Ec in L. rewrite El, Forall_app in It, Ab. destruct It as [_ It], Ab as [_ Ab]. pose proof (max_seq_le mx (mb_entries t)).
  assert (Hent : forall e, e ∈ mb_entries t -> 0 <= mt_seq e < m_seq_nr (db_memtable d)) by (intros e He; by apply (lo_entries _ _ _ L 0%nat (content t))).
  assert (Hlt : forall w, w ∈ mem_log m' -> forall e, e ∈ mb_entries t -> mt_seq e < we_seq_nr w).
  { intros w Hw e He. rewrite mem_log_content in Hw. apply list_elem_of_join in Hw as (ws'' & Hw' & Hws). apply list_elem_of_fmap in Hws as (u & -> & Hu).
      apply list_elem_of_lookup in Hu as [j Hj]. apply (lo_tables _ _ _ L 0 (S j) (content t) u e w); [done|done|lia|done|done]. }
  split; cbn [db_memtable]; rewrite ?Es.
  - eexists _, ws'. split; [exact Hi'|]. split; [done|].
    assert (Hempty : mb_entries t = [] -> forall pid, logs pid = [] -> flushed cfg logs ep (mb_entries t) pid = []).
    { intros -> pid E. unfold flushed. by rewrite E. }
    split.
    + intros H0. rewrite Es in H0. destruct F1 as [-> F1]; [done|]. split; [done|]. intros pid. apply Hempty; [|done].
      apply empty_table. intros e He. specialize (Hent e He). lia.
    + intros Hz. apply existsb_exists in Hz as (w & Hw & Hz). apply list_elem_of_In in Hw. apply Z.eqb_eq in Hz.
      destruct F2 as [F2 F3]. { rewrite El. unfold has_first. rewrite existsb_app. apply orb_true_intro. right. apply existsb_exists. exists w.
        split; [by apply list_elem_of_In|by apply Z.eqb_eq]. }
      split.
      * intros pid. apply Hempty; [|done]. apply empty_table. intros e He. specialize (Hlt w Hw e He). specialize (Hent e He). lia.
      * rewrite <- F3, El, (empty_table (mb_wal t)); [done|]. intros x Hx. pose proof (lo_sorted _ _ _ L) as So. pose proof (lo_bound _ _ _ L x) as Hb.
        rewrite <- Ec, <- mem_log_content, El in So, Hb. specialize (Hb ltac:(apply elem_of_app; by left)).
        pose proof (StronglySorted_app_1_elem_of _ _ _ _ _ So Hx Hw) as Hx'. cbn in Hx'. lia.
  - by apply logged_drop in L.
  - done.
  - split; [lia|]. destruct (decide (0 < m_seq_nr (db_memtable d))) as [Hpos|Hneg].
    + right. apply max_seq_lt; [lia|apply Hent].
    + left. rewrite (empty_table (mb_entries t)); [|intros e He; specialize (Hent e He); lia]. cbn. lia.
  - apply Forall_forall. intros w Hw. rewrite Forall_forall in Ab. specialize (Ab w Hw).
    assert (Hlt' : forall e, e ∈ mb_entries t -> mt_seq e < we_seq_nr w) by (by apply Hlt).
    destruct Ab as [Ab|[-> Hz]]; [left; by apply max_seq_lt|]. right. split; [|done]. rewrite (empty_table (mb_entries t)); [done|].
    intros e He. specialize (Hlt' e He). specialize (Hent e He). lia.
Qed.

Lemma life_inv_background d op mx lo ws b m :
  life_inv d op mx lo ws -> b <> FlushDone -> background_step b (db_memtable d) = Some m ->
  life_inv (mk_database m (db_partitions d)) op mx lo ws.
Proof.
  intros [(logs & ws' & Hi & Hseen & F1 & F2) L It Hmx Ab] Hb E. pose proof (background_tables _ _ _ E) as (Es & _ & _ & Et).
  assert (mem_content m = mem_content (db_memtable d)) as Ec by (unfold mem_content; rewrite Et; by destruct b).
  pose proof (mem_log_same _ _ Ec) as El. split; cbn [db_memtable]; rewrite ?El, ?Ec, ?Es; try done.
  exists logs, ws'. split; [by eapply db_inv_background|]. split; [done|]. split; cbn [db_memtable]; by rewrite ?Es, ?El.
Qed.

Lemma life_reachable d op mx lo ws : life d op mx lo ws -> life_inv d op mx lo ws.
Proof.
  induction 1 as [d Hd|d op mx lo ws d' op' acked fl _ IH Hstep]; [by apply life_inv_new|].
  destruct Hstep as [tid w cur Hw Htid Hseq|o d' pc E|op d' [ep u] pend Hp Hf|op b m Hb E|op pid p p' picked Hp Hc Hl]; cbn [flushed_max flushed_epoch foldl fst snd]; rewrite ?app_nil_r.
  - destruct IH as [(logs & ws' & Hi & Hs & F) L It Hmx Ab]. split; try done.
    + exists logs, ws'. split; [by apply db_inv_begin|]. split; [|done]. destruct Hs as [->|(o & ? & _)]; [by left|done].
    + eapply logged_weaken; [|exact L]. done.
  - by eapply life_inv_write.
  - by eapply life_inv_flush.
  - by eapply life_inv_background.
  - destruct IH as [(logs & ws' & Hi & Hs & F) L It Hmx Ab]. split; try done. exists logs, ws'. split; [by eapply db_inv_compact|done].
Qed.
End life.

(** ** Loading *)

(** [replay_wal] hands the entries that [wal::replay] delivers to its
    callback. *)
Definition finish_replay (r : option (memtable * Z * nat)) : option memtable :=
  '(m, max_seq_nr, count) ← r;
  Some (if (0 <? count)%nat then mk_memtable (u64 (max_seq_nr + 1)) (m_table m) (m_pending m) (m_flush_epoch m) (m_gate m) else m).

(** [database::load] on the partitions the manager loads, with the largest
    sequence number of their SSTs and the next number for files, and the
    files of the directory of the log. The outer [None] is an exception. *)
Definition db_load (xxh64_hash : bytes -> Z -> Z) (cfg : db_config) (parts : gmap Z partition) (max_seq_nr flush_iteration : Z)
    (dir : list (string * bytes)) : option (expected database) :=
  match _validate_config cfg with
  | Err e => Some (Err e)
  | Ok _ =>
      let m := make_memtable (memtable_budget_bytes cfg) (num_threads cfg) (max_pending_flushes cfg) flush_iteration in
      '(st, r) ← wal_replay xxh64_hash (fun s e => (replay_entry (Some max_seq_nr) s e, true)) (Some (m, 0, 0%nat)) dir;
      m ← finish_replay r;
      Some (match st with
            | Err e => Err (generic_error "WAL replay failed")
            | Ok _ => Ok (mk_database m (reload <$> parts))
            end)
  end.

(** The log files hold the entries [l], each file those of one thread and
    one slot in the order they were appended. *)
Definition dir_holds (xxh64_hash : bytes -> Z -> Z) (dir : list (string * bytes)) (l : list wal_entry) : Prop :=
  exists names logs,
    Forall (fun n => String.prefix WAL_FILE_PREFIX n = true) names /\ length logs = length names /\
    dir = zip names ((fun l => concat (log_bytes xxh64_hash <$> l)) <$> logs) /\ mjoin logs ≡ₚ l.

Lemma replay_entries_foldl {S} (f : S -> wal_entry -> S) s l : replay_entries (fun s e => (f s e, true)) s l = foldl f s l.
Proof. revert s. induction l as [|e l IH]; intros s; [done|]. apply IH. Qed.

(** A sorted permutation of a list with increasing numbers is that list. *)
Lemma sorted_unique l out :
  StronglySorted (fun a b => we_seq_nr a < we_seq_nr b) l -> StronglySorted seq_le out -> out ≡ₚ l -> out = l.
Proof.
  intros Hl. revert out. induction Hl as [|x l Hl IH Hx]; intros out Ho Hp; [by apply Permutation_nil_r in Hp|].
  destruct out as [|y out]; [by apply Permutation_nil_l in Hp|]. apply StronglySorted_inv in Ho as [Ho Hy]. rewrite Forall_forall in Hx, Hy.
  assert (E : y = x).
  { assert (Hin : y ∈ x :: l) by (rewrite <- Hp; by left). assert (Hin' : x ∈ y :: out) by (rewrite Hp; by left).
    apply elem_of_cons in Hin as [|Hin]; [done|]. apply elem_of_cons in Hin' as [|Hin']; [done|].
    specialize (Hx y Hin). specialize (Hy x Hin'). unfold seq_le in Hy. lia. }
  subst y. f_equal. apply IH; [done|]. by eapply Permutation_cons_inv.
Qed.

Lemma replay_delivers {S} xxh64_hash (f : S -> wal_entry -> S) s dir l :
  dir_holds xxh64_hash dir l -> Forall entry_ok l -> StronglySorted (fun a b => we_seq_nr a < we_seq_nr b) l ->
  wal_replay xxh64_hash (fun s e => (f s e, true)) s dir = Some (ok, foldl f s l).
Proof.
  intros (names & logs & Hn & Hlen & -> & Hp) Hok Hs. unfold wal_replay. rewrite collect_logs by done.
  set (logs2 := filter (fun l => l <> []) logs). assert (Hp2 : mjoin logs2 ≡ₚ l) by (unfold logs2; by rewrite mjoin_filter_nonempty).
  destruct (read_all_entries_spec xxh64_hash logs2) as (out & Hout & Hpo & Hso).
  { apply Forall_forall. intros lg Hlg. apply Forall_forall. intros e He. rewrite Forall_forall in Hok. apply Hok. rewrite <- Hp2.
    apply list_elem_of_join. eauto. }
  rewrite Hp2 in Hpo. pose proof (sorted_unique l out Hs Hso Hpo) as ->.
  destruct logs2 as [|lg logs2'].
  - cbn in Hp2. apply Permutation_nil_l in Hp2. by subst l.
  - rewrite fmap_cons in Hout |- *. rewrite Hout. cbn [mbind option_bind]. by rewrite replay_entries_foldl.
Qed.

(** What the replay keeps. *)
Lemma replay_kept (P : memtable_entry -> Prop) threshold l m mx c m' mx' c' :
  Forall (fun w => forall s, P (mk_mt_entry (we_key w) s (we_value w))) l ->
  foldl (replay_entry (Some threshold)) (Some (m, mx, c)) l = Some (m', mx', c') -> Forall P (mb_entries (m_table m)) ->
  Forall P (mb_entries (m_table m')) /\ m_pending m' = m_pending m /\ m_flush_epoch m' = m_flush_epoch m /\ m_gate m' = m_gate m.
Proof.
  intros Hl. revert m mx c. induction Hl as [|w l Hw Hl IH]; intros m mx c E Hm; [by injection E as <- <- <-|].
  cbn [foldl] in E. unfold replay_entry at 2 in E. cbn [mbind option_bind] in E. destruct (we_seq_nr w <=? threshold); [by apply (IH m mx c)|].
  assert (Hnone : foldl (replay_entry (Some threshold)) None l = None) by (clear; by induction l).
  destruct (mb_arenas (m_table m) !! 0%nat) as [a|]; cbn [mbind option_bind] in E; [|congruence].
  destruct (allocate_many a _ _) as [a' [|]]; [|congruence]. apply IH in E; [done|]. cbn [m_table mb_entries].
  apply Forall_forall. intros x Hx. apply skiplist_insert_elem in Hx as [->|Hx]; [apply Hw|]. rewrite Forall_forall in Hm. by apply Hm.
Qed.

Lemma mem_ok_raise n m s :
  mem_ok n m -> m_seq_nr m <= s <= UINT64_MAX -> mem_ok n (mk_memtable s (m_table m) (m_pending m) (m_flush_epoch m) (m_gate m)).
Proof.
  intros [A B C] Hs. split; [cbn; lia| |done]. cbn. eapply Forall_impl; [exact B|]. intros t. apply buffer_ok_mono. lia.
Qed.

Section restart.
Context (xxh64_hash : bytes -> Z -> Z) (cfg : db_config).
Context (Hexp : 0 <= num_partition_exponent cfg <= MAX_PARTITION_EXPONENT) (Hthreads : (0 < num_threads cfg)%nat).
Context (Hlevels : (0 < max_num_levels cfg)%nat) (Hcap : EXTENT_BYTES <= memtable_budget_bytes cfg).

Lemma wal_item_entry w s : wal_item_ok w -> 0 <= we_seq_nr w < s -> s <= UINT64_MAX -> entry_ok w.
Proof.
  intros [_ (H1 & H2 & _)] Hw Hs. apply entry_fits_page in H2. cbn in H1, H2. unfold UINT64_MAX in Hs. unfold PAGE_SIZE_IN_BYTES, KiB in H2.
  split; [lia|]. unfold MIN_KEY_LEN, MAX_KEY_LEN in *. split; lia.
Qed.

(** The write numbered zero is the first of the log, and skipped. *)
Lemma replayed_first l :
  has_first l = true -> StronglySorted (fun a b => we_seq_nr a < we_seq_nr b) l -> (forall w, w ∈ l -> 0 <= we_seq_nr w) ->
  exists w0 l', l = w0 :: l' /\ replayed 0 l = l'.
Proof.
  intros Hf Hs Hb. apply existsb_exists in Hf as (w & Hw & Hz). apply list_elem_of_In in Hw. apply Z.eqb_eq in Hz.
  destruct l as [|w0 l]; [by apply elem_of_nil in Hw|]. apply StronglySorted_inv in Hs as [_ Hs]. rewrite Forall_forall in Hs.
  pose proof (Hb w0 ltac:(left)) as H0. assert (E : w = w0).
  { apply elem_of_cons in Hw as [|Hw]; [done|]. specialize (Hs w Hw). lia. }
  subst w. exists w0, l. split; [done|]. unfold replayed. rewrite filter_cons_False by lia. apply filter_all, Forall_forall.
  intros x Hx. specialize (Hs x Hx). lia.
Qed.

Lemma replayed_all mx l : has_first l = false -> Forall (above mx) l -> replayed mx l = l.
Proof.
  intros Hf Ab. apply filter_all, Forall_forall. intros w Hw. rewrite Forall_forall in Ab. destruct (Ab w Hw) as [|[_ E]]; [done|].
  assert (has_first l = true); [|congruence]. apply existsb_exists. exists w. split; [by apply list_elem_of_In|by apply Z.eqb_eq].
Qed.

Lemma last_value_kvs l k : last_value l k = latest ((fun x : kv => [x]) <$> log_kvs l) k.
Proof. unfold last_value, log_kvs. by rewrite <- list_fmap_compose. Qed.

(** The writes that a restart finds: all, but the first one while it is in
    the log only. *)
Definition surviving (l : list wal_entry) (ws : list write_t) : list write_t := if has_first l then tail ws else ws.

Lemma surviving_values d logs lo mx ws k :
  db_inv cfg d None logs lo ws -> first_ok (db_memtable d) logs ws ->
  logged_ok (fun _ => True) (mem_content (db_memtable d)) (m_seq_nr (db_memtable d)) -> 0 <= mx -> Forall (above mx) (mem_log (db_memtable d)) ->
  match last_value (replayed mx (mem_log (db_memtable d))) k with Some v => Some v | None => latest (logs (_find_matching_partition_for_key cfg k)).*2 k end =
  latest (write_runs (surviving (mem_log (db_memtable d)) ws)) k.
Proof.
  intros Hi [_ F] L Hmx Ab. unfold surviving. destruct (has_first (mem_log (db_memtable d))) eqn:Ef.
  - destruct (F eq_refl) as [F1 F2]. assert (mx = 0) as ->.
    { apply existsb_exists in Ef as (w & Hw & Hz). apply list_elem_of_In in Hw. apply Z.eqb_eq in Hz. rewrite Forall_forall in Ab. destruct (Ab w Hw) as [|[? _]]; [lia|done]. }
    destruct (replayed_first (mem_log (db_memtable d))) as (w0 & l' & E & ->); [done|rewrite mem_log_content; apply L| |].
    { intros w Hw. rewrite mem_log_content in Hw. apply (lo_bound _ _ _ L) in Hw. lia. }
    rewrite F1. rewrite E in F2. destruct ws as [|w ws]; [done|]. unfold log_kvs in F2. rewrite !fmap_cons in F2. injection F2 as _ _ F2. cbn [tail].
    rewrite last_value_kvs. unfold log_kvs. rewrite F2. unfold write_runs. rewrite <- list_fmap_compose. cbn. by destruct (latest _ k).
  - rewrite replayed_all by done. rewrite <- (di_abs _ _ _ _ _ _ Hi k), latest_app. pose proof (lo_values _ _ _ L 0 k I) as V.
    rewrite !drop_0, <- mem_log_content, <- mem_runs_content in V. by rewrite V.
Qed.

Lemma restart_inv d mx lo ws flush_iteration dir :
  life cfg d None mx lo ws -> lo < flush_iteration -> dir_holds xxh64_hash dir (mem_log (db_memtable d)) ->
  log_size (mem_log (db_memtable d)) <= EXTENT_BYTES ->
  exists d' logs, db_load xxh64_hash cfg (db_partitions d) mx flush_iteration dir = Some (Ok d') /\
    db_inv cfg d' None logs lo (surviving (mem_log (db_memtable d)) ws).
Proof.
  intros Hl Hit Hdir Hsize. destruct (life_reachable cfg Hexp Hlevels Hcap d None mx lo ws Hl) as [(logs & ws' & Hi & [->|(o & ? & _)] & F) L It [Hmx0 _] Ab]; [|done].
  pose proof (fun k => surviving_values d logs lo mx ws k Hi F L Hmx0 Ab) as Hsurv.
  set (l := mem_log (db_memtable d)) in *. pose proof (mo_seq _ _ (di_mem _ _ _ _ _ _ Hi)) as Hseq.
  assert (Hb : forall w, w ∈ l -> 0 <= we_seq_nr w < m_seq_nr (db_memtable d)) by (intros w Hw; apply (lo_bound _ _ _ L); by rewrite <- mem_log_content).
  assert (Hs : StronglySorted (fun a b => we_seq_nr a < we_seq_nr b) l) by (unfold l; rewrite mem_log_content; apply L).
  rewrite Forall_forall in It. set (m0 := make_memtable (memtable_budget_bytes cfg) (num_threads cfg) (max_pending_flushes cfg) flush_iteration).
  destruct (replay_loop (memtable_budget_bytes cfg) (num_threads cfg) Hthreads mx l m0 0 0 0) as (m & mx' & E & Hm & Hsq & _ & _ & Hmx & Hruns); try done.
  { apply make_memtable_ok. }
  { unfold m0. cbn [make_memtable m_table make_mem_buffer mb_arenas]. rewrite lookup_replicate_2 by done. by rewrite make_arena_full. }
  { apply Forall_forall. intros w Hw. specialize (Hb w Hw). split; [by left|]. split; [lia|]. apply (It w Hw). }
  unfold db_load. rewrite (replay_delivers xxh64_hash _ _ dir l Hdir); [|apply Forall_forall; intros w Hw; eapply wal_item_entry; eauto; lia|done].
  unfold _validate_config. rewrite (proj2 (Z.ltb_ge _ _)) by lia. cbn [mbind option_bind].
  fold m0. rewrite E. unfold ok. cbn [finish_replay mbind option_bind]. rewrite Nat.add_0_l. eexists _, logs. split; [done|].
  destruct (replay_kept mt_entry_ok mx l m0 0 0 m mx' (0 + length (replayed mx l))) as (K1 & K2 & K3 & K4); [|exact E|constructor|].
  { apply Forall_forall. intros w Hw s. exact (It w Hw). }
  assert (Hmx' : 0 <= mx' < UINT64_MAX) by (destruct Hmx as [->|(w & Hw & ->)]; [unfold UINT64_MAX; lia|specialize (Hb w Hw); lia]).
  set (m' := if (0 <? length (replayed mx l))%nat then _ else m).
  assert (Hm' : mem_ok (num_threads cfg) m').
  { unfold m'. destruct (0 <? _)%nat; [|done]. rewrite (wrap_small 64 (mx' + 1)) by (unfold UINT64_MAX in *; lia). apply mem_ok_raise; [done|lia]. }
  assert (Hsame : m_table m' = m_table m /\ m_pending m' = m_pending m /\ m_flush_epoch m' = m_flush_epoch m /\ m_gate m' = m_gate m) by (unfold m'; by destruct (0 <? _)%nat).
  destruct Hsame as (T1 & T2 & T3 & T4). split; cbn [db_memtable db_partitions pc_of].
  - done.
  - done.
  - destruct (make_memtable_gate (memtable_budget_bytes cfg) (num_threads cfg) (max_pending_flushes cfg) flush_iteration) as [G1 G2 G3]. fold m0 in G1, G2, G3.
    split; by rewrite T4, K4, ?T2, ?K2.
  - exists 0%nat. split; [done|lia].
  - unfold kept_ok, mem_tables, epochs. rewrite T1, T2, T3, K2, K3. cbn. split_ands; [by apply Forall_singleton|repeat constructor|by repeat constructor].
  - intros pid Hpid. destruct (di_parts _ _ _ _ _ _ Hi pid Hpid) as (p & Hp & Hr & Hlo). exists (reload p). rewrite lookup_fmap, Hp.
    split; [done|]. split; [by apply reach_reload|done].
  - intros k. rewrite <- Hsurv, latest_app. unfold mem_runs, mem_tables in *. rewrite T1, T2, Hruns.
    by destruct (last_value (replayed mx l) k).
Qed.
End restart.

(** ** Properties *)

(** What a database does after [d0], where no write is under way. *)
Inductive db_run (cfg : db_config) (d0 : database) : database -> option write_op -> list write_t -> Prop :=
  | run_start : db_run cfg d0 d0 None []
  | run_step d op ws d' op' acked fl : db_run cfg d0 d op ws -> db_step cfg d op d' op' acked fl -> db_run cfg d0 d' op' (ws ++ acked).

Lemma db_run_inv cfg d0 logs0 lo0 ws0 d op ws :
  0 <= num_partition_exponent cfg <= MAX_PARTITION_EXPONENT -> (0 < max_num_levels cfg)%nat -> EXTENT_BYTES <= memtable_budget_bytes cfg ->
  db_inv cfg d0 None logs0 lo0 ws0 -> db_run cfg d0 d op ws -> exists logs lo ws', db_inv cfg d op logs lo ws' /\ seen op (ws0 ++ ws) ws'.
Proof.
  intros Hexp Hlevels Hcap Hi. induction 1 as [|d op ws d' op' acked fl _ (logs & lo & ws' & IH & Hs) Hstep].
  - exists logs0, lo0, ws0. split; [done|]. left. by rewrite app_nil_r.
  - rewrite app_assoc. by eapply db_inv_step.
Qed.

Lemma life_exponent cfg d op mx lo ws : life cfg d op mx lo ws -> num_partition_exponent cfg <= MAX_PARTITION_EXPONENT.
Proof.
  induction 1 as [d Hd|]; try done. unfold make_new, _validate_config in Hd.
  destruct (Z.ltb_spec MAX_PARTITION_EXPONENT (num_partition_exponent cfg)); [done|lia].
Qed.


Lemma life_write_now cfg d mx lo ws w d' :
  life cfg d None mx lo ws -> write_ok w -> (0 < num_threads cfg)%nat -> m_seq_nr (db_memtable d) + 2 <= UINT64_MAX ->
  write_step cfg 0 w d (PutAcquire true) = Some (d', PutDone) -> life cfg d' None mx lo (ws ++ [w]).
Proof.
  intros Hl Hw Ht Hs E. pose proof (life_step _ _ _ _ _ _ _ _ _ _ Hl (step_begin _ d 0 w true Hw Ht Hs)) as H1. rewrite app_nil_r in H1.
  exact (life_step _ _ _ _ _ _ _ _ _ _ H1 (step_write _ d (mk_write_op 0 w (PutAcquire true)) d' PutDone E)).
Qed.

